(* ===== verification/_CoqProject ===== *)
-Q . S2P
Prelude.v
Text.v
Wire.v
Messages.v
PreambleMsg.v
Transport.v
Codec.v
CodecRead.v
Payload.v
Runtime.v
Endpoint.v
HostCalls.v
NestedGuest.v
HostPromises.v
HostError.v
Receivers.v
Catalog.v
Dispatch.v
Overlay.v
Sandbox.v
OverrideFacts.v
InvocationFacts.v
SdkPromises.v
InvocationPromises.v
GuestCore.v
GuestPromises.v
Locking.v
LockingFacts.v
VfsTypes.v
World.v
Dcache.v
Cred.v
OpenFile.v
Namei.v
Security.v
VfsFacts.v
NameiFacts.v
VfsLogic.v
Mediation.v
Tmpfs.v
TmpfsFacts.v
VfsPromises.v
OverlayFs.v
OverlaySample.v
OverlayPromises.v
Tidy.v
Containment.v
ContainmentPromises.v
TmpfsSpace.v
LayerFacts.v
LowerLayers.v
Witx.v
Descriptors.v
Session.v
FdCalls.v
FdDir.v
PathCalls.v
Preview1.v
CallLogic.v
DescriptorFacts.v
FileFacts.v
GuestPolicy.v
PolicyCalls.v
PolicyPromises.v
GuestSample.v
RxText.v
RxRepeat.v
RxFold.v
RxClasses.v
RxPieces.v
RxTranslate.v
RxRender.v
RxMatch.v
RxRewriteFacts.v
RegexpPromises.v
GuestIo.v
GuestFile.v
GuestScript.v
GuestReach.v
GuestIoPromises.v
