(* ===== verification/Prelude.v ===== *)
(** * kobako, verified

    kobako runs untrusted mruby inside a WebAssembly sandbox embedded in a host
    process.  A host registers Services on a [Sandbox], and each [eval] or
    [run] executes on a fresh guest instance: the host writes a Preamble to the
    guest's stdin and a request into its memory, the guest runs and calls
    Services back through one import, and the host reads an Outcome.  This
    library models that call path, from the bytes of a message to the Execution
    a host reads, and proves what each layer promises the next.

    ** How the parts interact

    <<
      host program
        | Sandbox.v      registration, seal, overrides, eval / run, Execution
        | Catalog.v      Services, snippets, flags, Grants, Extensions
        | Dispatch.v     one Call: target, guest gate, receiver, Reply
        | Receivers.v    Handle table, blocks, receivers as programs
        | Overlay.v      the MessagePack reading of payloads (Codec.v)
        v
      Endpoint.v         upcalls, yields, guest memory, invocation I/O
        |  bytes: Messages.v, PreambleMsg.v over Wire.v
        v
      GuestCore.v        the guest's side: serve, dispatch, answers in memory
    >>

    Beside it, what a guest's file calls reach, a Filesystem mounted by the host:

    <<
      a call by path
        | Namei.v        path walks, lookups, opens and every change by path
        | Security.v     a Mount's Policy and the base module, over Cred.v's hooks
        | Dcache.v       dentries, inodes, locks and super blocks (World.v)
        | OpenFile.v     open files, listings and their positions
        v
      a Filesystem       [VfsTables] and [FileTables]: Tmpfs.v, and OverlayFs.v
                           over any others, which it asks the same way
    >>

    and what a guest's own calls of WASI preview1 reach it by:

    <<
      a call of preview1, its arguments in guest memory
        | Preview1.v     the 36 calls, one [perform] for each
        | FdCalls.v, FdDir.v, PathCalls.v     what each does
        | Session.v      the memory, the clocks, abandonment
        v
      Descriptors.v      numbers and the open files they stand for
        v
      the calls by path and the open files above
    >>

    In the guest, apart from all that, a Ruby pattern becomes the engine's:

    <<
      a source and its options
        | RxPieces.v     pieces, read the way MRI reads them
        | RxTranslate.v  the pieces rewritten (RxRepeat.v, RxFold.v, RxClasses.v)
        v
      the engine's pattern; RxMatch.v, RxRender.v: what is made of its matches
    >>

    and a script's files and streams reach preview1's calls through wasi-libc:

    <<
      a script
        | GuestScript.v  the methods it calls, and what calls it back
        | GuestFile.v    reading, files, paths, stats, directories
        | GuestIo.v      streams, writing, modes, errors, descriptors
        v
      wasi-libc
    >>

    The files come in the order of that path read upwards: the messages first,
    then the payload codec, the endpoint, the SDK, and the guest; then the locks
    and the VFS from its data to its calls, and the Filesystems over it.

    ** Which file models what

    - [Prelude] (this file), [Text]: Rust's [Result], [?], [&mut self] code as
      state passing ([eff]), machine integers as [Z] with their wrap-around,
      byte strings, UTF-8, the ASCII predicates, [Display] and [Debug].
    - [Wire], [Messages], [PreambleMsg]: [crates/kobako-transport] — [abi.rs],
      [envelope.rs] and its submodules: the reader and writer, every request
      and answer, the Preamble's records.  [Transport] proves what each promises.
    - [Codec]: [crates/kobako-codec/src/msgpack] — the closed [Value] set, the
      depth- and budget-guarded [Decoder], the [Encoder], [Arguments].
      [CodecRead] and [Payload] prove it.
    - [Runtime], [Endpoint]: [crates/kobako-runtime] — errors, the memory cap,
      captures, the snapshot, [profile.rs]; [endpoint/buffer.rs], [dispatch.rs], [invoke.rs].
      [HostCalls], [NestedGuest] and [HostPromises] prove them.
    - [HostError], [Receivers], [Catalog], [Dispatch], [Overlay], [Sandbox]:
      [crates/kobako] — [error.rs] and [execution.rs]; [handles.rs],
      [yielder.rs], [receiver.rs]; [catalog.rs], [snippet.rs], [grants.rs],
      [extension.rs] with [kobako-runtime]'s [mount.rs]; [dispatch.rs];
      [msgpack/]; [sandbox.rs], [sandbox/], [payload.rs].  [OverrideFacts]
      and [InvocationFacts] hold the lemmas they share, [SdkPromises] and [InvocationPromises] the properties.
    - [GuestCore], [GuestPromises]: [wasm/kobako-core].
    - [Locking]: [crates/kobako-runtime]'s [sched.rs], [locking.rs],
      [locking/seqlock.rs] and [hashtable.rs]; [LockingFacts] proves it.
    - [VfsTypes], [World], [Dcache], [Cred], [OpenFile], [Namei]: its [vfs/] —
      [errno.rs], [stat.rs], [openat2.rs] and the flag types; what stands at
      addresses and the monad of calls; [dentry.rs], [inode.rs] and
      [super_block.rs]; [mount.rs], [path.rs] and [cred.rs]; [file.rs],
      [attr.rs] and [readdir.rs]; [namei.rs], [stat.rs]'s and [utimes.rs]'s calls.
      [Security]: [security.rs] and [mount.rs]'s Policy.
    - [Tmpfs]: [filesystem/tmpfs.rs], [tmpfs/] and [filesystem/path.rs].  Its
      operations run over any state that holds a Tmpfs's ([TmpfsIn]), so it
      stands alone or beneath another.
    - [OverlayFs]: [filesystem/overlay.rs], [overlay/], [overlay/stack/] and
      [rdir.rs]: a Layer asked as [overlay/path.rs] asks it (Module [Layer]), what
      an inode keeps ([Kept]), lookups, merged listings, copy ups and removals
      ([Fs]) and what a view answers ([View], [stacked_tables]).  [OverlaySample]
      is views of Tmpfs instances, one upon the other; [OverlayPromises]: C22, C32.
      [LayerFacts] is the logic of the VFS's calls on a Layer, over two interfaces,
      what a Layer's reads promise ([LayerReads]) and an upper's changes
      ([UpperChanges]); [LowerLayers] goes through every call a view makes by it,
      and gives both of Tmpfs trees: C17.
    - [VfsFacts], [NameiFacts]: what each step changes, by classes of relations
      ([Still], [Frame], [Moves], [Hosted]) and laws of a Filesystem ([Keeps],
      [Lawful]).  [VfsLogic]: triples over the monad.  [Mediation] and
      [VfsPromises]: C37, C38.  [Tidy], [Containment], [ContainmentPromises]:
      C39, over a Filesystem that is [Housed].  [TmpfsFacts] and [TmpfsSpace]: a
      Tmpfs meets those laws, and C40.
    - [Witx], [Descriptors], [Session], [FdCalls], [FdDir], [PathCalls],
      [Preview1]: [crates/kobako-wasmtime] — [witx/typenames.witx] and
      [preview1/errno.rs]; [descriptors.rs]; [preview1/memory.rs],
      [ambient.rs] and what [invocation.rs] keeps for a call; [preview1/fd.rs];
      [preview1/path.rs] and [preview1/poll.rs]; [preview1.rs].  [CallLogic],
      [DescriptorFacts] (and C23), [FileFacts], [GuestPolicy] and [PolicyCalls] hold
      the lemmas, [PolicyPromises] the other properties, [GuestSample] a flat memory and the witnesses.
    - [RxText], [RxRepeat], [RxFold], [RxClasses], [RxPieces], [RxTranslate]:
      [wasm/kobako-regexp] — Rust's [str] as characters; [translate/repeat.rs],
      [fold.rs], [classes.rs] and [pieces.rs]; [translate.rs].  [RxRender]:
      [regexp/render.rs].  [RxMatch]: [regexp.rs], [regexp/replace.rs],
      [regexp/globals.rs], [matchdata.rs] and [string_ext.rs].  Each file ends
      with what it proves of its part, [RxRewriteFacts] holds what the
      translation keeps as it writes and [RegexpPromises] the properties.  Each
      model closes on the source's own unit tests, evaluated.

    - [GuestIo], [GuestFile], [GuestScript]: [wasm/kobako-io] — [errno.rs],
      [descriptors.rs], [file/mode.rs], [io.rs] and [kernel_ext.rs]; [stream.rs],
      [file.rs], [file/stat.rs] and [dir.rs]; the table of methods each [init]
      defines, and scripts that call them.  [GuestReach] proves what descriptors
      they hand the host, [GuestIoPromises] what they do to a file.

    ** How state and code correspond

    Fallible code is a [result]; a parser threads its reader; endpoint code
    threads a [world], the guest, the Calls open and the host's own state.  A
    host's handler and a guest's entry are code the library cannot see, so they
    are programs (trees): [hprog] and [rprog] name each yield, Handle and state
    access of a receiver, [cprog] each request of an override closure,
    [guest_prog] each host call of a guest.  Everything the code calls of a third party is
    a class with its laws: [Rmp] and [RmpSpec] for the [rmp] crate,
    [CharTables] for the Unicode tables behind [{:?}], [GuestInstance] and
    [GuestLaws] for the Wasm instance, [runtime] and [EngineLaws] for the
    engine, [Malloc] for wasi-libc, [LruCache] for the [lru] crate, [Wiggle] for
    the checked memory preview1 reads arguments from, [Hashing] for an inode
    number's mask, [Unicode] for the tables the regexp crate reads and whether
    it is built with them, [RegexEngine] with [EngineLaws] and [CacheLaws] for
    fancy-regex and its compiled patterns, [Libc] and [FileLaws] for wasi-libc
    and the files behind it, [Ruby] for mruby and what a script overrides.  Each has an instance: [mp_rmp] is the
    MessagePack format itself, [nested] a guest whose code upcalls back into
    [Endpoint.handle] at any depth, [nested_engine] an engine over it, so a
    law stated of the guest is met by host and guest calling each other.

    In the guest's I/O library an object is a value at an address ([Vm]), so an
    array may hold itself and two streams one descriptor; a method is a program
    that answers, raises or traps ([Stop]), and a call back into Ruby is any
    program at all, which [ruby_at] makes a script of, [depth] calls deep.

    A pattern's text is a list of characters and every offset into it a
    character's, as each slice the code takes is at one; where a slice may not
    be, the model panics ([Panicked]).  A subject matched is its UTF-8 bytes.
    What a theorem calls a text's meaning is a relation between the pattern
    written and what it stands for, over the engine's syntax and not the code's
    own printing: [Reads] for repetitions, by the quantifiers the engine reads
    ([Quantifies]), and [Denotes] for spellings.

    The VFS threads a [world] of objects at addresses, as [Arc]s share them: a
    dentry, an inode and a super block is a record in a map, so [Arc::ptr_eq]
    is equality of addresses and every alias sees a change.  Reference counts
    are not kept: [w_strong] answers, anew at each tick, whether a [Weak] still
    upgrades, the clock and the allocator answer the same way, and the theorems
    hold whatever they answer.  A Filesystem is a table of operations over its
    own state, so a trait object is a value of [InodeOps] or [FileOps] and the
    VFS's theorems hold of any.  What a drop frees is a step of its own
    ([Tmpfs.drop_dir]), taken when the host says the last reference went.
    [w_trace] records what a Filesystem was handed that may change it, each entry
    by the path it stood at and an open by its dentry too, which no code reads:
    what a number was granted is an open on record ([licence] in [Mediation],
    [Bound.open_granted] in [PolicyPromises]).

    ** What the theorems show

    - Messages (C1, C2, C5, C6): a request has one spelling and is read only
      from it; an answer reads back; a Preamble round-trips, skips an advisory
      record it does not know and refuses a critical one.
    - Payloads (C7-C9): values round-trip at every length form, and whatever
      decodes is a value of the format within the depth and the value budget;
      the decoder ends on every input.
    - Endpoint (C11-C13): an upcall keeps the Calls as it found them, to any
      nesting; the first trap decides; the answer written is the one the guest
      reads.
    - Registration (C18-C20, C24): Service paths never overlap by segments, the
      registry seals once, an unmet dependency refuses for good, and what each
      install leaves.
    - Invocation (C21, C25, C26, C28-C30): which object a path reaches, how each
      Call is answered, that Handles stay put,
      that values and Handles an Execution reads are the invocation's own and in
      budget, and how each ending is attributed.
    - Guest (C31): host and guest agree on the Preamble, the entry and each
      Call's arm.
    - Guest files (C14, C16, C23): whatever calls a guest makes, each hands a
      Filesystem only what the mount of the number it acts on admits, or resizes
      that number's own file; a number writes a regular file only where its own
      dentry was opened to write, since the launch, at a path every Policy of the
      mount permits a write; and numbers are given out lowest first within the
      table's limit.
    - Guest streams (C3, C33, C34, [modes_open_what_they_name]): a script hands the host no descriptor but the
      captured streams and what its own opens answered; a mode opens exactly what
      it names; lines are the file's, and a write takes every byte, however
      little the host moves at a time.
    - Regexp (C4, C10, C15, C27): a pattern's translation stays in
      step with its reading and ends; stacked quantifiers keep their counts,
      case-insensitive runs the texts that fold with them, and a group's settings
      end with it ([settings_end_with_their_group]); escaped text is its own
      pattern ([escaped_text_is_its_pattern]); [gsub] replaces the matches and nothing else.
    - Locks (C35, C36): a semaphore's wait ends once its holders let go, a
      writer is not overtaken and a fatal signal ends a wait; a seqlock's
      reader answers what one instant's memory answers.
    - Files (C37-C40): a Policy judges every open, and every change at the path it
      is made but the truncation an open asks of [atomic_open]
      ([atomic_open_is_handed_an_unasked_truncation]); a read-only mount hands on
      none, that one included; no walk leaves the directory it began at,
      and a Tmpfs counts exactly what it holds, within its limits.
    - Overlays (C17, C22, C32): whatever a view is asked, in any order, only its
      upper's tree changes, and a file opened to change is the upper's; a merged
      listing shows the topmost of each name and no whiteout, and a copy up is
      whole.

    ** Bounds and fuel

    The decoder's fuel is [DEPTH_FUEL], one more than its deepest nesting; its
    own depth guard stops it first ([fuel_enough], C9).  The Preamble's record
    loop runs on its record count, which the code checks against the bytes
    left.  [nested fuel] bounds how deep a sample guest nests; the endpoint's
    theorems hold of any guest that meets the laws.  A [usize] of the host is 64 bits, of the guest 32.

    A walk of a path follows at most [LINKS] links, one more than the code's own
    [MAXSYMLINKS] lets it, and between two takes one step for each name pending.
    A climb of parents takes at most as many steps as there are dentries
    ([fuel_of]), since each goes to another.  A lookup retried because another
    walk holds the name or the name went stale takes [TURNS] turns: alone, the
    second turn meets no other walk.  A Tmpfs's listing takes one turn for each
    name it holds and one more ([readdir_turns]).  A copy up takes a turn for each
    chunk it reads, at most one for each byte and one more (C32), and the clearing
    of a work directory one for each entry it opens or takes out; a view is given
    both as its [turns].  Where a bound is passed the
    model answers [None], which the theorems of a call's answer exclude and the
    witnesses show does not arise.

    A pattern's reader takes as many turns as its source has characters, since
    each piece is past one or more (C4); a case-insensitive run's expansion one
    more than the run has (C15); the search for matches as many as the subject
    has bytes and two, since each match is sought past the one before it (C27).

    A loop of the guest's I/O library that ends only as the host says takes its
    turns as an argument: as many as the bytes left and one more are enough
    (C33), a write as many as its bytes (C34).  [puts] takes how deep arrays may
    nest.

    ** What is not modelled

    A panic of host code is modelled where the code catches it (an engine's
    [compile]) or answers for it ([DispatchHandler] returning [None]), not
    elsewhere.  Threads are modelled as the sequence their locks impose: the
    registry's mutex makes each beginning a step.  The engine itself
    (wasmtime), mruby, the Ruby gem and its bridge are outside.  The VFS runs
    one call at a time: between two calls any may stand, within one none does,
    so the seqlock's retries inside a walk and a wait for another walk's lookup
    are modelled with nobody else running, and the interleavings only in
    [Locking].  [filesystem/bind.rs] reaches the host's own
    directories through third-party calls, [pipe.rs] an invocation's streams, which
    the descriptor table takes as they come; neither is modelled, nor the tests'
    [wrap.rs] and [vfs/kern_path.rs].  An Overlay's copy up holds one lock and so
    waits for nobody here; what an open directory of a view is charged for its
    listing is given back when the listing ends, not when the file is dropped.  Of the guest's I/O library, turning a
    call's arguments into typed ones ([scan_args]) and defining the classes are
    [beni]'s.  The wasmtime driver, its cache and limiter are calls of the engine.  Of the
    guest's Regexp, how mruby values become text and places, the [String]
    methods that delegate to the core's and registering the classes are left out, and so is what the engine makes of a pattern past the
    forms [Reads] and [Denotes] read. *)
From Stdlib Require Export ZArith Lia.
From Stdlib Require Strings.String Strings.Byte.
From stdpp Require Export base tactics option list numbers.
Export Corelib.Init.Byte.
Export Stdlib.Strings.String.StringSyntax.

Declare Scope rust_scope.
Delimit Scope rust_scope with rust.
#[global] Open Scope rust_scope.
#[global] Open Scope Z_scope.

(** ** [Result<A, E>] *)

Inductive result (E A : Type) : Type :=
| Ok (a : A)
| Err (e : E).
Arguments Ok {E A} a.
Arguments Err {E A} e.

(** The [?] operator. *)
Definition rbind {E A B} (m : result E A) (k : A -> result E B) : result E B :=
  match m with Ok a => k a | Err e => Err e end.

(** [Result::map_err]. *)
Definition map_err {E F A} (f : E -> F) (m : result E A) : result F A :=
  match m with Ok a => Ok a | Err e => Err (f e) end.

(** [Option::ok_or]. *)
Definition ok_or {E A} (m : option A) (e : E) : result E A :=
  match m with Some a => Ok a | None => Err e end.

Notation "'let?' x := m 'in' k" := (rbind m (fun x => k))
  (at level 10, x pattern, m at level 100, k at level 200) : rust_scope.
Notation "x |> f" := (f x)
  (at level 40, left associativity, only parsing) : rust_scope.

(** ** State with failure: [&mut self] code that returns a [Result] *)
Definition eff (W E A : Type) : Type := W -> result E A * W.

Definition eret {W E A} (a : A) : eff W E A := fun w => (Ok a, w).
Definition efail {W E A} (e : E) : eff W E A := fun w => (Err e, w).
Definition elift {W E A} (m : result E A) : eff W E A := fun w => (m, w).
Definition eget {W E} : eff W E W := fun w => (Ok w, w).
Definition emodify {W E} (f : W -> W) : eff W E unit := fun w => (Ok tt, f w).
Definition ebind {W E A B} (m : eff W E A) (k : A -> eff W E B) : eff W E B :=
  fun w => match m w with
           | (Ok a, w') => k a w'
           | (Err e, w') => (Err e, w')
           end.
(** [map_err] whose closure reaches the state. *)
Definition ecatch {W E F A} (m : eff W E A) (f : E -> W -> F * W) : eff W F A :=
  fun w => match m w with
           | (Ok a, w') => (Ok a, w')
           | (Err e, w') => let '(e', w'') := f e w' in (Err e', w'')
           end.

Notation "'let*' x := m 'in' k" := (ebind m (fun x => k))
  (at level 10, x pattern, m at level 100, k at level 200) : rust_scope.

(** [Iterator::map(..).collect::<Result<Vec<_>, _>>()]. *)
Fixpoint traverse {E A B} (f : A -> result E B) (l : list A) : result E (list B) :=
  match l with
  | [] => Ok []
  | a :: l' => let? b := f a in let? bs := traverse f l' in Ok (b :: bs)
  end.

(** [Iterator::try_for_each]. *)
Fixpoint try_for_each {E A} (f : A -> result E unit) (l : list A) : result E unit :=
  match l with
  | [] => Ok tt
  | a :: l' => let? _ := f a in try_for_each f l'
  end.

Lemma rbind_ok {E A B} (m : result E A) (k : A -> result E B) b :
  rbind m k = Ok b <-> exists a, m = Ok a /\ k a = Ok b.
Proof.
  destruct m as [a|e]; simpl; split.
  - eauto.
  - intros (? & [= ->] & ?). done.
  - done.
  - intros (? & ? & _). done.
Qed.

Lemma traverse_ok {E A B} (f : A -> result E B) l bs :
  traverse f l = Ok bs <-> Forall2 (fun a b => f a = Ok b) l bs.
Proof.
  revert bs. induction l as [|a l IH]; intros bs; simpl.
  - split; [intros [= <-]; constructor | inversion 1; done].
  - rewrite rbind_ok. split.
    + intros (b & Hb & H). apply rbind_ok in H as (bs' & Hbs & [= <-]).
      constructor; [done | by apply IH].
    + inversion 1 as [|? b ? bs' Hb Hbs]; subst. exists b. split; [done|].
      apply rbind_ok. exists bs'. split; [by apply IH | done].
Qed.

Lemma try_for_each_ok {E A} (f : A -> result E unit) l :
  try_for_each f l = Ok tt <-> Forall (fun a => f a = Ok tt) l.
Proof.
  induction l as [|a l IH]; simpl.
  - split; [constructor | done].
  - rewrite Forall_cons_iff, rbind_ok. split.
    + intros ([] & Ha & Hl). split; [done | by apply IH].
    + intros [Ha Hl]. exists tt. split; [done | by apply IH].
Qed.

Lemma forallb_true {A} (f : A -> bool) l : forallb f l = true <-> Forall (fun x => f x = true) l.
Proof.
  induction l as [|a l IH]; simpl; [split; [constructor | done]|].
  by rewrite andb_true_iff, Forall_cons_iff, IH.
Qed.

(** ** Machine integers: a [w]-bit integer is its value, wrap-around explicit *)

Definition U8_MAX : Z := 2 ^ 8 - 1.
Definition U32_MAX : Z := 2 ^ 32 - 1.
Definition U64_MAX : Z := 2 ^ 64 - 1.
Definition I64_MAX : Z := 2 ^ 63 - 1.
(** The host is a 64-bit target. *)
Definition USIZE_MAX : Z := 2 ^ 64 - 1.

Definition in_u32 (n : Z) : Prop := 0 <= n < 2 ^ 32.
Definition in_u64 (n : Z) : Prop := 0 <= n < 2 ^ 64.
Definition in_usize (n : Z) : Prop := 0 <= n <= USIZE_MAX.

(** [as u32], [as u64] of an integer. *)
Definition as_u32 (n : Z) : Z := n mod 2 ^ 32.
Definition as_u64 (n : Z) : Z := n mod 2 ^ 64.
(** [as i8], [as i16], [as i32], [as i64]: two's complement at [w] bits. *)
Definition as_signed (w : Z) (n : Z) : Z := (n + 2 ^ (w - 1)) mod 2 ^ w - 2 ^ (w - 1).
Definition as_i32 (n : Z) : Z := as_signed 32 n.
Definition as_i64 (n : Z) : Z := as_signed 64 n.

(** [usize::checked_add], [saturating_sub], [saturating_add], [checked_sub]. *)
Definition checked_add (a b : Z) : option Z :=
  if a + b <=? USIZE_MAX then Some (a + b) else None.
Definition saturating_sub (a b : Z) : Z := Z.max 0 (a - b).
Definition saturating_add (a b : Z) : Z := Z.min USIZE_MAX (a + b).
Definition checked_sub (a b : Z) : option Z :=
  if b <=? a then Some (a - b) else None.

(** [Vec::len] as a [usize]. *)
Definition len {A} (l : list A) : Z := Z.of_nat (length l).

Lemma len_nonneg {A} (l : list A) : 0 <= len l.
Proof. unfold len. lia. Qed.
Lemma len_app {A} (l k : list A) : len (l ++ k) = len l + len k.
Proof. unfold len. rewrite length_app. lia. Qed.
Lemma len_cons {A} (a : A) l : len (a :: l) = 1 + len l.
Proof. unfold len. simpl length. lia. Qed.
Lemma len_nil {A} : len (@nil A) = 0.
Proof. done. Qed.
Lemma len_map {A B} (f : A -> B) l : len (map f l) = len l.
Proof. unfold len. by rewrite length_map. Qed.
Lemma len_0 {A} (l : list A) : len l = 0 -> l = [].
Proof. unfold len. destruct l; simpl; [done | lia]. Qed.

(** Lengths normalise, and every [len] is known not to be negative. *)
Create HintDb rust.
Create Rewrite HintDb rust_len.
#[export] Hint Rewrite @len_app @len_cons @len_nil @len_map : rust_len.
#[export] Hint Resolve len_nonneg : rust.

Ltac len_bounds :=
  repeat match goal with
  | |- context [len ?l] =>
    lazymatch goal with
    | _ : 0 <= len l |- _ => fail
    | _ => pose proof (len_nonneg l)
    end
  | _ : context [len ?l] |- _ =>
    lazymatch goal with
    | _ : 0 <= len l |- _ => fail
    | _ => pose proof (len_nonneg l)
    end
  end.

Ltac len_lia := autorewrite with rust_len in *; len_bounds; lia.

Lemma as_u32_id n : in_u32 n -> as_u32 n = n.
Proof. apply Z.mod_small. Qed.
Lemma as_u32_range n : in_u32 (as_u32 n).
Proof. unfold in_u32, as_u32. apply Z.mod_pos_bound. lia. Qed.

(** [slice.get(i..j)]. *)
Definition slice_get {A} (l : list A) (i j : Z) : option (list A) :=
  if (0 <=? i) && (i <=? j) && (j <=? len l)
  then Some (take (Z.to_nat (j - i)) (drop (Z.to_nat i) l))
  else None.

(** [slice.get(i)]. *)
Definition vec_get {A} (l : list A) (i : Z) : option A :=
  if (0 <=? i) && (i <? len l) then l !! Z.to_nat i else None.

Lemma slice_get_mid {A} (pre mid suf : list A) :
  slice_get (pre ++ mid ++ suf) (len pre) (len pre + len mid) = Some mid.
Proof.
  unfold slice_get. rewrite !len_app.
  pose proof (len_nonneg pre). pose proof (len_nonneg mid). pose proof (len_nonneg suf).
  replace (0 <=? len pre) with true by (symmetry; apply Z.leb_le; lia).
  replace (len pre <=? len pre + len mid) with true by (symmetry; apply Z.leb_le; lia).
  replace (len pre + len mid <=? len pre + (len mid + len suf)) with true
    by (symmetry; apply Z.leb_le; lia).
  simpl. f_equal. replace (len pre + len mid - len pre) with (len mid) by lia.
  unfold len. rewrite !Nat2Z.id, drop_app_length, take_app_length. done.
Qed.

Lemma slice_get_inv {A} (pre suf : list A) n s :
  slice_get (pre ++ suf) (len pre) (len pre + n) = Some s ->
  exists suf', suf = s ++ suf' /\ len s = n.
Proof.
  unfold slice_get. destruct (_ && _) eqn:E; [|done].
  apply andb_true_iff in E as [E E3]. apply andb_true_iff in E as [E1 E2].
  apply Z.leb_le in E1, E2, E3. rewrite len_app in E3. intros [= <-].
  exists (drop (Z.to_nat n) suf).
  replace (len pre + n - len pre) with n by lia.
  unfold len in *. rewrite !Nat2Z.id, drop_app_length. rewrite take_drop. split; [done|].
  rewrite length_take. lia.
Qed.

Lemma slice_get_short {A} (pre suf : list A) n :
  0 <= n -> len suf < n -> slice_get (pre ++ suf) (len pre) (len pre + n) = None.
Proof.
  intros Hn Hs. unfold slice_get. rewrite len_app.
  replace (len pre + n <=? len pre + len suf) with false
    by (symmetry; apply Z.leb_gt; lia).
  by rewrite andb_false_r.
Qed.

(** ** Bytes *)

#[export] Instance byte_eq_dec : EqDecision byte := Byte.byte_eq_dec.

Definition byte_to_Z (b : byte) : Z := Z.of_N (Byte.to_N b).
(** [as u8]. *)
Definition byte_of_Z (z : Z) : byte :=
  match Byte.of_N (Z.to_N (z mod 256)) with Some b => b | None => x00 end.

Lemma byte_to_Z_range b : 0 <= byte_to_Z b < 256.
Proof. unfold byte_to_Z. pose proof (Byte.to_N_bounded b). lia. Qed.

Lemma byte_of_to_Z b : byte_of_Z (byte_to_Z b) = b.
Proof.
  unfold byte_of_Z. rewrite Z.mod_small by apply byte_to_Z_range.
  unfold byte_to_Z. rewrite N2Z.id, Byte.of_to_N. done.
Qed.

Lemma byte_to_of_Z z : byte_to_Z (byte_of_Z z) = z mod 256.
Proof.
  unfold byte_of_Z. pose proof (Z.mod_pos_bound z 256 ltac:(lia)).
  destruct (Byte.of_N _) as [b|] eqn:E.
  - apply Byte.to_of_N in E. unfold byte_to_Z. rewrite E. lia.
  - apply Byte.of_N_None_iff in E. lia.
Qed.

Lemma byte_to_Z_inj a b : byte_to_Z a = byte_to_Z b -> a = b.
Proof. intros H. by rewrite <- (byte_of_to_Z a), <- (byte_of_to_Z b), H. Qed.

(** A static string of the source, as bytes. *)
Definition lit (s : String.string) : list byte := String.list_byte_of_string s.
Arguments lit s%_string_scope.

(** ** Big-endian integers: [to_be_bytes] and [from_be_bytes] *)

Fixpoint be_encode (n : nat) (z : Z) : list byte :=
  match n with
  | O => []
  | S n' => be_encode n' (z / 256) ++ [byte_of_Z z]
  end.

Definition be_decode (bs : list byte) : Z :=
  fold_left (fun acc b => acc * 256 + byte_to_Z b) bs 0.

Lemma length_be_encode n z : length (be_encode n z) = n.
Proof.
  revert z. induction n as [|n IH]; intros z; simpl; [done|].
  rewrite length_app, IH. simpl. lia.
Qed.

Lemma len_be_encode n z : len (be_encode n z) = Z.of_nat n.
Proof. unfold len. by rewrite length_be_encode. Qed.

Lemma be_decode_snoc bs b : be_decode (bs ++ [b]) = be_decode bs * 256 + byte_to_Z b.
Proof. unfold be_decode. by rewrite fold_left_app. Qed.

Lemma be_decode_range bs : 0 <= be_decode bs < 256 ^ len bs.
Proof.
  induction bs as [|b bs IH] using rev_ind; [unfold be_decode, len; simpl; lia|].
  rewrite be_decode_snoc, len_app. pose proof (byte_to_Z_range b).
  rewrite Z.pow_add_r by (unfold len; lia).
  change (256 ^ len [b]) with 256. nia.
Qed.

Lemma be_decode_encode n z : be_decode (be_encode n z) = z mod 256 ^ Z.of_nat n.
Proof.
  revert z. induction n as [|n IH]; intros z.
  - simpl. by rewrite Z.mod_1_r.
  - simpl be_encode. rewrite be_decode_snoc, IH, byte_to_of_Z.
    rewrite Nat2Z.inj_succ, Z.pow_succ_r by lia.
    rewrite Z.rem_mul_r by lia. lia.
Qed.

Lemma be_encode_decode bs : be_encode (length bs) (be_decode bs) = bs.
Proof.
  induction bs as [|b bs IH] using rev_ind; [done|].
  rewrite length_app, Nat.add_comm. simpl. rewrite be_decode_snoc.
  pose proof (byte_to_Z_range b).
  rewrite Z.div_add_l, Z.div_small, Z.add_0_r, IH by lia. do 2 f_equal.
  apply byte_to_Z_inj. rewrite byte_to_of_Z.
  rewrite Z.add_comm, Z.mod_add, Z.mod_small by lia. done.
Qed.

#[global] Arguments be_encode : simpl never.
#[global] Arguments be_decode : simpl never.
#[global] Arguments len : simpl never.
