(* ===== verification/Text.v ===== *)
(** Rust's text as the sources use it: [str::from_utf8], [str::chars], the
    ASCII predicates of [char], [str::split] and [str::starts_with], and the
    [Display] and [Debug] renderings a message is built from.  A [&str] or a
    [String] is its UTF-8 bytes; [utf8_valid] is the invariant Rust keeps. *)
From Stdlib Require Import DecimalString HexadecimalString.
From S2P Require Import Prelude.

(** ** UTF-8 *)

Definition is_cont (b : byte) : bool :=
  let z := byte_to_Z b in (0x80 <=? z) && (z <? 0xC0).

Definition cont_bits (b : byte) : Z := byte_to_Z b - 0x80.

(** Whether the second byte is one the lead byte [z0] allows, so an overlong
    form, a surrogate and a value past U+10FFFF are refused. *)
Definition second_ok (z0 z1 : Z) : bool :=
  if z0 =? 0xE0 then (0xA0 <=? z1) && (z1 <? 0xC0)
  else if z0 =? 0xED then (0x80 <=? z1) && (z1 <? 0xA0)
  else if z0 =? 0xF0 then (0x90 <=? z1) && (z1 <? 0xC0)
  else if z0 =? 0xF4 then (0x80 <=? z1) && (z1 <? 0x90)
  else (0x80 <=? z1) && (z1 <? 0xC0).

(** The characters of [bs], or [None] where [bs] is not UTF-8. *)
Fixpoint utf8_decode (bs : list byte) : option (list Z) :=
  match bs with
  | [] => Some []
  | b0 :: r0 =>
    let z0 := byte_to_Z b0 in
    if z0 <? 0x80 then cs ← utf8_decode r0; Some (z0 :: cs)
    else if (0xC2 <=? z0) && (z0 <=? 0xDF) then
      match r0 with
      | b1 :: r1 =>
        if is_cont b1
        then cs ← utf8_decode r1; Some ((z0 - 0xC0) * 64 + cont_bits b1 :: cs)
        else None
      | _ => None
      end
    else if (0xE0 <=? z0) && (z0 <=? 0xEF) then
      match r0 with
      | b1 :: b2 :: r2 =>
        if second_ok z0 (byte_to_Z b1) && is_cont b2
        then cs ← utf8_decode r2;
             Some ((z0 - 0xE0) * 4096 + cont_bits b1 * 64 + cont_bits b2 :: cs)
        else None
      | _ => None
      end
    else if (0xF0 <=? z0) && (z0 <=? 0xF4) then
      match r0 with
      | b1 :: b2 :: b3 :: r3 =>
        if second_ok z0 (byte_to_Z b1) && is_cont b2 && is_cont b3
        then cs ← utf8_decode r3;
             Some ((z0 - 0xF0) * 262144 + cont_bits b1 * 4096 + cont_bits b2 * 64
                   + cont_bits b3 :: cs)
        else None
      | _ => None
      end
    else None
  end.

(** [str::from_utf8(..).is_ok()]. *)
Definition utf8_valid (bs : list byte) : bool :=
  match utf8_decode bs with Some _ => true | None => false end.

(** [str::chars]. *)
Definition chars (s : list byte) : list Z := default [] (utf8_decode s).

(** Decoding splits at any boundary its first part ends on. *)
Lemma utf8_decode_app_aux n a b ca :
  (length a <= n)%nat -> utf8_decode a = Some ca ->
  utf8_decode (a ++ b) = cb ← utf8_decode b; Some (ca ++ cb).
Proof.
  revert a ca. induction n as [|n IH]; intros a ca Hn Ha.
  - destruct a; [|simpl in Hn; lia]. injection Ha as <-. simpl.
    by destruct (utf8_decode b).
  - destruct a as [|b0 r0]; [injection Ha as <-; simpl; by destruct (utf8_decode b)|].
    simpl in Ha, Hn |- *.
    repeat match type of Ha with
      | context [if ?c then _ else _] => destruct c eqn:?; try discriminate
      | context [match ?r with [] => _ | _ :: _ => _ end] => destruct r as [|? ?]; try discriminate
      end;
    simpl in Hn, Ha |- *; 
    repeat match goal with H : ?c = true |- context [?c] => rewrite H end;
    match type of Ha with
    | context [utf8_decode ?r] =>
        destruct (utf8_decode r) as [cs|] eqn:Hr; [|discriminate];
        injection Ha as <-; rewrite (IH r cs) by (done || lia);
        by destruct (utf8_decode b)
    end.
Qed.

Lemma utf8_valid_app a b : utf8_valid a = true -> utf8_valid b = true -> utf8_valid (a ++ b) = true.
Proof.
  unfold utf8_valid. intros Ha Hb.
  destruct (utf8_decode a) as [ca|] eqn:Ea; [|done].
  rewrite (utf8_decode_app_aux (length a) a b ca) by done.
  by destruct (utf8_decode b).
Qed.

(** An ASCII byte is a character of its own. *)
Definition is_ascii (b : byte) : bool := byte_to_Z b <? 0x80.

Lemma utf8_decode_ascii bs :
  forallb is_ascii bs = true -> utf8_decode bs = Some (map byte_to_Z bs).
Proof.
  induction bs as [|b bs IH]; [done|]. intros H.
  apply andb_true_iff in H as [Hb H].
  cbn [utf8_decode map]. unfold is_ascii in Hb. rewrite Hb, IH by done. done.
Qed.

Lemma utf8_valid_ascii bs : forallb is_ascii bs = true -> utf8_valid bs = true.
Proof. intros H. unfold utf8_valid. by rewrite utf8_decode_ascii. Qed.

(** ** The ASCII predicates of [char] *)

Definition is_ascii_uppercase (c : Z) : bool := (65 <=? c) && (c <=? 90).
Definition is_ascii_lowercase (c : Z) : bool := (97 <=? c) && (c <=? 122).
Definition is_ascii_digit (c : Z) : bool := (48 <=? c) && (c <=? 57).
Definition is_ascii_alphanumeric (c : Z) : bool :=
  is_ascii_uppercase c || is_ascii_lowercase c || is_ascii_digit c.

(** ** Comparison, prefix and split *)

(** [a == b] of two [str]s. *)
Definition str_eq (a b : list byte) : bool := bool_decide (a = b).

Lemma str_eq_true a b : str_eq a b = true <-> a = b.
Proof. apply bool_decide_eq_true. Qed.
Lemma str_eq_refl a : str_eq a a = true.
Proof. by apply str_eq_true. Qed.

(** [s.starts_with(p)]. *)
Fixpoint starts_with (p s : list byte) : bool :=
  match p, s with
  | [], _ => true
  | a :: p', b :: s' => Byte.eqb a b && starts_with p' s'
  | _ :: _, [] => false
  end.

Lemma byte_eqb_true a b : Byte.eqb a b = true <-> a = b.
Proof. split; [apply Byte.byte_dec_bl | apply Byte.byte_dec_lb]. Qed.

Lemma byte_eqb_refl a : Byte.eqb a a = true.
Proof. by apply byte_eqb_true. Qed.

Lemma starts_with_true p s : starts_with p s = true <-> exists t, s = p ++ t.
Proof.
  revert s. induction p as [|a p IH]; intros s; simpl.
  - split; [by exists s | done].
  - destruct s as [|b s]; [split; [done | by intros [? ?]]|].
    rewrite andb_true_iff, byte_eqb_true, IH. split.
    + intros [-> [t ->]]. by exists t.
    + intros [t [= -> ->]]. split; [done | by exists t].
Qed.

Definition colon : byte := x3a.

(** [s.split("::")]: never empty. *)
Fixpoint split_path (s : list byte) : list (list byte) :=
  match s with
  | [] => [[]]
  | c :: r =>
    match r with
    | c' :: r' =>
      if Byte.eqb c colon && Byte.eqb c' colon then [] :: split_path r'
      else match split_path r with h :: t => (c :: h) :: t | [] => [[c]] end
    | [] => [[c]]
    end
  end.

(** [s.split(sep)] of a one-byte separator: never empty. *)
Fixpoint split_byte (sep : byte) (s : list byte) : list (list byte) :=
  match s with
  | [] => [[]]
  | c :: r =>
    if Byte.eqb c sep then [] :: split_byte sep r
    else match split_byte sep r with h :: t => (c :: h) :: t | [] => [[c]] end
  end.

(** ** [Display] and [Debug] *)

(** [Display] of an unsigned integer. *)
Definition display_uint (n : Z) : list byte :=
  lit (DecimalString.NilZero.string_of_uint (N.to_uint (Z.to_N n))).

(** The Unicode tables [char::escape_debug] consults past ASCII. *)
Class CharTables := { debug_escapes : Z -> bool }.

Section Debug.
Context `{CharTables}.

(** The UTF-8 encoding of a character. *)
Definition char_utf8 (c : Z) : list byte :=
  if c <? 0x80 then [byte_of_Z c]
  else if c <? 0x800 then [byte_of_Z (0xC0 + c / 64); byte_of_Z (0x80 + c mod 64)]
  else if c <? 0x10000 then
    [byte_of_Z (0xE0 + c / 4096); byte_of_Z (0x80 + c / 64 mod 64);
     byte_of_Z (0x80 + c mod 64)]
  else
    [byte_of_Z (0xF0 + c / 262144); byte_of_Z (0x80 + c / 4096 mod 64);
     byte_of_Z (0x80 + c / 64 mod 64); byte_of_Z (0x80 + c mod 64)].

(** [char::escape_debug] as [str]'s [Debug] applies it. *)
Definition escape_debug (c : Z) : list byte :=
  if c =? 0 then lit "\0"
  else if c =? 9 then lit "\t"
  else if c =? 10 then lit "\n"
  else if c =? 13 then lit "\r"
  else if c =? 34 then [x5c; x22]
  else if c =? 92 then [x5c; x5c]
  else if (c <? 32) || (c =? 127) || ((0x80 <=? c) && debug_escapes c)
  then lit "\u{" ++ lit (HexadecimalString.NilZero.string_of_uint (N.to_hex_uint (Z.to_N c))) ++ lit "}"
  else char_utf8 c.

(** [Debug] of a [str]. *)
Definition debug_str (s : list byte) : list byte :=
  [x22] ++ concat (map escape_debug (chars s)) ++ [x22].
End Debug.
