(* ===== verification/Wire.v ===== *)
(** The fixed tier's byte layer: the ABI's values ([kobako-transport/src/abi.rs]),
    the tag registry ([envelope/tag.rs]) and the [Reader] and [Writer] every
    message is read and written with ([envelope/bytes.rs]).  A [Field] pairs a
    reader with the bytes the writer lays down for it: what is written reads
    back, and what reads was written that way. *)
From S2P Require Import Prelude Text.

(** ** The ABI's values *)
Module Abi.
Definition ABI_VERSION : Z := 5.
Definition FRAME_LEN_SIZE : Z := 4.
Definition MAX_DISPATCH_PAYLOAD : Z := 16 * 1024 * 1024.
Definition MAX_FRAME_LEN : Z := 64 * 1024 * 1024.

Definition pack_ptr_len (ptr len : Z) : Z := Z.lor (Z.shiftl ptr 32) len.
Definition unpack_ptr_len (packed : Z) : Z * Z :=
  (as_u32 (Z.shiftr packed 32), as_u32 packed).

(** The halves never overlap, so packing is addition. *)
Lemma pack_sum ptr len : in_u32 len -> pack_ptr_len ptr len = ptr * 2 ^ 32 + len.
Proof.
  intros Hl. unfold pack_ptr_len. rewrite Z.shiftl_mul_pow2 by lia.
  rewrite <- Z.add_lor_land.
  replace (Z.land _ _) with 0; [lia|].
  symmetry. apply Z.bits_inj'. intros n Hn.
  rewrite Z.land_spec, Z.bits_0, <- Z.shiftl_mul_pow2, Z.shiftl_spec by lia.
  destruct (Z.ltb_spec n 32).
  - rewrite Z.testbit_neg_r by lia. done.
  - rewrite <- (Z.mod_small len (2 ^ 32)) by done.
    rewrite Z.mod_pow2_bits_high by lia. apply andb_false_r.
Qed.

Lemma unpack_pack ptr len :
  in_u32 ptr -> in_u32 len -> unpack_ptr_len (pack_ptr_len ptr len) = (ptr, len).
Proof.
  intros Hp Hl. rewrite pack_sum by done. unfold unpack_ptr_len, as_u32, in_u32 in *.
  rewrite Z.shiftr_div_pow2, Z.div_add_l, Z.div_small, Z.add_0_r by lia.
  rewrite Z.add_comm, Z.mod_add, !Z.mod_small by lia. done.
Qed.

Lemma pack_range ptr len : in_u32 ptr -> in_u32 len -> in_u64 (pack_ptr_len ptr len).
Proof. intros Hp Hl. rewrite pack_sum by done. unfold in_u32, in_u64 in *. lia. Qed.
End Abi.

(** ** The tag registry *)
Module Tag.
Definition INVALID : byte := x00.
Definition EVAL : byte := x01.
Definition RUN : byte := x02.
Definition YIELD : byte := x03.
Definition CALL : byte := x04.
Definition BINDINGS : byte := x05.
Definition SNIPPETS : byte := x06.
Definition FLAG : byte := x07.
Definition COMPILE : byte := x08.
Definition OK : byte := x10.
Definition FAULT : byte := x11.
Definition BREAK : byte := x12.
Definition ERROR : byte := x13.
Definition PANIC : byte := x14.
Definition UNSUPPORTED : byte := x15.

Definition is_assigned (tag : byte) : bool :=
  existsb (Byte.eqb tag)
    [INVALID; EVAL; RUN; YIELD; CALL; BINDINGS; SNIPPETS; FLAG; COMPILE;
     OK; FAULT; BREAK; ERROR; PANIC; UNSUPPORTED].
End Tag.

(** ** Decoding errors: a fixed reason *)
Record decode_error := DecodeError { message : list byte }.

(** ** The reader *)
Record reader := Reader { rd_bytes : list byte; rd_pos : Z }.

Definition parser (A : Type) : Type := reader -> result decode_error (A * reader).

Definition pret {A} (a : A) : parser A := fun r => Ok (a, r).
Definition pfail {A} (e : decode_error) : parser A := fun _ => Err e.
Definition pbind {A B} (m : parser A) (k : A -> parser B) : parser B :=
  fun r => let? (a, r') := m r in k a r'.

Notation "'let!' x := m 'in' k" := (pbind m (fun x => k))
  (at level 10, x pattern, m at level 100, k at level 200) : rust_scope.

Definition MALFORMED : decode_error :=
  DecodeError (lit "Envelope ended before its declared length").

Definition reader_new (bytes : list byte) : reader := Reader bytes 0.

Definition read_u8 : parser byte := fun r =>
  let? byte := ok_or (vec_get (rd_bytes r) (rd_pos r)) MALFORMED in
  Ok (byte, Reader (rd_bytes r) (rd_pos r + 1)).

Definition read_u32 : parser Z := fun r =>
  let? stop := ok_or (checked_add (rd_pos r) 4) MALFORMED in
  let? slice := ok_or (slice_get (rd_bytes r) (rd_pos r) stop) MALFORMED in
  Ok (be_decode slice, Reader (rd_bytes r) stop).

Definition read_bytes : parser (list byte) := fun r =>
  let? (n, r) := read_u32 r in
  let? stop := ok_or (checked_add (rd_pos r) n) MALFORMED in
  let? slice := ok_or (slice_get (rd_bytes r) (rd_pos r) stop) MALFORMED in
  Ok (slice, Reader (rd_bytes r) stop).

Definition read_text : parser (list byte) :=
  let! s := read_bytes in
  if utf8_valid s then pret s
  else pfail (DecodeError (lit "Envelope text field is not valid UTF-8")).

Definition remaining (r : reader) : list byte := drop (Z.to_nat (rd_pos r)) (rd_bytes r).

Definition peek_remaining : parser (list byte) := fun r => Ok (remaining r, r).

(** [for _ in 0..count { out.push(element(self)?) }]. *)
Fixpoint repeat_n {A} (n : nat) (element : parser A) : parser (list A) :=
  match n with
  | O => pret []
  | S n' => let! x := element in let! xs := repeat_n n' element in pret (x :: xs)
  end.

Definition read_list {A} (element : parser A) : parser (list A) :=
  let! count := read_u32 in
  let! rest := peek_remaining in
  if len rest / 4 <? count then pfail MALFORMED
  else repeat_n (Z.to_nat count) element.

Definition read_text_list : parser (list (list byte)) := read_list read_text.
Definition read_bytes_list : parser (list (list byte)) := read_list read_bytes.

Definition skip_unknown_fields : parser unit := fun r =>
  Ok (tt, Reader (rd_bytes r) (len (rd_bytes r))).

Definition finish : parser unit := fun r =>
  if rd_pos r =? len (rd_bytes r) then Ok (tt, r)
  else Err (DecodeError (lit "Envelope carries bytes past its last field")).

(** A decoder: [Reader::new] on the message, then its reads. *)
Definition run_parser {A} (p : parser A) (bytes : list byte) : result decode_error A :=
  let? (a, _) := p (reader_new bytes) in Ok a.

(** ** The writer *)
Record writer := Writer { w_out : list byte }.

Definition writer_new : writer := Writer [].
Definition w_u8 (b : byte) (w : writer) : writer := Writer (w_out w ++ [b]).
Definition w_u32 (value : Z) (w : writer) : writer := Writer (w_out w ++ be_encode 4 value).
Definition w_remainder (bs : list byte) (w : writer) : writer := Writer (w_out w ++ bs).
Definition w_bytes (bs : list byte) (w : writer) : writer :=
  let w := w_u32 (as_u32 (len bs)) w in Writer (w_out w ++ bs).
Definition w_list (items : list (list byte)) (w : writer) : writer :=
  fold_left (fun w item => w_bytes item w) items (w_u32 (as_u32 (len items)) w).
Definition into_bytes (w : writer) : list byte := w_out w.

(** The layouts, apart from the buffer they are appended to. *)
Definition enc_u8 (b : byte) : list byte := [b].
Definition enc_u32 (n : Z) : list byte := be_encode 4 (as_u32 n).
Definition enc_bytes (bs : list byte) : list byte := enc_u32 (len bs) ++ bs.
Definition enc_list (items : list (list byte)) : list byte :=
  enc_u32 (len items) ++ concat (map enc_bytes items).

#[global] Arguments enc_u8 : simpl never.
#[global] Arguments enc_u32 : simpl never.
#[global] Arguments enc_bytes : simpl never.
#[global] Arguments enc_list : simpl never.

Lemma be_encode_mod n z : be_encode n (z mod 256 ^ Z.of_nat n) = be_encode n z.
Proof.
  rewrite <- be_decode_encode. rewrite <- (length_be_encode n z) at 1.
  apply be_encode_decode.
Qed.

Lemma w_u8_out b w : w_out (w_u8 b w) = w_out w ++ enc_u8 b.
Proof. done. Qed.
Lemma w_u32_out n w : w_out (w_u32 n w) = w_out w ++ enc_u32 n.
Proof. unfold w_u32, enc_u32, as_u32. simpl w_out. f_equal. symmetry. apply (be_encode_mod 4). Qed.
Lemma w_remainder_out bs w : w_out (w_remainder bs w) = w_out w ++ bs.
Proof. done. Qed.
Lemma w_bytes_out bs w : w_out (w_bytes bs w) = w_out w ++ enc_bytes bs.
Proof. unfold w_bytes, enc_bytes, enc_u32. simpl. by rewrite <- app_assoc. Qed.
Lemma w_list_out items w : w_out (w_list items w) = w_out w ++ enc_list items.
Proof.
  unfold w_list, enc_list, enc_u32. rewrite app_assoc.
  change (w_out w ++ be_encode 4 (as_u32 (len items)))
    with (w_out (w_u32 (as_u32 (len items)) w)).
  generalize (w_u32 (as_u32 (len items)) w) as v.
  induction items as [|x items IH]; intros v; simpl.
  - by rewrite app_nil_r.
  - by rewrite IH, w_bytes_out, <- app_assoc.
Qed.

Create Rewrite HintDb wire.
Lemma w_new_out : w_out writer_new = [].
Proof. done. Qed.

#[export] Hint Rewrite w_new_out w_u8_out w_u32_out w_remainder_out w_bytes_out w_list_out
  (@app_nil_l byte) (@app_nil_r byte) : wire.
#[export] Hint Rewrite <- (@app_assoc byte) : wire.

(** An encoder's output as the layouts it lays down. *)
Ltac wire_layout := unfold into_bytes; autorewrite with wire.

(** ** Readers by position: [at_ pre suf] has read [pre] and is to read [suf] *)

Definition at_ (pre suf : list byte) : reader := Reader (pre ++ suf) (len pre).

(** A slice never outgrows the address space. *)
Definition fits (bs : list byte) : Prop := len bs <= USIZE_MAX.

Lemma at_bytes pre suf : rd_bytes (at_ pre suf) = pre ++ suf.
Proof. done. Qed.
Lemma at_pos pre suf : rd_pos (at_ pre suf) = len pre.
Proof. done. Qed.

Lemma reader_new_at bs : reader_new bs = at_ [] bs.
Proof. done. Qed.

Lemma remaining_at pre suf : remaining (at_ pre suf) = suf.
Proof. unfold remaining, at_, len. simpl. rewrite Nat2Z.id. by rewrite drop_app_length. Qed.

Lemma finish_at pre suf r' : finish (at_ pre suf) = Ok (tt, r') <-> suf = [] /\ r' = at_ pre [].
Proof.
  unfold finish, at_. simpl. rewrite len_app. split.
  - case_match eqn:E; [|done]. apply Z.eqb_eq in E. intros [= <-].
    assert (suf = []) as -> by (apply len_0; lia). done.
  - intros [-> ->]. rewrite len_nil, Z.add_0_r, Z.eqb_refl. done.
Qed.

Lemma skip_unknown_at pre suf : skip_unknown_fields (at_ pre suf) = Ok (tt, at_ (pre ++ suf) []).
Proof. unfold skip_unknown_fields, at_. simpl. by rewrite app_nil_r. Qed.

Lemma at_assoc pre a suf : Reader (pre ++ a ++ suf) (len pre + len a) = at_ (pre ++ a) suf.
Proof. unfold at_. by rewrite len_app, <- app_assoc. Qed.

Ltac rd_simpl := cbn [ok_or rbind].
Tactic Notation "rd_simpl" "in" hyp(H) := cbn [ok_or rbind] in H.

(** ** Fields *)

(** What a [rd] reads is exactly what a writer lays down as [wr] for a value
    [ok] describes, and nothing else reads. *)
Class Field {A} (rd : parser A) (wr : A -> list byte) (ok : A -> Prop) : Prop := {
  field_complete a pre suf :
    ok a -> fits (pre ++ wr a ++ suf) ->
    rd (at_ pre (wr a ++ suf)) = Ok (a, at_ (pre ++ wr a) suf);
  field_sound a pre suf r' :
    rd (at_ pre suf) = Ok (a, r') ->
    ok a /\ exists suf', suf = wr a ++ suf' /\ r' = at_ (pre ++ wr a) suf';
}.

Lemma pbind_ok {A B} (m : parser A) (k : A -> parser B) r b r' :
  pbind m k r = Ok (b, r') <-> exists a r1, m r = Ok (a, r1) /\ k a r1 = Ok (b, r').
Proof.
  unfold pbind. rewrite rbind_ok. split.
  - intros ([a r1] & H1 & H2). eauto.
  - intros (a & r1 & H1 & H2). by exists (a, r1).
Qed.

Lemma pbind_step {A B} (m : parser A) (k : A -> parser B) r a r1 :
  m r = Ok (a, r1) -> pbind m k r = k a r1.
Proof. intros H. unfold pbind. by rewrite H. Qed.

Lemma checked_add_fits pre bs suf :
  fits (pre ++ bs ++ suf) -> checked_add (len pre) (len bs) = Some (len pre + len bs).
Proof.
  unfold fits, checked_add. rewrite !len_app. pose proof (len_nonneg suf). intros.
  case_match eqn:E; [done|]. apply Z.leb_gt in E. lia.
Qed.

Lemma checked_add_some a b c : checked_add a b = Some c -> c = a + b.
Proof. unfold checked_add. by case_match; intros [= <-]. Qed.

#[export] Instance field_u8 : Field read_u8 enc_u8 (fun _ => True).
Proof.
  split.
  - intros b pre suf _ _. unfold enc_u8. cbn [app]. unfold read_u8. rewrite at_bytes, at_pos.
    unfold vec_get. rewrite len_app, len_cons. pose proof (len_nonneg pre).
    pose proof (len_nonneg suf).
    replace (_ && _) with true
      by (symmetry; apply andb_true_iff; rewrite Z.leb_le, Z.ltb_lt; lia).
    unfold len at 1. rewrite Nat2Z.id, list_lookup_middle by done. rd_simpl.
    by rewrite <- (at_assoc pre [b]).
  - intros b pre suf r' H. unfold enc_u8, read_u8 in *. rewrite at_bytes, at_pos in H. split; [done|].
    unfold vec_get in H. destruct (_ && _) eqn:E; [|done].
    unfold len in H at 1. rewrite Nat2Z.id in H.
    destruct suf as [|c suf].
    { rewrite app_nil_r in E. apply andb_true_iff in E as [_ E]. apply Z.ltb_lt in E. lia. }
    rewrite list_lookup_middle in H by done. rd_simpl in H. injection H as <- <-.
    exists suf. split; [done|]. by rewrite <- (at_assoc pre [c]).
Qed.

#[export] Instance field_u32 : Field read_u32 enc_u32 in_u32.
Proof.
  split.
  - intros n pre suf Hn Hf. unfold read_u32. rewrite at_bytes, at_pos.
    assert (len (enc_u32 n) = 4) as L4 by apply len_be_encode.
    rewrite <- L4. rewrite (checked_add_fits _ _ suf) by done. rd_simpl.
    rewrite slice_get_mid. rd_simpl. rewrite L4.
    unfold enc_u32 at 1. rewrite be_decode_encode, as_u32_id by done.
    rewrite Z.mod_small by done. by rewrite <- at_assoc, L4.
  - intros n pre suf r' H. unfold read_u32 in H. rewrite at_bytes, at_pos in H.
    destruct (checked_add _ _) as [stop|] eqn:E; [|done]. rd_simpl in H.
    apply checked_add_some in E as ->.
    destruct (slice_get _ _ _) as [s|] eqn:E; [|done]. rd_simpl in H. injection H as <- <-.
    apply slice_get_inv in E as (suf' & -> & L4).
    pose proof (be_decode_range s) as R. rewrite L4 in R. split; [done|].
    exists suf'. assert (enc_u32 (be_decode s) = s) as ->.
    { unfold enc_u32. rewrite as_u32_id by done.
      replace 4%nat with (length s) by (unfold len in L4; lia). apply be_encode_decode. }
    split; [done|]. by rewrite <- at_assoc, L4.
Qed.

(** A length prefix the [u32] can carry. *)
Definition ok_bytes (bs : list byte) : Prop := in_u32 (len bs).
Definition ok_text (s : list byte) : Prop := utf8_valid s = true /\ in_u32 (len s).

#[export] Instance field_bytes : Field read_bytes enc_bytes ok_bytes.
Proof.
  split.
  - intros bs pre suf Hn Hf. unfold read_bytes, enc_bytes in *. rewrite <- app_assoc in *.
    rewrite field_complete by done. rd_simpl. rewrite at_bytes, at_pos.
    rewrite app_assoc in Hf. rewrite (checked_add_fits _ _ suf) by done. rd_simpl.
    rewrite slice_get_mid. rd_simpl. by rewrite at_assoc, app_assoc.
  - intros bs pre suf r' H. unfold read_bytes in H.
    apply rbind_ok in H as ([n r1] & H1 & H).
    apply field_sound in H1 as (Hn & suf1 & -> & ->). rewrite at_bytes, at_pos in H.
    destruct (checked_add _ _) as [stop|] eqn:E; [|done]. rd_simpl in H.
    apply checked_add_some in E as ->.
    destruct (slice_get _ _ _) as [s|] eqn:E; [|done]. rd_simpl in H. injection H as <- <-.
    apply slice_get_inv in E as (suf' & -> & <-). split; [done|].
    exists suf'. unfold enc_bytes. rewrite <- app_assoc. split; [done|].
    by rewrite at_assoc, app_assoc.
Qed.

#[export] Instance field_text : Field read_text enc_bytes ok_text.
Proof.
  split.
  - intros s pre suf [Hv Hn] Hf. unfold read_text.
    erewrite pbind_step by by apply field_complete. by rewrite Hv.
  - intros s pre suf r' H. unfold read_text in H.
    apply pbind_ok in H as (s' & r1 & H1 & H).
    apply field_sound in H1 as (Hn & suf' & -> & ->).
    destruct (utf8_valid s') eqn:Hv; [|done]. injection H as <- <-.
    split; [done|]. by exists suf'.
Qed.

(** [repeat_n] over a field reads that field's layouts one after another. *)
Lemma repeat_n_complete {A} (rd : parser A) wr ok `{!Field rd wr ok} xs pre suf :
  Forall ok xs -> fits (pre ++ concat (map wr xs) ++ suf) ->
  repeat_n (length xs) rd (at_ pre (concat (map wr xs) ++ suf))
  = Ok (xs, at_ (pre ++ concat (map wr xs)) suf).
Proof.
  revert pre. induction xs as [|x xs IH]; intros pre Hok Hf; cbn [repeat_n map concat length].
  - by rewrite app_nil_r.
  - apply Forall_cons_iff in Hok as [Hx Hxs].
    cbn [map concat] in Hf. rewrite <- app_assoc in Hf |- *.
    erewrite pbind_step by by apply field_complete.
    rewrite app_assoc in Hf. erewrite pbind_step by by apply IH.
    by rewrite app_assoc.
Qed.

Lemma repeat_n_sound {A} (rd : parser A) wr ok `{!Field rd wr ok} n xs pre suf r' :
  repeat_n n rd (at_ pre suf) = Ok (xs, r') ->
  length xs = n /\ Forall ok xs /\
  exists suf', suf = concat (map wr xs) ++ suf' /\ r' = at_ (pre ++ concat (map wr xs)) suf'.
Proof.
  revert xs pre suf. induction n as [|n IH]; intros xs pre suf H; cbn [repeat_n] in H.
  - injection H as <- <-. split; [done|]. split; [constructor|].
    exists suf. simpl. by rewrite app_nil_r.
  - apply pbind_ok in H as (x & r1 & H1 & H).
    apply field_sound in H1 as (Hx & s1 & -> & ->).
    apply pbind_ok in H as (xs' & r2 & H2 & H). injection H as <- <-.
    apply IH in H2 as (Hn & Hxs & s2 & -> & ->). split; [simpl; lia|].
    split; [by constructor|]. exists s2. cbn [map concat]. by rewrite <- !app_assoc.
Qed.

(** Every element opens with a [u32] length, so [n] of them are [4 * n] bytes. *)
Lemma concat_len {A} (wr : A -> list byte) xs :
  (forall x, 4 <= len (wr x)) -> 4 * len xs <= len (concat (map wr xs)).
Proof.
  intros H. induction xs as [|x xs IH]; [done|].
  cbn [map concat]. rewrite len_cons, len_app. specialize (H x). lia.
Qed.

Lemma enc_u32_len n : len (enc_u32 n) = 4.
Proof. apply len_be_encode. Qed.
Lemma enc_bytes_len bs : len (enc_bytes bs) = 4 + len bs.
Proof. unfold enc_bytes. by rewrite len_app, enc_u32_len. Qed.

Section ReadList.
Context (rd : parser (list byte)) (ok : list byte -> Prop) `{!Field rd enc_bytes ok}.

Definition ok_list (xs : list (list byte)) : Prop := in_u32 (len xs) /\ Forall ok xs.

#[local] Instance field_list : Field (read_list rd) enc_list ok_list.
Proof.
  split.
  - intros xs pre suf [Hn Hxs] Hf. unfold read_list, enc_list in *.
    rewrite <- app_assoc in *.
    erewrite pbind_step by by apply field_complete.
    erewrite pbind_step by done. rewrite remaining_at.
    pose proof (concat_len enc_bytes xs) as L. rewrite len_app.
    pose proof (len_nonneg suf).
    case_match eqn:E.
    { apply Z.ltb_lt in E.
      assert (4 * len xs <= len (concat (map enc_bytes xs))).
      { apply L. intros x. rewrite enc_bytes_len. pose proof (len_nonneg x). lia. }
      pose proof (Z.mul_div_le (len (concat (map enc_bytes xs)) + len suf) 4 ltac:(lia)).
      pose proof (Z.mod_pos_bound (len (concat (map enc_bytes xs)) + len suf) 4 ltac:(lia)).
      pose proof (Z.div_mod (len (concat (map enc_bytes xs)) + len suf) 4 ltac:(lia)). lia. }
    unfold len at 1. rewrite Nat2Z.id.
    rewrite app_assoc in Hf. rewrite (repeat_n_complete rd enc_bytes ok) by done. by rewrite app_assoc.
  - intros xs pre suf r' H. unfold read_list in H.
    apply pbind_ok in H as (n & r1 & H1 & H). apply field_sound in H1 as (Hn & s1 & -> & ->).
    apply pbind_ok in H as (rest & r2 & [= <- <-] & H).
    case_match; [done|]. apply (repeat_n_sound rd enc_bytes ok) in H as (Hl & Hxs & s2 & -> & ->).
    assert (len xs = n) as <- by (unfold len, in_u32 in *; lia).
    split; [done|]. exists s2. unfold enc_list. by rewrite <- !app_assoc.
Qed.
End ReadList.

#[export] Instance field_text_list : Field read_text_list enc_list (ok_list ok_text).
Proof. exact (field_list read_text ok_text). Qed.
#[export] Instance field_bytes_list : Field read_bytes_list enc_list (ok_list ok_bytes).
Proof. exact (field_list read_bytes ok_bytes). Qed.

(** ** Reading and writing whole messages *)

Lemma enc_u8_len b : len (enc_u8 b) = 1.
Proof. done. Qed.

(** The bounds a decoder's steps ask for, all from the message's own. *)
Ltac solve_fits :=
  unfold fits in *; repeat rewrite ?len_app, ?len_nil in *; lia.

Lemma field_complete_end {A} (rd : parser A) wr ok `{!Field rd wr ok} a pre :
  ok a -> fits (pre ++ wr a) -> rd (at_ pre (wr a)) = Ok (a, at_ (pre ++ wr a) []).
Proof.
  intros Ha Hf. rewrite <- (app_nil_r (wr a)) at 1.
  apply field_complete; [done|]. by rewrite app_nil_r.
Qed.

(** One step of a decoder over the layout it expects. *)
Ltac read_field :=
  first
    [ erewrite pbind_step by (apply field_complete; [done | solve_fits])
    | erewrite pbind_step by (eapply field_complete_end; [apply _ | done | solve_fits])
    | erewrite pbind_step by (unfold peek_remaining; rewrite remaining_at; reflexivity)
    | erewrite pbind_step by (apply finish_at; done)
    | erewrite pbind_step by (apply skip_unknown_at) ].

(** What a decoder that answered must have read. *)
Ltac sound_field H :=
  let a := fresh "a" in let r := fresh "r" in let Hr := fresh "Hr" in
  let Ha := fresh "Ha" in let s := fresh "s" in
  apply pbind_ok in H as (a & r & Hr & H);
  first
    [ unfold peek_remaining in Hr; rewrite remaining_at in Hr; injection Hr as <- <-
    | destruct a; apply finish_at in Hr as [-> ->]
    | rewrite skip_unknown_at in Hr; injection Hr as <- <-
    | apply field_sound in Hr as (Ha & s & -> & ->) ].

Lemma run_parser_ok {A} (p : parser A) bs a :
  run_parser p bs = Ok a <-> exists r, p (at_ [] bs) = Ok (a, r).
Proof.
  unfold run_parser. rewrite reader_new_at, rbind_ok. split.
  - intros ([a' r] & H & [= <-]). eauto.
  - intros [r H]. by exists (a, r).
Qed.

(** Decide the comparisons of constant tags. *)
Ltac tag_simpl :=
  repeat match goal with
  | |- context [Byte.eqb ?a ?b] =>
      let v := eval vm_compute in (Byte.eqb a b) in
      lazymatch v with
      | true => change (Byte.eqb a b) with true
      | false => change (Byte.eqb a b) with false
      end; cbv iota
  end.

(** The tag a decoder branched on. *)
Ltac split_tag H :=
  repeat match type of H with
  | context [if Byte.eqb ?a ?b then _ else _] =>
      let E := fresh "E" in
      destruct (Byte.eqb a b) eqn:E;
      [ apply byte_eqb_true in E; subst a | ]
  end.
