(* ===== verification/Messages.v ===== *)
(** The Envelope's messages ([kobako-transport/src/envelope/]): the requests a
    downcall and an upcall carry, the answers to each, and the records they are
    made of, each with its [encode] and [decode] as the source writes them.

    The Envelope's layouts, and that each decoder accepts exactly them. *)
From S2P Require Import Prelude Text Wire.

(** ** Unsupported ([unsupported.rs]) *)
Module Unsupported.
Definition KIND_UNSUPPORTED : byte := x00.
Record t := Mk { message : list byte }.

Definition encode (u : t) : list byte :=
  into_bytes (writer_new |> w_u8 Tag.UNSUPPORTED |> w_u8 KIND_UNSUPPORTED
              |> w_bytes (message u)).

Definition read : parser t :=
  let! _ := read_u8 in
  let! message := read_text in
  let! _ := skip_unknown_fields in
  pret (Mk message).
End Unsupported.

(** ** Fault ([fault.rs]) *)
Module FaultKind.
Definition KIND_RUNTIME : byte := x00.
Definition KIND_ARGUMENT : byte := x01.
Definition KIND_UNDEFINED : byte := x02.
Definition KIND_INTERNAL : byte := x03.
Definition KIND_BLOCK : byte := x04.

Inductive t := Runtime | Argument | Undefined | Internal | Block.

#[export] Instance eq_dec : EqDecision t.
Proof. solve_decision. Defined.

Definition tag (k : t) : byte :=
  match k with
  | Runtime => KIND_RUNTIME
  | Argument => KIND_ARGUMENT
  | Undefined => KIND_UNDEFINED
  | Internal => KIND_INTERNAL
  | Block => KIND_BLOCK
  end.

Definition from_tag (tag : byte) : t :=
  if Byte.eqb tag KIND_RUNTIME then Runtime
  else if Byte.eqb tag KIND_ARGUMENT then Argument
  else if Byte.eqb tag KIND_INTERNAL then Internal
  else if Byte.eqb tag KIND_BLOCK then Block
  else Undefined.

Definition name (k : t) : list byte :=
  match k with
  | Runtime => lit "runtime"
  | Argument => lit "argument"
  | Undefined => lit "undefined"
  | Internal => lit "internal"
  | Block => lit "block"
  end.

Definition from_name (name : list byte) : option t :=
  if str_eq name (lit "runtime") then Some Runtime
  else if str_eq name (lit "argument") then Some Argument
  else if str_eq name (lit "undefined") then Some Undefined
  else if str_eq name (lit "internal") then Some Internal
  else if str_eq name (lit "block") then Some Block
  else None.
End FaultKind.

Module Fault.
Record t := Mk { kind : FaultKind.t; message : list byte }.

Definition read : parser t :=
  let! tag := read_u8 in
  let! message := read_text in
  let! _ := skip_unknown_fields in
  pret (Mk (FaultKind.from_tag tag) message).

Definition write (f : t) (w : writer) : writer :=
  w |> w_u8 (FaultKind.tag (kind f)) |> w_bytes (message f).
End Fault.

(** ** Error Record ([error_record.rs]) *)
Module ErrorRecord.
Record t := Mk {
  name : list byte;
  message : list byte;
  backtrace : list (list byte);
}.

Definition read : parser t :=
  let! name := read_text in
  let! message := read_text in
  let! backtrace := read_text_list in
  pret (Mk name message backtrace).

Definition write (e : t) (w : writer) : writer :=
  w |> w_bytes (name e) |> w_bytes (message e) |> w_list (backtrace e).
End ErrorRecord.

(** ** Run ([run.rs]) *)
Module Run.
Record t := Mk { entrypoint : list byte; payload : list byte }.

Definition decode (bytes : list byte) : result decode_error t :=
  run_parser (let! entrypoint := read_text in
              let! payload := peek_remaining in
              pret (Mk entrypoint payload)) bytes.

Definition encode (m : t) : list byte :=
  into_bytes (writer_new |> w_bytes (entrypoint m) |> w_remainder (payload m)).
End Run.

(** ** Call ([call.rs]) *)
Module Call.
Definition KIND_PATH : byte := x00.
Definition KIND_HANDLE : byte := x01.

Inductive target := Path (path : list byte) | Handle (id : Z).

Record t := Mk {
  to : target;
  method : list byte;
  block_given : bool;
  payload : list byte;
}.

Definition read_target : parser target :=
  let! kind := read_u8 in
  if Byte.eqb kind KIND_PATH then let! path := read_text in pret (Path path)
  else if Byte.eqb kind KIND_HANDLE then let! id := read_u32 in pret (Handle id)
  else pfail (DecodeError (lit "Call kind must be 0 (path) or 1 (handle)")).

Definition is_sentinel (to : target) : bool :=
  match to with Handle id => id =? 0 | Path _ => false end.

Definition read_block_given : parser bool :=
  let! flag := read_u8 in
  if Byte.eqb flag x00 then pret false
  else if Byte.eqb flag x01 then pret true
  else pfail (DecodeError (lit "Call block_given must be 0 or 1")).

Definition decode (bytes : list byte) : result decode_error t :=
  run_parser
    (let! to := read_target in
     if is_sentinel to
     then pfail (DecodeError (lit "Call target Handle id 0 is the invalid sentinel"))
     else
       let! method := read_text in
       let! block_given := read_block_given in
       let! payload := peek_remaining in
       pret (Mk to method block_given payload)) bytes.

Definition encode (c : t) : list byte :=
  let w := match to c with
           | Path path => writer_new |> w_u8 KIND_PATH |> w_bytes path
           | Handle id => writer_new |> w_u8 KIND_HANDLE |> w_u32 id
           end in
  into_bytes (w |> w_bytes (method c) |> w_u8 (if block_given c then x01 else x00)
                |> w_remainder (payload c)).
End Call.

(** ** Requests ([request.rs]) *)

(** A tag the registry has not assigned. *)
Module UnknownTag.
Record t := Mk { get : byte }.
Definition new (tag : byte) : option t :=
  if negb (Tag.is_assigned tag) then Some (Mk tag) else None.
End UnknownTag.

Definition read_tag : parser byte :=
  let! tag := read_u8 in
  if Byte.eqb tag Tag.INVALID then pfail (DecodeError (lit "request tag 0x00 is invalid"))
  else pret tag.

Definition unknown (tag : byte) : result decode_error UnknownTag.t :=
  ok_or (UnknownTag.new tag)
    (DecodeError (lit "request tag is assigned to the other direction or to an answer")).

(** A result of another decoder, inside one. *)
Definition plift {A} (m : result decode_error A) : parser A :=
  fun r => let? a := m in Ok (a, r).

Module Downcall.
Inductive t :=
| Eval (source : list byte)
| Run (run : Run.t)
| Yield (frame : Z) (args : list byte)
| Compile
| Unknown (tag : UnknownTag.t) (body : list byte).

Definition decode (bytes : list byte) : result decode_error t :=
  run_parser
    (let! tag := read_tag in
     let! body := peek_remaining in
     if Byte.eqb tag Tag.EVAL then pret (Eval body)
     else if Byte.eqb tag Tag.RUN then let! run := plift (Run.decode body) in pret (Run run)
     else if Byte.eqb tag Tag.YIELD then
       let! frame := read_u32 in
       let! args := peek_remaining in
       pret (Yield frame args)
     else if Byte.eqb tag Tag.COMPILE then
       match body with
       | [] => pret Compile
       | _ => pfail (DecodeError (lit "a compile request carries no body"))
       end
     else let! tag := plift (unknown tag) in pret (Unknown tag body)) bytes.

Definition encode (d : t) : list byte :=
  into_bytes
    match d with
    | Eval source => writer_new |> w_u8 Tag.EVAL |> w_remainder source
    | Run run => writer_new |> w_u8 Tag.RUN |> w_remainder (Run.encode run)
    | Yield frame args => writer_new |> w_u8 Tag.YIELD |> w_u32 frame |> w_remainder args
    | Compile => writer_new |> w_u8 Tag.COMPILE
    | Unknown tag body => writer_new |> w_u8 (UnknownTag.get tag) |> w_remainder body
    end.
End Downcall.

Module Upcall.
Inductive t :=
| Call (call : Call.t)
| Unknown (tag : UnknownTag.t) (body : list byte).

Definition decode (bytes : list byte) : result decode_error t :=
  run_parser
    (let! tag := read_tag in
     let! body := peek_remaining in
     if Byte.eqb tag Tag.CALL then let! call := plift (Call.decode body) in pret (Call call)
     else let! tag := plift (unknown tag) in pret (Unknown tag body)) bytes.

Definition encode (u : t) : list byte :=
  into_bytes
    match u with
    | Call call => writer_new |> w_u8 Tag.CALL |> w_remainder (Call.encode call)
    | Unknown tag body => writer_new |> w_u8 (UnknownTag.get tag) |> w_remainder body
    end.
End Upcall.

(** ** Answers *)

(** [reply.rs] *)
Module Reply.
Inductive t :=
| Ok (body : list byte)
| Fault (fault : Fault.t)
| Break
| Unsupported (refusal : Unsupported.t).

Definition decode (bytes : list byte) : result decode_error t :=
  run_parser
    (let! tag := read_u8 in
     if Byte.eqb tag Tag.OK then let! body := peek_remaining in pret (Ok body)
     else if Byte.eqb tag Tag.FAULT then let! fault := Fault.read in pret (Fault fault)
     else if Byte.eqb tag Tag.BREAK then let! _ := finish in pret Break
     else if Byte.eqb tag Tag.UNSUPPORTED then
       let! refusal := Unsupported.read in pret (Unsupported refusal)
     else pfail (DecodeError (lit "Reply tag must be 0x10 (ok), 0x11 (fault), 0x12 (break), or 0x15 (unsupported)")))
    bytes.

Definition encode (m : t) : list byte :=
  match m with
  | Ok body => into_bytes (writer_new |> w_u8 Tag.OK |> w_remainder body)
  | Fault fault => into_bytes (writer_new |> w_u8 Tag.FAULT |> Fault.write fault)
  | Break => into_bytes (writer_new |> w_u8 Tag.BREAK)
  | Unsupported refusal => Unsupported.encode refusal
  end.
End Reply.

Module YieldReply.
Inductive t :=
| Ok (body : list byte)
| Break
| Error (record : ErrorRecord.t)
| Unsupported (refusal : Unsupported.t).

Definition decode (bytes : list byte) : result decode_error t :=
  run_parser
    (let! tag := read_u8 in
     if Byte.eqb tag Tag.OK then let! body := peek_remaining in pret (Ok body)
     else if Byte.eqb tag Tag.BREAK then let! _ := finish in pret Break
     else if Byte.eqb tag Tag.ERROR then
       let! record := ErrorRecord.read in
       let! _ := finish in
       pret (Error record)
     else if Byte.eqb tag Tag.UNSUPPORTED then
       let! refusal := Unsupported.read in pret (Unsupported refusal)
     else pfail (DecodeError (lit "Yield Reply tag is not recognised"))) bytes.

Definition encode (m : t) : list byte :=
  match m with
  | Ok body => into_bytes (writer_new |> w_u8 Tag.OK |> w_remainder body)
  | Break => into_bytes (writer_new |> w_u8 Tag.BREAK)
  | Error record => into_bytes (writer_new |> w_u8 Tag.ERROR |> ErrorRecord.write record)
  | Unsupported refusal => Unsupported.encode refusal
  end.
End YieldReply.

(** [compile_reply.rs] *)
Module CompileReply.
Inductive t :=
| Ok (bytecodes : list (list byte))
| Error (record : ErrorRecord.t)
| Unsupported (refusal : Unsupported.t).

Definition decode (bytes : list byte) : result decode_error t :=
  run_parser
    (let! tag := read_u8 in
     if Byte.eqb tag Tag.OK then
       let! bytecodes := read_bytes_list in
       let! _ := finish in
       pret (Ok bytecodes)
     else if Byte.eqb tag Tag.ERROR then
       let! record := ErrorRecord.read in
       let! _ := finish in
       pret (Error record)
     else if Byte.eqb tag Tag.UNSUPPORTED then
       let! refusal := Unsupported.read in pret (Unsupported refusal)
     else pfail (DecodeError (lit "Compile Reply tag must be 0x10 (ok), 0x13 (error), or 0x15 (unsupported)")))
    bytes.

Definition encode (m : t) : list byte :=
  match m with
  | Ok bytecodes => into_bytes (writer_new |> w_u8 Tag.OK |> w_list bytecodes)
  | Error record => into_bytes (writer_new |> w_u8 Tag.ERROR |> ErrorRecord.write record)
  | Unsupported refusal => Unsupported.encode refusal
  end.
End CompileReply.

(** [outcome.rs] *)
Module Origin.
Inductive t := Sandbox | Service.
Definition name (o : t) : list byte :=
  match o with Sandbox => lit "sandbox" | Service => lit "service" end.
Definition from_name (name : list byte) : t :=
  if str_eq name (lit "service") then Service else Sandbox.
End Origin.

Module Panic.
Record t := Mk {
  origin : Origin.t;
  error : ErrorRecord.t;
  available : list (list byte);
}.
End Panic.

Module Outcome.
Inductive t :=
| Ok (value : list byte)
| Panic (panic : Panic.t)
| Unsupported (refusal : Unsupported.t).

Definition decode (bytes : list byte) : result decode_error t :=
  run_parser
    (let! tag := read_u8 in
     if Byte.eqb tag Tag.OK then let! value := peek_remaining in pret (Ok value)
     else if Byte.eqb tag Tag.PANIC then
       let! origin := read_text in
       let! error := ErrorRecord.read in
       let! available := read_text_list in
       let! _ := finish in
       pret (Panic (Panic.Mk (Origin.from_name origin) error available))
     else if Byte.eqb tag Tag.UNSUPPORTED then
       let! refusal := Unsupported.read in pret (Unsupported refusal)
     else pfail (DecodeError (lit "Outcome tag must be 0x10 (ok), 0x14 (panic), or 0x15 (unsupported)")))
    bytes.

Definition encode (m : t) : list byte :=
  match m with
  | Ok value => into_bytes (writer_new |> w_u8 Tag.OK |> w_remainder value)
  | Panic panic =>
    into_bytes (writer_new |> w_u8 Tag.PANIC |> w_bytes (Origin.name (Panic.origin panic))
                |> ErrorRecord.write (Panic.error panic)
                |> w_list (Panic.available panic))
  | Unsupported refusal => Unsupported.encode refusal
  end.
End Outcome.

(** ** Well-formed messages *)

Definition ok_unsupported (u : Unsupported.t) : Prop := ok_text (Unsupported.message u).
Definition ok_fault (f : Fault.t) : Prop := ok_text (Fault.message f).
Definition ok_error_record (e : ErrorRecord.t) : Prop :=
  ok_text (ErrorRecord.name e) /\ ok_text (ErrorRecord.message e)
  /\ ok_list ok_text (ErrorRecord.backtrace e).
Definition ok_run (m : Run.t) : Prop := ok_text (Run.entrypoint m).
Definition ok_target (to : Call.target) : Prop :=
  match to with Call.Path path => ok_text path | Call.Handle id => in_u32 id end.
Definition ok_call (c : Call.t) : Prop :=
  ok_target (Call.to c) /\ Call.is_sentinel (Call.to c) = false /\ ok_text (Call.method c).

(** ** Layouts *)

Definition enc_error_record (e : ErrorRecord.t) : list byte :=
  enc_bytes (ErrorRecord.name e) ++ enc_bytes (ErrorRecord.message e)
  ++ enc_list (ErrorRecord.backtrace e).
Definition enc_target (to : Call.target) : list byte :=
  match to with
  | Call.Path path => enc_u8 Call.KIND_PATH ++ enc_bytes path
  | Call.Handle id => enc_u8 Call.KIND_HANDLE ++ enc_u32 id
  end.
Definition enc_flag (b : bool) : list byte := enc_u8 (if b then x01 else x00).

Lemma unsupported_encode_layout u :
  Unsupported.encode u
  = enc_u8 Tag.UNSUPPORTED ++ enc_u8 Unsupported.KIND_UNSUPPORTED
    ++ enc_bytes (Unsupported.message u).
Proof. unfold Unsupported.encode. by wire_layout. Qed.

Lemma run_encode_layout m :
  Run.encode m = enc_bytes (Run.entrypoint m) ++ Run.payload m.
Proof. unfold Run.encode. by wire_layout. Qed.

Lemma call_encode_layout c :
  Call.encode c
  = enc_target (Call.to c) ++ enc_bytes (Call.method c) ++ enc_flag (Call.block_given c)
    ++ Call.payload c.
Proof.
  unfold Call.encode, enc_target. destruct (Call.to c); by wire_layout.
Qed.

Lemma error_record_write_out e w :
  w_out (ErrorRecord.write e w) = w_out w ++ enc_error_record e.
Proof. unfold ErrorRecord.write, enc_error_record. by wire_layout. Qed.

Lemma fault_write_out f w :
  w_out (Fault.write f w)
  = w_out w ++ enc_u8 (FaultKind.tag (Fault.kind f)) ++ enc_bytes (Fault.message f).
Proof. unfold Fault.write. by wire_layout. Qed.

#[export] Hint Rewrite error_record_write_out fault_write_out : wire.

(** ** Composite fields *)

#[export] Instance field_error_record : Field ErrorRecord.read enc_error_record ok_error_record.
Proof.
  split.
  - intros e pre suf (Hn & Hm & Hb) Hf. unfold ErrorRecord.read, enc_error_record in *.
    rewrite <- !app_assoc in *. do 3 read_field.
    unfold pret. rewrite <- !app_assoc. by destruct e.
  - intros e pre suf r' H. unfold ErrorRecord.read in H. do 3 sound_field H.
    injection H as <- <-. split; [done|]. eexists. unfold enc_error_record.
    cbn [ErrorRecord.name ErrorRecord.message ErrorRecord.backtrace]. by wire_layout.
Qed.

#[export] Instance field_target : Field Call.read_target enc_target ok_target.
Proof.
  split.
  - intros [path|id] pre suf Hok Hf; unfold Call.read_target, enc_target in *;
      rewrite <- !app_assoc in *; read_field; tag_simpl; read_field; by wire_layout.
  - intros to pre suf r' H. unfold Call.read_target in H. sound_field H.
    destruct (Byte.eqb a Call.KIND_PATH) eqn:E1;
      [|destruct (Byte.eqb a Call.KIND_HANDLE) eqn:E2; [|done]].
    all: sound_field H; injection H as <- <-; split; [done|]; eexists; cbn [enc_target];
      match goal with E : Byte.eqb _ _ = true |- _ => apply byte_eqb_true in E as -> end;
      by wire_layout.
Qed.

#[export] Instance field_block_given :
  Field Call.read_block_given enc_flag (fun _ => True).
Proof.
  split.
  - intros b pre suf _ Hf. unfold Call.read_block_given, enc_flag in *. read_field.
    by destruct b.
  - intros b pre suf r' H. unfold Call.read_block_given in H. sound_field H.
    split; [done|]. exists s. unfold enc_flag.
    destruct (Byte.eqb a x00) eqn:E1; [|destruct (Byte.eqb a x01) eqn:E2; [|done]];
    injection H as <- <-;
    match goal with E : Byte.eqb _ _ = true |- _ => apply byte_eqb_true in E as -> end; done.
Qed.

(** ** Requests: each decoder accepts exactly what its encoder writes *)

Lemma run_decode_iff m bs :
  fits bs -> Run.decode bs = Ok m <-> ok_run m /\ bs = Run.encode m.
Proof.
  intros Hf. unfold Run.decode. rewrite run_parser_ok. split.
  - intros [r H]. do 2 sound_field H. injection H as <- <-. split; [done|].
    by rewrite run_encode_layout.
  - intros [Hok ->]. rewrite run_encode_layout in *. eexists.
    do 2 read_field. by destruct m.
Qed.

Lemma call_decode_iff c bs :
  fits bs -> Call.decode bs = Ok c <-> ok_call c /\ bs = Call.encode c.
Proof.
  intros Hf. unfold Call.decode. rewrite run_parser_ok. split.
  - intros [r H]. sound_field H. destruct (Call.is_sentinel a) eqn:Hs; [done|].
    do 3 sound_field H. injection H as <- <-. split; [done|].
    by rewrite call_encode_layout.
  - intros [(Ht & Hs & Hm) ->]. rewrite call_encode_layout in *. eexists.
    read_field. rewrite Hs. do 3 read_field. by destruct c.
Qed.

Definition ok_unknown (t : UnknownTag.t) : Prop := Tag.is_assigned (UnknownTag.get t) = false.

Definition ok_downcall (d : Downcall.t) : Prop :=
  match d with
  | Downcall.Eval _ | Downcall.Compile => True
  | Downcall.Run run => ok_run run
  | Downcall.Yield frame _ => in_u32 frame
  | Downcall.Unknown tag _ => ok_unknown tag
  end.

Definition ok_upcall (u : Upcall.t) : Prop :=
  match u with
  | Upcall.Call call => ok_call call
  | Upcall.Unknown tag _ => ok_unknown tag
  end.

Lemma downcall_encode_layout d :
  Downcall.encode d =
  match d with
  | Downcall.Eval source => enc_u8 Tag.EVAL ++ source
  | Downcall.Run run => enc_u8 Tag.RUN ++ Run.encode run
  | Downcall.Yield frame args => enc_u8 Tag.YIELD ++ enc_u32 frame ++ args
  | Downcall.Compile => enc_u8 Tag.COMPILE ++ []
  | Downcall.Unknown tag body => enc_u8 (UnknownTag.get tag) ++ body
  end.
Proof. unfold Downcall.encode. destruct d; by wire_layout. Qed.

Lemma upcall_encode_layout u :
  Upcall.encode u =
  match u with
  | Upcall.Call call => enc_u8 Tag.CALL ++ Call.encode call
  | Upcall.Unknown tag body => enc_u8 (UnknownTag.get tag) ++ body
  end.
Proof. unfold Upcall.encode. destruct u; by wire_layout. Qed.

Lemma plift_ok {A} (m : result decode_error A) r a r' :
  plift m r = Ok (a, r') <-> m = Ok a /\ r' = r.
Proof.
  unfold plift. rewrite rbind_ok. split.
  - by intros (? & -> & [= <- <-]).
  - intros [-> ->]. eauto.
Qed.

Lemma unknown_ok tag t :
  unknown tag = Ok t <-> UnknownTag.get t = tag /\ Tag.is_assigned tag = false.
Proof.
  unfold unknown, UnknownTag.new. destruct (Tag.is_assigned tag); simpl; split.
  - done.
  - by intros [_ ?].
  - by intros [= <-].
  - intros [<- _]. by destruct t.
Qed.

(** A tag that is not assigned is none of the registry's. *)
Lemma unassigned_tag a t :
  In t [Tag.INVALID; Tag.EVAL; Tag.RUN; Tag.YIELD; Tag.CALL; Tag.BINDINGS; Tag.SNIPPETS;
        Tag.FLAG; Tag.COMPILE; Tag.OK; Tag.FAULT; Tag.BREAK; Tag.ERROR; Tag.PANIC;
        Tag.UNSUPPORTED] ->
  Tag.is_assigned a = false -> Byte.eqb a t = false.
Proof.
  intros Hin Ha. destruct (Byte.eqb a t) eqn:E; [|done]. exfalso.
  unfold Tag.is_assigned in Ha. eapply not_true_iff_false; [exact Ha|].
  apply existsb_exists. eauto.
Qed.

Ltac unassigned H :=
  repeat match goal with
  | |- context [Byte.eqb ?a ?t] =>
      rewrite (unassigned_tag a t) by (exact H || (simpl; tauto)); cbv iota
  end.

#[export] Instance field_tag :
  Field read_tag enc_u8 (fun tag => Byte.eqb tag Tag.INVALID = false).
Proof.
  split.
  - intros tag pre suf E Hf. unfold read_tag. read_field. by rewrite E.
  - intros tag pre suf r' H. unfold read_tag in H. sound_field H.
    destruct (Byte.eqb a _) eqn:E; [done|]. injection H as <- <-. eauto.
Qed.

Lemma plift_step {A B} (m : result decode_error A) (k : A -> parser B) r a :
  m = Ok a -> pbind (plift m) k r = k a r.
Proof. intros ->. done. Qed.

(** The last [n] bytes of a message that fits fit. *)
Lemma fits_suffix a b : fits (a ++ b) -> fits b.
Proof. unfold fits. rewrite len_app. pose proof (len_nonneg a). lia. Qed.

Lemma downcall_decode_iff d bs :
  fits bs -> Downcall.decode bs = Ok d <-> ok_downcall d /\ bs = Downcall.encode d.
Proof.
  intros Hf. unfold Downcall.decode. rewrite run_parser_ok, downcall_encode_layout. split.
  - intros [r H]. do 2 sound_field H. apply fits_suffix in Hf. split_tag H.
    + by injection H as <- <-.
    + apply pbind_ok in H as (run & r1 & H1 & H). apply plift_ok in H1 as [H1 ->].
      injection H as <- <-. apply run_decode_iff in H1 as [H1 ->]; [done|].
      exact Hf.
    + do 2 sound_field H. injection H as <- <-. done.
    + destruct s; [|done]. by injection H as <- <-.
    + apply pbind_ok in H as (t & r1 & H1 & H). apply plift_ok in H1 as [H1 ->].
      injection H as <- <-. apply unknown_ok in H1 as [<- H1]. done.
  - intros [Hok ->]. destruct d as [source|run|frame args| |tag body]; eexists.
    + do 2 read_field. tag_simpl. done.
    + do 2 read_field. tag_simpl. erewrite plift_step; [done|].
      apply run_decode_iff; [by eapply fits_suffix | done].
    + do 2 read_field. tag_simpl. do 2 read_field. done.
    + do 2 read_field. tag_simpl. done.
    + simpl in Hok. unfold ok_unknown in Hok.
      erewrite pbind_step; [|apply field_complete; [|solve_fits]].
      2:{ apply unassigned_tag; [simpl; tauto | done]. }
      read_field. unassigned Hok. erewrite plift_step; [done|]. by apply unknown_ok.
Qed.

Lemma upcall_decode_iff u bs :
  fits bs -> Upcall.decode bs = Ok u <-> ok_upcall u /\ bs = Upcall.encode u.
Proof.
  intros Hf. unfold Upcall.decode. rewrite run_parser_ok, upcall_encode_layout. split.
  - intros [r H]. do 2 sound_field H. apply fits_suffix in Hf. split_tag H.
    + apply pbind_ok in H as (c & r1 & H1 & H). apply plift_ok in H1 as [H1 ->].
      injection H as <- <-. apply call_decode_iff in H1 as [H1 ->]; done.
    + apply pbind_ok in H as (t & r1 & H1 & H). apply plift_ok in H1 as [H1 ->].
      injection H as <- <-. apply unknown_ok in H1 as [<- H1]. done.
  - intros [Hok ->]. destruct u as [c|tag body]; eexists.
    + do 2 read_field. tag_simpl. erewrite plift_step; [done|].
      apply call_decode_iff; [by eapply fits_suffix | done].
    + simpl in Hok. unfold ok_unknown in Hok.
      erewrite pbind_step; [|apply field_complete; [|solve_fits]].
      2:{ apply unassigned_tag; [simpl; tauto | done]. }
      read_field. unassigned Hok. erewrite plift_step; [done|]. by apply unknown_ok.
Qed.

(** ** Answers: the grammar each decoder accepts

    A Fault and an Unsupported are the last thing their answer carries, so a
    later version's fields may follow; every other answer ends where its last
    field does. *)

Inductive unsupported_bytes : Unsupported.t -> list byte -> Prop :=
| unsupported_bytes_intro kind msg extra :
    ok_text msg ->
    unsupported_bytes (Unsupported.Mk msg) (enc_u8 kind ++ enc_bytes msg ++ extra).

Inductive fault_bytes : Fault.t -> list byte -> Prop :=
| fault_bytes_intro kind msg extra :
    ok_text msg ->
    fault_bytes (Fault.Mk (FaultKind.from_tag kind) msg)
      (enc_u8 kind ++ enc_bytes msg ++ extra).

Inductive reply_bytes : Reply.t -> list byte -> Prop :=
| reply_ok body : reply_bytes (Reply.Ok body) (enc_u8 Tag.OK ++ body)
| reply_fault f bs :
    fault_bytes f bs -> reply_bytes (Reply.Fault f) (enc_u8 Tag.FAULT ++ bs)
| reply_break : reply_bytes Reply.Break (enc_u8 Tag.BREAK ++ [])
| reply_unsupported u bs :
    unsupported_bytes u bs -> reply_bytes (Reply.Unsupported u) (enc_u8 Tag.UNSUPPORTED ++ bs).

Inductive yield_reply_bytes : YieldReply.t -> list byte -> Prop :=
| yield_reply_ok body : yield_reply_bytes (YieldReply.Ok body) (enc_u8 Tag.OK ++ body)
| yield_reply_break : yield_reply_bytes YieldReply.Break (enc_u8 Tag.BREAK ++ [])
| yield_reply_error e :
    ok_error_record e ->
    yield_reply_bytes (YieldReply.Error e) (enc_u8 Tag.ERROR ++ enc_error_record e)
| yield_reply_unsupported u bs :
    unsupported_bytes u bs ->
    yield_reply_bytes (YieldReply.Unsupported u) (enc_u8 Tag.UNSUPPORTED ++ bs).

Inductive compile_reply_bytes : CompileReply.t -> list byte -> Prop :=
| compile_reply_ok bytecodes :
    ok_list ok_bytes bytecodes ->
    compile_reply_bytes (CompileReply.Ok bytecodes) (enc_u8 Tag.OK ++ enc_list bytecodes)
| compile_reply_error e :
    ok_error_record e ->
    compile_reply_bytes (CompileReply.Error e) (enc_u8 Tag.ERROR ++ enc_error_record e)
| compile_reply_unsupported u bs :
    unsupported_bytes u bs ->
    compile_reply_bytes (CompileReply.Unsupported u) (enc_u8 Tag.UNSUPPORTED ++ bs).

(** A Panic's origin is an open set of names: any but ["service"] attributes to
    the sandbox. *)
Inductive outcome_bytes : Outcome.t -> list byte -> Prop :=
| outcome_ok value : outcome_bytes (Outcome.Ok value) (enc_u8 Tag.OK ++ value)
| outcome_panic origin e available :
    ok_text origin -> ok_error_record e -> ok_list ok_text available ->
    outcome_bytes (Outcome.Panic (Panic.Mk (Origin.from_name origin) e available))
      (enc_u8 Tag.PANIC ++ enc_bytes origin ++ enc_error_record e ++ enc_list available)
| outcome_unsupported u bs :
    unsupported_bytes u bs ->
    outcome_bytes (Outcome.Unsupported u) (enc_u8 Tag.UNSUPPORTED ++ bs).

Lemma unsupported_read_sound pre suf u r :
  Unsupported.read (at_ pre suf) = Ok (u, r) -> unsupported_bytes u suf.
Proof.
  unfold Unsupported.read. intros H. do 3 sound_field H. injection H as <- <-. by constructor.
Qed.

Lemma unsupported_read_complete pre suf u :
  unsupported_bytes u suf -> fits (pre ++ suf) ->
  Unsupported.read (at_ pre suf) = Ok (u, at_ (pre ++ suf) []).
Proof.
  intros [kind msg extra Hm] Hf. unfold Unsupported.read. do 3 read_field.
  unfold pret. by wire_layout.
Qed.

Lemma fault_read_sound pre suf f r :
  Fault.read (at_ pre suf) = Ok (f, r) -> fault_bytes f suf.
Proof.
  unfold Fault.read. intros H. do 3 sound_field H. injection H as <- <-. by constructor.
Qed.

Lemma fault_read_complete pre suf f :
  fault_bytes f suf -> fits (pre ++ suf) ->
  Fault.read (at_ pre suf) = Ok (f, at_ (pre ++ suf) []).
Proof.
  intros [kind msg extra Hm] Hf. unfold Fault.read. do 3 read_field.
  unfold pret. by wire_layout.
Qed.

(** The arm a decoder took, read as its trailing record. *)
Ltac sound_record H :=
  let a := fresh "a" in let r := fresh "r" in let Hr := fresh "Hr" in
  apply pbind_ok in H as (a & r & Hr & H);
  first [ apply unsupported_read_sound in Hr | apply fault_read_sound in Hr ];
  injection H as <- <-.

Ltac read_record :=
  first
    [ erewrite pbind_step by (apply unsupported_read_complete; [done | solve_fits])
    | erewrite pbind_step by (apply fault_read_complete; [done | solve_fits]) ].

Lemma reply_decode_iff m bs : fits bs -> Reply.decode bs = Ok m <-> reply_bytes m bs.
Proof.
  intros Hf. unfold Reply.decode. rewrite run_parser_ok. split.
  - intros [r H]. sound_field H. split_tag H; try done.
    + sound_field H. injection H as <- <-. constructor.
    + sound_record H. by constructor.
    + sound_field H. injection H as <- <-. constructor.
    + sound_record H. by constructor.
  - intros H; revert Hf; destruct H; intros Hf; eexists; read_field; tag_simpl; first [read_record | read_field]; done.
Qed.

Lemma yield_reply_decode_iff m bs :
  fits bs -> YieldReply.decode bs = Ok m <-> yield_reply_bytes m bs.
Proof.
  intros Hf. unfold YieldReply.decode. rewrite run_parser_ok. split.
  - intros [r H]. sound_field H. split_tag H; try done.
    + sound_field H. injection H as <- <-. constructor.
    + sound_field H. injection H as <- <-. constructor.
    + do 2 sound_field H. injection H as <- <-. rewrite app_nil_r. by constructor.
    + sound_record H. by constructor.
  - intros H; revert Hf; destruct H; intros Hf; eexists; read_field; tag_simpl;
      first [read_record | read_field; try read_field]; done.
Qed.

Lemma compile_reply_decode_iff m bs :
  fits bs -> CompileReply.decode bs = Ok m <-> compile_reply_bytes m bs.
Proof.
  intros Hf. unfold CompileReply.decode. rewrite run_parser_ok. split.
  - intros [r H]. sound_field H. split_tag H; try done.
    + do 2 sound_field H. injection H as <- <-. rewrite app_nil_r. by constructor.
    + do 2 sound_field H. injection H as <- <-. rewrite app_nil_r. by constructor.
    + sound_record H. by constructor.
  - intros H; revert Hf; destruct H; intros Hf; eexists; read_field; tag_simpl;
      first [read_record | read_field; try read_field]; done.
Qed.

Lemma outcome_decode_iff m bs :
  fits bs -> Outcome.decode bs = Ok m <-> outcome_bytes m bs.
Proof.
  intros Hf. unfold Outcome.decode. rewrite run_parser_ok. split.
  - intros [r H]. sound_field H. split_tag H; try done.
    + sound_field H. injection H as <- <-. constructor.
    + do 4 sound_field H. injection H as <- <-. rewrite app_nil_r. by constructor.
    + sound_record H. by constructor.
  - intros H; revert Hf; destruct H; intros Hf; eexists; read_field; tag_simpl; first [read_record | do 4 read_field | read_field];
      done.
Qed.
