(* ===== verification/PreambleMsg.v ===== *)
(** The Preamble ([envelope/preamble.rs]): the counted list of records an
    invocation reads before its entry runs. *)
From S2P Require Import Prelude Text Wire.

Module Snippet.
Definition SNIPPET_SOURCE : byte := x00.
Definition SNIPPET_BYTECODE : byte := x01.

Inductive t :=
| Source (name body : list byte)
| Bytecode (body : list byte).

(** [matches!(entry, Snippet::Source { .. })]. *)
Definition is_source (s : t) : bool :=
  match s with Source _ _ => true | Bytecode _ => false end.
End Snippet.

Module Flag.
Record t := Mk { name : list byte; value : list byte; critical : bool }.
End Flag.

Module Preamble.
Definition ADVISORY : byte := x00.
Definition CRITICAL : byte := x01.

(** [Bindings] and [Snippets] each wrap one list. *)
Record t := Mk {
  bindings : list (list byte);
  snippets : list Snippet.t;
  flags : list Flag.t;
}.
Definition default : t := Mk [] [] [].

Definition decode_bindings (bytes : list byte) : result decode_error (list (list byte)) :=
  run_parser (let! paths := read_text_list in let! _ := finish in pret paths) bytes.

Definition encode_bindings (paths : list (list byte)) : list byte :=
  into_bytes (writer_new |> w_list paths).

Definition read_snippet : parser Snippet.t :=
  let! kind := read_u8 in
  if Byte.eqb kind Snippet.SNIPPET_SOURCE then
    let! name := read_text in
    let! body := read_text in
    pret (Snippet.Source name body)
  else if Byte.eqb kind Snippet.SNIPPET_BYTECODE then
    let! body := read_bytes in
    pret (Snippet.Bytecode body)
  else pfail (DecodeError (lit "Preamble snippet kind must be 0 or 1")).

Definition decode_snippets (bytes : list byte) : result decode_error (list Snippet.t) :=
  run_parser
    (let! count := read_u32 in
     let! rest := peek_remaining in
     if len rest / (1 + 4) <? count
     then pfail (DecodeError (lit "Preamble snippets declare more entries than they hold"))
     else
       let! entries := repeat_n (Z.to_nat count) read_snippet in
       let! _ := finish in
       pret entries) bytes.

Definition write_snippet (w : writer) (entry : Snippet.t) : writer :=
  match entry with
  | Snippet.Source name body =>
    w |> w_u8 Snippet.SNIPPET_SOURCE |> w_bytes name |> w_bytes body
  | Snippet.Bytecode body => w |> w_u8 Snippet.SNIPPET_BYTECODE |> w_bytes body
  end.

Definition encode_snippets (entries : list Snippet.t) : list byte :=
  into_bytes (fold_left write_snippet entries (writer_new |> w_u32 (as_u32 (len entries)))).

Definition decode_flag (bytes : list byte) (critical : bool) : result decode_error Flag.t :=
  run_parser
    (let! name := read_text in
     let! value := read_text in
     let! _ := finish in
     pret (Flag.Mk name value critical)) bytes.

Definition encode_flag (flag : Flag.t) : list byte :=
  into_bytes (writer_new |> w_bytes (Flag.name flag) |> w_bytes (Flag.value flag)).

(** [slot.replace(value)], refused where the slot already holds one. *)
Definition once {A} (slot : option A) (value : A) : result decode_error (option A) :=
  match slot with
  | Some _ => Err (DecodeError (lit "Preamble repeats a record that appears once"))
  | None => Ok (Some value)
  end.

(** What [decode] accumulates over the records. *)
Record acc := Acc {
  acc_bindings : option (list (list byte));
  acc_snippets : option (list Snippet.t);
  acc_flags : list Flag.t;
}.

(** One record's [match kind]. *)
Definition take_record (a : acc) (critical : bool) (kind : byte) (body : list byte)
  : result decode_error acc :=
  if Byte.eqb kind Tag.BINDINGS then
    let? paths := decode_bindings body in
    let? slot := once (acc_bindings a) paths in
    Ok (Acc slot (acc_snippets a) (acc_flags a))
  else if Byte.eqb kind Tag.SNIPPETS then
    let? entries := decode_snippets body in
    let? slot := once (acc_snippets a) entries in
    Ok (Acc (acc_bindings a) slot (acc_flags a))
  else if Byte.eqb kind Tag.FLAG then
    let? flag := decode_flag body critical in
    Ok (Acc (acc_bindings a) (acc_snippets a) (acc_flags a ++ [flag]))
  else if Tag.is_assigned kind then
    Err (DecodeError (lit "Preamble record kind is assigned to another message"))
  else if critical then
    Err (DecodeError (lit "Preamble carries a critical record of a kind this reader does not know"))
  else Ok a.

Definition read_critical : parser bool :=
  let! criticality := read_u8 in
  if Byte.eqb criticality ADVISORY then pret false
  else if Byte.eqb criticality CRITICAL then pret true
  else pfail (DecodeError (lit "Preamble criticality must be 0 or 1")).

(** [for _ in 0..count { .. }]. *)
Fixpoint read_records (count : nat) (a : acc) : parser acc :=
  match count with
  | O => pret a
  | S count' =>
    let! critical := read_critical in
    let! kind := read_u8 in
    let! body := read_bytes in
    fun r => let? a' := take_record a critical kind body in read_records count' a' r
  end.

Definition decode (bytes : list byte) : result decode_error t :=
  run_parser
    (let! count := read_u32 in
     let! rest := peek_remaining in
     if len rest <? count
     then pfail (DecodeError (lit "Preamble declares more records than it holds"))
     else
       let! a := read_records (Z.to_nat count) (Acc None None []) in
       let! _ := finish in
       pret (Mk (from_option id [] (acc_bindings a)) (from_option id [] (acc_snippets a))
               (acc_flags a))) bytes.

(** The records [encode] pushes, in order. *)
Definition records (p : t) : list (bool * byte * list byte) :=
  match bindings p with
  | [] => []
  | _ => [(true, Tag.BINDINGS, encode_bindings (bindings p))]
  end
  ++ match snippets p with
     | [] => []
     | _ => [(true, Tag.SNIPPETS, encode_snippets (snippets p))]
     end
  ++ map (fun flag => (Flag.critical flag, Tag.FLAG, encode_flag flag)) (flags p).

Definition write_record (w : writer) (rec : bool * byte * list byte) : writer :=
  match rec with
  | (critical, kind, body) =>
    w |> w_u8 (if critical then CRITICAL else ADVISORY) |> w_u8 kind |> w_bytes body
  end.

Definition encode (p : t) : list byte :=
  into_bytes (fold_left write_record (records p) (writer_new |> w_u32 (as_u32 (len (records p))))).
End Preamble.

(** ** Well-formed Preambles *)

Definition ok_snippet (s : Snippet.t) : Prop :=
  match s with
  | Snippet.Source name body => ok_text name /\ ok_text body
  | Snippet.Bytecode body => ok_bytes body
  end.
Definition ok_flag (f : Flag.t) : Prop := ok_text (Flag.name f) /\ ok_text (Flag.value f).

(** A record's body, which its [u32] length must carry. *)
Definition ok_record (rec : bool * byte * list byte) : Prop := ok_bytes rec.2.

Definition ok_preamble (p : Preamble.t) : Prop :=
  ok_list ok_text (Preamble.bindings p)
  /\ in_u32 (len (Preamble.snippets p)) /\ Forall ok_snippet (Preamble.snippets p)
  /\ Forall ok_flag (Preamble.flags p)
  /\ in_u32 (len (Preamble.records p)) /\ Forall ok_record (Preamble.records p).

(** ** Layouts and fields *)

Definition enc_snippet (s : Snippet.t) : list byte :=
  match s with
  | Snippet.Source name body =>
    enc_u8 Snippet.SNIPPET_SOURCE ++ enc_bytes name ++ enc_bytes body
  | Snippet.Bytecode body => enc_u8 Snippet.SNIPPET_BYTECODE ++ enc_bytes body
  end.
Definition enc_critical (c : bool) : list byte :=
  enc_u8 (if c then Preamble.CRITICAL else Preamble.ADVISORY).
Definition enc_record (rec : bool * byte * list byte) : list byte :=
  enc_critical rec.1.1 ++ enc_u8 rec.1.2 ++ enc_bytes rec.2.

(** Writing a list of things, one after another. *)
Lemma fold_write_out {A} (write : writer -> A -> writer) (enc : A -> list byte) xs w :
  (forall w x, w_out (write w x) = w_out w ++ enc x) ->
  w_out (fold_left write xs w) = w_out w ++ concat (map enc xs).
Proof.
  intros H. revert w. induction xs as [|x xs IH]; intros w; cbn [fold_left map concat].
  - by rewrite app_nil_r.
  - rewrite IH, H. by rewrite <- app_assoc.
Qed.

Lemma write_snippet_out w s : w_out (Preamble.write_snippet w s) = w_out w ++ enc_snippet s.
Proof. destruct s; unfold Preamble.write_snippet, enc_snippet; by wire_layout. Qed.

Lemma write_record_out w rec : w_out (Preamble.write_record w rec) = w_out w ++ enc_record rec.
Proof.
  destruct rec as [[c k] b]. unfold Preamble.write_record, enc_record, enc_critical. by wire_layout.
Qed.

Lemma encode_snippets_layout xs :
  Preamble.encode_snippets xs = enc_u32 (len xs) ++ concat (map enc_snippet xs).
Proof.
  unfold Preamble.encode_snippets, into_bytes.
  rewrite (fold_write_out _ enc_snippet) by apply write_snippet_out.
  rewrite w_u32_out. unfold enc_u32, as_u32. by rewrite Zmod_mod.
Qed.

Lemma preamble_encode_layout p :
  Preamble.encode p
  = enc_u32 (len (Preamble.records p)) ++ concat (map enc_record (Preamble.records p)).
Proof.
  unfold Preamble.encode, into_bytes.
  rewrite (fold_write_out _ enc_record) by apply write_record_out.
  rewrite w_u32_out. unfold enc_u32, as_u32. by rewrite Zmod_mod.
Qed.

Lemma encode_bindings_layout paths : Preamble.encode_bindings paths = enc_list paths.
Proof. unfold Preamble.encode_bindings. by wire_layout. Qed.

Lemma encode_flag_layout f :
  Preamble.encode_flag f = enc_bytes (Flag.name f) ++ enc_bytes (Flag.value f).
Proof. unfold Preamble.encode_flag. by wire_layout. Qed.

#[export] Instance field_snippet : Field Preamble.read_snippet enc_snippet ok_snippet.
Proof.
  split.
  - intros [name body|body] pre suf Hok Hf; unfold Preamble.read_snippet, enc_snippet in *;
      rewrite <- !app_assoc in *; read_field; tag_simpl;
      [destruct Hok; do 2 read_field | read_field]; unfold pret; by wire_layout.
  - intros s pre suf r' H. unfold Preamble.read_snippet in H. sound_field H. split_tag H.
    + do 2 sound_field H. injection H as <- <-. split; [done|]. eexists.
      unfold enc_snippet. by wire_layout.
    + sound_field H. injection H as <- <-. split; [done|]. eexists.
      unfold enc_snippet. by wire_layout.
    + done.
Qed.

#[export] Instance field_critical :
  Field Preamble.read_critical enc_critical (fun _ => True).
Proof.
  split.
  - intros c pre suf _ Hf. unfold Preamble.read_critical, enc_critical in *. read_field.
    by destruct c.
  - intros c pre suf r' H. unfold Preamble.read_critical in H. sound_field H.
    split_tag H; try done; injection H as <- <-; split; try done; by eexists.
Qed.

(** ** The record stream, apart from what its records say *)

(** A stream of [recs], as [encode] frames one. *)
Definition frame_records (recs : list (bool * byte * list byte)) : list byte :=
  enc_u32 (len recs) ++ concat (map enc_record recs).

(** What the records accumulate, one [take_record] after another. *)
Fixpoint fold_records (recs : list (bool * byte * list byte)) (a : Preamble.acc)
  : result decode_error Preamble.acc :=
  match recs with
  | [] => Ok a
  | (critical, kind, body) :: recs' =>
    let? a' := Preamble.take_record a critical kind body in fold_records recs' a'
  end.

Definition preamble_of (a : Preamble.acc) : Preamble.t :=
  Preamble.Mk (from_option id [] (Preamble.acc_bindings a))
    (from_option id [] (Preamble.acc_snippets a)) (Preamble.acc_flags a).

Lemma fold_records_app r1 r2 a :
  fold_records (r1 ++ r2) a = let? a' := fold_records r1 a in fold_records r2 a'.
Proof.
  revert a. induction r1 as [|[[c k] b] r1 IH]; intros a; [done|].
  cbn [fold_records app]. destruct (Preamble.take_record a c k b); [apply IH | done].
Qed.

Lemma enc_record_len rec : 6 <= len (enc_record rec).
Proof.
  unfold enc_record. rewrite !len_app, enc_bytes_len. pose proof (len_nonneg rec.2).
  change (len (enc_critical rec.1.1)) with 1. change (len (enc_u8 rec.1.2)) with 1. lia.
Qed.

Lemma concat_records_len recs : 6 * len recs <= len (concat (map enc_record recs)).
Proof.
  induction recs as [|rec recs IH]; [done|].
  cbn [map concat]. rewrite len_cons, len_app. pose proof (enc_record_len rec). lia.
Qed.

(** Reading framed records is folding them, failures included. *)
Lemma read_records_eq recs a pre suf :
  Forall ok_record recs -> fits (pre ++ concat (map enc_record recs) ++ suf) ->
  Preamble.read_records (length recs) a (at_ pre (concat (map enc_record recs) ++ suf))
  = let? a' := fold_records recs a in
    Ok (a', at_ (pre ++ concat (map enc_record recs)) suf).
Proof.
  revert a pre. induction recs as [|[[c k] b] recs IH]; intros a pre Hok Hf;
    cbn [length map concat fold_records Preamble.read_records].
  - simpl. by rewrite app_nil_r.
  - apply Forall_cons_iff in Hok as [Hb Hok]. change (ok_bytes b) in Hb.
    cbn [map concat] in Hf. unfold enc_record in *. cbn [fst snd] in *.
    rewrite <- !app_assoc in *. do 3 read_field.
    destruct (Preamble.take_record a c k b) as [a'|e]; [|done]. cbn [rbind].
    rewrite IH; [| done | by rewrite <- !app_assoc]. by rewrite <- !app_assoc.
Qed.

Lemma read_records_sound n a pre suf a' r' :
  Preamble.read_records n a (at_ pre suf) = Ok (a', r') ->
  exists recs suf', length recs = n /\ Forall ok_record recs
    /\ suf = concat (map enc_record recs) ++ suf'
    /\ fold_records recs a = Ok a'
    /\ r' = at_ (pre ++ concat (map enc_record recs)) suf'.
Proof.
  revert a pre suf. induction n as [|n IH]; intros a pre suf H; cbn [Preamble.read_records] in H.
  - injection H as <- <-. exists [], suf. cbn [map concat]. by rewrite app_nil_r.
  - do 3 sound_field H. rename a0 into c, a1 into k, a2 into b.
    apply rbind_ok in H as (a1 & Ht & H).
    apply IH in H as (recs & suf' & Hn & Hok & -> & Hfold & ->).
    exists ((c, k, b) :: recs), suf'. cbn [length map concat fold_records].
    rewrite Ht. cbn [rbind]. split; [lia|]. split; [by constructor|].
    unfold enc_record. cbn [fst snd]. by rewrite <- !app_assoc.
Qed.

(** Framed records decode to their fold. *)
Lemma decode_frame recs :
  in_u32 (len recs) -> Forall ok_record recs -> fits (frame_records recs) ->
  Preamble.decode (frame_records recs)
  = let? a := fold_records recs (Preamble.Acc None None []) in Ok (preamble_of a).
Proof.
  intros Hn Hok Hf. unfold Preamble.decode, run_parser, frame_records in *.
  rewrite reader_new_at. do 2 read_field.
  pose proof (concat_records_len recs). pose proof (len_nonneg recs).
  case_match eqn:E; [apply Z.ltb_lt in E; lia|].
  unfold len at 1. rewrite Nat2Z.id. unfold pbind at 1.
  rewrite <- (app_nil_r (concat _)) at 1. rewrite read_records_eq.
  - destruct (fold_records _ _) as [a|e]; [|done]. cbn [rbind].
    erewrite pbind_step by (apply finish_at; done). done.
  - done.
  - by rewrite app_nil_r.
Qed.

Lemma decode_frame_inv bs p :
  Preamble.decode bs = Ok p ->
  exists recs a, in_u32 (len recs) /\ Forall ok_record recs /\ bs = frame_records recs
    /\ fold_records recs (Preamble.Acc None None []) = Ok a /\ p = preamble_of a.
Proof.
  unfold Preamble.decode. rewrite run_parser_ok. intros [r H].
  do 2 sound_field H. case_match; [done|].
  apply pbind_ok in H as (acc & r1 & Hr1 & H).
  apply read_records_sound in Hr1 as (recs & suf' & Hn & Hok & -> & Hfold & ->).
  sound_field H. injection H as <- <-. exists recs, acc.
  assert (len recs = a) as Hl by (unfold len, in_u32 in *; lia).
  rewrite Hl. split; [done|]. split; [done|]. unfold frame_records. by rewrite app_nil_r, Hl.
Qed.

(** ** What [encode] writes reads back *)

Lemma decode_bindings_encode paths :
  ok_list ok_text paths -> fits (Preamble.encode_bindings paths) ->
  Preamble.decode_bindings (Preamble.encode_bindings paths) = Ok paths.
Proof.
  intros Hok Hf. rewrite encode_bindings_layout in *. apply run_parser_ok. eexists.
  do 2 read_field. done.
Qed.

Lemma decode_flag_encode f :
  ok_flag f -> fits (Preamble.encode_flag f) ->
  Preamble.decode_flag (Preamble.encode_flag f) (Flag.critical f) = Ok f.
Proof.
  intros [Hn Hv] Hf. rewrite encode_flag_layout in *. apply run_parser_ok. eexists.
  do 3 read_field. by destruct f.
Qed.

Lemma enc_snippet_len s : 5 <= len (enc_snippet s).
Proof.
  destruct s as [name body|body]; unfold enc_snippet;
    rewrite ?len_app, ?enc_bytes_len, enc_u8_len;
    pose proof (len_nonneg body); try pose proof (len_nonneg name); lia.
Qed.

Lemma concat_snippets_len xs : 5 * len xs <= len (concat (map enc_snippet xs)).
Proof.
  induction xs as [|x xs IH]; [done|].
  cbn [map concat]. rewrite len_cons, len_app. pose proof (enc_snippet_len x). lia.
Qed.

Lemma decode_snippets_encode xs :
  in_u32 (len xs) -> Forall ok_snippet xs -> fits (Preamble.encode_snippets xs) ->
  Preamble.decode_snippets (Preamble.encode_snippets xs) = Ok xs.
Proof.
  intros Hn Hok Hf. rewrite encode_snippets_layout in *. apply run_parser_ok. eexists.
  do 2 read_field. pose proof (concat_snippets_len xs).
  case_match eqn:E.
  { apply Z.ltb_lt in E. pose proof (Z.div_le_lower_bound (len (concat (map enc_snippet xs))) (1 + 4) (len xs)). lia. }
  unfold len at 1. rewrite Nat2Z.id. rewrite <- (app_nil_r (concat _)) at 1.
  erewrite pbind_step; [|apply (repeat_n_complete _ enc_snippet ok_snippet); [done | by rewrite app_nil_r]].
  erewrite pbind_step by (apply finish_at; done). done.
Qed.

(** Each kind of record a Preamble holds, folded in. *)
Lemma fold_flags fs a :
  Forall ok_flag fs -> Forall (fun f => fits (Preamble.encode_flag f)) fs ->
  fold_records (map (fun f => (Flag.critical f, Tag.FLAG, Preamble.encode_flag f)) fs) a
  = Ok (Preamble.Acc (Preamble.acc_bindings a) (Preamble.acc_snippets a)
          (Preamble.acc_flags a ++ fs)).
Proof.
  revert a. induction fs as [|f fs IH]; intros a Hok Hf; cbn [map fold_records].
  - rewrite app_nil_r. by destruct a.
  - apply Forall_cons_iff in Hok as [Hok1 Hok], Hf as [Hf1 Hf].
    unfold Preamble.take_record. tag_simpl.
    rewrite decode_flag_encode by done. cbn [rbind].
    rewrite IH by done. cbn [Preamble.acc_bindings Preamble.acc_snippets Preamble.acc_flags].
    by rewrite <- app_assoc.
Qed.

Lemma ok_bytes_fits bs : ok_bytes bs -> fits bs.
Proof. unfold ok_bytes, in_u32, fits, USIZE_MAX. lia. Qed.

Lemma fold_preamble p :
  ok_preamble p -> fold_records (Preamble.records p) (Preamble.Acc None None [])
  = Ok (Preamble.Acc
          (match Preamble.bindings p with [] => None | _ => Some (Preamble.bindings p) end)
          (match Preamble.snippets p with [] => None | _ => Some (Preamble.snippets p) end)
          (Preamble.flags p)).
Proof.
  intros (Hb & Hns & Hs & Hfl & _ & Hrec). unfold Preamble.records in *.
  rewrite !Forall_app in Hrec. destruct Hrec as (Rb & Rs & Rf).
  rewrite fold_records_app.
  set (a1 := Preamble.Acc
    (match Preamble.bindings p with [] => None | _ => Some (Preamble.bindings p) end) None []).
  assert (fold_records (match Preamble.bindings p with [] => []
     | _ => [(true, Tag.BINDINGS, Preamble.encode_bindings (Preamble.bindings p))] end)
     (Preamble.Acc None None []) = Ok a1) as ->.
  { subst a1. destruct (Preamble.bindings p) as [|x l] eqn:E; [done|].
    cbn [fold_records]. unfold Preamble.take_record. tag_simpl.
    rewrite decode_bindings_encode; [done | done | by apply ok_bytes_fits; inversion Rb]. }
  cbn [rbind]. rewrite fold_records_app.
  set (a2 := Preamble.Acc (Preamble.acc_bindings a1)
    (match Preamble.snippets p with [] => None | _ => Some (Preamble.snippets p) end) []).
  assert (fold_records (match Preamble.snippets p with [] => []
     | _ => [(true, Tag.SNIPPETS, Preamble.encode_snippets (Preamble.snippets p))] end)
     a1 = Ok a2) as ->.
  { subst a2. destruct (Preamble.snippets p) as [|x l] eqn:E; [reflexivity|].
    cbn [fold_records]. unfold Preamble.take_record. tag_simpl.
    rewrite decode_snippets_encode; [done | done | done | by apply ok_bytes_fits; inversion Rs]. }
  cbn [rbind]. rewrite fold_flags; [done | done |].
  rewrite Forall_map in Rf. eapply Forall_impl; [|exact Rf]. intros f H. by apply ok_bytes_fits.
Qed.

Lemma preamble_decode_encode p :
  ok_preamble p -> fits (Preamble.encode p) -> Preamble.decode (Preamble.encode p) = Ok p.
Proof.
  intros Hok Hf. pose proof Hok as (_ & _ & _ & _ & Hn & Hrec).
  rewrite preamble_encode_layout in *. change (enc_u32 _ ++ _) with (frame_records (Preamble.records p)) in *.
  rewrite decode_frame, fold_preamble by done. cbn [rbind]. unfold preamble_of.
  cbn [Preamble.acc_bindings Preamble.acc_snippets Preamble.acc_flags].
  destruct p as [[|b bs] [|s ss] fs]; done.
Qed.
