(* ===== verification/Transport.v ===== *)
(** The wire contract between host and guest ([kobako-transport]): what every
    decoder accepts, and that nothing accepted one way reads as anything else. *)
From S2P Require Import Prelude Text Wire Messages PreambleMsg.

(** ** Well-formed answers *)

Definition ok_reply (m : Reply.t) : Prop :=
  match m with
  | Reply.Ok _ | Reply.Break => True
  | Reply.Fault f => ok_fault f
  | Reply.Unsupported u => ok_unsupported u
  end.
Definition ok_yield_reply (m : YieldReply.t) : Prop :=
  match m with
  | YieldReply.Ok _ | YieldReply.Break => True
  | YieldReply.Error e => ok_error_record e
  | YieldReply.Unsupported u => ok_unsupported u
  end.
Definition ok_compile_reply (m : CompileReply.t) : Prop :=
  match m with
  | CompileReply.Ok bytecodes => ok_list ok_bytes bytecodes
  | CompileReply.Error e => ok_error_record e
  | CompileReply.Unsupported u => ok_unsupported u
  end.
Definition ok_outcome (m : Outcome.t) : Prop :=
  match m with
  | Outcome.Ok _ => True
  | Outcome.Panic p => ok_error_record (Panic.error p) /\ ok_list ok_text (Panic.available p)
  | Outcome.Unsupported u => ok_unsupported u
  end.

(** ** What each encoder writes is in its decoder's grammar *)

Lemma unsupported_encode_bytes u :
  ok_unsupported u ->
  exists bs, unsupported_bytes u bs /\ Unsupported.encode u = enc_u8 Tag.UNSUPPORTED ++ bs.
Proof.
  intros Hu. rewrite unsupported_encode_layout. eexists. split; [|reflexivity].
  destruct u as [msg]. rewrite <- (app_nil_r (enc_bytes _)). by constructor.
Qed.

Lemma from_tag_tag k : FaultKind.from_tag (FaultKind.tag k) = k.
Proof. by destruct k. Qed.

Lemma origin_from_name_name o : Origin.from_name (Origin.name o) = o.
Proof. by destruct o. Qed.

Lemma ok_text_lit o : ok_text (Origin.name o).
Proof. by destruct o. Qed.

Ltac encode_bytes_unsupported Hm :=
  let bs := fresh in let Hb := fresh in let E := fresh in
  destruct (unsupported_encode_bytes _ Hm) as (bs & Hb & E); rewrite E; by constructor.

Lemma reply_encode_bytes m : ok_reply m -> reply_bytes m (Reply.encode m).
Proof.
  intros Hm. destruct m as [body|[k msg]| |u]; cbn [Reply.encode]; [..|encode_bytes_unsupported Hm].
  - wire_layout. constructor.
  - wire_layout. constructor. rewrite <- (from_tag_tag k) at 1.
    rewrite <- (app_nil_r (enc_bytes _)). by constructor.
  - wire_layout. rewrite <- (app_nil_r (enc_u8 _)). constructor.
Qed.

Lemma yield_reply_encode_bytes m : ok_yield_reply m -> yield_reply_bytes m (YieldReply.encode m).
Proof.
  intros Hm. destruct m; cbn [YieldReply.encode]; [..|encode_bytes_unsupported Hm];
    wire_layout; by constructor.
Qed.

Lemma compile_reply_encode_bytes m :
  ok_compile_reply m -> compile_reply_bytes m (CompileReply.encode m).
Proof.
  intros Hm. destruct m; cbn [CompileReply.encode]; [..|encode_bytes_unsupported Hm];
    wire_layout; by constructor.
Qed.

Lemma outcome_encode_bytes m : ok_outcome m -> outcome_bytes m (Outcome.encode m).
Proof.
  intros Hm. destruct m as [v|[o e av]|u]; cbn [Outcome.encode]; [..|encode_bytes_unsupported Hm].
  - wire_layout. constructor.
  - destruct Hm as [He Hav]. wire_layout. cbn [Panic.origin Panic.error Panic.available].
    rewrite <- (origin_from_name_name o) at 1. constructor; [apply ok_text_lit | done..].
Qed.

(** ** The tag every message opens with *)

Definition downcall_tags : list byte := [Tag.EVAL; Tag.RUN; Tag.YIELD; Tag.COMPILE].
Definition answer_tags : list byte :=
  [Tag.OK; Tag.FAULT; Tag.BREAK; Tag.ERROR; Tag.PANIC; Tag.UNSUPPORTED].

Definition opens_with (P : byte -> Prop) (bs : list byte) : Prop :=
  exists t rest, bs = enc_u8 t ++ rest /\ P t.

Lemma downcall_tag d bs :
  fits bs -> Downcall.decode bs = Ok d ->
  opens_with (fun t => In t downcall_tags \/ Tag.is_assigned t = false) bs.
Proof.
  intros Hf [Hok ->]%downcall_decode_iff; [|done]. rewrite downcall_encode_layout.
  destruct d; eexists _, _; (split; [done|]); first [by right | left; simpl; tauto].
Qed.

Lemma upcall_tag u bs :
  fits bs -> Upcall.decode bs = Ok u ->
  opens_with (fun t => t = Tag.CALL \/ Tag.is_assigned t = false) bs.
Proof.
  intros Hf [Hok ->]%upcall_decode_iff; [|done]. rewrite upcall_encode_layout.
  destruct u; eexists _, _; (split; [done|]); tauto.
Qed.

Lemma opens_with_disjoint P Q bs :
  opens_with P bs -> opens_with Q bs -> (forall t, P t -> Q t -> False) -> False.
Proof.
  intros (t & r & -> & HP) (t' & r' & E & HQ) H. unfold enc_u8 in E.
  injection E as -> _. by eapply H.
Qed.

(** An answer of any of the four kinds. *)
Definition reads_as_answer (bs : list byte) : Prop :=
  (exists m, Reply.decode bs = Ok m) \/ (exists m, YieldReply.decode bs = Ok m)
  \/ (exists m, CompileReply.decode bs = Ok m) \/ (exists m, Outcome.decode bs = Ok m).

Lemma answer_tag bs :
  fits bs -> reads_as_answer bs -> opens_with (fun t => In t answer_tags) bs.
Proof.
  intros Hf [[m H]|[[m H]|[[m H]|[m H]]]];
    [apply reply_decode_iff in H | apply yield_reply_decode_iff in H
    | apply compile_reply_decode_iff in H | apply outcome_decode_iff in H]; try done;
    destruct H; eexists _, _; (split; [reflexivity | simpl; tauto]).
Qed.

(** ** Properties *)

(** C1: a request decoder accepts exactly the bytes its encoder writes for a
    well-formed request: every request reads back as the one written, and
    bytes that read at all have no second spelling. *)
Theorem requests_exact bs :
  fits bs ->
  (forall d, Downcall.decode bs = Ok d <-> ok_downcall d /\ bs = Downcall.encode d)
  /\ (forall u, Upcall.decode bs = Ok u <-> ok_upcall u /\ bs = Upcall.encode u).
Proof. intros Hf. split; intros; [by apply downcall_decode_iff | by apply upcall_decode_iff]. Qed.

Lemma requests_exact_witness :
  Downcall.decode (Downcall.encode (Downcall.Run (Run.Mk (lit "main") [x01; x02])))
  = Ok (Downcall.Run (Run.Mk (lit "main") [x01; x02])).
Proof.
  refine (proj2 (proj1 (requests_exact _ _) _) _);
    [by vm_compute | split; [by vm_compute | done]].
Defined.

(** C2: an answer of any kind reads back as the one written, whatever it
    carries within the [u32] length fields. *)
Theorem answers_roundtrip :
  (forall m, ok_reply m -> fits (Reply.encode m) -> Reply.decode (Reply.encode m) = Ok m)
  /\ (forall m, ok_yield_reply m -> fits (YieldReply.encode m) ->
        YieldReply.decode (YieldReply.encode m) = Ok m)
  /\ (forall m, ok_compile_reply m -> fits (CompileReply.encode m) ->
        CompileReply.decode (CompileReply.encode m) = Ok m)
  /\ (forall m, ok_outcome m -> fits (Outcome.encode m) ->
        Outcome.decode (Outcome.encode m) = Ok m).
Proof.
  split; [|split; [|split]]; intros m Hok Hf;
    [apply reply_decode_iff | apply yield_reply_decode_iff
    | apply compile_reply_decode_iff | apply outcome_decode_iff]; try done;
    auto using reply_encode_bytes, yield_reply_encode_bytes, compile_reply_encode_bytes,
      outcome_encode_bytes.
Qed.

Lemma answers_roundtrip_witness :
  Outcome.decode (Outcome.encode
    (Outcome.Panic (Panic.Mk Origin.Service (ErrorRecord.Mk (lit "E") (lit "m") [lit "a:1"]) [])))
  = Ok (Outcome.Panic (Panic.Mk Origin.Service (ErrorRecord.Mk (lit "E") (lit "m") [lit "a:1"]) [])).
Proof.
  apply (proj2 (proj2 (proj2 answers_roundtrip))); [|by vm_compute].
  repeat constructor; by vm_compute.
Defined.

(** The answer decoders accept exactly their grammars.  A Fault of a kind
    this version does not know reads as an undefined one and a Panic of an
    unknown origin as the sandbox's; fields a later version appends to a Fault
    or to an Unsupported are skipped; everything else is refused. *)
Theorem answers_exact bs :
  fits bs ->
  (forall m, Reply.decode bs = Ok m <-> reply_bytes m bs)
  /\ (forall m, YieldReply.decode bs = Ok m <-> yield_reply_bytes m bs)
  /\ (forall m, CompileReply.decode bs = Ok m <-> compile_reply_bytes m bs)
  /\ (forall m, Outcome.decode bs = Ok m <-> outcome_bytes m bs).
Proof.
  intros Hf. split; [|split; [|split]]; intros m;
    [by apply reply_decode_iff | by apply yield_reply_decode_iff
    | by apply compile_reply_decode_iff | by apply outcome_decode_iff].
Qed.

Lemma answers_exact_witness :
  Reply.decode (enc_u8 Tag.FAULT ++ enc_u8 x7f ++ enc_bytes (lit "later") ++ [xff])
  = Ok (Reply.Fault (Fault.Mk FaultKind.Undefined (lit "later"))).
Proof.
  refine (proj2 (proj1 (answers_exact _ _) _) _); [by vm_compute|].
  apply reply_fault. apply (fault_bytes_intro x7f). by vm_compute.
Defined.

(** No bytes read two ways.  A request never reads as an answer, and what
    reads as a request of both directions is of neither: both decoders hand
    back the same unassigned tag and body, for the Unsupported answer. *)
Theorem directions_disjoint bs :
  fits bs ->
  (forall d, Downcall.decode bs = Ok d -> ~ reads_as_answer bs)
  /\ (forall u, Upcall.decode bs = Ok u -> ~ reads_as_answer bs)
  /\ (forall d u, Downcall.decode bs = Ok d -> Upcall.decode bs = Ok u ->
        exists tag body, d = Downcall.Unknown tag body /\ u = Upcall.Unknown tag body).
Proof.
  intros Hf. split; [|split].
  - intros d Hd%downcall_tag Ha%answer_tag; [|done..].
    eapply opens_with_disjoint; [exact Hd | exact Ha |].
    intros t [Ht|Ht] Ht'; simpl in *; [intuition (subst; discriminate)|].
    destruct Ht' as [<-|[<-|[<-|[<-|[<-|[<-|[]]]]]]]; discriminate.
  - intros u Hu%upcall_tag Ha%answer_tag; [|done..].
    eapply opens_with_disjoint; [exact Hu | exact Ha |].
    intros t [->|Ht] Ht'; simpl in *; [intuition discriminate|].
    destruct Ht' as [<-|[<-|[<-|[<-|[<-|[<-|[]]]]]]]; discriminate.
  - intros d u [Hd Ed]%downcall_decode_iff [Hu Eu]%upcall_decode_iff; [|done..].
    rewrite Ed, downcall_encode_layout, upcall_encode_layout in Eu.
    destruct d as [| | | |[t] b], u as [|[t'] b']; unfold enc_u8 in Eu; simpl in Eu;
      try discriminate; try (injection Eu as <- _; discriminate).
    + injection Eu as -> _. discriminate.
    + injection Eu as -> ->. eauto.
Qed.

Lemma directions_disjoint_witness : ~ reads_as_answer (Downcall.encode Downcall.Compile).
Proof.
  refine (proj1 (directions_disjoint _ _) Downcall.Compile _); [by vm_compute | reflexivity].
Defined.

(** C5: a Preamble reads back as the one written: its bindings, its snippets in
    order and its flags, each list absent from the wire where it is empty. *)
Theorem preamble_roundtrip p :
  ok_preamble p -> fits (Preamble.encode p) -> Preamble.decode (Preamble.encode p) = Ok p.
Proof. apply preamble_decode_encode. Qed.

Definition preamble_sample : Preamble.t :=
  Preamble.Mk [lit "Math"; lit "Store::Kv"]
    [Snippet.Source (lit "Util") (lit "module Util; end"); Snippet.Bytecode [x52; x49]]
    [Flag.Mk (lit "regexp") (lit "on") true].

Lemma preamble_roundtrip_witness :
  Preamble.decode (Preamble.encode preamble_sample) = Ok preamble_sample.
Proof.
  apply preamble_roundtrip; [|by vm_compute].
  repeat constructor; by vm_compute.
Defined.

(** C6: records of a kind no version has assigned.  Anywhere in the stream, an
    advisory one changes nothing of what is read, and a critical one refuses
    the Preamble. *)
Theorem preamble_compat before kind body after :
  Tag.is_assigned kind = false ->
  in_u32 (len (before ++ (true, kind, body) :: after)) ->
  Forall ok_record (before ++ (true, kind, body) :: after) ->
  fits (frame_records (before ++ (true, kind, body) :: after)) ->
  Preamble.decode (frame_records (before ++ (false, kind, body) :: after))
    = Preamble.decode (frame_records (before ++ after))
  /\ (forall p, Preamble.decode (frame_records (before ++ (true, kind, body) :: after)) <> Ok p).
Proof.
  intros Hk Hn Hok Hf.
  assert (forall c a, Preamble.take_record a c kind body
    = if c then Err (DecodeError (lit "Preamble carries a critical record of a kind this reader does not know"))
      else Ok a) as Ht.
  { intros c a. unfold Preamble.take_record. unassigned Hk. by rewrite Hk. }
  apply Forall_app in Hok as [Hok1 [Hb Hok2]%Forall_cons_iff].
  rewrite !decode_frame; try done.
  - rewrite !fold_records_app. split.
    + destruct (fold_records before _) as [a|e]; [|done]. cbn [rbind fold_records].
      by rewrite Ht.
    + intros p. destruct (fold_records before _) as [a|e]; [|done]. cbn [rbind fold_records].
      by rewrite Ht.
  - apply Forall_app; split; [done | by constructor].
  - unfold in_u32 in *. rewrite len_app in *. rewrite len_cons in Hn.
    pose proof (len_nonneg before). pose proof (len_nonneg after). lia.
  - by apply Forall_app.
  - unfold frame_records, fits in *. rewrite !len_app, !map_app, !concat_app in *.
    rewrite !len_app in *. cbn [map concat] in Hf. rewrite len_app in Hf.
    rewrite !enc_u32_len in *. pose proof (len_nonneg (enc_record (true, kind, body))). lia.
  - unfold in_u32 in *. rewrite len_app, len_cons in *. lia.
  - apply Forall_app; split; [done | by constructor].
  - unfold frame_records, fits in *. rewrite !len_app, !map_app, !concat_app in *.
    rewrite !len_app in *. cbn [map concat] in *. by rewrite !len_app, !enc_u32_len in *.
Qed.

Lemma preamble_compat_witness :
  Preamble.decode (frame_records [(false, x20, [x01])]) = Ok Preamble.default.
Proof.
  transitivity (Preamble.decode (frame_records ([] ++ []))); [|reflexivity].
  refine (proj1 (preamble_compat [] x20 [x01] [] eq_refl _ _ _)).
  - by vm_compute.
  - constructor; [by vm_compute | constructor].
  - by vm_compute.
Defined.
