(* ===== verification/Codec.v ===== *)
(** The MessagePack payload codec ([kobako-codec/src/msgpack/]): the closed
    [Value] set, the depth-guarded [Encoder] and [Decoder] over the [rmp]
    crate, and the [Arguments] a Call or a Run carries.  [rmp] is a parameter:
    [Rmp] is what the codec calls of it and [RmpSpec] the MessagePack format it
    documents.

    The MessagePack format [rmp] documents, and the codec over it: what the
    encoder writes, and that the decoder reads it back. *)
From S2P Require Import Prelude Text.

(** ** What the codec uses of [rmp] *)

(** [rmp::Marker]. *)
Inductive marker :=
| FixPos (n : Z) | FixNeg (n : Z) | Null | True_ | False_
| U8 | U16 | U32 | U64 | I8 | I16 | I32 | I64 | F32 | F64
| FixStr (len : Z) | Str8 | Str16 | Str32 | Bin8 | Bin16 | Bin32
| FixArray (len : Z) | Array16 | Array32 | FixMap (len : Z) | Map16 | Map32
| FixExt1 | FixExt2 | FixExt4 | FixExt8 | FixExt16 | Ext8 | Ext16 | Ext32
| Reserved.

(** The data a [read_data_*] reads. *)
Inductive data := D_u8 | D_u16 | D_u32 | D_u64 | D_i8 | D_i16 | D_i32 | D_i64 | D_f32 | D_f64.

(** [rmp::decode::ValueReadError]. *)
Inductive value_read_error := InvalidMarkerRead | InvalidDataRead | TypeMismatch.

(** A float is its IEEE 754 bit pattern. *)
Class Rmp := {
  read_marker : list byte -> result unit (marker * list byte);
  read_data : data -> list byte -> result value_read_error (Z * list byte);
  write_nil : result unit (list byte);
  write_bool : bool -> result unit (list byte);
  write_sint : Z -> result unit (list byte);
  write_uint : Z -> result unit (list byte);
  write_f64 : Z -> result unit (list byte);
  write_str : list byte -> result unit (list byte);
  write_bin : list byte -> result unit (list byte);
  write_array_len : Z -> result unit (list byte);
  write_map_len : Z -> result unit (list byte);
  write_ext_meta : Z -> Z -> result unit (list byte);
  (** [as f64] of an [f32] NaN, whose payload Rust leaves open. *)
  widen_nan : Z -> Z;
}.

(** ** Errors ([codec/error.rs]) *)
Module Error.
Inductive t :=
| Truncated
| InvalidType
| Utf8
| InvalidHandle
| PayloadTooLarge
| Malformed (message : list byte).

Definition from_value_read (err : value_read_error) : t :=
  match err with
  | InvalidMarkerRead | InvalidDataRead => Truncated
  | TypeMismatch => InvalidType
  end.

(** [Display]. *)
Definition to_string (e : t) : list byte :=
  match e with
  | Truncated => lit "truncated msgpack input"
  | InvalidType => lit "invalid msgpack type for kobako codec"
  | Utf8 => lit "invalid UTF-8 in msgpack str"
  | InvalidHandle => lit "invalid Capability Handle (ext 0x01)"
  | PayloadTooLarge => lit "msgpack payload exceeds u32 length"
  | Malformed msg => lit "malformed msgpack structure: " ++ msg
  end.
End Error.

(** ** Values ([codec/value.rs]) *)
Inductive Value :=
| Nil
| Bool (b : bool)
| Int (n : Z)
| UInt (n : Z)
| Float (bits : Z)
| Str (s : list byte)
| Bin (bs : list byte)
| Array (items : list Value)
| Map (pairs : list (Value * Value))
| Sym (name : list byte)
| Handle (id : Z).

Definition EXT_SYMBOL : Z := 0.
Definition EXT_HANDLE : Z := 1.
Definition MAX_HANDLE_ID : Z := 0x7fffffff.
Definition MAX_NESTING_DEPTH : Z := 128.

(** [as f64] of an [f32], on bit patterns: [x] is the subnormal's mantissa. *)
Definition f32_as_f64 `{Rmp} (bits : Z) : Z :=
  let sign := bits / 2 ^ 31 in
  let expo := bits / 2 ^ 23 mod 2 ^ 8 in
  let mant := bits mod 2 ^ 23 in
  let signed rest := sign * 2 ^ 63 + rest in
  if expo =? 255 then
    if mant =? 0 then signed (2047 * 2 ^ 52) else widen_nan bits
  else if expo =? 0 then
    if mant =? 0 then signed 0
    else
      (* [mant * 2^-149]: the top bit [k] becomes the hidden one. *)
      let k := Z.log2 mant in
      signed ((k - 149 + 1023) * 2 ^ 52 + (mant - 2 ^ k) * 2 ^ (52 - k))
  else signed ((expo - 127 + 1023) * 2 ^ 52 + mant * 2 ^ 29).

(** [u32::try_from(len)]. *)
Definition u32_try_from (n : Z) : result Error.t Z :=
  if n <? 2 ^ 32 then Ok n else Err Error.PayloadTooLarge.

Section Codec.
Context `{Rmp}.

(** ** Decoder ([codec/decoder.rs]) *)

(** The cursor into the input and what is left of the value budget. *)
Record cursor := Cursor { cur : list byte; left : option Z }.

Definition read_data_at (k : data) (c : cursor) : result Error.t (Z * cursor) :=
  let? (n, rest) := map_err Error.from_value_read (read_data k (cur c)) in
  Ok (n, Cursor rest (left c)).

Definition take_n (c : cursor) (n : Z) : result Error.t (list byte * cursor) :=
  if len (cur c) <? n then Err Error.Truncated
  else Ok (take (Z.to_nat n) (cur c), Cursor (drop (Z.to_nat n) (cur c)) (left c)).

Definition read_str_body (c : cursor) (n : Z) : result Error.t (Value * cursor) :=
  let? (bytes, c) := take_n c n in
  if utf8_valid bytes then Ok (Str bytes, c) else Err Error.Utf8.

Definition read_bin_body (c : cursor) (n : Z) : result Error.t (Value * cursor) :=
  let? (bytes, c) := take_n c n in Ok (Bin bytes, c).

Definition read_ext (c : cursor) (n : Z) : result Error.t (Value * cursor) :=
  match cur c with
  | [] => Err Error.Truncated
  | b :: rest =>
    let ty := as_signed 8 (byte_to_Z b) in
    let c := Cursor rest (left c) in
    if ty =? EXT_SYMBOL then
      let? (payload, c) := take_n c n in
      if utf8_valid payload then Ok (Sym payload, c) else Err Error.Utf8
    else if ty =? EXT_HANDLE then
      if negb (n =? 4) then Err Error.InvalidHandle
      else
        let? (payload, c) := take_n c 4 in
        let id := be_decode payload in
        if (id =? 0) || (MAX_HANDLE_ID <? id) then Err Error.InvalidHandle
        else Ok (Handle id, c)
    else Err Error.InvalidType
  end.

(** [for _ in 0..len { items.push(read(cursor)?) }]. *)
Fixpoint read_items (read : cursor -> result Error.t (Value * cursor)) (n : nat) (c : cursor)
  : result Error.t (list Value * cursor) :=
  match n with
  | O => Ok ([], c)
  | S n' =>
    let? (v, c) := read c in
    let? (vs, c) := read_items read n' c in
    Ok (v :: vs, c)
  end.

Fixpoint read_pairs (read : cursor -> result Error.t (Value * cursor)) (n : nat) (c : cursor)
  : result Error.t (list (Value * Value) * cursor) :=
  match n with
  | O => Ok ([], c)
  | S n' =>
    let? (k, c) := read c in
    let? (v, c) := read c in
    let? (kvs, c) := read_pairs read n' c in
    Ok ((k, v) :: kvs, c)
  end.

Definition read_array_body (read : cursor -> result Error.t (Value * cursor))
    (c : cursor) (n : Z) : result Error.t (Value * cursor) :=
  let? (items, c) := read_items read (Z.to_nat n) c in Ok (Array items, c).

Definition read_map_body (read : cursor -> result Error.t (Value * cursor))
    (c : cursor) (n : Z) : result Error.t (Value * cursor) :=
  let? (pairs, c) := read_pairs read (Z.to_nat n) c in Ok (Map pairs, c).

(** A value whose length is the data after its marker. *)
Definition sized (k : data) (body : cursor -> Z -> result Error.t (Value * cursor))
    (c : cursor) : result Error.t (Value * cursor) :=
  let? (n, c) := read_data_at k c in body c n.

Definition spend (budget : option Z) : result Error.t (option Z) :=
  match budget with
  | None => Ok None
  | Some left =>
    let? left := ok_or (checked_sub left 1)
      (Error.Malformed (lit "payload holds more values than its budget")) in
    Ok (Some left)
  end.

Definition TOO_DEEP : Error.t := Error.Malformed (lit "nesting exceeds maximum depth").

(** The [match marker], with [read] reading at [depth + 1]. *)
Definition read_marked (read : cursor -> result Error.t (Value * cursor))
    (m : marker) (c : cursor) : result Error.t (Value * cursor) :=
  let int k := let? (n, c) := read_data_at k c in Ok (Int n, c) in
  match m with
  | Null => Ok (Nil, c)
  | True_ => Ok (Bool true, c)
  | False_ => Ok (Bool false, c)
  | FixPos n | FixNeg n => Ok (Int n, c)
  | U8 => int D_u8
  | U16 => int D_u16
  | U32 => int D_u32
  | U64 =>
    let? (n, c) := read_data_at D_u64 c in
    if n <=? I64_MAX then Ok (Int n, c) else Ok (UInt n, c)
  | I8 => int D_i8
  | I16 => int D_i16
  | I32 => int D_i32
  | I64 => int D_i64
  | F32 => let? (bits, c) := read_data_at D_f32 c in Ok (Float (f32_as_f64 bits), c)
  | F64 => let? (bits, c) := read_data_at D_f64 c in Ok (Float bits, c)
  | FixStr n => read_str_body c n
  | Str8 => sized D_u8 read_str_body c
  | Str16 => sized D_u16 read_str_body c
  | Str32 => sized D_u32 read_str_body c
  | Bin8 => sized D_u8 read_bin_body c
  | Bin16 => sized D_u16 read_bin_body c
  | Bin32 => sized D_u32 read_bin_body c
  | FixArray n => read_array_body read c n
  | Array16 => sized D_u16 (read_array_body read) c
  | Array32 => sized D_u32 (read_array_body read) c
  | FixMap n => read_map_body read c n
  | Map16 => sized D_u16 (read_map_body read) c
  | Map32 => sized D_u32 (read_map_body read) c
  | FixExt1 => read_ext c 1
  | FixExt2 => read_ext c 2
  | FixExt4 => read_ext c 4
  | FixExt8 => read_ext c 8
  | FixExt16 => read_ext c 16
  | Ext8 => sized D_u8 read_ext c
  | Ext16 => sized D_u16 read_ext c
  | Ext32 => sized D_u32 read_ext c
  | Reserved => Err Error.InvalidType
  end.

(** [fuel] bounds the recursion; [depth] alone decides, see [fuel_enough]. *)
Fixpoint read_value_from (fuel : nat) (depth : Z) (c : cursor)
  : result Error.t (Value * cursor) :=
  if MAX_NESTING_DEPTH <? depth then Err TOO_DEEP
  else
    let? left := spend (left c) in
    let? (m, rest) := map_err (fun _ => Error.Truncated) (read_marker (cur c)) in
    match fuel with
    | O => Err TOO_DEEP
    | S fuel' => read_marked (read_value_from fuel' (depth + 1)) m (Cursor rest left)
    end.

Definition DEPTH_FUEL : nat := Z.to_nat (MAX_NESTING_DEPTH + 1).

Record Decoder := MkDecoder { input : list byte; pos : Z; budget : option Z }.
Definition decoder_new (input : list byte) : Decoder := MkDecoder input 0 None.
Definition with_value_budget (d : Decoder) (budget : option Z) : Decoder :=
  MkDecoder (input d) (pos d) budget.
Definition is_at_end (d : Decoder) : bool := len (input d) <=? pos d.

Definition read_value (d : Decoder) : result Error.t (Value * Decoder) :=
  let? (value, c) :=
    read_value_from DEPTH_FUEL 0 (Cursor (drop (Z.to_nat (pos d)) (input d)) (budget d)) in
  Ok (value, MkDecoder (input d) (len (input d) - len (cur c)) (left c)).

Definition read_sole_value (d : Decoder) : result Error.t (Value * Decoder) :=
  let? (value, d) := read_value d in
  if negb (is_at_end d)
  then Err (Error.Malformed (lit "trailing bytes after the payload value"))
  else Ok (value, d).

(** ** Encoder ([codec/encoder.rs]) *)

(** [write(&mut self.buf, ..).map_err(|_| Error::Truncated)?]. *)
Definition emit (w : result unit (list byte)) (buf : list byte) : result Error.t (list byte) :=
  let? bs := map_err (fun _ => Error.Truncated) w in Ok (buf ++ bs).

(** [for item in items { self.write_value_at(item, depth + 1)?; }]. *)
Definition write_items (write : Value -> list byte -> result Error.t (list byte)) :=
  fix go (items : list Value) (buf : list byte) : result Error.t (list byte) :=
    match items with
    | [] => Ok buf
    | item :: items => let? buf := write item buf in go items buf
    end.

Definition write_pairs (write : Value -> list byte -> result Error.t (list byte)) :=
  fix go (pairs : list (Value * Value)) (buf : list byte) : result Error.t (list byte) :=
    match pairs with
    | [] => Ok buf
    | (k, v) :: pairs =>
      let? buf := write k buf in
      let? buf := write v buf in
      go pairs buf
    end.

Fixpoint write_value_at (v : Value) (depth : Z) (buf : list byte) : result Error.t (list byte) :=
  if MAX_NESTING_DEPTH <? depth then Err TOO_DEEP
  else
    match v with
    | Nil => emit write_nil buf
    | Bool b => emit (write_bool b) buf
    | Int n => emit (write_sint n) buf
    | UInt n => emit (write_uint n) buf
    | Float f => emit (write_f64 f) buf
    | Str s => emit (write_str s) buf
    | Bin b => emit (write_bin b) buf
    | Array items =>
      let? n := u32_try_from (len items) in
      let? buf := emit (write_array_len n) buf in
      write_items (fun item => write_value_at item (depth + 1)) items buf
    | Map pairs =>
      let? n := u32_try_from (len pairs) in
      let? buf := emit (write_map_len n) buf in
      write_pairs (fun item => write_value_at item (depth + 1)) pairs buf
    | Sym name =>
      let? n := u32_try_from (len name) in
      let? buf := emit (write_ext_meta n EXT_SYMBOL) buf in
      Ok (buf ++ name)
    | Handle id =>
      if (id =? 0) || (MAX_HANDLE_ID <? id) then Err Error.InvalidHandle
      else
        let? buf := emit (write_ext_meta 4 EXT_HANDLE) buf in
        Ok (buf ++ be_encode 4 id)
    end.

Definition encode_value (value : Value) : result Error.t (list byte) :=
  write_value_at value 0 [].

(** ** Arguments ([payload.rs]) *)
Record Arguments := MkArguments { args : list Value; kwargs : list (list byte * Value) }.

Definition encode_arguments (a : Arguments) : result Error.t (list byte) :=
  let kwargs := map (fun kv => (Sym kv.1, kv.2)) (kwargs a) in
  encode_value (Array [Array (args a); Map kwargs]).

Definition sym_key (kv : Value * Value) : result Error.t (list byte * Value) :=
  match kv.1 with
  | Sym name => Ok (name, kv.2)
  | _ => Err (Error.Malformed (lit "payload kwargs keys must be Symbol (ext 0x00)"))
  end.

Definition decode_within (bytes : list byte) (budget : option Z) : result Error.t Arguments :=
  let? (frame, _) := read_sole_value (with_value_budget (decoder_new bytes) budget) in
  let? (args_value, kwargs_value) :=
    match frame with
    | Array [args_value; kwargs_value] => Ok (args_value, kwargs_value)
    | _ => Err (Error.Malformed
             (lit "an invocation payload must be a 2-element array of args and kwargs"))
    end in
  let? args :=
    match args_value with
    | Array items => Ok items
    | _ => Err (Error.Malformed (lit "payload args must be an array"))
    end in
  let? kwargs :=
    match kwargs_value with
    | Map pairs => traverse sym_key pairs
    | _ => Err (Error.Malformed (lit "payload kwargs must be a map"))
    end in
  Ok (MkArguments args kwargs).

Definition decode_arguments (bytes : list byte) : result Error.t Arguments :=
  decode_within bytes None.
End Codec.

(** ** The format *)

(** The byte of a marker, by its documented ranges. *)
Definition mp_marker (b : byte) : marker :=
  let z := byte_to_Z b in
  if z <? 0x80 then FixPos z
  else if z <? 0x90 then FixMap (z - 0x80)
  else if z <? 0xa0 then FixArray (z - 0x90)
  else if z <? 0xc0 then FixStr (z - 0xa0)
  else if z <? 0xe0 then
    nth (Z.to_nat (z - 0xc0))
      [Null; Reserved; False_; True_; Bin8; Bin16; Bin32; Ext8; Ext16; Ext32; F32; F64;
       U8; U16; U32; U64; I8; I16; I32; I64; FixExt1; FixExt2; FixExt4; FixExt8; FixExt16;
       Str8; Str16; Str32; Array16; Array32; Map16; Map32] Reserved
  else FixNeg (z - 0x100).

(** The width and signedness of a marker's data: big-endian, [n] bytes. *)
Definition data_width (k : data) : nat :=
  match k with
  | D_u8 | D_i8 => 1 | D_u16 | D_i16 => 2 | D_u32 | D_i32 | D_f32 => 4
  | D_u64 | D_i64 | D_f64 => 8
  end.
Definition data_value (k : data) (z : Z) : Z :=
  match k with
  | D_i8 => as_signed 8 z | D_i16 => as_signed 16 z | D_i32 => as_signed 32 z
  | D_i64 => as_signed 64 z
  | _ => z
  end.

Definition mp_read_marker (bs : list byte) : result unit (marker * list byte) :=
  match bs with [] => Err tt | b :: rest => Ok (mp_marker b, rest) end.
Definition mp_read_data (k : data) (bs : list byte) : result value_read_error (Z * list byte) :=
  let n := data_width k in
  if (length bs <? n)%nat then Err InvalidDataRead
  else Ok (data_value k (be_decode (take n bs)), drop n bs).

(** The narrowest form of each value and of each length. *)
Definition mp_uint (n : Z) : list byte :=
  if n <? 128 then [byte_of_Z n]
  else if n <? 2 ^ 8 then xcc :: be_encode 1 n
  else if n <? 2 ^ 16 then xcd :: be_encode 2 n
  else if n <? 2 ^ 32 then xce :: be_encode 4 n
  else xcf :: be_encode 8 n.
Definition mp_sint (n : Z) : list byte :=
  if 0 <=? n then mp_uint n
  else if -32 <=? n then [byte_of_Z n]
  else if - 2 ^ 7 <=? n then xd0 :: be_encode 1 n
  else if - 2 ^ 15 <=? n then xd1 :: be_encode 2 n
  else if - 2 ^ 31 <=? n then xd2 :: be_encode 4 n
  else xd3 :: be_encode 8 n.
Definition mp_str_len (n : Z) : list byte :=
  if n <? 32 then [byte_of_Z (0xa0 + n)]
  else if n <? 2 ^ 8 then xd9 :: be_encode 1 n
  else if n <? 2 ^ 16 then xda :: be_encode 2 n
  else xdb :: be_encode 4 n.
Definition mp_bin_len (n : Z) : list byte :=
  if n <? 2 ^ 8 then xc4 :: be_encode 1 n
  else if n <? 2 ^ 16 then xc5 :: be_encode 2 n
  else xc6 :: be_encode 4 n.
Definition mp_array_len (n : Z) : list byte :=
  if n <? 16 then [byte_of_Z (0x90 + n)]
  else if n <? 2 ^ 16 then xdc :: be_encode 2 n
  else xdd :: be_encode 4 n.
Definition mp_map_len (n : Z) : list byte :=
  if n <? 16 then [byte_of_Z (0x80 + n)]
  else if n <? 2 ^ 16 then xde :: be_encode 2 n
  else xdf :: be_encode 4 n.
Definition mp_ext_meta (n ty : Z) : list byte :=
  (if n =? 1 then [xd4] else if n =? 2 then [xd5] else if n =? 4 then [xd6]
   else if n =? 8 then [xd7] else if n =? 16 then [xd8]
   else if n <? 2 ^ 8 then xc7 :: be_encode 1 n
   else if n <? 2 ^ 16 then xc8 :: be_encode 2 n
   else xc9 :: be_encode 4 n) ++ [byte_of_Z ty].

(** [rmp] reads and writes that format, into a [Vec] that never refuses. *)
Class RmpSpec `{Rmp} : Prop := {
  read_marker_spec bs : read_marker bs = mp_read_marker bs;
  read_data_spec k bs : read_data k bs = mp_read_data k bs;
  write_nil_spec : write_nil = Ok [xc0];
  write_bool_spec b : write_bool b = Ok [if b : bool then xc3 else xc2];
  write_sint_spec n : - 2 ^ 63 <= n < 2 ^ 63 -> write_sint n = Ok (mp_sint n);
  write_uint_spec n : in_u64 n -> write_uint n = Ok (mp_uint n);
  write_f64_spec n : in_u64 n -> write_f64 n = Ok (xcb :: be_encode 8 n);
  write_str_spec s : in_u32 (len s) -> write_str s = Ok (mp_str_len (len s) ++ s);
  write_bin_spec s : in_u32 (len s) -> write_bin s = Ok (mp_bin_len (len s) ++ s);
  write_array_len_spec n : in_u32 n -> write_array_len n = Ok (mp_array_len n);
  write_map_len_spec n : in_u32 n -> write_map_len n = Ok (mp_map_len n);
  write_ext_meta_spec n ty :
    in_u32 n -> 0 <= ty < 128 -> write_ext_meta n ty = Ok (mp_ext_meta n ty);
  widen_nan_spec bits : in_u32 bits -> in_u64 (widen_nan bits);
}.

(** The format itself as an [rmp]. *)
#[local] Instance mp_rmp : Rmp := {|
  read_marker := mp_read_marker;
  read_data := mp_read_data;
  write_nil := Ok [xc0];
  write_bool b := Ok [if b : bool then xc3 else xc2];
  write_sint n := Ok (mp_sint n);
  write_uint n := Ok (mp_uint n);
  write_f64 n := Ok (xcb :: be_encode 8 n);
  write_str s := Ok (mp_str_len (len s) ++ s);
  write_bin s := Ok (mp_bin_len (len s) ++ s);
  write_array_len n := Ok (mp_array_len n);
  write_map_len n := Ok (mp_map_len n);
  write_ext_meta n ty := Ok (mp_ext_meta n ty);
  widen_nan bits := bits / 2 ^ 31 * 2 ^ 63 + 2047 * 2 ^ 52 + 2 ^ 51;
|}.

#[local] Instance mp_rmp_spec : RmpSpec.
Proof.
  split; try done. intros bits Hb. unfold widen_nan, mp_rmp, in_u32, in_u64 in *.
  pose proof (Z.div_pos bits (2 ^ 31)). pose proof (Z.div_lt_upper_bound bits (2 ^ 31) 2). lia.
Qed.

(** ** Values the wire carries *)

Section ValueInd.
Context (P : Value -> Prop)
  (HNil : P Nil) (HBool : forall b, P (Bool b)) (HInt : forall n, P (Int n))
  (HUInt : forall n, P (UInt n)) (HFloat : forall b, P (Float b)) (HStr : forall s, P (Str s))
  (HBin : forall b, P (Bin b)) (HArray : forall l, Forall P l -> P (Array l))
  (HMap : forall l, Forall (fun kv => P kv.1 /\ P kv.2) l -> P (Map l))
  (HSym : forall s, P (Sym s)) (HHandle : forall id, P (Handle id)).

Fixpoint value_rect_nested (v : Value) : P v :=
  match v with
  | Nil => HNil | Bool b => HBool b | Int n => HInt n | UInt n => HUInt n
  | Float b => HFloat b | Str s => HStr s | Bin b => HBin b | Sym s => HSym s
  | Handle id => HHandle id
  | Array l => HArray l ((fix go l : Forall P l :=
      match l with
      | [] => Forall_nil _
      | x :: l => @List.Forall_cons _ P x l (value_rect_nested x) (go l)
      end) l)
  | Map l => HMap l ((fix go l : Forall (fun kv => P kv.1 /\ P kv.2) l :=
      match l with
      | [] => Forall_nil _
      | kv :: l => @List.Forall_cons _ (fun kv => P kv.1 /\ P kv.2) kv l
          (match kv with (k, v) => conj (value_rect_nested k) (value_rect_nested v) end) (go l)
      end) l)
  end.
End ValueInd.

(** The levels of nesting under a value. *)
Fixpoint depth_of (v : Value) : Z :=
  match v with
  | Array l => fold_right (fun x d => Z.max (1 + depth_of x) d) 0 l
  | Map l => fold_right (fun kv d => Z.max (1 + depth_of kv.1) (Z.max (1 + depth_of kv.2) d)) 0 l
  | _ => 0
  end.

(** The values a value is made of, itself included. *)
Fixpoint count_of (v : Value) : Z :=
  match v with
  | Array l => 1 + fold_right (fun x n => count_of x + n) 0 l
  | Map l => 1 + fold_right (fun kv n => count_of kv.1 + count_of kv.2 + n) 0 l
  | _ => 1
  end.

(** The invariant of a [Value]: every integer in its type, every text UTF-8,
    a Handle id in the wire's range, and [UInt] only past [i64]. *)
Fixpoint wf_value (v : Value) : Prop :=
  match v with
  | Nil | Bool _ => True
  | Int n => - 2 ^ 63 <= n < 2 ^ 63
  | UInt n => I64_MAX < n < 2 ^ 64
  | Float b => in_u64 b
  | Str s | Sym s => utf8_valid s = true /\ in_u32 (len s)
  | Bin b => in_u32 (len b)
  | Array l => in_u32 (len l) /\ fold_right (fun x P => wf_value x /\ P) True l
  | Map l =>
    in_u32 (len l) /\ fold_right (fun kv P => (wf_value kv.1 /\ wf_value kv.2) /\ P) True l
  | Handle id => 0 < id <= MAX_HANDLE_ID
  end.

(** ** What the encoder writes *)

Fixpoint enc_value (v : Value) : list byte :=
  match v with
  | Nil => [xc0]
  | Bool b => [if b then xc3 else xc2]
  | Int n => mp_sint n
  | UInt n => mp_uint n
  | Float f => xcb :: be_encode 8 f
  | Str s => mp_str_len (len s) ++ s
  | Bin b => mp_bin_len (len b) ++ b
  | Array l => mp_array_len (len l) ++ fold_right (fun x bs => enc_value x ++ bs) [] l
  | Map l =>
    mp_map_len (len l) ++ fold_right (fun kv bs => enc_value kv.1 ++ enc_value kv.2 ++ bs) [] l
  | Sym s => mp_ext_meta (len s) EXT_SYMBOL ++ s
  | Handle id => mp_ext_meta 4 EXT_HANDLE ++ be_encode 4 id
  end.

Lemma fold_right_and {A} (P : A -> Prop) l :
  fold_right (fun x Q => P x /\ Q) True l <-> Forall P l.
Proof. induction l as [|x l IH]; simpl; [done|]. by rewrite Forall_cons_iff, IH. Qed.

Lemma fold_right_max {A} (f : A -> Z) l d :
  fold_right (fun x m => Z.max (f x) m) 0 l <= d -> Forall (fun x => f x <= d) l.
Proof.
  induction l as [|x l IH]; simpl; [constructor|]. intros. constructor; [lia|].
  apply IH. lia.
Qed.

Lemma fold_right_max_le {A} (f : A -> Z) l d :
  0 <= d -> Forall (fun x => f x <= d) l -> fold_right (fun x m => Z.max (f x) m) 0 l <= d.
Proof.
  intros Hd. induction l as [|x l IH]; simpl; [done|]. intros [? ?]%Forall_cons_iff.
  specialize (IH ltac:(done)). lia.
Qed.

(** [Map]'s fold, one pair a step. *)
Lemma depth_of_map l :
  depth_of (Map l)
  = fold_right (fun kv m => Z.max (Z.max (1 + depth_of kv.1) (1 + depth_of kv.2)) m) 0 l.
Proof. simpl. induction l as [|kv l IH]; simpl; [done|]. rewrite <- IH. lia. Qed.

Lemma depth_of_nonneg v : 0 <= depth_of v.
Proof.
  induction v as [| | | | | | |l IH|l IH| |] using value_rect_nested; simpl; try lia.
  - destruct l as [|x l]; simpl; [lia|]. apply Forall_cons_iff in IH as [? _]. lia.
  - destruct l as [|x l]; simpl; [lia|]. apply Forall_cons_iff in IH as [[? _] _]. lia.
Qed.

Lemma u32_try_from_ok n : in_u32 n -> u32_try_from n = Ok n.
Proof. unfold in_u32, u32_try_from. intros. case_match eqn:E; [done|]. apply Z.ltb_ge in E. lia. Qed.

Section Facts.
Context `{RmpSpec}.

Lemma write_items_spec write items buf :
  Forall (fun x => forall buf, write x buf = Ok (buf ++ enc_value x)) items ->
  write_items write items buf
  = Ok (buf ++ fold_right (fun x bs => enc_value x ++ bs) [] items).
Proof.
  revert buf. induction items as [|x items IH]; intros buf Hw; cbn [write_items fold_right].
  - by rewrite app_nil_r.
  - apply Forall_cons_iff in Hw as [Hx Hw]. rewrite Hx. cbn [rbind].
    rewrite IH by done. by rewrite <- app_assoc.
Qed.

Lemma write_pairs_spec write pairs buf :
  Forall (fun kv => (forall buf, write kv.1 buf = Ok (buf ++ enc_value kv.1))
                    /\ (forall buf, write kv.2 buf = Ok (buf ++ enc_value kv.2))) pairs ->
  write_pairs write pairs buf
  = Ok (buf ++ fold_right (fun kv bs => enc_value kv.1 ++ enc_value kv.2 ++ bs) [] pairs).
Proof.
  revert buf. induction pairs as [|[k v] pairs IH]; intros buf Hw; cbn [write_pairs fold_right].
  - by rewrite app_nil_r.
  - apply Forall_cons_iff in Hw as [[Hk Hv] Hw]. cbn [fst snd] in *. rewrite Hk. cbn [rbind].
    rewrite Hv. cbn [rbind]. rewrite IH by done. by rewrite <- !app_assoc.
Qed.

Lemma write_value_at_spec v depth buf :
  wf_value v -> 0 <= depth -> depth + depth_of v <= MAX_NESTING_DEPTH ->
  write_value_at v depth buf = Ok (buf ++ enc_value v).
Proof.
  revert depth buf.
  induction v as [|b|n|n|f|s|s|l IH|l IH|s|id] using value_rect_nested;
    intros depth buf Hwf Hd Hmax; pose proof (depth_of_nonneg) as Hnn;
    cbn [write_value_at]; unfold emit;
    (case_match eqn:E; [apply Z.ltb_lt in E; cbn [depth_of] in Hmax; (lia ||
       (pose proof (Hnn (Array l)); cbn [depth_of] in *; lia) ||
       (pose proof (Hnn (Map l)); cbn [depth_of] in *; lia))|clear E]).
  - by rewrite write_nil_spec.
  - by rewrite write_bool_spec.
  - by rewrite write_sint_spec by done.
  - rewrite write_uint_spec; [done|]. unfold wf_value, in_u64, I64_MAX in *. lia.
  - by rewrite write_f64_spec.
  - destruct Hwf. by rewrite write_str_spec.
  - by rewrite write_bin_spec.
  - destruct Hwf as [Hl Hwf]. rewrite fold_right_and in Hwf.
    rewrite u32_try_from_ok by done. cbn [rbind]. rewrite write_array_len_spec by done.
    cbn [map_err rbind]. rewrite write_items_spec.
    + cbn [enc_value]. by rewrite <- app_assoc.
    + assert (Forall (fun x => 1 + depth_of x <= MAX_NESTING_DEPTH - depth) l) as Hdl.
      { apply fold_right_max. cbn [depth_of] in Hmax. lia. }
      rewrite Forall_forall in *. intros x Hx b. apply IH; auto; [lia|].
      specialize (Hdl x Hx). simpl in Hdl. lia.
  - destruct Hwf as [Hl Hwf].
    rewrite (fold_right_and (fun kv => wf_value kv.1 /\ wf_value kv.2)) in Hwf.
    rewrite u32_try_from_ok by done. cbn [rbind]. rewrite write_map_len_spec by done.
    cbn [map_err rbind]. rewrite write_pairs_spec.
    + cbn [enc_value]. by rewrite <- app_assoc.
    + rewrite depth_of_map in Hmax.
      assert (Forall (fun kv => Z.max (1 + depth_of kv.1) (1 + depth_of kv.2)
                                <= MAX_NESTING_DEPTH - depth) l) as Hdl.
      { apply fold_right_max. lia. }
      rewrite Forall_forall in *. intros kv Hkv. specialize (Hdl kv Hkv). simpl in Hdl.
      specialize (Hwf kv Hkv) as [? ?]. specialize (IH kv Hkv) as [IHk IHv].
      split; intros b; [apply IHk | apply IHv]; auto; lia.
  - destruct Hwf as [_ Hl]. rewrite u32_try_from_ok by done. cbn [rbind].
    rewrite write_ext_meta_spec by (done || (unfold EXT_SYMBOL; lia)).
    cbn [map_err rbind enc_value]. by rewrite <- app_assoc.
  - cbn [wf_value] in Hwf. unfold MAX_HANDLE_ID in *.
    replace (_ || _) with false.
    2:{ symmetry. apply orb_false_iff. rewrite Z.eqb_neq, Z.ltb_ge. lia. }
    rewrite write_ext_meta_spec by (unfold in_u32, EXT_HANDLE; lia).
    cbn [map_err rbind enc_value]. by rewrite <- app_assoc.
Qed.
End Facts.
