(* ===== verification/CodecRead.v ===== *)
(** The decoder against the format: each value's bytes read back to it and
    spend its count of the budget, and whatever reads is a value the wire may
    carry, within the depth and the budget. *)
From S2P Require Import Prelude Text Codec.

(** ** Paying: what a read spends of the budget and of the input *)

Definition spend_count (b : option Z) (n : Z) : option (option Z) :=
  match b with
  | None => Some None
  | Some k => if n <=? k then Some (Some (k - n)) else None
  end.

Definition OVER_BUDGET : Error.t :=
  Error.Malformed (lit "payload holds more values than its budget").

(** [n] values were read from [c] to [c'], each of a byte or more. *)
Definition paid (n : Z) (c c' : cursor) : Prop :=
  spend_count (left c) n = Some (left c')
  /\ exists used, cur c = used ++ cur c' /\ n <= len used.

Lemma spend_count_1 b :
  spend b = match spend_count b 1 with Some b' => Ok b' | None => Err OVER_BUDGET end.
Proof.
  destruct b as [k|]; [|done]. unfold spend, spend_count, checked_sub. by destruct (1 <=? k).
Qed.

Lemma spend_count_add b n m :
  0 <= n -> 0 <= m ->
  spend_count b (n + m) = b' ← spend_count b n; spend_count b' m.
Proof.
  intros Hn Hm. destruct b as [k|]; [|done]. unfold spend_count.
  destruct (Z.leb_spec n k); simpl.
  - destruct (Z.leb_spec (n + m) k), (Z.leb_spec m (k - n)); try lia; [|done].
    do 2 f_equal. lia.
  - destruct (Z.leb_spec (n + m) k); [lia | done].
Qed.

Lemma spend_count_0 b : (match b with Some k => 0 <= k | None => True end) -> spend_count b 0 = Some b.
Proof.
  destruct b as [k|]; [|done]. unfold spend_count. intros.
  destruct (Z.leb_spec 0 k); [|lia]. do 2 f_equal. lia.
Qed.

Lemma spend_count_mono b n m :
  0 <= m <= n -> spend_count b n <> None -> spend_count b m <> None.
Proof.
  intros Hm. destruct b as [k|]; [|done]. unfold spend_count.
  destruct (Z.leb_spec n k), (Z.leb_spec m k); try done. lia.
Qed.

Lemma count_of_pos v : 1 <= count_of v.
Proof.
  induction v as [| | | | | | |l IH|l IH| |] using value_rect_nested; cbn [count_of]; try lia.
  - enough (0 <= fold_right (fun x n => count_of x + n) 0 l) by lia.
    induction IH; simpl; lia.
  - enough (0 <= fold_right (fun kv n => count_of kv.1 + count_of kv.2 + n) 0 l) by lia.
    induction IH as [|? ? [? ?]]; simpl; lia.
Qed.

Lemma count_items_nonneg l : 0 <= fold_right (fun x n => count_of x + n) 0 l.
Proof. induction l as [|x l IH]; simpl; [lia|]. pose proof (count_of_pos x). lia. Qed.
Lemma count_pairs_nonneg l : 0 <= fold_right (fun kv n => count_of kv.1 + count_of kv.2 + n) 0 l.
Proof.
  induction l as [|[k v] l IH]; simpl; [lia|].
  pose proof (count_of_pos k). pose proof (count_of_pos v). lia.
Qed.

(** ** Headers: the marker and data each form opens with *)

Definition mp_marker_z (z : Z) : marker :=
  if z <? 0x80 then FixPos z
  else if z <? 0x90 then FixMap (z - 0x80)
  else if z <? 0xa0 then FixArray (z - 0x90)
  else if z <? 0xc0 then FixStr (z - 0xa0)
  else if z <? 0xe0 then mp_marker (byte_of_Z z)
  else FixNeg (z - 0x100).

Lemma mp_marker_of_Z z : mp_marker (byte_of_Z z) = mp_marker_z (z mod 256).
Proof.
  unfold mp_marker_z, mp_marker. rewrite !byte_to_of_Z, Z.mod_mod by lia.
  repeat (case_match; try done).
Qed.

Lemma be_decode_1 b : be_decode [b] = byte_to_Z b.
Proof. done. Qed.

Lemma mp_read_data_be k n rest :
  mp_read_data k (be_encode (data_width k) n ++ rest)
  = Ok (data_value k (n mod 256 ^ Z.of_nat (data_width k)), rest).
Proof.
  unfold mp_read_data. rewrite length_app, length_be_encode.
  destruct (Nat.ltb_spec (data_width k + length rest) (data_width k)); [lia|].
  rewrite take_app_length', drop_app_length' by by rewrite length_be_encode.
  by rewrite be_decode_encode.
Qed.

Lemma as_signed_mod w n :
  0 < w -> - 2 ^ (w - 1) <= n < 2 ^ (w - 1) -> as_signed w (n mod 2 ^ w) = n.
Proof.
  intros Hw Hn. unfold as_signed. rewrite Zplus_mod_idemp_l.
  assert (2 ^ w = 2 * 2 ^ (w - 1)) as E by (rewrite <- Z.pow_succ_r by lia; f_equal; lia).
  rewrite Z.mod_small by lia. lia.
Qed.

Section Read.
Context `{RmpSpec}.

Lemma read_data_at_be k n rest b :
  read_data_at k (Cursor (be_encode (data_width k) n ++ rest) b)
  = Ok (data_value k (n mod 256 ^ Z.of_nat (data_width k)), Cursor rest b).
Proof. unfold read_data_at. cbn [cur left]. rewrite read_data_spec, mp_read_data_be. done. Qed.

(** Data no wider than its field reads back. *)
Lemma read_unsigned k w n rest b :
  data_width k = w -> (forall z, data_value k z = z) -> 0 <= n < 256 ^ Z.of_nat w ->
  read_data_at k (Cursor (be_encode w n ++ rest) b) = Ok (n, Cursor rest b).
Proof. intros <- Hk Hn. by rewrite read_data_at_be, Hk, Z.mod_small. Qed.

Lemma read_signed k w n rest b :
  data_width k = w -> (forall z, data_value k z = as_signed (8 * Z.of_nat w) z) -> (0 < w)%nat ->
  - 2 ^ (8 * Z.of_nat w - 1) <= n < 2 ^ (8 * Z.of_nat w - 1) ->
  read_data_at k (Cursor (be_encode w n ++ rest) b) = Ok (n, Cursor rest b).
Proof.
  intros <- Hk Hw Hn. rewrite read_data_at_be, Hk.
  replace (256 ^ Z.of_nat (data_width k)) with (2 ^ (8 * Z.of_nat (data_width k)))
    by (rewrite Z.pow_mul_r by lia; done).
  rewrite as_signed_mod by lia. done.
Qed.

(** [h ++ rest] opens with a marker that reads, in [rest], as [out] says. *)
Definition opens (h rest : list byte)
    (out : (cursor -> result Error.t (Value * cursor)) -> option Z
           -> result Error.t (Value * cursor)) : Prop :=
  exists m rest', mp_read_marker (h ++ rest) = Ok (m, rest')
    /\ forall read b, read_marked read m (Cursor rest' b) = out read b.

(** Split on the comparisons a form was chosen by. *)
Ltac narrow :=
  repeat match goal with
  | |- context [if ?a <? ?b then _ else _] => destruct (Z.ltb_spec a b)
  | |- context [if ?a <=? ?b then _ else _] => destruct (Z.leb_spec a b)
  | |- context [if ?a =? ?b then _ else _] => destruct (Z.eqb_spec a b)
  end; try lia.

(** The marker of a [byte_of_Z]. *)
Ltac fix_marker :=
  cbn [app mp_read_marker]; rewrite mp_marker_of_Z;
  try rewrite Z.mod_small by lia; unfold mp_marker_z.

Ltac wide_form :=
  eexists _, _; (split; [cbn [app mp_read_marker]; reflexivity|]); intros read b;
  match goal with
  | |- context [mp_marker ?c] =>
      let m := eval vm_compute in (mp_marker c) in change (mp_marker c) with m
  end; cbn [read_marked].

Lemma opens_uint n rest :
  in_u64 n ->
  opens (mp_uint n) rest
    (fun _ b => Ok (if n <=? I64_MAX then Int n else UInt n, Cursor rest b)).
Proof.
  intros Hn. unfold in_u64, I64_MAX in *. unfold mp_uint, opens.
  destruct (Z.ltb_spec n 128); [|destruct (Z.ltb_spec n (2 ^ 8));
    [|destruct (Z.ltb_spec n (2 ^ 16)); [|destruct (Z.ltb_spec n (2 ^ 32))]]].
  - eexists (FixPos n), rest. fix_marker. destruct (Z.ltb_spec n 128); [|lia].
    split; [done|]. intros read b. cbn [read_marked]. by narrow.
  - wide_form. rewrite (read_unsigned D_u8 1) by (done || lia). cbn [rbind]. by narrow.
  - wide_form. rewrite (read_unsigned D_u16 2) by (done || lia). cbn [rbind]. by narrow.
  - wide_form. rewrite (read_unsigned D_u32 4) by (done || lia). cbn [rbind]. by narrow.
  - wide_form. rewrite (read_unsigned D_u64 8) by (done || lia). cbn [rbind].
    unfold I64_MAX. by narrow.
Qed.

Lemma opens_sint n rest :
  - 2 ^ 63 <= n < 2 ^ 63 ->
  opens (mp_sint n) rest (fun _ b => Ok (Int n, Cursor rest b)).
Proof.
  intros Hn. unfold mp_sint. destruct (Z.leb_spec 0 n).
  { destruct (opens_uint n rest) as (m & rest' & E & Hm); [unfold in_u64; lia|].
    exists m, rest'. split; [done|]. intros read b. rewrite Hm. unfold I64_MAX. by narrow. }
  unfold opens. destruct (Z.leb_spec (-32) n); [|destruct (Z.leb_spec (- 2 ^ 7) n);
    [|destruct (Z.leb_spec (- 2 ^ 15) n); [|destruct (Z.leb_spec (- 2 ^ 31) n)]]].
  - eexists (FixNeg n), rest. fix_marker.
    replace (n mod 256) with (n + 256)
      by (symmetry; rewrite <- (Z.mod_add n 1 256), Z.mod_small by lia; lia).
    narrow. split; [do 3 f_equal; lia | done].
  - wide_form. by rewrite (read_signed D_i8 1) by (done || lia).
  - wide_form. by rewrite (read_signed D_i16 2) by (done || lia).
  - wide_form. by rewrite (read_signed D_i32 4) by (done || lia).
  - wide_form. by rewrite (read_signed D_i64 8) by (done || lia).
Qed.

Lemma opens_str n rest :
  in_u32 n -> opens (mp_str_len n) rest (fun _ b => read_str_body (Cursor rest b) n).
Proof.
  intros Hn. unfold in_u32 in *. unfold mp_str_len, opens.
  destruct (Z.ltb_spec n 32); [|destruct (Z.ltb_spec n (2 ^ 8));
    [|destruct (Z.ltb_spec n (2 ^ 16))]].
  - eexists (FixStr n), rest. fix_marker. narrow.
    split; [do 3 f_equal; lia | done].
  - wide_form. unfold sized. by rewrite (read_unsigned D_u8 1) by (done || lia).
  - wide_form. unfold sized. by rewrite (read_unsigned D_u16 2) by (done || lia).
  - wide_form. unfold sized. by rewrite (read_unsigned D_u32 4) by (done || lia).
Qed.

Lemma opens_bin n rest :
  in_u32 n -> opens (mp_bin_len n) rest (fun _ b => read_bin_body (Cursor rest b) n).
Proof.
  intros Hn. unfold in_u32 in *. unfold mp_bin_len, opens.
  destruct (Z.ltb_spec n (2 ^ 8)); [|destruct (Z.ltb_spec n (2 ^ 16))].
  - wide_form. unfold sized. by rewrite (read_unsigned D_u8 1) by (done || lia).
  - wide_form. unfold sized. by rewrite (read_unsigned D_u16 2) by (done || lia).
  - wide_form. unfold sized. by rewrite (read_unsigned D_u32 4) by (done || lia).
Qed.

Lemma opens_array n rest :
  in_u32 n -> opens (mp_array_len n) rest (fun read b => read_array_body read (Cursor rest b) n).
Proof.
  intros Hn. unfold in_u32 in *. unfold mp_array_len, opens.
  destruct (Z.ltb_spec n 16); [|destruct (Z.ltb_spec n (2 ^ 16))].
  - eexists (FixArray n), rest. fix_marker. narrow.
    split; [do 3 f_equal; lia | done].
  - wide_form. unfold sized. by rewrite (read_unsigned D_u16 2) by (done || lia).
  - wide_form. unfold sized. by rewrite (read_unsigned D_u32 4) by (done || lia).
Qed.

Lemma opens_map n rest :
  in_u32 n -> opens (mp_map_len n) rest (fun read b => read_map_body read (Cursor rest b) n).
Proof.
  intros Hn. unfold in_u32 in *. unfold mp_map_len, opens.
  destruct (Z.ltb_spec n 16); [|destruct (Z.ltb_spec n (2 ^ 16))].
  - eexists (FixMap n), rest. fix_marker. narrow.
    split; [do 3 f_equal; lia | done].
  - wide_form. unfold sized. by rewrite (read_unsigned D_u16 2) by (done || lia).
  - wide_form. unfold sized. by rewrite (read_unsigned D_u32 4) by (done || lia).
Qed.

Lemma opens_ext n ty rest :
  in_u32 n ->
  exists h, mp_ext_meta n ty = h ++ [byte_of_Z ty]
    /\ opens h ([byte_of_Z ty] ++ rest)
         (fun _ b => read_ext (Cursor ([byte_of_Z ty] ++ rest) b) n).
Proof.
  intros Hn. unfold in_u32 in *. unfold mp_ext_meta. eexists; split; [reflexivity|].
  unfold opens.
  destruct (Z.eqb_spec n 1) as [->|]; [by wide_form|].
  destruct (Z.eqb_spec n 2) as [->|]; [by wide_form|].
  destruct (Z.eqb_spec n 4) as [->|]; [by wide_form|].
  destruct (Z.eqb_spec n 8) as [->|]; [by wide_form|].
  destruct (Z.eqb_spec n 16) as [->|]; [by wide_form|].
  destruct (Z.ltb_spec n (2 ^ 8)); [|destruct (Z.ltb_spec n (2 ^ 16))];
    wide_form; unfold sized;
    [rewrite (read_unsigned D_u8 1) | rewrite (read_unsigned D_u16 2)
    | rewrite (read_unsigned D_u32 4)]; done || lia.
Qed.

(** ** What the encoder writes reads back *)

(** A [usize] budget. *)
Definition ok_budget (b : option Z) : Prop := match b with Some k => 0 <= k | None => True end.

Lemma spend_count_ok b n b' : spend_count b n = Some b' -> ok_budget b'.
Proof.
  destruct b as [k|]; [|by intros [= <-]]. unfold spend_count.
  destruct (Z.leb_spec n k); [|done]. intros [= <-]. simpl. lia.
Qed.

(** The outcome of reading [n] values' worth into [a]. *)
Definition settled {A} (b : option Z) (n : Z) (a : A) (rest : list byte)
    : result Error.t (A * cursor) :=
  match spend_count b n with
  | Some b' => Ok (a, Cursor rest b')
  | None => Err OVER_BUDGET
  end.

(** Settling in two steps is settling at once. *)
Lemma settled_bind {A B} b n m (a : A) (c : B) rest1 rest2 k :
  0 <= n -> 0 <= m ->
  (forall b', spend_count b n = Some b' -> k (a, Cursor rest1 b') = settled b' m c rest2) ->
  rbind (settled b n a rest1) k = settled b (n + m) c rest2.
Proof.
  intros Hn Hm Hk. unfold settled at 1. destruct (spend_count b n) as [b'|] eqn:E.
  - cbn [rbind]. rewrite (Hk b') by done. unfold settled.
    rewrite spend_count_add, E by done. done.
  - unfold settled. rewrite spend_count_add, E by done. done.
Qed.

Lemma settled_map {A B} b n (a : A) (f : A -> B) rest :
  (let? (x, c) := settled b n a rest in Ok (f x, c)) = settled b n (f a) rest.
Proof. unfold settled. by destruct (spend_count b n). Qed.

Lemma read_items_enc read l rest b :
  Forall (fun x => forall rest b, ok_budget b ->
    read (Cursor (enc_value x ++ rest) b) = settled b (count_of x) x rest) l ->
  ok_budget b ->
  read_items read (length l)
    (Cursor (fold_right (fun x bs => enc_value x ++ bs) [] l ++ rest) b)
  = settled b (fold_right (fun x n => count_of x + n) 0 l) l rest.
Proof.
  revert b. induction l as [|x l IH]; intros b Hl Hb; cbn [length read_items fold_right].
  - unfold settled. by rewrite spend_count_0.
  - apply Forall_cons_iff in Hl as [Hx Hl]. rewrite <- app_assoc, Hx by done.
    apply settled_bind.
    + pose proof (count_of_pos x). lia.
    + apply count_items_nonneg.
    + intros b' Hb'. rewrite IH; [|done | by eapply spend_count_ok].
      apply (settled_map b' _ l (cons x)).
Qed.

Lemma read_pairs_enc read l rest b :
  Forall (fun kv =>
    (forall rest b, ok_budget b ->
      read (Cursor (enc_value kv.1 ++ rest) b) = settled b (count_of kv.1) kv.1 rest)
    /\ (forall rest b, ok_budget b ->
      read (Cursor (enc_value kv.2 ++ rest) b) = settled b (count_of kv.2) kv.2 rest)) l ->
  ok_budget b ->
  read_pairs read (length l)
    (Cursor (fold_right (fun kv bs => enc_value kv.1 ++ enc_value kv.2 ++ bs) [] l ++ rest) b)
  = settled b (fold_right (fun kv n => count_of kv.1 + count_of kv.2 + n) 0 l) l rest.
Proof.
  revert b. induction l as [|[k v] l IH]; intros b Hl Hb; cbn [length read_pairs fold_right fst snd].
  - unfold settled. by rewrite spend_count_0.
  - apply Forall_cons_iff in Hl as [[Hk Hv] Hl]. cbn [fst snd] in *.
    rewrite <- !app_assoc, Hk by done.
    pose proof (count_of_pos k). pose proof (count_of_pos v). pose proof (count_pairs_nonneg l).
    replace (count_of k + count_of v + _) with (count_of k + (count_of v +
      fold_right (fun kv n => count_of kv.1 + count_of kv.2 + n) 0 l)) by lia.
    apply settled_bind; [lia..|]. intros b' Hb'. rewrite Hv by by eapply spend_count_ok.
    apply settled_bind; [lia..|]. intros b'' Hb''.
    rewrite IH; [|done | by eapply spend_count_ok].
    apply (settled_map b'' _ l (cons (k, v))).
Qed.

(** One value past its header. *)
Lemma read_opened fuel depth h rest out b :
  opens h rest out -> depth <= MAX_NESTING_DEPTH ->
  read_value_from (S fuel) depth (Cursor (h ++ rest) b)
  = match spend_count b 1 with
    | Some b' => out (read_value_from fuel (depth + 1)) b'
    | None => Err OVER_BUDGET
    end.
Proof.
  intros (m & rest' & Hm & Hout) Hd. cbn [read_value_from].
  destruct (Z.ltb_spec MAX_NESTING_DEPTH depth); [lia|]. cbn [cur left].
  rewrite spend_count_1. destruct (spend_count b 1) as [b'|]; [|done]. cbn [rbind].
  rewrite read_marker_spec, Hm. cbn [map_err rbind]. apply Hout.
Qed.

Lemma take_n_len s rest b :
  take_n (Cursor (s ++ rest) b) (len s) = Ok (s, Cursor rest b).
Proof.
  unfold take_n. cbn [cur left]. rewrite len_app. pose proof (len_nonneg rest).
  destruct (Z.ltb_spec (len s + len rest) (len s)); [lia|].
  unfold len. by rewrite Nat2Z.id, take_app_length, drop_app_length.
Qed.

Lemma read_enc_text fuel depth s sym rest b :
  utf8_valid s = true /\ in_u32 (len s) -> depth <= MAX_NESTING_DEPTH ->
  let v := if sym : bool then Sym s else Str s in
  read_value_from (S fuel) depth (Cursor (enc_value v ++ rest) b) = settled b 1 v rest.
Proof.
  intros [Hu Hl] Hd. destruct sym; cbn [enc_value].
  - destruct (opens_ext (len s) EXT_SYMBOL (s ++ rest) Hl) as (h & -> & Ho).
    rewrite <- !app_assoc. rewrite (read_opened _ _ _ _ _ b Ho) by lia.
    unfold settled. destruct (spend_count b 1); [|done].
    unfold read_ext. cbn [cur app]. change (as_signed 8 _ =? EXT_SYMBOL) with true. cbv iota.
    cbn [left]. rewrite take_n_len. cbn [rbind]. by rewrite Hu.
  - rewrite <- app_assoc. rewrite (read_opened _ _ _ _ _ b (opens_str (len s) (s ++ rest) Hl)) by lia.
    unfold settled. destruct (spend_count b 1); [|done].
    unfold read_str_body. rewrite take_n_len. cbn [rbind]. by rewrite Hu.
Qed.

Lemma read_enc_handle fuel depth id rest b :
  0 < id <= MAX_HANDLE_ID -> depth <= MAX_NESTING_DEPTH ->
  read_value_from (S fuel) depth (Cursor (enc_value (Handle id) ++ rest) b)
  = settled b 1 (Handle id) rest.
Proof.
  intros Hwf Hd. cbn [enc_value].
  destruct (opens_ext 4 EXT_HANDLE (be_encode 4 id ++ rest)) as (h & -> & Ho);
    [by unfold in_u32|].
  rewrite <- !app_assoc. rewrite (read_opened _ _ _ _ _ b Ho) by lia.
  unfold settled. destruct (spend_count b 1); [|done].
  unfold read_ext. cbn [cur app]. change (as_signed 8 _ =? EXT_SYMBOL) with false.
  change (as_signed 8 _ =? EXT_HANDLE) with true. cbv iota. cbn [left negb].
  change (negb (4 =? 4)) with false. cbv iota.
  rewrite <- (len_be_encode 4 id) at 1. rewrite take_n_len. cbn [rbind].
  unfold MAX_HANDLE_ID in Hwf. rewrite be_decode_encode, Z.mod_small by lia.
  replace (_ || _) with false; [done|].
  symmetry. apply orb_false_iff. rewrite Z.eqb_neq, Z.ltb_ge. unfold MAX_HANDLE_ID. lia.
Qed.

(** A leaf that is neither text nor a Handle. *)
Lemma read_enc_plain v fuel depth rest b :
  match v with Nil | Bool _ | Int _ | UInt _ | Float _ | Bin _ => True | _ => False end ->
  wf_value v -> depth <= MAX_NESTING_DEPTH ->
  read_value_from (S fuel) depth (Cursor (enc_value v ++ rest) b) = settled b 1 v rest.
Proof.
  intros Hv Hwf Hd. destruct v as [|x|n|n|f| |s| | | |]; try done; cbn [enc_value wf_value] in *.
  - erewrite (read_opened _ _ [xc0]);
      [|by exists Null, rest; split; [|intros; reflexivity] | lia]. done.
  - rewrite (read_opened _ _ _ rest (fun _ b => Ok (Bool x, Cursor rest b))); [done | | lia].
    exists (if x then True_ else False_), rest. by destruct x.
  - by rewrite (read_opened _ _ _ _ _ b (opens_sint n rest Hwf)) by lia.
  - rewrite (read_opened _ _ _ _ _ b (opens_uint n rest ltac:(unfold in_u64, I64_MAX in *; lia))) by lia.
    destruct (Z.leb_spec n I64_MAX); [lia | done].
  - rewrite (read_opened _ _ _ rest (fun _ b => Ok (Float f, Cursor rest b))); [done | | lia].
    exists F64, (be_encode 8 f ++ rest). split; [done|]. intros read b'. cbn [read_marked].
    by rewrite (read_unsigned D_f64 8).
  - rewrite <- app_assoc. rewrite (read_opened _ _ _ _ _ b (opens_bin (len s) (s ++ rest) Hwf)) by lia.
    unfold settled. destruct (spend_count b 1); [|done]. unfold read_bin_body. by rewrite take_n_len.
Qed.

Section Nested.
(** The reader one level down, on the values it reads. *)
Context (fuel : nat) (depth : Z) (Hd : depth <= MAX_NESTING_DEPTH).
Definition reads_back (v : Value) : Prop :=
  forall rest b, ok_budget b ->
    read_value_from fuel (depth + 1) (Cursor (enc_value v ++ rest) b) = settled b (count_of v) v rest.

Lemma read_enc_array l rest b :
  in_u32 (len l) -> Forall reads_back l -> ok_budget b ->
  read_value_from (S fuel) depth (Cursor (enc_value (Array l) ++ rest) b)
  = settled b (count_of (Array l)) (Array l) rest.
Proof.
  intros Hl IH Hb. cbn [enc_value count_of]. rewrite <- app_assoc.
  rewrite (read_opened _ _ _ _ _ b (opens_array (len l) _ Hl)) by lia.
  unfold settled. rewrite spend_count_add by (lia || apply count_items_nonneg).
  destruct (spend_count b 1) as [b'|] eqn:Eb; [|done]. cbn [mbind option_bind].
  unfold read_array_body. replace (Z.to_nat (len l)) with (length l) by (unfold len; lia).
  rewrite read_items_enc; [apply settled_map | exact IH | by eapply spend_count_ok].
Qed.

Lemma read_enc_map l rest b :
  in_u32 (len l) -> Forall (fun kv => reads_back kv.1 /\ reads_back kv.2) l -> ok_budget b ->
  read_value_from (S fuel) depth (Cursor (enc_value (Map l) ++ rest) b)
  = settled b (count_of (Map l)) (Map l) rest.
Proof.
  intros Hl IH Hb. cbn [enc_value count_of]. rewrite <- app_assoc.
  rewrite (read_opened _ _ _ _ _ b (opens_map (len l) _ Hl)) by lia.
  unfold settled. rewrite spend_count_add by (lia || apply count_pairs_nonneg).
  destruct (spend_count b 1) as [b'|] eqn:Eb; [|done]. cbn [mbind option_bind].
  unfold read_map_body. replace (Z.to_nat (len l)) with (length l) by (unfold len; lia).
  rewrite read_pairs_enc; [apply settled_map | exact IH | by eapply spend_count_ok].
Qed.
End Nested.

Lemma read_enc_value v fuel depth rest b :
  wf_value v -> 0 <= depth -> depth + depth_of v <= MAX_NESTING_DEPTH ->
  (Z.to_nat (MAX_NESTING_DEPTH + 1 - depth) <= fuel)%nat -> ok_budget b ->
  read_value_from fuel depth (Cursor (enc_value v ++ rest) b)
  = settled b (count_of v) v rest.
Proof.
  revert fuel depth rest b.
  induction v as [|x|n|n|f|s|s|l IH|l IH|s|id] using value_rect_nested;
    intros fuel depth rest b Hwf Hd Hmax Hfuel Hb;
    match type of Hmax with context [depth_of ?v] => pose proof (depth_of_nonneg v) end;
    (destruct fuel as [|fuel]; [lia|]);
    try (apply read_enc_plain; [done | done | lia]).
  - apply (read_enc_text _ _ s false); [done | lia].
  - destruct Hwf as [Hl Hwf]. rewrite fold_right_and in Hwf. apply read_enc_array; [lia | done | | done].
    assert (Forall (fun x => 1 + depth_of x <= MAX_NESTING_DEPTH - depth) l) as Hdl.
    { apply fold_right_max. cbn [depth_of] in Hmax. lia. }
    rewrite Forall_forall in *. intros x Hx rest' c Hc. specialize (Hdl x Hx). simpl in Hdl.
    apply IH; auto; lia.
  - destruct Hwf as [Hl Hwf].
    rewrite (fold_right_and (fun kv => wf_value kv.1 /\ wf_value kv.2)) in Hwf.
    apply read_enc_map; [lia | done | | done]. rewrite depth_of_map in Hmax.
    assert (Forall (fun kv => Z.max (1 + depth_of kv.1) (1 + depth_of kv.2)
                              <= MAX_NESTING_DEPTH - depth) l) as Hdl.
    { apply fold_right_max. lia. }
    rewrite Forall_forall in *. intros kv Hkv. specialize (Hdl kv Hkv). simpl in Hdl.
    specialize (Hwf kv Hkv) as [? ?]. specialize (IH kv Hkv) as [IHk IHv].
    split; intros rest' c Hc; [apply IHk | apply IHv]; auto; lia.
  - apply (read_enc_text _ _ s true); [done | lia].
  - apply read_enc_handle; [done | lia].
Qed.

(** ** Whatever reads is a value of the wire *)

Lemma paid_refl c : ok_budget (left c) -> paid 0 c c.
Proof. intros Hb. split; [by apply spend_count_0|]. by exists []. Qed.

Lemma paid_trans n m c1 c2 c3 :
  0 <= n -> 0 <= m -> paid n c1 c2 -> paid m c2 c3 -> paid (n + m) c1 c3.
Proof.
  intros Hn Hm (H1 & u1 & E1 & L1) (H2 & u2 & E2 & L2). split.
  - by rewrite spend_count_add, H1 by done.
  - exists (u1 ++ u2). rewrite E1, E2, <- app_assoc, len_app. split; [done | lia].
Qed.

Lemma paid_ok_budget n c c' : paid n c c' -> ok_budget (left c').
Proof. intros [Hs _]. by eapply spend_count_ok. Qed.

(** Reading within the budget's own step. *)
Lemma paid_cut c rest used :
  ok_budget (left c) -> cur c = used ++ rest -> paid 0 c (Cursor rest (left c)).
Proof.
  intros Hb E. split; [by apply spend_count_0|]. exists used. split; [done|]. apply len_nonneg.
Qed.

Lemma take_n_sound c n s c' :
  ok_budget (left c) -> 0 <= n -> take_n c n = Ok (s, c') -> len s = n /\ paid 0 c c'.
Proof.
  intros Hb Hn. unfold take_n. destruct (Z.ltb_spec (len (cur c)) n); [done|]. intros [= <- <-].
  split; [unfold len in *; rewrite length_take; lia|].
  eapply paid_cut; [done|]. by rewrite take_drop.
Qed.

(** The data a [read_data_*] hands back is in its type. *)
Definition data_range (k : data) (n : Z) : Prop :=
  match k with
  | D_u8 => 0 <= n < 2 ^ 8 | D_u16 => 0 <= n < 2 ^ 16
  | D_u32 | D_f32 => 0 <= n < 2 ^ 32 | D_u64 | D_f64 => 0 <= n < 2 ^ 64
  | D_i8 => - 2 ^ 7 <= n < 2 ^ 7 | D_i16 => - 2 ^ 15 <= n < 2 ^ 15
  | D_i32 => - 2 ^ 31 <= n < 2 ^ 31 | D_i64 => - 2 ^ 63 <= n < 2 ^ 63
  end.

Lemma as_signed_range w n : 0 < w -> - 2 ^ (w - 1) <= as_signed w n < 2 ^ (w - 1).
Proof.
  intros Hw. unfold as_signed.
  pose proof (Z.mod_pos_bound (n + 2 ^ (w - 1)) (2 ^ w) ltac:(lia)).
  assert (2 ^ w = 2 * 2 ^ (w - 1)) by (rewrite <- Z.pow_succ_r by lia; f_equal; lia). lia.
Qed.

Lemma read_data_at_sound k c n c' :
  ok_budget (left c) -> read_data_at k c = Ok (n, c') -> data_range k n /\ paid 0 c c'.
Proof.
  intros Hb. unfold read_data_at. rewrite read_data_spec. unfold mp_read_data.
  destruct (Nat.ltb_spec (length (cur c)) (data_width k)); [done|].
  cbn [map_err rbind]. intros [= <- <-]. split.
  - pose proof (be_decode_range (take (data_width k) (cur c))) as R.
    unfold len in R. rewrite length_take_le in R by done.
    destruct k; cbn [data_value data_range data_width] in *;
      first
        [ match goal with
          | |- context [as_signed ?w ?n] => pose proof (as_signed_range w n ltac:(lia)); lia
          end
        | change (Z.of_nat 1) with 1 in R || change (Z.of_nat 2) with 2 in R
          || change (Z.of_nat 4) with 4 in R || change (Z.of_nat 8) with 8 in R; lia ].
  - eapply paid_cut; [done|]. by rewrite take_drop.
Qed.

(** What a read at [depth] is to leave. *)
Definition sound_at (depth : Z) (n : Z) (c c' : cursor) (v : Value) : Prop :=
  wf_value v /\ depth + depth_of v <= MAX_NESTING_DEPTH /\ paid n c c'.

(** A reader every value of which is one. *)
Definition sound_reader (depth : Z) (read : cursor -> result Error.t (Value * cursor)) : Prop :=
  forall c v c', ok_budget (left c) -> read c = Ok (v, c') -> sound_at depth (count_of v) c c' v.

(** A value with no value inside, read without spending. *)
Definition leaf_body (body : cursor -> Z -> result Error.t (Value * cursor)) : Prop :=
  forall c n v c', ok_budget (left c) -> in_u32 n -> body c n = Ok (v, c') ->
    wf_value v /\ depth_of v = 0 /\ count_of v = 1 /\ paid 0 c c'.

Lemma leaf_str : leaf_body read_str_body.
Proof.
  intros c n v c' Hb Hn Hr. unfold read_str_body in Hr.
  apply rbind_ok in Hr as ([s c1] & Ht & Hr). apply take_n_sound in Ht as [<- Hp];
    [|done | apply Hn]. destruct (utf8_valid s) eqn:Hu; [|done]. by injection Hr as <- <-.
Qed.

Lemma leaf_bin : leaf_body read_bin_body.
Proof.
  intros c n v c' Hb Hn Hr. unfold read_bin_body in Hr.
  apply rbind_ok in Hr as ([s c1] & Ht & Hr). apply take_n_sound in Ht as [<- Hp];
    [|done | apply Hn]. by injection Hr as <- <-.
Qed.

Lemma leaf_ext : leaf_body read_ext.
Proof.
  intros c n v c' Hb Hn Hr. unfold read_ext in Hr.
  destruct (cur c) as [|t rest] eqn:Ec; [done|].
  assert (paid 0 c (Cursor rest (left c))) as Hp0 by by apply (paid_cut c rest [t]).
  case_match.
  - apply rbind_ok in Hr as ([s c1] & Ht & Hr). apply take_n_sound in Ht as [<- Hp];
      [|done | apply Hn]. destruct (utf8_valid s) eqn:Hu; [|done]. injection Hr as <- <-.
    do 3 (split; [done|]). by apply (paid_trans 0 0 _ _ _ ltac:(lia) ltac:(lia) Hp0).
  - case_match; [|done]. case_match; [done|].
    apply rbind_ok in Hr as ([s c1] & Ht & Hr). apply take_n_sound in Ht as [Hl Hp];
      [|done | lia]. case_match eqn:E; [done|]. injection Hr as <- <-.
    apply orb_false_iff in E as [E1%Z.eqb_neq E2%Z.ltb_ge].
    pose proof (be_decode_range s). split; [cbn [wf_value]; lia|]. do 2 (split; [done|]).
    by apply (paid_trans 0 0 _ _ _ ltac:(lia) ltac:(lia) Hp0).
Qed.

Lemma read_items_sound depth read n c l c' :
  sound_reader depth read -> ok_budget (left c) -> read_items read n c = Ok (l, c') ->
  length l = n /\ Forall wf_value l
  /\ Forall (fun x => depth + depth_of x <= MAX_NESTING_DEPTH) l
  /\ paid (fold_right (fun x n => count_of x + n) 0 l) c c'.
Proof.
  intros Hread. revert c l. induction n as [|n IH]; intros c l Hb Hr; cbn [read_items] in Hr.
  - injection Hr as <- <-. do 3 (split; [done || constructor|]). by apply paid_refl.
  - apply rbind_ok in Hr as ([v c1] & Hv & Hr). apply Hread in Hv as (Hw & Hd & Hp); [|done].
    apply rbind_ok in Hr as ([vs c2] & Hvs & Hr). injection Hr as <- <-.
    apply IH in Hvs as (Hn & Hws & Hds & Hps); [|by eapply paid_ok_budget].
    split; [simpl; lia|]. split; [by constructor|]. split; [by constructor|].
    cbn [fold_right]. pose proof (count_of_pos v). pose proof (count_items_nonneg vs).
    eapply paid_trans; [lia..|exact Hp | exact Hps].
Qed.

Lemma read_pairs_sound depth read n c l c' :
  sound_reader depth read -> ok_budget (left c) -> read_pairs read n c = Ok (l, c') ->
  length l = n /\ Forall (fun kv => wf_value kv.1 /\ wf_value kv.2) l
  /\ Forall (fun kv => depth + depth_of kv.1 <= MAX_NESTING_DEPTH
                       /\ depth + depth_of kv.2 <= MAX_NESTING_DEPTH) l
  /\ paid (fold_right (fun kv n => count_of kv.1 + count_of kv.2 + n) 0 l) c c'.
Proof.
  intros Hread. revert c l. induction n as [|n IH]; intros c l Hb Hr; cbn [read_pairs] in Hr.
  - injection Hr as <- <-. do 3 (split; [done || constructor|]). by apply paid_refl.
  - apply rbind_ok in Hr as ([k c1] & Hk & Hr). apply Hread in Hk as (Hwk & Hdk & Hpk); [|done].
    apply rbind_ok in Hr as ([v c2] & Hv & Hr).
    apply Hread in Hv as (Hwv & Hdv & Hpv); [|by eapply paid_ok_budget].
    apply rbind_ok in Hr as ([kvs c3] & Hkvs & Hr). injection Hr as <- <-.
    apply IH in Hkvs as (Hn & Hws & Hds & Hps); [|by eapply paid_ok_budget].
    split; [simpl; lia|]. split; [by constructor|]. split; [by constructor|].
    cbn [fold_right fst snd]. pose proof (count_of_pos k). pose proof (count_of_pos v).
    pose proof (count_pairs_nonneg kvs).
    eapply paid_trans; [lia..| |exact Hps]. by eapply paid_trans; [lia..| |].
Qed.

(** A sequence's body, one level down. *)
Definition seq_body (depth : Z) (body : cursor -> Z -> result Error.t (Value * cursor)) : Prop :=
  forall c n v c', ok_budget (left c) -> in_u32 n -> body c n = Ok (v, c') ->
    wf_value v /\ depth + depth_of v <= MAX_NESTING_DEPTH /\ paid (count_of v - 1) c c'.

Lemma leaf_seq depth body : depth <= MAX_NESTING_DEPTH -> leaf_body body -> seq_body depth body.
Proof.
  intros Hd Hl c n v c' Hb Hn (Hw & Hdv & Hc & Hp)%Hl; [|done..].
  rewrite Hdv, Hc. split; [done|]. split; [lia | done].
Qed.

Lemma seq_array depth read :
  0 <= depth <= MAX_NESTING_DEPTH -> sound_reader (depth + 1) read ->
  seq_body depth (read_array_body read).
Proof.
  intros Hd Hread c n v c' Hb Hn Hr. unfold read_array_body in Hr.
  apply rbind_ok in Hr as ([l c1] & Hl & Hr). injection Hr as <- <-.
  eapply read_items_sound in Hl as (Hlen & Hw & Hds & Hp); [|done..].
  unfold in_u32 in Hn. cbn [wf_value count_of depth_of].
  assert (len l = n) as -> by (unfold len; lia).
  rewrite fold_right_and. split; [done|]. split.
  - enough (fold_right (fun x d => Z.max (1 + depth_of x) d) 0 l <= MAX_NESTING_DEPTH - depth) by lia.
    apply fold_right_max_le; [lia|]. eapply Forall_impl; [|exact Hds]. simpl. lia.
  - replace (1 + _ - 1) with (fold_right (fun x n => count_of x + n) 0 l) by lia. done.
Qed.

Lemma seq_map depth read :
  0 <= depth <= MAX_NESTING_DEPTH -> sound_reader (depth + 1) read ->
  seq_body depth (read_map_body read).
Proof.
  intros Hd Hread c n v c' Hb Hn Hr. unfold read_map_body in Hr.
  apply rbind_ok in Hr as ([l c1] & Hl & Hr). injection Hr as <- <-.
  eapply read_pairs_sound in Hl as (Hlen & Hw & Hds & Hp); [|done..].
  unfold in_u32 in Hn. rewrite depth_of_map. cbn [wf_value count_of].
  assert (len l = n) as -> by (unfold len; lia).
  rewrite (fold_right_and (fun kv => wf_value kv.1 /\ wf_value kv.2)). split; [done|]. split.
  - enough (fold_right (fun kv m => Z.max (Z.max (1 + depth_of kv.1) (1 + depth_of kv.2)) m) 0 l
            <= MAX_NESTING_DEPTH - depth) by lia.
    apply fold_right_max_le; [lia|]. eapply Forall_impl; [|exact Hds]. simpl. lia.
  - replace (1 + _ - 1) with (fold_right (fun kv n => count_of kv.1 + count_of kv.2 + n) 0 l) by lia.
    done.
Qed.

Lemma sized_seq depth k body :
  seq_body depth body -> In k [D_u8; D_u16; D_u32] ->
  forall c v c', ok_budget (left c) -> sized k body c = Ok (v, c') ->
    wf_value v /\ depth + depth_of v <= MAX_NESTING_DEPTH /\ paid (count_of v - 1) c c'.
Proof.
  intros Hbody Hk c v c' Hb Hr. unfold sized in Hr.
  apply rbind_ok in Hr as ([n c1] & Hn & Hr). apply read_data_at_sound in Hn as [Hn Hp]; [|done].
  assert (in_u32 n) as Hu.
  { unfold in_u32. destruct Hk as [<-|[<-|[<-|[]]]]; cbn [data_range] in Hn; lia. }
  apply Hbody in Hr as (Hw & Hd & Hp'); [|by eapply paid_ok_budget | done].
  split; [done|]. split; [done|]. pose proof (count_of_pos v).
  replace (count_of v - 1) with (0 + (count_of v - 1)) by lia.
  eapply paid_trans; [lia..|done|done].
Qed.

(** The lengths and values a one-byte marker carries. *)
Lemma marker_range b :
  match mp_marker b with
  | FixPos n => 0 <= n < 128
  | FixNeg n => -32 <= n < 0
  | FixStr n | FixArray n | FixMap n => 0 <= n < 32
  | _ => True
  end.
Proof. destruct b; vm_compute; done. Qed.

Lemma f32_as_f64_range bits : in_u32 bits -> in_u64 (f32_as_f64 bits).
Proof.
  intros Hb. pose proof (widen_nan_spec bits Hb) as Hw. unfold in_u32, in_u64, f32_as_f64 in *.
  assert (0 <= bits / 2 ^ 31 < 2) as Hs.
  { split; [apply Z.div_pos; lia | apply Z.div_lt_upper_bound; lia]. }
  pose proof (Z.mod_pos_bound (bits / 2 ^ 23) (2 ^ 8) ltac:(lia)) as He.
  pose proof (Z.mod_pos_bound bits (2 ^ 23) ltac:(lia)) as Hm.
  revert Hs He Hm. generalize (bits / 2 ^ 31) as s, (bits / 2 ^ 23 mod 2 ^ 8) as e,
    (bits mod 2 ^ 23) as m. intros s e m Hs He Hm.
  destruct (Z.eqb_spec e 255); [destruct (Z.eqb_spec m 0); [lia | done]|].
  destruct (Z.eqb_spec e 0); [destruct (Z.eqb_spec m 0); [lia|]|lia].
  pose proof (Z.log2_spec m ltac:(lia)) as [L1 L2].
  pose proof (Z.log2_nonneg m) as L0.
  assert (Z.log2 m < 23) as L3 by (apply Z.log2_lt_pow2; lia).
  set (k := Z.log2 m) in *. rewrite Z.pow_succ_r in L2 by lia.
  assert (0 <= (m - 2 ^ k) * 2 ^ (52 - k) < 2 ^ 52) as B.
  { replace (2 ^ 52) with (2 ^ k * 2 ^ (52 - k)) by (rewrite <- Z.pow_add_r by lia; f_equal; lia).
    assert (0 < 2 ^ (52 - k)) by (apply Z.pow_pos_nonneg; lia). nia. }
  lia.
Qed.

Lemma read_int_sound depth k c v c' :
  depth <= MAX_NESTING_DEPTH -> In k [D_u8; D_u16; D_u32; D_i8; D_i16; D_i32; D_i64] ->
  ok_budget (left c) -> (let? (n, c) := read_data_at k c in Ok (Int n, c)) = Ok (v, c') ->
  wf_value v /\ depth + depth_of v <= MAX_NESTING_DEPTH /\ paid (count_of v - 1) c c'.
Proof.
  intros Hd Hk Hb Hr. apply rbind_ok in Hr as ([n c1] & Hn & [= <- <-]).
  apply read_data_at_sound in Hn as [Hn Hp]; [|done]. cbn [wf_value depth_of count_of].
  split; [|split; [lia | done]].
  destruct Hk as [<-|[<-|[<-|[<-|[<-|[<-|[<-|[]]]]]]]]; cbn [data_range] in Hn; lia.
Qed.

Lemma read_marked_sound depth read b c v c' :
  0 <= depth <= MAX_NESTING_DEPTH -> sound_reader (depth + 1) read -> ok_budget (left c) ->
  read_marked read (mp_marker b) c = Ok (v, c') ->
  wf_value v /\ depth + depth_of v <= MAX_NESTING_DEPTH /\ paid (count_of v - 1) c c'.
Proof.
  intros Hd Hread Hb. pose proof (marker_range b) as Hm.
  destruct (mp_marker b) eqn:E; cbn [read_marked]; intros Hr;
    first
      [ done
      | eapply read_int_sound; [| |done|exact Hr]; [lia | simpl; tauto]
      | eapply sized_seq; [| |done|exact Hr];
        [ first [ apply seq_array; [lia | done] | apply seq_map; [lia | done]
                | apply leaf_seq; [lia|]; first [apply leaf_str | apply leaf_bin | apply leaf_ext] ]
        | simpl; tauto ]
      | eapply leaf_seq; [| |done| |exact Hr];
        [ lia | first [apply leaf_str | apply leaf_bin | apply leaf_ext] | unfold in_u32; lia ]
      | eapply seq_array; [| |done| |exact Hr]; [lia | done | unfold in_u32; lia]
      | eapply seq_map; [| |done| |exact Hr]; [lia | done | unfold in_u32; lia]
      | injection Hr as <- <-; cbn [wf_value depth_of count_of]; split; [lia|];
        split; [lia | by apply paid_refl]
      | idtac ].
  - apply rbind_ok in Hr as ([n c1] & Hn & Hr). apply read_data_at_sound in Hn as [Hn Hp]; [|done].
    cbn [data_range] in Hn. unfold I64_MAX in Hr.
    destruct (Z.leb_spec n (2 ^ 63 - 1)); injection Hr as <- <-;
      cbn [wf_value depth_of count_of]; unfold I64_MAX; (split; [lia|]); (split; [lia | done]).
  - apply rbind_ok in Hr as ([n c1] & Hn & [= <- <-]).
    apply read_data_at_sound in Hn as [Hn Hp]; [|done].
    split; [by apply f32_as_f64_range|]. split; [cbn [depth_of]; lia | done].
  - apply rbind_ok in Hr as ([n c1] & Hn & [= <- <-]).
    apply read_data_at_sound in Hn as [Hn Hp]; [|done].
    split; [done|]. split; [cbn [depth_of]; lia | done].
Qed.

Lemma read_value_from_sound fuel depth :
  0 <= depth -> sound_reader depth (read_value_from fuel depth).
Proof.
  revert depth. induction fuel as [|fuel IH]; intros depth Hd c v c' Hb Hr;
    cbn [read_value_from] in Hr; (destruct (Z.ltb_spec MAX_NESTING_DEPTH depth); [done|]).
  - apply rbind_ok in Hr as (b' & _ & Hr). by apply rbind_ok in Hr as ([m rest] & _ & Hr).
  - rewrite spend_count_1 in Hr. destruct (spend_count (left c) 1) as [b'|] eqn:Eb; [|done].
    cbn [rbind] in Hr. rewrite read_marker_spec in Hr. unfold mp_read_marker in Hr.
    destruct (cur c) as [|t rest] eqn:Ec; [done|]. cbn [map_err rbind] in Hr.
    apply (read_marked_sound depth) in Hr as (Hw & Hdv & Hp);
      [|lia | apply IH; lia | by eapply spend_count_ok].
    split; [done|]. split; [done|]. pose proof (count_of_pos v).
    replace (count_of v) with (1 + (count_of v - 1)) by lia.
    apply (paid_trans _ _ _ (Cursor rest b')); [lia..| |exact Hp].
    split; [done|]. exists [t]. split; [done|]. by rewrite len_cons.
Qed.
End Read.
