(* ===== verification/Payload.v ===== *)
(** The payload codec's contract ([kobako-codec]): what is encoded decodes
    back, what decodes is bounded, and the recursion ends by depth alone. *)
From S2P Require Import Prelude Text Codec CodecRead.

Section Payload.
Context `{RmpSpec}.

(** ** Fuel *)

(** [read_marked] reads nested values only through [read]. *)
Lemma read_items_ext r1 r2 n c :
  (forall c, r1 c = r2 c) -> read_items r1 n c = read_items r2 n c.
Proof.
  intros Hr. revert c. induction n as [|n IH]; intros c; [done|]. cbn [read_items].
  rewrite Hr. destruct (r2 c) as [[v c1]|]; [|done]. cbn [rbind]. by rewrite IH.
Qed.

Lemma read_pairs_ext r1 r2 n c :
  (forall c, r1 c = r2 c) -> read_pairs r1 n c = read_pairs r2 n c.
Proof.
  intros Hr. revert c. induction n as [|n IH]; intros c; [done|]. cbn [read_pairs].
  rewrite Hr. destruct (r2 c) as [[k c1]|]; [|done]. cbn [rbind].
  rewrite Hr. destruct (r2 c1) as [[v c2]|]; [|done]. cbn [rbind]. by rewrite IH.
Qed.

Lemma read_marked_ext r1 r2 m c :
  (forall c, r1 c = r2 c) -> read_marked r1 m c = read_marked r2 m c.
Proof.
  intros Hr.
  assert (forall c n, read_array_body r1 c n = read_array_body r2 c n) as Ha.
  { intros. unfold read_array_body. by rewrite (read_items_ext r1 r2). }
  assert (forall c n, read_map_body r1 c n = read_map_body r2 c n) as Hm.
  { intros. unfold read_map_body. by rewrite (read_pairs_ext r1 r2). }
  destruct m; cbn [read_marked]; auto; unfold sized;
    destruct (read_data_at _ _) as [[n c1]|]; cbn [rbind]; auto.
Qed.

Lemma fuel_enough f1 f2 depth c :
  0 <= depth ->
  (Z.to_nat (MAX_NESTING_DEPTH + 1 - depth) <= f1)%nat ->
  (Z.to_nat (MAX_NESTING_DEPTH + 1 - depth) <= f2)%nat ->
  read_value_from f1 depth c = read_value_from f2 depth c.
Proof.
  revert f2 depth c. induction f1 as [|f1 IH]; intros [|f2] depth c Hd H1 H2; cbn [read_value_from];
    destruct (Z.ltb_spec MAX_NESTING_DEPTH depth); try done; try lia.
  destruct (spend (left c)); [|done]. cbn [rbind].
  destruct (read_marker (cur c)) as [[m rest]|]; [|done]. cbn [map_err rbind].
  apply read_marked_ext. intros c'. apply IH; lia.
Qed.

(** ** Whole values *)

Lemma encode_value_wf v :
  wf_value v -> depth_of v <= MAX_NESTING_DEPTH -> encode_value v = Ok (enc_value v).
Proof. intros Hw Hd. unfold encode_value. by rewrite write_value_at_spec by (done || lia). Qed.

Definition TRAILING : Error.t := Error.Malformed (lit "trailing bytes after the payload value").

Lemma read_sole_encoded v rest budget :
  wf_value v -> depth_of v <= MAX_NESTING_DEPTH -> ok_budget budget ->
  read_sole_value (with_value_budget (decoder_new (enc_value v ++ rest)) budget)
  = match spend_count budget (count_of v), rest with
    | None, _ => Err OVER_BUDGET
    | Some left, [] => Ok (v, MkDecoder (enc_value v) (len (enc_value v)) left)
    | Some _, _ => Err TRAILING
    end.
Proof.
  intros Hw Hd Hb. unfold read_sole_value, read_value, with_value_budget, decoder_new.
  cbn [input pos Codec.budget]. change (Z.to_nat 0) with 0%nat. rewrite drop_0.
  rewrite read_enc_value by (done || lia).
  unfold settled. destruct (spend_count budget (count_of v)) as [left|]; [|done].
  cbn [rbind cur Codec.left]. unfold is_at_end. cbn [input pos].
  destruct rest as [|r rest].
  - rewrite app_nil_r, len_nil, Z.sub_0_r, Z.leb_refl. done.
  - rewrite len_app. pose proof (len_nonneg rest). rewrite len_cons.
    destruct (Z.leb_spec (len (enc_value v) + (1 + len rest))
                (len (enc_value v) + (1 + len rest) - (1 + len rest))); [lia | done].
Qed.

(** The value a decoder that answered read, and what it cost. *)
Lemma read_sole_sound bytes budget v d :
  ok_budget budget ->
  read_sole_value (with_value_budget (decoder_new bytes) budget) = Ok (v, d) ->
  wf_value v /\ depth_of v <= MAX_NESTING_DEPTH /\ count_of v <= len bytes
  /\ spend_count budget (count_of v) = Some (Codec.budget d).
Proof.
  intros Hb Hr. unfold read_sole_value, read_value, with_value_budget, decoder_new in Hr.
  cbn [input pos Codec.budget] in Hr. change (Z.to_nat 0) with 0%nat in Hr. rewrite drop_0 in Hr.
  apply rbind_ok in Hr as ([v' d'] & Hv & Hr).
  apply rbind_ok in Hv as ([v'' c] & Hv & [= <- <-]). case_match; [done|].
  injection Hr as <- <-. apply read_value_from_sound in Hv as (Hw & Hd & Hs & used & E & L);
    [|lia | done]. cbn [cur left Codec.budget] in *. do 2 (split; [done|]). split; [|done].
  rewrite E, len_app. pose proof (len_nonneg (cur c)). lia.
Qed.

(** ** Arguments *)

Definition wf_arguments (a : Arguments) : Prop :=
  in_u32 (len (args a)) /\ Forall wf_value (args a)
  /\ in_u32 (len (kwargs a))
  /\ Forall (fun kv => (utf8_valid kv.1 = true /\ in_u32 (len kv.1)) /\ wf_value kv.2) (kwargs a).

(** The value a payload is. *)
Definition arguments_value (a : Arguments) : Value :=
  Array [Array (args a); Map (map (fun kv => (Sym kv.1, kv.2)) (kwargs a))].

Lemma wf_arguments_value a : wf_arguments a -> wf_value (arguments_value a).
Proof.
  intros (Ha & Hwa & Hk & Hwk). unfold arguments_value. cbn [wf_value fold_right].
  rewrite fold_right_and, (fold_right_and (fun kv => wf_value kv.1 /\ wf_value kv.2)).
  rewrite Forall_map, len_map.
  split; [done|]. split; [done|]. split; [|done]. done.
Qed.

Lemma wf_value_arguments a : wf_value (arguments_value a) -> wf_arguments a.
Proof.
  unfold arguments_value. cbn [wf_value fold_right].
  rewrite fold_right_and, (fold_right_and (fun kv => wf_value kv.1 /\ wf_value kv.2)).
  rewrite Forall_map, len_map.
  intros (_ & (? & ?) & (? & ?) & _). done.
Qed.

Lemma traverse_sym_key kws : traverse sym_key (map (fun kv => (Sym kv.1, kv.2)) kws) = Ok kws.
Proof.
  induction kws as [|[k v] kws IH]; [done|]. cbn [map traverse]. unfold sym_key at 1.
  cbn [fst snd rbind]. by rewrite IH.
Qed.

Lemma traverse_sym_key_inv pairs kws :
  traverse sym_key pairs = Ok kws -> pairs = map (fun kv => (Sym kv.1, kv.2)) kws.
Proof.
  intros Ht. apply traverse_ok in Ht. induction Ht as [|[k v] kw pairs kws Hkv _ IH]; [done|].
  cbn [map]. rewrite <- IH. f_equal. unfold sym_key in Hkv. cbn [fst snd] in Hkv.
  destruct k; try done. by injection Hkv as <-.
Qed.

Lemma decode_within_ok bytes budget a :
  decode_within bytes budget = Ok a <->
  exists d, read_sole_value (with_value_budget (decoder_new bytes) budget)
            = Ok (arguments_value a, d).
Proof.
  unfold decode_within. split.
  - intros Hr. apply rbind_ok in Hr as ([frame d] & Hf & Hr). exists d. rewrite Hf. do 2 f_equal.
    apply rbind_ok in Hr as ([va vk] & Hs & Hr).
    destruct frame as [| | | | | | |[|a0 [|k0 [|? ?]]]| | |]; try done. injection Hs as -> ->.
    apply rbind_ok in Hr as (items & Ha & Hr). destruct va; try done. injection Ha as ->.
    apply rbind_ok in Hr as (kws & Hk & Hr). destruct vk; try done.
    injection Hr as <-. unfold arguments_value. cbn [args kwargs].
    by apply traverse_sym_key_inv in Hk as ->.
  - intros [d ->]. cbn [rbind]. unfold arguments_value. cbn [rbind].
    rewrite traverse_sym_key. cbn [rbind]. by destruct a.
Qed.
End Payload.

(** ** Properties *)

(** C7: a value of the wire, within the depth both sides walk, encodes, and
    its bytes decode back to it: exactly when the value budget covers its
    count, and only where nothing follows it. *)
Theorem codec_roundtrip `{RmpSpec} v rest budget :
  wf_value v -> depth_of v <= MAX_NESTING_DEPTH -> ok_budget budget ->
  exists bytes, encode_value v = Ok bytes
    /\ read_sole_value (with_value_budget (decoder_new (bytes ++ rest)) budget)
       = match spend_count budget (count_of v), rest with
         | None, _ => Err OVER_BUDGET
         | Some left, [] => Ok (v, MkDecoder bytes (len bytes) left)
         | Some _, _ => Err TRAILING
         end.
Proof.
  intros Hw Hd Hb. exists (enc_value v). split; [by apply encode_value_wf|].
  by apply read_sole_encoded.
Qed.

Definition value_sample : Value :=
  Map [(Sym (lit "id"), Handle 7); (Str (lit "n"), Array [Int (-129); UInt (2 ^ 63); Nil])].

Lemma codec_roundtrip_witness :
  exists bytes, encode_value (H := mp_rmp) value_sample = Ok bytes
    /\ read_sole_value (H := mp_rmp) (with_value_budget (decoder_new bytes) (Some 7))
       = Err OVER_BUDGET.
Proof.
  destruct (codec_roundtrip (H0 := mp_rmp_spec) value_sample [] (Some 7))
    as (bytes & He & Hd); [repeat split; by vm_compute | by vm_compute | by vm_compute |].
  exists bytes. rewrite app_nil_r in Hd. split; [exact He | exact Hd].
Defined.

(** C8: whatever bytes decode, the value is one the wire may carry (a Handle
    id in range, text UTF-8), nested no deeper than the limit, made of no more
    values than the input has bytes or the budget allows; and it encodes
    again. *)
Theorem decoder_bounded `{RmpSpec} bytes budget v d :
  ok_budget budget ->
  read_sole_value (with_value_budget (decoder_new bytes) budget) = Ok (v, d) ->
  wf_value v /\ depth_of v <= MAX_NESTING_DEPTH
  /\ count_of v <= len bytes
  /\ match budget with Some k => count_of v <= k | None => True end
  /\ exists bytes', encode_value v = Ok bytes'.
Proof.
  intros Hb Hr. apply read_sole_sound in Hr as (Hw & Hd & Hc & Hs); [|done].
  do 3 (split; [done|]). split; [|eexists; by apply encode_value_wf].
  destruct budget as [k|]; [|done]. unfold spend_count in Hs.
  destruct (Z.leb_spec (count_of v) k); [done | discriminate].
Qed.

Lemma decoder_bounded_witness : depth_of (Array [Nil]) <= MAX_NESTING_DEPTH.
Proof.
  refine (proj1 (proj2 (decoder_bounded (H0 := mp_rmp_spec) [x91; xc0] (Some 2) (Array [Nil]) _ _ _)));
    [by vm_compute | reflexivity].
Defined.

(** C9: the decoder's recursion ends on every input by its depth guard alone:
    with fuel past the depth limit the answer, error or value, is the same
    whatever the fuel. *)
Theorem decoder_terminates `{RmpSpec} fuel d :
  (DEPTH_FUEL <= fuel)%nat ->
  read_value d
  = let? (value, c) :=
      read_value_from fuel 0 (Cursor (drop (Z.to_nat (pos d)) (input d)) (Codec.budget d)) in
    Ok (value, MkDecoder (input d) (len (input d) - len (cur c)) (left c)).
Proof.
  intros Hf. unfold read_value. rewrite (fuel_enough DEPTH_FUEL fuel); [done | lia | |].
  - unfold DEPTH_FUEL. lia.
  - unfold DEPTH_FUEL in Hf. lia.
Qed.

Lemma decoder_terminates_witness :
  read_value (H := mp_rmp) (decoder_new (repeat x91 200)) = Err TOO_DEEP.
Proof.
  rewrite (decoder_terminates (H0 := mp_rmp_spec) 200); [by vm_compute|].
  apply Nat.leb_le. by vm_compute.
Defined.

(** An invocation's arguments survive the wire, their keywords in order
    under Symbol keys, wherever the budget covers them; and bytes that decode
    as arguments hold ones that encode. *)
Theorem arguments_roundtrip `{RmpSpec} :
  (forall a budget,
     wf_arguments a -> depth_of (arguments_value a) <= MAX_NESTING_DEPTH -> ok_budget budget ->
     exists bytes, encode_arguments a = Ok bytes
       /\ decode_within bytes budget
          = match spend_count budget (count_of (arguments_value a)) with
            | Some _ => Ok a
            | None => Err OVER_BUDGET
            end)
  /\ (forall bytes budget a,
     ok_budget budget -> decode_within bytes budget = Ok a ->
     wf_arguments a
     /\ exists bytes', encode_arguments a = Ok bytes' /\ decode_arguments bytes' = Ok a).
Proof.
  split.
  - intros a budget Hw Hd Hb. exists (enc_value (arguments_value a)).
    split; [apply encode_value_wf; [by apply wf_arguments_value | done]|].
    pose proof (read_sole_encoded (arguments_value a) [] budget
      (wf_arguments_value a Hw) Hd Hb) as Hr. rewrite app_nil_r in Hr.
    destruct (spend_count budget _) as [left|].
    + apply decode_within_ok. eauto.
    + unfold decode_within. by rewrite Hr.
  - intros bytes budget a Hb [d Hr]%decode_within_ok.
    apply read_sole_sound in Hr as (Hw & Hd & _ & _); [|done].
    split; [by apply wf_value_arguments|]. exists (enc_value (arguments_value a)).
    split; [by apply encode_value_wf|]. unfold decode_arguments. apply decode_within_ok.
    pose proof (read_sole_encoded (arguments_value a) [] None Hw Hd I) as Hr.
    rewrite app_nil_r in Hr. cbn [spend_count] in Hr. eexists; exact Hr.
Qed.

Lemma arguments_roundtrip_witness :
  exists bytes, encode_arguments (H := mp_rmp) (MkArguments [Int 1] [(lit "k", Bool true)]) = Ok bytes
    /\ decode_within (H := mp_rmp) bytes (Some 6)
       = Ok (MkArguments [Int 1] [(lit "k", Bool true)]).
Proof.
  apply (proj1 (arguments_roundtrip (H0 := mp_rmp_spec)) (MkArguments [Int 1] [(lit "k", Bool true)]) (Some 6));
    [|by vm_compute | by vm_compute].
  repeat constructor; by vm_compute.
Defined.
