(* ===== verification/Runtime.v ===== *)
(** The engine-neutral runtime tier ([kobako-runtime]): its errors, the
    per-invocation memory cap and capture clipping, and the observables of an
    invocation.

    The isolation ladder ([kobako-runtime/src/profile.rs]): the posture a
    frontend requests and a runtime declares.  What a posture shows of an entry
    is [Descriptors.v]'s, where a guest reads it. *)
From S2P Require Import Prelude Text Wire Messages.

(** ** Errors ([error.rs]) *)
Module Trap.
Inductive t := Timeout (message : list byte) | MemoryLimit (message : list byte)
             | Other (message : list byte).
(** [Display]. *)
Definition to_string (trap : t) : list byte :=
  match trap with Timeout m | MemoryLimit m | Other m => m end.
End Trap.

Module SetupError.
Inductive t := ModuleNotBuilt (message : list byte) | Dead (message : list byte)
             | Intact (message : list byte).
Definition to_string (e : t) : list byte :=
  match e with ModuleNotBuilt m | Dead m | Intact m => m end.
End SetupError.

Module InvokeError.
Inductive t := Trap (trap : Trap.t) | Setup (err : SetupError.t).
Definition to_string (e : t) : list byte :=
  match e with Trap trap => Trap.to_string trap | Setup err => SetupError.to_string err end.
End InvokeError.

(** ** The endpoint's version check ([endpoint.rs]) *)

Definition RUNTIME_INCOMPATIBLE : list byte :=
  lit "the Sandbox runtime is incompatible; rebuild it against the kobako version in use".
Definition SANDBOX_RUNTIME_NOT_KOBAKO : list byte :=
  lit "the loaded Wasm module is not a Kobako-compatible runtime".

Definition verify_abi_version (reported : option Z) : result SetupError.t unit :=
  match reported with
  | None =>
    Err (SetupError.Dead
      (lit "the Guest Binary does not export __kobako_abi_version; rebuild it against ABI version "
       ++ display_uint Abi.ABI_VERSION))
  | Some version =>
    if negb (version =? Abi.ABI_VERSION) then
      Err (SetupError.Dead
        (lit "the Guest Binary reports ABI version " ++ display_uint version
         ++ lit ", but this host implements ABI version " ++ display_uint Abi.ABI_VERSION
         ++ lit "; rebuild the Guest Binary against the host's version"))
    else Ok tt
  end.

(** ** The memory cap ([endpoint/memory_cap.rs]) *)
Module MemoryCap.
Record t := Mk {
  memory_limit : option Z;
  baseline : Z;
  cap_active : bool;
  peak : Z;
}.

(** [MemoryLimitExceeded]. *)
Record exceeded := Exceeded { desired : Z; limit : Z }.

Definition to_string (e : exceeded) : list byte :=
  lit "memory usage exceeded memory_limit: requested=" ++ display_uint (desired e)
  ++ lit " bytes, limit=" ++ display_uint (limit e) ++ lit " bytes".

Definition new (memory_limit : option Z) : t := Mk memory_limit 0 false 0.

Definition activate (cap : t) (baseline : Z) : t := Mk (memory_limit cap) baseline true 0.

Definition deactivate (cap : t) : t :=
  Mk (memory_limit cap) (baseline cap) false (peak cap).

Definition charge (cap : t) (desired : Z) : result exceeded unit * t :=
  if negb (cap_active cap) then (Ok tt, cap)
  else
    let delta := saturating_sub desired (baseline cap) in
    let refused :=
      match memory_limit cap with
      | Some limit => if limit <? delta then Some (Exceeded desired limit) else None
      | None => None
      end in
    match refused with
    | Some e => (Err e, cap)
    | None =>
      (Ok tt,
       if peak cap <? delta then Mk (memory_limit cap) (baseline cap) (cap_active cap) delta
       else cap)
    end.

(** The growths one invocation asks for, in order, each refused or not. *)
Fixpoint charges (cap : t) (sizes : list Z) : list (result exceeded unit) * t :=
  match sizes with
  | [] => ([], cap)
  | size :: sizes =>
    let '(r, cap) := charge cap size in
    let '(rs, cap) := charges cap sizes in
    (r :: rs, cap)
  end.
End MemoryCap.

(** ** Captures ([endpoint/capture.rs]) *)

Definition pipe_capacity (limit : option Z) : Z :=
  match limit with Some limit => saturating_add limit 1 | None => USIZE_MAX end.

Definition clip_capture (raw : list byte) (limit : option Z) : list byte * bool :=
  match limit with
  | Some limit => if limit <? len raw then (take (Z.to_nat limit) raw, true) else (raw, false)
  | None => (raw, false)
  end.

(** ** The observables of an invocation ([snapshot.rs]) *)
Module Capture.
Record t := Mk { bytes : list byte; truncated : bool }.
Definition default : t := Mk [] false.
End Capture.

Module Completion.
Inductive t := Outcome (outcome : Outcome.t) | Trap (trap : Trap.t).
End Completion.

(** [wall_time] is an [f64]'s bit pattern. *)
Module Usage.
Record t := Mk { wall_time : Z; memory_peak : Z }.
Definition default : t := Mk 0 0.
End Usage.

Module Snapshot.
Record t := Mk {
  completion : Completion.t;
  stdout : Capture.t;
  stderr : Capture.t;
  usage : Usage.t;
}.
End Snapshot.

(** ** Entries ([runtime.rs]) *)
Module Entry.
Inductive t :=
| Eval (source : list byte)
| Run (entrypoint payload : list byte).
End Entry.

(** ** Facts *)

Lemma pipe_clip stream limit :
  match limit with Some l => 0 <= l < USIZE_MAX | None => True end -> len stream <= USIZE_MAX ->
  clip_capture (take (Z.to_nat (pipe_capacity limit)) stream) limit
  = match limit with
    | Some l => (take (Z.to_nat l) stream, l <? len stream)
    | None => (stream, false)
    end.
Proof.
  intros Hl Hs. unfold clip_capture, pipe_capacity. destruct limit as [l|].
  - unfold saturating_add. rewrite Z.min_r by lia.
    assert (len (take (Z.to_nat (l + 1)) stream) = Z.min (l + 1) (len stream)) as ->.
    { unfold len. rewrite length_take. lia. }
    destruct (Z.ltb_spec l (Z.min (l + 1) (len stream))), (Z.ltb_spec l (len stream)); try lia.
    + rewrite take_take. do 2 f_equal. lia.
    + unfold len in *. rewrite !take_ge by lia. done.
  - unfold len in Hs. rewrite take_ge by lia. done.
Qed.

Lemma charge_inv cap size r cap' :
  MemoryCap.charge cap size = (r, cap') ->
  MemoryCap.memory_limit cap' = MemoryCap.memory_limit cap
  /\ MemoryCap.baseline cap' = MemoryCap.baseline cap
  /\ MemoryCap.cap_active cap' = MemoryCap.cap_active cap.
Proof.
  unfold MemoryCap.charge. intros H. destruct cap as [ml ba ac pk]. simpl in *.
  repeat case_match; injection H as <- <-; done.
Qed.

(** Charging a run of growths, from whatever peak the cap is at. *)
Lemma charges_exact cap sizes rs cap' :
  MemoryCap.cap_active cap = true -> 0 <= MemoryCap.peak cap ->
  MemoryCap.charges cap sizes = (rs, cap') ->
  let growth size := Z.max 0 (size - MemoryCap.baseline cap) in
  let within size := match MemoryCap.memory_limit cap with
                     | Some l => growth size <=? l | None => true end in
  rs = map (fun size =>
         match MemoryCap.memory_limit cap with
         | Some limit => if growth size <=? limit then Ok tt
                         else Err (MemoryCap.Exceeded size limit)
         | None => Ok tt
         end) sizes
  /\ MemoryCap.peak cap'
     = Z.max (MemoryCap.peak cap)
         (fold_right Z.max 0 (map growth (filter (fun s => within s = true) sizes)))
  /\ MemoryCap.memory_limit cap' = MemoryCap.memory_limit cap.
Proof.
  intros Ha Hp Hc growth within. revert cap rs Ha Hp Hc growth within.
  induction sizes as [|size sizes IH]; intros cap rs Ha Hp Hc growth within;
    cbn [MemoryCap.charges] in Hc.
  - injection Hc as <- <-. cbn. split; [done|]. split; [lia | done].
  - destruct (MemoryCap.charge cap size) as [r cap1] eqn:E1.
    destruct (MemoryCap.charges cap1 sizes) as [rs1 cap2] eqn:E2. injection Hc as <- ->.
    pose proof (charge_inv _ _ _ _ E1) as (Il & Ib & Iac).
    assert (MemoryCap.peak cap1 = if within size then Z.max (MemoryCap.peak cap) (growth size)
            else MemoryCap.peak cap) as Ipk.
    { subst growth within. unfold MemoryCap.charge, saturating_sub in E1. rewrite Ha in E1.
      cbn [negb] in E1. destruct (MemoryCap.memory_limit cap) as [l|]; cbn beta.
      - destruct (Z.ltb_spec l (Z.max 0 (size - MemoryCap.baseline cap))),
          (Z.leb_spec (Z.max 0 (size - MemoryCap.baseline cap)) l); try lia.
        + by injection E1 as <- <-.
        + injection E1 as <- <-.
          destruct (Z.ltb_spec (MemoryCap.peak cap) (Z.max 0 (size - MemoryCap.baseline cap)));
            cbn [MemoryCap.peak]; lia.
      - injection E1 as <- <-.
        destruct (Z.ltb_spec (MemoryCap.peak cap) (Z.max 0 (size - MemoryCap.baseline cap)));
          cbn [MemoryCap.peak]; lia. }
    apply IH in E2 as (-> & Hpk & Hlim); [|congruence|].
    2:{ rewrite Ipk. destruct (within size); lia. }
    cbn [map]. rewrite Il, Ib in *. split; [|split; [|congruence]].
    + f_equal. unfold MemoryCap.charge, saturating_sub in E1. rewrite Ha in E1. cbn [negb] in E1.
      destruct (MemoryCap.memory_limit cap) as [l|]; [|by injection E1 as <- <-].
      subst growth. cbn beta.
      destruct (Z.ltb_spec l (Z.max 0 (size - MemoryCap.baseline cap))),
        (Z.leb_spec (Z.max 0 (size - MemoryCap.baseline cap)) l); try lia;
        by injection E1 as <- <-.
    + rewrite filter_cons. rewrite Hpk, Ipk. destruct (within size) eqn:Ew.
      * case_decide; [|done]. cbn [map fold_right]. subst growth within. cbn beta in *. lia.
      * case_decide; [done|]. done.
Qed.

(** [Profile], in the order of strength. *)
Inductive Profile := Permissive | Hermetic.
Definition rank (p : Profile) : Z := match p with Permissive => 0 | Hermetic => 1 end.
Definition profile_lt (a b : Profile) : bool := rank a <? rank b.

Definition profile_name (p : Profile) : list byte :=
  match p with Permissive => lit "Permissive" | Hermetic => lit "Hermetic" end.
