(* ===== verification/Endpoint.v ===== *)
(** The host ABI endpoint ([kobako-runtime/src/endpoint/]): the guest's linear
    memory, the upcall handler with its re-entrant frames, and the invocation's
    own reads and writes.  A guest is an instance of [GuestInstance] over a
    state passed explicitly; a [DispatchHandler] is a program that may yield to
    the guest's block before it replies.

    The endpoint's lemmas: guest buffers, what an upcall keeps of the Calls
    open around it, and the trap it ends with. *)
From S2P Require Import Prelude Text Wire Messages PreambleMsg Transport Runtime.

(** ** Handlers ([dispatch.rs], [yielder.rs]) *)

(** Code that runs within a dispatch: what it answers with, after the yields
    and the reads and writes of the host's own state [H] it makes first. *)
Inductive hprog (H A : Type) :=
| HRet (a : A)
| HYield (frame : Z) (args : list byte) (k : result Trap.t YieldReply.t -> hprog H A)
| HGet (k : H -> hprog H A)
| HPut (h : H) (k : hprog H A).
Arguments HRet {H A} a.
Arguments HYield {H A} frame args k.
Arguments HGet {H A} k.
Arguments HPut {H A} h k.

Fixpoint hbind {H A B} (p : hprog H A) (k : A -> hprog H B) : hprog H B :=
  match p with
  | HRet a => k a
  | HYield frame args q => HYield frame args (fun r => hbind (q r) k)
  | HGet q => HGet (fun h => hbind (q h) k)
  | HPut h q => HPut h (hbind q k)
  end.

Notation "'let%' x := m 'in' k" := (hbind m (fun x => k))
  (at level 10, x pattern, m at level 100, k at level 200) : rust_scope.

(** [trait DispatchHandler]: [dispatch] is given the Call and its [Yielder]'s
    own frame. *)
Record handler (H : Type) := Handler {
  dispatch : Call.t -> Z -> hprog H (option Reply.t);
  abandoned : H -> bool;
}.
Arguments Handler {H} dispatch abandoned.
Arguments dispatch {H} h.
Arguments abandoned {H} h.

(** ** One instance's Calls, and the world the endpoint runs in *)

Record Calls (H F : Type) := MkCalls {
  on_dispatch : option (handler H);
  open_calls : Z;
  reentry_trap : option F;
}.
Arguments MkCalls {H F} on_dispatch open_calls reentry_trap.
Arguments on_dispatch {H F} c.
Arguments open_calls {H F} c.
Arguments reentry_trap {H F} c.

(** The guest [G], its Calls and the handler's own state [H]. *)
Record world (G H F : Type) := World { guest : G; calls : Calls H F; host : H }.
Arguments World {G H F} guest calls host.
Arguments guest {G H F} w.
Arguments calls {G H F} w.
Arguments host {G H F} w.

(** [trait GuestInstance]: [None] names an export the module does not have.
    [alloc] and [downcall] run guest code, which may upcall in turn, so they
    act on the whole world. *)
Class GuestInstance (G H F : Type) := {
  memory : G -> option (list byte);
  store : list byte -> G -> G;
  alloc : Z -> world G H F -> option (result F Z) * world G H F;
  downcall : Z -> Z -> world G H F -> option (result F Z) * world G H F;
  cap_trap : F -> option Trap.t;
  fault_to_string : F -> list byte;
}.

(** ** Guest memory ([buffer.rs]) *)

Inductive WriteError (F : Type) :=
| WTooLarge
| WIncompatible (message : list byte)
| WTrapped (fault : F)
| WOutOfMemory
| WOutOfBounds.
Arguments WTooLarge {F}.
Arguments WIncompatible {F} message.
Arguments WTrapped {F} fault.
Arguments WOutOfMemory {F}.
Arguments WOutOfBounds {F}.

Inductive ReadError := RTooLarge | ROutOfBounds.

Definition PAST_CAP : list byte := lit "payload exceeds the 16 MiB limit".

Definition checked_payload_len (n : Z) : result (list byte) Z :=
  if Abi.MAX_DISPATCH_PAYLOAD <? n then Err PAST_CAP
  else if n <? 2 ^ 31 then Ok n else Err PAST_CAP.

Definition guest_buffer_range (ptr n mem_size : Z) : result (list byte) (Z * Z) :=
  let? stop := ok_or (checked_add ptr n) (lit "ptr + len overflow") in
  if mem_size <? stop then Err (lit "range exceeds Sandbox memory size")
  else Ok (ptr, stop).

Definition unpack_guest_buffer (packed : Z) : Z * Z := Abi.unpack_ptr_len packed.

Definition read_buffer (data : list byte) (ptr n : Z) : result ReadError (list byte) :=
  if Abi.MAX_DISPATCH_PAYLOAD <? n then Err RTooLarge
  else
    let? (first, stop) := map_err (fun _ => ROutOfBounds) (guest_buffer_range ptr n (len data)) in
    Ok (take (Z.to_nat (stop - first)) (drop (Z.to_nat first) data)).

(** [memory[range].copy_from_slice(bytes)], of [bytes]'s own length. *)
Definition copy_at (mem : list byte) (ptr : Z) (bytes : list byte) : list byte :=
  take (Z.to_nat ptr) mem ++ bytes ++ drop (Z.to_nat (ptr + len bytes)) mem.

Section Endpoint.
Context {G H F : Type} `{!GuestInstance G H F}.
Abbreviation W := (world G H F).

Definition set_guest (g : G) (w : W) : W := World g (calls w) (host w).
Definition set_calls (c : Calls H F) (w : W) : W := World (guest w) c (host w).
Definition set_host (h : H) (w : W) : W := World (guest w) (calls w) h.

(** [guest.alloc(len)], its missing export and its trap as errors. *)
Definition alloc_or (n : Z) (missing : list byte) : eff W (WriteError F) Z := fun w =>
  let '(r, w) := alloc n w in
  (let? r := ok_or r (WIncompatible missing) in map_err WTrapped r, w).

Definition memory_or {E} (missing : E) : eff W E (list byte) := fun w =>
  (ok_or (memory (guest w)) missing, w).

Definition alloc_and_write (bytes : list byte) : eff W (WriteError F) Z :=
  let* n := elift (map_err (fun _ => WTooLarge) (checked_payload_len (len bytes))) in
  let* _ := memory_or (WIncompatible SANDBOX_RUNTIME_NOT_KOBAKO) in
  let* ptr := alloc_or (as_u32 n) RUNTIME_INCOMPATIBLE in
  if ptr =? 0 then efail WOutOfMemory
  else
    let* mem := memory_or (WIncompatible SANDBOX_RUNTIME_NOT_KOBAKO) in
    let* (first, _) := elift (map_err (fun _ => WOutOfBounds)
                                (guest_buffer_range ptr (len bytes) (len mem))) in
    let* _ := emodify (fun w => set_guest (store (copy_at mem first bytes) (guest w)) w) in
    eret ptr.

(** ** Upcalls ([dispatch.rs]) *)

Definition ABANDONED : list byte := lit "the host abandoned the invocation".

Definition calls_default : Calls H F := MkCalls None 0 None.
Definition bind (h : handler H) (c : Calls H F) : Calls H F :=
  MkCalls (Some h) (open_calls c) (reentry_trap c).

Definition calls_abandoned (w : W) : bool :=
  match on_dispatch (calls w) with
  | Some handler => abandoned handler (host w)
  | None => false
  end.

Inductive UpcallEnd :=
| EndFault (fault : F)
| EndAbandoned
| EndUnwritable (reason : list byte).

Definition set_open (n : Z) (c : Calls H F) : Calls H F :=
  MkCalls (on_dispatch c) n (reentry_trap c).
Definition set_reentry (t : option F) (c : Calls H F) : Calls H F :=
  MkCalls (on_dispatch c) (open_calls c) t.

(** [reentry_trap.get_or_insert(trap)], answering [reason]. *)
Definition keep_trap (trap : F) (reason : list byte) (w : W) : list byte * W :=
  (reason,
   match reentry_trap (calls w) with
   | Some _ => w
   | None => set_calls (set_reentry (Some trap) (calls w)) w
   end).

Definition write_failure (err : WriteError F) (w : W) : list byte * W :=
  match err with
  | WTooLarge => (PAST_CAP, w)
  | WIncompatible message => (message, w)
  | WTrapped trap =>
    keep_trap trap (lit "the Sandbox trapped while allocating memory for the request") w
  | WOutOfMemory => (lit "the Sandbox ran out of memory while preparing the request", w)
  | WOutOfBounds => (lit "could not write the request into the Sandbox's memory", w)
  end.

Definition write_from_callback (bytes : list byte) : eff W (list byte) Z := fun w =>
  match reentry_trap (calls w) with
  | Some _ => (Err (lit "the Sandbox already trapped during this invocation"), w)
  | None => ecatch (alloc_and_write bytes) write_failure w
  end.

(** [guest.downcall(ptr, len)], its missing export and its trap as errors. *)
Definition downcall_or (ptr n : Z) : eff W (list byte) Z := fun w =>
  match downcall ptr n w with
  | (None, w) => (Err RUNTIME_INCOMPATIBLE, w)
  | (Some (Ok packed), w) => (Ok packed, w)
  | (Some (Err trap), w) =>
    let '(reason, w) := keep_trap trap (lit "the Sandbox trapped while invoking a block") w in
    (Err reason, w)
  end.

Definition block_read_failure (err : ReadError) : list byte :=
  match err with
  | RTooLarge => lit "block result payload exceeds the 16 MiB limit"
  | ROutOfBounds => lit "the Sandbox returned an out-of-bounds block result"
  end.

Definition drive_yield (frame : Z) (args : list byte) : eff W (list byte) (list byte) :=
  let request := Downcall.encode (Downcall.Yield frame args) in
  let* n := elift (checked_payload_len (len request)) in
  let* ptr := write_from_callback request in
  let* packed := downcall_or (as_i32 ptr) n in
  let '(reply_ptr, reply_len) := unpack_guest_buffer packed in
  if reply_len =? 0 then efail (lit "the Sandbox returned an empty block result")
  else
    let* mem := memory_or SANDBOX_RUNTIME_NOT_KOBAKO in
    elift (map_err block_read_failure (read_buffer mem reply_ptr reply_len)).

(** [FrameYielder::yield_to_block]. *)
Definition yield_to_block (frame : Z) (args : list byte) : eff W Trap.t YieldReply.t := fun w =>
  let '(bytes, w) := drive_yield frame args w in
  (let? bytes := map_err Trap.Other bytes in
   map_err (fun err => Trap.Other (message err)) (YieldReply.decode bytes), w).

(** [handler.dispatch(call, &mut yielder)]. *)
Fixpoint run_handler {A} (p : hprog H A) (w : W) : A * W :=
  match p with
  | HRet a => (a, w)
  | HYield frame args k => let '(r, w) := yield_to_block frame args w in run_handler (k r) w
  | HGet k => run_handler (k (host w)) w
  | HPut h k => run_handler k (set_host h w)
  end.

Definition request_read_failure (err : ReadError) : list byte :=
  match err with
  | RTooLarge => lit "request payload exceeds the 16 MiB limit"
  | ROutOfBounds => lit "the Sandbox produced an out-of-bounds request"
  end.

Definition read_request (req_ptr req_len : Z) : eff W (list byte) (list byte) :=
  let* mem := memory_or SANDBOX_RUNTIME_NOT_KOBAKO in
  elift (map_err request_read_failure (read_buffer mem (as_u32 req_ptr) (as_u32 req_len))).

(** The Call open around its handler's [dispatch]: [open] counts it, and the
    frame is its place among the open ones. *)
Definition answer_call (handler : handler H) (call : Call.t) : eff W (list byte) Reply.t := fun w =>
  let frame := open_calls (calls w) in
  let w := set_calls (set_open (as_u32 (frame + 1)) (calls w)) w in
  let '(reply, w) := run_handler (dispatch handler call frame) w in
  let w := set_calls (set_open (as_u32 (open_calls (calls w) - 1)) (calls w)) w in
  (ok_or reply
     (lit "a Sandbox callback raised an exception instead of returning a fault — please report this as a kobako bug"),
   w).

Definition reply_to (req_ptr req_len : Z) : eff W (list byte) Reply.t :=
  let* req_bytes := read_request req_ptr req_len in
  match Upcall.decode req_bytes with
  | Ok (Upcall.Call call) =>
    let* w := eget in
    let* handler := elift (ok_or (on_dispatch (calls w))
      (lit "a Sandbox callback fired outside an active invocation — please report this as a kobako bug")) in
    answer_call handler call
  | Ok _ => eret (Reply.Unsupported (Unsupported.Mk (lit "the host does not serve this request")))
  | Err _ =>
    efail (lit "the guest sent a malformed Call envelope — please report this as a kobako bug")
  end.

Definition fit_in_message (reply : Reply.t) : Reply.t :=
  match checked_payload_len (len (Reply.encode reply)) with
  | Ok _ => reply
  | Err limit =>
    Reply.Fault (Fault.Mk FaultKind.Runtime
      (lit "Sandbox could not write the Service's answer: " ++ limit))
  end.

Definition write_reply (bytes : list byte) : eff W (list byte) Z :=
  let* ptr := write_from_callback bytes in
  eret (as_i64 (Abi.pack_ptr_len ptr (as_u32 (len bytes)))).

(** The reply the upcall answers with, before it is written. *)
Definition replied (r : result (list byte) Reply.t) : Reply.t :=
  match r with
  | Ok reply => reply
  | Err reason => Reply.Fault (Fault.Mk FaultKind.Internal reason)
  end.

Definition handle (req_ptr req_len : Z) : eff W UpcallEnd Z := fun w =>
  let '(r, w) := reply_to req_ptr req_len w in
  let '(written, w) := write_reply (Reply.encode (fit_in_message (replied r))) w in
  match reentry_trap (calls w) with
  | Some trap => (Err (EndFault trap), set_calls (set_reentry None (calls w)) w)
  | None =>
    if calls_abandoned w then (Err EndAbandoned, w)
    else (map_err EndUnwritable written, w)
  end.

(** ** The invocation's own I/O ([invoke.rs]) *)

Definition stdin_content (preamble : Preamble.t) : result (list byte) (list byte) :=
  let preamble := Preamble.encode preamble in
  let? _ := checked_payload_len (len preamble) in
  Ok (be_encode 4 (as_u32 (len preamble)) ++ preamble).

Definition request_of (entry : Entry.t) : list byte :=
  Downcall.encode
    match entry with
    | Entry.Eval source => Downcall.Eval source
    | Entry.Run entrypoint payload => Downcall.Run (Run.Mk entrypoint payload)
    end.

Definition compile_request : list byte := Downcall.encode Downcall.Compile.

Definition request_write_failure (err : WriteError F) : InvokeError.t :=
  let trap message := InvokeError.Trap (Trap.Other message) in
  match err with
  | WOutOfMemory =>
    InvokeError.Setup (SetupError.Intact (lit "could not allocate input buffer (out of memory)"))
  | WTooLarge => trap PAST_CAP
  | WIncompatible message => trap message
  | WTrapped e =>
    InvokeError.Trap
      (match cap_trap e with
       | Some t => t
       | None => Trap.Other (lit "failed to allocate input buffer: " ++ fault_to_string e)
       end)
  | WOutOfBounds => trap (lit "the input buffer lies outside the Sandbox's memory")
  end.

Definition write_request (envelope : list byte) : eff W InvokeError.t (Z * Z) :=
  let* ptr := ecatch (alloc_and_write envelope) (fun err w => (request_write_failure err, w)) in
  eret (as_i32 ptr, as_i32 (len envelope)).

Definition answer_read_failure (err : ReadError) : Trap.t :=
  Trap.Other
    match err with
    | RTooLarge => lit "result payload exceeds the 16 MiB limit"
    | ROutOfBounds => lit "the Sandbox result is out of bounds"
    end.

Definition read_answer (g : G) (packed : Z) : result Trap.t (list byte) :=
  let? mem := ok_or (memory g) (Trap.Other SANDBOX_RUNTIME_NOT_KOBAKO) in
  let '(ptr, n) := unpack_guest_buffer packed in
  map_err answer_read_failure (read_buffer mem ptr n).

Definition read_outcome (g : G) (packed : Z) : result Trap.t Outcome.t :=
  let? bytes := read_answer g packed in
  map_err (fun _ => Trap.Other
    match bytes with
    | [] => lit "Sandbox exited without producing a result"
    | _ => lit "Sandbox produced an unrecognised result"
    end) (Outcome.decode bytes).

Definition read_compile_reply (g : G) (packed : Z) : result Trap.t CompileReply.t :=
  let? bytes := read_answer g packed in
  map_err (fun _ => Trap.Other (lit "Sandbox produced an unrecognised compile answer"))
    (CompileReply.decode bytes).
End Endpoint.
Arguments EndFault {F} fault.
Arguments EndAbandoned {F}.
Arguments EndUnwritable {F} reason.

(** ** What a compile leaves to replay *)

(** [iter().filter(is_source).count()]. *)
Definition source_count (preamble : Preamble.t) : Z :=
  len (filter (fun s => Snippet.is_source s = true) (Preamble.snippets preamble)).

Definition one_per_source (preamble : Preamble.t) (bytecodes : list (list byte))
  : option (list (list byte)) :=
  if len bytecodes =? source_count preamble then Some bytecodes else None.

(** [sources.zip(bytecodes)]: each bytecode in place of one source, in order. *)
Fixpoint replay_entries (entries : list Snippet.t) (bytecodes : list (list byte))
  : list Snippet.t :=
  match entries, bytecodes with
  | entry :: entries', body :: bytecodes' =>
    if Snippet.is_source entry then Snippet.Bytecode body :: replay_entries entries' bytecodes'
    else entry :: replay_entries entries' bytecodes
  | _, _ => entries
  end.

Definition replay (preamble : Preamble.t) (bytecodes : list (list byte)) : Preamble.t :=
  Preamble.Mk (Preamble.bindings preamble)
    (replay_entries (Preamble.snippets preamble) bytecodes) (Preamble.flags preamble).

Definition replay_fits (preamble : Preamble.t) (bytecodes : list (list byte)) : bool :=
  match checked_payload_len (len (Preamble.encode (replay preamble bytecodes))) with
  | Ok _ => true
  | Err _ => false
  end.

Definition compiled_bytecodes (preamble : Preamble.t) (reply : CompileReply.t)
  : option (list (list byte)) :=
  match reply with
  | CompileReply.Ok bytecodes =>
    match one_per_source preamble bytecodes with
    | Some bytecodes => if replay_fits preamble bytecodes then Some bytecodes else None
    | None => None
    end
  | CompileReply.Error _ | CompileReply.Unsupported _ => None
  end.

(** ** Buffers *)

Lemma checked_payload_len_ok n m :
  checked_payload_len n = Ok m <-> m = n /\ n <= Abi.MAX_DISPATCH_PAYLOAD.
Proof.
  unfold checked_payload_len. destruct (Z.ltb_spec Abi.MAX_DISPATCH_PAYLOAD n).
  - split; [done | lia].
  - assert (n < 2 ^ 31) as Hn by (unfold Abi.MAX_DISPATCH_PAYLOAD in *; lia).
    apply Z.ltb_lt in Hn. rewrite Hn. split; [by intros [= <-] | by intros [-> _]].
Qed.

Lemma guest_buffer_range_ok ptr n size r :
  guest_buffer_range ptr n size = Ok r ->
  r = (ptr, ptr + n) /\ ptr + n <= size /\ ptr + n <= USIZE_MAX.
Proof.
  unfold guest_buffer_range, checked_add. destruct (Z.leb_spec (ptr + n) USIZE_MAX); [|done].
  cbn [ok_or rbind]. destruct (Z.ltb_spec size (ptr + n)); [done|]. by intros [= <-].
Qed.

Lemma guest_buffer_range_in ptr n size :
  ptr + n <= size -> size <= USIZE_MAX -> guest_buffer_range ptr n size = Ok (ptr, ptr + n).
Proof.
  intros H1 H2. unfold guest_buffer_range, checked_add.
  destruct (Z.leb_spec (ptr + n) USIZE_MAX); [|lia]. cbn [ok_or rbind].
  destruct (Z.ltb_spec size (ptr + n)); [lia | done].
Qed.

Lemma read_buffer_ok data ptr n bytes :
  read_buffer data ptr n = Ok bytes ->
  n <= Abi.MAX_DISPATCH_PAYLOAD /\ ptr + n <= len data
  /\ bytes = take (Z.to_nat n) (drop (Z.to_nat ptr) data).
Proof.
  unfold read_buffer. destruct (Z.ltb_spec Abi.MAX_DISPATCH_PAYLOAD n); [done|].
  intros Hr. apply rbind_ok in Hr as ([a b] & Hr & [= <-]).
  destruct (guest_buffer_range ptr n (len data)) as [r|] eqn:E; [|done].
  apply guest_buffer_range_ok in E as (-> & ? & ?). injection Hr as <- <-.
  replace (ptr + n - ptr) with n by lia. done.
Qed.

Section Copy.
Context (mem : list byte) (ptr : Z) (bytes : list byte).
Context (Hptr : 0 <= ptr) (Hin : ptr + len bytes <= len mem).

Lemma len_take_drop : len (take (Z.to_nat ptr) mem) = ptr
  /\ len (drop (Z.to_nat (ptr + len bytes)) mem) = len mem - (ptr + len bytes).
Proof.
  unfold len in *. rewrite length_take, length_drop. lia.
Qed.

Lemma len_copy_at : len (copy_at mem ptr bytes) = len mem.
Proof. unfold copy_at. rewrite !len_app. destruct len_take_drop as [-> ->]. lia. Qed.

(** What is copied reads back. *)
Lemma read_copy_at :
  len bytes <= Abi.MAX_DISPATCH_PAYLOAD -> len mem <= USIZE_MAX ->
  read_buffer (copy_at mem ptr bytes) ptr (len bytes) = Ok bytes.
Proof.
  intros Hb Hm. unfold read_buffer. destruct (Z.ltb_spec Abi.MAX_DISPATCH_PAYLOAD (len bytes)); [lia|].
  rewrite guest_buffer_range_in by (rewrite len_copy_at; done). cbn [map_err rbind].
  replace (ptr + len bytes - ptr) with (len bytes) by lia. f_equal. unfold copy_at.
  assert (length (take (Z.to_nat ptr) mem) = Z.to_nat ptr) as L.
  { unfold len in *. rewrite length_take. lia. }
  rewrite drop_app_length' by done. unfold len. rewrite Nat2Z.id. by rewrite take_app_length.
Qed.

(** Every other byte is as it was. *)
Lemma copy_at_other i :
  0 <= i -> i < ptr \/ ptr + len bytes <= i ->
  copy_at mem ptr bytes !! Z.to_nat i = mem !! Z.to_nat i.
Proof.
  intros Hi Ho. unfold copy_at.
  assert (length (take (Z.to_nat ptr) mem) = Z.to_nat ptr) as L.
  { unfold len in *. rewrite length_take. lia. }
  destruct Ho as [Ho|Ho].
  - rewrite lookup_app_l by lia. rewrite lookup_take. case_decide; [done | lia].
  - unfold len in *. rewrite lookup_app_r by lia. rewrite lookup_app_r by lia.
    rewrite lookup_drop. f_equal. lia.
Qed.
End Copy.

(** ** The guest the endpoint relies on *)

(** A memory that stores is read back; an address is a [u32] and a packed
    answer a [u64]; and guest code touches the Calls only by upcalling, so a
    call into it from a world with no trap kept leaves the Calls as they were,
    which [handle] does in turn. *)
Definition calls_kept {G H F} (w w' : world G H F) : Prop :=
  on_dispatch (calls w') = on_dispatch (calls w)
  /\ (in_u32 (open_calls (calls w)) -> open_calls (calls w') = open_calls (calls w)).

Class GuestLaws (G H F : Type) `{!GuestInstance G H F} : Prop := {
  memory_store m m' g : memory g = Some m -> len m' = len m -> memory (store m' g) = Some m';
  memory_usize m g : memory g = Some m -> len m <= USIZE_MAX;
  alloc_u32 n w ptr w' : alloc n w = (Some (Ok ptr), w') -> in_u32 ptr;
  alloc_calls n w r w' :
    alloc n w = (r, w') -> reentry_trap (calls w) = None ->
    calls_kept w w' /\ reentry_trap (calls w') = None;
  downcall_calls ptr n w r w' :
    downcall ptr n w = (r, w') -> reentry_trap (calls w) = None ->
    calls_kept w w' /\ reentry_trap (calls w') = None;
}.

Lemma calls_kept_refl {G H F} (w : world G H F) : calls_kept w w.
Proof. done. Qed.
Lemma calls_kept_trans {G H F} (w1 w2 w3 : world G H F) :
  calls_kept w1 w2 -> calls_kept w2 w3 -> calls_kept w1 w3.
Proof.
  intros [D1 O1] [D2 O2]. split; [congruence|]. intros Ho. specialize (O1 Ho).
  rewrite O2; congruence.
Qed.

#[export] Hint Resolve calls_kept_refl : core.

Section Facts.
Context {G H F : Type} `{!GuestInstance G H F} `{!GuestLaws G H F}.
Abbreviation W := (world G H F).

(** A step inside an upcall: the Calls are kept; a trap once kept stays, with
    the guest left alone. *)
Definition upcall_step (w w' : W) : Prop :=
  calls_kept w w'
  /\ forall t, reentry_trap (calls w) = Some t ->
       reentry_trap (calls w') = Some t /\ guest w' = guest w.

Lemma upcall_step_refl w : upcall_step w w.
Proof. by split. Qed.

Lemma upcall_step_trans w1 w2 w3 : upcall_step w1 w2 -> upcall_step w2 w3 -> upcall_step w1 w3.
Proof.
  intros [K1 T1] [K2 T2]. split; [by eapply calls_kept_trans|].
  intros t Ht. apply T1 in Ht as [Ht E1]. apply T2 in Ht as [Ht E2].
  split; congruence.
Qed.

(** How [alloc_and_write] ends. *)
Lemma alloc_and_write_inv bytes w r w' :
  alloc_and_write bytes w = (r, w') ->
  (exists e, r = Err e /\ w' = w
     /\ (e = WTooLarge /\ Abi.MAX_DISPATCH_PAYLOAD < len bytes
         \/ exists m, e = WIncompatible m /\ memory (guest w) = None))
  \/ exists m a w1,
       len bytes <= Abi.MAX_DISPATCH_PAYLOAD
       /\ memory (guest w) = Some m /\ alloc (as_u32 (len bytes)) w = (a, w1)
       /\ match a with
          | None => r = Err (WIncompatible RUNTIME_INCOMPATIBLE) /\ w' = w1
          | Some (Err t) => r = Err (WTrapped t) /\ w' = w1
          | Some (Ok ptr) =>
            (exists e, r = Err e /\ w' = w1 /\ forall t, e <> WTrapped t)
            \/ exists mem, r = Ok ptr /\ ptr <> 0 /\ memory (guest w1) = Some mem
                 /\ ptr + len bytes <= len mem
                 /\ w' = set_guest (store (copy_at mem ptr bytes) (guest w1)) w1
          end.
Proof.
  unfold alloc_and_write, ebind, elift, memory_or, alloc_or, emodify, eret, efail.
  destruct (checked_payload_len (len bytes)) as [n|] eqn:E; cbn [map_err].
  2:{ intros [= <- <-]. left. eexists. do 2 (split; [done|]). left. split; [done|].
      destruct (Z.ltb_spec Abi.MAX_DISPATCH_PAYLOAD (len bytes)); [done|].
      exfalso. assert (checked_payload_len (len bytes) = Ok (len bytes)) by by apply checked_payload_len_ok.
      congruence. }
  apply checked_payload_len_ok in E as [-> Hn].
  destruct (memory (guest w)) as [m|] eqn:Em; cbn [ok_or].
  2:{ intros [= <- <-]. left. eauto 8. }
  destruct (alloc (as_u32 (len bytes)) w) as [a w1] eqn:Ea.
  intros Hr. right. exists m, a, w1. do 3 (split; [done|]).
  destruct a as [[ptr|t]|]; cbn [ok_or rbind map_err] in Hr; [|by injection Hr as <- <-..].
  destruct (Z.eqb_spec ptr 0); [injection Hr as <- <-; left; eauto|].
  destruct (memory (guest w1)) as [mem|] eqn:Em1; cbn [ok_or] in Hr;
    [|injection Hr as <- <-; left; eauto].
  destruct (guest_buffer_range ptr (len bytes) (len mem)) as [[x y]|] eqn:Eg;
    cbn [map_err] in Hr; [|injection Hr as <- <-; left; eauto].
  apply guest_buffer_range_ok in Eg as (Eg & Hin & _). injection Eg as -> ->.
  injection Hr as <- <-. right. eauto 10.
Qed.

Lemma alloc_and_write_calls bytes w r w' :
  alloc_and_write bytes w = (r, w') -> reentry_trap (calls w) = None ->
  calls_kept w w' /\ reentry_trap (calls w') = None.
Proof.
  intros Hr Ht. apply alloc_and_write_inv in Hr as [(e & -> & -> & _)|(m & a & w1 & _ & _ & Ea & Hr)];
    [done|].
  apply alloc_calls in Ea as [K1 T1]; [|done].
  destruct a as [[ptr|t]|]; [destruct Hr as [(e & -> & -> & _)|(mem & -> & _ & _ & _ & ->)]
    | destruct Hr as [-> ->]..]; done.
Qed.

Lemma keep_trap_step t reason w m w' :
  keep_trap t reason w = (m, w') ->
  upcall_step w w' /\ guest w' = guest w /\ host w' = host w
  /\ reentry_trap (calls w') = Some (default t (reentry_trap (calls w))).
Proof.
  unfold keep_trap. intros [= <- <-].
  destruct (reentry_trap (calls w)) as [t'|] eqn:E; cbn [default].
  - split; [apply upcall_step_refl | done].
  - split; [|done]. split; [done|]. intros t' Ht'. congruence.
Qed.

Lemma write_from_callback_step bytes w r w' :
  write_from_callback bytes w = (r, w') -> upcall_step w w'.
Proof.
  unfold write_from_callback. destruct (reentry_trap (calls w)) as [t|] eqn:Et.
  { intros [= <- <-]. apply upcall_step_refl. }
  unfold ecatch. destruct (alloc_and_write bytes w) as [[ptr|e] w1] eqn:Ea.
  - intros [= <- <-]. apply alloc_and_write_calls in Ea as [K _]; [|done].
    split; [done|]. congruence.
  - apply alloc_and_write_calls in Ea as [K _]; [|done]. intros Hr.
    assert (upcall_step w w1) as S1 by (split; [done | congruence]).
    destruct (write_failure e w1) as [m w2] eqn:Ew. injection Hr as <- <-.
    destruct e; cbn [write_failure] in Ew; try (injection Ew as <- <-; exact S1).
    apply keep_trap_step in Ew as [S2 _]. by eapply upcall_step_trans.
Qed.

(** A callback writes only where no trap is kept. *)
Lemma write_from_callback_ok bytes w ptr w' :
  write_from_callback bytes w = (Ok ptr, w') ->
  reentry_trap (calls w) = None /\ alloc_and_write bytes w = (Ok ptr, w').
Proof.
  unfold write_from_callback. destruct (reentry_trap (calls w)); [done|].
  unfold ecatch. destruct (alloc_and_write bytes w) as [[p|e] w1] eqn:Ea; [by intros [= <- <-]|].
  by destruct (write_failure e w1).
Qed.

Lemma downcall_or_step ptr n w r w' :
  reentry_trap (calls w) = None -> downcall_or ptr n w = (r, w') -> upcall_step w w'.
Proof.
  intros Ht. unfold downcall_or. destruct (downcall ptr n w) as [a w1] eqn:Ed.
  apply downcall_calls in Ed as [K _]; [|done].
  assert (upcall_step w w1) as S1 by (split; [done | congruence]).
  destruct a as [[packed|t]|]; [by intros [= <- <-] | | by intros [= <- <-]].
  destruct (keep_trap t _ w1) as [m w2] eqn:Ek. intros [= <- <-].
  apply keep_trap_step in Ek as [S2 _]. by eapply upcall_step_trans.
Qed.

Lemma drive_yield_step frame args w r w' : drive_yield frame args w = (r, w') -> upcall_step w w'.
Proof.
  unfold drive_yield, ebind, elift, efail, memory_or.
  destruct (checked_payload_len _) as [n|]; [|intros [= <- <-]; apply upcall_step_refl].
  destruct (write_from_callback _ w) as [[ptr|e] w1] eqn:Ew.
  2:{ intros [= <- <-]. by eapply write_from_callback_step. }
  pose proof (write_from_callback_step _ _ _ _ Ew) as S1.
  apply write_from_callback_ok in Ew as [Ht Ew].
  apply alloc_and_write_calls in Ew as [_ Ht1]; [|done].
  destruct (downcall_or _ n w1) as [[packed|e] w2] eqn:Ed;
    apply downcall_or_step in Ed as S2; try done;
    pose proof (upcall_step_trans _ _ _ S1 S2) as S12; [|by intros [= <- <-]].
  destruct (unpack_guest_buffer packed) as [rp rl].
  destruct (rl =? 0); [by intros [= <- <-]|].
  destruct (memory (guest w2)); cbn [ok_or]; by intros [= <- <-].
Qed.

Lemma yield_to_block_step frame args w r w' :
  yield_to_block frame args w = (r, w') -> upcall_step w w'.
Proof.
  unfold yield_to_block. destruct (drive_yield frame args w) as [b w1] eqn:Ed.
  intros [= <- <-]. by eapply drive_yield_step.
Qed.

Lemma run_handler_step {A} (p : hprog H A) w r w' : run_handler p w = (r, w') -> upcall_step w w'.
Proof.
  revert w. induction p as [reply|frame args k IH|k IH|h k IH]; intros w; cbn [run_handler].
  - intros [= <- <-]. apply upcall_step_refl.
  - destruct (yield_to_block frame args w) as [a w1] eqn:Ey. intros Hr.
    eapply upcall_step_trans; [by eapply yield_to_block_step | by eapply IH].
  - apply IH.
  - intros Hr. eapply upcall_step_trans; [|by eapply IH]. by split.
Qed.
End Facts.
