(* ===== verification/HostCalls.v ===== *)
(** What the host promises about an upcall ([kobako-runtime/src/endpoint]):
    the Calls it leaves, the answer the guest reads, and the trap it ends with;
    and what a compile, a stdin and an answer carry. *)
From S2P Require Import Prelude Text Wire Messages PreambleMsg Transport Runtime Endpoint.

(** ** The first trap a callback raises *)

Section Faults.
Context {G H F : Type} `{!GuestInstance G H F}.
Abbreviation W := (world G H F).

(** The trap writing [bytes] into the guest from [w] raises, if one. *)
Definition write_fault (bytes : list byte) (w : W) : option F :=
  match reentry_trap (calls w), checked_payload_len (len bytes), memory (guest w) with
  | None, Ok n, Some _ =>
    match fst (alloc (as_u32 n) w) with Some (Err t) => Some t | _ => None end
  | _, _, _ => None
  end.

(** The trap one yield raises in the guest: its allocator's or its block's. *)
Definition yield_fault (frame : Z) (args : list byte) (w : W) : option F :=
  let request := Downcall.encode (Downcall.Yield frame args) in
  match write_fault request w with
  | Some t => Some t
  | None =>
    match alloc_and_write request w with
    | (Ok ptr, w1) =>
      match fst (downcall (as_i32 ptr) (len request) w1) with Some (Err t) => Some t | _ => None end
    | (Err _, _) => None
    end
  end.

(** The first trap a handler's yields raise. *)
Fixpoint first_fault {A} (p : hprog H A) (w : W) : option F :=
  match p with
  | HRet _ => None
  | HYield frame args k =>
    match yield_fault frame args w with
    | Some t => Some t
    | None => let '(r, w1) := yield_to_block frame args w in first_fault (k r) w1
    end
  | HGet k => first_fault (k (host w)) w
  | HPut h k => first_fault k (set_host h w)
  end.

(** The world a handler runs in: its Call is open. *)
Definition opened (w : W) : W :=
  set_calls (set_open (as_u32 (open_calls (calls w) + 1)) (calls w)) w.

Context `{!GuestLaws G H F}.

Lemma write_from_callback_fault bytes w r w' :
  reentry_trap (calls w) = None -> write_from_callback bytes w = (r, w') ->
  reentry_trap (calls w') = write_fault bytes w.
Proof.
  intros Ht Hr. unfold write_from_callback in Hr. rewrite Ht in Hr. unfold ecatch in Hr.
  destruct (alloc_and_write bytes w) as [o w1] eqn:Ea.
  pose proof (alloc_and_write_calls _ _ _ _ Ea Ht) as [_ Ht1].
  apply alloc_and_write_inv in Ea as [(e & -> & -> & He)|(m & a & w2 & Hn & Em & Ea & Hi)].
  - replace (write_fault bytes w) with (@None F).
    { destruct He as [[-> _]|(msg & -> & _)]; injection Hr as <- <-; done. }
    unfold write_fault. rewrite Ht. destruct He as [[_ He]|(msg & _ & ->)].
    + destruct (checked_payload_len (len bytes)) eqn:En; [|done].
      apply checked_payload_len_ok in En. lia.
    + by destruct (checked_payload_len (len bytes)).
  - unfold write_fault. rewrite Ht, Em.
    assert (checked_payload_len (len bytes) = Ok (len bytes)) as -> by by apply checked_payload_len_ok.
    rewrite Ea. cbn [fst].
    destruct a as [[ptr|t]|].
    + destruct Hi as [(e & -> & -> & He)|(mem & -> & _ & _ & _ & ->)].
      * destruct e; try (injection Hr as <- <-; done). by destruct (He fault).
      * injection Hr as <- <-. done.
    + destruct Hi as [-> ->]. cbn [write_failure] in Hr.
      destruct (keep_trap t _ w2) as [m2 w3] eqn:Ek. injection Hr as <- <-.
      apply keep_trap_step in Ek as (_ & _ & _ & ->). by rewrite Ht1.
    + destruct Hi as [-> ->]. injection Hr as <- <-. done.
Qed.

Lemma drive_yield_fault frame args w r w' :
  reentry_trap (calls w) = None -> drive_yield frame args w = (r, w') ->
  reentry_trap (calls w') = yield_fault frame args w.
Proof.
  intros Ht. unfold drive_yield, yield_fault, ebind, elift, efail, memory_or.
  set (request := Downcall.encode (Downcall.Yield frame args)).
  destruct (checked_payload_len (len request)) as [n|] eqn:En.
  2:{ intros [= <- <-]. rewrite Ht. unfold write_fault. rewrite Ht, En.
      destruct (alloc_and_write request w) as [o w1] eqn:Ea.
      apply alloc_and_write_inv in Ea as [(e' & -> & _)|(? & ? & ? & Hn & _)]; [done|].
      assert (checked_payload_len (len request) = Ok (len request)) by by apply checked_payload_len_ok.
      congruence. }
  apply checked_payload_len_ok in En as [-> Hn].
  destruct (write_from_callback request w) as [[ptr|e] w1] eqn:Ew;
    pose proof (write_from_callback_fault _ _ _ _ Ht Ew) as Hf; rewrite <- Hf.
  - apply write_from_callback_ok in Ew as [_ Ew]. rewrite Ew.
    apply alloc_and_write_calls in Ew as [_ Ht1]; [|done]. rewrite Ht1.
    unfold downcall_or. destruct (downcall (as_i32 ptr) (len request) w1) as [a w2] eqn:Ed.
    apply downcall_calls in Ed as [_ Ht2]; [|done]. cbn [fst].
    destruct a as [[packed|t]|].
    + destruct (unpack_guest_buffer packed) as [rp rl].
      destruct (rl =? 0); [by intros [= <- <-]|].
      destruct (memory (guest w2)); cbn [ok_or]; by intros [= <- <-].
    + destruct (keep_trap t _ w2) as [m2 w3] eqn:Ek. intros [= <- <-].
      apply keep_trap_step in Ek as (_ & _ & _ & ->). by rewrite Ht2.
    + by intros [= <- <-].
  - intros [= <- <-]. destruct (reentry_trap (calls w1)) as [t|] eqn:Et; [done|].
    destruct (alloc_and_write request w) as [[ptr|e'] w2] eqn:Ea; [|done].
    unfold write_from_callback in Ew. rewrite Ht in Ew. unfold ecatch in Ew.
    by rewrite Ea in Ew.
Qed.

Lemma run_handler_fault {A} (p : hprog H A) w r w' :
  reentry_trap (calls w) = None -> run_handler p w = (r, w') ->
  reentry_trap (calls w') = first_fault p w.
Proof.
  revert w. induction p as [reply|frame args k IH|k IH|h k IH]; intros w Ht; cbn [run_handler first_fault].
  - by intros [= <- <-].
  - destruct (yield_to_block frame args w) as [a w1] eqn:Ey. intros Hr.
    assert (reentry_trap (calls w1) = yield_fault frame args w) as Hf.
    { unfold yield_to_block in Ey. destruct (drive_yield frame args w) as [b w2] eqn:Ed.
      injection Ey as <- <-. by eapply drive_yield_fault. }
    rewrite <- Hf. destruct (reentry_trap (calls w1)) as [t|] eqn:Et.
    + apply run_handler_step in Hr as [_ Hr]. by destruct (Hr t Et) as [-> _].
    + by apply (IH a w1).
  - intros Hr. by apply IH.
  - intros Hr. by apply IH.
Qed.

(** ** A whole upcall *)

Lemma as_u32_restore n : in_u32 n -> as_u32 (as_u32 (n + 1) - 1) = n.
Proof.
  intros Hn. unfold as_u32. rewrite Zminus_mod_idemp_l.
  replace (n + 1 - 1) with n by lia. by apply Z.mod_small.
Qed.

Lemma read_request_pure p n w :
  exists r, read_request p n w = (r, w).
Proof.
  unfold read_request, ebind, memory_or, elift.
  destruct (memory (guest w)); cbn [ok_or]; eauto.
Qed.

(** [handler.dispatch] within its open Call. *)
Lemma answer_call_eq h c w :
  answer_call h c w
  = let '(reply, w1) := run_handler (dispatch h c (open_calls (calls w))) (opened w) in
    (ok_or reply
       (lit "a Sandbox callback raised an exception instead of returning a fault — please report this as a kobako bug"),
     set_calls (set_open (as_u32 (open_calls (calls w1) - 1)) (calls w1)) w1).
Proof. done. Qed.

Lemma answer_call_calls h c w r w' :
  reentry_trap (calls w) = None ->
  answer_call h c w = (r, w') ->
  calls_kept w w'
  /\ reentry_trap (calls w') = first_fault (dispatch h c (open_calls (calls w))) (opened w).
Proof.
  intros Ht. rewrite answer_call_eq.
  destruct (run_handler _ (opened w)) as [o w1] eqn:Er. intros [= <- <-].
  pose proof (run_handler_fault _ (opened w) _ _ Ht Er) as Hf.
  apply run_handler_step in Er as [[K1 K2] _]. split; [|done].
  split; [done|]. intros Ho. cbn [calls set_calls set_open open_calls]. rewrite K2.
  - cbn [opened calls set_calls set_open open_calls]. by apply as_u32_restore.
  - apply as_u32_range.
Qed.

(** What answering the request leaves, and the trap kept meanwhile. *)
Definition reply_fault (p n : Z) (w : W) : option F :=
  match fst (read_request p n w) with
  | Ok bytes =>
    match Upcall.decode bytes, on_dispatch (calls w) with
    | Ok (Upcall.Call call), Some h => first_fault (dispatch h call (open_calls (calls w))) (opened w)
    | _, _ => None
    end
  | Err _ => None
  end.

Lemma reply_to_calls p n w r w' :
  reentry_trap (calls w) = None ->
  reply_to p n w = (r, w') ->
  calls_kept w w' /\ reentry_trap (calls w') = reply_fault p n w.
Proof.
  intros Ht. unfold reply_to, reply_fault, ebind, eget, elift, eret, efail.
  destruct (read_request_pure p n w) as [[bytes|e] ->]; cbn [fst]; [|by intros [= <- <-]].
  destruct (Upcall.decode bytes) as [[call|tag body]|e]; [|by intros [= <- <-]..].
  destruct (on_dispatch (calls w)) as [h|] eqn:Eh; cbn [ok_or]; [|by intros [= <- <-]].
  intros Hr. by apply (answer_call_calls _ _ _ _ _ Ht) in Hr.
Qed.

Lemma write_reply_inv bytes w r w' :
  write_reply bytes w = (r, w') ->
  exists o, write_from_callback bytes w = (o, w')
    /\ r = let? ptr := o in Ok (as_i64 (Abi.pack_ptr_len ptr (as_u32 (len bytes)))).
Proof.
  unfold write_reply, ebind, eret. destruct (write_from_callback bytes w) as [[ptr|e] w1];
    intros [= <- <-]; eauto.
Qed.

(** [handle], with its two steps named. *)
Lemma handle_inv p n w r w' :
  handle p n w = (r, w') ->
  exists o w1 written w2,
    reply_to p n w = (o, w1)
    /\ write_reply (Reply.encode (fit_in_message (replied o))) w1 = (written, w2)
    /\ match reentry_trap (calls w2) with
       | Some t => r = Err (EndFault t) /\ w' = set_calls (set_reentry None (calls w2)) w2
       | None =>
         w' = w2
         /\ r = if calls_abandoned w2 then Err EndAbandoned else map_err EndUnwritable written
       end.
Proof.
  unfold handle. destruct (reply_to p n w) as [o w1] eqn:E1.
  destruct (write_reply _ w1) as [written w2] eqn:E2. intros Hr.
  exists o, w1, written, w2. do 2 (split; [done|]).
  destruct (reentry_trap (calls w2)) as [t|]; [by injection Hr as <- <-|].
  destruct (calls_abandoned w2); by injection Hr as <- <-.
Qed.

Lemma handle_calls p n w r w' :
  reentry_trap (calls w) = None ->
  handle p n w = (r, w') -> calls_kept w w' /\ reentry_trap (calls w') = None.
Proof.
  intros Ht Hr. apply handle_inv in Hr as (o & w1 & written & w2 & H1 & H2 & Hr).
  apply reply_to_calls in H1 as [K1 _]; [|done..].
  apply write_reply_inv in H2 as (o2 & H2 & _). apply write_from_callback_step in H2 as [K2 _].
  pose proof (calls_kept_trans _ _ _ K1 K2) as K.
  destruct (reentry_trap (calls w2)) as [t|] eqn:E.
  - destruct Hr as [_ ->]. by split.
  - destruct Hr as [-> _]. by split.
Qed.
End Faults.

(** ** Replies that fit *)

(** A Rust [String] is UTF-8. *)
Definition utf8_reply (m : Reply.t) : Prop :=
  match m with
  | Reply.Ok _ | Reply.Break => True
  | Reply.Fault f => utf8_valid (Fault.message f) = true
  | Reply.Unsupported u => utf8_valid (Unsupported.message u) = true
  end.

Lemma fit_in_message_cases reply :
  (fit_in_message reply = reply /\ len (Reply.encode reply) <= Abi.MAX_DISPATCH_PAYLOAD)
  \/ fit_in_message reply
     = Reply.Fault (Fault.Mk FaultKind.Runtime
         (lit "Sandbox could not write the Service's answer: payload exceeds the 16 MiB limit")).
Proof.
  unfold fit_in_message. destruct (checked_payload_len _) as [m|e] eqn:E.
  - left. by apply checked_payload_len_ok in E as [_ ?].
  - right. unfold checked_payload_len in E. do 3 f_equal.
    repeat case_match; try done; by injection E as <-.
Qed.

Lemma fit_in_message_bound reply :
  len (Reply.encode (fit_in_message reply)) <= Abi.MAX_DISPATCH_PAYLOAD.
Proof. destruct (fit_in_message_cases reply) as [[-> ?]| ->]; [done | by vm_compute]. Qed.

Lemma fit_in_message_utf8 reply : utf8_reply reply -> utf8_reply (fit_in_message reply).
Proof. destruct (fit_in_message_cases reply) as [[-> ?]| ->]; [done | by vm_compute]. Qed.

(** A reply a message carries reads back. *)
Lemma reply_reads_back reply :
  utf8_reply reply -> len (Reply.encode reply) <= Abi.MAX_DISPATCH_PAYLOAD ->
  Reply.decode (Reply.encode reply) = Ok reply.
Proof.
  intros Hu Hl. unfold Abi.MAX_DISPATCH_PAYLOAD in Hl.
  apply reply_decode_iff; [unfold fits, USIZE_MAX; lia|]. apply reply_encode_bytes.
  destruct reply as [body|[k msg]| |[msg]]; try done; cbn [utf8_reply Fault.message
    Unsupported.message ok_reply] in *; unfold ok_fault, ok_unsupported, ok_text;
    (split; [done|]); cbn [Fault.message Unsupported.message].
  - cbn [Reply.encode] in Hl. revert Hl. wire_layout. cbn [Fault.message].
    rewrite !len_app, enc_bytes_len, !enc_u8_len. pose proof (len_nonneg msg).
    unfold in_u32. lia.
  - cbn [Reply.encode] in Hl. rewrite unsupported_encode_layout in Hl.
    cbn [Unsupported.message] in Hl.
    rewrite !len_app, enc_bytes_len, !enc_u8_len in Hl. pose proof (len_nonneg msg).
    unfold in_u32. lia.
Qed.

Lemma as_u64_i64 n : in_u64 n -> as_u64 (as_i64 n) = n.
Proof.
  unfold in_u64, as_u64, as_i64, as_signed. intros Hn. change (64 - 1) with 63.
  rewrite Zminus_mod_idemp_l. replace (n + 2 ^ 63 - 2 ^ 63) with n by lia. by apply Z.mod_small.
Qed.
