(* ===== verification/NestedGuest.v ===== *)
(** A guest whose code upcalls back into the endpoint, nested as deep as its
    fuel: it meets the laws the endpoint relies on, through [handle] itself, so
    a host and a guest calling each other satisfy the endpoint's theorems. *)
From S2P Require Import Prelude Text Wire Messages PreambleMsg Transport Runtime Endpoint HostCalls.

(** What a guest's code does with a request: answer, trap, or upcall first. *)
Inductive gprog :=
| GAnswer (bytes : list byte)
| GTrap (reason : list byte)
| GUpcall (request : list byte) (k : list byte -> gprog).

(** Its memory, a bump allocator that answers 0 once the memory is spent, and
    its code. *)
Record wasm := Wasm {
  mem : list byte;
  brk : Z;
  code : list byte -> gprog;
}.

Section Nested.
Context {H : Type}.
Abbreviation W := (world wasm H (list byte)).

Definition wasm_memory (g : wasm) : option (list byte) :=
  if len (mem g) <=? USIZE_MAX then Some (mem g) else None.
Definition wasm_store (m : list byte) (g : wasm) : wasm := Wasm m (brk g) (code g).

Definition wasm_alloc (n : Z) (w : W) : option (result (list byte) Z) * W :=
  let g := guest w in
  if (0 <? brk g) && (brk g + n <=? len (mem g)) && (brk g + n <? 2 ^ 32)
     && (0 <=? n)
  then (Some (Ok (brk g)), set_guest (Wasm (mem g) (brk g + n) (code g)) w)
  else (Some (Ok 0), w).

(** Lay [bytes] down in fresh memory, or trap. *)
Definition place (bytes : list byte) (w : W) : option Z * W :=
  let '(r, w) := wasm_alloc (len bytes) w in
  match r with
  | Some (Ok ptr) =>
    if ptr =? 0 then (None, w)
    else (Some ptr, set_guest (wasm_store (copy_at (mem (guest w)) ptr bytes) (guest w)) w)
  | _ => (None, w)
  end.

Definition peek (ptr n : Z) (w : W) : list byte :=
  take (Z.to_nat n) (drop (Z.to_nat ptr) (mem (guest w))).

(** Run guest code whose upcalls [upcall] answers. *)
Fixpoint run_guest (upcall : Z -> Z -> eff W (UpcallEnd (F := list byte)) Z) (p : gprog) (w : W)
  : option (result (list byte) Z) * W :=
  match p with
  | GTrap reason => (Some (Err reason), w)
  | GAnswer bytes =>
    match place bytes w with
    | (Some ptr, w) => (Some (Ok (Abi.pack_ptr_len ptr (as_u32 (len bytes)))), w)
    | (None, w) => (Some (Err (lit "out of memory")), w)
    end
  | GUpcall request k =>
    match place request w with
    | (None, w) => (Some (Err (lit "out of memory")), w)
    | (Some ptr, w) =>
      match upcall (as_i32 ptr) (as_i32 (len request)) w with
      | (Ok packed, w) =>
        let '(rp, rl) := Abi.unpack_ptr_len (as_u64 packed) in
        run_guest upcall (k (peek rp rl w)) w
      | (Err (EndFault t), w) => (Some (Err t), w)
      | (Err EndAbandoned, w) => (Some (Err ABANDONED), w)
      | (Err (EndUnwritable reason), w) => (Some (Err reason), w)
      end
    end
  end.

(** The instance whose downcalls nest at most [fuel] deep. *)
Fixpoint nested (fuel : nat) : GuestInstance wasm H (list byte) := {|
  memory := wasm_memory;
  store := wasm_store;
  alloc := wasm_alloc;
  downcall ptr n w :=
    match fuel with
    | O => (Some (Err (lit "call stack exhausted")), w)
    | S fuel' =>
      run_guest (handle (GuestInstance0 := nested fuel'))
        (code (guest w) (peek (as_u32 ptr) (as_u32 n) w)) w
    end;
  cap_trap _ := None;
  fault_to_string t := t;
|}.

Lemma wasm_alloc_inv n w r w' :
  wasm_alloc n w = (r, w') -> calls w' = calls w /\ exists ptr, r = Some (Ok ptr) /\ in_u32 ptr.
Proof.
  unfold wasm_alloc. destruct (_ && _) eqn:E; intros [= <- <-]; (split; [done|]).
  - apply andb_true_iff in E as [E E4%Z.leb_le]. apply andb_true_iff in E as [E E3%Z.ltb_lt].
    apply andb_true_iff in E as [E1%Z.ltb_lt _]. eexists. split; [done|]. unfold in_u32. lia.
  - by exists 0.
Qed.

Lemma place_calls bytes w o w' : place bytes w = (o, w') -> calls w' = calls w.
Proof.
  unfold place. destruct (wasm_alloc (len bytes) w) as [r w1] eqn:E.
  apply wasm_alloc_inv in E as [<- (ptr & -> & _)].
  destruct (ptr =? 0); by intros [= <- <-].
Qed.

(** Guest code keeps the Calls wherever its upcalls do. *)
Lemma run_guest_calls upcall p w r w' :
  (forall a b w r w', reentry_trap (calls w) = None -> upcall a b w = (r, w') ->
     calls_kept w w' /\ reentry_trap (calls w') = None) ->
  reentry_trap (calls w) = None -> run_guest upcall p w = (r, w') ->
  calls_kept w w' /\ reentry_trap (calls w') = None.
Proof.
  intros Hup. revert w. induction p as [bytes|reason|request k IH]; intros w Ht; cbn [run_guest].
  - destruct (place bytes w) as [[ptr|] w1] eqn:E; apply place_calls in E;
      intros [= <- <-]; unfold calls_kept; by rewrite E.
  - by intros [= <- <-].
  - destruct (place request w) as [[ptr|] w1] eqn:E; apply place_calls in E.
    2:{ intros [= <- <-]. unfold calls_kept; by rewrite E. }
    assert (calls_kept w w1) as K1 by (unfold calls_kept; by rewrite E).
    destruct (upcall _ _ w1) as [[packed|e] w2] eqn:Eu;
      apply Hup in Eu as [K2 T2]; try (by rewrite E).
    + destruct (Abi.unpack_ptr_len _) as [rp rl]. intros Hr.
      apply IH in Hr as [K3 T3]; [|done]. split; [|done].
      eapply calls_kept_trans; [exact K1|]. by eapply calls_kept_trans.
    + pose proof (calls_kept_trans _ _ _ K1 K2).
      destruct e; intros [= <- <-]; done.
Qed.

#[export] Instance nested_laws fuel : GuestLaws wasm H (list byte) (GuestInstance0 := nested fuel).
Proof.
  induction fuel as [|fuel IH]; split.
  1-5, 7-9: cbn [nested memory store alloc downcall].
  - unfold wasm_memory. intros m m' g E El. cbn [wasm_store mem]. rewrite El.
    destruct (Z.leb_spec (len (mem g)) USIZE_MAX); [|done]. injection E as <-.
    destruct (Z.leb_spec (len (mem g)) USIZE_MAX); [done | lia].
  - unfold wasm_memory. intros m g. destruct (Z.leb_spec (len (mem g)) USIZE_MAX); [|done].
    by intros [= <-].
  - intros n w ptr w' E. apply wasm_alloc_inv in E as (_ & ? & [= <-] & ?). done.
  - intros n w r w' E Ht. apply wasm_alloc_inv in E as (E & _). unfold calls_kept. by rewrite E.
  - intros ptr n w r w' [= <- <-] Ht. done.
  - unfold wasm_memory. intros m g. destruct (Z.leb_spec (len (mem g)) USIZE_MAX); [|done].
    by intros [= <-].
  - intros n w ptr w' E. apply wasm_alloc_inv in E as (_ & ? & [= <-] & ?). done.
  - intros n w r w' E Ht. apply wasm_alloc_inv in E as (E & _). unfold calls_kept. by rewrite E.
  - unfold wasm_memory. intros m m' g E El. cbn [nested memory store]. unfold wasm_memory in *.
    cbn [nested memory] in E. unfold wasm_memory in E. cbn [wasm_store mem]. rewrite El.
    destruct (Z.leb_spec (len (mem g)) USIZE_MAX); [|done]. injection E as <-.
    destruct (Z.leb_spec (len (mem g)) USIZE_MAX); [done | lia].
  - cbn [nested downcall]. intros ptr n w r w' E Ht.
    eapply run_guest_calls; [|exact Ht|exact E].
    intros a b v r' v' Hv Eh. by eapply (@handle_calls _ _ _ (nested fuel) IH).
Qed.
End Nested.
