(* ===== verification/HostPromises.v ===== *)
(** The endpoint's and the runtime tier's properties ([kobako-runtime]). *)
From S2P Require Import Prelude Text Wire Messages PreambleMsg Transport Runtime Endpoint HostCalls NestedGuest.

(** ** What the answers' texts are *)

Lemma reply_to_reason `{GuestInstance G H F} p n (w : world G H F) e w' :
  reply_to p n w = (Err e, w') -> utf8_valid e = true.
Proof.
  unfold reply_to, ebind, eget, elift, eret, efail.
  destruct (read_request p n w) as [[bytes|e1] w1] eqn:Er.
  - destruct (Upcall.decode bytes) as [[call|tag body]|e1]; [|done|by intros [= <- <-]].
    destruct (on_dispatch (calls w1)) as [h|]; cbn [ok_or]; [|by intros [= <- <-]].
    unfold answer_call. destruct (run_handler _ _) as [[reply|] w2]; cbn [ok_or];
      by intros [= <- <-].
  - intros [= <- <-]. unfold read_request, ebind, elift, memory_or in Er.
    destruct (memory (guest w)) as [m|]; cbn [ok_or] in Er; [|by injection Er as <- <-].
    destruct (read_buffer m _ _) as [b|e]; cbn [map_err] in Er; [done|].
    injection Er as <- <-. by destruct e.
Qed.

Lemma replied_utf8 `{GuestInstance G H F} p n (w : world G H F) :
  (forall reply, fst (reply_to p n w) = Ok reply -> utf8_reply reply) ->
  utf8_reply (replied (fst (reply_to p n w))).
Proof.
  intros Hok. destruct (reply_to p n w) as [[reply|e] w'] eqn:E; cbn [fst replied] in *.
  - by apply Hok.
  - by apply reply_to_reason in E.
Qed.

(** The guest a Call's handler leaves. *)
Lemma reply_to_world `{GuestInstance G H F} p n (w : world G H F) bytes call h o w1 :
  fst (read_request p n w) = Ok bytes -> Upcall.decode bytes = Ok (Upcall.Call call) ->
  on_dispatch (calls w) = Some h -> reply_to p n w = (o, w1) ->
  guest w1 = guest (snd (run_handler (dispatch h call (open_calls (calls w))) (opened w))).
Proof.
  intros Hb Hd Hh. unfold reply_to, ebind, eget, elift.
  destruct (read_request_pure p n w) as [rb Erb]. rewrite Erb in *. cbn [fst] in Hb. subst rb.
  rewrite Hd, Hh. cbn [ok_or]. rewrite answer_call_eq.
  destruct (run_handler _ (opened w)) as [reply v]. by intros [= _ <-].
Qed.

(** ** Helpers of the properties below *)

Lemma as_i32_small n : 0 <= n < 2 ^ 31 -> as_i32 n = n.
Proof.
  intros Hn. unfold as_i32, as_signed. change (32 - 1) with 31. rewrite Z.mod_small; lia.
Qed.

Lemma as_u32_i32 n : in_u32 n -> as_u32 (as_i32 n) = n.
Proof.
  unfold in_u32, as_u32, as_i32, as_signed. intros Hn. change (32 - 1) with 31.
  rewrite Zminus_mod_idemp_l. replace (n + 2 ^ 31 - 2 ^ 31) with n by lia. by apply Z.mod_small.
Qed.

Lemma replay_sources preamble bytecodes :
  len bytecodes = source_count preamble ->
  source_count (replay preamble bytecodes) = 0
  /\ len (Preamble.snippets (replay preamble bytecodes)) = len (Preamble.snippets preamble).
Proof.
  unfold source_count, replay. cbn [Preamble.snippets]. generalize (Preamble.snippets preamble).
  intros entries. revert bytecodes.
  induction entries as [|[name body|body] entries IH]; intros bytecodes Hl.
  - by destruct bytecodes.
  - rewrite filter_cons_True, len_cons in Hl by done.
    destruct bytecodes as [|bc bytecodes].
    { rewrite len_nil in Hl. pose proof (len_nonneg (filter (fun s => Snippet.is_source s = true) entries)). lia. }
    cbn [replay_entries Snippet.is_source]. rewrite len_cons in Hl.
    destruct (IH bytecodes) as [H1 H2]; [lia|].
    rewrite filter_cons_False by done. rewrite !len_cons. split; [done | lia].
  - rewrite filter_cons_False in Hl by done.
    destruct (IH bytecodes Hl) as [H1 H2].
    destruct bytecodes as [|bc bytecodes].
    + cbn [replay_entries]. rewrite filter_cons_False by done. split; [|done].
      by rewrite <- Hl.
    + cbn [replay_entries Snippet.is_source]. rewrite filter_cons_False by done.
      rewrite !len_cons. split; [done | lia].
Qed.

(** The buffer an upcall answers with, and what it reads as. *)
Lemma handle_answer `{GuestLaws G H F} p n (w : world G H F) packed w' :
  (forall reply, fst (reply_to p n w) = Ok reply -> utf8_reply reply) ->
  handle p n w = (Ok packed, w') ->
  let '(ptr, n') := Abi.unpack_ptr_len (as_u64 packed) in
  exists m bytes, memory (guest w') = Some m
    /\ read_buffer m ptr n' = Ok bytes
    /\ Reply.decode bytes = Ok (fit_in_message (replied (fst (reply_to p n w))))
    /\ n' <= Abi.MAX_DISPATCH_PAYLOAD.
Proof.
  intros Hu Hr. apply replied_utf8, fit_in_message_utf8 in Hu.
  apply handle_inv in Hr as (o & w1 & written & w2 & H1 & H2 & Hr).
  rewrite H1 in *. cbn [fst] in *. set (reply := fit_in_message (replied o)) in *.
  assert (len (Reply.encode reply) <= Abi.MAX_DISPATCH_PAYLOAD) as Hn
    by apply fit_in_message_bound.
  destruct (reentry_trap (calls w2)); [by destruct Hr|]. destruct Hr as [-> Hr].
  destruct (calls_abandoned w2); [done|].
  apply write_reply_inv in H2 as (o2 & H2 & ->). destruct o2 as [ptr|e]; [|done].
  cbn [rbind map_err] in Hr. injection Hr as ->.
  apply write_from_callback_ok in H2 as [_ H2]. apply alloc_and_write_inv in H2
    as [(? & ? & _)|(m & a & w3 & _ & Hm & Ha & Hi)]; [done|].
  destruct a as [[ptr'|t]|]; [|by destruct Hi..].
  destruct Hi as [(? & ? & _)|(mem & [= <-] & Hp & Hmem & Hin & ->)]; [done|].
  apply alloc_u32 in Ha. pose proof (len_nonneg (Reply.encode reply)).
  assert (in_u32 (len (Reply.encode reply))) as Hl
    by (unfold in_u32, Abi.MAX_DISPATCH_PAYLOAD in *; lia).
  rewrite as_u32_id by done. rewrite as_u64_i64 by by apply Abi.pack_range.
  rewrite Abi.unpack_pack by done. unfold in_u32 in Ha.
  exists (copy_at mem ptr (Reply.encode reply)), (Reply.encode reply).
  split; [apply (memory_store mem); [done | apply len_copy_at; lia]|].
  split; [apply read_copy_at; [lia..|by eapply memory_usize]|].
  split; [by apply reply_reads_back | done].
Qed.

(** ** Upcalls *)

(** C11: an upcall leaves the Calls as it found them, whatever the guest and
    the handler call meanwhile: the same handler bound, as many Calls open, and
    no trap kept behind.  This is what the endpoint relies on of the guest's
    own code ([GuestLaws]), so frames nest to any depth. *)
Theorem upcall_keeps_calls `{GuestLaws G H F} p n (w : world G H F) r w' :
  reentry_trap (calls w) = None -> handle p n w = (r, w') ->
  on_dispatch (calls w') = on_dispatch (calls w)
  /\ (in_u32 (open_calls (calls w)) -> open_calls (calls w') = open_calls (calls w))
  /\ reentry_trap (calls w') = None.
Proof. intros Ht Hr. apply handle_calls in Hr as [[? ?] ?]; done. Qed.

(** A guest of 96 bytes whose block answers what it was yielded, and a handler
    that yields once and replies with what the block answered. *)
Definition sample_call : list byte :=
  Upcall.encode (Upcall.Call (Call.Mk (Call.Path (lit "Kv")) (lit "get") true [x01])).

Definition sample_block (request : list byte) : gprog :=
  match Downcall.decode request with
  | Ok (Downcall.Yield frame args) => GAnswer (YieldReply.encode (YieldReply.Ok args))
  | _ => GTrap (lit "unexpected")
  end.

Definition sample_dispatch (call : Call.t) (frame : Z) : hprog nat (option Reply.t) :=
  HYield frame (Call.payload call) (fun r =>
    match r with
    | Ok (YieldReply.Ok body) => HPut 1%nat (HRet (Some (Reply.Ok body)))
    | _ => HRet None
    end).

Definition sample_world (block : list byte -> gprog) : world wasm nat (list byte) :=
  World (Wasm (sample_call ++ repeat x00 (96 - length sample_call)) 24 block)
    (MkCalls (Some (Handler sample_dispatch (fun _ => false))) 3 None) 0%nat.

Lemma upcall_keeps_calls_witness :
  open_calls (calls (snd (handle (GuestInstance0 := nested 1) 0 (len sample_call)
    (sample_world sample_block)))) = 3.
Proof.
  assert (in_u32 3) as Hu by (unfold in_u32; lia).
  exact (proj1 (proj2 (upcall_keeps_calls (GuestInstance0 := nested 1) 0 (len sample_call)
    (sample_world sample_block) _ _ eq_refl (surjective_pairing _))) Hu).
Defined.

(** C12: the first trap a callback into the guest raises ends the invocation as
    that trap, whatever the handler answers after it, and once one is kept the
    guest is not called again; an upcall whose yields raise none ends with a
    trap only where writing its own answer raised it. *)
Theorem upcall_first_trap `{GuestLaws G H F} p n (w : world G H F) bytes call h :
  reentry_trap (calls w) = None ->
  fst (read_request p n w) = Ok bytes -> Upcall.decode bytes = Ok (Upcall.Call call) ->
  on_dispatch (calls w) = Some h ->
  let program := dispatch h call (open_calls (calls w)) in
  (forall t, first_fault program (opened w) = Some t ->
     exists w', handle p n w = (Err (EndFault t), w')
       /\ guest w' = guest (snd (run_handler program (opened w))))
  /\ (first_fault program (opened w) = None ->
     forall t, fst (handle p n w) = Err (EndFault t) ->
       write_fault (Reply.encode (fit_in_message (replied (fst (reply_to p n w)))))
         (snd (reply_to p n w)) = Some t)
  /\ forall A (q : hprog H A) (v : world G H F) t, reentry_trap (calls v) = Some t ->
       guest (snd (run_handler q v)) = guest v.
Proof.
  intros Ht Hb Hd Hh program.
  destruct (handle p n w) as [r w'] eqn:Eh. pose proof Eh as Hi.
  apply handle_inv in Hi as (o & w1 & written & w2 & H1 & H2 & Hr).
  pose proof (reply_to_calls _ _ _ _ _ Ht H1) as [_ Hf].
  unfold reply_fault in Hf. rewrite Hb, Hd, Hh in Hf. fold program in Hf.
  apply write_reply_inv in H2 as (o2 & H2 & ->). rewrite H1. cbn [fst snd].
  rewrite <- Hf. split; [|split].
  - intros t E1. apply write_from_callback_step in H2 as [_ H2]. destruct (H2 t E1) as [E2 Hg].
    rewrite E2 in Hr. destruct Hr as [-> ->]. eexists. split; [done|].
    cbn [guest set_calls]. rewrite Hg. by rewrite (reply_to_world _ _ _ _ _ _ _ _ Hb Hd Hh H1).
  - intros E1. apply (write_from_callback_fault _ _ _ _ E1) in H2 as <-.
    intros t ->. destruct (reentry_trap (calls w2)) as [t'|]; [by destruct Hr as [[= ->] _]|].
    destruct Hr as [_ Hr]. destruct (calls_abandoned w2); [done|].
    by destruct o2.
  - intros A q v t Hv. destruct (run_handler q v) as [reply v'] eqn:E.
    apply run_handler_step in E as [_ Hs]. by destruct (Hs t Hv).
Qed.

Lemma upcall_first_trap_witness :
  fst (handle (GuestInstance0 := nested 1) 0 (len sample_call)
    (sample_world (fun _ => GTrap (lit "boom")))) = Err (EndFault (lit "boom")).
Proof.
  destruct (upcall_first_trap (GuestInstance0 := nested 1) 0 (len sample_call)
    (sample_world (fun _ => GTrap (lit "boom"))) sample_call
    (Call.Mk (Call.Path (lit "Kv")) (lit "get") true [x01]) (Handler sample_dispatch (fun _ => false))
    eq_refl ltac:(vm_compute; reflexivity) ltac:(vm_compute; reflexivity) eq_refl) as (Hw & _).
  destruct (Hw (lit "boom")) as (w' & Hh & _); [vm_compute; reflexivity|].
  exact (f_equal fst Hh).
Defined.

(** C13: where an upcall answers, the packed address names a buffer of at most
    16 MiB in the guest's memory from which the guest reads exactly the reply:
    the handler's own, or the fault naming why the host has none, and a fault
    of the Service's where the reply is past the cap. *)
Theorem upcall_answer `{GuestLaws G H F} p n (w : world G H F) packed w' :
  (forall reply, fst (reply_to p n w) = Ok reply -> utf8_reply reply) ->
  handle p n w = (Ok packed, w') ->
  let '(ptr, n') := Abi.unpack_ptr_len (as_u64 packed) in
  exists m bytes, memory (guest w') = Some m
    /\ read_buffer m ptr n' = Ok bytes
    /\ Reply.decode bytes = Ok (fit_in_message (replied (fst (reply_to p n w))))
    /\ n' <= Abi.MAX_DISPATCH_PAYLOAD.
Proof. apply handle_answer. Qed.

Lemma upcall_answer_witness :
  exists m bytes,
    memory (GuestInstance := nested 1 (H := nat)) (guest (snd (handle (GuestInstance0 := nested 1) 0 (len sample_call)
      (sample_world sample_block)))) = Some m
    /\ read_buffer m 32 2 = Ok bytes /\ Reply.decode bytes = Ok (Reply.Ok [x01]).
Proof.
  destruct (handle (GuestInstance0 := nested 1) 0 (len sample_call) (sample_world sample_block))
    as [r w'] eqn:E.
  pose proof (upcall_answer (GuestInstance0 := nested 1) 0 (len sample_call)
    (sample_world sample_block) (as_i64 (Abi.pack_ptr_len 32 2)) w') as Hw.
  assert (r = Ok (as_i64 (Abi.pack_ptr_len 32 2))) as Er.
  { change r with (fst (r, w')). rewrite <- E. vm_compute. reflexivity. }
  rewrite Er in E. specialize (Hw ltac:(intros reply Hreply; vm_compute in Hreply;
    injection Hreply as <-; exact I) E).
  destruct Hw as (m & bytes & Hm & Hb & Hd & _). exists m, bytes.
  split; [exact Hm|]. split; [exact Hb|]. rewrite Hd. vm_compute. reflexivity.
Defined.

(** ** Requests and answers *)

(** A request is written where the guest's allocator said, whole, with
    every other byte of its memory untouched; an allocator with nothing to give
    leaves the runtime intact, and one a cap stops ends with that cap's trap. *)
Theorem write_request_exact `{GuestLaws G H F} envelope (w : world G H F) a w1 :
  alloc (as_u32 (len envelope)) w = (a, w1) ->
  len envelope <= Abi.MAX_DISPATCH_PAYLOAD -> (exists m, memory (guest w) = Some m) ->
  match a with
  | Some (Ok 0) =>
    write_request envelope w
    = (Err (InvokeError.Setup
         (SetupError.Intact (lit "could not allocate input buffer (out of memory)"))), w1)
  | Some (Ok ptr) =>
    forall at_ n w', write_request envelope w = (Ok (at_, n), w') ->
      as_u32 at_ = ptr /\ n = len envelope
      /\ exists m m', memory (guest w1) = Some m /\ memory (guest w') = Some m'
           /\ read_buffer m' ptr n = Ok envelope
           /\ len m' = len m
           /\ forall i, 0 <= i -> i < ptr \/ ptr + n <= i -> m' !! Z.to_nat i = m !! Z.to_nat i
  | Some (Err fault) =>
    exists t, write_request envelope w = (Err (InvokeError.Trap t), w1)
      /\ forall cap, cap_trap fault = Some cap -> t = cap
  | None =>
    write_request envelope w = (Err (InvokeError.Trap (Trap.Other RUNTIME_INCOMPATIBLE)), w1)
  end.
Proof.
  intros Ha Hn [m0 Hm0]. unfold write_request, ebind, ecatch, eret.
  destruct (alloc_and_write envelope w) as [r w2] eqn:Ew. pose proof Ew as Hi.
  apply alloc_and_write_inv in Hi as [(e & -> & _ & [[_ ?]|(? & _ & ?)])|(m & a' & w1' & _ & _ & Ha' & Hi)];
    [lia | congruence |].
  rewrite Ha in Ha'. injection Ha' as <- <-.
  destruct a as [[ptr|t]|].
  - assert (ptr = 0 -> r = Err WOutOfMemory /\ w2 = w1) as Hz.
    { intros ->. revert Ew. unfold alloc_and_write, ebind, elift, memory_or, alloc_or, efail.
      assert (checked_payload_len (len envelope) = Ok (len envelope)) as -> by by apply checked_payload_len_ok.
      cbn [map_err]. rewrite Hm0. cbn [ok_or]. rewrite Ha. cbn [ok_or rbind map_err].
      by intros [= <- <-]. }
    destruct (Z.eq_dec ptr 0) as [->|Hp]; [destruct (Hz eq_refl) as [-> ->]; done|].
    enough (forall at_ n w', match r with
        | Ok ptr0 => (Ok (as_i32 ptr0, as_i32 (len envelope)), w2)
        | Err e => (Err (request_write_failure e), w2) end = (Ok (at_, n), w') ->
      as_u32 at_ = ptr /\ n = len envelope
      /\ exists m m', memory (guest w1) = Some m /\ memory (guest w') = Some m'
           /\ read_buffer m' ptr n = Ok envelope /\ len m' = len m
           /\ forall i, 0 <= i -> i < ptr \/ ptr + n <= i -> m' !! Z.to_nat i = m !! Z.to_nat i)
      as Hgoal by (destruct ptr, r; try done; exact Hgoal).
    intros at_ n w' Hr. apply alloc_u32 in Ha.
    destruct Hi as [(e & -> & _)|(mem & -> & _ & Hmem & Hin & ->)]; [done|].
    injection Hr as <- <- <-. pose proof (len_nonneg envelope).
    unfold in_u32 in *.
    assert (len envelope < 2 ^ 31) by (unfold Abi.MAX_DISPATCH_PAYLOAD in *; lia).
    rewrite (as_i32_small (len envelope)) by lia. split; [by apply as_u32_i32|].
    split; [done|]. exists mem, (copy_at mem ptr envelope). split; [done|].
    split; [apply (memory_store mem); [done | apply len_copy_at; lia]|].
    split; [apply read_copy_at; [lia..|by eapply memory_usize]|].
    split; [apply len_copy_at; lia|]. intros i Hi Ho. apply copy_at_other; lia.
  - destruct Hi as [-> ->]. eexists. split; [done|]. intros cap Hc. cbn [request_write_failure]. by rewrite Hc.
  - by destruct Hi as [-> ->].
Qed.

Lemma write_request_exact_witness :
  fst (write_request (GuestInstance0 := nested 0) (repeat x00 100) (sample_world sample_block))
  = Err (InvokeError.Setup
      (SetupError.Intact (lit "could not allocate input buffer (out of memory)"))).
Proof.
  exact (f_equal fst (write_request_exact (GuestInstance0 := nested 0) (repeat x00 100)
    (sample_world sample_block) (Some (Ok 0)) (sample_world sample_block) eq_refl
    ltac:(vm_compute; discriminate) (ex_intro _ _ eq_refl))).
Defined.

(** A compile's answer is replayed exactly when it holds one bytecode per
    source snippet and the Preamble still fits with every source replaced; the
    replay then reaches the guest, with no source left, the bytecodes the
    compile answered in the sources' places and the rest as it was. *)
Theorem compiled_replay preamble reply bytecodes :
  compiled_bytecodes preamble reply = Some bytecodes <->
  reply = CompileReply.Ok bytecodes
  /\ len bytecodes = source_count preamble
  /\ exists content, stdin_content (replay preamble bytecodes) = Ok content
  /\ source_count (replay preamble bytecodes) = 0
  /\ len (Preamble.snippets (replay preamble bytecodes)) = len (Preamble.snippets preamble).
Proof.
  unfold compiled_bytecodes, one_per_source, replay_fits, stdin_content. split.
  - destruct reply as [bcs|e|u]; try done.
    destruct (Z.eqb_spec (len bcs) (source_count preamble)) as [El|]; [|done].
    destruct (checked_payload_len _) as [m|] eqn:Ep; [|done]. intros [= <-].
    do 2 (split; [done|]). rewrite Ep. eexists. split; [done|].
    by apply replay_sources.
  - intros (-> & El & content & Hs & _). rewrite El, Z.eqb_refl.
    by destruct (checked_payload_len _).
Qed.

Lemma compiled_replay_witness :
  compiled_bytecodes preamble_sample (CompileReply.Ok [[x01]]) = Some [[x01]].
Proof.
  apply compiled_replay. split; [reflexivity|]. split; [reflexivity|].
  eexists. split; [reflexivity|]. split; reflexivity.
Defined.

(** ** Caps *)

(** The growth [size] is past the entry's size, and whether the limit takes it. *)
Definition growth (baseline size : Z) : Z := Z.max 0 (size - baseline).
Definition within (limit : option Z) (delta : Z) : bool :=
  match limit with Some l => delta <=? l | None => true end.

(** An armed cap refuses exactly the growths past the limit, counted from
    the entry's own size, and the peak it reports is the largest it took: never
    past the limit, whatever was refused; disarmed, it takes every growth and
    keeps its peak. *)
Theorem memory_cap_exact cap baseline sizes :
  let armed := MemoryCap.activate cap baseline in
  let '(rs, cap') := MemoryCap.charges armed sizes in
  rs = map (fun size =>
         match MemoryCap.memory_limit cap with
         | Some limit =>
           if within (Some limit) (growth baseline size) then Ok tt
           else Err (MemoryCap.Exceeded size limit)
         | None => Ok tt
         end) sizes
  /\ MemoryCap.peak cap'
     = fold_right Z.max 0
         (map (growth baseline)
            (filter (fun s => within (MemoryCap.memory_limit cap) (growth baseline s) = true) sizes))
  /\ (forall limit, MemoryCap.memory_limit cap = Some limit -> 0 <= limit ->
        MemoryCap.peak cap' <= limit)
  /\ forall size, MemoryCap.charge (MemoryCap.deactivate cap') size
                  = (Ok tt, MemoryCap.deactivate cap').
Proof.
  intros armed. subst armed.
  destruct (MemoryCap.charges (MemoryCap.activate cap baseline) sizes) as [rs cap'] eqn:E.
  apply charges_exact in E as (-> & Hp & _); [|done|done]. cbn [MemoryCap.memory_limit
    MemoryCap.baseline MemoryCap.peak MemoryCap.activate] in *.
  split; [done|]. split.
  { rewrite Hp. apply Z.max_r. clear. induction (filter _ sizes); cbn [map fold_right]; lia. }
  split; [|done]. intros limit Hl Hpos. rewrite Hp, Hl. clear Hp Hl. apply Z.max_lub; [done|].
  induction sizes as [|s sizes IH]; [done|].
  rewrite filter_cons. case_decide as Hw; [|done]. cbn [map fold_right]. unfold within in Hw.
  apply Z.leb_le in Hw. lia.
Qed.

(** A channel captures exactly the prefix its limit allows of whatever the
    guest wrote, and says it was truncated exactly when more was written: the
    pipe's one byte past the limit tells the two apart. *)
Theorem capture_exact stream limit :
  match limit with Some l => 0 <= l < USIZE_MAX | None => True end -> len stream <= USIZE_MAX ->
  clip_capture (take (Z.to_nat (pipe_capacity limit)) stream) limit
  = match limit with
    | Some l => (take (Z.to_nat l) stream, l <? len stream)
    | None => (stream, false)
    end.
Proof. apply pipe_clip. Qed.

Lemma capture_exact_witness :
  clip_capture (take (Z.to_nat (pipe_capacity (Some 2))) (lit "abc")) (Some 2) = (lit "ab", true).
Proof. apply (capture_exact (lit "abc") (Some 2)); by vm_compute. Defined.
