(* ===== verification/HostError.v ===== *)
(** The SDK's errors ([kobako/src/error.rs]) and the attribution of an
    invocation's outcome ([kobako/src/execution.rs]). *)
From S2P Require Import Prelude Text Wire Messages Runtime.

Module Failure.
Record t := Mk {
  name : list byte;
  message : list byte;
  backtrace : list (list byte);
  available : list (list byte);
  diagnostic : option (list byte);
}.

Definition host (name message : list byte) : t := Mk name message [] [] None.

Definition to_string (f : t) : list byte := name f ++ lit ": " ++ message f.
End Failure.

Module HostError.
Inductive t :=
| Timeout (message : list byte)
| MemoryLimit (message : list byte)
| Trap (message : list byte)
| Sandbox (failure : Failure.t)
| Bytecode (failure : Failure.t)
| UnsupportedFlag (failure : Failure.t)
| Service (failure : Failure.t)
| Setup (err : SetupError.t)
| Sealed (what : list byte)
| Argument (message : list byte).

Definition to_string (e : t) : list byte :=
  match e with
  | Timeout msg | MemoryLimit msg | Trap msg | Argument msg => msg
  | Sandbox failure | Bytecode failure | UnsupportedFlag failure | Service failure =>
    Failure.to_string failure
  | Setup setup => SetupError.to_string setup
  | Sealed what => lit "Sandbox is sealed; " ++ what
  end.

(** [From<Trap>]. *)
Definition from_trap (trap : Trap.t) : t :=
  match trap with
  | Trap.Timeout msg => Timeout msg
  | Trap.MemoryLimit msg => MemoryLimit msg
  | other => Trap (Trap.to_string other)
  end.

(** [From<InvokeError>]. *)
Definition from_invoke (err : InvokeError.t) : t :=
  match err with
  | InvokeError.Trap trap => from_trap trap
  | InvokeError.Setup setup => Setup setup
  end.
End HostError.

(** [classify_panic]. *)
Definition classify_panic (panic : Panic.t) : HostError.t :=
  let failure :=
    Failure.Mk (ErrorRecord.name (Panic.error panic)) (ErrorRecord.message (Panic.error panic))
      (ErrorRecord.backtrace (Panic.error panic)) (Panic.available panic) None in
  match Panic.origin panic with
  | Origin.Service => HostError.Service failure
  | Origin.Sandbox =>
    if str_eq (Failure.name failure) (lit "Kobako::BytecodeError") then HostError.Bytecode failure
    else if str_eq (Failure.name failure) (lit "Kobako::UnsupportedFlagError")
    then HostError.UnsupportedFlag failure
    else HostError.Sandbox failure
  end.

Definition classify (outcome : Outcome.t) (verb : list byte) : result HostError.t (list byte) :=
  match outcome with
  | Outcome.Ok payload => Ok payload
  | Outcome.Panic panic => Err (classify_panic panic)
  | Outcome.Unsupported _ =>
    Err (HostError.Sandbox
      (Failure.host (lit "Kobako::SandboxError")
         (lit "the Sandbox runtime does not support #" ++ verb
          ++ lit "; rebuild it against the kobako version in use")))
  end.
