(* ===== verification/Receivers.v ===== *)
(** Receivers and what a dispatch lends them ([kobako/src/receiver.rs],
    [handles.rs], [yielder.rs]): the invocation's Handle table, and the block
    of the Call, whose exit the frame remembers.  A receiver is an identity of
    [R]; what its [call] does is a program over the lent Handles and block and
    the receivers' own state [S]. *)
From S2P Require Import Prelude Text Wire Messages Runtime Endpoint.

(** ** The Handle table ([handles.rs]) *)
Module HandleTable.
Section HandleTable.
Context {R : Type}.

Definition MAX_HANDLE_ID : Z := 0x7fffffff.

(** Ids are [1..=entries.len()]. *)
Definition t : Type := list R.
Definition default : t := [].

Definition EXHAUSTED : list byte :=
  lit "Out of handle allocations: too many host objects were referenced in a single invocation (limit "
  ++ display_uint MAX_HANDLE_ID ++ lit ")".

Definition alloc (object : R) (entries : t) : result (list byte) Z * t :=
  if MAX_HANDLE_ID <=? as_u32 (len entries) then (Err EXHAUSTED, entries)
  else let entries := entries ++ [object] in (Ok (as_u32 (len entries)), entries).

Definition get (entries : t) (id : Z) : option R :=
  index ← checked_sub id 1; vec_get entries index.
End HandleTable.
End HandleTable.

(** ** The block ([yielder.rs]) *)
Module YieldError.
Inductive t :=
| Break
| Failure (name message : list byte)
| Aborted (message : list byte)
| Refused (message : list byte)
| Unsupported (message : list byte).

Definition to_string (e : t) : list byte :=
  match e with
  | Break => lit "guest block break crossed the receiver"
  | Failure name message => name ++ lit ": " ++ message
  | Aborted message | Refused message | Unsupported message => message
  end.

(** [From<YieldError> for Fault]. *)
Definition to_fault (e : t) : Fault.t :=
  let kind :=
    match e with
    | Failure _ _ => FaultKind.Block
    | Refused _ => FaultKind.Runtime
    | _ => FaultKind.Internal
    end in
  Fault.Mk kind (to_string e).
End YieldError.

(** ** Receivers ([receiver.rs]) *)

(** Code lent the Handles, and a block where the Call gave one: what it answers
    with, after the yields, allocations and reads and writes of the receivers'
    own state it makes first.  [RBudget] reads the thread's value budget. *)
Inductive rprog (R S : Type) (block : bool) (A : Type) :=
| RRet (a : A)
| RBlock (lent : block = true) (args : list byte)
    (k : result YieldError.t (list byte) -> rprog R S block A)
| RAlloc (object : R) (k : result Fault.t Z -> rprog R S block A)
| RResolve (id : Z) (k : option R -> rprog R S block A)
| RGet (k : S -> rprog R S block A)
| RPut (s : S) (k : rprog R S block A)
| RBudget (k : option Z -> rprog R S block A).
Arguments RRet {R S block A} a.
Arguments RBlock {R S block A} lent args k.
Arguments RAlloc {R S block A} object k.
Arguments RResolve {R S block A} id k.
Arguments RGet {R S block A} k.
Arguments RPut {R S block A} s k.
Arguments RBudget {R S block A} k.

Fixpoint prog_bind {R S block A B} (p : rprog R S block A) (k : A -> rprog R S block B)
  : rprog R S block B :=
  match p with
  | RRet a => k a
  | RBlock lent args q => RBlock lent args (fun r => prog_bind (q r) k)
  | RAlloc object q => RAlloc object (fun r => prog_bind (q r) k)
  | RResolve id q => RResolve id (fun r => prog_bind (q r) k)
  | RGet q => RGet (fun s => prog_bind (q s) k)
  | RPut s q => RPut s (prog_bind q k)
  | RBudget q => RBudget (fun b => prog_bind (q b) k)
  end.

(** [trait Receiver]. *)
Class Receivers (R S : Type) := {
  respond_to_guest : R -> S -> list byte -> bool;
  call : R -> list byte -> list byte -> forall block, rprog R S block (result Fault.t (list byte));
}.

(** ** What an invocation's dispatches share *)

(** The thread an invocation runs on: the receivers' own state and the value
    budget ([msgpack/budget.rs]). *)
Record thread (S : Type) := Thread { own : S; BUDGET : option Z }.
Arguments Thread {S} own BUDGET.
Arguments own {S} t.
Arguments BUDGET {S} t.

(** Its Handle table and the thread it runs on. *)
Record shared (R S : Type) := Shared { table : list R; on : thread S }.
Arguments Shared {R S} table on.
Arguments table {R S} s.
Arguments on {R S} s.

Section Lent.
Context `{CharTables} {R S : Type}.
Abbreviation St := (shared R S).

Definition set_table (t : list R) (h : St) : St := Shared t (on h).
Definition set_own (s : S) (h : St) : St := Shared (table h) (Thread s (BUDGET (on h))).

(** [{:?}] of a [Trap]. *)
Definition debug_trap (trap : Trap.t) : list byte :=
  match trap with
  | Trap.Timeout m => lit "Timeout(" ++ debug_str m ++ lit ")"
  | Trap.MemoryLimit m => lit "MemoryLimit(" ++ debug_str m ++ lit ")"
  | Trap.Other m => lit "Other(" ++ debug_str m ++ lit ")"
  end.

(** What a yield's reply is to the receiver, and the frame's [broken]. *)
Definition yielded (r : result Trap.t YieldReply.t) (broken : bool)
  : result YieldError.t (list byte) * bool :=
  match r with
  | Err trap => (Err (YieldError.Aborted (lit "yield re-entry trapped: " ++ debug_trap trap)), broken)
  | Ok (YieldReply.Ok body) => (Ok body, broken)
  | Ok YieldReply.Break => (Err YieldError.Break, true)
  | Ok (YieldReply.Error record) =>
    (Err (YieldError.Failure (ErrorRecord.name record) (ErrorRecord.message record)), broken)
  | Ok (YieldReply.Unsupported _) =>
    (Err (YieldError.Unsupported (lit "the Sandbox runtime does not support yielding to a block")),
     broken)
  end.

(** [Yielder::call_payload]; [frame] is the raw Yielder's own. *)
Definition call_payload (frame : Z) (broken : bool) (args : list byte)
  : hprog St (result YieldError.t (list byte) * bool) :=
  HYield frame args (fun r => HRet (yielded r broken)).

(** [Handles::alloc] and [Handles::resolve]. *)
Definition handles_alloc (object : R) (h : St) : result Fault.t Z * St :=
  let '(r, entries) := HandleTable.alloc object (table h) in
  (map_err (Fault.Mk FaultKind.Internal) r, set_table entries h).

Definition handles_resolve (id : Z) (h : St) : option R := HandleTable.get (table h) id.

(** A receiver's program in its dispatch: its answer, and whether a block exit
    broke out of it. *)
Fixpoint run_receiver {block A} (p : rprog R S block A) (frame : Z) (broken : bool)
  : hprog St (A * bool) :=
  match p with
  | RRet a => HRet (a, broken)
  | RBlock _ args k =>
    let% (r, broken) := call_payload frame broken args in run_receiver (k r) frame broken
  | RAlloc object k =>
    HGet (fun h => let '(r, h) := handles_alloc object h in
                   HPut h (run_receiver (k r) frame broken))
  | RResolve id k => HGet (fun h => run_receiver (k (handles_resolve id h)) frame broken)
  | RGet k => HGet (fun h => run_receiver (k (own (on h))) frame broken)
  | RPut s k => HGet (fun h => HPut (set_own s h) (run_receiver k frame broken))
  | RBudget k => HGet (fun h => run_receiver (k (BUDGET (on h))) frame broken)
  end.

(** The same program where no dispatch is open, so no block is lent. *)
Fixpoint run_detached {A} (p : rprog R S false A) (h : St) : A * St :=
  match p with
  | RRet a => (a, h)
  | RBlock lent _ _ => match Bool.diff_false_true lent with end
  | RAlloc object k => let '(r, h) := handles_alloc object h in run_detached (k r) h
  | RResolve id k => run_detached (k (handles_resolve id h)) h
  | RGet k => run_detached (k (own (on h))) h
  | RPut s k => run_detached k (set_own s h)
  | RBudget k => run_detached (k (BUDGET (on h))) h
  end.
End Lent.

(** ** Facts *)

Section Facts.
Context {R : Type}.

Definition ok_table (t : list R) : Prop := len t <= HandleTable.MAX_HANDLE_ID.

Lemma alloc_inv (object : R) t r t' :
  ok_table t -> HandleTable.alloc object t = (r, t') ->
  (r = Err HandleTable.EXHAUSTED /\ t' = t /\ len t = HandleTable.MAX_HANDLE_ID)
  \/ (r = Ok (len t') /\ t' = t ++ [object] /\ len t' = len t + 1 /\ ok_table t').
Proof.
  intros Hok. unfold HandleTable.alloc, ok_table, HandleTable.MAX_HANDLE_ID in *.
  pose proof (len_nonneg t). rewrite (as_u32_id (len t)) by (unfold in_u32; lia).
  destruct (Z.leb_spec 0x7fffffff (len t)); intros [= <- <-]; [left; split; [done|]; split; [done|lia]|].
  right. rewrite len_app, len_cons, len_nil, as_u32_id by (unfold in_u32; lia).
  split; [done|]. split; [done|]. split; lia.
Qed.

Lemma get_spec (t : list R) id :
  HandleTable.get t id = if (1 <=? id) && (id <=? len t) then t !! Z.to_nat (id - 1) else None.
Proof.
  unfold HandleTable.get, checked_sub, vec_get. destruct (Z.leb_spec 1 id); [|done]. simpl.
  destruct (Z.leb_spec 0 (id - 1)), (Z.ltb_spec (id - 1) (len t)), (Z.leb_spec id (len t));
    try lia; done.
Qed.

(** A Handle once issued keeps its object as the table grows. *)
Lemma get_app (t u : list R) id object :
  HandleTable.get t id = Some object -> HandleTable.get (t ++ u) id = Some object.
Proof.
  rewrite !get_spec. destruct (Z.leb_spec 1 id); [|done].
  destruct (Z.leb_spec id (len t)); [|done]. simpl.
  destruct (Z.leb_spec id (len (t ++ u))); [|len_lia]. intros Hl. by apply lookup_app_l_Some.
Qed.

Lemma get_last (t : list R) object : HandleTable.get (t ++ [object]) (len t + 1) = Some object.
Proof.
  rewrite get_spec.
  destruct (Z.leb_spec 1 (len t + 1)), (Z.leb_spec (len t + 1) (len (t ++ [object]))); try len_lia.
  simpl. replace (len t + 1 - 1) with (len t) by lia. unfold len. rewrite Nat2Z.id.
  by apply list_lookup_middle.
Qed.

Lemma get_some_id (t : list R) id object :
  HandleTable.get t id = Some object -> 1 <= id <= len t.
Proof.
  rewrite get_spec. destruct (Z.leb_spec 1 id), (Z.leb_spec id (len t)); done.
Qed.
End Facts.
