(* ===== verification/Catalog.v ===== *)
(** The SDK's registration tables: Mounts and Grants
    ([kobako-runtime/src/mount.rs], [grant.rs], [kobako/src/grants.rs]),
    snippets ([snippet.rs]), the Service Catalog ([catalog.rs]) and the
    Extensions composed onto it ([extension.rs]).

    The registration tables' lemmas: paths as lists of segments, so a
    collision is a prefix, and what each registration keeps. *)
From S2P Require Import Prelude Text Wire Messages PreambleMsg Runtime Endpoint HostError Receivers.

(** ** Names *)

Definition MAX_SYMBOL_LEN : Z := 65534.

Definition is_constant_name (name : list byte) : bool :=
  (len name <=? MAX_SYMBOL_LEN)
  && match chars name with
     | c :: cs =>
       is_ascii_uppercase c && forallb (fun c => is_ascii_alphanumeric c || (c =? 95)) cs
     | [] => false
     end.

Definition RESERVED_NAMESPACE : list byte := lit "Kobako".

Definition is_constant_path (path : list byte) : bool :=
  forallb is_constant_name (split_path path).

Definition is_reserved (path : list byte) : bool :=
  match split_path path with
  | segment :: _ => str_eq segment RESERVED_NAMESPACE
  | [] => false
  end.

(** ** Mounts and Grants *)

Inductive Access := Read | ReadWrite.

Definition slash : byte := x2f.

Definition is_guest_path (at_ : list byte) : bool :=
  str_eq at_ (lit "/")
  || match at_ with
     | c :: rest =>
       Byte.eqb c slash
       && forallb (fun part =>
            negb (str_eq part []) && negb (str_eq part (lit "."))
            && negb (str_eq part (lit ".."))) (split_byte slash rest)
     | [] => false
     end.

(** A [Filesystem] and a [Policy] are identities of [Fs] and [Po]. *)
Record Mount (Fs Po : Type) := MkMount {
  at_path : list byte;
  filesystem : Fs;
  read_only : bool;
  policy : option Po;
}.
Arguments MkMount {Fs Po} at_path filesystem read_only policy.
Arguments at_path {Fs Po} m.
Arguments filesystem {Fs Po} m.
Arguments read_only {Fs Po} m.
Arguments policy {Fs Po} m.

Inductive Grant (Fs Po : Type) := GMount (mount : Mount Fs Po).
Arguments GMount {Fs Po} mount.

Section Grants.
Context `{CharTables} {Fs Po : Type}.

Definition mount_path_error (at_ : list byte) : list byte :=
  lit "mount path must be an absolute guest path, got " ++ debug_str at_.

(** [Mount::new], its [MountPathError] as the SDK's [Error] takes it. *)
Definition mount_new (at_ : list byte) (fs : Fs) (access : Access)
  : result HostError.t (Mount Fs Po) :=
  if negb (is_guest_path at_) then Err (HostError.Argument (mount_path_error at_))
  else Ok (MkMount at_ fs (match access with Read => true | ReadWrite => false end) None).

Definition with_policy (m : Mount Fs Po) (policy : Po) : Mount Fs Po :=
  MkMount (at_path m) (filesystem m) (read_only m) (Some policy).

Definition to_mount_path (grant : Grant Fs Po) : option (list byte) :=
  match grant with GMount mount => Some (at_path mount) end.

Definition is_mounted (entries : list (Grant Fs Po)) (at_ : list byte) : bool :=
  existsb (fun grant => match to_mount_path grant with
                        | Some mounted => str_eq mounted at_
                        | None => false
                        end) entries.

Definition grants_mount (entries : list (Grant Fs Po)) (mount : Mount Fs Po)
  : result HostError.t (list (Grant Fs Po)) :=
  let at_ := at_path mount in
  if is_mounted entries at_
  then Err (HostError.Argument (lit "path " ++ debug_str at_ ++ lit " is already mounted"))
  else Ok (entries ++ [GMount mount]).

Definition for_invocation (entries : list (Grant Fs Po)) (overrides : list (Mount Fs Po))
  : list (Grant Fs Po) :=
  map (fun grant =>
    let overridden :=
      at_ ← to_mount_path grant;
      find (fun mount => str_eq (at_path mount) at_) overrides in
    match overridden with
    | Some mount => GMount mount
    | None => grant
    end) entries.
End Grants.

(** ** Snippets ([snippet.rs]) *)

Section Snippets.
Context `{CharTables}.

Definition is_named (name : list byte) (entry : Snippet.t) : bool :=
  match entry with
  | Snippet.Source taken _ => str_eq taken name
  | Snippet.Bytecode _ => false
  end.

Definition register_source (table : list Snippet.t) (name body : list byte)
  : result HostError.t (list Snippet.t) :=
  if negb (is_constant_name name) then
    Err (HostError.Argument
      (lit "snippet name must be a Ruby constant name (got " ++ debug_str name ++ lit ")"))
  else if existsb (is_named name) table then
    Err (HostError.Argument (lit "snippet " ++ debug_str name ++ lit " already preloaded"))
  else Ok (table ++ [Snippet.Source name body]).

Definition register_binary (table : list Snippet.t) (body : list byte) : list Snippet.t :=
  table ++ [Snippet.Bytecode body].

(** What an engine's [compile] does: answer, or panic. *)
Inductive compiled := Answered (bytecodes : option (list (list byte))) | Panicked.

(** The second value is the panic, the table then as it was. *)
Definition compile_snippets (compile : Preamble.t -> compiled) (preamble : Preamble.t)
    (table : list Snippet.t) : list Snippet.t * bool :=
  if negb (existsb Snippet.is_source table) then (table, false)
  else
    match compile preamble with
    | Panicked => (table, true)
    | Answered None => (table, false)
    | Answered (Some bytecodes) => (replay_entries table bytecodes, false)
    end.
End Snippets.

(** ** The Catalog ([catalog.rs]) *)

Record Catalog (R Fs Po : Type) := MkCatalog {
  bindings : list (list byte * R);
  snippets : list Snippet.t;
  flags : list Flag.t;
  grants : list (Grant Fs Po);
}.
Arguments MkCatalog {R Fs Po} bindings snippets flags grants.
Arguments bindings {R Fs Po} c.
Arguments snippets {R Fs Po} c.
Arguments flags {R Fs Po} c.
Arguments grants {R Fs Po} c.

Section Catalog.
Context `{CharTables} {R Fs Po : Type}.
Abbreviation Cat := (Catalog R Fs Po).

Definition catalog_default : Cat := MkCatalog [] [] [] [].
Definition set_snippets (c : Cat) (s : list Snippet.t) : Cat :=
  MkCatalog (bindings c) s (flags c) (grants c).
Definition set_grants (c : Cat) (g : list (Grant Fs Po)) : Cat :=
  MkCatalog (bindings c) (snippets c) (flags c) g.

Definition SEP : list byte := lit "::".

Definition collides (c : Cat) (path : list byte) : bool :=
  existsb (fun binding =>
    str_eq binding.1 path
    || starts_with (path ++ SEP) binding.1
    || starts_with (binding.1 ++ SEP) path) (bindings c).

Definition bind_service (c : Cat) (path : list byte) (object : R) : result HostError.t Cat :=
  if negb (is_constant_path path) then
    Err (HostError.Argument
      (lit "bind path must be constant-form segments joined by '::' (got " ++ debug_str path
       ++ lit ")"))
  else if is_reserved path then
    Err (HostError.Argument
      (lit "Service path " ++ path ++ lit " is in the reserved " ++ RESERVED_NAMESPACE
       ++ lit " namespace"))
  else if collides c path then
    Err (HostError.Argument
      (lit "Service path " ++ path ++ lit " conflicts with an existing binding"))
  else Ok (MkCatalog (bindings c ++ [(path, object)]) (snippets c) (flags c) (grants c)).

(** [iter().find(|(p, _)| p == path)]. *)
Definition find_path (resolved : list (list byte * R)) (path : list byte) : option R :=
  snd <$> find (fun binding => str_eq binding.1 path) resolved.

Definition lookup_service (c : Cat) (path : list byte) : option R := find_path (bindings c) path.

Definition set_flag (c : Cat) (name value : list byte) (critical : bool)
  : result HostError.t Cat :=
  if existsb (fun flag => str_eq (Flag.name flag) name) (flags c) then
    Err (HostError.Argument (lit "flag " ++ debug_str name ++ lit " already set"))
  else
    Ok (MkCatalog (bindings c) (snippets c) (flags c ++ [Flag.Mk name value critical]) (grants c)).

Definition catalog_preamble (c : Cat) : Preamble.t :=
  Preamble.Mk (map fst (bindings c)) (snippets c) (flags c).

Definition catalog_compile (compile : Preamble.t -> compiled) (c : Cat) : Cat * bool :=
  let '(table, panicked) := compile_snippets compile (catalog_preamble c) (snippets c) in
  (set_snippets c table, panicked).
End Catalog.

(** ** Extensions ([extension.rs]) *)

(** A [PerInvocation] provider is an identity of [Pv]. *)
Inductive Provider (R Pv : Type) :=
| Static (object : R)
| PerInvocation (provider : Pv)
| Fillable.
Arguments Static {R Pv} object.
Arguments PerInvocation {R Pv} provider.
Arguments Fillable {R Pv}.

Record Backend (R Pv : Type) := MkBackend { path : list byte; provider : Provider R Pv }.
Arguments MkBackend {R Pv} path provider.
Arguments path {R Pv} b.
Arguments provider {R Pv} b.

(** What the trait's four readers answer. *)
Record Extension (R Pv : Type) := MkExtension {
  ext_name : list byte;
  source : list byte;
  depends_on : list (list byte);
  backend : option (Backend R Pv);
}.
Arguments MkExtension {R Pv} ext_name source depends_on backend.
Arguments ext_name {R Pv} e.
Arguments source {R Pv} e.
Arguments depends_on {R Pv} e.
Arguments backend {R Pv} e.

Definition unresolved_call {R S block} : rprog R S block (result Fault.t (list byte)) :=
  RRet (Err (Fault.Mk FaultKind.Undefined
    (lit "service is declared but unresolved this invocation"))).

(** The [Unresolved] sentinel among the receivers. *)
Class Sentinel (R S : Type) `{Receivers R S} := {
  unresolved : R;
  unresolved_responds s method : respond_to_guest unresolved s method = true;
  unresolved_answers method payload block : call unresolved method payload block = unresolved_call;
}.

(** Calling a provider is host code, over the receivers' own state. *)
Class Providers (R S Pv : Type) := {
  provide : Pv -> S -> R * S;
  provider_eq :: EqDecision Pv;
}.

Record Extensions (R Pv : Type) := MkExtensions {
  entries : list (Extension R Pv);
  asserted : bool;
}.
Arguments MkExtensions {R Pv} entries asserted.
Arguments entries {R Pv} e.
Arguments asserted {R Pv} e.

Section Extensions.
Context `{CharTables} {R S Fs Po Pv : Type} `{Sentinel R S} `{!Providers R S Pv}.

Definition object_of (p : Provider R Pv) : R :=
  match p with
  | Static object => object
  | PerInvocation _ | Fillable => unresolved
  end.

(** [install], which has registered the source by the time a bind refuses: the
    Catalog it leaves rides along either way. *)
Definition install (exts : Extensions R Pv) (c : Catalog R Fs Po) (e : Extension R Pv)
  : result HostError.t unit * Extensions R Pv * Catalog R Fs Po :=
  match register_source (snippets c) (ext_name e) (source e) with
  | Err err => (Err err, exts, c)
  | Ok table =>
    let c := set_snippets c table in
    let pushed := MkExtensions (entries exts ++ [e]) (asserted exts) in
    match backend e with
    | None => (Ok tt, pushed, c)
    | Some b =>
      match bind_service c (path b) (object_of (provider b)) with
      | Err err => (Err err, exts, c)
      | Ok c => (Ok tt, pushed, c)
      end
    end
  end.

Definition unmet (names : list (list byte)) (e : Extension R Pv) : result HostError.t unit :=
  try_for_each (fun dependency =>
    if existsb (str_eq dependency) names then Ok tt
    else Err (HostError.Argument
      (lit "extension " ++ debug_str (ext_name e) ++ lit " depends on " ++ debug_str dependency
       ++ lit ", which was not installed"))) (depends_on e).

Definition assert_dependencies (exts : Extensions R Pv)
  : result HostError.t unit * Extensions R Pv :=
  if asserted exts then (Ok tt, exts)
  else
    let names := map ext_name (entries exts) in
    match try_for_each (unmet names) (entries exts) with
    | Err err => (Err err, exts)
    | Ok _ => (Ok tt, MkExtensions (entries exts) true)
    end.

(** One step of [resolve]'s loop: the providers called so far, with their
    objects, and the paths resolved. *)
Definition resolve_step (by_provider : list (Pv * R)) (e : Extension R Pv) (s : S)
  : list (Pv * R) * list (list byte * R) * S :=
  match backend e with
  | Some (MkBackend path (PerInvocation p)) =>
    match find (fun seen => bool_decide (seen.1 = p)) by_provider with
    | Some (_, object) => (by_provider, [(path, object)], s)
    | None =>
      let '(object, s) := provide p s in (by_provider ++ [(p, object)], [(path, object)], s)
    end
  | _ => (by_provider, [], s)
  end.

Fixpoint resolve_from (by_provider : list (Pv * R)) (es : list (Extension R Pv)) (s : S)
  : list (list byte * R) * S :=
  match es with
  | [] => ([], s)
  | e :: es =>
    let '(by_provider, here, s) := resolve_step by_provider e s in
    let '(rest, s) := resolve_from by_provider es s in
    (here ++ rest, s)
  end.

Definition resolve_extensions (exts : Extensions R Pv) (s : S) : list (list byte * R) * S :=
  resolve_from [] (entries exts) s.
End Extensions.

(** ** Paths and segments *)

Definition colon_free (s : list byte) : Prop := Forall (fun c => c <> colon) s.

Lemma split_path_two c c' r :
  split_path (c :: c' :: r)
  = if Byte.eqb c colon && Byte.eqb c' colon then [] :: split_path r
    else match split_path (c' :: r) with h :: t => (c :: h) :: t | [] => [[c]] end.
Proof. done. Qed.

Lemma split_path_nonempty s : split_path s <> [].
Proof.
  destruct s as [|a [|b r]]; [done..|]. rewrite split_path_two.
  destruct (_ && _); [done|]. by case_match.
Qed.

Lemma split_path_cons c r :
  c <> colon ->
  exists h t, split_path r = h :: t /\ split_path (c :: r) = (c :: h) :: t.
Proof.
  intros Hc. assert (Byte.eqb c colon = false) as E.
  { destruct (Byte.eqb c colon) eqn:E; [|done]. by apply byte_eqb_true in E. }
  destruct r as [|c' r']; [by exists [], []|].
  rewrite split_path_two, E. cbn [andb].
  destruct (split_path (c' :: r')) as [|h t] eqn:Hs; [by apply split_path_nonempty in Hs|].
  by exists h, t.
Qed.

Lemma split_path_free s : colon_free s -> split_path s = [s].
Proof.
  induction 1 as [|c s Hc _ IH]; [done|].
  destruct (split_path_cons c s Hc) as (h & t & E1 & E2). rewrite IH in E1.
  injection E1 as <- <-. done.
Qed.

Lemma split_path_app s r :
  colon_free s -> split_path (s ++ SEP ++ r) = s :: split_path r.
Proof.
  induction 1 as [|c s Hc _ IH]; [done|]. cbn [app].
  destruct (split_path_cons c (s ++ SEP ++ r) Hc) as (h & t & E1 & E2).
  rewrite IH in E1. injection E1 as <- <-. done.
Qed.

(** [segments.join("::")]. *)
Fixpoint join (segments : list (list byte)) : list byte :=
  match segments with
  | [] => []
  | [s] => s
  | s :: rest => s ++ SEP ++ join rest
  end.

Lemma join_cons s rest : rest <> [] -> join (s :: rest) = s ++ SEP ++ join rest.
Proof. by destruct rest. Qed.

Lemma split_join segments :
  segments <> [] -> Forall colon_free segments -> split_path (join segments) = segments.
Proof.
  induction segments as [|s rest IH]; [done|]. intros _ Hf.
  apply Forall_cons_iff in Hf as [Hs Hf]. destruct rest as [|s' rest].
  - by apply split_path_free.
  - rewrite join_cons by done. rewrite split_path_app by done. by rewrite IH.
Qed.

(** Splitting loses nothing. *)
Lemma join_split_aux n s : (length s <= n)%nat -> join (split_path s) = s.
Proof.
  revert s. induction n as [|n IH]; intros s Hn.
  - by destruct s; [|simpl in Hn; lia].
  - destruct s as [|c [|c' r]]; [done..|]. rewrite split_path_two. simpl in Hn.
    destruct (Byte.eqb c colon && Byte.eqb c' colon) eqn:E.
    + apply andb_true_iff in E as [->%byte_eqb_true ->%byte_eqb_true].
      rewrite join_cons by apply split_path_nonempty. by rewrite IH by lia.
    + pose proof (IH (c' :: r) ltac:(simpl; lia)) as Hr.
      destruct (split_path (c' :: r)) as [|h t]; [done|].
      destruct t as [|h' t]; cbn [join app] in *; by rewrite <- Hr.
Qed.

Lemma join_split s : join (split_path s) = s.
Proof. by eapply join_split_aux. Qed.

(** ** Constant paths *)

Lemma utf8_decode_colon s cs :
  utf8_decode s = Some cs -> Forall (fun c => c <> 58) cs -> colon_free s.
Proof.
  remember (length s) as n eqn:Hn. assert (length s <= n)%nat as Hl by lia. clear Hn.
  revert s cs Hl. induction n as [|n IH]; intros s cs Hl Hs Hf.
  - destruct s; [constructor | simpl in Hl; lia].
  - assert (forall b, 0x80 <= byte_to_Z b -> b <> colon) as Hhi.
    { intros b Hb ->. by vm_compute in Hb. }
    assert (forall b, is_cont b = true -> b <> colon) as Hc.
    { intros b Hb. apply Hhi. unfold is_cont in Hb. apply andb_true_iff in Hb as [?%Z.leb_le _]. lia. }
    assert (forall z b, second_ok z (byte_to_Z b) = true -> b <> colon) as H2.
    { intros z b Hb. apply Hhi. unfold second_ok in Hb.
      repeat case_match; apply andb_true_iff in Hb as [?%Z.leb_le _]; lia. }
    destruct s as [|b0 r0]; [constructor|]. cbn [utf8_decode] in Hs. simpl in Hl.
    destruct (Z.ltb_spec (byte_to_Z b0) 0x80) as [Hb|Hb].
    + destruct (utf8_decode r0) as [cs'|] eqn:Er; [|done]. injection Hs as <-.
      apply Forall_cons_iff in Hf as [H0 Hf]. constructor; [|eapply IH; [lia|done..]].
      intros ->. by apply H0.
    + assert (b0 <> colon) as H0 by (apply Hhi; lia).
      repeat match type of Hs with
        | context [if ?c then _ else _] => destruct c eqn:?; try discriminate
        | context [match ?r with [] => _ | _ :: _ => _ end] =>
            destruct r as [|? ?]; try discriminate
        end;
      match type of Hs with context [utf8_decode ?r] => destruct (utf8_decode r) eqn:Er; [|done] end;
      injection Hs as <-; apply Forall_cons_iff in Hf as [_ Hf]; simpl in Hl;
      repeat match goal with H : _ && _ = true |- _ => apply andb_true_iff in H as [? ?] end;
      repeat (constructor; [by eauto|]); (eapply IH; [|exact Er|exact Hf]; lia).
Qed.

Lemma constant_name_colon_free s :
  utf8_valid s = true -> is_constant_name s = true -> colon_free s.
Proof.
  unfold is_constant_name, chars, utf8_valid. destruct (utf8_decode s) as [cs|] eqn:E; [|done].
  intros _ Hn. apply andb_true_iff in Hn as [_ Hn]. cbn [default] in Hn.
  destruct cs as [|c cs]; [done|]. apply andb_true_iff in Hn as [Hc Hcs].
  eapply utf8_decode_colon; [exact E|]. constructor.
  - intros ->. done.
  - apply forallb_true in Hcs. eapply Forall_impl; [|exact Hcs]. by intros x Hx ->.
Qed.

(** [chars] of bytes that are not UTF-8 is empty, so no name is. *)
Lemma constant_name_colon_free' s : is_constant_name s = true -> colon_free s.
Proof.
  intros Hn. apply constant_name_colon_free; [|done]. unfold is_constant_name, chars in Hn.
  unfold utf8_valid. destruct (utf8_decode s); [done|]. by rewrite andb_comm in Hn.
Qed.

Lemma constant_path_segments p :
  is_constant_path p = true -> Forall colon_free (split_path p).
Proof.
  unfold is_constant_path. intros Hp. apply forallb_true in Hp.
  eapply Forall_impl; [apply constant_name_colon_free'|exact Hp].
Qed.

Lemma split_join_app l t :
  l <> [] -> Forall colon_free l -> split_path (join l ++ SEP ++ t) = l ++ split_path t.
Proof.
  induction l as [|x l IH]; [done|]. intros _ Ha. apply Forall_cons_iff in Ha as [Hx Ha].
  destruct l as [|y l]; [by apply split_path_app|].
  rewrite join_cons, <- !app_assoc, split_path_app by done. by rewrite IH.
Qed.

Lemma join_app l s rest : l <> [] -> join (l ++ s :: rest) = join l ++ SEP ++ join (s :: rest).
Proof.
  induction l as [|x l IH]; [done|]. intros _. destruct l as [|y l]; [done|].
  change ((x :: y :: l) ++ s :: rest) with (x :: ((y :: l) ++ s :: rest)).
  rewrite !(join_cons x) by done. rewrite IH by done. by rewrite <- !app_assoc.
Qed.

(** One path lies strictly inside another where its segments extend the
    other's. *)
Lemma inside_segments a b :
  is_constant_path a = true ->
  starts_with (a ++ SEP) b = true
  <-> exists s rest, split_path b = split_path a ++ s :: rest.
Proof.
  intros Ha. apply constant_path_segments in Ha. rewrite starts_with_true. split.
  - intros [t ->]. destruct (split_path t) as [|s rest] eqn:E; [by apply split_path_nonempty in E|].
    exists s, rest. rewrite <- E, <- app_assoc, <- (split_join_app (split_path a)), join_split;
      [done | apply split_path_nonempty | done].
  - intros (s & rest & E). exists (join (s :: rest)).
    rewrite <- (join_split b), E, join_app, join_split, <- app_assoc by apply split_path_nonempty.
    done.
Qed.

(** [a]'s segments are a prefix of [b]'s, or equal. *)
Definition nested_paths (a b : list byte) : Prop := exists rest, split_path b = split_path a ++ rest.

Definition disjoint_paths (a b : list byte) : Prop := ~ nested_paths a b /\ ~ nested_paths b a.

Lemma nested_paths_cases a b :
  nested_paths a b <-> a = b \/ exists s rest, split_path b = split_path a ++ s :: rest.
Proof.
  split.
  - intros [[|s rest] E]; [left|right; eauto].
    rewrite app_nil_r in E. by rewrite <- (join_split a), <- (join_split b), E.
  - intros [<-|(s & rest & E)]; [exists []; by rewrite app_nil_r | by exists (s :: rest)].
Qed.

Lemma collides_false {R Fs Po} (c : Catalog R Fs Po) path :
  Forall (fun b => is_constant_path b.1 = true) (bindings c) -> is_constant_path path = true ->
  collides c path = false <-> Forall (fun b => disjoint_paths b.1 path) (bindings c).
Proof.
  intros Hc Hp. unfold collides. induction (bindings c) as [|[b r] l IH]; [done|].
  apply Forall_cons_iff in Hc as [Hb Hc]. cbn [existsb fst] in *.
  rewrite orb_false_iff, Forall_cons_iff, IH by done.
  unfold disjoint_paths. rewrite !nested_paths_cases, <- !inside_segments by done.
  cbn [fst]. rewrite !orb_false_iff.
  assert (str_eq b path = false <-> b <> path) as ->.
  { rewrite <- not_true_iff_false, str_eq_true. done. }
  rewrite <- !not_true_iff_false. split; [intros [[[??]?]?] | intros [[??]?]];
    (split; [|done]); [split; intros [->|?]; auto | repeat split; auto].
Qed.
