(* ===== verification/Dispatch.v ===== *)
(** The SDK's dispatch handler ([kobako/src/dispatch.rs]): resolve a Call's
    target, ask it whether the guest may reach the method, run it with the
    Handles and block lent, and fold every failure into a Reply. *)
From S2P Require Import Prelude Text Wire Messages PreambleMsg Runtime Endpoint HostCalls NestedGuest HostError Receivers Catalog.

Record CatalogHandler (R Fs Po : Type) := MkHandler {
  catalog : Catalog R Fs Po;
  resolved : list (list byte * R);
}.
Arguments MkHandler {R Fs Po} catalog resolved.
Arguments catalog {R Fs Po} c.
Arguments resolved {R Fs Po} c.

Section Dispatch.
Context `{CharTables} {R S Fs Po : Type} `{!Receivers R S}.
Abbreviation St := (shared R S).

Definition resolve_target (h : CatalogHandler R Fs Po) (target : Call.target) (t : list R)
  : result Fault.t R :=
  match target with
  | Call.Path path =>
    ok_or (match find_path (resolved h) path with
           | Some object => Some object
           | None => lookup_service (catalog h) path
           end)
      (Fault.Mk FaultKind.Undefined (lit "unknown constant " ++ path))
  | Call.Handle id =>
    ok_or (HandleTable.get t id)
      (Fault.Mk FaultKind.Undefined (lit "unknown Handle id: " ++ display_uint id))
  end.

(** What a receiver's answer is to the guest. *)
Definition reply_of (block_given broken : bool) (r : result Fault.t (list byte)) : Reply.t :=
  if block_given && broken then Reply.Break
  else match r with
       | Ok body => Reply.Ok body
       | Err fault => Reply.Fault fault
       end.

Definition answer (h : CatalogHandler R Fs Po) (c : Call.t) (frame : Z) : hprog St Reply.t :=
  HGet (fun st =>
    match resolve_target h (Call.to c) (table st) with
    | Err fault => HRet (Reply.Fault fault)
    | Ok object =>
      if negb (respond_to_guest object (own (on st)) (Call.method c)) then
        HRet (Reply.Fault (Fault.Mk FaultKind.Undefined
          (lit "method :" ++ Call.method c ++ lit " is not exposed to the guest")))
      else
        let% (result, broken) :=
          run_receiver (call object (Call.method c) (Call.payload c) (Call.block_given c))
            frame false in
        HRet (reply_of (Call.block_given c) broken result)
    end).

(** [impl DispatchHandler for CatalogHandler], which is never abandoned. *)
Definition catalog_handler (h : CatalogHandler R Fs Po) : handler St :=
  Handler (fun c frame => let% reply := answer h c frame in HRet (Some reply)) (fun _ => false).
End Dispatch.

(** ** Facts *)

Section Facts.
Context `{CharTables} {R S Fs Po : Type} `{!Receivers R S}.
Abbreviation St := (shared R S).

(** The Handle table within an invocation only grows, within its ids, and the
    value budget stands. *)
Definition shared_grows (h h' : St) : Prop :=
  (exists more, table h' = table h ++ more)
  /\ (ok_table (table h) -> ok_table (table h'))
  /\ BUDGET (on h') = BUDGET (on h).

Definition table_grows {G F} (w w' : world G St F) : Prop := shared_grows (host w) (host w').

Lemma shared_grows_eq h h' :
  table h' = table h -> BUDGET (on h') = BUDGET (on h) -> shared_grows h h'.
Proof.
  intros E1 E2. unfold shared_grows. rewrite E1, E2. split; [exists []; by rewrite app_nil_r | done].
Qed.

Lemma table_grows_refl {G F} (w : world G St F) : table_grows w w.
Proof. by apply shared_grows_eq. Qed.

Lemma table_grows_eq {G F} (w w' : world G St F) : host w' = host w -> table_grows w w'.
Proof. unfold table_grows. intros ->. by apply shared_grows_eq. Qed.

Lemma shared_grows_trans h1 h2 h3 : shared_grows h1 h2 -> shared_grows h2 h3 -> shared_grows h1 h3.
Proof.
  intros ([m1 E1] & O1 & B1) ([m2 E2] & O2 & B2). split; [|split; [tauto | congruence]].
  exists (m1 ++ m2). by rewrite E2, E1, app_assoc.
Qed.

Lemma table_grows_trans {G F} (w1 w2 w3 : world G St F) :
  table_grows w1 w2 -> table_grows w2 w3 -> table_grows w1 w3.
Proof. apply shared_grows_trans. Qed.

(** Only Catalogs' handlers answer an invocation's Calls. *)
Definition bound {G F} (w : world G St F) : Prop :=
  forall h, on_dispatch (calls w) = Some h ->
    exists c : CatalogHandler R Fs Po, h = catalog_handler c.

Lemma bound_kept {G F} (w w' : world G St F) : calls_kept w w' -> bound w -> bound w'.
Proof. unfold bound. by intros [-> _]. Qed.

(** Guest code reaches the table only through further dispatches, so a call
    into it grows the table as a dispatch does. *)
Class GuestGrows (G F : Type) `{!GuestInstance G St F} : Prop := {
  alloc_grows n w r w' :
    reentry_trap (calls w) = None -> bound w -> alloc n w = (r, w') -> table_grows w w';
  downcall_grows ptr n w r w' :
    reentry_trap (calls w) = None -> bound w -> downcall ptr n w = (r, w') -> table_grows w w';
}.

Section Grows.
Context {G F : Type} `{!GuestInstance G St F} `{!GuestLaws G St F}.
Abbreviation W := (world G St F).

Lemma run_hbind {A B} (p : hprog St A) (k : A -> hprog St B) (w : W) :
  run_handler (hbind p k) w = let '(a, w1) := run_handler p w in run_handler (k a) w1.
Proof.
  revert w. induction p as [a|frame args q IH|q IH|h q IH]; intros w; cbn [hbind run_handler].
  - done.
  - destruct (yield_to_block frame args w) as [r w1]. apply IH.
  - apply IH.
  - apply IH.
Qed.

Context `{!GuestGrows G F}.

Lemma alloc_and_write_grows bytes (w : W) r w' :
  reentry_trap (calls w) = None -> bound w ->
  alloc_and_write bytes w = (r, w') -> table_grows w w'.
Proof.
  intros Ht Hb Hr.
  apply alloc_and_write_inv in Hr as [(e & _ & -> & _)|(m & a & w1 & _ & _ & Ea & Hr)];
    [apply table_grows_refl|].
  apply alloc_grows in Ea; [|done..].
  destruct a as [[ptr|t]|]; [destruct Hr as [(e & _ & -> & _)|(mem & _ & _ & _ & _ & ->)]
    | destruct Hr as [_ ->]..]; done.
Qed.

Lemma keep_trap_grows t reason (w : W) m w' : keep_trap t reason w = (m, w') -> table_grows w w'.
Proof.
  intros Hk. apply keep_trap_step in Hk as (_ & _ & Hh & _). apply table_grows_eq. by rewrite Hh.
Qed.

Lemma write_from_callback_grows bytes (w : W) r w' :
  bound w -> write_from_callback bytes w = (r, w') -> table_grows w w'.
Proof.
  intros Hb. unfold write_from_callback. destruct (reentry_trap (calls w)) eqn:Ht.
  { intros [= <- <-]. apply table_grows_refl. }
  unfold ecatch. destruct (alloc_and_write bytes w) as [[ptr|e] w1] eqn:Ea;
    apply alloc_and_write_grows in Ea; try done; [by intros [= <- <-]|].
  destruct (write_failure e w1) as [m w2] eqn:Ew. intros [= <- <-].
  destruct e; cbn [write_failure] in Ew; try (by injection Ew as <- <-).
  apply keep_trap_grows in Ew. by eapply table_grows_trans.
Qed.

Lemma downcall_or_grows ptr n (w : W) r w' :
  reentry_trap (calls w) = None -> bound w -> downcall_or ptr n w = (r, w') -> table_grows w w'.
Proof.
  intros Ht Hb. unfold downcall_or. destruct (downcall ptr n w) as [o w1] eqn:Ed.
  apply downcall_grows in Ed; [|done..]. destruct o as [[packed|t]|]; try by intros [= <- <-].
  destruct (keep_trap t _ w1) as [m w2] eqn:Ek. intros [= <- <-].
  apply keep_trap_grows in Ek. by eapply table_grows_trans.
Qed.

Lemma yield_to_block_grows frame args (w : W) r w' :
  bound w -> yield_to_block frame args w = (r, w') -> table_grows w w'.
Proof.
  intros Hb. unfold yield_to_block. destruct (drive_yield frame args w) as [b w1] eqn:Ed.
  intros [= <- <-]. revert Ed. unfold drive_yield, ebind, elift, efail, memory_or.
  destruct (checked_payload_len _); [|intros [= <- <-]; apply table_grows_refl].
  destruct (write_from_callback _ w) as [[ptr|e] w2] eqn:Ew.
  2:{ intros [= <- <-]. by eapply write_from_callback_grows. }
  pose proof (write_from_callback_grows _ _ _ _ Hb Ew) as G1.
  apply write_from_callback_ok in Ew as [Ht Ew].
  apply alloc_and_write_calls in Ew as [K Ht2]; [|done].
  destruct (downcall_or _ _ w2) as [o w3] eqn:Ed.
  apply downcall_or_grows in Ed as G2; [|done|by eapply bound_kept].
  pose proof (table_grows_trans _ _ _ G1 G2).
  destruct o as [packed|e]; [|by intros [= <- <-]].
  destruct (unpack_guest_buffer packed) as [rp rl].
  destruct (rl =? 0); [by intros [= <- <-]|].
  destruct (ok_or (memory (guest w3)) _); by intros [= <- <-].
Qed.

Lemma handles_alloc_grows object (h h' : St) r :
  handles_alloc object h = (r, h') -> shared_grows h h'.
Proof.
  unfold handles_alloc. destruct (HandleTable.alloc object (table h)) as [o t'] eqn:Ea.
  intros [= <- <-]. split; [|split; [|done]]; cbn [set_table table].
  - unfold HandleTable.alloc in Ea.
    destruct (_ <=? _); injection Ea as <- <-; [exists []; by rewrite app_nil_r | by eexists].
  - intros Hok. by apply alloc_inv in Ea as [(_ & -> & _)|(_ & -> & _ & Hok')].
Qed.

Lemma run_receiver_grows {b A} (p : rprog R S b A) frame broken (w : W) r w' :
  bound w -> run_handler (run_receiver p frame broken) w = (r, w') -> table_grows w w'.
Proof.
  revert broken w. induction p as [a|lent args k IH|object k IH|id k IH|k IH|s k IH|k IH];
    intros broken w Hb; cbn [run_receiver]; rewrite ?run_hbind; cbn [run_handler call_payload];
    try by apply IH.
  - intros [= <- <-]. apply table_grows_refl.
  - destruct (yield_to_block frame args w) as [o w1] eqn:Ey.
    pose proof (yield_to_block_step _ _ _ _ _ Ey) as [K _].
    apply yield_to_block_grows in Ey; [|done].
    cbn [run_handler]. destruct (yielded o broken) as [r1 b1]. intros Hr.
    eapply table_grows_trans; [exact Ey|]. eapply IH; [|exact Hr]. by eapply bound_kept.
  - destruct (handles_alloc object (host w)) as [o h] eqn:Ea. cbn [run_handler]. intros Hr.
    apply handles_alloc_grows in Ea. eapply IH in Hr; [|done].
    by eapply shared_grows_trans.
Qed.

(** A dispatch's own program. *)
Lemma answer_grows (h : CatalogHandler R Fs Po) c frame (w : W) r w' :
  bound w -> run_handler (answer h c frame) w = (r, w') -> table_grows w w'.
Proof.
  intros Hb. unfold answer. cbn [run_handler].
  destruct (resolve_target h (Call.to c) (table (host w))) as [object|fault];
    [|intros [= <- <-]; apply table_grows_refl].
  destruct (negb _); [intros [= <- <-]; apply table_grows_refl|].
  rewrite run_hbind. destruct (run_handler (run_receiver _ _ _) w) as [[a broken] w1] eqn:Er.
  intros [= <- <-]. by eapply run_receiver_grows.
Qed.

Lemma reply_to_grows p n (w : W) r w' :
  bound w -> reply_to p n w = (r, w') -> table_grows w w'.
Proof.
  intros Hb. unfold reply_to, ebind, eget, elift, eret, efail.
  destruct (read_request_pure p n w) as [[bytes|e] ->]; [|intros [= <- <-]; apply table_grows_refl].
  destruct (Upcall.decode bytes) as [[call|tag body]|e]; [|intros [= <- <-]; apply table_grows_refl..].
  destruct (on_dispatch (calls w)) as [h|] eqn:Eh; cbn [ok_or]; [|intros [= <- <-]; apply table_grows_refl].
  apply Hb in Eh as [c ->]. rewrite answer_call_eq. cbn [dispatch catalog_handler].
  rewrite run_hbind. destruct (run_handler (answer c call _) (opened w)) as [reply w1] eqn:Ea.
  cbn [run_handler]. intros [= <- <-].
  assert (bound (opened w)) as Hb' by exact Hb.
  by apply answer_grows in Ea.
Qed.

Lemma handle_grows p n (w : W) r w' :
  reentry_trap (calls w) = None -> bound w -> handle p n w = (r, w') -> table_grows w w'.
Proof.
  intros Ht Hb Hr. apply handle_inv in Hr as (o & w1 & written & w2 & H1 & H2 & Hr).
  pose proof (reply_to_calls _ _ _ _ _ Ht H1) as [K1 _].
  apply reply_to_grows in H1; [|done]. apply write_reply_inv in H2 as (o2 & H2 & _).
  apply write_from_callback_grows in H2; [|by eapply bound_kept].
  pose proof (table_grows_trans _ _ _ H1 H2) as Hg.
  destruct (reentry_trap (calls w2)); [by destruct Hr as [_ ->] | by destruct Hr as [-> _]].
Qed.
End Grows.

(** ** A nested guest grows the table as dispatches do *)

Lemma place_host bytes (w : world wasm St (list byte)) o w' :
  place bytes w = (o, w') -> host w' = host w.
Proof.
  unfold place, wasm_alloc. destruct (_ && _); cbn [guest set_guest].
  - destruct (_ =? 0); by intros [= <- <-].
  - by intros [= <- <-].
Qed.

#[export] Instance nested_grows fuel : GuestGrows wasm (list byte) (GuestInstance0 := nested fuel).
Proof.
  assert (forall fuel' n (w : world wasm St (list byte)) r w',
    alloc (GuestInstance := nested fuel') n w = (r, w') -> table_grows w w') as Halloc.
  { intros fuel' n w r w' E. apply table_grows_eq.
    destruct fuel'; cbn [nested alloc] in E; unfold wasm_alloc in E;
      destruct (_ && _); by injection E as <- <-. }
  induction fuel as [|fuel IH]; split; intros *.
  - intros _ _. apply Halloc.
  - intros _ _. cbn [nested downcall]. intros [= <- <-]. apply table_grows_refl.
  - intros _ _. apply Halloc.
  - cbn [nested downcall]. generalize (code (guest w) (peek (as_u32 ptr) (as_u32 n) w)) as p.
    intros p. revert w r w'. clear Halloc. induction p as [bytes|reason|request k IHp];
      intros w r w' Ht Hb; cbn [run_guest].
    + destruct (place bytes w) as [[q|] w1] eqn:E; apply place_host in E; intros [= <- <-];
        apply table_grows_eq; by rewrite E.
    + intros [= <- <-]. apply table_grows_refl.
    + destruct (place request w) as [[q|] w1] eqn:E; pose proof (place_calls _ _ _ _ E) as Ec;
        apply place_host in E.
      2:{ intros [= <- <-]. apply table_grows_eq. by rewrite E. }
      assert (table_grows w w1) as G1 by (apply table_grows_eq; by rewrite E).
      assert (reentry_trap (calls w1) = None) as Ht1 by (by rewrite Ec).
      assert (bound w1) as Hb1 by (unfold bound; by rewrite Ec).
      destruct (handle _ _ w1) as [[packed|e] w2] eqn:Eh;
        pose proof (handle_calls _ _ _ _ _ Ht1 Eh) as [K2 Ht2];
        pose proof (handle_grows _ _ _ _ _ Ht1 Hb1 Eh) as G2;
        pose proof (table_grows_trans _ _ _ G1 G2) as G12.
      * destruct (Abi.unpack_ptr_len _) as [rp rl]. intros Hr.
        apply IHp in Hr; [|done|by eapply bound_kept]. by eapply table_grows_trans.
      * destruct e; by intros [= <- <-].
Qed.
End Facts.
