(* ===== verification/Overlay.v ===== *)
(** The bundled MessagePack schema over the SDK's byte-level surface
    ([kobako/src/msgpack/]): the value budget, value-tree Receivers and
    yields, the arguments of a [run] and the value of an outcome. *)
From S2P Require Import Prelude Text Wire Messages Runtime Endpoint Codec HostError Receivers.

(** [budget::within]: the outer budget is back however [run] ends. *)
Definition within {R S A} (budget : option Z) (run : shared R S -> A * shared R S)
    (h : shared R S) : A * shared R S :=
  let '(a, h') := run (Shared (table h) (Thread (own (on h)) budget)) in
  (a, Shared (table h') (Thread (own (on h')) (BUDGET (on h)))).

Section Overlay.
Context `{Rmp} {R S : Type}.

(** ** Yields ([msgpack/yielder.rs]) *)

Definition encode_args (args : list Value) : result YieldError.t (list byte) :=
  map_err (fun err => YieldError.Refused
             (lit "yield arguments are not encodable: " ++ Error.to_string err))
    (encode_value (Array args)).

Definition decode_body (budget : option Z) (body : list byte) : result YieldError.t Value :=
  map_err (fun err => YieldError.Aborted
             (lit "malformed Yield Reply payload: " ++ Error.to_string err))
    (let? (value, _) := read_sole_value (with_value_budget (decoder_new body) budget) in Ok value).

Definition call_values {block} (lent : block = true) (args : list Value)
  : rprog R S block (result YieldError.t Value) :=
  match encode_args args with
  | Err err => RRet (Err err)
  | Ok bytes =>
    RBlock lent bytes (fun r =>
      match r with
      | Err err => RRet (Err err)
      | Ok body => RBudget (fun budget => RRet (decode_body budget body))
      end)
  end.

(** ** Receivers ([msgpack/receiver.rs]) *)

(** A [ValueReceiver]'s [call]. *)
Definition value_call : Type :=
  list byte -> list Value -> list (list byte * Value) ->
  forall block, rprog R S block (result Fault.t Value).

Definition request_fault (err : Error.t) : Fault.t :=
  Fault.Mk FaultKind.Internal
    (lit "Sandbox could not read the request: " ++ Error.to_string err).

Definition answer_fault (err : Error.t) : Fault.t :=
  Fault.Mk FaultKind.Runtime
    (lit "Sandbox could not write the Service's answer: " ++ Error.to_string err).

Definition write_answer (r : result Fault.t Value) : result Fault.t (list byte) :=
  let? value := r in map_err answer_fault (encode_value value).

(** [IntoReceiver]'s [call]. *)
Definition into_receiver (v : value_call) (method payload : list byte) (block : bool)
  : rprog R S block (result Fault.t (list byte)) :=
  RBudget (fun budget =>
    match map_err request_fault (decode_within payload budget) with
    | Err fault => RRet (Err fault)
    | Ok arguments =>
      prog_bind (v method (args arguments) (kwargs arguments) block)
        (fun r => RRet (write_answer r))
    end).

(** ** Run arguments ([msgpack/payload.rs]) *)

Inductive RunArg := ArgValue (value : Value) | ArgObject (object : R).

Definition wrap (arg : RunArg) : rprog R S false (result HostError.t Value) :=
  match arg with
  | ArgValue value => RRet (Ok value)
  | ArgObject object =>
    RAlloc object (fun r => RRet
      (map_err (fun fault => HostError.Sandbox
                  (Failure.host (lit "Kobako::HandleExhaustedError") (Fault.message fault)))
         (let? id := r in Ok (Handle id))))
  end.

(** [into_iter().map(..).collect::<Result<Vec<_>, _>>()]: it stops at the first
    failure, the allocations before it made. *)
Fixpoint wrap_all {A B} (one : A -> rprog R S false (result HostError.t B)) (l : list A)
  : rprog R S false (result HostError.t (list B)) :=
  match l with
  | [] => RRet (Ok [])
  | a :: l =>
    prog_bind (one a) (fun r =>
      match r with
      | Err err => RRet (Err err)
      | Ok b => prog_bind (wrap_all one l) (fun rs => RRet (let? bs := rs in Ok (b :: bs)))
      end)
  end.

Definition wrap_kwarg (kv : list byte * RunArg)
  : rprog R S false (result HostError.t (list byte * Value)) :=
  prog_bind (wrap kv.2) (fun r => RRet (let? value := r in Ok (kv.1, value))).

Definition encode_values (args : list RunArg) (kwargs : list (list byte * RunArg))
  : rprog R S false (result HostError.t (list byte)) :=
  prog_bind (wrap_all wrap args) (fun r =>
    match r with
    | Err err => RRet (Err err)
    | Ok args =>
      prog_bind (wrap_all wrap_kwarg kwargs) (fun r => RRet
        (let? kwargs := r in
         map_err (fun err => HostError.Argument
                    (lit "arguments are not wire-encodable: " ++ Error.to_string err))
           (encode_arguments (MkArguments args kwargs))))
    end).

(** ** Outcomes ([msgpack/execution.rs]) *)

Definition WIRE_ERROR_CLASS : list byte := lit "Kobako::Transport::Error".

Definition wire_violation (message : list byte) (detail : Error.t) : HostError.t :=
  HostError.Sandbox
    (Failure.Mk WIRE_ERROR_CLASS message [] [] (Some (Error.to_string detail))).

Definition decode_value (body : list byte) (budget : option Z) : result HostError.t Value :=
  map_err (wire_violation (lit "Sandbox produced an invalid result value"))
    (let? (value, _) := read_sole_value (with_value_budget (decoder_new body) budget) in Ok value).

Definition unknown_handle (id : Z) : HostError.t :=
  HostError.Sandbox (Failure.host (lit "Kobako::SandboxError")
    (lit "unknown Handle id: " ++ display_uint id)).

(** [require_live_handles], against the table the Execution holds. *)
Fixpoint require_live_handles (entries : list R) (value : Value) : result HostError.t unit :=
  match value with
  | Handle id =>
    ok_or (match HandleTable.get entries id with Some _ => Some tt | None => None end)
      (unknown_handle id)
  | Array items =>
    (fix each (l : list Value) : result HostError.t unit :=
       match l with
       | [] => Ok tt
       | v :: l => let? _ := require_live_handles entries v in each l
       end) items
  | Map pairs =>
    (fix each (l : list (Value * Value)) : result HostError.t unit :=
       match l with
       | [] => Ok tt
       | (key, val) :: l =>
         let? _ := (let? _ := require_live_handles entries key in
                    require_live_handles entries val) in
         each l
       end) pairs
  | _ => Ok tt
  end.
End Overlay.
Arguments RunArg R : clear implicits.
Arguments ArgValue {R} value.
Arguments ArgObject {R} object.

(** ** Facts *)

(** The Handle ids a value carries, in the order they are met. *)
Fixpoint handles_in (v : Value) : list Z :=
  match v with
  | Handle id => [id]
  | Array items => flat_map handles_in items
  | Map pairs => flat_map (fun kv => handles_in kv.1 ++ handles_in kv.2) pairs
  | _ => []
  end.
