(* ===== verification/Sandbox.v ===== *)
(** The Sandbox ([kobako/src/sandbox.rs], [sandbox/context.rs],
    [sandbox/options.rs], [payload.rs]): its seal-once registry, the overrides
    of one invocation, the verbs, and the Execution a verb returns
    ([execution.rs]).  The engine is a [runtime] record of what the trait
    [Runtime] asks ([kobako-runtime/src/runtime.rs]).

    The Sandbox's lemmas: what registrations keep of the Catalog, the life of
    the registry over any sequence of operations, and what overrides collect. *)
From S2P Require Import Prelude Text Wire Messages PreambleMsg Codec Runtime Endpoint HostError Receivers Catalog Dispatch Overlay.

(** ** The engine *)

Inductive GrantKind := KindMount.

(** [dyn Runtime], over the state [H] its handler's dispatches share. *)
Record runtime (H Fs Po : Type) := MkRuntime {
  supports : GrantKind -> bool;
  profile : Profile;
  compile : Preamble.t -> compiled;
  invoke_guest : Entry.t -> Preamble.t -> option (handler H) -> list (Grant Fs Po) ->
                 H -> result InvokeError.t Snapshot.t * H;
}.
Arguments MkRuntime {H Fs Po} supports profile compile invoke_guest.
Arguments supports {H Fs Po} r kind.
Arguments profile {H Fs Po} r.
Arguments compile {H Fs Po} r preamble.
Arguments invoke_guest {H Fs Po} r.

(** ** The registry *)

Inductive Registry (R Fs Po : Type) :=
| Open (catalog : Catalog R Fs Po)
| Sealed (catalog : Catalog R Fs Po).
Arguments Open {R Fs Po} catalog.
Arguments Sealed {R Fs Po} catalog.

Definition SEALED : HostError.t :=
  HostError.Sealed (lit "registrations must happen before the first invocation").

(** Why a verb returned no Execution: an [Err], or the panic of an engine's
    [compile] resumed. *)
Inductive refusal := Refused (err : HostError.t) | Unwound.

(** [Execution]. *)
Record Execution (R : Type) := MkExecution {
  outcome : result HostError.t (list byte);
  handles : list R;
  stdout : Capture.t;
  stderr : Capture.t;
  usage : Usage.t;
  value_budget : option Z;
}.
Arguments MkExecution {R} outcome handles stdout stderr usage value_budget.
Arguments outcome {R} e.
Arguments handles {R} e.
Arguments stdout {R} e.
Arguments stderr {R} e.
Arguments usage {R} e.
Arguments value_budget {R} e.

(** ** Overrides ([sandbox/context.rs]) *)

Record Context (R Fs Po : Type) := MkContext {
  overrides : list (list byte * R);
  mounts : list (Mount Fs Po);
}.
Arguments MkContext {R Fs Po} overrides mounts.
Arguments overrides {R Fs Po} c.
Arguments mounts {R Fs Po} c.

(** The closure of an [eval_with]: what it asks of its Context, each answer its
    own to propagate or not. *)
Inductive cprog (R S Fs Po : Type) :=
| CDone (r : result HostError.t unit)
| CBind (path : list byte) (object : R) (k : result HostError.t unit -> cprog R S Fs Po)
| CMount (at_ : list byte) (fs : Fs) (access : Access)
    (k : result HostError.t unit -> cprog R S Fs Po)
| CMountWithPolicy (at_ : list byte) (fs : Fs) (policy : Po)
    (k : result HostError.t unit -> cprog R S Fs Po)
| CGet (k : S -> cprog R S Fs Po)
| CPut (s : S) (k : cprog R S Fs Po).
Arguments CDone {R S Fs Po} r.
Arguments CBind {R S Fs Po} path object k.
Arguments CMount {R S Fs Po} at_ fs access k.
Arguments CMountWithPolicy {R S Fs Po} at_ fs policy k.
Arguments CGet {R S Fs Po} k.
Arguments CPut {R S Fs Po} s k.

Section Context.
Context `{CharTables} {R S Fs Po : Type} (catalog : Catalog R Fs Po).
Abbreviation Cx := (Context R Fs Po).

Definition replace_mount (ctx : Cx) (mount : Mount Fs Po) : result HostError.t unit * Cx :=
  let at_ := at_path mount in
  if negb (is_mounted (grants catalog) at_)
  then (Err (HostError.Argument (lit "cannot override unmounted path " ++ debug_str at_)), ctx)
  else
    (Ok tt,
     MkContext (overrides ctx)
       (filter (fun mounted => negb (str_eq (at_path mounted) at_) = true) (mounts ctx)
        ++ [mount])).

Definition context_mount (ctx : Cx) (mount : result HostError.t (Mount Fs Po))
  : result HostError.t unit * Cx :=
  match mount with
  | Err err => (Err err, ctx)
  | Ok mount => replace_mount ctx mount
  end.

Definition context_bind (ctx : Cx) (path : list byte) (object : R)
  : result HostError.t unit * Cx :=
  match lookup_service catalog path with
  | None =>
    (Err (HostError.Argument (lit "cannot override undeclared path " ++ debug_str path)), ctx)
  | Some _ =>
    (Ok tt,
     MkContext
       (filter (fun bound => negb (str_eq bound.1 path) = true) (overrides ctx)
        ++ [(path, object)]) (mounts ctx))
  end.

Fixpoint run_context (p : cprog R S Fs Po) (ctx : Cx) (s : S) : result HostError.t unit * Cx * S :=
  match p with
  | CDone r => (r, ctx, s)
  | CBind path object k =>
    let '(r, ctx) := context_bind ctx path object in run_context (k r) ctx s
  | CMount at_ fs access k =>
    let '(r, ctx) := context_mount ctx (mount_new at_ fs access) in run_context (k r) ctx s
  | CMountWithPolicy at_ fs policy k =>
    let '(r, ctx) := context_mount ctx
      (let? mount := mount_new at_ fs ReadWrite in Ok (with_policy mount policy)) in
    run_context (k r) ctx s
  | CGet k => run_context (k s) ctx s
  | CPut s k => run_context k ctx s
  end.

Definition collect_overrides (p : cprog R S Fs Po) (s : S) : result HostError.t Cx * S :=
  let '(r, ctx, s) := run_context p (MkContext [] []) s in
  ((let? _ := r in Ok ctx), s).
End Context.

(** ** The Sandbox *)

Record Sandbox (R S Fs Po Pv : Type) := MkSandbox {
  runtime_of : runtime (shared R S) Fs Po;
  registry : Registry R Fs Po;
  extensions : Extensions R Pv;
  budget : option Z;
}.
Arguments MkSandbox {R S Fs Po Pv} runtime_of registry extensions budget.
Arguments runtime_of {R S Fs Po Pv} s.
Arguments registry {R S Fs Po Pv} s.
Arguments extensions {R S Fs Po Pv} s.
Arguments budget {R S Fs Po Pv} s.

(** [Options]: a duration in nanoseconds, a size in bytes. *)
Record Options := MkOptions {
  timeout : option Z;
  setup_timeout : option Z;
  memory_limit : option Z;
  stdout_limit : option Z;
  stderr_limit : option Z;
  open_file_limit : option Z;
  profile_floor : Profile;
}.

Definition SECOND : Z := 1000000000.

Definition options_default : Options :=
  MkOptions (Some (60 * SECOND)) (Some (10 * SECOND)) (Some (Z.shiftl 4 20))
    (Some (Z.shiftl 1 20)) (Some (Z.shiftl 1 20)) (Some 1024) Hermetic.

(** [RunPayload]. *)
Inductive RunPayload (R S : Type) :=
| Ready (bytes : list byte)
| Deferred (build : rprog R S false (result HostError.t (list byte))).
Arguments Ready {R S} bytes.
Arguments Deferred {R S} build.

Section Sandbox.
Context `{CharTables} {R S Fs Po Pv : Type} `{Sentinel R S} `{!Providers R S Pv}.
Abbreviation St := (shared R S).
Abbreviation Box := (Sandbox R S Fs Po Pv).
Abbreviation Reg := (Registry R Fs Po).

Definition payload_encode (payload : RunPayload R S) (h : St)
  : result HostError.t (list byte) * St :=
  match payload with
  | Ready bytes => (Ok bytes, h)
  | Deferred build => run_detached build h
  end.

(** [RunPayload::values]. *)
Definition payload_values `{Rmp} (args : list (RunArg R)) (kwargs : list (list byte * RunArg R))
  : RunPayload R S :=
  Deferred (encode_values args kwargs).

Definition open_mut (r : Reg) : result HostError.t (Catalog R Fs Po) :=
  match r with
  | Open catalog => Ok catalog
  | Sealed _ => Err SEALED
  end.

(** [Registry::seal]: the Catalog every invocation uses, whether the compile
    panicked, and the sealed registry. *)
Definition seal (compile : Preamble.t -> compiled) (wanted : bool) (r : Reg)
  : Catalog R Fs Po * bool * Reg :=
  match r with
  | Open open =>
    let '(catalog, panicked) := if wanted then catalog_compile compile open else (open, false) in
    (catalog, panicked, Sealed catalog)
  | Sealed catalog => (catalog, false, r)
  end.

Definition with_runtime (engine : runtime St Fs Po) (floor : Profile) : result HostError.t Box :=
  let declared := profile engine in
  if profile_lt declared floor then
    Err (HostError.Setup (SetupError.Dead
      (lit "runtime declares the " ++ profile_name declared ++ lit " isolation profile, below the requested "
       ++ profile_name floor ++ lit " floor")))
  else Ok (MkSandbox engine (Open catalog_default) (MkExtensions [] false) None).

Definition VALUE_BYTES : Z := 16.

(** [Sandbox::new], over the engine [Driver::new] loads at a path. *)
Definition sandbox_new (driver : list byte -> Options -> result SetupError.t (runtime St Fs Po))
    (wasm_path : list byte) (options : Options) : result HostError.t Box :=
  let? engine := map_err HostError.Setup (driver wasm_path options) in
  let? sandbox := with_runtime engine (profile_floor options) in
  Ok (MkSandbox (runtime_of sandbox) (registry sandbox) (extensions sandbox)
        (match memory_limit options with Some limit => Some (limit / VALUE_BYTES) | None => None end)).

(** ** Registration *)

Definition set_registry (r : Reg) (s : Box) : Box :=
  MkSandbox (runtime_of s) r (extensions s) (budget s).

(** A registration on the open Catalog. *)
Definition register (f : Catalog R Fs Po -> result HostError.t (Catalog R Fs Po)) (s : Box)
  : result HostError.t unit * Box :=
  match open_mut (registry s) with
  | Err err => (Err err, s)
  | Ok catalog =>
    match f catalog with
    | Err err => (Err err, s)
    | Ok catalog => (Ok tt, set_registry (Open catalog) s)
    end
  end.

Definition bind (path : list byte) (object : R) : Box -> result HostError.t unit * Box :=
  register (fun c => bind_service c path object).

Definition bind_fillable (path : list byte) : Box -> result HostError.t unit * Box :=
  register (fun c => bind_service c path unresolved).

Definition register_mount (mount : Mount Fs Po) (s : Box) : result HostError.t unit * Box :=
  register (fun c =>
    if negb (supports (runtime_of s) KindMount) then
      Err (HostError.Setup (SetupError.Intact
        (lit "this Sandbox's runtime presents no Mount to the guest")))
    else let? grants := grants_mount (grants c) mount in Ok (set_grants c grants)) s.

Definition mount (at_ : list byte) (fs : Fs) (access : Access) (s : Box)
  : result HostError.t unit * Box :=
  match mount_new at_ fs access with
  | Err err => (Err err, s)
  | Ok mount => register_mount mount s
  end.

Definition mount_with_policy (at_ : list byte) (fs : Fs) (policy : Po) (s : Box)
  : result HostError.t unit * Box :=
  match mount_new at_ fs ReadWrite with
  | Err err => (Err err, s)
  | Ok mount => register_mount (with_policy mount policy) s
  end.

(** [Sandbox::install]: the Extension registers on the open Catalog even where
    it is then refused, see [Catalog.install]. *)
Definition sandbox_install (e : Extension R Pv) (s : Box) : result HostError.t unit * Box :=
  match open_mut (registry s) with
  | Err err => (Err err, s)
  | Ok catalog =>
    let '(r, exts, catalog) := install (extensions s) catalog e in
    (r, MkSandbox (runtime_of s) (Open catalog) exts (budget s))
  end.

Definition preload (name source : list byte) : Box -> result HostError.t unit * Box :=
  register (fun c =>
    let? table := register_source (snippets c) name source in Ok (set_snippets c table)).

Definition preload_binary (bytecode : list byte) : Box -> result HostError.t unit * Box :=
  register (fun c => Ok (set_snippets c (register_binary (snippets c) bytecode))).

Definition flag (name value : list byte) : Box -> result HostError.t unit * Box :=
  register (fun c => set_flag c name value true).

Definition flag_advisory (name value : list byte) : Box -> result HostError.t unit * Box :=
  register (fun c => set_flag c name value false).

(** ** The verbs *)

(** A verb's own state: the Sandbox, and the thread the call runs on. *)
Record call_state := MkCall { sandbox : Box; running : thread S }.

(** [begin_invocation], its fresh Handle table being [[]]. *)
Definition begin_invocation (s : Box) : result refusal (Catalog R Fs Po) * Box :=
  let '(dependencies, exts) := assert_dependencies (extensions s) in
  let wanted := match dependencies with Ok _ => true | Err _ => false end in
  let '(catalog, panicked, reg) := seal (compile (runtime_of s)) wanted (registry s) in
  let s := MkSandbox (runtime_of s) reg exts (budget s) in
  if panicked then (Err Unwound, s)
  else
    match dependencies with
    | Err err => (Err (Refused err), s)
    | Ok _ => (Ok catalog, s)
    end.

Definition build_execution (snapshot : Snapshot.t) (verb : list byte) (h : St) : Execution R :=
  let outcome :=
    match Snapshot.completion snapshot with
    | Completion.Outcome outcome => classify outcome verb
    | Completion.Trap trap => Err (HostError.from_trap trap)
    end in
  MkExecution outcome (table h) (Snapshot.stdout snapshot) (Snapshot.stderr snapshot)
    (Snapshot.usage snapshot) (BUDGET (on h)).

Definition verb_of (entry : Entry.t) : list byte :=
  match entry with Entry.Eval _ => lit "eval" | Entry.Run _ _ => lit "run" end.

(** The Services an invocation resolved: the overrides, then what this run's
    providers answered. *)
Definition resolve (s : Box) (ctx : Context R Fs Po) (h : St) : list (list byte * R) * St :=
  let '(provided, own) := resolve_extensions (extensions s) (own (on h)) in
  (overrides ctx ++ provided, set_own own h).

(** What [invoke] runs under the value budget. *)
Definition run_guest_in (s : Box) (catalog : Catalog R Fs Po) (entry : Entry.t)
    (ctx : Context R Fs Po) (resolved : list (list byte * R)) (h : St)
  : result refusal (Execution R) * St :=
  let '(r, h) := invoke_guest (runtime_of s) entry (catalog_preamble catalog)
    (Some (catalog_handler (MkHandler catalog resolved)))
    (for_invocation (grants catalog) (mounts ctx)) h in
  match r with
  | Err err => (Err (Refused (HostError.from_invoke err)), h)
  | Ok snapshot => (Ok (build_execution snapshot (verb_of entry) h), h)
  end.

Definition invoke (s : Box) (catalog : Catalog R Fs Po) (entry : Entry.t)
    (ctx : Context R Fs Po) (h : St) : result refusal (Execution R) * St :=
  let '(resolved, h) := resolve s ctx h in
  within (budget s) (run_guest_in s catalog entry ctx resolved) h.

(** The part the verbs share: begin, collect the overrides, finish the entry
    against the fresh table, invoke. *)
Definition start (entry_of : St -> result HostError.t Entry.t * St) (p : cprog R S Fs Po)
    (c : call_state) : result refusal (Execution R) * call_state :=
  match begin_invocation (sandbox c) with
  | (Err e, s) => (Err e, MkCall s (running c))
  | (Ok catalog, s) =>
    let '(ctx, own) := collect_overrides catalog p (own (running c)) in
    let th := Thread own (BUDGET (running c)) in
    match ctx with
    | Err err => (Err (Refused err), MkCall s th)
    | Ok ctx =>
      match entry_of (Shared [] th) with
      | (Err err, h) => (Err (Refused err), MkCall s (on h))
      | (Ok entry, h) =>
        let '(r, h) := invoke s catalog entry ctx h in (r, MkCall s (on h))
      end
    end
  end.

Definition eval_with (source : list byte) (p : cprog R S Fs Po) (c : call_state)
  : result refusal (Execution R) * call_state :=
  start (fun h => (Ok (Entry.Eval source), h)) p c.

Definition eval (source : list byte) (c : call_state)
  : result refusal (Execution R) * call_state :=
  eval_with source (CDone (Ok tt)) c.

Definition run_entry (target : list byte) (payload : RunPayload R S) (h : St)
  : result HostError.t Entry.t * St :=
  let '(bytes, h) := payload_encode payload h in
  ((let? bytes := bytes in Ok (Entry.Run target bytes)), h).

Definition run_with (target : list byte) (payload : RunPayload R S) (p : cprog R S Fs Po)
    (c : call_state) : result refusal (Execution R) * call_state :=
  if negb (is_constant_name target) then
    (Err (Refused (HostError.Argument
       (lit "entrypoint must be a Ruby constant name (got " ++ debug_str target ++ lit ")"))), c)
  else start (run_entry target payload) p c.

Definition run (target : list byte) (payload : RunPayload R S) (c : call_state)
  : result refusal (Execution R) * call_state :=
  run_with target payload (CDone (Ok tt)) c.

(** ** Reading an Execution ([execution.rs], [msgpack/execution.rs]) *)

Definition execution_resolve (e : Execution R) (id : Z) : option R :=
  HandleTable.get (handles e) id.

Definition execution_value `{Rmp} (e : Execution R) : result HostError.t Value :=
  let? body := outcome e in
  let? value := decode_value body (value_budget e) in
  let? _ := require_live_handles (handles e) value in
  Ok value.
End Sandbox.
Arguments call_state R S Fs Po Pv : clear implicits.
Arguments MkCall {R S Fs Po Pv} sandbox running.
Arguments sandbox {R S Fs Po Pv} c.
Arguments running {R S Fs Po Pv} c.

(** ** A well-formed Catalog *)

Definition snippet_name (s : Snippet.t) : option (list byte) :=
  match s with Snippet.Source name _ => Some name | Snippet.Bytecode _ => None end.

Definition names_of (table : list Snippet.t) : list (list byte) := omap snippet_name table.

Record wf_catalog {R Fs Po} (c : Catalog R Fs Po) : Prop := {
  wf_paths : Forall (fun b => is_constant_path b.1 = true /\ is_reserved b.1 = false) (bindings c);
  wf_disjoint : ForallOrdPairs (fun a b => disjoint_paths a.1 b.1) (bindings c);
  wf_names : Forall (fun n => is_constant_name n = true) (names_of (snippets c));
  wf_unique : NoDup (names_of (snippets c));
  wf_flags : NoDup (map Flag.name (flags c));
  wf_mounts : NoDup (omap to_mount_path (grants c));
}.

Lemma ord_pairs_snoc {A} (P : A -> A -> Prop) l x :
  ForallOrdPairs P l -> Forall (fun a => P a x) l -> ForallOrdPairs P (l ++ [x]).
Proof.
  induction 1 as [|a l Ha _ IH]; intros Hx; cbn [app]; [repeat constructor|].
  apply Forall_cons_iff in Hx as [H1 H2]. constructor; [|by apply IH].
  apply Forall_app. split; [done | by repeat constructor].
Qed.

Lemma nodup_snoc {A} (l : list A) x : NoDup l -> x ∉ l -> NoDup (l ++ [x]).
Proof.
  intros Hl Hx. apply list.NoDup_app. split; [done|]. split; [|apply NoDup_singleton].
  intros y Hy ->%list_elem_of_singleton. done.
Qed.

Lemma existsb_false {A} (f : A -> bool) l : existsb f l = false <-> Forall (fun x => (f x = false)) l.
Proof.
  induction l as [|a l IH]; simpl; [split; [constructor | done]|].
  by rewrite orb_false_iff, Forall_cons_iff, IH.
Qed.

Lemma not_elem_map {A B} (f : A -> B) l y : Forall (fun x => f x <> y) l -> y ∉ map f l.
Proof. intros Hf (x & -> & Hx)%list_elem_of_fmap. rewrite list.Forall_forall in Hf. by eapply Hf. Qed.

Lemma not_elem_omap {A B} (f : A -> option B) l y : Forall (fun x => f x <> Some y) l -> y ∉ omap f l.
Proof. intros Hf (x & Hx & E)%list_elem_of_omap. rewrite list.Forall_forall in Hf. by eapply Hf. Qed.

Lemma str_eq_false a b : str_eq a b = false <-> a <> b.
Proof. rewrite <- not_true_iff_false, str_eq_true. done. Qed.

Section Registrations.
Context `{CharTables} {R Fs Po : Type}.
Abbreviation Cat := (Catalog R Fs Po).

Lemma wf_default : wf_catalog (catalog_default : Cat).
Proof. split; cbn; constructor. Qed.

(** A bind succeeds exactly on a constant path outside the reserved namespace
    that neither holds nor lies inside a bound one. *)
Lemma bind_service_iff (c c' : Cat) path object :
  wf_catalog c ->
  bind_service c path object = Ok c' <->
  is_constant_path path = true /\ is_reserved path = false
  /\ Forall (fun b => disjoint_paths b.1 path) (bindings c)
  /\ c' = MkCatalog (bindings c ++ [(path, object)]) (snippets c) (flags c) (grants c).
Proof.
  intros Hwf. unfold bind_service.
  destruct (is_constant_path path) eqn:Ep; cbn [negb]; [|by split; [|intros (? & _)]].
  destruct (is_reserved path); [by split; [|intros (_ & ? & _)]|].
  rewrite <- collides_false; [|eapply Forall_impl; [|exact (wf_paths c Hwf)]; by intros b [??]|done].
  destruct (collides c path); (split; [|intros (_ & _ & ? & ->); done]);
    [done | by intros [= <-]].
Qed.

Lemma bind_service_wf (c c' : Cat) path object :
  wf_catalog c -> bind_service c path object = Ok c' -> wf_catalog c'.
Proof.
  intros Hwf Hb. pose proof Hwf as [W1 W2 W3 W4 W5 W6].
  apply bind_service_iff in Hb as (Hp & Hr & Hd & ->); [|done].
  split; cbn [bindings snippets flags grants]; try done.
  - apply Forall_app. split; [done | by repeat constructor].
  - by apply ord_pairs_snoc.
Qed.

Lemma register_source_ok table name body table' :
  register_source table name body = Ok table' <->
  is_constant_name name = true /\ (name ∉ names_of table)
  /\ table' = table ++ [Snippet.Source name body].
Proof.
  unfold register_source. destruct (is_constant_name name); cbn [negb];
    [|by split; [|intros (? & _)]].
  assert (existsb (is_named name) table = false <-> name ∉ names_of table) as E.
  { rewrite existsb_false. unfold names_of. split.
    - intros Hf. apply not_elem_omap. eapply Forall_impl; [|exact Hf].
      intros [n b|b] Hn; cbn [is_named snippet_name] in *; [|done].
      apply str_eq_false in Hn. by intros [= ->].
    - intros Hn. apply list.Forall_forall. intros [n b|b] Hx; [|done]. apply str_eq_false.
      intros ->. apply Hn. apply list_elem_of_omap. by exists (Snippet.Source name b). }
  destruct (existsb _ _); split.
  - done.
  - by intros (_ & ?%E & _).
  - intros [= <-]. split; [done|]. split; [by apply E | done].
  - by intros (_ & _ & ->).
Qed.

Lemma set_snippets_wf (c : Cat) table :
  wf_catalog c -> Forall (fun n => is_constant_name n = true) (names_of table) ->
  NoDup (names_of table) -> wf_catalog (set_snippets c table).
Proof. intros [? ? ? ? ? ?] ? ?. by split. Qed.

Lemma register_source_wf (c : Cat) name body table :
  wf_catalog c -> register_source (snippets c) name body = Ok table ->
  wf_catalog (set_snippets c table).
Proof.
  intros Hwf (Hn & Hf & ->)%register_source_ok. pose proof Hwf as [W1 W2 W3 W4 W5 W6].
  unfold names_of in *. apply set_snippets_wf; unfold names_of; [done|..]; rewrite omap_app.
  - apply Forall_app. split; [done | by repeat constructor].
  - by apply nodup_snoc.
Qed.

Lemma register_binary_wf (c : Cat) body :
  wf_catalog c -> wf_catalog (set_snippets c (register_binary (snippets c) body)).
Proof.
  intros Hwf. pose proof Hwf as [W1 W2 W3 W4 W5 W6].
  apply set_snippets_wf; [done|..]; unfold names_of, register_binary in *;
    rewrite omap_app; cbn; by rewrite app_nil_r.
Qed.

Lemma set_flag_wf (c c' : Cat) name value critical :
  wf_catalog c -> set_flag c name value critical = Ok c' -> wf_catalog c'.
Proof.
  intros [? ? ? ? ? ?]. unfold set_flag. destruct (existsb _ _) eqn:E; [done|]. intros [= <-].
  split; cbn [bindings snippets flags grants]; try done. rewrite map_app.
  apply nodup_snoc; [done|]. apply not_elem_map. apply existsb_false in E.
  eapply Forall_impl; [|exact E]. intros f ?%str_eq_false. done.
Qed.

Lemma grants_mount_wf (c : Cat) mount g :
  wf_catalog c -> grants_mount (grants c) mount = Ok g -> wf_catalog (set_grants c g).
Proof.
  intros [? ? ? ? ? ?]. unfold grants_mount, is_mounted. destruct (existsb _ _) eqn:E; [done|].
  intros [= <-]. split; cbn [bindings snippets flags grants set_grants]; try done.
  rewrite omap_app. apply nodup_snoc; [done|]. apply not_elem_omap. apply existsb_false in E.
  eapply Forall_impl; [|exact E]. intros [m]; cbn [to_mount_path].
  intros ?%str_eq_false. by intros [= ?].
Qed.

(** What a compile leaves: fewer names, in their order. *)
Lemma replay_names table bytecodes :
  suffix (names_of (replay_entries table bytecodes)) (names_of table).
Proof.
  revert bytecodes. induction table as [|[name body|body] table IH]; intros [|b bytecodes];
    unfold names_of in *; cbn [replay_entries Snippet.is_source omap list_omap snippet_name];
    try done; try apply IH.
  by apply suffix_cons_r.
Qed.

Lemma compile_wf comp (c : Cat) : wf_catalog c -> wf_catalog (catalog_compile comp c).1.
Proof.
  intros Hwf. pose proof Hwf as [W1 W2 W3 W4 W5 W6]. unfold catalog_compile.
  destruct (compile_snippets _ _ _) as [table panicked] eqn:E.
  assert (suffix (names_of table) (names_of (snippets c))) as [pre Hs].
  { unfold compile_snippets in E. destruct (negb _); [by injection E as <- _|].
    destruct (comp _) as [[b|]|]; injection E as <- _; try done. apply replay_names. }
  cbn [fst]. rewrite Hs in W3, W4. apply Forall_app in W3 as [_ ?].
  apply list.NoDup_app in W4 as (_ & _ & ?). by apply set_snippets_wf.
Qed.
End Registrations.

(** ** Operations of a Sandbox *)

Inductive op (R S Fs Po Pv : Type) :=
| OpBind (path : list byte) (object : R)
| OpBindFillable (path : list byte)
| OpMount (at_ : list byte) (fs : Fs) (access : Access)
| OpMountWithPolicy (at_ : list byte) (fs : Fs) (policy : Po)
| OpInstall (extension : Extension R Pv)
| OpPreload (name source : list byte)
| OpPreloadBinary (bytecode : list byte)
| OpFlag (name value : list byte) (critical : bool)
| OpEval (source : list byte) (overrides : cprog R S Fs Po)
| OpRun (target : list byte) (payload : RunPayload R S) (overrides : cprog R S Fs Po).
Arguments OpBind {R S Fs Po Pv} path object.
Arguments OpBindFillable {R S Fs Po Pv} path.
Arguments OpMount {R S Fs Po Pv} at_ fs access.
Arguments OpMountWithPolicy {R S Fs Po Pv} at_ fs policy.
Arguments OpInstall {R S Fs Po Pv} extension.
Arguments OpPreload {R S Fs Po Pv} name source.
Arguments OpPreloadBinary {R S Fs Po Pv} bytecode.
Arguments OpFlag {R S Fs Po Pv} name value critical.
Arguments OpEval {R S Fs Po Pv} source overrides.
Arguments OpRun {R S Fs Po Pv} target payload overrides.

Section Operations.
Context `{CharTables} {R S Fs Po Pv : Type} `{Sentinel R S} `{!Providers R S Pv}.
Abbreviation Box := (Sandbox R S Fs Po Pv).
Abbreviation Cat := (Catalog R Fs Po).
Abbreviation Cs := (call_state R S Fs Po Pv).

(** The registrations, as against the verbs. *)
Definition registration (o : op R S Fs Po Pv) : option (Box -> result HostError.t unit * Box) :=
  match o with
  | OpBind path object => Some (bind path object)
  | OpBindFillable path => Some (bind_fillable path)
  | OpMount at_ fs access => Some (mount at_ fs access)
  | OpMountWithPolicy at_ fs policy => Some (mount_with_policy at_ fs policy)
  | OpInstall extension => Some (sandbox_install extension)
  | OpPreload name source => Some (preload name source)
  | OpPreloadBinary bytecode => Some (preload_binary bytecode)
  | OpFlag name value true => Some (flag name value)
  | OpFlag name value false => Some (flag_advisory name value)
  | OpEval _ _ | OpRun _ _ _ => None
  end.

(** An operation's effect, its answer left aside. *)
Definition perform (o : op R S Fs Po Pv) (c : Cs) : Cs :=
  match o with
  | OpEval source p => snd (eval_with source p c)
  | OpRun target payload p => snd (run_with target payload p c)
  | _ => match registration o with
         | Some f => MkCall (snd (f (sandbox c))) (running c)
         | None => c
         end
  end.

Definition perform_all (os : list (op R S Fs Po Pv)) (c : Cs) : Cs :=
  fold_left (fun c o => perform o c) os c.

Definition catalog_of (s : Box) : Cat :=
  match registry s with Open catalog | Sealed catalog => catalog end.

(** *** Registrations keep the Catalog well formed *)

Lemma register_inv f (s s' : Box) r :
  register f s = (r, s') ->
  (s' = s /\ exists err, r = Err err)
  \/ exists c c', registry s = Open c /\ f c = Ok c' /\ r = Ok tt /\ s' = set_registry (Open c') s.
Proof.
  unfold register, open_mut. destruct (registry s) as [c|c] eqn:E.
  - destruct (f c) as [c'|err] eqn:Ef; intros [= <- <-]; [right | left]; eauto 8.
  - intros [= <- <-]. left. eauto.
Qed.

Lemma register_wf f (s : Box) :
  (forall c c' : Cat, wf_catalog c -> f c = Ok c' -> wf_catalog c') ->
  wf_catalog (catalog_of s) -> wf_catalog (catalog_of (snd (register f s))).
Proof.
  intros Hf Hwf. destruct (register f s) as [r s'] eqn:E.
  apply register_inv in E as [[-> _]|(c & c' & Er & Ef & _ & ->)]; [done|].
  cbn. unfold catalog_of in Hwf. rewrite Er in Hwf. by eapply Hf.
Qed.

Lemma install_wf (exts : Extensions R Pv) (c : Cat) e r exts' c' :
  wf_catalog c -> install exts c e = (r, exts', c') -> wf_catalog c'.
Proof.
  intros Hwf. unfold install. destruct (register_source _ _ _) as [table|] eqn:Es;
    [|by intros [= <- <- <-]].
  pose proof (register_source_wf _ _ _ _ Hwf Es) as Hwf1.
  destruct (backend e) as [b|]; [|by intros [= <- <- <-]].
  destruct (bind_service _ _ _) as [c1|] eqn:Eb; intros [= <- <- <-]; [|done].
  by eapply bind_service_wf.
Qed.

Lemma mount_wf (m : Mount Fs Po) (s : Box) :
  wf_catalog (catalog_of s) -> wf_catalog (catalog_of (snd (register_mount m s))).
Proof.
  apply register_wf. intros c c' Hwf. destruct (negb _); [done|].
  intros (g & Hg & [= <-])%rbind_ok. by eapply grants_mount_wf.
Qed.

Lemma registration_wf o f (s : Box) :
  registration o = Some f -> wf_catalog (catalog_of s) -> wf_catalog (catalog_of (snd (f s))).
Proof.
  intros Ho Hwf. destruct o as [| | | | | | |? ? []| |]; try discriminate Ho; injection Ho as <-;
    try (apply register_wf; [|done]; intros c c' Hc Hf).
  - by eapply bind_service_wf.
  - by eapply bind_service_wf.
  - unfold mount. destruct (mount_new at_ fs access); [by apply mount_wf | done].
  - unfold mount_with_policy. destruct (mount_new at_ fs ReadWrite); [by apply mount_wf | done].
  - unfold sandbox_install, catalog_of, open_mut in *. destruct (registry s) as [c|] eqn:E; [|by cbn; rewrite E].
    destruct (install _ _ _) as [[r exts] c'] eqn:Ei. by eapply install_wf.
  - apply rbind_ok in Hf as (table & Hf & [= <-]). by eapply register_source_wf.
  - injection Hf as <-. by apply register_binary_wf.
  - by eapply set_flag_wf.
  - by eapply set_flag_wf.
Qed.

(** *** The life of the registry *)

Lemma begin_invocation_inv (s : Box) r s' :
  begin_invocation s = (r, s') ->
  runtime_of s' = runtime_of s /\ budget s' = budget s
  /\ registry s' = Sealed (catalog_of s')
  /\ (registry s = Sealed (catalog_of s) -> catalog_of s' = catalog_of s /\ r <> Err Unwound)
  /\ entries (extensions s') = entries (extensions s)
  /\ (wf_catalog (catalog_of s) -> wf_catalog (catalog_of s'))
  /\ forall c, r = Ok c -> c = catalog_of s'.
Proof.
  unfold begin_invocation. destruct (assert_dependencies (extensions s)) as [deps exts] eqn:Ea.
  assert (entries exts = entries (extensions s)) as He.
  { unfold assert_dependencies in Ea. destruct (asserted _); [by injection Ea as _ <-|].
    destruct (try_for_each _ _); by injection Ea as _ <-. }
  destruct (seal _ _ (registry s)) as [[c panicked] reg] eqn:Es.
  assert (reg = Sealed c /\ (registry s = Sealed (catalog_of s) -> c = catalog_of s /\ panicked = false)
          /\ (wf_catalog (catalog_of s) -> wf_catalog c)) as (-> & Hk & Hw).
  { unfold seal in Es. unfold catalog_of. destruct (registry s) as [o|o]; [|by injection Es as <- <- <-].
    destruct deps; [|by injection Es as <- <- <-].
    destruct (catalog_compile _ _) as [c' p] eqn:Ec. injection Es as <- <- <-.
    split; [done|]. split; [done|]. intros Hwf. apply (compile_wf (compile (runtime_of s))) in Hwf.
    by rewrite Ec in Hwf. }
  intros Hr. assert (s' = MkSandbox (runtime_of s) (Sealed c) exts (budget s)) as ->.
  { destruct panicked; [|destruct deps]; by injection Hr as _ <-. }
  unfold catalog_of. cbn. do 3 (split; [done|]).
  split; [|split; [done|split; [done|]]].
  - intros Hreg. apply Hk in Hreg as [-> ->]. split; [done|]. by destruct deps; injection Hr as <-.
  - intros c' ->. destruct panicked; [done|]. destruct deps; [by injection Hr as <- | done].
Qed.

(** A verb's Sandbox is the one it began with. *)
Lemma start_sandbox entry_of p (c : Cs) :
  sandbox (snd (start entry_of p c)) = snd (begin_invocation (sandbox c)).
Proof.
  unfold start. destruct (begin_invocation (sandbox c)) as [[catalog|e] s]; [|done].
  destruct (collect_overrides _ _ _) as [[ctx|err] own]; [|done].
  destruct (entry_of _) as [[entry|err] h]; [|done].
  by destruct (invoke _ _ _ _ _) as [r h'].
Qed.

(** The Sandbox after an operation: a registration's, or a verb's begun. *)
Lemma perform_inv o (c : Cs) :
  sandbox (perform o c) = sandbox c
  \/ sandbox (perform o c) = snd (begin_invocation (sandbox c))
  \/ exists f, registration o = Some f /\ sandbox (perform o c) = snd (f (sandbox c)).
Proof.
  destruct o as [| | | | | | |? ? []|source p|target payload p]; try (by right; right; eexists).
  - right. left. apply start_sandbox.
  - cbn [perform]. unfold run_with. destruct (negb _); [by left|]. right. left. apply start_sandbox.
Qed.

Lemma perform_wf o (c : Cs) :
  wf_catalog (catalog_of (sandbox c)) -> wf_catalog (catalog_of (sandbox (perform o c))).
Proof.
  intros Hwf. destruct (perform_inv o c) as [->|[->|(f & Hf & ->)]]; [done| |by eapply registration_wf].
  destruct (begin_invocation (sandbox c)) as [r s'] eqn:E.
  apply begin_invocation_inv in E as (_ & _ & _ & _ & _ & Hw & _). by apply Hw.
Qed.

(** A sealed Sandbox refuses every registration, unchanged. *)
Lemma registration_sealed o f (s : Box) :
  registry s = Sealed (catalog_of s) -> registration o = Some f ->
  exists err, f s = (Err err, s)
    /\ (err = SEALED \/ exists at_, err = HostError.Argument (mount_path_error at_)).
Proof.
  intros Hs Ho.
  assert (forall g, register g s = (Err SEALED, s)) as Hr.
  { intros g. unfold register. by rewrite Hs. }
  destruct o as [| | | | | | |? ? []| |]; try discriminate Ho; injection Ho as <-;
    try (eexists; split; [apply Hr | by left]).
  - unfold mount, mount_new. destruct (negb _); [by eauto 6|].
    eexists; split; [apply Hr | by left].
  - unfold mount_with_policy, mount_new. destruct (negb _); [by eauto 6|].
    eexists; split; [apply Hr | by left].
  - unfold sandbox_install. rewrite Hs. cbn. eauto.
Qed.

Lemma perform_sealed o (c : Cs) :
  registry (sandbox c) = Sealed (catalog_of (sandbox c)) ->
  registry (sandbox (perform o c)) = registry (sandbox c)
  /\ entries (extensions (sandbox (perform o c))) = entries (extensions (sandbox c)).
Proof.
  intros Hs. destruct (perform_inv o c) as [->|[->|(f & Hf & ->)]]; [done|..].
  - destruct (begin_invocation (sandbox c)) as [r s'] eqn:E.
    apply begin_invocation_inv in E as (_ & _ & Hreg & Hk & He & _ & _). cbn [snd].
    apply Hk in Hs as Hc. destruct Hc as [Hc _]. split; [congruence | done].
  - destruct (registration_sealed _ _ _ Hs Hf) as (err & -> & _). done.
Qed.
End Operations.

(** ** Dependencies *)

Section Dependencies.
Context `{CharTables} {R S Fs Po Pv : Type} `{Sentinel R S} `{!Providers R S Pv}.
Abbreviation Cs := (call_state R S Fs Po Pv).

(** Some Extension names one that was not installed, and no invocation has
    found every dependency met before. *)
Definition unmet_dependency (exts : Extensions R Pv) : Prop :=
  asserted exts = false
  /\ exists e d, e ∈ entries exts /\ d ∈ depends_on e /\ (d ∉ map ext_name (entries exts)).

Lemma unmet_ok (names : list (list byte)) (e : Extension R Pv) :
  unmet names e = Ok tt <-> Forall (fun d => d ∈ names) (depends_on e).
Proof.
  unfold unmet. rewrite try_for_each_ok. apply list.Forall_iff. intros d.
  assert (existsb (str_eq d) names = true <-> d ∈ names) as E.
  { rewrite <- not_false_iff_true, existsb_false, list.Forall_forall. split.
    - intros Hn. destruct (decide (d ∈ names)) as [|Hd]; [done|]. exfalso. apply Hn.
      intros x Hx. apply str_eq_false. by intros ->.
    - intros Hd Hn. specialize (Hn d Hd). by rewrite str_eq_refl in Hn. }
  destruct (existsb _ _); split; try done; [intros _; by apply E | intros Hd%E; done].
Qed.

Lemma assert_dependencies_unmet exts :
  unmet_dependency exts ->
  exists msg, assert_dependencies exts = (Err (HostError.Argument msg), exts).
Proof.
  intros (Ha & e & d & He & Hd & Hn). unfold assert_dependencies. rewrite Ha.
  destruct (try_for_each (unmet (map ext_name (entries exts))) (entries exts)) as [[]|err] eqn:E.
  - apply try_for_each_ok in E. rewrite list.Forall_forall in E. apply E in He.
    apply unmet_ok in He. rewrite list.Forall_forall in He. by apply He in Hd.
  - revert E. generalize (map ext_name (entries exts)) as names. intros names E.
    enough (exists msg, err = HostError.Argument msg) as [msg ->] by eauto.
    clear -E. induction (entries exts) as [|e l IH]; [done|]. cbn [try_for_each] in E.
    destruct (unmet names e) as [u|err'] eqn:Eu; cbn [rbind] in E; [by apply IH|].
    injection E as ->. unfold unmet in Eu. clear IH.
    induction (depends_on e) as [|d ds IH]; [done|]. cbn [try_for_each] in Eu.
    destruct (existsb _ _); cbn [rbind] in Eu; [by apply IH | injection Eu as <-; eauto].
Qed.

Lemma begin_invocation_unmet (s : Sandbox R S Fs Po Pv) msg :
  assert_dependencies (extensions s) = (Err (HostError.Argument msg), extensions s) ->
  begin_invocation s
  = (Err (Refused (HostError.Argument msg)), set_registry (Sealed (catalog_of s)) s).
Proof.
  intros Ha. unfold begin_invocation. rewrite Ha. unfold seal, catalog_of.
  by destruct (registry s) eqn:E.
Qed.

(** Every operation of a sealed Sandbox keeps an unmet dependency unmet. *)
Lemma perform_unmet o (c : Cs) msg :
  registry (sandbox c) = Sealed (catalog_of (sandbox c)) ->
  assert_dependencies (extensions (sandbox c))
  = (Err (HostError.Argument msg), extensions (sandbox c)) ->
  sandbox (perform o c) = sandbox c.
Proof.
  intros Hs Ha. destruct (perform_inv o c) as [->|[->|(f & Hf & ->)]]; [done|..].
  - rewrite (begin_invocation_unmet _ _ Ha). cbn [snd]. unfold set_registry. rewrite <- Hs.
    by destruct (sandbox c).
  - by destruct (registration_sealed _ _ _ Hs Hf) as (err & -> & _).
Qed.

Lemma start_unmet entry_of p (c : Cs) msg :
  assert_dependencies (extensions (sandbox c))
  = (Err (HostError.Argument msg), extensions (sandbox c)) ->
  start entry_of p c
  = (Err (Refused (HostError.Argument msg)),
     MkCall (set_registry (Sealed (catalog_of (sandbox c))) (sandbox c)) (running c)).
Proof. intros Ha. unfold start. by rewrite (begin_invocation_unmet _ _ Ha). Qed.
End Dependencies.
