(* ===== verification/OverrideFacts.v ===== *)
(** What one invocation resolves: the overrides its closure chose, the objects
    its providers answered, and the paths a Sandbox declares. *)
From S2P Require Import Prelude Text Wire Messages PreambleMsg Runtime Endpoint HostError Receivers Catalog Dispatch Overlay Sandbox.

(** ** Finding by name *)

Lemma find_path_app {R} (l k : list (list byte * R)) path :
  find_path (l ++ k) path
  = match find_path l path with Some o => Some o | None => find_path k path end.
Proof.
  unfold find_path. induction l as [|[q o] l IH]; [done|]. cbn [app find fst].
  by destruct (str_eq q path).
Qed.

Lemma find_path_in {R} (l : list (list byte * R)) path o :
  find_path l path = Some o -> path ∈ map fst l.
Proof.
  unfold find_path. induction l as [|[q r] l IH]; [done|]. cbn [find fst map].
  destruct (str_eq q path) eqn:E; [|intros; apply elem_of_cons; by auto].
  apply str_eq_true in E as ->. intros _. apply elem_of_cons; by auto.
Qed.

Lemma find_path_some {R} (l : list (list byte * R)) path :
  path ∈ map fst l -> exists o, find_path l path = Some o.
Proof.
  unfold find_path. induction l as [|[q r] l IH]; [by intros ?%elem_of_nil|]. cbn [find fst map].
  destruct (str_eq q path) eqn:E; [by eexists|]. apply str_eq_false in E.
  intros [->|?]%elem_of_cons; [done | by apply IH].
Qed.

(** A [retain] of the others, then a [push]. *)
Lemma find_replace {A} (key : A -> list byte) (l : list A) a path :
  find (fun x => str_eq (key x) path) (filter (fun x => negb (str_eq (key x) (key a)) = true) l ++ [a])
  = if str_eq (key a) path then Some a else find (fun x => str_eq (key x) path) l.
Proof.
  induction l as [|x l IH]; [done|]. rewrite filter_cons.
  destruct (str_eq (key x) (key a)) eqn:E; cbn [negb]; (case_decide as Hd; [|]); try done.
  - cbn [find]. rewrite IH. apply str_eq_true in E as ->. by destruct (str_eq (key a) path).
  - cbn [find app]. rewrite IH. destruct (str_eq (key x) path) eqn:Ex; [|done].
    apply str_eq_true in Ex as <-. destruct (str_eq (key a) (key x)) eqn:E'; [|done].
    apply str_eq_true in E' as E'. rewrite E', str_eq_refl in E. done.
Qed.

Lemma find_path_replace {R} (l : list (list byte * R)) q o path :
  find_path (filter (fun b => negb (str_eq b.1 q) = true) l ++ [(q, o)]) path
  = if str_eq q path then Some o else find_path l path.
Proof.
  unfold find_path. pose proof (find_replace fst l (q, o) path) as E. cbn [fst] in E.
  rewrite E. by destruct (str_eq q path).
Qed.

(** ** What a closure chooses *)

Section Chosen.
Context `{CharTables} {R S Fs Po : Type} (catalog : Catalog R Fs Po).

(** What is chosen at each path: the last object bound at a declared path, the
    last Mount put at a mounted one. *)
Record choices := Choices {
  service_at : list byte -> option R;
  mount_at : list byte -> option (Mount Fs Po);
}.

Definition nothing : choices := Choices (fun _ => None) (fun _ => None).

Definition put {A} (path : list byte) (a : A) (f : list byte -> option A) (q : list byte)
  : option A :=
  if str_eq path q then Some a else f q.

Definition put_mount (m : result HostError.t (Mount Fs Po)) (ok : result HostError.t unit)
    (c : choices) : choices :=
  match m, ok with
  | Ok mount, Ok _ => Choices (service_at c) (put (at_path mount) mount (mount_at c))
  | _, _ => c
  end.

(** What a closure chooses, read off its requests in order. *)
Fixpoint chosen (p : cprog R S Fs Po) (s : S) (c : choices) : choices :=
  match p with
  | CDone _ => c
  | CBind q object k =>
    let r := fst (context_bind catalog (MkContext [] []) q object) in
    chosen (k r) s
      (match r with Ok _ => Choices (put q object (service_at c)) (mount_at c) | Err _ => c end)
  | CMount at_ fs access k =>
    let m := mount_new at_ fs access in
    let r := fst (context_mount catalog (MkContext [] []) m) in
    chosen (k r) s (put_mount m r c)
  | CMountWithPolicy at_ fs policy k =>
    let m := let? mount := mount_new at_ fs ReadWrite in Ok (with_policy mount policy) in
    let r := fst (context_mount catalog (MkContext [] []) m) in
    chosen (k r) s (put_mount m r c)
  | CGet k => chosen (k s) s c
  | CPut s k => chosen k s c
  end.

Lemma context_bind_inv ctx q object r ctx' :
  context_bind catalog ctx q object = (r, ctx') ->
  r = fst (context_bind catalog (MkContext [] []) q object)
  /\ mounts ctx' = mounts ctx
  /\ ((exists err, r = Err err /\ ctx' = ctx)
      \/ r = Ok tt /\ q ∈ map fst (bindings catalog)
         /\ overrides ctx'
            = filter (fun b => negb (str_eq b.1 q) = true) (overrides ctx) ++ [(q, object)]).
Proof.
  unfold context_bind, lookup_service. destruct (find_path (bindings catalog) q) eqn:E.
  - intros [= <- <-]. do 2 (split; [done|]). right. apply find_path_in in E. done.
  - intros [= <- <-]. do 2 (split; [done|]). left. eauto.
Qed.

Lemma context_mount_inv (ctx : Context R Fs Po) m r ctx' :
  context_mount catalog ctx m = (r, ctx') ->
  r = fst (context_mount catalog (MkContext [] []) m)
  /\ overrides ctx' = overrides ctx
  /\ ((exists err, r = Err err /\ ctx' = ctx)
      \/ exists mount, m = Ok mount /\ r = Ok tt
         /\ is_mounted (grants catalog) (at_path mount) = true
         /\ mounts ctx'
            = filter (fun x => negb (str_eq (at_path x) (at_path mount)) = true) (mounts ctx)
              ++ [mount]).
Proof.
  unfold context_mount, replace_mount. destruct m as [mount|err].
  - destruct (is_mounted (grants catalog) (at_path mount)) eqn:E; cbn [negb]; intros [= <- <-];
      do 2 (split; [done|]); [right | left]; eauto 8.
  - intros [= <- <-]. do 2 (split; [done|]). left. eauto.
Qed.

(** [ctx] holds exactly what [c] chose. *)
Definition holds_choices (ctx : Context R Fs Po) (c : choices) : Prop :=
  forall path, find_path (overrides ctx) path = service_at c path
    /\ find (fun m => str_eq (at_path m) path) (mounts ctx) = mount_at c path.

Lemma context_mount_chosen (ctx : Context R Fs Po) m r ctx' c :
  holds_choices ctx c -> context_mount catalog ctx m = (r, ctx') ->
  holds_choices ctx' (put_mount m r c).
Proof.
  intros Hc E. apply context_mount_inv in E as (_ & Eo & [(err & -> & ->)|(mt & -> & -> & _ & Em)]);
    intros path; destruct (Hc path) as [H1 H2].
  - unfold put_mount. by destruct m.
  - cbn [put_mount service_at mount_at]. rewrite Eo, Em, find_replace, H2. done.
Qed.

Lemma run_context_chosen (p : cprog R S Fs Po) ctx s r ctx' s' c :
  holds_choices ctx c -> run_context catalog p ctx s = (r, ctx', s') ->
  holds_choices ctx' (chosen p s c).
Proof.
  revert ctx s c. induction p as [r0|q o k IH|at_ fs access k IH|at_ fs policy k IH|k IH|s0 k IH];
    intros ctx s c Hc; cbn [run_context chosen]; try by apply IH.
  - by intros [= _ <- _].
  - destruct (context_bind catalog ctx q o) as [r1 ctx1] eqn:E.
    apply context_bind_inv in E as (<- & Em & [(err & -> & ->)|(-> & _ & Eo)]); apply IH; [done|].
    intros path. destruct (Hc path) as [H1 H2]. cbn [service_at mount_at].
    by rewrite Eo, Em, find_path_replace, H1.
  - destruct (context_mount catalog ctx _) as [r1 ctx1] eqn:E.
    pose proof (context_mount_chosen _ _ _ _ _ Hc E) as Hc1.
    apply context_mount_inv in E as (<- & _). by apply IH.
  - destruct (context_mount catalog ctx _) as [r1 ctx1] eqn:E.
    pose proof (context_mount_chosen _ _ _ _ _ Hc E) as Hc1.
    apply context_mount_inv in E as (<- & _). by apply IH.
Qed.

(** Only declared paths are overridden, and only mounted ones replaced, each
    once. *)
Definition wf_context (ctx : Context R Fs Po) : Prop :=
  Forall (fun b => b.1 ∈ map fst (bindings catalog)) (overrides ctx)
  /\ NoDup (map fst (overrides ctx))
  /\ Forall (fun m => is_mounted (grants catalog) (at_path m) = true) (mounts ctx)
  /\ NoDup (map at_path (mounts ctx)).

Lemma replace_wf {A} (key : A -> list byte) (P : A -> Prop) l a :
  Forall P l -> NoDup (map key l) -> P a ->
  Forall P (filter (fun x => negb (str_eq (key x) (key a)) = true) l ++ [a])
  /\ NoDup (map key (filter (fun x => negb (str_eq (key x) (key a)) = true) l ++ [a])).
Proof.
  intros Hl Hn Ha. split.
  - apply list.Forall_app. split; [|by repeat constructor]. rewrite list.Forall_forall in *.
    intros x [_ Hx]%list_elem_of_filter. by apply Hl.
  - rewrite map_app. apply nodup_snoc.
    + clear Hl. induction l as [|x l IH]; [constructor|]. rewrite filter_cons.
      cbn [map] in Hn. apply list.NoDup_cons in Hn as [Hx Hn]. case_decide; [|by apply IH].
      cbn [map]. apply list.NoDup_cons. split; [|by apply IH].
      intros (y & E & [_ Hy]%list_elem_of_filter)%list_elem_of_fmap. apply Hx.
      apply list_elem_of_fmap. eauto.
    + apply not_elem_map. apply list.Forall_forall.
      intros y [Hy _]%list_elem_of_filter E. rewrite E, str_eq_refl in Hy. done.
Qed.

Lemma run_context_wf (p : cprog R S Fs Po) ctx s r ctx' s' :
  wf_context ctx -> run_context catalog p ctx s = (r, ctx', s') -> wf_context ctx'.
Proof.
  assert (forall ctx m r ctx', wf_context ctx -> context_mount catalog ctx m = (r, ctx') ->
            wf_context ctx') as Hm.
  { intros c m r1 c' (W1 & W2 & W3 & W4) E.
    apply context_mount_inv in E as (_ & Eo & [(err & _ & ->)|(mt & _ & _ & Hin & Em)]); [done|].
    unfold wf_context. rewrite Eo, Em.
    split; [done|]. split; [done|]. by apply (replace_wf at_path). }
  revert ctx s. induction p as [r0|q o k IH|at_ fs access k IH|at_ fs policy k IH|k IH|s0 k IH];
    intros ctx s Hw; cbn [run_context]; try by apply IH.
  - by intros [= _ <- _].
  - destruct (context_bind catalog ctx q o) as [r1 ctx1] eqn:E. apply IH.
    apply context_bind_inv in E as (_ & Em & [(err & _ & ->)|(_ & Hin & Eo)]); [done|].
    destruct Hw as (W1 & W2 & W3 & W4). unfold wf_context. rewrite Eo, Em.
    pose proof (replace_wf fst _ (overrides ctx) (q, o) W1 W2 Hin) as [? ?]. done.
  - destruct (context_mount catalog ctx _) as [r1 ctx1] eqn:E. apply IH. by eapply Hm.
  - destruct (context_mount catalog ctx _) as [r1 ctx1] eqn:E. apply IH. by eapply Hm.
Qed.

Lemma wf_context_empty : wf_context (MkContext [] []).
Proof. repeat split; constructor. Qed.
End Chosen.
Arguments choices R Fs Po : clear implicits.

(** ** What providers answer *)

Section Provided.
Context `{CharTables} {R S Fs Po Pv : Type} `{Sentinel R S} `{!Providers R S Pv}.

(** The per-invocation backends, in install order. *)
Definition per_invocation (e : Extension R Pv) : option (list byte * Pv) :=
  match backend e with
  | Some (MkBackend path (PerInvocation p)) => Some (path, p)
  | _ => None
  end.

(** The providers not yet called, each at its first mention. *)
Fixpoint firsts (seen l : list Pv) : list Pv :=
  match l with
  | [] => []
  | p :: l => if decide (p ∈ seen) then firsts seen l else p :: firsts (seen ++ [p]) l
  end.

Fixpoint provide_all (l : list Pv) (s : S) : list (Pv * R) * S :=
  match l with
  | [] => ([], s)
  | p :: l =>
    let '(object, s) := provide p s in
    let '(rest, s) := provide_all l s in
    ((p, object) :: rest, s)
  end.

Definition provided_by (by_provider : list (Pv * R)) (p : Pv) : option R :=
  snd <$> find (fun seen => bool_decide (seen.1 = p)) by_provider.

Lemma provided_by_app l k p :
  provided_by (l ++ k) p
  = match provided_by l p with Some o => Some o | None => provided_by k p end.
Proof.
  unfold provided_by. induction l as [|[q o] l IH]; [done|]. cbn [app find fst].
  by destruct (bool_decide (q = p)).
Qed.

Lemma provided_by_none l p : provided_by l p = None <-> p ∉ map fst l.
Proof.
  unfold provided_by. induction l as [|[q o] l IH]; [split; [intros _ ?%elem_of_nil|]; done|].
  cbn [find fst map]. rewrite not_elem_of_cons. case_bool_decide as E.
  - split; [done | by intros [? _]; subst].
  - rewrite IH. split; [intros ?; by split | by intros [_ ?]].
Qed.

Lemma resolve_step_eq by_provider e s :
  resolve_step by_provider e s
  = match per_invocation e with
    | Some (path, p) =>
      match provided_by by_provider p with
      | Some object => (by_provider, [(path, object)], s)
      | None =>
        let '(object, s) := provide p s in (by_provider ++ [(p, object)], [(path, object)], s)
      end
    | None => (by_provider, [], s)
    end.
Proof.
  unfold resolve_step, per_invocation, provided_by.
  destruct (backend e) as [[path [object|p|]]|]; try done. by destruct (find _ _) as [[q o]|].
Qed.

Lemma resolve_from_spec es seen s resolved s' :
  resolve_from seen es s = (resolved, s') ->
  exists news, provide_all (firsts (map fst seen) (map snd (omap per_invocation es))) s = (news, s')
    /\ Forall2 (fun declared bound => bound.1 = declared.1
                  /\ provided_by (seen ++ news) declared.2 = Some bound.2)
         (omap per_invocation es) resolved.
Proof.
  revert seen s resolved. induction es as [|e es IH]; intros seen s resolved; cbn [resolve_from].
  { intros [= <- <-]. exists []. by split. }
  rewrite resolve_step_eq. cbn [omap list_omap].
  destruct (per_invocation e) as [[path p]|]; cbn [map firsts snd].
  2:{ destruct (resolve_from seen es s) as [rest s1] eqn:Er; intros [= <- <-]; by apply IH. }
  destruct (provided_by seen p) as [o|] eqn:Ep.
  - destruct (decide (p ∈ map fst seen)) as [Hin|Hin]; [|apply provided_by_none in Hin; congruence].
    destruct (resolve_from seen es s) as [rest s1] eqn:Er. intros [= <- <-].
    apply IH in Er as (news & En & Hf). exists news. split; [done|].
    constructor; [|done]. split; [done|]. cbn [fst snd]. by rewrite provided_by_app, Ep.
  - destruct (decide (p ∈ map fst seen)) as [Hin|Hin]; [by apply provided_by_none in Ep|].
    destruct (provide p s) as [o s1] eqn:Epr. destruct (resolve_from _ es s1) as [rest s2] eqn:Er.
    intros [= <- <-]. apply IH in Er as (news & En & Hf).
    rewrite map_app in En. cbn [map fst] in En. cbn [provide_all]. rewrite Epr, En.
    exists ((p, o) :: news). split; [done|].
    rewrite <- app_assoc in Hf. cbn [app] in *. constructor; [|done]. split; [done|].
    cbn [fst snd]. rewrite provided_by_app, Ep. unfold provided_by. cbn [find fst].
    by rewrite bool_decide_true.
Qed.
End Provided.

(** ** Declared paths *)

Lemma disjoint_paths_ne a b : disjoint_paths a b -> a <> b.
Proof. intros [Hn _] ->. apply Hn. exists []. by rewrite app_nil_r. Qed.

Lemma find_path_unique {R} (l : list (list byte * R)) path o :
  ForallOrdPairs (fun a b => disjoint_paths a.1 b.1) l -> (path, o) ∈ l ->
  find_path l path = Some o.
Proof.
  unfold find_path. induction 1 as [|[q r] l Hd _ IH]; [by intros ?%elem_of_nil|].
  intros [[= -> ->]|Hin]%elem_of_cons; cbn [find fst]; [by rewrite str_eq_refl|].
  rewrite list.Forall_forall in Hd. apply Hd in Hin as Hq. cbn [fst] in Hq.
  apply disjoint_paths_ne, str_eq_false in Hq. rewrite Hq. by apply IH.
Qed.

Section Declared.
Context `{CharTables} {R S Fs Po Pv : Type} `{Sentinel R S} `{!Providers R S Pv}.
Abbreviation Box := (Sandbox R S Fs Po Pv).
Abbreviation Cs := (call_state R S Fs Po Pv).

(** An installed Extension's backend is bound, to its object or to the
    unresolved sentinel. *)
Definition ext_bound (c : Catalog R Fs Po) (e : Extension R Pv) : Prop :=
  forall b, backend e = Some b -> (path b, object_of (provider b)) ∈ bindings c.

Definition wf_sandbox (s : Box) : Prop :=
  wf_catalog (catalog_of s) /\ Forall (ext_bound (catalog_of s)) (entries (extensions s)).

Definition binds_kept (c c' : Catalog R Fs Po) : Prop := exists more, bindings c' = bindings c ++ more.

Lemma binds_kept_refl c c' : bindings c' = bindings c -> binds_kept c c'.
Proof. intros E. exists []. by rewrite app_nil_r. Qed.

Lemma ext_bound_kept c c' es :
  binds_kept c c' -> Forall (ext_bound c) es -> Forall (ext_bound c') es.
Proof.
  intros [more E] Hf. eapply List.Forall_impl; [|exact Hf]. intros e He b Hb.
  rewrite E. apply elem_of_app. left. by apply He.
Qed.

Lemma bind_service_kept (c c' : Catalog R Fs Po) q o :
  bind_service c q o = Ok c' -> binds_kept c c' /\ (q, o) ∈ bindings c'.
Proof.
  unfold bind_service. repeat (case_match; [done|]). intros [= <-].
  split; [by eexists|]. cbn. apply elem_of_app. right. by apply list_elem_of_singleton.
Qed.

Lemma register_kept f (s : Box) :
  (forall c c', f c = Ok c' -> binds_kept c c') ->
  binds_kept (catalog_of s) (catalog_of (snd (register f s)))
  /\ extensions (snd (register f s)) = extensions s.
Proof.
  intros Hf. destruct (register f s) as [r s'] eqn:E.
  apply register_inv in E as [[-> _]|(c & c' & Er & Ef & _ & ->)]; [split; [by apply binds_kept_refl | done]|].
  split; [|done]. cbn. unfold catalog_of. rewrite Er. by apply Hf.
Qed.

Lemma register_mount_kept (m : Mount Fs Po) (s : Box) :
  binds_kept (catalog_of s) (catalog_of (snd (register_mount m s)))
  /\ extensions (snd (register_mount m s)) = extensions s.
Proof.
  apply register_kept. intros c c'. destruct (negb _); [done|].
  intros (g & _ & [= <-])%rbind_ok. by apply binds_kept_refl.
Qed.

Lemma install_kept exts (c : Catalog R Fs Po) e r exts' c' :
  install exts c e = (r, exts', c') ->
  binds_kept c c'
  /\ (entries exts' = entries exts \/ entries exts' = entries exts ++ [e] /\ ext_bound c' e).
Proof.
  unfold install. destruct (register_source _ _ _) as [table|];
    [|intros [= <- <- <-]; split; [by apply binds_kept_refl | by left]].
  destruct (backend e) as [b|] eqn:Eb.
  - destruct (bind_service _ _ _) as [c1|] eqn:E; intros [= <- <- <-].
    + apply bind_service_kept in E as [K Hin]. split; [done|]. right. split; [done|].
      intros b' Hb'. rewrite Eb in Hb'. by injection Hb' as <-.
    + split; [by apply binds_kept_refl | by left].
  - intros [= <- <- <-]. split; [by apply binds_kept_refl|]. right. split; [done|].
    intros b' Hb'. congruence.
Qed.

Lemma registration_declared o f (s : Box) :
  registration o = Some f -> wf_sandbox s -> wf_sandbox (snd (f s)).
Proof.
  intros Ho [Hwf Hexts]. split; [by eapply registration_wf|].
  assert (forall s' : Box, binds_kept (catalog_of s) (catalog_of s') /\ extensions s' = extensions s ->
            Forall (ext_bound (catalog_of s')) (entries (extensions s'))) as Hk.
  { intros s' [K ->]. by eapply ext_bound_kept. }
  destruct o as [| | | | | | |? ? []| |]; try discriminate Ho; injection Ho as <-;
    try (apply Hk, register_kept; intros c c' Hf).
  - by eapply bind_service_kept.
  - by eapply bind_service_kept.
  - unfold mount. destruct (mount_new at_ fs access); [apply Hk, register_mount_kept | done].
  - unfold mount_with_policy. destruct (mount_new at_ fs ReadWrite); [apply Hk, register_mount_kept | done].
  - unfold sandbox_install, open_mut. destruct (registry s) as [c|c] eqn:E; [|done].
    destruct (install (extensions s) c extension) as [[r exts] c'] eqn:Ei. cbn [snd extensions].
    unfold catalog_of in *. rewrite E in Hexts. cbn [registry].
    apply install_kept in Ei as [K [->|[-> He]]]; [by eapply ext_bound_kept|].
    apply list.Forall_app. split; [by eapply ext_bound_kept | by repeat constructor].
  - apply rbind_ok in Hf as (table & _ & [= <-]). by apply binds_kept_refl.
  - injection Hf as <-. by apply binds_kept_refl.
  - unfold set_flag in Hf. destruct (existsb _ _); [done|]. injection Hf as <-. by apply binds_kept_refl.
  - unfold set_flag in Hf. destruct (existsb _ _); [done|]. injection Hf as <-. by apply binds_kept_refl.
Qed.

(** Beginning keeps everything registered but the snippets a compile
    replaced. *)
Lemma begin_invocation_kept (s : Box) r s' :
  begin_invocation s = (r, s') ->
  bindings (catalog_of s') = bindings (catalog_of s)
  /\ flags (catalog_of s') = flags (catalog_of s)
  /\ grants (catalog_of s') = grants (catalog_of s).
Proof.
  unfold begin_invocation. destruct (assert_dependencies (extensions s)) as [deps exts].
  destruct (seal _ _ (registry s)) as [[c panicked] reg] eqn:Es. intros Hr.
  assert (s' = MkSandbox (runtime_of s) reg exts (budget s)) as ->.
  { destruct panicked; [|destruct deps]; by injection Hr as _ <-. }
  unfold seal, catalog_of, catalog_compile in *. cbn [registry].
  destruct (registry s) as [o|o]; [|by injection Es as _ _ <-].
  destruct deps; [|by injection Es as _ _ <-].
  destruct (compile_snippets _ _ _). by injection Es as _ _ <-.
Qed.

(** A compiled table: each source, in order, is the next bytecode, where there
    is one, at its own place, and nothing else changes. *)
Inductive Compiled_to : list Snippet.t -> list (list byte) -> list Snippet.t -> Prop :=
| Compiled_end codes : Compiled_to [] codes []
| Compiled_bytecode body table codes table' : Compiled_to table codes table' ->
    Compiled_to (Snippet.Bytecode body :: table) codes (Snippet.Bytecode body :: table')
| Compiled_source name body code table codes table' : Compiled_to table codes table' ->
    Compiled_to (Snippet.Source name body :: table) (code :: codes) (Snippet.Bytecode code :: table')
| Compiled_left name body table table' : Compiled_to table [] table' ->
    Compiled_to (Snippet.Source name body :: table) [] (Snippet.Source name body :: table').

Lemma replay_compiled table : forall codes, Compiled_to table codes (replay_entries table codes).
Proof.
  assert (forall t, Compiled_to t [] t) as Hl by (induction t as [|[] t IH]; by constructor).
  induction table as [|entry table IH]; intros codes; [constructor|].
  destruct codes as [|code codes]; [apply Hl|]. cbn [replay_entries].
  destruct entry as [name body|body]; cbn [Snippet.is_source]; constructor; apply IH.
Qed.

(** What the snippets of an open Catalog are sealed as: what the engine answers
    of them, compiled under the Preamble they are replayed with, where they hold
    a source and no dependency is unmet, and else as they were registered. *)
Definition sealed_snippets (compile : Preamble.t -> compiled) (exts : Extensions R Pv)
    (open : Catalog R Fs Po) (table : list Snippet.t) : Prop :=
  (unmet_dependency exts -> table = snippets open)
  /\ (~ unmet_dependency exts ->
      ((exists name body, Snippet.Source name body ∈ snippets open) ->
        match compile (Preamble.Mk (map fst (bindings open)) (snippets open) (flags open)) with
        | Answered (Some codes) => Compiled_to (snippets open) codes table
        | Answered None | Panicked => table = snippets open
        end)
      /\ (~ (exists name body, Snippet.Source name body ∈ snippets open) -> table = snippets open)).

Lemma has_source (table : list Snippet.t) :
  existsb Snippet.is_source table = true <-> exists name body, Snippet.Source name body ∈ table.
Proof.
  rewrite existsb_exists. split.
  - intros ([name body|body] & Hin%list_elem_of_In & Hs); [by exists name, body | done].
  - intros (name & body & Hin%list_elem_of_In). by exists (Snippet.Source name body).
Qed.

Lemma met_dependencies (exts : Extensions R Pv) :
  (exists r, assert_dependencies exts = (Ok tt, r)) <-> ~ unmet_dependency exts.
Proof.
  split.
  - intros [r E] (msg & Hm)%assert_dependencies_unmet. congruence.
  - intros Hn. unfold assert_dependencies. destruct (asserted exts) eqn:Ha; [by eexists|].
    destruct (try_for_each _ _) as [[]|err] eqn:E; [by eexists|]. destruct Hn. split; [done|].
    assert (~ Forall (fun e => Forall (fun d => d ∈ map ext_name (entries exts)) (depends_on e)) (entries exts)) as Hf.
    { intros Hf. assert (try_for_each (unmet (map ext_name (entries exts))) (entries exts) = Ok tt) as E'; [|congruence].
      apply try_for_each_ok. eapply list.Forall_impl; [exact Hf|]. intros e. apply unmet_ok. }
    apply list.not_Forall_Exists in Hf; [|intros e; apply _]. apply list.Exists_exists in Hf as (e & He & Hf).
    apply list.not_Forall_Exists in Hf; [|intros d; apply _]. apply list.Exists_exists in Hf as (d & Hd & Hf).
    by exists e, d.
Qed.

Lemma begin_invocation_seals (s : Box) r s' :
  begin_invocation s = (r, s') ->
  match registry s with
  | Open open => sealed_snippets (compile (runtime_of s)) (extensions s) open (snippets (catalog_of s'))
  | Sealed catalog => catalog_of s' = catalog
  end.
Proof.
  unfold begin_invocation. destruct (assert_dependencies (extensions s)) as [deps exts] eqn:Ea.
  destruct (seal _ _ (registry s)) as [[c panicked] reg] eqn:Es. intros Hr.
  assert (s' = MkSandbox (runtime_of s) reg exts (budget s)) as ->.
  { destruct panicked; [|destruct deps]; by injection Hr as _ <-. }
  unfold seal, catalog_of in *. cbn [registry]. destruct (registry s) as [o|o]; [|by injection Es as _ _ <-].
  destruct deps as [[]|err].
  - assert (~ unmet_dependency (extensions s)) as Hm by (apply met_dependencies; by eexists).
    split; [done|]. intros _. unfold catalog_compile, compile_snippets, catalog_preamble in Es.
    rewrite <- has_source. destruct (existsb _ _) eqn:Eh; cbn [negb] in Es.
    + split; [|done]. intros _. destruct (compile _ _) as [[codes|]|]; injection Es as _ _ <-; try done.
      apply replay_compiled.
    + split; [done|]. intros _. by injection Es as _ _ <-.
  - injection Es as _ _ <-. split; [done|]. intros Hm. apply met_dependencies in Hm as [r' E']. congruence.
Qed.

Lemma perform_declared o (c : Cs) : wf_sandbox (sandbox c) -> wf_sandbox (sandbox (perform o c)).
Proof.
  intros Hwf. destruct (perform_inv o c) as [->|[->|(f & Hf & ->)]]; [done| |by eapply registration_declared].
  destruct Hwf as [Hwf Hexts]. destruct (begin_invocation (sandbox c)) as [r s'] eqn:E. cbn [snd].
  pose proof (begin_invocation_kept _ _ _ E) as (Eb & _).
  apply begin_invocation_inv in E as (_ & _ & _ & _ & He & Hw & _).
  split; [by apply Hw|]. rewrite He. eapply ext_bound_kept; [|exact Hexts].
  exists []. by rewrite app_nil_r.
Qed.

Lemma perform_all_declared os (c : Cs) :
  wf_sandbox (sandbox c) -> wf_sandbox (sandbox (perform_all os c)).
Proof.
  unfold perform_all. revert c. induction os as [|o os IH]; intros c Hwf; [done|].
  cbn [fold_left]. by apply IH, perform_declared.
Qed.

Lemma with_runtime_wf engine floor s : with_runtime engine floor = Ok s -> wf_sandbox s.
Proof.
  unfold with_runtime. destruct (profile_lt _ _); [done|]. intros [= <-].
  split; [apply wf_default | constructor].
Qed.
End Declared.

(** ** Resolving *)

Section Resolved.
Context `{CharTables} {R S Fs Po Pv : Type} `{Sentinel R S} `{!Providers R S Pv}.

Lemma firsts_spec seen (l : list Pv) :
  NoDup (firsts seen l) /\ forall p, p ∈ firsts seen l <-> p ∈ l /\ (p ∉ seen).
Proof.
  revert seen. induction l as [|p l IH]; intros seen; cbn [firsts].
  - split; [constructor|]. intros p. split; [by intros ?%elem_of_nil | by intros [?%elem_of_nil _]].
  - destruct (decide (p ∈ seen)) as [Hp|Hp].
    + destruct (IH seen) as [Hn Hi]. split; [done|]. intros q. rewrite Hi, elem_of_cons.
      split; [by intuition|]. intros [[->|?] ?]; [done | by split].
    + destruct (IH (seen ++ [p])) as [Hn Hi]. split.
      * apply list.NoDup_cons. split; [|done]. rewrite Hi. intros [_ Hq]. apply Hq, elem_of_app.
        right. by apply list_elem_of_singleton.
      * intros q. rewrite !elem_of_cons, Hi, elem_of_app, list_elem_of_singleton.
        split; [intros [->|(? & ?)]; [by split; [left|] | split; [by right | tauto]]|].
        intros [[->|?] ?]; [by left|]. destruct (decide (q = p)); [by left | right; tauto].
Qed.

Lemma provide_all_fst (l : list Pv) (s : S) : map fst (fst (provide_all l s)) = l.
Proof.
  revert s. induction l as [|p l IH]; intros s; [done|]. cbn [provide_all].
  destruct (provide p s) as [o s1]. specialize (IH s1). destruct (provide_all l s1) as [rest s2].
  cbn [fst map] in *. by rewrite IH.
Qed.

(** The object a run's providers put at a path. *)
Lemma provided_at (decls : list (list byte * Pv)) (bound : list (list byte * R)) (answer : Pv -> option R) path :
  Forall2 (fun d b => b.1 = d.1 /\ answer d.2 = Some b.2) decls bound ->
  match find_path bound path with
  | Some o => exists p, (path, p) ∈ decls /\ answer p = Some o
  | None => forall p, (path, p) ∉ decls
  end.
Proof.
  unfold find_path. induction 1 as [|[q p] [q' o] decls bound [E1 E2] _ IH]; cbn in *.
  - by intros p ?%elem_of_nil.
  - subst q'. destruct (str_eq q path) eqn:E; cbn.
    + apply str_eq_true in E as ->. exists p. split; [apply elem_of_cons; by left | done].
    + apply str_eq_false in E. destruct (snd <$> find _ bound) as [o'|].
      * destruct IH as (p' & Hp & Ho). exists p'. split; [apply elem_of_cons; by right | done].
      * intros p' [[= ? _]|?]%elem_of_cons; [done | by eapply IH].
Qed.

Lemma collect_overrides_ok (c : Catalog R Fs Po) (p : cprog R S Fs Po) s ctx s' :
  collect_overrides c p s = (Ok ctx, s') ->
  wf_context c ctx /\ holds_choices ctx (chosen c p s nothing).
Proof.
  unfold collect_overrides. destruct (run_context c p _ s) as [[r ctx'] s1] eqn:E.
  intros Hr. assert (ctx' = ctx) as -> by (destruct r; by injection Hr as ?).
  split; [eapply run_context_wf; [apply wf_context_empty | exact E]|].
  eapply run_context_chosen; [|exact E]. by intros path.
Qed.
End Resolved.
