(* ===== verification/InvocationFacts.v ===== *)
(** Lemmas on one invocation: block exits, value-tree receivers, the Handles a
    value carries, and what a verb leaves of the thread it ran on.

    What the SDK relies on of an engine, and an engine over the nested guest
    that meets it: it drives the endpoint as a Wasm Driver does. *)
From S2P Require Import Prelude Text Wire Messages PreambleMsg Codec CodecRead Payload Runtime Endpoint HostCalls NestedGuest HostError Receivers Catalog Dispatch Overlay Sandbox.

Section Engine.
Context `{CharTables} {R S Fs Po : Type} `{!Receivers R S}.
Abbreviation St := (shared R S).

(** An engine reaches what the dispatches share only by dispatching. *)
Class EngineLaws (engine : runtime St Fs Po) : Prop :=
  engine_grows entry preamble (h : CatalogHandler R Fs Po) grants st r st' :
    invoke_guest engine entry preamble (Some (catalog_handler h)) grants st = (r, st') ->
    shared_grows st st'.

(** A fresh guest of [size] bytes, running [code] on each request. *)
Definition fresh_guest (size : nat) (code : Preamble.t -> list byte -> gprog)
    (preamble : Preamble.t) : wasm :=
  Wasm (repeat x00 size) 8 (code preamble).

Definition nested_invoke (fuel size : nat) (code : Preamble.t -> list byte -> gprog)
    (entry : Entry.t) (preamble : Preamble.t) (on_call : option (handler St))
    (_ : list (Grant Fs Po)) (h : St) : result InvokeError.t Snapshot.t * St :=
  let finish completion w :=
    (Ok (Snapshot.Mk completion Capture.default Capture.default Usage.default), host w) in
  let w := World (fresh_guest size code preamble) (MkCalls on_call 0 None) h in
  match write_request (GuestInstance0 := nested fuel) (request_of entry) w with
  | (Err err, w) => (Err err, host w)
  | (Ok (ptr, n), w) =>
    match downcall (GuestInstance := nested fuel) ptr n w with
    | (Some (Ok packed), w) =>
      finish (match read_outcome (GuestInstance0 := nested (H := St) fuel) (guest w) packed with
              | Ok outcome => Completion.Outcome outcome
              | Err trap => Completion.Trap trap
              end) w
    | (Some (Err reason), w) => finish (Completion.Trap (Trap.Other reason)) w
    | (None, w) => finish (Completion.Trap (Trap.Other RUNTIME_INCOMPATIBLE)) w
    end
  end.

Definition nested_engine (fuel size : nat) (code : Preamble.t -> list byte -> gprog)
    (comp : Preamble.t -> compiled) : runtime St Fs Po :=
  MkRuntime (fun _ => true) Hermetic comp (nested_invoke fuel size code).

#[export] Instance nested_engine_laws fuel size code comp :
  EngineLaws (nested_engine fuel size code comp).
Proof.
  intros entry preamble h grants st r st'. cbn [nested_engine invoke_guest].
  unfold nested_invoke.
  set (w0 := World (fresh_guest size code preamble) (MkCalls (Some (catalog_handler h)) 0 None) st).
  assert (bound (Fs := Fs) (Po := Po) w0) as Hb0 by (intros hd [= <-]; by eexists).
  unfold write_request, ebind, ecatch, eret.
  destruct (alloc_and_write (request_of entry) w0) as [[ptr|e] w1] eqn:Ea.
  - pose proof (alloc_and_write_calls _ _ _ _ Ea eq_refl) as [K Ht].
    apply (alloc_and_write_grows (Fs := Fs) (Po := Po)) in Ea; [|done..].
    assert (bound (Fs := Fs) (Po := Po) w1) as Hb1 by by eapply bound_kept.
    destruct (downcall _ _ w1) as [o w2] eqn:Ed. apply (downcall_grows (Fs := Fs) (Po := Po)) in Ed; [|done..].
    assert (shared_grows st (host w2)) as Hg by by eapply shared_grows_trans.
    destruct o as [[packed|reason]|]; by intros [= _ <-].
  - apply (alloc_and_write_grows (Fs := Fs) (Po := Po)) in Ea; [|done..]. by intros [= _ <-].
Qed.

(** A program run outside a dispatch grows what is shared as one inside does. *)
Lemma run_detached_grows {A} (p : rprog R S false A) (st st' : St) a :
  run_detached p st = (a, st') -> shared_grows st st'.
Proof.
  revert st. induction p as [a0|lent args k IH|object k IH|id k IH|k IH|s k IH|k IH];
    intros st; cbn [run_detached]; try by apply IH.
  - intros [= _ <-]. by apply shared_grows_eq.
  - destruct (Bool.diff_false_true lent).
  - destruct (handles_alloc object st) as [r h] eqn:Ea. intros Hr.
    eapply shared_grows_trans; [by eapply handles_alloc_grows | by eapply IH].
Qed.
End Engine.

(** ** Block exits *)

Section Breaks.
Context `{CharTables} {R S : Type} {G F : Type} `{!GuestInstance G (shared R S) F}.
Abbreviation St := (shared R S).
Abbreviation W := (world G St F).

(** Whether a yield of the program is answered with a break. *)
Fixpoint broke {block A} (p : rprog R S block A) (frame : Z) (w : W) : bool :=
  match p with
  | RRet _ => false
  | RBlock _ args k =>
    let '(r, w) := yield_to_block frame args w in
    (match r with Ok YieldReply.Break => true | _ => false end)
    || broke (k (fst (yielded r false))) frame w
  | RAlloc object k =>
    let '(r, h) := handles_alloc object (host w) in broke (k r) frame (set_host h w)
  | RResolve id k => broke (k (handles_resolve id (host w))) frame w
  | RGet k => broke (k (own (on (host w)))) frame w
  | RPut s k => broke k frame (set_host (set_own s (host w)) w)
  | RBudget k => broke (k (BUDGET (on (host w)))) frame w
  end.

Lemma run_receiver_broke {block A} (p : rprog R S block A) frame broken w :
  exists a w', run_handler (run_receiver p frame broken) w = ((a, broken || broke p frame w), w').
Proof.
  revert broken w. induction p as [a|lent args k IH|object k IH|id k IH|k IH|s k IH|k IH];
    intros broken w; cbn [run_receiver broke]; rewrite ?run_hbind; cbn [run_handler call_payload];
    try apply IH.
  - exists a, w. by rewrite orb_false_r.
  - destruct (yield_to_block frame args w) as [r w1]. cbn [run_handler].
    assert (yielded r broken
            = (fst (yielded r false),
               broken || match r with Ok YieldReply.Break => true | _ => false end)) as E.
    { destruct r as [[]|]; cbn; by rewrite ?orb_false_r, ?orb_true_r. }
    rewrite E. cbn beta iota. rewrite orb_assoc. apply IH.
  - destruct (handles_alloc object (host w)) as [r h]. cbn [run_handler]. apply IH.
Qed.

(** A Call that gives no block has none to break out of. *)
Lemma broke_no_block {A} (p : rprog R S false A) frame w : broke p frame w = false.
Proof.
  revert w. induction p as [a|lent args k IH|object k IH|id k IH|k IH|s k IH|k IH];
    intros w; cbn [broke]; try apply IH; [done | by destruct (Bool.diff_false_true lent) |].
  destruct (handles_alloc object (host w)) as [r h]. apply IH.
Qed.

Lemma run_receiver_bind {block A B} (p : rprog R S block A) (k : A -> rprog R S block B) frame broken w :
  run_handler (run_receiver (prog_bind p k) frame broken) w
  = let '((a, broken'), w') := run_handler (run_receiver p frame broken) w in
    run_handler (run_receiver (k a) frame broken') w'.
Proof.
  revert broken w. induction p as [a|lent args q IH|object q IH|id q IH|q IH|s q IH|q IH];
    intros broken w; cbn [run_receiver prog_bind]; rewrite ?run_hbind; cbn [run_handler call_payload];
    try apply IH; [done | |].
  - destruct (yield_to_block frame args w) as [r w1]. cbn [run_handler].
    destruct (yielded r broken). apply IH.
  - destruct (handles_alloc object (host w)) as [r h]. cbn [run_handler]. apply IH.
Qed.
End Breaks.

(** ** The Handles a value carries *)

Section Live.
Context {R : Type} (entries : list R).

Definition live (id : Z) : bool :=
  match HandleTable.get entries id with Some _ => true | None => false end.

Definition first_dead (ids : list Z) : result HostError.t unit :=
  match find (fun id => negb (live id)) ids with
  | Some id => Err (unknown_handle id)
  | None => Ok tt
  end.

Lemma first_dead_app l k : first_dead (l ++ k) = let? _ := first_dead l in first_dead k.
Proof.
  unfold first_dead. induction l as [|id l IH]; [done|]. cbn [app find].
  by destruct (negb (live id)).
Qed.

Lemma require_live_handles_spec v : require_live_handles entries v = first_dead (handles_in v).
Proof.
  induction v as [| | | | | | |l IH|l IH| |id] using value_rect_nested; try done;
    cbn [require_live_handles handles_in].
  - induction IH as [|v l Hv _ IHl]; [done|]. cbn [flat_map]. rewrite first_dead_app, Hv.
    destruct (first_dead (handles_in v)) as [[]|]; [exact IHl | done].
  - induction IH as [|[k v] l [Hk Hv] _ IHl]; [done|]. cbn [flat_map fst snd] in *.
    rewrite !first_dead_app, Hk, Hv. destruct (first_dead (handles_in k)) as [[]|]; [|done].
    cbn [rbind]. destruct (first_dead (handles_in v)) as [[]|]; [exact IHl | done].
  - unfold first_dead. cbn [find]. unfold live. by destruct (HandleTable.get entries id).
Qed.

(** The Handles before the first dead one are live. *)
Lemma first_dead_first ids err : first_dead ids = Err err ->
  exists before id after, ids = before ++ id :: after /\ Forall (fun id => live id = true) before
    /\ live id = false /\ err = unknown_handle id.
Proof.
  unfold first_dead. induction ids as [|id ids IH]; [done|]. cbn [find].
  destruct (live id) eqn:El; cbn [negb].
  - intros H. destruct (IH H) as (before & dead & after & -> & F & Hd).
    exists (id :: before), dead, after. split; [done|]. split; [by constructor | done].
  - intros [= <-]. by exists [], id, ids.
Qed.

(** A live Handle's id is the place of an object of the table, from one. *)
Lemma live_issued id : live id = true <-> exists object, 1 <= id /\ entries !! Z.to_nat (id - 1) = Some object.
Proof.
  unfold live. rewrite get_spec. destruct (Z.leb_spec 1 id); cbn [andb].
  - destruct (Z.leb_spec id (len entries)).
    + destruct (lookup_lt_is_Some_2 entries (Z.to_nat (id - 1))) as [o Ho]; [unfold len in *; lia|].
      rewrite Ho. split; [by exists o | done].
    + split; [done|]. intros (o & _ & Ho%lookup_lt_Some). unfold len in *. lia.
  - split; [done|]. intros (? & ? & _). lia.
Qed.

Lemma first_dead_ok ids :
  first_dead ids = Ok tt <-> Forall (fun id => exists o, HandleTable.get entries id = Some o) ids.
Proof.
  unfold first_dead. induction ids as [|id ids IH]; cbn [find]; [split; [constructor | done]|].
  rewrite Forall_cons_iff, <- IH. unfold live at 1.
  destruct (HandleTable.get entries id) as [o|]; cbn [negb]; [|by split; [|intros [[??] _]]].
  split; [by eauto | by intros [_ ?]].
Qed.
End Live.

(** ** Verbs *)

Section Verbs.
Context `{CharTables} {R S Fs Po Pv : Type} `{Sentinel R S} `{!Providers R S Pv}.
Abbreviation St := (shared R S).
Abbreviation Cs := (call_state R S Fs Po Pv).

Lemma within_budget {A} b (f : St -> A * St) h a h' :
  within b f h = (a, h') -> BUDGET (on h') = BUDGET (on h).
Proof. unfold within. destruct (f _) as [a0 h0]. by intros [= _ <-]. Qed.

(** What a verb that ran leaves: the thread's budget, and an Execution over
    the invocation's own table and the Sandbox's budget. *)
Definition verb_left (c : Cs) (r : result refusal (Execution R)) (c' : Cs) : Prop :=
  BUDGET (running c') = BUDGET (running c)
  /\ forall e, r = Ok e ->
       value_budget e = budget (sandbox c) /\ ok_table (handles e)
       /\ exists snapshot verb (h : St), e = build_execution snapshot verb h.

Lemma invoke_left (s : Sandbox R S Fs Po Pv) catalog entry ctx h r h' :
  EngineLaws (runtime_of s) -> ok_table (table h) -> invoke s catalog entry ctx h = (r, h') ->
  BUDGET (on h') = BUDGET (on h)
  /\ forall e, r = Ok e ->
       value_budget e = budget s /\ ok_table (handles e)
       /\ exists snapshot verb (h : St), e = build_execution snapshot verb h.
Proof.
  intros HE Hok. unfold invoke. destruct (resolve s ctx h) as [resolved h1] eqn:Er.
  assert (table h1 = table h /\ BUDGET (on h1) = BUDGET (on h)) as [E1 E2].
  { unfold resolve in Er. destruct (resolve_extensions _ _). by injection Er as _ <-. }
  intros Hi. split; [apply within_budget in Hi; congruence|]. intros e ->.
  unfold within, run_guest_in in Hi.
  destruct (invoke_guest _ _ _ _ _ _) as [[snapshot|err] h2] eqn:Eg; [|done].
  injection Hi as <- _. apply engine_grows in Eg as (_ & Hg & Hb). cbn [table on BUDGET] in Hg, Hb.
  unfold build_execution. cbn [value_budget handles]. rewrite E1 in Hg. eauto 8.
Qed.

Lemma start_left entry_of p (c : Cs) r c' :
  EngineLaws (runtime_of (sandbox c)) ->
  (forall h r h', entry_of h = (r, h') -> shared_grows h h') ->
  start entry_of p c = (r, c') -> verb_left c r c'.
Proof.
  intros HE Hentry. unfold start.
  destruct (begin_invocation (sandbox c)) as [b s] eqn:Eb.
  apply begin_invocation_inv in Eb as (Ert & Ebu & _).
  destruct b as [catalog|e]; [|by intros [= <- <-]].
  destruct (collect_overrides _ _ _) as [[ctx|err] own']; [|by intros [= <- <-]].
  destruct (entry_of _) as [[entry|err] h] eqn:Ee; apply Hentry in Ee as (_ & Hok & Hb);
    cbn [table on BUDGET] in Hok, Hb; [|by intros [= <- <-]].
  destruct (invoke s catalog entry ctx h) as [r' h'] eqn:Ei. intros [= <- <-].
  apply invoke_left in Ei as [Hb' He].
  - unfold verb_left. cbn [running]. split; [congruence|]. rewrite <- Ebu. exact He.
  - by rewrite Ert.
  - apply Hok. unfold ok_table, HandleTable.MAX_HANDLE_ID. by vm_compute.
Qed.

Lemma eval_with_left source p (c : Cs) r c' :
  EngineLaws (runtime_of (sandbox c)) -> eval_with source p c = (r, c') -> verb_left c r c'.
Proof.
  intros HE. apply start_left; [done|]. intros h r' h' [= _ <-]. by apply shared_grows_eq.
Qed.

Lemma run_with_left target payload p (c : Cs) r c' :
  EngineLaws (runtime_of (sandbox c)) -> run_with target payload p c = (r, c') -> verb_left c r c'.
Proof.
  intros HE. unfold run_with. destruct (negb _); [by intros [= <- <-]|].
  apply start_left; [done|]. intros h r' h'. unfold run_entry, payload_encode.
  destruct payload as [bytes|build]; [intros [= _ <-]; by apply shared_grows_eq|].
  destruct (run_detached build h) as [bytes h1] eqn:Er. intros [= _ <-].
  by eapply run_detached_grows.
Qed.
End Verbs.
