(* ===== verification/SdkPromises.v ===== *)
(** The SDK's properties ([kobako]): what a Sandbox registers and seals, what
    an invocation's Calls reach, and what its Execution reads. *)
From S2P Require Import Prelude Text Wire Messages PreambleMsg Runtime Endpoint HostCalls NestedGuest Codec CodecRead Payload HostError Receivers Catalog Dispatch Overlay Sandbox OverrideFacts InvocationFacts.

(** ** A host to instantiate the properties at *)

Inductive sample_receiver := SUnresolved | SEcho | SMake | SYield.

#[export] Instance sample_tables : CharTables := {| debug_escapes := fun _ => false |}.

(** An echo, a maker of Handles and a yielder; none shows [secret]. *)
#[export] Instance sample_receivers : Receivers sample_receiver nat := {|
  respond_to_guest r _ m :=
    match r with SUnresolved => true | _ => negb (str_eq m (lit "secret")) end;
  call r m payload block :=
    match r with
    | SUnresolved => unresolved_call
    | SEcho => RRet (Ok payload)
    | SMake => RAlloc SEcho (fun id => RRet (let? id := id in Ok (be_encode 4 id)))
    | SYield =>
      match Bool.bool_dec block true with
      | Specif.left lent => RBlock lent payload (fun r => RRet (map_err YieldError.to_fault r))
      | Specif.right _ => RRet (Ok payload)
      end
    end;
|}.

#[export] Instance sample_sentinel : Sentinel sample_receiver nat.
Proof. by exists SUnresolved. Defined.

#[export] Instance sample_providers : Providers sample_receiver nat bool := {|
  provide (p : bool) s := (if p then SEcho else SMake, Nat.succ s);
|}.

(** A guest that calls the first path its preamble declares, then answers with
    the reply's body. *)
Definition sample_code (preamble : Preamble.t) (request : list byte) : gprog :=
  match Downcall.decode request with
  | Ok (Downcall.Eval source) =>
    GUpcall (Upcall.encode (Upcall.Call
               (Call.Mk (Call.Path (default [] (head (Preamble.bindings preamble))))
                  (lit "call") false source)))
      (fun reply =>
         match Reply.decode reply with
         | Ok (Reply.Ok body) => GAnswer (Outcome.encode (Outcome.Ok body))
         | _ => GTrap (lit "no reply")
         end)
  | _ => GTrap (lit "unexpected")
  end.

Abbreviation sample_box := (Sandbox sample_receiver nat unit unit bool).

Definition sample_engine : runtime (shared sample_receiver nat) unit unit :=
  nested_engine 2 256 sample_code (fun _ => Answered None).

Definition sample_start : sample_box :=
  MkSandbox sample_engine (Open catalog_default) (MkExtensions [] false) None.

Definition sample_extension (name at_ : list byte) (p : bool)
  : Extension sample_receiver bool :=
  MkExtension name (lit "class KV; end") [] (Some (MkBackend at_ (PerInvocation p))).

(** Two Extensions on one provider, a Service, and a fillable path. *)
Definition sample_ops : list (op sample_receiver nat unit unit bool) :=
  [OpBind (lit "Clock") SEcho; OpInstall (sample_extension (lit "A") (lit "Kv::Read") true);
   OpInstall (sample_extension (lit "B") (lit "Kv::Write") true); OpBindFillable (lit "Log");
   OpMount (lit "/data") tt Read].

Definition sample_state : call_state sample_receiver nat unit unit bool :=
  perform_all sample_ops (MkCall sample_start (Thread 0%nat None)).

(** ** Registration *)

(** C18: whatever is registered and invoked, a Sandbox's table of Services holds
    constant paths outside the reserved namespace, none equal to or beneath
    another by whole segments, with snippet names constant and unique and flags
    and Mounts unique; and while it is open it takes exactly the paths that
    keep it so, each adding its one binding. *)
Theorem namespace_invariant `{CharTables} {R S Fs Po Pv : Type} `{Sentinel R S, !Providers R S Pv}
    engine floor (s0 : Sandbox R S Fs Po Pv) os th :
  with_runtime engine floor = Ok s0 ->
  let s := sandbox (perform_all os (MkCall s0 th)) in
  wf_catalog (catalog_of s)
  /\ forall path object, registry s = Open (catalog_of s) ->
       (fst (bind path object s) = Ok tt <->
        is_constant_path path = true /\ is_reserved path = false
        /\ Forall (fun b => disjoint_paths b.1 path) (bindings (catalog_of s)))
       /\ (fst (bind path object s) = Ok tt ->
           bindings (catalog_of (snd (bind path object s)))
           = bindings (catalog_of s) ++ [(path, object)]).
Proof.
  intros Hn s. assert (wf_sandbox s) as [Hwf _].
  { apply perform_all_declared. by eapply with_runtime_wf. }
  split; [done|]. intros path object Ho. unfold bind, register, open_mut. rewrite Ho.
  destruct (bind_service (catalog_of s) path object) as [c'|err] eqn:Eb; cbn [fst snd].
  - apply bind_service_iff in Eb as (B1 & B2 & B3 & ->); [|done]. done.
  - split; [|done]. split; [done|]. intros (B1 & B2 & B3). exfalso.
    pose proof (proj2 (bind_service_iff _ _ path object Hwf)
      (conj B1 (conj B2 (conj B3 eq_refl)))). congruence.
Qed.

Lemma namespace_invariant_witness :
  fst (bind (lit "Kv") SEcho (sandbox sample_state)) <> Ok tt.
Proof.
  intros Hk. pose proof (proj2 (namespace_invariant (Pv := bool) sample_engine Hermetic
    sample_start
    sample_ops (Thread 0%nat None) eq_refl)) as Hi.
  specialize (Hi (lit "Kv") SEcho eq_refl). destruct Hi as [[Hi _] _].
  destruct (Hi ltac:(vm_compute in Hk; discriminate Hk)) as (_ & _ & Hf). clear -Hf.
  apply Forall_cons_iff in Hf as [_ Hf]. apply Forall_cons_iff in Hf as [[_ Hf] _].
  apply Hf. by exists [lit "Read"].
Defined.

(** C19: a verb that reaches the guest's side seals the registry as what was
    registered: its bindings, flags and Grants, and its snippets, each source of
    them put at its own place as the bytecode the engine's one compile answers,
    under the Preamble they are replayed with, or left where it answers none,
    panics, or a dependency is unmet.  A verb after it finds the same; no
    operation changes it, every registration is refused and changes nothing,
    and the engine is asked to compile no more.  An entrypoint that is no
    constant name is refused before anything is sealed. *)
Theorem registry_seals_once `{CharTables} {R S Fs Po Pv : Type} `{Sentinel R S, !Providers R S Pv}
    (c : call_state R S Fs Po Pv) source target payload p :
  (forall o, o = OpEval source p \/ o = OpRun target payload p /\ is_constant_name target = true ->
   let s := sandbox (perform o c) in
   registry s = Sealed (catalog_of s)
   /\ match registry (sandbox c) with
      | Open open => sealed_snippets (compile (runtime_of (sandbox c))) (extensions (sandbox c)) open
                       (snippets (catalog_of s))
      | Sealed catalog => catalog_of s = catalog
      end
   /\ bindings (catalog_of s) = bindings (catalog_of (sandbox c))
   /\ flags (catalog_of s) = flags (catalog_of (sandbox c))
   /\ grants (catalog_of s) = grants (catalog_of (sandbox c))
   /\ forall os, let later := sandbox (perform_all os (perform o c)) in
        registry later = registry s
        /\ (forall o' f, registration o' = Some f -> exists err, f later = (Err err, later)
              /\ (err = SEALED \/ exists at_, err = HostError.Argument (mount_path_error at_)))
        /\ forall comp, seal comp true (registry later) = (catalog_of s, false, registry later))
  /\ (is_constant_name target = false -> snd (run_with target payload p c) = c).
Proof.
  assert (forall os (c' : call_state R S Fs Po Pv),
    registry (sandbox c') = Sealed (catalog_of (sandbox c')) ->
    registry (sandbox (perform_all os c')) = registry (sandbox c')) as Hall.
  { unfold perform_all. intros os. induction os as [|o os IH]; intros c' Hs; [done|].
    cbn [fold_left]. pose proof (perform_sealed o c' Hs) as [E _]. rewrite IH; [done|].
    unfold catalog_of. rewrite E, Hs. done. }
  split.
  - intros o Ho s.
    assert (s = snd (begin_invocation (sandbox c))) as Es.
    { subst s. destruct Ho as [->|[-> Hc]]; [apply start_sandbox|].
      cbn [perform]. unfold run_with. rewrite Hc. apply start_sandbox. }
    destruct (begin_invocation (sandbox c)) as [r s'] eqn:Eb. cbn [snd] in Es. subst s'.
    pose proof (begin_invocation_kept _ _ _ Eb) as (K1 & K2 & K3).
    pose proof (begin_invocation_seals _ _ _ Eb) as K4.
    apply begin_invocation_inv in Eb as (_ & _ & Hs & _). do 5 (split; [done|]).
    intros os later. pose proof (Hall os (perform o c) Hs) as Hl. split; [done|].
    fold later s in Hl.
    assert (catalog_of later = catalog_of s) as Ec by (unfold catalog_of at 1; rewrite Hl, Hs; done).
    split; [|intros comp; rewrite Hl, Hs; done].
    intros o' f Hf. eapply registration_sealed; [|exact Hf]. by rewrite Hl, Ec.
  - intros Hc. unfold run_with. by rewrite Hc.
Qed.

Lemma registry_seals_once_witness :
  registry (sandbox (perform (OpEval (lit "1") (CDone (Ok tt))) sample_state))
  = Sealed (catalog_of (sandbox (perform (OpEval (lit "1") (CDone (Ok tt))) sample_state)))
  /\ snd (run_with (lit "x") (Ready []) (CDone (Ok tt)) sample_state) = sample_state.
Proof.
  pose proof (registry_seals_once sample_state (lit "1") (lit "x") (Ready []) (CDone (Ok tt)))
    as [H1 H2].
  split; [exact (proj1 (H1 _ (or_introl eq_refl))) | exact (H2 eq_refl)].
Defined.

(** C20: an Extension that depends on one never installed keeps the Sandbox
    from ever running: the first verb seals the Catalog as it was registered,
    uncompiled, and leaves the thread alone, and it and every later verb,
    whatever happens between, answer the same error whatever the engine. *)
Theorem unmet_dependency_refuses `{CharTables} {R S Fs Po Pv : Type} `{Sentinel R S, !Providers R S Pv}
    (c : call_state R S Fs Po Pv) :
  unmet_dependency (extensions (sandbox c)) ->
  exists msg, forall source p,
    fst (eval_with source p c) = Err (Refused (HostError.Argument msg))
    /\ running (snd (eval_with source p c)) = running c
    /\ registry (sandbox (snd (eval_with source p c))) = Sealed (catalog_of (sandbox c))
    /\ forall os source' target payload p', is_constant_name target = true ->
         let later := perform_all os (snd (eval_with source p c)) in
         fst (eval_with source' p' later) = Err (Refused (HostError.Argument msg))
         /\ fst (run_with target payload p' later) = Err (Refused (HostError.Argument msg)).
Proof.
  intros (msg & Ha)%assert_dependencies_unmet. exists msg. intros source p.
  unfold eval_with. rewrite (start_unmet _ p c msg Ha). cbn [fst snd running sandbox].
  do 2 (split; [done|]). split; [done|]. intros os source' target payload p' Ht.
  set (later := perform_all os _).
  set (s1 := set_registry (Sealed (catalog_of (sandbox c))) (sandbox c)) in *.
  assert (forall os c', sandbox c' = s1 -> sandbox (perform_all os c') = s1) as Hall.
  { clear -Ha. unfold perform_all. intros os. induction os as [|o os IH]; intros c' Hc; [done|].
    cbn [fold_left]. apply IH. rewrite (perform_unmet o c' msg); by rewrite Hc. }
  assert (sandbox later = s1) as El by (by apply Hall).
  assert (assert_dependencies (extensions (sandbox later))
          = (Err (HostError.Argument msg), extensions (sandbox later))) as Hl by (by rewrite El).
  unfold run_with. rewrite Ht. cbn [negb].
  by rewrite !(start_unmet _ p' later msg Hl).
Qed.

Definition sample_unmet : call_state sample_receiver nat unit unit bool :=
  perform_all [OpInstall (MkExtension (lit "Orm") (lit "class Orm; end") [lit "Kv"] None)]
    (MkCall sample_start (Thread 0%nat None)).

Lemma unmet_dependency_refuses_witness :
  exists msg, fst (eval_with (lit "1") (CDone (Ok tt)) sample_unmet)
    = Err (Refused (HostError.Argument msg)).
Proof.
  destruct (unmet_dependency_refuses sample_unmet) as [msg Hm].
  { split; [done|]. exists (MkExtension (lit "Orm") (lit "class Orm; end") [lit "Kv"] None), (lit "Kv").
    split; [apply elem_of_cons; by left|]. split; [apply elem_of_cons; by left|].
    by intros [?|?%elem_of_nil]%elem_of_cons. }
  exists msg. exact (proj1 (Hm (lit "1") (CDone (Ok tt)))).
Defined.

(** ** What an invocation reaches *)

(** C21: a Call to a path reaches the last object this invocation's closure
    bound there, else what the path's provider answered this run, else the
    object bound at registration; and it reaches something exactly where the
    path was declared, so neither an override nor a provider adds a Service. *)
Theorem path_precedence `{CharTables} {R S Fs Po Pv : Type} `{Sentinel R S, !Providers R S Pv}
    engine floor (s0 : Sandbox R S Fs Po Pv) os th (p : cprog R S Fs Po) s1 ctx s2 h resolved h' path t :
  with_runtime engine floor = Ok s0 ->
  let s := sandbox (perform_all os (MkCall s0 th)) in
  let c := catalog_of s in
  collect_overrides c p s1 = (Ok ctx, s2) -> resolve s ctx h = (resolved, h') ->
  let providers := firsts [] (map snd (omap per_invocation (entries (extensions s)))) in
  let answered := provided_by (fst (provide_all providers (own (on h)))) in
  match resolve_target (MkHandler c resolved) (Call.Path path) t with
  | Err fault =>
    fault = Fault.Mk FaultKind.Undefined (lit "unknown constant " ++ path)
    /\ (path ∉ map fst (bindings c))
  | Ok object =>
    path ∈ map fst (bindings c)
    /\ match service_at (chosen c p s1 nothing) path with
       | Some override => object = override
       | None =>
         (exists pv, (path, pv) ∈ omap per_invocation (entries (extensions s))
            /\ answered pv = Some object)
         \/ (forall pv, (path, pv) ∉ omap per_invocation (entries (extensions s)))
            /\ (path, object) ∈ bindings c
       end
  end.
Proof.
  intros Hn s c Hc Hr providers answered.
  assert (wf_sandbox s) as [Hwf Hexts] by (apply perform_all_declared; by eapply with_runtime_wf).
  apply collect_overrides_ok in Hc as [Hctx Hch]. destruct (Hch path) as [Hs _].
  unfold resolve in Hr. destruct (resolve_extensions _ _) as [provided own'] eqn:Ep.
  injection Hr as <- <-. apply resolve_from_spec in Ep as (news & En & Hf). cbn [app map] in *.
  pose proof (provided_at _ _ (provided_by news) path Hf) as Hat.
  assert (answered = provided_by news) as -> by (subst answered providers; by rewrite En).
  cbn [resolve_target Dispatch.resolved Dispatch.catalog]. rewrite find_path_app, Hs.
  destruct (service_at _ path) as [o|] eqn:Eo.
  { cbn [ok_or]. split; [|done]. destruct Hctx as (Hd & _). apply find_path_in in Hs.
    apply list_elem_of_fmap in Hs as (b & -> & Hb). rewrite list.Forall_forall in Hd. by apply Hd. }
  destruct (find_path provided path) as [o|] eqn:Eo'.
  { cbn [ok_or]. destruct Hat as (pv & Hin & Hpv). split; [|left; eauto].
    apply list_elem_of_omap in Hin as (e & He & Hpe).
    rewrite list.Forall_forall in Hexts. specialize (Hexts e He). unfold per_invocation in Hpe.
    destruct (backend e) as [[q [|pv'|]]|] eqn:Eb; try done. injection Hpe as -> ->.
    apply list_elem_of_fmap. eexists. split; [|exact (Hexts _ Eb)]. done. }
  unfold lookup_service. destruct (find_path (bindings c) path) as [o|] eqn:El; cbn [ok_or].
  - split; [by eapply find_path_in|]. right. split; [done|].
    apply find_path_in in El as Hin. apply list_elem_of_fmap in Hin as ([q o'] & -> & Hin).
    cbn [fst] in *. pose proof (find_path_unique (bindings c) q o' (wf_disjoint _ Hwf) Hin). congruence.
  - split; [done|]. intros Hin. apply find_path_some in Hin as [o Ho]. congruence.
Qed.

Definition sample_closure : cprog sample_receiver nat unit unit :=
  CBind (lit "Clock") SMake (fun _ => CBind (lit "Ghost") SMake (fun _ => CDone (Ok tt))).

Lemma path_precedence_witness :
  match resolve_target (MkHandler (catalog_of (sandbox sample_state))
          (fst (resolve (sandbox sample_state)
                  (MkContext [(lit "Clock", SMake)] []) (Shared [] (Thread 0%nat None)))))
          (Call.Path (lit "Clock")) [] with
  | Ok object => object = SMake
  | Err _ => False
  end.
Proof.
  pose proof (path_precedence (Pv := bool) sample_engine Hermetic sample_start
    sample_ops (Thread 0%nat None) sample_closure 0%nat (MkContext [(lit "Clock", SMake)] []) 0%nat
    (Shared [] (Thread 0%nat None)) _ _ (lit "Clock") [] eq_refl eq_refl
    (surjective_pairing _)) as Hp.
  fold sample_state in Hp. cbv zeta in Hp. destruct (resolve_target _ _ _) as [object|fault].
  - exact (proj2 Hp).
  - destruct Hp as [_ Hp]. apply Hp. apply elem_of_cons. by left.
Defined.

(** The Grants an invocation runs with are the registered Mounts, in
    order and at their paths, each the last one its closure put there or its
    own; a closure replaces only what is mounted. *)
Theorem grants_overridden `{CharTables} {R S Fs Po : Type} `{Receivers R S}
    (c : Catalog R Fs Po) (p : cprog R S Fs Po) s ctx s' :
  collect_overrides c p s = (Ok ctx, s') ->
  for_invocation (grants c) (mounts ctx)
  = map (fun grant => match grant with
                      | GMount base =>
                        GMount (default base (mount_at (chosen c p s nothing) (at_path base)))
                      end) (grants c)
  /\ map to_mount_path (for_invocation (grants c) (mounts ctx)) = map to_mount_path (grants c)
  /\ Forall (fun m => is_mounted (grants c) (at_path m) = true) (mounts ctx).
Proof.
  intros Hc. apply collect_overrides_ok in Hc as [(_ & _ & Hm & _) Hch].
  split; [|split; [|done]].
  - unfold for_invocation. apply map_ext. intros [base]. cbn [to_mount_path mbind option_bind].
    destruct (Hch (at_path base)) as [_ ->]. by destruct (mount_at _ _).
  - unfold for_invocation. rewrite map_map. apply map_ext. intros [base].
    cbn [to_mount_path mbind option_bind]. destruct (find _ (mounts ctx)) as [m|] eqn:E; [|done].
    apply find_some in E as [_ E]. apply str_eq_true in E. cbn. by rewrite E.
Qed.

Lemma grants_overridden_witness :
  map to_mount_path (for_invocation (grants (catalog_of (sandbox sample_state)))
    [MkMount (lit "/data") tt false None]) = [Some (lit "/data")].
Proof.
  exact (proj1 (proj2 (grants_overridden (catalog_of (sandbox sample_state))
    (CMount (lit "/data") tt ReadWrite (fun r => CMount (lit "/tmp") tt Read (fun _ => CDone r)))
    0%nat (MkContext [] [MkMount (lit "/data") tt false None]) 0%nat eq_refl))).
Defined.

(** An invocation calls each provider once, in the order the Extensions
    were installed, and puts its one object at every path it backs, so paths
    sharing a provider share the object. *)
Theorem providers_once `{CharTables} {R S Pv : Type} `{Sentinel R S, !Providers R S Pv}
    (exts : Extensions R Pv) (s : S) :
  let backed := omap per_invocation (entries exts) in
  let '(resolved, s') := resolve_extensions exts s in
  exists calls order,
    provide_all order s = (calls, s') /\ map fst calls = order /\ NoDup order
    /\ (forall p, p ∈ order <-> p ∈ map snd backed)
    /\ Forall2 (fun declared bound => bound.1 = declared.1
                  /\ provided_by calls declared.2 = Some bound.2) backed resolved.
Proof.
  intros backed. unfold resolve_extensions.
  destruct (resolve_from [] (entries exts) s) as [resolved s'] eqn:E.
  apply resolve_from_spec in E as (news & En & Hf). cbn [map app] in *.
  exists news, (firsts [] (map snd backed)). split; [done|].
  split; [rewrite <- (provide_all_fst (firsts [] (map snd backed)) s); unfold backed; by rewrite En|].
  destruct (firsts_spec [] (map snd backed)) as [Hn Hi]. split; [done|]. split; [|done].
  intros p. rewrite Hi. split; [by intros [? _]|]. intros ?. split; [done | by intros ?%elem_of_nil].
Qed.

(** C24: an install that succeeds adds the Extension, its snippet and its
    binding together; one whose backend's path is refused leaves the Extension
    and the binding out but its snippet in, so the source still replays and its
    name stays taken. *)
Theorem install_exact `{CharTables} {R S Fs Po Pv : Type} `{Sentinel R S, !Providers R S Pv}
    (s : Sandbox R S Fs Po Pv) c e r s' :
  registry s = Open c -> sandbox_install e s = (r, s') ->
  let named := is_constant_name (ext_name e) = true /\ (ext_name e ∉ names_of (snippets c)) in
  let bound := match backend e with
               | Some b => bind_service c (path b) (object_of (provider b))
               | None => Ok c
               end in
  let with_snippet c := set_snippets c (snippets c ++ [Snippet.Source (ext_name e) (source e)]) in
  match bound, r with
  | Ok c', Ok _ => named /\ registry s' = Open (with_snippet c')
      /\ entries (extensions s') = entries (extensions s) ++ [e]
  | Err err, Err err' => extensions s' = extensions s
      /\ (named /\ err' = err /\ registry s' = Open (with_snippet c)
          \/ ~ named /\ registry s' = Open c)
  | Ok _, Err _ => ~ named /\ s' = s
  | Err _, Ok _ => False
  end.
Proof.
  intros Ho Hi named bound with_snippet.
  unfold sandbox_install, open_mut in Hi. rewrite Ho in Hi. unfold install in Hi.
  destruct (register_source (snippets c) (ext_name e) (source e)) as [table|err0] eqn:Es.
  - pose proof (proj1 (register_source_ok _ _ _ _) Es) as (N1 & N2 & ->).
    assert (named) as Hnm by done.
    assert (forall q o, bind_service (with_snippet c) q o
              = let? c' := bind_service c q o in Ok (with_snippet c')) as Hb.
    { intros q o. unfold bind_service, with_snippet, collides. cbn [bindings set_snippets].
      by repeat case_match. }
    destruct (backend e) as [b|]; subst bound.
    + fold (with_snippet c) in Hi. rewrite Hb in Hi.
      destruct (bind_service c (path b) _) as [c'|err]; cbn [rbind] in Hi; injection Hi as <- <-.
      * done.
      * cbn [extensions registry]. split; [done|]. by left.
    + injection Hi as <- <-. done.
  - assert (~ named) as Hnm.
    { intros [N1 N2]. pose proof (proj2 (register_source_ok (snippets c) (ext_name e) (source e) _)
        (conj N1 (conj N2 eq_refl))). congruence. }
    injection Hi as <- <-. assert (MkSandbox (runtime_of s) (Open c) (extensions s) (budget s) = s) as ->.
    { destruct s. cbn in *. by rewrite Ho. }
    destruct bound as [c'|err]; [done|]. split; [done|]. by right.
Qed.

Lemma install_exact_witness :
  let e := sample_extension (lit "C") (lit "Kv") true in
  fst (sandbox_install e (sandbox sample_state)) <> Ok tt
  /\ registry (snd (sandbox_install e (sandbox sample_state)))
     = Open (set_snippets (catalog_of (sandbox sample_state))
               (snippets (catalog_of (sandbox sample_state))
                ++ [Snippet.Source (lit "C") (lit "class KV; end")])).
Proof.
  intros e. split; [by vm_compute|].
  pose proof (install_exact (sandbox sample_state) _ e _ _ eq_refl (surjective_pairing _)) as Hx.
  cbv zeta in Hx. destruct Hx as [_ [(_ & _ & Hx)|[Hx _]]]; [exact Hx|].
  exfalso. apply Hx. split; [vm_compute; reflexivity|].
  apply (bool_decide_unpack _). vm_compute. exact I.
Defined.
