(* ===== verification/InvocationPromises.v ===== *)
(** One invocation's properties ([kobako]): how its Calls are answered, the
    Handles they issue, the values it reads, and how it ends. *)
From S2P Require Import Prelude Text Wire Messages PreambleMsg Transport Runtime Endpoint HostCalls NestedGuest Codec CodecRead Payload HostError Receivers Catalog Dispatch Overlay Sandbox InvocationFacts SdkPromises.

(** ** Calls *)

(** C25: a dispatch always answers.  A target nothing stands for, or a method
    its receiver does not show, is an [undefined] fault with nothing run; else
    the receiver's own answer is the reply, unless a block it yielded to broke
    out, which is the reply whatever the receiver made of it. *)
Theorem dispatch_answers `{CharTables} {R S Fs Po G F : Type} `{!Receivers R S}
    `{!GuestInstance G (shared R S) F}
    (h : CatalogHandler R Fs Po) (c : Call.t) frame (w : world G (shared R S) F) :
  let undefined reply := exists msg, reply = Reply.Fault (Fault.Mk FaultKind.Undefined msg) in
  exists reply w',
    run_handler (dispatch (catalog_handler h) c frame) w = (Some reply, w')
    /\ match resolve_target h (Call.to c) (table (host w)) with
       | Err _ => undefined reply /\ w' = w
       | Ok object =>
         if respond_to_guest object (own (on (host w))) (Call.method c) then
           let p := call object (Call.method c) (Call.payload c) (Call.block_given c) in
           exists answer,
             fst (fst (run_handler (run_receiver p frame false) w)) = answer
             /\ w' = snd (run_handler (run_receiver p frame false) w)
             /\ reply = if broke p frame w then Reply.Break
                        else match answer with
                             | Ok body => Reply.Ok body
                             | Err fault => Reply.Fault fault
                             end
         else undefined reply /\ w' = w
       end.
Proof.
  intros undefined. cbn [dispatch catalog_handler]. unfold answer. cbn [hbind run_handler].
  destruct (resolve_target h (Call.to c) (table (host w))) as [object|fault] eqn:Er.
  2:{ cbn [hbind run_handler]. eexists _, w. split; [done|]. split; [|done].
      unfold resolve_target, undefined in *.
      destruct (Call.to c); [destruct (find_path _ _); [done|]; destruct (lookup_service _ _)
        | destruct (HandleTable.get _ _)]; try done; injection Er as <-; by eexists. }
  destruct (respond_to_guest object _ _); cbn [negb hbind run_handler].
  2:{ eexists _, w. split; [done|]. split; [by eexists | done]. }
  set (p := call object (Call.method c) (Call.payload c) (Call.block_given c)).
  rewrite !run_hbind. destruct (run_receiver_broke p frame false w) as (a & w' & E).
  rewrite E. cbn [orb run_handler]. exists (reply_of (Call.block_given c) (broke p frame w) a), w'.
  split; [done|]. exists a. split; [done|]. split; [done|]. unfold reply_of, p.
  destruct (Call.block_given c); [done|]. by rewrite broke_no_block.
Qed.

(** C26: an upcall into a Catalog's handler, whatever it nests, leaves every
    Handle already issued naming the same object, and the table within ids the
    wire carries; a Handle allocated is new, names its object, and is one the
    codec encodes, until the ids are spent. *)
Theorem handles_stable `{CharTables} {R S Fs Po G F : Type} `{!Receivers R S}
    `{!GuestInstance G (shared R S) F, !GuestLaws G (shared R S) F}
    `{!GuestGrows (Fs := Fs) (Po := Po) G F} p n (w : world G (shared R S) F) r w' :
  reentry_trap (calls w) = None -> bound (Fs := Fs) (Po := Po) w -> handle p n w = (r, w') ->
  (forall id object, HandleTable.get (table (host w)) id = Some object ->
     HandleTable.get (table (host w')) id = Some object)
  /\ (ok_table (table (host w)) -> ok_table (table (host w'))
      /\ forall id object, HandleTable.get (table (host w')) id = Some object ->
           wf_value (Handle id))
  /\ forall (t : list R) object id t', ok_table t -> HandleTable.alloc object t = (id, t') ->
       match id with
       | Ok id => HandleTable.get t id = None /\ HandleTable.get t' id = Some object
                  /\ wf_value (Handle id)
       | Err _ => t' = t /\ len t = HandleTable.MAX_HANDLE_ID
       end.
Proof.
  intros Ht Hb Hh. apply (handle_grows (Fs := Fs) (Po := Po)) in Hh as ([more E] & Hok & _); [|done..].
  split; [|split].
  - intros id object Hg. rewrite E. by apply get_app.
  - intros Hw. split; [by apply Hok|]. intros id object Hg%get_some_id.
    specialize (Hok Hw). unfold ok_table in Hok. cbn [wf_value].
    change MAX_HANDLE_ID with HandleTable.MAX_HANDLE_ID. lia.
  - intros t object id t' Hw Ha. pose proof (len_nonneg t).
    apply alloc_inv in Ha as [(-> & -> & Hl)|(-> & -> & Hl & Hok')]; [done| |done].
    rewrite Hl. split; [|split; [apply get_last|]].
    + rewrite get_spec. destruct (Z.leb_spec (len t + 1) (len t)); [lia|]. by rewrite andb_false_r.
    + unfold ok_table in Hok'. cbn [wf_value].
      change MAX_HANDLE_ID with HandleTable.MAX_HANDLE_ID. lia.
Qed.

(** A guest whose upcall makes a Handle while one is already out. *)
Definition sample_make : list byte :=
  Upcall.encode (Upcall.Call (Call.Mk (Call.Path (lit "Maker")) (lit "new") false [])).

Definition sample_calling : world wasm (shared sample_receiver nat) (list byte) :=
  World (Wasm (sample_make ++ repeat x00 (96 - length sample_make)) 40 (fun _ => GTrap []))
    (MkCalls (Some (catalog_handler (Fs := unit) (Po := unit)
       (MkHandler (MkCatalog [(lit "Maker", SMake)] [] [] []) []))) 0 None)
    (Shared [SYield] (Thread 0%nat None)).

Lemma handles_stable_witness :
  HandleTable.get (table (host (snd (handle (GuestInstance0 := nested 1) 0 (len sample_make)
    sample_calling)))) 1 = Some SYield.
Proof.
  assert (bound (Fs := unit) (Po := unit) sample_calling) as Hb by (intros h [= <-]; by eexists).
  exact (proj1 (handles_stable (Fs := unit) (Po := unit) (GuestInstance0 := nested 1)
    0 (len sample_make) sample_calling _ _ eq_refl Hb (surjective_pairing _)) 1 SYield eq_refl).
Defined.

(** A value-tree receiver is run on exactly the arguments the guest
    encoded, within the invocation's value budget, and not at all on a payload
    past the budget or one no arguments encode; what it answers reads back as
    the value it answered, and a block is yielded exactly the values it was
    called with. *)
Theorem value_receiver_exact `{CharTables, RmpSpec} {R S G F : Type}
    `{!GuestInstance G (shared R S) F} (v : value_call (R := R) (S := S))
    method payload block frame (w : world G (shared R S) F) :
  let ran := run_handler (run_receiver (into_receiver v method payload block) frame false) w in
  let budget := BUDGET (on (host w)) in
  (forall a, wf_arguments a -> depth_of (arguments_value a) <= MAX_NESTING_DEPTH ->
     ok_budget budget -> encode_arguments a = Ok payload ->
     ran = match spend_count budget (count_of (arguments_value a)) with
           | None => ((Err (request_fault OVER_BUDGET), false), w)
           | Some _ =>
             let '((r, broken), w') :=
               run_handler (run_receiver (v method (args a) (kwargs a) block) frame false) w in
             ((write_answer r, broken), w')
           end)
  /\ (forall err, decode_within payload budget = Err err ->
        ran = ((Err (request_fault err), false), w))
  /\ forall value, wf_value value -> depth_of value <= MAX_NESTING_DEPTH ->
       exists body, write_answer (Ok value) = Ok body /\ decode_body None body = Ok value.
Proof.
  intros ran budget.
  assert (forall a, decode_within payload budget = Ok a ->
    ran = let '((r, broken), w') :=
            run_handler (run_receiver (v method (args a) (kwargs a) block) frame false) w in
          ((write_answer r, broken), w')) as Hok.
  { intros a E. subst ran. unfold into_receiver. cbn [run_receiver run_handler].
    fold budget. rewrite E. cbn [map_err]. rewrite run_receiver_bind.
    by destruct (run_handler _ w) as [[r broken] w']. }
  assert (forall err, decode_within payload budget = Err err ->
    ran = ((Err (request_fault err), false), w)) as Herr.
  { intros err E. subst ran. unfold into_receiver. cbn [run_receiver run_handler].
    fold budget. by rewrite E. }
  split; [|split; [exact Herr|]].
  - intros a Hw Hd Hb He. unfold encode_arguments in He. fold (arguments_value a) in He.
    rewrite encode_value_wf in He by (by apply wf_arguments_value || done).
    assert (payload = enc_value (arguments_value a)) as -> by congruence.
    pose proof (read_sole_encoded (arguments_value a) [] budget
      (wf_arguments_value _ Hw) Hd Hb) as Hr. rewrite app_nil_r in Hr.
    destruct (spend_count budget _) as [left|].
    + apply Hok. apply decode_within_ok. by eexists.
    + apply Herr. unfold decode_within.
      rewrite Hr. done.
  - intros value Hw Hd. exists (enc_value value). unfold write_answer, decode_body. cbn [rbind].
    rewrite encode_value_wf by done. split; [done|].
    pose proof (read_sole_encoded value [] None Hw Hd I) as Hr. rewrite app_nil_r in Hr.
    rewrite Hr. done.
Qed.

(** A receiver that answers its first argument. *)
Definition sample_first : value_call (R := sample_receiver) (S := nat) :=
  fun _ args _ _ => RRet (Ok (default Nil (head args))).

Lemma value_receiver_exact_witness :
  fst (fst (run_handler (GuestInstance0 := nested 1)
    (run_receiver (into_receiver (H := mp_rmp) sample_first (lit "call")
       (enc_value (arguments_value (MkArguments [Int 5] []))) false) 0 false)
    (World (Wasm [] 1 (fun _ => GTrap [])) calls_default
       (Shared [] (Thread 0%nat (Some 4))))))
  = Ok [x05].
Proof.
  assert (wf_arguments (MkArguments [Int 5] [])) as Hw.
  { split; [by vm_compute|]. split; [by repeat constructor|]. split; [by vm_compute | constructor]. }
  rewrite (proj1 (value_receiver_exact (H0 := mp_rmp) (H1 := mp_rmp_spec)
    (GuestInstance0 := nested 1) sample_first (lit "call")
    (enc_value (arguments_value (MkArguments [Int 5] []))) false 0
    (World (Wasm [] 1 (fun _ => GTrap [])) calls_default (Shared [] (Thread 0%nat (Some 4)))))
    (MkArguments [Int 5] []) Hw).
  - by vm_compute.
  - by vm_compute.
  - by vm_compute.
  - by vm_compute.
Defined.

(** ** The Execution *)

(** Each side of an attribution read off its constructors. *)
Ltac attribution :=
  repeat split; intros;
  repeat match goal with
  | H : ex _ |- _ => destruct H
  | H : _ /\ _ |- _ => destruct H
  | H : _ \/ _ |- _ => destruct H
  end; simplify_eq/=; try congruence; try (by left; eauto 8); try (by right; eauto 8); eauto 8.

(** The object an Execution's table holds for a Handle's id: ids count from one. *)
Definition issued {R : Type} (e : Execution R) (id : Z) (object : R) : Prop :=
  1 <= id /\ handles e !! Z.to_nat (id - 1) = Some object.

Lemma issued_live {R : Type} (e : Execution R) id :
  live (handles e) id = true <-> exists object, issued e id object.
Proof. apply live_issued. Qed.

(** C28: an Execution's value is the one its outcome's bytes encode, within its
    budget, every Handle in it one the invocation issued; bytes that encode
    none are a wire violation, and the first Handle it never issued, in the order
    a value is written, is the failure it answers, every one before it issued. *)
Theorem execution_value_exact `{RmpSpec} {R : Type} (e : Execution R) body :
  outcome e = Ok body -> ok_budget (value_budget e) ->
  let read := read_sole_value (with_value_budget (decoder_new body) (value_budget e)) in
  match execution_value e with
  | Ok v =>
    wf_value v /\ depth_of v <= MAX_NESTING_DEPTH
    /\ (forall limit, value_budget e = Some limit -> count_of v <= limit)
    /\ (exists d, read = Ok (v, d))
    /\ Forall (fun id => exists object, issued e id object) (handles_in v)
  | Err err =>
    (exists detail, read = Err detail
       /\ err = HostError.Sandbox (Failure.Mk (lit "Kobako::Transport::Error")
            (lit "Sandbox produced an invalid result value") [] [] (Some (Error.to_string detail))))
    \/ exists v d before id after, read = Ok (v, d)
       /\ handles_in v = before ++ id :: after
       /\ Forall (fun id => exists object, issued e id object) before
       /\ ~ (exists object, issued e id object)
       /\ err = HostError.Sandbox (Failure.Mk (lit "Kobako::SandboxError")
            (lit "unknown Handle id: " ++ display_uint id) [] [] None)
  end.
Proof.
  intros Ho Hb read. unfold execution_value. rewrite Ho. cbn [rbind]. unfold decode_value. fold read.
  destruct read as [[v d]|detail] eqn:Er; cbn [rbind map_err]; [|by left; eexists].
  rewrite require_live_handles_spec. destruct (first_dead (handles e) (handles_in v)) as [[]|err] eqn:Ed;
    cbn [rbind].
  - apply read_sole_sound in Er as Hs; [|done]. destruct Hs as (Hw & Hd & _ & Hs).
    split; [done|]. split; [done|]. split; [|split; [by eexists|]].
    + intros limit El. rewrite El in Hs. unfold spend_count in Hs. by destruct (Z.leb_spec (count_of v) limit).
    + apply first_dead_ok in Ed. eapply Forall_impl; [|exact Ed]. intros id Hid. apply issued_live.
      unfold live. by destruct Hid as [o ->].
  - right. apply first_dead_first in Ed as (before & id & after & Hin & Hl & Hd & ->).
    exists v, d, before, id, after. split; [done|]. split; [done|]. split; [|split; [|done]].
    + eapply Forall_impl; [|exact Hl]. intros i. apply issued_live.
    + rewrite <- issued_live. congruence.
Qed.

(** Of the Handles 1, 3 and 2, in a table of one object, the second is named. *)
Lemma execution_value_exact_witness :
  exists err, execution_value (H2 := mp_rmp)
    (MkExecution (Ok (enc_value (Array [Handle 1; Handle 3; Handle 2]))) [SEcho]
       Capture.default Capture.default Usage.default (Some 4)) = Err err
    /\ err = unknown_handle 3.
Proof.
  set (body := enc_value _). set (e := MkExecution (Ok body) _ _ _ _ _).
  assert (exists d, read_sole_value (H := mp_rmp) (with_value_budget (decoder_new body) (Some 4))
    = Ok (Array [Handle 1; Handle 3; Handle 2], d)) as [d0 Er] by (eexists; by vm_compute).
  pose proof (execution_value_exact (H := mp_rmp) (H0 := mp_rmp_spec) e body eq_refl
    ltac:(vm_compute; discriminate)) as Hx. cbv zeta in Hx.
  destruct (execution_value e) as [v|err] eqn:Ev; [vm_compute in Ev; discriminate|].
  exists err. split; [done|]. change (value_budget e) with (Some 4) in Hx. rewrite Er in Hx.
  destruct Hx as [(detail & Hx & _)|(v & d & before & id & after & Hv & Hin & Hl & Hdead & ->)]; [discriminate|].
  injection Hv as <- _. destruct before as [|i before]; injection Hin as <- Hin.
  { destruct Hdead. exists SEcho. by split. }
  destruct before as [|j before]; [by injection Hin as <- _|].
  injection Hin as <- _. inversion Hl as [|? ? _ Hl']. inversion Hl' as [|? ? (o & _ & Ho) _]. discriminate.
Defined.

(** C29: an Execution's outcome is attributed by how the guest ended and what
    it named, and never otherwise: the payload, the Service's failure, the
    bytecode's, the flag's, the Sandbox's own, each as the guest reported it, or
    the trap of the cap that fired, or any other. *)
Theorem outcome_attribution {R S : Type} (snapshot : Snapshot.t) verb (h : shared R S) :
  let e := build_execution snapshot verb h in
  let ended completion := Snapshot.completion snapshot = completion in
  let panicked origin (named : list byte -> Prop) f := exists p,
    ended (Completion.Outcome (Outcome.Panic p))
    /\ Panic.origin p = origin /\ named (ErrorRecord.name (Panic.error p))
    /\ f = Failure.Mk (ErrorRecord.name (Panic.error p)) (ErrorRecord.message (Panic.error p))
         (ErrorRecord.backtrace (Panic.error p)) (Panic.available p) None in
  let bytecode := lit "Kobako::BytecodeError" in
  let flag := lit "Kobako::UnsupportedFlagError" in
  let unsupported := Failure.Mk (lit "Kobako::SandboxError")
    (lit "the Sandbox runtime does not support #" ++ verb
     ++ lit "; rebuild it against the kobako version in use") [] [] None in
  (forall payload, outcome e = Ok payload <-> ended (Completion.Outcome (Outcome.Ok payload)))
  /\ (forall f, outcome e = Err (HostError.Service f) <-> panicked Origin.Service (fun _ => True) f)
  /\ (forall f, outcome e = Err (HostError.Bytecode f) <->
        panicked Origin.Sandbox (fun name => name = bytecode) f)
  /\ (forall f, outcome e = Err (HostError.UnsupportedFlag f) <->
        panicked Origin.Sandbox (fun name => name = flag) f)
  /\ (forall f, outcome e = Err (HostError.Sandbox f) <->
        panicked Origin.Sandbox (fun name => name <> bytecode /\ name <> flag) f
        \/ f = unsupported /\ exists u, ended (Completion.Outcome (Outcome.Unsupported u)))
  /\ (forall message, outcome e = Err (HostError.Timeout message) <->
        ended (Completion.Trap (Trap.Timeout message)))
  /\ (forall message, outcome e = Err (HostError.MemoryLimit message) <->
        ended (Completion.Trap (Trap.MemoryLimit message)))
  /\ (forall message, outcome e = Err (HostError.Trap message) <->
        ended (Completion.Trap (Trap.Other message)))
  /\ forall err, outcome e = Err err ->
       match err with
       | HostError.Setup _ | HostError.Sealed _ | HostError.Argument _ => False
       | _ => True
       end.
Proof.
  cbv zeta. unfold build_execution. cbn [outcome].
  assert (lit "Kobako::BytecodeError" <> lit "Kobako::UnsupportedFlagError") as Hne by by vm_compute.
  destruct (Snapshot.completion snapshot) as [[payload|p|u]|[]]; cbn [classify HostError.from_trap];
    unfold classify_panic, str_eq, Failure.host; cbn [Failure.name];
    try (destruct (Panic.origin p) eqn:Eo; repeat case_bool_decide);
    attribution.
Qed.

(** C30: a verb, however it ends, leaves the thread's value budget as it was;
    and the Execution it returns keeps the Sandbox's own, so a value read from
    it is within that budget though the invocation is over, its Handles' ids
    all ones the wire carries. *)
Theorem budget_scoped `{CharTables, RmpSpec} {R S Fs Po Pv : Type} `{Sentinel R S, !Providers R S Pv}
    (c : call_state R S Fs Po Pv) `{!EngineLaws (runtime_of (sandbox c))} source target payload p :
  let kept (ended : result refusal (Execution R) * call_state R S Fs Po Pv) :=
    BUDGET (running (snd ended)) = BUDGET (running c)
    /\ forall e, fst ended = Ok e ->
         value_budget e = budget (sandbox c)
         /\ (forall id object, execution_resolve e id = Some object ->
               0 < id <= MAX_HANDLE_ID)
         /\ forall v limit, budget (sandbox c) = Some limit -> 0 <= limit ->
              execution_value e = Ok v -> count_of v <= limit in
  kept (eval_with source p c) /\ kept (run_with target payload p c).
Proof.
  intros kept. assert (forall ended, verb_left c (fst ended) (snd ended) -> kept ended) as Hk.
  { intros ended [Hb He]. split; [done|]. intros e Ee. destruct (He e Ee) as (Eb & Hok & _).
    split; [done|]. split.
    - intros id object Hg%get_some_id. unfold ok_table in Hok.
      change MAX_HANDLE_ID with HandleTable.MAX_HANDLE_ID. lia.
    - intros v limit El Hl Hv. unfold execution_value in Hv.
      apply rbind_ok in Hv as (body & _ & Hv). apply rbind_ok in Hv as (v' & Hv & Hr).
      apply rbind_ok in Hr as (_ & _ & [= ->]). unfold decode_value in Hv. rewrite Eb, El in Hv.
      destruct (read_sole_value _) as [[v0 d]|] eqn:Er; [|done]. injection Hv as ->.
      apply read_sole_sound in Er as (_ & _ & _ & Hs); [|done]. unfold spend_count in Hs.
      by destruct (Z.leb_spec (count_of v) limit). }
  split; apply Hk.
  - destruct (eval_with source p c) eqn:E. by eapply eval_with_left.
  - destruct (run_with target payload p c) eqn:E. by eapply run_with_left.
Qed.

(** The sample Sandbox at a budget of four values, on a thread at none. *)
Definition sample_budgeted : call_state sample_receiver nat unit unit bool :=
  MkCall (MkSandbox sample_engine (registry (sandbox sample_state))
            (extensions (sandbox sample_state)) (Some 4)) (Thread 0%nat None).

Definition sample_source : list byte := enc_value (Array [Int 1; Str (lit "a")]).

Lemma budget_scoped_witness :
  exists e, fst (eval_with sample_source (CDone (Ok tt)) sample_budgeted) = Ok e
    /\ execution_value (H2 := mp_rmp) e = Ok (Array [Int 1; Str (lit "a")])
    /\ count_of (Array [Int 1; Str (lit "a")]) <= 4
    /\ BUDGET (running (snd (eval_with sample_source (CDone (Ok tt)) sample_budgeted))) = None.
Proof.
  pose proof (budget_scoped (H0 := mp_rmp) (H1 := mp_rmp_spec) sample_budgeted
    (EngineLaws0 := nested_engine_laws 2 256 sample_code (fun _ => Answered None)) sample_source
    (lit "x") (Ready []) (CDone (Ok tt))) as [[Hb He] _].
  destruct (fst (eval_with sample_source (CDone (Ok tt)) sample_budgeted)) as [e|r] eqn:E.
  2:{ exfalso. clear -E. vm_compute in E. discriminate E. }
  assert (execution_value (H2 := mp_rmp) e = Ok (Array [Int 1; Str (lit "a")])) as Ev.
  { clear -E. vm_compute in E. injection E as <-. by vm_compute. }
  exists e. split; [done|]. split; [exact Ev|]. split; [|exact Hb].
  exact (proj2 (proj2 (He e eq_refl)) _ 4 eq_refl ltac:(lia) Ev).
Defined.
