(* ===== verification/GuestCore.v ===== *)
(** The Guest Binary's ABI contract ([wasm/kobako-core]): the Preamble read
    from stdin, the downcall served through the [Guest] trait, the upcall a
    guest dispatches, and the answers laid in its memory.  A guest's entry is a
    program of upcalls, each answered with the bytes [host_call] read back. *)
From S2P Require Import Prelude Text Wire Messages PreambleMsg Endpoint.

(** ** Dispatch errors ([proxy.rs]) *)

Module DispatchError.
Inductive t :=
| Fault (fault : Fault.t)
| Break
| Envelope (err : decode_error)
| Unsupported (refusal : Unsupported.t).

Definition to_string (e : t) : list byte :=
  match e with
  | Fault _ => lit "the Service answered on the fault arm"
  | Break => lit "a block exit unwound the Service"
  | Envelope err => lit "Sandbox communication error: " ++ message err
  | Unsupported refusal =>
    lit "the host does not serve this request: " ++ Unsupported.message refusal
  end.
End DispatchError.

(** ** Guest code *)

(** Code of a guest: what it ends with, the host calls it makes first, and the
    abort of [panic = abort]. *)
Inductive guest_prog (A : Type) :=
| GRet (a : A)
| GHostCall (request : list byte) (k : result DispatchError.t (list byte) -> guest_prog A)
| GAbort (reason : list byte).
Arguments GRet {A} a.
Arguments GHostCall {A} request k.
Arguments GAbort {A} reason.

Fixpoint gbind {A B} (p : guest_prog A) (k : A -> guest_prog B) : guest_prog B :=
  match p with
  | GRet a => k a
  | GHostCall request q => GHostCall request (fun r => gbind (q r) k)
  | GAbort reason => GAbort reason
  end.

Definition gmap {A B} (f : A -> B) (p : guest_prog A) : guest_prog B :=
  gbind p (fun a => GRet (f a)).

(** [trait Guest]. *)
Class Guest := {
  g_eval : Preamble.t -> list byte -> guest_prog Outcome.t;
  g_run : Preamble.t -> Run.t -> guest_prog Outcome.t;
  g_yield_to_block : Z -> list byte -> guest_prog YieldReply.t;
  g_compile : Preamble.t -> guest_prog CompileReply.t;
}.

(** The trait's default [yield_to_block] and [compile]. *)
Definition default_yield_to_block (_ : Z) (_ : list byte) : guest_prog YieldReply.t :=
  GRet (YieldReply.Unsupported (Unsupported.Mk (lit "this guest serves no block"))).

Definition default_compile (_ : Preamble.t) : guest_prog CompileReply.t :=
  GRet (CompileReply.Unsupported (Unsupported.Mk (lit "this guest does not compile"))).

(** [proxy::dispatch]. *)
Definition read_reply (reply_bytes : list byte) : result DispatchError.t (list byte) :=
  let? reply := map_err DispatchError.Envelope (Reply.decode reply_bytes) in
  match reply with
  | Reply.Ok body => Ok body
  | Reply.Fault fault => Err (DispatchError.Fault fault)
  | Reply.Break => Err DispatchError.Break
  | Reply.Unsupported refusal => Err (DispatchError.Unsupported refusal)
  end.

Definition dispatch_call (to : Call.target) (method : list byte) (block_given : bool)
    (payload : list byte) : guest_prog (result DispatchError.t (list byte)) :=
  GHostCall (Upcall.encode (Upcall.Call (Call.Mk to method block_given payload)))
    (fun reply_bytes => GRet (let? reply_bytes := reply_bytes in read_reply reply_bytes)).

(** [host_call]'s reading of what [__kobako_upcall] returned. *)
Definition host_answer (mem : list byte) (packed : Z) : result DispatchError.t (list byte) :=
  let '(ptr, n) := Abi.unpack_ptr_len packed in
  if n =? 0 then Err (DispatchError.Envelope (DecodeError (lit "the host returned an empty Reply")))
  else Ok (take (Z.to_nat n) (drop (Z.to_nat ptr) mem)).

(** ** The Preamble ([preamble.rs]) *)

(** [Read::read_exact] of [n] bytes from what stdin still holds. *)
Definition read_exact (n : Z) (input : list byte) : option (list byte * list byte) :=
  if n <=? len input then Some (take (Z.to_nat n) input, drop (Z.to_nat n) input) else None.

Definition read_framed (input : list byte) : option (list byte) :=
  '(len_buf, input) ← read_exact Abi.FRAME_LEN_SIZE input;
  let n := be_decode len_buf in
  if Abi.MAX_FRAME_LEN <? n then None
  else '(payload, _) ← read_exact n input; Some payload.

Definition boot_failure (message : list byte) : Panic.t :=
  Panic.Mk Origin.Sandbox (ErrorRecord.Mk (lit "Kobako::BootError") message []) [].

Definition read_preamble (stdin : list byte) : result Panic.t Preamble.t :=
  let? bytes := ok_or (read_framed stdin)
    (boot_failure (lit "failed to read the Sandbox's Preamble")) in
  map_err (fun err => boot_failure (lit "failed to decode the Sandbox's Preamble: " ++ message err))
    (Preamble.decode bytes).

(** ** Downcalls ([abi/downcall.rs]) *)

Definition hex_digit (n : Z) : byte := byte_of_Z (if n <? 10 then 48 + n else 87 + n).
(** [{:#04x}] of a byte. *)
Definition hex_byte (b : byte) : list byte :=
  lit "0x" ++ [hex_digit (byte_to_Z b / 16); hex_digit (byte_to_Z b mod 16)].

Definition malformed_request : Panic.t :=
  Panic.Mk Origin.Sandbox
    (ErrorRecord.Mk (lit "Kobako::Transport::Error")
       (lit "failed to decode the invocation request") []) [].

Section Serve.
Context `{Guest} (stdin : list byte).

Definition serve_invoke (entry : Preamble.t -> guest_prog Outcome.t) : guest_prog (list byte) :=
  gmap Outcome.encode
    match read_preamble stdin with
    | Ok preamble => entry preamble
    | Err panic => GRet (Outcome.Panic panic)
    end.

Definition serve_compile : guest_prog CompileReply.t :=
  match read_preamble stdin with
  | Ok preamble => g_compile preamble
  | Err refused => GRet (CompileReply.Error (Panic.error refused))
  end.

Definition serve (request : list byte) : guest_prog (list byte) :=
  match Downcall.decode request with
  | Ok (Downcall.Eval source) => serve_invoke (fun preamble => g_eval preamble source)
  | Ok (Downcall.Run run) => serve_invoke (fun preamble => g_run preamble run)
  | Ok (Downcall.Yield frame args) => gmap YieldReply.encode (g_yield_to_block frame args)
  | Ok Downcall.Compile => gmap CompileReply.encode serve_compile
  | Ok _ =>
    GRet (Unsupported.encode (Unsupported.Mk
      (lit "this guest does not serve tag " ++ hex_byte (default x00 (head request)))))
  | Err _ => GRet (Outcome.encode (Outcome.Panic malformed_request))
  end.
End Serve.

(** ** Guest memory ([abi/memory.rs]) *)

(** wasi-libc's [malloc]: an address, 0 where none could be reserved, and the
    memory it leaves. *)
Class Malloc := { malloc : Z -> list byte -> Z * list byte }.

Section Memory.
Context `{Malloc}.

Definition guest_alloc (size : Z) (mem : list byte) : Z * list byte := malloc size mem.

Definition answer_bytes (bytes : list byte) (mem : list byte) : Z * list byte :=
  if 2 ^ 32 <=? len bytes then (0, mem)
  else
    let '(ptr, mem) := guest_alloc (len bytes) mem in
    if (ptr =? 0) || (len bytes =? 0) then (0, mem)
    else (Abi.pack_ptr_len ptr (len bytes), copy_at mem ptr bytes).
End Memory.

(** ** Facts *)

Lemma read_exact_app (pre rest : list byte) : read_exact (len pre) (pre ++ rest) = Some (pre, rest).
Proof.
  unfold read_exact. destruct (Z.leb_spec (len pre) (len (pre ++ rest))); [|len_lia].
  unfold len. by rewrite Nat2Z.id, take_app_length, drop_app_length.
Qed.

Lemma read_exact_some n input (bytes rest : list byte) :
  0 <= n -> read_exact n input = Some (bytes, rest) -> input = bytes ++ rest /\ len bytes = n.
Proof.
  unfold read_exact. intros Hn. destruct (Z.leb_spec n (len input)); [|done]. intros [= <- <-].
  rewrite take_drop. split; [done|]. unfold len in *. rewrite length_take. lia.
Qed.

(** A frame reads back, whatever stdin holds past it; and only a frame reads. *)
Lemma read_framed_iff stdin bytes :
  read_framed stdin = Some bytes <->
  len bytes <= Abi.MAX_FRAME_LEN /\ exists rest, stdin = be_encode 4 (len bytes) ++ bytes ++ rest.
Proof.
  pose proof (len_nonneg bytes). unfold read_framed, Abi.FRAME_LEN_SIZE. split.
  - destruct (read_exact 4 stdin) as [[head input]|] eqn:E1; [|done]. cbn [mbind option_bind].
    apply read_exact_some in E1 as [-> Hh]; [|lia].
    destruct (Z.ltb_spec Abi.MAX_FRAME_LEN (be_decode head)); [done|].
    destruct (read_exact (be_decode head) input) as [[payload rest]|] eqn:E2; [|done].
    cbn [mbind option_bind]. intros [= ->]. pose proof (be_decode_range head).
    apply read_exact_some in E2 as [-> Hp]; [|lia]. split; [lia|]. exists rest.
    rewrite Hp. f_equal. rewrite <- (be_encode_decode head) at 1. f_equal. unfold len in Hh. lia.
  - intros [Hl (rest & ->)].
    replace 4 with (len (be_encode 4 (len bytes))) at 1 by apply len_be_encode.
    rewrite read_exact_app. cbn [mbind option_bind]. rewrite be_decode_encode.
    unfold Abi.MAX_FRAME_LEN in *. rewrite Z.mod_small by lia.
    destruct (Z.ltb_spec (64 * 1024 * 1024) (len bytes)); [lia|].
    by rewrite read_exact_app.
Qed.
