(* ===== verification/GuestPromises.v ===== *)
(** The Guest Binary's properties ([wasm/kobako-core]): what reaches its
    entries, what a host reads of its answers, and the exchange of a Call. *)
From S2P Require Import Prelude Text Wire Messages PreambleMsg Transport Runtime Endpoint HostCalls NestedGuest HostPromises GuestCore.

(** The entry a request names, on a Preamble. *)
Definition entry_of `{Guest} (preamble : Preamble.t) (entry : Entry.t) : guest_prog Outcome.t :=
  match entry with
  | Entry.Eval source => g_eval preamble source
  | Entry.Run entrypoint payload => g_run preamble (Run.Mk entrypoint payload)
  end.

Definition ok_entry (entry : Entry.t) : Prop :=
  match entry with Entry.Eval _ => True | Entry.Run entrypoint _ => ok_text entrypoint end.

Lemma stdin_frame preamble stdin :
  stdin_content preamble = Ok stdin ->
  read_framed stdin = Some (Preamble.encode preamble) /\ fits (Preamble.encode preamble).
Proof.
  unfold stdin_content. intros (n & Hn%checked_payload_len_ok & [= <-])%rbind_ok.
  destruct Hn as [_ Hn]. unfold Abi.MAX_DISPATCH_PAYLOAD in Hn.
  pose proof (len_nonneg (Preamble.encode preamble)).
  rewrite as_u32_id by (unfold in_u32; lia). split; [|unfold fits, USIZE_MAX; lia].
  apply read_framed_iff. split; [unfold Abi.MAX_FRAME_LEN; lia|].
  exists []. by rewrite app_nil_r.
Qed.

Lemma read_preamble_stdin preamble stdin :
  ok_preamble preamble -> stdin_content preamble = Ok stdin -> read_preamble stdin = Ok preamble.
Proof.
  intros Hok [Hf Hfits]%stdin_frame. unfold read_preamble. rewrite Hf. cbn [ok_or rbind].
  by rewrite preamble_decode_encode.
Qed.

Lemma request_of_decode entry :
  ok_entry entry -> fits (request_of entry) ->
  Downcall.decode (request_of entry)
  = Ok match entry with
       | Entry.Eval source => Downcall.Eval source
       | Entry.Run entrypoint payload => Downcall.Run (Run.Mk entrypoint payload)
       end.
Proof.
  intros Hok Hf. apply downcall_decode_iff; [done|]. split; [|by destruct entry].
  destruct entry; [done|]. exact Hok.
Qed.

(** C31: a guest served the stdin and the request a host writes runs exactly
    the entry asked for, on the Preamble the host sent and the source, target
    and payload it named, and answers what that entry answers; a yield reaches
    the block with its frame and arguments, a compile the same Preamble. *)
Theorem guest_serves_host `{Guest} preamble stdin entry frame args :
  ok_preamble preamble -> stdin_content preamble = Ok stdin ->
  ok_entry entry -> fits (request_of entry) ->
  in_u32 frame -> fits (Downcall.encode (Downcall.Yield frame args)) ->
  serve stdin (request_of entry) = gmap Outcome.encode (entry_of preamble entry)
  /\ serve stdin compile_request = gmap CompileReply.encode (g_compile preamble)
  /\ serve stdin (Downcall.encode (Downcall.Yield frame args))
     = gmap YieldReply.encode (g_yield_to_block frame args).
Proof.
  intros Hp Hs He Hf Hfr Hy. pose proof (read_preamble_stdin _ _ Hp Hs) as Hr.
  split; [|split]; unfold serve.
  - rewrite request_of_decode by done. unfold serve_invoke. rewrite Hr. by destruct entry.
  - assert (Downcall.decode compile_request = Ok Downcall.Compile) as -> by by vm_compute.
    unfold serve_compile. by rewrite Hr.
  - assert (Downcall.decode (Downcall.encode (Downcall.Yield frame args))
            = Ok (Downcall.Yield frame args)) as -> by (by apply downcall_decode_iff).
    done.
Qed.

(** A guest that answers its source, and a fixed Preamble. *)
#[export] Instance sample_guest : Guest := {|
  g_eval _ source := GRet (Outcome.Ok source);
  g_run preamble run := GRet (Outcome.Ok (Run.payload run));
  g_yield_to_block := default_yield_to_block;
  g_compile := default_compile;
|}.

Lemma guest_serves_host_witness :
  serve (be_encode 4 (len (Preamble.encode preamble_sample)) ++ Preamble.encode preamble_sample)
    (request_of (Entry.Run (lit "Main") [x07])) = GRet (Outcome.encode (Outcome.Ok [x07])).
Proof.
  assert (ok_preamble preamble_sample) as Hp by (repeat constructor; by vm_compute).
  exact (proj1 (guest_serves_host preamble_sample _ (Entry.Run (lit "Main") [x07]) 0 []
    Hp eq_refl ltac:(by vm_compute) ltac:(by vm_compute) ltac:(by vm_compute) ltac:(by vm_compute))).
Defined.

(** ** Refusals *)

Lemma unsupported_everywhere u :
  ok_unsupported u -> fits (Unsupported.encode u) ->
  Outcome.decode (Unsupported.encode u) = Ok (Outcome.Unsupported u)
  /\ YieldReply.decode (Unsupported.encode u) = Ok (YieldReply.Unsupported u)
  /\ CompileReply.decode (Unsupported.encode u) = Ok (CompileReply.Unsupported u).
Proof.
  intros Hu Hf. split; [|split].
  - apply outcome_decode_iff; [done|]. by apply (outcome_encode_bytes (Outcome.Unsupported u)).
  - apply yield_reply_decode_iff; [done|].
    by apply (yield_reply_encode_bytes (YieldReply.Unsupported u)).
  - apply compile_reply_decode_iff; [done|].
    by apply (compile_reply_encode_bytes (CompileReply.Unsupported u)).
Qed.

Definition unserved (tag : byte) : Unsupported.t :=
  Unsupported.Mk (lit "this guest does not serve tag " ++ hex_byte tag).

Lemma unserved_ok tag : ok_unsupported (unserved tag) /\ fits (Unsupported.encode (unserved tag)).
Proof. destruct tag; by vm_compute. Qed.

Lemma panic_reads_back p :
  ok_outcome (Outcome.Panic p) -> fits (Outcome.encode (Outcome.Panic p)) ->
  Outcome.decode (Outcome.encode (Outcome.Panic p)) = Ok (Outcome.Panic p).
Proof. intros Hok Hf. apply outcome_decode_iff; [done|]. by apply outcome_encode_bytes. Qed.

(** No request leaves the host without an answer it reads.  A tag the
    guest does not know is unsupported to whichever reader asked; a request
    that does not frame and stdin that holds no Preamble within the cap are a
    Panic of the Sandbox's own, named apart, before any entry runs. *)
Theorem guest_refusals_read `{Guest} stdin request :
  (forall err, Downcall.decode request = Err err ->
     serve stdin request = GRet (Outcome.encode (Outcome.Panic malformed_request))
     /\ Outcome.decode (Outcome.encode (Outcome.Panic malformed_request))
        = Ok (Outcome.Panic malformed_request))
  /\ (forall tag body, Downcall.decode request = Ok (Downcall.Unknown tag body) ->
      exists bytes u, serve stdin request = GRet bytes
        /\ Outcome.decode bytes = Ok (Outcome.Unsupported u)
        /\ YieldReply.decode bytes = Ok (YieldReply.Unsupported u)
        /\ CompileReply.decode bytes = Ok (CompileReply.Unsupported u))
  /\ ((forall bytes rest, len bytes <= Abi.MAX_FRAME_LEN ->
         stdin <> be_encode 4 (len bytes) ++ bytes ++ rest) ->
      let p := boot_failure (lit "failed to read the Sandbox's Preamble") in
      Outcome.decode (Outcome.encode (Outcome.Panic p)) = Ok (Outcome.Panic p)
      /\ (forall entry, ok_entry entry -> fits (request_of entry) ->
            serve stdin (request_of entry) = GRet (Outcome.encode (Outcome.Panic p)))
      /\ serve stdin compile_request
         = GRet (CompileReply.encode (CompileReply.Error (Panic.error p)))).
Proof.
  split; [|split].
  - intros err E. unfold serve. rewrite E. split; [done | by vm_compute].
  - intros tag body E. unfold serve. rewrite E.
    destruct (unserved_ok (default x00 (head request))) as [Hu Hf].
    eexists _, (unserved _). split; [done|]. by apply unsupported_everywhere.
  - intros Hno p. assert (read_preamble stdin = Err p) as Hr.
    { unfold read_preamble. destruct (read_framed stdin) as [bytes|] eqn:E; [|done].
      apply read_framed_iff in E as [Hl (rest & E)]. by apply Hno in E. }
    split; [by vm_compute|]. split.
    + intros entry He Hf. unfold serve. rewrite request_of_decode by done.
      unfold serve_invoke. rewrite Hr. by destruct entry.
    + unfold serve. assert (Downcall.decode compile_request = Ok Downcall.Compile) as -> by by vm_compute.
      unfold serve_compile. by rewrite Hr.
Qed.

Lemma guest_refusals_read_witness :
  Outcome.decode (Outcome.encode (Outcome.Panic (boot_failure
    (lit "failed to read the Sandbox's Preamble"))))
  = Ok (Outcome.Panic (boot_failure (lit "failed to read the Sandbox's Preamble"))).
Proof.
  refine (proj1 (proj2 (proj2 (guest_refusals_read [x00; x00] [])) _)).
  intros bytes rest _ E. apply (f_equal length) in E. rewrite !length_app, length_be_encode in E.
  simpl in E. lia.
Defined.

(** ** The exchange of a Call *)

(** A Call a guest dispatches is the one the host reads, and where its
    upcall answers, the guest has exactly the arm the host replied with: the
    body, the fault, the break, or the refusal. *)
Theorem dispatch_exchange `{GuestLaws G H F} p n (w : world G H F) packed w' c :
  ok_call c -> fits (Upcall.encode (Upcall.Call c)) ->
  (forall reply, fst (reply_to p n w) = Ok reply -> utf8_reply reply) ->
  handle p n w = (Ok packed, w') ->
  (exists k, dispatch_call (Call.to c) (Call.method c) (Call.block_given c) (Call.payload c)
             = GHostCall (Upcall.encode (Upcall.Call c)) k
     /\ Upcall.decode (Upcall.encode (Upcall.Call c)) = Ok (Upcall.Call c)
     /\ exists m, memory (guest w') = Some m
          /\ k (host_answer m (as_u64 packed))
             = GRet match fit_in_message (replied (fst (reply_to p n w))) with
                    | Reply.Ok body => Ok body
                    | Reply.Fault fault => Err (DispatchError.Fault fault)
                    | Reply.Break => Err DispatchError.Break
                    | Reply.Unsupported refusal => Err (DispatchError.Unsupported refusal)
                    end).
Proof.
  intros Hc Hf Hu Hh. apply (handle_answer _ _ _ _ _ Hu) in Hh.
  destruct (Abi.unpack_ptr_len (as_u64 packed)) as [ptr l] eqn:Ep.
  destruct Hh as (m & bytes & Hm & Hb & Hd & _).
  apply read_buffer_ok in Hb as (_ & _ & ->).
  eexists. split; [by destruct c|]. split; [by apply upcall_decode_iff|].
  exists m. split; [done|]. unfold host_answer. rewrite Ep.
  destruct (Z.eqb_spec l 0) as [->|_]; [by change (Z.to_nat 0) with 0%nat in Hd; rewrite take_0 in Hd|].
  cbn [rbind]. unfold read_reply. rewrite Hd. cbn [map_err rbind]. by destruct (fit_in_message _).
Qed.

Lemma dispatch_exchange_witness :
  exists k m, dispatch_call (Call.Path (lit "Kv")) (lit "get") true [x01] = GHostCall sample_call k
    /\ memory (GuestInstance := nested 1 (H := nat)) (guest (snd (handle (GuestInstance0 := nested 1)
         0 (len sample_call) (sample_world sample_block)))) = Some m
    /\ k (host_answer m (as_u64 (as_i64 (Abi.pack_ptr_len 32 2)))) = GRet (Ok [x01]).
Proof.
  destruct (handle (GuestInstance0 := nested 1) 0 (len sample_call) (sample_world sample_block))
    as [r w'] eqn:E.
  pose proof (dispatch_exchange (GuestInstance0 := nested 1) 0 (len sample_call)
    (sample_world sample_block) (as_i64 (Abi.pack_ptr_len 32 2)) w'
    (Call.Mk (Call.Path (lit "Kv")) (lit "get") true [x01])) as Hw.
  assert (r = Ok (as_i64 (Abi.pack_ptr_len 32 2))) as Er.
  { change r with (fst (r, w')). rewrite <- E. vm_compute. reflexivity. }
  rewrite Er in E. assert (ok_call (Call.Mk (Call.Path (lit "Kv")) (lit "get") true [x01])) as Hc
    by (repeat split; by vm_compute).
  specialize (Hw Hc ltac:(by vm_compute) ltac:(intros reply Hreply; vm_compute in Hreply;
    injection Hreply as <-; exact I) E).
  destruct Hw as (k & Hk & _ & m & Hm & Ha). exists k, m.
  split; [exact Hk|]. split; [exact Hm|]. rewrite Ha. vm_compute. reflexivity.
Defined.

(** ** Answers in memory *)

(** An answer the guest lays in memory is, at the address it returns, what
    the host reads, every byte below it as it was; where nothing could hold it
    the guest returns 0, which the host reads as no answer at all. *)
Theorem answer_in_memory `{Malloc} {G St F : Type} `{!GuestInstance G St F} bytes mem packed mem' (g : G) :
  (forall size m ptr m', malloc size m = (ptr, m') ->
     ptr = 0 \/ 0 < ptr /\ in_u32 ptr /\ ptr + size <= len m' /\ len m' <= USIZE_MAX) ->
  len bytes <= Abi.MAX_DISPATCH_PAYLOAD -> answer_bytes bytes mem = (packed, mem') ->
  memory g = Some mem' ->
  (packed = 0 /\ (bytes = [] \/ fst (malloc (len bytes) mem) = 0)
     /\ read_answer g packed = Ok []
     /\ read_outcome g packed
        = Err (Trap.Other (lit "Sandbox exited without producing a result")))
  \/ (packed <> 0 /\ bytes <> [] /\ read_answer g packed = Ok bytes
      /\ (forall i, 0 <= i < fst (Abi.unpack_ptr_len packed) ->
            mem' !! Z.to_nat i = snd (malloc (len bytes) mem) !! Z.to_nat i)
      /\ forall o, ok_outcome o -> bytes = Outcome.encode o -> read_outcome g packed = Ok o).
Proof.
  intros Hmalloc Hl Ha Hm. unfold answer_bytes, guest_alloc in Ha.
  pose proof (len_nonneg bytes). unfold Abi.MAX_DISPATCH_PAYLOAD in Hl.
  destruct (Z.leb_spec (2 ^ 32) (len bytes)); [lia|].
  destruct (malloc (len bytes) mem) as [ptr mem1] eqn:Em.
  assert (read_answer g 0 = Ok []) as Hzero.
  { unfold read_answer. rewrite Hm. cbn [ok_or rbind]. unfold unpack_guest_buffer.
    change (Abi.unpack_ptr_len 0) with (0, 0). unfold read_buffer, guest_buffer_range, checked_add.
    pose proof (len_nonneg mem'). change (Abi.MAX_DISPATCH_PAYLOAD <? 0) with false.
    change (0 + 0 <=? USIZE_MAX) with true. cbn [ok_or rbind]. change (0 + 0) with 0.
    destruct (Z.ltb_spec (len mem') 0); [lia|]. done. }
  destruct (Z.eqb_spec ptr 0) as [->|Hp]; cbn [orb] in Ha;
    [|destruct (Z.eqb_spec (len bytes) 0) as [Hb|Hb]].
  - injection Ha as <- <-. left. do 2 (split; [by auto|]). split; [done|].
    unfold read_outcome. by rewrite Hzero.
  - injection Ha as <- <-. left. split; [done|]. split; [left; by apply len_0|]. split; [done|].
    unfold read_outcome. by rewrite Hzero.
  - injection Ha as <- <-. right. destruct (Hmalloc _ _ _ _ Em) as [?|(Hp0 & Hpu & Hin & Hmax)]; [done|].
    assert (in_u32 (len bytes)) as Hlu by (unfold in_u32; lia).
    assert (read_answer g (Abi.pack_ptr_len ptr (len bytes)) = Ok bytes) as Hread.
    { unfold read_answer. rewrite Hm. cbn [ok_or rbind]. unfold unpack_guest_buffer.
      rewrite Abi.unpack_pack by done. rewrite read_copy_at; [done|lia|done|done|done]. }
    split.
    { intros E. assert (Abi.unpack_ptr_len (Abi.pack_ptr_len ptr (len bytes)) = (0, 0)) as E2
        by by rewrite E. rewrite Abi.unpack_pack in E2 by done. congruence. }
    split; [intros ->; by apply Hb, len_nil|]. split; [exact Hread|]. split.
    + intros i Hi. rewrite Abi.unpack_pack in Hi by done. cbn [fst snd] in *.
      apply copy_at_other; lia.
    + intros o Hok E. unfold read_outcome. rewrite Hread. cbn [rbind]. rewrite E.
      assert (fits (Outcome.encode o)) as Hfo by (rewrite <- E; unfold fits, USIZE_MAX; lia).
      apply outcome_encode_bytes, outcome_decode_iff in Hok; [|done]. by rewrite Hok.
Qed.

(** A [malloc] at the end of a memory that grows to 64 bytes. *)
#[export] Instance sample_malloc : Malloc := {|
  malloc size mem :=
    if (0 <? len mem) && (0 <=? size) && (len mem + size <=? 64)
    then (len mem, mem ++ repeat x00 (Z.to_nat size)) else (0, mem);
|}.

Lemma answer_in_memory_witness :
  let '(packed, m) := answer_bytes (Outcome.encode (Outcome.Ok [x07])) [x00; x00; x00; x00] in
  read_outcome (GuestInstance0 := nested (H := nat) 0) (Wasm m 8 (fun _ => GTrap [])) packed
  = Ok (Outcome.Ok [x07]).
Proof.
  destruct (answer_bytes (Outcome.encode (Outcome.Ok [x07])) [x00; x00; x00; x00]) as [packed m] eqn:E.
  assert (forall size m ptr m', malloc size m = (ptr, m') ->
     ptr = 0 \/ 0 < ptr /\ in_u32 ptr /\ ptr + size <= len m' /\ len m' <= USIZE_MAX) as Hmalloc.
  { intros size m0 ptr m1. cbn [malloc sample_malloc].
    destruct (Z.ltb_spec 0 (len m0)), (Z.leb_spec 0 size), (Z.leb_spec (len m0 + size) 64);
      cbn [andb]; intros [= <- <-]; [|by left..].
    right. rewrite len_app. assert (len (repeat x00 (Z.to_nat size)) = size) as ->
      by (unfold len; rewrite repeat_length; lia).
    unfold in_u32, USIZE_MAX. lia. }
  destruct (answer_in_memory (GuestInstance0 := nested (H := nat) 0)
    (Outcome.encode (Outcome.Ok [x07])) _ packed m (Wasm m 8 (fun _ => GTrap [])) Hmalloc
    ltac:(by vm_compute) E) as [(Hp & _)|(_ & _ & _ & _ & Ho)].
  - injection E as <- <-. by vm_compute.
  - exfalso. injection E as <- <-. by vm_compute in Hp.
  - apply Ho; by vm_compute.
Defined.
