(* ===== verification/Locking.v ===== *)
(** Waiting and locking beneath the VFS: kobako-runtime's [sched.rs],
    [locking.rs], [locking/seqlock.rs] and [hashtable.rs].

    [Sched] is the run a thread carries out and when its waits stop, [Rwsem]
    the [rw_semaphore] a directory's calls run under, [Seqlock] the lock a
    dentry's readers never wait on, and [Hashtable] the table of objects held
    elsewhere.  A thread is a number.  A mutex a call holds from one point to
    another makes what lies between one atomic step; a wait lets go of it, so
    it ends one step and its wake begins another, whenever the wake comes. *)
From stdpp Require Import gmap.
From S2P Require Import Prelude.

(** ** [sched.rs] *)
Module Sched.

(** An [Instant] is a number of nanoseconds. *)
Definition MAX_SLEEP : Z := 10 * 1000 * 1000.

(** [Current]: the task of a thread, its [interrupted] flag the shared one. *)
Record Current := MkCurrent {
  interrupted : bool;
  deadline : option Z;
  depth : N;
}.

Definition default_current : Current := MkCurrent false None 0.

(** [Task::interrupt]. *)
Definition interrupt (c : Current) : Current := MkCurrent true (deadline c) (depth c).

(** What [run_task] does before [run], answering the deadline of the run around
    it, and what dropping [Outer] does after. *)
Definition enter (at_ : option Z) (c : Current) : option Z * Current :=
  (deadline c, MkCurrent (interrupted c) at_ (depth c + 1)).

Definition leave (outer : option Z) (c : Current) : Current :=
  let depth := (depth c - 1)%N in
  MkCurrent (if (depth =? 0)%N then false else interrupted c) outer depth.

(** [run_task]. *)
Definition run_task {T} (at_ : option Z) (run : Current -> T * Current) (c : Current)
  : T * Current :=
  let '(outer, c) := enter at_ c in
  let '(answer, c) := run c in
  (answer, leave outer c).

(** [fatal_signal_pending], at the instant [now]. *)
Definition fatal_signal_pending (now : Z) (c : Current) : bool :=
  interrupted c || match deadline c with Some at_ => at_ <=? now | None => false end.

(** [sleep_slice], at the instant [now]. *)
Definition sleep_slice (now : Z) (c : Current) : Z :=
  match deadline c with
  | Some at_ => Z.min (Z.max 0 (at_ - now)) MAX_SLEEP
  | None => MAX_SLEEP
  end.
End Sched.

(** ** [locking.rs] *)
Module Rwsem.

Inductive DownError := Deadlock | Interrupted.

Definition thread := nat.

Record Holders := MkHolders {
  writer : option thread;
  readers : list thread;
  waiting : nat;
  writers_waiting : nat;
}.

Definition default_holders : Holders := MkHolders None [] 0 0.

Definition set_writer (x : option thread) (h : Holders) : Holders :=
  MkHolders x (readers h) (waiting h) (writers_waiting h).
Definition set_readers (x : list thread) (h : Holders) : Holders :=
  MkHolders (writer h) x (waiting h) (writers_waiting h).
Definition set_waiting (x : nat) (h : Holders) : Holders :=
  MkHolders (writer h) (readers h) x (writers_waiting h).
Definition set_writers_waiting (x : nat) (h : Holders) : Holders :=
  MkHolders (writer h) (readers h) (waiting h) x.

Definition contains (t : thread) (l : list thread) : bool := bool_decide (t ∈ l).

(** The closures [down_read] and [down_write] hand to [down]: whether the hold
    is granted. *)
Definition take_read (current : thread) (h : Holders) : result DownError (bool * Holders) :=
  match writer h with
  | Some w => if (w =? current)%nat then Err Deadlock else Ok (false, h)
  | None =>
    if (0 <? writers_waiting h)%nat && negb (contains current (readers h))
    then Ok (false, h)
    else Ok (true, set_readers (readers h ++ [current]) h)
  end.

Definition take_write (current : thread) (h : Holders) : result DownError (bool * Holders) :=
  if bool_decide (writer h = Some current) || contains current (readers h)
  then Err Deadlock
  else if bool_decide (is_Some (writer h)) || negb (bool_decide (readers h = []))
  then Ok (false, h)
  else Ok (true, set_writer (Some current) h).

Definition take_hold (exclusive : bool) : thread -> Holders -> result DownError (bool * Holders) :=
  if exclusive then take_write else take_read.

Definition down_read_trylock (current : thread) (h : Holders) : option Holders :=
  if bool_decide (is_Some (writer h)) || (0 <? writers_waiting h)%nat then None
  else Some (set_readers (readers h ++ [current]) h).

Definition down_write_trylock (current : thread) (h : Holders) : option Holders :=
  if bool_decide (is_Some (writer h)) || negb (bool_decide (readers h = [])) then None
  else Some (set_writer (Some current) h).

(** [Vec::swap_remove] of the first position holding [t]. *)
Definition swap_remove_first (t : thread) (l : list thread) : list thread :=
  match list_find (fun x => x = t) l with
  | Some (i, _) =>
    match l !! pred (length l) with
    | Some z => take (length l - 1) (<[i:=z]> l)
    | None => l
    end
  | None => l
  end.

(** Dropping an [RwSemaphoreGuard]. *)
Definition release (exclusive : bool) (holder : thread) (h : Holders) : Holders :=
  if exclusive then set_writer None h
  else set_readers (swap_remove_first holder (readers h)) h.

(** How one look of [down_slowpath]'s loop ends: out of the loop with the hold,
    out of it without, or asleep. *)
Inductive Look := Taken | Stopped (e : DownError) | Sleeps.

Definition leave_slowpath (exclusive : bool) (h : Holders) : Holders :=
  set_writers_waiting (writers_waiting h - (if exclusive then 1 else 0)) h.

(** One turn of the loop, the semaphore's mutex held. *)
Definition look (exclusive : bool) (current : thread) (fatal : bool) (h : Holders)
  : Look * Holders :=
  match take_hold exclusive current h with
  | Ok (true, h) => (Taken, leave_slowpath exclusive h)
  | Ok (false, h) =>
    if fatal then (Stopped Interrupted, leave_slowpath exclusive h)
    else (Sleeps, set_waiting (waiting h + 1) h)
  | Err e => (Stopped e, leave_slowpath exclusive h)
  end.

(** Entering [down_slowpath], and waking within it. *)
Definition slowpath_enter (exclusive : bool) (current : thread) (fatal : bool) (h : Holders)
  : Look * Holders :=
  look exclusive current fatal
    (set_writers_waiting (writers_waiting h + (if exclusive then 1 else 0)) h).

Definition slowpath_wake (exclusive : bool) (current : thread) (fatal : bool) (h : Holders)
  : Look * Holders :=
  look exclusive current fatal (set_waiting (waiting h - 1) h).

(** *** The semaphore shared by threads

    Between its own steps a thread is outside [down], about to enter the slow
    path, or asleep within it, and keeps one entry for each guard it has. *)
Inductive Pc := Idle | Entering (exclusive : bool) | Asleep (exclusive : bool).

Record Local := MkLocal { pc : Pc; guards : list bool }.

Record State := MkState {
  holders : Holders;
  locals : gmap thread Local;
}.

Definition local_of (s : State) (t : thread) : Local :=
  default (MkLocal Idle []) (locals s !! t).

Definition put (s : State) (t : thread) (h : Holders) (l : Local) : State :=
  MkState h (<[t := l]> (locals s)).

Definition after_look (exclusive : bool) (l : Local) (outcome : Look) : Local :=
  match outcome with
  | Taken => MkLocal Idle (exclusive :: guards l)
  | Stopped _ => MkLocal Idle (guards l)
  | Sleeps => MkLocal (Asleep exclusive) (guards l)
  end.

(** A step of thread [t]: [down]'s first ask, its slow path entered or woken,
    a trylock, or a guard dropped.  Whether a fatal signal is pending is the
    run's. *)
Inductive step (t : thread) (s : State) : State -> Prop :=
| step_granted exclusive h :
    pc (local_of s t) = Idle -> take_hold exclusive t (holders s) = Ok (true, h) ->
    step t s (put s t h (MkLocal Idle (exclusive :: guards (local_of s t))))
| step_refused exclusive e :
    pc (local_of s t) = Idle -> take_hold exclusive t (holders s) = Err e ->
    step t s s
| step_contended exclusive h :
    pc (local_of s t) = Idle -> take_hold exclusive t (holders s) = Ok (false, h) ->
    step t s (put s t h (MkLocal (Entering exclusive) (guards (local_of s t))))
| step_enter exclusive fatal outcome h :
    pc (local_of s t) = Entering exclusive ->
    slowpath_enter exclusive t fatal (holders s) = (outcome, h) ->
    step t s (put s t h (after_look exclusive (local_of s t) outcome))
| step_wake exclusive fatal outcome h :
    pc (local_of s t) = Asleep exclusive ->
    slowpath_wake exclusive t fatal (holders s) = (outcome, h) ->
    step t s (put s t h (after_look exclusive (local_of s t) outcome))
| step_read_trylock h :
    pc (local_of s t) = Idle -> down_read_trylock t (holders s) = Some h ->
    step t s (put s t h (MkLocal Idle (false :: guards (local_of s t))))
| step_write_trylock h :
    pc (local_of s t) = Idle -> down_write_trylock t (holders s) = Some h ->
    step t s (put s t h (MkLocal Idle (true :: guards (local_of s t))))
| step_release i exclusive :
    pc (local_of s t) = Idle -> guards (local_of s t) !! i = Some exclusive ->
    step t s (put s t (release exclusive t (holders s))
                (MkLocal Idle (delete i (guards (local_of s t))))).

Definition initial : State := MkState default_holders ∅.

Inductive reachable : State -> Prop :=
| reachable_initial : reachable initial
| reachable_step t s s' : reachable s -> step t s s' -> reachable s'.
End Rwsem.

(** ** [locking/seqlock.rs] *)
Module Seqlock.
Section Seqlock.
Context {V A : Type}.

Definition thread := nat.
Definition memory := nat -> V.

(** What a reader's closure reads, one load after another, each where the
    values before it lead, as a walk up [d_parent] does. *)
Inductive prog := Answer (a : A) | Load (at_ : nat) (k : V -> prog).

Fixpoint eval (p : prog) (m : memory) : A :=
  match p with
  | Answer a => a
  | Load at_ k => eval (k (m at_)) m
  end.

Definition store (at_ : nat) (v : V) (m : memory) : memory :=
  fun l => if (l =? at_)%nat then v else m l.

(** [usize::fetch_add(1)] and [is_multiple_of(2)]. *)
Definition fetch_add_one (n : Z) : Z := (n + 1) mod 2 ^ 64.
Definition is_even (n : Z) : bool := n mod 2 =? 0.

(** [read_seqbegin]'s look at the count, [None] where it waits and looks again;
    and [read_seqretry]. *)
Definition read_seqbegin (sequence : Z) : option Z :=
  if is_even sequence then Some sequence else None.
Definition read_seqretry (sequence begun : Z) : bool := negb (sequence =? begun).

(** Where a thread stands in [write] or [read]: what a write has left to store;
    and, of a read, its closure [p0], what is left of it, and how many writes
    had ended when it began. *)
Inductive Pc :=
| Outside
| WriteHeld (stores : list (nat * V))
| Writing (stores : list (nat * V))
| Written
| Reading (since : nat) (begun : Z) (p0 p : prog)
| ReadWaits (since : nat) (p0 : prog)
| ReadHeld (since : nat) (p0 p : prog).

(** One answer of [read]: its closure, the writes ended as it began and as it
    answered, and what it answered. *)
Record Answered := MkAnswered {
  closure : prog;
  since : nat;
  until : nat;
  answer : A;
}.

(** [commits] holds the memory at first and as each write ended, and [answers]
    what each read answered, neither of which the code keeps. *)
Record State := MkState {
  mem : memory;
  sequence : Z;
  held : option thread;
  pcs : thread -> Pc;
  commits : list memory;
  answers : list Answered;
}.

Definition at_pc (t : thread) (pc : Pc) (s : State) : State :=
  MkState (mem s) (sequence s) (held s)
    (fun u => if (u =? t)%nat then pc else pcs s u) (commits s) (answers s).
Definition with_mem (m : memory) (s : State) : State :=
  MkState m (sequence s) (held s) (pcs s) (commits s) (answers s).
Definition with_sequence (n : Z) (s : State) : State :=
  MkState (mem s) n (held s) (pcs s) (commits s) (answers s).
Definition with_held (h : option thread) (s : State) : State :=
  MkState (mem s) (sequence s) h (pcs s) (commits s) (answers s).
Definition commit (s : State) : State :=
  MkState (mem s) (sequence s) (held s) (pcs s) (commits s ++ [mem s]) (answers s).
Definition answered (x : Answered) (s : State) : State :=
  MkState (mem s) (sequence s) (held s) (pcs s) (commits s) (x :: answers s).

Inductive step (t : thread) (s : State) : State -> Prop :=
(* write: lock, count, each store, count, unlock *)
| write_lock stores :
    pcs s t = Outside -> held s = None ->
    step t s (at_pc t (WriteHeld stores) (with_held (Some t) s))
| write_begin stores :
    pcs s t = WriteHeld stores ->
    step t s (at_pc t (Writing stores) (with_sequence (fetch_add_one (sequence s)) s))
| write_store at_ v stores :
    pcs s t = Writing ((at_, v) :: stores) ->
    step t s (at_pc t (Writing stores) (with_mem (store at_ v (mem s)) s))
| write_end :
    pcs s t = Writing [] ->
    step t s (at_pc t Written (commit (with_sequence (fetch_add_one (sequence s)) s)))
| write_unlock :
    pcs s t = Written ->
    step t s (at_pc t Outside (with_held None s))
(* read: count, each load, count again; or lock, each load, unlock *)
| read_even p0 :
    pcs s t = Outside -> is_even (sequence s) = true ->
    step t s (at_pc t (Reading (length (commits s)) (sequence s) p0 p0) s)
| read_odd p0 :
    pcs s t = Outside -> is_even (sequence s) = false ->
    step t s (at_pc t (ReadWaits (length (commits s)) p0) s)
| read_load n begun p0 at_ k :
    pcs s t = Reading n begun p0 (Load at_ k) ->
    step t s (at_pc t (Reading n begun p0 (k (mem s at_))) s)
| read_agrees n begun p0 a :
    pcs s t = Reading n begun p0 (Answer a) -> sequence s = begun ->
    step t s (at_pc t Outside (answered (MkAnswered p0 n (length (commits s)) a) s))
| read_overlapped n begun p0 a :
    pcs s t = Reading n begun p0 (Answer a) -> sequence s <> begun ->
    step t s (at_pc t (ReadWaits n p0) s)
| read_lock n p0 :
    pcs s t = ReadWaits n p0 -> held s = None ->
    step t s (at_pc t (ReadHeld n p0 p0) (with_held (Some t) s))
| read_held_load n p0 at_ k :
    pcs s t = ReadHeld n p0 (Load at_ k) ->
    step t s (at_pc t (ReadHeld n p0 (k (mem s at_))) s)
| read_unlock n p0 a :
    pcs s t = ReadHeld n p0 (Answer a) ->
    step t s (at_pc t Outside
                (with_held None (answered (MkAnswered p0 n (length (commits s)) a) s))).

Definition initial (m : memory) : State :=
  MkState m 0 None (fun _ => Outside) [m] [].

Inductive reachable (m : memory) : State -> Prop :=
| reachable_initial : reachable m (initial m)
| reachable_step t s s' : reachable m s -> step t s s' -> reachable m s'.
End Seqlock.

Arguments prog : clear implicits.
Arguments State : clear implicits.
Arguments Answered : clear implicits.
Arguments memory : clear implicits.
End Seqlock.

(** ** [hashtable.rs] *)
Module Hashtable.
Section Hashtable.
(** A value is its address; whether an object still stands at one, its strong
    count above zero, is the reference counts'. *)
Context {K : Type} `{Countable K}.

Record Hashtable := MkHashtable {
  entries : gmap K nat;
  sweep_at : nat;
}.

Definition default_table : Hashtable := MkHashtable ∅ 0.

Definition get (strong : nat -> bool) (key : K) (t : Hashtable) : option nat :=
  v ← entries t !! key; if strong v then Some v else None.

(** [get(&key).is_some_and(|held| Arc::ptr_eq(&held, &value))] of a [value] the
    caller holds, so one that still stands. *)
Definition holds (key : K) (value : nat) (t : Hashtable) : bool :=
  bool_decide (entries t !! key = Some value).

Definition insert_entry (strong : nat -> bool) (key : K) (value : nat) (t : Hashtable) : Hashtable :=
  let t :=
    if (sweep_at t <=? size (entries t))%nat then
      let kept := filter (fun e => strong e.2 = true) (entries t) in
      MkHashtable kept (size kept * 2 `max` 16)
    else t in
  MkHashtable (<[key := value]> (entries t)) (sweep_at t).

Definition remove (strong : nat -> bool) (key : K) (t : Hashtable) : option nat * Hashtable :=
  (get strong key t, MkHashtable (delete key (entries t)) (sweep_at t)).
End Hashtable.
Arguments Hashtable K {_ _}.
End Hashtable.
