(* ===== verification/LockingFacts.v ===== *)
(** Facts of [Locking.v]: what holds of every semaphore and every seqlock its
    threads reach, and what the table of held objects keeps. *)
From stdpp Require Import gmap relations.
From S2P Require Import Prelude Locking.

(** ** The semaphore *)
Module RwsemFacts.
Import Rwsem.

(** How many entries of a map satisfy [P], split at one key. *)
Definition tally (P : Local -> bool) (m : gmap thread Local) : nat :=
  size (filter (fun e => P e.2 = true) m).

Definition one (b : bool) : nat := if b then 1 else 0.

Lemma tally_insert P m t l :
  tally P (<[t := l]> m) = (one (P l) + tally P (delete t m))%nat.
Proof.
  unfold tally. rewrite <- insert_delete_eq. destruct (P l) eqn:E.
  - rewrite map_filter_insert_True by done.
    rewrite map_size_insert_None; [done|].
    apply map_lookup_filter_None. left. apply lookup_delete_eq.
  - rewrite map_filter_insert_False by (simpl; congruence).
    by rewrite delete_delete_eq.
Qed.

Lemma tally_split P m t :
  tally P m = (one (match m !! t with Some l => P l | None => false end)
               + tally P (delete t m))%nat.
Proof.
  destruct (m !! t) as [l|] eqn:E.
  - rewrite <- (insert_id m t l E) at 1. apply tally_insert.
  - simpl. by rewrite delete_id.
Qed.

Lemma tally_pos P m t l : m !! t = Some l -> P l = true -> (0 < tally P m)%nat.
Proof. intros E Hl. rewrite (tally_split P m t), E, Hl. simpl. lia. Qed.

Lemma tally_zero P m : tally P m = O -> forall t l, m !! t = Some l -> P l = false.
Proof.
  intros Hz t l E. destruct (P l) eqn:Hl; [|done].
  pose proof (tally_pos P m t l E Hl). lia.
Qed.

Lemma tally_some P m : (0 < tally P m)%nat -> exists t l, m !! t = Some l /\ P l = true.
Proof.
  intros H. unfold tally in H.
  destruct (decide (filter (fun e => P e.2 = true) m = ∅)) as [E|E].
  { rewrite E, map_size_empty in H. lia. }
  apply map_choose in E as (t & l & E).
  apply map_lookup_filter_Some in E as [E Hl]. eauto.
Qed.

Definition asleep (l : Local) : bool := match pc l with Asleep _ => true | _ => false end.
Definition writer_asleep (l : Local) : bool :=
  match pc l with Asleep true => true | _ => false end.

Definition count (t : thread) (l : list thread) : nat := length (filter (fun x => x = t) l).
Definition shared (l : list bool) : nat := length (filter (fun b => negb b = true) l).
Definition exclusives (l : list bool) : nat := length (filter (fun b => b = true) l).

Record inv (s : State) : Prop := {
  inv_excl : is_Some (writer (holders s)) -> readers (holders s) = [];
  inv_writer : forall t, exclusives (guards (local_of s t))
                 = (if decide (writer (holders s) = Some t) then 1 else 0)%nat;
  inv_readers : forall t, shared (guards (local_of s t)) = count t (readers (holders s));
  inv_waits : forall t, pc (local_of s t) <> Idle -> guards (local_of s t) = [];
  inv_waiting : waiting (holders s) = tally asleep (locals s);
  inv_ww : writers_waiting (holders s) = tally writer_asleep (locals s);
}.

Lemma local_of_put s t h l u :
  local_of (put s t h l) u = if decide (u = t) then l else local_of s u.
Proof.
  unfold local_of, put. simpl. case_decide as E.
  - subst. by rewrite lookup_insert_eq.
  - by rewrite lookup_insert_ne.
Qed.

Lemma count_app t l k : count t (l ++ k) = (count t l + count t k)%nat.
Proof. unfold count. by rewrite list.filter_app, length_app. Qed.

Lemma count_perm t l k : Permutation l k -> count t l = count t k.
Proof. intros H. unfold count. by rewrite H. Qed.

Lemma swap_remove_split a t b :
  list_find (fun x => x = t) (a ++ t :: b) = Some (length a, t) ->
  Permutation (a ++ t :: b) (t :: swap_remove_first t (a ++ t :: b)).
Proof.
  intros E. unfold swap_remove_first. rewrite E.
  destruct b as [|z b _] using rev_ind.
  - rewrite length_app. simpl. replace (pred (length a + 1)) with (length a) by lia.
    rewrite list_lookup_middle by done.
    rewrite list_insert_id by (by rewrite list_lookup_middle).
    replace (length a + 1 - 1)%nat with (length a) by lia.
    rewrite take_app_length. by rewrite Permutation_app_comm.
  - rewrite app_comm_cons, app_assoc, length_app. simpl length.
    replace (pred (length (a ++ t :: b) + 1)) with (length (a ++ t :: b)) by lia.
    rewrite list_lookup_middle by done.
    rewrite <- (app_assoc a), <- app_comm_cons.
    rewrite insert_app_r_alt, Nat.sub_diag by lia. simpl.
    replace (a ++ z :: b ++ [z]) with ((a ++ z :: b) ++ [z]) by (by rewrite <- app_assoc).
    replace (length (a ++ t :: b) + 1 - 1)%nat with (length (a ++ z :: b))
      by (rewrite !length_app; simpl; lia).
    rewrite take_app_length.
    rewrite <- !Permutation_middle. constructor.
    by rewrite app_nil_r.
Qed.

Lemma swap_remove_perm t l : t ∈ l -> Permutation l (t :: swap_remove_first t l).
Proof.
  intros Hin. destruct (list_find (fun x => x = t) l) as [[i x]|] eqn:E.
  2:{ apply list_find_None in E. rewrite list.Forall_forall in E. by destruct (E t Hin). }
  pose proof E as (Hi & -> & _)%list_find_Some.
  rewrite <- (take_drop_middle l i t Hi) in E |- *. apply swap_remove_split.
  pose proof (lookup_lt_Some _ _ _ Hi). rewrite E, length_take. repeat f_equal. lia.
Qed.

(** *** What one ask of a hold answers *)

(** The holders once [t] was granted a hold, and what kept it from one. *)
Definition granted (exclusive : bool) (t : thread) (h : Holders) : Holders :=
  if exclusive then set_writer (Some t) h else set_readers (readers h ++ [t]) h.

Definition free_for (exclusive : bool) (h : Holders) : Prop :=
  writer h = None /\ (exclusive = true -> readers h = []).

Definition holds_none (t : thread) (h : Holders) : Prop :=
  writer h <> Some t /\ ((exists w, writer h = Some w) \/ t ∉ readers h).

Lemma take_granted e t h h' :
  take_hold e t h = Ok (true, h') -> free_for e h /\ h' = granted e t h.
Proof.
  unfold take_hold, take_read, take_write, free_for. destruct e.
  - destruct (_ || _); [done|]. destruct (_ || _) eqn:E; [done|]. intros [= <-].
    apply orb_false_iff in E as [E1 E2]. apply bool_decide_eq_false in E1.
    apply negb_false_iff, bool_decide_eq_true in E2.
    split; [|done]. split; [|done]. by apply eq_None_not_Some.
  - destruct (writer h) as [w|]; [destruct (w =? t)%nat; discriminate|].
    destruct (_ && _); [done|]. intros [= <-]. done.
Qed.

Lemma take_contended e t h h' :
  take_hold e t h = Ok (false, h') -> h' = h /\ holds_none t h.
Proof.
  unfold take_hold, take_read, take_write, holds_none. destruct e.
  - destruct (_ || _) eqn:E; [discriminate|].
    destruct (bool_decide (is_Some _) || _); [|discriminate]. intros [= <-].
    apply orb_false_iff in E as [E1 E2]. apply bool_decide_eq_false in E1.
    unfold contains in E2. apply bool_decide_eq_false in E2. eauto.
  - destruct (writer h) as [w|].
    + destruct (w =? t)%nat eqn:E; [done|]. intros [= <-]. apply Nat.eqb_neq in E.
      split; [done|]. split; [congruence | eauto].
    + destruct (_ && _) eqn:E; [|discriminate]. intros [= <-].
      apply andb_true_iff in E as [_ E]. apply negb_true_iff in E.
      unfold contains in E. apply bool_decide_eq_false in E. eauto.
Qed.

(** What a look of the slow path leaves: the holds and the waits. *)
Lemma look_cases e t fatal h outcome h' :
  look e t fatal h = (outcome, h') ->
  (outcome = Taken /\ free_for e h /\ h' = leave_slowpath e (granted e t h))
  \/ (exists err, outcome = Stopped err /\ h' = leave_slowpath e h)
  \/ (outcome = Sleeps /\ holds_none t h /\ h' = set_waiting (waiting h + 1) h).
Proof.
  unfold look. destruct (take_hold e t h) as [[[|] h1]|err] eqn:E.
  - apply take_granted in E as [? ->]. intros [= <- <-]. auto.
  - apply take_contended in E as [-> ?]. destruct fatal; intros [= <- <-]; eauto.
  - intros [= <- <-]. eauto.
Qed.

(** *** The invariant *)

Lemma tally_put P s t h l :
  P (MkLocal Idle []) = false ->
  (tally P (locals (put s t h l)) + one (P (local_of s t)) = tally P (locals s) + one (P l))%nat.
Proof.
  intros H0. unfold put, local_of. cbn [locals]. rewrite tally_insert, (tally_split P (locals s) t).
  destruct (locals s !! t); simpl; [|rewrite H0]; simpl; lia.
Qed.

Lemma inv_put s t h l :
  inv s ->
  (is_Some (writer h) -> readers h = []) ->
  exclusives (guards l) = (if decide (writer h = Some t) then 1 else 0)%nat ->
  shared (guards l) = count t (readers h) ->
  (pc l <> Idle -> guards l = []) ->
  (forall u, u <> t -> (writer h = Some u <-> writer (holders s) = Some u)
                     /\ count u (readers h) = count u (readers (holders s))) ->
  (waiting h + one (asleep (local_of s t)) = waiting (holders s) + one (asleep l))%nat ->
  (writers_waiting h + one (writer_asleep (local_of s t))
   = writers_waiting (holders s) + one (writer_asleep l))%nat ->
  inv (put s t h l).
Proof.
  intros I Hex Hw Hr Hp Ho Hwait Hww. constructor; cbn [put holders].
  - exact Hex.
  - intros u. rewrite local_of_put. destruct (decide (u = t)) as [->|E]; [done|].
    rewrite (inv_writer s I u). apply Ho in E as [E _].
    repeat case_decide; tauto.
  - intros u. rewrite local_of_put. destruct (decide (u = t)) as [->|E]; [done|].
    rewrite (inv_readers s I u). apply Ho in E as [_ E]. by rewrite E.
  - intros u. rewrite local_of_put. destruct (decide (u = t)); [done|]. apply (inv_waits s I).
  - pose proof (tally_put asleep s t h l eq_refl). rewrite (inv_waiting s I) in Hwait. lia.
  - pose proof (tally_put writer_asleep s t h l eq_refl). rewrite (inv_ww s I) in Hww. lia.
Qed.

(** What a grant does to the holds, whoever asks. *)
Lemma count_snoc u t l : count u (l ++ [t]) = (count u l + if decide (t = u) then 1 else 0)%nat.
Proof. rewrite count_app. f_equal. unfold count. rewrite filter_cons. by case_decide. Qed.

Lemma exclusives_cons b g : exclusives (b :: g) = (one b + exclusives g)%nat.
Proof. unfold exclusives. rewrite filter_cons. by destruct b. Qed.
Lemma shared_cons b g : shared (b :: g) = (one (negb b) + shared g)%nat.
Proof. unfold shared. rewrite filter_cons. by destruct b. Qed.

Lemma inv_granted s t e h :
  inv s -> free_for e (holders s) ->
  writer h = writer (granted e t (holders s)) ->
  readers h = readers (granted e t (holders s)) ->
  (waiting h + one (asleep (local_of s t)) = waiting (holders s))%nat ->
  (writers_waiting h + one (writer_asleep (local_of s t)) = writers_waiting (holders s))%nat ->
  inv (put s t h (MkLocal Idle (e :: guards (local_of s t)))).
Proof.
  intros I [Hnone Hfree] Ew Er Hwait Hww.
  pose proof (inv_writer s I t) as Hw. pose proof (inv_readers s I t) as Hr.
  rewrite Hnone in Hw. rewrite decide_False in Hw by done.
  apply inv_put; [done | | | | done | | simpl; lia | simpl; lia];
    rewrite ?Ew, ?Er; destruct e; cbn [granted set_writer set_readers writer readers guards pc].
  - intros _. by apply Hfree.
  - rewrite Hnone. by intros [? ?].
  - rewrite exclusives_cons, Hw. by rewrite decide_True.
  - rewrite exclusives_cons, Hw, Hnone. by rewrite decide_False.
  - by rewrite shared_cons, Hr.
  - rewrite shared_cons, Hr, count_snoc, decide_True by done. simpl. lia.
  - intros u Hu. rewrite Hnone. split; [|done]. split; congruence.
  - intros u Hu. rewrite count_snoc, decide_False by congruence.
    rewrite Nat.add_0_r. done.
Qed.

Lemma inv_same_holds s t h l :
  inv s -> guards l = guards (local_of s t) ->
  writer h = writer (holders s) -> readers h = readers (holders s) ->
  (pc l <> Idle -> guards l = []) ->
  (waiting h + one (asleep (local_of s t)) = waiting (holders s) + one (asleep l))%nat ->
  (writers_waiting h + one (writer_asleep (local_of s t))
   = writers_waiting (holders s) + one (writer_asleep l))%nat ->
  inv (put s t h l).
Proof.
  intros I Eg Ew Er Hp Hwait Hww. apply inv_put; try done; rewrite ?Eg, ?Ew, ?Er.
  - apply (inv_excl s I).
  - apply (inv_writer s I).
  - apply (inv_readers s I).
  - intros u _. by split.
Qed.

Lemma guards_none g : exclusives g = O -> shared g = O -> g = [].
Proof.
  destruct g as [|[|] g]; [done| |]; rewrite ?exclusives_cons, ?shared_cons; simpl; lia.
Qed.

Lemma count_zero t l : t ∉ l -> count t l = O.
Proof.
  intros H. unfold count. induction l as [|x l IH]; [done|].
  apply not_elem_of_cons in H as [Hne H]. rewrite filter_cons, decide_False by congruence. auto.
Qed.

Lemma count_pos t l : count t l <> O -> t ∈ l.
Proof. intros H. destruct (decide (t ∈ l)) as [?|Hn]; [done|]. by apply count_zero in Hn. Qed.

Lemma holds_none_guards s t : inv s -> holds_none t (holders s) -> guards (local_of s t) = [].
Proof.
  intros I [Hw Hr]. apply guards_none.
  - rewrite (inv_writer s I), decide_False; done.
  - rewrite (inv_readers s I). apply count_zero. destruct Hr as [[w E]|?]; [|done].
    rewrite (inv_excl s I) by eauto. apply not_elem_of_nil.
Qed.

Lemma inv_look s t e fatal h0 outcome h :
  inv s ->
  writer h0 = writer (holders s) -> readers h0 = readers (holders s) ->
  (waiting h0 + one (asleep (local_of s t)) = waiting (holders s))%nat ->
  (writers_waiting h0 + one (writer_asleep (local_of s t))
   = writers_waiting (holders s) + one e)%nat ->
  (one e <= writers_waiting h0)%nat ->
  pc (local_of s t) <> Idle ->
  look e t fatal h0 = (outcome, h) ->
  inv (put s t h (after_look e (local_of s t) outcome)).
Proof.
  intros I Ew Er Hwait Hww Hle Hpc Hlook.
  assert (Hsub : forall h, writers_waiting (leave_slowpath e h) = (writers_waiting h - one e)%nat)
    by (intros; by destruct e).
  apply look_cases in Hlook as [(-> & [Hn Hf] & ->)|[(err & -> & ->)|(-> & Hn & ->)]];
    cbn [after_look].
  - apply inv_granted; [done | split; [congruence | rewrite <- Er; auto] | | | | ];
      destruct e; simpl in *; rewrite ?Er; try done; try congruence; lia.
  - apply inv_same_holds; [done | done | by destruct e | by destruct e | done | |];
      destruct e; simpl in *; lia.
  - apply inv_same_holds; simpl in *; [done | done | done | done | | lia |].
    + intros _. by apply (inv_waits s I).
    + destruct e; simpl in *; lia.
Qed.

Lemma shared_perm g k : Permutation g k -> shared g = shared k.
Proof. intros H. unfold shared. by rewrite H. Qed.
Lemma exclusives_perm g k : Permutation g k -> exclusives g = exclusives k.
Proof. intros H. unfold exclusives. by rewrite H. Qed.

Lemma delete_perm {A} (l : list A) i x : l !! i = Some x -> Permutation l (x :: delete i l).
Proof.
  intros H. rewrite <- (take_drop_middle l i x H) at 1. rewrite delete_take_drop.
  by rewrite Permutation_middle.
Qed.

Lemma inv_release s t i e :
  inv s -> pc (local_of s t) = Idle -> guards (local_of s t) !! i = Some e ->
  inv (put s t (release e t (holders s)) (MkLocal Idle (delete i (guards (local_of s t))))).
Proof.
  intros I Hpc Hi. apply delete_perm in Hi as Hp.
  pose proof (inv_writer s I t) as Hw. pose proof (inv_readers s I t) as Hr.
  rewrite (exclusives_perm _ _ Hp), exclusives_cons in Hw.
  rewrite (shared_perm _ _ Hp), shared_cons in Hr.
  assert (Ha : asleep (local_of s t) = false) by (unfold asleep; by rewrite Hpc).
  assert (Ha' : writer_asleep (local_of s t) = false) by (unfold writer_asleep; by rewrite Hpc).
  destruct e; simpl in Hw, Hr.
  - case_decide as E; [|lia].
    apply inv_put; [done | simpl.. | |]; rewrite ?Ha, ?Ha'; simpl; try lia; try done.
    + intros u Hu. rewrite E. split; [|done]. split; congruence.
  - assert (Hin : t ∈ readers (holders s)) by (apply count_pos; lia).
    pose proof (swap_remove_perm t _ Hin) as Hq.
    assert (Hcons : forall u, count u (readers (holders s))
        = (count u (swap_remove_first t (readers (holders s))) + if decide (t = u) then 1 else 0)%nat).
    { intros u. rewrite (count_perm u _ _ Hq). unfold count. rewrite filter_cons.
      destruct (decide (t = u)); simpl; lia. }
    apply inv_put; [done | simpl.. | |]; rewrite ?Ha, ?Ha'; simpl; try lia; try done.
    + intros H. apply (inv_excl s I) in H. rewrite H in Hin. by apply elem_of_nil in Hin.
    + specialize (Hcons t). rewrite decide_True in Hcons by done. lia.
    + intros u Hu. rewrite Hcons, decide_False by congruence. rewrite Nat.add_0_r. done.
Qed.

Lemma asleep_entry s t e : pc (local_of s t) = Asleep e -> locals s !! t = Some (local_of s t).
Proof. unfold local_of. by destruct (locals s !! t). Qed.

Lemma asleep_counted s t e :
  inv s -> pc (local_of s t) = Asleep e ->
  (0 < waiting (holders s))%nat /\ (one e <= writers_waiting (holders s))%nat.
Proof.
  intros I E. pose proof (asleep_entry s t e E) as Ht.
  rewrite (inv_waiting s I), (inv_ww s I). split.
  - apply (tally_pos asleep _ _ _ Ht). unfold asleep. by rewrite E.
  - destruct e; simpl; [|lia].
    apply (tally_pos writer_asleep _ _ _ Ht). unfold writer_asleep. by rewrite E.
Qed.

Lemma trylock_granted s t (e : bool) h :
  inv s -> pc (local_of s t) = Idle ->
  (if e then down_write_trylock else down_read_trylock) t (holders s) = Some h ->
  free_for e (holders s) /\ h = granted e t (holders s).
Proof.
  intros I Hpc H. unfold down_write_trylock, down_read_trylock, free_for in *.
  destruct e; destruct (bool_decide (is_Some _) || _) eqn:E; try discriminate;
    injection H as <-; apply orb_false_iff in E as [E1 E2]; apply bool_decide_eq_false in E1;
    apply eq_None_not_Some in E1; split; try done; split; try done.
  intros _. by apply negb_false_iff, bool_decide_eq_true in E2.
Qed.

Lemma inv_step s t s' : inv s -> step t s s' -> inv s'.
Proof.
  intros I H. destruct H as [e h Hpc H|?|e h Hpc H|e f o h Hpc H|e f o h Hpc H|h Hpc H|h Hpc H|];
    try done; try (by apply inv_release).
  - apply take_granted in H as [Hf ->].
    apply inv_granted; try done; unfold asleep, writer_asleep; rewrite Hpc; destruct e; simpl; lia.
  - apply take_contended in H as [-> Hn].
    apply inv_same_holds; try done; unfold asleep, writer_asleep; rewrite ?Hpc; simpl; try lia.
    intros _. by apply holds_none_guards.
  - unfold slowpath_enter in H.
    eapply inv_look in H; try done; unfold asleep, writer_asleep; rewrite ?Hpc;
      destruct e; simpl in *; done || lia.
  - unfold slowpath_wake in H. pose proof (asleep_counted s t e I Hpc) as [? ?].
    eapply inv_look in H; try done; unfold asleep, writer_asleep; rewrite ?Hpc;
      destruct e; simpl in *; done || lia.
  - apply (trylock_granted s t false) in H as [Hf ->]; [|done..].
    apply inv_granted; try done; unfold asleep, writer_asleep; rewrite Hpc; simpl; lia.
  - apply (trylock_granted s t true) in H as [Hf ->]; [|done..].
    apply inv_granted; try done; unfold asleep, writer_asleep; rewrite Hpc; simpl; lia.
Qed.

Lemma inv_reachable s : reachable s -> inv s.
Proof.
  induction 1 as [|t s s' _ IH Hs]; [|by eapply inv_step].
  by constructor.
Qed.

(** *** Waits end

    The steps of threads that only let go of what they hold or wake from a
    sleep, with no signal pending. *)
Inductive settles (s : State) : State -> Prop :=
| settle_release t i e :
    pc (local_of s t) = Idle -> guards (local_of s t) !! i = Some e ->
    settles s (put s t (release e t (holders s))
                 (MkLocal Idle (delete i (guards (local_of s t)))))
| settle_wake t e outcome h :
    pc (local_of s t) = Asleep e -> slowpath_wake e t false (holders s) = (outcome, h) ->
    settles s (put s t h (after_look e (local_of s t) outcome)).

Lemma settles_step s s' : settles s s' -> exists t, step t s s'.
Proof. intros []; eexists; [by eapply step_release | by eapply step_wake]. Qed.

Lemma inv_settles s s' : rtc settles s s' -> inv s -> inv s'.
Proof.
  induction 1 as [|s s1 s' Hs _ IH]; [done|]. intros I. apply IH.
  apply settles_step in Hs as [t Hs]. by eapply inv_step.
Qed.

Lemma filter_index (P : bool -> bool) g :
  length (filter (fun b => P b = true) g) <> O -> exists i b, g !! i = Some b /\ P b = true.
Proof.
  intros H. destruct (filter _ g) as [|b k] eqn:E; [done|].
  assert (Hb : b ∈ filter (fun b => P b = true) g) by (rewrite E; left).
  apply list_elem_of_filter in Hb as [Hb Hin].
  apply list_elem_of_lookup_1 in Hin as [i ?]. eauto.
Qed.

(** Every hold can be let go of, each thread's wait left as it stands. *)
Lemma drains s :
  inv s ->
  exists s', rtc settles s s' /\ writer (holders s') = None /\ readers (holders s') = []
    /\ writers_waiting (holders s') = writers_waiting (holders s)
    /\ forall u, pc (local_of s' u) = pc (local_of s u).
Proof.
  remember (length (readers (holders s))) as n eqn:En. revert s En.
  induction n as [|n IH]; intros s En I.
  - symmetry in En. apply length_zero_iff_nil in En.
    destruct (writer (holders s)) as [w|] eqn:Ew; [|by exists s].
    pose proof (inv_writer s I w) as Hw. rewrite decide_True in Hw by done.
    destruct (filter_index (fun b => b) (guards (local_of s w))) as (i & b & Hi & ->);
      [unfold exclusives in Hw; lia|].
    assert (Hpc : pc (local_of s w) = Idle).
    { destruct (pc (local_of s w)) eqn:E; [done|..];
        rewrite (inv_waits s I w) in Hi by congruence; done. }
    eexists. split; [apply rtc_once; by eapply settle_release|]. simpl.
    repeat split; try done. intros u. rewrite local_of_put.
    destruct (decide (u = w)) as [->|]; done.
  - destruct (readers (holders s)) as [|u l] eqn:Er; [done|].
    pose proof (inv_readers s I u) as Hu. rewrite Er in Hu.
    unfold count in Hu. rewrite filter_cons, decide_True in Hu by done.
    destruct (filter_index negb (guards (local_of s u))) as (i & b & Hi & Hb).
    { unfold shared in Hu. simpl in Hu. lia. }
    destruct b; [done|].
    assert (Hpc : pc (local_of s u) = Idle).
    { destruct (pc (local_of s u)) eqn:E; [done|..];
        rewrite (inv_waits s I u) in Hi by congruence; done. }
    pose proof (settle_release s u i false Hpc Hi) as Hs.
    pose proof (inv_settles _ _ (rtc_once _ _ Hs) I) as I'.
    pose proof (swap_remove_perm u (readers (holders s))) as Hp.
    rewrite Er in Hp. specialize (Hp (list_elem_of_here _ _)). apply Permutation_length in Hp.
    assert (En' : n = length (swap_remove_first u (readers (holders s)))).
    { rewrite Er. simpl in En, Hp |- *. lia. }
    destruct (IH (put s u (release false u (holders s)) _) En' I') as (s' & Hr & Hw & Hnil & Hww & Hpcs).
    exists s'. split; [by eapply rtc_l|]. split; [done|]. split; [done|]. split; [done|].
    intros v. rewrite Hpcs, local_of_put. destruct (decide (v = u)) as [->|]; done.
Qed.

(** With nobody holding it, the next wake of a writer ends its wait, and so does
    that of a reader once no writer waits. *)
Lemma wake_takes s t e fatal :
  inv s -> writer (holders s) = None -> readers (holders s) = [] ->
  pc (local_of s t) = Asleep e -> (e = false -> writers_waiting (holders s) = O) ->
  exists h, slowpath_wake e t fatal (holders s) = (Taken, h)
    /\ writers_waiting h = (writers_waiting (holders s) - one e)%nat.
Proof.
  intros I Hw Hr Hpc Hww. unfold slowpath_wake, look.
  destruct e; cbn [take_hold]; unfold take_write, take_read, contains;
    cbn [set_waiting writer readers writers_waiting]; rewrite Hw, Hr.
  - rewrite !bool_decide_eq_false_2 by (done || apply not_elem_of_nil || by intros [? ?]).
    rewrite bool_decide_eq_true_2 by done. simpl. eexists. split; [done | simpl; lia].
  - rewrite Hww by done. simpl. eexists. split; [done | simpl; lia].
Qed.

Lemma wait_ends s t e :
  inv s -> pc (local_of s t) = Asleep e ->
  exists s', rtc settles s s' /\ guards (local_of s' t) = [e].
Proof.
  remember (writers_waiting (holders s)) as n eqn:En. revert s En.
  induction n as [|n IH]; intros s En I Hpc;
    destruct (drains s I) as (s1 & Hd & Hw & Hr & Hww & Hpcs);
    pose proof (inv_settles _ _ Hd I) as I1; rewrite <- Hpcs in Hpc.
  - destruct (wake_takes s1 t e false) as (h & Hwake & _); try done; [lia|].
    eexists. split; [eapply rtc_r; [done | by eapply settle_wake]|].
    rewrite local_of_put, decide_True by done. simpl.
    by rewrite (inv_waits s1 I1) by congruence.
  - destruct e.
    { destruct (wake_takes s1 t true false) as (h & Hwake & _); try done.
      eexists. split; [eapply rtc_r; [done | by eapply settle_wake]|].
      rewrite local_of_put, decide_True by done. simpl.
      by rewrite (inv_waits s1 I1) by congruence. }
    destruct (tally_some writer_asleep (locals s1)) as (u & l & Hu & Hl);
      [rewrite <- (inv_ww s1 I1); lia|].
    assert (El : local_of s1 u = l) by (unfold local_of; by rewrite Hu).
    assert (Hpu : pc (local_of s1 u) = Asleep true).
    { rewrite El. unfold writer_asleep in Hl. by destruct (pc l) as [| |[|]]. }
    destruct (wake_takes s1 u true false) as (h & Hwake & Hleft); try done.
    pose proof (settle_wake _ _ _ _ _ Hpu Hwake) as Hs.
    pose proof (inv_settles _ _ (rtc_once _ _ Hs) I1) as I2.
    assert (En' : n = writers_waiting h) by (simpl in Hleft; lia).
    destruct (IH (put s1 u h _) En' I2) as (s' & Hrest & Hg).
    { rewrite local_of_put, decide_False; [done|]. intros ->. congruence. }
    exists s'. split; [|done]. etrans; [exact Hd|]. by eapply rtc_l.
Qed.

(** An exclusive hold stands alone. *)
Lemma exclusive_alone s t u :
  inv s -> true ∈ guards (local_of s t) -> guards (local_of s u) <> [] ->
  u = t /\ guards (local_of s t) = [true].
Proof.
  intros I Ht Hu. pose proof (inv_writer s I t) as Hw.
  apply list_elem_of_lookup_1 in Ht as [i Hi]. apply delete_perm in Hi.
  rewrite (exclusives_perm _ _ Hi), exclusives_cons in Hw. simpl in Hw.
  destruct (decide (writer (holders s) = Some t)) as [E|]; [|lia].
  pose proof (inv_excl s I ltac:(eauto)) as Hn.
  assert (Hs : forall v, shared (guards (local_of s v)) = O)
    by (intros v; by rewrite (inv_readers s I v), Hn).
  split.
  - destruct (decide (u = t)) as [|Hne]; [done|]. destruct Hu. apply guards_none; [|done].
    rewrite (inv_writer s I u), decide_False; [done | congruence].
  - assert (Hnil : delete i (guards (local_of s t)) = []).
    { apply guards_none; [lia|]. specialize (Hs t).
      rewrite (shared_perm _ _ Hi), shared_cons in Hs. simpl in Hs. lia. }
    rewrite Hnil in Hi. by apply Permutation_singleton_r in Hi.
Qed.

(** A thread holding nothing is granted no shared hold past a waiting writer. *)
Lemma no_barging s t h b :
  inv s -> (0 < writers_waiting (holders s))%nat -> guards (local_of s t) = [] ->
  take_hold false t (holders s) <> Ok (true, h)
  /\ down_read_trylock t (holders s) = None
  /\ (slowpath_wake false t b (holders s)).1 <> Taken.
Proof.
  intros I Hww Hg.
  assert (Hn : t ∉ readers (holders s)).
  { intros Hin. pose proof (inv_readers s I t) as Hr. rewrite Hg in Hr.
    unfold count in Hr. apply list_elem_of_In, in_split in Hin as (l & k & E).
    rewrite E, list.filter_app, filter_cons, decide_True, length_app in Hr by done.
    unfold shared in Hr. simpl in Hr. lia. }
  assert (Ht : forall h1 h2, writer h1 = writer (holders s) -> readers h1 = readers (holders s) ->
      writers_waiting h1 = writers_waiting (holders s) -> take_hold false t h1 <> Ok (true, h2)).
  { intros h1 h2 Ew Er Eww. cbn [take_hold]. unfold take_read. rewrite Ew, Er, Eww.
    destruct (writer (holders s)) as [w|]; [destruct (w =? t)%nat; discriminate|].
    unfold contains. rewrite bool_decide_eq_false_2 by done.
    replace (0 <? writers_waiting (holders s))%nat with true by (symmetry; apply Nat.ltb_lt; lia).
    discriminate. }
  split; [by apply Ht|]. split.
  - unfold down_read_trylock.
    replace (0 <? writers_waiting (holders s))%nat with true by (symmetry; apply Nat.ltb_lt; lia).
    by rewrite orb_true_r.
  - unfold slowpath_wake, look.
    destruct (take_hold false t (set_waiting _ _)) as [[[|] ?]|] eqn:E; [|by destruct b|done].
    by apply Ht in E.
Qed.
End RwsemFacts.

(** ** The seqlock *)
Module SeqlockFacts.
Import Seqlock.
Section Facts.
Context {V A : Type}.
Implicit Types s : State V A.

(** Whether a thread has the writer's mutex, and whether its write is under
    way. *)
Definition has_mutex (p : Pc (V := V) (A := A)) : bool :=
  match p with WriteHeld _ | Writing _ | Written | ReadHeld _ _ _ => true | _ => false end.
Definition is_writing (p : Pc (V := V) (A := A)) : bool :=
  match p with Writing _ => true | _ => false end.

Definition writing s : Prop := exists t, is_writing (pcs s t) = true.

(** Where the count stands after [n] writes ended. *)
Definition count_at (n : nat) (under_way : bool) : Z :=
  (2 * (Z.of_nat n - 1) + (if under_way then 1 else 0)) mod 2 ^ 64.

(** What a reader's place says of what it has read. *)
Definition reads_one (s : State V A) (p : Pc (V := V) (A := A)) : Prop :=
  match p with
  | Reading n begun p0 p =>
    (0 < n <= length (commits s))%nat /\ begun = count_at n false
    /\ (n = length (commits s) -> ~ writing s -> eval p (mem s) = eval p0 (mem s))
  | ReadWaits n _ => (0 < n <= length (commits s))%nat
  | ReadHeld n p0 p =>
    (0 < n <= length (commits s))%nat /\ ~ writing s /\ eval p (mem s) = eval p0 (mem s)
  | _ => True
  end.

(** What an answer is of: one memory some write left, and left within the call. *)
Definition of_one_instant (s : State V A) (x : Answered V A) : Prop :=
  exists i m, (since x <= S i)%nat /\ (i < until x <= length (commits s))%nat
    /\ commits s !! i = Some m /\ answer x = eval (closure x) m.

Record inv (s : State V A) : Prop := {
  inv_commits : (0 < length (commits s))%nat;
  inv_mutex : forall t, has_mutex (pcs s t) = true <-> held s = Some t;
  inv_idle : ~ writing s ->
    sequence s = count_at (length (commits s)) false /\ commits s !! pred (length (commits s)) = Some (mem s);
  inv_busy : writing s -> sequence s = count_at (length (commits s)) true;
  inv_pcs : forall t, reads_one s (pcs s t);
  inv_answers : Forall (of_one_instant s) (answers s);
}.

Lemma count_at_even n : is_even (count_at n false) = true.
Proof.
  unfold is_even, count_at. apply Z.eqb_eq. rewrite Z.add_0_r.
  change (2 ^ 64) with (2 * 2 ^ 63). rewrite Zmult_mod_distr_l, Z.mul_comm.
  apply Z.mod_mul. lia.
Qed.

Lemma count_at_odd n : is_even (count_at n true) = false.
Proof.
  unfold is_even, count_at. apply Z.eqb_neq.
  change (2 ^ 64) with (2 * 2 ^ 63). pose proof (Z.mod_pos_bound (Z.of_nat n - 1) (2 ^ 63) ltac:(lia)).
  rewrite (Z.div_mod (Z.of_nat n - 1) (2 ^ 63)) by lia.
  replace (2 * (2 ^ 63 * ((Z.of_nat n - 1) / 2 ^ 63) + (Z.of_nat n - 1) mod 2 ^ 63) + 1)
    with (2 * ((Z.of_nat n - 1) mod 2 ^ 63) + 1 + (Z.of_nat n - 1) / 2 ^ 63 * (2 * 2 ^ 63)) by ring.
  rewrite Z.mod_add, (Z.mod_small (2 * _ + 1)) by lia.
  rewrite Z.add_comm, Z.mul_comm, Z.mod_add by lia. done.
Qed.

Lemma count_at_begin n : fetch_add_one (count_at n false) = count_at n true.
Proof.
  unfold fetch_add_one, count_at. rewrite Zplus_mod_idemp_l. f_equal. cbn iota. lia.
Qed.

Lemma count_at_end n : fetch_add_one (count_at n true) = count_at (S n) false.
Proof.
  unfold fetch_add_one, count_at. rewrite Zplus_mod_idemp_l. f_equal. cbn iota. lia.
Qed.

(** The count tells two numbers of writes apart while it has not wrapped. *)
Lemma count_at_inj n k :
  (0 < n <= k)%nat -> Z.of_nat k <= 2 ^ 63 -> count_at n false = count_at k false -> n = k.
Proof.
  unfold count_at. intros Hn Hk. rewrite !Z.add_0_r, !Z.mod_small by lia. lia.
Qed.

Lemma mutex_alone s t u :
  inv s -> has_mutex (pcs s t) = true -> has_mutex (pcs s u) = true -> u = t.
Proof. intros I Ht Hu. apply (inv_mutex s I) in Ht, Hu. congruence. Qed.

Lemma writing_has_mutex p : is_writing p = true -> has_mutex p = true.
Proof. by destruct p. Qed.

Lemma of_one_instant_grows s s' x :
  (exists k, commits s' = commits s ++ k) -> of_one_instant s x -> of_one_instant s' x.
Proof.
  intros [k E] (i & m & Hs & Hi & Hm & Ha). exists i, m.
  rewrite E, length_app, lookup_app_l by lia. repeat split; try done; lia.
Qed.

(** A step that moves only its own thread, and neither begins nor ends a
    write. *)
Lemma inv_quiet s s' t p :
  inv s -> is_writing (pcs s t) = false -> is_writing p = false ->
  mem s' = mem s -> sequence s' = sequence s -> commits s' = commits s ->
  (forall u, pcs s' u = if (u =? t)%nat then p else pcs s u) ->
  (has_mutex p = true -> held s' = Some t /\ (held s = None \/ held s = Some t)) ->
  (has_mutex p = false -> held s' = if has_mutex (pcs s t) then None else held s) ->
  reads_one s p ->
  Forall (of_one_instant s') (answers s') ->
  inv s'.
Proof.
  intros I Hwt Hwp Em Es Ec Epc Hheld Hfree Hp Ha.
  assert (Ew : writing s' <-> writing s).
  { unfold writing. split; intros [u Hu]; exists u; rewrite ?Epc in *;
      destruct (u =? t)%nat eqn:E; try done; apply Nat.eqb_eq in E; congruence. }
  constructor; rewrite ?Em, ?Es, ?Ec; try rewrite Ew.
  - apply (inv_commits s I).
  - intros u. rewrite Epc. pose proof (inv_mutex s I u) as Hu. pose proof (inv_mutex s I t) as Ht.
    destruct (u =? t)%nat eqn:E; [apply Nat.eqb_eq in E; subst u|apply Nat.eqb_neq in E].
    + destruct (has_mutex p).
      * destruct Hheld as [-> _]; done.
      * rewrite Hfree by done. destruct (has_mutex (pcs s t)); [done|]. by rewrite <- Ht.
    + rewrite Hu. destruct (has_mutex p).
      * destruct Hheld as [-> [->| ->]]; [done|split; congruence..].
      * rewrite Hfree by done. destruct (has_mutex (pcs s t)) eqn:Hm; [|done].
        rewrite (proj1 Ht eq_refl). split; congruence.
  - apply (inv_idle s I).
  - apply (inv_busy s I).
  - intros u. rewrite Epc.
    assert (Hu : reads_one s (if (u =? t)%nat then p else pcs s u))
      by (destruct (u =? t)%nat; [done | apply (inv_pcs s I)]).
    unfold reads_one in *. rewrite Em, Ec. destruct (if (u =? t)%nat then _ else _); try done;
      rewrite ?Ew; done.
  - done.
Qed.

Lemma answers_kept s s' :
  inv s -> answers s' = answers s -> (exists k, commits s' = commits s ++ k) ->
  Forall (of_one_instant s') (answers s').
Proof.
  intros I -> Hk. eapply list.Forall_impl; [apply (inv_answers s I)|].
  intros x. by apply of_one_instant_grows.
Qed.

(** An answer of the memory as it stands with no write under way. *)
Lemma answers_now s p0 n a s' :
  inv s -> ~ writing s -> (n <= length (commits s))%nat -> a = eval p0 (mem s) ->
  answers s' = MkAnswered p0 n (length (commits s)) a :: answers s -> commits s' = commits s ->
  Forall (of_one_instant s') (answers s').
Proof.
  intros I Hw Hn -> Ea Ec. rewrite Ea. constructor.
  - destruct (inv_idle s I Hw) as [_ Hlast]. pose proof (inv_commits s I).
    exists (pred (length (commits s))), (mem s). simpl. rewrite Ec. repeat split; try done; lia.
  - eapply list.Forall_impl; [apply (inv_answers s I)|].
    intros x. apply of_one_instant_grows. exists []. by rewrite app_nil_r.
Qed.

(** A step of the thread whose write is under way, or begins or ends. *)
Lemma inv_write s s' t p grown :
  inv s -> has_mutex (pcs s t) = true -> has_mutex p = true -> reads_one s' p ->
  (forall u, pcs s' u = if (u =? t)%nat then p else pcs s u) ->
  held s' = held s -> commits s' = commits s ++ grown ->
  (grown <> [] \/ is_writing p = true) ->
  (writing s' -> sequence s' = count_at (length (commits s')) true) ->
  (~ writing s' -> sequence s' = count_at (length (commits s')) false
     /\ commits s' !! pred (length (commits s')) = Some (mem s')) ->
  answers s' = answers s ->
  inv s'.
Proof.
  intros I Ht Hp Hrp Epc Eh Ec Hnew Hb Hi Ea. constructor; try done.
  - rewrite Ec, length_app. pose proof (inv_commits s I). lia.
  - intros u. rewrite Epc, Eh. destruct (u =? t)%nat eqn:E; [|apply (inv_mutex s I)].
    apply Nat.eqb_eq in E as ->. rewrite Hp, <- (inv_mutex s I), Ht. done.
  - intros u. rewrite Epc. destruct (u =? t)%nat eqn:E; [done|]. apply Nat.eqb_neq in E.
    pose proof (inv_pcs s I u) as Hu. pose proof (mutex_alone s t u I Ht) as Hal.
    unfold reads_one in *. rewrite Ec, length_app.
    destruct (pcs s u) as [| | | |n b p0 q| |n p0 q]; try done.
    + destruct Hu as (Hn & Hbeg & _). split; [lia|]. split; [done|]. intros Hlen Hw.
      destruct Hnew as [Hg|Hw']; [destruct grown; simpl in *; [done | lia]|].
      destruct Hw. exists t. by rewrite Epc, Nat.eqb_refl.
    + lia.
    + by destruct E, Hal.
  - eapply answers_kept; eauto.
Qed.

Lemma not_writing s t : inv s -> has_mutex (pcs s t) = true -> is_writing (pcs s t) = false ->
  ~ writing s.
Proof.
  intros I Hm Hw [u Hu]. pose proof (mutex_alone s t u I Hm (writing_has_mutex _ Hu)). congruence.
Qed.

Lemma no_mutex_not_writing s : inv s -> held s = None -> ~ writing s.
Proof.
  intros I Hh [u Hu]. apply writing_has_mutex, (inv_mutex s I) in Hu. congruence.
Qed.

Lemma even_not_writing s : inv s -> is_even (sequence s) = true -> ~ writing s.
Proof. intros I He Hw. rewrite (inv_busy s I Hw), count_at_odd in He. done. Qed.

Lemma not_writing_after s s' t p :
  inv s -> has_mutex (pcs s t) = true -> is_writing p = false ->
  (forall u, pcs s' u = if (u =? t)%nat then p else pcs s u) -> ~ writing s'.
Proof.
  intros I Ht Hp Epc [u Hu]. rewrite Epc in Hu. destruct (u =? t)%nat eqn:E; [congruence|].
  apply Nat.eqb_neq in E. apply E, (mutex_alone s t u I Ht). by apply writing_has_mutex.
Qed.

Ltac quiet I Hpc p :=
  eapply (inv_quiet _ _ _ p I); rewrite ?Hpc; try reflexivity; try (by simpl; auto);
  try (by eapply answers_kept; [exact I | reflexivity | exists []; by rewrite app_nil_r]).

Lemma inv_step_write s t s' :
  inv s -> step t s s' ->
  (exists stores, pcs s t = WriteHeld stores \/ pcs s t = Writing stores) -> inv s'.
Proof.
  intros I H [ws Hws].
  destruct H as [st Hpc Hh|st Hpc|l v st Hpc|Hpc|Hpc|p0 Hpc He|p0 Hpc He|n b p0 l k Hpc
    |n b p0 a Hpc Es|n b p0 a Hpc Es|n p0 Hpc Hh|n p0 l k Hpc|n p0 a Hpc];
    try (by destruct Hws as [Hws|Hws]; rewrite Hpc in Hws); clear Hws.
  - eapply (inv_write s _ t (Writing st) []); try done; rewrite ?Hpc, ?app_nil_r; auto; simpl.
    + intros _. rewrite <- count_at_begin. f_equal. apply (inv_idle s I).
      eapply not_writing; [done|by rewrite Hpc|by rewrite Hpc].
    + intros Hn. destruct Hn. exists t. simpl. by rewrite Nat.eqb_refl.
  - eapply (inv_write s _ t (Writing st) []); try done; rewrite ?Hpc, ?app_nil_r; auto; simpl.
    + intros _. apply (inv_busy s I). exists t. by rewrite Hpc.
    + intros Hn. destruct Hn. exists t. simpl. by rewrite Nat.eqb_refl.
  - eapply (inv_write s _ t Written [mem s]); try done; rewrite ?Hpc; auto; simpl.
    + intros Hw. exfalso. revert Hw.
      eapply (not_writing_after s _ t Written); try done. by rewrite Hpc.
    + intros _. rewrite length_app, Nat.add_comm. simpl. split; [|by rewrite list_lookup_middle].
      rewrite (inv_busy s I) by (exists t; by rewrite Hpc). apply count_at_end.
Qed.

Lemma inv_step_read s t s' :
  inv s -> step t s s' -> Z.of_nat (length (commits s)) <= 2 ^ 63 ->
  ~ (exists stores, pcs s t = WriteHeld stores \/ pcs s t = Writing stores) -> inv s'.
Proof.
  intros I H Hwrap Hws. pose proof (inv_pcs s I t) as Ht. pose proof (inv_commits s I).
  destruct H as [st Hpc Hh|st Hpc|l v st Hpc|Hpc|Hpc|p0 Hpc He|p0 Hpc He|n b p0 l k Hpc
    |n b p0 a Hpc Es|n b p0 a Hpc Es|n p0 Hpc Hh|n p0 l k Hpc|n p0 a Hpc];
    try (by destruct Hws; eauto); rewrite Hpc in Ht; simpl in Ht.
  - quiet I Hpc (WriteHeld st : Pc (V := V) (A := A)).
  - quiet I Hpc (Outside : Pc (V := V) (A := A)).
  - quiet I Hpc (Reading (length (commits s)) (sequence s) p0 p0).
    simpl. split; [lia|]. split; [apply (inv_idle s I); by apply even_not_writing | done].
  - quiet I Hpc (ReadWaits (length (commits s)) p0).
  - quiet I Hpc (Reading n b p0 (k (mem s l))).
  - assert (Hidle : ~ writing s).
    { apply even_not_writing; [done|]. rewrite Es. destruct Ht as (_ & -> & _).
      apply count_at_even. }
    destruct Ht as (Hn & -> & Hv). pose proof (proj1 (inv_idle s I Hidle)) as E.
    rewrite E in Es. apply symmetry, count_at_inj in Es; [|lia..].
    quiet I Hpc (Outside : Pc (V := V) (A := A)).
    eapply (answers_now s p0 n a); try done; [lia|]. by apply Hv.
  - quiet I Hpc (ReadWaits n p0). all: simpl; lia.
  - quiet I Hpc (ReadHeld n p0 p0). simpl. split; [lia|]. split; [|done].
    by apply no_mutex_not_writing.
  - quiet I Hpc (ReadHeld n p0 (k (mem s l))).
    simpl. intros _. split; [|right]; apply (inv_mutex s I); by rewrite Hpc.
  - destruct Ht as (Hn & Hidle & Hv). quiet I Hpc (Outside : Pc (V := V) (A := A)).
    eapply (answers_now s p0 n a); try done; lia.
Qed.

Lemma reads_step s t s' :
  inv s -> step t s s' -> Z.of_nat (length (commits s)) <= 2 ^ 63 -> inv s'.
Proof.
  intros I H Hwrap.
  destruct (pcs s t) as [|ws|ws| | | |] eqn:E;
    [| by eapply inv_step_write; eauto | by eapply inv_step_write; eauto | | | |];
    (eapply inv_step_read; [done..|]; intros [? [?|?]]; congruence).
Qed.

Lemma commits_grow s t s' : step t s s' -> (length (commits s) <= length (commits s'))%nat.
Proof. intros []; simpl; rewrite ?length_app; lia. Qed.

Lemma reads_reachable m s :
  reachable m s -> Z.of_nat (length (commits s)) <= 2 ^ 63 -> inv s.
Proof.
  induction 1 as [|t s s' _ IH Hs]; intros Hwrap.
  - constructor; simpl; try done; try lia. by intros [t Ht].
  - pose proof (commits_grow s t s' Hs). eapply reads_step; [apply IH; lia | done | lia].
Qed.
End Facts.
End SeqlockFacts.

(** ** What the locks promise *)
Module LockPromises.
Import Rwsem RwsemFacts.

(** C35.  A semaphore's exclusive hold is the only one there is; a thread
    asleep in [down] holds nothing of it, so it never waits on itself; whatever
    state the threads reach, their letting go and waking alone gives a sleeping
    thread its hold; a fatal signal ends the wait; and while a writer sleeps no
    thread holding nothing is granted a shared hold, by [down_read], by a
    trylock or as it wakes. *)
Theorem rwsem_waits_end s :
  reachable s ->
  (forall t u, true ∈ guards (local_of s t) -> guards (local_of s u) <> [] ->
     u = t /\ guards (local_of s t) = [true])
  /\ forall t e, pc (local_of s t) = Asleep e ->
     guards (local_of s t) = []
     /\ (exists s', rtc settles s s' /\ guards (local_of s' t) = [e])
     /\ (slowpath_wake e t true (holders s)).1 <> Sleeps
     /\ (e = true -> forall u h fatal, guards (local_of s u) = [] ->
          take_hold false u (holders s) <> Ok (true, h)
          /\ down_read_trylock u (holders s) = None
          /\ (slowpath_wake false u fatal (holders s)).1 <> Taken).
Proof.
  intros Hr%inv_reachable. split.
  - intros t u Ht Hu. by apply exclusive_alone.
  - intros t e Hpc. split; [apply (inv_waits s Hr); congruence|].
    split; [by eapply wait_ends|]. split.
    + unfold slowpath_wake, look. by destruct (take_hold _ _ _) as [[[|] ?]|].
    + intros -> u h b Hu. apply no_barging; try done.
      by apply (asleep_counted s t true Hr Hpc).
Qed.

(** Thread 1 holds the semaphore shared and thread 2 sleeps for it. *)
Definition contended : State :=
  MkState (MkHolders None [1%nat] 1 1)
    (<[2%nat := MkLocal (Asleep true) []]>
      (<[2%nat := MkLocal (Entering true) []]>
        (<[1%nat := MkLocal Idle [false]]> ∅))).

Lemma contended_reachable : reachable contended.
Proof.
  eapply (reachable_step 2%nat (MkState (MkHolders None [1%nat] 0 0)
    (<[2%nat := MkLocal (Entering true) []]> (<[1%nat := MkLocal Idle [false]]> ∅)))).
  - eapply (reachable_step 2%nat (MkState (MkHolders None [1%nat] 0 0)
      (<[1%nat := MkLocal Idle [false]]> ∅))).
    + eapply (reachable_step 1%nat initial); [constructor|].
      exact (step_granted 1%nat initial false _ eq_refl eq_refl).
    + exact (step_contended 2%nat (MkState (MkHolders None [1%nat] 0 0)
        (<[1%nat := MkLocal Idle [false]]> ∅)) true _ eq_refl eq_refl).
  - exact (step_enter 2%nat (MkState (MkHolders None [1%nat] 0 0)
      (<[2%nat := MkLocal (Entering true) []]> (<[1%nat := MkLocal Idle [false]]> ∅)))
      true false _ _ eq_refl eq_refl).
Qed.

Lemma rwsem_waits_end_witness :
  guards (local_of contended 2%nat) = []
  /\ exists s', rtc settles contended s' /\ guards (local_of s' 2%nat) = [true].
Proof.
  destruct (rwsem_waits_end contended contended_reachable) as [_ H].
  destruct (H 2%nat true eq_refl) as (? & ? & _). by split.
Defined.
End LockPromises.

Module SeqlockPromises.
Import Seqlock SeqlockFacts.

(** C36.  However reads and writes interleave, [SeqLock::read] answers what its
    closure reads of one memory that a write left (or that stood at first), and
    of one that stood between the call and its answer: never half of a write.
    The count is a [usize] that wraps, so this is of a lock written at most
    [2^63] times. *)
Theorem seqlock_reads_one_instant {V A} (m : memory V) (s : State V A) x :
  reachable m s -> Z.of_nat (length (commits s)) <= 2 ^ 63 -> x ∈ answers s ->
  exists i instant, (since x <= S i)%nat /\ (i < until x)%nat
    /\ commits s !! i = Some instant /\ answer x = eval (closure x) instant.
Proof.
  intros Hr Hwrap Hx. pose proof (inv_answers s (reads_reachable m s Hr Hwrap)) as Ha.
  rewrite list.Forall_forall in Ha. destruct (Ha x Hx) as (i & k & ? & ? & ? & ?).
  exists i, k. repeat split; try done; lia.
Qed.

(** Thread 1 reads two cells and thread 2 writes both between its loads, so it
    reads again holding writers off. *)
Definition two_cells : prog Z Z := Load 0%nat (fun a => Load 1%nat (fun b => Answer (a - b))).

Ltac from R k := lazymatch type of R with reachable _ ?s => k s end.

Lemma overlapped_read :
  exists s : State Z Z,
    reachable (fun _ => 0) s /\ length (commits s) = 2%nat
    /\ MkAnswered two_cells 1 2 0 ∈ answers s.
Proof.
  pose proof (reachable_initial (A := Z) (fun _ => 0)) as R.
  from R ltac:(fun s => pose proof (reachable_step _ _ _ _ R
    (read_even 1%nat s two_cells eq_refl eq_refl)) as R1).
  from R1 ltac:(fun s => pose proof (reachable_step _ _ _ _ R1
    (read_load 1%nat s _ _ _ _ _ eq_refl)) as R2).
  from R2 ltac:(fun s => pose proof (reachable_step _ _ _ _ R2
    (write_lock 2%nat s [(0%nat, 5); (1%nat, 5)] eq_refl eq_refl)) as R3).
  from R3 ltac:(fun s => pose proof (reachable_step _ _ _ _ R3
    (write_begin 2%nat s _ eq_refl)) as R4).
  from R4 ltac:(fun s => pose proof (reachable_step _ _ _ _ R4
    (write_store 2%nat s _ _ _ eq_refl)) as R5).
  from R5 ltac:(fun s => pose proof (reachable_step _ _ _ _ R5
    (write_store 2%nat s _ _ _ eq_refl)) as R6).
  from R6 ltac:(fun s => pose proof (reachable_step _ _ _ _ R6
    (write_end 2%nat s eq_refl)) as R7).
  from R7 ltac:(fun s => pose proof (reachable_step _ _ _ _ R7
    (write_unlock 2%nat s eq_refl)) as R8).
  from R8 ltac:(fun s => pose proof (reachable_step _ _ _ _ R8
    (read_load 1%nat s _ _ _ _ _ eq_refl)) as R9).
  from R9 ltac:(fun s => pose proof (reachable_step _ _ _ _ R9
    (read_overlapped 1%nat s _ _ _ _ eq_refl ltac:(discriminate))) as R10).
  from R10 ltac:(fun s => pose proof (reachable_step _ _ _ _ R10
    (read_lock 1%nat s _ _ eq_refl eq_refl)) as R11).
  from R11 ltac:(fun s => pose proof (reachable_step _ _ _ _ R11
    (read_held_load 1%nat s _ _ _ _ eq_refl)) as R12).
  from R12 ltac:(fun s => pose proof (reachable_step _ _ _ _ R12
    (read_held_load 1%nat s _ _ _ _ eq_refl)) as R13).
  from R13 ltac:(fun s => pose proof (reachable_step _ _ _ _ R13
    (read_unlock 1%nat s _ _ _ eq_refl)) as R14).
  eexists. split; [exact R14|]. split; [reflexivity|]. left.
Qed.

Lemma seqlock_reads_one_instant_witness :
  exists (s : State Z Z) i instant, (i < 2)%nat /\ commits s !! i = Some instant
    /\ 0 = eval two_cells instant.
Proof.
  destruct overlapped_read as (s & Hr & Hl & Hx).
  destruct (seqlock_reads_one_instant _ s _ Hr ltac:(rewrite Hl; lia) Hx)
    as (i & m & _ & Hi & Hm & Ha).
  exists s, i, m. by repeat split.
Defined.
End SeqlockPromises.
