(* ===== verification/VfsTypes.v ===== *)
(** What the VFS's calls take and answer: kobako-runtime's [vfs/errno.rs],
    [vfs/stat.rs], [vfs/inode.rs]'s masks, kinds and flags, [vfs/openat2.rs],
    [vfs/file.rs]'s modes, [vfs/attr.rs]'s [Iattr] and [vfs/readdir.rs]'s
    entries.

    A name is its UTF-8 bytes, a [u64] an integer, a [SystemTime] the
    nanoseconds from the Unix epoch. *)
From stdpp Require Import countable.
From S2P Require Import Prelude Text Locking.

#[export] Program Instance byte_countable : Countable byte := {|
  encode b := encode (Byte.to_N b);
  decode p := n ← decode p; Byte.of_N n
|}.
Next Obligation. intros b. simpl. rewrite decode_encode. apply Byte.of_to_N. Qed.

(** ** [vfs/errno.rs] *)
Inductive FilesystemError :=
| NotFound | AlreadyExists | NotADirectory | IsADirectory | DirectoryNotEmpty
| PermissionDenied | ReadOnlyFilesystem | InvalidInput | Unsupported | StorageFull
| FileTooLarge | CrossesDevices | Escape | Deadlock | FilesystemLoop | NotPermitted
| BadDescriptor | ResourceBusy | IllegalSequence | Interrupted | WouldBlock
| TooManyOpenFiles | InvalidFilename | OutOfMemory | NotASocket | ValueTooLarge
| NotSeekable | NoSuchDevice | StaleNetworkFileHandle
| Other (what : list byte).

#[export] Instance FilesystemError_eq_dec : EqDecision FilesystemError.
Proof. solve_decision. Defined.

Definition POSIX_NAMES : list (list byte * FilesystemError) := [
  (lit "EAGAIN", WouldBlock);
  (lit "ENOENT", NotFound);
  (lit "EEXIST", AlreadyExists);
  (lit "ENOTDIR", NotADirectory);
  (lit "EISDIR", IsADirectory);
  (lit "ENOTEMPTY", DirectoryNotEmpty);
  (lit "EACCES", PermissionDenied);
  (lit "EROFS", ReadOnlyFilesystem);
  (lit "EINVAL", InvalidInput);
  (lit "ENOTSUP", Unsupported);
  (lit "EOPNOTSUPP", Unsupported);
  (lit "ENOSPC", StorageFull);
  (lit "EFBIG", FileTooLarge);
  (lit "EXDEV", CrossesDevices);
  (lit "EDEADLK", Deadlock);
  (lit "ELOOP", FilesystemLoop);
  (lit "EPERM", NotPermitted);
  (lit "EBADF", BadDescriptor);
  (lit "EBUSY", ResourceBusy);
  (lit "EILSEQ", IllegalSequence);
  (lit "EINTR", Interrupted);
  (lit "EMFILE", TooManyOpenFiles);
  (lit "ENAMETOOLONG", InvalidFilename);
  (lit "ENOMEM", OutOfMemory);
  (lit "ENOTSOCK", NotASocket);
  (lit "EOVERFLOW", ValueTooLarge);
  (lit "ESPIPE", NotSeekable);
  (lit "ENODEV", NoSuchDevice);
  (lit "ESTALE", StaleNetworkFileHandle)
].

(** [From<DownError>]. *)
Definition from_down_error (e : Rwsem.DownError) : FilesystemError :=
  match e with Rwsem.Deadlock => Deadlock | Rwsem.Interrupted => Interrupted end.

Definition posix_name (e : FilesystemError) : option (list byte) :=
  if bool_decide (e = Escape) then Some (lit "EXDEV")
  else fst <$> List.find (fun entry => bool_decide (entry.2 = e)) POSIX_NAMES.

Definition from_posix_name (name : list byte) : option FilesystemError :=
  snd <$> List.find (fun entry => str_eq entry.1 name) POSIX_NAMES.

(** [vfs.rs]'s limits on a path and on one name. *)
Definition PATH_MAX : Z := 4096.
Definition NAME_MAX : Z := 255.

(** ** [vfs/stat.rs] *)
Inductive FileType := RegFile | Dir | Symlink | Fifo | Sock | Blkdev | Chrdev | Unknown.

#[export] Instance FileType_eq_dec : EqDecision FileType.
Proof. solve_decision. Defined.

Definition special_file (kind : FileType) : bool :=
  match kind with Chrdev | Blkdev | Fifo | Sock => true | _ => false end.

Definition SystemTime := Z.
Definition UNIX_EPOCH : SystemTime := 0.

Record Kstat := MkKstat {
  file_type : FileType;
  st_size : Z;
  st_dev : Z;
  st_ino : Z;
  st_nlink : Z;
  st_atime : option SystemTime;
  st_mtime : option SystemTime;
  st_ctime : option SystemTime;
}.

Definition kstat_new (kind : FileType) (size : Z) : Kstat :=
  MkKstat kind size 0 0 1 None None None.
Definition with_identity (dev ino : Z) (st : Kstat) : Kstat :=
  MkKstat (file_type st) (st_size st) dev ino (st_nlink st)
    (st_atime st) (st_mtime st) (st_ctime st).
Definition with_nlink (nlink : Z) (st : Kstat) : Kstat :=
  MkKstat (file_type st) (st_size st) (st_dev st) (st_ino st) nlink
    (st_atime st) (st_mtime st) (st_ctime st).
Definition with_times (atime mtime ctime : option SystemTime) (st : Kstat) : Kstat :=
  MkKstat (file_type st) (st_size st) (st_dev st) (st_ino st) (st_nlink st) atime mtime ctime.
Definition with_size (size : Z) (st : Kstat) : Kstat :=
  MkKstat (file_type st) size (st_dev st) (st_ino st) (st_nlink st)
    (st_atime st) (st_mtime st) (st_ctime st).

(** ** [vfs/inode.rs]: what an entry is *)
Record Identity := MkIdentity { id_dev : Z; id_ino : Z }.

#[export] Instance Identity_eq_dec : EqDecision Identity.
Proof. solve_decision. Defined.

(** [Identity::from_numbers], [of] and [onto]. *)
Definition from_numbers (dev ino : Z) : option Identity :=
  if ino =? 0 then None else Some (MkIdentity dev ino).
Definition identity_of (st : Kstat) : option Identity := from_numbers (st_dev st) (st_ino st).
Definition onto (i : Identity) (st : Kstat) : Kstat := with_identity (id_dev i) (id_ino i) st.

(** [Mask]'s bits, and whether it holds all of another. *)
Module Mask.
Definition NONE : Z := 0.
Definition EXEC : Z := 1.
Definition WRITE : Z := Z.shiftl 1 1.
Definition READ : Z := Z.shiftl 1 2.
Definition OPEN : Z := Z.shiftl 1 3.
Definition APPEND : Z := Z.shiftl 1 4.
Definition contains (mask other : Z) : bool := Z.land mask other =? other.
Definition bitor (mask other : Z) : Z := Z.lor mask other.
End Mask.

Inductive RenameFlag := NoReplace | Exchange | Whiteout.

#[export] Instance RenameFlag_eq_dec : EqDecision RenameFlag.
Proof. solve_decision. Defined.

(** ** [vfs/openat2.rs] *)
Record OpenHow := MkOpenHow {
  how_read : bool;
  how_write : bool;
  how_create : bool;
  how_exclusive : bool;
  how_truncate : bool;
  how_directory : bool;
  how_follow : bool;
  how_append : bool;
  how_nonblock : bool;
  how_dsync : bool;
  how_sync : bool;
}.

Definition default_how : OpenHow :=
  MkOpenHow false false false false false false false false false false false.

Record OpenFlags := MkOpenFlags {
  open_flag : OpenHow;
  acc_mode : Z;
  lookup_follow : bool;
  flags_directory : bool;
}.

(** The same [OpenHow] with one field changed. *)
Definition set_create (b : bool) (h : OpenHow) : OpenHow :=
  MkOpenHow (how_read h) (how_write h) b (how_exclusive h) (how_truncate h)
    (how_directory h) (how_follow h) (how_append h) (how_nonblock h) (how_dsync h) (how_sync h).
Definition set_truncate (b : bool) (h : OpenHow) : OpenHow :=
  MkOpenHow (how_read h) (how_write h) (how_create h) (how_exclusive h) b
    (how_directory h) (how_follow h) (how_append h) (how_nonblock h) (how_dsync h) (how_sync h).
Definition set_directory (b : bool) (h : OpenHow) : OpenHow :=
  MkOpenHow (how_read h) (how_write h) (how_create h) (how_exclusive h) (how_truncate h)
    b (how_follow h) (how_append h) (how_nonblock h) (how_dsync h) (how_sync h).
Definition set_dsync (b : bool) (h : OpenHow) : OpenHow :=
  MkOpenHow (how_read h) (how_write h) (how_create h) (how_exclusive h) (how_truncate h)
    (how_directory h) (how_follow h) (how_append h) (how_nonblock h) b (how_sync h).

Definition build_open_flags (how : OpenHow) : result FilesystemError OpenFlags :=
  if negb (how_read how) && negb (how_write how) then
    Ok (MkOpenFlags
      (MkOpenHow false false false false false (how_directory how) (how_follow how)
         false false false false)
      Mask.NONE (how_follow how) (how_directory how))
  else if how_directory how && how_create how then Err InvalidInput
  else
    let acc_mode := Mask.NONE in
    let acc_mode := if how_read how then Mask.bitor acc_mode Mask.READ else acc_mode in
    let acc_mode :=
      if how_write how || how_truncate how then Mask.bitor acc_mode Mask.WRITE else acc_mode in
    let acc_mode := if how_append how then Mask.bitor acc_mode Mask.APPEND else acc_mode in
    Ok (MkOpenFlags
      (set_dsync (how_dsync how || how_sync how) how)
      acc_mode
      (how_follow how && negb (how_create how && how_exclusive how))
      (how_directory how)).

(** ** [vfs/file.rs]: modes *)
Definition OFFSET_MAX : Z := I64_MAX.
(** [i32::MAX as usize & !4095]. *)
Definition MAX_RW_COUNT : Z := Z.ldiff (2 ^ 31 - 1) 4095.

Module FMode.
Definition READ : Z := 1.
Definition WRITE : Z := Z.shiftl 1 1.
Definition LSEEK : Z := Z.shiftl 1 2.
Definition PREAD : Z := Z.shiftl 1 3.
Definition PWRITE : Z := Z.shiftl 1 4.
Definition STREAM : Z := Z.shiftl 1 5.
Definition CREATED : Z := Z.shiftl 1 6.
Definition PATH : Z := Z.shiftl 1 7.

Definition open_fmode (how : OpenHow) : Z :=
  let mode := LSEEK in
  let mode := if how_read how then Z.lor mode READ else mode in
  if how_write how then Z.lor mode WRITE else mode.

(** [FMode::with] and [contains]. *)
Definition with_mode (mode other : Z) : Z := Z.lor mode other.
Definition contains (mode other : Z) : bool := Z.land mode other =? other.

(** [FMode::of]. *)
Definition of_how (how : OpenHow) : Z :=
  if negb (how_read how) && negb (how_write how) then PATH
  else with_mode (open_fmode how) (Z.lor PREAD PWRITE).

Definition stream_open (mode : Z) : Z :=
  Z.lor (Z.ldiff mode (Z.lor (Z.lor LSEEK PREAD) PWRITE)) STREAM.
End FMode.

Module PollMask.
Definition IN : Z := 1.
Definition OUT : Z := Z.shiftl 1 1.
Definition contains (mask other : Z) : bool := Z.land mask other =? other.
Definition bitor (mask other : Z) : Z := Z.lor mask other.
End PollMask.

Inductive Whence := Set_ | Cur | End_.

Record Kiocb := MkKiocb {
  ki_pos : Z;
  ki_append : bool;
  ki_dsync : bool;
  ki_sync : bool;
}.

(** [Kiocb::at] and [with_append]. *)
Definition kiocb_at (pos : Z) : Kiocb := MkKiocb pos false false false.
Definition with_append (i : Kiocb) : Kiocb := MkKiocb (ki_pos i) true (ki_dsync i) (ki_sync i).

(** ** [vfs/attr.rs] *)
Inductive SetTime := Now | At (time : SystemTime).

(** [ia_file] is the open file a change is made through, of the type a
    Filesystem's open files have. *)
Record Iattr (Fo : Type) := MkIattr {
  ia_size : option Z;
  ia_atime : option SetTime;
  ia_mtime : option SetTime;
  ia_open : bool;
  ia_ctime : option SystemTime;
  ia_file : option Fo;
}.
Arguments MkIattr {Fo} ia_size ia_atime ia_mtime ia_open ia_ctime ia_file.
Arguments ia_size {Fo}.
Arguments ia_atime {Fo}.
Arguments ia_mtime {Fo}.
Arguments ia_open {Fo}.
Arguments ia_ctime {Fo}.
Arguments ia_file {Fo}.

Section Iattr.
Context {Fo : Type}.

(** [Iattr::size], [open_truncate], [times], [through] and [time_of]. *)
Definition iattr_size (n : Z) : Iattr Fo := MkIattr (Some n) None (Some Now) false None None.
Definition open_truncate : Iattr Fo := MkIattr (Some 0) None (Some Now) true None None.
Definition iattr_times (atime mtime : option SetTime) : Iattr Fo :=
  MkIattr None atime mtime false None None.
Definition through (file : Fo) (a : Iattr Fo) : Iattr Fo :=
  MkIattr (ia_size a) (ia_atime a) (ia_mtime a) (ia_open a) (ia_ctime a) (Some file).
Definition landing_at (now : SystemTime) (a : Iattr Fo) : Iattr Fo :=
  MkIattr (ia_size a) (ia_atime a) (ia_mtime a) (ia_open a) (Some now) (ia_file a).
(** [now] is what [SystemTime::now] would answer were it asked. *)
Definition time_of (now : SystemTime) (a : Iattr Fo) (set : SetTime) : SystemTime :=
  match set with Now => default now (ia_ctime a) | At time => time end.
End Iattr.

(** ** [vfs/readdir.rs] *)
Record DirEntry := MkDirEntry {
  de_name : list byte;
  de_type : FileType;
  de_dev : Z;
  de_ino : Z;
}.

Definition dir_entry_new (name : list byte) (kind : FileType) : DirEntry :=
  MkDirEntry name kind 0 0.
Definition dir_entry_with_identity (dev ino : Z) (e : DirEntry) : DirEntry :=
  MkDirEntry (de_name e) (de_type e) dev ino.

Record DirEmit := MkDirEmit {
  emit_name : list byte;
  emit_type : FileType;
  emit_identity : option Identity;
  emit_offset : Z;
}.

(** [DirEmit::to_dir_entry]. *)
Definition to_dir_entry (e : DirEmit) : DirEntry :=
  let entry := dir_entry_new (emit_name e) (emit_type e) in
  match emit_identity e with
  | Some identity =>
    let named := onto identity (kstat_new (emit_type e) 0) in
    dir_entry_with_identity (st_dev named) (st_ino named) entry
  | None => entry
  end.

Definition slash : byte := x2f.

(** [str::contains] of one byte. *)
Definition contains_byte (b : byte) (s : list byte) : bool := existsb (Byte.eqb b) s.

Definition verify_dirent_name (name : list byte) : result FilesystemError unit :=
  if (len name =? 0) || (PATH_MAX <=? len name) || contains_byte slash name
  then Err (Other (lit "a Filesystem listed a name no directory can hold"))
  else Ok tt.

Definition generic_read_dir : result FilesystemError Z := Err IsADirectory.
