(* ===== verification/World.v ===== *)
(** What the VFS keeps between calls, and the monad its calls run in.

    A Filesystem's own state, its operation tables and its open files are
    parameters ([FsTypes]); so are the [lru] crate's cache and what a third
    party's security module keeps on a file.  Dentries, inodes and
    super blocks are objects at addresses, so [Arc::ptr_eq] compares addresses.
    Reference counts are not kept: whether a [Weak] still upgrades is
    [w_strong]'s to say, anew at each tick, and every theorem holds whatever it
    says.  A call runs alone: where it would wait for another thread's hold or
    lookup, nobody is left to end the wait but the run's own stop, which answers
    [Interrupted].  [w_links] is the [total_link_count] of the walk under way,
    as one call's walks follow one another.  What a call of a Filesystem may change is recorded on
    [w_trace]. *)
From stdpp Require Import gmap.
From S2P Require Import Prelude Text Locking VfsTypes.

Definition did := nat.
Definition iid := nat.
Definition sbid := nat.
Definition thread := Rwsem.thread.

Class FsTypes := {
  FsState : Type;
  InodeOps : Type;
  DentryOps : Type;
  FileOps : Type;
  Lru : Type;
  Blob : Type;
}.

(** [LruCache] as [Dentries] uses it, its keys its values' addresses. *)
Class LruCache {T : FsTypes} := {
  lru_new : Lru;
  lru_push : did -> Lru -> Lru;
  lru_pop : did -> Lru -> Lru;
  lru_iter : Lru -> list did;
}.

(** [LookupState] and [State] of [vfs/dentry.rs], with what a [Dentry] never
    changes: its Filesystem's tables and operations. *)
Inductive LookupState := Unasked | Allocated (walk : thread) | Asking (walk : thread) | Answered.

#[export] Instance LookupState_eq_dec : EqDecision LookupState.
Proof. solve_decision. Defined.

Record Dentry {T : FsTypes} := MkDentry {
  d_parent : option did;
  d_name : list byte;
  d_inode : option iid;
  d_asked : LookupState;
  d_hashed : bool;
  d_sb : sbid;
  d_ops : option DentryOps;
}.

(** [Inode] of [vfs/inode.rs]; [private] is a host directory's alone. *)
Record Inode {T : FsTypes} := MkInode {
  i_kind : FileType;
  i_identity : option Identity;
  i_ops : InodeOps;
  i_rwsem : Rwsem.Holders;
  i_dead : bool;
  i_dentry : option did;
}.

Definition Key : Type := did * list byte.

(** [SuperBlock] of [vfs/super_block.rs] with its [Dentries]. *)
Record SuperBlock {T : FsTypes} := MkSuperBlock {
  s_root : option did;
  s_ops : option DentryOps;
  s_hashtable : Hashtable.Hashtable Key;
  s_in_lookup : Hashtable.Hashtable Key;
  s_lru : Lru;
  s_rename_mutex : Rwsem.Holders;
  s_rdonly : bool;
  s_dontcache : bool;
}.

(** What a call hands a Filesystem that may change what it holds, each entry by
    the path it stood at, and an open by the dentry it is of too. *)
Inductive Event :=
| ECreate (path : option (list byte))
| EAtomicOpen (path : option (list byte)) (create truncate : bool)
| EMkdir (path : option (list byte))
| ELink (old path : option (list byte))
| ESymlink (path : option (list byte))
| ERmdir (path : option (list byte))
| EUnlink (path : option (list byte))
| ERename (old new : option (list byte)) (kind : FileType)
| ESetattr (path : option (list byte))
| EOpen (opened : did) (path : option (list byte)) (kind : FileType) (mode : Z) (truncate : bool).

Record world {T : FsTypes} := MkWorld {
  w_fs : FsState;
  w_dentries : gmap did Dentry;
  w_inodes : gmap iid Inode;
  w_sbs : gmap sbid SuperBlock;
  w_rename_lock : Z;
  w_next : nat;
  w_tick : nat;
  w_strong : nat -> did -> bool;
  w_clock : nat -> SystemTime;
  w_current : thread;
  w_links : nat;
  w_trace : list Event;
}.

Section World.
Context {T : FsTypes}.

Definition set_fs (x : FsState) (w : world) : world :=
  MkWorld _ x (w_dentries w) (w_inodes w) (w_sbs w) (w_rename_lock w) (w_next w) (w_tick w)
    (w_strong w) (w_clock w) (w_current w) (w_links w) (w_trace w).
Definition set_dentries (x : gmap did Dentry) (w : world) : world :=
  MkWorld _ (w_fs w) x (w_inodes w) (w_sbs w) (w_rename_lock w) (w_next w) (w_tick w)
    (w_strong w) (w_clock w) (w_current w) (w_links w) (w_trace w).
Definition set_inodes (x : gmap iid Inode) (w : world) : world :=
  MkWorld _ (w_fs w) (w_dentries w) x (w_sbs w) (w_rename_lock w) (w_next w) (w_tick w)
    (w_strong w) (w_clock w) (w_current w) (w_links w) (w_trace w).
Definition set_sbs (x : gmap sbid SuperBlock) (w : world) : world :=
  MkWorld _ (w_fs w) (w_dentries w) (w_inodes w) x (w_rename_lock w) (w_next w) (w_tick w)
    (w_strong w) (w_clock w) (w_current w) (w_links w) (w_trace w).
Definition set_rename_lock (x : Z) (w : world) : world :=
  MkWorld _ (w_fs w) (w_dentries w) (w_inodes w) (w_sbs w) x (w_next w) (w_tick w)
    (w_strong w) (w_clock w) (w_current w) (w_links w) (w_trace w).
Definition set_next (x : nat) (w : world) : world :=
  MkWorld _ (w_fs w) (w_dentries w) (w_inodes w) (w_sbs w) (w_rename_lock w) x (w_tick w)
    (w_strong w) (w_clock w) (w_current w) (w_links w) (w_trace w).
Definition set_tick (x : nat) (w : world) : world :=
  MkWorld _ (w_fs w) (w_dentries w) (w_inodes w) (w_sbs w) (w_rename_lock w) (w_next w) x
    (w_strong w) (w_clock w) (w_current w) (w_links w) (w_trace w).
Definition set_trace (x : list Event) (w : world) : world :=
  MkWorld _ (w_fs w) (w_dentries w) (w_inodes w) (w_sbs w) (w_rename_lock w) (w_next w) (w_tick w)
    (w_strong w) (w_clock w) (w_current w) (w_links w) x.

Definition set_links (x : nat) (w : world) : world :=
  MkWorld _ (w_fs w) (w_dentries w) (w_inodes w) (w_sbs w) (w_rename_lock w) (w_next w) (w_tick w)
    (w_strong w) (w_clock w) (w_current w) x (w_trace w).

(** ** The monad

    [None] is a call that panics or never returns. *)
Definition M (A : Type) : Type := world -> option (result FilesystemError A * world).
(** A computation that only reads. *)
Definition Rd (A : Type) : Type := world -> option (result FilesystemError A).

Definition ret {A} (a : A) : M A := fun w => Some (Ok a, w).
Definition fail {A} (e : FilesystemError) : M A := fun w => Some (Err e, w).
Definition panic {A} : M A := fun _ => None.
Definition bind {A B} (m : M A) (k : A -> M B) : M B :=
  fun w => match m w with
           | Some (Ok a, w') => k a w'
           | Some (Err e, w') => Some (Err e, w')
           | None => None
           end.
Definition lift {A} (r : result FilesystemError A) : M A := fun w => Some (r, w).
Definition reads {A} (r : Rd A) : M A := fun w => x ← r w; Some (x, w).
(** A field of an object at an address, which a reference never dangles from. *)
Definition asks {A} (f : world -> option A) : M A := fun w => a ← f w; Some (Ok a, w).
Definition modify (f : world -> world) : M unit := fun w => Some (Ok tt, f w).
(** A result taken as a value, as [match] on a [Result] takes one. *)
Definition attempt {A} (m : M A) : M (result FilesystemError A) :=
  fun w => match m w with Some (r, w') => Some (Ok r, w') | None => None end.

Definition emit (f : world -> Event) : M unit :=
  modify (fun w => set_trace (f w :: w_trace w) w).
End World.

Arguments M {T} A.
Arguments Rd {T} A.

Declare Scope vfs_scope.
Delimit Scope vfs_scope with vfs.
Notation "'let!' x := m 'in' k" := (bind m (fun x => k))
  (at level 10, x pattern, m at level 100, k at level 200) : vfs_scope.
Notation "m ;;! k" := (bind m (fun _ => k)) (at level 100, k at level 200) : vfs_scope.
