(* ===== verification/Dcache.v ===== *)
(** The names a walk has reached: [vfs/dentry.rs], with what [vfs/inode.rs] and
    [vfs/super_block.rs] keep beside them.

    [VfsTables] are the operations a Filesystem hangs from its inodes and
    dentries, of which nothing is known here but their types; the trait's
    default methods stand below them. *)
From stdpp Require Import gmap.
From S2P Require Import Prelude Text Locking VfsTypes World.
Local Open Scope vfs_scope.

(** ** Objects at addresses *)
Section Objects.
Context {T : FsTypes}.

Definition dentry_at (d : did) : M Dentry := asks (fun w => w_dentries w !! d).
Definition inode_at (i : iid) : M Inode := asks (fun w => w_inodes w !! i).
Definition sb_at (s : sbid) : M SuperBlock := asks (fun w => w_sbs w !! s).

(** Fields of the object at an address set, its own lock held. *)
Definition on_dentry (d : did) (f : Dentry -> Dentry) : M unit :=
  modify (fun w => set_dentries (alter f d (w_dentries w)) w).
Definition on_inode (i : iid) (f : Inode -> Inode) : M unit :=
  modify (fun w => set_inodes (alter f i (w_inodes w)) w).
Definition on_sb (s : sbid) (f : SuperBlock -> SuperBlock) : M unit :=
  modify (fun w => set_sbs (alter f s (w_sbs w)) w).

(** Whether what stands at an address is still held, asked anew each time. *)
Definition upgrade : M (did -> bool) :=
  fun w => Some (Ok (w_strong w (w_tick w)), set_tick (S (w_tick w)) w).

(** [SystemTime::now]. *)
Definition now : M SystemTime :=
  fun w => Some (Ok (w_clock w (w_tick w)), set_tick (S (w_tick w)) w).

(** An object made at an address nothing had. *)
Definition new_dentry (x : Dentry) : M did :=
  fun w => Some (Ok (w_next w),
    set_next (S (w_next w)) (set_dentries (<[w_next w := x]> (w_dentries w)) w)).
Definition new_inode (x : Inode) : M iid :=
  fun w => Some (Ok (w_next w),
    set_next (S (w_next w)) (set_inodes (<[w_next w := x]> (w_inodes w)) w)).
Definition new_sb (x : SuperBlock) : M sbid :=
  fun w => Some (Ok (w_next w),
    set_next (S (w_next w)) (set_sbs (<[w_next w := x]> (w_sbs w)) w)).
Definition fresh_address : M nat :=
  fun w => Some (Ok (w_next w), set_next (S (w_next w)) w).

Definition with_inode_field (i : option iid) (x : Dentry) : Dentry :=
  MkDentry _ (d_parent x) (d_name x) i (d_asked x) (d_hashed x) (d_sb x) (d_ops x).
Definition with_asked (a : LookupState) (x : Dentry) : Dentry :=
  MkDentry _ (d_parent x) (d_name x) (d_inode x) a (d_hashed x) (d_sb x) (d_ops x).
Definition with_hashed (h : bool) (x : Dentry) : Dentry :=
  MkDentry _ (d_parent x) (d_name x) (d_inode x) (d_asked x) h (d_sb x) (d_ops x).
Definition with_place (p : option did) (n : list byte) (x : Dentry) : Dentry :=
  MkDentry _ p n (d_inode x) (d_asked x) (d_hashed x) (d_sb x) (d_ops x).
Definition with_rwsem (h : Rwsem.Holders) (x : Inode) : Inode :=
  MkInode _ (i_kind x) (i_identity x) (i_ops x) h (i_dead x) (i_dentry x).
Definition with_dead (b : bool) (x : Inode) : Inode :=
  MkInode _ (i_kind x) (i_identity x) (i_ops x) (i_rwsem x) b (i_dentry x).
Definition with_alias (d : option did) (x : Inode) : Inode :=
  MkInode _ (i_kind x) (i_identity x) (i_ops x) (i_rwsem x) (i_dead x) d.
Definition with_hashtable (h : Hashtable.Hashtable Key) (x : SuperBlock) : SuperBlock :=
  MkSuperBlock _ (s_root x) (s_ops x) h (s_in_lookup x) (s_lru x) (s_rename_mutex x)
    (s_rdonly x) (s_dontcache x).
Definition with_in_lookup (h : Hashtable.Hashtable Key) (x : SuperBlock) : SuperBlock :=
  MkSuperBlock _ (s_root x) (s_ops x) (s_hashtable x) h (s_lru x) (s_rename_mutex x)
    (s_rdonly x) (s_dontcache x).
Definition with_lru (l : Lru) (x : SuperBlock) : SuperBlock :=
  MkSuperBlock _ (s_root x) (s_ops x) (s_hashtable x) (s_in_lookup x) l (s_rename_mutex x)
    (s_rdonly x) (s_dontcache x).
Definition with_rename_mutex (h : Rwsem.Holders) (x : SuperBlock) : SuperBlock :=
  MkSuperBlock _ (s_root x) (s_ops x) (s_hashtable x) (s_in_lookup x) (s_lru x) h
    (s_rdonly x) (s_dontcache x).

(** ** Locks: the semaphore of an inode, and the rename mutex of an instance *)
Inductive sem := SInode (i : iid) | SRename (s : sbid).

#[export] Instance sem_eq_dec : EqDecision sem.
Proof. solve_decision. Defined.

Record guard := MkGuard { g_sem : sem; g_exclusive : bool }.

Definition holders_of (s : sem) (w : world) : option Rwsem.Holders :=
  match s with
  | SInode i => i_rwsem <$> w_inodes w !! i
  | SRename s => s_rename_mutex <$> w_sbs w !! s
  end.

Definition set_holders (s : sem) (h : Rwsem.Holders) (w : world) : world :=
  match s with
  | SInode i => set_inodes (alter (with_rwsem h) i (w_inodes w)) w
  | SRename s => set_sbs (alter (with_rename_mutex h) s (w_sbs w)) w
  end.

(** [down_read] and [down_write]. *)
Definition down (exclusive : bool) (s : sem) : M guard :=
  let! h := asks (holders_of s) in
  let! current := asks (fun w => Some (w_current w)) in
  match Rwsem.take_hold exclusive current h with
  | Ok (true, h) => modify (set_holders s h) ;;! ret (MkGuard s exclusive)
  | Ok (false, _) => fail Interrupted
  | Err e => fail (from_down_error e)
  end.

(** [down_read_trylock] and [down_write_trylock]. *)
Definition down_trylock (exclusive : bool) (s : sem) : M (option guard) :=
  let! h := asks (holders_of s) in
  let! current := asks (fun w => Some (w_current w)) in
  match (if exclusive then Rwsem.down_write_trylock else Rwsem.down_read_trylock) current h with
  | Some h => modify (set_holders s h) ;;! ret (Some (MkGuard s exclusive))
  | None => ret None
  end.

(** Dropping a guard. *)
Definition drop_guard (g : guard) : M unit :=
  let! h := asks (holders_of (g_sem g)) in
  let! current := asks (fun w => Some (w_current w)) in
  modify (set_holders (g_sem g) (Rwsem.release (g_exclusive g) current h)).

Fixpoint drop_guards (gs : list guard) : M unit :=
  match gs with
  | [] => ret tt
  | g :: gs => drop_guard g ;;! drop_guards gs
  end.

(** [k] with guards alive to its end, and [k] with guards its answer keeps:
    dropped where it fails. *)
Definition holding {A} (gs : list guard) (k : M A) : M A :=
  let! r := attempt k in
  drop_guards gs ;;! lift r.

Definition keeping {A} (gs : list guard) (k : M A) : M A :=
  let! r := attempt k in
  match r with
  | Ok a => ret a
  | Err e => drop_guards gs ;;! fail e
  end.
End Objects.

(** ** What a Filesystem answers *)

(** [Lookup] and [Finish] of [vfs/inode.rs]. *)
Inductive Lookup := Found (inode : iid) | Absent | Spelled (name : list byte) (inode : iid).

Inductive Finish {T : FsTypes} :=
| FinishOpen (file : FileOps) (created : bool)
| FinishSpelled (file : FileOps) (name : list byte) (inode : iid)
| NoOpen (created : bool)
| FinishLookup (found : Lookup).

(** [InodeOperations] and [DentryOperations]. *)
Class VfsTables (T : FsTypes) := {
  op_permission : InodeOps -> did -> Z -> M unit;
  op_getattr : InodeOps -> did -> M Kstat;
  op_setattr : InodeOps -> did -> Iattr FileOps -> M unit;
  op_lookup : InodeOps -> did -> M Lookup;
  op_get_link : InodeOps -> did -> M (list byte);
  op_open : InodeOps -> did -> OpenHow -> M FileOps;
  op_create : InodeOps -> did -> M unit;
  op_atomic_open : InodeOps -> did -> OpenHow -> M Finish;
  op_mkdir : InodeOps -> did -> M unit;
  op_link : InodeOps -> did -> did -> M unit;
  op_symlink : InodeOps -> did -> list byte -> M unit;
  op_rmdir : InodeOps -> did -> M unit;
  op_unlink : InodeOps -> did -> M unit;
  op_rename : InodeOps -> did -> InodeOps -> did -> option RenameFlag -> M unit;
  dop_revalidate : DentryOps -> InodeOps -> did -> M bool;
  dop_delete : DentryOps -> did -> Rd bool;
  empty_fops : FileOps;
}.

(** *** The trait's default methods *)
Section Defaults.
Context {T : FsTypes}.

Definition default_permission (_ : did) (_ : Z) : M unit := ret tt.
Definition default_setattr (_ : did) (attr : Iattr FileOps) : M unit :=
  match ia_size attr with Some _ => fail InvalidInput | None => fail Unsupported end.
Definition default_lookup (_ : did) : M Lookup := fail NotADirectory.
Definition default_get_link (_ : did) : M (list byte) := fail InvalidInput.
Definition default_open `{!VfsTables T} (_ : did) (_ : OpenHow) : M FileOps := ret empty_fops.
Definition default_create (_ : did) : M unit := fail PermissionDenied.
Definition default_mkdir (_ : did) : M unit := fail NotPermitted.
Definition default_link (_ _ : did) : M unit := fail NotPermitted.
Definition default_symlink (_ : did) (_ : list byte) : M unit := fail NotPermitted.
Definition default_rmdir (_ : did) : M unit := fail NotPermitted.
Definition default_unlink (_ : did) : M unit := fail NotPermitted.
Definition default_rename (_ : did) (_ : InodeOps) (_ : did) (_ : option RenameFlag) : M unit :=
  fail NotPermitted.
Definition default_delete (_ : did) : Rd bool := fun _ => Some (Ok false).

(** [Dentry::in_lookup]. *)
Definition in_lookup_state (a : LookupState) : bool :=
  match a with Allocated _ | Asking _ => true | _ => false end.
Definition in_lookup (d : did) : M bool :=
  let! x := dentry_at d in ret (in_lookup_state (d_asked x)).

(** [atomic_open] by [lookup] and [create] of the same table. *)
Definition default_atomic_open (lookup : did -> M Lookup) (create : did -> M unit)
    (d : did) (how : OpenHow) : M Finish :=
  let! asked := in_lookup d in
  let! found :=
    if asked then
      let! found := lookup d in
      match how_create how, found with
      | true, Absent => ret None
      | _, _ => ret (Some found)
      end
    else ret None in
  match found with
  | Some found => ret (FinishLookup found)
  | None =>
    if negb (how_create how) then ret (NoOpen false)
    else create d ;;! ret (NoOpen true)
  end.
End Defaults.

(** ** Dentries *)
Section Dcache.
Context {T : FsTypes} `{!VfsTables T} `{!LruCache}.

(** *** Where a dentry stands *)

Definition is_root (d : did) : Rd bool :=
  fun w => x ← w_dentries w !! d;
           Some (Ok (match d_parent x with None => true | Some _ => false end)).

Definition parent_and_name (d : did) : Rd (did * list byte) :=
  fun w => x ← w_dentries w !! d; Some (Ok (default d (d_parent x), d_name x)).

Definition parent (d : did) : Rd did :=
  fun w => x ← w_dentries w !! d; Some (Ok (default d (d_parent x))).

Definition name (d : did) : M (list byte) := let! x := dentry_at d in ret (d_name x).

(** The walks up [d_parent]: each name on the way, and whether [ancestor] is
    met.  As many steps as there are dentries reach a root from anywhere
    [d_parent] has no cycle; past them the loop never ends. *)
Fixpoint names_up (fuel : nat) (w : world) (at_ : did) : option (list (list byte)) :=
  match fuel with
  | O => None
  | S fuel =>
    x ← w_dentries w !! at_;
    match d_parent x with
    | None => Some []
    | Some p => above ← names_up fuel w p; Some (above ++ [d_name x])
    end
  end.

Fixpoint ancestor_up (fuel : nat) (w : world) (ancestor at_ : did) : option bool :=
  match fuel with
  | O => None
  | S fuel =>
    x ← w_dentries w !! at_;
    match d_parent x with
    | None => Some false
    | Some p => if (p =? ancestor)%nat then Some true else ancestor_up fuel w ancestor p
    end
  end.

Definition fuel_of (w : world) : nat := S (size (w_dentries w)).

(** [Dentry::names], which a [RENAME_LOCK] nothing moves under reads once. *)
Definition names (d : did) (w : world) : option (list (list byte)) := names_up (fuel_of w) w d.

Fixpoint join (sep : byte) (l : list (list byte)) : list byte :=
  match l with
  | [] => []
  | [s] => s
  | s :: l => s ++ sep :: join sep l
  end.

Definition path_raw (d : did) (w : world) : option (list byte) :=
  l ← names d w; Some (slash :: join slash l).

Definition d_ancestor (ancestor d : did) : Rd bool :=
  fun w => b ← ancestor_up (fuel_of w) w ancestor d; Some (Ok b).

Definition is_subdir (d ancestor : did) : Rd bool :=
  fun w => if (d =? ancestor)%nat then Some (Ok true) else d_ancestor ancestor d w.

(** *** What a dentry names *)

Definition inode (d : did) : M (option iid) := let! x := dentry_at d in ret (d_inode x).

(** The inode a dentry names, NotFound where it names none. *)
Definition named_inode (d : did) : M iid :=
  let! i := inode d in
  match i with Some i => ret i | None => fail NotFound end.

Definition inode_lock_shared (d : did) : M guard :=
  let! i := named_inode d in down false (SInode i).

Definition inode_lock (d : did) : M guard :=
  let! i := named_inode d in down true (SInode i).

Definition is_deaddir (d : did) : M bool :=
  let! i := inode d in
  match i with
  | Some i => let! x := inode_at i in ret (i_dead x)
  | None => ret false
  end.

Definition mark_dead (d : did) : M unit :=
  let! i := inode d in
  match i with
  | Some i => on_inode i (with_dead true)
  | None => ret tt
  end.

Definition inode_ops (d : did) : M InodeOps :=
  let! i := named_inode d in
  let! x := inode_at i in ret (i_ops x).

Definition kind (d : did) : M FileType :=
  let! i := named_inode d in
  let! x := inode_at i in ret (i_kind x).

(** [kind().ok()]. *)
Definition kind_ok (d : did) : M (option FileType) :=
  let! i := inode d in
  match i with
  | Some i => let! x := inode_at i in ret (Some (i_kind x))
  | None => ret None
  end.

Definition getattr (d : did) : M Kstat := let! o := inode_ops d in op_getattr o d.

Definition open (d : did) (how : OpenHow) : M FileOps := let! o := inode_ops d in op_open o d how.

Definition get_link (d : did) : M (list byte) := let! o := inode_ops d in op_get_link o d.

Definition identity_at (d : did) : M (option Identity) :=
  let! i := inode d in
  match i with
  | Some i => let! x := inode_at i in ret (i_identity x)
  | None => ret None
  end.

Definition names_the_entry_of (d other : did) : M bool :=
  let! a := identity_at d in
  let! b := identity_at other in
  ret (bool_decide (is_Some a) && bool_decide (a = b)).

(** *** Recording what a lookup found *)

(** [Inode::new]. *)
Definition inode_new (st : Kstat) (ops : InodeOps) : M iid :=
  new_inode (MkInode _ (file_type st) (identity_of st) ops Rwsem.default_holders false None).

(** [Dentry::new]. *)
Definition dentry_new (p : option did) (n : list byte) (ops : option DentryOps) (s : sbid)
  : M did :=
  new_dentry (MkDentry _ p n None Unasked false s ops).

(** [__instantiate]. *)
Definition __instantiate (d : did) (i : iid) : M unit :=
  let! x := dentry_at d in
  match d_inode x with
  | Some _ => ret tt
  | None =>
    let! n := inode_at i in
    (if bool_decide (i_kind n = Dir) then on_inode i (with_alias (Some d)) else ret tt) ;;!
    on_dentry d (with_inode_field (Some i))
  end.

Definition instantiate (d : did) (i : iid) : M unit := __instantiate d i.

Definition rehash (d : did) : M unit :=
  let! x := dentry_at d in
  let! at_ := reads (parent_and_name d) in
  let! strong := upgrade in
  on_sb (d_sb x) (fun s =>
    if Hashtable.holds at_ d (s_in_lookup s)
    then with_in_lookup (Hashtable.remove strong at_ (s_in_lookup s)).2 s else s) ;;!
  on_dentry d (with_asked Answered) ;;!
  if d_hashed x then ret tt
  else
    on_sb (d_sb x) (fun s =>
      with_hashtable (Hashtable.insert_entry strong at_ d (s_hashtable s)) s) ;;!
    on_dentry d (with_hashed true).

(** [Inode::add_hashed], and [Inode::find_alias_or_add]. *)
Definition add_hashed (i : iid) (d : did) : M unit := __instantiate d i ;;! rehash d.

Definition find_alias_or_add (i : iid) (d : did) : M (option did) :=
  let! n := inode_at i in
  let! strong := upgrade in
  let found :=
    match i_dentry n with
    | Some a => if strong a && negb (a =? d)%nat then Some a else None
    | None => None
    end in
  match found with
  | Some a => ret (Some a)
  | None => __instantiate d i ;;! rehash d ;;! ret None
  end.

(** [Dentry::add]. *)
Definition add (d : did) (i : option iid) : M unit :=
  match i with
  | Some i => add_hashed i d
  | None => rehash d
  end.

Definition hashed (d : did) : M bool := let! x := dentry_at d in ret (d_hashed x).

(** *** Lookups under way *)

(** A wait for another walk's lookup ends only with the run's. *)
Definition wait_lookup (d : did) : M bool :=
  let! x := dentry_at d in
  let! current := asks (fun w => Some (w_current w)) in
  match d_asked x with
  | Allocated walk | Asking walk => if (walk =? current)%nat then ret true else fail Interrupted
  | Unasked | Answered => ret false
  end.

Inductive InLookup := LAnswered | LBegun | LWithin.

Definition begin_lookup (d : did) : M InLookup :=
  wait_lookup d ;;!
  let! x := dentry_at d in
  let! current := asks (fun w => Some (w_current w)) in
  match d_asked x with
  | Asking _ => ret LWithin
  | Answered => ret LAnswered
  | Allocated _ | Unasked => on_dentry d (with_asked (Asking current)) ;;! ret LBegun
  end.

Definition lookup_done (d : did) : M unit :=
  let! x := dentry_at d in
  let! at_ := reads (parent_and_name d) in
  if in_lookup_state (d_asked x) then
    let! strong := upgrade in
    on_sb (d_sb x) (fun s =>
      if Hashtable.holds at_ d (s_in_lookup s)
      then with_in_lookup (Hashtable.remove strong at_ (s_in_lookup s)).2 s else s) ;;!
    on_dentry d (with_asked Unasked)
  else ret tt.

Definition ask_in_lookup {A} (d : did) (ask : M A) : M (option A) :=
  let! begun := begin_lookup d in
  match begun with
  | LAnswered => ret None
  | LBegun =>
    let! asked := attempt ask in
    lookup_done d ;;!
    let! a := lift asked in ret (Some a)
  | LWithin => let! a := ask in ret (Some a)
  end.

(** *** [Dentries] *)

(** How many times a loop that finds what it looks for changed asks again: the
    second turn meets a name let go of, and a name in lookup is never left in
    its table once its lookup ended. *)
Definition TURNS : nat := 3.

Fixpoint alloc_parallel_turns (turns : nat) (s : sbid) (p : did) (n : list byte) : M did :=
  match turns with
  | O => panic
  | S turns =>
    let at_ := (p, n) in
    let! sb := sb_at s in
    let! strong := upgrade in
    match Hashtable.get strong at_ (s_hashtable sb) with
    | Some found => ret found
    | None =>
      let! strong := upgrade in
      match Hashtable.get strong at_ (s_in_lookup sb) with
      | None =>
        let! made := dentry_new (Some p) n (s_ops sb) s in
        let! current := asks (fun w => Some (w_current w)) in
        on_dentry made (with_asked (Allocated current)) ;;!
        on_sb s (fun sb =>
          with_in_lookup (Hashtable.insert_entry strong at_ made (s_in_lookup sb)) sb) ;;!
        ret made
      | Some waited =>
        let! mine := wait_lookup waited in
        if mine then ret waited
        else
          let! called := reads (parent_and_name waited) in
          let! h := hashed waited in
          if h && (called.1 =? p)%nat && str_eq called.2 n then ret waited
          else alloc_parallel_turns turns s p n
      end
    end
  end.

Definition alloc_parallel : sbid -> did -> list byte -> M did := alloc_parallel_turns TURNS.

Definition dcache_lookup (s : sbid) (p : did) (n : list byte) : M (option did) :=
  let! sb := sb_at s in
  let! strong := upgrade in
  ret (Hashtable.get strong (p, n) (s_hashtable sb)).

Definition goes_when_unused (d : did) : M bool :=
  let! x := dentry_at d in
  match d_ops x with
  | Some ops => reads (dop_delete ops d)
  | None => ret false
  end.

Definition dcache_retain (s : sbid) (d : did) : M unit :=
  let! goes := goes_when_unused d in
  if goes then ret tt
  else
    let! x := dentry_at d in
    if negb (d_hashed x) then ret tt
    else on_sb s (fun sb => with_lru (lru_push d (s_lru sb)) sb).

Definition unlinked (d : did) : M bool :=
  let! root := reads (is_root d) in
  let! h := hashed d in
  ret (negb root && negb h).

(** [drop_hashed] takes the table of the instance it is asked of. *)
Definition drop_hashed (s : sbid) (d : did) : M unit :=
  let! at_ := reads (parent_and_name d) in
  let! x := dentry_at d in
  if d_hashed x then
    let! strong := upgrade in
    on_sb s (fun sb => with_hashtable (Hashtable.remove strong at_ (s_hashtable sb)).2 sb) ;;!
    on_dentry d (with_hashed false)
  else ret tt.

Definition unhash (s : sbid) (d : did) : M unit :=
  drop_hashed s d ;;!
  on_sb s (fun sb => with_lru (lru_pop d (s_lru sb)) sb).

(** The kept names standing beneath [p]. *)
Fixpoint kept_beneath (p : did) (kept : list did) : M (list did) :=
  match kept with
  | [] => ret []
  | held :: kept =>
    let! beneath := if (held =? p)%nat then ret false else reads (is_subdir held p) in
    let! rest := kept_beneath p kept in
    ret (if beneath then held :: rest else rest)
  end.

Definition shrink_dcache_parent (s : sbid) (p : did) : M unit :=
  let! sb := sb_at s in
  let! beneath := kept_beneath p (lru_iter (s_lru sb)) in
  on_sb s (fun sb => with_lru (fold_left (fun l d => lru_pop d l) beneath (s_lru sb)) sb).

Definition invalidate (s : sbid) (d : did) : M unit :=
  let! h := hashed d in
  if negb h then ret tt
  else
    unhash s d ;;!
    let! i := inode d in
    if bool_decide (is_Some i) then shrink_dcache_parent s d else ret tt.

(** [RENAME_LOCK.write]: counted as it begins and as it ends. *)
Definition rename_write {A} (k : M A) : M A :=
  let bump := modify (fun w => set_rename_lock (Seqlock.fetch_add_one (w_rename_lock w)) w) in
  bump ;;!
  let! r := attempt k in
  bump ;;! lift r.

(** Take [d] from the name it stands at, where a walk finds it there, and hash
    it at [(p, n)], where it stands from then on: what [move_dentry] and
    [unalias] share. *)
Definition stand_at (s : sbid) (d p : did) (n : list byte) : M unit :=
  let! from := reads (parent_and_name d) in
  let! x := dentry_at d in
  let! strong := upgrade in
  on_sb s (fun sb =>
    let table :=
      if d_hashed x then (Hashtable.remove strong from (s_hashtable sb)).2 else s_hashtable sb in
    with_hashtable (Hashtable.insert_entry strong (p, n) d table) sb) ;;!
  on_dentry d (fun x => with_place (Some p) n (with_hashed true x)).

Definition move_dentry (s : sbid) (d target : did) : M unit :=
  unhash s target ;;!
  let! at_ := reads (parent_and_name target) in
  rename_write (stand_at s d at_.1 at_.2).

Definition exchange (s : sbid) (first second : did) : M unit :=
  let! first_at := reads (parent_and_name first) in
  let! second_at := reads (parent_and_name second) in
  rename_write (
    let! one := dentry_at first in
    let! other := dentry_at second in
    let! strong := upgrade in
    on_sb s (fun sb =>
      let drop at_ (x : Dentry) table :=
        if d_hashed x then (Hashtable.remove strong at_ table).2 else table in
      let table := drop second_at other (drop first_at one (s_hashtable sb)) in
      let table := Hashtable.insert_entry strong second_at first table in
      let table := Hashtable.insert_entry strong first_at second table in
      with_hashtable table sb) ;;!
    on_dentry first (fun x => with_place (d_parent other) (d_name other) (with_hashed true x)) ;;!
    on_dentry second (fun x => with_place (d_parent one) (d_name one) (with_hashed true x))).

(** *** Splicing *)

(** [unalias]: the instance's rename mutex and the old directory's lock are
    taken without waiting, and let go of with the move. *)
Definition unalias (s : sbid) (d alias : did) : M unit :=
  let! at_ := reads (parent_and_name d) in
  let! x := dentry_at d in
  rename_write (
    let! beneath := reads (d_ancestor alias d) in
    let! root := reads (is_root alias) in
    if beneath || root then fail FilesystemLoop
    else
      let! old := reads (parent_and_name alias) in
      if (old.1 =? at_.1)%nat then stand_at (d_sb x) alias at_.1 at_.2
      else
        let! rename := down_trylock true (SRename s) in
        match rename with
        | None => fail StaleNetworkFileHandle
        | Some rename =>
          let! o := inode old.1 in
          match o with
          | None => panic
          | Some i =>
            let! dir := down_trylock false (SInode i) in
            match dir with
            | None => drop_guard rename ;;! fail StaleNetworkFileHandle
            | Some dir => holding [rename; dir] (stand_at (d_sb x) alias at_.1 at_.2)
            end
          end
        end).

(** [splice_alias] of an entry found. *)
Definition splice_found (s : sbid) (d : did) (i : iid) : M (option did) :=
  let! alias := find_alias_or_add i d in
  match alias with
  | None => ret None
  | Some alias => unalias s d alias ;;! ret (Some alias)
  end.

Definition add_ci (s : sbid) (d : did) (n : list byte) (i : iid) : M did :=
  let! p := reads (parent d) in
  let! found := alloc_parallel s p n in
  let! spliced := ask_in_lookup found (splice_found s found i) in
  ret (match spliced with Some (Some alias) => alias | _ => found end).

Definition splice_alias (s : sbid) (d : did) (found : Lookup) : M (option did) :=
  match found with
  | Found i => splice_found s d i
  | Absent => add d None ;;! ret None
  | Spelled n i => let! spliced := add_ci s d n i in ret (Some spliced)
  end.

Definition lookup_inode (s : sbid) (dir d : did) : M (option did) :=
  let! asked := ask_in_lookup d (
    let! o := inode_ops dir in
    let! found := op_lookup o d in
    splice_alias s d found) in
  ret (match asked with Some spliced => spliced | None => None end).

(** *** [SuperBlock] and [Dentries] as they are made *)

Definition make_root (s : sbid) (i : iid) : M did :=
  let! sb := sb_at s in
  let! root := dentry_new None [] (s_ops sb) s in
  instantiate root i ;;! ret root.

Definition alloc_pseudo (s : sbid) : M did :=
  let! sb := sb_at s in dentry_new None [] (s_ops sb) s.

Definition with_root (r : option did) (x : SuperBlock) : SuperBlock :=
  MkSuperBlock _ r (s_ops x) (s_hashtable x) (s_in_lookup x) (s_lru x) (s_rename_mutex x)
    (s_rdonly x) (s_dontcache x).
Definition with_d_op (o : option DentryOps) (x : SuperBlock) : SuperBlock :=
  MkSuperBlock _ (s_root x) o (s_hashtable x) (s_in_lookup x) (s_lru x) (s_rename_mutex x)
    (s_rdonly x) (s_dontcache x).
Definition with_flags (rdonly dontcache : bool) (x : SuperBlock) : SuperBlock :=
  MkSuperBlock _ (s_root x) (s_ops x) (s_hashtable x) (s_in_lookup x) (s_lru x) (s_rename_mutex x)
    rdonly dontcache.

Definition d_make_root (s : sbid) (i : iid) : M unit :=
  let! root := make_root s i in on_sb s (with_root (Some root)).
Definition set_default_d_op (s : sbid) (ops : DentryOps) : M unit :=
  on_sb s (with_d_op (Some ops)).
Definition set_rdonly (s : sbid) : M unit :=
  on_sb s (fun sb => with_flags true (s_dontcache sb) sb).
Definition set_dontcache (s : sbid) : M unit :=
  on_sb s (fun sb => with_flags (s_rdonly sb) true sb).

(** [SuperBlock::new] of a Filesystem whose [fill_super] is [fill]. *)
Definition super_block_new (fill : sbid -> M unit) : M sbid :=
  let! s := new_sb (MkSuperBlock _ None None Hashtable.default_table Hashtable.default_table
    lru_new Rwsem.default_holders false false) in
  fill s ;;!
  let! sb := sb_at s in
  match s_root sb with
  | None => fail InvalidInput
  | Some _ => ret s
  end.
End Dcache.
