(* ===== verification/Cred.v ===== *)
(** Who a call is made for and where it starts: [vfs/cred.rs], [vfs/mount.rs]
    and [vfs/path.rs].

    A security module is a record of hooks, each reading what stands and
    answering; a Host App's Policy and a third party's module are any such
    functions.  A [SecurityPath] is a mount and the dentry whose [path_raw] its
    name answers when asked. *)
From stdpp Require Import gmap.
From S2P Require Import Prelude Text Catalog Locking VfsTypes World Dcache.
Local Open Scope vfs_scope.

(** ** [vfs/mount.rs] and [vfs/path.rs] *)

(** A [VfsMount] at an address, so [Arc::ptr_eq] tells two mounts of one
    instance apart. *)
Record VfsMount := MkVfsMount {
  mnt_id : nat;
  mnt_root : did;
  mnt_sb : sbid;
  mnt_read_only : bool;
}.

Definition same_mount (a b : VfsMount) : bool := (mnt_id a =? mnt_id b)%nat.

Record Path := MkPath { p_mnt : VfsMount; p_dentry : did }.

(** [Path::root] and [with_dentry]. *)
Definition path_root (mnt : VfsMount) : Path := MkPath mnt (mnt_root mnt).
Definition path_with_dentry (p : Path) (d : did) : Path := MkPath (p_mnt p) d.

Section Mount.
Context {T : FsTypes}.

(** [VfsMount::new], [kern_mount], [is_readonly] and [mnt_want_write]. *)
Definition vfs_mount_new (s : sbid) (read_only : bool) : M VfsMount :=
  let! sb := sb_at s in
  match s_root sb with
  | None => panic
  | Some root => let! a := fresh_address in ret (MkVfsMount a root s read_only)
  end.

Definition kern_mount (s : sbid) : M VfsMount := vfs_mount_new s false.

Definition is_readonly (mnt : VfsMount) : Rd bool :=
  fun w => sb ← w_sbs w !! mnt_sb mnt; Some (Ok (mnt_read_only mnt || s_rdonly sb)).

Definition mnt_want_write (mnt : VfsMount) : M unit :=
  let! ro := reads (is_readonly mnt) in
  if ro : bool then fail ReadOnlyFilesystem else ret tt.

(** [Start]: how to find where a walk starts. *)
Definition Start : Type := M Path.
Definition start_at (p : Path) : Start := ret p.
End Mount.

(** ** [vfs/cred.rs] *)
Section Cred.
Context {T : FsTypes}.

(** What a module keeps on an open file: kobako's own [AllowedAccess], or a
    third party's blob. *)
Inductive Kept := AllowedAccess (access : Access) | Foreign (blob : Blob).
Definition FileSecurity : Type := option Kept.

Record SecurityPath := MkSecurityPath { sp_mnt : VfsMount; sp_dentry : did }.

Definition sp_name (p : SecurityPath) : Rd (list byte) :=
  fun w => n ← path_raw (sp_dentry p) w; Some (Ok n).

Record SecurityOperations := MkSecurityOperations {
  hook_inode_permission : did -> Z -> Rd unit;
  hook_path_mknod : SecurityPath -> Rd unit;
  hook_path_mkdir : SecurityPath -> Rd unit;
  hook_path_rmdir : SecurityPath -> Rd unit;
  hook_path_unlink : SecurityPath -> Rd unit;
  hook_path_symlink : SecurityPath -> Rd unit;
  hook_path_link : SecurityPath -> SecurityPath -> Rd unit;
  hook_path_rename : SecurityPath -> SecurityPath -> did -> did -> Rd unit;
  hook_file_open : SecurityPath -> FileType -> Z -> OpenHow -> Rd FileSecurity;
  hook_file_truncate : FileSecurity -> Rd unit;
  hook_path_utimes : SecurityPath -> Rd unit;
  hook_inode_readlink : did -> Rd unit;
}.

(** The trait's default methods: a hook a module does not have allows the
    call. *)
Definition allow : Rd unit := fun _ => Some (Ok tt).
Definition default_security : SecurityOperations :=
  MkSecurityOperations (fun _ _ => allow) (fun _ => allow) (fun _ => allow) (fun _ => allow)
    (fun _ => allow) (fun _ => allow) (fun _ _ => allow) (fun _ _ _ _ => allow)
    (fun _ _ _ _ _ => Some (Ok None)) (fun _ => allow) (fun _ => allow) (fun _ => allow).

(** [Cred], its [committed] the address of a [VmCommitted]. *)
Record Cred := MkCred {
  security : list SecurityOperations;
  committed : option nat;
}.

Definition cred_within (security : list SecurityOperations) (committed : option nat) : Cred :=
  MkCred security committed.

Definition with_modules (cred : Cred) (more : list SecurityOperations) : Cred :=
  cred_within (security cred ++ more) (committed cred).

Definition rd_bind {A B} (m : Rd A) (k : A -> Rd B) : Rd B :=
  fun w => match m w with
           | Some (Ok a) => k a w
           | Some (Err e) => Some (Err e)
           | None => None
           end.

(** [call_int_hook]: each module in turn, the first refusal answering. *)
Fixpoint call_int_hook (modules : list SecurityOperations) (hook : SecurityOperations -> Rd unit)
  : Rd unit :=
  match modules with
  | [] => allow
  | m :: modules => rd_bind (hook m) (fun _ => call_int_hook modules hook)
  end.

Definition security_inode_permission (cred : Cred) (d : did) (mask : Z) : M unit :=
  reads (call_int_hook (security cred) (fun m => hook_inode_permission m d mask)).
Definition security_path_mknod (cred : Cred) (p : SecurityPath) : M unit :=
  reads (call_int_hook (security cred) (fun m => hook_path_mknod m p)).
Definition security_path_mkdir (cred : Cred) (p : SecurityPath) : M unit :=
  reads (call_int_hook (security cred) (fun m => hook_path_mkdir m p)).
Definition security_path_rmdir (cred : Cred) (p : SecurityPath) : M unit :=
  reads (call_int_hook (security cred) (fun m => hook_path_rmdir m p)).
Definition security_path_unlink (cred : Cred) (p : SecurityPath) : M unit :=
  reads (call_int_hook (security cred) (fun m => hook_path_unlink m p)).
Definition security_path_symlink (cred : Cred) (p : SecurityPath) : M unit :=
  reads (call_int_hook (security cred) (fun m => hook_path_symlink m p)).
Definition security_path_link (cred : Cred) (old new : SecurityPath) : M unit :=
  reads (call_int_hook (security cred) (fun m => hook_path_link m old new)).
Definition security_path_rename (cred : Cred) (old new : SecurityPath) (od nd : did) : M unit :=
  reads (call_int_hook (security cred) (fun m => hook_path_rename m old new od nd)).
Definition security_path_utimes (cred : Cred) (p : SecurityPath) : M unit :=
  reads (call_int_hook (security cred) (fun m => hook_path_utimes m p)).
Definition security_inode_readlink (cred : Cred) (d : did) : M unit :=
  reads (call_int_hook (security cred) (fun m => hook_inode_readlink m d)).

Definition security_file_alloc (cred : Cred) : list FileSecurity :=
  map (fun _ => None) (security cred).

(** Each module about the open, what each keeps in the order the modules
    stand. *)
Fixpoint file_open_modules (modules : list SecurityOperations) (p : SecurityPath)
    (kind : FileType) (mode : Z) (how : OpenHow) : Rd (list FileSecurity) :=
  match modules with
  | [] => fun _ => Some (Ok [])
  | m :: modules =>
    rd_bind (hook_file_open m p kind mode how) (fun kept =>
    rd_bind (file_open_modules modules p kind mode how) (fun rest =>
    fun _ => Some (Ok (kept :: rest))))
  end.

Definition security_file_open (cred : Cred) (p : SecurityPath) (kind : FileType) (mode : Z)
    (how : OpenHow) : M (list FileSecurity) :=
  reads (file_open_modules (security cred) p kind mode how).

Fixpoint file_truncate_modules (modules : list SecurityOperations) (kept : list FileSecurity)
  : Rd unit :=
  match modules, kept with
  | m :: modules, k :: kept =>
    rd_bind (hook_file_truncate m k) (fun _ => file_truncate_modules modules kept)
  | _, _ => allow
  end.

Definition security_file_truncate (cred : Cred) (kept : list FileSecurity) : M unit :=
  reads (file_truncate_modules (security cred) kept).
End Cred.

(** [VmCommitted], and the memory counted on a caller's behalf. *)
Record VmCommitted := MkVmCommitted { vm_limit : Z; vm_used : Z }.

Definition vm_committed_new (limit : Z) : VmCommitted := MkVmCommitted limit 0.

Definition security_vm_enough_memory (bytes : Z) (committed : option VmCommitted)
  : result FilesystemError unit * option VmCommitted :=
  match committed with
  | None => (Ok tt, None)
  | Some c =>
    match checked_add (vm_used c) bytes with
    | Some total =>
      if total <=? vm_limit c then (Ok tt, Some (MkVmCommitted (vm_limit c) total))
      else (Err OutOfMemory, Some c)
    | None => (Err OutOfMemory, Some c)
    end
  end.

Definition vm_unacct_memory (bytes : Z) (committed : option VmCommitted) : option VmCommitted :=
  match committed with
  | None => None
  | Some c => Some (MkVmCommitted (vm_limit c) (as_u64 (vm_used c - bytes)))
  end.
