(* ===== verification/OpenFile.v ===== *)
(** An open file: [vfs/file.rs], with [vfs/attr.rs]'s [notify_change] and
    [vfs/readdir.rs]'s listing.

    [FileTables] are the operations a Filesystem's open files answer through,
    each a handle whose own state is part of the Filesystem's.  A listing's
    actor answers whether to go on from the entries it took before. *)
From stdpp Require Import gmap.
From S2P Require Import Prelude Text Locking VfsTypes World Dcache Cred.
Local Open Scope vfs_scope.

(** ** [vfs/readdir.rs] *)
Record DirContext := MkDirContext {
  ctx_pos : Z;
  ctx_taken : list DirEmit;
  ctx_actor : list DirEmit -> DirEmit -> bool;
  ctx_committed : option nat;
}.

Definition ctx_new (pos : Z) (actor : list DirEmit -> DirEmit -> bool) : DirContext :=
  MkDirContext pos [] actor None.
Definition ctx_set_pos (pos : Z) (c : DirContext) : DirContext :=
  MkDirContext pos (ctx_taken c) (ctx_actor c) (ctx_committed c).
Definition ctx_set_committed (committed : option nat) (c : DirContext) : DirContext :=
  MkDirContext (ctx_pos c) (ctx_taken c) (ctx_actor c) committed.

(** [DirContext::emit] and [dir_emit]. *)
Definition ctx_emit (n : list byte) (kind : FileType) (identity : option Identity)
    (c : DirContext) : bool * DirContext :=
  let e := MkDirEmit n kind identity (ctx_pos c) in
  (ctx_actor c (ctx_taken c) e, MkDirContext (ctx_pos c) (ctx_taken c ++ [e]) (ctx_actor c)
    (ctx_committed c)).

Definition dir_emit (e : DirEntry) (c : DirContext) : bool * DirContext :=
  ctx_emit (de_name e) (de_type e) (from_numbers (de_dev e) (de_ino e)) c.

(** ** [FileOperations] *)
Class FileTables (T : FsTypes) := {
  fo_llseek : FileOps -> did -> Z -> Z -> Whence -> M Z;
  (** The bytes of the caller's buffer, before and after. *)
  fo_read_iter : FileOps -> Kiocb -> list byte -> M (Kiocb * Z * list byte);
  fo_write_iter : FileOps -> Kiocb -> list byte -> M (Kiocb * Z);
  (** What was listed stays listed where the listing fails. *)
  fo_iterate_shared : FileOps -> did -> DirContext -> M (result FilesystemError unit * DirContext);
  fo_fallocate : FileOps -> Z -> Z -> M unit;
  fo_poll : FileOps -> Z -> Rd Z;
  fo_fsync : FileOps -> bool -> M unit;
  fo_flush : FileOps -> M unit;
  fo_is_stream : FileOps -> bool;
}.

Section OpenFile.
Context {T : FsTypes} `{!VfsTables T} `{!LruCache} `{!FileTables T}.

(** *** The trait's default methods *)
Definition default_llseek (_ : did) (_ _ : Z) (_ : Whence) : M Z := fail NotSeekable.
Definition default_read_iter (_ : Kiocb) (_ : list byte) : M (Kiocb * Z * list byte) :=
  fail InvalidInput.
Definition default_write_iter (_ : Kiocb) (_ : list byte) : M (Kiocb * Z) := fail InvalidInput.
Definition default_iterate_shared (_ : did) (c : DirContext)
  : M (result FilesystemError unit * DirContext) := ret (Err NotADirectory, c).
Definition default_fallocate (_ _ : Z) : M unit := fail Unsupported.
Definition default_poll (_ : Z) : Rd Z :=
  fun _ => Some (Ok (PollMask.bitor PollMask.IN PollMask.OUT)).
Definition default_fsync (_ : bool) : M unit := fail InvalidInput.
Definition default_flush : M unit := ret tt.

Definition generic_write_sync (fsync : bool -> M unit) (iocb : Kiocb) (written : Z) : M Z :=
  (if ki_dsync iocb && (0 <? written) then fsync (negb (ki_sync iocb)) else ret tt) ;;!
  ret written.

(** [u64::checked_add_signed]. *)
Definition checked_add_signed (base offset : Z) : option Z :=
  if (0 <=? base + offset) && (base + offset <=? U64_MAX) then Some (base + offset) else None.

Definition generic_file_llseek (d : did) (pos offset : Z) (whence : Whence) : M Z :=
  let! base :=
    match whence with
    | Set_ => ret 0
    | Cur => ret pos
    | End_ => let! st := getattr d in ret (st_size st)
    end in
  match checked_add_signed base offset with
  | Some pos => if pos <=? OFFSET_MAX then ret pos else fail InvalidInput
  | None => fail InvalidInput
  end.

(** [i_ino] and [dir_emit_dots]. *)
Definition dir_emit_dots (d : did) (c : DirContext) : M (bool * DirContext) :=
  let! dots :=
    if ctx_pos c =? 0 then
      let! ino := identity_at d in
      let '(on, c) := ctx_emit (lit ".") Dir ino c in
      ret (if on then (true, ctx_set_pos 1 c) else (false, c))
    else ret (true, c) in
  let '(on, c) := dots in
  if negb on then ret (false, c)
  else if ctx_pos c =? 1 then
    let! above := reads (parent d) in
    let! ino := identity_at above in
    let '(on, c) := ctx_emit (lit "..") Dir ino c in
    ret (if on then (true, ctx_set_pos 2 c) else (false, c))
  else ret (true, c).

(** ** [vfs/attr.rs]'s [notify_change], its caller holding the entry's lock *)
Definition notify_change (d : did) (attr : Iattr FileOps) : M unit :=
  let! i := inode d in
  match i with
  | None => panic
  | Some i =>
    let! t := now in
    let! x := inode_at i in
    emit (fun w => ESetattr (path_raw d w)) ;;!
    op_setattr (i_ops x) d (landing_at t attr)
  end.

(** ** Opening *)

(** [open] is what answers for the file. *)
Definition do_dentry_open (cred : Cred) (at_ : SecurityPath) (kind : FileType) (mode : Z)
    (how : OpenHow) (open : M FileOps) : M (FileOps * list FileSecurity) :=
  if FMode.contains mode FMode.PATH then ret (empty_fops, security_file_alloc cred)
  else
    (if FMode.contains mode FMode.WRITE && negb (special_file kind)
     then mnt_want_write (sp_mnt at_) else ret tt) ;;!
    let! kept := security_file_open cred at_ kind mode how in
    emit (fun w => EOpen (sp_dentry at_) (path_raw (sp_dentry at_) w) kind mode (how_truncate how)) ;;!
    let! f := open in
    ret (f, kept).

Record File := MkFile {
  f_path : Path;
  f_inode : iid;
  f_op : FileOps;
  f_mode : Z;
  f_append : bool;
  f_nonblock : bool;
  f_dsync : bool;
  f_sync : bool;
  f_pos : Z;
  f_cred : Cred;
  f_security : list FileSecurity;
}.

Definition set_pos (pos : Z) (f : File) : File :=
  MkFile (f_path f) (f_inode f) (f_op f) (f_mode f) (f_append f) (f_nonblock f) (f_dsync f)
    (f_sync f) pos (f_cred f) (f_security f).

(** [File::setfl]. *)
Definition setfl (append nonblock : bool) (f : File) : File :=
  MkFile (f_path f) (f_inode f) (f_op f) (f_mode f) append nonblock (f_dsync f)
    (f_sync f) (f_pos f) (f_cred f) (f_security f).

(** [File::new]. *)
Definition file_new (path : Path) (ops : FileOps) (mode : Z) (how : OpenHow) (cred : Cred)
    (security : list FileSecurity) : M File :=
  let! i := inode (p_dentry path) in
  match i with
  | None => panic
  | Some i =>
    let mode := if fo_is_stream ops then FMode.stream_open mode else mode in
    ret (MkFile path i ops mode (how_append how) (how_nonblock how) (how_dsync how)
      (how_sync how) 0 cred security)
  end.

Definition alloc_file (path : Path) (how : OpenHow) (ops : FileOps) (cred : Cred) : M File :=
  file_new path ops (FMode.open_fmode how) how cred (security_file_alloc cred).

Definition alloc_file_clone (f : File) (how : OpenHow) (ops : FileOps) : M File :=
  alloc_file (f_path f) how ops (f_cred f).

Definition alloc_file_pseudo (i : iid) (mnt : VfsMount) (how : OpenHow) (ops : FileOps)
    (cred : Cred) : M File :=
  let! d := alloc_pseudo (mnt_sb mnt) in
  instantiate d i ;;!
  alloc_file (path_with_dentry (path_root mnt) d) how ops cred.

Definition dentry_open (path : Path) (how : OpenHow) (cred : Cred) : M File :=
  let d := p_dentry path in
  let! kind := kind d in
  let mode := FMode.of_how how in
  let! opened := do_dentry_open cred (MkSecurityPath (p_mnt path) d) kind mode how (open d how) in
  file_new path opened.1 mode how cred opened.2.

(** [File::root]. *)
Definition file_root (mnt : VfsMount) (cred : Cred) : M File :=
  dentry_open (path_root mnt)
    (MkOpenHow true false false false false false false false false false false) cred.

(** ** What a descriptor's calls reach *)

Definition file_kind (f : File) : M FileType := let! x := inode_at (f_inode f) in ret (i_kind x).
Definition is_directory (f : File) : M bool :=
  let! k := file_kind f in ret (bool_decide (k = Dir)).
Definition readable (f : File) : bool := FMode.contains (f_mode f) FMode.READ.
Definition writable (f : File) : bool := FMode.contains (f_mode f) FMode.WRITE.
Definition is_path (f : File) : bool := FMode.contains (f_mode f) FMode.PATH.
Definition is_stream (f : File) : bool := FMode.contains (f_mode f) FMode.STREAM.

Definition llseek (f : File) (offset : Z) (whence : Whence) : M (Z * File) :=
  if negb (FMode.contains (f_mode f) FMode.LSEEK) then fail NotSeekable
  else
    let! pos := fo_llseek (f_op f) (p_dentry (f_path f)) (f_pos f) offset whence in
    ret (pos, set_pos pos f).

Definition fadvise (f : File) (offset n : Z) : M unit :=
  let! k := file_kind f in
  if bool_decide (k = Fifo) then fail NotSeekable
  else if (OFFSET_MAX <? offset) || (OFFSET_MAX <? n) then fail InvalidInput
  else ret tt.

Definition may_read (f : File) : M unit := if readable f then ret tt else fail BadDescriptor.
Definition may_write (f : File) : M unit := if writable f then ret tt else fail BadDescriptor.
Definition may_at (f : File) (pos mode : Z) : M unit :=
  if OFFSET_MAX <? pos then fail InvalidInput
  else if FMode.contains (f_mode f) mode then ret tt else fail NotSeekable.
Definition may_pread (f : File) (pos : Z) : M unit := may_at f pos FMode.PREAD ;;! may_read f.
Definition may_pwrite (f : File) (pos : Z) : M unit := may_at f pos FMode.PWRITE ;;! may_write f.

Definition fallocate (f : File) (offset n : Z) : M unit :=
  if (OFFSET_MAX <? offset) || (n =? 0) || (OFFSET_MAX <? n) then fail InvalidInput
  else
    may_write f ;;!
    let! k := file_kind f in
    match k with
    | Fifo => fail NotSeekable
    | Dir => fail IsADirectory
    | RegFile | Blkdev =>
      if OFFSET_MAX <? offset + n then fail FileTooLarge
      else fo_fallocate (f_op f) offset n
    | _ => fail NoSuchDevice
    end.

Definition poll (f : File) : M Z := reads (fo_poll (f_op f) (f_mode f)).

(** [File::kiocb], [file_ppos] and [rw_verify_area]. *)
Definition kiocb (f : File) (pos : Z) : Kiocb :=
  let iocb := MkKiocb pos false (f_dsync f) (f_sync f) in
  if f_append f then with_append iocb else iocb.

Definition file_ppos (f : File) : option Z := if is_stream f then None else Some (f_pos f).

Definition rw_verify_area (ppos : option Z) (count : Z) : M unit :=
  match ppos with
  | None => ret tt
  | Some pos =>
    if (pos + count <=? U64_MAX) && (pos + count <=? OFFSET_MAX) then ret tt
    else fail InvalidInput
  end.

(** [&buf[..count]] with [count] what one call takes of it, and the caller's
    buffer once its first bytes were. *)
Definition rw_count (buf : list byte) : nat := Z.to_nat (Z.min (len buf) MAX_RW_COUNT).

Definition read (f : File) (buf : list byte) : M (Z * list byte * File) :=
  may_read f ;;!
  let ppos := file_ppos f in
  rw_verify_area ppos (len buf) ;;!
  let count := rw_count buf in
  let! (iocb, n, filled) := fo_read_iter (f_op f) (kiocb f (default 0 ppos)) (take count buf) in
  let f := match ppos with Some _ => set_pos (ki_pos iocb) f | None => f end in
  ret (n, filled ++ drop count buf, f).

Definition pread (f : File) (buf : list byte) (pos : Z) : M (Z * list byte) :=
  may_pread f pos ;;!
  rw_verify_area (Some pos) (len buf) ;;!
  let count := rw_count buf in
  let! (_, n, filled) := fo_read_iter (f_op f) (kiocb f pos) (take count buf) in
  ret (n, filled ++ drop count buf).

Definition write (f : File) (buf : list byte) : M (Z * File) :=
  may_write f ;;!
  let ppos := file_ppos f in
  rw_verify_area ppos (len buf) ;;!
  let! (iocb, n) :=
    fo_write_iter (f_op f) (kiocb f (default 0 ppos)) (take (rw_count buf) buf) in
  let f := if (0 <? n) && bool_decide (is_Some ppos) then set_pos (ki_pos iocb) f else f in
  ret (n, f).

Definition pwrite (f : File) (buf : list byte) (pos : Z) : M Z :=
  may_pwrite f pos ;;!
  rw_verify_area (Some pos) (len buf) ;;!
  let! (_, n) := fo_write_iter (f_op f) (kiocb f pos) (take (rw_count buf) buf) in
  ret n.

Definition fsync (f : File) (datasync : bool) : M unit := fo_fsync (f_op f) datasync.

Definition file_getattr (f : File) : M Kstat := getattr (p_dentry (f_path f)).

Definition truncate (f : File) (n : Z) : M unit :=
  let! k := file_kind f in
  if negb (bool_decide (k = RegFile)) || negb (writable f) || (OFFSET_MAX <? n)
  then fail InvalidInput
  else
    security_file_truncate (f_cred f) (f_security f) ;;!
    let d := p_dentry (f_path f) in
    let! held := inode_lock d in
    holding [held] (notify_change d (through (f_op f) (iattr_size n))).

(** The file's position moves with the listing's, a failed one's too. *)
Definition iterate_dir (f : File) (c : DirContext)
  : M (result FilesystemError unit * DirContext * File) :=
  let d := p_dentry (f_path f) in
  let! held := inode_lock_shared d in
  holding [held] (
    let! dead := is_deaddir d in
    if dead : bool then fail NotFound
    else
      let c := ctx_set_committed (committed (f_cred f)) (ctx_set_pos (f_pos f) c) in
      let! (listed, c) := fo_iterate_shared (f_op f) d c in
      ret (listed, c, set_pos (ctx_pos c) f)).

Definition close (f : File) : M unit := fo_flush (f_op f).
End OpenFile.
