(* ===== verification/Namei.v ===== *)
(** Resolving a path beneath a directory and the calls that act on its last
    name: [vfs/namei.rs], with [vfs/stat.rs]'s and [vfs/utimes.rs]'s calls.

    [Nameidata] is one walk; its links are counted in [w_links], which each
    call starts at none and a walk made again goes on counting.  A walk's loops
    recurse on the names left to it and, where it follows a link, on a count of
    links: [MAXSYMLINKS] turns and one more, as the turn after them answers
    ELOOP before it walks. *)
From stdpp Require Import gmap.
From S2P Require Import Prelude Text Locking VfsTypes World Dcache Cred OpenFile.
Local Open Scope vfs_scope.

Definition MAXSYMLINKS : nat := 40.

Inductive LastType := Norm | LastDot | DotDot.

#[export] Instance LastType_eq_dec : EqDecision LastType.
Proof. solve_decision. Defined.

Definition nul : byte := x00.
Definition dot_name : list byte := lit ".".
Definition dotdot_name : list byte := lit "..".

(** [parts]: each name of a path, empty between two slashes and after a last
    one. *)
Definition parts (path : list byte) : list (list byte) := split_byte slash path.

(** [getname]. *)
Definition getname (path : list byte) : result FilesystemError unit :=
  if len path =? 0 then Err NotFound
  else if PATH_MAX <=? len path then Err InvalidFilename
  else if contains_byte nul path then Err InvalidInput
  else Ok tt.

Section Namei.
Context {T : FsTypes} `{!VfsTables T} `{!LruCache} `{!FileTables T}.

(** ** [Nameidata] *)
Record Nameidata := MkNameidata {
  nd_mnt : VfsMount;
  nd_cred : Cred;
  nd_root : did;
  nd_r_seq : Z;
  nd_dir : did;
  nd_pending : list (list byte);
  nd_last : list byte;
  nd_last_type : LastType;
  nd_trailing_slash : bool;
  nd_path : option did;
  nd_lookup_directory : bool;
}.

Definition nd_at (d : did) (nd : Nameidata) : Nameidata :=
  MkNameidata (nd_mnt nd) (nd_cred nd) (nd_root nd) (nd_r_seq nd) d (nd_pending nd)
    (nd_last nd) (nd_last_type nd) (nd_trailing_slash nd) (nd_path nd) (nd_lookup_directory nd).
Definition nd_with_pending (l : list (list byte)) (nd : Nameidata) : Nameidata :=
  MkNameidata (nd_mnt nd) (nd_cred nd) (nd_root nd) (nd_r_seq nd) (nd_dir nd) l
    (nd_last nd) (nd_last_type nd) (nd_trailing_slash nd) (nd_path nd) (nd_lookup_directory nd).
Definition nd_with_path (p : option did) (nd : Nameidata) : Nameidata :=
  MkNameidata (nd_mnt nd) (nd_cred nd) (nd_root nd) (nd_r_seq nd) (nd_dir nd) (nd_pending nd)
    (nd_last nd) (nd_last_type nd) (nd_trailing_slash nd) p (nd_lookup_directory nd).
Definition nd_directory (b : bool) (nd : Nameidata) : Nameidata :=
  MkNameidata (nd_mnt nd) (nd_cred nd) (nd_root nd) (nd_r_seq nd) (nd_dir nd) (nd_pending nd)
    (nd_last nd) (nd_last_type nd) (nd_trailing_slash nd) (nd_path nd) b.

Definition nd_sb (nd : Nameidata) : sbid := mnt_sb (nd_mnt nd).

Definition path_to (nd : Nameidata) (d : did) : Path :=
  path_with_dentry (path_root (nd_mnt nd)) d.

Definition complete_walk (nd : Nameidata) : M unit :=
  let! beneath := reads (is_subdir (default (nd_dir nd) (nd_path nd)) (nd_root nd)) in
  if beneath : bool then ret tt else fail Escape.

(** [Nameidata::path] and [kind]. *)
Definition path (nd : Nameidata) : M did :=
  match nd_path nd with Some d => ret d | None => fail NotFound end.
Definition nd_kind (nd : Nameidata) : M FileType := let! d := path nd in kind d.
Definition nd_getattr (nd : Nameidata) : M Kstat := let! d := path nd in getattr d.

(** ** Names *)

Definition d_revalidate (s : sbid) (dir d : did) : M bool :=
  let! x := dentry_at d in
  let! valid :=
    match d_ops x with
    | Some ops => let! o := inode_ops dir in dop_revalidate ops o d
    | None => ret true
    end in
  (if valid : bool then ret tt else invalidate s d) ;;! ret valid.

(** Keep a dentry for the next walk. *)
Definition retain (s : sbid) (d : did) : M unit :=
  let! sb := sb_at s in
  if s_dontcache sb then ret tt else dcache_retain s d.

Fixpoint d_alloc_parallel_turns (turns : nat) (s : sbid) (p : did) (n : list byte) : M did :=
  match turns with
  | O => panic
  | S turns =>
    let! d := alloc_parallel s p n in
    let! asking := in_lookup d in
    let! valid := if asking : bool then ret true else d_revalidate s p d in
    if valid : bool then ret d else d_alloc_parallel_turns turns s p n
  end.

Definition d_alloc_parallel : sbid -> did -> list byte -> M did := d_alloc_parallel_turns TURNS.

Definition __lookup_slow (s : sbid) (p : did) (n : list byte) : M did :=
  let! dead := is_deaddir p in
  if dead : bool then fail NotFound
  else
    let! given := d_alloc_parallel s p n in
    let! spliced := lookup_inode s p given in
    let d := default given spliced in
    retain s d ;;! ret d.

Definition lookup_one_qstr_excl (s : sbid) (p : did) (n : list byte) : M did := __lookup_slow s p n.

Definition lookup_fast (s : sbid) (p : did) (n : list byte) : M (option did) :=
  let! found := dcache_lookup s p n in
  match found with
  | None => ret None
  | Some d =>
    let! valid := d_revalidate s p d in
    if negb valid then ret None else retain s d ;;! ret (Some d)
  end.

Definition lookup_slow (s : sbid) (p : did) (n : list byte) : M did :=
  let! held := inode_lock_shared p in
  holding [held] (__lookup_slow s p n).

Definition lookup_dentry (s : sbid) (p : did) (n : list byte) : M did :=
  let! found := lookup_fast s p n in
  match found with
  | Some d => ret d
  | None => lookup_slow s p n
  end.

(** *** Permissions *)

Definition sb_permission (s : sbid) (d : did) (mask : Z) : M unit :=
  let! sb := sb_at s in
  if negb (Mask.contains mask Mask.WRITE) || negb (s_rdonly sb) then ret tt
  else
    let! k := kind d in
    match k with
    | RegFile | Dir | Symlink => fail ReadOnlyFilesystem
    | _ => ret tt
    end.

Definition inode_permission (cred : Cred) (s : sbid) (d : did) (mask : Z) : M unit :=
  sb_permission s d mask ;;!
  let! o := inode_ops d in
  op_permission o d mask ;;!
  security_inode_permission cred d mask.

Definition lookup_one_common (cred : Cred) (s : sbid) (p : did) (n : list byte) : M unit :=
  if (len n =? 0) || str_eq n dot_name || str_eq n dotdot_name
     || contains_byte slash n || contains_byte nul n
  then fail PermissionDenied
  else inode_permission cred s p Mask.EXEC.

Definition lookup_one_unlocked (cred : Cred) (s : sbid) (p : did) (n : list byte) : M did :=
  lookup_one_common cred s p n ;;! lookup_dentry s p n.

Definition start_creating (cred : Cred) (s : sbid) (p : did) (n : list byte) : M (guard * did) :=
  lookup_one_common cred s p n ;;!
  let! held := inode_lock p in
  keeping [held] (let! d := __lookup_slow s p n in ret (held, d)).

Definition start_removing (cred : Cred) (s : sbid) (p : did) (n : list byte) : M (guard * did) :=
  let! (held, child) := start_creating cred s p n in
  keeping [held] (named_inode child ;;! ret (held, child)).

Definition may_create_dentry (cred : Cred) (s : sbid) (dir child : did) : M unit :=
  let! i := inode child in
  if bool_decide (is_Some i) then fail AlreadyExists
  else
    let! dead := is_deaddir dir in
    if dead : bool then fail NotFound
    else inode_permission cred s dir (Mask.bitor Mask.WRITE Mask.EXEC).

Definition may_delete_dentry (cred : Cred) (s : sbid) (dir : did) (victim : option FileType)
    (is_dir : bool) : M unit :=
  match victim with
  | None => fail NotFound
  | Some victim =>
    inode_permission cred s dir (Mask.bitor Mask.WRITE Mask.EXEC) ;;!
    match is_dir, bool_decide (victim = Dir) with
    | true, false => fail NotADirectory
    | false, true => fail IsADirectory
    | _, _ =>
      let! dead := is_deaddir dir in
      if dead : bool then fail NotFound else ret tt
    end
  end.

(** ** The walk *)

(** Where a step left the walk: in a directory, or with a link's names before
    its own. *)
Inductive Stepped := Walked (nd : Nameidata) | Linked (nd : Nameidata).

Definition pick_link (d : did) (nd : Nameidata) : M Nameidata :=
  modify (fun w => set_links (S (w_links w)) w) ;;!
  let! count := asks (fun w => Some (w_links w)) in
  if (MAXSYMLINKS <? count)%nat then fail FilesystemLoop
  else
    let! target := get_link d in
    if starts_with [slash] target then fail Escape
    else
      let target := match target with [] => dot_name | _ => target end in
      ret (nd_with_pending (parts target ++ nd_pending nd) nd).

Definition walk_component (n : list byte) (nd : Nameidata) : M Stepped :=
  let! d := lookup_dentry (nd_sb nd) (nd_dir nd) n in
  let! i := named_inode d in
  let! x := inode_at i in
  match i_kind x with
  | Symlink => let! nd := pick_link d nd in ret (Linked nd)
  | Dir => ret (Walked (nd_at d nd))
  | _ => fail NotADirectory
  end.

Definition follow_dotdot (nd : Nameidata) : M Nameidata :=
  let! root := reads (is_root (nd_dir nd)) in
  if (nd_dir nd =? nd_root nd)%nat || root then fail Escape
  else
    let! above := reads (parent (nd_dir nd)) in
    let! seq := asks (fun w => Some (w_rename_lock w)) in
    if Seqlock.read_seqretry seq (nd_r_seq nd) then fail WouldBlock
    else ret (nd_at above nd).

Definition set_last (n : list byte) (trailing_slash : bool) (nd : Nameidata) : Nameidata :=
  let last_type :=
    if str_eq n dot_name then LastDot else if str_eq n dotdot_name then DotDot else Norm in
  let last := match last_type with Norm => n | _ => [] end in
  MkNameidata (nd_mnt nd) (nd_cred nd) (nd_root nd) (nd_r_seq nd) (nd_dir nd) (nd_pending nd)
    last last_type trailing_slash (nd_path nd) (nd_lookup_directory nd).

(** [pending] past the empty names at its front. *)
Fixpoint drain_slashes (pending : list (list byte)) : list (list byte) :=
  match pending with
  | [] :: pending => drain_slashes pending
  | _ => pending
  end.

Definition front_slashes (pending : list (list byte)) : bool :=
  match pending with [] :: _ => true | _ => false end.

(** [link_path_walk], its loop bounded by the names pending, and by [links] for
    the links it follows. *)
Fixpoint link_path_walk_links (links : nat) : nat -> Nameidata -> M Nameidata :=
  fix walk (names : nat) (nd : Nameidata) {struct names} : M Nameidata :=
    match names with
    | O => panic
    | S names =>
      inode_permission (nd_cred nd) (nd_sb nd) (nd_dir nd) Mask.EXEC ;;!
      match nd_pending nd with
      | [] => fail NotFound
      | part :: pending =>
        let slashes := front_slashes pending in
        let nd := nd_with_pending (drain_slashes pending) nd in
        match nd_pending nd with
        | [] => ret (set_last part slashes nd)
        | _ =>
          if str_eq part dot_name then walk names nd
          else if str_eq part dotdot_name then
            let! nd := follow_dotdot nd in walk names nd
          else
            let! stepped := walk_component part nd in
            match stepped with
            | Walked nd => walk names nd
            | Linked nd =>
              match links with
              | O => panic
              | S links => link_path_walk_links links (S (length (nd_pending nd))) nd
              end
            end
        end
      end
    end.

Definition LINKS : nat := S MAXSYMLINKS.

Definition link_path_walk (nd : Nameidata) : M Nameidata :=
  link_path_walk_links LINKS (S (length (nd_pending nd))) nd.

Definition handle_dots (nd : Nameidata) : M Nameidata :=
  let! nd :=
    match nd_last_type nd with
    | DotDot => follow_dotdot nd
    | _ => ret nd
    end in
  ret (nd_with_path (Some (nd_dir nd)) nd).

(** Whether [child.kind()] is a link's. *)
Definition is_symlink (d : did) : M bool :=
  let! k := kind_ok d in ret (bool_decide (k = Some Symlink)).

Fixpoint lookup_last_links (links : nat) (follow : bool) (nd : Nameidata) : M Nameidata :=
  match links with
  | O => panic
  | S links =>
    match nd_last_type nd with
    | Norm =>
      let follow := follow || nd_trailing_slash nd in
      let nd := if nd_trailing_slash nd then nd_directory true nd else nd in
      let! child := lookup_dentry (nd_sb nd) (nd_dir nd) (nd_last nd) in
      let nd := nd_with_path (Some child) nd in
      let! i := inode child in
      if bool_decide (i = None) then fail NotFound
      else
        let! link := is_symlink child in
        if negb follow || negb link then ret nd
        else
          let! nd := pick_link child nd in
          let! nd := link_path_walk nd in
          lookup_last_links links follow nd
    | _ => handle_dots nd
    end
  end.

Definition lookup_last : bool -> Nameidata -> M Nameidata := lookup_last_links LINKS.

(** ** Opening the last name *)

(** [AtomicOpen], and the [Open] [lookup_open] leaves [do_open]. *)
Record AtomicOpen := MkAtomicOpen {
  ao_file : option FileOps;
  ao_created : bool;
  ao_spliced : option did;
}.

Record Open := MkOpen {
  o_file : option (FileOps * list FileSecurity);
  o_mode : Z;
}.

Definition atomic_open (s : sbid) (dir child : did) (how : OpenHow) : M AtomicOpen :=
  let! o := inode_ops dir in
  emit (fun w => EAtomicOpen (path_raw child w) (how_create how) (how_truncate how)) ;;!
  let! finish := op_atomic_open o child how in
  match finish with
  | FinishOpen file created => ret (MkAtomicOpen (Some file) created None)
  | FinishSpelled file n i =>
    let! d := add_ci s child n i in ret (MkAtomicOpen (Some file) false (Some d))
  | NoOpen created => ret (MkAtomicOpen None created None)
  | FinishLookup found =>
    let! d := splice_alias s child found in ret (MkAtomicOpen None false d)
  end.

Definition may_o_create (nd : Nameidata) (child : did) : M unit :=
  security_path_mknod (nd_cred nd) (MkSecurityPath (nd_mnt nd) child) ;;!
  may_create_dentry (nd_cred nd) (nd_sb nd) (nd_dir nd) child.

(** [lookup_open]'s [ask], answering what it asked and [create_error]. *)
Definition ask_open (nd : Nameidata) (how : OpenHow) (got_write : result FilesystemError unit)
    (given : did) : M (result FilesystemError AtomicOpen * option FilesystemError) :=
  let wrote := match got_write with Ok _ => true | Err _ => false end in
  let how' := set_truncate (how_truncate how && wrote) how in
  let! asked_how :=
    if how_create how' then
      let how' := set_truncate (how_truncate how' && negb (how_exclusive how')) how' in
      let! may :=
        match got_write with
        | Ok _ => attempt (may_o_create nd given)
        | Err e => ret (Err e)
        end in
      match may with
      | Ok _ => ret (set_create true how', None)
      | Err e => ret (set_create false how', Some e)
      end
    else ret (how', None) in
  let '(how', create_error) := asked_how in
  let how' := set_directory (how_directory how' || nd_lookup_directory nd) how' in
  let! asked := attempt (atomic_open (nd_sb nd) (nd_dir nd) given how') in
  ret (asked, create_error).

Definition lookup_open (how : OpenHow) (mode : Z) (nd : Nameidata)
  : M (Nameidata * did * Open) :=
  let! got_write :=
    if how_create how || how_truncate how || how_write how
    then attempt (mnt_want_write (nd_mnt nd)) else ret (Err ReadOnlyFilesystem) in
  let dir := nd_dir nd in
  let s := nd_sb nd in
  let! held := if how_create how then inode_lock dir else inode_lock_shared dir in
  holding [held] (
    let! dead := is_deaddir dir in
    if dead : bool then fail NotFound
    else
      let! given := d_alloc_parallel s dir (nd_last nd) in
      let! first := attempt (ask_in_lookup given (ask_open nd how got_write given)) in
      let! (asked, create_error) :=
        match first with
        | Ok (Some asked) => ret asked
        | Ok None =>
          let! i := inode given in
          if bool_decide (is_Some i) then ret (Ok (MkAtomicOpen None false None), None)
          else ask_open nd how got_write given
        | Err e => ret (Err e, None)
        end in
      match asked, create_error with
      | Err NotFound, Some refused => fail refused
      | Err e, _ => fail e
      | Ok a, _ =>
        let child := default given (ao_spliced a) in
        retain s child ;;!
        let nd := nd_with_path (Some child) nd in
        let! i := inode child in
        if bool_decide (i = None) then fail (default NotFound create_error)
        else
          let mode := if ao_created a then FMode.with_mode mode FMode.CREATED else mode in
          let! file :=
            match ao_file a with
            | Some f =>
              let! k := kind child in
              let! opened := do_dentry_open (nd_cred nd) (MkSecurityPath (nd_mnt nd) child)
                k mode how (ret f) in
              ret (Some opened)
            | None => ret None
            end in
          ret (nd, child, MkOpen file mode)
      end).

Definition lookup_fast_for_open (how : OpenHow) (nd : Nameidata) : M (option did) :=
  if how_create how && how_exclusive how then ret None
  else
    let! found := lookup_fast (nd_sb nd) (nd_dir nd) (nd_last nd) in
    match found with
    | None => ret None
    | Some child =>
      let! i := inode child in
      ret (if negb (how_create how) || bool_decide (is_Some i) then Some child else None)
    end.

Fixpoint open_last_lookups_links (links : nat) (how : OpenHow) (mode : Z) (follow : bool)
    (nd : Nameidata) : M (Nameidata * Open) :=
  match links with
  | O => panic
  | S links =>
    match nd_last_type nd with
    | Norm =>
      if nd_trailing_slash nd && how_create how then fail IsADirectory
      else
        let follow := follow || nd_trailing_slash nd in
        let nd := if nd_trailing_slash nd then nd_directory true nd else nd in
        let! fast := lookup_fast_for_open how nd in
        let! (nd, child, opened) :=
          match fast with
          | Some child =>
            let nd := nd_with_path (Some child) nd in
            let! i := inode child in
            if bool_decide (i = None) then fail NotFound
            else ret (nd, child, MkOpen None mode)
          | None => lookup_open how mode nd
          end in
        let finished :=
          bool_decide (is_Some (o_file opened)) || FMode.contains (o_mode opened) FMode.CREATED in
        let! link := is_symlink child in
        if finished || negb follow || negb link then ret (nd, opened)
        else
          let! nd := pick_link child nd in
          let! nd := link_path_walk nd in
          open_last_lookups_links links how mode follow nd
    | _ => let! nd := handle_dots nd in ret (nd, MkOpen None mode)
    end
  end.

Definition open_last_lookups : OpenHow -> Z -> bool -> Nameidata -> M (Nameidata * Open) :=
  open_last_lookups_links LINKS.

(** ** Whole walks *)

Definition set_nameidata (cred : Cred) (start : Start) (p : list byte) : M Nameidata :=
  lift (getname p) ;;!
  if starts_with [slash] p then fail Escape
  else
    let! start := start in
    let! k := kind (p_dentry start) in
    if negb (bool_decide (k = Dir)) then fail NotADirectory
    else
      let! seq := asks (fun w => Seqlock.read_seqbegin (w_rename_lock w)) in
      ret (MkNameidata (p_mnt start) cred (p_dentry start) seq (p_dentry start) (parts p)
        [] LastDot false None false).

(** A call's [total_link_count], counted from none. *)
Definition counting_links {A} (walk : M A) : M A := modify (set_links O) ;;! walk.

Definition walk_with_reval {A} (walk : M A) : M A :=
  let! answered := attempt walk in
  match answered with
  | Err StaleNetworkFileHandle => walk
  | answered => lift answered
  end.

Definition retry_estale {W A} (walk : M W) (act : W -> M A) : M A :=
  let! reached := walk in
  let! answered := attempt (act reached) in
  match answered with
  | Err StaleNetworkFileHandle => let! reached := walk in act reached
  | answered => lift answered
  end.

Definition filename_parentat (cred : Cred) (start : Start) (p : list byte) : M Nameidata :=
  counting_links (walk_with_reval (
    let! nd := set_nameidata cred start p in
    let! nd := link_path_walk nd in
    complete_walk nd ;;! ret nd)).

Definition path_lookupat (follow : bool) (nd : Nameidata) : M Nameidata :=
  let! nd := link_path_walk nd in
  let! nd := lookup_last follow nd in
  complete_walk nd ;;!
  let! k := nd_kind nd in
  if nd_lookup_directory nd && negb (bool_decide (k = Dir)) then fail NotADirectory
  else ret nd.

Definition filename_lookup (cred : Cred) (start : Start) (p : list byte) (follow : bool)
  : M Nameidata :=
  counting_links (walk_with_reval (
    let! nd := set_nameidata cred start p in path_lookupat follow nd)).

Definition may_open (cred : Cred) (s : sbid) (child : did) (k : FileType) (mask : Z) : M unit :=
  match k with
  | Symlink => fail FilesystemLoop
  | _ =>
    if bool_decide (k = Dir) && Mask.contains mask Mask.WRITE then fail IsADirectory
    else inode_permission cred s child (Mask.bitor Mask.OPEN mask)
  end.

Definition do_open (nd : Nameidata) (child : did) (opened : Open) (op : OpenFlags) : M File :=
  let how := open_flag op in
  let mode := o_mode opened in
  let created := FMode.contains mode FMode.CREATED in
  (if bool_decide (o_file opened = None) && negb created then complete_walk nd else ret tt) ;;!
  let! k := kind child in
  let refusal :=
    if how_create how && how_exclusive how && negb created then Some AlreadyExists
    else if bool_decide (k = Dir) then if how_create how then Some IsADirectory else None
    else if nd_lookup_directory nd then Some NotADirectory else None in
  match refusal with
  | Some e => fail e
  | None =>
    let acc := if created then Mask.NONE else acc_mode op in
    let trunc := if created then false else how_truncate how && bool_decide (k = RegFile) in
    (if trunc then mnt_want_write (nd_mnt nd) else ret tt) ;;!
    may_open (nd_cred nd) (nd_sb nd) child k acc ;;!
    let! (f_op, kept) :=
      match o_file opened with
      | Some file => ret file
      | None =>
        do_dentry_open (nd_cred nd) (MkSecurityPath (nd_mnt nd) child) k mode how (open child how)
      end in
    (if trunc then
       security_file_truncate (nd_cred nd) kept ;;!
       let! held := inode_lock child in
       holding [held] (notify_change child (through f_op open_truncate))
     else ret tt) ;;!
    file_new (path_to nd child) f_op mode how (nd_cred nd) kept
  end.

Definition do_o_path (nd : Nameidata) (op : OpenFlags) : M File :=
  let how := open_flag op in
  let! nd := path_lookupat (lookup_follow op) nd in
  let! child := path nd in
  let! k := kind child in
  let! (f_op, kept) :=
    do_dentry_open (nd_cred nd) (MkSecurityPath (nd_mnt nd) child) k FMode.PATH how
      (open child how) in
  file_new (path_to nd child) f_op FMode.PATH how (nd_cred nd) kept.

Definition path_openat (nd : Nameidata) (op : OpenFlags) : M File :=
  let how := open_flag op in
  let nd := nd_directory (flags_directory op) nd in
  let mode := FMode.of_how how in
  if FMode.contains mode FMode.PATH then do_o_path nd op
  else
    let! nd := link_path_walk nd in
    let! (nd, opened) := open_last_lookups how mode (lookup_follow op) nd in
    let! child := path nd in
    do_open nd child opened op.

Definition do_file_open (cred : Cred) (start : Start) (p : list byte) (op : OpenFlags) : M File :=
  counting_links (walk_with_reval (
    let! nd := set_nameidata cred start p in path_openat nd op)).

(** ** Changes beneath a directory its caller holds *)

Definition vfs_mkdir (cred : Cred) (s : sbid) (dir child : did) : M unit :=
  may_create_dentry cred s dir child ;;!
  let! o := inode_ops dir in
  emit (fun w => EMkdir (path_raw child w)) ;;!
  op_mkdir o child.

Definition vfs_create (cred : Cred) (s : sbid) (dir child : did) : M unit :=
  may_create_dentry cred s dir child ;;!
  let! o := inode_ops dir in
  emit (fun w => ECreate (path_raw child w)) ;;!
  op_create o child.

Definition vfs_link (cred : Cred) (s : sbid) (old dir child : did) : M unit :=
  may_create_dentry cred s dir child ;;!
  let! k := kind old in
  if bool_decide (k = Dir) then fail NotPermitted
  else
    let! held := inode_lock old in
    holding [held] (
      let! st := getattr old in
      if st_nlink st =? 0 then fail NotFound
      else
        let! o := inode_ops dir in
        emit (fun w => ELink (path_raw old w) (path_raw child w)) ;;!
        op_link o old child).

Definition vfs_symlink (cred : Cred) (s : sbid) (dir child : did) (target : list byte) : M unit :=
  may_create_dentry cred s dir child ;;!
  let! o := inode_ops dir in
  emit (fun w => ESymlink (path_raw child w)) ;;!
  op_symlink o child target.

Definition vfs_rmdir (cred : Cred) (s : sbid) (dir victim : did) : M unit :=
  let! k := kind_ok victim in
  may_delete_dentry cred s dir k true ;;!
  let! held := inode_lock victim in
  holding [held] (
    let! o := inode_ops dir in
    emit (fun w => ERmdir (path_raw victim w)) ;;!
    op_rmdir o victim ;;!
    shrink_dcache_parent s victim ;;!
    mark_dead victim ;;!
    unhash s victim).

Definition vfs_unlink (cred : Cred) (s : sbid) (dir victim : did) : M unit :=
  let! k := kind_ok victim in
  may_delete_dentry cred s dir k false ;;!
  let! held := inode_lock victim in
  holding [held] (
    let! o := inode_ops dir in
    emit (fun w => EUnlink (path_raw victim w)) ;;!
    op_unlink o victim ;;!
    unhash s victim).

(** *** Renames *)

Definition lock_rename (s : sbid) (old_dir new_dir : did) : M (list guard) :=
  if (old_dir =? new_dir)%nat then let! held := inode_lock old_dir in ret [held]
  else
    let! rename := down true (SRename s) in
    keeping [rename] (
      let! beneath := reads (is_subdir old_dir new_dir) in
      let (first, second) := if beneath : bool then (new_dir, old_dir) else (old_dir, new_dir) in
      let! first := inode_lock first in
      keeping [first] (
        let! second := inode_lock second in ret [rename; first; second])).

Record RenameData := MkRenameData {
  rd_held : list guard;
  rd_old_parent : did;
  rd_old_dentry : did;
  rd_new_parent : did;
  rd_new_dentry : did;
  rd_flag : option RenameFlag;
}.

Definition __start_renaming (s : sbid) (old_dir : did) (old_name : list byte) (new_dir : did)
    (new_name : list byte) (flag : option RenameFlag) : M RenameData :=
  let! held := lock_rename s old_dir new_dir in
  keeping held (
    let! old := lookup_one_qstr_excl s old_dir old_name in
    kind old ;;!
    let! new := lookup_one_qstr_excl s new_dir new_name in
    let! i := inode new in
    match flag, bool_decide (is_Some i) with
    | Some Exchange, false => fail NotFound
    | Some NoReplace, true => fail AlreadyExists
    | _, _ =>
      let! above := reads (is_subdir new_dir old) in
      if above : bool then fail InvalidInput
      else
        let! beneath := reads (is_subdir old_dir new) in
        if beneath : bool then
          fail (match flag with Some Exchange => InvalidInput | _ => DirectoryNotEmpty end)
        else ret (MkRenameData held old_dir old new_dir new flag)
    end).

(** Each inode held exclusive in turn. *)
Fixpoint lock_each (inodes : list iid) : M (list guard) :=
  match inodes with
  | [] => ret []
  | i :: inodes =>
    let! g := down true (SInode i) in
    keeping [g] (let! gs := lock_each inodes in ret (g :: gs))
  end.

Definition lock_two_nondirectories (first second : option iid) : M (list guard) :=
  lock_each (match first, second with
             | Some a, Some b =>
               if (a =? b)%nat then [a] else if (a <? b)%nat then [a; b] else [b; a]
             | Some a, None | None, Some a => [a]
             | None, None => []
             end).

Definition keep_if (b : bool) (i : option iid) : option iid := if b then i else None.
Definition given (i : option iid) : list iid := match i with Some i => [i] | None => [] end.

Definition lock_moved (old : did) (is_dir : bool) (new : did) (new_is_dir same_dir : bool)
    (flag : option RenameFlag) : M (list guard) :=
  let! source := inode old in
  let! target := inode new in
  let lock_old_subdir := negb same_dir in
  let lock_new_subdir := negb same_dir || negb (bool_decide (flag = Some Exchange)) in
  match is_dir, new_is_dir with
  | true, _ =>
    lock_each (given (keep_if lock_old_subdir source)
               ++ given (keep_if (negb new_is_dir || lock_new_subdir) target))
  | false, true => lock_each (given (keep_if lock_new_subdir target) ++ given source)
  | false, false => lock_two_nondirectories source target
  end.

(** The checks [vfs_rename] makes before it takes the locks of what moves. *)
Definition may_rename (cred : Cred) (s : sbid) (rd : RenameData) (moving target : option FileType)
  : M unit :=
  let old_dir := rd_old_parent rd in
  let new_dir := rd_new_parent rd in
  let is_dir := bool_decide (moving = Some Dir) in
  may_delete_dentry cred s old_dir moving is_dir ;;!
  match target with
  | None => may_create_dentry cred s new_dir (rd_new_dentry rd)
  | Some _ =>
    may_delete_dentry cred s new_dir target
      (if bool_decide (rd_flag rd = Some Exchange) then bool_decide (target = Some Dir) else is_dir)
  end ;;!
  if (old_dir =? new_dir)%nat then ret tt
  else
    (if is_dir then inode_permission cred s (rd_old_dentry rd) Mask.WRITE else ret tt) ;;!
    if bool_decide (rd_flag rd = Some Exchange) && bool_decide (target = Some Dir)
    then inode_permission cred s (rd_new_dentry rd) Mask.WRITE else ret tt.

Definition vfs_rename (cred : Cred) (s : sbid) (rd : RenameData) : M unit :=
  let old := rd_old_dentry rd in
  let new := rd_new_dentry rd in
  let! moving := kind_ok old in
  let! target := kind_ok new in
  let! same := names_the_entry_of old new in
  if (old =? new)%nat || same then ret tt
  else
    may_rename cred s rd moving target ;;!
    let! held := lock_moved old (bool_decide (moving = Some Dir)) new
      (bool_decide (target = Some Dir)) (rd_old_parent rd =? rd_new_parent rd)%nat (rd_flag rd) in
    holding held (
      let! o := inode_ops (rd_old_parent rd) in
      let! to := inode_ops (rd_new_parent rd) in
      emit (fun w => ERename (path_raw old w) (path_raw new w) (default Unknown moving)) ;;!
      op_rename o old to new (rd_flag rd) ;;!
      if bool_decide (rd_flag rd = Some Exchange) then exchange s old new
      else
        (if bool_decide (target = Some Dir)
         then shrink_dcache_parent s new ;;! mark_dead new else ret tt) ;;!
        move_dentry s old new).

(** ** The calls *)

Definition lookup_last_locked (nd : Nameidata) : M (Nameidata * did) :=
  let! child := lookup_one_qstr_excl (nd_sb nd) (nd_dir nd) (nd_last nd) in
  ret (nd_with_path (Some child) nd, child).

(** The directory held and the name's dentry, with the walk as it then stands. *)
Definition filename_create (nd : Nameidata) (want_dir : bool) : M (Nameidata * guard * did) :=
  if negb (bool_decide (nd_last_type nd = Norm)) then fail AlreadyExists
  else
    let! write := attempt (mnt_want_write (nd_mnt nd)) in
    let! held := inode_lock (nd_dir nd) in
    keeping [held] (
      let! (nd, child) := lookup_last_locked nd in
      let! i := inode child in
      if bool_decide (is_Some i) then fail AlreadyExists
      else if nd_trailing_slash nd && negb want_dir then fail NotFound
      else lift write ;;! ret (nd, held, child)).

Definition start_dirop (nd : Nameidata) : M (Nameidata * guard * did) :=
  let! held := inode_lock (nd_dir nd) in
  keeping [held] (
    let! (nd, child) := lookup_last_locked nd in
    named_inode child ;;! ret (nd, held, child)).

Definition filename_linkat (cred : Cred) (old_start : Start) (old_path : list byte)
    (new_start : Start) (new_path : list byte) (follow : bool) : M unit :=
  retry_estale (
    let! old := filename_lookup cred old_start old_path follow in
    let! target := path old in
    let! new := filename_parentat cred new_start new_path in
    let! made := filename_create new false in
    ret (old, target, made))
  (fun '(old, target, (new, held, child)) =>
    holding [held] (
      if negb (same_mount (nd_mnt old) (nd_mnt new)) then fail CrossesDevices
      else
        security_path_link cred (MkSecurityPath (nd_mnt old) target)
          (MkSecurityPath (nd_mnt new) child) ;;!
        vfs_link cred (nd_sb new) target (nd_dir new) child)).

Definition filename_symlinkat (cred : Cred) (target : list byte) (start : Start) (p : list byte)
  : M unit :=
  lift (getname target) ;;!
  retry_estale (let! nd := filename_parentat cred start p in filename_create nd false)
  (fun '(nd, held, child) =>
    holding [held] (
      security_path_symlink cred (MkSecurityPath (nd_mnt nd) child) ;;!
      vfs_symlink cred (nd_sb nd) (nd_dir nd) child target)).

Definition filename_mkdirat (cred : Cred) (start : Start) (p : list byte) : M unit :=
  retry_estale (let! nd := filename_parentat cred start p in filename_create nd true)
  (fun '(nd, held, child) =>
    holding [held] (
      security_path_mkdir cred (MkSecurityPath (nd_mnt nd) child) ;;!
      vfs_mkdir cred (nd_sb nd) (nd_dir nd) child)).

Definition filename_rmdir (cred : Cred) (start : Start) (p : list byte) : M unit :=
  retry_estale (filename_parentat cred start p) (fun nd =>
    match nd_last_type nd with
    | LastDot => fail InvalidInput
    | DotDot => fail DirectoryNotEmpty
    | Norm =>
      mnt_want_write (nd_mnt nd) ;;!
      let! (nd, held, child) := start_dirop nd in
      holding [held] (
        security_path_rmdir cred (MkSecurityPath (nd_mnt nd) child) ;;!
        vfs_rmdir cred (nd_sb nd) (nd_dir nd) child)
    end).

Definition filename_unlinkat (cred : Cred) (start : Start) (p : list byte) : M unit :=
  retry_estale (filename_parentat cred start p) (fun nd =>
    if negb (bool_decide (nd_last_type nd = Norm)) then fail IsADirectory
    else
      mnt_want_write (nd_mnt nd) ;;!
      let! (nd, held, child) := start_dirop nd in
      holding [held] (
        if nd_trailing_slash nd then
          let! k := kind_ok child in
          fail (if bool_decide (k = Some Dir) then IsADirectory else NotADirectory)
        else
          security_path_unlink cred (MkSecurityPath (nd_mnt nd) child) ;;!
          vfs_unlink cred (nd_sb nd) (nd_dir nd) child)).

Definition filename_renameat2 (cred : Cred) (from : Start) (from_path : list byte)
    (to : Start) (to_path : list byte) : M unit :=
  retry_estale (
    let! source := filename_parentat cred from from_path in
    let! target := filename_parentat cred to to_path in
    ret (source, target))
  (fun '(source, target) =>
    if negb (same_mount (nd_mnt source) (nd_mnt target)) then fail CrossesDevices
    else if negb (bool_decide (nd_last_type source = Norm))
            || negb (bool_decide (nd_last_type target = Norm)) then fail ResourceBusy
    else
      mnt_want_write (nd_mnt source) ;;!
      let mnt := nd_mnt source in
      let! rd := __start_renaming (nd_sb source) (nd_dir source) (nd_last source)
        (nd_dir target) (nd_last target) None in
      holding (rd_held rd) (
        let! k := kind (rd_old_dentry rd) in
        if negb (bool_decide (k = Dir)) && (nd_trailing_slash source || nd_trailing_slash target)
        then fail NotADirectory
        else
          security_path_rename cred (MkSecurityPath mnt (rd_old_dentry rd))
            (MkSecurityPath mnt (rd_new_dentry rd)) (rd_old_dentry rd) (rd_new_dentry rd) ;;!
          vfs_rename cred (nd_sb source) rd)).

(** ** [vfs/stat.rs] and [vfs/utimes.rs] *)

Definition vfs_fstatat (cred : Cred) (start : Start) (p : list byte) (follow : bool) : M Kstat :=
  retry_estale (filename_lookup cred start p follow) nd_getattr.

Definition do_readlinkat (cred : Cred) (start : Start) (p : list byte) : M (list byte) :=
  retry_estale (
    match p with
    | [] => let! start := start in ret (p_dentry start, NotFound)
    | _ =>
      let! nd := filename_lookup cred start p false in
      let! d := path nd in ret (d, InvalidInput)
    end)
  (fun '(target, refusal) =>
    let! k := kind target in
    if negb (bool_decide (k = Symlink)) then fail refusal
    else security_inode_readlink cred target ;;! get_link target).

Definition vfs_utimes (cred : Cred) (p : Path) (times : Iattr FileOps) : M unit :=
  mnt_want_write (p_mnt p) ;;!
  let d := p_dentry p in
  security_path_utimes cred (MkSecurityPath (p_mnt p) d) ;;!
  let! held := inode_lock d in
  holding [held] (notify_change d times).

Definition do_utimes_fd : Cred -> Path -> Iattr FileOps -> M unit := vfs_utimes.

Definition do_utimes_path (cred : Cred) (start : Start) (p : list byte) (follow : bool)
    (times : Iattr FileOps) : M unit :=
  retry_estale (filename_lookup cred start p follow) (fun nd =>
    let! d := path nd in vfs_utimes cred (path_to nd d) times).
End Namei.
