(* ===== verification/Security.v ===== *)
(** The security modules an Invocation registers ([security.rs]): kobako's own
    rules, each Mount's Policy, and the guard over where a call starts.

    A [Mount] is kobako-runtime's [mount.rs] as the VFS reaches it; a Policy is
    the Host App's function from a guest path and an access. *)
From stdpp Require Import gmap.
From S2P Require Import Prelude Text Catalog Locking VfsTypes World Dcache Cred OpenFile Namei.
Local Open Scope vfs_scope.

Definition Policy : Type := list byte -> Access -> bool.

(** [Mount]: its guest path, its Policy and the Filesystem as the VFS walks it. *)
Record Mounted := MkMounted {
  m_at : list byte;
  m_policy : option Policy;
  m_mnt : VfsMount;
}.

Definition mounted_with_policy (p : Policy) (m : Mounted) : Mounted :=
  MkMounted (m_at m) (Some p) (m_mnt m).

Section Security.
Context {T : FsTypes} `{!VfsTables T} `{!LruCache} `{!FileTables T}.

(** [Mount::new]: [None] is its [MountPathError]. *)
Definition mounted_new (at_ : list byte) (s : sbid) (access : Access) : M (option Mounted) :=
  if negb (is_guest_path at_) then ret None
  else
    let! mnt := vfs_mount_new s (match access with Read => true | ReadWrite => false end) in
    ret (Some (MkMounted at_ None mnt)).

(** ** [revalidate_path] *)

(** Every dentry from [d] up to its root, [d] first. *)
Fixpoint chain_up (fuel : nat) (w : world) (d : did) : option (list did) :=
  match fuel with
  | O => None
  | S fuel =>
    x ← w_dentries w !! d;
    match d_parent x with
    | None => Some [d]
    | Some p => above ← chain_up fuel w p; Some (d :: above)
    end
  end.

(** [windows(2)]. *)
Fixpoint windows2 (l : list did) : list (did * did) :=
  match l with
  | a :: ((b :: _) as l) => (a, b) :: windows2 l
  | _ => []
  end.

Fixpoint revalidate_pairs (s : sbid) (pairs : list (did * did)) : M bool :=
  match pairs with
  | [] => ret true
  | (d, above) :: pairs =>
    let! held := inode_lock_shared above in
    let! valid := holding [held] (
      let! p := reads (parent d) in
      if negb (p =? above)%nat then fail WouldBlock else d_revalidate s above d) in
    if negb valid then ret false else revalidate_pairs s pairs
  end.

Definition revalidate_path (p : Path) : M bool :=
  let! chain := asks (fun w => chain_up (fuel_of w) w (p_dentry p)) in
  revalidate_pairs (mnt_sb (p_mnt p)) (rev (windows2 chain)).

(** ** [KobakoSecurity] *)

Definition kobako_security : SecurityOperations :=
  MkSecurityOperations (fun _ _ => allow) (fun _ => allow) (fun _ => allow) (fun _ => allow)
    (fun _ => allow) (fun _ => allow) (fun _ _ => allow) (fun _ _ _ _ => allow)
    (fun _ kind _ _ _ => Some (match kind with
                               | RegFile | Dir => Ok None
                               | _ => Err PermissionDenied
                               end))
    (fun _ => allow) (fun _ => allow) (fun _ _ => Some (Err Unsupported)).

(** ** [MountPolicy] *)
Record MountPolicy := MkMountPolicy {
  mp_mnt : VfsMount;
  mp_at : list byte;
  mp_policy : Policy;
}.

Definition guards (m : MountPolicy) (mnt : VfsMount) : bool := same_mount (mp_mnt m) mnt.

Definition guest_path (m : MountPolicy) (p : list byte) : list byte :=
  if str_eq p [slash] then mp_at m
  else if str_eq (mp_at m) [slash] then p
  else mp_at m ++ p.

(** [path_perm]'s judgement of a name from the mount's root. *)
Definition judge (m : MountPolicy) (n : list byte) (access : Access)
  : result FilesystemError unit :=
  let p := guest_path m n in
  if PATH_MAX <=? len p then Err InvalidFilename
  else if mp_policy m p access then Ok tt else Err PermissionDenied.

Definition path_perm (m : MountPolicy) (p : SecurityPath) (access : Access) : Rd unit :=
  if negb (guards m (sp_mnt p)) then allow
  else rd_bind (sp_name p) (fun n _ => Some (judge m n access)).

Definition both (a b : Rd unit) : Rd unit := rd_bind a (fun _ => b).

Definition policy_file_open (m : MountPolicy) (p : SecurityPath) (_ : FileType) (mode : Z)
    (how : OpenHow) : Rd FileSecurity :=
  if negb (guards m (sp_mnt p)) then fun _ => Some (Ok None)
  else
    let created := FMode.contains mode FMode.CREATED in
    let access :=
      if created || FMode.contains mode FMode.WRITE || how_truncate how then ReadWrite else Read in
    rd_bind (if created then allow else path_perm m p access)
      (fun _ _ => Some (Ok (Some (AllowedAccess access)))).

Definition policy_file_truncate (kept : FileSecurity) : Rd unit :=
  fun _ => Some (match kept with
                 | Some (AllowedAccess Read) => Err PermissionDenied
                 | _ => Ok tt
                 end).

(** Whether a dentry names a directory, read as [kind() == Ok(Dir)] reads it. *)
Definition names_dir (d : did) : Rd bool :=
  fun w => x ← w_dentries w !! d;
    match d_inode x with
    | None => Some (Ok false)
    | Some i => n ← w_inodes w !! i; Some (Ok (bool_decide (i_kind n = Dir)))
    end.

Definition policy_path_rename (m : MountPolicy) (old new : SecurityPath) (od nd : did) : Rd unit :=
  both (path_perm m old ReadWrite) (both (path_perm m new ReadWrite)
    (rd_bind (names_dir od) (fun dir _ =>
      Some (if dir && negb (od =? nd)%nat && guards m (sp_mnt old)
            then Err CrossesDevices else Ok tt)))).

Definition policy_security (m : MountPolicy) : SecurityOperations :=
  MkSecurityOperations
    (fun _ _ => allow)
    (fun p => path_perm m p ReadWrite)
    (fun p => path_perm m p ReadWrite)
    (fun p => path_perm m p ReadWrite)
    (fun p => path_perm m p ReadWrite)
    (fun p => path_perm m p ReadWrite)
    (fun old new => both (path_perm m old ReadWrite) (path_perm m new ReadWrite))
    (policy_path_rename m)
    (policy_file_open m)
    policy_file_truncate
    (fun p => path_perm m p ReadWrite)
    (fun _ => allow).

(** ** [prepare_creds_within] and [restrict_self] *)

Definition prepare_creds_within (modules : list SecurityOperations) (committed : option nat)
  : Cred :=
  cred_within (kobako_security :: modules) committed.

Definition policies_of (mounts : list Mounted) : list SecurityOperations :=
  omap (fun m => policy ← m_policy m;
                 Some (policy_security (MkMountPolicy (m_mnt m) (m_at m) policy))) mounts.

Definition restrict_self (cred : Cred) (mounts : list Mounted) : Cred :=
  with_modules cred (policies_of mounts).

(** ** [WalkGuard] *)

(** The mounts a Policy judges. *)
Definition walk_guard (mounts : list Mounted) : list VfsMount :=
  omap (fun m => _ ← m_policy m; Some (m_mnt m)) mounts.

Definition walk_guard_check (guarded : list VfsMount) (p : Path) : M unit :=
  if negb (existsb (fun mnt => same_mount mnt (p_mnt p)) guarded) then ret tt
  else
    let d := p_dentry p in
    let! root := reads (is_root d) in
    if root : bool then ret tt
    else
      let! i := identity_at d in
      let! gone := unlinked d in
      let! refused :=
        if gone || negb (bool_decide (is_Some i)) then ret true
        else let! valid := revalidate_path p in ret (negb valid) in
      if refused : bool then fail NotFound else ret tt.
End Security.
