(* ===== verification/VfsFacts.v ===== *)
(** What a computation of the VFS keeps of the world: relations each primitive
    step stays within, and the lemmas that carry them through every function of
    [Dcache.v], [OpenFile.v] and [Namei.v].

    [quietly] keeps where every dentry stands, [silently] may move dentries, and
    neither hands a Filesystem a change.  [Lawful] is what a Filesystem's
    operations promise: they change what it holds, and record what a name
    stands for, but move no dentry. *)
From stdpp Require Import gmap.
From S2P Require Import Prelude Text Locking VfsTypes World Dcache Cred OpenFile Namei.
Local Open Scope vfs_scope.

Create HintDb vfs.

Section Frames.
Context {T : FsTypes}.
Implicit Types w : world.

(** ** Relations between worlds *)

(** Nothing stands at an address not given out yet. *)
Definition fresh_ok w : Prop :=
  forall n, (w_next w <= n)%nat ->
    w_dentries w !! n = None /\ w_inodes w !! n = None /\ w_sbs w !! n = None.

Definition same_place (x x' : Dentry) : Prop :=
  d_parent x' = d_parent x /\ d_name x' = d_name x /\ d_sb x' = d_sb x.
Definition same_entry (x x' : Inode) : Prop :=
  i_kind x' = i_kind x /\ i_identity x' = i_identity x /\ i_ops x' = i_ops x.
Definition same_instance (x x' : SuperBlock) : Prop := s_rdonly x' = s_rdonly x.

(** Each object of the one is an object of the other, related by [P]. *)
Definition keeps {X} (P : X -> X -> Prop) (m m' : gmap nat X) : Prop :=
  forall a x, m !! a = Some x -> exists x', m' !! a = Some x' /\ P x x'.

Definition kept w w' : Prop :=
  fresh_ok w -> fresh_ok w' /\ keeps same_entry (w_inodes w) (w_inodes w')
    /\ keeps same_instance (w_sbs w) (w_sbs w').

Definition silently w w' : Prop := kept w w' /\ w_trace w' = w_trace w.

Definition quietly w w' : Prop :=
  silently w w' /\ (fresh_ok w -> keeps same_place (w_dentries w) (w_dentries w')).

Lemma keeps_refl {X} (P : X -> X -> Prop) m : (forall x, P x x) -> keeps P m m.
Proof. intros HP a x H. eauto. Qed.

Lemma keeps_trans {X} (P : X -> X -> Prop) m1 m2 m3 :
  (forall x y z, P x y -> P y z -> P x z) ->
  keeps P m1 m2 -> keeps P m2 m3 -> keeps P m1 m3.
Proof.
  intros HP H12 H23 a x Hx. destruct (H12 a x Hx) as (y & Hy & Hxy).
  destruct (H23 a y Hy) as (z & Hz & Hyz). eauto.
Qed.

Lemma keeps_alter {X} (P : X -> X -> Prop) f d (m : gmap nat X) :
  (forall x, P x x) -> (forall x, P x (f x)) -> keeps P m (alter f d m).
Proof.
  intros Hr Hf a x Hx. destruct (decide (a = d)) as [->|Hne].
  - rewrite lookup_alter_eq, Hx. simpl. eauto.
  - rewrite lookup_alter_ne by done. eauto.
Qed.

Lemma keeps_insert {X} (P : X -> X -> Prop) d y (m : gmap nat X) :
  (forall x, P x x) -> m !! d = None -> keeps P m (<[d := y]> m).
Proof.
  intros Hr Hd a x Hx. assert (a <> d) by congruence.
  rewrite lookup_insert_ne by done. eauto.
Qed.

#[export] Instance same_place_pre : PreOrder same_place.
Proof.
  split; [done|]. intros x y z (?&?&?) (?&?&?). repeat split; congruence.
Qed.
#[export] Instance same_entry_pre : PreOrder same_entry.
Proof.
  split; [done|]. intros x y z (?&?&?) (?&?&?). repeat split; congruence.
Qed.
#[export] Instance same_instance_pre : PreOrder same_instance.
Proof. unfold same_instance. split; [done|]. intros x y z ? ?. congruence. Qed.

(** A relation every primitive step that moves no dentry stays within. *)
Class Frame (R : world -> world -> Prop) := {
  frame_pre :: PreOrder R;
  frame_tick n w : R w (set_tick n w);
  frame_links n w : R w (set_links n w);
  frame_rename_lock n w : R w (set_rename_lock n w);
  frame_fs x w : R w (set_fs x w);
  frame_dentry f d w : (forall x, same_place x (f x)) ->
    R w (set_dentries (alter f d (w_dentries w)) w);
  frame_inode f i w : (forall x, same_entry x (f x)) ->
    R w (set_inodes (alter f i (w_inodes w)) w);
  frame_sb f s w : (forall x, same_instance x (f x)) ->
    R w (set_sbs (alter f s (w_sbs w)) w);
  frame_new_dentry x w :
    R w (set_next (S (w_next w)) (set_dentries (<[w_next w := x]> (w_dentries w)) w));
  frame_new_inode x w :
    R w (set_next (S (w_next w)) (set_inodes (<[w_next w := x]> (w_inodes w)) w));
  frame_next w : R w (set_next (S (w_next w)) w);
}.

(** And one a dentry's move stays within too. *)
Class Moves (R : world -> world -> Prop) := {
  moves_frame :: Frame R;
  moves_dentry f d w : R w (set_dentries (alter f d (w_dentries w)) w);
}.

Lemma kept_fresh w w' :
  (w_next w <= w_next w')%nat ->
  (forall n, (w_next w' <= n)%nat -> w_dentries w !! n = None -> w_dentries w' !! n = None) ->
  (forall n, (w_next w' <= n)%nat -> w_inodes w !! n = None -> w_inodes w' !! n = None) ->
  (forall n, (w_next w' <= n)%nat -> w_sbs w !! n = None -> w_sbs w' !! n = None) ->
  fresh_ok w -> fresh_ok w'.
Proof.
  intros Hn Hd Hi Hs Hf n Hle. destruct (Hf n ltac:(lia)) as (? & ? & ?). auto.
Qed.

#[export] Instance kept_pre : PreOrder kept.
Proof.
  split.
  - intros w Hf. split; [done|]. split; apply keeps_refl; intros; reflexivity.
  - intros w1 w2 w3 H12 H23 Hf. destruct (H12 Hf) as (Hf2 & Hi & Hs).
    destruct (H23 Hf2) as (Hf3 & Hi' & Hs'). split; [done|].
    split; (eapply keeps_trans; [|done..]); intros x y z; apply transitivity.
Qed.

Lemma kept_maps w w' :
  (fresh_ok w -> fresh_ok w') ->
  (fresh_ok w -> keeps same_entry (w_inodes w) (w_inodes w')) ->
  (fresh_ok w -> keeps same_instance (w_sbs w) (w_sbs w')) -> kept w w'.
Proof. intros ? ? ? ?. auto. Qed.

Ltac kept_map :=
  simpl; first
    [ apply keeps_refl; intros; reflexivity
    | apply keeps_alter; [intros; reflexivity | done]
    | apply keeps_insert; [intros; reflexivity | match goal with H : fresh_ok _ |- _ => by apply H end] ].

#[export] Instance kept_moves : Moves kept.
Proof.
  split; [split|]; try apply _; intros; (apply kept_maps; [|intros; kept_map..]).
  all: apply kept_fresh; simpl; try lia; intros n' Hn';
    rewrite ?lookup_alter_None, ?lookup_insert_None; first [done | split; [done | lia]].
Qed.

#[export] Instance silently_pre : PreOrder silently.
Proof.
  split; [split; done|]. intros w1 w2 w3 [? ?] [? ?]. split; [by transitivity w2 | congruence].
Qed.

#[export] Instance silently_moves : Moves silently.
Proof.
  split; [split|]; try apply _; intros; split; try reflexivity;
    first [apply frame_tick | apply frame_links | apply frame_rename_lock | apply frame_fs
      | by apply frame_dentry | by apply frame_inode | by apply frame_sb | apply frame_new_dentry
      | apply frame_new_inode | apply frame_next | apply moves_dentry].
Qed.

#[export] Instance quietly_pre : PreOrder quietly.
Proof.
  split.
  - intros w. split; [done|]. intros _. apply keeps_refl. intros. reflexivity.
  - intros w1 w2 w3 [H12 P12] [H23 P23]. split; [by transitivity w2|]. intros Hf.
    eapply keeps_trans; [intros x y z; apply transitivity | by apply P12 | apply P23; by apply H12].
Qed.

#[export] Instance quietly_frame : Frame quietly.
Proof.
  split; try apply _; intros; (split;
    [ first [apply frame_tick | apply frame_links | apply frame_rename_lock | apply frame_fs
      | by apply frame_dentry | by apply frame_inode | by apply frame_sb | apply frame_new_dentry
      | apply frame_new_inode | apply frame_next]
    | intros Hf; simpl; first [ apply keeps_refl; intros; reflexivity
      | apply keeps_alter; [intros; reflexivity | done]
      | apply keeps_insert; [intros; reflexivity | by apply Hf] ]]).
Qed.

Lemma silently_kept w w' : silently w w' -> kept w w'.
Proof. by intros []. Qed.
Lemma quietly_silently w w' : quietly w w' -> silently w w'.
Proof. by intros []. Qed.

(** ** Computations within a relation *)

Definition framed {A} (R : world -> world -> Prop) (m : M A) : Prop :=
  forall w r w', m w = Some (r, w') -> R w w'.

Lemma framed_weaken {A} (R R' : world -> world -> Prop) (m : M A) :
  (forall w w', R w w' -> R' w w') -> framed R m -> framed R' m.
Proof. intros HR Hm w r w' H. eauto. Qed.

Section Framed.
Context (R : world -> world -> Prop) `{!PreOrder R}.

Lemma framed_ret {A} (a : A) : framed R (ret a).
Proof. intros w r w' [= <- <-]. reflexivity. Qed.
Lemma framed_fail {A} e : framed R (@fail _ A e).
Proof. intros w r w' [= <- <-]. reflexivity. Qed.
Lemma framed_panic {A} : framed R (@panic _ A).
Proof. by intros w r w' ?. Qed.
Lemma framed_lift {A} (x : result FilesystemError A) : framed R (lift x).
Proof. intros w r w' [= <- <-]. reflexivity. Qed.
Lemma framed_reads {A} (x : Rd A) : framed R (reads x).
Proof. intros w r w' H. unfold reads in H. destruct (x w); simplify_eq/=. reflexivity. Qed.
Lemma framed_asks {A} (f : world -> option A) : framed R (asks f).
Proof. intros w r w' H. unfold asks in H. destruct (f w); simplify_eq/=. reflexivity. Qed.
Lemma framed_bind {A B} (m : M A) (k : A -> M B) :
  framed R m -> (forall a, framed R (k a)) -> framed R (bind m k).
Proof.
  intros Hm Hk w r w' H. unfold bind in H. destruct (m w) as [[[a|e] w1]|] eqn:Em; simplify_eq.
  - transitivity w1; [by eapply Hm | by eapply Hk].
  - by eapply Hm.
Qed.
Lemma framed_assoc {A B C} (m : M A) (f : A -> M B) (k : B -> M C) :
  framed R (bind (bind m f) k) -> framed R (bind m (fun a => bind (f a) k)).
Proof.
  intros Hm w r w' H. apply (Hm w r w'). rewrite <- H. unfold bind. by destruct (m w) as [[[]]|].
Qed.
Lemma framed_attempt {A} (m : M A) : framed R m -> framed R (attempt m).
Proof.
  intros Hm w r w' H. unfold attempt in H. destruct (m w) as [[x w1]|] eqn:Em; simplify_eq.
  by eapply Hm.
Qed.
Lemma framed_modify f : (forall w, R w (f w)) -> framed R (modify f).
Proof. intros Hf w r w' [= <- <-]. apply Hf. Qed.
End Framed.

Section Primitives.
Context (R : world -> world -> Prop) `{!Frame R}.
#[local] Existing Instance frame_pre.

Lemma framed_upgrade : framed R upgrade.
Proof. intros w r w' [= <- <-]. apply frame_tick. Qed.
Lemma framed_now : framed R now.
Proof. intros w r w' [= <- <-]. apply frame_tick. Qed.
Lemma framed_new_dentry x : framed R (new_dentry x).
Proof. intros w r w' [= <- <-]. apply frame_new_dentry. Qed.
Lemma framed_new_inode x : framed R (new_inode x).
Proof. intros w r w' [= <- <-]. apply frame_new_inode. Qed.
Lemma framed_fresh_address : framed R fresh_address.
Proof. intros w r w' [= <- <-]. apply frame_next. Qed.
Lemma framed_on_dentry d f : (forall x, same_place x (f x)) -> framed R (on_dentry d f).
Proof. intros Hf. apply framed_modify. intros. by apply frame_dentry. Qed.
Lemma framed_on_inode i f : (forall x, same_entry x (f x)) -> framed R (on_inode i f).
Proof. intros Hf. apply framed_modify. intros. by apply frame_inode. Qed.
Lemma framed_on_sb s f : (forall x, same_instance x (f x)) -> framed R (on_sb s f).
Proof. intros Hf. apply framed_modify. intros. by apply frame_sb. Qed.
Lemma framed_set_links n : framed R (modify (set_links n)).
Proof. apply framed_modify. intros. apply frame_links. Qed.
Lemma framed_count_link : framed R (modify (fun w => set_links (S (w_links w)) w)).
Proof. apply framed_modify. intros. apply frame_links. Qed.
Lemma framed_set_holders s h : framed R (modify (set_holders s h)).
Proof.
  apply framed_modify. intros w. destruct s; simpl; [apply frame_inode | apply frame_sb]; done.
Qed.
End Primitives.
End Frames.

Abbreviation quiet m := (framed quietly m).
Abbreviation silent m := (framed silently m).

#[export] Hint Resolve framed_ret framed_fail framed_panic framed_lift framed_reads framed_asks
  framed_upgrade framed_now framed_new_dentry framed_new_inode framed_fresh_address
  framed_set_links framed_count_link framed_set_holders : vfs.
#[export] Hint Extern 0 (PreOrder _) => apply _ : vfs.
#[export] Hint Extern 0 (Frame _) => apply _ : vfs.
#[export] Hint Extern 1 (framed _ (on_dentry _ _)) =>
  apply framed_on_dentry; [apply _ | by intros []] : vfs.
#[export] Hint Extern 1 (framed _ (on_inode _ _)) =>
  apply framed_on_inode; [apply _ | by intros []] : vfs.
#[export] Hint Extern 1 (framed _ (on_sb _ _)) =>
  apply framed_on_sb; [apply _ | intros []; simpl; repeat case_match; done] : vfs.

Section Guards.
Context {T : FsTypes} (R : world -> world -> Prop) `{!PreOrder R}.

Lemma framed_holding {A} gs (m : M A) :
  framed R (drop_guards gs) -> framed R m -> framed R (holding gs m).
Proof.
  intros Hg Hm. unfold holding. apply framed_bind; [done | by apply framed_attempt | intros r].
  apply framed_bind; [done.. | intros _; by apply framed_lift].
Qed.

Lemma framed_keeping {A} gs (m : M A) :
  framed R (drop_guards gs) -> framed R m -> framed R (keeping gs m).
Proof.
  intros Hg Hm. unfold keeping.
  apply framed_bind; [done | by apply framed_attempt | intros [a|e]]; [by apply framed_ret|].
  apply framed_bind; [done.. | intros _; by apply framed_fail].
Qed.
End Guards.

(** Take a computation apart to its steps, each within the relation. *)
Ltac frames_step :=
  match goal with
  | |- framed _ (bind _ _) => apply framed_bind; [apply _ | | intros ?]
  | |- framed _ (attempt _) => apply framed_attempt
  | |- framed _ (holding _ _) => apply framed_holding; [apply _ | auto with vfs |]
  | |- framed _ (keeping _ _) => apply framed_keeping; [apply _ | auto with vfs |]
  | |- framed _ (match ?x with _ => _ end) => destruct x
  | |- framed _ _ => solve [auto with vfs]
  end.
Ltac frames := intros; repeat (cbv zeta; frames_step).

(** ** What the VFS and a Filesystem may do within a relation

    [Still] are the steps the VFS takes that move nothing and name nothing new:
    the clock and the links counted, locks, a lookup begun and ended, a name
    kept for the next walk.  [Keeps] is a Filesystem all of whose operations
    stay within the relation. *)
Class Still {T : FsTypes} (R : world -> world -> Prop) := {
  still_pre :: PreOrder R;
  still_tick n w : R w (set_tick n w);
  still_links n w : R w (set_links n w);
  still_holders s h w : R w (set_holders s h w);
  still_asked d a : framed R (on_dentry d (with_asked a));
  still_dead i : framed R (on_inode i (with_dead true));
  still_kept s l : framed R (on_sb s (fun sb => with_lru (l (s_lru sb)) sb));
  still_lookup_done d : framed R (lookup_done d);
}.

Class Keeps {T : FsTypes} (R : world -> world -> Prop) (V : VfsTables T) := {
  keeps_permission o d m : framed R (op_permission o d m);
  keeps_getattr o d : framed R (op_getattr o d);
  keeps_setattr o d a : framed R (op_setattr o d a);
  keeps_lookup o d : framed R (op_lookup o d);
  keeps_get_link o d : framed R (op_get_link o d);
  keeps_open o d how : framed R (op_open o d how);
  keeps_create o d : framed R (op_create o d);
  keeps_atomic_open o d how : framed R (op_atomic_open o d how);
  keeps_mkdir o d : framed R (op_mkdir o d);
  keeps_link o d d' : framed R (op_link o d d');
  keeps_symlink o d t : framed R (op_symlink o d t);
  keeps_rmdir o d : framed R (op_rmdir o d);
  keeps_unlink o d : framed R (op_unlink o d);
  keeps_rename o d o' d' f : framed R (op_rename o d o' d' f);
  keeps_revalidate dops o d : framed R (dop_revalidate dops o d);
}.
#[export] Hint Resolve keeps_permission keeps_getattr keeps_setattr keeps_lookup keeps_get_link
  keeps_open keeps_create keeps_atomic_open keeps_mkdir keeps_link keeps_symlink keeps_rmdir
  keeps_unlink keeps_rename keeps_revalidate still_asked still_dead still_kept
  still_lookup_done : vfs.
#[export] Hint Extern 0 (Still _) => apply _ : vfs.
#[export] Hint Extern 0 (Keeps _ _) => apply _ : vfs.

Section Within.
Context {T : FsTypes} `{!VfsTables T} `{LC : !LruCache}.
Context (R : world -> world -> Prop) `{!Still R} `{!Keeps R _}.

Lemma framed_dentry_at d : framed R (dentry_at d).
Proof. apply framed_asks. apply _. Qed.
Lemma framed_inode_at i : framed R (inode_at i).
Proof. apply framed_asks. apply _. Qed.
Lemma framed_sb_at s : framed R (sb_at s).
Proof. apply framed_asks. apply _. Qed.
Lemma still_upgrade : framed R upgrade.
Proof. intros w r w' [= <- <-]. apply still_tick. Qed.
Lemma still_now : framed R now.
Proof. intros w r w' [= <- <-]. apply still_tick. Qed.
Lemma still_set_holders s h : framed R (modify (set_holders s h)).
Proof. apply framed_modify. intros w. apply still_holders. Qed.
Lemma still_set_links n : framed R (modify (set_links n)).
Proof. apply framed_modify. intros w. apply still_links. Qed.
Lemma still_count_link : framed R (modify (fun w => set_links (S (w_links w)) w)).
Proof. apply framed_modify. intros w. apply still_links. Qed.
#[local] Hint Resolve framed_dentry_at framed_inode_at framed_sb_at still_upgrade still_now
  still_set_holders still_set_links still_count_link : vfs.

Lemma framed_down x s : framed R (down x s).
Proof. unfold down. frames. Qed.
Lemma framed_down_trylock x s : framed R (down_trylock x s).
Proof. unfold down_trylock. frames. Qed.
Lemma framed_drop_guard g : framed R (drop_guard g).
Proof. unfold drop_guard. frames. Qed.
#[local] Hint Resolve framed_down framed_drop_guard : vfs.
Lemma framed_drop_guards gs : framed R (drop_guards gs).
Proof. induction gs; simpl; frames. Qed.

Lemma framed_inode d : framed R (inode d).
Proof. unfold inode. frames. Qed.
#[local] Hint Resolve framed_inode : vfs.
Lemma framed_named_inode d : framed R (named_inode d).
Proof. unfold named_inode. frames. Qed.
#[local] Hint Resolve framed_named_inode : vfs.
Lemma framed_inode_lock_shared d : framed R (inode_lock_shared d).
Proof. unfold inode_lock_shared. frames. Qed.
Lemma framed_inode_lock d : framed R (inode_lock d).
Proof. unfold inode_lock. frames. Qed.
Lemma framed_is_deaddir d : framed R (is_deaddir d).
Proof. unfold is_deaddir. frames. Qed.
Lemma framed_mark_dead d : framed R (mark_dead d).
Proof. unfold mark_dead. frames. Qed.
Lemma framed_inode_ops d : framed R (inode_ops d).
Proof. unfold inode_ops. frames. Qed.
#[local] Hint Resolve framed_inode_ops : vfs.
Lemma framed_kind d : framed R (kind d).
Proof. unfold kind. frames. Qed.
Lemma framed_kind_ok d : framed R (kind_ok d).
Proof. unfold kind_ok. frames. Qed.
Lemma framed_getattr d : framed R (getattr d).
Proof. unfold getattr. frames. Qed.
Lemma framed_open d how : framed R (open d how).
Proof. unfold open. frames. Qed.
Lemma framed_get_link d : framed R (get_link d).
Proof. unfold get_link. frames. Qed.
Lemma framed_identity_at d : framed R (identity_at d).
Proof. unfold identity_at. frames. Qed.
#[local] Hint Resolve framed_identity_at : vfs.
Lemma framed_names_the_entry_of d d' : framed R (names_the_entry_of d d').
Proof. unfold names_the_entry_of. frames. Qed.
Lemma framed_hashed d : framed R (hashed d).
Proof. unfold hashed. frames. Qed.
Lemma framed_in_lookup d : framed R (in_lookup d).
Proof. unfold in_lookup. frames. Qed.
Lemma framed_wait_lookup d : framed R (wait_lookup d).
Proof. unfold wait_lookup. frames. Qed.
#[local] Hint Resolve framed_wait_lookup framed_hashed : vfs.
Lemma framed_begin_lookup d : framed R (begin_lookup d).
Proof. unfold begin_lookup. frames. Qed.
#[local] Hint Resolve framed_begin_lookup : vfs.
Lemma framed_ask_in_lookup {A} d (ask : M A) : framed R ask -> framed R (ask_in_lookup d ask).
Proof. intros Hask. unfold ask_in_lookup. frames. Qed.
Lemma framed_dcache_lookup s p n : framed R (dcache_lookup s p n).
Proof. unfold dcache_lookup. frames. Qed.
Lemma framed_goes_when_unused d : framed R (goes_when_unused d).
Proof. unfold goes_when_unused. frames. Qed.
#[local] Hint Resolve framed_goes_when_unused : vfs.
Lemma framed_dcache_retain s d : framed R (dcache_retain s d).
Proof. unfold dcache_retain. frames. Qed.
Lemma framed_kept_beneath p l : framed R (kept_beneath p l).
Proof. induction l; simpl; frames. Qed.
#[local] Hint Resolve framed_kept_beneath : vfs.
Lemma framed_shrink_dcache_parent s p : framed R (shrink_dcache_parent s p).
Proof. unfold shrink_dcache_parent. frames. Qed.
End Within.
#[export] Hint Resolve framed_dentry_at framed_inode_at framed_sb_at still_upgrade still_now
  still_set_holders still_set_links still_count_link framed_down framed_down_trylock
  framed_drop_guard framed_drop_guards framed_inode framed_named_inode framed_inode_lock_shared
  framed_inode_lock framed_is_deaddir framed_mark_dead framed_inode_ops framed_kind framed_kind_ok
  framed_getattr framed_open framed_get_link framed_identity_at framed_names_the_entry_of
  framed_hashed framed_in_lookup framed_wait_lookup framed_begin_lookup framed_ask_in_lookup
  framed_dcache_lookup framed_goes_when_unused framed_dcache_retain framed_kept_beneath
  framed_shrink_dcache_parent : vfs.

(** *** Moving no dentry, and moving one *)
Section Quiet.
Context {T : FsTypes}.

Lemma silent_of_quiet {A} (m : M A) : quiet m -> silent m.
Proof. apply framed_weaken. apply quietly_silently. Qed.

Lemma quiet_lookup_done d : quiet (lookup_done d).
Proof. unfold lookup_done, dentry_at. frames. Qed.

#[export] Instance quietly_still : Still quietly.
Proof.
  split; try apply _; intros.
  - apply frame_tick.
  - apply frame_links.
  - destruct s; simpl; [by apply frame_inode | by apply frame_sb].
  - auto with vfs.
  - auto with vfs.
  - apply framed_on_sb; [apply _ | done].
  - apply quiet_lookup_done.
Qed.

#[export] Instance silently_still : Still silently.
Proof.
  split; try apply _; intros.
  - apply frame_tick.
  - apply frame_links.
  - destruct s; simpl; [by apply frame_inode | by apply frame_sb].
  - auto with vfs.
  - auto with vfs.
  - apply framed_on_sb; [apply _ | done].
  - apply silent_of_quiet, quiet_lookup_done.
Qed.
End Quiet.

(** A lawful Filesystem moves no dentry, and an open makes only what it was
    asked to make.  A Filesystem's own state holds the layers beneath it. *)
Class Lawful {T : FsTypes} (V : VfsTables T) := {
  law_keeps :: Keeps quietly V;
  law_created o d how w w' finish :
    op_atomic_open o d how w = Some (Ok finish, w') ->
    match finish with FinishOpen _ true | NoOpen true => how_create how = true | _ => True end;
}.

#[export] Instance silently_keeps {T : FsTypes} (V : VfsTables T) `{!Keeps quietly V} :
  Keeps silently V.
Proof. split; intros; apply silent_of_quiet; auto with vfs. Qed.
#[export] Hint Extern 10 (framed silently _) => apply silent_of_quiet : vfs.

Section Dcache.
Context {T : FsTypes} `{!VfsTables T} `{LC : !LruCache} `{!Lawful _}.

Lemma quiet_inode_new st o : quiet (inode_new st o).
Proof. unfold inode_new. frames. Qed.
Lemma quiet_dentry_new p n o s : quiet (dentry_new p n o s).
Proof. unfold dentry_new. frames. Qed.
Lemma quiet___instantiate d i : quiet (__instantiate d i).
Proof. unfold __instantiate. frames. Qed.
#[local] Hint Resolve quiet___instantiate quiet_dentry_new : vfs.
Lemma quiet_instantiate d i : quiet (instantiate d i).
Proof. unfold instantiate. frames. Qed.
Lemma quiet_rehash d : quiet (rehash d).
Proof. unfold rehash. frames. Qed.
#[local] Hint Resolve quiet_rehash : vfs.
Lemma quiet_find_alias_or_add i d : quiet (find_alias_or_add i d).
Proof. unfold find_alias_or_add. frames. Qed.
Lemma quiet_add d i : quiet (add d i).
Proof. unfold add, add_hashed. frames. Qed.
Lemma quiet_alloc_parallel s p n : quiet (alloc_parallel s p n).
Proof. unfold alloc_parallel. generalize TURNS as t. induction t; simpl; frames. Qed.
Lemma quiet_drop_hashed s d : quiet (drop_hashed s d).
Proof. unfold drop_hashed. frames. Qed.
#[local] Hint Resolve quiet_drop_hashed : vfs.
Lemma quiet_unhash s d : quiet (unhash s d).
Proof. unfold unhash. frames. Qed.
#[local] Hint Resolve quiet_unhash : vfs.
Lemma quiet_invalidate s d : quiet (invalidate s d).
Proof. unfold invalidate. frames. Qed.
#[local] Hint Resolve quiet_alloc_parallel
  quiet_find_alias_or_add quiet_add quiet_invalidate : vfs.

(** *** What may move a dentry *)
Lemma silent_moves_dentry d f : silent (on_dentry d f).
Proof. apply framed_modify. intros. apply moves_dentry. Qed.
#[local] Hint Resolve silent_moves_dentry : vfs.
Lemma silent_stand_at s d p n : silent (stand_at s d p n).
Proof. unfold stand_at. frames. Qed.
Lemma silent_rename_write {A} (k : M A) : silent k -> silent (rename_write k).
Proof.
  intros Hk. unfold rename_write.
  assert (silent (modify (fun w => set_rename_lock (Seqlock.fetch_add_one (w_rename_lock w)) w))).
  { apply framed_modify. intros. apply frame_rename_lock. }
  frames.
Qed.
#[local] Hint Resolve silent_stand_at silent_rename_write : vfs.
Lemma silent_move_dentry s d t : silent (move_dentry s d t).
Proof. unfold move_dentry. frames. Qed.
Lemma silent_exchange s a b : silent (exchange s a b).
Proof. unfold exchange. frames. apply silent_rename_write. frames. Qed.
Lemma silent_unalias s d a : silent (unalias s d a).
Proof. unfold unalias. frames. apply silent_rename_write. frames. Qed.
#[local] Hint Resolve silent_unalias : vfs.
Lemma silent_splice_found s d i : silent (splice_found s d i).
Proof. unfold splice_found. frames. Qed.
#[local] Hint Resolve silent_splice_found : vfs.
Lemma silent_add_ci s d n i : silent (add_ci s d n i).
Proof. unfold add_ci. frames. Qed.
#[local] Hint Resolve silent_add_ci : vfs.
Lemma silent_splice_alias s d f : silent (splice_alias s d f).
Proof. unfold splice_alias. frames. Qed.
#[local] Hint Resolve silent_splice_alias : vfs.
Lemma silent_lookup_inode s dir d : silent (lookup_inode s dir d).
Proof.
  unfold lookup_inode. apply framed_bind; [apply _ | | frames]. apply framed_ask_in_lookup; [apply _ | frames].
Qed.
End Dcache.

(** What the operations of a Filesystem that keeps all it holds in its own state
    do to the world: they change that state, read the clock, make inodes, and
    record what a name stands for. *)
Class Hosted {T : FsTypes} (R : world -> world -> Prop) := {
  hosted_pre :: PreOrder R;
  hosted_tick n w : R w (set_tick n w);
  hosted_fs x w : R w (set_fs x w);
  hosted_inode st ops : framed R (inode_new st ops);
  hosted_add d i : framed R (add d i);
}.

#[export] Instance quietly_hosted {T : FsTypes} : Hosted quietly.
Proof.
  split; try apply _; intros.
  - apply frame_tick.
  - apply frame_fs.
  - apply quiet_inode_new.
  - apply quiet_add.
Qed.

(** ** A map of addresses, checked entry by entry *)
Definition every {X} (m : gmap nat X) (ok : nat -> X -> bool) : bool :=
  forallb (fun e => ok e.1 e.2) (map_to_list m).
Lemma every_ok {X} (m : gmap nat X) ok k x : every m ok = true -> m !! k = Some x -> ok k x = true.
Proof.
  intros He Hx. unfold every in He. rewrite forallb_forall in He.
  apply (He (k, x)), list_elem_of_In, elem_of_map_to_list, Hx.
Qed.

Lemma every_fresh {X} (m : gmap nat X) next n :
  every m (fun d _ => d <? next)%nat = true -> (next <= n)%nat -> m !! n = None.
Proof.
  intros He Hn. destruct (m !! n) as [x|] eqn:E; [|done].
  apply (every_ok _ _ _ _ He) in E. apply Nat.ltb_lt in E. lia.
Qed.
