(* ===== verification/NameiFacts.v ===== *)
(** Which of [Namei.v]'s steps move no dentry, which hand a Filesystem nothing,
    and what a walk carries with it from start to end. *)
From stdpp Require Import gmap.
From S2P Require Import Prelude Text Locking VfsTypes World Dcache Cred OpenFile Namei VfsFacts.
Local Open Scope vfs_scope.

#[export] Hint Resolve quiet_inode_new quiet_dentry_new quiet_instantiate quiet_rehash quiet_add
  quiet_alloc_parallel quiet_unhash quiet_invalidate silent_move_dentry silent_exchange
  silent_splice_alias silent_add_ci silent_lookup_inode : vfs.

(** ** Steps that stay within any relation the VFS's do *)
Section Within.
Context {T : FsTypes} `{!VfsTables T} `{LC : !LruCache} `{!FileTables T}.
Context (R : world -> world -> Prop) `{!Still R} `{!Keeps R _}.

Lemma framed_retain s d : framed R (retain s d).
Proof. unfold retain. frames. Qed.
Lemma framed_sb_permission s d mask : framed R (sb_permission s d mask).
Proof. unfold sb_permission. frames. Qed.
#[local] Hint Resolve framed_sb_permission : vfs.
Lemma framed_inode_permission cred s d mask : framed R (inode_permission cred s d mask).
Proof. unfold inode_permission, security_inode_permission. frames. Qed.
#[local] Hint Resolve framed_inode_permission : vfs.
Lemma framed_may_create_dentry cred s dir d : framed R (may_create_dentry cred s dir d).
Proof. unfold may_create_dentry. frames. Qed.
Lemma framed_may_delete_dentry cred s dir v b : framed R (may_delete_dentry cred s dir v b).
Proof. unfold may_delete_dentry. frames. Qed.
#[local] Hint Resolve framed_may_create_dentry framed_may_delete_dentry : vfs.
Lemma framed_may_rename cred s rd a b : framed R (may_rename cred s rd a b).
Proof. unfold may_rename. frames. Qed.
Lemma framed_may_open cred s d k mask : framed R (may_open cred s d k mask).
Proof. unfold may_open. frames. Qed.
Lemma framed_lock_each l : framed R (lock_each l).
Proof. induction l; simpl; frames. Qed.
#[local] Hint Resolve framed_lock_each : vfs.
Lemma framed_lock_moved a ad b bd sd f : framed R (lock_moved a ad b bd sd f).
Proof. unfold lock_moved, lock_two_nondirectories. frames. Qed.
Lemma framed_lock_rename s a b : framed R (lock_rename s a b).
Proof. unfold lock_rename. frames. Qed.
Lemma framed_mnt_want_write m : framed R (mnt_want_write m).
Proof. unfold mnt_want_write. frames. Qed.
Lemma framed_complete_walk nd : framed R (complete_walk nd).
Proof. unfold complete_walk. frames. Qed.
Lemma framed_path nd : framed R (path nd).
Proof. unfold path. frames. Qed.
Lemma framed_is_symlink d : framed R (is_symlink d).
Proof. unfold is_symlink. frames. Qed.
Lemma framed_follow_dotdot nd : framed R (follow_dotdot nd).
Proof. unfold follow_dotdot. frames. Qed.
Lemma framed_pick_link d nd : framed R (pick_link d nd).
Proof. unfold pick_link. frames. Qed.
#[local] Hint Resolve framed_follow_dotdot : vfs.
Lemma framed_handle_dots nd : framed R (handle_dots nd).
Proof. unfold handle_dots. frames. Qed.
End Within.
#[export] Hint Resolve framed_retain framed_inode_permission framed_may_create_dentry
  framed_may_delete_dentry framed_may_rename framed_may_open framed_lock_each framed_lock_moved
  framed_lock_rename framed_mnt_want_write framed_complete_walk framed_path framed_is_symlink
  framed_follow_dotdot framed_pick_link framed_handle_dots : vfs.

(** ** Steps that hand a Filesystem nothing *)
Section Names.
Context {T : FsTypes} `{!VfsTables T} `{LC : !LruCache} `{!FileTables T} `{!Lawful _}.

Lemma quiet_d_revalidate s dir d : quiet (d_revalidate s dir d).
Proof. unfold d_revalidate. frames. Qed.
#[local] Hint Resolve quiet_d_revalidate : vfs.
Lemma quiet_d_alloc_parallel s p n : quiet (d_alloc_parallel s p n).
Proof. unfold d_alloc_parallel. generalize TURNS as t. induction t; simpl; frames. Qed.
#[local] Hint Resolve quiet_d_alloc_parallel : vfs.
Lemma silent___lookup_slow s p n : silent (__lookup_slow s p n).
Proof. unfold __lookup_slow. frames. Qed.
Lemma quiet_lookup_fast s p n : quiet (lookup_fast s p n).
Proof. unfold lookup_fast. frames. Qed.
#[local] Hint Resolve silent___lookup_slow quiet_lookup_fast : vfs.
Lemma silent_lookup_one_qstr_excl s p n : silent (lookup_one_qstr_excl s p n).
Proof. apply silent___lookup_slow. Qed.
Lemma silent_lookup_slow s p n : silent (lookup_slow s p n).
Proof. unfold lookup_slow. frames. Qed.
#[local] Hint Resolve silent_lookup_slow silent_lookup_one_qstr_excl : vfs.
Lemma silent_lookup_dentry s p n : silent (lookup_dentry s p n).
Proof. unfold lookup_dentry. frames. Qed.
#[local] Hint Resolve silent_lookup_dentry : vfs.

Lemma silent_walk_component n nd : silent (walk_component n nd).
Proof. unfold walk_component. frames. Qed.
#[local] Hint Resolve silent_walk_component : vfs.

Lemma silent_link_path_walk_links links names nd : silent (link_path_walk_links links names nd).
Proof.
  revert names nd. induction links as [|links IHl]; intros names; induction names as [|names IHn];
    intros nd; simpl; frames.
Qed.
Lemma silent_link_path_walk nd : silent (link_path_walk nd).
Proof. apply silent_link_path_walk_links. Qed.
#[local] Hint Resolve silent_link_path_walk : vfs.
Lemma silent_lookup_last f nd : silent (lookup_last f nd).
Proof.
  unfold lookup_last. revert f nd. generalize LINKS as n. induction n; simpl; frames.
Qed.
#[local] Hint Resolve silent_lookup_last : vfs.
Lemma silent_path_lookupat f nd : silent (path_lookupat f nd).
Proof. unfold path_lookupat, nd_kind. frames. Qed.
#[local] Hint Resolve silent_path_lookupat : vfs.

Lemma silent_set_nameidata cred start p : silent start -> silent (set_nameidata cred start p).
Proof. intros. unfold set_nameidata. frames. Qed.
Lemma silent_counting_links {A} (m : M A) : silent m -> silent (counting_links m).
Proof. intros. unfold counting_links. frames. Qed.
Lemma silent_walk_with_reval {A} (m : M A) : silent m -> silent (walk_with_reval m).
Proof. intros. unfold walk_with_reval. frames. Qed.
#[local] Hint Resolve silent_set_nameidata : vfs.

Lemma silent_filename_parentat cred start p :
  silent start -> silent (filename_parentat cred start p).
Proof.
  intros. apply silent_counting_links, silent_walk_with_reval. frames.
Qed.
Lemma silent_filename_lookup cred start p f :
  silent start -> silent (filename_lookup cred start p f).
Proof.
  intros. apply silent_counting_links, silent_walk_with_reval. frames.
Qed.
Lemma silent_lookup_last_locked nd : silent (lookup_last_locked nd).
Proof. unfold lookup_last_locked. frames. Qed.
#[local] Hint Resolve silent_lookup_last_locked : vfs.
Lemma silent_filename_create nd b : silent (filename_create nd b).
Proof. unfold filename_create. frames. Qed.
Lemma silent_start_dirop nd : silent (start_dirop nd).
Proof. unfold start_dirop. frames. Qed.
Lemma silent___start_renaming s a an b bn f : silent (__start_renaming s a an b bn f).
Proof. unfold __start_renaming. frames. Qed.
End Names.
#[export] Hint Resolve quiet_d_revalidate quiet_d_alloc_parallel quiet_lookup_fast
  silent_lookup_one_qstr_excl silent_lookup_dentry silent_link_path_walk silent_path_lookupat
  silent_set_nameidata silent_filename_parentat silent_filename_lookup silent_filename_create
  silent_start_dirop silent___start_renaming : vfs.

(** ** What every answer of a computation is *)
Definition returns {T : FsTypes} {A} (F : A -> Prop) (m : M A) : Prop :=
  forall w a w', m w = Some (Ok a, w') -> F a.

(** The mount, the caller and the root a walk began with. *)
Definition carried {T : FsTypes} (nd nd' : Nameidata) : Prop :=
  nd_mnt nd' = nd_mnt nd /\ nd_cred nd' = nd_cred nd /\ nd_root nd' = nd_root nd
  /\ nd_r_seq nd' = nd_r_seq nd.

Create HintDb carried.

Section Returns.
Context {T : FsTypes}.

Lemma returns_ret {A} (F : A -> Prop) a : F a -> returns F (ret a).
Proof. by intros ? w b w' [= <- <-]. Qed.
Lemma returns_fail {A} (F : A -> Prop) e : returns F (fail e).
Proof. by intros w a w' ?. Qed.
Lemma returns_panic {A} (F : A -> Prop) : returns F panic.
Proof. by intros w a w' ?. Qed.
Lemma returns_bind {A B} (G : A -> Prop) (F : B -> Prop) (m : M A) k :
  returns G m -> (forall a, G a -> returns F (k a)) -> returns F (bind m k).
Proof.
  intros Hm Hk w b w' H. unfold bind in H. destruct (m w) as [[[a|e] w1]|] eqn:Em; simplify_eq.
  eapply Hk; eauto.
Qed.
Lemma returns_any {A} (m : M A) : returns (fun _ => True) m.
Proof. done. Qed.
Lemma returns_holding {A} (F : A -> Prop) gs m : returns F m -> returns F (holding gs m).
Proof.
  intros Hm w a w' H. unfold holding, attempt, bind in H.
  destruct (m w) as [[r w1]|] eqn:Em; [|done].
  destruct (drop_guards gs w1) as [[[[]|] w2]|]; simplify_eq.
  unfold lift in H. simplify_eq. eauto.
Qed.
Lemma returns_keeping {A} (F : A -> Prop) gs m : returns F m -> returns F (keeping gs m).
Proof.
  intros Hm w a w' H. unfold keeping, attempt, bind in H.
  destruct (m w) as [[[b|e] w1]|] eqn:Em; [| |done].
  - unfold ret in H. simplify_eq. eauto.
  - by destruct (drop_guards gs w1) as [[[[]|] w2]|]; simplify_eq.
Qed.
Lemma returns_attempt {A} (F : A -> Prop) m :
  returns F m -> returns (fun r => forall a, r = Ok a -> F a) (attempt m).
Proof.
  intros Hm w r w' H a ->. unfold attempt in H. destruct (m w) as [[x w1]|] eqn:Em; simplify_eq.
  eauto.
Qed.
Lemma returns_lift {A} (F : A -> Prop) x : (forall a, x = Ok a -> F a) -> returns F (lift x).
Proof. intros Hx w a w' [= -> ->]. eauto. Qed.

Lemma carried_refl nd : carried nd nd.
Proof. by repeat split. Qed.
Lemma carried_trans nd1 nd2 nd3 : carried nd1 nd2 -> carried nd2 nd3 -> carried nd1 nd3.
Proof. intros (?&?&?&?) (?&?&?&?). repeat split; congruence. Qed.
End Returns.
#[export] Hint Resolve carried_refl : carried.
#[export] Hint Extern 2 (carried _ _) =>
  unfold carried in *; destruct_and?; split_and?; simpl in *; try congruence;
  repeat case_match; simpl in *; congruence : carried.

Ltac yields_step :=
  match goal with
  | |- returns _ (ret _) => apply returns_ret; solve [eauto with carried]
  | |- returns _ (fail _) => apply returns_fail
  | |- returns _ panic => apply returns_panic
  | |- returns _ (bind ?m _) =>
    first [ eapply returns_bind; [solve [eauto with carried] | intros ? ?]
          | eapply returns_bind; [apply returns_any | intros ? _] ]
  | |- returns _ (holding _ _) => apply returns_holding
  | |- returns _ (keeping _ _) => apply returns_keeping
  | |- returns _ (match ?x with _ => _ end) => destruct x
  end.
Ltac yields := intros; repeat (cbv zeta; yields_step).

Section Carries.
Context {T : FsTypes} `{!VfsTables T} `{!LruCache} `{!FileTables T}.

(** A step of a walk carries on from where the walk began. *)
Lemma carries_pick_link d nd0 nd : carried nd0 nd -> returns (carried nd0) (pick_link d nd).
Proof. intros Hc. unfold pick_link. yields. Qed.
Lemma carries_follow_dotdot nd0 nd : carried nd0 nd -> returns (carried nd0) (follow_dotdot nd).
Proof. intros Hc. unfold follow_dotdot. yields. Qed.
#[local] Hint Resolve carries_pick_link carries_follow_dotdot : carried.
Lemma carries_handle_dots nd0 nd : carried nd0 nd -> returns (carried nd0) (handle_dots nd).
Proof.
  intros Hc. unfold handle_dots. apply (returns_bind (carried nd0)); yields.
  all: eauto with carried.
Qed.
Lemma carries_walk_component n nd0 nd :
  carried nd0 nd ->
  returns (fun s => match s with Walked nd' | Linked nd' => carried nd0 nd' end)
    (walk_component n nd).
Proof. intros Hc. unfold walk_component. yields. Qed.
#[local] Hint Resolve carries_walk_component : carried.
Lemma carries_link_path_walk_links links names nd0 nd :
  carried nd0 nd -> returns (carried nd0) (link_path_walk_links links names nd).
Proof.
  revert names nd. induction links as [|links IHl]; intros names; induction names as [|names IHn];
    intros nd Hc; simpl; yields.
  all: eauto with carried.
Qed.
Lemma carries_link_path_walk nd0 nd :
  carried nd0 nd -> returns (carried nd0) (link_path_walk nd).
Proof. apply carries_link_path_walk_links. Qed.
#[local] Hint Resolve carries_link_path_walk carries_handle_dots : carried.
Lemma carries_lookup_last f nd0 nd : carried nd0 nd -> returns (carried nd0) (lookup_last f nd).
Proof.
  unfold lookup_last. revert f nd. generalize LINKS as n.
  induction n; intros f nd Hc; simpl; yields. all: eauto with carried.
Qed.
#[local] Hint Resolve carries_lookup_last : carried.
Lemma carries_path_lookupat f nd0 nd :
  carried nd0 nd -> returns (carried nd0) (path_lookupat f nd).
Proof. intros Hc. unfold path_lookupat, nd_kind, complete_walk. yields. Qed.
End Carries.
#[export] Hint Resolve carries_pick_link carries_follow_dotdot carries_handle_dots
  carries_link_path_walk carries_lookup_last carries_path_lookupat : carried.
