(* ===== verification/VfsLogic.v ===== *)
(** A program logic over [M]: what a computation keeps, what it does to the
    world, and what it answers.

    [I] holds of every world between two steps and [R] of the worlds before and
    after each, whichever way the computation ends; a triple's own facts hold
    where it answers. *)
From stdpp Require Import gmap.
From S2P Require Import Prelude Text Locking VfsTypes World Dcache Cred OpenFile Namei VfsFacts NameiFacts.
Local Open Scope vfs_scope.

Section Only.
Context {T : FsTypes}.
Implicit Types w : world.
Context (I : world -> Prop) (R : world -> world -> Prop).

Definition only {A} (P : world -> Prop) (m : M A) (Q : A -> world -> Prop) : Prop :=
  forall w r w', I w -> P w -> m w = Some (r, w') ->
    I w' /\ rtc R w w' /\ (forall a, r = Ok a -> Q a w').

Definition whatever {A} (_ : A) (_ : world) : Prop := True.

Lemma only_pre {A} (P P' : world -> Prop) (m : M A) Q :
  (forall w, I w -> P w -> P' w) -> only P' m Q -> only P m Q.
Proof. intros HP Hm w r w' Hi Hp. apply Hm; auto. Qed.

Lemma only_post {A} P (m : M A) (Q Q' : A -> world -> Prop) :
  only P m Q' -> (forall a w, I w -> Q' a w -> Q a w) -> only P m Q.
Proof.
  intros Hm HQ w r w' Hi Hp H. destruct (Hm w r w' Hi Hp H) as (Hi' & Ht & Hq). eauto 6.
Qed.

Lemma only_whatever {A} P (m : M A) Q : only P m Q -> only P m whatever.
Proof. intros Hm. by eapply only_post. Qed.

(** What [m] answers is known too. *)
Lemma only_returns {A} P (m : M A) (F : A -> Prop) Q :
  only P m Q -> returns F m -> only P m (fun a w => F a /\ Q a w).
Proof.
  intros Hm HF w r w' Hi Hp H. destruct (Hm w r w' Hi Hp H) as (Hi' & Ht & Hq).
  split_and!; [done..|]. intros a ->. eauto.
Qed.

(** A fact about no world. *)
Lemma only_pure {A} (F : Prop) P (m : M A) Q :
  (F -> only P m Q) -> only (fun w => F /\ P w) m Q.
Proof. intros Hm w r w' Hi [HF Hp]. by apply Hm. Qed.

Lemma only_ret {A} P (a : A) Q : (forall w, I w -> P w -> Q a w) -> only P (ret a) Q.
Proof. intros HQ w r w' Hi Hp [= <- <-]. split_and!; [done..|]. by intros b [= <-]; auto. Qed.
Lemma only_fail {A} P e Q : only P (@fail _ A e) Q.
Proof. by intros w r w' Hi Hp [= <- <-]. Qed.
Lemma only_panic {A} P Q : only P (@panic _ A) Q.
Proof. by intros w r w' Hi Hp ?. Qed.
Lemma only_lift {A} P (x : result FilesystemError A) Q :
  (forall a w, I w -> P w -> x = Ok a -> Q a w) -> only P (lift x) Q.
Proof. intros HQ w r w' Hi Hp [= <- <-]. split_and!; [done..|]. intros a ->. eauto. Qed.

Lemma only_bind {A B} P (m : M A) (k : A -> M B) Q S :
  only P m Q -> (forall a, only (Q a) (k a) S) -> only P (bind m k) S.
Proof.
  intros Hm Hk w r w' Hi Hp H. unfold bind in H.
  destruct (m w) as [[[a|e] w1]|] eqn:Em; simplify_eq.
  - destruct (Hm _ _ _ Hi Hp Em) as (Hi1 & R1 & Hq).
    destruct (Hk a _ _ _ Hi1 (Hq a eq_refl) H) as (Hi2 & R2 & Hr).
    split_and!; [done | by etransitivity | done].
  - destruct (Hm _ _ _ Hi Hp Em) as (Hi1 & R1 & _). done.
Qed.

Lemma only_assoc {A B C} P (m : M A) (f : A -> M B) (k : B -> M C) Q :
  only P (bind (bind m f) k) Q -> only P (bind m (fun a => bind (f a) k)) Q.
Proof.
  intros Hm w r w' Hi Hp H. apply (Hm w r w' Hi Hp). rewrite <- H. unfold bind.
  by destruct (m w) as [[[]]|].
Qed.

Lemma only_attempt {A} P (m : M A) Q :
  only P m Q -> only P (attempt m) (fun r w => forall a, r = Ok a -> Q a w).
Proof.
  intros Hm w r w' Hi Hp H. unfold attempt in H. destruct (m w) as [[x w1]|] eqn:Em; simplify_eq.
  destruct (Hm _ _ _ Hi Hp Em) as (Hi1 & Ht & Hq). split_and!; [done..|].
  by intros r' [= <-].
Qed.

(** A check: it reads, and what it answers it found. *)
Lemma only_reads {A} P (x : Rd A) : only P (reads x) (fun a w => P w /\ x w = Some (Ok a)).
Proof.
  intros w r w' Hi Hp H. unfold reads in H. destruct (x w) as [y|] eqn:Ex; simplify_eq/=.
  split_and!; [done..|]. by intros a ->.
Qed.
Lemma only_asks {A} P (f : world -> option A) : only P (asks f) (fun a w => P w /\ f w = Some a).
Proof.
  intros w r w' Hi Hp H. unfold asks in H. destruct (f w) as [y|] eqn:Ex; simplify_eq/=.
  split_and!; [done..|]. by intros a [= <-].
Qed.

Lemma only_end {A} P (m : M A) Q w r w' :
  PreOrder R -> only P m Q -> I w -> P w -> m w = Some (r, w') ->
  I w' /\ R w w' /\ (forall a, r = Ok a -> Q a w').
Proof.
  intros HR Hm Hi Hp Hr. destruct (Hm w r w' Hi Hp Hr) as (Hi' & Hc & Hq).
  split_and!; [done | | done]. clear -HR Hc. induction Hc; [reflexivity | by etransitivity].
Qed.

(** A computation within [C]. *)
Lemma only_framed {A} (C : world -> world -> Prop) P (m : M A) :
  (forall w w', I w -> C w w' -> I w' /\ R w w' /\ (P w -> P w')) ->
  framed C m -> only P m (fun _ => P).
Proof.
  intros HC Hm w r w' Hi Hp H. destruct (HC w w' Hi (Hm _ _ _ H)) as (Hi' & HR & Hp').
  split_and!; [done | by apply rtc_once | eauto].
Qed.

(** What the relation leaves true is true to the end. *)
Lemma only_lasting {A} P (m : M A) Q S :
  (forall w w', R w w' -> S w -> S w') -> only P m Q ->
  only (fun w => P w /\ S w) m (fun a w => Q a w /\ S w).
Proof.
  intros HS Hm w r w' Hi [Hp Hs] H. destruct (Hm _ _ _ Hi Hp H) as (Hi' & HR & Hq).
  assert (Hs' : S w') by (clear -HS HR Hs; induction HR; eauto). eauto.
Qed.

Lemma only_known {A B} F (m : M A) (k : A -> M B) Q :
  only (fun _ => True) m (fun a _ => F a) ->
  (forall a, F a -> only (fun _ => True) (k a) Q) -> only (fun _ => True) (bind m k) Q.
Proof.
  intros Hm Hk. eapply only_bind; [exact Hm | intros a].
  eapply only_pre with (P' := fun _ => F a /\ True); [done|]. apply only_pure. auto.
Qed.

(** A guard's release leaves what is known of the answer. *)
Lemma only_holding {A} P (m : M A) Q gs :
  (forall r : result FilesystemError A,
     only (fun w => forall a, r = Ok a -> Q a w) (drop_guards gs)
       (fun _ w => forall a, r = Ok a -> Q a w)) ->
  only P m Q -> only P (holding gs m) Q.
Proof.
  intros Hg Hm. unfold holding. eapply only_bind; [by apply only_attempt | intros r].
  eapply only_bind; [apply Hg | intros []]. apply only_lift. eauto.
Qed.

Lemma only_keeping {A} P (m : M A) Q gs :
  only (fun _ => True) (drop_guards gs) whatever -> only P m Q -> only P (keeping gs m) Q.
Proof.
  intros Hg Hm. unfold keeping. eapply only_bind; [by apply only_attempt | intros [a|e]].
  - apply only_ret. eauto.
  - eapply only_bind; [| intros []; apply only_fail]. eapply only_pre; [|exact Hg]. done.
Qed.

Lemma only_reval {A} P (m : M A) Q :
  (forall w w', R w w' -> P w -> P w') -> only P m Q -> only P (walk_with_reval m) Q.
Proof.
  intros HP Hm w r w' Hi Hp H. unfold walk_with_reval, attempt, bind in H.
  destruct (m w) as [[x w1]|] eqn:Em; [|done].
  destruct (Hm _ _ _ Hi Hp Em) as (Hi1 & R1 & Hq).
  assert (Hl : lift x w1 = Some (r, w') -> I w' /\ rtc R w w' /\ (forall a, r = Ok a -> Q a w')).
  { intros [= <- <-]. done. }
  destruct x as [a|e]; [by apply Hl|]. destruct e; try by apply Hl.
  assert (Hp1 : P w1) by (clear -HP R1 Hp; induction R1; eauto).
  destruct (Hm _ _ _ Hi1 Hp1 H) as (Hi2 & R2 & Hq2).
  split_and!; [done | by etransitivity | done].
Qed.

Lemma only_retry {W A} (F : W -> Prop) (walk : M W) (act : W -> M A) :
  only (fun _ => True) walk (fun x _ => F x) ->
  (forall x, F x -> only (fun _ => True) (act x) whatever) ->
  only (fun _ => True) (retry_estale walk act) whatever.
Proof.
  intros Hw Ha. unfold retry_estale. eapply only_known; [exact Hw | intros x Hx].
  eapply only_bind; [by apply only_attempt, Ha | intros [a|[]]]; try by apply only_lift.
  eapply only_pre with (P' := fun _ => True); [done|].
  eapply only_known; [exact Hw | intros y Hy]. by apply Ha.
Qed.
End Only.
