(* ===== verification/Mediation.v ===== *)
(** What a call hands a Filesystem, of what its checks answered: the rule of each
    of [Namei.v]'s steps in the logic of [VfsLogic.v], where every change handed
    over is one the mount and its Policies admit.

    A check is a read of the world as it stands, so what it found holds of the
    change it goes before only while every dentry stands where it stood: what a
    triple carries over a step is [stable]. *)
From stdpp Require Import gmap.
From S2P Require Import Prelude Text Catalog Locking VfsTypes World Dcache Cred OpenFile Namei Security VfsFacts NameiFacts VfsLogic.
Local Open Scope vfs_scope.

(** ** Paths keep their names *)
Section Paths.
Context {T : FsTypes}.
Implicit Types w : world.

Lemma names_up_more fuel fuel' w w' d l :
  keeps same_place (w_dentries w) (w_dentries w') -> (fuel <= fuel')%nat ->
  names_up fuel w d = Some l -> names_up fuel' w' d = Some l.
Proof.
  intros Hk. revert fuel' d l.
  induction fuel as [|fuel IH]; intros fuel' d l Hle Hn; simpl in Hn; [done|].
  destruct fuel' as [|fuel']; [lia|]. simpl.
  destruct (w_dentries w !! d) as [x|] eqn:Ex; simpl in Hn; [|done].
  destruct (Hk d x Ex) as (x' & Hx' & Hp & Hm & _).
  change (w_dentries w' !! d = Some x') in Hx'. rewrite Hx'. simpl. rewrite Hp, Hm.
  destruct (d_parent x) as [p|]; [|done].
  destruct (names_up fuel w p) as [above|] eqn:Ea; simpl in Hn; [|done].
  by rewrite (IH fuel' p above ltac:(lia) Ea).
Qed.

Lemma keeps_size {X} (P : X -> X -> Prop) (m m' : gmap nat X) :
  keeps P m m' -> (size m <= size m')%nat.
Proof.
  intros Hk. rewrite <- !size_dom. apply subseteq_size. intros a.
  rewrite !elem_of_dom. intros [x Hx]. destruct (Hk a x Hx) as (x' & -> & _). eauto.
Qed.

(** A path stays while every dentry stands where it stood. *)
Lemma path_raw_kept w w' d p :
  keeps same_place (w_dentries w) (w_dentries w') ->
  path_raw d w = Some p -> path_raw d w' = Some p.
Proof.
  intros Hk. unfold path_raw, names.
  destruct (names_up (fuel_of w) w d) as [l|] eqn:El; [|done]. intros Hp.
  assert (Hl : names_up (fuel_of w') w' d = Some l) by
    (eapply names_up_more; [exact Hk | apply le_n_S, (keeps_size _ _ _ Hk) | exact El]).
  by rewrite Hl.
Qed.
End Paths.

(** ** Changes handed over *)
Section Handed.
Context {T : FsTypes}.
Implicit Types w : world.

(** No dentry moved, and whatever was handed over is on record still. *)
Definition recorded w w' : Prop := exists new, w_trace w' = new ++ w_trace w.
Definition unmoved w w' : Prop :=
  keeps same_place (w_dentries w) (w_dentries w') /\ recorded w w'.

(** What a step that moves no dentry leaves true. *)
Definition stable (P : world -> Prop) : Prop := forall w w', unmoved w w' -> P w -> P w'.

Lemma recorded_same w w' : w_trace w' = w_trace w -> recorded w w'.
Proof. by exists []. Qed.

#[export] Instance recorded_pre : PreOrder recorded.
Proof.
  split; [intros w; by exists []|]. intros w1 w2 w3 (n1 & E1) (n2 & E2). exists (n2 ++ n1).
  by rewrite E2, E1, app_assoc.
Qed.

(** A Filesystem was handed only what [J] admits, and every object stands as it
    did. *)
Definition handed (J : Event -> Prop) w w' : Prop :=
  kept w w' /\ exists new, w_trace w' = new ++ w_trace w /\ Forall J new.

#[export] Instance handed_pre J : PreOrder (handed J).
Proof.
  split.
  - intros w. split; [done | by exists []].
  - intros w1 w2 w3 (K1 & n1 & E1 & F1) (K2 & n2 & E2 & F2). split; [by transitivity w2|].
    exists (n2 ++ n1).
    rewrite E2, E1, app_assoc. split; [done | by apply Forall_app].
Qed.

Lemma handed_recorded J w w' : handed J w w' -> recorded w w'.
Proof. intros (_ & new & E & _). by exists new. Qed.

(** What was opened, where and how, since [base] was all there was on record. *)
Definition since (base : list Event) w : Prop := exists new, w_trace w = new ++ base.
Definition opened_since (base : list Event) (d : did) path k mode trunc w : Prop :=
  exists new, w_trace w = new ++ base /\ In (EOpen d path k mode trunc) new.

Lemma since_recorded base w w' : recorded w w' -> since base w -> since base w'.
Proof. intros (n & E) (new & E'). exists (n ++ new). by rewrite E, E', app_assoc. Qed.
Lemma opened_recorded base d p k m t w w' :
  recorded w w' -> opened_since base d p k m t w -> opened_since base d p k m t w'.
Proof.
  intros (n & E) (new & E' & Hin). exists (n ++ new). rewrite E, E', app_assoc.
  split; [done | apply in_or_app; by right].
Qed.
Lemma opened_emitted base d p k m t w :
  since base w -> opened_since base d p k m t (set_trace (EOpen d p k m t :: w_trace w) w).
Proof. intros (new & E). exists (EOpen d p k m t :: new). simpl. by rewrite E; auto. Qed.

Lemma stable_opened base d p k m t : stable (opened_since base d p k m t).
Proof. intros w w' [_ Hr]. by apply opened_recorded. Qed.

Lemma stable_true : stable (fun _ => True).
Proof. by intros w w' _ _. Qed.
Lemma stable_pure (F : Prop) : stable (fun _ => F).
Proof. by intros w w' _ ?. Qed.
Lemma stable_and P Q : stable P -> stable Q -> stable (fun w => P w /\ Q w).
Proof. intros HP HQ w w' Hk [? ?]. eauto. Qed.
Lemma stable_imp (F : Prop) P : stable P -> stable (fun w => F -> P w).
Proof. intros HP w w' Hk H HF. eauto. Qed.
End Handed.
#[export] Hint Resolve stable_true stable_pure stable_and stable_imp : vfs.

(** ** The rules *)
Section Rules.
Context {T : FsTypes} `{!VfsTables T} `{LC : !LruCache} `{!FileTables T} `{!Lawful _}.
Implicit Types w : world.

(** One mount, as writable as it stands, who the calls are made for, and what
    was on record before them. *)
Context (mnt : VfsMount) (writable : bool) (cred : Cred) (base : list Event).

(** The Policies that judge what is reached through the mount. *)
Definition judges (m : MountPolicy) : Prop :=
  In (policy_security m) (security cred) /\ guards m mnt = true.

Definition may (a : Access) (path : option (list byte)) : Prop :=
  forall m, judges m -> exists p, path = Some p /\ mp_policy m (guest_path m p) a = true.

Definition open_access (mode : Z) (truncate : bool) : Access :=
  if FMode.contains mode FMode.CREATED || FMode.contains mode FMode.WRITE || truncate
  then ReadWrite else Read.

(** What a Filesystem may be handed through the mount. *)
Definition admitted (e : Event) : Prop :=
  match e with
  | ECreate p | EMkdir p | ESymlink p | ERmdir p | EUnlink p | ESetattr p =>
    writable = true /\ may ReadWrite p
  | EAtomicOpen p create truncate =>
    (create = true -> writable = true /\ may ReadWrite p) /\ (truncate = true -> writable = true)
  | ELink old p => writable = true /\ may ReadWrite old /\ may ReadWrite p
  | ERename old new kind =>
    writable = true /\ may ReadWrite old /\ may ReadWrite new
    /\ (kind = Dir -> forall m, ~ judges m)
  | EOpen _ p kind mode truncate =>
    (FMode.contains mode FMode.WRITE = true -> special_file kind = false -> writable = true)
    /\ may (open_access mode truncate) p
  end.

Definition stands w : Prop :=
  fresh_ok w /\ is_readonly mnt w = Some (Ok (negb writable)) /\ since base w.

Definition judged (d : did) (a : Access) w : Prop := may a (path_raw d w).

Lemma readonly_kept w w' b :
  fresh_ok w -> kept w w' -> is_readonly mnt w = Some (Ok b) -> is_readonly mnt w' = Some (Ok b).
Proof.
  intros Hf Hk Hr. destruct (Hk Hf) as (_ & _ & Hs).
  unfold is_readonly in *. destruct (w_sbs w !! mnt_sb mnt) as [x|] eqn:Ex; [|done].
  destruct (Hs _ x Ex) as (x' & Hx' & Hro).
  change (w_sbs w' !! mnt_sb mnt = Some x') in Hx'. rewrite Hx'. simpl in *. congruence.
Qed.

Lemma stands_kept w w' : kept w w' -> recorded w w' -> stands w -> stands w'.
Proof.
  intros Hk Hr (Hf & Hro & Hs). split_and!; [by apply (Hk Hf) | by eapply readonly_kept |].
  by eapply since_recorded.
Qed.

Lemma stands_here w : base = w_trace w ->
  fresh_ok w -> is_readonly mnt w = Some (Ok (negb writable)) -> stands w.
Proof. intros -> Hf Hr. split_and!; [done | exact Hr | by exists []]. Qed.

Lemma stands_fresh w : stands w -> fresh_ok w.
Proof. by intros []. Qed.

Lemma stands_trace w e : stands w -> stands (set_trace (e :: w_trace w) w).
Proof. intros (Hf & Hr & Hs). split_and!; [done..|]. eapply since_recorded; [|exact Hs]. by exists [e]. Qed.

Lemma stable_judged d a : stable (judged d a).
Proof.
  intros w w' [Hk _] Hj m Hm. destruct (Hj m Hm) as (p & Hp & Ha). exists p.
  split; [by eapply path_raw_kept | done].
Qed.

Abbreviation hands := (only stands (handed admitted)).

(** *** Checks *)
Lemma only_want_write P : hands P (mnt_want_write mnt) (fun _ w => writable = true /\ P w).
Proof.
  intros w r w' Hi Hp Hw. unfold mnt_want_write, reads, bind in Hw.
  rewrite (proj1 (proj2 Hi)) in Hw. destruct (negb writable) eqn:Hro; simpl in Hw; injection Hw as <- <-.
  all: split_and!; [done | done | intros a [=]].
  split; [by apply negb_false_iff | done].
Qed.

Lemma call_int_hook_in modules hook w m :
  call_int_hook modules hook w = Some (Ok tt) -> In m modules -> hook m w = Some (Ok tt).
Proof.
  induction modules as [|m' modules IH]; [done|]. simpl. unfold rd_bind.
  destruct (hook m' w) as [[[]|]|] eqn:E; [|done..]. intros H [->|Hin]; auto.
Qed.

Lemma path_perm_judged m d a w :
  guards m mnt = true -> path_perm m (MkSecurityPath mnt d) a w = Some (Ok tt) ->
  exists p, path_raw d w = Some p /\ mp_policy m (guest_path m p) a = true.
Proof.
  intros Hg. unfold path_perm. simpl. rewrite Hg. simpl. unfold rd_bind, sp_name. simpl.
  destruct (path_raw d w) as [p|]; simpl; [|done]. unfold judge.
  destruct (_ <=? _); [done|]. destruct (mp_policy m (guest_path m p) a) eqn:E; [|done]. eauto.
Qed.

(** A hook whose Policies judge [d]. *)
Lemma only_hook hook d a P :
  (forall m, hook (policy_security m) = path_perm m (MkSecurityPath mnt d) a) ->
  hands P (reads (call_int_hook (security cred) hook)) (fun _ w => P w /\ judged d a w).
Proof.
  intros Hh. eapply only_post; [apply only_reads|]. simpl. intros [] w _ [Hp Hc].
  split; [done|]. intros m [Hin Hg].
  pose proof (call_int_hook_in _ _ _ _ Hc Hin) as Hm. rewrite Hh in Hm.
  by apply path_perm_judged with (m := m) (a := a).
Qed.

Lemma both_ok a b w : both a b w = Some (Ok tt) -> a w = Some (Ok tt) /\ b w = Some (Ok tt).
Proof. unfold both, rd_bind. by destruct (a w) as [[[]|]|]. Qed.

Lemma only_link_hook old d P :
  hands P (security_path_link cred (MkSecurityPath mnt old) (MkSecurityPath mnt d))
    (fun _ w => P w /\ judged old ReadWrite w /\ judged d ReadWrite w).
Proof.
  eapply only_post; [apply only_reads|]. simpl. intros [] w _ [Hp Hc]. split; [done|].
  split; intros m [Hin Hg]; apply path_perm_judged; auto;
    pose proof (call_int_hook_in _ _ _ _ Hc Hin) as Hm; simpl in Hm;
    by apply both_ok in Hm as [? ?].
Qed.

Lemma only_rename_hook old new P :
  hands P (security_path_rename cred (MkSecurityPath mnt old) (MkSecurityPath mnt new) old new)
    (fun _ w => P w /\ judged old ReadWrite w /\ judged new ReadWrite w
       /\ (names_dir old w = Some (Ok true) -> old <> new -> forall m, ~ judges m)).
Proof.
  eapply only_post; [apply only_reads|]. simpl. intros [] w _ [Hp Hc]. split; [done|].
  assert (Hm : forall m, judges m ->
    path_perm m (MkSecurityPath mnt old) ReadWrite w = Some (Ok tt)
    /\ path_perm m (MkSecurityPath mnt new) ReadWrite w = Some (Ok tt)
    /\ (names_dir old w = Some (Ok true) -> old <> new -> False)).
  { intros m [Hin Hg]. pose proof (call_int_hook_in _ _ _ _ Hc Hin) as Hm.
    simpl in Hm. unfold policy_path_rename in Hm.
    apply both_ok in Hm as [? Hm]. apply both_ok in Hm as [? Hm].
    split_and!; [done..|]. intros Hd Hne. unfold rd_bind in Hm. rewrite Hd in Hm. simpl in Hm.
    rewrite Hg, (proj2 (Nat.eqb_neq old new) Hne) in Hm. done. }
  split_and!; [intros m Hj; destruct (Hm m Hj) as (? & ? & _); destruct Hj..|].
  1,2: eapply path_perm_judged; eauto.
  intros Hd Hne m Hj. by apply (Hm m Hj).
Qed.

(** *** Steps *)
#[local] Hint Resolve stable_judged stands_kept stands_fresh stands_trace : vfs.

Lemma hands_quiet {A} P (m : M A) : stable P -> quiet m -> hands P m (fun _ => P).
Proof.
  intros HP. apply only_framed. intros w w' Hi [[Hk Ht] Hpl].
  assert (Hr := recorded_same _ _ Ht).
  split_and!; [by eapply stands_kept | split; [done | exists []; by rewrite Ht]|].
  apply HP. split; [|done]. apply Hpl. by destruct Hi.
Qed.

Lemma hands_silent {A} P (m : M A) : silent m -> hands P m whatever.
Proof.
  intros Hm. eapply only_pre with (P' := fun _ => True); [done|].
  eapply only_whatever, (only_framed _ _ silently); [|done].
  intros w w' Hi [Hk Ht].
  assert (Hr := recorded_same _ _ Ht).
  split_and!; [by eapply stands_kept | split; [done | exists []; by rewrite Ht] | done].
Qed.

Lemma hands_emit P f :
  stable P -> (forall w, stands w -> P w -> admitted (f w)) -> hands P (emit f) (fun _ => P).
Proof.
  intros HP Hf w r w' Hi Hp [= <- <-].
  split_and!; [by apply stands_trace | apply rtc_once; split; [exact (reflexivity (R := kept) w) | exists [f w]; auto] |].
  intros _ _. apply (HP w); [|done]. split; [|by exists [f w]].
  simpl. apply keeps_refl. intros. reflexivity.
Qed.

Lemma hands_holding {A} P (m : M A) Q gs :
  (forall a, stable (Q a)) -> hands P m Q -> hands P (holding gs m) Q.
Proof.
  intros HQ. apply only_holding. intros r. apply hands_quiet; [|auto with vfs].
  intros w w' Hk Hr a Ha. eapply HQ; eauto.
Qed.

Lemma hands_hold {A} P (m : M A) gs : hands P m whatever -> hands P (holding gs m) whatever.
Proof. apply hands_holding. by intros a w w' ? ?. Qed.

Lemma hands_keeping {A} P (m : M A) Q gs : hands P m Q -> hands P (keeping gs m) Q.
Proof. apply only_keeping. apply hands_silent, silent_of_quiet. auto with vfs. Qed.

Lemma hands_counting {A} (m : M A) Q :
  hands (fun _ => True) m Q -> hands (fun _ => True) (counting_links m) Q.
Proof.
  intros Hm. unfold counting_links.
  eapply only_bind; [apply hands_quiet; auto with vfs | by intros []].
Qed.

(** A step that leaves [P] as it was, and one that ends. *)
Lemma hands_then {A B} P (m : M A) (k : A -> M B) Q :
  stable P -> quiet m -> (forall a, hands P (k a) Q) -> hands P (bind m k) Q.
Proof. intros HP Hm Hk. eapply only_bind; [by apply hands_quiet | done]. Qed.

Lemma hands_after {A B} P (m : M A) (k : A -> M B) Q :
  hands P m whatever -> (forall a, hands (fun _ => True) (k a) Q) -> hands P (bind m k) Q.
Proof.
  intros Hm Hk. eapply only_bind; [exact Hm|]. intros a. eapply only_pre; [|apply Hk]. done.
Qed.

(** A change handed over once what it needs is known. *)
Lemma hands_change {A} P f (m : M A) :
  stable P -> (forall w, stands w -> P w -> admitted (f w)) -> silent m ->
  hands P (emit f ;;! m) whatever.
Proof.
  intros HP Hf Hm. eapply only_bind; [by apply hands_emit | intros []].
  by apply hands_silent.
Qed.

(** What a change of one entry needs. *)
Definition granted (d : did) w : Prop := writable = true /\ judged d ReadWrite w.

Lemma stable_granted d : stable (granted d).
Proof. apply stable_and; auto with vfs. Qed.
#[local] Hint Resolve stable_granted : vfs.

Ltac change_of :=
  repeat (apply hands_then; [by auto with vfs | by auto with vfs | intros ?]);
  apply hands_change; [by auto with vfs | by intros w _ [? ?] | frames].

Lemma hands_vfs_mkdir s dir d : hands (granted d) (vfs_mkdir cred s dir d) whatever.
Proof. unfold vfs_mkdir. change_of. Qed.
Lemma hands_vfs_create s dir d : hands (granted d) (vfs_create cred s dir d) whatever.
Proof. unfold vfs_create. change_of. Qed.
Lemma hands_vfs_symlink s dir d t : hands (granted d) (vfs_symlink cred s dir d t) whatever.
Proof. unfold vfs_symlink. change_of. Qed.
Lemma hands_vfs_rmdir s dir d : hands (granted d) (vfs_rmdir cred s dir d) whatever.
Proof.
  unfold vfs_rmdir. do 3 (apply hands_then; [by auto with vfs | by auto with vfs | intros ?]).
  apply hands_hold. change_of.
Qed.
Lemma hands_vfs_unlink s dir d : hands (granted d) (vfs_unlink cred s dir d) whatever.
Proof.
  unfold vfs_unlink. do 3 (apply hands_then; [by auto with vfs | by auto with vfs | intros ?]).
  apply hands_hold. change_of.
Qed.
Lemma hands_vfs_link s old dir d :
  hands (fun w => granted old w /\ granted d w) (vfs_link cred s old dir d) whatever.
Proof.
  unfold vfs_link. do 2 (apply hands_then; [by auto with vfs | by auto with vfs | intros ?]).
  case_match; [apply only_fail|].
  apply hands_then; [by auto with vfs | by auto with vfs | intros ?]. apply hands_hold.
  apply hands_then; [by auto with vfs | by auto with vfs | intros ?].
  case_match; [apply only_fail|].
  apply hands_then; [by auto with vfs | by auto with vfs | intros ?].
  apply hands_change; [by auto with vfs | by intros w _ [[? ?] [? ?]] | frames].
Qed.
Lemma hands_notify_change d attr : hands (granted d) (notify_change d attr) whatever.
Proof.
  unfold notify_change. apply hands_then; [by auto with vfs | by auto with vfs | intros [i|]].
  - change_of.
  - apply only_panic.
Qed.

(** *** Opening *)

Lemma file_open_modules_in modules at_ k mode how kept w m :
  file_open_modules modules at_ k mode how w = Some (Ok kept) -> In m modules ->
  exists x, hook_file_open m at_ k mode how w = Some (Ok x).
Proof.
  revert kept. induction modules as [|m' modules IH]; intros kept; [done|]. simpl. unfold rd_bind.
  destruct (hook_file_open m' at_ k mode how w) as [[x|]|] eqn:E; [|done..].
  destruct (file_open_modules modules at_ k mode how w) as [[rest|]|]; [|done..].
  intros _ [->|Hin]; eauto.
Qed.

(** A file made by the open was judged as it was made. *)
Definition made (mode : Z) (d : did) w : Prop :=
  FMode.contains mode FMode.CREATED = true -> judged d ReadWrite w.

(** What kobako's own rules open. *)
Definition ordinary (k : FileType) : Prop :=
  In kobako_security (security cred) -> special_file k = false.

Lemma only_file_open d k mode how P :
  (forall w, P w -> made mode d w) ->
  hands P (security_file_open cred (MkSecurityPath mnt d) k mode how)
    (fun _ w => (P w /\ judged d (open_access mode (how_truncate how)) w) /\ ordinary k).
Proof.
  intros HP. eapply only_post; [apply only_reads|]. simpl. intros kept w _ [Hp Hc].
  split.
  2:{ intros Hin. destruct (file_open_modules_in _ _ _ _ _ _ _ _ Hc Hin) as [x Hm].
      by destruct k. }
  split; [done|]. intros m [Hin Hg].
  destruct (file_open_modules_in _ _ _ _ _ _ _ _ Hc Hin) as [x Hm]. simpl in Hm.
  unfold policy_file_open in Hm. simpl in Hm. rewrite Hg in Hm. simpl in Hm.
  unfold open_access. destruct (FMode.contains mode FMode.CREATED) eqn:Ec; simpl in *.
  - by apply (HP w Hp Ec).
  - unfold rd_bind in Hm.
    destruct (path_perm m (MkSecurityPath mnt d) _ w) as [[[]|]|] eqn:E; [|done..].
    by apply path_perm_judged in E.
Qed.

(** What an open of [d] to write was granted: the open is on record, at a path
    judged for writing, where the mount takes writes. *)
Definition licence (d : did) w : Prop :=
  exists path k mode trunc, opened_since base d path k mode trunc w
    /\ FMode.contains mode FMode.WRITE = true /\ may ReadWrite path
    /\ (special_file k = false -> writable = true) /\ ordinary k.
Definition licensed (d : did) (mode : Z) w : Prop :=
  FMode.contains mode FMode.WRITE = true -> licence d w.

Lemma licence_recorded d w w' : recorded w w' -> licence d w -> licence d w'.
Proof. intros Hr (p & k & m & t & Ho & Hl). exists p, k, m, t. split; [by eapply opened_recorded | done]. Qed.

Lemma licensed_recorded d mode w w' : recorded w w' -> licensed d mode w -> licensed d mode w'.
Proof. intros Hr Hl E. eapply licence_recorded; eauto. Qed.

Lemma stable_licensed d mode : stable (licensed d mode).
Proof. intros w w' [_ Hr]. by apply licensed_recorded. Qed.
#[local] Hint Resolve stable_licensed : vfs.

(** The open itself, on record once it is handed over. *)
Lemma hands_open_emitted P d k mode trunc :
  stable P -> (forall w, P w -> judged d (open_access mode trunc) w) ->
  (FMode.contains mode FMode.WRITE = true -> special_file k = false -> writable = true) ->
  ordinary k ->
  hands P (emit (fun w => EOpen d (path_raw d w) k mode trunc)) (fun _ w => P w /\ licensed d mode w).
Proof.
  intros HP HJ Hw Ho w r w' Hi Hp E.
  assert (He := hands_emit P (fun w => EOpen d (path_raw d w) k mode trunc) HP).
  destruct (He (fun w _ Hp => conj Hw (HJ w Hp)) w r w' Hi Hp E) as (Hi' & Hr & Hq).
  split_and!; [done..|]. intros a Ea. split; [by apply (Hq a)|]. intros Em.
  injection E as _ <-. exists (path_raw d w), k, mode, trunc.
  split_and!; [apply opened_emitted, Hi | done | | by apply Hw | done].
  specialize (HJ w Hp). unfold open_access in HJ. by rewrite Em, orb_true_r in HJ.
Qed.

Lemma hands_dentry_open d k mode how op :
  quiet op ->
  hands (made mode d) (do_dentry_open cred (MkSecurityPath mnt d) k mode how op)
    (fun _ w => made mode d w /\ (FMode.contains mode FMode.PATH = false ->
                judged d (open_access mode (how_truncate how)) w /\ licensed d mode w)).
Proof.
  intros Hop. unfold do_dentry_open.
  destruct (FMode.contains mode FMode.PATH); [by apply only_ret|].
  eapply only_bind with (Q := fun _ w => made mode d w
    /\ (FMode.contains mode FMode.WRITE = true -> special_file k = false -> writable = true)).
  { destruct (FMode.contains mode FMode.WRITE), (special_file k); simpl;
      first [ by apply only_ret | eapply only_post; [apply only_want_write | by intros a w _ []] ]. }
  intros _. eapply only_bind; [apply only_file_open; by intros w []|]. intros kept. simpl.
  assert (Hst : stable (made mode d)) by (apply stable_imp; auto with vfs).
  eapply only_pre with (P' := fun w => ordinary k
    /\ ((FMode.contains mode FMode.WRITE = true -> special_file k = false -> writable = true)
    /\ (made mode d w /\ judged d (open_access mode (how_truncate how)) w))).
  { by intros w _ [[[? ?] ?] ?]. }
  apply only_pure. intros Ho. apply only_pure. intros Hw.
  eapply only_bind; [apply hands_open_emitted; [apply stable_and; auto with vfs | by intros w [] | done..]|].
  intros []. simpl. apply hands_then; [repeat apply stable_and; auto with vfs | done | intros f].
  by apply only_ret; intros w _ [[] ?].
Qed.

(** What an open stands on: a name it made was judged for it, and so was one a
    file is open on already. *)
Definition opened_ok (how : OpenHow) (d : did) (o : Open) w : Prop :=
  made (o_mode o) d w
  /\ (is_Some (o_file o) ->
      judged d (open_access (o_mode o) (how_truncate how)) w /\ licensed d (o_mode o) w).

Lemma stable_opened_ok how d o : stable (opened_ok how d o).
Proof. apply stable_and; apply stable_imp; [|apply stable_and]; auto with vfs. Qed.
#[local] Hint Resolve stable_opened_ok : vfs.

Lemma hands_file_new path ops mode how kept P : hands P (file_new path ops mode how cred kept) whatever.
Proof. apply hands_silent. unfold file_new. frames. Qed.

(** What an open answers with. *)
Definition opened (f : File) w : Prop :=
  p_mnt (f_path f) = mnt /\ f_cred f = cred /\ licensed (p_dentry (f_path f)) (f_mode f) w.

Lemma stream_open_write mode :
  FMode.contains (FMode.stream_open mode) FMode.WRITE = FMode.contains mode FMode.WRITE.
Proof.
  unfold FMode.contains, FMode.stream_open. f_equal. apply Z.bits_inj'. intros n Hn.
  rewrite !Z.land_spec, Z.lor_spec, Z.ldiff_spec.
  destruct (decide (n = 1)) as [->|Hne]; [by rewrite andb_true_r, orb_false_r|].
  assert (Hb : Z.testbit FMode.WRITE n = false).
  { change FMode.WRITE with (2 ^ 1). apply Z.pow2_bits_false. lia. }
  by rewrite Hb, !andb_false_r.
Qed.

Lemma hands_file_opened path ops mode how kept :
  p_mnt path = mnt ->
  hands (licensed (p_dentry path) mode) (file_new path ops mode how cred kept) opened.
Proof.
  intros Hm. unfold file_new. apply hands_then; [auto with vfs | auto with vfs | intros [i|]];
    [|apply only_panic].
  apply only_ret. intros w _ Hl. split_and!; [done..|]. unfold licensed. simpl.
  destruct (fo_is_stream ops); [by rewrite stream_open_write | done].
Qed.

Lemma hands_licensed {A} P (m : M A) Q d mode :
  hands P m Q -> hands (fun w => P w /\ licensed d mode w) m (fun a w => Q a w /\ licensed d mode w).
Proof.
  apply only_lasting. intros w w' Hh. by apply licensed_recorded, (handed_recorded _ _ _ Hh).
Qed.

Lemma hands_do_open nd child o op :
  nd_mnt nd = mnt -> nd_cred nd = cred -> FMode.contains (o_mode o) FMode.PATH = false ->
  hands (opened_ok (open_flag op) child o) (do_open nd child o op) opened.
Proof.
  intros Hm Hc Hpath. unfold do_open. rewrite Hm, Hc.
  apply hands_then; [auto with vfs | frames | intros _].
  apply hands_then; [auto with vfs | auto with vfs | intros k].
  case_match; [apply only_fail|]. cbv zeta.
  set (created := FMode.contains (o_mode o) FMode.CREATED).
  set (trunc := if created then false else _).
  eapply only_bind with (Q := fun _ w => opened_ok (open_flag op) child o w
    /\ (trunc = true -> writable = true)).
  { destruct trunc; [|by apply only_ret].
    eapply only_post; [apply only_want_write | by intros a w _ []]. }
  intros _. apply hands_then; [auto with vfs | auto with vfs | intros _].
  eapply only_bind with (Q := fun _ w => (trunc = true -> granted child w)
    /\ licensed child (o_mode o) w).
  - assert (Ht : trunc = true -> open_access (o_mode o) (how_truncate (open_flag op)) = ReadWrite).
    { unfold trunc. destruct created; [done|]. intros [Ht _]%andb_true_iff.
      unfold open_access. rewrite Ht, !orb_true_r. done. }
    eapply only_post with (Q' := fun _ w => (trunc = true -> writable = true)
      /\ judged child (open_access (o_mode o) (how_truncate (open_flag op))) w
      /\ licensed child (o_mode o) w).
    2:{ intros a w _ (Hw & Hj & Hl). split; [|done]. intros E. split; [auto|]. by rewrite <- (Ht E). }
    destruct (o_file o) as [f|] eqn:Ef.
    + apply only_ret. intros w _ [[_ Hj] Hw]. rewrite Ef in Hj. split; [done | eauto].
    + eapply only_pre with (P' := fun w => (trunc = true -> writable = true)
        /\ made (o_mode o) child w); [by intros w _ [[] ?]|].
      apply only_pure. intros Hw.
      eapply only_post; [apply hands_dentry_open; auto with vfs|]. simpl.
      intros a w _ [_ Hj]. auto.
  - intros [f_op kept].
    eapply only_bind with (Q := fun _ w => True /\ licensed child (o_mode o) w).
    + eapply only_post with (Q' := fun _ w => whatever tt w /\ licensed child (o_mode o) w); [|done].
      apply hands_licensed. destruct trunc; [|by apply only_ret].
      eapply only_pre with (P' := granted child); [auto|].
      apply hands_then; [auto with vfs | unfold security_file_truncate; auto with vfs | intros _].
      apply hands_then; [auto with vfs | auto with vfs | intros held].
      apply hands_hold, hands_notify_change.
    + intros []. eapply only_pre; [|by apply hands_file_opened]. by intros w _ [].
Qed.

(** *** Looking up the last name of an open *)

(** What [atomic_open] may be asked. *)
Definition askable (d : did) (how : OpenHow) w : Prop :=
  (how_create how = true -> granted d w) /\ (how_truncate how = true -> writable = true).

Lemma stable_askable d how : stable (askable d how).
Proof. apply stable_and; [apply stable_imp; auto with vfs | auto with vfs]. Qed.
#[local] Hint Resolve stable_askable : vfs.

(** The name an open made is the one asked about. *)
Definition made_here (d : did) (a : AtomicOpen) w : Prop :=
  ao_created a = true -> ao_spliced a = None /\ judged d ReadWrite w.

Lemma stable_made_here d a : stable (made_here d a).
Proof. intros w w' Hk Ha Hc. destruct (Ha Hc). split; [done | by eapply stable_judged]. Qed.

Lemma hands_atomic_open s dir d how :
  hands (askable d how) (atomic_open s dir d how) (made_here d).
Proof.
  unfold atomic_open. apply hands_then; [auto with vfs | auto with vfs | intros o].
  eapply only_bind; [apply hands_emit; [auto with vfs|] | intros []].
  { intros w _ [Hc Ht]. split; [|done]. intros E. destruct (Hc E). done. }
  eapply only_bind.
  { eapply only_returns; [apply hands_quiet; auto with vfs | intros w a w'; apply law_created]. }
  intros [f [] | f n i | [] | found]; simpl.
  1,4: apply only_ret; intros w _ [Hc [Ha _]] _; split; [done | by apply (Ha Hc)].
  1,3: by apply only_ret.
  all: eapply only_bind; [apply hands_silent; auto with vfs | intros x; by apply only_ret].
Qed.

Lemma hands_ask_in_lookup {A} P d (ask : M A) Q :
  stable P -> (forall a, stable (Q a)) -> hands P ask Q ->
  hands P (ask_in_lookup d ask) (fun r w => forall a, r = Some a -> Q a w).
Proof.
  intros HP HQ Hask. unfold ask_in_lookup.
  apply hands_then; [done | auto with vfs | intros []].
  - by apply only_ret.
  - eapply only_bind; [by apply only_attempt | intros r].
    apply hands_then; [| auto with vfs | intros _].
    { intros w w' Hk Hr a Ha. eapply HQ; eauto. }
    eapply only_bind; [by apply only_lift; intros a w _ Hr E; apply (Hr a E) | intros a].
    apply only_ret. by intros w _ ? b [= <-].
  - eapply only_bind; [exact Hask | intros a]. apply only_ret. by intros w _ ? b [= <-].
Qed.

Lemma hands_ask_open nd how got given :
  nd_mnt nd = mnt -> nd_cred nd = cred -> (forall u, got = Ok u -> writable = true) ->
  hands (fun _ => True) (ask_open nd how got given)
    (fun r w => forall a, r.1 = Ok a -> made_here given a w).
Proof.
  intros Hm Hc Hgot. unfold ask_open. cbv zeta.
  set (how' := set_truncate _ how).
  assert (Ht : how_truncate how' = true -> writable = true).
  { unfold how'. simpl. intros [_ E]%andb_true_iff. destruct got; [eauto | done]. }
  eapply only_bind with (Q := fun r w => askable given r.1 w).
  - destruct (how_create how') eqn:Ecr.
    + eapply only_bind with (Q := fun r w => forall u, r = Ok u -> granted given w).
      { destruct got as [u|e]; [|by apply only_ret].
        eapply only_post; [apply only_attempt with (Q := fun _ => granted given)|].
        - unfold may_o_create. rewrite Hm, Hc. eapply only_bind with (Q := fun _ => granted given).
          + eapply only_post; [by apply only_hook|]. simpl. intros a w _ [_ ?].
            split; [by eapply Hgot | done].
          + intros _. apply hands_quiet; auto with vfs.
        - done. }
      intros [u|e]; apply only_ret; simpl; intros w _ Hg; split; simpl.
      * intros _. by eapply Hg.
      * intros [E _]%andb_true_iff. auto.
      * done.
      * intros [E _]%andb_true_iff. auto.
    + apply only_ret. simpl. intros w _ _. split; [congruence | auto].
  - intros [how2 refused]. simpl.
    eapply only_bind; [| intros r; apply only_ret; intros w _ Hr a; exact (Hr a)].
    apply only_attempt. eapply only_pre; [|apply hands_atomic_open]. simpl.
    by intros w _ [? ?].
Qed.

#[local] Hint Resolve stable_made_here : vfs.

Lemma of_how_created how : FMode.contains (FMode.of_how how) FMode.CREATED = false.
Proof. by destruct how as [[] [] ? ? ? ? ? ? ? ? ?]. Qed.

Lemma with_created_path mode :
  FMode.contains mode FMode.PATH = false ->
  FMode.contains (FMode.with_mode mode FMode.CREATED) FMode.PATH = false.
Proof.
  unfold FMode.contains, FMode.with_mode. rewrite !Z.eqb_neq. intros Hn E. apply Hn.
  rewrite Z.land_lor_distr_l in E. change (Z.land FMode.CREATED FMode.PATH) with 0 in E.
  by rewrite Z.lor_0_r in E.
Qed.

(** What a walk to the last name of an open answers. *)
Definition looked_up (how : OpenHow) (mode : Z) (nd nd' : Nameidata) (child : did) (o : Open) w
  : Prop :=
  carried nd nd' /\ nd_path nd' = Some child /\ FMode.contains (o_mode o) FMode.PATH = false
  /\ opened_ok how child o w.

Lemma hands_lookup_open how mode nd :
  nd_mnt nd = mnt -> nd_cred nd = cred ->
  FMode.contains mode FMode.PATH = false -> FMode.contains mode FMode.CREATED = false ->
  hands (fun _ => True) (lookup_open how mode nd)
    (fun r => looked_up how mode nd r.1.1 r.1.2 r.2).
Proof.
  intros Hm Hc Hp Hcr. unfold lookup_open. rewrite Hm.
  eapply only_bind with (Q := fun got _ => forall u, got = Ok u -> writable = true).
  { case_match; [|by apply only_ret].
    eapply only_post; [apply only_attempt, only_want_write|]. simpl.
    intros got w _ Hg u E. by destruct (Hg u E). }
  intros got. eapply only_pre with (P' := fun _ => (forall u, got = Ok u -> writable = true) /\ True);
    [done|]. apply only_pure. intros Hgot.
  apply hands_then; [auto with vfs | frames | intros held].
  apply hands_holding.
  { intros [[nd' child] o]. repeat (apply stable_and; [by auto with vfs|]). auto with vfs. }
  apply hands_then; [auto with vfs | auto with vfs | intros [|]]; [apply only_fail|].
  apply hands_then; [auto with vfs | auto with vfs | intros given].
  assert (Hask := hands_ask_open nd how got given Hm Hc Hgot).
  assert (Hst : forall r : result FilesystemError AtomicOpen * option FilesystemError,
    stable (fun w => forall a, r.1 = Ok a -> made_here given a w)).
  { intros r w w' Hk Hr a E. eapply stable_made_here; eauto. }
  eapply only_bind.
  { apply only_attempt, hands_ask_in_lookup; [auto with vfs | exact Hst | exact Hask]. }
  intros first. eapply only_bind with (Q := fun r w => forall a, r.1 = Ok a -> made_here given a w).
  { destruct first as [[asked|]|e].
    - apply only_ret. intros w _ Hr. by apply (Hr _ eq_refl).
    - eapply only_pre with (P' := fun _ => True); [done|].
      apply hands_then; [auto with vfs | auto with vfs | intros i].
      case_match; [|exact Hask]. apply only_ret. by intros w _ _ a [= <-].
    - by apply only_ret. }
  intros [[a|e] refused]; simpl; [|destruct e, refused; apply only_fail].
  eapply only_pre with (P' := made_here given a); [by intros w _ Hr; apply Hr|].
  apply hands_then; [auto with vfs | auto with vfs | intros _].
  apply hands_then; [auto with vfs | auto with vfs | intros i].
  case_match; [apply only_fail|].
  set (child := default given (ao_spliced a)).
  set (mode' := if ao_created a then _ else mode).
  assert (Hp' : FMode.contains mode' FMode.PATH = false).
  { unfold mode'. destruct (ao_created a); [by apply with_created_path | done]. }
  eapply only_pre with (P' := made mode' child).
  { intros w _ Ha. unfold made, mode', child. destruct (ao_created a) eqn:E; [|congruence].
    intros _. destruct (Ha E) as [-> ?]. done. }
  eapply only_bind with (Q := fun f w => made mode' child w
    /\ (is_Some f -> judged child (open_access mode' (how_truncate how)) w
          /\ licensed child mode' w)).
  { destruct (ao_file a) as [f|]; [|by apply only_ret; intros; split; [done | intros []]].
    apply hands_then; [apply stable_imp; auto with vfs | auto with vfs | intros k]. simpl.
    rewrite Hm, Hc. eapply only_bind; [apply hands_dentry_open; auto with vfs | intros opened].
    apply only_ret. intros w _ [Hmade Hj]. split; [done|]. intros _. by apply Hj. }
  intros f. apply only_ret. intros w _ [? ?]. simpl.
  split_and!; [by repeat split | done | done | done].
Qed.

Definition last_looked_up (how : OpenHow) (nd : Nameidata) (r : Nameidata * Open) w : Prop :=
  carried nd r.1 /\ FMode.contains (o_mode r.2) FMode.PATH = false
  /\ forall child, nd_path r.1 = Some child -> opened_ok how child r.2 w.

(** A name found is open on nothing, and made by nobody. *)
Lemma found_ok how mode child w :
  FMode.contains mode FMode.CREATED = false -> opened_ok how child (MkOpen None mode) w.
Proof. intros Hcr. split; [unfold made; simpl; congruence | by intros []]. Qed.

Lemma hands_open_last_lookups how mode follow nd0 nd :
  carried nd0 nd -> nd_mnt nd0 = mnt -> nd_cred nd0 = cred ->
  FMode.contains mode FMode.PATH = false -> FMode.contains mode FMode.CREATED = false ->
  hands (fun _ => True) (open_last_lookups how mode follow nd) (last_looked_up how nd0).
Proof.
  intros Hnd Hm Hc Hp Hcr. unfold open_last_lookups. generalize LINKS as links. intros links.
  revert follow nd Hnd.
  assert (Hdots : forall nd, carried nd0 nd -> hands (fun _ => True)
    (let! nd := handle_dots nd in ret (nd, MkOpen None mode)) (last_looked_up how nd0)).
  { intros nd Hnd. eapply only_bind.
    { eapply only_returns; [apply hands_silent, silent_of_quiet; auto with vfs|].
      by apply carries_handle_dots. }
    intros nd'. apply only_ret. intros w _ [Hnd' _]. split_and!; [done..|].
    intros. by apply found_ok. }
  induction links as [|links IH]; intros follow nd Hnd; [apply only_panic|]. simpl.
  destruct (nd_last_type nd); [|by apply Hdots..].
  case_match; [apply only_fail|].
  set (nd1 := if nd_trailing_slash nd then _ else nd).
  assert (Hnd1 : carried nd0 nd1) by (unfold nd1; eauto with carried).
  assert (Hm1 : nd_mnt nd1 = mnt) by (destruct Hnd1; congruence).
  assert (Hc1 : nd_cred nd1 = cred) by (destruct Hnd1 as (?&?&?); congruence).
  apply hands_after; [apply hands_silent, silent_of_quiet; unfold lookup_fast_for_open; frames|].
  intros fast. eapply only_bind with (Q := fun r => looked_up how mode nd1 r.1.1 r.1.2 r.2).
  { destruct fast as [child|]; [|by apply hands_lookup_open].
    apply hands_then; [auto with vfs | auto with vfs | intros i].
    case_match; [apply only_fail|]. apply only_ret. intros w _ _. simpl.
    split_and!; [by repeat split | done | done | by apply found_ok]. }
  intros [[nd2 child] o]. simpl.
  apply only_pure. intros Hnd2. apply only_pure. intros Hpath. apply only_pure. intros Hp2.
  assert (Hnd02 : carried nd0 nd2) by eauto using carried_trans.
  apply hands_then; [auto with vfs | auto with vfs | intros link].
  case_match.
  - apply only_ret. intros w _ Ho. split_and!; [done..|]. simpl. intros c Ec. congruence.
  - eapply only_pre with (P' := fun _ => True); [done|].
    eapply only_bind.
    { eapply only_returns; [apply hands_silent, silent_of_quiet; auto with vfs|].
      by apply carries_pick_link. }
    intros nd3. simpl. apply only_pure. intros Hnd3.
    eapply only_bind.
    { eapply only_returns; [apply hands_silent; auto with vfs|]. by apply carries_link_path_walk. }
    intros nd4. simpl. apply only_pure. intros Hnd4.
    eapply only_pre; [|by apply IH]. done.
Qed.

(** A file that stands only for its path writes nothing. *)
Lemma hands_do_o_path nd op :
  nd_mnt nd = mnt -> nd_cred nd = cred ->
  hands (fun _ => True) (do_o_path nd op) opened.
Proof.
  intros Hm Hc. unfold do_o_path.
  eapply only_bind.
  { eapply only_returns; [apply hands_silent; auto with vfs|]. by apply carries_path_lookupat, carried_refl. }
  intros nd'. simpl. apply only_pure. intros (Em & Ec & _).
  apply hands_after; [apply hands_silent; frames | intros child].
  apply hands_after; [apply hands_silent; auto with vfs | intros k].
  apply hands_after; [apply hands_silent; unfold do_dentry_open; simpl; frames | intros [f kept]].
  rewrite Ec, Hc. eapply only_pre; [|apply hands_file_opened; simpl; congruence].
  intros w _ _ E. by vm_compute in E.
Qed.

(** How to find where a walk starts, on a mount [F] says of. *)
Definition starts_on (F : VfsMount -> Prop) (start : Start) : Prop :=
  silent start /\ returns (fun p => F (p_mnt p)) start.
Definition starts : Start -> Prop := starts_on (fun m => m = mnt).
(** One that may be on another mount, told from this one by its address. *)
Definition starts_beside : Start -> Prop :=
  starts_on (fun m => same_mount mnt m = true -> m = mnt).

Definition walks (F : VfsMount -> Prop) (nd : Nameidata) : Prop :=
  F (nd_mnt nd) /\ nd_cred nd = cred.

Lemma walks_carried F nd nd' : walks F nd -> carried nd nd' -> walks F nd'.
Proof. intros [? ?] (E & E' & _). split; [by rewrite E | by rewrite E']. Qed.

Lemma hands_set_nameidata F start p :
  starts_on F start -> hands (fun _ => True) (set_nameidata cred start p) (fun nd _ => walks F nd).
Proof.
  intros [Hq Hs]. eapply only_post.
  - eapply only_returns; [by apply hands_silent, silent_set_nameidata|].
    unfold set_nameidata.
    eapply returns_bind; [apply returns_any | intros _ _]. case_match; [by apply returns_fail|].
    eapply returns_bind; [exact Hs | intros at_ Hat].
    eapply returns_bind; [apply returns_any | intros k _]. case_match; [by apply returns_fail|].
    eapply returns_bind; [apply returns_any | intros seq _]. apply returns_ret.
    instantiate (1 := walks F). by split.
  - by intros nd w _ [? _].
Qed.

Lemma hands_carries P (step : M Nameidata) F nd :
  silent step -> returns (carried nd) step -> walks F nd ->
  hands P step (fun nd' _ => walks F nd').
Proof.
  intros Hs Hr Hw. eapply only_post; [eapply only_returns; [by apply hands_silent | exact Hr]|].
  intros nd' w _ [? _]. by eapply walks_carried.
Qed.

Lemma hands_path_openat nd op :
  nd_mnt nd = mnt -> nd_cred nd = cred ->
  hands (fun _ => True) (path_openat nd op) opened.
Proof.
  intros Hm Hc. unfold path_openat. cbv zeta.
  destruct (FMode.contains (FMode.of_how (open_flag op)) FMode.PATH) eqn:Hp;
    [by apply hands_do_o_path|].
  eapply only_bind.
  { eapply only_returns; [apply hands_silent; auto with vfs|]. apply carries_link_path_walk.
    apply carried_refl. }
  intros nd1. simpl. apply only_pure. intros Hnd1.
  eapply only_bind.
  { apply hands_open_last_lookups; [exact Hnd1 | done | done | exact Hp | apply of_how_created]. }
  intros [nd2 o]. simpl. apply only_pure. intros Hnd2. apply only_pure. intros Hp2. simpl in *.
  eapply only_bind with (Q := fun child => opened_ok (open_flag op) child o).
  { unfold path. destruct (nd_path nd2) as [c|]; [|apply only_fail].
    apply only_ret. intros w _ Ho. by apply Ho. }
  intros child. destruct Hnd2 as (Em & Ec & _). simpl in *. apply hands_do_open; congruence.
Qed.

Lemma hands_do_file_open start p op :
  starts start -> hands (fun _ => True) (do_file_open cred start p op) opened.
Proof.
  intros Hs. unfold do_file_open. apply hands_counting.
  apply only_reval; [done|]. eapply only_bind; [by apply hands_set_nameidata|].
  intros nd. simpl. eapply only_pre with (P' := fun _ => _ /\ True); [by split; [eassumption|]|].
  apply only_pure. intros [Hm Hc]. by apply hands_path_openat.
Qed.

Lemma hands_filename_parentat F start p :
  starts_on F start ->
  hands (fun _ => True) (filename_parentat cred start p) (fun nd _ => walks F nd).
Proof.
  intros Hs. apply hands_counting. apply only_reval; [done|].
  eapply only_bind; [by apply hands_set_nameidata | intros nd].
  eapply only_pre with (P' := fun _ => walks F nd /\ True); [done|]. apply only_pure. intros Hnd.
  eapply only_bind.
  { apply hands_carries with (nd := nd) (F := F); auto with vfs carried. }
  intros nd'. apply hands_then; [auto with vfs | auto with vfs | intros _]. by apply only_ret.
Qed.

Lemma hands_filename_lookup F start p follow :
  starts_on F start ->
  hands (fun _ => True) (filename_lookup cred start p follow) (fun nd _ => walks F nd).
Proof.
  intros Hs. apply hands_counting. apply only_reval; [done|].
  eapply only_bind; [by apply hands_set_nameidata | intros nd].
  eapply only_pre with (P' := fun _ => walks F nd /\ True); [done|]. apply only_pure. intros Hnd.
  apply hands_carries with (nd := nd) (F := F); auto with vfs carried.
Qed.

Lemma hands_lookup_last_locked nd P F :
  walks F nd -> hands P (lookup_last_locked nd) (fun r _ => walks F r.1).
Proof.
  intros Hnd. unfold lookup_last_locked.
  apply hands_after; [apply hands_silent; auto with vfs | intros d]. by apply only_ret.
Qed.

Lemma hands_filename_create nd b :
  walks (fun m => m = mnt) nd ->
  hands (fun _ => True) (filename_create nd b)
    (fun r _ => walks (fun m => m = mnt) r.1.1 /\ writable = true).
Proof.
  intros Hnd. unfold filename_create. case_match; [apply only_fail|]. rewrite (proj1 Hnd).
  eapply only_bind with (Q := fun got _ => forall u, got = Ok u -> writable = true).
  { eapply only_post; [apply only_attempt, only_want_write|]. simpl.
    intros got w _ Hg u E. by destruct (Hg u E). }
  intros got. apply hands_then; [auto with vfs | auto with vfs | intros held].
  apply hands_keeping.
  eapply only_pre with (P' := fun _ => (forall u, got = Ok u -> writable = true) /\ True); [done|].
  apply only_pure. intros Hgot.
  eapply only_bind; [by apply hands_lookup_last_locked | intros [nd' child]]. simpl.
  apply hands_then; [auto with vfs | auto with vfs | intros i].
  case_match; [apply only_fail|]. case_match; [apply only_fail|].
  eapply only_bind with (Q := fun _ _ => walks (fun m => m = mnt) nd' /\ writable = true).
  - apply only_lift. intros u w _ Hw E. eauto.
  - intros u. by apply only_ret.
Qed.

Lemma hands_start_dirop nd F :
  walks F nd -> hands (fun _ => True) (start_dirop nd) (fun r _ => walks F r.1.1).
Proof.
  intros Hnd. unfold start_dirop. apply hands_then; [auto with vfs | auto with vfs | intros held].
  apply hands_keeping. eapply only_bind; [by apply hands_lookup_last_locked | intros [nd' child]].
  simpl. apply hands_then; [auto with vfs | auto with vfs | intros i]. by apply only_ret.
Qed.

(** *** The calls *)

(** A hook that judges [d], and the change it goes before. *)
Lemma hands_judged {A} hook d (k : M A) :
  (forall m, hook (policy_security m) = path_perm m (MkSecurityPath mnt d) ReadWrite) ->
  writable = true -> hands (granted d) k whatever ->
  hands (fun _ => True) (reads (call_int_hook (security cred) hook) ;;! k) whatever.
Proof.
  intros Hh Hw Hk. eapply only_bind; [by apply only_hook | intros u].
  eapply only_pre; [|exact Hk]. by intros w _ [_ ?].
Qed.

(** What a call that makes a name has found, and one that acts on a walk. *)
Definition creatable (r : Nameidata * guard * did) : Prop :=
  walks (fun m => m = mnt) r.1.1 /\ writable = true.

Lemma hands_reach_new start p b :
  starts start ->
  hands (fun _ => True) (let! nd := filename_parentat cred start p in filename_create nd b)
    (fun r _ => creatable r).
Proof.
  intros Hs. eapply only_known; [by apply hands_filename_parentat | intros nd Hnd].
  by apply hands_filename_create.
Qed.

Lemma hands_filename_symlinkat target start p :
  starts start -> hands (fun _ => True) (filename_symlinkat cred target start p) whatever.
Proof.
  intros Hs. unfold filename_symlinkat. apply hands_then; [auto with vfs | auto with vfs | intros _].
  eapply only_retry; [by apply hands_reach_new|].
  intros [[nd held] child] [[Hm Hc] Hw]. simpl in *. apply hands_hold. rewrite Hm.
  apply hands_judged with (d := child); [done | done | apply hands_vfs_symlink].
Qed.

Lemma hands_filename_mkdirat start p :
  starts start -> hands (fun _ => True) (filename_mkdirat cred start p) whatever.
Proof.
  intros Hs. eapply only_retry; [by apply hands_reach_new|].
  intros [[nd held] child] [[Hm Hc] Hw]. simpl in *. apply hands_hold. rewrite Hm.
  apply hands_judged with (d := child); [done | done | apply hands_vfs_mkdir].
Qed.

Lemma hands_filename_linkat old_start old_path start p follow :
  starts_beside old_start -> starts start ->
  hands (fun _ => True) (filename_linkat cred old_start old_path start p follow) whatever.
Proof.
  intros Ho Hs. unfold filename_linkat.
  eapply only_retry with (F := fun r =>
    walks (fun m => same_mount mnt m = true -> m = mnt) r.1.1 /\ creatable r.2).
  - eapply only_known; [by apply hands_filename_lookup | intros old Hold].
    apply hands_then; [auto with vfs | auto with vfs | intros target].
    eapply only_known; [by apply hands_filename_parentat | intros new Hnew].
    eapply only_known; [by apply hands_filename_create | intros made Hmade].
    by apply only_ret.
  - intros [[old target] [[new held] child]] [[Hom _] [[Hm Hc] Hw]]. simpl in *.
    apply hands_hold. rewrite Hm. unfold same_mount in *.
    case_match eqn:E; [apply only_fail|]. rewrite negb_false_iff, Nat.eqb_sym in E.
    rewrite (Hom E). eapply only_bind; [apply only_link_hook | intros u].
    eapply only_pre; [|apply hands_vfs_link]. by intros w _ (_ & ? & ?).
Qed.

Lemma hands_filename_rmdir start p :
  starts start -> hands (fun _ => True) (filename_rmdir cred start p) whatever.
Proof.
  intros Hs. eapply only_retry; [by apply hands_filename_parentat|].
  intros nd Hnd. destruct (nd_last_type nd); try apply only_fail. rewrite (proj1 Hnd).
  eapply only_bind; [apply only_want_write | intros u]. apply only_pure. intros Hw.
  eapply only_known; [by apply hands_start_dirop | intros [[nd' held] child] [Hm' Hc']].
  apply hands_hold. simpl in *. rewrite Hm'.
  apply hands_judged with (d := child); [done | done | apply hands_vfs_rmdir].
Qed.

Lemma hands_filename_unlinkat start p :
  starts start -> hands (fun _ => True) (filename_unlinkat cred start p) whatever.
Proof.
  intros Hs. eapply only_retry; [by apply hands_filename_parentat|].
  intros nd Hnd. case_match; [apply only_fail|]. rewrite (proj1 Hnd).
  eapply only_bind; [apply only_want_write | intros u]. apply only_pure. intros Hw.
  eapply only_known; [by apply hands_start_dirop | intros [[nd' held] child] [Hm' Hc']].
  apply hands_hold. simpl in *. case_match.
  - apply hands_after; [apply hands_silent; auto with vfs | intros k; apply only_fail].
  - rewrite Hm'. apply hands_judged with (d := child); [done | done | apply hands_vfs_unlink].
Qed.

Lemma hands_vfs_utimes p times :
  p_mnt p = mnt -> hands (fun _ => True) (vfs_utimes cred p times) whatever.
Proof.
  intros Hm. unfold vfs_utimes. rewrite Hm.
  eapply only_bind; [apply only_want_write | intros u]. apply only_pure. intros Hw.
  cbv zeta. apply hands_judged with (d := p_dentry p); [done | done |].
  apply hands_then; [auto with vfs | auto with vfs | intros held].
  apply hands_hold, hands_notify_change.
Qed.

Lemma hands_do_utimes_path start p follow times :
  starts start -> hands (fun _ => True) (do_utimes_path cred start p follow times) whatever.
Proof.
  intros Hs. eapply only_retry; [by apply hands_filename_lookup|].
  intros nd [Hm Hc]. apply hands_then; [auto with vfs | auto with vfs | intros d].
  by apply hands_vfs_utimes.
Qed.

(** *** Renames *)

Lemma kind_ok_names_dir d w k w' :
  kind_ok d w = Some (Ok k, w') -> w' = w /\ names_dir d w = Some (Ok (bool_decide (k = Some Dir))).
Proof.
  unfold kind_ok, names_dir, inode, dentry_at, inode_at, asks, bind.
  destruct (w_dentries w !! d) as [x|]; simpl; [|done].
  destruct (d_inode x) as [i|]; simpl.
  - destruct (w_inodes w !! i) as [n|]; simpl; [|done]. intros [= <- <-]. split; [done|].
    do 2 f_equal. apply bool_decide_ext. split; [by intros -> | by intros [=]].
  - intros [= <- <-]. done.
Qed.

Lemma hands_vfs_rename s rd :
  let old := rd_old_dentry rd in
  let new := rd_new_dentry rd in
  hands (fun w => (granted old w /\ granted new w)
      /\ (names_dir old w = Some (Ok true) -> old <> new -> forall m, ~ judges m))
    (vfs_rename cred s rd) whatever.
Proof.
  intros old new. unfold vfs_rename. fold old new.
  set (P := fun w => granted old w /\ granted new w).
  eapply only_bind with (Q := fun k w =>
    (k = Some Dir -> old <> new -> forall m, ~ judges m) /\ P w).
  { intros w r w' Hi [Hp Hd] Hk.
    destruct r as [k|e]; [|by destruct (hands_silent (fun _ => True) _
      (silent_of_quiet _ (framed_kind_ok quietly old)) w _ w' Hi Logic.I Hk) as (? & ? & _)].
    destruct (kind_ok_names_dir _ _ _ _ Hk) as [-> Hn].
    split_and!; [done | done | intros k' [= <-]]. split; [|done].
    intros ->. rewrite bool_decide_eq_true_2 in Hn by done. auto. }
  intros moving. apply only_pure. intros Hdir.
  assert (HP : stable P) by (apply stable_and; auto with vfs).
  do 2 (apply hands_then; [done | auto with vfs | intros ?]).
  destruct (old =? new)%nat eqn:Ene; simpl; [by apply only_ret|].
  case_match; [by apply only_ret|].
  do 2 (apply hands_then; [done | auto with vfs | intros ?]).
  apply hands_hold.
  do 2 (apply hands_then; [done | auto with vfs | intros ?]).
  apply hands_change; [done | | frames].
  intros w _ [[? ?] [? ?]]. split_and!; [done..|]. intros Ek. apply Hdir.
  - destruct moving as [k|]; simpl in *; congruence.
  - by apply Nat.eqb_neq.
Qed.

Lemma hands_filename_renameat2 start p to to_path :
  starts start -> starts_beside to ->
  hands (fun _ => True) (filename_renameat2 cred start p to to_path) whatever.
Proof.
  intros Hs Ht. unfold filename_renameat2.
  eapply only_retry with (F := fun r => walks (fun m => m = mnt) r.1
    /\ walks (fun m => same_mount mnt m = true -> m = mnt) r.2).
  - eapply only_known; [by apply hands_filename_parentat | intros source Hsource].
    eapply only_known; [by apply hands_filename_parentat | intros target Htarget].
    by apply only_ret.
  - intros [source target] [[Hm Hc] _]. simpl in *. rewrite Hm.
    case_match; [apply only_fail|]. case_match; [apply only_fail|].
    eapply only_bind; [apply only_want_write | intros u]. apply only_pure. intros Hw.
    apply hands_after; [apply hands_silent; auto with vfs | intros rd]. apply hands_hold.
    apply hands_then; [auto with vfs | auto with vfs | intros k]. case_match; [apply only_fail|].
    eapply only_bind; [apply only_rename_hook | intros u'].
    eapply only_pre; [|apply hands_vfs_rename]. simpl. by intros w _ (_ & ? & ? & ?).
Qed.
End Rules.
