(* ===== verification/Tmpfs.v ===== *)
(** A Filesystem held in memory: [filesystem/tmpfs.rs] with [tmpfile.rs],
    [whiteout.rs], [xattr.rs] and [filesystem/path.rs].

    Its objects stand in a [Store] at addresses, as [Arc]s share them: a [Dir],
    a [Content] and a [Whiteout] each counts against its [Tree]'s space until it
    is dropped.  When the last reference goes is the host's to say, so a drop is
    a step of its own ([drop_content], [drop_dir], [drop_whiteout]), which asks
    of each object it lets go of whether it was the last.  A [BTreeMap] is its
    pairs in key order where their order is read, a [gmap] elsewhere. *)
From stdpp Require Import gmap.
From S2P Require Import Prelude Text Locking VfsTypes World Dcache Cred OpenFile.
Local Open Scope vfs_scope.

Abbreviation treeid := nat (only parsing).
Abbreviation dirid := nat (only parsing).
Abbreviation fileid := nat (only parsing).
Abbreviation whiteoutid := nat (only parsing).

(** ** [Budget] *)
Module Budget.
Record Budget := Mk { limit : Z; used : Z }.

(** [usize::MAX] of the host. *)
Definition UNBOUNDED : Z := USIZE_MAX.

Definition new (limit : option Z) : Budget := Mk (default UNBOUNDED limit) 0.

Definition set_limit (limit : option Z) (b : Budget) : Budget :=
  Mk (default UNBOUNDED limit) (used b).

Definition take (amount : Z) (b : Budget) : result FilesystemError unit * Budget :=
  match checked_add (used b) amount with
  | Some total =>
    if total <=? limit b then (Ok tt, Mk (limit b) total) else (Err StorageFull, b)
  | None => (Err StorageFull, b)
  end.

(** [fetch_add] and [fetch_sub], which wrap. *)
Definition add (amount : Z) (b : Budget) : Budget := Mk (limit b) (as_u64 (used b + amount)).
Definition give (amount : Z) (b : Budget) : Budget := Mk (limit b) (as_u64 (used b - amount)).
End Budget.

Record Space := MkSpace { sp_bytes : Budget.Budget; sp_inodes : Budget.Budget }.

Record Tree := MkTree {
  tr_space : Space;
  tr_inodes_follow_limit : bool;
  tr_dev : Z;
  tr_next_ino : Z;
}.

Inductive Node := NFile (data : fileid) | NDirectory (dir : dirid) | NWhiteout (inode : whiteoutid).

#[export] Instance Node_eq_dec : EqDecision Node.
Proof. solve_decision. Defined.

Definition node_file_type (n : Node) : FileType :=
  match n with NFile _ => RegFile | NDirectory _ => Dir | NWhiteout _ => Chrdev end.

Definition is_directory_node (n : Node) : bool :=
  match n with NDirectory _ => true | _ => false end.

(** ** [Times] *)
Record Times := MkTimes { tm_atime : SystemTime; tm_mtime : SystemTime; tm_ctime : SystemTime }.

Definition times_at (now : SystemTime) : Times := MkTimes now now now.
Definition times_touch (now : SystemTime) (t : Times) : Times := MkTimes (tm_atime t) now now.
Definition times_changed (now : SystemTime) (t : Times) : Times :=
  MkTimes (tm_atime t) (tm_mtime t) now.

(** Each clock reading is one its own. *)
Definition times_apply {Fo} (now_a now_m now_c : SystemTime) (a : Iattr Fo) (t : Times) : Times :=
  match ia_atime a, ia_mtime a with
  | None, None => t
  | at_, mt =>
    MkTimes (match at_ with Some set => time_of now_a a set | None => tm_atime t end)
      (match mt with Some set => time_of now_m a set | None => tm_mtime t end)
      (time_of now_c a Now)
  end.

Definition times_report (t : Times) (st : Kstat) : Kstat :=
  with_times (Some (tm_atime t)) (Some (tm_mtime t)) (Some (tm_ctime t)) st.

(** ** [State]: what one directory holds *)
Module State.
Record State := Mk {
  entries : gmap (list byte) Node;
  offsets : list (Z * list byte);
  offset_of : gmap (list byte) Z;
  next_offset : Z;
  subdirectories : Z;
  removed : bool;
  xattrs : gmap (list byte) (list byte);
  times : Times;
}.

Definition new (now : SystemTime) : State := Mk ∅ [] ∅ 2 0 false ∅ (times_at now).

(** The offsets' [BTreeMap]: [insert], [remove], and the first of [range(pos..)]. *)
Fixpoint offset_insert (k : Z) (v : list byte) (l : list (Z * list byte)) : list (Z * list byte) :=
  match l with
  | [] => [(k, v)]
  | (k', v') :: rest =>
    if k <? k' then (k, v) :: l
    else if k =? k' then (k, v) :: rest
    else (k', v') :: offset_insert k v rest
  end.

Definition offset_remove (k : Z) (l : list (Z * list byte)) : list (Z * list byte) :=
  List.filter (fun e => negb (e.1 =? k)) l.

Definition offset_range (pos : Z) (l : list (Z * list byte)) : option (Z * list byte) :=
  List.find (fun e => pos <=? e.1) l.

Definition counted (n : option Node) : Z :=
  match n with Some n => if is_directory_node n then 1 else 0 | None => 0 end.

Definition forget_offset (name : list byte) (s : State) : State :=
  match offset_of s !! name with
  | Some offset =>
    Mk (entries s) (offset_remove offset (offsets s)) (delete name (offset_of s))
      (next_offset s) (subdirectories s) (removed s) (xattrs s) (times s)
  | None => s
  end.

Definition with_entries (e : gmap (list byte) Node) (sub : Z) (s : State) : State :=
  Mk e (offsets s) (offset_of s) (next_offset s) sub (removed s) (xattrs s) (times s).

Definition with_next (name : list byte) (s : State) : State :=
  Mk (entries s) (offset_insert (next_offset s) name (offsets s))
    (<[name := next_offset s]> (offset_of s)) (as_u64 (next_offset s + 1))
    (subdirectories s) (removed s) (xattrs s) (times s).

(** [hold], answering what stood there. *)
Definition hold (name : list byte) (node : Node) (s : State) : State * option Node :=
  let sub := as_u64 (subdirectories s + counted (Some node)) in
  let replaced := entries s !! name in
  let s := with_entries (<[name := node]> (entries s)) (as_u64 (sub - counted replaced)) s in
  (with_next name (forget_offset name s), replaced).

(** [entry_from]. *)
Definition entry_from (pos : Z) (s : State) : option (Z * list byte * Node) :=
  e ← offset_range pos (offsets s);
  n ← entries s !! e.2;
  Some (e.1, e.2, n).

(** [take]'s change, but for the times. *)
Definition let_go (name : list byte) (s : State) : State :=
  forget_offset name
    (with_entries (delete name (entries s))
      (as_u64 (subdirectories s - counted (entries s !! name))) s).

Definition with_state_times (t : Times) (s : State) : State :=
  Mk (entries s) (offsets s) (offset_of s) (next_offset s) (subdirectories s) (removed s)
    (xattrs s) t.
Definition with_removed (s : State) : State :=
  Mk (entries s) (offsets s) (offset_of s) (next_offset s) (subdirectories s) true
    (xattrs s) (times s).
Definition with_xattr (name value : list byte) (s : State) : State :=
  Mk (entries s) (offsets s) (offset_of s) (next_offset s) (subdirectories s) (removed s)
    (<[name := value]> (xattrs s)) (times s).
End State.

Record DirInode := MkDir { dir_ino : Z; dir_tree : treeid; dir_state : State.State }.

Record Content := MkContent {
  c_bytes : list byte;
  c_tree : treeid;
  c_times : Times;
  c_dev : Z;
  c_ino : Z;
  c_names : Z;
}.

(** Every object alive, what the next device is, and the allocator's answers. *)
Record Store := MkStore {
  trees : gmap treeid Tree;
  dirs : gmap dirid DirInode;
  files : gmap fileid Content;
  whiteouts : gmap whiteoutid treeid;
  next_object : nat;
  next_device : Z;
  can_reserve : nat -> bool;
  reserved : nat;
}.

(** ** The tables a Tmpfs hangs from its inodes *)

(** [Tmpfs] itself answers for a directory, [TmpfsRegular] for a file and
    [TmpfsWhiteout] for a whiteout. *)
Inductive TmpfsInode :=
| TmpfsDirectory (tree : treeid) (dir : dirid)
| TmpfsRegular (data : fileid)
| TmpfsWhiteout.

(** [TmpfsDir] and [TmpfsFile] open, and [EmptyFops] of the VFS. *)
Inductive TmpfsOpen :=
| TmpfsDir (dir : dirid) (dev : Z)
| TmpfsFile (data : fileid)
| EmptyFops.

(** Where a Filesystem's state and operations are Tmpfs's among others', as
    [Arc<dyn InodeOperations>] holds any of them, and an [Any] tells which. *)
Class TmpfsIn (T : FsTypes) := {
  tm_store : FsState -> Store;
  tm_set_store : Store -> FsState -> FsState;
  tm_inode : TmpfsInode -> InodeOps;
  tm_downcast : InodeOps -> option TmpfsInode;
  tm_dentry : DentryOps;
}.

#[export] Instance tmpfs_types : FsTypes := {|
  FsState := Store;
  InodeOps := TmpfsInode;
  DentryOps := unit;
  FileOps := TmpfsOpen;
  Lru := list did;
  Blob := unit;
|}.

#[export] Instance tmpfs_alone : TmpfsIn tmpfs_types := {|
  tm_store s := s;
  tm_set_store s _ := s;
  tm_inode o := o;
  tm_downcast := Some;
  tm_dentry := tt;
|}.

Record Tmpfs := MkTmpfs { t_tree : treeid; t_dir : dirid }.

Section Operations.
Context {T : FsTypes} `{HT : !TmpfsIn T}.

(** *** Objects at addresses *)
Definition store : M Store := asks (fun w => Some (tm_store (w_fs w))).
Definition on_store (f : Store -> Store) : M unit := modify (fun w => set_fs (tm_set_store (f (tm_store (w_fs w))) (w_fs w)) w).

Definition with_trees (x : gmap treeid Tree) (s : Store) : Store :=
  MkStore x (dirs s) (files s) (whiteouts s) (next_object s) (next_device s) (can_reserve s)
    (reserved s).
Definition with_dirs (x : gmap dirid DirInode) (s : Store) : Store :=
  MkStore (trees s) x (files s) (whiteouts s) (next_object s) (next_device s) (can_reserve s)
    (reserved s).
Definition with_files (x : gmap fileid Content) (s : Store) : Store :=
  MkStore (trees s) (dirs s) x (whiteouts s) (next_object s) (next_device s) (can_reserve s)
    (reserved s).
Definition with_whiteouts (x : gmap whiteoutid treeid) (s : Store) : Store :=
  MkStore (trees s) (dirs s) (files s) x (next_object s) (next_device s) (can_reserve s)
    (reserved s).
Definition with_next_object (x : nat) (s : Store) : Store :=
  MkStore (trees s) (dirs s) (files s) (whiteouts s) x (next_device s) (can_reserve s)
    (reserved s).
Definition with_next_device (x : Z) (s : Store) : Store :=
  MkStore (trees s) (dirs s) (files s) (whiteouts s) (next_object s) x (can_reserve s)
    (reserved s).
Definition with_reserved (x : nat) (s : Store) : Store :=
  MkStore (trees s) (dirs s) (files s) (whiteouts s) (next_object s) (next_device s)
    (can_reserve s) x.

Definition tree_at (t : treeid) : M Tree := asks (fun w => trees (tm_store (w_fs w)) !! t).
Definition dir_at (d : dirid) : M DirInode := asks (fun w => dirs (tm_store (w_fs w)) !! d).
Definition file_at (f : fileid) : M Content := asks (fun w => files (tm_store (w_fs w)) !! f).
Definition state_of (d : dirid) : M State.State := let! x := dir_at d in ret (dir_state x).

Definition on_tree (t : treeid) (f : Tree -> Tree) : M unit :=
  on_store (fun s => with_trees (alter f t (trees s)) s).
Definition on_state (d : dirid) (f : State.State -> State.State) : M unit :=
  on_store (fun s =>
    with_dirs (alter (fun x => MkDir (dir_ino x) (dir_tree x) (f (dir_state x))) d (dirs s)) s).
Definition on_file (f : fileid) (g : Content -> Content) : M unit :=
  on_store (fun s => with_files (alter g f (files s)) s).

(** An address nothing had. *)
Definition new_object : M nat :=
  let! s := store in
  on_store (with_next_object (S (next_object s))) ;;! ret (next_object s).

Definition with_space (f : Space -> Space) (t : Tree) : Tree :=
  MkTree (f (tr_space t)) (tr_inodes_follow_limit t) (tr_dev t) (tr_next_ino t).
Definition with_bytes (f : Budget.Budget -> Budget.Budget) : Tree -> Tree :=
  with_space (fun s => MkSpace (f (sp_bytes s)) (sp_inodes s)).
Definition with_inodes (f : Budget.Budget -> Budget.Budget) : Tree -> Tree :=
  with_space (fun s => MkSpace (sp_bytes s) (f (sp_inodes s))).

(** [space.bytes.take] and [space.inodes.take]. *)
Definition take_bytes (t : treeid) (amount : Z) : M unit :=
  let! tree := tree_at t in
  let '(r, b) := Budget.take amount (sp_bytes (tr_space tree)) in
  on_tree t (with_bytes (fun _ => b)) ;;! lift r.
Definition take_inode (t : treeid) : M unit :=
  let! tree := tree_at t in
  let '(r, b) := Budget.take 1 (sp_inodes (tr_space tree)) in
  on_tree t (with_inodes (fun _ => b)) ;;! lift r.
Definition give_bytes (t : treeid) (amount : Z) : M unit := on_tree t (with_bytes (Budget.give amount)).
Definition give_inode (t : treeid) : M unit := on_tree t (with_inodes (Budget.give 1)).

(** [next_ino.fetch_add(1)]. *)
Definition take_ino (t : treeid) : M Z :=
  let! tree := tree_at t in
  on_tree t (fun x =>
    MkTree (tr_space x) (tr_inodes_follow_limit x) (tr_dev x) (as_u64 (tr_next_ino x + 1))) ;;!
  ret (tr_next_ino tree).

(** [Kstat::unique_device]. *)
Definition unique_device : M Z :=
  let! s := store in
  on_store (with_next_device (as_u64 (next_device s + 1))) ;;!
  ret (Z.lor (Z.shiftl 1 63) (next_device s)).

(** *** [Dir] and [Content] *)
Definition dir_new (ino : Z) (t : treeid) : M dirid :=
  let! t0 := now in
  let! d := new_object in
  on_store (fun s => with_dirs (<[d := MkDir ino t (State.new t0)]> (dirs s)) s) ;;!
  ret d.

Definition BOGO_DIRENT_SIZE : Z := 20.

Definition dir_getattr (d : dirid) (dev : Z) : M Kstat :=
  let! x := dir_at d in
  let s := dir_state x in
  let size := as_u64 ((2 + Z.of_nat (size (State.entries s))) * BOGO_DIRENT_SIZE) in
  let nlink := if State.removed s then 0 else as_u64 (2 + State.subdirectories s) in
  ret (times_report (State.times s)
    (with_nlink nlink (with_identity dev (dir_ino x) (kstat_new Dir size)))).

(** [Dir::get]. *)
Definition dir_get (d : dirid) (n : list byte) : M Node :=
  let! s := state_of d in
  match State.entries s !! n with
  | Some node => ret node
  | None => fail NotFound
  end.

Definition content_new (bytes : list byte) (t : treeid) : M fileid :=
  let! t0 := now in
  let! tree := tree_at t in
  let! ino := take_ino t in
  let! f := new_object in
  on_store (fun s =>
    with_files (<[f := MkContent bytes t (times_at t0) (tr_dev tree) ino 1]> (files s)) s) ;;!
  ret f.

Definition content_seed (bytes : list byte) (t : treeid) : M fileid :=
  on_tree t (with_bytes (Budget.add (len bytes))) ;;!
  on_tree t (with_inodes (Budget.add 1)) ;;!
  content_new bytes t.

Definition content_create (t : treeid) : M fileid := take_inode t ;;! content_new [] t.

Definition content_getattr (f : fileid) : M Kstat :=
  let! c := file_at f in
  ret (times_report (c_times c)
    (with_nlink (c_names c) (with_identity (c_dev c) (c_ino c)
      (kstat_new RegFile (len (c_bytes c)))))).

Definition with_c_bytes (b : list byte) (c : Content) : Content :=
  MkContent b (c_tree c) (c_times c) (c_dev c) (c_ino c) (c_names c).
Definition with_c_times (t : Times) (c : Content) : Content :=
  MkContent (c_bytes c) (c_tree c) t (c_dev c) (c_ino c) (c_names c).
Definition with_c_names (n : Z) (c : Content) : Content :=
  MkContent (c_bytes c) (c_tree c) (c_times c) (c_dev c) (c_ino c) n.

(** [try_reserve_exact], whose answer is the allocator's. *)
Definition try_reserve : M bool :=
  let! s := store in
  on_store (with_reserved (S (reserved s))) ;;! ret (can_reserve s (reserved s)).

(** [Vec::resize(len, 0)]. *)
Definition resized (n : Z) (b : list byte) : list byte :=
  firstn (Z.to_nat n) b ++ replicate (Z.to_nat (n - len b)) x00.

Definition resize (f : fileid) (n : Z) : M unit :=
  let! c := file_at f in
  let growth := saturating_sub n (len (c_bytes c)) in
  (if 0 <? growth then
     take_bytes (c_tree c) growth ;;!
     let! got := try_reserve in
     if got : bool then ret tt
     else give_bytes (c_tree c) growth ;;! fail StorageFull
   else ret tt) ;;!
  give_bytes (c_tree c) (saturating_sub (len (c_bytes c)) n) ;;!
  on_file f (fun c => with_c_bytes (resized n (c_bytes c)) c).

(** *** [Node]

    The state of the directory [held] is locked: locking it again never
    returns. *)
Definition unless_held (held : dirid) (d : dirid) {A} (m : M A) : M A :=
  if (d =? held)%nat then panic else m.

Definition drop_name (held : dirid) (n : Node) : M unit :=
  match n with
  | NFile f => on_file f (with_c_names 0)
  | NDirectory d => unless_held held d (on_state d State.with_removed)
  | NWhiteout _ => ret tt
  end.

Definition touch_changed (held : dirid) (n : Node) : M unit :=
  let! t := now in
  match n with
  | NFile f => on_file f (fun c => with_c_times (times_changed t (c_times c)) c)
  | NDirectory d =>
    unless_held held d (on_state d (fun s =>
      State.with_state_times (times_changed t (State.times s)) s))
  | NWhiteout _ => ret tt
  end.

Definition node_dir_entry (n : list byte) (dev : Z) (node : Node) : M DirEntry :=
  let entry := dir_entry_new n (node_file_type node) in
  match node with
  | NFile f => let! c := file_at f in ret (dir_entry_with_identity (c_dev c) (c_ino c) entry)
  | NDirectory d => let! x := dir_at d in ret (dir_entry_with_identity dev (dir_ino x) entry)
  | NWhiteout _ => ret entry
  end.

(** *** [State]'s changes, of the directory locked *)
Definition touch_dir (d : dirid) : M unit :=
  let! t := now in
  on_state d (fun s => State.with_state_times (times_touch t (State.times s)) s).

Definition hold (d : dirid) (n : list byte) (node : Node) : M (option Node) :=
  let! s := state_of d in
  on_state d (fun _ => (State.hold n node s).1) ;;! ret (State.hold n node s).2.

Definition insert (d : dirid) (n : list byte) (node : Node) : M unit :=
  touch_changed d node ;;!
  let! replaced := hold d n node in
  match replaced with
  | Some replaced => drop_name d replaced ;;! touch_changed d replaced
  | None => ret tt
  end ;;!
  touch_dir d.

Definition exchange (d : dirid) (n : list byte) (node : Node) : M unit :=
  touch_changed d node ;;! hold d n node ;;! touch_dir d.

Definition take (d : dirid) (n : list byte) : M unit :=
  on_state d (State.let_go n) ;;! touch_dir d.

Definition remove (d : dirid) (n : list byte) : M unit :=
  let! s := state_of d in
  match State.entries s !! n with
  | Some removed => drop_name d removed ;;! touch_changed d removed
  | None => ret tt
  end ;;!
  take d n.

(** ** [Tmpfs] as a Host App makes one *)
Definition PAGE : Z := 4096.
Definition DEFAULT_SIZE : Z := 64 * 1024 * 1024.

Definition inodes_for (bytes : option Z) : option Z :=
  (fun bytes => saturating_add ((bytes + (PAGE - 1)) / PAGE) 1) <$> bytes.

Definition tmpfs_new : M Tmpfs :=
  let! dev := unique_device in
  let! t := new_object in
  on_store (fun s => with_trees (<[t :=
    MkTree (MkSpace (Budget.new (Some DEFAULT_SIZE))
        (Budget.add 1 (Budget.new (inodes_for (Some DEFAULT_SIZE)))))
      true dev 2]> (trees s)) s) ;;!
  let! d := dir_new 1 t in
  ret (MkTmpfs t d).

(** [new_directory] of a Tmpfs. *)
Definition new_directory (t : treeid) : M dirid :=
  let! ino := take_ino t in dir_new ino t.

Definition with_size (size : option Z) (fs : Tmpfs) : M unit :=
  on_tree (t_tree fs) (with_bytes (Budget.set_limit size)) ;;!
  on_tree (t_tree fs) (fun x =>
    if tr_inodes_follow_limit x then with_inodes (Budget.set_limit (inodes_for size)) x else x).

Definition with_nr_inodes (nr : option Z) (fs : Tmpfs) : M unit :=
  on_tree (t_tree fs) (with_inodes (Budget.set_limit nr)) ;;!
  on_tree (t_tree fs) (fun x => MkTree (tr_space x) false (tr_dev x) (tr_next_ino x)).

(** *** [filesystem/path.rs] *)

(** The last name of a path, every directory above it outermost first, and a
    seed's form, by the names between its slashes. *)
Definition path_name (path : list byte) : list byte :=
  List.last (split_byte slash path) [].

Fixpoint prefixes {A} (l : list A) : list (list A) :=
  match l with
  | [] => [[]]
  | x :: l => [] :: map (cons x) (prefixes l)
  end.

Definition path_ancestors (path : list byte) : list (list byte) :=
  let parts := split_byte slash path in
  map (join slash) (List.filter (fun l => negb (Nat.eqb (length l) 0))
    (prefixes (removelast parts))).

Definition normalize_seed (path : list byte) : list byte :=
  join slash (List.filter (fun c => negb (Nat.eqb (length c) 0) && negb (str_eq c (lit ".")))
    (split_byte slash path)).

Inductive SeedError :=
| SeedRoot
| Twice (path : list byte)
| FileAndDirectory (path : list byte)
| SeedDotDot (path : list byte).

(** The directory above a seeded file, each on the way made where nothing
    stands. *)
Fixpoint seed_above (t : treeid) (d : dirid) (above : list (list byte)) : M (SeedError + dirid) :=
  match above with
  | [] => ret (inr d)
  | path :: above =>
    let! s := state_of d in
    let! next :=
      match State.entries s !! path_name path with
      | Some node => ret node
      | None =>
        on_tree t (with_inodes (Budget.add 1)) ;;!
        let! made := new_directory t in
        hold d (path_name path) (NDirectory made) ;;! ret (NDirectory made)
      end in
    match next with
    | NDirectory inner => seed_above t inner above
    | NFile _ | NWhiteout _ => ret (inl (FileAndDirectory path))
    end
  end.

Fixpoint seed_files (fs : Tmpfs) (seeds : list (list byte * list byte)) : M (option SeedError) :=
  match seeds with
  | [] => ret None
  | (given, contents) :: seeds =>
    let path := normalize_seed given in
    if len path =? 0 then ret (Some SeedRoot)
    else if existsb (fun n => str_eq n (lit "..")) (split_byte slash path)
    then ret (Some (SeedDotDot path))
    else
      let! above := seed_above (t_tree fs) (t_dir fs) (path_ancestors path) in
      match above with
      | inl refused => ret (Some refused)
      | inr d =>
        let! s := state_of d in
        match State.entries s !! path_name path with
        | Some (NDirectory _) => ret (Some (FileAndDirectory path))
        | Some (NFile _ | NWhiteout _) => ret (Some (Twice path))
        | None =>
          let! data := content_seed contents (t_tree fs) in
          hold d (path_name path) (NFile data) ;;!
          seed_files fs seeds
        end
      end
  end.

(** [try_from_iter]. *)
Definition try_from_iter (seeds : list (list byte * list byte)) : M (SeedError + Tmpfs) :=
  let! fs := tmpfs_new in
  let! refused := seed_files fs seeds in
  ret (match refused with Some e => inl e | None => inr fs end).

(** ** What answers for an inode *)

Definition tree_dev (t : treeid) : M Z := let! x := tree_at t in ret (tr_dev x).

Definition node_getattr (t : treeid) (n : Node) : M Kstat :=
  match n with
  | NFile f => content_getattr f
  | NDirectory d => let! dev := tree_dev t in dir_getattr d dev
  | NWhiteout _ => ret (kstat_new Chrdev 0)
  end.

Definition inode_of (t : treeid) (n : Node) : M iid :=
  let! st := node_getattr t n in
  inode_new st (tm_inode (match n with
                          | NDirectory d => TmpfsDirectory t d
                          | NFile f => TmpfsRegular f
                          | NWhiteout _ => TmpfsWhiteout
                          end)).

Definition make (t : treeid) (dir : dirid) (d : did) (n : Node) : M unit :=
  let! called := name d in
  insert dir called n ;;!
  let! i := inode_of t n in
  add d (Some i).

(** [fill_super]; the root's inode answers through the Tmpfs itself. *)
Definition fill_super (fs : Tmpfs) `{!LruCache} `{!VfsTables T} (s : sbid) : M unit :=
  set_default_d_op s tm_dentry ;;!
  set_dontcache s ;;!
  let! dev := tree_dev (t_tree fs) in
  let! st := dir_getattr (t_dir fs) dev in
  let! i := inode_new st (tm_inode (TmpfsDirectory (t_tree fs) (t_dir fs))) in
  d_make_root s i.

(** *** A directory *)
Definition tmpfs_getattr (t : treeid) (dir : dirid) : M Kstat :=
  let! dev := tree_dev t in dir_getattr dir dev.

Definition apply_times (a : Iattr FileOps) (t : Times) : M Times :=
  let! now_a := now in
  let! now_m := now in
  let! now_c := now in
  ret (times_apply now_a now_m now_c a t).

Definition tmpfs_setattr (dir : dirid) (a : Iattr FileOps) : M unit :=
  let! s := state_of dir in
  let! t := apply_times a (State.times s) in
  on_state dir (State.with_state_times t).

Definition tmpfs_lookup (t : treeid) (dir : dirid) (d : did) : M Lookup :=
  let! called := name d in
  if NAME_MAX <? len called then fail InvalidFilename
  else
    let! got := attempt (dir_get dir called) in
    match got with
    | Ok node => let! i := inode_of t node in ret (Found i)
    | Err NotFound => ret Absent
    | Err e => fail e
    end.

Definition tmpfs_create (t : treeid) (dir : dirid) (d : did) : M unit :=
  let! data := content_create t in make t dir d (NFile data).

Definition tmpfs_open (t : treeid) (dir : dirid) : M TmpfsOpen :=
  let! dev := tree_dev t in ret (TmpfsDir dir dev).

Definition tmpfs_mkdir (t : treeid) (dir : dirid) (d : did) : M unit :=
  take_inode t ;;!
  let! made := new_directory t in
  make t dir d (NDirectory made).

(** Whether a directory holds an entry, its state locked beside [held]'s. *)
Definition holds_any (d : dirid) : M bool :=
  let! s := state_of d in ret (negb (bool_decide (State.entries s = ∅))).

Definition tmpfs_rmdir (dir : dirid) (d : did) : M unit :=
  let! called := name d in
  let! s := state_of dir in
  let! full :=
    match State.entries s !! called with
    | Some (NDirectory removed) => unless_held dir removed (holds_any removed)
    | _ => ret false
    end in
  if full : bool then fail DirectoryNotEmpty else remove dir called.

Definition tmpfs_unlink (dir : dirid) (d : did) : M unit :=
  let! called := name d in remove dir called.

(** *** [whiteout.rs] and [xattr.rs] *)
Definition new_whiteout (t : treeid) : M Node :=
  take_inode t ;;!
  let! w := new_object in
  on_store (fun s => with_whiteouts (<[w := t]> (whiteouts s)) s) ;;!
  ret (NWhiteout w).

Definition is_whiteout (dir : dirid) (n : list byte) : M bool :=
  let! got := attempt (dir_get dir n) in
  ret (match got with Ok (NWhiteout _) => true | _ => false end).

Definition whiteout (t : treeid) (dir : dirid) (n : list byte) : M unit :=
  let! w := new_whiteout t in insert dir n w.

Definition rename_at (t : treeid) (from_dir : dirid) (from : list byte) (to_dir : dirid)
    (to : list byte) (flag : option RenameFlag) : M unit :=
  let! moving := dir_get from_dir from in
  let! replaced := attempt (dir_get to_dir to) in
  if bool_decide (flag = Some Exchange) then
    match replaced with
    | Err _ => fail NotFound
    | Ok replaced => exchange from_dir from replaced ;;! exchange to_dir to moving
    end
  else
    let! full :=
      match replaced with
      | Ok (NDirectory d) => holds_any d
      | _ => ret false
      end in
    if full : bool then fail DirectoryNotEmpty
    else
      match flag with
      | Some Whiteout => let! made := new_whiteout t in exchange from_dir from made
      | _ => take from_dir from
      end ;;!
      insert to_dir to moving.

(** The directory renamed into is downcast to a Tmpfs. *)
Definition tmpfs_rename (t : treeid) (dir : dirid) (from : did) (to_dir : InodeOps) (to : did)
    (flag : option RenameFlag) : M unit :=
  match tm_downcast to_dir with
  | Some (TmpfsDirectory _ target) =>
    let! from := name from in
    let! to := name to in
    rename_at t dir from target to flag
  | _ => fail CrossesDevices
  end.

Definition getxattr (dir : dirid) (n : list byte) : M (option (list byte)) :=
  let! s := state_of dir in ret (State.xattrs s !! n).
Definition setxattr (dir : dirid) (n value : list byte) : M unit :=
  on_state dir (State.with_xattr n value).

(** *** [tmpfile.rs] *)
Definition tmpfile (t : treeid) : M fileid := content_create t.
Definition tmpfile_link (dir : dirid) (data : fileid) (n : list byte) : M unit :=
  insert dir n (NFile data).

(** *** A file *)
Definition regular_apply_times (f : fileid) (a : Iattr FileOps) : M unit :=
  let! c := file_at f in
  let! t := apply_times a (c_times c) in
  on_file f (with_c_times t).

Definition regular_setattr (f : fileid) (a : Iattr FileOps) : M unit :=
  match ia_size a with
  | Some n => if n <=? USIZE_MAX then resize f n else fail InvalidInput
  | None => ret tt
  end ;;!
  regular_apply_times f a.

(** [write] at [start] of the bytes locked. *)
Definition spliced (start : Z) (buf bytes : list byte) : list byte :=
  firstn (Z.to_nat start) bytes ++ buf ++ skipn (Z.to_nat (start + len buf)) bytes.

Definition file_write (f : fileid) (buf : list byte) (start : Z) : M Z :=
  if len buf =? 0 then ret 0
  else
    match checked_add start (len buf) with
    | None => fail InvalidInput
    | Some end_ =>
      let! c := file_at f in
      (if len (c_bytes c) <? end_ then resize f end_ else ret tt) ;;!
      on_file f (fun c => with_c_bytes (spliced start buf (c_bytes c)) c) ;;!
      let! t := now in
      on_file f (fun c => with_c_times (times_touch t (c_times c)) c) ;;!
      ret (len buf)
    end.

Definition file_read_iter (f : fileid) (iocb : Kiocb) (buf : list byte)
  : M (Kiocb * Z * list byte) :=
  let! c := file_at f in
  let data := c_bytes c in
  let start := Z.min (ki_pos iocb) (len data) in
  let n := Z.min (len buf) (len data - start) in
  let got := firstn (Z.to_nat n) (skipn (Z.to_nat start) data) in
  ret (MkKiocb (as_u64 (ki_pos iocb + n)) (ki_append iocb) (ki_dsync iocb) (ki_sync iocb), n,
    got ++ skipn (Z.to_nat n) buf).

Definition tmpfs_fsync (_ : bool) : M unit := ret tt.

Definition file_write_iter (f : fileid) (iocb : Kiocb) (buf : list byte) : M (Kiocb * Z) :=
  let! c := file_at f in
  let start := if ki_append iocb then len (c_bytes c) else ki_pos iocb in
  let! written := file_write f buf start in
  let iocb := MkKiocb (start + written) (ki_append iocb) (ki_dsync iocb) (ki_sync iocb) in
  let! n := generic_write_sync tmpfs_fsync iocb written in
  ret (iocb, n).

Definition file_fallocate (f : fileid) (offset n : Z) : M unit :=
  let end_ := as_u64 (offset + n) in
  let! c := file_at f in
  (if len (c_bytes c) <? end_ then resize f end_ else ret tt) ;;!
  let! t := now in
  on_file f (fun c => with_c_times (times_touch t (c_times c)) c).

(** *** A directory open *)

(** [iterate_shared]'s loop goes past one name each turn, so as many turns as
    the directory holds names reach its end, and one more answers it. *)
Fixpoint readdir_turns (turns : nat) (dir : dirid) (dev : Z) (c : DirContext) : M DirContext :=
  match turns with
  | O => panic
  | S turns =>
    let! s := state_of dir in
    match State.entry_from (ctx_pos c) s with
    | None => ret c
    | Some (offset, n, node) =>
      let! entry := node_dir_entry n dev node in
      let '(on, c) := dir_emit entry (ctx_set_pos offset c) in
      if negb on then ret c else readdir_turns turns dir dev (ctx_set_pos (as_u64 (offset + 1)) c)
    end
  end.

Definition dir_iterate_shared (dir : dirid) (dev : Z) (d : did) (c : DirContext)
  : M (result FilesystemError unit * DirContext) :=
  let! (on, c) := dir_emit_dots d c in
  if negb on then ret (Ok tt, c)
  else
    let! s := state_of dir in
    let! c := readdir_turns (S (length (State.offsets s))) dir dev c in
    ret (Ok tt, c).

(** *** The tables *)
Definition tmpfs_dentry_revalidate (o : TmpfsInode) (d : did) : M bool :=
  match o with
  | TmpfsDirectory t dir =>
    let! called := name d in
    let! found := attempt (dir_get dir called) in
    let! i := inode d in
    match i with
    | None => ret (match found with Ok _ => false | Err _ => true end)
    | Some i =>
      let! x := inode_at i in
      match i_identity x with
      | None => ret true
      | Some recorded =>
        match found with
        | Ok node =>
          let! st := node_getattr t node in
          ret (bool_decide (identity_of st = Some recorded))
        | Err _ => ret false
        end
      end
    end
  | _ => ret true
  end.

Definition tm_getattr (o : TmpfsInode) (d : did) : M Kstat :=
  match o with
  | TmpfsDirectory t dir => tmpfs_getattr t dir
  | TmpfsRegular f => content_getattr f
  | TmpfsWhiteout => ret (kstat_new Chrdev 0)
  end.
Definition tm_setattr (o : TmpfsInode) (d : did) (a : Iattr FileOps) : M unit :=
  match o with
  | TmpfsDirectory t dir => tmpfs_setattr dir a
  | TmpfsRegular f => regular_setattr f a
  | TmpfsWhiteout => default_setattr d a
  end.
Definition tm_lookup (o : TmpfsInode) (d : did) : M Lookup :=
  match o with TmpfsDirectory t dir => tmpfs_lookup t dir d | _ => default_lookup d end.
Definition tm_open (o : TmpfsInode) (d : did) (how : OpenHow) : M TmpfsOpen :=
  match o with
  | TmpfsDirectory t dir => tmpfs_open t dir
  | TmpfsRegular f => ret (TmpfsFile f)
  | TmpfsWhiteout => ret EmptyFops
  end.
Definition tm_create (o : TmpfsInode) (d : did) : M unit :=
  match o with TmpfsDirectory t dir => tmpfs_create t dir d | _ => default_create d end.
Definition tm_atomic_open (o : TmpfsInode) (d : did) (how : OpenHow) : M Finish :=
  match o with
  | TmpfsDirectory t dir => default_atomic_open (tmpfs_lookup t dir) (tmpfs_create t dir) d how
  | _ => default_atomic_open default_lookup default_create d how
  end.
Definition tm_mkdir (o : TmpfsInode) (d : did) : M unit :=
  match o with TmpfsDirectory t dir => tmpfs_mkdir t dir d | _ => default_mkdir d end.
Definition tm_rmdir (o : TmpfsInode) (d : did) : M unit :=
  match o with TmpfsDirectory t dir => tmpfs_rmdir dir d | _ => default_rmdir d end.
Definition tm_unlink (o : TmpfsInode) (d : did) : M unit :=
  match o with TmpfsDirectory t dir => tmpfs_unlink dir d | _ => default_unlink d end.
Definition tm_rename (o : TmpfsInode) (from : did) (to_dir : InodeOps) (to : did)
    (flag : option RenameFlag) : M unit :=
  match o with
  | TmpfsDirectory t dir => tmpfs_rename t dir from to_dir to flag
  | _ => default_rename from to_dir to flag
  end.

Definition tm_read_iter (f : TmpfsOpen) : Kiocb -> list byte -> M (Kiocb * Z * list byte) :=
  match f with
  | TmpfsDir _ _ => fun iocb buf => let! n := lift generic_read_dir in ret (iocb, n, buf)
  | TmpfsFile f => file_read_iter f
  | EmptyFops => default_read_iter
  end.
Definition tm_write_iter (f : TmpfsOpen) : Kiocb -> list byte -> M (Kiocb * Z) :=
  match f with TmpfsFile f => file_write_iter f | _ => default_write_iter end.
Definition tm_iterate_shared (f : TmpfsOpen)
  : did -> DirContext -> M (result FilesystemError unit * DirContext) :=
  match f with TmpfsDir dir dev => dir_iterate_shared dir dev | _ => default_iterate_shared end.
Definition tm_fallocate (f : TmpfsOpen) : Z -> Z -> M unit :=
  match f with TmpfsFile f => file_fallocate f | _ => default_fallocate end.
Definition tm_fsync (f : TmpfsOpen) : bool -> M unit :=
  match f with EmptyFops => default_fsync | _ => tmpfs_fsync end.
End Operations.

#[export] Instance tmpfs_tables : VfsTables tmpfs_types := {|
  op_permission _ := default_permission;
  op_getattr := tm_getattr;
  op_setattr := tm_setattr;
  op_lookup := tm_lookup;
  op_get_link _ := default_get_link;
  op_open := tm_open;
  op_create := tm_create;
  op_atomic_open := tm_atomic_open;
  op_mkdir := tm_mkdir;
  op_link _ := default_link;
  op_symlink _ := default_symlink;
  op_rmdir := tm_rmdir;
  op_unlink := tm_unlink;
  op_rename := tm_rename;
  dop_revalidate _ := tmpfs_dentry_revalidate;
  dop_delete _ := default_delete;
  empty_fops := EmptyFops;
|}.

#[export] Instance tmpfs_files : FileTables tmpfs_types := {|
  fo_llseek f :=
    match f with EmptyFops => default_llseek | _ => generic_file_llseek end;
  fo_read_iter := tm_read_iter;
  fo_write_iter := tm_write_iter;
  fo_iterate_shared := tm_iterate_shared;
  fo_fallocate := tm_fallocate;
  fo_poll _ := default_poll;
  fo_fsync := tm_fsync;
  fo_flush _ := default_flush;
  fo_is_stream _ := false;
|}.

(** ** Drops *)
Section Drops.
Context {T : FsTypes} `{HT : !TmpfsIn T}.

(** A file's bytes and inode given back, and a whiteout's inode. *)
Definition drop_content (f : fileid) : M unit :=
  let! c := file_at f in
  on_store (fun s => with_files (delete f (files s)) s) ;;!
  give_bytes (c_tree c) (len (c_bytes c)) ;;! give_inode (c_tree c).

Definition drop_whiteout (w : whiteoutid) : M unit :=
  let! t := asks (fun w' => whiteouts (tm_store (w_fs w')) !! w) in
  on_store (fun s => with_whiteouts (delete w (whiteouts s)) s) ;;! give_inode t.

(** [take_directories]: the directories pushed, the rest let go of where
    nothing else holds them. *)
Fixpoint let_nodes_go (last : Node -> bool) (nodes : list (list byte * Node)) : M (list dirid) :=
  match nodes with
  | [] => ret []
  | (_, node) :: nodes =>
    let! nested :=
      match node with
      | NDirectory d => ret [d]
      | NFile f => (if last node then drop_content f else ret tt) ;;! ret []
      | NWhiteout w => (if last node then drop_whiteout w else ret tt) ;;! ret []
      end in
    let! rest := let_nodes_go last nodes in
    ret (nested ++ rest)
  end.

Definition take_directories (last : Node -> bool) (d : dirid) : M (list dirid) :=
  let! s := state_of d in
  on_state d (State.with_entries ∅ (State.subdirectories s)) ;;!
  let_nodes_go last (map_to_list (State.entries s)).

(** [Dir]'s inode given back, once its fields are gone. *)
Definition free_dir (d : dirid) : M unit :=
  let! x := dir_at d in
  on_store (fun s => with_dirs (delete d (dirs s)) s) ;;! give_inode (dir_tree x).

(** [Drop for Dir]: every directory beneath that nothing else holds goes with
    it, in a loop.  Each turn past the first frees a directory, or leaves one
    something holds. *)
Fixpoint drop_nested (turns : nat) (last : Node -> bool) (nested : list dirid) : M unit :=
  match turns, nested with
  | _, [] => ret tt
  | O, _ => panic
  | S turns, d :: nested =>
    if last (NDirectory d) then
      let! more := take_directories last d in
      free_dir d ;;! drop_nested turns last (rev more ++ nested)
    else drop_nested turns last nested
  end.

Definition drop_dir (turns : nat) (last : Node -> bool) (d : dirid) : M unit :=
  let! nested := take_directories last d in
  drop_nested turns last nested ;;! free_dir d.
End Drops.
