(* ===== verification/TmpfsFacts.v ===== *)
(** A Tmpfs meets what the VFS asks of a Filesystem ([Lawful]): what its
    operations do is a few changes of its own objects ([Stored]), so each stays
    within any relation those do. *)
From stdpp Require Import gmap.
From S2P Require Import Prelude Text Locking VfsTypes World Dcache Cred OpenFile Namei VfsFacts NameiFacts Tmpfs.
Local Open Scope vfs_scope.

(** A file's bytes and its tree, which its times and names say nothing of. *)
Definition same_content (g : Content -> Content) : Prop :=
  forall c, c_bytes (g c) = c_bytes c /\ c_tree (g c) = c_tree c.

(** What a Tmpfs's operations are made of: each object made or resized with the
    space it takes. *)
Class Stored (R : world -> world -> Prop) := {
  stored_pre :: PreOrder R;
  stored_tick n w : R w (set_tick n w);
  stored_inode st ops : framed R (inode_new st ops);
  stored_add d i : framed R (add d i);
  stored_state d f : framed R (on_state d f);
  stored_file f g : same_content g -> framed R (on_file f g);
  stored_resize f n : 0 <= n -> framed R (resize f n);
  stored_create t : framed R (content_create t);
  stored_directory t : framed R (take_inode t ;;! new_directory t);
  stored_whiteout t : framed R (new_whiteout t);
}.

(** *** Over a Filesystem's whole state *)
Section OfHosted.
Context (R : world -> world -> Prop) `{!Hosted R}.

Lemma of_on_store f : framed R (on_store f).
Proof. apply framed_modify. intros. apply hosted_fs. Qed.
Lemma of_now : framed R now.
Proof. intros w r w' [= <- <-]. apply hosted_tick. Qed.
Lemma of_store : framed R store.
Proof. apply framed_asks. apply _. Qed.
Lemma of_tree_at t : framed R (tree_at t).
Proof. apply framed_asks. apply _. Qed.
Lemma of_file_at t : framed R (file_at t).
Proof. apply framed_asks. apply _. Qed.
#[local] Hint Resolve of_on_store of_now of_store of_tree_at of_file_at : vfs.
Lemma of_take_bytes t n : framed R (take_bytes t n).
Proof. unfold take_bytes, on_tree. frames. Qed.
Lemma of_take_inode t : framed R (take_inode t).
Proof. unfold take_inode, on_tree. frames. Qed.
Lemma of_take_ino t : framed R (take_ino t).
Proof. unfold take_ino, on_tree. frames. Qed.
Lemma of_new_object : framed R new_object.
Proof. unfold new_object. frames. Qed.
#[local] Hint Resolve of_take_bytes of_take_inode of_take_ino of_new_object : vfs.

Lemma of_resize f n : framed R (resize f n).
Proof. unfold resize, try_reserve, give_bytes, on_tree, on_file. frames. Qed.

#[export] Instance hosted_stored : Stored R.
Proof.
  split; try apply _; intros; try apply hosted_tick; try apply hosted_inode; try apply hosted_add.
  - apply of_on_store.
  - apply of_on_store.
  - apply of_resize.
  - unfold content_create, content_new. frames.
  - unfold new_directory, dir_new. frames.
  - unfold new_whiteout. frames.
Qed.
End OfHosted.

(** ** Its operations stay within what those do *)
Section Law.
Context (R : world -> world -> Prop) `{!Stored R}.

Lemma in_dentry_at d : framed R (dentry_at d).
Proof. apply framed_asks. apply _. Qed.
Lemma in_inode_at i : framed R (inode_at i).
Proof. apply framed_asks. apply _. Qed.
Lemma in_now : framed R now.
Proof. intros w r w' [= <- <-]. apply stored_tick. Qed.
#[local] Hint Resolve in_dentry_at in_inode_at in_now stored_inode stored_add stored_state
  stored_create stored_whiteout : vfs.
#[local] Hint Extern 1 (framed _ (on_file _ _)) => apply stored_file; done : vfs.
Lemma in_name d : framed R (name d).
Proof. unfold name. frames. Qed.
Lemma in_inode d : framed R (inode d).
Proof. unfold inode. frames. Qed.
Lemma in_in_lookup d : framed R (in_lookup d).
Proof. unfold in_lookup. frames. Qed.
Lemma in_store : framed R store.
Proof. apply framed_asks. apply _. Qed.
Lemma in_tree_at t : framed R (tree_at t).
Proof. apply framed_asks. apply _. Qed.
Lemma in_dir_at d : framed R (dir_at d).
Proof. apply framed_asks. apply _. Qed.
Lemma in_file_at f : framed R (file_at f).
Proof. apply framed_asks. apply _. Qed.
#[local] Hint Resolve in_name in_inode in_in_lookup in_store in_tree_at in_dir_at in_file_at : vfs.

Lemma in_state_of d : framed R (state_of d).
Proof. unfold state_of. frames. Qed.
#[local] Hint Resolve in_state_of : vfs.
Lemma in_dir_getattr d dev : framed R (dir_getattr d dev).
Proof. unfold dir_getattr. frames. Qed.
Lemma in_dir_get d n : framed R (dir_get d n).
Proof. unfold dir_get. frames. Qed.
Lemma in_content_getattr f : framed R (content_getattr f).
Proof. unfold content_getattr. frames. Qed.
#[local] Hint Resolve in_dir_getattr in_dir_get in_content_getattr : vfs.
Lemma in_drop_name h n : framed R (drop_name h n).
Proof. unfold drop_name, unless_held. frames. Qed.
Lemma in_touch_changed h n : framed R (touch_changed h n).
Proof. unfold touch_changed, unless_held. frames. Qed.
Lemma in_touch_dir d : framed R (touch_dir d).
Proof. unfold touch_dir. frames. Qed.
Lemma in_hold d n x : framed R (hold d n x).
Proof. unfold hold. frames. Qed.
#[local] Hint Resolve in_drop_name in_touch_changed in_touch_dir in_hold : vfs.
Lemma in_insert d n x : framed R (insert d n x).
Proof. unfold insert. frames. Qed.
Lemma in_exchange d n x : framed R (exchange d n x).
Proof. unfold exchange. frames. Qed.
Lemma in_take d n : framed R (take d n).
Proof. unfold take. frames. Qed.
#[local] Hint Resolve in_insert in_exchange in_take : vfs.
Lemma in_remove d n : framed R (remove d n).
Proof. unfold remove. frames. Qed.
Lemma in_tree_dev t : framed R (tree_dev t).
Proof. unfold tree_dev. frames. Qed.
#[local] Hint Resolve in_remove in_tree_dev : vfs.
Lemma in_node_getattr t n : framed R (node_getattr t n).
Proof. unfold node_getattr. frames. Qed.
#[local] Hint Resolve in_node_getattr : vfs.
Lemma in_inode_of t n : framed R (inode_of t n).
Proof. unfold inode_of. frames. Qed.
#[local] Hint Resolve in_inode_of : vfs.
Lemma in_make t dir d n : framed R (make t dir d n).
Proof. unfold make. frames. Qed.
Lemma in_apply_times a t : framed R (apply_times a t).
Proof. unfold apply_times. frames. Qed.
Lemma in_holds_any d : framed R (holds_any d).
Proof. unfold holds_any. frames. Qed.
#[local] Hint Resolve in_make in_apply_times in_holds_any : vfs.
Lemma in_tmpfs_lookup t dir d : framed R (tmpfs_lookup t dir d).
Proof. unfold tmpfs_lookup. frames. Qed.
Lemma in_tmpfs_create t dir d : framed R (tmpfs_create t dir d).
Proof. unfold tmpfs_create. frames. Qed.
Lemma in_rename_at t a an b bn f : framed R (rename_at t a an b bn f).
Proof. unfold rename_at. frames. Qed.
#[local] Hint Resolve in_tmpfs_lookup in_tmpfs_create in_rename_at : vfs.
Lemma in_tmpfs_mkdir t dir d : framed R (tmpfs_mkdir t dir d).
Proof.
  unfold tmpfs_mkdir. apply framed_assoc with (f := fun _ => new_directory t).
  apply framed_bind; [apply _ | apply stored_directory | intros made; auto with vfs].
Qed.
#[local] Hint Resolve in_tmpfs_mkdir : vfs.

Lemma in_default_atomic_open lookup create d how :
  framed R (lookup d) -> framed R (create d) -> framed R (default_atomic_open lookup create d how).
Proof. intros. unfold default_atomic_open. frames. Qed.

(** *** The operations of its tables *)
Lemma in_getattr o d : framed R (op_getattr o d).
Proof. destruct o; simpl; unfold tmpfs_getattr; frames. Qed.
Lemma in_setattr o d a :
  (forall f n, ia_size a = Some n -> framed R (resize f n)) -> framed R (op_setattr o d a).
Proof.
  intros Ha. destruct o; simpl; [unfold tmpfs_setattr; frames| |unfold default_setattr; frames].
  unfold regular_setattr, regular_apply_times.
  apply framed_bind; [apply _ | | intros []; frames].
  case_match eqn:E; [|frames]. case_match; [by eapply Ha | frames].
Qed.
Lemma in_lookup o d : framed R (op_lookup o d).
Proof. destruct o; simpl; unfold default_lookup; frames. Qed.
Lemma in_open o d how : framed R (op_open o d how).
Proof. destruct o; simpl; unfold tmpfs_open; frames. Qed.
Lemma in_create o d : framed R (op_create o d).
Proof. destruct o; simpl; unfold default_create; frames. Qed.
Lemma in_atomic_open o d how : framed R (op_atomic_open o d how).
Proof.
  destruct o; simpl; apply in_default_atomic_open; unfold default_lookup, default_create; frames.
Qed.
Lemma in_mkdir o d : framed R (op_mkdir o d).
Proof. destruct o; simpl; unfold default_mkdir; frames. Qed.
Lemma in_rmdir o d : framed R (op_rmdir o d).
Proof. destruct o; simpl; unfold default_rmdir, tmpfs_rmdir, unless_held; frames. Qed.
Lemma in_unlink o d : framed R (op_unlink o d).
Proof. destruct o; simpl; unfold default_unlink, tmpfs_unlink; frames. Qed.
Lemma in_rename o d o' d' f : framed R (op_rename o d o' d' f).
Proof. destruct o; simpl; unfold default_rename, tmpfs_rename; frames. Qed.
Lemma in_revalidate dops o d : framed R (dop_revalidate dops o d).
Proof. destruct o; simpl; unfold tmpfs_dentry_revalidate; frames. Qed.
End Law.

#[export] Instance tmpfs_keeps (R : world -> world -> Prop) `{!Hosted R} : Keeps R tmpfs_tables.
Proof.
  split.
  - intros. simpl. unfold default_permission. apply framed_ret, _.
  - apply (in_getattr R).
  - intros. apply (in_setattr R). intros. by apply of_resize.
  - apply (in_lookup R).
  - intros. simpl. unfold default_get_link. apply framed_fail, _.
  - apply (in_open R).
  - apply (in_create R).
  - apply (in_atomic_open R).
  - apply (in_mkdir R).
  - intros. simpl. unfold default_link. apply framed_fail, _.
  - intros. simpl. unfold default_symlink. apply framed_fail, _.
  - apply (in_rmdir R).
  - apply (in_unlink R).
  - apply (in_rename R).
  - apply (in_revalidate R).
Qed.

(** The default [atomic_open] makes only what it was asked to make. *)
Lemma default_atomic_open_created {T : FsTypes} lookup create d how w w' finish :
  default_atomic_open lookup create d how w = Some (Ok finish, w') ->
  match finish with FinishOpen _ true | NoOpen true => how_create how = true | _ => True end.
Proof.
  revert w finish w'.
  change (returns (fun finish => match finish with
    FinishOpen _ true | NoOpen true => how_create how = true | _ => True end)
    (default_atomic_open lookup create d how)).
  unfold default_atomic_open.
  eapply returns_bind; [apply returns_any | intros asked _].
  eapply returns_bind; [apply returns_any | intros [found|] _]; [by apply returns_ret|].
  destruct (how_create how); simpl; [|by apply returns_ret].
  eapply returns_bind; [apply returns_any | intros u _]. by apply returns_ret.
Qed.

#[export] Instance tmpfs_lawful : Lawful tmpfs_tables.
Proof.
  split; [apply _|]. intros o d how w w' finish. destruct o; apply default_atomic_open_created.
Qed.
