(* ===== verification/VfsPromises.v ===== *)
(** What stands between a guest's call by path and the Filesystem it reaches:
    the Mount's read-only flag judges every change first, and its Policy every
    one but the truncation an open of a standing file asks of [atomic_open], over
    any Filesystem that keeps its promises ([Lawful]). *)
From stdpp Require Import gmap.
From S2P Require Import Prelude Text Catalog Locking VfsTypes World Dcache Cred OpenFile Namei Security VfsFacts NameiFacts VfsLogic Mediation Tmpfs TmpfsFacts.
Local Open Scope vfs_scope.

Module Calls.
Section Calls.
Context {T : FsTypes} `{!VfsTables T} `{LC : !LruCache} `{!FileTables T}.

(** The calls that reach an entry by path, and the two that act on one already
    reached. *)
Inductive PathCall :=
| OpenAt (start : Start) (p : list byte) (op : OpenFlags)
| Reopen (at_ : Path) (how : OpenHow)
| MkdirAt (start : Start) (p : list byte)
| SymlinkAt (target : list byte) (start : Start) (p : list byte)
| LinkAt (old : Start) (old_path : list byte) (new : Start) (new_path : list byte) (follow : bool)
| RmdirAt (start : Start) (p : list byte)
| UnlinkAt (start : Start) (p : list byte)
| RenameAt (from : Start) (from_path : list byte) (to : Start) (to_path : list byte)
| UtimesAt (start : Start) (p : list byte) (follow : bool) (times : Iattr FileOps)
| Futimes (at_ : Path) (times : Iattr FileOps)
| StatAt (start : Start) (p : list byte) (follow : bool)
| ReadlinkAt (start : Start) (p : list byte).

Definition unit_of {A} (m : M A) : M unit := m ;;! ret tt.

Definition run (cred : Cred) (c : PathCall) : M unit :=
  match c with
  | OpenAt start p op => unit_of (do_file_open cred start p op)
  | Reopen at_ how => unit_of (dentry_open at_ how cred)
  | MkdirAt start p => filename_mkdirat cred start p
  | SymlinkAt target start p => filename_symlinkat cred target start p
  | LinkAt old old_path new new_path follow =>
    filename_linkat cred old old_path new new_path follow
  | RmdirAt start p => filename_rmdir cred start p
  | UnlinkAt start p => filename_unlinkat cred start p
  | RenameAt from from_path to to_path => filename_renameat2 cred from from_path to to_path
  | UtimesAt start p follow times => do_utimes_path cred start p follow times
  | Futimes at_ times => do_utimes_fd cred at_ times
  | StatAt start p follow => unit_of (vfs_fstatat cred start p follow)
  | ReadlinkAt start p => unit_of (do_readlinkat cred start p)
  end.

(** A call made on [mnt]; a link's source and a move's target may stand on
    another mount, told apart by its address. *)
Definition made_on (mnt : VfsMount) (c : PathCall) : Prop :=
  match c with
  | OpenAt start _ _ | MkdirAt start _ | SymlinkAt _ start _ | RmdirAt start _
  | UnlinkAt start _ | UtimesAt start _ _ _ | StatAt start _ _ | ReadlinkAt start _ =>
    starts mnt start
  | LinkAt old _ new _ _ => starts_beside mnt old /\ starts mnt new
  | RenameAt from _ to _ => starts mnt from /\ starts_beside mnt to
  | Reopen at_ _ | Futimes at_ _ => p_mnt at_ = mnt
  end.

Lemma starts_at mnt at_ : p_mnt at_ = mnt -> starts mnt (start_at at_).
Proof. intros <-. split; [apply silent_of_quiet; apply framed_ret, _ | by apply returns_ret]. Qed.

Section Handed.
Context `{!Lawful _} (mnt : VfsMount) (writable : bool) (cred : Cred) (base : list Event).

Lemma hands_unit_of {A} (m : M A) :
  only (stands mnt writable base) (handed (admitted mnt writable cred)) (fun _ => True) m whatever ->
  only (stands mnt writable base) (handed (admitted mnt writable cred)) (fun _ => True) (unit_of m) whatever.
Proof. intros Hm. apply hands_after; [exact Hm | intros a; by apply only_ret]. Qed.

Lemma hands_reopen at_ how :
  p_mnt at_ = mnt ->
  only (stands mnt writable base) (handed (admitted mnt writable cred)) (fun _ => True) (dentry_open at_ how cred)
    whatever.
Proof.
  intros Hm. unfold dentry_open. rewrite Hm.
  apply hands_then; [auto with vfs | auto with vfs | intros k].
  eapply only_bind; [| intros opened; apply hands_file_new].
  eapply only_pre; [|apply hands_dentry_open; auto with vfs].
  intros w _ _ E. by rewrite of_how_created in E.
Qed.

(** Every call hands the Filesystem only what its mount admits, and leaves every
    object standing as it did. *)
Lemma run_admitted c w r w' :
  stands mnt writable base w -> made_on mnt c -> run cred c w = Some (r, w') ->
  kept w w' /\ exists new, w_trace w' = new ++ w_trace w /\ Forall (admitted mnt writable cred) new.
Proof.
  intros Hi Hc Hr.
  assert (Honly : only (stands mnt writable base) (handed (admitted mnt writable cred)) (fun _ => True)
    (run cred c) whatever).
  { destruct c; simpl in *; try apply hands_unit_of.
    - eapply only_whatever. by apply hands_do_file_open.
    - by apply hands_reopen.
    - by apply hands_filename_mkdirat.
    - by apply hands_filename_symlinkat.
    - destruct Hc. by apply hands_filename_linkat.
    - by apply hands_filename_rmdir.
    - by apply hands_filename_unlinkat.
    - destruct Hc. by apply hands_filename_renameat2.
    - by apply hands_do_utimes_path.
    - by apply hands_vfs_utimes.
    - eapply only_retry; [by apply hands_filename_lookup|]. intros nd _.
      apply hands_silent, silent_of_quiet. unfold nd_getattr. frames.
    - eapply only_retry with (F := fun _ => True).
      + destruct p; [apply hands_after; [by apply hands_silent; destruct Hc | by intros; apply only_ret]|].
        eapply only_bind; [by apply hands_filename_lookup | intros nd].
        apply hands_silent, silent_of_quiet. frames.
      + intros [target refusal] _. apply hands_silent, silent_of_quiet.
        unfold security_inode_readlink. frames. }
  by destruct (only_end _ _ _ _ _ _ _ _ (handed_pre _) Honly Hi Logic.I Hr) as (_ & Ht & _).
Qed.
End Handed.
End Calls.
End Calls.

(** ** What each promises *)
Module Judged.
Section Judged.
Context {T : FsTypes}.

(** What a Policy permits a Filesystem to be handed. *)
Definition permits (m : MountPolicy) (a : Access) (path : option (list byte)) : Prop :=
  exists p, path = Some p /\ mp_policy m (guest_path m p) a = true.

Definition permits_event (m : MountPolicy) (e : Event) : Prop :=
  match e with
  | ECreate p | EMkdir p | ESymlink p | ERmdir p | EUnlink p | ESetattr p => permits m ReadWrite p
  | EAtomicOpen p create truncate => create || truncate = true -> permits m ReadWrite p
  | ELink old p => permits m ReadWrite old /\ permits m ReadWrite p
  | ERename old new kind => permits m ReadWrite old /\ permits m ReadWrite new /\ kind <> Dir
  | EOpen _ p kind mode truncate => permits m (open_access mode truncate) p
  end.

(** Whether a Filesystem handed this may change what it holds: a FIFO or a
    device opened to write is no change to the Filesystem. *)
Definition changes (e : Event) : bool :=
  match e with
  | EAtomicOpen _ create truncate => create || truncate
  | EOpen _ _ kind mode _ => FMode.contains mode FMode.WRITE && negb (special_file kind)
  | _ => true
  end.

(** What no Policy is asked of: [lookup_open] hands the Filesystem's [atomic_open]
    the truncation an open of a standing file asks for, and [do_open] asks of the
    open, and of the resize, only after. *)
Definition unasked (e : Event) : Prop := exists p, e = EAtomicOpen p false true.

(** What a mount admits is what each Policy of it permits, and nothing changes a
    read-only one. *)
Lemma admitted_permits mnt writable cred m e :
  In (policy_security m) (security cred) -> guards m mnt = true ->
  admitted mnt writable cred e -> permits_event m e \/ writable = true /\ unasked e.
Proof.
  intros Hin Hg. assert (Hj : judges mnt cred m) by done. clear Hin Hg.
  assert (Hp : forall a p, may mnt cred a p -> permits m a p) by (intros a p Ha; exact (Ha m Hj)).
  destruct e as [p|p [] []|p|o p|p|p|p|o n k|p|d p k md t]; simpl;
    try (left; intuition (try congruence; eauto); fail).
  intros [_ Ht]. right. split; [auto | by exists p].
Qed.

Lemma admitted_unchanged mnt cred e : admitted mnt false cred e -> changes e = false.
Proof.
  destruct e as [p|p b t|p|o p|p|p|p|o n k|p|d p k md t]; simpl; intros Ha; destruct_and?; try done.
  - destruct b, t; intuition congruence.
  - destruct (FMode.contains md FMode.WRITE), (special_file k); intuition congruence.
Qed.

Context `{!VfsTables T} `{LC : !LruCache} `{!FileTables T} `{!Lawful _}.

(** C37: on a Mount with a Policy, every entry a call makes, removes, links,
    moves, resizes or stamps, and every open, was judged by the Policy first, at
    the guest path the entry stands at as the Filesystem is handed it and for the
    access the call takes, and no directory moves: whichever path the call
    walked, links and aliases included, over any Filesystem.  One thing it hands
    is not asked of the Policy first, and only where the mount takes writes: the
    truncation an open of a standing file asks of the Filesystem's [atomic_open]
    ([unasked]). *)
Theorem policy_judges_every_change mnt cred m ro c w r w' :
  fresh_ok w -> is_readonly mnt w = Some (Ok ro) ->
  In (policy_security m) (security cred) -> guards m mnt = true ->
  Calls.made_on mnt c -> Calls.run cred c w = Some (r, w') ->
  exists new, w_trace w' = new ++ w_trace w
    /\ Forall (fun e => permits_event m e \/ ro = false /\ unasked e) new.
Proof.
  intros Hf Hro Hin Hg Hc Hr.
  destruct (Calls.run_admitted mnt (negb ro) cred (w_trace w) c w r w') as (_ & new & -> & Hnew);
    [|done..|].
  { apply stands_here; [done..|]. by rewrite negb_involutive. }
  exists new. split; [done|]. eapply list.Forall_impl; [exact Hnew|].
  intros e He. destruct (admitted_permits _ _ _ m _ Hin Hg He) as [|[Hw Hu]]; [by left | right].
  split; [by apply negb_true_iff | done].
Qed.

(** C38: a call through a read-only mount, or to an instance that is read-only,
    hands its Filesystem no change: nothing made, truncated, removed, linked,
    moved or stamped, and nothing opened to write but what is no file of its. *)
Theorem read_only_mount_is_never_changed mnt cred c w r w' :
  fresh_ok w -> is_readonly mnt w = Some (Ok true) ->
  Calls.made_on mnt c -> Calls.run cred c w = Some (r, w') ->
  exists new, w_trace w' = new ++ w_trace w /\ Forall (fun e => changes e = false) new.
Proof.
  intros Hf Hro Hc Hr.
  destruct (Calls.run_admitted mnt false cred (w_trace w) c w r w') as (_ & new & -> & Hnew);
    [by apply stands_here | done..|].
  exists new. split; [done|]. eapply list.Forall_impl; [exact Hnew|].
  intros e. by eapply admitted_unchanged.
Qed.
End Judged.
End Judged.

(** ** A Tmpfs mounted at [/data] *)
Module Sample.
#[export] Instance listed_lru : LruCache := {|
  lru_new := [];
  lru_push d l := d :: List.filter (fun x => negb (x =? d)%nat) l;
  lru_pop d l := List.filter (fun x => negb (x =? d)%nat) l;
  lru_iter l := l;
|}.

Definition blank : world :=
  MkWorld tmpfs_types (MkStore ∅ ∅ ∅ ∅ 0%nat 1 (fun _ => true) 0%nat) ∅ ∅ ∅ 0 1%nat 0%nat
    (fun _ _ => true) Z.of_nat 0%nat 0%nat [].

(** A Tmpfs seeded with one file, its instance, and a mount of it. *)
Definition mounting (read_only : bool) : M VfsMount :=
  let! made := try_from_iter [(lit "dir/file", lit "x")] in
  match made with
  | inl _ => panic
  | inr fs =>
    let! s := super_block_new (fill_super fs) in
    vfs_mount_new s read_only
  end.

Definition mounted (read_only : bool) : VfsMount * world :=
  match mounting read_only blank with
  | Some (Ok mnt, w) => (mnt, w)
  | _ => (MkVfsMount 0%nat 0%nat 0%nat read_only, blank)
  end.

Definition after (cred : Cred) (c : Calls.PathCall) (w : world) : world :=
  match Calls.run cred c w with Some (_, w') => w' | None => w end.

(** Writes beneath [/data/dir] alone. *)
Definition beneath_dir : MountPolicy :=
  MkMountPolicy (mounted false).1 (lit "/data")
    (fun p a => match a with Read => true | ReadWrite => starts_with (lit "/data/dir/") p end).

Definition cred : Cred := prepare_creds_within [policy_security beneath_dir] None.

Definition from_root (read_only : bool) : Start := start_at (path_root (mounted read_only).1).

(** What a call answers, of a run that is known to end. *)
Definition answers (cred : Cred) (c : Calls.PathCall) (w : world)
  : option (result FilesystemError unit) := fst <$> Calls.run cred c w.

Lemma ran cred c w r : answers cred c w = Some r -> Calls.run cred c w = Some (r, after cred c w).
Proof.
  unfold answers, after. destruct (Calls.run cred c w) as [[x w']|]; simpl; [|done].
  by intros [= ->].
Qed.

Lemma fresh_ok_by_size {T : FsTypes} (w : world) :
  bool_decide (map_Forall (fun k _ => (k < w_next w)%nat) (w_dentries w)) = true ->
  bool_decide (map_Forall (fun k _ => (k < w_next w)%nat) (w_inodes w)) = true ->
  bool_decide (map_Forall (fun k _ => (k < w_next w)%nat) (w_sbs w)) = true ->
  fresh_ok w.
Proof.
  rewrite !bool_decide_eq_true. intros Hd Hi Hs n Hn.
  repeat split; apply eq_None_not_Some; intros [x Hx].
  - specialize (Hd n x Hx). simpl in Hd. lia.
  - specialize (Hi n x Hx). simpl in Hi. lia.
  - specialize (Hs n x Hx). simpl in Hs. lia.
Qed.
End Sample.
Import Sample.

(** The witnesses: a directory made and a file moved beneath what the Policy
    lets the guest write, and the same calls through a read-only mount. *)
Lemma policy_judges_every_change_witness :
  (exists new, w_trace (after cred
      (Calls.MkdirAt (from_root false) (lit "dir/made")) (mounted false).2)
      = new ++ w_trace (mounted false).2
    /\ Forall (fun e => Judged.permits_event beneath_dir e \/ false = false /\ Judged.unasked e) new)
  /\ w_trace (after cred (Calls.MkdirAt (from_root false) (lit "dir/made")) (mounted false).2)
     <> w_trace (mounted false).2.
Proof.
  split; [|by vm_compute].
  apply (Judged.policy_judges_every_change (mounted false).1 cred beneath_dir
    false (Calls.MkdirAt (from_root false) (lit "dir/made")) (mounted false).2 (Ok tt)).
  - apply fresh_ok_by_size; vm_compute; reflexivity.
  - vm_compute. reflexivity.
  - right. left. reflexivity.
  - vm_compute. reflexivity.
  - apply Calls.starts_at. reflexivity.
  - apply ran. vm_compute. reflexivity.
Defined.

Lemma read_only_mount_is_never_changed_witness :
  exists new, w_trace (after cred
      (Calls.MkdirAt (from_root true) (lit "dir/made")) (mounted true).2)
      = new ++ w_trace (mounted true).2
    /\ Forall (fun e => Judged.changes e = false) new.
Proof.
  apply (Judged.read_only_mount_is_never_changed (mounted true).1 cred
    (Calls.MkdirAt (from_root true) (lit "dir/made")) (mounted true).2
    (Err ReadOnlyFilesystem)).
  - apply fresh_ok_by_size; vm_compute; reflexivity.
  - vm_compute. reflexivity.
  - apply Calls.starts_at. reflexivity.
  - apply ran. vm_compute. reflexivity.
Defined.

(** A Policy refusing every path still finds the truncation handed over: no open
    is, and the call is refused. *)
Definition refusing : Cred :=
  prepare_creds_within
    [policy_security (MkMountPolicy (mounted false).1 (lit "/data") (fun _ _ => false))] None.

Definition truncating : Calls.PathCall :=
  match build_open_flags
    (MkOpenHow false true false false true false false false false false false) with
  | Ok op => Calls.OpenAt (from_root false) (lit "dir/file") op
  | Err _ => Calls.MkdirAt (from_root false) []
  end.

Example atomic_open_is_handed_an_unasked_truncation :
  answers refusing truncating (mounted false).2 = Some (Err PermissionDenied)
  /\ w_trace (after refusing truncating (mounted false).2)
     = EAtomicOpen (Some (lit "/dir/file")) false true :: w_trace (mounted false).2.
Proof. split; vm_compute; reflexivity. Qed.
