(* ===== verification/OverlayFs.v ===== *)
(** Read-only lower Layers under an upper Tmpfs: [filesystem/overlay.rs] with
    [overlay/path.rs], [inode.rs], [stack.rs], [stack/] and [file.rs], and the
    listing [rdir.rs] holds.

    A Layer is a Filesystem beneath the view, asked through the VFS's own calls
    and tables ([VfsTables]); what an Overlay keeps on an inode, its counters and
    its open files stand in an [OvStore].  An Overlay's paths carry no cred: each
    is asked as the one its [OverlayFs] was made with, who answers to no module.
    A loop over what a Layer holds takes as many [turns] as it is given, and past
    them has not answered. *)
From stdpp Require Import gmap.
From S2P Require Import Prelude Text Locking VfsTypes World Dcache Cred OpenFile Namei Tmpfs.
Local Open Scope vfs_scope.

(** ** What an Overlay holds *)

(** [OverlayPath], and [Level]: each Layer's directory, the upper's first. *)
Record OverlayPath := MkOverlayPath { lay_sb : sbid; lay_dentry : did }.
Definition Level : Type := list (option OverlayPath).

(** [OverlayFs], its [temp] the address of its counter. *)
Record OverlayFs := MkOverlayFs {
  ofs_roots : Level;
  ofs_work : option OverlayPath;
  ofs_temp : nat;
}.

Record Overlay := MkOverlay { ov_fs : OverlayFs; ov_stack_depth : nat }.

Definition MAX_STACK_DEPTH : nat := 2.
Definition MAX_LOWER_LAYERS : nat := 500.

Definition UPPERDIR : list byte := lit "upper".
Definition WORKDIR : list byte := lit "work".
Definition OPAQUE_XATTR : list byte := lit "trusted.overlay.opaque".
Definition OPAQUE : list byte := lit "y".

Definition UPPER : nat := 0.
(** [level[UPPER]] and [level[index]], of a level as long as the Layers. *)
Definition upper_of (level : Level) : option OverlayPath := mjoin (level !! UPPER).
Definition layer_at (level : Level) (index : nat) : option OverlayPath := mjoin (level !! index).
(** [level.iter().flatten()], and the Layers below the upper. *)
Definition shown (level : Level) : list OverlayPath := omap id level.
Definition lower_of (level : Level) : Level := drop (S UPPER) level.
Definition no_layers (n : nat) : Level := replicate n None.

(** [OverlayDirInode] and [OverlayFileInode], the lock of each the one a copy up
    holds. *)
Inductive Private :=
| DirKept (level : Level) (lock : Rwsem.Holders)
| FileKept (real : OverlayPath) (lock : Rwsem.Holders).

Definition kept_lock (k : Private) : Rwsem.Holders :=
  match k with DirKept _ lock | FileKept _ lock => lock end.
Definition with_lock (h : Rwsem.Holders) (k : Private) : Private :=
  match k with DirKept level _ => DirKept level h | FileKept real _ => FileKept real h end.

(** [OverlayFile]. *)
Record OverlayFile (Fo : Type) := MkOverlayFile {
  of_file : Fo;
  of_real : did;
  of_inode : iid;
  of_upper : option Fo;
}.
Arguments MkOverlayFile {Fo} of_file of_real of_inode of_upper.
Arguments of_file {Fo}.
Arguments of_real {Fo}.
Arguments of_inode {Fo}.
Arguments of_upper {Fo}.

(** [Listing] of [rdir.rs], its charge the account it counts against and the
    bytes counted. *)
Record Listing := MkListing {
  li_entries : list DirEntry;
  li_committed : option nat;
  li_bytes : Z;
}.

(** What every view keeps, with the accounts callers' memory is counted in. *)
Record OvStore (Fo : Type) := MkOvStore {
  privates : gmap iid Private;
  temps : gmap nat Z;
  opened : gmap nat (OverlayFile Fo);
  listings : gmap nat Listing;
  accounts : gmap nat VmCommitted;
}.
Arguments MkOvStore {Fo} privates temps opened listings accounts.
Arguments listings {Fo}.
Arguments accounts {Fo}.
Arguments privates {Fo}.
Arguments temps {Fo}.
Arguments opened {Fo}.

(** The tables a view hangs from its inodes, and its open files: [OverlayFile]
    at an address, whether what it was opened on is a stream, and [OverlayDir],
    its listing at an address, with each Layer's directory open. *)
Inductive ViewInode :=
| OverlayDirectory (o : Overlay)
| OverlayRegular (o : Overlay)
| OverlayLink (o : Overlay).

Inductive ViewOpen (Fo : Type) := ViewFile (file : nat) (stream : bool) | ViewDirectory (rdir : nat) (fs : OverlayFs) (real : list Fo).
Arguments ViewFile {Fo} file stream.
Arguments ViewDirectory {Fo} rdir fs real.

Class OverlayIn (T : FsTypes) := {
  ov_store : FsState -> OvStore FileOps;
  ov_set_store : OvStore FileOps -> FsState -> FsState;
  ov_inode : ViewInode -> InodeOps;
  ov_downcast : InodeOps -> option ViewInode;
  ov_dentry : Overlay -> DentryOps;
  ov_open : ViewOpen FileOps -> FileOps;
  (** Whose a table is, as a call of it dispatches. *)
  ov_dentry_of : DentryOps -> option Overlay;
  ov_open_of : FileOps -> option (ViewOpen FileOps);
  (** [size_of_val] of the entries with what their names' buffers hold. *)
  ov_listing_bytes : list DirEntry -> Z;
}.

Section Store.
Context {T : FsTypes} `{!OverlayIn T}.

Definition on_ov_store (f : OvStore FileOps -> OvStore FileOps) : M unit :=
  modify (fun w => set_fs (ov_set_store (f (ov_store (w_fs w))) (w_fs w)) w).
Definition on_privates (f : gmap iid Private -> gmap iid Private) : M unit :=
  on_ov_store (fun s => MkOvStore (f (privates s)) (temps s) (opened s) (listings s) (accounts s)).
Definition on_temps (f : gmap nat Z -> gmap nat Z) : M unit :=
  on_ov_store (fun s => MkOvStore (privates s) (f (temps s)) (opened s) (listings s) (accounts s)).
Definition on_opened (f : gmap nat (OverlayFile FileOps) -> gmap nat (OverlayFile FileOps)) : M unit :=
  on_ov_store (fun s => MkOvStore (privates s) (temps s) (f (opened s)) (listings s) (accounts s)).
Definition on_listings (f : gmap nat Listing -> gmap nat Listing) : M unit :=
  on_ov_store (fun s => MkOvStore (privates s) (temps s) (opened s) (f (listings s)) (accounts s)).
Definition on_accounts (f : gmap nat VmCommitted -> gmap nat VmCommitted) : M unit :=
  on_ov_store (fun s => MkOvStore (privates s) (temps s) (opened s) (listings s) (f (accounts s))).

(** [inode.private().get()]. *)
Definition private_of (i : iid) : M (option Private) :=
  asks (fun w => Some (privates (ov_store (w_fs w)) !! i)).
End Store.

(** ** [overlay/inode.rs] *)
Module Kept.
Section Kept.
Context {T : FsTypes} `{!OverlayIn T}.

(** [OverlayDirInode::of] and [OverlayFileInode::of]: what an inode keeps, where
    it is of that kind. *)
Definition dir_of (i : iid) : M (option Level) :=
  let! k := private_of i in
  ret (match k with Some (DirKept level _) => Some level | _ => None end).
Definition file_of (i : iid) : M (option OverlayPath) :=
  let! k := private_of i in
  ret (match k with Some (FileKept real _) => Some real | _ => None end).

(** [OverlayDirInode::level], and [OverlayFileInode::path_real], of an inode
    known to keep one. *)
Definition level (i : iid) : M Level :=
  let! l := dir_of i in match l with Some l => ret l | None => panic end.
Definition path_real (i : iid) : M OverlayPath :=
  let! r := file_of i in match r with Some r => ret r | None => panic end.

Definition inode_update (i : iid) (dir : OverlayPath) : M unit :=
  on_privates (alter (fun k => match k with
    | DirKept level lock => DirKept (<[UPPER := Some dir]> level) lock
    | FileKept _ _ => k
    end) i).
Definition set_real (i : iid) (real : OverlayPath) : M unit :=
  on_privates (alter (fun k => match k with
    | FileKept _ lock => FileKept real lock
    | DirKept _ _ => k
    end) i).

(** [OverlayDirInode::new] and [OverlayFileInode::new]. *)
Definition dir_new (level : Level) : Private := DirKept level Rwsem.default_holders.
Definition file_new (real : OverlayPath) : Private := FileKept real Rwsem.default_holders.

Definition ovl_inode_init (i : iid) (kept : Private) : M unit :=
  on_privates (fun m => match m !! i with Some _ => m | None => <[i := kept]> m end).

(** [k] with the lock a copy up of the entry holds. *)
Definition copying_up {A} (i : iid) (k : M A) : M A :=
  let lock_at w := kept_lock <$> privates (ov_store (w_fs w)) !! i in
  let set h := on_privates (alter (with_lock h) i) in
  let! current := asks (fun w => Some (w_current w)) in
  let! h := asks lock_at in
  match Rwsem.take_hold true current h with
  | Ok (true, h) =>
    set h ;;!
    let! r := attempt k in
    let! h := asks lock_at in
    set (Rwsem.release true current h) ;;! lift r
  | Ok (false, _) => fail Interrupted
  | Err e => fail (from_down_error e)
  end.
End Kept.
End Kept.

(** ** [overlay/path.rs] *)
Module Layer.
Section Layer.
Context {T : FsTypes} `{!TmpfsIn T} `{!VfsTables T} `{!LruCache} `{!FileTables T}.

(** Who every call on a Layer is made as. *)
Definition creator_cred : Cred := cred_within [] None.

Definition timestamps (st : Kstat) : Iattr FileOps :=
  iattr_times (At <$> st_atime st) (At <$> st_mtime st).

Definition root (s : sbid) : M OverlayPath :=
  let! sb := sb_at s in
  match s_root sb with Some d => ret (MkOverlayPath s d) | None => panic end.

Definition beneath (p : OverlayPath) (d : did) : OverlayPath := MkOverlayPath (lay_sb p) d.

Definition matches_real (p : OverlayPath) (n : list byte) (real : did) : M bool :=
  let! held := dcache_lookup (lay_sb p) (lay_dentry p) n in
  ret (match held with Some held => (held =? real)%nat | None => true end).

Definition lookup_real (p : OverlayPath) (n : list byte) : M did :=
  lookup_one_unlocked creator_cred (lay_sb p) (lay_dentry p) n.

(** [start_creating] and [start_removing], and what runs with the directory
    held. *)
Definition creating {A} (p : OverlayPath) (n : list byte) (k : did -> M A) : M A :=
  let! (held, d) := start_creating creator_cred (lay_sb p) (lay_dentry p) n in
  holding [held] (k d).
Definition removing {A} (p : OverlayPath) (n : list byte) (k : did -> M A) : M A :=
  let! (held, d) := start_removing creator_cred (lay_sb p) (lay_dentry p) n in
  holding [held] (k d).

(** [tmpfs]: the directory's tree and directory where it is a Tmpfs's. *)
Definition tmpfs (p : OverlayPath) : M (option (treeid * dirid)) :=
  let! o := attempt (inode_ops (lay_dentry p)) in
  ret (match o with
       | Ok o => match tm_downcast o with
                 | Some (TmpfsDirectory t dir) => Some (t, dir)
                 | _ => None
                 end
       | Err _ => None
       end).

Definition upper (p : OverlayPath) : M (treeid * dirid) :=
  let! t := tmpfs p in
  match t with Some t => ret t | None => fail ReadOnlyFilesystem end.

Definition is_whiteout (p : OverlayPath) (n : list byte) : M bool :=
  let! t := tmpfs p in
  match t with
  | Some (_, dir) => Tmpfs.is_whiteout dir n
  | None => ret false
  end.

Definition is_whiteout_dentry (p : OverlayPath) (d : did) : M bool :=
  let! k := kind_ok d in
  if bool_decide (k = Some Chrdev) then let! t := tmpfs p in ret (bool_decide (is_Some t))
  else ret false.

Definition is_opaque (p : OverlayPath) : M bool :=
  let! t := tmpfs p in
  match t with
  | Some (_, dir) =>
    let! value := getxattr dir OPAQUE_XATTR in ret (bool_decide (value = Some OPAQUE))
  | None => ret false
  end.

Definition set_opaque (p : OverlayPath) : M unit :=
  let! held := inode_lock (lay_dentry p) in
  holding [held] (let! (_, dir) := upper p in setxattr dir OPAQUE_XATTR OPAQUE).

Definition do_whiteout (p : OverlayPath) (n : list byte) : M unit :=
  creating p n (fun d =>
    may_create_dentry creator_cred (lay_sb p) (lay_dentry p) d ;;!
    let! (t, dir) := upper p in whiteout t dir n).

Definition do_rename (p : OverlayPath) (from : list byte) (target : OverlayPath) (to : list byte)
    (flag : option RenameFlag) : M unit :=
  let! rd := __start_renaming (lay_sb p) (lay_dentry p) from (lay_dentry target) to flag in
  holding (rd_held rd) (vfs_rename creator_cred (lay_sb p) rd).

Definition do_tmpfile (p : OverlayPath) : M fileid :=
  let! (t, _) := upper p in tmpfile t.

Definition do_link (p : OverlayPath) (file : fileid) (n : list byte) : M did :=
  creating p n (fun d =>
    may_create_dentry creator_cred (lay_sb p) (lay_dentry p) d ;;!
    let! (t, dir) := upper p in
    tmpfile_link dir file n ;;!
    let! found := tmpfs_lookup t dir d in
    match found with
    | Found i => add d (Some i)
    | _ => ret tt
    end ;;!
    ret d).

Definition set_timestamps (p : OverlayPath) (st : Kstat) : M unit :=
  let! held := inode_lock (lay_dentry p) in
  holding [held] (notify_change (lay_dentry p) (timestamps st)).

Definition lookup_single (p : OverlayPath) (n : list byte) : M (option (list byte * did)) :=
  let! d := lookup_real p n in
  let! i := inode d in
  match i with
  | Some _ => let! stored := name d in ret (Some (stored, d))
  | None => ret None
  end.

Definition do_create (p : OverlayPath) (n : list byte) : M unit :=
  creating p n (vfs_create creator_cred (lay_sb p) (lay_dentry p)).

Definition open_dir (p : OverlayPath) (n : list byte) : M OverlayPath :=
  let! d := lookup_real p n in
  let! k := kind d in
  match k with
  | Dir => ret (beneath p d)
  | Symlink => fail FilesystemLoop
  | _ => fail NotADirectory
  end.

Definition getattr (p : OverlayPath) : M Kstat := Dcache.getattr (lay_dentry p).

Definition getattr_at (p : OverlayPath) (n : list byte) : M Kstat :=
  let! d := lookup_real p n in Dcache.getattr d.

Definition read_how : OpenHow :=
  MkOpenHow true false false false false false false false false false false.

Definition open_realfile (p : OverlayPath) (how : OpenHow) : M FileOps :=
  let mask := Mask.OPEN in
  let mask := if how_read how then Mask.bitor mask Mask.READ else mask in
  let mask := if how_write how then Mask.bitor mask Mask.WRITE else mask in
  inode_permission creator_cred (lay_sb p) (lay_dentry p) mask ;;!
  Dcache.open (lay_dentry p) how.

Definition open_real (p : OverlayPath) : M FileOps := open_realfile p read_how.

(** Its actor takes every entry. *)
Definition entries (p : OverlayPath) : M (list DirEntry) :=
  let! held := inode_lock_shared (lay_dentry p) in
  holding [held] (
    let! f := open_real p in
    let! (listed, c) := fo_iterate_shared f (lay_dentry p) (ctx_new 2 (fun _ _ => true)) in
    lift listed ;;! ret (map to_dir_entry (ctx_taken c))).

Definition do_mkdir (p : OverlayPath) (n : list byte) : M unit :=
  creating p n (vfs_mkdir creator_cred (lay_sb p) (lay_dentry p)).
Definition do_rmdir (p : OverlayPath) (n : list byte) : M unit :=
  removing p n (vfs_rmdir creator_cred (lay_sb p) (lay_dentry p)).
Definition do_unlink (p : OverlayPath) (n : list byte) : M unit :=
  removing p n (vfs_unlink creator_cred (lay_sb p) (lay_dentry p)).
End Layer.
End Layer.

(** ** [overlay/stack.rs] *)

(** [LayerEntry] and [Presence]. *)
Record LayerEntry := MkLayerEntry { le_stored_name : list byte; le_dentry : did }.

Inductive Presence := PNothing | PWhiteout | PEntry (found : LayerEntry).

(** [format!("#{next:x}")] of a [u64]. *)
Fixpoint hex_text (digits : nat) (n : Z) (out : list byte) : list byte :=
  match digits with
  | O => out
  | S digits =>
    let out := byte_of_Z (if n mod 16 <? 10 then 48 + n mod 16 else 87 + n mod 16) :: out in
    if n <? 16 then out else hex_text digits (n / 16) out
  end.
Definition temp_text (n : Z) : list byte := lit "#" ++ hex_text 16 n [].

Module Fs.
Section Stack.
Context {T : FsTypes} `{!TmpfsIn T} `{!OverlayIn T} `{!VfsTables T} `{!LruCache} `{!FileTables T}.

(** [Presence::is_directory]. *)
Definition is_directory (p : Presence) : M bool :=
  match p with
  | PEntry found => let! k := kind_ok (le_dentry found) in ret (bool_decide (k = Some Dir))
  | _ => ret false
  end.

Definition entry (dir : OverlayPath) (n : list byte) : M Presence :=
  let! found := attempt (Layer.lookup_single dir n) in
  match found with
  | Ok (Some (stored, d)) =>
    let! white := Layer.is_whiteout_dentry dir d in
    ret (if white : bool then PWhiteout else PEntry (MkLayerEntry stored d))
  | Ok None | Err NotFound | Err InvalidFilename => ret PNothing
  | Err e => fail e
  end.

Fixpoint lower_positive_in (dirs : list OverlayPath) (n : list byte) : M bool :=
  match dirs with
  | [] => ret false
  | dir :: dirs =>
    let! found := attempt (entry dir n) in
    match found with
    | Ok PNothing => lower_positive_in dirs n
    | Ok PWhiteout => ret false
    | Ok (PEntry _) | Err _ => ret true
    end
  end.
Definition ovl_lower_positive (level : Level) (n : list byte) : M bool :=
  lower_positive_in (shown (lower_of level)) n.

(** [copy_whole]: a chunk written until nothing of it is left, and chunks read
    until one reads nothing.  Each write that goes on takes a byte. *)
Fixpoint write_whole (turns : nat) (write : Kiocb -> list byte -> M (Kiocb * Z)) (to : Kiocb)
    (rest : list byte) : M Kiocb :=
  match rest, turns with
  | [], _ => ret to
  | _, O => panic
  | _, S turns =>
    let! (to, wrote) := write to rest in
    if wrote =? 0 then fail (Other (lit "a copy up's write wrote nothing"))
    else if len rest <? wrote then
      (* [written] past [read] ends the loop. *)
      ret to
    else write_whole turns write to (skipn (Z.to_nat wrote) rest)
  end.

Definition COPY_BUF : nat := 64 * 1024.

Fixpoint copy_chunks (turns : nat) (read : Kiocb -> list byte -> M (Kiocb * Z * list byte))
    (write : Kiocb -> list byte -> M (Kiocb * Z)) (buf : list byte) (from to : Kiocb) : M unit :=
  match turns with
  | O => panic
  | S turns =>
    let! (from, got, buf) := read from buf in
    if got =? 0 then ret tt
    else if len buf <? got then panic
    else
      let! to := write_whole (Z.to_nat got) write to (firstn (Z.to_nat got) buf) in
      copy_chunks turns read write buf from to
  end.
Definition copy_whole (turns : nat) (read : Kiocb -> list byte -> M (Kiocb * Z * list byte))
    (write : Kiocb -> list byte -> M (Kiocb * Z)) : M unit :=
  copy_chunks turns read write (replicate COPY_BUF x00) (kiocb_at 0) (kiocb_at 0).

Definition layer_dir (dir : option OverlayPath) : M OverlayPath :=
  match dir with Some dir => ret dir | None => fail NotFound end.

Definition ovl_workdir_create (root : OverlayPath) (n : list byte) : M OverlayPath :=
  let! made := attempt (Layer.do_mkdir root n) in
  match made with
  | Ok tt | Err AlreadyExists => Layer.open_dir root n
  | Err e => fail e
  end.

Definition ovl_cleanup (dir : OverlayPath) (n : list byte) : M unit :=
  let! st := Layer.getattr_at dir n in
  match file_type st with
  | Dir => Layer.do_rmdir dir n
  | _ => Layer.do_unlink dir n
  end.

Fixpoint unlink_whiteouts (inner : OverlayPath) (listed : list DirEntry) : M unit :=
  match listed with
  | [] => ret tt
  | e :: listed =>
    let! white := Layer.is_whiteout inner (de_name e) in
    (if white : bool then Layer.do_unlink inner (de_name e) else ret tt) ;;!
    unlink_whiteouts inner listed
  end.
Definition ovl_cleanup_whiteouts (dir : OverlayPath) (n : list byte) : M unit :=
  let! st := Layer.getattr_at dir n in
  if negb (bool_decide (file_type st = Dir)) then ret tt
  else
    let! inner := Layer.open_dir dir n in
    let! listed := Layer.entries inner in
    unlink_whiteouts inner listed.

(** The stack of what is left to take out, its last on top. *)
Fixpoint workdir_cleanup_turns (turns : nat) (pending : list (OverlayPath * list byte)) : M unit :=
  match pending, turns with
  | [], _ => ret tt
  | _, O => panic
  | (dir, n) :: below, S turns =>
    let! st := Layer.getattr_at dir n in
    if negb (bool_decide (file_type st = Dir)) then
      Layer.do_unlink dir n ;;! workdir_cleanup_turns turns below
    else
      let! inner := Layer.open_dir dir n in
      let! listed := Layer.entries inner in
      let! standing :=
        match listed with
        | [] => Layer.do_rmdir dir n ;;! ret below
        | _ => ret pending
        end in
      workdir_cleanup_turns turns (rev (map (fun e => (inner, de_name e)) listed) ++ standing)
  end.
Definition ovl_workdir_cleanup (turns : nat) (dir : OverlayPath) (n : list byte) : M unit :=
  workdir_cleanup_turns turns [(dir, n)].

Fixpoint clean_each (turns : nat) (made : OverlayPath) (listed : list DirEntry) : M unit :=
  match listed with
  | [] => ret tt
  | e :: listed => ovl_workdir_cleanup turns made (de_name e) ;;! clean_each turns made listed
  end.

Fixpoint layer_roots (layers : list sbid) : M Level :=
  match layers with
  | [] => ret []
  | s :: layers =>
    let! root := Layer.root s in
    let! rest := layer_roots layers in ret (Some root :: rest)
  end.

(** [OverlayFs::new]. *)
Definition new (turns : nat) (lower : list sbid) (upper : option sbid) : M OverlayFs :=
  let! (top, work) :=
    match upper with
    | None => ret (None, None)
    | Some upper =>
      let! root := Layer.root upper in
      let! top := ovl_workdir_create root UPPERDIR in
      let! made := ovl_workdir_create root WORKDIR in
      let! listed := Layer.entries made in
      clean_each turns made listed ;;! ret (Some top, Some made)
    end in
  let! below := layer_roots lower in
  let! temp := fresh_address in
  on_temps (<[temp := 0]>) ;;!
  ret (MkOverlayFs (top :: below) work temp).

Definition has_upper (fs : OverlayFs) : bool := bool_decide (is_Some (ofs_work fs)).

Definition root_identity (fs : OverlayFs) : M (option Identity) :=
  match shown (ofs_roots fs) with
  | [] => ret None
  | topmost :: _ => identity_at (lay_dentry topmost)
  end.

Definition root_dir (fs : OverlayFs) : Private := Kept.dir_new (ofs_roots fs).

(** [ViewDir]. *)
Record ViewDir := MkViewDir { vd_dentry : did; vd_inode : iid }.
Definition level (d : ViewDir) : M Level := Kept.level (vd_inode d).

(** [OverlayFs::dir] and [parent]. *)
Definition dir (d : did) : M ViewDir :=
  let! i := named_inode d in
  let! kept := Kept.dir_of i in
  match kept with Some _ => ret (MkViewDir d i) | None => fail NotADirectory end.
Definition parent (d : did) : M ViewDir := let! p := reads (Dcache.parent d) in dir p.

Definition tempname (fs : OverlayFs) : M (OverlayPath * list byte) :=
  match ofs_work fs with
  | None => fail ReadOnlyFilesystem
  | Some work =>
    let! next := asks (fun w => temps (ov_store (w_fs w)) !! ofs_temp fs) in
    on_temps (<[ofs_temp fs := as_u64 (next + 1)]>) ;;!
    ret (work, temp_text next)
  end.

(** ** [overlay/stack/namei.rs] *)

Fixpoint lookup_layer_from (index : nat) (level : Level) (n : list byte)
  : M (option (nat * LayerEntry)) :=
  match level with
  | [] => ret None
  | None :: level => lookup_layer_from (S index) level n
  | Some dir :: level =>
    let! found := entry dir n in
    match found with
    | PEntry found => ret (Some (index, found))
    | PWhiteout => ret None
    | PNothing => lookup_layer_from (S index) level n
    end
  end.
Definition lookup_layer : Level -> list byte -> M (option (nat * LayerEntry)) := lookup_layer_from 0.

(** What the Layers below the one that showed a directory merge into it. *)
Fixpoint merge_below (level : Level) (n : list byte) : M Level :=
  match level with
  | [] => ret []
  | None :: level => let! rest := merge_below level n in ret (None :: rest)
  | Some dir :: level =>
    let! found := entry dir n in
    match found with
    | PEntry found =>
      let! k := kind_ok (le_dentry found) in
      if bool_decide (k = Some Dir) then
        let inner := Layer.beneath dir (le_dentry found) in
        let! opaque := Layer.is_opaque inner in
        if opaque : bool then ret (Some inner :: no_layers (length level))
        else let! rest := merge_below level n in ret (Some inner :: rest)
      else ret (None :: no_layers (length level))
    | PWhiteout => ret (None :: no_layers (length level))
    | PNothing => let! rest := merge_below level n in ret (None :: rest)
    end
  end.

Definition lookup_layers (level : Level) (n : list byte) (at_ : nat) (top : LayerEntry) : M Level :=
  let! dir := layer_dir (layer_at level at_) in
  let top := Layer.beneath dir (le_dentry top) in
  let! opaque := Layer.is_opaque top in
  let below := drop (S at_) level in
  let! rest := if opaque : bool then ret (no_layers (length below)) else merge_below below n in
  ret (no_layers at_ ++ Some top :: rest).

Definition dir_getattr (level : Level) : M Kstat :=
  match shown level with
  | [] => fail NotFound
  | topmost :: rest =>
    let! st := Layer.getattr topmost in
    match rest with
    | [] => ret st
    | lower :: _ =>
      let! lower := Layer.getattr lower in
      ret (with_nlink 1 (with_identity (st_dev lower) (st_ino lower) st))
    end
  end.

(** [Inode::with_ops]. *)
Definition with_ops (i : iid) (ops : InodeOps) : M iid :=
  let! x := inode_at i in
  new_inode (MkInode _ (i_kind x) (i_identity x) ops Rwsem.default_holders false None).

Definition file_inode (fs : OverlayFs) (index : nat) (real : did) (ops : InodeOps) : M iid :=
  let! found := named_inode real in
  let! breaks :=
    if has_upper fs && negb (index =? UPPER)%nat
    then let! st := Dcache.getattr real in ret (1 <? st_nlink st) else ret false in
  if breaks : bool then let! x := inode_at found in inode_new (kstat_new (i_kind x) 0) ops
  else with_ops found ops.

Definition lookup (fs : OverlayFs) (level : Level) (n : list byte) (index : nat)
    (found : LayerEntry) (ops_of : FileType -> InodeOps) : M iid :=
  let! k := kind (le_dentry found) in
  let ops := ops_of k in
  if negb (bool_decide (k = Dir)) then
    let! i := file_inode fs index (le_dentry found) ops in
    let! dir := layer_dir (layer_at level index) in
    Kept.ovl_inode_init i (Kept.file_new (Layer.beneath dir (le_dentry found))) ;;!
    ret i
  else
    let! merged := lookup_layers level n index found in
    let! i :=
      if (length (shown merged) =? 1)%nat then
        let! real := layer_dir (layer_at merged index) in
        let! found := named_inode (lay_dentry real) in with_ops found ops
      else let! st := dir_getattr merged in inode_new st ops in
    Kept.ovl_inode_init i (Kept.dir_new merged) ;;!
    ret i.

(** ** [overlay/stack/readdir.rs] *)
Record MergedEntries := MkMerged { me_entries : list DirEntry; me_upper_whiteouts : bool }.

(** The names taken so far, and what was merged of them. *)
Fixpoint merge_entries (dir : OverlayPath) (upper : bool) (listed : list DirEntry)
    (taken : gset (list byte)) (merged : MergedEntries) : M (gset (list byte) * MergedEntries) :=
  match listed with
  | [] => ret (taken, merged)
  | e :: listed =>
    let! white :=
      if bool_decide (de_type e = Chrdev) then Layer.is_whiteout dir (de_name e) else ret false in
    let fresh := negb (bool_decide (de_name e ∈ taken)) in
    merge_entries dir upper listed ({[de_name e]} ∪ taken)
      (MkMerged (if fresh && negb white then me_entries merged ++ [e] else me_entries merged)
        (me_upper_whiteouts merged || (white && upper)))
  end.

Fixpoint read_merged_from (index : nat) (level : Level) (taken : gset (list byte))
    (merged : MergedEntries) : M MergedEntries :=
  match level with
  | [] => ret merged
  | None :: level => read_merged_from (S index) level taken merged
  | Some dir :: level =>
    let! listed := Layer.entries dir in
    let! (taken, merged) := merge_entries dir (index =? UPPER)%nat listed taken merged in
    read_merged_from (S index) level taken merged
  end.
Definition read_merged (level : Level) : M MergedEntries :=
  read_merged_from 0 level ∅ (MkMerged [] false).

Definition dir_read_merged (level : Level) : M (list DirEntry) :=
  let! merged := read_merged level in ret (me_entries merged).

Definition check_empty_dir (d : did) : M (option bool) :=
  let! at_ := dir d in
  let! l := level at_ in
  let! merged := read_merged l in
  ret (match me_entries merged with [] => Some (me_upper_whiteouts merged) | _ => None end).

(** ** [overlay/stack/copy_up.rs] *)

(** The climb to the first directory the upper holds, the ones below it to be
    made.  As many steps as there are dentries reach a root. *)
Fixpoint climb (turns : nat) (at_ : ViewDir) (unmade : list ViewDir)
  : M (OverlayPath * list ViewDir) :=
  match turns with
  | O => panic
  | S turns =>
    let! l := level at_ in
    match upper_of l with
    | Some held => ret (held, unmade)
    | None => let! next := parent (vd_dentry at_) in climb turns next (at_ :: unmade)
    end
  end.

Definition copy_up_dir (fs : OverlayFs) (d : ViewDir) (above : OverlayPath) : M OverlayPath :=
  let! n := name (vd_dentry d) in
  Kept.copying_up (vd_inode d) (
    let! l := level d in
    match upper_of l with
    | Some held => ret held
    | None =>
      let! lower :=
        match shown l with [] => fail NotFound | lower :: _ => Layer.getattr lower end in
      let! (work, temp) := tempname fs in
      Layer.do_mkdir work temp ;;!
      let! made := attempt (
        let! made := Layer.open_dir work temp in Layer.set_timestamps made lower) in
      let! above_times := Layer.getattr above in
      let! moved := attempt (
        lift made ;;! Layer.do_rename work temp above n (Some NoReplace)) in
      match moved with
      | Err e => attempt (Layer.do_rmdir work temp) ;;! fail e
      | Ok tt =>
        attempt (Layer.set_timestamps above above_times) ;;!
        let! made := Layer.open_dir above n in
        Kept.inode_update (vd_inode d) made ;;! ret made
      end
    end).

Fixpoint copy_up_dirs (fs : OverlayFs) (unmade : list ViewDir) (made : OverlayPath) : M OverlayPath :=
  match unmade with
  | [] => ret made
  | d :: unmade => let! made := copy_up_dir fs d made in copy_up_dirs fs unmade made
  end.

Definition upper_dir (fs : OverlayFs) (d : ViewDir) : M OverlayPath :=
  let! turns := asks (fun w => Some (fuel_of w)) in
  let! (made, unmade) := climb turns d [] in
  copy_up_dirs fs unmade made.

Definition is_in_upper (fs : OverlayFs) (real : did) : M bool :=
  match ofs_work fs with
  | None => ret false
  | Some work =>
    let! above := reads (Dcache.parent (lay_dentry work)) in reads (is_subdir real above)
  end.

(** [copy.setattr]: [TmpfsFile::setattr]. *)
Definition copy_up_file (turns : nat) (fs : OverlayFs) (d : ViewDir) (child : did) (truncate : bool)
  : M unit :=
  let! n := name child in
  let! target := upper_dir fs d in
  let! i := inode child in
  let! i := match i with Some i => ret i | None => fail NotFound end in
  let! kept := Kept.file_of i in
  match kept with
  | None => fail NotFound
  | Some _ =>
    Kept.copying_up i (
      let! real := Kept.path_real i in
      let! copied := is_in_upper fs (lay_dentry real) in
      if copied : bool then ret tt
      else
        let! lower := Layer.getattr real in
        if negb (bool_decide (file_type lower = RegFile)) then fail PermissionDenied
        else
          let! copy := Layer.do_tmpfile target in
          (if truncate then ret tt
           else
             let! source := Layer.open_realfile real Layer.read_how in
             copy_whole turns (fo_read_iter source) (file_write_iter copy)) ;;!
          regular_apply_times copy (Layer.timestamps lower) ;;!
          let! above_times := Layer.getattr target in
          let! linked := Layer.do_link target copy n in
          attempt (Layer.set_timestamps target above_times) ;;!
          Kept.set_real i (Layer.beneath target linked))
  end.

(** ** [overlay/stack/dir.rs] *)

Definition cleanup_and_whiteout (fs : OverlayFs) (dir : OverlayPath) (n : list byte) : M unit :=
  let! (work, temp) := tempname fs in
  Layer.do_whiteout work temp ;;!
  let! there := entry dir n in
  let! is_dir := is_directory there in
  let! moved := attempt (Layer.do_rename work temp dir n (if is_dir : bool then Some Exchange else None)) in
  match moved with
  | Err e => attempt (Layer.do_unlink work temp) ;;! fail e
  | Ok tt => if is_dir then attempt (ovl_cleanup work temp) ;;! ret tt else ret tt
  end.

Definition exchange_in {A} (fs : OverlayFs) (dir : OverlayPath) (n : list byte)
    (make : OverlayPath -> list byte -> M A) : M A :=
  let! (work, temp) := tempname fs in
  let! made := attempt (
    let! made := make work temp in
    Layer.do_rename work temp dir n (Some Exchange) ;;! ret made) in
  match made with
  | Err e => attempt (ovl_cleanup work temp) ;;! fail e
  | Ok made =>
    attempt (ovl_cleanup_whiteouts work temp ;;! ovl_cleanup work temp) ;;! ret made
  end.

Definition clear_empty (fs : OverlayFs) (dir : OverlayPath) (n : list byte) : M unit :=
  exchange_in fs dir n (fun work temp =>
    Layer.do_mkdir work temp ;;!
    let! made := Layer.open_dir work temp in Layer.set_opaque made).

Definition upper_holds (fs : OverlayFs) (d : did) : M bool :=
  let! i := inode d in
  match i with
  | None => ret false
  | Some i =>
    let! kept := private_of i in
    match kept with
    | Some (FileKept real _) => is_in_upper fs (lay_dentry real)
    | Some (DirKept l _) => ret (bool_decide (is_Some (upper_of l)))
    | None => ret false
    end
  end.

Definition do_remove (fs : OverlayFs) (dir : ViewDir) (d : did) (upper_whiteouts : bool) : M unit :=
  let! n := name d in
  let! l := level dir in
  let! shown_below := ovl_lower_positive l n in
  let! holds := upper_holds fs d in
  (if upper_whiteouts then let! up := layer_dir (upper_of l) in clear_empty fs up n else ret tt) ;;!
  match shown_below : bool, holds : bool with
  | true, _ => let! up := upper_dir fs dir in cleanup_and_whiteout fs up n
  | false, true => let! up := layer_dir (upper_of l) in ovl_cleanup up n
  | false, false => fail NotFound
  end.

(** *** [overlay/file.rs]'s [ovl_file] *)
Definition ovl_file (file : FileOps) (real : did) (i : iid) : M FileOps :=
  let! h := fresh_address in
  on_opened (<[h := MkOverlayFile file real i None]>) ;;!
  ret (ov_open (ViewFile h (fo_is_stream file))).

Definition open (turns : nat) (fs : OverlayFs) (dir : ViewDir) (child : did) (how : OpenHow)
  : M FileOps :=
  let! i := named_inode child in
  let! kept := Kept.file_of i in
  match kept with
  | None => fail IsADirectory
  | Some real =>
    let! up := is_in_upper fs (lay_dentry real) in
    if up : bool then Layer.open_realfile real how
    else if negb (how_write how || how_truncate how) then
      let! file := Layer.open_realfile real how in ovl_file file (lay_dentry real) i
    else
      copy_up_file turns fs dir child (how_truncate how) ;;!
      let! real := Kept.path_real i in Layer.open_realfile real how
  end.

Definition create (fs : OverlayFs) (dir : ViewDir) (n : list byte) : M unit :=
  let! up := upper_dir fs dir in
  let! white := Layer.is_whiteout up n in
  if white : bool then exchange_in fs up n Layer.do_create else Layer.do_create up n.

Definition mkdir (fs : OverlayFs) (dir : ViewDir) (n : list byte) : M unit :=
  let! up := upper_dir fs dir in
  let! white := Layer.is_whiteout up n in
  if white : bool then clear_empty fs up n else Layer.do_mkdir up n.

Definition rmdir (fs : OverlayFs) (dir : ViewDir) (d : did) : M unit :=
  let! empty := check_empty_dir d in
  match empty with
  | Some upper_whiteouts => do_remove fs dir d upper_whiteouts
  | None => fail DirectoryNotEmpty
  end.

Definition unlink (fs : OverlayFs) (dir : ViewDir) (d : did) : M unit := do_remove fs dir d false.

Definition can_move (fs : OverlayFs) (moved : did) (moving : FileType) : M bool :=
  if bool_decide (moving = Dir) then
    let! at_ := dir moved in
    let! l := level at_ in
    ret (bool_decide (is_Some (upper_of l)) && (length (shown (lower_of l)) =? 0)%nat)
  else if bool_decide (moving = RegFile) then ret true else upper_holds fs moved.

Definition rename (turns : nat) (fs : OverlayFs) (from : ViewDir) (moved : did) (to : ViewDir)
    (target : did) : M unit :=
  let! from_name := name moved in
  let! to_name := name target in
  let! from_level := level from in
  let! moving := kind moved in
  let! to_level := level to in
  let is_dir := bool_decide (moving = Dir) in
  let! movable := can_move fs moved moving in
  if negb movable then fail CrossesDevices
  else
    let! onto := kind_ok target in
    let! upper_whiteouts :=
      if bool_decide (onto = Some Dir) then
        let! empty := check_empty_dir target in
        match empty with Some whiteouts => ret whiteouts | None => fail DirectoryNotEmpty end
      else ret false in
    let! shown_below := ovl_lower_positive from_level from_name in
    (if bool_decide (moving = RegFile) then copy_up_file turns fs from moved false else ret tt) ;;!
    let! target_dir := upper_dir fs to in
    (if upper_whiteouts : bool then clear_empty fs target_dir to_name else ret tt) ;;!
    let! from_level := level from in
    let! source_dir := layer_dir (upper_of from_level) in
    let into_merged := negb (length (shown (lower_of to_level)) =? 0)%nat in
    (if is_dir && into_merged then
       let! d := Layer.open_dir source_dir from_name in Layer.set_opaque d
     else ret tt) ;;!
    let! onto_whiteout := Layer.is_whiteout target_dir to_name in
    let flag :=
      match shown_below : bool, onto_whiteout : bool with
      | true, true => Some Exchange
      | true, false => Some Whiteout
      | false, true => if is_dir then Some Exchange else None
      | false, false => None
      end in
    Layer.do_rename source_dir from_name target_dir to_name flag ;;!
    if bool_decide (flag = Some Exchange) && negb shown_below
    then Layer.do_unlink source_dir from_name else ret tt.
End Stack.
End Fs.

(** ** [overlay.rs]: what a view's tables answer *)
Module View.
Section View.
Context {T : FsTypes} `{!TmpfsIn T} `{!OverlayIn T} `{!VfsTables T} `{!LruCache} `{!FileTables T}.

(** [layer.root()?.inode()] and what it answers through. *)
Definition root_ops (s : sbid) : M (option InodeOps) :=
  let! sb := sb_at s in
  match s_root sb with
  | None => ret None
  | Some d =>
    let! i := inode d in
    match i with Some i => let! x := inode_at i in ret (Some (i_ops x)) | None => ret None end
  end.

Fixpoint overlapping (layers : list sbid) : bool :=
  match layers with
  | [] => false
  | s :: layers => existsb (Nat.eqb s) layers || overlapping layers
  end.

Definition is_tmpfs (o : option InodeOps) : bool :=
  match o ≫= tm_downcast with Some (TmpfsDirectory _ _) => true | _ => false end.

(** [max] of the depths beneath. *)
Fixpoint deepest (layers : list sbid) : M nat :=
  match layers with
  | [] => ret 0%nat
  | s :: layers =>
    let! o := root_ops s in
    let! rest := deepest layers in
    ret (Nat.max (match o ≫= ov_downcast with
                  | Some (OverlayDirectory o) => ov_stack_depth o
                  | _ => 0%nat
                  end) rest)
  end.

(** [Overlay::new]. *)
Definition new (turns : nat) (lower : list sbid) (upper : option sbid) : M Overlay :=
  if overlapping (lower ++ match upper with Some s => [s] | None => [] end) then fail InvalidInput
  else
    let too_few := match upper with Some _ => 1%nat | None => 2%nat end in
    let! upper_tmpfs :=
      match upper with None => ret true | Some s => let! o := root_ops s in ret (is_tmpfs o) end in
    let! below := deepest lower in
    let stack_depth := S below in
    if negb ((too_few <=? length lower)%nat && (length lower <=? MAX_LOWER_LAYERS)%nat)
       || negb upper_tmpfs || (MAX_STACK_DEPTH <? stack_depth)%nat
    then fail InvalidInput
    else let! fs := Fs.new turns lower upper in ret (MkOverlay fs stack_depth).

Definition ops_of (o : Overlay) (kind : FileType) : InodeOps :=
  ov_inode (match kind with
            | Dir => OverlayDirectory o
            | Symlink => OverlayLink o
            | _ => OverlayRegular o
            end).

(** [fill_super]. *)
Definition fill_super (o : Overlay) (s : sbid) : M unit :=
  set_default_d_op s (ov_dentry o) ;;!
  (if Fs.has_upper (ov_fs o) then ret tt else set_rdonly s) ;;!
  let! identity := Fs.root_identity (ov_fs o) in
  let root := kstat_new Dir 0 in
  let root := match identity with Some i => onto i root | None => root end in
  let! i := inode_new root (ov_inode (OverlayDirectory o)) in
  Kept.ovl_inode_init i (Fs.root_dir (ov_fs o)) ;;!
  d_make_root s i.

(** *** A directory *)
Definition getattr (o : Overlay) (d : did) : M Kstat :=
  let! at_ := Fs.dir d in let! l := Fs.level at_ in Fs.dir_getattr l.

Definition setattr (o : Overlay) (d : did) (attr : Iattr FileOps) : M unit :=
  let! at_ := Fs.dir d in
  let! up := Fs.upper_dir (ov_fs o) at_ in
  let! held := inode_lock (lay_dentry up) in
  holding [held] (notify_change (lay_dentry up) attr).

Definition lookup (o : Overlay) (d : did) : M Lookup :=
  let! at_ := Fs.parent d in
  let! l := Fs.level at_ in
  let! n := name d in
  if NAME_MAX <? len n then fail InvalidFilename
  else
    let! found := Fs.lookup_layer l n in
    match found with
    | None => ret Absent
    | Some (index, found) =>
      let stored := le_stored_name found in
      let! i := Fs.lookup (ov_fs o) l stored index found (ops_of o) in
      ret (if str_eq stored n then Found i else Spelled stored i)
    end.

Fixpoint open_each (dirs : list OverlayPath) : M (list FileOps) :=
  match dirs with
  | [] => ret []
  | dir :: dirs =>
    let! f := Layer.open_real dir in
    let! rest := open_each dirs in ret (f :: rest)
  end.
Definition open (o : Overlay) (d : did) : M FileOps :=
  let! at_ := Fs.dir d in
  let! l := Fs.level at_ in
  let! real := open_each (shown l) in
  let! h := fresh_address in
  ret (ov_open (ViewDirectory h (ov_fs o) real)).

Definition create (o : Overlay) (d : did) : M unit :=
  let! at_ := Fs.parent d in
  let! n := name d in
  Fs.create (ov_fs o) at_ n ;;!
  let! found := lookup o d in
  match found with
  | Found i => add d (Some i)
  | _ => fail NotFound
  end.

Definition mkdir (o : Overlay) (d : did) : M unit :=
  let! at_ := Fs.parent d in let! n := name d in Fs.mkdir (ov_fs o) at_ n.
Definition rmdir (o : Overlay) (d : did) : M unit :=
  let! at_ := Fs.parent d in Fs.rmdir (ov_fs o) at_ d.
Definition unlink (o : Overlay) (d : did) : M unit :=
  let! at_ := Fs.parent d in Fs.unlink (ov_fs o) at_ d.

Definition rename (turns : nat) (o : Overlay) (from to : did) (flag : option RenameFlag) : M unit :=
  if bool_decide (is_Some flag) then fail InvalidInput
  else
    let! at_ := Fs.parent from in
    let! to_at := Fs.parent to in
    Fs.rename turns (ov_fs o) at_ from to_at to.

(** *** What is no directory *)
Definition real_of (d : did) : M (did * iid) :=
  let! i := named_inode d in
  let! real := Kept.file_of i in
  match real with Some real => ret (lay_dentry real, i) | None => fail NotFound end.

Definition real_getattr (d : did) : M Kstat :=
  let! (real, i) := real_of d in
  let! found := Dcache.getattr real in
  let! x := inode_at i in
  ret (match i_identity x with Some identity => onto identity found | None => found end).

Definition regular_setattr (turns : nat) (o : Overlay) (d : did) (attr : Iattr FileOps) : M unit :=
  let! at_ := Fs.parent d in
  Fs.copy_up_file turns (ov_fs o) at_ d false ;;!
  let! (real, _) := real_of d in
  let! held := inode_lock real in
  holding [held] (notify_change real
    (MkIattr (ia_size attr) (ia_atime attr) (ia_mtime attr) false (ia_ctime attr) None)).

Definition regular_open (turns : nat) (o : Overlay) (d : did) (how : OpenHow) : M FileOps :=
  let! at_ := Fs.parent d in Fs.open turns (ov_fs o) at_ d how.

Definition link_get_link (d : did) : M (list byte) :=
  let! (real, _) := real_of d in get_link real.

(** *** Names *)
Definition ovl_revalidate_real (real : did) : M bool :=
  let! x := dentry_at real in
  match d_ops x with
  | Some ops =>
    let! above := reads (Dcache.parent real) in
    let! o := inode_ops above in dop_revalidate ops o real
  | None => ret true
  end.

Fixpoint revalidate_each (dirs : list OverlayPath) : M bool :=
  match dirs with
  | [] => ret true
  | dir :: dirs =>
    let! valid := ovl_revalidate_real (lay_dentry dir) in
    if valid : bool then revalidate_each dirs else ret false
  end.

Fixpoint match_each (above below : Level) (n : list byte) : M bool :=
  match above, below with
  | Some layer :: above, Some at_ :: below =>
    let! same := Layer.matches_real layer n (lay_dentry at_) in
    if same : bool then match_each above below n else ret false
  | _ :: above, _ :: below => match_each above below n
  | _, _ => ret true
  end.

Definition revalidate (o : Overlay) (d : did) : M bool :=
  let! i := inode d in
  match i with
  | None => let! found := lookup o d in ret (match found with Absent => true | _ => false end)
  | Some i =>
    let! kept := private_of i in
    match kept with
    | Some (FileKept real _) => ovl_revalidate_real (lay_dentry real)
    | Some (DirKept below _) =>
      let! valid := revalidate_each (shown below) in
      if negb valid then ret false
      else
        let! n := name d in
        let! at_ := Fs.parent d in
        let! above := Fs.level at_ in
        match_each above below n
    | None => ret true
    end
  end.

(** [goes_when_unused] of a Layer's dentry, which [delete] only reads. *)
Definition real_goes (real : did) : Rd bool :=
  fun w => x ← w_dentries w !! real;
           match d_ops x with Some ops => dop_delete ops real w | None => Some (Ok false) end.
Fixpoint any_goes (dirs : list OverlayPath) : Rd bool :=
  match dirs with
  | [] => fun _ => Some (Ok false)
  | dir :: dirs =>
    rd_bind (real_goes (lay_dentry dir)) (fun goes : bool =>
      if goes then fun _ => Some (Ok true) else any_goes dirs)
  end.
Definition delete (d : did) : Rd bool :=
  fun w =>
    x ← w_dentries w !! d;
    match d_inode x with
    | None => Some (Ok false)
    | Some i =>
      match privates (ov_store (w_fs w)) !! i with
      | Some (FileKept real _) => real_goes (lay_dentry real) w
      | Some (DirKept below _) => any_goes (shown below) w
      | None => Some (Ok false)
      end
    end.

(** ** [overlay/file.rs]: a lower Layer's file open to read *)
Definition real_file (h : nat) : M FileOps :=
  let! f := asks (fun w => opened (ov_store (w_fs w)) !! h) in
  match of_upper f with
  | Some upper => ret upper
  | None =>
    let! real := Kept.path_real (of_inode f) in
    if (lay_dentry real =? of_real f)%nat then ret (of_file f)
    else
      let! upper := Layer.open_realfile real Layer.read_how in
      on_opened (<[h := MkOverlayFile (of_file f) (of_real f) (of_inode f) (Some upper)]>) ;;!
      ret upper
  end.

Definition file_read_iter (h : nat) (iocb : Kiocb) (buf : list byte) : M (Kiocb * Z * list byte) :=
  let! f := real_file h in fo_read_iter f iocb buf.
Definition file_fsync (h : nat) (datasync : bool) : M unit :=
  let! f := real_file h in fo_fsync f datasync.
Definition file_flush (h : nat) : M unit :=
  let! f := asks (fun w => opened (ov_store (w_fs w)) !! h) in fo_flush (of_file f).

(** ** [rdir.rs]: a directory of the view, open *)

(** What is counted against an account, one call of [Cred]'s at a time. *)
Definition on_account {A} (a : option nat) (f : option VmCommitted -> A * option VmCommitted) : M A :=
  match a with
  | None => ret (f None).1
  | Some a =>
    let! held := asks (fun w => accounts (ov_store (w_fs w)) !! a) in
    let '(r, held) := f (Some held) in
    on_accounts (fun m => match held with Some c => <[a := c]> m | None => m end) ;;! ret r
  end.
Definition charge (a : option nat) (bytes : Z) : M unit :=
  let! r := on_account a (security_vm_enough_memory bytes) in lift r.
(** A listing let go of. *)
Definition uncharge (l : Listing) : M unit :=
  on_account (li_committed l) (fun c => (tt, vm_unacct_memory (li_bytes l) c)).

Definition dots (d : did) : M (list DirEntry) :=
  let! dot := Dcache.getattr d in
  let! above := reads (Dcache.parent d) in
  let! dotdot := Dcache.getattr above in
  ret [dir_entry_with_identity (st_dev dot) (st_ino dot) (dir_entry_new (lit ".") Dir);
       dir_entry_with_identity (st_dev dotdot) (st_ino dotdot) (dir_entry_new (lit "..") Dir)].

Fixpoint emit_from (listed : list DirEntry) (c : DirContext) : bool * DirContext :=
  match listed with
  | [] => (true, c)
  | e :: listed =>
    let '(took, c) := dir_emit e c in
    if took then emit_from listed (ctx_set_pos (as_u64 (ctx_pos c + 1)) c) else (false, c)
  end.

(** [Rdir::iterate]. *)
Definition rdir_iterate (h : nat) (d : did) (c : DirContext) (read : M (list DirEntry))
  : M (result FilesystemError unit * DirContext) :=
  let! held := asks (fun w => Some (listings (ov_store (w_fs w)) !! h)) in
  on_listings (base.delete h) ;;!
  let! held :=
    match held with
    | Some l => if ctx_pos c =? 0 then uncharge l ;;! ret None else ret (Some l)
    | None => ret None
    end in
  let! listing := attempt (
    match held with
    | Some l => ret l
    | None =>
      let! listed := read in
      let! above := dots d in
      let listed := above ++ listed in
      let bytes := ov_listing_bytes listed in
      charge (ctx_committed c) bytes ;;! ret (MkListing listed (ctx_committed c) bytes)
    end) in
  match listing with
  | Err e => ret (Err e, c)
  | Ok l =>
    let '(all, c) := emit_from (skipn (Z.to_nat (ctx_pos c)) (li_entries l)) c in
    (if all then uncharge l else on_listings (<[h := l]>)) ;;! ret (Ok tt, c)
  end.

Definition dir_iterate_shared (h : nat) (fs : OverlayFs) (d : did) (c : DirContext)
  : M (result FilesystemError unit * DirContext) :=
  rdir_iterate h d c (
    let! at_ := Fs.dir d in let! l := Fs.level at_ in Fs.dir_read_merged l).
End View.
End View.

(** ** A view's tables over its Layers'

    [turns] is how many chunks a copy up may read. *)
Section Tables.
Context {T : FsTypes} `{!TmpfsIn T} `{!OverlayIn T} `{!LruCache}.
Context (turns : nat) (V : VfsTables T) (F : FileTables T).

Definition stacked_tables : VfsTables T := {|
  op_permission o d mask :=
    match ov_downcast o with Some _ => default_permission d mask | None => op_permission o d mask end;
  op_getattr o d :=
    match ov_downcast o with
    | Some (OverlayDirectory v) => View.getattr v d
    | Some _ => View.real_getattr d
    | None => op_getattr o d
    end;
  op_setattr o d attr :=
    match ov_downcast o with
    | Some (OverlayDirectory v) => View.setattr v d attr
    | Some (OverlayRegular v) => View.regular_setattr turns v d attr
    | Some (OverlayLink _) => default_setattr d attr
    | None => op_setattr o d attr
    end;
  op_lookup o d :=
    match ov_downcast o with
    | Some (OverlayDirectory v) => View.lookup v d
    | Some _ => default_lookup d
    | None => op_lookup o d
    end;
  op_get_link o d :=
    match ov_downcast o with
    | Some (OverlayLink _) => View.link_get_link d
    | Some _ => default_get_link d
    | None => op_get_link o d
    end;
  op_open o d how :=
    match ov_downcast o with
    | Some (OverlayDirectory v) => View.open v d
    | Some (OverlayRegular v) => View.regular_open turns v d how
    | Some (OverlayLink _) => default_open d how
    | None => op_open o d how
    end;
  op_create o d :=
    match ov_downcast o with
    | Some (OverlayDirectory v) => View.create v d
    | Some _ => default_create d
    | None => op_create o d
    end;
  op_atomic_open o d how :=
    match ov_downcast o with
    | Some (OverlayDirectory v) => default_atomic_open (View.lookup v) (View.create v) d how
    | Some _ => default_atomic_open default_lookup default_create d how
    | None => op_atomic_open o d how
    end;
  op_mkdir o d :=
    match ov_downcast o with
    | Some (OverlayDirectory v) => View.mkdir v d
    | Some _ => default_mkdir d
    | None => op_mkdir o d
    end;
  op_link o old d :=
    match ov_downcast o with Some _ => default_link old d | None => op_link o old d end;
  op_symlink o d target :=
    match ov_downcast o with Some _ => default_symlink d target | None => op_symlink o d target end;
  op_rmdir o d :=
    match ov_downcast o with
    | Some (OverlayDirectory v) => View.rmdir v d
    | Some _ => default_rmdir d
    | None => op_rmdir o d
    end;
  op_unlink o d :=
    match ov_downcast o with
    | Some (OverlayDirectory v) => View.unlink v d
    | Some _ => default_unlink d
    | None => op_unlink o d
    end;
  op_rename o from to_dir to flag :=
    match ov_downcast o with
    | Some (OverlayDirectory v) => View.rename turns v from to flag
    | Some _ => default_rename from to_dir to flag
    | None => op_rename o from to_dir to flag
    end;
  dop_revalidate ops o d :=
    match ov_dentry_of ops with Some v => View.revalidate v d | None => dop_revalidate ops o d end;
  dop_delete ops d :=
    match ov_dentry_of ops with Some _ => View.delete d | None => dop_delete ops d end;
  empty_fops := empty_fops;
|}.

Definition stacked_files : FileTables T := {|
  fo_llseek f :=
    match ov_open_of f with Some _ => generic_file_llseek | None => fo_llseek f end;
  fo_read_iter f :=
    match ov_open_of f with
    | Some (ViewFile h _) => View.file_read_iter h
    | Some (ViewDirectory _ _ _) => fun iocb buf => let! n := lift generic_read_dir in ret (iocb, n, buf)
    | None => fo_read_iter f
    end;
  fo_write_iter f :=
    match ov_open_of f with Some _ => default_write_iter | None => fo_write_iter f end;
  fo_iterate_shared f :=
    match ov_open_of f with
    | Some (ViewDirectory h fs _) => View.dir_iterate_shared h fs
    | Some (ViewFile _ _) => default_iterate_shared
    | None => fo_iterate_shared f
    end;
  fo_fallocate f :=
    match ov_open_of f with Some _ => default_fallocate | None => fo_fallocate f end;
  fo_poll f := match ov_open_of f with Some _ => default_poll | None => fo_poll f end;
  fo_fsync f :=
    match ov_open_of f with
    | Some (ViewFile h _) => View.file_fsync h
    | Some (ViewDirectory _ _ _) => fun _ => ret tt
    | None => fo_fsync f
    end;
  fo_flush f :=
    match ov_open_of f with
    | Some (ViewFile h _) => View.file_flush h
    | Some (ViewDirectory _ _ _) => default_flush
    | None => fo_flush f
    end;
  fo_is_stream f :=
    match ov_open_of f with
    | Some (ViewFile _ stream) => stream
    | Some (ViewDirectory _ _ _) => false
    | None => fo_is_stream f
    end;
|}.
End Tables.
