(* ===== verification/OverlaySample.v ===== *)
(** Overlays of Tmpfs instances: one state holding the objects of both, the
    tables of each under the other's, and calls through a view's mount run to
    what they answer. *)
From stdpp Require Import gmap.
From S2P Require Import Prelude Text Locking VfsTypes World Dcache Cred OpenFile Namei Tmpfs OverlayFs.
Local Open Scope vfs_scope.

Inductive StackInode := OnTmpfs (o : TmpfsInode) | OnView (v : ViewInode).
Inductive StackDentry := DTmpfs | DView (o : Overlay).
Inductive StackOpen := FTmpfs (f : TmpfsOpen) | FView (f : ViewOpen StackOpen).

#[export] Instance stack_types : FsTypes := {|
  FsState := Store * OvStore StackOpen;
  InodeOps := StackInode;
  DentryOps := StackDentry;
  FileOps := StackOpen;
  Lru := list did;
  Blob := unit;
|}.

#[export] Instance stack_tmpfs : TmpfsIn stack_types := {|
  tm_store s := s.1;
  tm_set_store x s := (x, s.2);
  tm_inode := OnTmpfs;
  tm_downcast o := match o with OnTmpfs o => Some o | OnView _ => None end;
  tm_dentry := DTmpfs;
|}.

#[export] Instance stack_overlay : OverlayIn stack_types := {|
  ov_store s := s.2;
  ov_set_store x s := (s.1, x);
  ov_inode := OnView;
  ov_downcast o := match o with OnView v => Some v | OnTmpfs _ => None end;
  ov_dentry := DView;
  ov_open := FView;
  ov_dentry_of o := match o with DView v => Some v | DTmpfs => None end;
  ov_open_of f := match f with FView f => Some f | FTmpfs _ => None end;
  ov_listing_bytes l := 64 * Z.of_nat (length l);
|}.

#[export] Instance stack_lru : @LruCache stack_types := {|
  lru_new := [] : @Lru stack_types;
  lru_push d l := d :: List.filter (fun x => negb (x =? d)%nat) l;
  lru_pop d l := List.filter (fun x => negb (x =? d)%nat) l;
  lru_iter l := l;
|}.

(** The tables of Tmpfs alone, which no view's object reaches. *)
Definition as_tmpfs (o : StackInode) : TmpfsInode :=
  match o with OnTmpfs o => o | OnView _ => TmpfsWhiteout end.
Definition as_open (f : StackOpen) : TmpfsOpen :=
  match f with FTmpfs f => f | FView _ => EmptyFops end.

Definition layer_tables : VfsTables stack_types := {|
  op_permission _ := default_permission;
  op_getattr o := tm_getattr (as_tmpfs o);
  op_setattr o := tm_setattr (as_tmpfs o);
  op_lookup o := tm_lookup (as_tmpfs o);
  op_get_link _ := default_get_link;
  op_open o d how := let! f := tm_open (as_tmpfs o) d how in ret (FTmpfs f : @FileOps stack_types);
  op_create o := tm_create (as_tmpfs o);
  op_atomic_open o := tm_atomic_open (as_tmpfs o);
  op_mkdir o := tm_mkdir (as_tmpfs o);
  op_link _ := default_link;
  op_symlink _ := default_symlink;
  op_rmdir o := tm_rmdir (as_tmpfs o);
  op_unlink o := tm_unlink (as_tmpfs o);
  op_rename o := tm_rename (as_tmpfs o);
  dop_revalidate _ o := tmpfs_dentry_revalidate (as_tmpfs o);
  dop_delete _ := default_delete;
  empty_fops := FTmpfs EmptyFops;
|}.

Definition layer_files : FileTables stack_types := {|
  fo_llseek f := match as_open f with EmptyFops => default_llseek | _ =>
    @generic_file_llseek _ layer_tables end;
  fo_read_iter f := tm_read_iter (as_open f);
  fo_write_iter f := tm_write_iter (as_open f);
  fo_iterate_shared f := tm_iterate_shared (as_open f);
  fo_fallocate f := tm_fallocate (as_open f);
  fo_poll _ := default_poll;
  fo_fsync f := tm_fsync (as_open f);
  fo_flush _ := default_flush;
  fo_is_stream _ := false;
|}.

(** A copy up may read 64 chunks, and Overlays stack twice. *)
Definition TURNS : nat := 64.
Definition once_tables : VfsTables stack_types := stacked_tables TURNS layer_tables layer_files.
Definition once_files : FileTables stack_types := stacked_files layer_tables layer_files.
#[export] Instance view_tables : VfsTables stack_types := stacked_tables TURNS once_tables once_files.
#[export] Instance view_files : FileTables stack_types := stacked_files once_tables once_files.

Definition blank : world :=
  MkWorld stack_types (MkStore ∅ ∅ ∅ ∅ 0%nat 1 (fun _ => true) 0%nat, MkOvStore ∅ ∅ ∅ ∅ ∅)
    ∅ ∅ ∅ 0 1%nat 0%nat (fun _ _ => true) Z.of_nat 0%nat 0%nat [].

Definition seeded (seeds : list (list byte * list byte)) : M (T:=stack_types) sbid :=
  let! made := try_from_iter seeds in
  match made with
  | inl _ => panic
  | inr fs => super_block_new (fill_super fs)
  end.

(** *** A view of one lower Layer, which holds [dir/file] and [kept], under an
    upper *)
Record Places := MkPlaces { p_view : Path; p_low : Path; p_up : Path }.

Definition nobody : Cred (T:=stack_types) := cred_within [] None.
Definition mounted (s : sbid) : M (T:=stack_types) Path :=
  let! m := vfs_mount_new s false in ret (path_root m).
Definition placed : M (T:=stack_types) Places :=
  let! lower := seeded [(lit "dir/file", lit "lower"); (lit "kept", lit "k")] in
  let! upper := seeded [] in
  let! o := @View.new _ _ _ once_tables _ once_files TURNS [lower] (Some upper) in
  let! s := super_block_new (View.fill_super o) in
  let! view := mounted s in let! low := mounted lower in let! up := mounted upper in
  ret (MkPlaces view low up).

Definition how_to (write : bool) : OpenHow :=
  MkOpenHow (negb write) write write false write false true false false false false.
Definition opened_at (p : Path) (n : list byte) (write : bool) : M (T:=stack_types) File :=
  let! flags := lift (build_open_flags (how_to write)) in
  do_file_open nobody (start_at p) n flags.
Definition write_at (p : Path) (n bytes : list byte) : M (T:=stack_types) unit :=
  let! f := opened_at p n true in let! (_, _) := write f bytes in ret tt.
Definition read_at (p : Path) (n : list byte) : M (T:=stack_types) (list byte) :=
  let! f := opened_at p n false in
  let! (got, buf, _) := read f (replicate 20 x00) in ret (firstn (Z.to_nat got) buf).
Definition names_at (p : Path) (n : list byte) : M (T:=stack_types) (list (list byte)) :=
  let! f := opened_at p n false in
  let! (answered, c, _) := iterate_dir f (ctx_new 0 (fun _ _ => true)) in
  lift answered ;;! ret (map emit_name (ctx_taken c)).

Definition answers {A} (m : Places -> M (T:=stack_types) A) : option (result FilesystemError A) :=
  fst <$> (let! p := placed in m p) blank.

(** The view's root once [dir] went and [new] was made: the directory it is, and
    each Layer's. *)
Definition changed : M (T:=stack_types) (Fs.ViewDir * Level) :=
  let! p := placed in
  filename_unlinkat nobody (start_at (p_view p)) (lit "dir/file") ;;!
  filename_rmdir nobody (start_at (p_view p)) (lit "dir") ;;!
  write_at (p_view p) (lit "new") (lit "n") ;;!
  let! root := Fs.dir (p_dentry (p_view p)) in
  let! l := Fs.level root in ret (root, l).
Definition changed_root : Fs.ViewDir :=
  match changed blank with Some (Ok (root, _), _) => root | _ => Fs.MkViewDir 0%nat 0%nat end.
Definition changed_level : Level :=
  match changed blank with Some (Ok (_, l), _) => l | _ => [] end.
Definition changed_world : world (T:=stack_types) :=
  match changed blank with Some (_, w) => w | None => blank end.

(** A listing of these names. *)
Definition shows (names : list (list byte))
    (run : option (result FilesystemError (list DirEntry) * world (T:=stack_types))) : bool :=
  match run with
  | Some (Ok entries, _) => bool_decide (map de_name entries = names)
  | _ => false
  end.

(** A file of a Tmpfs that holds five bytes, and one made to copy it to. *)
Definition copying : M (T:=stack_types) (fileid * fileid) :=
  let! made := try_from_iter [] in
  match made with
  | inl _ => panic
  | inr fs =>
    let! source := content_create (t_tree fs) in
    let! _ := file_write source (lit "lower") 0 in
    let! copy := content_create (t_tree fs) in ret (source, copy)
  end.
Definition copying_world : world (T:=stack_types) :=
  match copying blank with Some (_, w) => w | None => blank end.
