(* ===== verification/OverlayPromises.v ===== *)
(** What an Overlay's view shows and what it copies: a listing is each Layer's
    entries with what a Layer above shows or whites out taken once, and a copy up
    takes every byte of what it copies.  Calls through a view of two Tmpfs
    instances show both at work. *)
From stdpp Require Import gmap.
From S2P Require Import Prelude Text Locking VfsTypes World Dcache Cred OpenFile Namei VfsFacts Tmpfs OverlayFs OverlaySample.
Local Open Scope vfs_scope.

(** ** Listings *)
Section Listing.
Context {T : FsTypes} `{!TmpfsIn T} `{!OverlayIn T} `{!VfsTables T} `{LC : !LruCache} `{!FileTables T}.
Implicit Types w : world.

(** An entry a Layer listed, and whether it was a whiteout there. *)
Definition Shown : Type := DirEntry * bool.

(** What each entry listed turned out to be, asked one after another. *)
Inductive told (dir : OverlayPath) : list DirEntry -> world -> list Shown -> world -> Prop :=
| told_nil w : told dir [] w [] w
| told_plain e l w told_l w' :
    de_type e <> Chrdev -> told dir l w told_l w' -> told dir (e :: l) w ((e, false) :: told_l) w'
| told_device e l w white w1 told_l w' :
    de_type e = Chrdev -> Layer.is_whiteout dir (de_name e) w = Some (Ok white, w1) ->
    told dir l w1 told_l w' -> told dir (e :: l) w ((e, white) :: told_l) w'.

(** Each Layer's listing, topmost first. *)
Inductive listed : Level -> world -> list (list Shown) -> world -> Prop :=
| listed_nil w : listed [] w [] w
| listed_none level w l w' : listed level w l w' -> listed (None :: level) w ([] :: l) w'
| listed_layer dir level w entries w1 here w2 l w' :
    Layer.entries dir w = Some (Ok entries, w1) -> told dir entries w1 here w2 ->
    listed level w2 l w' -> listed (Some dir :: level) w (here :: l) w'.

(** The first of each name, and of those what is no whiteout. *)
Fixpoint firsts (taken : gset (list byte)) (l : list Shown) : list Shown :=
  match l with
  | [] => []
  | s :: l =>
    if bool_decide (de_name s.1 ∈ taken) then firsts taken l
    else s :: firsts ({[de_name s.1]} ∪ taken) l
  end.
Definition merged (l : list Shown) : list DirEntry :=
  map fst (List.filter (fun s => negb s.2) (firsts ∅ l)).

Fixpoint after (taken : gset (list byte)) (l : list Shown) : gset (list byte) :=
  match l with [] => taken | s :: l => after ({[de_name s.1]} ∪ taken) l end.

Lemma firsts_app taken l l' : firsts taken (l ++ l') = firsts taken l ++ firsts (after taken l) l'.
Proof.
  revert taken. induction l as [|s l IH]; intros taken; simpl; [done|].
  case_bool_decide as Hin; simpl; rewrite IH; [|done].
  by replace ({[de_name s.1]} ∪ taken) with taken by set_solver.
Qed.

Lemma after_app taken l l' : after taken (l ++ l') = after (after taken l) l'.
Proof. revert taken. by induction l; simpl. Qed.

Definition kept_of (taken : gset (list byte)) (l : list Shown) : list DirEntry :=
  map fst (List.filter (fun s => negb s.2) (firsts taken l)).

Lemma kept_app taken l l' : kept_of taken (l ++ l') = kept_of taken l ++ kept_of (after taken l) l'.
Proof. unfold kept_of. by rewrite firsts_app, List.filter_app, map_app. Qed.

Lemma merge_entries_told dir upper l : forall w taken m r w',
  Fs.merge_entries dir upper l taken m w = Some (Ok r, w') ->
  exists here, told dir l w here w'
    /\ r.1 = after taken here
    /\ Fs.me_entries r.2 = Fs.me_entries m ++ kept_of taken here
    /\ Fs.me_upper_whiteouts r.2 = Fs.me_upper_whiteouts m || (upper && existsb snd here).
Proof.
  induction l as [|e l IH]; intros w taken m r w' H; simpl in H.
  - injection H as <- <-. exists []. split_and!; [constructor | done | by rewrite app_nil_r |].
    by rewrite andb_false_r, orb_false_r.
  - unfold bind in H.
    destruct ((if bool_decide (de_type e = Chrdev)
      then Layer.is_whiteout dir (de_name e) else ret false) w) as [[[white|] w1]|] eqn:Hw; [|done..].
    destruct (IH _ _ _ _ _ H) as (here & Ht & E1 & E2 & E3).
    exists ((e, white) :: here). split_and!.
    + destruct (decide (de_type e = Chrdev)) as [Hc|Hc].
      * rewrite bool_decide_eq_true_2 in Hw by done. by eapply told_device.
      * rewrite bool_decide_eq_false_2 in Hw by done. injection Hw as <- <-. by apply told_plain.
    + done.
    + rewrite E2. unfold kept_of. simpl. destruct (bool_decide (de_name e ∈ taken)) eqn:Hin; simpl.
      * apply bool_decide_eq_true in Hin.
        by replace ({[de_name e]} ∪ taken) with taken by set_solver.
      * destruct white; simpl; [done|]. by rewrite <- app_assoc.
    + rewrite E3. simpl. by destruct upper, white, (Fs.me_upper_whiteouts m), (existsb snd here).
Qed.

Lemma read_merged_from_listed level : forall index w taken m r w',
  Fs.read_merged_from index level taken m w = Some (Ok r, w') ->
  exists l, listed level w l w' /\ Fs.me_entries r = Fs.me_entries m ++ kept_of taken (concat l)
    /\ (forall above, Fs.me_upper_whiteouts m = above -> index <> O -> Fs.me_upper_whiteouts r = above).
Proof.
  induction level as [|[dir|] level IH]; intros index w taken m r w' H; simpl in H.
  - injection H as <- <-. exists []. split_and!; [constructor | by rewrite app_nil_r | by intros above <-].
  - unfold bind in H.
    destruct (Layer.entries dir w) as [[[es|] w1]|] eqn:Ee; [|done..].
    destruct (Fs.merge_entries dir _ es taken m w1) as [[[[taken' m']|] w2]|] eqn:Em; [|done..].
    destruct (merge_entries_told _ _ _ _ _ _ _ _ Em) as (here & Ht & E1 & E2 & E3). simpl in *.
    destruct (IH _ _ _ _ _ _ H) as (l & Hl & E & Hu). exists (here :: l).
    split_and!; [by eapply listed_layer | |].
    + rewrite E, E2, E1. simpl. rewrite kept_app, app_assoc. done.
    + intros above Ha Hi. apply Hu; [|done]. rewrite E3.
      destruct index; [done|]. simpl. by rewrite orb_false_r.
  - destruct (IH _ _ _ _ _ _ H) as (l & Hl & E & Hu). exists ([] :: l).
    split_and!; [by apply listed_none | done |]. intros above Ha Hi. by apply Hu.
Qed.

Lemma read_merged_listed level w r w' :
  Fs.read_merged level w = Some (Ok r, w') ->
  exists l, listed level w l w' /\ Fs.me_entries r = merged (concat l)
    /\ Fs.me_upper_whiteouts r = existsb snd (default [] (head l)).
Proof.
  unfold Fs.read_merged. destruct level as [|[dir|] level]; intros H.
  - injection H as <- <-. exists []. split_and!; [constructor | done..].
  - simpl in H. unfold bind in H.
    destruct (Layer.entries dir w) as [[[es|] w1]|] eqn:Ee; [|done..].
    destruct (Fs.merge_entries dir _ es ∅ _ w1) as [[[[taken' m']|] w2]|] eqn:Em; [|done..].
    destruct (merge_entries_told _ _ _ _ _ _ _ _ Em) as (here & Ht & E1 & E2 & E3). simpl in *.
    destruct (read_merged_from_listed _ _ _ _ _ _ _ H) as (l & Hl & E & Hu).
    exists (here :: l). split_and!; [by eapply listed_layer | |].
    + rewrite E, E2, E1. simpl. unfold merged. fold (kept_of ∅ (here ++ concat l)).
      by rewrite kept_app.
    + by apply Hu.
  - simpl in H. destruct (read_merged_from_listed _ _ _ _ _ _ _ H) as (l & Hl & E & Hu). exists ([] :: l).
    split_and!; [by apply listed_none | done | by apply Hu].
Qed.

(** What is taken is the topmost of its name. *)
Definition topmost (l : list Shown) (s : Shown) : Prop :=
  exists above below, l = above ++ s :: below
    /\ Forall (fun a : Shown => de_name a.1 <> de_name s.1) above.

Lemma firsts_in taken l s :
  s ∈ firsts taken l <-> de_name s.1 ∉ taken /\ topmost l s.
Proof.
  revert taken. induction l as [|a l IH]; intros taken; simpl.
  - split; [by intros ?%not_elem_of_nil | intros (_ & [|] & ? & [=] & _)].
  - assert (Hcons : topmost (a :: l) s <-> s = a \/ (de_name a.1 <> de_name s.1 /\ topmost l s)).
    { split.
      - intros ([|x above] & below & [= -> ->] & Hf); [by left | right].
        inversion Hf; simplify_eq. split; [done | by exists above, below].
      - intros [->|(Hn & above & below & -> & Hf)]; [by exists [], l|].
        exists (a :: above), below. split; [done | by constructor]. }
    destruct (bool_decide (de_name a.1 ∈ taken)) eqn:Hin.
    + apply bool_decide_eq_true in Hin. rewrite IH, Hcons. split.
      * intros [Hs Ht]. split; [done|]. right. split; [congruence | done].
      * intros [Hs [->|[_ Ht]]]; done.
    + apply bool_decide_eq_false in Hin. rewrite elem_of_cons, IH, Hcons, not_elem_of_union.
      rewrite not_elem_of_singleton. split.
      * intros [->|[[Hn Hs] Ht]]; [by split; [|left] | split; [done | right; split; congruence]].
      * intros [Hs [->|[Hn Ht]]]; [by left | right]. split_and!; congruence.
Qed.

Lemma firsts_once taken l : NoDup (map (fun s : Shown => de_name s.1) (firsts taken l)).
Proof.
  revert taken. induction l as [|a l IH]; intros taken; cbn [firsts]; [constructor|].
  case_bool_decide; [done|]. rewrite map_cons. constructor; [|done].
  rewrite list_elem_of_In, in_map_iff. intros (s & E & Hs).
  apply list_elem_of_In, firsts_in in Hs as [Hs _]. set_solver.
Qed.

Lemma merged_once l : NoDup (map de_name (merged l)).
Proof.
  unfold merged. rewrite map_map. pose proof (firsts_once ∅ l) as Hn.
  induction (firsts ∅ l) as [|s k IH]; cbn [List.filter] in *; [done|].
  rewrite map_cons in Hn. inversion Hn as [|? ? Hx Hk]; simplify_eq.
  destruct (negb s.2); [|by apply IH]. rewrite map_cons. constructor; [|by apply IH].
  rewrite list_elem_of_In, in_map_iff in *. intros (y & E & Hy). apply Hx.
  exists y. by apply filter_In in Hy as [Hy _].
Qed.

Lemma merged_in l e : e ∈ merged l <-> topmost l (e, false).
Proof.
  unfold merged. rewrite list_elem_of_In, in_map_iff. split.
  - intros ([e' white] & <- & Hs). apply filter_In in Hs as [Hs Hw].
    simpl in Hw. destruct white; [done|]. by apply list_elem_of_In, firsts_in in Hs as [_ Ht].
  - intros Ht. exists (e, false). split; [done|]. apply filter_In.
    split; [|done]. apply list_elem_of_In, firsts_in. split; [set_solver | done].
Qed.

Lemma merged_nil l : merged l = [] <-> forall e, ~ topmost l (e, false).
Proof.
  split.
  - intros E e He%merged_in. rewrite E in He. by apply elem_of_nil in He.
  - intros H. destruct (merged l) as [|e l'] eqn:E; [done|]. destruct (H e). apply merged_in. rewrite E. by left.
Qed.

(** C22: a directory of a view lists each name once, as the topmost Layer that
    holds the name listed it, and not where that is a whiteout.  It is found
    empty where nothing shows so, whatever its Layers hold, with whether its
    upper listed a whiteout; and where something shows it is not removed. *)
Theorem listings_show_the_topmost level w :
  (forall entries w', Fs.dir_read_merged level w = Some (Ok entries, w') ->
     exists l, listed level w l w' /\ NoDup (map de_name entries)
       /\ forall e, e ∈ entries <-> topmost (concat l) (e, false))
  /\ (forall fs dir d at_ w0 w1 empty w',
        Fs.dir d w0 = Some (Ok at_, w1) -> Fs.level at_ w1 = Some (Ok level, w) ->
        Fs.check_empty_dir d w0 = Some (Ok empty, w') ->
        exists l, listed level w l w'
          /\ match empty with
             | Some whiteouts => (forall e, ~ topmost (concat l) (e, false))
                 /\ whiteouts = existsb snd (default [] (head l))
             | None => (exists e, topmost (concat l) (e, false))
                 /\ Fs.rmdir fs dir d w0 = Some (Err DirectoryNotEmpty, w')
             end).
Proof.
  split.
  - intros entries w'. unfold Fs.dir_read_merged, bind.
    destruct (Fs.read_merged level w) as [[[r|] w1]|] eqn:Er; [|done..]. intros [= <- <-].
    destruct (read_merged_listed _ _ _ _ Er) as (l & Hl & E & _). exists l. rewrite E.
    split_and!; [done | apply merged_once | intros e; apply merged_in].
  - intros fs dir d at_ w0 w1 empty w' Hd Hlv Hc. unfold Fs.rmdir, bind at 1. rewrite Hc. revert Hc.
    unfold Fs.check_empty_dir, bind. rewrite Hd, Hlv.
    destruct (Fs.read_merged level w) as [[[r|] w2]|] eqn:Er; [|done..]. intros [= <- <-].
    destruct (read_merged_listed _ _ _ _ Er) as (l & Hl & E & Hu). exists l. split; [done|].
    rewrite E in *. destruct (merged (concat l)) as [|e es] eqn:Em.
    + split; [by apply merged_nil | done].
    + split; [|done]. exists e. apply merged_in. rewrite Em. by left.
Qed.
End Listing.

(** ** Copies *)

(** A store set is the store read back. *)
Class TmpfsLens (T : FsTypes) `{!TmpfsIn T} : Prop :=
  lens_read x s : tm_store (tm_set_store x s) = x.

Section Copy.
Context {T : FsTypes} `{!TmpfsIn T} `{!TmpfsLens T}.
Implicit Types w : world.

(** The file [f] holds [bytes], of a tree that stands. *)
Definition holds (f : fileid) (bytes : list byte) w : Prop :=
  exists c t, files (tm_store (w_fs w)) !! f = Some c /\ c_bytes c = bytes
    /\ trees (tm_store (w_fs w)) !! c_tree c = Some t.

Lemma on_store_run f w :
  on_store f w = Some (Ok tt, set_fs (tm_set_store (f (tm_store (w_fs w))) (w_fs w)) w).
Proof. done. Qed.

(** What changes a tree's space alone, or a file's times. *)
Definition aside (f : fileid) w w' : Prop := forall bytes, holds f bytes w -> holds f bytes w'.

Lemma aside_on_tree t g f w : aside f w (set_fs (tm_set_store (with_trees (alter g t
    (trees (tm_store (w_fs w)))) (tm_store (w_fs w))) (w_fs w)) w).
Proof.
  intros bytes (c & tr & Hc & Hb & Ht). unfold holds. simpl. rewrite lens_read. simpl.
  exists c. destruct (decide (c_tree c = t)) as [<-|Hne].
  - exists (g tr). by rewrite lookup_alter_eq, Ht.
  - exists tr. by rewrite lookup_alter_ne by done.
Qed.

Lemma on_tree_aside t g f w r w' : on_tree t g w = Some (r, w') -> r = Ok tt /\ aside f w w'.
Proof. intros [= <- <-]. split; [done | apply aside_on_tree]. Qed.

Lemma take_bytes_run f t tr n w :
  trees (tm_store (w_fs w)) !! t = Some tr ->
  exists r w', take_bytes t n w = Some (r, w') /\ (r = Ok tt \/ r = Err StorageFull) /\ aside f w w'.
Proof.
  intros Ht. unfold take_bytes, bind, tree_at, asks. rewrite Ht. simpl.
  destruct (Budget.take n (sp_bytes (tr_space tr))) as [r b] eqn:Eb. simpl. unfold lift.
  eexists r, _. split; [done|]. split; [|apply aside_on_tree].
  unfold Budget.take in Eb. repeat case_match; injection Eb as <- <-; auto.
Qed.

Lemma holds_tree f bytes w :
  holds f bytes w -> exists c t, files (tm_store (w_fs w)) !! f = Some c /\ c_bytes c = bytes
    /\ trees (tm_store (w_fs w)) !! c_tree c = Some t.
Proof. done. Qed.

(** A change of the file's own bytes. *)
Lemma on_file_holds f g (h : list byte -> list byte) bytes w r w' :
  (forall c, c_bytes (g c) = h (c_bytes c) /\ c_tree (g c) = c_tree c) ->
  holds f bytes w -> on_file f g w = Some (r, w') -> r = Ok tt /\ holds f (h bytes) w'.
Proof.
  intros Hg (c & tr & Hc & Hb & Ht) [= <- <-]. split; [done|]. unfold holds. simpl.
  rewrite lens_read. simpl. exists (g c), tr. rewrite lookup_alter_eq, Hc. simpl.
  destruct (Hg c) as [-> ->]. by rewrite Hb.
Qed.

Definition answers_or_full {A} (m : M A) w (Q : A -> world -> Prop) : Prop :=
  exists r w', m w = Some (r, w') /\ (forall a, r = Ok a -> Q a w')
    /\ (forall e, r = Err e -> e = StorageFull).

Lemma full_bind {A B} (m : M A) (k : A -> M B) w Q S :
  answers_or_full m w Q -> (forall a w', Q a w' -> answers_or_full (k a) w' S) ->
  answers_or_full (bind m k) w S.
Proof.
  intros (r & w1 & Hm & Hq & He) Hk. unfold answers_or_full, bind. rewrite Hm.
  destruct r as [a|e]; [by apply Hk, Hq|]. exists (Err e), w1. split; [done|]. split; [done|].
  intros e' [= <-]. by apply He.
Qed.
Lemma full_ret {A} (a : A) w (Q : A -> world -> Prop) : Q a w -> answers_or_full (ret a) w Q.
Proof. intros Hq. exists (Ok a), w. split; [done|]. by split; [intros b [= <-]|]. Qed.
Lemma full_fail {A} w (Q : A -> world -> Prop) : answers_or_full (fail StorageFull) w Q.
Proof. exists (Err StorageFull), w. split; [done|]. by split; [|intros e [= <-]]. Qed.

Lemma full_on_file f g (h : list byte -> list byte) bytes w :
  (forall c, c_bytes (g c) = h (c_bytes c) /\ c_tree (g c) = c_tree c) -> holds f bytes w ->
  answers_or_full (on_file f g) w (fun _ => holds f (h bytes)).
Proof.
  intros Hg Hh. eexists _, _. split; [done|]. split; [|done]. intros a _.
  by eapply (on_file_holds f g h).
Qed.
Lemma full_file_at f bytes w : holds f bytes w ->
  answers_or_full (file_at f) w (fun c w' => w' = w /\ files (tm_store (w_fs w)) !! f = Some c
    /\ c_bytes c = bytes /\ is_Some (trees (tm_store (w_fs w)) !! c_tree c)).
Proof.
  intros (c & tr & Hc & Hb & Ht). exists (Ok c), w. unfold file_at, asks. rewrite Hc.
  split; [done|]. split; [|done]. intros a [= <-]. eauto.
Qed.
Lemma full_on_tree t g f bytes w : holds f bytes w ->
  answers_or_full (on_tree t g) w (fun _ => holds f bytes).
Proof. intros Hh. eexists _, _. split; [done|]. split; [|done]. intros a _. by apply aside_on_tree. Qed.
Lemma full_take_bytes f t n bytes w : is_Some (trees (tm_store (w_fs w)) !! t) -> holds f bytes w ->
  answers_or_full (take_bytes t n) w (fun _ => holds f bytes).
Proof.
  intros [tr Ht] Hh. destruct (take_bytes_run f t tr n w Ht) as (r & w' & Hr & Hc & Ha).
  exists r, w'. split; [done|]. split; [by intros; apply Ha | intros e ->].
  by destruct Hc as [|[= ->]].
Qed.
Lemma full_try_reserve f bytes w : holds f bytes w ->
  answers_or_full try_reserve w (fun _ => holds f bytes).
Proof.
  intros (c & tr & Hc). eexists _, _. split; [done|]. split; [|done]. intros a _.
  unfold holds. simpl. rewrite lens_read. simpl. eauto.
Qed.
Lemma full_now f bytes w : holds f bytes w -> answers_or_full now w (fun _ => holds f bytes).
Proof. intros Hh. eexists _, _. split; [done|]. by split. Qed.

Lemma resized_longer n (b : list byte) : len b <= n ->
  resized n b = b ++ replicate (Z.to_nat (n - len b)) x00.
Proof. intros Hn. unfold resized. rewrite firstn_all2; [done | unfold len in *; lia]. Qed.

Lemma full_resize f n bytes w : len bytes < n -> holds f bytes w ->
  answers_or_full (resize f n) w
    (fun _ => holds f (bytes ++ replicate (Z.to_nat (n - len bytes)) x00)).
Proof.
  intros Hn Hh. unfold resize. eapply full_bind; [by apply full_file_at|].
  intros c w1 (-> & Hc & Hb & Htr).
  eapply full_bind with (Q := fun _ => holds f bytes).
  - rewrite Hb. unfold saturating_sub.
    replace (0 <? Z.max 0 (n - len bytes)) with true by lia.
    eapply full_bind; [by apply full_take_bytes | intros [] w2 H2].
    eapply full_bind; [by apply full_try_reserve | intros [] w3 H3]; [by apply full_ret|].
    eapply full_bind; [by apply full_on_tree | intros [] w4 H4]. apply full_fail.
  - intros [] w2 H2. eapply full_bind; [by apply full_on_tree | intros [] w3 H3].
    rewrite <- resized_longer by lia.
    by apply full_on_file with (h := resized n).
Qed.

Lemma spliced_end (b buf : list byte) :
  spliced (len b) buf (b ++ replicate (Z.to_nat (len buf)) x00) = b ++ buf.
Proof.
  unfold spliced, len. rewrite Nat2Z.id, firstn_app, firstn_all, Nat.sub_diag, firstn_O, app_nil_r.
  rewrite skipn_all2; [by rewrite app_nil_r|].
  rewrite length_app, length_replicate. lia.
Qed.

(** A write at a file's end is appended whole, or there is no room. *)
Lemma full_write f bytes buf w : buf <> [] -> len bytes + len buf <= USIZE_MAX -> holds f bytes w ->
  answers_or_full (file_write_iter f (kiocb_at (len bytes)) buf) w
    (fun '(to, n) w' => to = kiocb_at (len bytes + len buf) /\ n = len buf
       /\ holds f (bytes ++ buf) w').
Proof.
  intros Hne Hmax Hh. unfold file_write_iter.
  eapply full_bind; [by apply full_file_at | intros c w1 (-> & Hc & Hb & Htr)]. simpl.
  assert (Hpos : 0 < len buf) by (destruct buf; [done | unfold len; simpl; lia]).
  eapply full_bind with (Q := fun n w' => n = len buf /\ holds f (bytes ++ buf) w').
  - unfold file_write. replace (len buf =? 0) with false by lia.
    assert (Hca : checked_add (len bytes) (len buf) = Some (len bytes + len buf)).
    { unfold checked_add. by replace (_ <=? USIZE_MAX) with true by lia. }
    rewrite Hca. eapply full_bind; [by apply full_file_at | intros c' w1 (-> & Hc' & Hb' & _)].
    eapply full_bind with (Q := fun _ => holds f (bytes ++ replicate (Z.to_nat (len buf)) x00)).
    + rewrite Hb'. replace (len bytes <? len bytes + len buf) with true by lia.
      pose proof (full_resize f (len bytes + len buf) bytes w) as Hr.
      replace (len bytes + len buf - len bytes) with (len buf) in Hr by lia.
      apply Hr; [lia | done].
    + intros [] w2 H2. eapply full_bind with (Q := fun _ => holds f (bytes ++ buf)).
      { rewrite <- spliced_end. by apply full_on_file with (h := spliced (len bytes) buf). }
      intros [] w3 H3. eapply full_bind; [by apply full_now | intros t w4 H4].
      eapply full_bind with (Q := fun _ => holds f (bytes ++ buf));
        [by apply full_on_file with (h := id) | intros [] w5 H5]. by apply full_ret.
  - intros n w2 (-> & H2). unfold generic_write_sync. simpl.
    eapply full_bind with (Q := fun n w' => n = len buf /\ w' = w2); [by apply full_ret|].
    intros n w3 (-> & ->). by apply full_ret.
Qed.

(** What a source reads, the file written set aside: from each place in it some
    of what it holds there, nothing only at its end, or a failure. *)
Record reads_as (I : world -> Prop) (f : fileid) (src : list byte)
    (read : Kiocb -> list byte -> M (Kiocb * Z * list byte)) : Prop := MkReads {
  reads_source iocb buf w : I w -> 0 <= ki_pos iocb <= len src ->
    exists r w', read iocb buf w = Some (r, w') /\ I w' /\ aside f w w'
      /\ forall iocb' n buf', r = Ok (iocb', n, buf') ->
           0 <= n <= len buf /\ n <= len src - ki_pos iocb /\ ki_pos iocb' = ki_pos iocb + n
           /\ buf' = firstn (Z.to_nat n) (skipn (Z.to_nat (ki_pos iocb)) src)
                     ++ skipn (Z.to_nat n) buf
           /\ (n = 0 -> ki_pos iocb = len src \/ buf = []);
  reads_past_writes iocb buf w r w' :
    I w -> file_write_iter f iocb buf w = Some (r, w') -> I w';
}.

Lemma write_whole_at_end f bytes chunk w turns : chunk <> [] -> turns <> O ->
  len bytes + len chunk <= USIZE_MAX -> holds f bytes w ->
  exists r w', Fs.write_whole turns (file_write_iter f) (kiocb_at (len bytes)) chunk w = Some (r, w')
    /\ (exists rw, file_write_iter f (kiocb_at (len bytes)) chunk w = Some (rw, w'))
    /\ (forall to, r = Ok to -> to = kiocb_at (len bytes + len chunk) /\ holds f (bytes ++ chunk) w').
Proof.
  intros Hne Ht Hmax Hh. destruct (full_write f bytes chunk w Hne Hmax Hh) as (r & w' & Hr & Hq & _).
  destruct chunk as [|b chunk]; [done|]. destruct turns as [|turns]; [done|].
  simpl. unfold bind. rewrite Hr. destruct r as [[to n]|e].
  - destruct (Hq _ eq_refl) as (-> & -> & Hh'). pose proof (len_nonneg chunk).
    assert (Hl : len (b :: chunk) = 1 + len chunk) by (unfold len; simpl; lia).
    replace (len (b :: chunk) =? 0) with false by lia.
    replace (len (b :: chunk) <? len (b :: chunk)) with false by lia.
    replace (skipn (Z.to_nat (len (b :: chunk))) (b :: chunk)) with (@nil byte);
      [| unfold len; by rewrite Nat2Z.id, skipn_all].
    eexists _, _. split; [by destruct turns|]. split; [by eexists|]. by intros to [= <-].
  - eexists _, _. split; [done|]. split; [by eexists|]. done.
Qed.

Lemma copy_chunks_whole I f src read (HI : reads_as I f src read) : len src <= USIZE_MAX ->
  forall turns buf from k w, buf <> [] -> I w -> 0 <= k <= len src -> ki_pos from = k ->
    holds f (firstn (Z.to_nat k) src) w -> len src - k < Z.of_nat turns ->
    exists r w', Fs.copy_chunks turns read (file_write_iter f) buf from (kiocb_at k) w = Some (r, w')
      /\ (r = Ok tt -> holds f src w').
Proof.
  intros Hmax. induction turns as [|turns IH]; intros buf from k w Hbuf Hi Hk Hf Hh Ht; [lia|].
  simpl. unfold bind.
  destruct (reads_source _ _ _ _ HI from buf w Hi ltac:(lia)) as (r & w1 & Hr & Hi1 & Ha & Hq).
  rewrite Hr. destruct r as [[[from' n] buf']|e]; [|by eexists _, _].
  destruct (Hq _ _ _ eq_refl) as (Hn & Hn' & Hf' & Hb' & Hz).
  assert (Hlen : length (firstn (Z.to_nat n) (skipn (Z.to_nat k) src)) = Z.to_nat n).
  { rewrite length_firstn, length_skipn. unfold len in *. lia. }
  rewrite Hf in *. destruct (n =? 0) eqn:En.
  - eexists _, _. split; [done|]. intros _. apply Ha.
    destruct Hz as [-> | ->]; [lia | | done].
    rewrite firstn_all2 in Hh by (unfold len; lia). done.
  - assert (Hlb : len buf' = len buf).
    { unfold len in *. rewrite Hb', length_app, Hlen, length_skipn. lia. }
    replace (len buf' <? n) with false by lia.
    assert (Hch : firstn (Z.to_nat n) buf' = firstn (Z.to_nat n) (skipn (Z.to_nat k) src)).
    { rewrite Hb', firstn_app, Hlen, Nat.sub_diag, firstn_O, app_nil_r.
      rewrite firstn_all2; [done | lia]. }
    rewrite Hch. set (chunk := firstn (Z.to_nat n) (skipn (Z.to_nat k) src)) in *.
    assert (Hlc : len chunk = n) by (unfold len; lia).
    assert (Hlk : len (firstn (Z.to_nat k) src) = k).
    { unfold len in *. rewrite length_firstn. lia. }
    assert (Hwhole : firstn (Z.to_nat k) src ++ chunk = firstn (Z.to_nat (k + n)) src).
    { unfold chunk. rewrite take_take_drop. f_equal. lia. }
    destruct (write_whole_at_end f (firstn (Z.to_nat k) src) chunk w1 (Z.to_nat n))
      as (rw & w2 & Hw & (rr & Hrr) & Hto); [| lia | rewrite Hlk; lia | by apply Ha |].
    { intros Hnil. rewrite Hnil in Hlc. unfold len in Hlc. simpl in Hlc. lia. }
    rewrite Hlk in *. rewrite Hw. destruct rw as [to|e]; [|by eexists _, _].
    destruct (Hto _ eq_refl) as (-> & Hh2). rewrite Hlc.
    apply IH; [by destruct buf', buf; unfold len in Hlb; simpl in Hlb |
      by eapply reads_past_writes | lia | lia | by rewrite <- Hwhole | lia].
Qed.

(** C32: a copy up of what reads as [src] ends, given a turn for each byte and
    one more, and where it answers, the copy holds every byte of it. *)
Theorem copies_are_whole I f src read turns w :
  reads_as I f src read -> len src <= USIZE_MAX -> len src < Z.of_nat turns -> I w ->
  holds f [] w ->
  exists r w', Fs.copy_whole turns read (file_write_iter f) w = Some (r, w')
    /\ (r = Ok tt -> holds f src w').
Proof.
  intros HI Hmax Ht Hi Hh. pose proof (len_nonneg src).
  apply (copy_chunks_whole I f src read HI Hmax turns _ _ 0); [| done | lia | done | done | lia].
  intros H0. apply (f_equal (@length byte)) in H0. rewrite length_replicate in H0. discriminate H0.
Qed.

(** *** A Tmpfs's own file as what is copied *)
Definition leaves (s : fileid) w w' : Prop :=
  files (tm_store (w_fs w')) !! s = files (tm_store (w_fs w)) !! s.

#[export] Instance leaves_pre s : PreOrder (leaves s).
Proof. split; [done|]. intros w1 w2 w3 H12 H23. unfold leaves in *. congruence. Qed.

Lemma leaves_on_store s g : (forall x, files (g x) !! s = files x !! s) ->
  framed (leaves s) (on_store g).
Proof.
  intros Hg. apply framed_modify. intros w. unfold leaves. simpl. by rewrite lens_read.
Qed.
Lemma leaves_on_file s f g : f <> s -> framed (leaves s) (on_file f g).
Proof. intros Hne. apply leaves_on_store. intros x. simpl. by apply lookup_alter_ne. Qed.
Lemma leaves_on_tree s t g : framed (leaves s) (on_tree t g).
Proof. by apply leaves_on_store. Qed.
Lemma leaves_now s : framed (leaves s) now.
Proof. by intros w r w' [= <- <-]. Qed.
Lemma leaves_try_reserve s : framed (leaves s) try_reserve.
Proof.
  unfold try_reserve. apply framed_bind; [apply _ | by apply framed_asks, _ | intros x].
  apply framed_bind; [apply _ | by apply leaves_on_store | intros []]. by apply framed_ret, _.
Qed.
#[local] Hint Resolve leaves_on_file leaves_on_tree leaves_now leaves_try_reserve : vfs.

Lemma leaves_file_write_iter s f iocb buf : f <> s -> framed (leaves s) (file_write_iter f iocb buf).
Proof.
  intros Hne. unfold file_write_iter, file_write, generic_write_sync, tmpfs_fsync, resize, take_bytes,
    give_bytes, file_at, tree_at. frames.
Qed.

Definition source_is (s : fileid) (src : list byte) w : Prop :=
  exists c, files (tm_store (w_fs w)) !! s = Some c /\ c_bytes c = src.

Lemma tmpfs_reads_as s f src : f <> s -> len src <= USIZE_MAX ->
  reads_as (source_is s src) f src (file_read_iter s).
Proof.
  intros Hne Hmax. split.
  - intros iocb buf w (c & Hc & <-) Hp. unfold file_read_iter, bind, file_at, asks. rewrite Hc. simpl.
    eexists _, _. split; [done|]. split; [by exists c|]. split; [by intros b|].
    intros iocb' n buf' [= <- <- <-]. simpl. pose proof (len_nonneg buf).
    replace (Z.min (ki_pos iocb) (len (c_bytes c))) with (ki_pos iocb) by lia.
    split_and!; [lia | lia | lia | | done | ].
    + unfold as_u64. rewrite Z.mod_small; [done|]. unfold USIZE_MAX in Hmax. lia.
    + intros H0. destruct buf; [by right | left]. unfold len in *. simpl in *. lia.
  - intros iocb buf w r w' (c & Hc & Hb) Hw. exists c. split; [|done].
    by rewrite (leaves_file_write_iter s f iocb buf Hne _ _ _ Hw).
Qed.
End Copy.
#[export] Instance stack_lens : TmpfsLens stack_types.
Proof. done. Qed.

(** ** A view at work *)

(** A write through the view lands in the upper's copy, the Layer below as it
    was. *)
Example a_write_copies_up :
  answers (fun p =>
    write_at (p_view p) (lit "dir/file") (lit "upper") ;;!
    let! seen := read_at (p_view p) (lit "dir/file") in
    let! below := read_at (p_low p) (lit "dir/file") in
    let! above := read_at (p_up p) (lit "upper/dir/file") in
    ret (seen, below, above))
  = Some (Ok (lit "upper", lit "lower", lit "upper")).
Proof. vm_compute. reflexivity. Qed.

(** What is removed is whited out above and stands below; a directory made in
    its place shows nothing of the one below it, and moves. *)
Example a_removal_hides_what_stands_below :
  answers (fun p =>
    filename_unlinkat nobody (start_at (p_view p)) (lit "dir/file") ;;!
    let! seen := names_at (p_view p) (lit "dir") in
    let! below := names_at (p_low p) (lit "dir") in
    let! above := names_at (p_up p) (lit "upper/dir") in
    let! gone := attempt (read_at (p_view p) (lit "dir/file")) in
    filename_rmdir nobody (start_at (p_view p)) (lit "dir") ;;!
    filename_mkdirat nobody (start_at (p_view p)) (lit "dir") ;;!
    let! made := names_at (p_view p) (lit "dir") in
    filename_renameat2 nobody (start_at (p_view p)) (lit "dir") (start_at (p_view p)) (lit "moved") ;;!
    let! root := names_at (p_view p) (lit ".") in
    ret (seen, below, above, gone, made, root))
  = Some (Ok ([lit "."; lit ".."], [lit "."; lit ".."; lit "file"], [lit "."; lit ".."; lit "file"],
      Err NotFound, [lit "."; lit ".."], [lit "."; lit ".."; lit "moved"; lit "kept"])).
Proof. vm_compute. reflexivity. Qed.

Lemma shows_run names run : shows names run = true ->
  exists entries w', run = Some (Ok entries, w') /\ map de_name entries = names.
Proof.
  destruct run as [[[r|] w']|]; [|done..]. intros Hn%bool_decide_eq_true. by exists r, w'.
Qed.

(** The root of the view once [dir] went and [new] was made shows the upper's [new]
    and the lower's [kept], and is not empty. *)
Lemma listings_show_the_topmost_witness :
  (exists entries w', @Fs.dir_read_merged _ _ once_tables once_files changed_level changed_world
       = Some (Ok entries, w')
     /\ map de_name entries = [lit "new"; lit "kept"]
     /\ exists l, @listed _ _ once_tables once_files changed_level changed_world l w'
          /\ (forall e, e ∈ entries <-> topmost (concat l) (e, false)))
  /\ exists w', @Fs.rmdir _ _ _ once_tables _ once_files (MkOverlayFs [] None 0%nat) changed_root (Fs.vd_dentry changed_root) changed_world
       = Some (Err DirectoryNotEmpty, w').
Proof.
  pose proof (@listings_show_the_topmost _ _ _ once_tables _ once_files changed_level changed_world) as [Hl Hc].
  split.
  - destruct (shows_run [lit "new"; lit "kept"]
      (@Fs.dir_read_merged _ _ once_tables once_files changed_level changed_world)) as (es & w' & E & Hn);
      [vm_compute; reflexivity|].
    exists es, w'. split; [exact E|]. split; [exact Hn|].
    destruct (Hl _ _ E) as (l & Hs & _ & Ht). exists l. split; [exact Hs | exact Ht].
  - assert (Ee : match @Fs.check_empty_dir _ _ _ once_tables once_files (Fs.vd_dentry changed_root) changed_world with
                 | Some (Ok None, _) => true | _ => false end = true) by (vm_compute; reflexivity).
    destruct (@Fs.check_empty_dir _ _ _ once_tables once_files (Fs.vd_dentry changed_root) changed_world)
      as [[[[e|]|] w']|] eqn:E; try discriminate Ee.
    exists w'.
    destruct (Hc (MkOverlayFs [] None 0%nat) changed_root (Fs.vd_dentry changed_root) changed_root changed_world changed_world None w')
      as (l & _ & _ & Hr); [vm_compute; reflexivity | vm_compute; reflexivity | exact E | exact Hr].
Defined.

Lemma copies_are_whole_witness :
  source_is 2%nat (lit "lower") copying_world /\ holds 3%nat [] copying_world
  /\ exists r w', Fs.copy_whole 6 (file_read_iter 2%nat) (file_write_iter 3%nat) copying_world
       = Some (r, w') /\ r = Ok tt /\ holds 3%nat (lit "lower") w'.
Proof.
  assert (Hs : source_is 2%nat (lit "lower") copying_world).
  { eexists. split; [vm_compute; reflexivity | reflexivity]. }
  assert (Hh : holds 3%nat [] copying_world).
  { eexists _, _. split; [vm_compute; reflexivity|]. split; [reflexivity | vm_compute; reflexivity]. }
  split; [exact Hs|]. split; [exact Hh|].
  destruct (copies_are_whole (source_is 2%nat (lit "lower")) 3%nat (lit "lower")
    (file_read_iter 2%nat) 6 copying_world) as (r & w' & E & Hok);
    [apply tmpfs_reads_as; [discriminate | vm_compute; discriminate] | vm_compute; discriminate
    | vm_compute; reflexivity | exact Hs | exact Hh |].
  exists r, w'. split; [exact E|].
  assert (Hr : fst <$> Fs.copy_whole 6 (file_read_iter 2%nat) (file_write_iter 3%nat) copying_world
    = Some (Ok tt)) by (vm_compute; reflexivity).
  rewrite E in Hr. injection Hr as ->. split; [reflexivity | apply Hok; reflexivity].
Defined.
