(* ===== verification/Tidy.v ===== *)
(** What the dcache keeps true of itself: each name in a table stands where its
    key says and in the instance whose table it is, one still looked up names
    nothing, an inode's alias names it, and a parent is a dentry of the same
    instance.  [calm] is what keeps that and moves no dentry. *)
From stdpp Require Import gmap.
From S2P Require Import Prelude Text Locking VfsTypes World Dcache Cred OpenFile Namei VfsFacts NameiFacts.
Local Open Scope vfs_scope.

Section Tidy.
Context {T : FsTypes}.
Implicit Types w : world.

(** [d] stands at the key [k] of the instance [s]. *)
Definition placed (s : sbid) (k : Key) (d : did) (x : Dentry) : Prop :=
  default d (d_parent x) = k.1 /\ d_name x = k.2 /\ d_sb x = s.

Definition hashed_in (s : sbid) (w : world) (k : Key) (d : did) : Prop :=
  exists sb, w_sbs w !! s = Some sb /\ Hashtable.entries (s_hashtable sb) !! k = Some d.
Definition looked_up_in (s : sbid) (w : world) (k : Key) (d : did) : Prop :=
  exists sb, w_sbs w !! s = Some sb /\ Hashtable.entries (s_in_lookup sb) !! k = Some d.

(** Between a dentry's inode and its name's leaving the lookups under way, what
    it was looked up as is [but]. *)
Record tidy_but (but : did -> Prop) w : Prop := MkTidy {
  tidy_fresh : fresh_ok w;
  tidy_hash s k d : hashed_in s w k d ->
    exists x, w_dentries w !! d = Some x /\ placed s k d x /\ d_hashed x = true;
  tidy_lookup s k d : looked_up_in s w k d ->
    exists x, w_dentries w !! d = Some x /\ placed s k d x /\ (but d \/ d_inode x = None);
  tidy_alias i n a : w_inodes w !! i = Some n -> i_dentry n = Some a ->
    exists x, w_dentries w !! a = Some x /\ is_Some (d_inode x);
  tidy_parent d x p : w_dentries w !! d = Some x -> d_parent x = Some p ->
    exists y, w_dentries w !! p = Some y /\ d_sb y = d_sb x;
}.
Definition tidy : world -> Prop := tidy_but (fun _ => False).

(** What a dentry becomes: where it stands, and naming an entry once it did. *)
Definition settled (x x' : Dentry) : Prop :=
  same_place x x' /\ (is_Some (d_inode x) -> is_Some (d_inode x')).
Definition grows w w' : Prop :=
  forall d x, w_dentries w !! d = Some x ->
    exists x', w_dentries w' !! d = Some x' /\ settled x x'.

#[export] Instance settled_pre : PreOrder settled.
Proof.
  split; [by split|]. intros x y z [? ?] [? ?]. split; [by etransitivity | auto].
Qed.
#[export] Instance grows_pre : PreOrder grows.
Proof.
  split; [intros w; by apply (keeps_refl settled)|]. intros w1 w2 w3 H12 H23.
  apply (keeps_trans settled _ (w_dentries w2)); [intros x y z; apply transitivity | done..].
Qed.

Definition calm w w' : Prop := tidy w -> tidy w' /\ grows w w'.

#[export] Instance calm_pre : PreOrder calm.
Proof.
  split.
  - intros w Ht. split; [done | reflexivity].
  - intros w1 w2 w3 H12 H23 H1. destruct (H12 H1) as [H2 K12]. destruct (H23 H2) as [H3 K23].
    split; [done | by transitivity w2].
Qed.

(** *** The changes that keep it *)

Lemma placed_same s k d x x' : same_place x x' -> placed s k d x -> placed s k d x'.
Proof. intros (E & E' & E'') (?&?&?). unfold placed. rewrite E, E', E''. done. Qed.

Lemma tidy_of but but' w w' :
  tidy_but but w -> kept w w' -> grows w w' ->
  (forall s k d, hashed_in s w' k d -> hashed_in s w k d \/
     exists x, w_dentries w' !! d = Some x /\ placed s k d x) ->
  (forall s k d, hashed_in s w' k d -> exists x, w_dentries w' !! d = Some x /\ d_hashed x = true) ->
  (forall s k d, looked_up_in s w' k d ->
     (looked_up_in s w k d \/ exists x, w_dentries w' !! d = Some x /\ placed s k d x)
     /\ exists x, w_dentries w' !! d = Some x /\ (but' d \/ d_inode x = None)) ->
  (forall i n a, w_inodes w' !! i = Some n -> i_dentry n = Some a ->
     (exists n', w_inodes w !! i = Some n' /\ i_dentry n' = Some a)
     \/ exists x, w_dentries w' !! a = Some x /\ is_Some (d_inode x)) ->
  (forall d x, w_dentries w' !! d = Some x -> is_Some (w_dentries w !! d) \/
     forall p, d_parent x = Some p -> exists y, w_dentries w' !! p = Some y /\ d_sb y = d_sb x) ->
  tidy_but but' w'.
Proof.
  intros Ht Hk Hg Hh Hhd Hl Ha Hp. split.
  - by apply Hk, Ht.
  - intros s k d Hin. destruct (Hhd s k d Hin) as (x' & Hx' & Hhash). exists x'.
    split_and!; [done | | done]. destruct (Hh s k d Hin) as [Hold|(x & Hx & Hpl)].
    + destruct (tidy_hash _ _ Ht _ _ _ Hold) as (x & Hx & Hpl & _).
      destruct (Hg d x Hx) as (x2 & Hx2 & Hs & _). simplify_eq. by eapply placed_same.
    + by simplify_eq.
  - intros s k d Hin. destruct (Hl s k d Hin) as [Hpl (x' & Hx' & Hi)]. exists x'.
    split_and!; [done | | done]. destruct Hpl as [Hold|(x & Hx & Hpl)]; [|by simplify_eq].
    destruct (tidy_lookup _ _ Ht _ _ _ Hold) as (x & Hx & Hpl & _).
    destruct (Hg d x Hx) as (x2 & Hx2 & Hs & _). simplify_eq. by eapply placed_same.
  - intros i n a Hi Hna. destruct (Ha i n a Hi Hna) as [(n' & Hn' & Ha')|?]; [|done].
    destruct (tidy_alias _ _ Ht _ _ _ Hn' Ha') as (x & Hx & Hs).
    destruct (Hg a x Hx) as (x' & Hx' & _ & Hi'). eauto.
  - intros d x p Hx Hpar. destruct (Hp d x Hx) as [[x0 Hx0]|Hnew]; [|by apply Hnew].
    destruct (Hg d x0 Hx0) as (x' & Hx' & (E & _ & E') & _). simplify_eq.
    rewrite E in Hpar. destruct (tidy_parent _ _ Ht _ _ _ Hx0 Hpar) as (y & Hy & Esb).
    destruct (Hg p y Hy) as (y' & Hy' & (_ & _ & Ey) & _). exists y'. split; [done | congruence].
Qed.

Definition same_tables (x x' : SuperBlock) : Prop :=
  Hashtable.entries (s_hashtable x') ⊆ Hashtable.entries (s_hashtable x)
  /\ Hashtable.entries (s_in_lookup x') ⊆ Hashtable.entries (s_in_lookup x)
  /\ s_rdonly x' = s_rdonly x.
Definition same_name (x x' : Dentry) : Prop :=
  same_place x x' /\ d_hashed x' = d_hashed x /\ d_inode x' = d_inode x.
Definition same_alias (x x' : Inode) : Prop := i_dentry x' = i_dentry x /\ same_entry x x'.

(** Each object of the second was one of the first. *)
Definition was {X} (P : X -> X -> Prop) (m m' : gmap nat X) : Prop :=
  forall a x', m' !! a = Some x' -> exists x, m !! a = Some x /\ P x x'.

Lemma was_refl {X} (P : X -> X -> Prop) m : (forall x, P x x) -> was P m m.
Proof. intros HP a x Hx. eauto. Qed.
Lemma was_alter {X} (P : X -> X -> Prop) f d (m : gmap nat X) :
  (forall x, P x x) -> (forall x, P x (f x)) -> was P m (alter f d m).
Proof.
  intros Hr Hf a x' Hx'. destruct (decide (a = d)) as [->|Hne].
  - rewrite lookup_alter_eq in Hx'. destruct (m !! d) as [x|] eqn:E; simplify_eq/=. eauto.
  - rewrite lookup_alter_ne in Hx' by done. eauto.
Qed.

(** A change that names nothing new. *)
Lemma tidy_less but w w' :
  tidy_but but w -> kept w w' -> keeps same_name (w_dentries w) (w_dentries w') ->
  was same_name (w_dentries w) (w_dentries w') -> was same_tables (w_sbs w) (w_sbs w') ->
  (forall i n a, w_inodes w' !! i = Some n -> i_dentry n = Some a ->
     exists n', w_inodes w !! i = Some n' /\ i_dentry n' = Some a) ->
  tidy_but but w'.
Proof.
  intros Ht Hk Hd Hd' Hs Ha.
  assert (Hold : forall s k d, hashed_in s w' k d -> hashed_in s w k d).
  { intros s k d (sb' & Hsb & Hin). destruct (Hs s sb' Hsb) as (sb & Hsb0 & Hsub & _).
    exists sb. split; [done|]. by eapply lookup_weaken. }
  assert (Hold' : forall s k d, looked_up_in s w' k d -> looked_up_in s w k d).
  { intros s k d (sb' & Hsb & Hin). destruct (Hs s sb' Hsb) as (sb & Hsb0 & _ & Hsub & _).
    exists sb. split; [done|]. by eapply lookup_weaken. }
  eapply tidy_of; [exact Ht | exact Hk | | | | | |].
  - intros d x Hx. destruct (Hd d x Hx) as (x' & Hx' & Hs' & _ & Hi). exists x'.
    split; [done|]. split; [done | by rewrite Hi].
  - eauto.
  - intros s k d Hin. destruct (tidy_hash _ _ Ht _ _ _ (Hold _ _ _ Hin)) as (x & Hx & _ & Hh).
    destruct (Hd d x Hx) as (x' & Hx' & _ & Eh & _). exists x'. split; [done | congruence].
  - intros s k d Hin. split; [eauto|].
    destruct (tidy_lookup _ _ Ht _ _ _ (Hold' _ _ _ Hin)) as (x & Hx & _ & Hh).
    destruct (Hd d x Hx) as (x' & Hx' & _ & _ & Ei). exists x'. rewrite Ei. done.
  - intros i n a Hn Hna. left. eauto.
  - intros d x Hx. left. destruct (Hd' d x Hx) as (x0 & Hx0 & _). by exists x0.
Qed.

Lemma keeps_weaken {X} (P Q : X -> X -> Prop) m m' :
  (forall x y, P x y -> Q x y) -> keeps P m m' -> keeps Q m m'.
Proof. intros HPQ Hk a x Hx. destruct (Hk a x Hx) as (x' & ? & ?). eauto. Qed.

Lemma calm_less w w' :
  kept w w' -> keeps same_name (w_dentries w) (w_dentries w') ->
  was same_name (w_dentries w) (w_dentries w') -> was same_tables (w_sbs w) (w_sbs w') ->
  (forall i n a, w_inodes w' !! i = Some n -> i_dentry n = Some a ->
     exists n', w_inodes w !! i = Some n' /\ i_dentry n' = Some a) -> calm w w'.
Proof.
  intros Hk Hd Hd' Hs Ha Ht. split; [by eapply tidy_less|].
  eapply (keeps_weaken _ settled); [|exact Hd]. intros x y (? & _ & E). split; [done | by rewrite E].
Qed.

Lemma was_same_alias w w' :
  was same_alias (w_inodes w) (w_inodes w') ->
  forall i n a, w_inodes w' !! i = Some n -> i_dentry n = Some a ->
    exists n', w_inodes w !! i = Some n' /\ i_dentry n' = Some a.
Proof.
  intros Hw i n a Hn Ha. destruct (Hw i n Hn) as (n' & Hn' & E & _). exists n'. by rewrite <- E.
Qed.

Ltac calm_change :=
  apply calm_less;
  [ | simpl; first [apply keeps_refl; done | apply keeps_alter; done]
    | simpl; first [apply was_refl; done | apply was_alter; done]
    | simpl; first [apply was_refl; done | apply was_alter; [done|] ]
    | apply was_same_alias; simpl; first [apply was_refl; done | apply was_alter; done] ].

Lemma calm_tick n w : calm w (set_tick n w).
Proof. calm_change. apply frame_tick. Qed.

Lemma calm_holders s h w : calm w (set_holders s h w).
Proof.
  destruct s; simpl; calm_change; try done; [by apply frame_inode | by apply frame_sb].
Qed.

Lemma calm_asked d a : framed calm (on_dentry d (with_asked a)).
Proof. apply framed_modify. intros w. calm_change. by apply frame_dentry. Qed.

Lemma calm_emit f : framed calm (emit f).
Proof. apply framed_modify. intros w. calm_change. intros Hf. split_and!; [done | by apply keeps_refl..]. Qed.

(** A name gone from a table, or moved up the names kept. *)
Lemma calm_on_sb s f : (forall x, same_tables x (f x)) -> framed calm (on_sb s f).
Proof.
  intros Hf. apply framed_modify. intros w. calm_change; [|done].
  apply frame_sb. intros x. apply Hf.
Qed.

Lemma same_tables_lookup_remove strong k x :
  same_tables x (with_in_lookup (Hashtable.remove strong k (s_in_lookup x)).2 x).
Proof. split_and!; simpl; [done | apply delete_subseteq | done]. Qed.

Lemma same_tables_hash_remove strong k x :
  same_tables x (with_hashtable (Hashtable.remove strong k (s_hashtable x)).2 x).
Proof. split_and!; simpl; [apply delete_subseteq | done..]. Qed.

Lemma calm_lookup_done d : framed calm (lookup_done d).
Proof.
  unfold lookup_done, dentry_at.
  apply framed_bind; [apply _ | auto with vfs | intros x].
  apply framed_bind; [apply _ | auto with vfs | intros at_].
  case_match; [|auto with vfs].
  apply framed_bind; [apply _ | by intros w r w' [= <- <-]; apply calm_tick | intros strong].
  apply framed_bind; [apply _ | | intros _; apply calm_asked].
  apply calm_on_sb. intros sb. case_match; [apply same_tables_lookup_remove | done].
Qed.

#[export] Instance calm_still : Still calm.
Proof.
  split; try apply _; intros.
  - apply calm_tick.
  - calm_change. apply frame_links.
  - apply calm_holders.
  - apply calm_asked.
  - apply framed_modify. intros w. calm_change. by apply frame_inode.
  - by apply calm_on_sb.
  - apply calm_lookup_done.
Qed.

(** *** A name recorded *)

Lemma tidy_weaken (but but' : did -> Prop) w :
  (forall d, but d -> but' d) -> tidy_but but w -> tidy_but but' w.
Proof.
  intros Hb [Hf Hh Hl Ha Hp]. split; try done. intros s k d Hin.
  destruct (Hl s k d Hin) as (x & ? & ? & [?|?]); eauto 6.
Qed.

Lemma calm_inode_new st ops : framed calm (inode_new st ops).
Proof.
  intros w r w' [= <- <-]. intros Ht.
  assert (Hfr : w_inodes w !! w_next w = None) by (apply (tidy_fresh _ _ Ht); lia).
  apply calm_less; [apply frame_new_inode | simpl; by apply keeps_refl | simpl; by apply was_refl
    | simpl; by apply was_refl | | done].
  simpl. intros i n a Hn Ha. destruct (decide (i = w_next w)) as [->|Hne].
  - rewrite lookup_insert_eq in Hn. by simplify_eq/=.
  - rewrite lookup_insert_ne in Hn by done. eauto.
Qed.

Lemma alter_at {X} (f : X -> X) d (m : gmap nat X) a y :
  alter f d m !! a = Some y -> exists x, m !! a = Some x /\ y = (if (a =? d)%nat then f x else x).
Proof.
  destruct (a =? d)%nat eqn:E.
  - apply Nat.eqb_eq in E as ->. rewrite lookup_alter_eq.
    destruct (m !! d); intros [= <-]; eauto.
  - apply Nat.eqb_neq in E. rewrite lookup_alter_ne by done. eauto.
Qed.

Lemma alter_of {X} (f : X -> X) d (m : gmap nat X) a x :
  m !! a = Some x -> alter f d m !! a = Some (if (a =? d)%nat then f x else x).
Proof.
  intros Hx. destruct (a =? d)%nat eqn:E.
  - apply Nat.eqb_eq in E as ->. by rewrite lookup_alter_eq, Hx.
  - apply Nat.eqb_neq in E. by rewrite lookup_alter_ne.
Qed.

Lemma tidy_instantiate but d i w r w' :
  tidy_but but w -> __instantiate d i w = Some (r, w') ->
  tidy_but (fun x => but x \/ x = d) w' /\ grows w w'.
Proof.
  intros Ht. unfold __instantiate, dentry_at, inode_at, asks, bind.
  destruct (w_dentries w !! d) as [x|] eqn:Hx; simpl; [|done].
  destruct (d_inode x) as [j|] eqn:Hj; simpl.
  { intros [= <- <-]. split; [eapply tidy_weaken; [|exact Ht]; auto | reflexivity]. }
  destruct (w_inodes w !! i) as [n|] eqn:Hn; simpl; [|done].
  set (inodes' := if bool_decide (i_kind n = Dir) then alter (with_alias (Some d)) i (w_inodes w)
                  else w_inodes w).
  intros Hr. assert (Hw : w' = set_dentries (alter (with_inode_field (Some i)) d (w_dentries w))
                                (set_inodes inodes' w)).
  { unfold inodes'. destruct (bool_decide _); unfold on_dentry, on_inode, modify in Hr; simpl in Hr;
    injection Hr as _ <-; [done | by destruct w]. }
  subst w'. clear Hr r. split; [|apply (keeps_alter settled); [done | by split; [|eauto]]].
  eapply tidy_of; [exact Ht | | | | | | |]; simpl.
  - transitivity (set_inodes inodes' w); [|by apply (frame_dentry _ d (set_inodes inodes' w))].
    unfold inodes'. destruct (bool_decide _); [by apply frame_inode | by destruct w].
  - intros a y Hy. exists (if (a =? d)%nat then with_inode_field (Some i) y else y).
    split; [by apply alter_of | destruct (a =? d)%nat; split; done || (intros; eauto)].
  - auto.
  - intros s k a Hin. destruct (tidy_hash _ _ Ht s k a Hin) as (y & Hy & _ & Hh).
    eexists. split; [by apply alter_of | by destruct (a =? d)%nat].
  - intros s k a Hin. split; [by left|].
    destruct (tidy_lookup _ _ Ht s k a Hin) as (y & Hy & _ & Hi).
    eexists. split; [by apply alter_of|]. destruct (a =? d)%nat eqn:E; [|destruct Hi; auto].
    apply Nat.eqb_eq in E. auto.
  - intros j m a Hm Ha. unfold inodes' in Hm. destruct (bool_decide _); [|left; eauto].
    apply alter_at in Hm as (m0 & Hm0 & ->). destruct (j =? i)%nat; [|left; eauto].
    simpl in Ha. simplify_eq. right. eexists. split; [by apply alter_of|].
    rewrite Nat.eqb_refl. simpl. eauto.
  - intros a y Hy. apply alter_at in Hy as (y0 & Hy0 & _). left. by exists y0.
Qed.

(** A dentry hashed where it stands. *)
Lemma tidy_hash_in but w d x s k strong :
  tidy_but but w -> w_dentries w !! d = Some x -> placed s k d x ->
  tidy_but but (set_dentries (alter (with_hashed true) d (w_dentries w))
    (set_sbs (alter (fun sb => with_hashtable (Hashtable.insert_entry strong k d (s_hashtable sb)) sb)
      s (w_sbs w)) w)).
Proof.
  intros Ht Hx Hpl.
  set (w' := set_dentries _ _).
  assert (Hold : forall s' k' a, hashed_in s' w' k' a ->
    hashed_in s' w k' a \/ (s' = s /\ k' = k /\ a = d)).
  { intros s' k' a (sb' & Hsb & Hin). simpl in Hsb. apply alter_at in Hsb as (sb & Hsb & ->).
    destruct (s' =? s)%nat eqn:E; [|left; by exists sb]. apply Nat.eqb_eq in E as ->. simpl in Hin.
    destruct (decide (k' = k)) as [->|Hne].
    - rewrite lookup_insert_eq in Hin. simplify_eq. auto.
    - rewrite lookup_insert_ne in Hin by done. left. exists sb. split; [done|].
      case_match; [|done]. by apply map_lookup_filter_Some in Hin as []. }
  assert (Hlk : forall s' k' a, looked_up_in s' w' k' a -> looked_up_in s' w k' a).
  { intros s' k' a (sb' & Hsb & Hin). simpl in Hsb. apply alter_at in Hsb as (sb & Hsb & ->).
    exists sb. split; [done|]. by destruct (s' =? s)%nat. }
  eapply tidy_of; [exact Ht | | | | | | |].
  - etransitivity; [|by apply (frame_dentry _ d (set_sbs _ w))]. by apply frame_sb.
  - intros a y Hy. eexists. split; [by apply alter_of|]. by destruct (a =? d)%nat.
  - intros s' k' a Hin. destruct (Hold _ _ _ Hin) as [?|(-> & -> & ->)]; [by left|]. right.
    eexists. split; [by apply alter_of|]. by rewrite Nat.eqb_refl.
  - intros s' k' a Hin. destruct (Hold _ _ _ Hin) as [Ho|(-> & -> & ->)].
    + destruct (tidy_hash _ _ Ht _ _ _ Ho) as (y & Hy & _ & Hh).
      eexists. split; [by apply alter_of | by destruct (a =? d)%nat].
    + eexists. split; [by apply alter_of | by rewrite Nat.eqb_refl].
  - intros s' k' a Hin. split; [by left; apply Hlk|].
    destruct (tidy_lookup _ _ Ht _ _ _ (Hlk _ _ _ Hin)) as (y & Hy & _ & Hi).
    eexists. split; [by apply alter_of | by destruct (a =? d)%nat].
  - intros i n a Hn Ha. left. eauto.
  - intros a y Hy. simpl in Hy. apply alter_at in Hy as (y0 & Hy0 & _). left. by exists y0.
Qed.

(** What was looked up leaves the lookups under way as it is hashed. *)
Lemma tidy_looked_up w d x strong :
  tidy_but (fun a => a = d) w -> w_dentries w !! d = Some x ->
  let k := (default d (d_parent x), d_name x) in
  tidy (set_sbs (alter (fun sb =>
    if Hashtable.holds k d (s_in_lookup sb)
    then with_in_lookup (Hashtable.remove strong k (s_in_lookup sb)).2 sb else sb)
    (d_sb x) (w_sbs w)) w).
Proof.
  intros Ht Hx k. set (w' := set_sbs _ w).
  assert (Hsame : was same_tables (w_sbs w) (w_sbs w')).
  { simpl. apply was_alter; [done|]. intros sb. case_match; [|done]. apply (same_tables_lookup_remove strong). }
  assert (Hbut : tidy_but (fun a => a = d) w').
  { eapply tidy_less; [exact Ht | | simpl; by apply keeps_refl | simpl; by apply was_refl | done | ].
    - apply frame_sb. intros sb. by case_match.
    - simpl. eauto. }
  destruct Hbut as [Hf Hh Hl Ha Hp]. split; try done.
  intros s k' a Hin. destruct (Hl s k' a Hin) as (y & Hy & Hpl & [->|Hi]); [|eauto 6].
  exfalso. simpl in Hy. simplify_eq. destruct Hpl as (E1 & E2 & E3).
  assert (Ek : k' = k) by (destruct k'; unfold k; simpl in *; congruence). subst k' s.
  destruct Hin as (sb' & Hsb & Hin). simpl in Hsb. apply alter_at in Hsb as (sb & Hsb & ->).
  rewrite Nat.eqb_refl in Hin. unfold Hashtable.holds in Hin.
  case_bool_decide as E; [|done]. simpl in Hin. by rewrite lookup_delete_eq in Hin.
Qed.

Lemma tidy_rehash d w r w' :
  tidy_but (fun a => a = d) w -> rehash d w = Some (r, w') ->
  tidy w' /\ grows w w'.
Proof.
  intros Ht. unfold rehash, dentry_at, asks, reads, parent_and_name, bind.
  destruct (w_dentries w !! d) as [x|] eqn:Hx; simpl; [|done]. rewrite Hx. simpl.
  set (strong := w_strong w (w_tick w)).
  set (w0 := set_tick (S (w_tick w)) w).
  assert (Ht0 : tidy_but (fun a => a = d) w0).
  { eapply tidy_less; [exact Ht | apply frame_tick | simpl; by apply keeps_refl
      | simpl; by apply was_refl | simpl; by apply was_refl | simpl; eauto]. }
  assert (Ht1 := tidy_looked_up w0 d x strong Ht0 Hx). simpl in Ht1.
  destruct (calm_asked d Answered _ (Ok tt) _ eq_refl Ht1) as [Ht2 K2]. simpl in Ht2, K2.
  destruct (d_hashed x) eqn:Hh; simpl; intros [= <- <-]; [done|].
  split.
  - eapply (tidy_hash_in _ _ d (with_asked Answered x)) in Ht2; [exact Ht2 | | done].
    simpl. by rewrite lookup_alter_eq, Hx.
  - etransitivity; [exact K2|]. by apply (keeps_alter settled).
Qed.

Lemma calm_rehash d : framed calm (rehash d).
Proof.
  intros w r w' Hr Ht. eapply tidy_rehash; [|exact Hr]. eapply tidy_weaken; [|exact Ht]. done.
Qed.

Lemma calm_add d i : framed calm (add d i).
Proof.
  destruct i as [i|]; [|apply calm_rehash]. intros w r w' Hr Ht.
  unfold add, add_hashed, bind in Hr.
  destruct (__instantiate d i w) as [[[u|e] w1]|] eqn:E1; simplify_eq.
  - destruct (tidy_instantiate _ _ _ _ _ _ Ht E1) as [Ht1 K1].
    destruct (tidy_rehash d w1 r w') as [Ht2 K2]; [|done|].
    { eapply tidy_weaken; [|exact Ht1]. by intros a [[]|]. }
    split; [done | by transitivity w1].
  - unfold __instantiate, dentry_at, inode_at, asks, bind in E1.
    destruct (w_dentries w !! d) as [x|]; simpl in E1; [|done].
    destruct (d_inode x); simpl in E1; [done|].
    destruct (w_inodes w !! i) as [n|]; simpl in E1; [|done].
    by destruct (bool_decide _).
Qed.

#[export] Instance calm_hosted : Hosted calm.
Proof.
  split; [apply _ | apply calm_tick | | apply calm_inode_new | apply calm_add].
  intros x w. calm_change. apply frame_fs.
Qed.

Definition sb_of (d : did) (s : sbid) w : Prop :=
  exists x, w_dentries w !! d = Some x /\ d_sb x = s.

Lemma calm_bump : framed calm
  (modify (fun w => set_rename_lock (Seqlock.fetch_add_one (w_rename_lock w)) w)).
Proof. apply framed_modify. intros w. calm_change. apply frame_rename_lock. Qed.

(** *** A name moved *)

(** A dentry that names an entry is looked up by nobody. *)
Lemma moved_table w a x s k :
  tidy w -> w_dentries w !! a = Some x -> is_Some (d_inode x) -> ~ looked_up_in s w k a.
Proof.
  intros Ht Hx [i Hi] Hin. destruct (tidy_lookup _ _ Ht _ _ _ Hin) as (y & Hy & _ & [[]|E]).
  congruence.
Qed.

Lemma tidy_moved w a x s p n strong :
  tidy w -> w_dentries w !! a = Some x -> d_sb x = s -> is_Some (d_inode x) -> sb_of p s w ->
  let from := (default a (d_parent x), d_name x) in
  tidy (set_dentries (alter (fun x => with_place (Some p) n (with_hashed true x)) a (w_dentries w))
    (set_sbs (alter (fun sb =>
      let table := if d_hashed x then (Hashtable.remove strong from (s_hashtable sb)).2
                   else s_hashtable sb in
      with_hashtable (Hashtable.insert_entry strong (p, n) a table) sb) s (w_sbs w)) w)).
Proof.
  intros Ht Hx Hs Hi Hp from.
  set (w' := set_dentries _ _).
  assert (Hh : forall s' k b, hashed_in s' w' k b ->
    (hashed_in s' w k b /\ b <> a) \/ (s' = s /\ k = (p, n) /\ b = a)).
  { intros s' k b (sb' & Hsb & Hin). simpl in Hsb. apply alter_at in Hsb as (sb & Hsb & ->).
    assert (Hold : hashed_in s' w k b -> b <> a \/ s' = s /\ k = from /\ d_hashed x = true).
    { intros Hin'. destruct (decide (b = a)) as [->|]; [right | by left].
      destruct (tidy_hash _ _ Ht _ _ _ Hin') as (y & Hy & (E1 & E2 & E3) & Hhd). simplify_eq.
      split_and!; [done | destruct k; unfold from; simpl in *; congruence | done]. }
    destruct (s' =? s)%nat eqn:E.
    - apply Nat.eqb_eq in E as ->. simpl in Hin.
      destruct (decide (k = (p, n))) as [->|Hne].
      { rewrite lookup_insert_eq in Hin. simplify_eq. auto. }
      rewrite lookup_insert_ne in Hin by done. left.
      assert (Hin' : Hashtable.entries (if d_hashed x
        then (Hashtable.remove strong from (s_hashtable sb)).2 else s_hashtable sb) !! k = Some b).
      { case_match; [|done]. by apply map_lookup_filter_Some in Hin as []. }
      assert (Hw : hashed_in s w k b).
      { exists sb. split; [done|]. destruct (d_hashed x); [|done]. simpl in Hin'.
        by apply lookup_delete_Some in Hin' as []. }
      split; [done|]. destruct (Hold Hw) as [?|(_ & -> & Hhd)]; [done|].
      rewrite Hhd in Hin'. simpl in Hin'. by rewrite lookup_delete_eq in Hin'.
    - left. assert (Hw : hashed_in s' w k b) by (by exists sb). split; [done|].
      destruct (Hold Hw) as [?|(-> & _)]; [done|]. by rewrite Nat.eqb_refl in E. }
  assert (Hl : forall s' k b, looked_up_in s' w' k b -> looked_up_in s' w k b /\ b <> a).
  { intros s' k b (sb' & Hsb & Hin). simpl in Hsb. apply alter_at in Hsb as (sb & Hsb & ->).
    assert (Hw : looked_up_in s' w k b) by (exists sb; split; [done | by destruct (s' =? s)%nat]).
    split; [done|]. intros ->. by eapply moved_table. }
  assert (Hold : forall b y, w_dentries w !! b = Some y -> b <> a -> w_dentries w' !! b = Some y).
  { intros b y Hy Hne. simpl. by rewrite lookup_alter_ne. }
  assert (Ha : w_dentries w' !! a = Some (with_place (Some p) n (with_hashed true x))).
  { simpl. by rewrite lookup_alter_eq, Hx. }
  split.
  - assert (Hk : kept w w'); [|by apply Hk, Ht].
    etransitivity; [|by apply (moves_dentry _ a (set_sbs _ w))]. by apply frame_sb.
  - intros s' k b Hin. destruct (Hh _ _ _ Hin) as [[Ho Hne]|(-> & -> & ->)].
    + destruct (tidy_hash _ _ Ht _ _ _ Ho) as (y & Hy & ?). exists y. split; [by apply Hold | done].
    + eexists. split; [exact Ha | by repeat split].
  - intros s' k b Hin. destruct (Hl _ _ _ Hin) as [Ho Hne].
    destruct (tidy_lookup _ _ Ht _ _ _ Ho) as (y & Hy & ?). exists y. split; [by apply Hold | done].
  - intros i m b Hm Hb. destruct (tidy_alias _ _ Ht i m b Hm Hb) as (y & Hy & Hyi).
    destruct (decide (b = a)) as [->|Hne]; [|exists y; split; [by apply Hold | done]].
    eexists. split; [exact Ha|]. by simplify_eq.
  - assert (Hsb : forall q t, sb_of q t w -> sb_of q t w').
    { intros q t (y & Hy & Ey). destruct (decide (q = a)) as [->|Hne].
      - eexists. split; [exact Ha | by simplify_eq].
      - exists y. split; [by apply Hold | done]. }
    intros b y q Hy Hq. destruct (decide (b = a)) as [->|Hne].
    + rewrite Ha in Hy. simplify_eq/=. apply Hsb, Hp.
    + simpl in Hy. rewrite lookup_alter_ne in Hy by done.
      apply Hsb. destruct (tidy_parent _ _ Ht _ _ _ Hy Hq) as (z & Hz & Ez). by exists z.
Qed.

(** *** A name let go of *)
Lemma tidy_unhashed w d x strong :
  tidy w -> w_dentries w !! d = Some x ->
  let k := (default d (d_parent x), d_name x) in
  tidy (set_dentries (alter (with_hashed false) d (w_dentries w))
    (set_sbs (alter (fun sb => with_hashtable (Hashtable.remove strong k (s_hashtable sb)).2 sb)
      (d_sb x) (w_sbs w)) w)).
Proof.
  intros Ht Hx k. set (w' := set_dentries _ _).
  assert (Hh : forall s k' b, hashed_in s w' k' b -> hashed_in s w k' b /\ b <> d).
  { intros s k' b (sb' & Hsb & Hin). simpl in Hsb. apply alter_at in Hsb as (sb & Hsb & ->).
    assert (Hw : hashed_in s w k' b).
    { exists sb. split; [done|]. destruct (s =? d_sb x)%nat; [|done]. simpl in Hin.
      by apply lookup_delete_Some in Hin as []. }
    split; [done|]. intros ->.
    destruct (tidy_hash _ _ Ht _ _ _ Hw) as (y & Hy & (E1 & E2 & E3) & _). simplify_eq.
    rewrite Nat.eqb_refl in Hin. simpl in Hin. apply lookup_delete_Some in Hin as [Hne _].
    apply Hne. destruct k'. unfold k. simpl in *. congruence. }
  assert (Hl : forall s k' b, looked_up_in s w' k' b -> looked_up_in s w k' b).
  { intros s k' b (sb' & Hsb & Hin). simpl in Hsb. apply alter_at in Hsb as (sb & Hsb & ->).
    exists sb. split; [done | by destruct (s =? d_sb x)%nat]. }
  eapply tidy_of; [exact Ht | | | | | | |].
  - etransitivity; [|by apply (frame_dentry _ d (set_sbs _ w))]. by apply frame_sb.
  - intros a y Hy. eexists. split; [by apply alter_of | by destruct (a =? d)%nat].
  - intros s k' b Hin. left. by apply Hh.
  - intros s k' b Hin. destruct (Hh _ _ _ Hin) as [Ho Hne].
    destruct (tidy_hash _ _ Ht _ _ _ Ho) as (y & Hy & _ & Hhd).
    eexists. split; [by apply alter_of|]. by rewrite (proj2 (Nat.eqb_neq b d) Hne).
  - intros s k' b Hin. split; [by left; apply Hl|].
    destruct (tidy_lookup _ _ Ht _ _ _ (Hl _ _ _ Hin)) as (y & Hy & _ & Hi).
    eexists. split; [by apply alter_of | by destruct (b =? d)%nat].
  - intros i m a Hm Ha. left. eauto.
  - intros a y Hy. simpl in Hy. apply alter_at in Hy as (y0 & Hy0 & _). left. by exists y0.
Qed.

(** *** A name made *)
Lemma tidy_new_dentry w p n s ops :
  tidy w -> sb_of p s w ->
  tidy (set_next (S (w_next w)) (set_dentries
    (<[w_next w := MkDentry _ (Some p) n None Unasked false s ops]> (w_dentries w)) w)).
Proof.
  intros Ht Hp. set (w' := set_next _ _).
  assert (Hfr : w_dentries w !! w_next w = None) by (apply (tidy_fresh _ _ Ht); lia).
  assert (Hold : forall d x, w_dentries w !! d = Some x -> w_dentries w' !! d = Some x).
  { intros d x Hx. simpl. rewrite lookup_insert_ne; [done | intros <-; discriminate (eq_trans (eq_sym Hfr) Hx)]. }
  eapply tidy_of; [exact Ht | apply frame_new_dentry | | | | | |].
  - intros d x Hx. exists x. split; [by apply Hold | done].
  - intros s' k d Hin. by left.
  - intros s' k d Hin. destruct (tidy_hash _ _ Ht _ _ _ Hin) as (x & Hx & _ & Hh).
    exists x. split; [by apply Hold | done].
  - intros s' k d Hin. split; [by left|].
    destruct (tidy_lookup _ _ Ht _ _ _ Hin) as (x & Hx & _ & Hi).
    exists x. split; [by apply Hold | done].
  - intros i m a Hm Ha. left. eauto.
  - intros d x Hx. simpl in Hx. destruct (decide (d = w_next w)) as [->|Hne].
    + rewrite lookup_insert_eq in Hx. simplify_eq/=. right. intros q [= <-].
      destruct Hp as (y & Hy & E). exists y. split; [by apply Hold | done].
    + rewrite lookup_insert_ne in Hx by done. left. by exists x.
Qed.

Lemma tidy_look_up w d x s k strong :
  tidy w -> w_dentries w !! d = Some x -> placed s k d x -> d_inode x = None ->
  tidy (set_sbs (alter (fun sb =>
    with_in_lookup (Hashtable.insert_entry strong k d (s_in_lookup sb)) sb) s (w_sbs w)) w).
Proof.
  intros Ht Hx Hpl Hi. set (w' := set_sbs _ _).
  assert (Hh : forall s' k' a, hashed_in s' w' k' a -> hashed_in s' w k' a).
  { intros s' k' a (sb' & Hsb & Hin). simpl in Hsb. apply alter_at in Hsb as (sb & Hsb & ->).
    exists sb. split; [done | by destruct (s' =? s)%nat]. }
  assert (Hl : forall s' k' a, looked_up_in s' w' k' a ->
    looked_up_in s' w k' a \/ (s' = s /\ k' = k /\ a = d)).
  { intros s' k' a (sb' & Hsb & Hin). simpl in Hsb. apply alter_at in Hsb as (sb & Hsb & ->).
    destruct (s' =? s)%nat eqn:E; [|left; by exists sb]. apply Nat.eqb_eq in E as ->. simpl in Hin.
    destruct (decide (k' = k)) as [->|Hne].
    - rewrite lookup_insert_eq in Hin. simplify_eq. auto.
    - rewrite lookup_insert_ne in Hin by done. left. exists sb. split; [done|].
      case_match; [|done]. by apply map_lookup_filter_Some in Hin as []. }
  eapply tidy_of; [exact Ht | by apply frame_sb | | | | | |].
  - intros a y Hy. by exists y.
  - intros s' k' a Hin. left. by apply Hh.
  - intros s' k' a Hin. destruct (tidy_hash _ _ Ht _ _ _ (Hh _ _ _ Hin)) as (y & Hy & _ & ?). eauto.
  - intros s' k' a Hin. destruct (Hl _ _ _ Hin) as [Ho|(-> & -> & ->)].
    + split; [by left|]. destruct (tidy_lookup _ _ Ht _ _ _ Ho) as (y & Hy & _ & ?). eauto.
    + split; [right; eauto | exists x; auto].
  - intros i m a Hm Ha. left. eauto.
  - intros a y Hy. left. by exists y.
Qed.
End Tidy.
