(* ===== verification/Containment.v ===== *)
(** Where a walk can lead: every dentry it reaches stands beneath the directory
    it began at, whatever its names are, whichever links it follows and however
    splicing moves directories under it. *)
From stdpp Require Import gmap.
From S2P Require Import Prelude Text Locking VfsTypes World Dcache Cred OpenFile Namei VfsFacts NameiFacts VfsLogic Tidy.
Local Open Scope vfs_scope.

(** ** What a Filesystem promises a walk *)
Section Own.
Context {T : FsTypes}.
Implicit Types w : world.

(** An inode whose alias, if it has one, stands in the instance [s]. *)
Definition own (s : sbid) (i : iid) w : Prop :=
  forall n a x, w_inodes w !! i = Some n -> i_dentry n = Some a ->
    w_dentries w !! a = Some x -> d_sb x = s.

Definition own_found (s : sbid) (f : Lookup) w : Prop :=
  match f with Found i | Spelled _ i => own s i w | Absent => True end.

(** Its operations keep the dcache tidy and move no dentry, and what it finds for
    a name is of the instance the name is in. *)
Class Housed (V : VfsTables T) := {
  housed_keeps :: Keeps calm V;
  housed_found o d s w f w' : tidy w -> sb_of d s w ->
    op_lookup o d w = Some (Ok f, w') -> own_found s f w';
  housed_finish o d how s w f w' : tidy w -> sb_of d s w ->
    op_atomic_open o d how w = Some (Ok f, w') ->
    match f with
    | FinishSpelled _ _ i => own s i w'
    | FinishLookup f => own_found s f w'
    | _ => True
    end;
}.

End Own.

(** ** Beneath a directory *)
Section Beneath.
Context {T : FsTypes} `{!VfsTables T} `{LC : !LruCache} `{!FileTables T} `{!Housed _}.
Context (r : did) (s : sbid).
Implicit Types w : world.

(** A step up, a dentry beneath [r], and one that stands in [p]. *)
Definition up w (x p : did) : Prop := exists e, w_dentries w !! x = Some e /\ d_parent e = Some p.
Definition under (x : did) w : Prop := sb_of x s w /\ rtc (up w) x r.
Definition child (p d : did) w : Prop :=
  exists x, w_dentries w !! d = Some x /\ default d (d_parent x) = p /\ d_sb x = s.

(** All that is beneath [r] stays beneath it. *)
Definition shelters w w' : Prop := forall x, under x w -> under x w'.

#[export] Instance shelters_pre : PreOrder shelters.
Proof. split; [by intros w x|]. intros w1 w2 w3 H1 H2 x Hx. auto. Qed.

Abbreviation walk := (only tidy shelters).

(** What staying beneath leaves true. *)
Definition lasting (P : world -> Prop) : Prop := forall w w', shelters w w' -> P w -> P w'.

Lemma under_keeps x w w' :
  grows w w' -> under x w -> under x w'.
Proof.
  intros Hk [(e & He & Hsb) Hup]. destruct (Hk x e He) as (e' & He' & (_ & _ & Esb) & _).
  split; [exists e'; split; [done | congruence]|].
  clear -Hk Hup. induction Hup as [x|x y z (e & He & Hp) Hup IH]; [reflexivity|].
  eapply rtc_l; [|exact IH]. destruct (Hk x e He) as (e' & He' & (Ep & _) & _). exists e'.
  split; [done | congruence].
Qed.

Lemma child_keeps p d w w' :
  grows w w' -> child p d w -> child p d w'.
Proof.
  intros Hk (e & He & Hp & Hsb). destruct (Hk d e He) as (e' & He' & (Ep & _ & Esb) & _).
  exists e'. split; [done|]. rewrite Ep, Esb. done.
Qed.

Lemma child_under p d w : under p w -> child p d w -> under d w.
Proof.
  intros Hp (x & Hx & Hpar & Hsb). split; [by exists x|].
  destruct (d_parent x) as [q|] eqn:E; simpl in Hpar; subst; [|by destruct Hp].
  eapply rtc_l; [exists x; eauto | by destruct Hp].
Qed.

Lemma calm_shelters w w' : tidy w -> calm w w' -> tidy w' /\ shelters w w'.
Proof. intros Ht Hc. destruct (Hc Ht) as [Ht' Hk]. split; [done|]. intros x. by apply under_keeps. Qed.

(** A calm step leaves beneath what is, and a child where it stands. *)
Lemma walk_calm {A} P (m : M A) : lasting P -> framed calm m -> walk P m (fun _ => P).
Proof.
  intros HP. apply only_framed. intros w w' Ht Hc.
  destruct (calm_shelters w w' Ht Hc) as [Ht' Hs]. split_and!; [done..|]. by apply HP.
Qed.

Lemma walk_then {A B} P (m : M A) (k : A -> M B) Q :
  lasting P -> framed calm m -> (forall a, walk P (k a) Q) -> walk P (bind m k) Q.
Proof. intros HP Hm Hk. eapply only_bind; [by apply walk_calm | done]. Qed.

(** What stays where every dentry does. *)
Definition still_there (P : world -> Prop) : Prop :=
  forall w w', tidy w -> grows w w' -> P w -> P w'.

Lemma walk_still {A} P (m : M A) : still_there P -> framed calm m -> walk P m (fun _ => P).
Proof.
  intros HP. apply only_framed. intros w w' Ht Hc.
  destruct (calm_shelters w w' Ht Hc) as [Ht' Hs]. split_and!; [done..|]. by apply HP, Hc.
Qed.

Lemma lasting_still P : lasting P -> still_there P.
Proof. intros HP w w' _ Hk. apply HP. intros x. by apply under_keeps. Qed.
Lemma still_child p d : still_there (child p d).
Proof. intros w w' _. apply child_keeps. Qed.
Lemma still_and P Q : still_there P -> still_there Q -> still_there (fun w => P w /\ Q w).
Proof. intros HP HQ w w' Ht Hk [? ?]. eauto. Qed.
Lemma lasting_under x : lasting (under x).
Proof. intros w w' Hs. apply Hs. Qed.
Lemma lasting_true : lasting (fun _ => True).
Proof. by intros w w' _ _. Qed.
Lemma lasting_and P Q : lasting P -> lasting Q -> lasting (fun w => P w /\ Q w).
Proof. intros HP HQ w w' Hk [? ?]. eauto. Qed.
Lemma lasting_pure (F : Prop) : lasting (fun _ => F).
Proof. by intros w w' _ ?. Qed.

(** *** Moves *)

Definition named (a : did) w : Prop :=
  exists x, w_dentries w !! a = Some x /\ d_sb x = s /\ is_Some (d_inode x).

Lemma still_named a : still_there (named a).
Proof.
  intros w w' _ Hg (x & Hx & Hs & Hi). destruct (Hg a x Hx) as (x' & Hx' & (_ & _ & E) & Hi').
  exists x'. split_and!; [done | congruence | auto].
Qed.

Lemma stand_at_run a p n w res w' :
  tidy w -> named a w -> sb_of p s w -> stand_at s a p n w = Some (res, w') ->
  tidy w' /\ w_dentries w' =
    alter (fun x => with_place (Some p) n (with_hashed true x)) a (w_dentries w).
Proof.
  intros Ht (x & Hx & Hs & Hi) Hp. unfold stand_at, dentry_at, asks, reads, parent_and_name, bind.
  rewrite Hx. simpl. rewrite Hx. simpl. intros [= <- <-]. split; [|done].
  assert (Ht0 : tidy (set_tick (S (w_tick w)) w)) by (by apply calm_tick).
  by apply (tidy_moved (set_tick (S (w_tick w)) w) a x s p n (w_strong w (w_tick w))).
Qed.

(** Moving [a] under [p], which does not stand beneath it. *)
Lemma under_moved w w' a p n :
  under p w -> ~ rtc (up w) p a ->
  w_dentries w' = alter (fun x => with_place (Some p) n (with_hashed true x)) a (w_dentries w) ->
  shelters w w'.
Proof.
  intros [_ Hp] Hna E.
  assert (Hne : forall x q, x <> a -> up w x q -> up w' x q).
  { intros x q Hx (e & He & Hq). exists e. rewrite E, lookup_alter_ne by done. done. }
  assert (Hp' : rtc (up w') p r).
  { clear -Hp Hna Hne. induction Hp as [p|p q z Hpq Hqz IH]; [reflexivity|].
    eapply rtc_l; [apply Hne; [|exact Hpq] | apply IH].
    - intros ->. by apply Hna.
    - intros Hq. apply Hna. by eapply rtc_l. }
  intros x [(e & He & Hs) Hx]. split.
  - destruct (decide (x = a)) as [->|Hxa].
    + eexists. rewrite E, lookup_alter_eq, He. simpl. by split.
    + exists e. by rewrite E, lookup_alter_ne.
  - clear Hs He e. induction Hx as [x|x q z Hxq Hqz IH]; [reflexivity|].
    destruct (decide (x = a)) as [->|Hxa].
    + destruct Hxq as (e & He & _). eapply rtc_l; [|by apply Hp'].
      eexists. rewrite E, lookup_alter_eq, He. by split.
    + eapply rtc_l; [by apply Hne | by apply IH].
Qed.

Lemma ancestor_up_false fuel w a d :
  ancestor_up fuel w a d = Some false -> forall q, up w d q -> ~ rtc (up w) q a.
Proof.
  revert d. induction fuel as [|fuel IH]; intros d Hf q (e & He & Hq); simpl in Hf; [done|].
  rewrite He in Hf. simpl in Hf. rewrite Hq in Hf.
  destruct (q =? a)%nat eqn:E; [done|]. apply Nat.eqb_neq in E.
  intros Hr. apply rtc_inv in Hr as [?|(q' & Hup & Hr)]; [done|]. by eapply IH.
Qed.

(** What stands at [(p, n)] is moved there from elsewhere. *)
Lemma walk_stand_at a p n :
  walk (fun w => under p w /\ named a w /\ ~ rtc (up w) p a) (stand_at s a p n)
    (fun _ w => child p a w).
Proof.
  intros w res w' Ht (Hp & Ha & Hna) Hr.
  destruct (stand_at_run a p n w res w' Ht Ha (proj1 Hp) Hr) as [Ht' E].
  split_and!; [done | apply rtc_once; by eapply under_moved |].
  intros _ _. destruct Ha as (x & Hx & Hs & _). eexists. rewrite E, lookup_alter_eq, Hx.
  by repeat split.
Qed.

(** Not beneath [a], from where a dentry stands. *)
Definition clear_of (a p : did) w : Prop := under p w /\ ~ rtc (up w) p a.

Lemma still_clear_of a p : still_there (clear_of a p).
Proof.
  intros w w' Ht Hg [Hp Hn]. split; [by eapply under_keeps|]. intros Hr. apply Hn.
  destruct Hp as [(e & He & _) _]. clear Hn. revert e He.
  induction Hr as [x|x q z (e' & He' & Hq) Hr IH]; intros e He; [reflexivity|].
  destruct (Hg x e He) as (e2 & He2 & (Ep & _) & _). simplify_eq. rewrite Ep in Hq.
  eapply rtc_l; [by exists e|].
  destruct (tidy_parent _ _ Ht _ _ _ He Hq) as (y & Hy & _). by eapply IH.
Qed.

Lemma walk_rename_write {A} P (k : M A) Q :
  still_there P -> (forall a, still_there (Q a)) -> walk P k Q -> walk P (rename_write k) Q.
Proof.
  intros HP HQ Hk. unfold rename_write. cbv zeta.
  eapply only_bind; [apply walk_still; [exact HP | apply calm_bump] | intros []].
  eapply only_bind; [by apply only_attempt | intros x].
  eapply only_bind; [apply walk_still; [|apply calm_bump] | intros []].
  - intros w w' Ht Hg Hx a Ea. eapply HQ; eauto.
  - apply only_lift. eauto.
Qed.

Lemma walk_holding {A} P (m : M A) Q gs :
  (forall a, still_there (Q a)) -> walk P m Q -> walk P (holding gs m) Q.
Proof.
  intros HQ. apply only_holding. intros x. apply walk_still; [|auto with vfs].
  intros w w' Ht Hg Hx a Ea. eapply HQ; eauto.
Qed.

Lemma walk_unalias s' d a p :
  a <> d ->
  walk (fun w => child p d w /\ under p w /\ named a w) (unalias s' d a) (fun _ w => child p a w).
Proof.
  intros Hne. unfold unalias.
  set (F := fun w => child p d w /\ under p w /\ named a w).
  assert (HF : still_there F).
  { apply still_and; [apply still_child|]. apply still_and; [|apply still_named].
    apply lasting_still, lasting_under. }
  eapply only_bind with (Q := fun at_ w => at_.1 = p /\ F w).
  { eapply only_post; [apply only_reads|]. intros at_ w _ [Hf Hr]. split; [|done].
    unfold parent_and_name in Hr. destruct Hf as [(x & Hx & Hp & _) _].
    rewrite Hx in Hr. simpl in Hr. by simplify_eq/=. }
  intros [q n]. simpl. apply only_pure. intros ->.
  eapply only_bind with (Q := fun x w => d_sb x = s /\ F w).
  { eapply only_post; [apply only_asks|]. intros x w _ [Hf Hx]. split; [|done].
    destruct Hf as [(y & Hy & _ & Hs) _]. by simplify_eq. }
  intros x. apply only_pure. intros ->.
  apply walk_rename_write; [exact HF | intros []; apply still_child |].
  eapply only_bind with (Q := fun beneath w => F w /\ (beneath = false -> clear_of a p w)).
  { eapply only_post; [apply only_reads|]. intros b w Ht [Hf Hr]. split; [done|]. intros ->.
    unfold d_ancestor in Hr. destruct (ancestor_up (fuel_of w) w a d) as [c|] eqn:E; simplify_eq/=.
    destruct Hf as ((y & Hy & Hpar & _) & Hp & _). split; [done|].
    pose proof (ancestor_up_false (fuel_of w) w a d E) as Hup.
    destruct (d_parent y) as [q|] eqn:Eq; simpl in Hpar; subst.
    - apply Hup. by exists y.
    - intros Hr. apply rtc_inv in Hr as [?|(q' & (z & Hz & Hq') & _)]; [done | congruence]. }
  intros beneath.
  eapply only_bind; [apply only_reads | intros root]. simpl.
  destruct beneath; simpl; [apply only_fail|]. destruct root; [apply only_fail|].
  set (G := fun w => named a w /\ clear_of a p w).
  assert (HG : still_there G) by (apply still_and; [apply still_named | apply still_clear_of]).
  apply only_pre with (P' := G).
  { intros w _ [[(_ & _ & ?) Hc] _]. split; [done | by apply Hc]. }
  assert (Hmove : walk G (stand_at s a p n) (fun _ w => child p a w)).
  { eapply only_pre; [|apply walk_stand_at]. intros w _ [? [? ?]]. done. }
  eapply only_bind; [apply walk_still; [exact HG | auto with vfs] | intros old].
  case_match; [done|].
  eapply only_bind; [apply walk_still; [exact HG | auto with vfs] | intros [rename|]];
    [|apply only_fail].
  eapply only_bind; [apply walk_still; [exact HG | auto with vfs] | intros [i|]];
    [|apply only_panic].
  eapply only_bind; [apply walk_still; [exact HG | auto with vfs] | intros [dir|]].
  - apply walk_holding; [intros []; apply still_child | done].
  - eapply only_bind; [apply walk_still; [exact HG | auto with vfs] | intros []].
    apply only_fail.
Qed.

(** *** Names allocated and looked up *)

(** What no inode's change bears on. *)
Definition inodes_kept w w' : Prop := grows w w' /\ w_inodes w' = w_inodes w.
Definition unmoved (P : world -> Prop) : Prop :=
  forall w w', tidy w -> inodes_kept w w' -> P w -> P w'.

Lemma unmoved_own i : unmoved (own s i).
Proof.
  intros w w' Ht [Hg Ei] Ho n a x Hn Ha Hx. rewrite Ei in Hn.
  destruct (tidy_alias _ _ Ht _ _ _ Hn Ha) as (y & Hy & _).
  destruct (Hg a y Hy) as (y' & Hy' & (_ & _ & E) & _). simplify_eq. rewrite E. by eapply Ho.
Qed.
Lemma unmoved_still P : still_there P -> unmoved P.
Proof. intros HP w w' Ht [Hg _]. by apply HP. Qed.
Lemma unmoved_and P Q : unmoved P -> unmoved Q -> unmoved (fun w => P w /\ Q w).
Proof. intros HP HQ w w' Ht Hk [? ?]. eauto. Qed.

(** Calm steps that touch no inode. *)
Definition lull w w' : Prop := calm w w' /\ w_inodes w' = w_inodes w.

#[local] Instance lull_pre : PreOrder lull.
Proof.
  split; [by split|]. intros w1 w2 w3 [? ?] [? ?]. split; [by transitivity w2 | congruence].
Qed.

Lemma walk_lull {A} P (m : M A) : unmoved P -> framed lull m -> walk P m (fun _ => P).
Proof.
  intros HP. apply only_framed. intros w w' Ht [Hc Ei].
  destruct (calm_shelters w w' Ht Hc) as [Ht' Hs]. split_and!; [done..|].
  apply HP; [done|]. split; [by apply Hc | done].
Qed.

Lemma lull_dentry_at d : framed lull (dentry_at d).
Proof. apply framed_asks. apply _. Qed.
Lemma lull_asked d x : framed lull (on_dentry d (with_asked x)).
Proof. intros w y w' Hr. split; [by eapply calm_asked|]. by injection Hr as _ <-. Qed.
Lemma lull_upgrade : framed lull upgrade.
Proof. intros w y w' [= <- <-]. split; [apply calm_tick | done]. Qed.
#[local] Hint Resolve lull_dentry_at lull_asked lull_upgrade : vfs.
Lemma lull_wait_lookup d : framed lull (wait_lookup d).
Proof. unfold wait_lookup. frames. Qed.
#[local] Hint Resolve lull_wait_lookup : vfs.
Lemma lull_begin_lookup d : framed lull (begin_lookup d).
Proof. unfold begin_lookup. frames. Qed.
Lemma lull_hashed d : framed lull (hashed d).
Proof. unfold hashed. frames. Qed.
#[local] Hint Resolve lull_begin_lookup lull_hashed : vfs.

Lemma walk_ask_in_lookup {A} P d (ask : M A) Q :
  unmoved P -> (forall a, still_there (Q a)) -> walk P ask Q ->
  walk P (ask_in_lookup d ask) (fun x w => match x with Some a => Q a w | None => P w end).
Proof.
  intros HP HQ Hask. unfold ask_in_lookup.
  eapply only_bind; [apply walk_lull; [exact HP | auto with vfs] | intros []].
  - by apply only_ret.
  - eapply only_bind; [by apply only_attempt | intros x].
    eapply only_bind; [apply walk_still; [|auto with vfs] | intros []].
    + intros w w' Ht Hg Hx a E. eapply HQ; eauto.
    + eapply only_bind; [by apply only_lift; intros a w _ Hx E; apply (Hx a E) | intros a].
      by apply only_ret.
  - eapply only_bind; [exact Hask | intros a]. by apply only_ret.
Qed.

Lemma placed_child w p n d x : w_dentries w !! d = Some x -> placed s (p, n) d x -> child p d w.
Proof. intros Hx (E & _ & E'). by exists x. Qed.

Lemma table_get (strong : nat -> bool) (k : Key) (v : nat) (x : Hashtable.Hashtable Key) :
  Hashtable.get strong k x = Some v -> Hashtable.entries x !! k = Some v.
Proof.
  unfold Hashtable.get. destruct (Hashtable.entries x !! k) as [u|]; simpl; [|done].
  by case_match.
Qed.

(** A new name, as a walk puts it among those looked up. *)
Lemma walk_allocated P p n ops (strong : nat -> bool) :
  unmoved P ->
  walk (fun w => P w /\ sb_of p s w)
    (let! made := dentry_new (Some p) n ops s in
     let! current := asks (fun w => Some (w_current w)) in
     on_dentry made (with_asked (Allocated current)) ;;!
     on_sb s (fun sb =>
       with_in_lookup (Hashtable.insert_entry strong (p, n) made (s_in_lookup sb)) sb) ;;!
     ret made)
    (fun d w => P w /\ child p d w).
Proof.
  intros HP w x w' Ht [Hpw Hp] [= <- <-].
  assert (Ht1 := tidy_new_dentry w p n s ops Ht Hp).
  set (w1 := set_next _ _) in Ht1.
  assert (Hg1 : grows w w1).
  { intros d e He. exists e. split; [|done]. simpl. rewrite lookup_insert_ne; [done|].
    intros <-. discriminate (eq_trans (eq_sym (proj1 (tidy_fresh _ _ Ht _ (le_n _)))) He). }
  destruct (calm_asked (w_next w) (Allocated (w_current w)) w1 (Ok tt) _ eq_refl Ht1) as [Ht2 Hg2].
  set (w2 := set_dentries _ w1) in Ht2, Hg2.
  assert (Hd : w_dentries w2 !! w_next w
    = Some (MkDentry _ (Some p) n None (Allocated (w_current w)) false s ops)).
  { simpl. by rewrite lookup_alter_eq, lookup_insert_eq. }
  assert (Hg : grows w w2) by by transitivity w1.
  split_and!.
  - by apply (tidy_look_up w2 (w_next w) _ s (p, n) strong Ht2 Hd).
  - apply rtc_once. intros y. by apply (under_keeps y w w2).
  - intros d [= <-]. split.
    + eapply HP; [exact Ht | | exact Hpw]. split; [exact Hg | done].
    + eexists. split; [exact Hd | done].
Qed.

Lemma walk_alloc_parallel P p n :
  unmoved P ->
  walk (fun w => P w /\ sb_of p s w) (alloc_parallel s p n) (fun d w => P w /\ child p d w).
Proof.
  intros HP. unfold alloc_parallel. generalize TURNS as turns. intros turns.
  set (F := fun w => P w /\ sb_of p s w).
  assert (HF : unmoved F).
  { apply unmoved_and; [exact HP|]. apply unmoved_still. intros w w' _ Hg (x & Hx & E).
    destruct (Hg p x Hx) as (x' & Hx' & (_ & _ & E') & _). exists x'. split; [done | congruence]. }
  induction turns as [|turns IH]; [apply only_panic|]. cbn [alloc_parallel_turns].
  eapply only_bind with (Q := fun sb w => F w
    /\ (forall d, Hashtable.entries (s_hashtable sb) !! (p, n) = Some d -> child p d w)
    /\ (forall d, Hashtable.entries (s_in_lookup sb) !! (p, n) = Some d -> child p d w)).
  { eapply only_post; [apply only_asks|]. intros sb w Ht [Hf Hsb]. split_and!; [done| |].
    - intros d Hd. destruct (tidy_hash _ _ Ht s (p, n) d) as (x & Hx & Hpl & _); [by exists sb|].
      by eapply placed_child.
    - intros d Hd. destruct (tidy_lookup _ _ Ht s (p, n) d) as (x & Hx & Hpl & _); [by exists sb|].
      by eapply placed_child. }
  intros sb.
  assert (Hall : forall (x : Hashtable.Hashtable Key), unmoved (fun w =>
    forall d, Hashtable.entries x !! (p, n) = Some d -> child p d w)).
  { intros x w w' Ht [Hg _] Hw d Hd. eapply child_keeps; eauto. }
  assert (HF' : unmoved (fun w => F w
    /\ (forall d, Hashtable.entries (s_hashtable sb) !! (p, n) = Some d -> child p d w)
    /\ (forall d, Hashtable.entries (s_in_lookup sb) !! (p, n) = Some d -> child p d w))).
  { apply unmoved_and; [exact HF|]. by apply unmoved_and. }
  eapply only_bind; [apply walk_lull; [exact HF' | auto with vfs] | intros strong].
  destruct (Hashtable.get strong (p, n) (s_hashtable sb)) as [found|] eqn:Hfound.
  { apply only_ret. intros w _ ([Hpw _] & Hh & _). split; [done|]. by eapply Hh, table_get. }
  eapply only_bind; [apply walk_lull; [exact HF' | auto with vfs] | intros strong'].
  destruct (Hashtable.get strong' (p, n) (s_in_lookup sb)) as [waited|] eqn:Hwaited.
  - eapply only_bind; [apply walk_lull; [exact HF' | auto with vfs] | intros mine].
    destruct mine.
    { apply only_ret. intros w _ ([Hpw _] & _ & Hl). split; [done|]. by eapply Hl, table_get. }
    eapply only_bind; [apply only_reads | intros called]. simpl.
    eapply only_pre with (P' := fun w => F w /\ (forall d, Hashtable.entries (s_in_lookup sb) !! (p, n)
      = Some d -> child p d w)); [by intros w _ [(? & _ & ?) _]|].
    eapply only_bind; [apply walk_lull; [by apply unmoved_and | auto with vfs] | intros h].
    case_match; [|eapply only_pre; [|exact IH]; by intros w _ [? _]].
    apply only_ret. intros w _ ([Hpw _] & Hl). split; [done|]. by eapply Hl, table_get.
  - eapply only_pre; [|by apply walk_allocated]. by intros w _ [? _].
Qed.

(** *** Splicing *)

(** A name stands in [p], which is beneath [r]. *)
Definition within (p d : did) w : Prop := child p d w /\ under p w.

Lemma still_within p d : still_there (within p d).
Proof. apply still_and; [apply still_child | apply lasting_still, lasting_under]. Qed.

Lemma within_under p d w : within p d w -> under d w.
Proof. intros [? ?]. by eapply child_under. Qed.

Lemma lasting_rtc P w w' : lasting P -> rtc shelters w w' -> P w -> P w'.
Proof. intros HP Hr. induction Hr; eauto. Qed.

(** [p] stays beneath [r] through any step. *)
Lemma walk_within {A} P (m : M A) (Q : A -> world -> Prop) p :
  walk P m Q -> walk (fun w => P w /\ under p w) m (fun a w => Q a w /\ under p w).
Proof. apply only_lasting. intros w w' Hs. apply Hs. Qed.

Lemma walk_added {A} P d i (k : M A) Q :
  still_there P -> walk P k Q -> walk P (__instantiate d i ;;! rehash d ;;! k) Q.
Proof.
  intros HP Hk. assert (Ha : walk P (add d (Some i) ;;! k) Q).
  { eapply only_bind; [apply walk_still; [exact HP | apply calm_add] | by intros []]. }
  intros w x w' Ht Hp Hr. apply (Ha w x w' Ht Hp). rewrite <- Hr.
  unfold add, add_hashed, bind. by destruct (__instantiate d i w) as [[[]]|].
Qed.

Lemma walk_find_alias p d i :
  walk (fun w => within p d w /\ own s i w) (find_alias_or_add i d)
    (fun x w => within p d w /\ forall a, x = Some a -> a <> d /\ named a w).
Proof.
  unfold find_alias_or_add.
  set (F := fun n w => within p d w /\ forall a, i_dentry n = Some a -> named a w).
  assert (HF : forall n, still_there (F n)).
  { intros n. apply still_and; [apply still_within|]. intros w w' Ht Hg Hn a Ha.
    eapply still_named; eauto. }
  eapply only_bind with (Q := F).
  { eapply only_post; [apply only_asks|]. intros n w Ht [[Hw Ho] Hn]. split; [done|].
    intros a Ha. destruct (tidy_alias _ _ Ht _ _ _ Hn Ha) as (x & Hx & Hi).
    exists x. split_and!; [done | by eapply Ho | done]. }
  intros n.
  eapply only_bind; [apply walk_still; [apply HF | auto with vfs] | intros strong]. cbv zeta.
  destruct (i_dentry n) as [a|] eqn:Ea.
  - destruct (strong a && negb (a =? d)%nat) eqn:Eb.
    + apply andb_true_iff in Eb as [_ Hne]. apply negb_true_iff, Nat.eqb_neq in Hne.
      apply only_ret. intros w _ [Hw Hn]. split; [done|]. intros b [= <-]. auto.
    + eapply only_pre with (P' := within p d); [by intros w _ []|].
      apply walk_added; [apply still_within | by apply only_ret].
  - eapply only_pre with (P' := within p d); [by intros w _ []|].
    apply walk_added; [apply still_within | by apply only_ret].
Qed.

(** What a lookup answers stands where the name was asked for. *)
Definition spliced (p d : did) (x : option did) w : Prop := within p (default d x) w.

Lemma walk_splice_found s' p d i :
  walk (fun w => within p d w /\ own s i w) (splice_found s' d i) (spliced p d).
Proof.
  unfold splice_found. eapply only_bind; [apply walk_find_alias | intros [a|]].
  - eapply only_pre with (P' := fun w => a <> d /\ (within p d w /\ named a w)).
    { intros w _ [Hw Ha]. destruct (Ha a eq_refl). done. }
    apply only_pure. intros Hne.
    eapply only_bind with (Q := fun _ w => child p a w /\ under p w); [|intros []; by apply only_ret].
    eapply only_pre; [|apply walk_within, (walk_unalias s' d a p Hne)].
    intros w _ [[? ?] ?]. done.
  - apply only_ret. by intros w _ [? _].
Qed.

Lemma still_spliced p d x : still_there (spliced p d x).
Proof. apply still_within. Qed.

Lemma walk_parent p d P :
  walk (fun w => within p d w /\ P w) (reads (parent d)) (fun q w => q = p /\ (within p d w /\ P w)).
Proof.
  eapply only_post; [apply only_reads|]. intros q w _ [Hf Hr]. split; [|done].
  destruct Hf as [[(x & Hx & Hp & _) _] _]. unfold parent in Hr. rewrite Hx in Hr. by simplify_eq/=.
Qed.

Lemma walk_add_ci p d n i :
  walk (fun w => within p d w /\ own s i w) (add_ci s d n i) (fun d' w => within p d' w).
Proof.
  unfold add_ci. eapply only_bind; [apply walk_parent | intros q]. apply only_pure. intros ->.
  eapply only_bind with (Q := fun found w => (own s i w /\ under p w) /\ child p found w).
  { eapply only_pre; [|apply walk_alloc_parallel].
    - intros w _ [[_ Hp] Ho]. split; [by split | by destruct Hp].
    - apply unmoved_and; [apply unmoved_own | apply unmoved_still, lasting_still, lasting_under]. }
  intros found.
  eapply only_pre with (P' := fun w => within p found w /\ own s i w); [by intros w _ [[? ?] ?]|].
  eapply only_bind.
  { apply walk_ask_in_lookup with (Q := spliced p found);
      [| intros y; apply still_spliced | apply walk_splice_found].
    apply unmoved_and; [apply unmoved_still, still_within | apply unmoved_own]. }
  intros [[a|]|]; apply only_ret; intros w _ Hx; [exact Hx | exact Hx | by destruct Hx].
Qed.

Lemma walk_splice_alias p d f :
  walk (fun w => within p d w /\ own_found s f w) (splice_alias s d f) (spliced p d).
Proof.
  destruct f as [i| |n i]; simpl.
  - apply walk_splice_found.
  - eapply only_pre with (P' := within p d); [by intros w _ []|].
    eapply only_bind; [apply walk_still; [apply still_within | apply calm_rehash] | intros []].
    by apply only_ret.
  - eapply only_bind; [apply walk_add_ci | intros a]. by apply only_ret.
Qed.

Lemma walk_lookup_inode p d :
  walk (within p d) (lookup_inode s p d) (spliced p d).
Proof.
  unfold lookup_inode.
  eapply only_bind.
  { apply walk_ask_in_lookup with (Q := spliced p d);
      [apply unmoved_still, still_within | intros x; apply still_spliced|].
    eapply only_bind; [apply walk_still; [apply still_within | auto with vfs] | intros o].
    eapply only_bind; [|intros f; apply walk_splice_alias].
    intros w x w' Ht Hw Hr. assert (Hc : calm w w') by (eapply keeps_lookup; exact Hr).
    destruct (Hc Ht) as [Ht' Hg].
    split_and!; [done | apply rtc_once; intros y; by apply under_keeps |].
    intros f ->. split; [exact (still_within _ _ w w' Ht Hg Hw)|]. destruct Hw as [(e & He & _ & Hs) _].
    eapply (housed_found o d s w); [done | by exists e | exact Hr]. }
  intros [x|]; by apply only_ret.
Qed.

(** *** Names let go of *)
Lemma walk_drop_hashed p d :
  walk (within p d) (drop_hashed s d) (fun _ => within p d).
Proof.
  intros w x w' Ht Hw. pose proof Hw as [(e & He & _ & Hs) _].
  unfold drop_hashed, dentry_at, asks, reads, parent_and_name, bind. rewrite He. simpl.
  rewrite He. simpl. destruct (d_hashed e); simpl; intros [= <- <-].
  2: { split_and!; [done..|]. intros u _. exact Hw. }
  set (w0 := set_tick (S (w_tick w)) w).
  destruct (calm_tick (S (w_tick w)) w Ht) as [Ht0 _]. fold w0 in Ht0.
  assert (Ht1 := tidy_unhashed w0 d e (w_strong w (w_tick w)) Ht0 He). cbv zeta in Ht1. rewrite Hs in Ht1.
  match type of Ht1 with tidy ?v => assert (Hg : grows w v) end.
  { apply (keeps_alter settled); [done | by intros []]. }
  split_and!; [exact Ht1 | apply rtc_once; intros y; by apply under_keeps |].
  intros u _. exact (still_within _ _ w _ Ht Hg Hw).
Qed.

Lemma calm_lru (f : Lru -> Lru) : framed calm (on_sb s (fun sb => with_lru (f (s_lru sb)) sb)).
Proof. apply still_kept. Qed.

Lemma walk_unhash p d : walk (within p d) (unhash s d) (fun _ => within p d).
Proof.
  unfold unhash. eapply only_bind; [apply walk_drop_hashed | intros []].
  apply walk_still; [apply still_within | apply (calm_lru (lru_pop d))].
Qed.

Lemma walk_invalidate p d : walk (within p d) (invalidate s d) (fun _ => within p d).
Proof.
  unfold invalidate.
  eapply only_bind; [apply walk_still; [apply still_within | auto with vfs] | intros [|]]; simpl;
    [|by apply only_ret].
  eapply only_bind; [apply walk_unhash | intros []].
  eapply only_bind; [apply walk_still; [apply still_within | auto with vfs] | intros i].
  case_match; [|by apply only_ret]. apply walk_still; [apply still_within | auto with vfs].
Qed.

Lemma walk_d_revalidate p d : walk (within p d) (d_revalidate s p d) (fun _ => within p d).
Proof.
  unfold d_revalidate.
  eapply only_bind; [apply walk_still; [apply still_within | auto with vfs] | intros x].
  eapply only_bind; [apply walk_still; [apply still_within | frames] | intros valid].
  eapply only_bind with (Q := fun _ => within p d); [|intros []; by apply only_ret].
  destruct valid; [by apply only_ret | apply walk_invalidate].
Qed.

(** *** Lookups *)
Lemma walk_d_alloc_parallel p n :
  walk (under p) (d_alloc_parallel s p n) (fun d => within p d).
Proof.
  unfold d_alloc_parallel. generalize TURNS as turns. intros turns.
  induction turns as [|turns IH]; [apply only_panic|]. simpl.
  eapply only_bind with (Q := fun d => within p d).
  { eapply only_post; [eapply only_pre; [|apply (walk_alloc_parallel (under p))]|].
    - intros w _ Hp. split; [done | by destruct Hp].
    - apply unmoved_still, lasting_still, lasting_under.
    - intros d w _ [? ?]. by split. }
  intros d.
  eapply only_bind; [apply walk_still; [apply still_within | auto with vfs] | intros asking].
  eapply only_bind with (Q := fun _ => within p d).
  { destruct asking; [by apply only_ret | apply walk_d_revalidate]. }
  intros valid. destruct valid; [by apply only_ret|].
  eapply only_pre; [|exact IH]. by intros w _ [].
Qed.

Lemma walk___lookup_slow p n : walk (under p) (__lookup_slow s p n) (fun d => within p d).
Proof.
  unfold __lookup_slow.
  eapply only_bind; [apply walk_calm; [apply lasting_under | auto with vfs] | intros [|]];
    [apply only_fail|].
  eapply only_bind; [apply walk_d_alloc_parallel | intros given].
  eapply only_bind; [apply walk_lookup_inode | intros x]. cbv zeta.
  eapply only_bind; [apply walk_still; [apply still_within | auto with vfs] | intros []].
  by apply only_ret.
Qed.

Lemma walk_lookup_fast p n :
  walk (under p) (lookup_fast s p n) (fun x w => under p w /\ forall d, x = Some d -> within p d w).
Proof.
  unfold lookup_fast.
  eapply only_bind with (Q := fun x w => under p w /\ forall d, x = Some d -> within p d w).
  { unfold dcache_lookup.
    eapply only_bind with (Q := fun sb w => under p w
      /\ forall d, Hashtable.entries (s_hashtable sb) !! (p, n) = Some d -> child p d w).
    { eapply only_post; [apply only_asks|]. intros sb w Ht [Hp Hsb]. split; [done|].
      intros d Hd. destruct (tidy_hash _ _ Ht s (p, n) d) as (x & Hx & Hpl & _); [by exists sb|].
      by eapply placed_child. }
    intros sb. eapply only_bind; [apply walk_still; [|auto with vfs] | intros strong].
    - apply still_and; [apply lasting_still, lasting_under|].
      intros w w' Ht Hg Hw d Hd. eapply child_keeps; eauto.
    - apply only_ret. intros w _ [Hp Hc]. split; [done|]. intros d Hd. split; [|done].
      by eapply Hc, table_get. }
  intros [d|]; [|by apply only_ret].
  eapply only_pre with (P' := within p d); [by intros w _ [_ Hd]; apply Hd|].
  eapply only_bind; [apply walk_d_revalidate | intros [|]]; simpl.
  - eapply only_bind; [apply walk_still; [apply still_within | auto with vfs] | intros []].
    apply only_ret. intros w _ Hw. split; [by destruct Hw|]. by intros a [= <-].
  - apply only_ret. intros w _ [_ Hp]. by split.
Qed.

Lemma walk_lookup_dentry p n : walk (under p) (lookup_dentry s p n) (fun d => within p d).
Proof.
  unfold lookup_dentry. eapply only_bind; [apply walk_lookup_fast | intros [d|]].
  - apply only_ret. intros w _ [_ Hd]. by apply Hd.
  - eapply only_pre with (P' := under p); [by intros w _ []|]. unfold lookup_slow.
    eapply only_bind; [apply walk_calm; [apply lasting_under | auto with vfs] | intros held].
    apply walk_holding; [intros d; apply still_within | apply walk___lookup_slow].
Qed.

(** *** The walk *)

(** A walk begun at [r] in the instance, and where it stands. *)
Definition begun (nd : Nameidata) : Prop := nd_root nd = r /\ nd_sb nd = s.
Definition roams (nd : Nameidata) w : Prop :=
  under (nd_dir nd) w /\ forall d, nd_path nd = Some d -> under d w.

Lemma lasting_roams nd : lasting (roams nd).
Proof. intros w w' Hs [Hd Hp]. split; [by apply Hs|]. intros d E. by apply Hs, Hp. Qed.

Definition walked (nd : Nameidata) w : Prop := begun nd /\ roams nd w.

Lemma lasting_walked nd : lasting (walked nd).
Proof. apply lasting_and; [apply lasting_pure | apply lasting_roams]. Qed.

Lemma walked_within nd d w :
  walked nd w -> under d w -> walked (nd_at d nd) w.
Proof. intros [Hb [_ Hp]] Hd. done. Qed.

Lemma walk_lookup_in nd n :
  walk (walked nd) (lookup_dentry (nd_sb nd) (nd_dir nd) n) (fun d w => walked nd w /\ under d w).
Proof.
  eapply only_pre with (P' := fun w => begun nd /\ (under (nd_dir nd) w /\ walked nd w)).
  { intros w _ Hw. exact (conj (proj1 Hw) (conj (proj1 (proj2 Hw)) Hw)). }
  apply only_pure. intros [_ Hs]. rewrite Hs.
  eapply only_post; [apply only_lasting; [apply lasting_walked | apply walk_lookup_dentry]|].
  intros d w _ [Hd Hw]. split; [done | by eapply within_under].
Qed.

Lemma walk_pick_link P d nd :
  lasting P -> walk (fun w => walked nd w /\ P w) (pick_link d nd) (fun nd' w => walked nd' w /\ P w).
Proof.
  intros HP.
  assert (HF : lasting (fun w => walked nd w /\ P w)).
  { apply lasting_and; [apply lasting_walked | exact HP]. }
  unfold pick_link.
  eapply only_bind; [apply walk_calm; [exact HF | auto with vfs] | intros []].
  eapply only_bind; [apply walk_calm; [exact HF | auto with vfs] | intros count].
  case_match; [apply only_fail|].
  eapply only_bind; [apply walk_calm; [exact HF | auto with vfs] | intros target].
  case_match; [apply only_fail|]. by apply only_ret.
Qed.

Lemma walk_follow_dotdot nd : walk (walked nd) (follow_dotdot nd) walked.
Proof.
  unfold follow_dotdot.
  eapply only_bind; [apply only_reads | intros root]. simpl.
  destruct (nd_dir nd =? nd_root nd)%nat eqn:E; simpl; [apply only_fail|].
  destruct root; [apply only_fail|].
  eapply only_pre with (P' := walked nd); [by intros w _ []|].
  eapply only_bind with (Q := fun above w => walked nd w /\ under above w).
  { eapply only_post; [apply only_reads|]. intros above w Ht [Hw Hr]. split; [done|].
    destruct Hw as [[Hroot _] [[(x & Hx & Hs) Hup] _]]. apply Nat.eqb_neq in E. rewrite Hroot in E.
    unfold parent in Hr. rewrite Hx in Hr. simpl in Hr. simplify_eq.
    apply rtc_inv in Hup as [?|(q & (y & Hy & Hq) & Hup)]; [done|]. simplify_eq. rewrite Hq. simpl.
    split; [|done]. destruct (tidy_parent _ _ Ht _ _ _ Hx Hq) as (z & Hz & Ez). exists z. split; [done | congruence]. }
  intros above.
  eapply only_bind; [apply walk_calm; [|auto with vfs] | intros seq].
  - apply lasting_and; [apply lasting_walked | apply lasting_under].
  - case_match; [apply only_fail|]. apply only_ret. intros w _ [Hw Ha]. by apply walked_within.
Qed.

Lemma walk_walk_component n nd :
  walk (walked nd) (walk_component n nd)
    (fun st => match st with Walked nd' | Linked nd' => walked nd' end).
Proof.
  unfold walk_component. eapply only_bind; [apply walk_lookup_in | intros d].
  assert (HF : lasting (fun w => walked nd w /\ under d w)).
  { apply lasting_and; [apply lasting_walked | apply lasting_under]. }
  eapply only_bind; [apply walk_calm; [exact HF | auto with vfs] | intros i].
  eapply only_bind; [apply walk_calm; [exact HF | auto with vfs] | intros x].
  destruct (i_kind x); try apply only_fail.
  - apply only_ret. intros w _ [? ?]. by apply walked_within.
  - eapply only_bind; [apply walk_pick_link, lasting_under | intros nd'].
    apply only_ret. by intros w _ [].
Qed.

Lemma walk_link_path_walk_links links names nd :
  walk (walked nd) (link_path_walk_links links names nd) walked.
Proof.
  revert names nd. induction links as [|links IHl]; intros names; induction names as [|names IHn];
    intros nd; simpl; try apply only_panic.
  all: eapply only_bind; [apply walk_calm; [apply lasting_walked | auto with vfs] | intros []].
  all: destruct (nd_pending nd) as [|part pending]; [apply only_fail|].
  all: set (nd1 := nd_with_pending (drain_slashes pending) nd).
  all: apply only_pre with (P' := walked nd1); [by intros w _ [? ?]|].
  all: destruct (drain_slashes pending); [by apply only_ret|].
  all: destruct (str_eq part dot_name); [apply IHn|].
  all: destruct (str_eq part dotdot_name);
    [eapply only_bind; [apply walk_follow_dotdot | intros nd2; apply IHn]|].
  all: eapply only_bind; [apply walk_walk_component | intros [nd2|nd2]]; [apply IHn|].
  - apply only_panic.
  - apply IHl.
Qed.

Lemma walk_link_path_walk nd : walk (walked nd) (link_path_walk nd) walked.
Proof. apply walk_link_path_walk_links. Qed.

Lemma walk_handle_dots nd : walk (walked nd) (handle_dots nd) walked.
Proof.
  unfold handle_dots. eapply only_bind with (Q := walked).
  - destruct (nd_last_type nd); try (by apply only_ret). apply walk_follow_dotdot.
  - intros nd'. apply only_ret. intros w _ [Hb [Hd Hp]]. split; [done|]. split; [done|].
    by intros d [= <-].
Qed.

(** What a walk answers once it has ended. *)
Definition at_path (d : did) (nd : Nameidata) w : Prop := walked nd w /\ nd_path nd = Some d.

Lemma walked_at nd d w : walked nd w -> under d w -> walked (nd_with_path (Some d) nd) w.
Proof. intros [Hb [Hd _]] Hu. split; [done|]. split; [done|]. by intros ? [= <-]. Qed.

Lemma walk_lookup_last_links links follow nd :
  walk (walked nd) (lookup_last_links links follow nd) walked.
Proof.
  revert follow nd. induction links as [|links IH]; intros follow nd; simpl; [apply only_panic|].
  destruct (nd_last_type nd); [|apply walk_handle_dots..]. cbv zeta.
  set (nd1 := if nd_trailing_slash nd then nd_directory true nd else nd).
  apply only_pre with (P' := walked nd1); [intros w _ Hw; unfold nd1; by case_match|].
  eapply only_bind; [apply walk_lookup_in | intros d].
  set (nd2 := nd_with_path (Some d) nd1).
  apply only_pre with (P' := walked nd2); [by intros w _ []; apply walked_at|].
  eapply only_bind; [apply walk_calm; [apply lasting_walked | auto with vfs] | intros i].
  case_match; [apply only_fail|].
  eapply only_bind; [apply walk_calm; [apply lasting_walked | auto with vfs] | intros link].
  case_match; [by apply only_ret|].
  eapply only_bind with (Q := walked); [|intros nd3].
  - eapply only_pre; [|eapply only_post; [apply (walk_pick_link _ d nd2 lasting_true)|]].
    + by intros w _ ?.
    + by intros nd' w _ [].
  - eapply only_bind; [apply walk_link_path_walk | intros nd4; apply IH].
Qed.

Lemma walk_lookup_last follow nd : walk (walked nd) (lookup_last follow nd) walked.
Proof. apply walk_lookup_last_links. Qed.

Lemma walk_path_lookupat follow nd : walk (walked nd) (path_lookupat follow nd) walked.
Proof.
  unfold path_lookupat, nd_kind.
  eapply only_bind; [apply walk_link_path_walk | intros nd1].
  eapply only_bind; [apply walk_lookup_last | intros nd2].
  eapply only_bind; [apply walk_calm; [apply lasting_walked | auto with vfs] | intros []].
  eapply only_bind; [apply walk_calm; [apply lasting_walked | frames] | intros k].
  case_match; [apply only_fail | by apply only_ret].
Qed.

(** *** Opening the last name *)

#[local] Hint Resolve calm_emit : vfs.

Lemma calm_notify_change d attr : framed calm (notify_change d attr).
Proof. unfold notify_change. frames. Qed.
Lemma calm_dentry_open cred at_ k mode how (op : M FileOps) :
  framed calm op -> framed calm (do_dentry_open cred at_ k mode how op).
Proof. intros. unfold do_dentry_open, security_file_open. frames. Qed.
Lemma calm_file_new path ops mode how cred kept : framed calm (file_new path ops mode how cred kept).
Proof. unfold file_new. frames. Qed.
#[local] Hint Resolve calm_notify_change calm_dentry_open calm_file_new : vfs.
Lemma calm_do_open nd child o op : framed calm (do_open nd child o op).
Proof. unfold do_open, security_file_truncate. frames. Qed.
Lemma calm_may_o_create nd child : framed calm (may_o_create nd child).
Proof. unfold may_o_create, security_path_mknod. frames. Qed.
#[local] Hint Resolve calm_do_open calm_may_o_create : vfs.

(** Where what a Filesystem's own open answered stands. *)
Definition opened_at (p given : did) (a : AtomicOpen) : world -> Prop :=
  spliced p given (ao_spliced a).

Lemma walk_op_atomic_open o p d how :
  walk (within p d) (op_atomic_open o d how)
    (fun f w => within p d w /\ match f with
                               | FinishSpelled _ _ i => own s i w
                               | FinishLookup f => own_found s f w
                               | _ => True
                               end).
Proof.
  intros w x w' Ht Hw Hr. assert (Hc : calm w w') by (eapply keeps_atomic_open; exact Hr).
  destruct (Hc Ht) as [Ht' Hg].
  split_and!; [done | apply rtc_once; intros y; by apply under_keeps |].
  intros f ->. split; [exact (still_within _ _ w w' Ht Hg Hw)|].
  destruct Hw as [(e & He & _ & Hs) _].
  apply (housed_finish o d how s w); [done | by exists e | exact Hr].
Qed.

Lemma walk_atomic_open p dir d how :
  walk (within p d) (atomic_open s dir d how) (opened_at p d).
Proof.
  unfold atomic_open.
  eapply only_bind; [apply walk_still; [apply still_within | auto with vfs] | intros o].
  eapply only_bind; [apply walk_still; [apply still_within | auto with vfs] | intros []].
  eapply only_bind; [apply walk_op_atomic_open | intros [f created|f n i|created|found]].
  - apply only_ret. by intros w _ [].
  - eapply only_bind; [apply walk_add_ci | intros a; by apply only_ret].
  - apply only_ret. by intros w _ [].
  - eapply only_bind; [apply walk_splice_alias | intros a; by apply only_ret].
Qed.

(** Where the name an ask was for stands. *)
Definition answered_at (p given : did) (a : result FilesystemError AtomicOpen) w : Prop :=
  forall ao, a = Ok ao -> opened_at p given ao w.

Lemma walk_ask_open p nd how wrote d :
  nd_sb nd = s ->
  walk (within p d) (ask_open nd how wrote d) (fun x => answered_at p d x.1).
Proof.
  intros Hs. unfold ask_open. rewrite Hs. cbv zeta.
  eapply only_bind; [apply walk_still; [apply still_within | frames] | intros [how' refused]].
  cbn [fst].
  eapply only_bind with (Q := answered_at p d); [|intros a; by apply only_ret].
  apply only_attempt, walk_atomic_open.
Qed.

Lemma still_answered p d a : still_there (answered_at p d a).
Proof. intros w w' Ht Hg Ha ao E. eapply still_spliced; [done.. | by apply Ha]. Qed.

(** [lookup_open]'s ask, made of the directory where the name is not known. *)
Lemma walk_asked_open p nd how wrote d :
  nd_sb nd = s ->
  walk (within p d)
    (let! first := attempt (ask_in_lookup d (ask_open nd how wrote d)) in
     match first with
     | Ok (Some asked) => ret asked
     | Ok None =>
       let! i := inode d in
       if bool_decide (is_Some i) then ret (Ok (MkAtomicOpen None false None), None)
       else ask_open nd how wrote d
     | Err e => ret (Err e, None)
     end)
    (fun x => answered_at p d x.1).
Proof.
  intros Hs. eapply only_bind.
  { apply only_attempt, walk_ask_in_lookup with (Q := fun x => answered_at p d x.1);
      [apply unmoved_still, still_within | intros x; apply still_answered | by apply walk_ask_open]. }
  intros [[x|]|e].
  - apply only_ret. intros w _ Hx. by apply (Hx (Some x)).
  - eapply only_pre with (P' := within p d); [intros w _ Hx; by apply (Hx None)|].
    eapply only_bind; [apply walk_still; [apply still_within | auto with vfs] | intros i].
    case_match; [|by apply walk_ask_open]. apply only_ret. by intros w _ Hw ao [= <-].
  - apply only_ret. by intros w _ _ ao.
Qed.

Definition placed_open (x : Nameidata * did * Open) w : Prop :=
  at_path x.1.2 x.1.1 w /\ under x.1.2 w.

Lemma walk_lookup_open how mode nd :
  walk (walked nd) (lookup_open how mode nd) placed_open.
Proof.
  unfold lookup_open. cbv zeta.
  eapply only_bind; [apply walk_calm; [apply lasting_walked | frames] | intros wrote].
  eapply only_bind; [apply walk_calm; [apply lasting_walked | frames] | intros held].
  apply only_holding.
  { intros x. apply walk_calm; [|auto with vfs].
    intros w w' Hw Hx a Ea. destruct (Hx a Ea) as [[Hd Hp] Hu].
    split; [split; [eapply lasting_walked; eauto | done] | by apply Hw]. }
  eapply only_bind; [apply walk_calm; [apply lasting_walked | auto with vfs] | intros dead].
  destruct dead; [apply only_fail|].
  eapply only_pre with (P' := fun w => nd_sb nd = s /\ (under (nd_dir nd) w /\ walked nd w)).
  { intros w _ Hw. exact (conj (proj2 (proj1 Hw)) (conj (proj1 (proj2 Hw)) Hw)). }
  apply only_pure. intros Hs. rewrite Hs.
  eapply only_bind; [apply only_lasting; [apply lasting_walked | apply walk_d_alloc_parallel]|].
  intros given. apply only_assoc.
  eapply only_bind; [apply only_lasting; [apply lasting_walked | by apply walk_asked_open]|].
  intros [asked refused]. cbn [fst].
  destruct asked as [a|[]]; [|repeat case_match; apply only_fail..].
  set (child := default given (ao_spliced a)).
  eapply only_pre with (P' := fun w => under child w /\ walked nd w).
  { intros w _ [Ha Hw]. split; [|done]. apply within_under with (nd_dir nd). by apply Ha. }
  assert (HF : lasting (fun w => under child w /\ walked nd w)).
  { apply lasting_and; [apply lasting_under | apply lasting_walked]. }
  eapply only_bind; [apply walk_calm; [exact HF | auto with vfs] | intros []].
  eapply only_bind; [apply walk_calm; [exact HF | auto with vfs] | intros i].
  case_match; [apply only_fail|].
  eapply only_bind; [apply walk_calm; [exact HF | frames] | intros file].
  apply only_ret. intros w _ [Hu Hw]. split; [split; [by apply walked_at | done] | done].
Qed.

Lemma walk_lookup_fast_for_open how nd :
  walk (walked nd) (lookup_fast_for_open how nd)
    (fun x w => walked nd w /\ forall d, x = Some d -> under d w).
Proof.
  unfold lookup_fast_for_open. case_match; [by apply only_ret|].
  eapply only_pre with (P' := fun w => nd_sb nd = s /\ (under (nd_dir nd) w /\ walked nd w)).
  { intros w _ Hw. exact (conj (proj2 (proj1 Hw)) (conj (proj1 (proj2 Hw)) Hw)). }
  apply only_pure. intros ->.
  eapply only_bind; [apply only_lasting; [apply lasting_walked | apply walk_lookup_fast]|].
  intros [d|]; [|by apply only_ret; intros w _ [_ ?]].
  eapply only_pre with (P' := fun w => walked nd w /\ under d w).
  { intros w _ [[_ Hd] Hw]. split; [done | by eapply within_under, Hd]. }
  eapply only_bind; [apply walk_calm; [|auto with vfs] | intros i].
  - apply lasting_and; [apply lasting_walked | apply lasting_under].
  - apply only_ret. intros w _ [Hw Hd]. split; [done|]. case_match; [by intros a [= <-] | done].
Qed.

Lemma walk_last_name how mode nd :
  walk (walked nd)
    (let! fast := lookup_fast_for_open how nd in
     match fast with
     | Some child =>
       let nd := nd_with_path (Some child) nd in
       let! i := inode child in
       if bool_decide (i = None) then fail NotFound
       else ret (nd, child, MkOpen None mode)
     | None => lookup_open how mode nd
     end) placed_open.
Proof.
  eapply only_bind; [apply walk_lookup_fast_for_open | intros [d|]]; cbv zeta.
  - eapply only_pre with (P' := fun w => walked nd w /\ under d w).
    { intros w _ [Hw Hd]. auto. }
    eapply only_bind; [apply walk_calm; [|auto with vfs] | intros i].
    + apply lasting_and; [apply lasting_walked | apply lasting_under].
    + case_match; [apply only_fail|]. apply only_ret. intros w _ [Hw Hd].
      split; [split; [by apply walked_at | done] | done].
  - eapply only_pre; [|apply walk_lookup_open]. by intros w _ [].
Qed.

Lemma walk_open_last_lookups_links links how mode follow nd :
  walk (walked nd) (open_last_lookups_links links how mode follow nd) (fun x => walked x.1).
Proof.
  revert follow nd. induction links as [|links IH]; intros follow nd; simpl; [apply only_panic|].
  assert (Hdots : walk (walked nd) (let! nd := handle_dots nd in ret (nd, MkOpen None mode))
    (fun x => walked x.1)).
  { eapply only_bind; [apply walk_handle_dots | intros nd']. by apply only_ret. }
  destruct (nd_last_type nd); [|exact Hdots..]. clear Hdots.
  case_match; [apply only_fail|].
  set (nd1 := if nd_trailing_slash nd then nd_directory true nd else nd).
  apply only_pre with (P' := walked nd1); [intros w _ Hw; unfold nd1; by case_match|].
  apply only_assoc. eapply only_bind; [apply walk_last_name | intros [[nd2 d] opened]].
  apply only_pre with (P' := walked nd2); [by intros w _ [[? _] _]|].
  eapply only_bind; [apply walk_calm; [apply lasting_walked | auto with vfs] | intros link].
  case_match; [by apply only_ret|].
  eapply only_bind with (Q := walked); [|intros nd3].
  - eapply only_pre; [|eapply only_post; [apply (walk_pick_link _ d nd2 lasting_true)|]].
    + by intros w _ ?.
    + by intros nd' w _ [].
  - eapply only_bind; [apply walk_link_path_walk | intros nd4; apply IH].
Qed.

Lemma walk_path nd : walk (walked nd) (path nd) (fun d w => walked nd w /\ under d w).
Proof.
  unfold path. destruct (nd_path nd) as [d|] eqn:E; [|apply only_fail].
  apply only_ret. intros w _ Hw. split; [done|]. by apply Hw.
Qed.

(** What is opened is at the name the walk answered. *)
Definition opened_beneath (f : File) : world -> Prop := under (p_dentry (f_path f)).

Lemma walk_file_new path ops mode how cred kept :
  walk (under (p_dentry path)) (file_new path ops mode how cred kept) opened_beneath.
Proof.
  unfold file_new. eapply only_bind; [apply walk_calm; [apply lasting_under | auto with vfs]|].
  intros [i|]; [by apply only_ret | apply only_panic].
Qed.

Lemma walk_do_open nd d opened op :
  walk (under d) (do_open nd d opened op) opened_beneath.
Proof.
  unfold do_open. cbv zeta.
  assert (HF := lasting_under d).
  eapply only_bind; [apply walk_calm; [exact HF | frames] | intros []].
  eapply only_bind; [apply walk_calm; [exact HF | auto with vfs] | intros k].
  case_match; [apply only_fail|].
  eapply only_bind; [apply walk_calm; [exact HF | frames] | intros []].
  eapply only_bind; [apply walk_calm; [exact HF | auto with vfs] | intros []].
  eapply only_bind; [apply walk_calm; [exact HF | frames] | intros [f kept]].
  eapply only_bind; [apply walk_calm; [exact HF | unfold security_file_truncate; frames] | intros []].
  apply (walk_file_new (path_to nd d)).
Qed.

Lemma walk_path_openat nd op : walk (walked nd) (path_openat nd op) opened_beneath.
Proof.
  unfold path_openat, do_o_path. cbv zeta.
  set (nd1 := nd_directory _ nd).
  apply only_pre with (P' := walked nd1); [by intros w _ [? ?]|]. case_match.
  - eapply only_bind; [apply walk_path_lookupat | intros nd2].
    eapply only_bind; [apply walk_path | intros d].
    eapply only_pre with (P' := under d); [by intros w _ []|].
    eapply only_bind; [apply walk_calm; [apply lasting_under | auto with vfs] | intros k].
    eapply only_bind; [apply walk_calm; [apply lasting_under | auto with vfs] | intros [f kept]].
    apply (walk_file_new (path_to nd2 d)).
  - eapply only_bind; [apply walk_link_path_walk | intros nd2].
    eapply only_bind; [apply walk_open_last_lookups_links | intros [nd3 opened]].
    eapply only_bind; [apply walk_path | intros d].
    eapply only_pre; [|apply walk_do_open]. by intros w _ [].
Qed.
End Beneath.

(** ** The calls that walk *)
Section Walks.
Context {T : FsTypes} `{!VfsTables T} `{LC : !LruCache} `{!FileTables T} `{!Housed _}.
Context (start : Path).
Implicit Types w : world.

(** The start is given as a descriptor gives it, in the mount's instance. *)
Definition starts w : Prop := sb_of (p_dentry start) (mnt_sb (p_mnt start)) w.

Abbreviation r := (p_dentry start).
Abbreviation s := (mnt_sb (p_mnt start)).
Abbreviation walk := (only tidy (shelters r s)).

Lemma under_start w : starts w -> under r s r w.
Proof. intros Hs. by split. Qed.
Lemma walk_set_nameidata cred p :
  walk starts (set_nameidata cred (ret start) p) (walked r s).
Proof.
  unfold set_nameidata.
  assert (HP : forall w w', shelters r s w w' -> starts w -> starts w').
  { intros w w' Hw Hs. by apply (Hw r), under_start. }
  eapply only_bind; [by apply only_lift; intros u w _ Hw _; exact Hw | intros []].
  case_match; [apply only_fail|].
  eapply only_bind with (Q := fun q w => q = start /\ starts w); [by apply only_ret | intros q].
  apply only_pure. intros ->.
  eapply only_bind; [apply (walk_calm r s); [exact HP | auto with vfs] | intros k].
  case_match; [apply only_fail|].
  eapply only_bind; [apply (walk_calm r s); [exact HP | apply framed_asks; apply _] | intros seq].
  apply only_ret. intros w _ Hs. split; [done|]. by split; [apply under_start|].
Qed.

Lemma walk_counted {A} (m : M A) Q : walk starts m Q -> walk starts (counting_links (walk_with_reval m)) Q.
Proof.
  intros Hm. assert (HP : forall w w', shelters r s w w' -> starts w -> starts w').
  { intros w w' Hw Hs. by apply (Hw r), under_start. }
  unfold counting_links.
  eapply only_bind; [apply (walk_calm r s); [exact HP | auto with vfs] | intros []].
  by apply only_reval.
Qed.

Lemma walk_do_file_open cred p op :
  walk starts (do_file_open cred (ret start) p op) (opened_beneath r s).
Proof.
  apply walk_counted. eapply only_bind; [apply walk_set_nameidata | intros nd].
  apply walk_path_openat.
Qed.
End Walks.
