(* ===== verification/ContainmentPromises.v ===== *)
(** Every walk ends beneath the directory it began at, over any Filesystem that
    keeps the dcache as it found it, a Tmpfs for one. *)
From stdpp Require Import gmap.
From S2P Require Import Prelude Text Catalog Locking VfsTypes World Dcache Cred OpenFile Namei Security VfsFacts NameiFacts VfsLogic Tidy Containment Tmpfs TmpfsFacts VfsPromises.
Local Open Scope vfs_scope.

(** ** A Tmpfs is [Housed] *)

(** An inode no dentry stands for yet. *)
Definition spare (i : iid) (w : world) : Prop :=
  forall n, w_inodes w !! i = Some n -> i_dentry n = None.

Lemma spare_own s i w : spare i w -> own s i w.
Proof. intros Hs n a x Hn Ha. apply Hs in Hn. congruence. Qed.

Definition spare_found (f : Lookup) (w : world) : Prop :=
  match f with Found i | Spelled _ i => spare i w | Absent => True end.

Abbreviation yields := (only (fun _ => True) (fun _ _ => True) (fun _ => True)).

Lemma yields_any {A} (m : M A) : yields m whatever.
Proof. intros w r w' _ _ _. split_and!; [done | by apply rtc_once | done]. Qed.

Lemma yields_after {A B} (m : M A) (k : A -> M B) Q :
  (forall a, yields (k a) Q) -> yields (bind m k) Q.
Proof. intros Hk. eapply only_bind; [apply yields_any | intros a]. by eapply only_pre. Qed.

Lemma yields_inode_of t n : yields (inode_of t n) spare.
Proof.
  unfold inode_of. apply yields_after. intros st w r w' _ _ [= <- <-].
  split_and!; [done | by apply rtc_once |]. intros i [= <-] x. simpl.
  rewrite lookup_insert_eq. by intros [= <-].
Qed.

Lemma yields_tmpfs_lookup t dir d : yields (tmpfs_lookup t dir d) spare_found.
Proof.
  unfold tmpfs_lookup. apply yields_after. intros called. case_match; [apply only_fail|].
  apply yields_after. intros [n|[]]; try apply only_fail.
  - eapply only_bind; [apply yields_inode_of | intros i]. by apply only_ret.
  - by apply only_ret.
Qed.

Lemma yields_default_atomic_open lookup create d how :
  yields (lookup d) spare_found ->
  yields (default_atomic_open lookup create d how)
    (fun f w => match f with
                | FinishSpelled _ _ i => spare i w
                | FinishLookup f => spare_found f w
                | _ => True
                end).
Proof.
  intros Hl. unfold default_atomic_open. apply yields_after. intros asked.
  eapply only_bind with (Q := fun x w => match x with Some f => spare_found f w | None => True end).
  { destruct asked; [|by apply only_ret]. eapply only_bind; [exact Hl | intros f].
    destruct f, (how_create how); by apply only_ret. }
  intros [f|]; [by apply only_ret|].
  eapply only_pre with (P' := fun _ => True); [done|]. case_match; [by apply only_ret|].
  apply yields_after. intros u. by apply only_ret.
Qed.

Lemma yields_run {A} (m : M A) Q w a w' : yields m Q -> m w = Some (Ok a, w') -> Q a w'.
Proof. intros Hm Hr. by apply (Hm w (Ok a) w' Logic.I Logic.I Hr). Qed.

#[export] Instance tmpfs_housed : Housed tmpfs_tables.
Proof.
  split; [apply _| |].
  - intros o d s w f w' _ _ Hr. assert (Hf : spare_found f w').
    { destruct o; simpl in Hr; [by eapply yields_run; [apply yields_tmpfs_lookup | exact Hr]|..]; done. }
    destruct f; simpl in *; [by apply spare_own | done | by apply spare_own].
  - intros o d how s w f w' _ _ Hr.
    assert (Hf : match f with
                 | FinishSpelled _ _ i => spare i w'
                 | FinishLookup f => spare_found f w'
                 | _ => True
                 end).
    { destruct o; simpl in Hr;
        (eapply yields_run in Hr; [exact Hr | apply yields_default_atomic_open]);
        [apply yields_tmpfs_lookup | apply only_fail..]. }
    destruct f as [| | |[]]; simpl in *; try done; by apply spare_own.
Qed.

(** ** The calls that walk *)
Module Beneath.
Section Beneath.
Context {T : FsTypes} `{!VfsTables T} `{LC : !LruCache} `{!FileTables T}.

(** A lookup, the directory of a name to change, or an open. *)
Inductive WalkCall := Lookup (follow : bool) | Parent | Open (op : OpenFlags).

(** The dentry such a call ends at. *)
Definition reaches (cred : Cred) (start : Path) (p : list byte) (c : WalkCall) : M did :=
  match c with
  | Lookup follow => let! nd := filename_lookup cred (start_at start) p follow in path nd
  | Parent => let! nd := filename_parentat cred (start_at start) p in ret (nd_dir nd)
  | Open op => let! f := do_file_open cred (start_at start) p op in ret (p_dentry (f_path f))
  end.

Context `{!Housed _}.

Lemma walk_reaches cred start p c :
  only tidy (shelters (p_dentry start) (mnt_sb (p_mnt start))) (starts start)
    (reaches cred start p c) (under (p_dentry start) (mnt_sb (p_mnt start))).
Proof.
  destruct c as [follow| |op]; simpl.
  - eapply only_bind; [apply walk_counted | intros nd].
    + eapply only_bind; [apply walk_set_nameidata | intros nd]. apply walk_path_lookupat.
    + eapply only_post; [apply walk_path|]. by intros d w _ [].
  - eapply only_bind; [apply walk_counted | intros nd].
    + eapply only_bind; [apply walk_set_nameidata | intros nd].
      eapply only_bind; [apply walk_link_path_walk | intros nd'].
      eapply only_bind; [apply walk_calm; [apply lasting_walked | auto with vfs] | intros []].
      by apply only_ret.
    + apply only_ret. by intros w _ [_ [? _]].
  - eapply only_bind; [apply walk_do_file_open | intros f]. by apply only_ret.
Qed.

(** C39: a call by path ends at the directory it was given or beneath it,
    whatever names the path and the links it follows are made of, whatever is
    spliced, revalidated or created on the way and however the call ends,
    nothing that stood beneath that directory leaves it; and the dcache stays
    consistent. *)
Theorem walks_stay_beneath_their_start cred start p c w x w' :
  tidy w -> starts start w -> reaches cred start p c w = Some (x, w') ->
  tidy w' /\ shelters (p_dentry start) (mnt_sb (p_mnt start)) w w'
  /\ (forall d, x = Ok d -> under (p_dentry start) (mnt_sb (p_mnt start)) d w').
Proof.
  intros Ht Hs Hr. by apply (only_end _ _ _ _ _ _ _ _ _ (walk_reaches cred start p c)).
Qed.
End Beneath.
End Beneath.

(** ** A dcache checked entry by entry *)
Section Check.
Context {T : FsTypes}.

Definition stands_at (w : world) (s : sbid) (ok : Dentry -> bool) (k : Key) (d : did) : bool :=
  match w_dentries w !! d with
  | Some x => bool_decide (placed s k d x) && ok x
  | None => false
  end.

Definition every_name (m : gmap Key did) (ok : Key -> did -> bool) : bool :=
  forallb (fun e => ok e.1 e.2) (map_to_list m).

Definition is_tidy (w : world) : bool :=
  every (w_dentries w) (fun d _ => d <? w_next w)%nat
  && every (w_inodes w) (fun d _ => d <? w_next w)%nat
  && every (w_sbs w) (fun d _ => d <? w_next w)%nat
  && every (w_sbs w) (fun s sb =>
       every_name (Hashtable.entries (s_hashtable sb)) (stands_at w s d_hashed)
       && every_name (Hashtable.entries (s_in_lookup sb))
            (stands_at w s (fun x => bool_decide (d_inode x = None))))
  && every (w_inodes w) (fun _ n =>
       match i_dentry n with
       | Some a => match w_dentries w !! a with
                   | Some x => bool_decide (is_Some (d_inode x))
                   | None => false
                   end
       | None => true
       end)
  && every (w_dentries w) (fun _ x =>
       match d_parent x with
       | Some p => match w_dentries w !! p with
                   | Some y => (d_sb y =? d_sb x)%nat
                   | None => false
                   end
       | None => true
       end).

Lemma every_name_ok m ok k d : every_name m ok = true -> m !! k = Some d -> ok k d = true.
Proof.
  intros He Hx. unfold every_name in He. rewrite forallb_forall in He.
  apply (He (k, d)), list_elem_of_In, elem_of_map_to_list, Hx.
Qed.

Lemma stands_at_ok w s ok k d :
  stands_at w s ok k d = true ->
  exists x, w_dentries w !! d = Some x /\ placed s k d x /\ ok x = true.
Proof.
  unfold stands_at. destruct (w_dentries w !! d) as [x|]; [|done].
  intros [Hp Ho]%andb_true_iff. apply bool_decide_eq_true in Hp. eauto.
Qed.

Lemma is_tidy_tidy w : is_tidy w = true -> tidy w.
Proof.
  unfold is_tidy. rewrite !andb_true_iff. intros [[[[[Hd Hi] Hs] Hn] Ha] Hp]. split.
  - intros n Hle. split_and!; by eapply every_fresh.
  - intros s k d (sb & Hsb & Hk). apply (every_ok _ _ _ _ Hn) in Hsb.
    apply andb_true_iff in Hsb as [Hh _]. by apply stands_at_ok, (every_name_ok _ _ _ _ Hh).
  - intros s k d (sb & Hsb & Hk). apply (every_ok _ _ _ _ Hn) in Hsb.
    apply andb_true_iff in Hsb as [_ Hl].
    destruct (stands_at_ok _ _ _ _ _ (every_name_ok _ _ _ _ Hl Hk)) as (x & ? & ? & Hx).
    apply bool_decide_eq_true in Hx. eauto 6.
  - intros i n a Hin Ea. apply (every_ok _ _ _ _ Ha) in Hin. rewrite Ea in Hin.
    destruct (w_dentries w !! a) as [x|]; [|done]. apply bool_decide_eq_true in Hin. eauto.
  - intros d x p Hx Ep. apply (every_ok _ _ _ _ Hp) in Hx. rewrite Ep in Hx.
    destruct (w_dentries w !! p) as [y|]; [|done]. apply Nat.eqb_eq in Hx. eauto.
Qed.
End Check.

Lemma starts_by_sb {T : FsTypes} start w :
  option_map d_sb (w_dentries w !! p_dentry start) = Some (mnt_sb (p_mnt start)) -> starts start w.
Proof.
  unfold starts, sb_of. destruct (w_dentries w !! p_dentry start) as [x|]; [|done].
  intros [= E]. by exists x.
Qed.
Import Sample.

(** *** A file made through [..] beneath the sample mount's root *)
Definition create_new : OpenFlags :=
  match build_open_flags (MkOpenHow true true true true false false false false false false false) with
  | Ok op => op
  | Err _ => MkOpenFlags default_how Mask.NONE false false
  end.

Abbreviation opening p :=
  (Beneath.reaches cred (path_root (mounted false).1) p (Beneath.Open create_new) (mounted false).2).

Definition making : option (result FilesystemError did * world) := opening (lit "dir/.././dir/made").
Definition left_by : world := match making with Some (_, w') => w' | None => blank end.
Definition made : did := match making with Some (Ok d, _) => d | _ => O end.

Lemma opening_makes : opening (lit "dir/.././dir/made") = Some (Ok made, left_by).
Proof.
  unfold made, left_by, making.
  assert (Hm : match opening (lit "dir/.././dir/made") with Some (Ok _, _) => true | _ => false end
    = true) by (vm_compute; reflexivity).
  by destruct (opening (lit "dir/.././dir/made")) as [[[d|e] w']|].
Qed.

(** The file made stands beneath the root; one step further up is refused. *)
Lemma walks_stay_beneath_their_start_witness :
  under (p_dentry (path_root (mounted false).1)) (mnt_sb (p_mnt (path_root (mounted false).1)))
    made left_by
  /\ option_map fst (opening (lit "dir/../../made")) = Some (Err Escape).
Proof.
  split; [|vm_compute; reflexivity].
  destruct (Beneath.walks_stay_beneath_their_start cred
    (path_root (mounted false).1) (lit "dir/.././dir/made") (Beneath.Open create_new)
    (mounted false).2 (Ok made) left_by) as (_ & _ & Hu).
  - apply is_tidy_tidy. vm_compute. reflexivity.
  - apply starts_by_sb. vm_compute. reflexivity.
  - exact opening_makes.
  - exact (Hu made eq_refl).
Defined.
