(* ===== verification/TmpfsSpace.v ===== *)
(** What a Tmpfs counts against its space is what it holds: the bytes of every
    file and an inode for every file, directory and whiteout that is not dropped
    yet, and no call takes it past its limit. *)
From stdpp Require Import gmap.
From S2P Require Import Prelude Text Locking VfsTypes World Dcache Cred OpenFile Namei VfsFacts NameiFacts VfsLogic Tmpfs TmpfsFacts VfsPromises.
Local Open Scope vfs_scope.

(** ** Totals over the objects alive *)
Definition total {X} (f : X -> Z) (m : gmap nat X) : Z := map_fold (fun _ x a => f x + a) 0 m.

Section Total.
Context {X : Type}.
Implicit Types (f : X -> Z) (m : gmap nat X).

Lemma total_insert f m i x : m !! i = None -> total f (<[i := x]> m) = f x + total f m.
Proof. intros Hi. unfold total. rewrite map_fold_insert_L; [done | intros; lia | done]. Qed.

Lemma total_delete f m i x : m !! i = Some x -> total f (delete i m) = total f m - f x.
Proof.
  intros Hi. rewrite <- (insert_delete_id m i x Hi) at 2.
  rewrite total_insert by apply lookup_delete_eq. lia.
Qed.

Lemma total_alter f g m i x : m !! i = Some x -> total f (alter g i m) = total f m - f x + f (g x).
Proof.
  intros Hi. assert (E : alter g i m = <[i := g x]> (delete i m)).
  { rewrite insert_delete_eq, <- (insert_id m i x Hi) at 1. apply alter_insert_eq. }
  rewrite E, total_insert by apply lookup_delete_eq. rewrite (total_delete f m i x Hi). lia.
Qed.

Lemma total_alter_same f g m i : (forall x, f (g x) = f x) -> total f (alter g i m) = total f m.
Proof.
  intros Hg. destruct (m !! i) as [x|] eqn:Hi.
  - rewrite (total_alter f g m i x Hi), Hg. lia.
  - by rewrite alter_id by (intros x Hx; congruence).
Qed.

Lemma total_nonneg f m : (forall x, 0 <= f x) -> 0 <= total f m.
Proof.
  intros Hf. induction m as [|i x m Hi IH] using map_ind; [done|].
  rewrite total_insert by done. specialize (Hf x). lia.
Qed.

Lemma total_at_least f m i x : (forall x, 0 <= f x) -> m !! i = Some x -> f x <= total f m.
Proof.
  intros Hf Hi. pose proof (total_nonneg f (delete i m) Hf) as Hd.
  rewrite (total_delete f m i x Hi) in Hd. lia.
Qed.
End Total.

(** ** What is counted *)

Definition bytes_in (t : treeid) (c : Content) : Z := if (c_tree c =? t)%nat then len (c_bytes c) else 0.
Definition one_in {X} (tree : X -> treeid) (t : treeid) (x : X) : Z :=
  if (tree x =? t)%nat then 1 else 0.

Definition bytes_held (s : Store) (t : treeid) : Z := total (bytes_in t) (files s).
Definition inodes_held (s : Store) (t : treeid) : Z :=
  total (one_in c_tree t) (files s) + total (one_in dir_tree t) (dirs s)
  + total (one_in (fun u => u) t) (whiteouts s).

Definition bytes_of (tr : Tree) : Budget.Budget := sp_bytes (tr_space tr).
Definition inodes_of (tr : Tree) : Budget.Budget := sp_inodes (tr_space tr).

(** A budget counts what is held and stays in its machine word. *)
Definition counts (b : Budget.Budget) (held : Z) : Prop :=
  Budget.used b = held /\ Budget.used b <= U64_MAX /\ Budget.limit b <= U64_MAX.

Record accounted (s : Store) : Prop := MkAccounted {
  acc_bytes t tr : trees s !! t = Some tr -> counts (bytes_of tr) (bytes_held s t);
  acc_inodes t tr : trees s !! t = Some tr -> counts (inodes_of tr) (inodes_held s t);
  acc_fresh n : (next_object s <= n)%nat ->
    trees s !! n = None /\ dirs s !! n = None /\ files s !! n = None /\ whiteouts s !! n = None;
}.

(** The limit stands, and nothing past it is taken. *)
Definition spends (b b' : Budget.Budget) : Prop :=
  Budget.limit b' = Budget.limit b
  /\ Budget.used b' <= Z.max (Budget.limit b) (Budget.used b).

Definition bounded (s s' : Store) : Prop :=
  forall t tr, trees s !! t = Some tr -> exists tr', trees s' !! t = Some tr'
    /\ spends (bytes_of tr) (bytes_of tr') /\ spends (inodes_of tr) (inodes_of tr').

Definition accounts (w w' : world) : Prop :=
  accounted (w_fs w) -> accounted (w_fs w') /\ bounded (w_fs w) (w_fs w').

Lemma spends_refl b : spends b b.
Proof. split; [done | lia]. Qed.
Lemma spends_trans a b c : spends a b -> spends b c -> spends a c.
Proof. intros [E H] [E' H']. split; [congruence | lia]. Qed.

#[export] Instance bounded_pre : PreOrder bounded.
Proof.
  split.
  - intros s t tr Ht. exists tr. split_and!; [done | apply spends_refl..].
  - intros s1 s2 s3 H12 H23 t tr Ht. destruct (H12 t tr Ht) as (tr2 & Ht2 & Hb & Hi).
    destruct (H23 t tr2 Ht2) as (tr3 & Ht3 & Hb' & Hi'). exists tr3.
    split_and!; [done | by eapply spends_trans..].
Qed.

#[export] Instance accounts_pre : PreOrder accounts.
Proof.
  split; [by intros w Ha|]. intros w1 w2 w3 H12 H23 H1. destruct (H12 H1) as [H2 B12].
  destruct (H23 H2) as [H3 B23]. split; [done | by transitivity (w_fs w2)].
Qed.

(** A budget goes with what is held. *)
Definition pays (b b' : Budget.Budget) (held held' : Z) : Prop :=
  spends b b' /\ Budget.used b' - Budget.used b = held' - held.

Lemma pays_counts b b' h h' : counts b h -> pays b b' h h' -> counts b' h'.
Proof. intros (E & H & H') [[El Hu] Ep]. unfold counts. rewrite El. lia. Qed.

(** Nothing stands at an address not handed out yet. *)
Definition fresh_objects (s : Store) : Prop := forall n, (next_object s <= n)%nat ->
  trees s !! n = None /\ dirs s !! n = None /\ files s !! n = None /\ whiteouts s !! n = None.

(** One tree's space changes by what it holds more. *)
Lemma accounts_one s s' t g db di :
  accounted s -> trees s' = alter g t (trees s) -> fresh_objects s' ->
  (forall u, bytes_held s' u = bytes_held s u + if (t =? u)%nat then db else 0) ->
  (forall u, inodes_held s' u = inodes_held s u + if (t =? u)%nat then di else 0) ->
  (forall tr, trees s !! t = Some tr ->
     (spends (bytes_of tr) (bytes_of (g tr))
      /\ Budget.used (bytes_of (g tr)) = Budget.used (bytes_of tr) + db)
     /\ spends (inodes_of tr) (inodes_of (g tr))
      /\ Budget.used (inodes_of (g tr)) = Budget.used (inodes_of tr) + di) ->
  accounted s' /\ bounded s s'.
Proof.
  intros Ha Et Hf Hb Hi Hg.
  assert (Hc : forall u tr', trees s' !! u = Some tr' -> exists tr, trees s !! u = Some tr
    /\ pays (bytes_of tr) (bytes_of tr') (bytes_held s u) (bytes_held s' u)
    /\ pays (inodes_of tr) (inodes_of tr') (inodes_held s u) (inodes_held s' u)).
  { intros u tr' Hu. rewrite Et in Hu. unfold pays. rewrite Hb, Hi.
    destruct (Nat.eqb_spec t u) as [->|Hne].
    - rewrite lookup_alter_eq in Hu. destruct (trees s !! u) as [tr|] eqn:E; simplify_eq/=.
      destruct (Hg tr eq_refl) as [[? ?] [? ?]]. exists tr. split_and!; [done..| lia | done | lia].
    - rewrite lookup_alter_ne in Hu by done. exists tr'.
      split_and!; [done | apply spends_refl | lia | apply spends_refl | lia]. }
  split; [split|].
  - intros u tr' Hu. destruct (Hc u tr' Hu) as (tr & Htr & Hp & _).
    eapply pays_counts; [by apply (acc_bytes _ Ha) | exact Hp].
  - intros u tr' Hu. destruct (Hc u tr' Hu) as (tr & Htr & _ & Hp).
    eapply pays_counts; [by apply (acc_inodes _ Ha) | exact Hp].
  - exact Hf.
  - intros u tr Hu. assert (Hu' : is_Some (trees s' !! u)).
    { rewrite Et. destruct (Nat.eqb_spec t u) as [->|Hne];
        [rewrite lookup_alter_eq | rewrite lookup_alter_ne by done]; rewrite Hu; eauto. }
    destruct Hu' as [tr' Hu']. destruct (Hc u tr' Hu') as (tr0 & Htr & [? _] & [? _]).
    simplify_eq. eauto.
Qed.

(** A change that counts nothing. *)
Lemma accounts_none s s' :
  accounted s -> trees s' = trees s -> fresh_objects s' ->
  (forall u, bytes_held s' u = bytes_held s u) -> (forall u, inodes_held s' u = inodes_held s u) ->
  accounted s' /\ bounded s s'.
Proof.
  intros Ha Et Hf Hb Hi. split; [split|].
  - intros u tr Hu. rewrite Et in Hu. rewrite Hb. by apply (acc_bytes _ Ha).
  - intros u tr Hu. rewrite Et in Hu. rewrite Hi. by apply (acc_inodes _ Ha).
  - exact Hf.
  - intros t tr Ht. exists tr. rewrite Et. split_and!; [done | apply spends_refl..].
Qed.

(** What a budget becomes when more is taken, and when some is given back. *)
Lemma take_spends amount b r b' held :
  counts b held -> 0 <= amount -> Budget.take amount b = (r, b') ->
  spends b b' /\ match r with
                | Ok _ => Budget.used b' = Budget.used b + amount
                | Err _ => b' = b
                end.
Proof.
  unfold Budget.take, checked_add, spends. intros (E & Hu & Hl) Ha Ht.
  destruct (Budget.used b + amount <=? USIZE_MAX);
    [destruct (Z.leb_spec (Budget.used b + amount) (Budget.limit b))|];
    simplify_eq/=; split_and!; try done; lia.
Qed.

Lemma give_spends amount b held :
  counts b held -> 0 <= amount <= held ->
  spends b (Budget.give amount b) /\ Budget.used (Budget.give amount b) = Budget.used b - amount.
Proof.
  unfold Budget.give, spends, as_u64, U64_MAX. intros (E & Hu & Hl) Ha. simpl.
  rewrite Z.mod_small by (unfold U64_MAX in *; lia). lia.
Qed.

(** ** The steps that count *)

Lemma alter_twice {X} (f g : X -> X) i (m : gmap nat X) :
  alter f i (alter g i m) = alter (fun x => f (g x)) i m.
Proof.
  apply map_eq. intros j. destruct (decide (i = j)) as [->|]; [by rewrite !lookup_alter_eq; destruct (m !! j) | by rewrite !lookup_alter_ne].
Qed.

Lemma alter_fresh {X} (f : X -> X) i n (m : gmap nat X) : m !! n = None -> alter f i m !! n = None.
Proof. intros Hn. destruct (decide (i = n)) as [->|]; [by rewrite lookup_alter_eq, Hn | by rewrite lookup_alter_ne]. Qed.
Lemma insert_fresh {X} (x : X) i n (m : gmap nat X) :
  (i < n)%nat -> m !! n = None -> <[i := x]> m !! n = None.
Proof. intros Hi Hn. rewrite lookup_insert_ne; [done | lia]. Qed.
Lemma delete_fresh {X} i n (m : gmap nat X) : m !! n = None -> delete i m !! n = None.
Proof. intros Hn. rewrite lookup_delete, Hn. by case_decide. Qed.

Lemma accounted_fresh s : accounted s -> fresh_objects s.
Proof. intros Ha n. apply (acc_fresh _ Ha). Qed.

(** Objects stand at addresses handed out, whatever is changed of them. *)
Ltac still_fresh :=
  let n := fresh "n" in let Hn := fresh "Hn" in
  intros n Hn; simpl in Hn;
  match goal with Ha : accounted ?s |- _ =>
    let H := fresh in assert (H := acc_fresh s Ha n);
    destruct H as (? & ? & ? & ?); [simpl; lia|] end;
  simpl; split_and!;
  repeat first [ done | apply alter_fresh | apply delete_fresh | apply insert_fresh; [lia|] ].

Ltac run_steps H :=
  unfold content_create, new_directory, new_whiteout, resize, content_new, dir_new, take_inode,
    take_ino, take_bytes, try_reserve, give_bytes, give_inode, new_object, now, tree_at, file_at,
    store, on_file, on_tree, on_store, bind, asks, modify, ret, fail, lift in H; simpl in H.

(** What is held once an object is made, resized or let go of. *)
Ltac held :=
  let u := fresh "u" in
  intros u; unfold bytes_held, inodes_held; simpl;
  rewrite ?total_insert by (match goal with Ha : accounted _ |- _ => by apply (acc_fresh _ Ha) end);
  repeat match goal with
  | H : _ !! ?i = Some ?x |- context [total ?f (delete ?i ?m)] => rewrite (total_delete f m i x H)
  | H : _ !! ?i = Some ?x |- context [total ?f (alter ?g ?i ?m)] => rewrite (total_alter f g m i x H)
  end;
  unfold bytes_in, one_in; simpl; change (len (@nil byte)) with 0;
  repeat match goal with |- context [(?a =? u)%nat] => destruct (a =? u)%nat end; lia.

Ltac paid :=
  let tr := fresh "tr" in let Htr := fresh "Htr" in
  intros tr Htr; simplify_eq; unfold bytes_of, inodes_of in *; simpl in *;
  split_and!; try apply spends_refl; try done; lia.

Lemma step_content_create t : framed accounts (content_create t).
Proof.
  intros w r w' Hr Ha. run_steps Hr.
  destruct (trees (w_fs w) !! t) as [tr|] eqn:Et; simpl in Hr; [|done].
  destruct (Budget.take 1 (sp_inodes (tr_space tr))) as [x b] eqn:Eb.
  destruct (take_spends 1 _ _ _ _ (acc_inodes _ Ha t tr Et) ltac:(lia) Eb) as [Hs Hx].
  destruct x as [[]|e].
  - repeat (simpl in Hr; rewrite lookup_alter_eq, Et in Hr). simpl in Hr.
    injection Hr as <- <-. simpl. rewrite alter_twice.
    eapply (accounts_one _ _ t _ 0 1); [exact Ha | reflexivity | still_fresh | held | held | paid].
  - injection Hr as <- <-. simpl.
    eapply (accounts_one _ _ t _ 0 0); [exact Ha | reflexivity | still_fresh | held | held | paid].
Qed.

Lemma step_new_directory t : framed accounts (take_inode t ;;! new_directory t).
Proof.
  intros w r w' Hr Ha. run_steps Hr.
  destruct (trees (w_fs w) !! t) as [tr|] eqn:Et; simpl in Hr; [|done].
  destruct (Budget.take 1 (sp_inodes (tr_space tr))) as [x b] eqn:Eb.
  destruct (take_spends 1 _ _ _ _ (acc_inodes _ Ha t tr Et) ltac:(lia) Eb) as [Hs Hx].
  destruct x as [[]|e].
  - repeat (simpl in Hr; rewrite lookup_alter_eq, Et in Hr). simpl in Hr.
    injection Hr as <- <-. simpl. rewrite alter_twice.
    eapply (accounts_one _ _ t _ 0 1); [exact Ha | reflexivity | still_fresh | held | held | paid].
  - injection Hr as <- <-. simpl.
    eapply (accounts_one _ _ t _ 0 0); [exact Ha | reflexivity | still_fresh | held | held | paid].
Qed.

Lemma step_new_whiteout t : framed accounts (new_whiteout t).
Proof.
  intros w r w' Hr Ha. run_steps Hr.
  destruct (trees (w_fs w) !! t) as [tr|] eqn:Et; simpl in Hr; [|done].
  destruct (Budget.take 1 (sp_inodes (tr_space tr))) as [x b] eqn:Eb.
  destruct (take_spends 1 _ _ _ _ (acc_inodes _ Ha t tr Et) ltac:(lia) Eb) as [Hs Hx].
  destruct x as [[]|e]; injection Hr as <- <-; simpl.
  - eapply (accounts_one _ _ t _ 0 1); [exact Ha | reflexivity | still_fresh | held | held | paid].
  - eapply (accounts_one _ _ t _ 0 0); [exact Ha | reflexivity | still_fresh | held | held | paid].
Qed.

Lemma len_resized n b : 0 <= n -> len (resized n b) = n.
Proof.
  intros Hn. unfold resized, len. rewrite length_app, length_firstn, length_replicate.
  unfold len. lia.
Qed.

(** A file's length changes as its tree's bytes do. *)
Lemma resized_accounts s s' f c t n g :
  accounted s -> files s !! f = Some c -> c_tree c = t -> 0 <= n ->
  trees s' = alter g t (trees s) -> dirs s' = dirs s -> whiteouts s' = whiteouts s ->
  files s' = alter (fun c => with_c_bytes (resized n (c_bytes c)) c) f (files s) ->
  next_object s' = next_object s ->
  (forall tr, trees s !! t = Some tr ->
     (spends (bytes_of tr) (bytes_of (g tr))
      /\ Budget.used (bytes_of (g tr)) = Budget.used (bytes_of tr) + (n - len (c_bytes c)))
     /\ inodes_of (g tr) = inodes_of tr) ->
  accounted s' /\ bounded s s'.
Proof.
  intros Ha Hf Ht Hn Et Ed Ew Ef En Hg.
  eapply (accounts_one _ _ t _ (n - len (c_bytes c)) 0); [exact Ha | exact Et | | | |].
  - intros k Hk. rewrite En in Hk. destruct (acc_fresh _ Ha k Hk) as (? & ? & ? & ?).
    rewrite Et, Ed, Ew, Ef. split_and!; try done; by apply alter_fresh.
  - intros u. unfold bytes_held. rewrite Ef, (total_alter _ _ _ _ c Hf).
    unfold bytes_in. simpl. rewrite Ht, len_resized by done. case_match; lia.
  - intros u. unfold inodes_held. rewrite Ed, Ew, Ef, (total_alter _ _ _ _ c Hf).
    unfold one_in. simpl. rewrite Ht. case_match; lia.
  - intros tr Htr. destruct (Hg tr Htr) as [? ->].
    split; [done|]. split; [apply spends_refl | lia].
Qed.

Lemma held_at_least s f c :
  files s !! f = Some c -> len (c_bytes c) <= bytes_held s (c_tree c).
Proof.
  intros Hf. unfold bytes_held.
  replace (len (c_bytes c)) with (bytes_in (c_tree c) c)
    by (unfold bytes_in; by rewrite Nat.eqb_refl).
  apply total_at_least with f; [|done].
  intros x. unfold bytes_in. pose proof (len_nonneg (c_bytes x)). case_match; lia.
Qed.

Lemma step_resize f n : 0 <= n -> framed accounts (resize f n).
Proof.
  intros Hn w r w' Hr Ha. run_steps Hr.
  destruct (files (w_fs w) !! f) as [c|] eqn:Ef; simpl in Hr; [|done].
  pose proof (held_at_least _ _ _ Ef) as Hlen. pose proof (len_nonneg (c_bytes c)).
  unfold saturating_sub in *.
  destruct (Z.ltb_spec 0 (Z.max 0 (n - len (c_bytes c)))) as [Hgrow|Hfit].
  - destruct (trees (w_fs w) !! c_tree c) as [tr|] eqn:Et; simpl in Hr; [|done].
    destruct (Budget.take _ (sp_bytes (tr_space tr))) as [x b] eqn:Eb.
    assert (Hc := acc_bytes _ Ha (c_tree c) tr Et).
    destruct (take_spends (Z.max 0 (n - len (c_bytes c))) _ _ _ _ Hc ltac:(lia) Eb) as [Hs Hx].
    assert (Hb : counts b (bytes_held (w_fs w) (c_tree c)
      + (Budget.used b - Budget.used (bytes_of tr)))).
    { destruct Hc as (? & ? & ?), Hs. unfold counts. lia. }
    destruct x as [[]|e]; simpl in Hr; [destruct (can_reserve _ _); simpl in Hr|];
      injection Hr as <- <-.
    + destruct (give_spends (Z.max 0 (len (c_bytes c) - n)) b _ Hb) as [Hs' Hu]; [lia|].
      eapply (resized_accounts _ _ f c (c_tree c) n); try reflexivity; try done;
        [simpl; apply alter_twice|].
      intros tr' Htr. simplify_eq. split; [|done]. unfold bytes_of. simpl.
      split; [by eapply spends_trans | unfold bytes_of in *; simpl in Hu; lia].
    + destruct (give_spends (Z.max 0 (n - len (c_bytes c))) b _ Hb) as [Hs' Hu];
        [destruct Hc; lia|].
      eapply (accounts_one _ _ (c_tree c) _ 0 0); [exact Ha | simpl; apply alter_twice | | | |];
        [still_fresh | held | held |].
      intros tr' Htr. simplify_eq. unfold bytes_of, inodes_of in *. simpl.
      simpl in Hu. split_and!; [by eapply spends_trans | lia | apply spends_refl | lia].
    + eapply (accounts_one _ _ (c_tree c) _ 0 0); [exact Ha | reflexivity | still_fresh | held | held | paid].
  - injection Hr as <- <-.
    eapply (resized_accounts _ _ f c (c_tree c) n); try reflexivity; try done.
    intros tr Htr. assert (Hc := acc_bytes _ Ha (c_tree c) tr Htr).
    destruct (give_spends (Z.max 0 (len (c_bytes c) - n)) (bytes_of tr) _ Hc) as [Hs Hu]; [lia|].
    split; [|done]. unfold bytes_of in *. simpl in *. split; [done | lia].
Qed.

(** ** Every operation *)

Lemma step_same (w w' : world) : w_fs w' = w_fs w -> accounts w w'.
Proof. intros E Ha. rewrite E. by split. Qed.

#[local] Hint Extern 1 (framed _ (modify _)) =>
  apply framed_modify; intros; by apply step_same : vfs.
#[local] Hint Extern 1 (framed _ upgrade) => intros ? ? ? [= <- <-]; by apply step_same : vfs.
#[local] Hint Extern 1 (framed _ (dentry_at _)) => apply framed_asks; apply _ : vfs.
#[local] Hint Extern 1 (framed _ (inode_at _)) => apply framed_asks; apply _ : vfs.

#[export] Instance accounts_stored : Stored accounts.
Proof.
  split; try apply _; intros.
  - by apply step_same.
  - intros w r w' [= <- <-]. by apply step_same.
  - unfold add, add_hashed, __instantiate, rehash, on_inode, on_dentry, on_sb. frames.
  - apply framed_modify. intros w Ha. eapply accounts_none; [exact Ha | done | still_fresh | done |].
    intros u. unfold inodes_held. simpl. by rewrite (total_alter_same (one_in dir_tree u)).
  - apply framed_modify. intros w Ha.
    eapply accounts_none; [exact Ha | done | still_fresh | intros u | intros u].
    + unfold bytes_held. simpl. apply total_alter_same. intros c. unfold bytes_in.
      destruct (H c) as [-> ->]. done.
    + unfold inodes_held. simpl. f_equal. f_equal. apply total_alter_same. intros c. unfold one_in.
      destruct (H c) as [_ ->]. done.
  - by apply step_resize.
  - apply step_content_create.
  - apply step_new_directory.
  - apply step_new_whiteout.
Qed.

(** *** What goes *)

Lemma one_at_least {X} (tree : X -> treeid) (m : gmap nat X) i x :
  m !! i = Some x -> 1 <= total (one_in tree (tree x)) m.
Proof.
  intros Hi. replace 1 with (one_in tree (tree x) x) by (unfold one_in; by rewrite Nat.eqb_refl).
  apply total_at_least with i; [|done]. intros y. unfold one_in. case_match; lia.
Qed.

Lemma ones_nonneg {X} (tree : X -> treeid) t (m : gmap nat X) : 0 <= total (one_in tree t) m.
Proof. apply total_nonneg. intros y. unfold one_in. case_match; lia. Qed.

Lemma step_drop_content f : framed accounts (drop_content f).
Proof.
  intros w r w' Hr Ha. unfold drop_content in Hr. run_steps Hr.
  destruct (files (w_fs w) !! f) as [c|] eqn:Ef; simpl in Hr; [|done]. injection Hr as <- <-.
  pose proof (held_at_least _ _ _ Ef) as Hlen. pose proof (len_nonneg (c_bytes c)).
  pose proof (one_at_least c_tree _ _ _ Ef).
  pose proof (ones_nonneg dir_tree (c_tree c) (dirs (w_fs w))).
  pose proof (ones_nonneg (fun u => u) (c_tree c) (whiteouts (w_fs w))).
  eapply (accounts_one _ _ (c_tree c) _ (- len (c_bytes c)) (-1));
    [exact Ha | simpl; apply alter_twice | still_fresh | held | held |].
  intros tr Htr.
  destruct (give_spends (len (c_bytes c)) _ _ (acc_bytes _ Ha _ _ Htr)) as [Hs Hu]; [lia|].
  destruct (give_spends 1 _ _ (acc_inodes _ Ha _ _ Htr)) as [Hs' Hu']; [unfold inodes_held; lia|].
  unfold bytes_of, inodes_of in *. simpl in *. split_and!; try done; lia.
Qed.

Lemma step_drop_whiteout i : framed accounts (drop_whiteout i).
Proof.
  intros w r w' Hr Ha. unfold drop_whiteout in Hr. run_steps Hr.
  destruct (whiteouts (w_fs w) !! i) as [t|] eqn:Ei; simpl in Hr; [|done]. injection Hr as <- <-.
  pose proof (one_at_least (fun u => u) _ _ _ Ei).
  pose proof (ones_nonneg dir_tree t (dirs (w_fs w))).
  pose proof (ones_nonneg c_tree t (files (w_fs w))).
  eapply (accounts_one _ _ t _ 0 (-1)); [exact Ha | reflexivity | still_fresh | held | held |].
  intros tr Htr.
  destruct (give_spends 1 _ _ (acc_inodes _ Ha _ _ Htr)) as [Hs' Hu']; [unfold inodes_held; lia|].
  unfold bytes_of, inodes_of in *. simpl in *. split_and!; try apply spends_refl; try done; lia.
Qed.

Lemma step_free_dir d : framed accounts (free_dir d).
Proof.
  intros w r w' Hr Ha. unfold free_dir, dir_at in Hr. run_steps Hr.
  destruct (dirs (w_fs w) !! d) as [x|] eqn:Ed; simpl in Hr; [|done]. injection Hr as <- <-.
  pose proof (one_at_least dir_tree _ _ _ Ed).
  pose proof (ones_nonneg c_tree (dir_tree x) (files (w_fs w))).
  pose proof (ones_nonneg (fun u => u) (dir_tree x) (whiteouts (w_fs w))).
  eapply (accounts_one _ _ (dir_tree x) _ 0 (-1));
    [exact Ha | reflexivity | still_fresh | held | held |].
  intros tr Htr.
  destruct (give_spends 1 _ _ (acc_inodes _ Ha _ _ Htr)) as [Hs' Hu']; [unfold inodes_held; lia|].
  unfold bytes_of, inodes_of in *. simpl in *. split_and!; try apply spends_refl; try done; lia.
Qed.

#[local] Hint Resolve step_drop_content step_drop_whiteout step_free_dir : vfs.

Lemma step_let_nodes_go last nodes : framed accounts (let_nodes_go last nodes).
Proof. induction nodes as [|[n [f|d|i]] nodes IH]; simpl; frames. Qed.
Lemma step_take_directories last d : framed accounts (take_directories last d).
Proof.
  unfold take_directories.
  apply framed_bind; [apply _ | apply (in_state_of accounts) | intros s].
  apply framed_bind; [apply _ | apply stored_state | intros []]. apply step_let_nodes_go.
Qed.
#[local] Hint Resolve step_take_directories : vfs.
Lemma step_drop_nested turns last nested : framed accounts (drop_nested turns last nested).
Proof.
  revert nested. induction turns as [|turns IH]; intros [|d nested]; simpl; frames.
Qed.
#[local] Hint Resolve step_drop_nested : vfs.
Lemma step_drop_dir turns last d : framed accounts (drop_dir turns last d).
Proof. unfold drop_dir. frames. Qed.

(** *** A file written *)
Abbreviation counted :=
  (only (fun w => accounted (w_fs w)) (fun w w' => bounded (w_fs w) (w_fs w'))).

Lemma counted_step {A} (m : M A) P : framed accounts m -> counted P m whatever.
Proof.
  intros Hm w r w' Ha _ Hr. destruct (Hm w r w' Hr Ha) as [Ha' Hb].
  split_and!; [done | by apply rtc_once | done].
Qed.

Lemma counted_framed {A} (m : M A) : counted (fun _ => True) m whatever -> framed accounts m.
Proof.
  intros Hm w r w' Hr Ha.
  assert (HR : PreOrder (fun w w' : world => bounded (w_fs w) (w_fs w'))).
  { split; [by intros u|]. intros u v x. apply transitivity. }
  destruct (only_end _ _ _ _ _ _ _ _ HR Hm Ha Logic.I Hr) as (? & ? & _). done.
Qed.

(** A file at least as long as is written to it. *)
Definition reaches (f : fileid) (n : Z) (w : world) : Prop :=
  exists c, files (w_fs w) !! f = Some c /\ n <= len (c_bytes c).

Lemma resize_reaches f n w w' :
  0 <= n -> resize f n w = Some (Ok tt, w') -> reaches f n w'.
Proof.
  intros Hn Hr. run_steps Hr. destruct (files (w_fs w) !! f) as [c|] eqn:Ef; simpl in Hr; [|done].
  assert (Hl : forall w1 : world, files (w_fs w1) = files (w_fs w) ->
    alter (fun c => with_c_bytes (resized n (c_bytes c)) c) f (files (w_fs w1)) !! f
    = Some (with_c_bytes (resized n (c_bytes c)) c)).
  { intros w1 E. by rewrite E, lookup_alter_eq, Ef. }
  destruct (0 <? _); [destruct (trees (w_fs w) !! c_tree c); simpl in Hr; [|done];
    destruct (Budget.take _ _) as [[[]|e] b]; [destruct (can_reserve _ _); simpl in Hr|]|];
    simplify_eq/=; unfold reaches; simpl; rewrite lookup_alter_eq, Ef; eexists;
    (split; [reflexivity | simpl; rewrite len_resized; lia]).
Qed.

Lemma counted_resize f n :
  0 <= n -> counted (fun _ => True) (resize f n) (fun _ => reaches f n).
Proof.
  intros Hn w r w' Ha _ Hr. destruct (step_resize f n Hn w r w' Hr Ha) as [Ha' Hb].
  split_and!; [done | by apply rtc_once |]. intros [] ->. by eapply resize_reaches.
Qed.

Lemma len_spliced start buf b :
  0 <= start -> start + len buf <= len b -> len (spliced start buf b) = len b.
Proof.
  intros Hs Hb. unfold spliced, len in *.
  rewrite !length_app, length_firstn, length_skipn. lia.
Qed.

Lemma counted_splice f start buf :
  0 <= start ->
  counted (reaches f (start + len buf)) (on_file f (fun c => with_c_bytes (spliced start buf (c_bytes c)) c))
    whatever.
Proof.
  intros Hs w r w' Ha (c & Hc & Hl) [= <- <-].
  destruct (accounts_none (w_fs w) (with_files
    (alter (fun c => with_c_bytes (spliced start buf (c_bytes c)) c) f (files (w_fs w))) (w_fs w)))
    as [Ha' Hb]; [exact Ha | done | still_fresh | intros u | intros u |].
  - unfold bytes_held. simpl. rewrite (total_alter _ _ _ _ c Hc).
    unfold bytes_in. simpl. rewrite len_spliced by done. lia.
  - unfold inodes_held. simpl. rewrite (total_alter _ _ _ _ c Hc).
    unfold one_in. simpl. lia.
  - split_and!; [exact Ha' | by apply rtc_once | done].
Qed.

Lemma counted_after {A B} P (m : M A) (k : A -> M B) :
  counted P m whatever -> (forall a, framed accounts (k a)) -> counted P (bind m k) whatever.
Proof. intros Hm Hk. eapply only_bind; [exact Hm | intros a; by apply counted_step]. Qed.

#[local] Hint Extern 1 (framed _ (file_at _)) => apply framed_asks; apply _ : vfs.
#[local] Hint Extern 1 (framed _ now) => apply (in_now accounts) : vfs.
#[local] Hint Extern 1 (framed _ (on_file _ _)) => apply stored_file; done : vfs.

Lemma step_file_write f buf start : 0 <= start -> framed accounts (file_write f buf start).
Proof.
  intros Hs. apply counted_framed. unfold file_write. pose proof (len_nonneg buf).
  case_match; [by apply only_ret|].
  unfold checked_add. destruct (start + len buf <=? USIZE_MAX); [|apply only_fail].
  eapply only_bind; [apply only_asks | intros c]. cbv beta.
  eapply only_bind with (Q := fun _ => reaches f (start + len buf)).
  - destruct (Z.ltb_spec (len (c_bytes c)) (start + len buf)).
    + eapply only_pre; [|apply counted_resize; lia]. done.
    + apply only_ret. intros w _ [_ Hc]. by exists c.
  - intros []. apply counted_after; [by apply counted_splice | intros []; frames].
Qed.

Lemma step_file_write_iter f iocb buf :
  0 <= ki_pos iocb -> framed accounts (file_write_iter f iocb buf).
Proof.
  intros Hp. unfold file_write_iter, generic_write_sync, tmpfs_fsync.
  apply framed_bind; [apply _ | auto with vfs | intros c]. cbv zeta.
  apply framed_bind; [apply _ | | intros n; frames].
  apply step_file_write. destruct (ki_append iocb); [apply len_nonneg | done].
Qed.

Lemma step_fallocate f offset n : framed accounts (file_fallocate f offset n).
Proof.
  unfold file_fallocate. cbv zeta.
  apply framed_bind; [apply _ | auto with vfs | intros c].
  apply framed_bind; [apply _ | | intros []; frames].
  case_match; [|apply framed_ret, _]. apply step_resize. unfold as_u64. apply Z.mod_pos_bound. lia.
Qed.

(** ** Every call on a Tmpfs *)
Module Space.

(** What the VFS asks of its inodes, its files and its helpers, and what goes
    when the last that held it does. *)
Inductive Call :=
| Getattr (o : TmpfsInode) (d : did)
| Setattr (o : TmpfsInode) (d : did) (a : Iattr TmpfsOpen)
| Lookup (o : TmpfsInode) (d : did)
| Create (o : TmpfsInode) (d : did)
| AtomicOpen (o : TmpfsInode) (d : did) (how : OpenHow)
| Mkdir (o : TmpfsInode) (d : did)
| Rmdir (o : TmpfsInode) (d : did)
| Unlink (o : TmpfsInode) (d : did)
| Rename (o : TmpfsInode) (d : did) (o' : TmpfsInode) (d' : did) (flag : option RenameFlag)
| Revalidate (o : TmpfsInode) (d : did)
| WhiteoutAt (t : treeid) (dir : dirid) (n : list byte)
| TmpfileIn (t : treeid)
| TmpfileLink (dir : dirid) (data : fileid) (n : list byte)
| Setxattr (dir : dirid) (n value : list byte)
| Write (f : TmpfsOpen) (iocb : Kiocb) (buf : list byte)
| Fallocate (f : TmpfsOpen) (offset n : Z)
| DropFile (f : fileid)
| DropWhiteout (i : whiteoutid)
| DropDir (turns : nat) (last : Node -> bool) (d : dirid).

Definition unit_of {A} (m : M A) : M unit := m ;;! ret tt.

Definition run (c : Call) : M unit :=
  match c with
  | Getattr o d => unit_of (op_getattr o d)
  | Setattr o d a => op_setattr o d a
  | Lookup o d => unit_of (op_lookup o d)
  | Create o d => op_create o d
  | AtomicOpen o d how => unit_of (op_atomic_open o d how)
  | Mkdir o d => op_mkdir o d
  | Rmdir o d => op_rmdir o d
  | Unlink o d => op_unlink o d
  | Rename o d o' d' flag => op_rename o d o' d' flag
  | Revalidate o d => unit_of (dop_revalidate tt o d)
  | WhiteoutAt t dir n => whiteout t dir n
  | TmpfileIn t => unit_of (tmpfile t)
  | TmpfileLink dir data n => tmpfile_link dir data n
  | Setxattr dir n value => setxattr dir n value
  | Write f iocb buf => unit_of (fo_write_iter f iocb buf)
  | Fallocate f offset n => fo_fallocate f offset n
  | DropFile f => drop_content f
  | DropWhiteout i => drop_whiteout i
  | DropDir turns last d => drop_dir turns last d
  end.

(** The calls of a run one after another, whatever each answers. *)
Fixpoint runs (cs : list Call) : M unit :=
  match cs with
  | [] => ret tt
  | c :: cs => attempt (run c) ;;! runs cs
  end.

(** A size or a position is a machine word, so not negative. *)
Definition sized (c : Call) : Prop :=
  match c with
  | Setattr _ _ a => forall n, ia_size a = Some n -> 0 <= n
  | Write _ iocb _ => 0 <= ki_pos iocb
  | _ => True
  end.

Lemma framed_unit_of {A} (m : M A) : framed accounts m -> framed accounts (unit_of m).
Proof. intros Hm. unfold unit_of. frames. Qed.

Lemma step_run c : sized c -> framed accounts (run c).
Proof.
  intros Hc. destruct c; simpl; try apply framed_unit_of.
  - exact (in_getattr accounts o d).
  - apply (in_setattr accounts o d a). intros f n E. by apply step_resize, Hc.
  - exact (in_lookup accounts o d).
  - exact (in_create accounts o d).
  - exact (in_atomic_open accounts o d how).
  - exact (in_mkdir accounts o d).
  - exact (in_rmdir accounts o d).
  - exact (in_unlink accounts o d).
  - exact (in_rename accounts o d o' d' flag).
  - exact (in_revalidate accounts tt o d).
  - unfold whiteout. apply framed_bind; [apply _ | apply step_new_whiteout | intros i].
    apply (in_insert accounts).
  - apply step_content_create.
  - apply (in_insert accounts).
  - apply stored_state.
  - destruct f; simpl; unfold default_write_iter;
      first [by apply step_file_write_iter | apply framed_fail; apply _].
  - destruct f; simpl; unfold default_fallocate;
      first [apply step_fallocate | apply framed_fail; apply _].
  - apply step_drop_content.
  - apply step_drop_whiteout.
  - apply step_drop_dir.
Qed.

Lemma step_runs cs : Forall sized cs -> framed accounts (runs cs).
Proof.
  induction 1 as [|c cs Hc _ IH]; simpl; [apply framed_ret, _|].
  apply framed_bind; [apply _ | by apply framed_attempt, step_run | intros x; exact IH].
Qed.

(** C40: whatever is made, written, resized, moved, replaced and dropped, in
    whatever order and however each call ends, each tree's bytes and inodes
    counted are those of what it holds, and neither passes its limit or what
    was counted already. *)
Theorem tmpfs_counts_what_it_holds cs w r w' :
  Forall sized cs -> accounted (w_fs w) -> runs cs w = Some (r, w') ->
  accounted (w_fs w') /\ bounded (w_fs w) (w_fs w').
Proof. intros Hs Ha Hr. by apply (step_runs cs Hs w r w'). Qed.
End Space.

(** ** A run on the sample Tmpfs *)

(** [accounted], entry by entry. *)
Definition count_ok (b : Budget.Budget) (held : Z) : bool :=
  (Budget.used b =? held) && (Budget.used b <=? U64_MAX) && (Budget.limit b <=? U64_MAX).

Definition is_accounted (s : Store) : bool :=
  every (trees s) (fun t tr =>
    count_ok (bytes_of tr) (bytes_held s t) && count_ok (inodes_of tr) (inodes_held s t))
  && every (trees s) (fun n _ => n <? next_object s)%nat
  && every (dirs s) (fun n _ => n <? next_object s)%nat
  && every (files s) (fun n _ => n <? next_object s)%nat
  && every (whiteouts s) (fun n _ => n <? next_object s)%nat.

Lemma count_ok_counts b held : count_ok b held = true -> counts b held.
Proof. unfold count_ok, counts. rewrite !andb_true_iff. lia. Qed.

Lemma is_accounted_accounted s : is_accounted s = true -> accounted s.
Proof.
  unfold is_accounted. rewrite !andb_true_iff. intros [[[[Hc Ht] Hd] Hf] Hw]. split.
  - intros t tr Htr. apply (every_ok _ _ _ _ Hc) in Htr. apply andb_true_iff in Htr as [? _].
    by apply count_ok_counts.
  - intros t tr Htr. apply (every_ok _ _ _ _ Hc) in Htr. apply andb_true_iff in Htr as [_ ?].
    by apply count_ok_counts.
  - intros n Hn. split_and!; by eapply every_fresh.
Qed.

(** A file made with no name, written past its end, cut, linked, unlinked by a
    whiteout over it, and dropped. *)
Definition calls : list Space.Call :=
  let iocb := MkKiocb 5 false false false in
  [ Space.TmpfileIn 0; Space.TmpfileLink 1 4 (lit "made");
    Space.Write (TmpfsFile 4) iocb (lit "contents");
    Space.Setattr (TmpfsRegular 4) 0%nat (iattr_size 7);
    Space.WhiteoutAt 0 1 (lit "made"); Space.DropFile 4 ].

Definition ran (n : nat) : option (result FilesystemError unit * world) :=
  Space.runs (firstn n calls) (Sample.mounted false).2.

Definition left_by (n : nat) : world :=
  match ran n with Some (_, w) => w | None => (Sample.mounted false).2 end.

Definition used_in (w : world) : option (Z * Z) :=
  tr ← trees (w_fs w) !! 0%nat; Some (Budget.used (bytes_of tr), Budget.used (inodes_of tr)).

Lemma ran_calls : Space.runs calls (Sample.mounted false).2 = Some (Ok tt, left_by 6).
Proof.
  unfold left_by, ran. change (firstn 6 calls) with calls.
  assert (Hm : match Space.runs calls (Sample.mounted false).2 with Some (Ok _, _) => true | _ => false end
    = true) by (vm_compute; reflexivity).
  by destruct (Space.runs calls (Sample.mounted false).2) as [[[[]|e] w']|].
Qed.

(** Eight bytes at five, then seven kept, then all given back; the whiteout's
    inode stays. *)
Lemma tmpfs_counts_what_it_holds_witness :
  accounted (w_fs (left_by 6))
  /\ map (fun n => used_in (left_by n)) [0; 3; 4; 5; 6]%nat
     = [Some (1, 3); Some (14, 4); Some (8, 4); Some (8, 5); Some (1, 4)].
Proof.
  split; [|vm_compute; reflexivity].
  destruct (Space.tmpfs_counts_what_it_holds calls (Sample.mounted false).2 (Ok tt) (left_by 6))
    as [Ha _].
  - repeat apply List.Forall_cons; try apply List.Forall_nil; simpl; try done.
    intros n [= <-]. lia.
  - apply is_accounted_accounted. vm_compute. reflexivity.
  - exact ran_calls.
  - exact Ha.
Defined.
