(* ===== verification/LayerFacts.v ===== *)
(** What the VFS's calls on one Layer keep while a view makes them: every name
    stands in the instance whose table holds it, every dentry names an inode that
    answers as its instance's do, and what the Filesystems hold changes only as
    their own operations change it.

    [steady] is a step that asks no Filesystem; [layers] is the logic of those
    that do, over what a Layer's reads promise ([LayerReads]) and the changes of one
    that is an upper ([UpperChanges]). *)
From stdpp Require Import gmap.
From S2P Require Import Prelude Text Locking VfsTypes World Dcache Cred OpenFile Namei VfsFacts NameiFacts VfsLogic Tidy Containment Tmpfs.
Local Open Scope vfs_scope.

Section Base.
Context {T : FsTypes} (House : sbid -> InodeOps -> FsState -> Prop).
Implicit Types w : world.

(** An inode that answers as those of the instance [s] do, and what a dentry
    names. *)
Definition answers_for (s : sbid) (i : iid) w : Prop :=
  exists n, w_inodes w !! i = Some n /\ House s (i_ops n) (w_fs w).
Definition names_inode (d : did) (i : iid) w : Prop :=
  exists x, w_dentries w !! d = Some x /\ d_inode x = Some i.

Definition in_tables (sb : SuperBlock) (d : did) : Prop :=
  exists k, Hashtable.entries (s_hashtable sb) !! k = Some d
    \/ Hashtable.entries (s_in_lookup sb) !! k = Some d.

Record base w : Prop := MkBase {
  base_fresh : fresh_ok w;
  base_tables s sb d : w_sbs w !! s = Some sb -> in_tables sb d -> sb_of d s w;
  base_named d x i : w_dentries w !! d = Some x -> d_inode x = Some i -> answers_for (d_sb x) i w;
  base_parent d x p : w_dentries w !! d = Some x -> d_parent x = Some p -> sb_of p (d_sb x) w;
  base_alias i n a : w_inodes w !! i = Some n -> i_dentry n = Some a -> names_inode a i w;
}.

(** Dentries stay in their instance and go on naming what they name, and inodes
    keep their operations. *)
Record mono w w' : Prop := MkMono {
  mono_sb d s : sb_of d s w -> sb_of d s w';
  mono_names d i : names_inode d i w -> names_inode d i w';
  mono_inode i n : w_inodes w !! i = Some n ->
    exists n', w_inodes w' !! i = Some n' /\ i_ops n' = i_ops n;
}.

#[export] Instance mono_pre : PreOrder mono.
Proof.
  split; [split; eauto|]. intros w1 w2 w3 [S1 N1 I1] [S2 N2 I2]. split; [eauto.. |].
  intros i n Hn. destruct (I1 i n Hn) as (n2 & Hn2 & E2). destruct (I2 i n2 Hn2) as (n3 & Hn3 & E3).
  exists n3. split; [done | congruence].
Qed.

(** No inode is made, and none gets another alias. *)
Definition no_new w w' : Prop :=
  forall i n', w_inodes w' !! i = Some n' -> exists n, w_inodes w !! i = Some n /\ i_ops n = i_ops n'.
Definition no_alias w w' : Prop :=
  forall i n', w_inodes w' !! i = Some n' ->
    exists n, w_inodes w !! i = Some n /\ i_dentry n = i_dentry n'.

(** What no Filesystem did. *)
Record outside w w' : Prop := MkOutside {
  o_mono : mono w w';
  o_no_new : no_new w w';
  o_fs : w_fs w' = w_fs w;
}.
Record quietened w w' : Prop := MkQuietened {
  q_outside : outside w w';
  q_no_alias : no_alias w w';
}.

#[export] Instance outside_pre : PreOrder outside.
Proof.
  split; [split; [reflexivity | intros i n; eauto | done]|].
  intros w1 w2 w3 [M1 N1 F1] [M2 N2 F2]. split; [by transitivity w2 | | congruence].
  intros i n3 H3. destruct (N2 i n3 H3) as (n2 & H2 & E2). destruct (N1 i n2 H2) as (n1 & H1 & E1).
  exists n1. split; [done | congruence].
Qed.
#[export] Instance quietened_pre : PreOrder quietened.
Proof.
  split; [split; [reflexivity | intros i n; eauto]|].
  intros w1 w2 w3 [O1 A1] [O2 A2]. split; [by transitivity w2|].
  intros i n3 H3. destruct (A2 i n3 H3) as (n2 & H2 & E2). destruct (A1 i n2 H2) as (n1 & H1 & E1).
  exists n1. split; [done | congruence].
Qed.

Definition steady w w' : Prop := base w -> base w' /\ quietened w w'.

#[export] Instance steady_pre : PreOrder steady.
Proof.
  split; [by intros w Hb|]. intros w1 w2 w3 H12 H23 H1. destruct (H12 H1) as [H2 Q12].
  destruct (H23 H2) as [H3 Q23]. split; [done | by transitivity w2].
Qed.

Lemma answers_mono s i w w' :
  mono w w' -> w_fs w' = w_fs w -> answers_for s i w -> answers_for s i w'.
Proof.
  intros Hm E (n & Hn & Ho). destruct (mono_inode _ _ Hm i n Hn) as (n' & Hn' & En). exists n'.
  by rewrite En, E.
Qed.

(** *** The changes that keep it *)
Definition well_placed w (s : sbid) (i : option iid) (p : option did) : Prop :=
  (forall a, i = Some a -> answers_for s a w) /\ (forall a, p = Some a -> sb_of a s w).

Lemma base_change w w' :
  base w -> fresh_ok w' -> mono w w' ->
  (forall d x', w_dentries w' !! d = Some x' ->
     well_placed w' (d_sb x') (d_inode x') (d_parent x')) ->
  (forall s sb', w_sbs w' !! s = Some sb' ->
     exists sb, w_sbs w !! s = Some sb
       /\ forall d, in_tables sb' d -> in_tables sb d \/ sb_of d s w') ->
  (forall i n a, w_inodes w' !! i = Some n -> i_dentry n = Some a ->
     (exists n0, w_inodes w !! i = Some n0 /\ i_dentry n0 = Some a) \/ names_inode a i w') ->
  base w'.
Proof.
  intros Hb Hf Hm Hd Hs Ha. split; [done | | | |].
  - intros s sb' d Hsb Hin. destruct (Hs s sb' Hsb) as (sb & Hsb0 & Ht).
    destruct (Ht d Hin) as [Hold|]; [|done]. apply Hm. by eapply base_tables.
  - intros d x i Hx Hi. by apply (Hd d x Hx).
  - intros d x p Hx Hp. by apply (Hd d x Hx).
  - intros i n a Hn Hna. destruct (Ha i n a Hn Hna) as [(n0 & Hn0 & Hold)|]; [|done].
    apply Hm. by eapply base_alias.
Qed.

Lemma no_alias_kept w w' i n a : no_alias w w' -> w_inodes w' !! i = Some n -> i_dentry n = Some a ->
  (exists n0, w_inodes w !! i = Some n0 /\ i_dentry n0 = Some a) \/ names_inode a i w'.
Proof. intros Hq Hn Ha. left. destruct (Hq i n Hn) as (n0 & ? & E). exists n0. by rewrite E. Qed.

Lemma base_placed w d x : base w -> w_dentries w !! d = Some x ->
  well_placed w (d_sb x) (d_inode x) (d_parent x).
Proof. intros Hb Hx. split; intros a Ha; [by eapply base_named | by eapply base_parent]. Qed.

Lemma placed_mono w w' s i p :
  mono w w' -> w_fs w' = w_fs w -> well_placed w s i p -> well_placed w' s i p.
Proof.
  intros Hm E [Hi Hp]. split; intros a Ha; [eapply answers_mono; eauto | by apply Hm, Hp].
Qed.

(** Dentries altered within their instance. *)
Definition stays (x x' : Dentry) : Prop :=
  d_sb x' = d_sb x /\ (forall i, d_inode x = Some i -> d_inode x' = Some i).

Lemma mono_dentries w w' :
  w_inodes w' = w_inodes w ->
  (forall d x, w_dentries w !! d = Some x -> exists x', w_dentries w' !! d = Some x' /\ stays x x') ->
  mono w w'.
Proof.
  intros Ei Hd. split; [| |rewrite Ei; eauto].
  - intros d s (x & Hx & E). destruct (Hd d x Hx) as (x' & Hx' & E' & _).
    exists x'. split; [done | congruence].
  - intros d i (x & Hx & E). destruct (Hd d x Hx) as (x' & Hx' & _ & Hi). exists x'. auto.
Qed.

Lemma mono_inodes w w' :
  w_dentries w' = w_dentries w ->
  (forall i n, w_inodes w !! i = Some n -> exists n', w_inodes w' !! i = Some n' /\ i_ops n' = i_ops n) ->
  mono w w'.
Proof.
  intros Ed Hi. split; [| |done]; intros d a (x & Hx & E); exists x; by rewrite Ed.
Qed.

Lemma fresh_alter_dentries f d w : fresh_ok w -> fresh_ok (set_dentries (alter f d (w_dentries w)) w).
Proof.
  intros Hf n Hn. destruct (Hf n Hn) as (E1 & E2 & E3). simpl. by rewrite lookup_alter_None.
Qed.
Lemma fresh_alter_inodes f i w : fresh_ok w -> fresh_ok (set_inodes (alter f i (w_inodes w)) w).
Proof.
  intros Hf n Hn. destruct (Hf n Hn) as (E1 & E2 & E3). simpl. by rewrite lookup_alter_None.
Qed.

Lemma mono_alter_dentry f d w : (forall x, w_dentries w !! d = Some x -> stays x (f x)) ->
  mono w (set_dentries (alter f d (w_dentries w)) w).
Proof.
  intros Hf. apply mono_dentries; [done|]. intros a x Hx. simpl. destruct (decide (a = d)) as [->|Hne].
  - exists (f x). rewrite lookup_alter_eq, Hx. auto.
  - exists x. by rewrite lookup_alter_ne.
Qed.

Lemma steady_dentry f d w :
  (forall x, w_dentries w !! d = Some x -> d_sb (f x) = d_sb x /\ d_inode (f x) = d_inode x /\
     (base w -> forall p, d_parent (f x) = Some p -> sb_of p (d_sb x) w)) ->
  steady w (set_dentries (alter f d (w_dentries w)) w).
Proof.
  intros Hf Hb. set (w' := set_dentries _ w).
  assert (Hm : mono w w').
  { apply mono_alter_dentry. intros x Hx. destruct (Hf x Hx) as (E & Ei & _).
    split; [done|]. intros i. by rewrite Ei. }
  split; [|split; [split; [done | intros i n; eauto | done] | intros i n; eauto]].
  apply (base_change w w'); [done | | done | | intros s sb; eauto | intros i n a; eauto].
  - apply fresh_alter_dentries, Hb.
  - intros a x' Hx'. subst w'. simpl in Hx'. apply alter_at in Hx' as (x & Hx & ->).
    destruct (a =? d)%nat eqn:Ea; [|by eapply placed_mono, base_placed].
    apply Nat.eqb_eq in Ea as ->. destruct (Hf x Hx) as (-> & -> & Hp).
    destruct (base_placed w d x Hb Hx) as [Hi _]. eapply placed_mono; [exact Hm | done|].
    split; [done | by apply Hp].
Qed.

Lemma steady_inode f i w : (forall x, i_ops (f x) = i_ops x /\ i_dentry (f x) = i_dentry x) ->
  steady w (set_inodes (alter f i (w_inodes w)) w).
Proof.
  intros Hf Hb. set (w' := set_inodes _ w).
  assert (Hw : forall a n', w_inodes w' !! a = Some n' -> exists n, w_inodes w !! a = Some n
    /\ i_ops n = i_ops n' /\ i_dentry n = i_dentry n').
  { intros a n' Hn'. subst w'. simpl in Hn'. apply alter_at in Hn' as (n & Hn & ->). exists n.
    split; [done|]. destruct (Hf n). by case_match. }
  assert (Hm : mono w w').
  { apply mono_inodes; [done|]. intros a n Hn. subst w'. simpl. destruct (decide (a = i)) as [->|Hne].
    - exists (f n). rewrite lookup_alter_eq, Hn. by destruct (Hf n).
    - exists n. by rewrite lookup_alter_ne. }
  assert (Ha : no_alias w w').
  { intros a n' Hn'. destruct (Hw a n' Hn') as (n & ? & ? & ?). eauto. }
  split; [|split; [split; [done | | done] | done]].
  - apply (base_change w w'); [done | | done | | intros s sb; eauto | intros a n b; by apply no_alias_kept].
    + apply fresh_alter_inodes, Hb.
    + intros d x Hx. by eapply placed_mono, base_placed.
  - intros a n' Hn'. destruct (Hw a n' Hn') as (n & ? & ? & ?). eauto.
Qed.

Lemma steady_sb f s w :
  (forall sb d, w_sbs w !! s = Some sb -> in_tables (f sb) d -> in_tables sb d \/ sb_of d s w) ->
  steady w (set_sbs (alter f s (w_sbs w)) w).
Proof.
  intros Hf Hb. set (w' := set_sbs _ w).
  assert (Hm : mono w w') by (split; [by intros d.. | intros i n; eauto]).
  split; [|split; [split; [done | intros i n; eauto | done] | intros i n; eauto]].
  apply (base_change w w'); [done | | done | | | intros i n a; eauto].
  - intros n Hn. destruct (base_fresh _ Hb n Hn) as (E1 & E2 & E3). subst w'. simpl.
    by rewrite lookup_alter_None.
  - intros d x Hx. by eapply placed_mono, base_placed.
  - intros a sb' Hsb'. subst w'. simpl in Hsb'. apply alter_at in Hsb' as (sb & Hsb & ->).
    exists sb. split; [done|]. intros d Hin. destruct (a =? s)%nat eqn:Ea; [|by left].
    apply Nat.eqb_eq in Ea as ->. by apply Hf.
Qed.

Lemma steady_new_dentry x w :
  d_inode x = None -> (forall p, d_parent x = Some p -> sb_of p (d_sb x) w) ->
  steady w (set_next (S (w_next w)) (set_dentries (<[w_next w := x]> (w_dentries w)) w)).
Proof.
  intros Hi Hp Hb. set (w' := set_next _ _).
  destruct (base_fresh _ Hb (w_next w) ltac:(lia)) as (Hno & _).
  assert (Hm : mono w w').
  { apply mono_dentries; [done|]. intros a y Hy. exists y. subst w'. simpl.
    rewrite lookup_insert_ne; [done|]. intros <-. discriminate (eq_trans (eq_sym Hno) Hy). }
  split; [|split; [split; [done | intros i n; eauto | done] | intros i n; eauto]].
  apply (base_change w w'); [done | | done | | intros s sb; eauto | intros i n a; eauto].
  - intros n Hn. simpl in Hn. destruct (base_fresh _ Hb n ltac:(lia)) as (E1 & E2 & E3).
    subst w'. simpl. rewrite lookup_insert_ne by lia. done.
  - intros a y Hy. subst w'. simpl in Hy. destruct (decide (a = w_next w)) as [->|Hne].
    + rewrite lookup_insert_eq in Hy. injection Hy as <-. rewrite Hi. split; [done|].
      intros p Hpp. by apply Hm, Hp.
    + rewrite lookup_insert_ne in Hy by done. by eapply placed_mono, base_placed.
Qed.

Lemma steady_same w w' :
  w_dentries w' = w_dentries w -> w_inodes w' = w_inodes w -> w_sbs w' = w_sbs w ->
  w_fs w' = w_fs w -> (w_next w <= w_next w')%nat -> steady w w'.
Proof.
  intros Ed Ei Es Ef En Hb.
  assert (Hm : mono w w') by (apply mono_inodes; [done | rewrite Ei; eauto]).
  assert (Hi : forall i n', w_inodes w' !! i = Some n' -> exists n, w_inodes w !! i = Some n /\ n = n')
    by (rewrite Ei; eauto).
  split; [|split; [split; [done | | done] |]].
  - apply (base_change w w'); [done | | done | | | ].
    + intros n Hn. rewrite Ed, Ei, Es. apply (base_fresh _ Hb). lia.
    + intros d x Hx. rewrite Ed in Hx. by eapply placed_mono, base_placed.
    + intros s sb Hsb. rewrite Es in Hsb. eauto.
    + intros i n a. rewrite Ei. eauto.
  - intros i n. rewrite Ei. eauto.
  - intros i n. rewrite Ei. eauto.
Qed.

(** *** A dentry comes to name an inode *)
Lemma base_attach d x i n w :
  base w -> w_dentries w !! d = Some x -> d_inode x = None ->
  w_inodes w !! i = Some n -> House (d_sb x) (i_ops n) (w_fs w) ->
  forall f, (forall m, i_ops (f m) = i_ops m /\ (i_dentry (f m) = i_dentry m \/ i_dentry (f m) = Some d)) ->
  let w' := set_dentries (alter (with_inode_field (Some i)) d (w_dentries w))
              (set_inodes (alter f i (w_inodes w)) w) in
  base w' /\ outside w w'.
Proof.
  intros Hb Hx Hno Hn Hh f Hf w'.
  assert (Hd : names_inode d i w').
  { exists (with_inode_field (Some i) x). subst w'. simpl. by rewrite lookup_alter_eq, Hx. }
  assert (Hm : mono w w').
  { split.
    - intros a s (y & Hy & E). destruct (decide (a = d)) as [->|Hne].
      + eexists. subst w'. simpl. rewrite lookup_alter_eq, Hy. by split.
      + exists y. subst w'. simpl. by rewrite lookup_alter_ne.
    - intros a j (y & Hy & E). destruct (decide (a = d)) as [->|Hne]; [congruence|].
      exists y. subst w'. simpl. by rewrite lookup_alter_ne.
    - intros j m Hj. subst w'. simpl. destruct (decide (j = i)) as [->|Hne].
      + exists (f m). rewrite lookup_alter_eq, Hj. by destruct (Hf m).
      + exists m. by rewrite lookup_alter_ne. }
  split; [|split; [done | | done]].
  - apply (base_change w w'); [done | | done | | intros s sb; eauto |].
    + apply (fresh_alter_dentries _ d (set_inodes _ w)), fresh_alter_inodes, Hb.
    + intros a y' Hy'. subst w'. simpl in Hy'. apply alter_at in Hy' as (y & Hy & ->).
      destruct (a =? d)%nat eqn:Ea; [|by eapply placed_mono, base_placed].
      apply Nat.eqb_eq in Ea as ->. pose proof (eq_trans (eq_sym Hx) Hy) as [= <-]. simpl. split.
      * intros j [= <-]. eapply answers_mono; [exact Hm | done | by exists n].
      * intros p Hp. by eapply Hm, base_parent.
    + intros j m a Hj Ha. subst w'. simpl in Hj. apply alter_at in Hj as (m0 & Hm0 & ->).
      destruct (j =? i)%nat eqn:Ej; [|by left; exists m0].
      apply Nat.eqb_eq in Ej as ->. destruct (Hf m0) as [_ [E|E]]; rewrite E in Ha.
      * left. by exists m0.
      * injection Ha as <-. by right.
  - intros j m' Hj. subst w'. simpl in Hj. apply alter_at in Hj as (m & Hmj & ->). exists m.
    split; [done|]. destruct (Hf m). by case_match.
Qed.

(** *** Steps that ask no Filesystem *)
Lemma steady_on_dentry f d :
  (forall x, d_sb (f x) = d_sb x /\ d_inode (f x) = d_inode x /\ d_parent (f x) = d_parent x) ->
  framed steady (on_dentry d f).
Proof.
  intros Hf. apply framed_modify. intros w. apply steady_dentry. intros x Hx.
  destruct (Hf x) as (E & Ei & ->). split_and!; [done..|]. intros Hb p Hp. by eapply base_parent.
Qed.

Lemma steady_on_sb f s : (forall sb d, in_tables (f sb) d -> in_tables sb d) ->
  framed steady (on_sb s f).
Proof. intros Hf. apply framed_modify. intros w. apply steady_sb. auto. Qed.

Lemma less_tables sb sb' d : same_tables sb sb' -> in_tables sb' d -> in_tables sb d.
Proof.
  intros (Hh & Hl & _) (k & [Hk|Hk]); exists k; [left | right]; by eapply lookup_weaken.
Qed.

Lemma steady_upgrade : framed steady upgrade.
Proof. intros w r w' [= <- <-]. by apply steady_same. Qed.

Lemma steady_lookup_done d : framed steady (lookup_done d).
Proof.
  unfold lookup_done, dentry_at.
  apply framed_bind; [apply _ | auto with vfs | intros x].
  apply framed_bind; [apply _ | auto with vfs | intros at_].
  case_match; [|auto with vfs].
  apply framed_bind; [apply _ | apply steady_upgrade | intros strong].
  apply framed_bind; [apply _ | | intros _; by apply steady_on_dentry].
  apply steady_on_sb. intros sb a. case_match; [|done].
  apply less_tables, same_tables_lookup_remove.
Qed.

#[export] Instance steady_still : Still steady.
Proof.
  split; try apply _; intros.
  - by apply steady_same.
  - by apply steady_same.
  - destruct s; simpl; [by apply steady_inode | apply steady_sb; auto].
  - by apply steady_on_dentry.
  - apply framed_modify. intros w. by apply steady_inode.
  - by apply steady_on_sb.
  - apply steady_lookup_done.
Qed.

Lemma steady_emit f : framed steady (emit f).
Proof. apply framed_modify. intros w. by apply steady_same. Qed.
Lemma steady_fresh_address : framed steady fresh_address.
Proof. intros w r w' [= <- <-]. apply steady_same; try done. simpl. lia. Qed.

Lemma steady_drop_hashed s d : framed steady (drop_hashed s d).
Proof.
  unfold drop_hashed, dentry_at. apply framed_bind; [apply _ | auto with vfs | intros at_].
  apply framed_bind; [apply _ | auto with vfs | intros x]. case_match; [|auto with vfs].
  apply framed_bind; [apply _ | apply steady_upgrade | intros strong].
  apply framed_bind; [apply _ | | intros _; by apply steady_on_dentry].
  apply steady_on_sb. intros sb a. apply less_tables, same_tables_hash_remove.
Qed.
#[local] Hint Resolve steady_drop_hashed : vfs.
Lemma steady_lru s (f : Lru -> Lru) : framed steady (on_sb s (fun sb => with_lru (f (s_lru sb)) sb)).
Proof. by apply steady_on_sb. Qed.
#[local] Hint Resolve steady_lru : vfs.

Lemma inserted (strong : did -> bool) (k q : Key) (v a : did) (t : Hashtable.Hashtable Key) :
  Hashtable.entries (Hashtable.insert_entry strong k v t) !! q = Some a ->
  a = v \/ Hashtable.entries t !! q = Some a.
Proof.
  unfold Hashtable.insert_entry. simpl. intros Hq. apply lookup_insert_Some in Hq as [[_ ->]|[_ Hq]];
    [by left | right]. case_match; [|done]. simpl in Hq. by apply map_lookup_filter_Some in Hq as [Hq _].
Qed.

(** A name stands in a table of its own instance. *)
Lemma steady_hashes d x w (strong : did -> bool) at_ :
  w_dentries w !! d = Some x ->
  steady w (set_sbs (alter (fun s =>
    with_hashtable (Hashtable.insert_entry strong at_ d (s_hashtable s)) s) (d_sb x) (w_sbs w)) w).
Proof.
  intros Hx. apply steady_sb. intros sb a Hsb (k & [Hk|Hk]); simpl in Hk.
  - apply inserted in Hk as [->|Hk]; [right; by exists x | left; exists k; by left].
  - left. exists k. by right.
Qed.

Lemma steady_asked d a w : steady w (set_dentries (alter (with_asked a) d (w_dentries w)) w).
Proof. apply steady_dentry. intros y Hy. split_and!; [done..|]. intros Hb p Hp. by eapply base_parent. Qed.

Lemma steady_rehash d : framed steady (rehash d).
Proof.
  intros w r w'. unfold rehash, dentry_at, asks, reads, parent_and_name, bind.
  destruct (w_dentries w !! d) as [x|] eqn:Hx; simpl; [|done]. rewrite Hx. simpl.
  set (strong := w_strong w (w_tick w)).
  set (w0 := set_tick (S (w_tick w)) w).
  set (k := (default d (d_parent x), d_name x) : Key).
  set (drop := fun s : SuperBlock => if Hashtable.holds k d (s_in_lookup s)
    then with_in_lookup (Hashtable.remove strong k (s_in_lookup s)).2 s else s).
  assert (H01 : steady w0 (set_sbs (alter drop (d_sb x) (w_sbs w0)) w0)).
  { apply steady_sb. intros sb a Hsb Hin. left. subst drop. simpl in Hin. case_match; [|done].
    exact (less_tables _ _ a (same_tables_lookup_remove strong k sb) Hin). }
  set (w1 := set_sbs (alter drop _ _) w0) in H01.
  assert (H02 : steady w (set_dentries (alter (with_asked Answered) d (w_dentries w1)) w1)).
  { transitivity w0; [by apply steady_same|]. transitivity w1; [exact H01 | apply steady_asked]. }
  set (w2 := set_dentries _ w1) in H02.
  destruct (d_hashed x) eqn:Hh; simpl; intros [= <- <-]; [done|].
  etransitivity; [exact H02|]. etransitivity.
  - apply (steady_hashes d (with_asked Answered x) w2 strong k).
    subst w2 w1. simpl. rewrite lookup_alter_eq. exact (f_equal (fmap (with_asked Answered)) Hx).
  - apply steady_dentry. intros y Hy. split_and!; [done..|]. intros Hb p Hp. by eapply base_parent.
Qed.
#[local] Hint Resolve steady_rehash : vfs.

Context `{LC : !LruCache} `{!VfsTables T}.
Lemma steady_unhash s d : framed steady (unhash s d).
Proof. unfold unhash. frames. Qed.
#[local] Hint Resolve steady_unhash : vfs.
End Base.
#[export] Hint Resolve steady_drop_hashed steady_lru steady_unhash steady_emit steady_fresh_address
  steady_rehash : vfs.

(** ** The logic *)

(** What is asked of a relation between what Filesystems hold, and of what else is
    kept: an inode goes on answering as its instance's, and no step of the VFS's
    own breaks what is kept. *)
Class Sheltered {T : FsTypes} (House : sbid -> InodeOps -> FsState -> Prop) (K : world -> Prop)
    (R : FsState -> FsState -> Prop) := {
  shelter_pre :: PreOrder R;
  shelter_house s o x x' : R x x' -> House s o x -> House s o x';
  shelter_keeps w w' : base House w -> outside w w' -> K w -> K w';
}.

Section Layers.
Context {T : FsTypes}.
Context {House : sbid -> InodeOps -> FsState -> Prop} {K : world -> Prop}.
Context {R : FsState -> FsState -> Prop} `{SH : !Sheltered House K R}.
Implicit Types w : world.

Definition sound w : Prop := base House w /\ K w.
Definition moves w w' : Prop := R (w_fs w) (w_fs w') /\ mono w w'.
Abbreviation layers := (only sound moves).

#[export] Instance moves_pre : PreOrder moves.
Proof.
  split; [split; reflexivity|]. intros w1 w2 w3 [R1 M1] [R2 M2].
  split; [by transitivity (w_fs w2) | by transitivity w2].
Qed.

(** What lasts through anything, and what lasts while no Filesystem is asked and
    no dentry comes to name an inode. *)
Definition enduring (P : world -> Prop) : Prop := forall w w', moves w w' -> P w -> P w'.
Definition settled (P : world -> Prop) : Prop :=
  forall w w', base House w -> quietened w w' -> P w -> P w'.

Lemma outside_moves w w' : outside w w' -> moves w w'.
Proof. intros [Hm _ E]. split; [by rewrite E | done]. Qed.

Lemma settled_enduring P : enduring P -> settled P.
Proof. intros HP w w' _ [Ho _]. by apply HP, outside_moves. Qed.

Lemma enduring_and P Q : enduring P -> enduring Q -> enduring (fun w => P w /\ Q w).
Proof. intros HP HQ w w' Hm [? ?]. split; [by apply (HP w) | by apply (HQ w)]. Qed.
Lemma enduring_sb d s : enduring (sb_of d s).
Proof. intros w w' [_ Hm]. apply Hm. Qed.
Lemma enduring_names d i : enduring (names_inode d i).
Proof. intros w w' [_ Hm]. apply Hm. Qed.
Lemma enduring_house s o : enduring (fun w => House s o (w_fs w)).
Proof. intros w w' [Hr _]. by apply shelter_house. Qed.
Lemma enduring_answers s i : enduring (answers_for House s i).
Proof.
  intros w w' [Hr Hm] (n & Hn & Ho). destruct (mono_inode _ _ Hm i n Hn) as (n' & Hn' & E).
  exists n'. rewrite E. split; [done | by eapply shelter_house].
Qed.
Lemma enduring_pure (F : Prop) : enduring (fun _ => F).
Proof. by intros w w' _ HF. Qed.
Lemma enduring_imp (F : Prop) P : enduring P -> enduring (fun w => F -> P w).
Proof. intros HP w w' Hm H HF. by apply (HP w w' Hm), H. Qed.
Lemma enduring_all {X} (P : X -> world -> Prop) :
  (forall x, enduring (P x)) -> enduring (fun w => forall x, P x w).
Proof. intros HP w w' Hm H x. by apply (HP x w w' Hm), H. Qed.
Lemma enduring_match {X} (x : option X) (P : X -> world -> Prop) Q :
  (forall a, enduring (P a)) -> enduring Q ->
  enduring (fun w => match x with Some a => P a w | None => Q w end).
Proof. intros HP HQ. by destruct x. Qed.

Lemma settled_and P Q : settled P -> settled Q -> settled (fun w => P w /\ Q w).
Proof. intros HP HQ w w' Hb Hm [? ?]. split; [by apply (HP w) | by apply (HQ w)]. Qed.
Lemma settled_own s i : settled (own s i).
Proof.
  intros w w' Hb [[Hm _ _] Ha] Ho n' a x' Hn' Hd Hx'. destruct (Ha i n' Hn') as (n & Hn & E).
  rewrite Hd in E. destruct (base_alias _ _ Hb i n a Hn E) as (x & Hx & _).
  destruct (mono_sb _ _ Hm a s) as (y & Hy & <-); [exists x; split; [done | by eapply Ho]|].
  pose proof (eq_trans (eq_sym Hx') Hy) as [= ->]. done.
Qed.

Lemma steady_sound w w' : steady House w w' -> sound w -> sound w' /\ quietened w w'.
Proof.
  intros Hs [Hb Hk]. destruct (Hs Hb) as [Hb' Hq]. split; [split; [done|]|done].
  eapply shelter_keeps; [exact Hb | apply Hq | done].
Qed.

Lemma layers_steady {A} P (m : M A) :
  settled P -> framed (steady House) m -> layers P m (fun _ => P).
Proof.
  intros HP. apply only_framed. intros w w' Hs Hst. destruct (steady_sound w w' Hst Hs) as [Hs' Hq].
  split_and!; [done | by apply outside_moves, Hq |]. apply HP; [apply Hs | done].
Qed.

Lemma layers_frame {A} P (m : M A) Q S :
  enduring S -> layers P m Q -> layers (fun w => P w /\ S w) m (fun a w => Q a w /\ S w).
Proof. intros HS. apply only_lasting. intros w w'. apply HS. Qed.

(** What a step needs of what is known, and what is known after it too. *)
Lemma layers_known {A} P (m : M A) Q S :
  enduring S -> (forall w, S w -> P w) -> layers P m Q ->
  layers S m (fun a w => S w /\ Q a w).
Proof.
  intros HS HP Hm. eapply only_pre with (P' := fun w => P w /\ S w); [auto|].
  eapply only_post; [by apply layers_frame|]. by intros a w _ [? ?].
Qed.

Lemma layers_next {A B} P (m : M A) (k : A -> M B) Q :
  settled P -> framed (steady House) m -> (forall a, layers P (k a) Q) -> layers P (bind m k) Q.
Proof. intros HP Hm Hk. eapply only_bind; [by apply layers_steady | done]. Qed.

Lemma layers_holding {A} P (m : M A) Q gs :
  (forall a, settled (Q a)) -> layers P m Q -> layers P (holding gs m) Q.
Proof.
  intros HQ Hm. apply only_holding; [|done]. intros r. apply layers_steady; [|auto with vfs].
  intros w w' Hb Hq Hr a E. eapply HQ; eauto.
Qed.
Lemma layers_keeping {A} P (m : M A) Q gs : layers P m Q -> layers P (keeping gs m) Q.
Proof.
  intros Hm. apply only_keeping; [|done]. eapply only_whatever.
  apply layers_steady; [by apply settled_enduring, enduring_pure | auto with vfs].
Qed.

(** *** What is read of a dentry *)
Lemma layers_dentry_at P d :
  settled P -> layers P (dentry_at d) (fun x w => P w /\ sb_of d (d_sb x) w
    /\ (forall p, d_parent x = Some p -> sb_of p (d_sb x) w)
    /\ (forall i, d_inode x = Some i -> names_inode d i w)).
Proof.
  intros HP. eapply only_post; [apply only_asks|]. intros x w [Hb _] [Hp Hx].
  split_and!; [done | by exists x | intros p E; by eapply base_parent | intros i E; by exists x].
Qed.

Lemma layers_inode P d :
  settled P -> layers P (inode d) (fun i w => P w /\ forall a, i = Some a -> names_inode d a w).
Proof.
  intros HP. unfold inode. eapply only_bind; [by apply layers_dentry_at | intros x].
  apply only_ret. intros w _ (? & _ & _ & Hi). by split.
Qed.
Lemma layers_named_inode P d :
  settled P -> layers P (named_inode d) (fun i w => P w /\ names_inode d i w).
Proof.
  intros HP. unfold named_inode. eapply only_bind; [by apply layers_inode | intros [i|]].
  - apply only_ret. intros w _ [? Hi]. split; [done | by apply Hi].
  - apply only_fail.
Qed.

(** What an instance's dentry names answers as the instance's inodes do. *)
Lemma named_answers d s i w : sound w -> sb_of d s w -> names_inode d i w -> answers_for House s i w.
Proof.
  intros [Hb _] (x & Hx & <-) (y & Hy & Hi). pose proof (eq_trans (eq_sym Hx) Hy) as [= <-].
  by eapply base_named.
Qed.

Lemma layers_inode_ops P d s :
  settled P -> (forall w, P w -> sb_of d s w) ->
  layers P (inode_ops d) (fun o w => P w /\ House s o (w_fs w)).
Proof.
  intros HP Hd. unfold inode_ops. eapply only_bind; [by apply layers_named_inode | intros i].
  eapply only_bind; [apply only_asks | intros n]. apply only_ret.
  intros w Hs [[Hp Hi] Hn]. split; [done|].
  destruct (named_answers d s i w Hs (Hd w Hp) Hi) as (n' & Hn' & Hh).
  pose proof (eq_trans (eq_sym Hn) Hn') as [= ->]. done.
Qed.

Lemma layers_parent_and_name P d s :
  settled P -> (forall w, P w -> sb_of d s w) ->
  layers P (reads (parent_and_name d)) (fun at_ w => P w /\ sb_of at_.1 s w).
Proof.
  intros HP Hd. eapply only_post; [apply only_reads|]. intros at_ w [Hb _] [Hp Hr].
  split; [done|]. destruct (Hd w Hp) as (x & Hx & <-). unfold parent_and_name in Hr.
  rewrite Hx in Hr. injection Hr as <-. simpl. destruct (d_parent x) as [p|] eqn:E; simpl.
  - by eapply base_parent.
  - by exists x.
Qed.
Lemma layers_parent P d s :
  settled P -> (forall w, P w -> sb_of d s w) ->
  layers P (reads (parent d)) (fun p w => P w /\ sb_of p s w).
Proof.
  intros HP Hd. eapply only_post; [apply only_reads|]. intros p w [Hb _] [Hp Hr].
  split; [done|]. destruct (Hd w Hp) as (x & Hx & <-). unfold parent in Hr.
  rewrite Hx in Hr. injection Hr as <-. simpl. destruct (d_parent x) as [q|] eqn:E; simpl.
  - by eapply base_parent.
  - by exists x.
Qed.

(** *** A dentry comes to name an inode *)
Lemma inodes_untouched i w : set_inodes (alter (fun m : Inode => m) i (w_inodes w)) w = w.
Proof.
  destruct w. unfold set_inodes. simpl. f_equal. apply map_eq. intros j.
  destruct (decide (i = j)) as [->|Hne]; [rewrite lookup_alter_eq | by rewrite lookup_alter_ne].
  by destruct (_ !! j).
Qed.

Lemma sound_outside w w' : sound w -> base House w' -> outside w w' -> sound w' /\ moves w w'.
Proof.
  intros [Hb Hk] Hb' Ho. split; [split; [done|] | by apply outside_moves].
  eapply shelter_keeps; [exact Hb | exact Ho | exact Hk].
Qed.

Lemma layers___instantiate P d i s :
  enduring P -> (forall w, P w -> sb_of d s w /\ answers_for House s i w) ->
  layers P (__instantiate d i) (fun _ w => P w /\ True).
Proof.
  intros HP Hpre. eapply only_post; [|by intros a w _ H; exact H].
  intros w r w' Hs Hp H. destruct (Hpre w Hp) as [(x & Hx & <-) (n & Hn & Hh)].
  unfold __instantiate, dentry_at, inode_at, asks, bind in H. rewrite Hx in H. simpl in H.
  destruct (d_inode x) eqn:Ei; simpl in H; [by injection H as <- <-|].
  rewrite Hn in H. simpl in H.
  assert (Hall : forall f, (forall m, i_ops (f m) = i_ops m /\ (i_dentry (f m) = i_dentry m \/ i_dentry (f m) = Some d)) ->
    let w1 := set_dentries (alter (with_inode_field (Some i)) d (w_dentries w))
                (set_inodes (alter f i (w_inodes w)) w) in
    sound w1 /\ rtc moves w w1 /\ (forall a : unit, Ok (E:=FilesystemError) tt = Ok a -> P w1 /\ True)).
  { intros f Hf w1. destruct (base_attach House d x i n w (proj1 Hs) Hx Ei Hn Hh f Hf) as [Hb1 Ho].
    destruct (sound_outside w w1 Hs Hb1 Ho) as [Hs1 Hm]. split_and!; [done | by apply rtc_once |].
    intros _ _. split; [by eapply HP | done]. }
  unfold on_inode, on_dentry, modify, ret in H.
  destruct (bool_decide _); simpl in H; injection H as <- <-.
  - apply (Hall (with_alias (Some d))). intros m. by split; [|right].
  - assert (Hid := Hall (fun m => m)). rewrite inodes_untouched in Hid. apply Hid.
    intros m. by split; [|left].
Qed.

Lemma layers_add P d i s :
  enduring P -> (forall w, P w -> sb_of d s w /\ answers_for House s i w) ->
  layers P (add d (Some i)) (fun _ => P).
Proof.
  intros HP Hpre. unfold add, add_hashed.
  eapply only_bind; [by apply (layers___instantiate P d i s) | intros []].
  eapply only_pre with (P' := P); [by intros w _ []|].
  apply layers_steady; [by apply settled_enduring | auto with vfs].
Qed.

(** An inode a lookup answers: it answers as the instance's do, and an alias of
    it stands in the instance. *)
Definition found_in (s : sbid) (i : iid) w : Prop := answers_for House s i w /\ own s i w.
Definition answer_in (s : sbid) (f : Lookup) w : Prop :=
  match f with Found i | Spelled _ i => found_in s i w | Absent => True end.

Lemma settled_found s i : settled (found_in s i).
Proof. apply settled_and; [apply settled_enduring, enduring_answers | apply settled_own]. Qed.

Lemma layers_find_alias P i d s :
  enduring P -> (forall w, P w -> sb_of d s w) ->
  layers (fun w => P w /\ found_in s i w) (find_alias_or_add i d)
    (fun x w => P w /\ forall a, x = Some a -> sb_of a s w).
Proof.
  intros HP Hd. unfold find_alias_or_add.
  set (F := fun n w => (P w /\ answers_for House s i w) /\ forall a, i_dentry n = Some a -> sb_of a s w).
  assert (HF : forall n, enduring (F n)).
  { intros n. apply enduring_and; [apply enduring_and; [done | apply enduring_answers]|].
    apply enduring_all. intros a. apply enduring_imp, enduring_sb. }
  eapply only_bind with (Q := F).
  { eapply only_post; [apply only_asks|]. intros n w [Hb _] [[Hp [Ha Ho]] Hn]. split; [done|].
    intros a Hna. destruct (base_alias _ _ Hb i n a Hn Hna) as (x & Hx & _). exists x.
    split; [done | by eapply Ho]. }
  intros n. apply layers_next; [by apply settled_enduring | apply steady_upgrade | intros strong].
  cbv zeta.
  assert (Hadd : layers (F n) (__instantiate d i ;;! rehash d ;;! ret None)
    (fun x w => P w /\ forall a, x = Some a -> sb_of a s w)).
  { eapply only_bind; [apply (layers___instantiate (F n) d i s); [done|] | intros []].
    - intros w [[Hp Ha] _]. split; [by apply Hd | done].
    - eapply only_pre with (P' := F n); [by intros w _ []|].
      apply layers_next; [by apply settled_enduring | auto with vfs | intros []].
      apply only_ret. by intros w _ [[? _] _]. }
  destruct (i_dentry n) as [a|] eqn:Ea; [|exact Hadd].
  destruct (strong a && negb (a =? d)%nat); [|exact Hadd].
  apply only_ret. intros w _ [[? _] Hn]. split; [done|].
  intros b [= <-]. by apply Hn.
Qed.

(** *** Moves *)
Lemma layers_stand_at P s a p n :
  enduring P -> (forall w, P w -> sb_of a s w /\ sb_of p s w) ->
  layers P (stand_at s a p n) (fun _ => P).
Proof.
  intros HP Hpre w r w' Hs Hp. destruct (Hpre w Hp) as [(x & Hx & Esb) Hpar].
  unfold stand_at, dentry_at, asks, reads, parent_and_name, bind.
  rewrite Hx. simpl. rewrite Hx. simpl. intros [= <- <-].
  set (w0 := set_tick (S (w_tick w)) w).
  match goal with |- context [alter ?f s (w_sbs w)] => set (g := f) end.
  set (w1 := set_sbs (alter g s (w_sbs w0)) w0).
  set (w2 := set_dentries _ _).
  assert (Hst : steady House w w2).
  { transitivity w0; [by apply steady_same|]. transitivity w1.
    - apply steady_sb. intros sb d Hsb (k & [Hk|Hk]); subst g; simpl in Hk.
      + apply inserted in Hk as [->|Hk]; [right; by exists x|]. left. exists k. left.
        case_match; [|done]. simpl in Hk. by apply lookup_delete_Some in Hk as [_ Hk].
      + left. exists k. by right.
    - apply (steady_dentry House (fun x => with_place (Some p) n (with_hashed true x)) a w1).
      intros y Hy. split_and!; [done..|]. intros _ q [= <-].
      pose proof (eq_trans (eq_sym Hx) Hy) as [= <-]. simpl. rewrite Esb.
      destruct Hpar as (z & Hz & Ez). by exists z. }
  destruct (steady_sound w w2 Hst Hs) as [Hs2 Hq].
  split_and!; [done | by apply rtc_once, outside_moves, Hq |].
  intros _ _. eapply HP; [apply outside_moves, Hq | done].
Qed.

Lemma layers_rename_write {A} P (k : M A) Q :
  settled P -> (forall a, settled (Q a)) -> layers P k Q -> layers P (rename_write k) Q.
Proof.
  intros HP HQ Hk. unfold rename_write. cbv zeta.
  assert (Hbump : framed (steady House)
    (modify (fun w => set_rename_lock (Seqlock.fetch_add_one (w_rename_lock w)) w))).
  { apply framed_modify. intros w. by apply steady_same. }
  apply layers_next; [done | exact Hbump | intros []].
  eapply only_bind; [by apply only_attempt | intros x].
  apply layers_next; [| exact Hbump | intros []].
  - intros w w' Hb Hq Hx a Ea. eapply HQ; eauto.
  - apply only_lift. eauto.
Qed.

(** *** Names looked up *)
Lemma layers_ask_in_lookup {A} P d (ask : M A) Q :
  settled P -> (forall a, settled (Q a)) -> layers P ask Q ->
  layers P (ask_in_lookup d ask) (fun x w => match x with Some a => Q a w | None => P w end).
Proof.
  intros HP HQ Hask. unfold ask_in_lookup.
  apply layers_next; [done | auto with vfs | intros []].
  - by apply only_ret.
  - eapply only_bind; [by apply only_attempt | intros x].
    apply layers_next; [| auto with vfs | intros []].
    + intros w w' Hb Hq Hx a E. eapply HQ; eauto.
    + eapply only_bind; [by apply only_lift; intros a w _ Hx E; apply (Hx a E) | intros a].
      by apply only_ret.
  - eapply only_bind; [exact Hask | intros a]. by apply only_ret.
Qed.

Lemma settled_all {X} (P : X -> world -> Prop) :
  (forall x, settled (P x)) -> settled (fun w => forall x, P x w).
Proof. intros HP w w' Hb Hm H x. by apply (HP x w w' Hb Hm), H. Qed.
Lemma settled_imp (F : Prop) P : settled P -> settled (fun w => F -> P w).
Proof. intros HP w w' Hb Hm H HF. by apply (HP w w' Hb Hm), H. Qed.
Lemma settled_sb d s : settled (sb_of d s).
Proof. apply settled_enduring, enduring_sb. Qed.
#[local] Hint Resolve settled_and settled_all settled_imp settled_sb settled_found : lasts.

(** A new name, as a walk puts it among those looked up. *)
Lemma layers_allocated P s p n ops (strong : did -> bool) :
  settled P -> (forall w, P w -> sb_of p s w) ->
  layers P
    (let! made := dentry_new (Some p) n ops s in
     let! current := asks (fun w => Some (w_current w)) in
     on_dentry made (with_asked (Allocated current)) ;;!
     on_sb s (fun sb =>
       with_in_lookup (Hashtable.insert_entry strong (p, n) made (s_in_lookup sb)) sb) ;;!
     ret made)
    (fun d w => P w /\ sb_of d s w).
Proof.
  intros HP Hpre w r w' Hs Hp. unfold dentry_new, new_dentry, asks, on_dentry, on_sb, modify, bind, ret.
  simpl. intros [= <- <-].
  set (x := MkDentry _ (Some p) n None Unasked false s ops).
  set (w1 := set_next (S (w_next w)) (set_dentries (<[w_next w := x]> (w_dentries w)) w)).
  set (w2 := set_dentries (alter (with_asked (Allocated (w_current w))) (w_next w) (w_dentries w1)) w1).
  assert (Hmade : sb_of (w_next w) s w2).
  { exists (with_asked (Allocated (w_current w)) x). split; [|done]. simpl.
    by rewrite lookup_alter_eq, lookup_insert_eq. }
  match goal with |- context [alter ?f s (w_sbs w)] => set (g := f) end.
  set (w3 := set_sbs (alter g s (w_sbs w2)) w2).
  assert (Hst : steady House w w3).
  { transitivity w1; [|transitivity w2; [apply steady_asked|]].
    - apply steady_new_dentry; [done|]. intros q [= <-]. by apply Hpre.
    - apply (steady_sb House g s w2). intros sb d Hsb (k & [Hk|Hk]); subst g; simpl in Hk.
      + left. exists k. by left.
      + apply inserted in Hk as [->|Hk]; [by right | left; exists k; by right]. }
  destruct (steady_sound w w3 Hst Hs) as [Hs3 Hq].
  split_and!; [exact Hs3 | by apply rtc_once, outside_moves, Hq |].
  intros d [= <-]. split; [eapply HP; [apply Hs | exact Hq | done]|]. exact Hmade.
Qed.

Lemma tables_get (strong : did -> bool) (k : Key) (v : did) sb s w :
  sound w -> w_sbs w !! s = Some sb ->
  (Hashtable.get strong k (s_hashtable sb) = Some v \/ Hashtable.get strong k (s_in_lookup sb) = Some v) ->
  sb_of v s w.
Proof.
  intros [Hb _] Hsb Hg. eapply base_tables; [exact Hb | exact Hsb|]. exists k.
  destruct Hg as [Hg|Hg]; apply table_get in Hg; auto.
Qed.

(** The tables of an instance read once hold its own names. *)
Definition its_own (s : sbid) (sb : SuperBlock) w : Prop :=
  forall strong k v, (Hashtable.get strong k (s_hashtable sb) = Some v
    \/ Hashtable.get strong k (s_in_lookup sb) = Some v) -> sb_of v s w.
Lemma settled_its_own s sb : settled (its_own s sb).
Proof. intros w w' Hb Hq Ho strong k v Hg. by eapply settled_sb, Ho. Qed.
#[local] Hint Resolve settled_its_own : lasts.

Lemma layers_sb_at P s :
  settled P -> layers P (sb_at s) (fun sb w => P w /\ its_own s sb w).
Proof.
  intros HP. eapply only_post; [apply only_asks|]. intros sb w Hs [Hp Hsb]. split; [done|].
  intros strong k v. by apply tables_get.
Qed.

Context `{LC : !LruCache} `{V : !VfsTables T}.

Lemma layers_alloc_parallel P s p n :
  settled P -> (forall w, P w -> sb_of p s w) ->
  layers P (alloc_parallel s p n) (fun d w => P w /\ sb_of d s w).
Proof.
  intros HP Hpre. unfold alloc_parallel. generalize TURNS as turns. intros turns.
  induction turns as [|turns IH]; [apply only_panic|]. cbn [alloc_parallel_turns].
  eapply only_bind; [by apply layers_sb_at | intros sb].
  set (F := fun w => P w /\ its_own s sb w).
  assert (HF : settled F) by (subst F; auto 8 with lasts).
  apply layers_next; [done | apply steady_upgrade | intros strong].
  destruct (Hashtable.get strong (p, n) (s_hashtable sb)) as [found|] eqn:Hfound.
  { apply only_ret. intros w _ [Hp Ht]. split; [done|]. by apply (Ht strong (p, n)); left. }
  apply layers_next; [done | apply steady_upgrade | intros strong'].
  destruct (Hashtable.get strong' (p, n) (s_in_lookup sb)) as [waited|] eqn:Hwaited.
  - assert (Hw : forall w, F w -> P w /\ sb_of waited s w).
    { intros w [Hp Ht]. split; [done|]. by apply (Ht strong' (p, n)); right. }
    apply layers_next; [done | auto with vfs | intros [|]]; [apply only_ret; auto|].
    apply layers_next; [done | auto with vfs | intros called].
    apply layers_next; [done | auto with vfs | intros h].
    case_match; [apply only_ret; auto|]. eapply only_pre; [|exact IH]. by intros w _ [? _].
  - eapply only_pre; [|by apply layers_allocated]. by intros w _ [? _].
Qed.

Lemma layers_unalias P s s' d a :
  enduring P -> (forall w, P w -> sb_of d s w /\ sb_of a s w) -> layers P (unalias s' d a) (fun _ => P).
Proof.
  intros HP Hpre. unfold unalias.
  eapply only_bind; [apply layers_parent_and_name with (s := s);
    [by apply settled_enduring | intros w Hp; by apply Hpre] | intros [p n]]. cbn [fst snd].
  assert (HP' : enduring (fun w => P w /\ sb_of p s w)) by (apply enduring_and; [done | apply enduring_sb]).
  eapply only_bind with (Q := fun x w => d_sb x = s /\ (P w /\ sb_of p s w)).
  { eapply only_post; [apply only_asks|]. intros x w _ [Hf Hx]. split; [|done].
    destruct (Hpre w (proj1 Hf)) as [(y & Hy & <-) _].
    by pose proof (eq_trans (eq_sym Hx) Hy) as [= ->]. }
  intros x. apply only_pure. intros ->.
  set (F := fun w => P w /\ sb_of p s w) in *.
  assert (Hmove : layers F (stand_at s a p n) (fun _ => F)).
  { apply layers_stand_at; [done|]. intros w [Hp ?]. split; [by apply Hpre | done]. }
  assert (HF := settled_enduring F HP').
  eapply only_post with (Q' := fun _ => F); [|by intros u w _ []].
  apply layers_rename_write; [done..|].
  apply layers_next; [done | auto with vfs | intros beneath].
  apply layers_next; [done | auto with vfs | intros root].
  case_match; [apply only_fail|].
  apply layers_next; [done | auto with vfs | intros old].
  case_match; [done|].
  apply layers_next; [done | auto with vfs | intros [rename|]]; [|apply only_fail].
  apply layers_next; [done | auto with vfs | intros [i|]]; [|apply only_panic].
  apply layers_next; [done | auto with vfs | intros [dir|]].
  - by apply layers_holding.
  - apply layers_next; [done | auto with vfs | intros []]. apply only_fail.
Qed.

Lemma layers_splice_found P s s' d i :
  enduring P -> (forall w, P w -> sb_of d s w) ->
  layers (fun w => P w /\ found_in s i w) (splice_found s' d i)
    (fun x w => P w /\ forall a, x = Some a -> sb_of a s w).
Proof.
  intros HP Hd. unfold splice_found. eapply only_bind; [by apply layers_find_alias | intros [a|]].
  - eapply only_pre with (P' := fun w => P w /\ sb_of a s w).
    { intros w _ [Hp Ha]. split; [done | by apply Ha]. }
    eapply only_bind; [apply (layers_unalias (fun w => P w /\ sb_of a s w) s) | intros []].
    + apply enduring_and; [done | apply enduring_sb].
    + intros w [Hp Ha]. split; [by apply Hd | done].
    + apply only_ret. intros w _ [Hp Ha]. split; [done|]. by intros b [= <-].
  - apply only_ret. intros w _ [Hp _]. by split.
Qed.

Lemma layers_add_ci P s d n i :
  enduring P -> (forall w, P w -> sb_of d s w) ->
  layers (fun w => P w /\ found_in s i w) (add_ci s d n i) (fun a w => P w /\ sb_of a s w).
Proof.
  intros HP Hd. unfold add_ci.
  assert (HF : settled (fun w => P w /\ found_in s i w)).
  { apply settled_and; [by apply settled_enduring | apply settled_found]. }
  eapply only_bind; [apply layers_parent with (s := s); [done|] | intros p].
  { intros w [Hp _]. by apply Hd. }
  eapply only_bind; [apply layers_alloc_parallel | intros found].
  { apply settled_and; [done | apply settled_sb]. }
  { by intros w [_ ?]. }
  set (G := fun w => P w /\ sb_of found s w).
  assert (HG : enduring G) by (apply enduring_and; [done | apply enduring_sb]).
  eapply only_pre with (P' := fun w => G w /\ found_in s i w); [by intros w _ [[[? ?] _] ?]|].
  eapply only_bind.
  { apply layers_ask_in_lookup with (Q := fun x w => G w /\ forall a, x = Some a -> sb_of a s w).
    - apply settled_and; [by apply settled_enduring | apply settled_found].
    - intros x. apply settled_enduring, enduring_and; [done|]. apply enduring_all. intros a.
      apply enduring_imp, enduring_sb.
    - apply layers_splice_found; [done | by intros w [_ ?]]. }
  intros [[a|]|]; apply only_ret.
  - intros w _ [[Hp _] Ha]. split; [done | by apply Ha].
  - by intros w _ [[? ?] _].
  - by intros w _ [[? ?] _].
Qed.

Lemma layers_splice_alias P s d f :
  enduring P -> (forall w, P w -> sb_of d s w) ->
  layers (fun w => P w /\ answer_in s f w) (splice_alias s d f)
    (fun x w => P w /\ forall a, x = Some a -> sb_of a s w).
Proof.
  intros HP Hd. destruct f as [i| |n i]; simpl.
  - by apply layers_splice_found.
  - eapply only_pre with (P' := P); [by intros w _ []|].
    apply layers_next; [by apply settled_enduring | auto with vfs | intros []]. by apply only_ret.
  - eapply only_bind; [by apply layers_add_ci | intros a]. apply only_ret.
    intros w _ [Hp Ha]. split; [done|]. by intros b [= <-].
Qed.

(** ** What a Layer promises the view it is shown in *)

(** Its reads change nothing of what is kept, and a lookup answers what is the
    instance's own. *)
Class LayerReads `{F : !FileTables T} : Prop := {
  reads_permission o d m : layers (fun _ => True) (op_permission o d m) whatever;
  reads_getattr o d : layers (fun _ => True) (op_getattr o d) whatever;
  reads_get_link o d : layers (fun _ => True) (op_get_link o d) whatever;
  reads_revalidate ops o d : layers (fun _ => True) (dop_revalidate ops o d) whatever;
  reads_open o d how : how_write how = false -> how_truncate how = false ->
    layers (fun _ => True) (op_open o d how) whatever;
  reads_lookup o d s :
    layers (fun w => sb_of d s w /\ House s o (w_fs w)) (op_lookup o d) (answer_in s);
  reads_iterate f d c : layers (fun _ => True) (fo_iterate_shared f d c) whatever;
  reads_read f iocb buf : layers (fun _ => True) (fo_read_iter f iocb buf) whatever;
  reads_fsync f b : layers (fun _ => True) (fo_fsync f b) whatever;
  reads_flush f : layers (fun _ => True) (fo_flush f) whatever;
}.

(** A computation any fact that lasts outlasts. *)
Definition gentle {A} (m : M A) : Prop := forall P, enduring P -> layers P m (fun _ => P).

Lemma gentle_of {A} (m : M A) : layers (fun _ => True) m whatever -> gentle m.
Proof.
  intros Hm P HP. eapply only_post; [apply layers_known with (P := fun _ => True); eauto|].
  by intros a w _ [? _].
Qed.
Lemma gentle_steady {A} (m : M A) : framed (steady House) m -> gentle m.
Proof. intros Hm P HP. apply layers_steady; [by apply settled_enduring | done]. Qed.
Lemma gentle_bind {A B} (m : M A) (k : A -> M B) :
  gentle m -> (forall a, gentle (k a)) -> gentle (bind m k).
Proof. intros Hm Hk P HP. eapply only_bind; [by apply Hm | intros a; by apply Hk]. Qed.
Lemma gentle_attempt {A} (m : M A) : gentle m -> gentle (attempt m).
Proof.
  intros Hm P HP w r w' Hs Hp H. unfold attempt in H.
  destruct (m w) as [[x w1]|] eqn:E; [|done]. injection H as <- <-.
  destruct (Hm P HP w x w1 Hs Hp E) as (Hs1 & Hr & _). split_and!; [done..|].
  intros a _. clear -HP Hr Hp. induction Hr; [done | eauto].
Qed.
Lemma gentle_fail {A} e : gentle (@fail _ A e).
Proof. intros P HP. apply only_fail. Qed.
Lemma gentle_panic {A} : gentle (@panic _ A).
Proof. intros P HP. apply only_panic. Qed.
Lemma gentle_holding {A} gs (m : M A) : gentle m -> gentle (holding gs m).
Proof.
  intros Hm. unfold holding. apply gentle_bind; [by apply gentle_attempt | intros r].
  apply gentle_bind; [apply gentle_steady; auto with vfs | intros []].
  apply gentle_steady. auto with vfs.
Qed.
Lemma gentle_keeping {A} gs (m : M A) : gentle m -> gentle (keeping gs m).
Proof.
  intros Hm. unfold keeping. apply gentle_bind; [by apply gentle_attempt | intros [a|e]].
  - apply gentle_steady. auto with vfs.
  - apply gentle_bind; [apply gentle_steady; auto with vfs | intros []]. apply gentle_fail.
Qed.

(** What is known lasts past a gentle step, and one that answers what it is asked. *)
Lemma layers_gently {A B} P (m : M A) (k : A -> M B) Q :
  enduring P -> gentle m -> (forall a, layers P (k a) Q) -> layers P (bind m k) Q.
Proof. intros HP Hm Hk. eapply only_bind; [by apply Hm | done]. Qed.
End Layers.
Arguments sound {T} House K w.
Arguments moves {T} R w w'.
Arguments enduring {T} R P.
Arguments settled {T} House P.
Arguments found_in {T} House s i w.
Arguments answer_in {T} House s f w.
Arguments gentle {T} House K R {A} m.
Arguments LayerReads {T} House K R {V F}.

Create HintDb gentle.
#[export] Hint Resolve gentle_fail gentle_panic : gentle.
Ltac gently_step :=
  match goal with
  | |- gentle _ _ _ (bind _ _) => apply gentle_bind; [| intros ?]
  | |- gentle _ _ _ (attempt _) => apply gentle_attempt
  | |- gentle _ _ _ (holding _ _) => apply gentle_holding
  | |- gentle _ _ _ (keeping _ _) => apply gentle_keeping
  | |- gentle _ _ _ (match ?x with _ => _ end) => destruct x
  | |- gentle _ _ _ _ => solve [eauto 4 with gentle | apply gentle_steady; auto with vfs]
  end.
Ltac gently := intros; repeat (cbv zeta; gently_step).

(** *** What a view reads of its Layers *)
Section Reads.
Context {T : FsTypes} `{LC : !LruCache} `{V : !VfsTables T} `{F : !FileTables T}.
Context {House : sbid -> InodeOps -> FsState -> Prop} {K : world -> Prop}.
Context {R : FsState -> FsState -> Prop} `{SH : !Sheltered House K R} `{LR : !LayerReads House K R}.
Implicit Types w : world.
Abbreviation layers := (only (sound House K) (moves R)).
Abbreviation enduring := (LayerFacts.enduring R).
Abbreviation settled := (LayerFacts.settled House).
Abbreviation gentle := (LayerFacts.gentle House K R).

Lemma gentle_permission o d m : gentle (op_permission o d m).
Proof. apply gentle_of, reads_permission. Qed.
Lemma gentle_op_getattr o d : gentle (op_getattr o d).
Proof. apply gentle_of, reads_getattr. Qed.
Lemma gentle_op_get_link o d : gentle (op_get_link o d).
Proof. apply gentle_of, reads_get_link. Qed.
Lemma gentle_revalidate ops o d : gentle (dop_revalidate ops o d).
Proof. apply gentle_of, reads_revalidate. Qed.
Lemma gentle_iterate f d c : gentle (fo_iterate_shared f d c).
Proof. apply gentle_of, reads_iterate. Qed.
Lemma gentle_read f iocb buf : gentle (fo_read_iter f iocb buf).
Proof. apply gentle_of, reads_read. Qed.
Lemma gentle_fsync f b : gentle (fo_fsync f b).
Proof. apply gentle_of, reads_fsync. Qed.
Lemma gentle_flush f : gentle (fo_flush f).
Proof. apply gentle_of, reads_flush. Qed.
#[local] Hint Resolve gentle_permission gentle_op_getattr gentle_op_get_link gentle_revalidate
  gentle_iterate gentle_read gentle_fsync gentle_flush : gentle.

Lemma gentle_getattr d : gentle (getattr d).
Proof. unfold getattr. gently. Qed.
Lemma gentle_get_link d : gentle (get_link d).
Proof. unfold get_link. gently. Qed.
Lemma gentle_open d how : how_write how = false -> how_truncate how = false -> gentle (open d how).
Proof.
  intros Hw Ht. unfold open. apply gentle_bind; [gently | intros o]. by apply gentle_of, reads_open.
Qed.
Lemma steady_invalidate s d : framed (steady House) (invalidate s d).
Proof. unfold invalidate. frames. Qed.
#[local] Hint Resolve steady_invalidate : vfs.
Lemma gentle_d_revalidate s p d : gentle (d_revalidate s p d).
Proof. unfold d_revalidate. gently. Qed.
Lemma steady_retain s d : framed (steady House) (retain s d).
Proof. unfold retain. frames. Qed.
Lemma steady_sb_permission s d mask : framed (steady House) (sb_permission s d mask).
Proof. unfold sb_permission. frames. Qed.
#[local] Hint Resolve gentle_d_revalidate : gentle.
#[local] Hint Resolve steady_retain steady_sb_permission : vfs.
Lemma gentle_inode_permission cred s d mask : gentle (inode_permission cred s d mask).
Proof. unfold inode_permission, security_inode_permission. gently. Qed.
#[local] Hint Resolve gentle_inode_permission : gentle.
Lemma gentle_lookup_one_common cred s p n : gentle (lookup_one_common cred s p n).
Proof. unfold lookup_one_common. gently. Qed.
Lemma gentle_may_create_dentry cred s dir d : gentle (may_create_dentry cred s dir d).
Proof. unfold may_create_dentry. gently. Qed.
Lemma gentle_may_delete_dentry cred s dir v b : gentle (may_delete_dentry cred s dir v b).
Proof. unfold may_delete_dentry. gently. Qed.
#[local] Hint Resolve gentle_may_create_dentry gentle_may_delete_dentry gentle_lookup_one_common : gentle.
Lemma gentle_may_rename cred s rd a b : gentle (may_rename cred s rd a b).
Proof. unfold may_rename. gently. Qed.

(** *** Lookups *)
Lemma layers_op_lookup P o d s :
  enduring P -> (forall w, P w -> sb_of d s w /\ House s o (w_fs w)) ->
  layers P (op_lookup o d) (fun f w => P w /\ answer_in House s f w).
Proof. intros HP Hpre. eapply layers_known; [done | exact Hpre | apply reads_lookup]. Qed.

Lemma layers_lookup_inode P s p d :
  enduring P -> (forall w, P w -> sb_of p s w /\ sb_of d s w) ->
  layers P (lookup_inode s p d) (fun x w => P w /\ forall a, x = Some a -> sb_of a s w).
Proof.
  intros HP Hpre. unfold lookup_inode.
  eapply only_bind.
  { apply layers_ask_in_lookup with (Q := fun x w => P w /\ forall a, x = Some a -> sb_of a s w).
    - by apply settled_enduring.
    - intros x. apply settled_enduring, enduring_and; [done|]. apply enduring_all. intros a.
      apply enduring_imp, enduring_sb.
    - eapply only_bind; [apply (layers_inode_ops P p s) | intros o].
      { by apply settled_enduring. } { intros w Hp. by apply Hpre. }
      eapply only_bind; [apply (layers_op_lookup (fun w => P w /\ House s o (w_fs w)) o d s) | intros f].
      { apply enduring_and; [done | apply enduring_house]. } { intros w [Hp ?]. split; [by apply Hpre | done]. }
      eapply only_pre; [|apply (layers_splice_alias P); [done|]].
      + by intros w _ [[? _] ?].
      + intros w Hp. by apply Hpre. }
  intros [x|]; apply only_ret; [done|]. intros w _ Hp. by split.
Qed.

Lemma layers_d_alloc_parallel P s p n :
  enduring P -> (forall w, P w -> sb_of p s w) ->
  layers P (d_alloc_parallel s p n) (fun d w => P w /\ sb_of d s w).
Proof.
  intros HP Hpre. unfold d_alloc_parallel. generalize TURNS as turns. intros turns.
  induction turns as [|turns IH]; [apply only_panic|]. simpl.
  eapply only_bind; [apply layers_alloc_parallel; [by apply settled_enduring | done] | intros d].
  assert (HF : enduring (fun w => P w /\ sb_of d s w)) by (apply enduring_and; [done | apply enduring_sb]).
  apply layers_gently; [done | gently | intros asking].
  apply layers_gently; [done | gently | intros [|]]; [by apply only_ret|].
  eapply only_pre; [|exact IH]. by intros w _ [].
Qed.

Lemma layers___lookup_slow P s p n :
  enduring P -> (forall w, P w -> sb_of p s w) ->
  layers P (__lookup_slow s p n) (fun d w => P w /\ sb_of d s w).
Proof.
  intros HP Hpre. unfold __lookup_slow.
  apply layers_gently; [done | gently | intros [|]]; [apply only_fail|].
  eapply only_bind; [by apply layers_d_alloc_parallel | intros given].
  eapply only_bind; [apply (layers_lookup_inode (fun w => P w /\ sb_of given s w)) | intros x].
  { apply enduring_and; [done | apply enduring_sb]. } { intros w [Hp ?]. split; [by apply Hpre | done]. }
  cbv zeta. apply layers_next; [| auto with vfs | intros []].
  { apply settled_enduring, enduring_and; [apply enduring_and; [done | apply enduring_sb]|].
    apply enduring_all. intros a. apply enduring_imp, enduring_sb. }
  apply only_ret. intros w _ [[Hp Hg] Ha]. split; [done|]. destruct x as [a|]; [by apply Ha | done].
Qed.

Lemma layers_lookup_fast P s p n :
  enduring P -> layers P (lookup_fast s p n) (fun x w => P w /\ forall d, x = Some d -> sb_of d s w).
Proof.
  intros HP. unfold lookup_fast, dcache_lookup.
  assert (Hx : forall x : option did, enduring (fun w => P w /\ forall d, x = Some d -> sb_of d s w)).
  { intros x. apply enduring_and; [done|]. apply enduring_all. intros d. apply enduring_imp, enduring_sb. }
  eapply only_bind with (Q := fun x w => P w /\ forall d, x = Some d -> sb_of d s w).
  { eapply only_bind; [apply layers_sb_at; by apply settled_enduring | intros sb].
    apply layers_next; [| apply steady_upgrade | intros strong].
    { apply settled_and; [by apply settled_enduring | apply settled_its_own]. }
    apply only_ret. intros w _ [Hp Ho]. split; [done|]. intros d Hd. by apply (Ho strong (p, n)); left. }
  intros [d|]; [|by apply only_ret].
  apply layers_gently; [done | gently | intros [|]]; simpl.
  - apply layers_gently; [done | gently | intros []]. by apply only_ret.
  - apply only_ret. by intros w _ [? _].
Qed.

Lemma layers_lookup_dentry P s p n :
  enduring P -> (forall w, P w -> sb_of p s w) ->
  layers P (lookup_dentry s p n) (fun d w => P w /\ sb_of d s w).
Proof.
  intros HP Hpre. unfold lookup_dentry. eapply only_bind; [by apply layers_lookup_fast | intros [d|]].
  - apply only_ret. intros w _ [Hp Hd]. split; [done | by apply Hd].
  - eapply only_pre with (P' := P); [by intros w _ []|]. unfold lookup_slow.
    apply layers_gently; [done | gently | intros held].
    apply layers_holding; [|by apply layers___lookup_slow].
    intros d. apply settled_enduring, enduring_and; [done | apply enduring_sb].
Qed.

Lemma layers_lookup_one_unlocked P cred s p n :
  enduring P -> (forall w, P w -> sb_of p s w) ->
  layers P (lookup_one_unlocked cred s p n) (fun d w => P w /\ sb_of d s w).
Proof.
  intros HP Hpre. unfold lookup_one_unlocked. apply layers_gently; [done | gently | intros []].
  by apply layers_lookup_dentry.
Qed.

Lemma layers_start_creating P cred s p n :
  enduring P -> (forall w, P w -> sb_of p s w) ->
  layers P (start_creating cred s p n) (fun x w => P w /\ sb_of x.2 s w).
Proof.
  intros HP Hpre. unfold start_creating. apply layers_gently; [done | gently | intros []].
  apply layers_gently; [done | gently | intros held]. apply layers_keeping.
  eapply only_bind; [by apply layers___lookup_slow | intros d]. by apply only_ret.
Qed.

Lemma layers_start_removing P cred s p n :
  enduring P -> (forall w, P w -> sb_of p s w) ->
  layers P (start_removing cred s p n) (fun x w => P w /\ sb_of x.2 s w).
Proof.
  intros HP Hpre. unfold start_removing.
  eapply only_bind; [by apply layers_start_creating | intros [held d]]. cbn [snd].
  apply layers_keeping. apply layers_gently; [| gently | intros i].
  - apply enduring_and; [done | apply enduring_sb].
  - by apply only_ret.
Qed.

(** *** Moves of an upper's names *)
Lemma layers_move_dentry P s d target :
  enduring P -> (forall w, P w -> sb_of d s w /\ sb_of target s w) ->
  layers P (move_dentry s d target) (fun _ => P).
Proof.
  intros HP Hpre. unfold move_dentry. apply layers_gently; [done | gently | intros []].
  eapply only_bind; [apply layers_parent_and_name with (s := s) | intros [p n]].
  { by apply settled_enduring. } { intros w Hp. by apply Hpre. }
  cbn [fst snd]. assert (HF : enduring (fun w => P w /\ sb_of p s w)).
  { apply enduring_and; [done | apply enduring_sb]. }
  eapply only_post with (Q' := fun _ w => P w /\ sb_of p s w); [|by intros u w _ []].
  apply layers_rename_write; [by apply settled_enduring | intros u; by apply settled_enduring |].
  apply layers_stand_at; [done|]. intros w [Hp ?]. split; [by apply Hpre | done].
Qed.

Lemma layers_exchange P s a b :
  enduring P -> (forall w, P w -> sb_of a s w /\ sb_of b s w) ->
  layers P (Dcache.exchange s a b) (fun _ => P).
Proof.
  intros HP Hpre. unfold Dcache.exchange. assert (HS := settled_enduring P HP).
  apply layers_next; [done | auto with vfs | intros first_at].
  apply layers_next; [done | auto with vfs | intros second_at].
  apply layers_rename_write; [done..|].
  set (G := fun (one other : Dentry) w => P w
    /\ (forall p, d_parent one = Some p -> sb_of p s w) /\ (forall p, d_parent other = Some p -> sb_of p s w)).
  assert (Hp : forall (x : Dentry), enduring (fun w => forall p, d_parent x = Some p -> sb_of p s w)).
  { intros x. apply enduring_all. intros p. apply enduring_imp, enduring_sb. }
  assert (HG : forall one other, enduring (G one other)) by (intros; repeat apply enduring_and; auto).
  assert (Hread : forall (S : world -> Prop) d, enduring S -> (forall w, S w -> sb_of d s w) ->
    layers S (dentry_at d) (fun x w => S w /\ forall p, d_parent x = Some p -> sb_of p s w)).
  { intros S d HSe Hd. eapply only_post; [apply only_asks|]. intros x w [Hb _] [Hw Hx]. split; [done|].
    destruct (Hd w Hw) as (y & Hy & <-). pose proof (eq_trans (eq_sym Hx) Hy) as [= ->].
    intros p Hpar. by eapply base_parent. }
  eapply only_bind; [apply (Hread P a HP); intros w Hw; by apply Hpre | intros one].
  eapply only_bind; [apply (Hread _ b) | intros other].
  { apply enduring_and; auto. } { intros w [Hw _]. by apply Hpre. }
  apply only_pre with (P' := G one other); [by intros w _ [[? ?] ?]|].
  apply layers_next; [by apply settled_enduring | apply steady_upgrade | intros strong].
  assert (Hplace : forall d p n, (d = a \/ d = b) -> p = d_parent one \/ p = d_parent other ->
    layers (G one other) (on_dentry d (fun x => with_place p n (with_hashed true x))) (fun _ => G one other)).
  { intros d p n Hd Hpar w r w' Hs HGw [= <- <-].
    assert (Hst : steady House w (set_dentries (alter (fun x => with_place p n (with_hashed true x)) d (w_dentries w)) w)).
    { apply steady_dentry. intros x Hx. split_and!; [done..|]. intros _ q Hq. simpl in Hq.
      assert (Esb : d_sb x = s).
      { destruct (Hpre w (proj1 HGw)) as [(y & Hy & <-) (z & Hz & Ez)].
        destruct Hd as [-> | ->]; [by pose proof (eq_trans (eq_sym Hx) Hy) as [= ->]
          | by pose proof (eq_trans (eq_sym Hx) Hz) as [= ->]]. }
      rewrite Esb. destruct HGw as (_ & H1 & H2). destruct Hpar as [-> | ->]; auto. }
    destruct (steady_sound _ _ Hst Hs) as [Hs' Hq].
    split_and!; [done | by apply rtc_once, outside_moves, Hq |].
    intros _ _. eapply HG; [apply outside_moves, Hq | done]. }
  eapply only_bind with (Q := fun _ => G one other); [|intros []].
  - intros w r w' Hs HGw [= <- <-].
    match goal with |- context [set_sbs (alter ?f s (w_sbs w)) w] => set (g := f) end.
    assert (Hst : steady House w (set_sbs (alter g s (w_sbs w)) w)).
    { apply (steady_sb House g s w). intros sb d Hsb (k & [Hk|Hk]); subst g;
        cbn [with_hashtable s_hashtable s_in_lookup] in Hk; cbv zeta beta in Hk;
        [|left; exists k; by right].
      apply inserted in Hk as [->|Hk]; [right; by apply Hpre, HGw|].
      apply inserted in Hk as [->|Hk]; [right; by apply Hpre, HGw|].
      left. exists k. left. destruct (d_hashed one), (d_hashed other); simpl in Hk;
        rewrite ?lookup_delete_Some in Hk; tauto. }
    destruct (steady_sound _ _ Hst Hs) as [Hs' Hq].
    split_and!; [done | by apply rtc_once, outside_moves, Hq |].
    intros _ _. eapply HG; [apply outside_moves, Hq | done].
  - eapply only_bind; [apply Hplace; auto | intros []].
    eapply only_post; [apply Hplace; auto|]. by intros u w _ [? _].
Qed.

(** What a rename holds stands in one instance. *)
Definition renames_in (s : sbid) (rd : RenameData) w : Prop :=
  sb_of (rd_old_parent rd) s w /\ sb_of (rd_old_dentry rd) s w
  /\ sb_of (rd_new_parent rd) s w /\ sb_of (rd_new_dentry rd) s w.

Lemma enduring_renames s rd : enduring (renames_in s rd).
Proof. unfold renames_in. repeat apply enduring_and; apply enduring_sb. Qed.

Lemma steady_lock_rename s a b : framed (steady House) (lock_rename s a b).
Proof. unfold lock_rename. frames. Qed.
Lemma steady_lock_each l : framed (steady House) (lock_each l).
Proof. induction l; simpl; frames. Qed.
#[local] Hint Resolve steady_lock_rename steady_lock_each : vfs.
Lemma steady_lock_moved a ad b bd sd f : framed (steady House) (lock_moved a ad b bd sd f).
Proof. unfold lock_moved, lock_two_nondirectories. frames. Qed.
#[local] Hint Resolve steady_lock_moved : vfs.

Lemma layers___start_renaming P s a an b bn flag :
  enduring P -> (forall w, P w -> sb_of a s w /\ sb_of b s w) ->
  layers P (__start_renaming s a an b bn flag) (fun rd w => P w /\ renames_in s rd w).
Proof.
  intros HP Hpre. unfold __start_renaming, lookup_one_qstr_excl.
  apply layers_gently; [done | gently | intros held]. apply layers_keeping.
  eapply only_bind; [apply layers___lookup_slow; [done|]; intros w Hp; by apply Hpre | intros old].
  assert (H1 : enduring (fun w => P w /\ sb_of old s w)) by (apply enduring_and; [done | apply enduring_sb]).
  apply layers_gently; [done | gently | intros k].
  eapply only_bind; [apply layers___lookup_slow; [done|]; intros w [Hp _]; by apply Hpre | intros new].
  assert (H2 : enduring (fun w => (P w /\ sb_of old s w) /\ sb_of new s w)).
  { apply enduring_and; [done | apply enduring_sb]. }
  apply layers_gently; [done | gently | intros i].
  assert (Hend : layers (fun w => (P w /\ sb_of old s w) /\ sb_of new s w)
    (let! above := reads (is_subdir b old) in
      if above : bool then fail InvalidInput
      else
        let! beneath := reads (is_subdir a new) in
        if beneath : bool then
          fail (match flag with Some Exchange => InvalidInput | _ => DirectoryNotEmpty end)
        else ret (MkRenameData held a old b new flag)) (fun rd w => P w /\ renames_in s rd w)).
  { apply layers_gently; [done | gently | intros above]. case_match; [apply only_fail|].
    apply layers_gently; [done | gently | intros beneath]. case_match; [apply only_fail|].
    apply only_ret. intros w _ [[Hp ?] ?]. destruct (Hpre w Hp). by repeat split. }
  repeat case_match; first [apply only_fail | exact Hend].
Qed.

(** Its changes, of a Layer that is an upper: each leaves what is kept where what
    it is asked of is the upper's own.  [ours] are the upper's files, and
    [writes] its files open to write. *)
Class UpperChanges `{HT : !TmpfsIn T} (up : sbid) (ours : fileid -> FsState -> Prop)
    (writes : FileOps -> FsState -> Prop) : Prop := {
  ours_lasts f x x' : R x x' -> ours f x -> ours f x';
  writes_last f x x' : R x x' -> writes f x -> writes f x';
  changes_setattr o d a : layers (fun w => sb_of d up w /\ House up o (w_fs w)) (op_setattr o d a) whatever;
  changes_create o d : layers (fun w => sb_of d up w /\ House up o (w_fs w)) (op_create o d) whatever;
  changes_mkdir o d : layers (fun w => sb_of d up w /\ House up o (w_fs w)) (op_mkdir o d) whatever;
  changes_rmdir o d : layers (fun w => sb_of d up w /\ House up o (w_fs w)) (op_rmdir o d) whatever;
  changes_unlink o d : layers (fun w => sb_of d up w /\ House up o (w_fs w)) (op_unlink o d) whatever;
  changes_rename o d o' d' flag :
    layers (fun w => (sb_of d up w /\ House up o (w_fs w)) /\ sb_of d' up w /\ House up o' (w_fs w))
      (op_rename o d o' d' flag) whatever;
  changes_open o d how :
    layers (fun w => sb_of d up w /\ House up o (w_fs w)) (op_open o d how) (fun f w => writes f (w_fs w));
  changes_whiteout o t dir n : tm_downcast o = Some (TmpfsDirectory t dir) ->
    layers (fun w => House up o (w_fs w)) (whiteout t dir n) whatever;
  changes_setxattr o t dir n v : tm_downcast o = Some (TmpfsDirectory t dir) ->
    layers (fun w => House up o (w_fs w)) (setxattr dir n v) whatever;
  changes_tmpfile o t dir : tm_downcast o = Some (TmpfsDirectory t dir) ->
    layers (fun w => House up o (w_fs w)) (tmpfile t) (fun f w => ours f (w_fs w));
  changes_link o t dir f n : tm_downcast o = Some (TmpfsDirectory t dir) ->
    layers (fun w => House up o (w_fs w) /\ ours f (w_fs w)) (tmpfile_link dir f n) whatever;
  changes_found o t dir d : tm_downcast o = Some (TmpfsDirectory t dir) ->
    layers (fun w => sb_of d up w /\ House up o (w_fs w)) (tmpfs_lookup t dir d) (answer_in House up);
  changes_write f iocb buf : layers (fun w => ours f (w_fs w)) (file_write_iter f iocb buf) whatever;
  changes_times f a : layers (fun w => ours f (w_fs w)) (regular_apply_times f a) whatever;
  changes_write_iter f iocb buf : layers (fun w => writes f (w_fs w)) (fo_write_iter f iocb buf) whatever;
  changes_fallocate f offset n : layers (fun w => writes f (w_fs w)) (fo_fallocate f offset n) whatever;
}.

Section Upper.
Context `{HT : !TmpfsIn T} (up : sbid) (ours : fileid -> FsState -> Prop).
Context (writes : FileOps -> FsState -> Prop) `{UC : !UpperChanges up ours writes}.

Lemma enduring_ours f : enduring (fun w => ours f (w_fs w)).
Proof. intros w w' [Hr _]. by eapply ours_lasts. Qed.
Lemma enduring_writes f : enduring (fun w => writes f (w_fs w)).
Proof. intros w w' [Hr _]. by eapply writes_last. Qed.

(** A step that asks of what is known, leaving that as it was. *)
Lemma layers_asked {A} P Q (m : M A) :
  enduring P -> (forall w, P w -> Q w) -> layers Q m whatever -> layers P m (fun _ => P).
Proof.
  intros HP HQ Hm. eapply only_post; [by apply layers_known with (P := Q)|]. by intros a w _ [? _].
Qed.

Lemma layers_notify_change P d a :
  enduring P -> (forall w, P w -> sb_of d up w) -> layers P (notify_change d a) (fun _ => P).
Proof.
  intros HP Hpre. unfold notify_change.
  eapply only_bind; [by apply layers_inode, settled_enduring | intros [i|]]; [|apply only_panic].
  apply only_pre with (P' := fun w => P w /\ names_inode d i w).
  { intros w _ [Hp Hi]. split; [done | by apply Hi]. }
  assert (HF : enduring (fun w => P w /\ names_inode d i w)) by (apply enduring_and; [done | apply enduring_names]).
  apply layers_gently; [done | gently | intros t].
  eapply only_bind with (Q := fun x w => P w /\ House up (i_ops x) (w_fs w)).
  { eapply only_post; [apply only_asks|]. intros x w Hs [[Hp Hi] Hx]. split; [done|].
    destruct (named_answers d up i w Hs (Hpre w Hp) Hi) as (n & Hn & Hh).
    by pose proof (eq_trans (eq_sym Hx) Hn) as [= ->]. }
  intros x. assert (HG : enduring (fun w => P w /\ House up (i_ops x) (w_fs w))).
  { apply enduring_and; [done | apply enduring_house]. }
  apply layers_gently; [done | gently | intros []].
  eapply only_post; [eapply layers_asked; [exact HG | | apply changes_setattr]|].
  - intros w [Hp ?]. split; [by apply Hpre | done].
  - by intros u w _ [? _].
Qed.

(** The changes of a directory: what they check, and what they hand it. *)
Lemma layers_dispatch {A} P dir ev (k : InodeOps -> M A) Q :
  enduring P -> (forall w, P w -> sb_of dir up w) ->
  (forall o, layers (fun w => P w /\ House up o (w_fs w)) (k o) Q) ->
  layers P (let! o := inode_ops dir in emit ev ;;! k o) Q.
Proof.
  intros HP Hpre Hk.
  eapply only_bind; [apply (layers_inode_ops P dir up); [by apply settled_enduring | done] | intros o].
  apply layers_gently; [| gently | intros []; apply Hk].
  apply enduring_and; [done | apply enduring_house].
Qed.

Lemma layers_op {A} P (Q : InodeOps -> world -> Prop) (op : InodeOps -> M A) o :
  enduring P -> (forall w, P w -> House up o (w_fs w) -> Q o w) -> layers (Q o) (op o) whatever ->
  layers (fun w => P w /\ House up o (w_fs w)) (op o) (fun _ => P).
Proof.
  intros HP HQ Hop. eapply only_post; [eapply layers_asked; [| |exact Hop]|].
  - apply enduring_and; [done | apply enduring_house].
  - intros w [? ?]. by apply HQ.
  - by intros a w _ [? _].
Qed.

Definition within_up (d : did) (o : InodeOps) w : Prop := sb_of d up w /\ House up o (w_fs w).

Section OfDirectory.
Context (P : world -> Prop) (dir d : did).
Hypothesis HP : enduring P.
Hypothesis Hpre : forall w, P w -> sb_of dir up w /\ sb_of d up w.

Lemma asks_within {A} (op : InodeOps -> M A) o :
  layers (within_up d o) (op o) whatever ->
  layers (fun w => P w /\ House up o (w_fs w)) (op o) (fun _ => P).
Proof.
  intros Hop. apply (layers_op P (within_up d)); [done | | done].
  intros w Hp Hh. split; [by apply Hpre | done].
Qed.

Lemma layers_vfs_create cred : layers P (vfs_create cred up dir d) (fun _ => P).
Proof.
  unfold vfs_create. apply layers_gently; [done | gently | intros []].
  apply layers_dispatch; [done | intros w Hp; by apply Hpre | intros o].
  apply (asks_within (fun o => op_create o d)), changes_create.
Qed.
Lemma layers_vfs_mkdir cred : layers P (vfs_mkdir cred up dir d) (fun _ => P).
Proof.
  unfold vfs_mkdir. apply layers_gently; [done | gently | intros []].
  apply layers_dispatch; [done | intros w Hp; by apply Hpre | intros o].
  apply (asks_within (fun o => op_mkdir o d)), changes_mkdir.
Qed.
Lemma layers_vfs_rmdir cred : layers P (vfs_rmdir cred up dir d) (fun _ => P).
Proof.
  unfold vfs_rmdir.
  apply layers_gently; [done | gently | intros k].
  apply layers_gently; [done | gently | intros []].
  apply layers_gently; [done | gently | intros held].
  apply layers_holding; [intros u; by apply settled_enduring|].
  apply layers_dispatch; [done | intros w Hp; by apply Hpre | intros o].
  eapply only_bind; [apply (asks_within (fun o => op_rmdir o d)), changes_rmdir | intros []].
  apply layers_gently; [done | gently | intros []].
  apply layers_gently; [done | gently | intros []].
  apply layers_steady; [by apply settled_enduring | auto with vfs].
Qed.
Lemma layers_vfs_unlink cred : layers P (vfs_unlink cred up dir d) (fun _ => P).
Proof.
  unfold vfs_unlink.
  apply layers_gently; [done | gently | intros k].
  apply layers_gently; [done | gently | intros []].
  apply layers_gently; [done | gently | intros held].
  apply layers_holding; [intros u; by apply settled_enduring|].
  apply layers_dispatch; [done | intros w Hp; by apply Hpre | intros o].
  eapply only_bind; [apply (asks_within (fun o => op_unlink o d)), changes_unlink | intros []].
  apply layers_steady; [by apply settled_enduring | auto with vfs].
Qed.
End OfDirectory.

Lemma layers_vfs_rename P cred rd :
  enduring P -> (forall w, P w -> renames_in up rd w) ->
  layers P (vfs_rename cred up rd) (fun _ => P).
Proof.
  intros HP Hpre. unfold vfs_rename. cbv zeta.
  apply layers_gently; [done | gently | intros moving].
  apply layers_gently; [done | gently | intros target].
  apply layers_gently; [done | gently | intros same].
  case_match; [by apply only_ret|].
  apply layers_gently; [done | apply gentle_may_rename | intros []].
  apply layers_gently; [done | gently | intros held].
  apply layers_holding; [intros u; by apply settled_enduring|].
  eapply only_bind; [apply (layers_inode_ops P _ up); [by apply settled_enduring|] | intros o].
  { intros w Hp. by apply Hpre. }
  assert (HG : enduring (fun w => P w /\ House up o (w_fs w))).
  { apply enduring_and; [done | apply enduring_house]. }
  eapply only_bind; [apply (layers_inode_ops _ _ up); [by apply settled_enduring|] | intros to].
  { intros w [Hp _]. by apply Hpre. }
  apply layers_gently; [apply enduring_and; [done | apply enduring_house] | gently | intros []].
  eapply only_bind with (Q := fun _ => P).
  { eapply only_post; [eapply layers_asked; [| | apply changes_rename]|].
    - apply enduring_and; [exact HG | apply enduring_house].
    - intros w [[Hp ?] ?]. destruct (Hpre w Hp) as (? & ? & ? & ?). done.
    - by intros a w _ [[? _] _]. }
  intros []. case_match.
  - apply layers_exchange; [done|]. intros w Hp. by destruct (Hpre w Hp) as (? & ? & ? & ?).
  - eapply only_bind with (Q := fun _ => P).
    { case_match; [|by apply only_ret].
      apply layers_gently; [done | gently | intros []]. apply layers_steady; [by apply settled_enduring | auto with vfs]. }
    intros []. apply layers_move_dentry; [done|]. intros w Hp. by destruct (Hpre w Hp) as (? & ? & ? & ?).
Qed.
End Upper.
End Reads.
Arguments UpperChanges {T V F} House K R {HT} up ours writes.
#[export] Hint Resolve gentle_permission gentle_op_getattr gentle_op_get_link gentle_revalidate
  gentle_iterate gentle_read gentle_fsync gentle_flush gentle_getattr gentle_get_link
  gentle_d_revalidate gentle_inode_permission gentle_lookup_one_common gentle_may_create_dentry
  gentle_may_delete_dentry : gentle.
#[export] Hint Resolve steady_upgrade steady_invalidate steady_retain steady_sb_permission : vfs.
#[export] Hint Resolve enduring_and enduring_sb enduring_names enduring_house enduring_answers
  enduring_pure enduring_imp enduring_all settled_enduring : lasts.
