(* ===== verification/LowerLayers.v ===== *)
(** Whatever a view is asked, only its upper changes.

    A view knows where each inode it keeps stands ([knows]); over Layers whose
    reads and whose upper's changes keep what [LayerReads] and [UpperChanges]
    promise, every operation of its tables and every call on its open files keeps
    that too, and changes what lies beneath only as the upper's own operations do
    ([view_keeps], of runs of [view_step]).  [Layer], [Fs] and [View] of OverlayFs.v
    are gone through in that order, each call by what it needs known and what is
    known after.

    Tmpfs trees are such Layers ([upper_changes], [layer_reads]): an operation of
    one keeps to its own tree ([only_tree]), since a directory's entries are of
    its tree.  C17 is what that makes of a view of Tmpfs instances. *)
From stdpp Require Import gmap.
From S2P Require Import Prelude Text Locking VfsTypes World Dcache Cred OpenFile Namei VfsFacts NameiFacts VfsLogic Tidy Containment Tmpfs ContainmentPromises TmpfsSpace OverlayFs OverlaySample LayerFacts.
Local Open Scope vfs_scope.

(** ** What a view knows of its Layers *)
Section Kept.
Context {T : FsTypes} `{!OverlayIn T}.
Implicit Types w : world.

Definition view_overlay (v : ViewInode) : Overlay :=
  match v with OverlayDirectory o | OverlayRegular o | OverlayLink o => o end.

(** An inode of the view [fs]. *)
Definition of_view (fs : OverlayFs) (o : InodeOps) : Prop :=
  exists v, ov_downcast o = Some v /\ ov_fs (view_overlay v) = fs.

(** A Layer's path stands in its instance, and one of the upper's in the upper. *)
Definition stands (p : OverlayPath) w : Prop := sb_of (lay_dentry p) (lay_sb p) w.
Definition stands_in (up : sbid) (p : OverlayPath) w : Prop := lay_sb p = up /\ stands p w.
Definition level_stands (up : sbid) (l : Level) w : Prop :=
  forall i p, l !! i = Some (Some p) -> (i = UPPER -> lay_sb p = up) /\ stands p w.
Definition kept_stands (up : sbid) (k : Private) w : Prop :=
  match k with DirKept l _ => level_stands up l w | FileKept real _ => stands real w end.

(** What a view's inode keeps stands, as its work directory does, and what lies
    beneath is as it should be. *)
Record knows (fs : OverlayFs) (up : sbid) (fine : FsState -> Prop) w : Prop := MkKnows {
  knows_fine : fine (w_fs w);
  knows_kept i k : privates (ov_store (w_fs w)) !! i = Some k ->
    exists n, w_inodes w !! i = Some n /\ (of_view fs (i_ops n) -> kept_stands up k w);
  knows_work work : ofs_work fs = Some work -> stands_in up work w;
}.

(** An inode that keeps a file goes on keeping one, the upper's once it is. *)
Definition keeps_file (i : iid) (x : FsState) : Prop :=
  exists real lock, privates (ov_store x) !! i = Some (FileKept real lock).
Definition copied (up : sbid) (i : iid) (x : FsState) : Prop :=
  exists real lock, privates (ov_store x) !! i = Some (FileKept real lock) /\ lay_sb real = up.
Definition above (up : sbid) (beneath : FsState -> FsState -> Prop) (x x' : FsState) : Prop :=
  beneath x x' /\ forall i, (copied up i x -> copied up i x') /\ (keeps_file i x -> keeps_file i x').
End Kept.

(** What is asked of a state that holds views beside what lies beneath: they are
    kept apart, and [beneath] is a change of what lies beneath. *)
Class Beneath {T : FsTypes} `{!OverlayIn T} (House : sbid -> InodeOps -> FsState -> Prop)
    (fine : FsState -> Prop) (beneath : FsState -> FsState -> Prop) : Prop := {
  beneath_pre :: PreOrder beneath;
  beneath_house s o x x' : beneath x x' -> House s o x -> House s o x';
  beneath_store y x : ov_store (ov_set_store y x) = y;
  beneath_set y x : beneath x (ov_set_store y x);
  beneath_fine y x : fine x -> fine (ov_set_store y x);
  beneath_view v : ov_downcast (ov_inode v) = Some v;
}.

(** *** What is known goes along *)
Section Known.
Context {T : FsTypes} {House : sbid -> InodeOps -> FsState -> Prop} {K : world -> Prop}.
Context {R : FsState -> FsState -> Prop} `{SH : !Sheltered House K R}.
Implicit Types w : world.
Abbreviation layers := (only (sound House K) (moves R)).
Abbreviation enduring := (LayerFacts.enduring R).
Abbreviation settled := (LayerFacts.settled House).
Abbreviation gentle := (LayerFacts.gentle House K R).

Lemma layers_then {A B} S P (m : M A) G (k : A -> M B) Q :
  enduring S -> layers P m G -> (forall w, S w -> P w) ->
  (forall a, layers (fun w => S w /\ G a w) (k a) Q) -> layers S (bind m k) Q.
Proof. intros HS Hm HP Hk. eapply only_bind; [by eapply layers_known | exact Hk]. Qed.

Lemma layers_tried {A} S P (m : M A) G :
  enduring S -> (forall w, S w -> P w) -> layers P m G ->
  layers S (attempt m) (fun r w => S w /\ forall a, r = Ok a -> G a w).
Proof. intros HS HP Hm. eapply layers_known; [done | exact HP | by apply only_attempt]. Qed.
Lemma layers_try {A B} S P (m : M A) G (k : result FilesystemError A -> M B) Q :
  enduring S -> layers P m G -> (forall w, S w -> P w) ->
  (forall r, layers (fun w => S w /\ forall a, r = Ok a -> G a w) (k r) Q) ->
  layers S (bind (attempt m) k) Q.
Proof. intros HS Hm HP Hk. eapply only_bind; [by eapply layers_tried | exact Hk]. Qed.

(** The last step. *)
Lemma layers_last {A} S P (m : M A) G :
  layers P m G -> (forall w, S w -> P w) -> layers S m G.
Proof. intros Hm HP. eapply only_pre; [|exact Hm]. auto. Qed.
Lemma layers_ends {A} S P (m : M A) G (Q : A -> world -> Prop) :
  layers P m G -> (forall w, S w -> P w) -> (forall a w, G a w -> Q a w) -> layers S m Q.
Proof. intros Hm HP HQ. eapply only_post; [by eapply layers_last|]. auto. Qed.
Lemma layers_ex {A X} (P : X -> world -> Prop) (m : M A) Q :
  (forall x, layers (P x) m Q) -> layers (fun w => exists x, P x w) m Q.
Proof. intros Hm w r w' Hs [x Hx]. by apply (Hm x). Qed.
Lemma layers_gentle {A} S (m : M A) : gentle m -> layers S m whatever.
Proof.
  intros Hm. eapply layers_ends with (P := fun _ => True); [| done..].
  apply Hm, enduring_pure.
Qed.
Lemma layers_any {A} S (m : M A) Q : layers S m Q -> layers S m whatever.
Proof. apply only_whatever. Qed.
Lemma enduring_ex {X} (P : X -> world -> Prop) :
  (forall x, enduring (P x)) -> enduring (fun w => exists x, P x w).
Proof. intros HP w w' Hm [x Hx]. exists x. by eapply HP. Qed.
Lemma enduring_whatever {A} (a : A) : enduring (whatever a).
Proof. apply enduring_pure. Qed.
End Known.
Lemma whatever_holds {T : FsTypes} {A} (a : A) (w : world) : whatever a w.
Proof. done. Qed.
#[export] Hint Resolve enduring_whatever : lasts.
#[export] Hint Resolve whatever_holds : core.

Ltac told :=
  solve [intros; cbv beta in *; repeat match goal with H : _ /\ _ |- _ => destruct H end; split_and?; eauto].
Ltac lasting := solve [auto 12 with lasts].

(** A step of a rule's, tried or not, the last one, and a step nothing known
    bears on. *)
Tactic Notation "step" uconstr(rule) := eapply layers_then; [lasting | eapply rule | told | cbv beta].
Tactic Notation "tries" uconstr(rule) := eapply layers_try; [lasting | eapply rule | told | cbv beta].
Tactic Notation "ends" uconstr(rule) := eapply layers_ends; [eapply rule | told | told].
Tactic Notation "past" := apply layers_gently; [lasting | solve [gently] |].

Section View.
Context {T : FsTypes} `{HT : !TmpfsIn T} `{HO : !OverlayIn T} `{LC : !LruCache}.
Context {V : VfsTables T} {F : FileTables T}.
Context {House : sbid -> InodeOps -> FsState -> Prop} {fine : FsState -> Prop}.
Context {beneath : FsState -> FsState -> Prop} `{BN : !Beneath House fine beneath}.
Context (fs : OverlayFs) (view up : sbid).
Hypothesis house_view : forall o x, House view o x <-> of_view fs o.
Implicit Types w : world.

Abbreviation K := (knows fs up fine).
Abbreviation R := (above up beneath).
Abbreviation layers := (only (sound House K) (moves R)).
Abbreviation enduring := (LayerFacts.enduring R).
Abbreviation settled := (LayerFacts.settled House).
Abbreviation gentle := (LayerFacts.gentle House K R).

Lemma stands_mono p w w' : mono w w' -> stands p w -> stands p w'.
Proof. intros Hm. apply Hm. Qed.
Lemma level_stands_mono l w w' : mono w w' -> level_stands up l w -> level_stands up l w'.
Proof. intros Hm Hl i p E. destruct (Hl i p E). split; [done | by eapply stands_mono]. Qed.
Lemma kept_stands_mono k w w' : mono w w' -> kept_stands up k w -> kept_stands up k w'.
Proof. intros Hm. destruct k; simpl; [by apply level_stands_mono | by apply stands_mono]. Qed.

#[export] Instance above_pre : PreOrder R.
Proof.
  split; [split; [reflexivity | done]|]. intros x1 x2 x3 [B1 C1] [B2 C2].
  split; [by transitivity x2|]. intros i. destruct (C1 i), (C2 i). auto.
Qed.

#[export] Instance view_sheltered : Sheltered House K R.
Proof.
  split; [apply _ | |].
  - intros s o x x' [Hb _]. by apply (beneath_house (fine := fine)).
  - intros w w' _ [Hm _ E] [Hf Hk Hw]. split; rewrite ?E.
    + done.
    + intros i k Hi. destruct (Hk i k Hi) as (n & Hn & Hs).
      destruct (mono_inode _ _ Hm i n Hn) as (n' & Hn' & En). exists n'. split; [done|].
      rewrite En. intros Ho. by eapply kept_stands_mono, Hs.
    + intros work Ew. destruct (Hw work Ew). split; [done | by eapply stands_mono].
Qed.

Lemma enduring_stands p : enduring (stands p).
Proof. intros w w' [_ Hm]. by apply stands_mono. Qed.
Lemma enduring_stands_in p : enduring (stands_in up p).
Proof. apply enduring_and; [apply enduring_pure | apply enduring_stands]. Qed.
Lemma enduring_level l : enduring (level_stands up l).
Proof. intros w w' [_ Hm]. by apply level_stands_mono. Qed.
Lemma enduring_copied i : enduring (fun w => copied up i (w_fs w)).
Proof. intros w w' [[_ Hc] _]. apply Hc. Qed.
Lemma enduring_keeps_file i : enduring (fun w => keeps_file i (w_fs w)).
Proof. intros w w' [[_ Hc] _]. apply Hc. Qed.
#[local] Hint Resolve enduring_stands enduring_stands_in enduring_level enduring_copied
  enduring_keeps_file : lasts.

(** *** What the view writes down *)
Definition on_fs (f : FsState -> FsState) : M unit := modify (fun w => set_fs (f (w_fs w)) w).

(** A change of what the Filesystems hold. *)
Lemma layers_on_fs P (f : FsState -> FsState) :
  enduring P ->
  (forall w, sound House K w -> P w -> R (w_fs w) (f (w_fs w)) /\ fine (f (w_fs w))
     /\ forall i k, privates (ov_store (f (w_fs w))) !! i = Some k ->
          exists n, w_inodes w !! i = Some n /\ (of_view fs (i_ops n) -> kept_stands up k w)) ->
  layers P (on_fs f) (fun _ => P).
Proof.
  intros HP Hf w r w' [Hb Hk] Hp [= <- <-]. destruct (Hf w (conj Hb Hk) Hp) as (HR & Hfine & Hk').
  assert (Hmv : moves R w (set_fs (f (w_fs w)) w)) by (split; [done | by split; eauto]).
  split_and!; [split | by apply rtc_once | intros a _; by eapply HP].
  - destruct Hb as [Hfr Ht Hn Hpar Ha]. split; [exact Hfr | exact Ht | | exact Hpar | exact Ha].
    intros d x i Hx Hi. destruct (Hn d x i Hx Hi) as (n & Hni & Hh). exists n. split; [done|].
    eapply (beneath_house (fine := fine)); [apply HR | done].
  - split; [done | exact Hk' | apply Hk].
Qed.

Lemma layers_on_ov_store P (f : OvStore FileOps -> OvStore FileOps) :
  enduring P ->
  (forall w, sound House K w -> P w ->
     (forall i k, privates (f (ov_store (w_fs w))) !! i = Some k ->
        exists n, w_inodes w !! i = Some n /\ (of_view fs (i_ops n) -> kept_stands up k w))
     /\ forall i real lock, privates (ov_store (w_fs w)) !! i = Some (FileKept real lock) ->
          exists real' lock', privates (f (ov_store (w_fs w))) !! i = Some (FileKept real' lock')
            /\ (lay_sb real = up -> lay_sb real' = up)) ->
  layers P (on_ov_store f) (fun _ => P).
Proof.
  intros HP Hf. apply (layers_on_fs P (fun x => ov_set_store (f (ov_store x)) x)); [done|].
  intros w Hs Hp. destruct (Hf w Hs Hp) as [Hk' Hc].
  rewrite (beneath_store (fine := fine) (House := House) (beneath := beneath)).
  split_and!; [split | | done].
  - apply (beneath_set (fine := fine) (House := House)).
  - intros i. unfold copied, keeps_file.
    rewrite (beneath_store (fine := fine) (House := House) (beneath := beneath)). split.
    + intros (real & lock & Hi & Hr). destruct (Hc i real lock Hi) as (real' & lock' & ? & ?). eauto 6.
    + intros (real & lock & Hi). destruct (Hc i real lock Hi) as (real' & lock' & ? & ?). eauto.
  - apply (beneath_fine (House := House) (beneath := beneath)), Hs.
Qed.

(** A change beneath the view, of what it keeps nothing of. *)
Lemma layers_on_beneath P (f : FsState -> FsState) :
  enduring P -> (forall x, ov_store (f x) = ov_store x) ->
  (forall w, sound House K w -> P w -> beneath (w_fs w) (f (w_fs w)) /\ fine (f (w_fs w))) ->
  layers P (on_fs f) (fun _ => P).
Proof.
  intros HP Hst Hf. apply layers_on_fs; [done|]. intros w Hs Hp. destruct (Hf w Hs Hp) as [Hb Hfine].
  rewrite Hst. split_and!; [split; [done|] | done | apply Hs].
  intros i. unfold copied, keeps_file. by rewrite Hst.
Qed.

Lemma gentle_on_ov_store (f : OvStore FileOps -> OvStore FileOps) :
  (forall x, privates (f x) = privates x) -> gentle (on_ov_store f).
Proof.
  intros Hf P HP. apply layers_on_ov_store; [done|]. intros w [_ Hk] _. rewrite Hf.
  split; [apply Hk | eauto].
Qed.
Lemma gentle_on_temps f : gentle (on_temps f).
Proof. by apply gentle_on_ov_store. Qed.
Lemma gentle_on_opened f : gentle (on_opened f).
Proof. by apply gentle_on_ov_store. Qed.
Lemma gentle_on_listings f : gentle (on_listings f).
Proof. by apply gentle_on_ov_store. Qed.
Lemma gentle_on_accounts f : gentle (on_accounts f).
Proof. by apply gentle_on_ov_store. Qed.
#[local] Hint Resolve gentle_on_temps gentle_on_opened gentle_on_listings gentle_on_accounts : gentle.

(** What one inode keeps, altered. *)
Lemma layers_alter_private P i g :
  enduring P ->
  (forall w k, P w -> kept_stands up k w -> kept_stands up (g k) w) ->
  (forall w real lock, P w -> exists real' lock', g (FileKept real lock) = FileKept real' lock'
     /\ (lay_sb real = up -> lay_sb real' = up)) ->
  layers P (on_privates (alter g i)) (fun _ => P).
Proof.
  intros HP Hg Hc. apply layers_on_ov_store; [done|]. intros w [_ Hk] Hp. simpl. split.
  - intros j k' Hj. apply alter_at in Hj as (k & Hj & ->).
    destruct (knows_kept _ _ _ _ Hk j k Hj) as (n & Hn & Hs). exists n. split; [done|].
    intros Ho. case_match; [by apply Hg, Hs | by apply Hs].
  - intros j real lock Hj. destruct (decide (j = i)) as [->|Hne].
    + destruct (Hc w real lock Hp) as (real' & lock' & E & Hr'). exists real', lock'.
      rewrite lookup_alter_eq, Hj. simpl. by rewrite E.
    + exists real, lock. by rewrite lookup_alter_ne.
Qed.

Lemma gentle_lock_kept h i : gentle (on_privates (alter (with_lock h) i)).
Proof.
  intros P HP. apply layers_alter_private; [done | by intros w [] | intros w real lock _; simpl; eauto].
Qed.
#[local] Hint Resolve gentle_lock_kept : gentle.

Lemma layers_inode_update P i dir :
  enduring P -> (forall w, P w -> stands_in up dir w) ->
  layers P (Kept.inode_update i dir) (fun _ => P).
Proof.
  intros HP Hd. apply layers_alter_private; [done | | intros w real lock _; simpl; eauto].
  intros w [l lock|real lock] Hp Hk; [|done]. intros j p Hj. cbn [kept_stands] in Hk. unfold Level in *.
  destruct (Hd w Hp) as [Esb Hs]. destruct (decide (j = UPPER)) as [->|Hne].
  - destruct (decide (UPPER < length l)%nat) as [Hl|Hl].
    + rewrite list_lookup_insert_eq in Hj by done. by injection Hj as <-.
    + rewrite list_insert_ge in Hj by lia. by apply Hk.
  - rewrite list_lookup_insert_ne in Hj by done. by apply Hk.
Qed.

Lemma layers_set_real P i real :
  enduring P -> (forall w, P w -> stands_in up real w) ->
  layers P (Kept.set_real i real) (fun _ => P).
Proof.
  intros HP Hd. apply layers_alter_private; [done | |].
  - intros w [l lock|r lock] Hp Hk; [done|]. by apply Hd.
  - intros w r lock Hp. exists real, lock. split; [done | by destruct (Hd w Hp)].
Qed.

Lemma layers_copied_now P i real :
  enduring P -> (forall w, P w -> stands_in up real w) ->
  layers (fun w => P w /\ keeps_file i (w_fs w)) (Kept.set_real i real) (fun _ w => P w /\ copied up i (w_fs w)).
Proof.
  intros HP Hd w r w' Hs [Hp Hf] H.
  destruct (layers_set_real P i real HP Hd w r w' Hs Hp H) as (Hs' & Hr & Hq).
  split_and!; [done.. |]. intros a Ea. split; [by eapply Hq|].
  injection H as <- <-. destruct Hf as (r0 & lock & Hi). exists real, lock. simpl.
  rewrite (beneath_store (fine := fine) (House := House) (beneath := beneath)). simpl.
  rewrite lookup_alter_eq, Hi. simpl. split; [done | by destruct (Hd w Hp)].
Qed.

Lemma layers_inode_init P i k :
  enduring P -> (forall w, P w -> kept_stands up k w) -> (forall w, P w -> is_Some (w_inodes w !! i)) ->
  layers P (Kept.ovl_inode_init i k) (fun _ => P).
Proof.
  intros HP Hk Hi. apply layers_on_ov_store; [done|]. intros w [_ Hw] Hp. simpl.
  destruct (privates (ov_store (w_fs w)) !! i) as [k0|] eqn:E; [split; [apply Hw | eauto]|]. split.
  - intros j k' Hj. apply lookup_insert_Some in Hj as [[<- <-]|[Hne Hj]]; [|by apply Hw].
    destruct (Hi w Hp) as [n Hn]. exists n. split; [done|]. intros _. by apply Hk.
  - intros j real lock Hj. exists real, lock.
    destruct (decide (j = i)) as [->|Hne]; [discriminate (eq_trans (eq_sym E) Hj) | by rewrite lookup_insert_ne].
Qed.

(** *** What is read of an inode *)
Lemma gentle_asks {A} (f : world -> option A) : gentle (asks f).
Proof. apply gentle_steady. auto with vfs. Qed.
#[local] Hint Resolve gentle_asks : gentle.
Lemma steady_private_of i : framed (steady House) (private_of i).
Proof. unfold private_of. frames. Qed.
#[local] Hint Resolve steady_private_of : vfs.
Lemma gentle_dir_of i : gentle (Kept.dir_of i).
Proof. unfold Kept.dir_of. gently. Qed.
Lemma gentle_file_of i : gentle (Kept.file_of i).
Proof. unfold Kept.file_of. gently. Qed.
#[local] Hint Resolve gentle_dir_of gentle_file_of : gentle.
Lemma gentle_level i : gentle (Kept.level i).
Proof. unfold Kept.level. gently. Qed.
Lemma gentle_path_real i : gentle (Kept.path_real i).
Proof. unfold Kept.path_real. gently. Qed.
#[local] Hint Resolve gentle_level gentle_path_real : gentle.

(** A name of the view, and the inode it names. *)
Definition shows (d : did) (i : iid) w : Prop := sb_of d view w /\ names_inode d i w.
Lemma enduring_shows d i : enduring (shows d i).
Proof. apply enduring_and; [apply enduring_sb | apply enduring_names]. Qed.
#[local] Hint Resolve enduring_shows : lasts.

Lemma shows_kept d i k w : sound House K w -> shows d i w ->
  privates (ov_store (w_fs w)) !! i = Some k -> kept_stands up k w.
Proof.
  intros Hs [Hd Hi] Hk. destruct (named_answers d view i w Hs Hd Hi) as (n & Hn & Ho).
  destruct (knows_kept _ _ _ _ (proj2 Hs) i k Hk) as (n' & Hn' & Hst).
  pose proof (eq_trans (eq_sym Hn) Hn') as [= <-]. apply Hst. by apply (house_view _ (w_fs w)).
Qed.

Lemma layers_private_of P d i :
  enduring P -> (forall w, P w -> shows d i w) ->
  layers P (private_of i) (fun k w => P w /\ forall k', k = Some k' -> kept_stands up k' w).
Proof.
  intros HP Hd. eapply only_post; [apply only_asks|]. intros k w Hs [Hp [= <-]]. split; [done|].
  intros k' E. by eapply shows_kept, E; [|apply Hd].
Qed.

Lemma layers_dir_of P d i :
  enduring P -> (forall w, P w -> shows d i w) ->
  layers P (Kept.dir_of i) (fun l w => P w /\ forall l', l = Some l' -> level_stands up l' w).
Proof.
  intros HP Hd. unfold Kept.dir_of. eapply only_bind; [by eapply layers_private_of | intros [[l lock|]|]];
    apply only_ret; intros w _ [Hp Hk]; (split; [done|]); [|done..].
  intros l' [= <-]. by apply (Hk _ eq_refl).
Qed.
Lemma layers_level P d i :
  enduring P -> (forall w, P w -> shows d i w) ->
  layers P (Kept.level i) (fun l w => P w /\ level_stands up l w).
Proof.
  intros HP Hd. unfold Kept.level. eapply only_bind; [by eapply layers_dir_of | intros [l|]];
    [|apply only_panic]. apply only_ret. intros w _ [Hp Hl]. split; [done | by apply Hl].
Qed.
(** The file an inode keeps now. *)
Definition kept_now (i : iid) (real : OverlayPath) w : Prop :=
  exists lock, privates (ov_store (w_fs w)) !! i = Some (FileKept real lock).
Lemma kept_now_copied i real w : kept_now i real w -> copied up i (w_fs w) <-> lay_sb real = up.
Proof.
  intros (lock & Hi). split; [|by exists real, lock]. intros (r & lock' & Hr & <-).
  by pose proof (eq_trans (eq_sym Hi) Hr) as [= -> _].
Qed.
Lemma kept_now_file i real w : kept_now i real w -> keeps_file i (w_fs w).
Proof. intros (lock & Hi). by exists real, lock. Qed.
Lemma settled_kept_now i real : settled (kept_now i real).
Proof. intros w w' _ [[_ _ E] _]. unfold kept_now. by rewrite E. Qed.

Lemma layers_file_of P d i :
  enduring P -> (forall w, P w -> shows d i w) ->
  layers P (Kept.file_of i) (fun r w => P w /\ forall real, r = Some real ->
    stands real w /\ kept_now i real w).
Proof.
  intros HP Hd. unfold Kept.file_of, private_of. eapply only_bind; [apply only_asks | intros k].
  apply only_ret. intros w Hs [Hp [= <-]]. split; [done|]. intros real E.
  destruct (privates (ov_store (w_fs w)) !! i) as [[|r lock]|] eqn:Ek; [done| |done].
  injection E as ->. split; [by eapply (shows_kept d i _ w Hs (Hd w Hp)) in Ek | by exists lock].
Qed.
Lemma layers_path_real P d i :
  enduring P -> (forall w, P w -> shows d i w) ->
  layers P (Kept.path_real i) (fun real w => P w /\ stands real w /\ kept_now i real w).
Proof.
  intros HP Hd. unfold Kept.path_real. eapply only_bind; [by eapply layers_file_of | intros [r|]];
    [|apply only_panic]. apply only_ret. intros w _ [Hp Hr]. split; [done | by apply Hr].
Qed.

(** An inode made anew. *)
Lemma layers_new_inode P s x :
  enduring P -> (forall w, P w -> House s (i_ops x) (w_fs w)) -> i_dentry x = None ->
  layers P (new_inode x) (fun i w => P w /\ found_in House s i w).
Proof.
  intros HP Ho Hno w r w' [Hb Hk] Hp [= <- <-]. set (w' := set_next _ _).
  assert (Hi : w_inodes w !! w_next w = None) by (by apply (base_fresh _ _ Hb)).
  assert (Hold : forall i n, w_inodes w !! i = Some n -> w_inodes w' !! i = Some n).
  { intros i n Hn. subst w'. simpl. rewrite lookup_insert_ne; [done|].
    intros <-. discriminate (eq_trans (eq_sym Hi) Hn). }
  assert (Hm : mono w w') by (split; eauto).
  assert (Hmv : moves R w w') by (split; [reflexivity | done]).
  assert (Hnew : w_inodes w' !! w_next w = Some x) by apply lookup_insert_eq.
  split_and!; [split | by apply rtc_once |].
  - destruct Hb as [Hf Ht Hn Hpar Ha]. split; [| exact Ht | | exact Hpar |].
    + intros n Hle. simpl in Hle. destruct (Hf n ltac:(lia)) as (? & ? & ?). subst w'. simpl.
      rewrite lookup_insert_ne by lia. done.
    + intros d y i Hy Hyi. eapply answers_mono; [exact Hm | done | by eapply Hn].
    + intros i n a Hn' Hna. destruct (decide (i = w_next w)) as [->|Hne].
      { pose proof (eq_trans (eq_sym Hnew) Hn') as [= <-]. discriminate (eq_trans (eq_sym Hno) Hna). }
      subst w'. simpl in Hn'. rewrite lookup_insert_ne in Hn' by done. by eapply Ha.
  - destruct Hk as [Hf Hk Hw]. split; [done | | exact Hw].
    intros i k Hik. destruct (Hk i k Hik) as (n & Hn & Hs). exists n. split; [by apply Hold | done].
  - intros i [= <-]. split; [by eapply HP|]. split.
    + exists x. split; [done | exact (Ho w Hp)].
    + intros n a y Hn Hna _.
      pose proof (eq_trans (eq_sym Hnew) Hn) as [= <-]. discriminate (eq_trans (eq_sym Hno) Hna).
Qed.

Lemma layers_copying_up {A} P i (k : M A) Q :
  enduring P -> (forall a, enduring (Q a)) -> layers P k Q -> layers P (Kept.copying_up i k) Q.
Proof.
  intros HP HQ Hk. unfold Kept.copying_up. cbv zeta.
  apply layers_gently; [done | gently | intros current].
  apply layers_gently; [done | gently | intros h].
  destruct (Rwsem.take_hold true current h) as [[[|] h1]|e]; [|apply only_fail..].
  apply layers_gently; [done | gently | intros []].
  eapply only_bind; [by apply only_attempt | intros r].
  assert (Hr : enduring (fun w => forall a, r = Ok a -> Q a w)).
  { apply enduring_all. intros a. by apply enduring_imp. }
  apply layers_gently; [done | gently | intros h2].
  apply layers_gently; [done | gently | intros []].
  apply only_lift. eauto.
Qed.

(** ** A Layer's calls *)
Context {LR : @LayerReads T House K R V F}.
Context (ours : fileid -> FsState -> Prop) (writes : FileOps -> FsState -> Prop).
Context {UC : @UpperChanges T V F House K R HT up ours writes}.

Definition in_layer (p : OverlayPath) (d : did) w : Prop := sb_of d (lay_sb p) w.
Lemma enduring_in_layer p d : enduring (in_layer p d).
Proof. apply enduring_sb. Qed.
Lemma enduring_file f : enduring (fun w => ours f (w_fs w)).
Proof. by apply (enduring_ours up ours writes). Qed.
Lemma enduring_housed s o : enduring (fun w => House s o (w_fs w)).
Proof. apply (enduring_house (K := K)). Qed.
Lemma enduring_answered s i : enduring (answers_for House s i).
Proof. apply (enduring_answers (K := K)). Qed.
#[local] Hint Resolve enduring_in_layer enduring_file enduring_housed enduring_answered : lasts.
#[local] Hint Resolve view_sheltered : gentle.
Lemma steady_name d : framed (steady House) (name d).
Proof. unfold name. frames. Qed.
#[local] Hint Resolve steady_name : vfs.

Lemma stands_in_stands p w : stands_in up p w -> stands p w.
Proof. by intros []. Qed.
Lemma stands_in_sb p w : stands_in up p w -> sb_of (lay_dentry p) up w.
Proof. by intros [<- ?]. Qed.
Lemma in_layer_up p d w : stands_in up p w -> in_layer p d w -> sb_of d up w.
Proof. by intros [<- _]. Qed.
#[local] Hint Resolve stands_in_stands stands_in_sb in_layer_up : core.

Lemma layers_lookup_real p n : layers (stands p) (Layer.lookup_real p n) (in_layer p).
Proof.
  unfold Layer.lookup_real. eapply only_post; [apply layers_lookup_one_unlocked with (P := stands p)|];
    [lasting | done | by intros d w _ []].
Qed.

Lemma layers_creating {A} S p n (k : did -> M A) Q :
  enduring S -> (forall w, S w -> stands p w) -> (forall a, enduring (Q a)) ->
  (forall d, layers (fun w => S w /\ in_layer p d w) (k d) Q) -> layers S (Layer.creating p n k) Q.
Proof.
  intros HS Hp HQ Hk. unfold Layer.creating.
  eapply only_bind; [by apply layers_start_creating | intros [held d]].
  apply layers_holding; [intros a; by apply settled_enduring | apply Hk].
Qed.
Lemma layers_removing {A} S p n (k : did -> M A) Q :
  enduring S -> (forall w, S w -> stands p w) -> (forall a, enduring (Q a)) ->
  (forall d, layers (fun w => S w /\ in_layer p d w) (k d) Q) -> layers S (Layer.removing p n k) Q.
Proof.
  intros HS Hp HQ Hk. unfold Layer.removing.
  eapply only_bind; [by apply layers_start_removing | intros [held d]].
  apply layers_holding; [intros a; by apply settled_enduring | apply Hk].
Qed.

(** A Tmpfs's directory, which answers for the instance [s]. *)
Definition updir (s : sbid) (x : treeid * dirid) w : Prop :=
  exists o, tm_downcast o = Some (TmpfsDirectory x.1 x.2) /\ House s o (w_fs w).
Lemma enduring_updir s x : enduring (updir s x).
Proof. apply enduring_ex. intros o. apply enduring_and; [apply enduring_pure | apply enduring_house]. Qed.
#[local] Hint Resolve enduring_updir : lasts.

Lemma gentle_tmpfs p : gentle (Layer.tmpfs p).
Proof. unfold Layer.tmpfs. gently. Qed.
#[local] Hint Resolve gentle_tmpfs : gentle.

Lemma layers_tmpfs p :
  layers (stands p) (Layer.tmpfs p) (fun x w => forall t, x = Some t -> updir (lay_sb p) t w).
Proof.
  unfold Layer.tmpfs.
  eapply layers_try; [lasting | apply (layers_inode_ops (stands p) _ (lay_sb p)) | told | intros r].
  { apply settled_enduring; lasting. } { done. }
  apply only_ret. intros w _ [Hp Ho] t Et. destruct r as [o|]; [|done].
  destruct (Ho o eq_refl) as [_ Hh]. exists o. split; [|done].
  destruct (tm_downcast o) as [[]|]; [|done..]. by injection Et as <-.
Qed.
Lemma layers_upper p : layers (stands_in up p) (Layer.upper p) (updir up).
Proof.
  unfold Layer.upper. step layers_tmpfs; intros [t|].
  - apply only_ret. intros w _ [[<- _] Ht]. by apply Ht.
  - apply only_fail.
Qed.

Lemma gentle_is_whiteout p n : gentle (Layer.is_whiteout p n).
Proof. unfold Layer.is_whiteout, Tmpfs.is_whiteout, dir_get, state_of, dir_at. gently. Qed.
Lemma gentle_is_whiteout_dentry p d : gentle (Layer.is_whiteout_dentry p d).
Proof. unfold Layer.is_whiteout_dentry. gently. Qed.
Lemma gentle_is_opaque p : gentle (Layer.is_opaque p).
Proof. unfold Layer.is_opaque, getxattr, state_of, dir_at. gently. Qed.
Lemma gentle_matches_real p n d : gentle (Layer.matches_real p n d).
Proof. unfold Layer.matches_real. gently. Qed.
Lemma gentle_layer_getattr p : gentle (Layer.getattr p).
Proof. apply gentle_getattr. Qed.
Lemma gentle_open_realfile p how :
  how_write how = false -> how_truncate how = false -> gentle (Layer.open_realfile p how).
Proof.
  intros Hw Ht. unfold Layer.open_realfile. cbv zeta.
  apply gentle_bind; [solve [gently] | intros []]. by apply gentle_open.
Qed.
Lemma gentle_open_real p : gentle (Layer.open_real p).
Proof. by apply gentle_open_realfile. Qed.
#[local] Hint Resolve gentle_is_whiteout gentle_is_whiteout_dentry gentle_is_opaque
  gentle_matches_real gentle_layer_getattr gentle_open_real : gentle.
Lemma gentle_entries p : gentle (Layer.entries p).
Proof. unfold Layer.entries. gently. Qed.
#[local] Hint Resolve gentle_entries : gentle.

Lemma layers_getattr_at p n : layers (stands p) (Layer.getattr_at p n) whatever.
Proof.
  unfold Layer.getattr_at.
  step layers_lookup_real; intros d.
  apply layers_gentle. gently.
Qed.
Lemma layers_lookup_single p n :
  layers (stands p) (Layer.lookup_single p n)
    (fun x w => forall stored d, x = Some (stored, d) -> in_layer p d w).
Proof.
  unfold Layer.lookup_single.
  step layers_lookup_real; intros d.
  past; intros [i|]; [|by apply only_ret].
  past; intros stored. apply only_ret.
  by intros w _ [_ Hd] ? ? [= _ <-].
Qed.
Lemma layers_open_dir p n :
  layers (stands p) (Layer.open_dir p n) (fun q w => lay_sb q = lay_sb p /\ stands q w).
Proof.
  unfold Layer.open_dir.
  step layers_lookup_real; intros d.
  past; intros k. case_match; try apply only_fail.
  apply only_ret. by intros w _ [].
Qed.
Lemma layers_open_upper_dir p n :
  layers (stands_in up p) (Layer.open_dir p n) (fun q => stands_in up q).
Proof.
  eapply only_post; [eapply layers_known; [| | apply (layers_open_dir p n)]|].
  - apply enduring_stands_in.
  - eauto.
  - intros q w _ [[E _] [Eq ?]]. split; [by rewrite Eq | done].
Qed.

(** *** Its changes, of the upper *)
Lemma layers_updir {A} S t dir (m : M A) Q :
  (forall o, tm_downcast o = Some (TmpfsDirectory t dir) ->
     layers (fun w => S w /\ House up o (w_fs w)) m Q) ->
  layers (fun w => S w /\ updir up (t, dir) w) m Q.
Proof. intros Hm w r w' Hs [Hp (o & Ho & Hh)]. by apply (Hm o Ho). Qed.

Lemma layers_set_opaque p : layers (stands_in up p) (Layer.set_opaque p) whatever.
Proof.
  unfold Layer.set_opaque. past; intros held.
  apply layers_holding; [intros []; by apply settled_enduring, enduring_pure|].
  step layers_upper; intros [t dir].
  apply layers_updir; intros o Ho. ends (changes_setxattr o t dir _ _ Ho).
Qed.

Lemma layers_do_whiteout p n : layers (stands_in up p) (Layer.do_whiteout p n) whatever.
Proof.
  apply layers_creating; [lasting | eauto | intros []; apply enduring_pure | intros d].
  past; intros [].
  step layers_upper; intros [t dir].
  apply layers_updir; intros o Ho. ends (changes_whiteout o t dir n Ho).
Qed.

Lemma layers_do_rename p from target to flag :
  layers (fun w => stands_in up p w /\ stands_in up target w) (Layer.do_rename p from target to flag) whatever.
Proof.
  unfold Layer.do_rename. set (P := fun w => stands_in up p w /\ stands_in up target w).
  assert (HP : enduring P) by (subst P; lasting).
  apply (only_pre _ _ _ (fun w => lay_sb p = up /\ P w)); [by intros w _ [[] ?]|].
  apply only_pure. intros ->.
  eapply only_bind; [apply (layers___start_renaming P) | intros rd]; [done | |].
  { intros w []. eauto. }
  apply layers_holding; [intros []; by apply settled_enduring, enduring_pure|].
  eapply only_whatever, (layers_vfs_rename up ours writes (fun w => P w /\ renames_in up rd w));
    [|by intros w []].
  apply enduring_and; [done | apply enduring_renames].
Qed.

Lemma layers_do_tmpfile p :
  layers (stands_in up p) (Layer.do_tmpfile p) (fun f w => ours f (w_fs w)).
Proof.
  unfold Layer.do_tmpfile. step layers_upper; intros [t dir].
  apply layers_updir; intros o Ho. ends (changes_tmpfile o t dir Ho).
Qed.

Lemma layers_do_link p file n :
  layers (fun w => stands_in up p w /\ ours file (w_fs w)) (Layer.do_link p file n) (in_layer p).
Proof.
  apply layers_creating; [lasting | told | intros a; lasting | intros d].
  past; intros [].
  step layers_upper; intros [t dir].
  apply layers_updir; intros o Ho.
  step (changes_link o t dir file n Ho); intros [].
  step (changes_found o t dir d Ho); intros found.
  set (P := fun w => (sb_of d up w /\ in_layer p d w)
    /\ forall i, found = Found i -> answers_for House up i w).
  apply only_pre with (P' := P).
  { intros w _ [[[[[? _] ?] _] _] Hf]. split; [eauto|]. intros i ->. apply Hf. }
  assert (HP : enduring P).
  { apply enduring_and; [lasting|]. apply enduring_all. intros i. apply enduring_imp. lasting. }
  apply only_bind with (Q := fun _ => P); [|intros []; apply only_ret; by intros w _ [[]]].
  destruct found as [i| |stored i]; [|by apply only_ret..].
  apply layers_add with (s := up); [done|]. intros w [[? _] Hi]. auto.
Qed.

Lemma layers_set_timestamps p st : layers (stands_in up p) (Layer.set_timestamps p st) whatever.
Proof.
  unfold Layer.set_timestamps. past; intros held.
  apply layers_holding; [intros []; by apply settled_enduring, enduring_pure|].
  eapply only_whatever, (layers_notify_change up ours writes (stands_in up p)); [lasting | eauto].
Qed.
(** What a change of a directory of the upper's is asked of. *)
Lemma layers_in_up {A} p (m : did -> M A) d :
  (lay_sb p = up -> forall P, enduring P ->
     (forall w, P w -> sb_of (lay_dentry p) up w /\ sb_of d up w) -> layers P (m d) (fun _ => P)) ->
  layers (fun w => stands_in up p w /\ in_layer p d w) (m d) whatever.
Proof.
  intros Hm. apply only_pre with (P' := fun w => lay_sb p = up /\ stands_in up p w /\ in_layer p d w).
  { by intros w _ [[] ?]. }
  apply only_pure. intros E. eapply only_whatever, (Hm E); [lasting | told].
Qed.

Lemma layers_do_create p n : layers (stands_in up p) (Layer.do_create p n) whatever.
Proof.
  apply layers_creating; [lasting | eauto | intros []; apply enduring_pure | intros d].
  apply (layers_in_up p (vfs_create Layer.creator_cred (lay_sb p) (lay_dentry p)) d). intros -> P HP Hpre.
  by apply (layers_vfs_create up ours writes).
Qed.
Lemma layers_do_mkdir p n : layers (stands_in up p) (Layer.do_mkdir p n) whatever.
Proof.
  apply layers_creating; [lasting | eauto | intros []; apply enduring_pure | intros d].
  apply (layers_in_up p (vfs_mkdir Layer.creator_cred (lay_sb p) (lay_dentry p)) d). intros -> P HP Hpre.
  by apply (layers_vfs_mkdir up ours writes).
Qed.
Lemma layers_do_rmdir p n : layers (stands_in up p) (Layer.do_rmdir p n) whatever.
Proof.
  apply layers_removing; [lasting | eauto | intros []; apply enduring_pure | intros d].
  apply (layers_in_up p (vfs_rmdir Layer.creator_cred (lay_sb p) (lay_dentry p)) d). intros -> P HP Hpre.
  by apply (layers_vfs_rmdir up ours writes).
Qed.
Lemma layers_do_unlink p n : layers (stands_in up p) (Layer.do_unlink p n) whatever.
Proof.
  apply layers_removing; [lasting | eauto | intros []; apply enduring_pure | intros d].
  apply (layers_in_up p (vfs_unlink Layer.creator_cred (lay_sb p) (lay_dentry p)) d). intros -> P HP Hpre.
  by apply (layers_vfs_unlink up ours writes).
Qed.
(** Opened to write, it is the upper's. *)
Lemma layers_open_realfile p how :
  layers (stands_in up p) (Layer.open_realfile p how) (fun f w => writes f (w_fs w)).
Proof.
  unfold Layer.open_realfile, open. cbv zeta. past; intros [].
  eapply only_bind; [apply (layers_inode_ops (stands_in up p) _ up); [|eauto] | intros o].
  { apply settled_enduring. lasting. }
  ends changes_open.
Qed.

(** ** The stack *)
Definition all_stand (l : list OverlayPath) w : Prop := Forall (fun p => stands p w) l.
Lemma enduring_all_stand l : enduring (all_stand l).
Proof. intros w w' Hm. apply Forall_impl. intros p. by apply stands_mono, Hm. Qed.
#[local] Hint Resolve enduring_all_stand : lasts.

Lemma shown_stand l w : level_stands up l w -> all_stand (shown l) w.
Proof.
  intros Hl. apply Forall_forall. intros p Hp. apply list_elem_of_In in Hp. unfold shown in Hp.
  apply list_elem_of_omap in Hp as (o & Ho & E). cbv in E. subst o. apply list_elem_of_lookup in Ho as (i & Hi).
  by apply (Hl i p Hi).
Qed.
Lemma lower_stand l w : level_stands up l w -> all_stand (shown (lower_of l)) w.
Proof.
  intros Hl. apply Forall_forall. intros p Hp. apply list_elem_of_In in Hp. unfold shown, lower_of in Hp.
  apply list_elem_of_omap in Hp as (o & Ho & E). cbv in E. subst o. apply list_elem_of_lookup in Ho as (i & Hi).
  rewrite lookup_drop in Hi. by apply (Hl _ p Hi).
Qed.
Lemma upper_stands l p w : level_stands up l w -> upper_of l = Some p -> stands_in up p w.
Proof.
  intros Hl. unfold upper_of. destruct (l !! UPPER) as [o|] eqn:E; simpl; [|done]. intros ->.
  destruct (Hl UPPER p E) as [Hup ?]. split; [by apply Hup | done].
Qed.
Lemma layer_stands l i p w : level_stands up l w -> layer_at l i = Some p ->
  (i = UPPER -> lay_sb p = up) /\ stands p w.
Proof.
  intros Hl. unfold layer_at. destruct (l !! i) as [o|] eqn:E; simpl; [|done]. intros ->.
  by apply (Hl i).
Qed.
#[local] Hint Resolve shown_stand lower_stand upper_stands : core.

Lemma layers_entry dir n :
  layers (stands dir) (Fs.entry dir n)
    (fun x w => forall found, x = PEntry found -> in_layer dir (le_dentry found) w).
Proof.
  unfold Fs.entry. tries (layers_lookup_single dir n); intros [[[stored d]|]|e].
  - apply only_pre with (P' := in_layer dir d); [intros w _ [_ Hd]; by eapply Hd|].
    past; intros white. apply only_ret. intros w _ Hd found. by destruct white; intros [= <-].
  - by apply only_ret.
  - destruct e; first [apply only_fail | by apply only_ret].
Qed.

Lemma layers_lower_positive_in dirs n : layers (all_stand dirs) (Fs.lower_positive_in dirs n) whatever.
Proof.
  induction dirs as [|dir dirs IH]; simpl; [by apply only_ret|].
  apply only_pre with (P' := fun w => stands dir w /\ all_stand dirs w).
  { intros w _ H. by inversion H. }
  tries (layers_entry dir n); intros [[| |found]|e]; try by apply only_ret.
  ends IH.
Qed.
Lemma layers_lower_positive l n : layers (level_stands up l) (Fs.ovl_lower_positive l n) whatever.
Proof. ends layers_lower_positive_in. Qed.

(** Copies read what changes nothing, and write to the upper's. *)
Section Copy.
Context (read : Kiocb -> list byte -> M (Kiocb * Z * list byte)).
Context (write : Kiocb -> list byte -> M (Kiocb * Z)) (S : world -> Prop).
Hypothesis reads : forall iocb buf, gentle (read iocb buf).
Hypothesis lasts_S : enduring S.
Hypothesis writes_ok : forall iocb buf, layers S (write iocb buf) whatever.

Lemma layers_write_whole turns to rest : layers S (Fs.write_whole turns write to rest) whatever.
Proof.
  revert to rest. induction turns as [|turns IH]; intros to [|b rest]; simpl;
    try by apply only_ret. { apply only_panic. }
  step writes_ok; intros [to' wrote]. case_match; [apply only_fail|].
  case_match; [by apply only_ret|]. ends IH.
Qed.
Lemma layers_copy_chunks turns buf from to :
  layers S (Fs.copy_chunks turns read write buf from to) whatever.
Proof.
  revert buf from to. induction turns as [|turns IH]; intros buf from to; simpl; [apply only_panic|].
  apply layers_gently; [done | apply reads | intros [[from' got] buf']].
  case_match; [by apply only_ret|]. case_match; [apply only_panic|].
  step layers_write_whole; intros to'. ends IH.
Qed.
Lemma layers_copy_whole turns : layers S (Fs.copy_whole turns read write) whatever.
Proof. apply layers_copy_chunks. Qed.
End Copy.

Lemma layers_cleanup p n : layers (stands_in up p) (Fs.ovl_cleanup p n) whatever.
Proof.
  unfold Fs.ovl_cleanup. step (layers_getattr_at p n); intros st.
  destruct (file_type st); first [ends layers_do_rmdir | ends layers_do_unlink].
Qed.
Lemma layers_unlink_whiteouts p listed : layers (stands_in up p) (Fs.unlink_whiteouts p listed) whatever.
Proof.
  induction listed as [|e listed IH]; simpl; [by apply only_ret|].
  past; intros white. eapply only_bind with (Q := fun _ => stands_in up p); [|intros []; apply IH].
  destruct white; [|by apply only_ret]. eapply only_post; [|intros u w _ H; exact H].
  eapply layers_asked; [lasting | | apply layers_do_unlink]. done.
Qed.
Lemma layers_cleanup_whiteouts p n : layers (stands_in up p) (Fs.ovl_cleanup_whiteouts p n) whatever.
Proof.
  unfold Fs.ovl_cleanup_whiteouts. step (layers_getattr_at p n); intros st.
  case_match; [by apply only_ret|].
  step (layers_open_upper_dir p n); intros inner. past; intros listed.
  ends layers_unlink_whiteouts.
Qed.

(** A directory of the view, and one of its names. *)
Definition in_view (v : Fs.ViewDir) w : Prop := shows (Fs.vd_dentry v) (Fs.vd_inode v) w.
Lemma enduring_in_view v : enduring (in_view v).
Proof. apply enduring_shows. Qed.
#[local] Hint Resolve enduring_in_view : lasts.

Lemma layers_view_inode d : layers (sb_of d view) (named_inode d) (fun i => shows d i).
Proof.
  eapply only_post; [apply (layers_named_inode (sb_of d view))|].
  { apply settled_enduring. lasting. } by intros i w _ [].
Qed.
Lemma layers_view_dir d : layers (sb_of d view) (Fs.dir d) (fun v => in_view v).
Proof.
  unfold Fs.dir. step (layers_view_inode d); intros i.
  past; intros [l|]; [|apply only_fail]. apply only_ret. by intros w _ [].
Qed.
Lemma layers_view_above d : layers (sb_of d view) (reads (Dcache.parent d)) (fun p => sb_of p view).
Proof.
  eapply only_post; [apply (layers_parent (sb_of d view) d view)|].
  { apply settled_enduring. lasting. } { done. } by intros p w _ [].
Qed.
Lemma layers_view_parent d : layers (sb_of d view) (Fs.parent d) (fun v => in_view v).
Proof. unfold Fs.parent. step (layers_view_above d); intros p. ends layers_view_dir. Qed.
Lemma layers_view_level v : layers (in_view v) (Fs.level v) (level_stands up).
Proof.
  unfold Fs.level. eapply only_post; [apply (layers_level (in_view v) (Fs.vd_dentry v))|].
  { lasting. } { done. } by intros l w _ [].
Qed.

Lemma layers_tempname : layers (fun _ => True) (Fs.tempname fs) (fun x => stands_in up x.1).
Proof.
  unfold Fs.tempname. destruct (ofs_work fs) as [work|] eqn:E; [|apply only_fail].
  apply only_pre with (P' := stands_in up work); [intros w [_ Hk] _; by apply Hk|].
  past; intros next. past; intros []. by apply only_ret.
Qed.

(** *** Lookups in a view *)
Definition entry_of (l : Level) (x : nat * LayerEntry) w : Prop :=
  exists dir, layer_at l x.1 = Some dir /\ in_layer dir (le_dentry x.2) w.
Lemma enduring_entry_of l x : enduring (entry_of l x).
Proof. apply enduring_ex. intros dir. apply enduring_and; [apply enduring_pure | lasting]. Qed.
#[local] Hint Resolve enduring_entry_of : lasts.

Lemma layers_lookup_layer l n :
  layers (level_stands up l) (Fs.lookup_layer l n) (fun x w => forall f, x = Some f -> entry_of l f w).
Proof.
  unfold Fs.lookup_layer.
  enough (Hgen : forall below index, drop index l = below ->
    layers (level_stands up l) (Fs.lookup_layer_from index below n)
      (fun x w => forall f, x = Some f -> entry_of l f w)) by (by apply Hgen).
  induction below as [|[dir|] below IH]; intros index Hd; simpl; [by apply only_ret| |].
  - assert (Hi : layer_at l index = Some dir).
    { unfold layer_at, Level in *. rewrite <- (Nat.add_0_r index), <- lookup_drop, Hd. done. }
    eapply layers_then; [lasting | apply (layers_entry dir n) | | intros [| |found]].
    + intros w Hl. by eapply layer_stands.
    + eapply layers_last; [apply IH | told].
      by rewrite <- (Nat.add_1_r index), <- drop_drop, Hd.
    + by apply only_ret.
    + apply only_ret. intros w _ [_ Hf] f [= <-]. exists dir. split; [done | by apply Hf].
  - apply IH. by rewrite <- (Nat.add_1_r index), <- drop_drop, Hd.
Qed.

Lemma stands_beneath p d w : in_layer p d w -> stands (Layer.beneath p d) w.
Proof. done. Qed.

(** Each of what is merged stands. *)
Definition each_stands (l : Level) w : Prop := all_stand (shown l) w.
Lemma enduring_each l : enduring (each_stands l).
Proof. apply enduring_all_stand. Qed.
#[local] Hint Resolve enduring_each : lasts.
Lemma none_stands n w : each_stands (no_layers n) w.
Proof. induction n as [|n IH]; [apply Forall_nil_2 | exact IH]. Qed.
Lemma more_stands p l w : stands p w -> each_stands l w -> each_stands (Some p :: l) w.
Proof. intros Hp Hl. by apply Forall_cons_2. Qed.
#[local] Hint Resolve none_stands more_stands stands_beneath : core.

Lemma layers_merge_below l n : layers (each_stands l) (Fs.merge_below l n) each_stands.
Proof.
  induction l as [|[dir|] l IH]; simpl; [by apply only_ret| |].
  - apply only_pre with (P' := fun w => stands dir w /\ each_stands l w).
    { intros w _ H. unfold each_stands, shown in *. simpl in H. by inversion H. }
    assert (Hrest : forall S k, enduring S -> (forall w, S w -> each_stands l w) ->
      (forall rest w, S w -> each_stands rest w -> each_stands (k rest) w) ->
      layers S (let! rest := Fs.merge_below l n in ret (k rest)) each_stands).
    { intros S k HS Hl Hk. eapply layers_then; [done | apply IH | done | intros rest].
      apply only_ret. intros w _ []. auto. }
    step (layers_entry dir n); intros [| |found].
    + apply (Hrest _ (fun rest => None :: rest)); [lasting | told | told].
    + apply only_ret. intros w _ _. apply (none_stands (S (length l))).
    + past; intros k. case_match.
      * past; intros [|].
        -- apply only_ret. intros w _ [_ Hf]. apply more_stands; [by apply Hf | done].
        -- apply (Hrest _ (fun rest => Some (Layer.beneath dir (le_dentry found)) :: rest)).
           { lasting. } { told. } { intros rest w [_ Hf]. apply more_stands. by apply Hf. }
      * apply only_ret. intros w _ _. apply (none_stands (S (length l))).
  - eapply only_bind; [apply IH | intros rest]. by apply only_ret.
Qed.

Lemma each_lookup l i p w : each_stands l w -> l !! i = Some (Some p) -> stands p w.
Proof.
  revert i. induction l as [|o l IH]; intros i Hl Hi; [done|].
  destruct o as [q|]; [destruct (Forall_cons_1 _ _ _ Hl) as [Hq Hl']|]; destruct i as [|i]; simpl in Hi.
  - by injection Hi as <-.
  - by apply (IH i).
  - done.
  - by eapply IH.
Qed.

Lemma merged_level i (top : OverlayPath) rest w :
  (i = UPPER -> lay_sb top = up) -> stands top w -> each_stands rest w ->
  level_stands up (no_layers i ++ Some top :: rest) w.
Proof.
  intros Hup Ht Hr j p Hj. unfold Level in *. apply lookup_app_Some in Hj as [Hj|[Hle Hj]].
  - unfold no_layers in Hj. apply lookup_replicate in Hj as [E _]. done.
  - unfold no_layers in *. rewrite length_replicate in Hle, Hj.
    destruct (j - i)%nat as [|m] eqn:Em; simpl in Hj.
    + injection Hj as <-. split; [intros ->; apply Hup; unfold UPPER in *; lia | done].
    + split; [intros ->; unfold UPPER in *; lia | by eapply each_lookup].
Qed.

Lemma drop_stands l i w : level_stands up l w -> each_stands (drop i l) w.
Proof.
  intros Hl. apply Forall_forall. intros p Hp. apply list_elem_of_In in Hp.
  unfold shown in Hp. apply list_elem_of_omap in Hp as (o & Ho & E). cbv in E. subst o.
  apply list_elem_of_lookup in Ho as (j & Hj). rewrite lookup_drop in Hj. by apply (Hl _ p Hj).
Qed.

Lemma layers_layer_dir o : layers (fun _ => True) (Fs.layer_dir o) (fun p _ => o = Some p).
Proof. destruct o as [p|]; [by apply only_ret | apply only_fail]. Qed.
#[local] Hint Resolve enduring_pure : lasts.

Lemma layers_lookup_layers l n i top :
  layers (fun w => level_stands up l w /\ entry_of l (i, top) w) (Fs.lookup_layers l n i top)
    (fun m => level_stands up m).
Proof.
  unfold Fs.lookup_layers. step (layers_layer_dir (layer_at l i)); intros dir.
  apply only_pre with (P' := fun w => layer_at l i = Some dir
    /\ level_stands up l w /\ stands (Layer.beneath dir (le_dentry top)) w).
  { intros w _ [[Hl (q & Hq & Hin)] E]. simpl in Hq. rewrite E in Hq. by injection Hq as <-. }
  apply only_pure. intros Ei.
  past; intros opaque.
  eapply layers_then with (P := level_stands up l) (G := each_stands); [lasting | | |].
  - destruct opaque; [by apply only_ret; eauto|].
    eapply layers_last; [apply layers_merge_below | intros w; apply drop_stands].
  - told.
  - intros rest. apply only_ret. intros w _ [[Hl Ht] Hr]. apply merged_level; [|done..].
    intros ->. by apply (layer_stands l UPPER dir w Hl).
Qed.

(** An inode of the view, and what it keeps. *)
Definition makes_own (make : M iid) (S : world -> Prop) : Prop :=
  layers S make (fun i w => S w /\ found_in House view i w).
Lemma layers_with_ops S i ops : enduring S -> of_view fs ops -> makes_own (Fs.with_ops i ops) S.
Proof. intros HS Ho. unfold makes_own, Fs.with_ops. past; intros x. apply layers_new_inode; [done | | done].
  intros w _. by apply house_view.
Qed.
Lemma layers_inode_new S st ops : enduring S -> of_view fs ops -> makes_own (inode_new st ops) S.
Proof. intros HS Ho. apply layers_new_inode; [done | | done]. intros w _. by apply house_view. Qed.

Lemma layers_file_inode S index real ops :
  enduring S -> of_view fs ops -> makes_own (Fs.file_inode fs index real ops) S.
Proof.
  intros HS Ho. unfold makes_own, Fs.file_inode. past; intros found. past; intros [|].
  - past; intros x. by apply layers_inode_new.
  - by apply layers_with_ops.
Qed.

Lemma layers_init_found S i k :
  enduring S -> (forall w, S w -> kept_stands up k w) ->
  layers (fun w => S w /\ found_in House view i w) (Kept.ovl_inode_init i k ;;! ret i)
    (fun i w => found_in House view i w).
Proof.
  intros HS Hk w r w' Hs [Hp [Ha Ho]] H.
  assert (Hend : enduring (fun w => S w /\ answers_for House view i w)) by lasting.
  assert (Hin : forall w, S w /\ answers_for House view i w -> is_Some (w_inodes w !! i)).
  { intros w0 [_ (n & Hn & _)]. by exists n. }
  destruct (layers_inode_init _ i k Hend (fun w Hw => Hk w (proj1 Hw)) Hin w (Ok tt)
    (set_fs (ov_set_store (MkOvStore _ _ _ _ _) (w_fs w)) w) Hs (conj Hp Ha) eq_refl) as (Hs' & Hr & Hq).
  injection H as <- <-. split_and!; [done..|]. intros j [= <-].
  split; [by apply (Hq tt) | exact Ho].
Qed.

Lemma gentle_dir_getattr l : gentle (Fs.dir_getattr l).
Proof. unfold Fs.dir_getattr. gently. Qed.
#[local] Hint Resolve gentle_dir_getattr : gentle.

Lemma layers_view_lookup l n index found ops_of :
  (forall k, of_view fs (ops_of k)) ->
  layers (fun w => level_stands up l w /\ entry_of l (index, found) w)
    (Fs.lookup fs l n index found ops_of) (fun i w => found_in House view i w).
Proof.
  intros Ho. unfold Fs.lookup. past; intros k. cbv zeta. case_match.
  - eapply only_bind; [apply layers_file_inode; [lasting | apply Ho] | intros i].
    destruct (layer_at l index) as [dir|] eqn:Ei; [|by intros w r w' Hs Hp [= <- <-]].
    apply (layers_init_found (fun w => level_stands up l w /\ entry_of l (index, found) w)); [lasting|].
    intros w [Hl (q & Hq & Hin)]. simpl in Hq. rewrite Ei in Hq. by injection Hq as <-.
  - step (layers_lookup_layers l n index found); intros m.
    eapply only_bind with (Q := fun i w => (level_stands up m w) /\ found_in House view i w).
    + apply only_pre with (P' := level_stands up m); [told|]. case_match.
      * step (layers_layer_dir (layer_at m index)); intros real. past; intros i.
        eapply only_post; [apply layers_with_ops; [lasting | apply Ho]|]. by intros j w _ [[] ?].
      * past; intros st. by apply layers_inode_new; [lasting | apply Ho].
    + intros i. apply (layers_init_found (level_stands up m)); [lasting | done].
Qed.

(** *** Listings *)
Lemma gentle_merge_entries dir u listed taken merged : gentle (Fs.merge_entries dir u listed taken merged).
Proof.
  revert taken merged. induction listed as [|e listed IH]; intros; simpl; [gently|].
  apply gentle_bind; [gently | intros white]. apply IH.
Qed.
#[local] Hint Resolve gentle_merge_entries : gentle.
Lemma gentle_read_merged_from index l taken merged :
  gentle (Fs.read_merged_from index l taken merged).
Proof.
  revert index taken merged.
  induction l as [|[dir|] l IH]; intros index taken merged; simpl; [gently | | apply IH].
  apply gentle_bind; [gently | intros listed]. apply gentle_bind; [gently | intros [t m]]. apply IH.
Qed.
Lemma gentle_read_merged l : gentle (Fs.read_merged l).
Proof. apply gentle_read_merged_from. Qed.
#[local] Hint Resolve gentle_read_merged : gentle.
Lemma gentle_dir_read_merged l : gentle (Fs.dir_read_merged l).
Proof. unfold Fs.dir_read_merged. gently. Qed.
Lemma gentle_dir d : gentle (Fs.dir d).
Proof. unfold Fs.dir. gently. Qed.
Lemma gentle_fs_level v : gentle (Fs.level v).
Proof. apply gentle_level. Qed.
#[local] Hint Resolve gentle_dir_read_merged gentle_dir gentle_fs_level : gentle.
Lemma gentle_check_empty d : gentle (Fs.check_empty_dir d).
Proof. unfold Fs.check_empty_dir. gently. Qed.
#[local] Hint Resolve gentle_check_empty : gentle.

(** *** Copies up *)
Definition all_view (l : list Fs.ViewDir) w : Prop := Forall (fun v => in_view v w) l.
Lemma enduring_all_view l : enduring (all_view l).
Proof. intros w w' Hm. apply Forall_impl. intros v. by apply enduring_in_view. Qed.
#[local] Hint Resolve enduring_all_view : lasts.
Lemma in_view_sb v w : in_view v w -> sb_of (Fs.vd_dentry v) view w.
Proof. by intros []. Qed.
#[local] Hint Resolve in_view_sb : core.

Lemma layers_climb turns v unmade :
  layers (fun w => in_view v w /\ all_view unmade w) (Fs.climb turns v unmade)
    (fun x w => stands_in up x.1 w /\ all_view x.2 w).
Proof.
  revert v unmade. induction turns as [|turns IH]; intros v unmade; simpl; [apply only_panic|].
  step (layers_view_level v); intros l. destruct (upper_of l) as [held|] eqn:E.
  - apply only_ret. intros w _ [[_ Hu] Hl]. split; [by eapply upper_stands | done].
  - step (layers_view_parent (Fs.vd_dentry v)); intros next.
    eapply layers_last; [apply IH|]. intros w [[[Hv Hu] _] Hn]. split; [done|]. by apply Forall_cons_2.
Qed.

Lemma layers_times_of p : layers (stands_in up p) (Layer.getattr p) whatever.
Proof. apply layers_gentle. gently. Qed.

(** What is moved into place, whichever way it goes. *)
Lemma layers_copy_up_dir d above :
  layers (fun w => in_view d w /\ stands_in up above w) (Fs.copy_up_dir fs d above) (stands_in up).
Proof.
  unfold Fs.copy_up_dir. past; intros n.
  apply layers_copying_up; [lasting | intros a; apply enduring_stands_in|].
  step (layers_view_level d); intros l. destruct (upper_of l) as [held|] eqn:E.
  { apply only_ret. intros w _ [_ Hl]. by eapply upper_stands. }
  apply layers_gently; [lasting | destruct (shown l); gently | intros lower].
  step layers_tempname; intros [work temp]. cbn [fst].
  step (layers_do_mkdir work temp); intros [].
  eapply layers_try with (P := stands_in up work) (G := whatever); [lasting | | told | intros made].
  { step (layers_open_upper_dir work temp); intros made. ends layers_set_timestamps. }
  past; intros times.
  eapply layers_try with (P := fun w => stands_in up work w /\ stands_in up above w) (G := whatever);
    [| | told | intros [[]|e]].
  - apply enduring_and; [lasting | apply enduring_all; intros a; lasting].
  - eapply only_bind; [by apply only_lift; intros a w _ Hw _; exact Hw | intros a].
    ends layers_do_rename.
  - apply only_pre with (P' := fun w => in_view d w /\ stands_in up above w); [told|].
    tries (layers_set_timestamps above times); intros r.
    apply only_pre with (P' := fun w => in_view d w /\ stands_in up above w); [told|].
    step (layers_open_upper_dir above n); intros made'.
    step (layers_inode_update (stands_in up made') (Fs.vd_inode d) made'); [lasting | done | intros []].
    apply only_ret. told.
  - apply only_pre with (P' := fun w => stands_in up work w); [told|].
    tries (layers_do_rmdir work temp); intros r. apply only_fail.
Qed.

Lemma layers_copy_up_dirs unmade made :
  layers (fun w => all_view unmade w /\ stands_in up made w) (Fs.copy_up_dirs fs unmade made) (stands_in up).
Proof.
  revert made. induction unmade as [|d unmade IH]; intros made; simpl; [apply only_ret; told|].
  apply only_pre with (P' := fun w => (in_view d w /\ stands_in up made w) /\ all_view unmade w).
  { intros w _ [Hv ?]. destruct (Forall_cons_1 _ _ _ Hv). done. }
  step (layers_copy_up_dir d made); intros made'. ends IH.
Qed.

Lemma layers_upper_dir v : layers (in_view v) (Fs.upper_dir fs v) (stands_in up).
Proof.
  unfold Fs.upper_dir. past; intros turns.
  eapply only_bind; [eapply layers_last; [apply (layers_climb turns v [])|] | intros [made unmade]].
  { intros w Hv. by split; [|apply Forall_nil_2]. }
  ends layers_copy_up_dirs.
Qed.

Lemma beneath_same_sb fuel w a d x y :
  base House w -> ancestor_up fuel w a d = Some true ->
  w_dentries w !! d = Some x -> w_dentries w !! a = Some y -> d_sb x = d_sb y.
Proof.
  intros Hb. revert d x. induction fuel as [|fuel IH]; intros d x Hup Hx Hy; simpl in Hup; [done|].
  rewrite Hx in Hup. simpl in Hup. destruct (d_parent x) as [p|] eqn:Ep; [|done].
  destruct (base_parent _ _ Hb d x p Hx Ep) as (z & Hz & <-).
  destruct (p =? a)%nat eqn:E; [|by eapply IH].
  apply Nat.eqb_eq in E as ->. pose proof (eq_trans (eq_sym Hz) Hy) as [= ->]. done.
Qed.

Lemma gentle_is_in_upper real : gentle (Fs.is_in_upper fs real).
Proof. unfold Fs.is_in_upper. gently. Qed.
#[local] Hint Resolve gentle_is_in_upper : gentle.

Lemma layers_is_in_upper S p :
  settled S -> (forall w, S w -> stands p w) ->
  layers S (Fs.is_in_upper fs (lay_dentry p))
    (fun b w => S w /\ (b = true -> stands_in up p w)).
Proof.
  intros HS Hp. unfold Fs.is_in_upper. destruct (ofs_work fs) as [work|] eqn:E; [|by apply only_ret].
  apply only_pre with (P' := fun w => S w /\ stands_in up work w).
  { intros w [_ Hk] Hw. split; [done | by apply Hk]. }
  eapply only_bind; [apply (layers_parent _ (lay_dentry work) up);
    [apply settled_and; [done | apply settled_enduring; lasting] | told]
    | intros above].
  eapply only_post; [apply only_reads|]. intros b w [Hb _] [[[Hw _] Ha] Hr]. split; [done|]. intros ->.
  split; [|by apply Hp]. destruct (Hp w Hw) as (x & Hx & Ex), Ha as (y & Hy & Ey).
  unfold is_subdir in Hr. destruct (_ =? above)%nat eqn:Eq.
  - apply Nat.eqb_eq in Eq. rewrite Eq in Hx. pose proof (eq_trans (eq_sym Hx) Hy) as [= ->]. congruence.
  - unfold d_ancestor in Hr. destruct (ancestor_up _ w above (lay_dentry p)) as [c|] eqn:Ec; [|done].
    injection Hr as ->. pose proof (beneath_same_sb _ w above _ x y Hb Ec Hx Hy). congruence.
Qed.

(** The file a view's name keeps stands in the upper. *)
Definition child_copied (d : did) w : Prop := exists i, names_inode d i w /\ copied up i (w_fs w).
Lemma enduring_child_copied d : enduring (child_copied d).
Proof. apply enduring_ex. intros i. apply enduring_and; [apply enduring_names | lasting]. Qed.
#[local] Hint Resolve enduring_child_copied : lasts.

Lemma layers_copied_real d i :
  layers (fun w => shows d i w /\ copied up i (w_fs w)) (Kept.path_real i) (stands_in up).
Proof.
  eapply only_post; [apply (layers_path_real _ d); [lasting | told]|].
  intros real w _ [[_ Hc] [? Hk]]. split; [|done]. by apply (kept_now_copied i real w Hk).
Qed.

Lemma layers_copy_whole_up turns source copy S :
  enduring S -> (forall w, S w -> ours copy (w_fs w)) ->
  layers S (Fs.copy_whole turns (fo_read_iter source) (file_write_iter copy)) whatever.
Proof.
  intros HS Hc. apply layers_copy_whole; [intros; gently | done | intros iocb buf].
  ends changes_write.
Qed.

Section CopyUp.
Context (target : OverlayPath) (child : did) (i : iid) (n : list byte).

(** A file copied whole, and named in the upper. *)
Lemma layers_made_up turns truncate real lower :
  layers (fun w => stands_in up target w /\ keeps_file i (w_fs w))
    (let! copy := Layer.do_tmpfile target in
     (if truncate : bool then ret tt
      else
        let! source := Layer.open_realfile real Layer.read_how in
        Fs.copy_whole turns (fo_read_iter source) (file_write_iter copy)) ;;!
     regular_apply_times copy (Layer.timestamps lower) ;;!
     let! above_times := Layer.getattr target in
     let! linked := Layer.do_link target copy n in
     attempt (Layer.set_timestamps target above_times) ;;!
     Kept.set_real i (Layer.beneath target linked))
    (fun _ w => copied up i (w_fs w)).
Proof.
  step (layers_do_tmpfile target); intros copy.
  eapply layers_then with (P := fun w => ours copy (w_fs w)) (G := whatever); [lasting | | told | intros []].
  { destruct truncate; [by apply only_ret|].
    apply layers_gently; [lasting | by apply gentle_open_realfile | intros source].
    apply layers_copy_whole_up; [lasting | done]. }
  step (changes_times copy (Layer.timestamps lower)); intros []. past; intros times.
  step (layers_do_link target copy n); intros linked.
  tries (layers_set_timestamps target times); intros r.
  set (P := stands_in up (Layer.beneath target linked)).
  eapply only_post; [eapply layers_last; [apply (layers_copied_now P i)|] |].
  - subst P. lasting.
  - done.
  - intros w [[[[[[[Hu _] Hk] _] _] _] Hl] _]. split; [by split | exact Hk].
  - by intros u w _ [].
Qed.
End CopyUp.

Lemma layers_copy_up_file turns dir child truncate :
  layers (fun w => in_view dir w /\ sb_of child view w) (Fs.copy_up_file turns fs dir child truncate)
    (fun _ => child_copied child).
Proof.
  unfold Fs.copy_up_file. past; intros n.
  step (layers_upper_dir dir); intros target.
  eapply only_bind; [apply layers_inode; apply settled_enduring; lasting | intros [i|]];
    [|apply only_bind with (Q := fun _ _ => False); [apply only_fail | done]].
  apply only_pre with (P' := fun w => shows child i w /\ stands_in up target w).
  { intros w _ [[[_ ?] ?] Hi]. split; [split; [done | by apply Hi] | done]. }
  apply only_bind with (Q := fun j w => j = i /\ shows child i w /\ stands_in up target w);
    [by apply only_ret | intros j]. apply only_pure. intros ->.
  past; intros [kept|]; [|apply only_fail].
  eapply only_post with (Q' := fun _ w => shows child i w /\ copied up i (w_fs w));
    [|intros u w _ [[_ ?] ?]; by exists i].
  set (P := fun w => shows child i w /\ stands_in up target w).
  assert (HP : enduring P) by (subst P; lasting).
  eapply only_post with (Q' := fun u w => P w /\ copied up i (w_fs w)); [|by intros u w _ [[? _] ?]].
  apply (layers_known P); [done..|].
  apply layers_copying_up; [done | intros a; lasting |].
  eapply only_bind; [apply (layers_path_real P child); [done | by intros w []] | intros real].
  eapply only_bind; [apply (layers_is_in_upper _ real); [|told] | intros [|]].
  { apply settled_and; [by apply settled_enduring|].
    apply settled_and; [apply settled_enduring; lasting | apply settled_kept_now]. }
  - apply only_ret. intros w _ [[_ [_ Hk]] Hu]. apply (kept_now_copied i real w Hk).
    by apply Hu.
  - apply only_pre with (P' := fun w => stands_in up target w /\ keeps_file i (w_fs w)).
    { intros w _ [[[_ ?] [_ Hk]] _]. split; [done | by eapply kept_now_file]. }
    past; intros lower. case_match; [apply only_fail | apply layers_made_up].
Qed.

(** *** Changes of a view *)
Lemma layers_cleanup_and_whiteout dir n :
  layers (stands_in up dir) (Fs.cleanup_and_whiteout fs dir n) whatever.
Proof.
  unfold Fs.cleanup_and_whiteout. step layers_tempname; intros [work temp]. cbn [fst].
  step (layers_do_whiteout work temp); intros [].
  step (layers_entry dir n); intros there.
  apply only_pre with (P' := fun w => stands_in up work w /\ stands_in up dir w); [told|].
  apply layers_gently; [lasting | unfold Fs.is_directory; gently | intros is_dir].
  tries (layers_do_rename work temp dir n (if is_dir then Some Exchange else None)); intros [[]|e].
  - destruct is_dir; [|by apply only_ret]. apply only_pre with (P' := stands_in up work); [told|].
    tries (layers_cleanup work temp); intros r. by apply only_ret.
  - apply only_pre with (P' := stands_in up work); [told|].
    tries (layers_do_unlink work temp); intros r. apply only_fail.
Qed.

Lemma layers_exchange_in {A} dir n (make : OverlayPath -> list byte -> M A) :
  (forall work temp, layers (stands_in up work) (make work temp) whatever) ->
  layers (stands_in up dir) (Fs.exchange_in fs dir n make) whatever.
Proof.
  intros Hmake. unfold Fs.exchange_in. step layers_tempname; intros [work temp]. cbn [fst].
  eapply layers_try with (P := fun w => stands_in up work w /\ stands_in up dir w) (G := whatever);
    [lasting | | told | intros r].
  { step (Hmake work temp); intros made. step (layers_do_rename work temp dir n (Some Exchange)); intros [].
    by apply only_ret. }
  apply only_pre with (P' := stands_in up work); [told|]. destruct r as [made|e].
  - eapply layers_try with (P := stands_in up work) (G := whatever); [lasting | | told | intros r].
    + step (layers_cleanup_whiteouts work temp); intros []. ends layers_cleanup.
    + by apply only_ret.
  - tries (layers_cleanup work temp); intros r. apply only_fail.
Qed.

Lemma layers_clear_empty dir n : layers (stands_in up dir) (Fs.clear_empty fs dir n) whatever.
Proof.
  apply layers_exchange_in. intros work temp. step (layers_do_mkdir work temp); intros [].
  step (layers_open_upper_dir work temp); intros made. ends layers_set_opaque.
Qed.

Lemma gentle_upper_holds d : gentle (Fs.upper_holds fs d).
Proof. unfold Fs.upper_holds, private_of. gently. Qed.
#[local] Hint Resolve gentle_upper_holds : gentle.

Lemma layers_upper_layer l :
  layers (level_stands up l) (Fs.layer_dir (upper_of l)) (stands_in up).
Proof.
  destruct (upper_of l) as [p|] eqn:E; [|apply only_fail]. apply only_ret. intros w _ Hl.
  by eapply upper_stands.
Qed.

Lemma layers_do_remove dir d whites : layers (in_view dir) (Fs.do_remove fs dir d whites) whatever.
Proof.
  unfold Fs.do_remove. past; intros n. step (layers_view_level dir); intros l.
  step (layers_lower_positive l n); intros below. past; intros holds.
  eapply layers_then with (P := level_stands up l) (G := whatever); [lasting | | told | intros []].
  { destruct whites; [|by apply only_ret]. step (layers_upper_layer l); intros p.
    ends layers_clear_empty. }
  destruct below, holds; try apply only_fail.
  - step (layers_upper_dir dir); intros p. ends layers_cleanup_and_whiteout.
  - step (layers_upper_dir dir); intros p. ends layers_cleanup_and_whiteout.
  - step (layers_upper_layer l); intros p. ends layers_cleanup.
Qed.

Lemma gentle_ovl_file f real i : gentle (Fs.ovl_file f real i).
Proof. unfold Fs.ovl_file. gently. Qed.

(** What an open to change answers is the upper's. *)
Definition opened_to (how : OpenHow) (f : FileOps) w : Prop :=
  how_write how || how_truncate how = true -> writes f (w_fs w).

Lemma layers_open turns dir child how :
  layers (fun w => in_view dir w /\ sb_of child view w) (Fs.open turns fs dir child how) (opened_to how).
Proof.
  unfold Fs.open. step (layers_view_inode child); intros i.
  set (P := fun w => (in_view dir w /\ sb_of child view w) /\ shows child i w).
  assert (HP : enduring P) by (subst P; lasting).
  eapply only_bind; [apply (layers_file_of P child); [done | by intros w []] | intros [real|]];
    [|apply only_fail].
  apply only_pre with (P' := fun w => P w /\ stands real w).
  { intros w _ [? Hr]. split; [done | by apply Hr]. }
  eapply only_bind; [apply (layers_is_in_upper _ real); [apply settled_enduring; lasting | told] | intros [|]].
  - apply only_pre with (P' := stands_in up real); [intros w _ [_ Hu]; by apply Hu|].
    eapply only_post; [apply layers_open_realfile|]. by intros f w _ ? _.
  - apply only_pre with (P' := P); [told|]. case_match eqn:E.
    + apply negb_true_iff, orb_false_iff in E as [Hw Ht].
      apply layers_gently; [done | by apply gentle_open_realfile | intros f].
      eapply only_post; [apply layers_gentle, gentle_ovl_file|].
      intros g w _ _. unfold opened_to. by rewrite Hw, Ht.
    + subst P. step (layers_copy_up_file turns dir child (how_truncate how)); intros [].
      apply only_pre with (P' := fun w => shows child i w /\ copied up i (w_fs w)).
      { intros w _ [[_ Hs] (j & (x & Hx & Hj) & Hc)]. split; [done|].
        destruct Hs as [_ (y & Hy & Hi)]. pose proof (eq_trans (eq_sym Hx) Hy) as [= ->].
        by pose proof (eq_trans (eq_sym Hj) Hi) as [= ->]. }
      step (layers_copied_real child i); intros real'.
      eapply only_post; [eapply layers_last; [apply layers_open_realfile | told]|]. by intros f w _ ? _.
Qed.

Lemma layers_create dir n : layers (in_view dir) (Fs.create fs dir n) whatever.
Proof.
  unfold Fs.create. step (layers_upper_dir dir); intros p. past; intros [|].
  - eapply layers_last; [apply layers_exchange_in; intros; apply layers_do_create | told].
  - ends layers_do_create.
Qed.
Lemma layers_mkdir dir n : layers (in_view dir) (Fs.mkdir fs dir n) whatever.
Proof.
  unfold Fs.mkdir. step (layers_upper_dir dir); intros p. past; intros [|].
  - ends layers_clear_empty.
  - ends layers_do_mkdir.
Qed.
Lemma layers_rmdir dir d : layers (in_view dir) (Fs.rmdir fs dir d) whatever.
Proof.
  unfold Fs.rmdir. past; intros [whites|]; [|apply only_fail]. ends layers_do_remove.
Qed.

Lemma gentle_can_move d k : gentle (Fs.can_move fs d k).
Proof. unfold Fs.can_move. gently. Qed.
#[local] Hint Resolve gentle_can_move : gentle.

Lemma layers_rename turns from moved to target :
  layers (fun w => in_view from w /\ sb_of moved view w /\ in_view to w)
    (Fs.rename turns fs from moved to target) whatever.
Proof.
  unfold Fs.rename. past; intros fn. past; intros tn.
  step (layers_view_level from); intros fl. past; intros moving. past; intros tl. cbv zeta.
  past; intros movable. case_match; [apply only_fail|].
  past; intros onto. past; intros whites.
  step (layers_lower_positive fl fn); intros below.
  eapply layers_then with (P := fun w => in_view from w /\ sb_of moved view w) (G := whatever);
    [lasting | | told | intros []].
  { case_match; [|by apply only_ret]. ends layers_copy_up_file. }
  step (layers_upper_dir to); intros target_dir.
  eapply layers_then with (P := stands_in up target_dir) (G := whatever); [lasting | | told | intros []].
  { destruct whites; [|by apply only_ret]. ends layers_clear_empty. }
  step (layers_view_level from); intros fl'. step (layers_upper_layer fl'); intros source.
  eapply layers_then with (P := stands_in up source) (G := whatever); [lasting | | told | intros []].
  { case_match; [|by apply only_ret]. step (layers_open_upper_dir source fn); intros d.
    ends layers_set_opaque. }
  past; intros onto_white.
  eapply layers_then; [lasting | apply layers_do_rename | told | intros []].
  case_match; [|by apply only_ret]. ends layers_do_unlink.
Qed.

(** ** A view's tables *)
Section Table.
Context (o : Overlay).
Hypothesis o_fs : ov_fs o = fs.

Lemma ops_of_view k : of_view fs (View.ops_of o k).
Proof.
  unfold View.ops_of, of_view. eexists.
  split; [apply (beneath_view (House := House) (fine := fine) (beneath := beneath))|].
  by destruct k.
Qed.

Lemma layers_table_lookup d :
  layers (sb_of d view) (View.lookup o d) (fun f w => answer_in House view f w).
Proof.
  unfold View.lookup. rewrite o_fs. step (layers_view_parent d); intros at_.
  step (layers_view_level at_); intros l. past; intros n. case_match; [apply only_fail|].
  step (layers_lookup_layer l n); intros [[index found]|]; [|by apply only_ret].
  eapply only_bind; [eapply layers_last; [apply (layers_view_lookup l (le_stored_name found) index found)|] | intros i].
  - apply ops_of_view.
  - intros w [[_ Hl] Hf]. split; [done | by apply Hf].
  - apply only_ret. intros w _ Hi. by case_match.
Qed.

Lemma gentle_table_getattr d : gentle (View.getattr o d).
Proof. unfold View.getattr. gently. Qed.
Lemma layers_setattr_of d a : layers (sb_of d up) (notify_change d a) whatever.
Proof. eapply only_whatever, (layers_notify_change up ours writes (sb_of d up)); [lasting | done]. Qed.

Lemma layers_table_setattr d a : layers (sb_of d view) (View.setattr o d a) whatever.
Proof.
  unfold View.setattr. rewrite o_fs. step (layers_view_dir d); intros v.
  step (layers_upper_dir v); intros p. past; intros held.
  apply layers_holding; [intros []; by apply settled_enduring, enduring_pure|]. ends layers_setattr_of.
Qed.

Lemma gentle_open_each l : gentle (View.open_each l).
Proof. induction l as [|p l IH]; simpl; gently. Qed.
#[local] Hint Resolve gentle_open_each : gentle.
Lemma gentle_table_open d : gentle (View.open o d).
Proof. unfold View.open. gently. Qed.

Lemma layers_table_create d : layers (sb_of d view) (View.create o d) whatever.
Proof.
  unfold View.create. rewrite o_fs. step (layers_view_parent d); intros at_. past; intros n.
  step (layers_create at_ n); intros []. step (layers_table_lookup d); intros [i| |n' i]; try apply only_fail.
  apply only_pre with (P' := fun w => sb_of d view w /\ answers_for House view i w).
  { by intros w _ [[[? _] _] [? _]]. }
  eapply only_whatever, layers_add with (s := view); [lasting | done].
Qed.
Lemma layers_table_mkdir d : layers (sb_of d view) (View.mkdir o d) whatever.
Proof.
  unfold View.mkdir. rewrite o_fs. step (layers_view_parent d); intros at_. past; intros n.
  ends layers_mkdir.
Qed.
Lemma layers_table_rmdir d : layers (sb_of d view) (View.rmdir o d) whatever.
Proof. unfold View.rmdir. rewrite o_fs. step (layers_view_parent d); intros at_. ends layers_rmdir. Qed.
Lemma layers_table_unlink d : layers (sb_of d view) (View.unlink o d) whatever.
Proof. unfold View.unlink. rewrite o_fs. step (layers_view_parent d); intros at_. ends layers_do_remove. Qed.
Lemma layers_table_rename turns d d' flag :
  layers (fun w => sb_of d view w /\ sb_of d' view w) (View.rename turns o d d' flag) whatever.
Proof.
  unfold View.rename. rewrite o_fs. case_match; [apply only_fail|].
  step (layers_view_parent d); intros at_. step (layers_view_parent d'); intros to_at.
  ends layers_rename.
Qed.

Lemma gentle_real_of d : gentle (View.real_of d).
Proof. unfold View.real_of. gently. Qed.
#[local] Hint Resolve gentle_real_of : gentle.
Lemma gentle_real_getattr d : gentle (View.real_getattr d).
Proof. unfold View.real_getattr. gently. Qed.
Lemma gentle_link_get_link d : gentle (View.link_get_link d).
Proof. unfold View.link_get_link. gently. Qed.

Lemma layers_real_of d :
  layers (fun w => sb_of d view w /\ child_copied d w) (View.real_of d) (fun x => sb_of x.1 up).
Proof.
  unfold View.real_of. step (layers_view_inode d); intros i.
  apply only_pre with (P' := fun w => shows d i w /\ copied up i (w_fs w)).
  { intros w _ [[_ (j & (x & Hx & Hj) & Hc)] Hs]. split; [done|].
    destruct Hs as [_ (y & Hy & Hi)]. pose proof (eq_trans (eq_sym Hx) Hy) as [= ->].
    by pose proof (eq_trans (eq_sym Hj) Hi) as [= ->]. }
  eapply only_bind; [apply (layers_file_of _ d); [lasting | told] | intros [real|]]; [|apply only_fail].
  apply only_ret. intros w _ [[_ Hc] Hr]. destruct (Hr _ eq_refl) as [Hs Hk].
  apply stands_in_sb. split; [by apply (kept_now_copied i real w Hk) | done].
Qed.

Lemma layers_regular_setattr turns d a :
  layers (sb_of d view) (View.regular_setattr turns o d a) whatever.
Proof.
  unfold View.regular_setattr. rewrite o_fs. step (layers_view_parent d); intros at_.
  step (layers_copy_up_file turns at_ d false); intros [].
  step (layers_real_of d); intros [real i]. cbn [fst]. past; intros held.
  apply layers_holding; [intros []; by apply settled_enduring, enduring_pure|]. ends layers_setattr_of.
Qed.
Lemma layers_regular_open turns d how :
  layers (sb_of d view) (View.regular_open turns o d how) (opened_to how).
Proof.
  unfold View.regular_open. rewrite o_fs. step (layers_view_parent d); intros at_. ends layers_open.
Qed.

Lemma gentle_revalidate_real d : gentle (View.ovl_revalidate_real d).
Proof. unfold View.ovl_revalidate_real. gently. Qed.
#[local] Hint Resolve gentle_revalidate_real : gentle.
Lemma gentle_revalidate_each l : gentle (View.revalidate_each l).
Proof. induction l as [|p l IH]; simpl; gently. Qed.
Lemma gentle_match_each above below n : gentle (View.match_each above below n).
Proof.
  revert below. induction above as [|[p|] above IH]; intros [|[q|] below]; simpl; gently; auto.
Qed.
#[local] Hint Resolve gentle_revalidate_each gentle_match_each : gentle.
Lemma gentle_fs_parent d : gentle (Fs.parent d).
Proof. unfold Fs.parent. gently. Qed.
#[local] Hint Resolve gentle_fs_parent : gentle.

Lemma layers_table_revalidate d : layers (sb_of d view) (View.revalidate o d) whatever.
Proof.
  unfold View.revalidate. past; intros [i|].
  - apply layers_gentle. unfold private_of. gently.
  - eapply only_bind; [apply layers_table_lookup | intros f]. by apply only_ret.
Qed.

(** *** Its open files *)
Lemma gentle_real_file h : gentle (View.real_file h).
Proof.
  unfold View.real_file. apply gentle_bind; [gently | intros f].
  destruct (of_upper f); [gently|]. apply gentle_bind; [gently | intros real].
  case_match; [gently|]. apply gentle_bind; [by apply gentle_open_realfile | intros g]. gently.
Qed.
#[local] Hint Resolve gentle_real_file : gentle.
Lemma gentle_file_read h iocb buf : gentle (View.file_read_iter h iocb buf).
Proof. unfold View.file_read_iter. gently. Qed.
Lemma gentle_file_fsync h b : gentle (View.file_fsync h b).
Proof. unfold View.file_fsync. gently. Qed.
Lemma gentle_file_flush h : gentle (View.file_flush h).
Proof. unfold View.file_flush. gently. Qed.
Lemma gentle_on_account {A} a (f : option VmCommitted -> A * option VmCommitted) : gentle (View.on_account a f).
Proof. unfold View.on_account. gently. Qed.
#[local] Hint Resolve gentle_on_account : gentle.
Lemma gentle_uncharge l : gentle (View.uncharge l).
Proof. unfold View.uncharge. gently. Qed.
Lemma gentle_charge a n : gentle (View.charge a n).
Proof. unfold View.charge. gently. Qed.
Lemma gentle_dots d : gentle (View.dots d).
Proof. unfold View.dots. gently. Qed.
#[local] Hint Resolve gentle_uncharge gentle_charge gentle_dots : gentle.
Lemma gentle_dir_iterate h d c : gentle (View.dir_iterate_shared h fs d c).
Proof. unfold View.dir_iterate_shared, View.rdir_iterate. gently. Qed.
End Table.

(** ** Everything a view can be asked *)
Context (turns : nat).
Abbreviation tables := (stacked_tables turns V F).
Abbreviation files := (stacked_files V F).
Abbreviation unit_of m := (let! _ := m in ret tt).

Inductive ViewCall :=
| APermission (mask : Z) | AGetattr | ASetattr (a : Iattr FileOps) | ALookup | AGetLink
| AOpen (how : OpenHow) | ACreate | AAtomicOpen (how : OpenHow) | AMkdir | ALink (old : did)
| ASymlink (target : list byte) | ARmdir | AUnlink.

(** A table's operation, asked of an inode's operations and a name. *)
Definition asked (x : InodeOps) (d : did) (c : ViewCall) : M unit :=
  match c with
  | APermission mask => op_permission (VfsTables := tables) x d mask
  | AGetattr => unit_of (op_getattr (VfsTables := tables) x d)
  | ASetattr a => op_setattr (VfsTables := tables) x d a
  | ALookup => unit_of (op_lookup (VfsTables := tables) x d)
  | AGetLink => unit_of (op_get_link (VfsTables := tables) x d)
  | AOpen how => unit_of (op_open (VfsTables := tables) x d how)
  | ACreate => op_create (VfsTables := tables) x d
  | AAtomicOpen how => unit_of (op_atomic_open (VfsTables := tables) x d how)
  | AMkdir => op_mkdir (VfsTables := tables) x d
  | ALink old => op_link (VfsTables := tables) x old d
  | ASymlink target => op_symlink (VfsTables := tables) x d target
  | ARmdir => op_rmdir (VfsTables := tables) x d
  | AUnlink => op_unlink (VfsTables := tables) x d
  end.

Lemma layers_unit_of {A} P (m : M A) Q : layers P m Q -> layers P (unit_of m) whatever.
Proof. intros Hm. eapply only_bind; [exact Hm | intros a]. by apply only_ret. Qed.

Lemma layers_asking o d : ov_fs o = fs ->
  layers (sb_of d view) (View.lookup o d) (fun _ => sb_of d view).
Proof.
  intros Ho. eapply layers_asked; [lasting | | eapply layers_any, layers_table_lookup; exact Ho]. done.
Qed.
Lemma layers_atomic_open o d how :
  ov_fs o = fs ->
  layers (sb_of d view) (default_atomic_open (View.lookup o) (View.create o) d how) whatever.
Proof.
  intros Ho. unfold default_atomic_open, in_lookup. past; intros asking.
  apply only_bind with (Q := fun _ => sb_of d view); [|intros [found|]].
  - destruct asking; [|by apply only_ret].
    eapply only_bind; [by apply layers_asking | intros found].
    destruct (how_create how), found; by apply only_ret.
  - by apply only_ret.
  - case_match; [by apply only_ret|].
    eapply only_bind; [by apply layers_table_create | intros []]. by apply only_ret.
Qed.

Lemma gentle_default_atomic d how : gentle (default_atomic_open default_lookup default_create d how).
Proof. unfold default_atomic_open, in_lookup, default_lookup, default_create. gently. Qed.

(** Every operation of its tables that is not one of its changes. *)
Lemma layers_unit_gently {A} P (m : M A) : gentle m -> layers P (unit_of m) whatever.
Proof. intros Hm. by eapply layers_unit_of, layers_gentle. Qed.
#[local] Hint Resolve layers_unit_gently layers_unit_of layers_table_lookup layers_table_setattr
  layers_regular_setattr layers_regular_open layers_table_create layers_table_mkdir
  layers_table_rmdir layers_table_unlink layers_atomic_open : asks.
#[local] Hint Resolve gentle_table_getattr gentle_real_getattr gentle_link_get_link gentle_table_open
  gentle_default_atomic : gentle.

Lemma layers_asked_of x d c :
  of_view fs x -> layers (sb_of d view) (asked x d c) whatever.
Proof.
  intros (v & Hv & Ho). destruct c; simpl; rewrite Hv; destruct v as [o|o|o]; simpl in Ho;
    first [by apply only_fail | by apply only_ret | solve [eauto 3 with asks]
      | apply layers_unit_gently; unfold default_lookup, default_get_link, default_open; solve [gently]
      | unfold default_setattr; case_match; apply only_fail].
Qed.

Inductive FileCall :=
| ASeek (d : did) (pos offset : Z) (whence : Whence) | ARead (iocb : Kiocb) (buf : list byte)
| AWrite (iocb : Kiocb) (buf : list byte) | AIterate (d : did) (c : DirContext)
| AAllocate (offset length : Z) | ASync (datasync : bool) | AFlush.

(** A file open in the view, and an operation of its. *)
Definition of_view_file (f : FileOps) : Prop :=
  exists v, ov_open_of f = Some v
    /\ match v with ViewDirectory _ shown _ => shown = fs | ViewFile _ _ => True end.
Definition asked_file (f : FileOps) (c : FileCall) : M unit :=
  match c with
  | ASeek d pos offset whence => unit_of (fo_llseek (FileTables := files) f d pos offset whence)
  | ARead iocb buf => unit_of (fo_read_iter (FileTables := files) f iocb buf)
  | AWrite iocb buf => unit_of (fo_write_iter (FileTables := files) f iocb buf)
  | AIterate d c => unit_of (fo_iterate_shared (FileTables := files) f d c)
  | AAllocate offset length => fo_fallocate (FileTables := files) f offset length
  | ASync datasync => fo_fsync (FileTables := files) f datasync
  | AFlush => fo_flush (FileTables := files) f
  end.

Lemma gentle_seek d pos offset whence : gentle (generic_file_llseek d pos offset whence).
Proof. unfold generic_file_llseek. gently. Qed.

Lemma layers_asked_file f c : of_view_file f -> layers (fun _ => True) (asked_file f c) whatever.
Proof.
  intros (v & Hv & Hd). destruct c; simpl; rewrite Hv; destruct v as [h s|h shown real]; try subst shown;
    first [by apply only_fail | by apply only_ret
      | apply layers_unit_gently;
        first [apply gentle_seek | apply gentle_file_read | apply gentle_dir_iterate
          | unfold default_write_iter, default_iterate_shared; solve [gently]]
      | apply layers_gentle; first [apply gentle_file_fsync | apply gentle_file_flush]].
Qed.

(** A step of a world that shows the view: what its tables and its open files are
    asked, what is written to a file its upper opened, and what the VFS does of its
    own, a name it comes to stand for an inode among it. *)
Inductive view_step w w' : Prop :=
| asks_a_name x d c r :
    of_view fs x -> sb_of d view w -> asked x d c w = Some (r, w') -> view_step w w'
| asks_a_move x d x' d' flag r :
    of_view fs x -> sb_of d view w -> sb_of d' view w ->
    op_rename (VfsTables := tables) x d x' d' flag w = Some (r, w') -> view_step w w'
| asks_whether_valid ops v x d r :
    ov_dentry_of ops = Some v -> ov_fs v = fs -> sb_of d view w ->
    dop_revalidate (VfsTables := tables) ops x d w = Some (r, w') -> view_step w w'
| asks_a_file f c r :
    of_view_file f -> asked_file f c w = Some (r, w') -> view_step w w'
| asks_to_write f iocb buf r :
    writes f (w_fs w) -> fo_write_iter (FileTables := files) f iocb buf w = Some (r, w') -> view_step w w'
| asks_for_room f offset n r :
    writes f (w_fs w) -> fo_fallocate (FileTables := files) f offset n w = Some (r, w') -> view_step w w'
| by_the_vfs : base House w' -> outside w w' -> view_step w w'.

Lemma layers_asked_move x d x' d' flag :
  of_view fs x ->
  layers (fun w => sb_of d view w /\ sb_of d' view w)
    (op_rename (VfsTables := tables) x d x' d' flag) whatever.
Proof.
  intros (v & Hv & Ho). simpl. rewrite Hv. destruct v as [o|o|o]; simpl in Ho; try apply only_fail.
  by apply layers_table_rename.
Qed.

(** A file the upper opened to write. *)
Lemma layers_written f iocb buf :
  layers (fun w => writes f (w_fs w)) (fo_write_iter (FileTables := files) f iocb buf) whatever.
Proof. simpl. destruct (ov_open_of f); [apply only_fail | apply changes_write_iter]. Qed.
Lemma layers_given_room f offset n :
  layers (fun w => writes f (w_fs w)) (fo_fallocate (FileTables := files) f offset n) whatever.
Proof. simpl. destruct (ov_open_of f); [apply only_fail | apply changes_fallocate]. Qed.

(** What an open to change answers is a file the upper opened. *)
Lemma layers_asked_open x v d how :
  ov_downcast x = Some (OverlayRegular v) -> ov_fs v = fs ->
  layers (sb_of d view) (op_open (VfsTables := tables) x d how) (opened_to how).
Proof. intros Hx Hv. simpl. rewrite Hx. by apply layers_regular_open. Qed.

Lemma view_step_keeps w w' :
  view_step w w' -> sound House K w -> sound House K w' /\ moves R w w'.
Proof.
  assert (Hend : forall A P (m : M A) r, layers P m whatever -> P w -> m w = Some (r, w') ->
    sound House K w -> sound House K w' /\ moves R w w').
  { intros A P m r Hm Hp Hr Hs. destruct (only_end (sound House K) (moves R) P m whatever w r w' _ Hm Hs Hp Hr) as (? & ? & _). done. }
  intros [x d c r Hx Hd Hr|x d x' d' flag r Hx Hd Hd' Hr|ops v x d r Hv Ho Hd Hr|f c r Hf Hr
    |f iocb buf r Hf Hr|f offset n r Hf Hr|Hb' Ho] Hs.
  - eapply Hend; [by apply layers_asked_of | exact Hd | exact Hr | done].
  - eapply Hend; [by apply (layers_asked_move x d x' d' flag) | by split | exact Hr | done].
  - simpl in Hr. rewrite Hv in Hr. eapply Hend; [by apply (layers_table_revalidate v Ho d) | exact Hd | exact Hr | done].
  - eapply Hend; [by apply layers_asked_file | done | exact Hr | done].
  - eapply Hend; [by apply (layers_written f) | exact Hf | exact Hr | done].
  - eapply Hend; [by apply (layers_given_room f) | exact Hf | exact Hr | done].
  - by apply sound_outside.
Qed.

Lemma view_keeps w w' :
  rtc view_step w w' -> sound House K w -> sound House K w' /\ moves R w w'.
Proof.
  induction 1 as [w|w1 w2 w3 H12 _ IH]; intros Hs; [split; [done | reflexivity]|].
  destruct (view_step_keeps w1 w2 H12 Hs) as [Hs2 Hm]. destruct (IH Hs2) as [Hs3 Hm'].
  split; [done | by transitivity w2].
Qed.
End View.

(** ** Layers that are Tmpfs trees *)

(** What a tree holds of the objects it counts. *)
Definition held_by {X} (tree : X -> treeid) (t : treeid) (m : gmap nat X) : gmap nat X :=
  filter (fun p => tree p.2 = t) m.
Definition tree_of (t : treeid) (s : Store)
  : option Tree * gmap dirid DirInode * gmap fileid Content * gmap whiteoutid treeid :=
  (trees s !! t, held_by dir_tree t (dirs s), held_by c_tree t (files s), held_by id t (whiteouts s)).

Definition dir_in (s : Store) (t : treeid) (d : dirid) : Prop :=
  exists x, dirs s !! d = Some x /\ dir_tree x = t.
Definition file_in (s : Store) (t : treeid) (f : fileid) : Prop :=
  exists c, files s !! f = Some c /\ c_tree c = t.
Definition node_in (s : Store) (t : treeid) (n : Node) : Prop :=
  match n with NFile f => file_in s t f | NDirectory d => dir_in s t d | NWhiteout _ => True end.
Definition inode_in (s : Store) (t : treeid) (o : TmpfsInode) : Prop :=
  match o with
  | TmpfsDirectory t' d => t' = t /\ dir_in s t d
  | TmpfsRegular f => file_in s t f
  | TmpfsWhiteout => True
  end.

(** A directory's entries are of its own tree, and no object has an address not
    yet given. *)
Record kept_apart (s : Store) : Prop := MkKeptApart {
  apart_entries d x n node : dirs s !! d = Some x -> State.entries (dir_state x) !! n = Some node ->
    node_in s (dir_tree x) node;
  apart_fresh : fresh_objects s;
}.

(** Only the tree [tu] changes, and what is of a tree stays of it. *)
Record only_tree (tu : treeid) (s s' : Store) : Prop := MkOnlyTree {
  only_others t : t <> tu -> tree_of t s' = tree_of t s;
  only_dirs t d : dir_in s t d -> dir_in s' t d;
  only_files t f : file_in s t f -> file_in s' t f;
}.

#[export] Instance only_tree_pre tu : PreOrder (only_tree tu).
Proof.
  split; [by split|]. intros s1 s2 s3 [O1 D1 F1] [O2 D2 F2]. split; [|auto..].
  intros t Ht. by rewrite O2, O1.
Qed.

Lemma node_in_mono tu s s' t n : only_tree tu s s' -> node_in s t n -> node_in s' t n.
Proof. intros Ho. destruct n; simpl; [apply Ho | apply Ho | done]. Qed.
Lemma inode_in_mono tu s s' t o : only_tree tu s s' -> inode_in s t o -> inode_in s' t o.
Proof. intros Ho. destruct o; simpl; [intros [??]; split; [done | by apply Ho] | apply Ho | done]. Qed.

(** An object of [tu] put, or altered in place. *)
Lemma held_by_same {X} (tree : X -> treeid) t (m m' : gmap nat X) :
  (forall i x, tree x = t -> m' !! i = Some x <-> m !! i = Some x) ->
  held_by tree t m' = held_by tree t m.
Proof.
  intros Hm. unfold held_by. apply map_eq. intros i. apply option_eq. intros x.
  rewrite !map_lookup_filter_Some. simpl. specialize (Hm i x). tauto.
Qed.
Lemma held_by_insert {X} (tree : X -> treeid) t i x (m : gmap nat X) :
  m !! i = None -> tree x <> t -> held_by tree t (<[i := x]> m) = held_by tree t m.
Proof.
  intros Hi Hx. apply held_by_same. intros j y Hy. rewrite lookup_insert_Some. split.
  - by intros [[<- <-]|[_ ?]].
  - intros Hj. right. split; [|done]. intros ->. congruence.
Qed.
Lemma held_by_alter {X} (tree : X -> treeid) t g i x (m : gmap nat X) :
  m !! i = Some x -> tree x <> t -> (forall y, tree (g y) = tree y) ->
  held_by tree t (alter g i m) = held_by tree t m.
Proof.
  intros Hi Hx Hg. apply held_by_same. intros j y Hy. destruct (decide (j = i)) as [->|Hne].
  - rewrite lookup_alter_eq, Hi. simpl. split; intros [= <-]; [by rewrite Hg in Hy | done].
  - by rewrite lookup_alter_ne.
Qed.

Section Changes.
Context (tu : treeid) (s : Store).

Lemma only_alter_tree g : only_tree tu s (with_trees (alter g tu (trees s)) s).
Proof.
  split; [|done..]. intros t Ht. unfold tree_of. simpl. by rewrite lookup_alter_ne.
Qed.
Lemma only_alter_dir d (g : State.State -> State.State) :
  dir_in s tu d ->
  only_tree tu s (with_dirs (alter (fun x => MkDir (dir_ino x) (dir_tree x) (g (dir_state x))) d (dirs s)) s).
Proof.
  intros (x & Hx & Et). split; [|intros t a (y & Hy & Ey); simpl | done].
  - intros t Ht. unfold tree_of. simpl. rewrite (held_by_alter _ t _ d x); [done..| by rewrite Et | done].
  - destruct (decide (a = d)) as [->|Hne].
    + eexists. simpl. rewrite lookup_alter_eq, Hy. by split.
    + exists y. simpl. by rewrite lookup_alter_ne.
Qed.
Lemma only_alter_file f (g : Content -> Content) :
  file_in s tu f -> (forall c, c_tree (g c) = c_tree c) ->
  only_tree tu s (with_files (alter g f (files s)) s).
Proof.
  intros (x & Hx & Et) Hg. split; [|done | intros t a (y & Hy & Ey); simpl].
  - intros t Ht. unfold tree_of. simpl. rewrite (held_by_alter _ t _ f x); [done..| by rewrite Et | done].
  - destruct (decide (a = f)) as [->|Hne].
    + eexists. simpl. rewrite lookup_alter_eq, Hy. by rewrite Hg.
    + exists y. simpl. by rewrite lookup_alter_ne.
Qed.
End Changes.

(** ** Tmpfs's operations keep to their own tree *)
Section Trees.
Context (home : sbid -> option treeid) (fs : OverlayFs) (view up : sbid) (tu : treeid).
Hypothesis home_up : home up = Some tu.
Hypothesis home_view : home view = None.
Abbreviation T := stack_types.
Implicit Types w : @world T.

Definition at_home (s : sbid) (o : @InodeOps T) (x : @FsState T) : Prop :=
  match o with
  | OnView v => s = view /\ ov_fs (view_overlay v) = fs
  | OnTmpfs n => exists t, home s = Some t /\ inode_in x.1 t n
  end.
Definition well_kept (x : @FsState T) : Prop := kept_apart x.1.
Definition only_up (x x' : @FsState T) : Prop := only_tree tu x.1 x'.1.

#[export] Instance only_up_pre : PreOrder only_up.
Proof. split; [intros x; unfold only_up; reflexivity | intros x y z; unfold only_up; apply transitivity]. Qed.

#[export] Instance trees_beneath : Beneath (T := T) at_home well_kept only_up.
Proof.
  split; [apply _ | | done | | done | done].
  - intros s [o|v] x x' Hb; simpl; [|done]. intros (t & Ht & Ho). exists t. split; [done|].
    by eapply inode_in_mono.
  - intros y x. unfold only_up. reflexivity.
Qed.

Lemma view_at_home o x : at_home view o x <-> of_view fs o.
Proof.
  destruct o as [n|v]; simpl.
  - split; [intros (t & Ht & _); by rewrite home_view in Ht | by intros (v & [=] & _)].
  - split; [intros [_ Hv]; by exists v | intros (v' & [= <-] & Hv); done].
Qed.

Abbreviation K := (knows fs up well_kept).
Abbreviation R := (above up only_up).
Abbreviation layers := (only (sound at_home K) (moves R)).
Abbreviation enduring := (LayerFacts.enduring R).
Abbreviation gentle := (LayerFacts.gentle at_home K R).

#[local] Instance trees_sheltered : Sheltered at_home K R.
Proof. apply (view_sheltered (beneath := only_up) (fine := well_kept)). Qed.
#[local] Hint Resolve trees_sheltered : gentle.
Lemma steady_now : framed (steady at_home) now.
Proof. intros w r w' [= <- <-]. by apply steady_same. Qed.
#[local] Hint Resolve steady_now steady_name : vfs.

Definition dir_of_tree (t : treeid) (d : dirid) w : Prop := dir_in (w_fs w).1 t d.
Definition file_of_tree (t : treeid) (f : fileid) w : Prop := file_in (w_fs w).1 t f.
Definition node_of_tree (t : treeid) (n : Node) w : Prop := node_in (w_fs w).1 t n.
Definition inode_of_tree (t : treeid) (o : TmpfsInode) w : Prop := inode_in (w_fs w).1 t o.
Abbreviation has_dir := (dir_of_tree tu).
Abbreviation has_file := (file_of_tree tu).
Abbreviation has_node := (node_of_tree tu).
Lemma enduring_has_dir t d : enduring (dir_of_tree t d).
Proof. intros w w' [[Hb _] _]. apply Hb. Qed.
Lemma enduring_has_file t f : enduring (file_of_tree t f).
Proof. intros w w' [[Hb _] _]. apply Hb. Qed.
Lemma enduring_has_node t n : enduring (node_of_tree t n).
Proof. intros w w' [[Hb _] _]. by apply (node_in_mono tu). Qed.
Lemma enduring_has_inode t o : enduring (inode_of_tree t o).
Proof. intros w w' [[Hb _] _]. by apply (inode_in_mono tu). Qed.
#[local] Hint Resolve enduring_has_dir enduring_has_file enduring_has_node enduring_has_inode : lasts.

Lemma layers_on_store P (f : Store -> Store) :
  enduring P ->
  (forall w, P w -> kept_apart (w_fs w).1 -> only_tree tu (w_fs w).1 (f (w_fs w).1) /\ kept_apart (f (w_fs w).1)) ->
  layers P (on_store f) (fun _ => P).
Proof.
  intros HP Hf. apply (layers_on_beneath fs up P (fun x : @FsState T => (f x.1, x.2))); [done | done|].
  intros w [_ Hk] Hp. apply Hf; [done | apply Hk].
Qed.

Lemma layers_on_tree P g : enduring P -> layers P (on_tree tu g) (fun _ => P).
Proof.
  intros HP. apply layers_on_store; [done|]. intros w _ [He Hf]. split; [apply only_alter_tree|].
  split; [done|]. intros n Hn. destruct (Hf n Hn) as (? & ? & ? & ?). split; [|done].
  by apply alter_fresh.
Qed.

(** Entries are of the tree. *)
Definition entries_of_tree (t : treeid) (s : State.State) w : Prop :=
  forall n node, State.entries s !! n = Some node -> node_of_tree t node w.
Abbreviation entries_ok := (entries_of_tree tu).
Lemma enduring_entries_ok t s : enduring (entries_of_tree t s).
Proof. apply enduring_all. intros n. apply enduring_all. intros node. apply enduring_imp. lasting. Qed.
#[local] Hint Resolve enduring_entries_ok : lasts.

Lemma layers_on_state P d (g : State.State -> State.State) :
  enduring P -> (forall w, P w -> has_dir d w) ->
  (forall w s, P w -> entries_ok s w -> entries_ok (g s) w) ->
  layers P (on_state d g) (fun _ => P).
Proof.
  intros HP Hd Hg. apply layers_on_store; [done|]. intros w Hp Hk. destruct Hk as [He Hf].
  assert (Ho := only_alter_dir tu (w_fs w).1 d g (Hd w Hp)). split; [exact Ho|].
  split; [|intros n Hn; destruct (Hf n Hn) as (? & ? & ? & ?); split_and!; [done | by apply alter_fresh | done..]].
  intros a y n node Hy Hn. simpl in Hy. apply alter_at in Hy as (x & Hx & ->).
  eapply (node_in_mono tu); [exact Ho|]. destruct (a =? d)%nat eqn:Ea; [|by eapply He].
  apply Nat.eqb_eq in Ea as ->. simpl in Hn |- *.
  destruct (Hd w Hp) as (x' & Hx' & Et). pose proof (eq_trans (eq_sym Hx) Hx') as [= <-]. rewrite Et.
  apply (Hg w (dir_state x) Hp) with (n := n); [|done]. intros m node' Hm. unfold node_of_tree. rewrite <- Et.
  by eapply He.
Qed.

Lemma layers_on_file P f (g : Content -> Content) :
  enduring P -> (forall w, P w -> has_file f w) -> (forall c, c_tree (g c) = c_tree c) ->
  layers P (on_file f g) (fun _ => P).
Proof.
  intros HP Hd Hg. apply layers_on_store; [done|]. intros w Hp [He Hf].
  assert (Ho := only_alter_file tu (w_fs w).1 f g (Hd w Hp) Hg). split; [exact Ho|].
  split; [|intros n Hn; destruct (Hf n Hn) as (? & ? & ? & ?); split_and!; [done..| by apply alter_fresh | done]].
  intros a x n node Hx Hn. eapply (node_in_mono tu); [exact Ho | by eapply He].
Qed.

(** *** Objects made *)
Definition putting (put : nat -> Store -> Store) (s : Store) : Store :=
  put (next_object s) (with_next_object (S (next_object s)) s).
Definition puts_well (put : nat -> Store -> Store) (made : nat -> Store -> Prop) : Prop :=
  forall s, kept_apart s -> only_tree tu s (putting put s) /\ kept_apart (putting put s)
    /\ made (next_object s) (putting put s).

Lemma layers_put {A} (put : nat -> Store -> Store) made (h : nat -> A) (Q : A -> world -> Prop) :
  puts_well put made -> (forall n w, made n (w_fs w).1 -> Q (h n) w) ->
  layers (fun _ => True) (let! n := new_object in on_store (put n) ;;! ret (h n)) Q.
Proof.
  intros Hput HQ w r w' Hs _ H. destruct (Hput (w_fs w).1) as (Ho & Hk' & Hm); [apply Hs|].
  injection H as <- <-.
  destruct (layers_on_store (fun _ => True) (putting put) (enduring_pure True) (fun w0 _ Hk0 =>
      conj (proj1 (Hput _ Hk0)) (proj1 (proj2 (Hput _ Hk0)))) w (@Ok FilesystemError unit tt)
    (@set_fs T (putting put (w_fs w).1, (w_fs w).2) w) Hs I eq_refl) as (Hs' & Hr & _).
  split_and!; [done..|]. intros a [= <-]. by apply HQ.
Qed.

Lemma entries_put s s' t :
  only_tree t s s' ->
  (forall d x, dirs s' !! d = Some x -> dirs s !! d = Some x \/ State.entries (dir_state x) = ∅) ->
  fresh_objects s' -> kept_apart s -> kept_apart s'.
Proof.
  intros Ho Hd Hf [He _]. split; [|done]. intros d x n node Hx Hn.
  destruct (Hd d x Hx) as [Hx'|E]; [|by rewrite E in Hn]. eapply node_in_mono; [done | by eapply He].
Qed.

Lemma put_file c :
  c_tree c = tu ->
  puts_well (fun f s => with_files (<[f := c]> (files s)) s) (fun f s => file_in s tu f).
Proof.
  intros Ec s Hk. destruct (apart_fresh _ Hk (next_object s) ltac:(lia)) as (_ & _ & Hno & _).
  assert (Ho : only_tree tu s (putting (fun f s => with_files (<[f := c]> (files s)) s) s)).
  { split; [|done|].
    - intros t Ht. unfold tree_of, putting. simpl. by rewrite (held_by_insert c_tree) by congruence.
    - intros t f (x & Hx & E). exists x. split; [|done]. unfold putting. simpl.
      rewrite lookup_insert_ne; [done | congruence]. }
  split_and!; [done | |].
  - apply (entries_put s _ tu); [done | by left | | done]. intros n Hn. unfold putting in *. simpl in *.
    destruct (apart_fresh _ Hk n ltac:(lia)) as (? & ? & ? & ?). rewrite lookup_insert_ne by lia. done.
  - exists c. split; [apply lookup_insert_eq | done].
Qed.
Lemma put_dir x :
  dir_tree x = tu -> State.entries (dir_state x) = ∅ ->
  puts_well (fun d s => with_dirs (<[d := x]> (dirs s)) s) (fun d s => dir_in s tu d).
Proof.
  intros Ec Ee s Hk. destruct (apart_fresh _ Hk (next_object s) ltac:(lia)) as (_ & Hno & _).
  assert (Ho : only_tree tu s (putting (fun d s => with_dirs (<[d := x]> (dirs s)) s) s)).
  { split; [| |done].
    - intros t Ht. unfold tree_of, putting. simpl. by rewrite (held_by_insert dir_tree) by congruence.
    - intros t d (y & Hy & E). exists y. split; [|done]. unfold putting. simpl.
      rewrite lookup_insert_ne; [done | congruence]. }
  split_and!; [done | |].
  - apply (entries_put s _ tu); [done | | | done].
    + intros d y Hy. unfold putting in Hy. simpl in Hy.
      apply lookup_insert_Some in Hy as [[_ <-]|[_ ?]]; [by right | by left].
    + intros n Hn. unfold putting in *. simpl in *.
      destruct (apart_fresh _ Hk n ltac:(lia)) as (? & ? & ? & ?). rewrite lookup_insert_ne by lia. done.
  - exists x. split; [apply lookup_insert_eq | done].
Qed.
Lemma put_whiteout :
  puts_well (fun i s => with_whiteouts (<[i := tu]> (whiteouts s)) s) (fun _ _ => True).
Proof.
  intros s Hk. destruct (apart_fresh _ Hk (next_object s) ltac:(lia)) as (_ & _ & _ & Hno).
  assert (Ho : only_tree tu s (putting (fun i s => with_whiteouts (<[i := tu]> (whiteouts s)) s) s)).
  { split; [|done..]. intros t Ht. unfold tree_of, putting. simpl.
    rewrite (held_by_insert id); [done..|]. simpl. congruence. }
  split_and!; [done | | done]. apply (entries_put s _ tu); [done | by left | | done].
  intros n Hn. unfold putting in *. simpl in *.
  destruct (apart_fresh _ Hk n ltac:(lia)) as (? & ? & ? & ?). rewrite lookup_insert_ne by lia. done.
Qed.

Lemma layers_tree_at : layers (fun _ => True) (tree_at tu) whatever.
Proof. apply layers_gentle. unfold tree_at. gently. Qed.
Lemma layers_take_ino : layers (fun _ => True) (take_ino tu) whatever.
Proof.
  unfold take_ino. step layers_tree_at; intros tr.
  step (layers_on_tree (fun _ => True)); [lasting | intros []]. by apply only_ret.
Qed.
Lemma layers_take_inode : layers (fun _ => True) (take_inode tu) whatever.
Proof.
  unfold take_inode. step layers_tree_at; intros tr. destruct (Budget.take _ _) as [r b].
  step (layers_on_tree (fun _ => True)); [lasting | intros []]. by apply only_lift.
Qed.
Lemma layers_take_bytes n : layers (fun _ => True) (take_bytes tu n) whatever.
Proof.
  unfold take_bytes. step layers_tree_at; intros tr. destruct (Budget.take _ _) as [r b].
  step (layers_on_tree (fun _ => True)); [lasting | intros []]. by apply only_lift.
Qed.
Lemma layers_give_bytes n : layers (fun _ => True) (give_bytes tu n) whatever.
Proof. eapply only_whatever, layers_on_tree. lasting. Qed.

Lemma layers_content_create : layers (fun _ => True) (content_create tu) has_file.
Proof.
  unfold content_create, content_new. step layers_take_inode; intros []. past; intros t0.
  step layers_tree_at; intros tr. step layers_take_ino; intros ino.
  apply only_pre with (P' := fun _ => True); [done|].
  eapply (layers_put _ _ id); [by apply put_file | done].
Qed.
Lemma layers_new_directory : layers (fun _ => True) (new_directory tu) has_dir.
Proof.
  unfold new_directory, dir_new. step layers_take_ino; intros ino. past; intros t0.
  apply only_pre with (P' := fun _ => True); [done|].
  eapply (layers_put _ _ id); [by apply put_dir | done].
Qed.
Lemma layers_new_whiteout : layers (fun _ => True) (new_whiteout tu) has_node.
Proof.
  unfold new_whiteout. step layers_take_inode; intros [].
  apply only_pre with (P' := fun _ => True); [done|].
  by eapply (layers_put _ _ NWhiteout); [apply put_whiteout|].
Qed.

(** *** Its files and directories *)
Lemma layers_file_at f : layers (has_file f) (file_at f) (fun c _ => c_tree c = tu).
Proof.
  eapply only_post; [apply only_asks|]. intros c w _ [(c' & Hc' & Et) Hc].
  by pose proof (eq_trans (eq_sym Hc) Hc') as [= ->].
Qed.
Lemma layers_state_of t d : layers (dir_of_tree t d) (state_of d) (entries_of_tree t).
Proof.
  unfold state_of, dir_at. eapply only_bind; [apply only_asks | intros x]. apply only_ret.
  intros w [_ Hk] [(y & Hy & Et) Hx] n node Hn. pose proof (eq_trans (eq_sym Hx) Hy) as [= ->].
  unfold node_of_tree. rewrite <- Et. by eapply (apart_entries _ (knows_fine _ _ _ _ Hk)).
Qed.
Lemma layers_file_put f g :
  (forall c, c_tree (g c) = c_tree c) -> layers (has_file f) (on_file f g) whatever.
Proof. intros Hg. eapply only_whatever, (layers_on_file (has_file f)); [lasting | done..]. Qed.

Lemma layers_try_reserve : layers (fun _ => True) try_reserve whatever.
Proof.
  unfold try_reserve, store. past; intros s.
  step (layers_on_store (fun _ => True)); [lasting | | intros []; by apply only_ret].
  intros w _ Hk. split; [|by destruct Hk]. by split.
Qed.
Lemma layers_resize f n : layers (has_file f) (resize f n) whatever.
Proof.
  unfold resize. step (layers_file_at f); intros c. cbv zeta.
  apply only_pre with (P' := fun w => c_tree c = tu /\ has_file f w); [told|]. apply only_pure. intros ->.
  eapply layers_then with (P := fun _ => True) (G := whatever); [lasting | | done | intros []].
  { case_match; [|by apply only_ret]. step (layers_take_bytes (saturating_sub n (len (c_bytes c)))); intros [].
    eapply layers_then with (P := fun _ => True) (G := whatever); [lasting | | done | intros [|]].
    - apply layers_try_reserve.
    - by apply only_ret.
    - step layers_give_bytes; intros []. apply only_fail. }
  step layers_give_bytes; intros []. ends layers_file_put. done.
Qed.

Lemma layers_drop_name h n : layers (has_node n) (drop_name h n) whatever.
Proof.
  destruct n as [f|d|x]; simpl; [|unfold unless_held; case_match; [apply only_panic|] | by apply only_ret].
  - by apply layers_file_put.
  - eapply only_whatever, (layers_on_state (has_dir d)); [lasting | done | done].
Qed.
Lemma layers_touch_changed h n : layers (has_node n) (touch_changed h n) whatever.
Proof.
  unfold touch_changed. past; intros t.
  destruct n as [f|d|x]; [|unfold unless_held; case_match; [apply only_panic|] | by apply only_ret].
  - by apply layers_file_put.
  - eapply only_whatever, (layers_on_state (has_dir d)); [lasting | done | done].
Qed.
Lemma layers_touch_dir d : layers (has_dir d) (touch_dir d) whatever.
Proof.
  unfold touch_dir. past; intros t. eapply only_whatever, (layers_on_state (has_dir d)); [lasting | done | done].
Qed.

Lemma hold_entries n node s : State.entries (State.hold n node s).1 = <[n := node]> (State.entries s).
Proof. unfold State.hold, State.forget_offset. simpl. by case_match. Qed.
Lemma let_go_entries n s : State.entries (State.let_go n s) = delete n (State.entries s).
Proof. unfold State.let_go, State.forget_offset. simpl. by case_match. Qed.

Lemma layers_hold d n node :
  layers (fun w => has_dir d w /\ has_node node w) (hold d n node)
    (fun r w => forall x, r = Some x -> has_node x w).
Proof.
  unfold hold. step (layers_state_of tu d); intros s.
  eapply only_bind; [apply (layers_on_state (fun w => (has_dir d w /\ has_node node w) /\ entries_ok s w))
    | intros []]; [lasting | told | |].
  - intros w s' [[_ Hn] Hs] _ m x. rewrite hold_entries, lookup_insert_Some.
    intros [[_ <-]|[_ Hm]]; [done | by eapply Hs].
  - apply only_ret. intros w _ [_ Hs] x Hx. exact (Hs n x Hx).
Qed.

Lemma layers_insert d n node :
  layers (fun w => has_dir d w /\ has_node node w) (insert d n node) whatever.
Proof.
  unfold insert. step layers_touch_changed; intros []. step (layers_hold d n node); intros r.
  eapply layers_then with (P := fun w => forall x, r = Some x -> has_node x w) (G := whatever);
    [| | told | intros []].
  - apply enduring_and; [lasting|]. apply enduring_all. intros x. apply enduring_imp. lasting.
  - destruct r as [x|]; [|by apply only_ret].
    apply only_pre with (P' := has_node x); [intros w _ Hx; by apply Hx|].
    step layers_drop_name; intros []. ends layers_touch_changed.
  - apply only_pre with (P' := has_dir d); [told | apply layers_touch_dir].
Qed.
Lemma layers_exchange_node d n node :
  layers (fun w => has_dir d w /\ has_node node w) (exchange d n node) whatever.
Proof.
  unfold exchange. step layers_touch_changed; intros [].
  step (layers_any _ _ _ (layers_hold d n node)); intros r. ends layers_touch_dir.
Qed.
Lemma layers_take_entry d n : layers (has_dir d) (take d n) whatever.
Proof.
  unfold take. step (layers_on_state (has_dir d)); [lasting | done | | intros []].
  - intros w s _ Hs m x. rewrite let_go_entries, lookup_delete_Some. intros [_ Hm]. by eapply Hs.
  - ends layers_touch_dir.
Qed.
Lemma layers_remove_entry d n : layers (has_dir d) (remove d n) whatever.
Proof.
  unfold remove. step (layers_state_of tu d); intros s.
  eapply layers_then with (P := entries_ok s) (G := whatever); [lasting | | told | intros []].
  - destruct (State.entries s !! n) as [x|] eqn:E; [|by apply only_ret].
    apply only_pre with (P' := has_node x); [intros w _ Hs; by eapply Hs|].
    step layers_drop_name; intros []. ends layers_touch_changed.
  - ends layers_take_entry.
Qed.
Lemma layers_dir_get t d n : layers (dir_of_tree t d) (dir_get d n) (node_of_tree t).
Proof.
  unfold dir_get. step (layers_state_of t d); intros s.
  destruct (State.entries s !! n) as [x|] eqn:E; [|apply only_fail].
  apply only_ret. intros w _ [_ Hs]. by eapply Hs.
Qed.
Lemma gentle_apply_times a t : gentle (apply_times a t).
Proof. unfold apply_times. gently. Qed.
#[local] Hint Resolve gentle_apply_times : gentle.

Lemma layers_regular_times f a : layers (has_file f) (regular_apply_times f a) whatever.
Proof.
  unfold regular_apply_times. step (layers_file_at f); intros c. past; intros t.
  ends layers_file_put. done.
Qed.

(** *** What an inode is made of *)
Lemma gentle_node_getattr t n : gentle (node_getattr t n).
Proof. unfold node_getattr, content_getattr, tree_dev, dir_getattr, tree_at, dir_at, file_at. gently. Qed.
#[local] Hint Resolve gentle_node_getattr : gentle.

Lemma layers_inode_of s t n :
  home s = Some t -> layers (node_of_tree t n) (inode_of t n) (fun i w => found_in at_home s i w).
Proof.
  intros Hs. unfold inode_of. past; intros st.
  eapply only_post; [apply (layers_new_inode fs up (node_of_tree t n) s)|].
  - lasting.
  - intros w Hn. exists t. split; [done|]. by destruct n; simpl; [| split |].
  - done.
  - by intros i w _ [].
Qed.

Lemma layers_lookup s t dir d :
  home s = Some t -> layers (dir_of_tree t dir) (tmpfs_lookup t dir d) (answer_in at_home s).
Proof.
  intros Hs. unfold tmpfs_lookup. past; intros n. case_match; [apply only_fail|].
  tries (layers_dir_get t dir n); intros [node|e].
  - apply only_pre with (P' := node_of_tree t node); [intros w _ [_ Hn]; by apply Hn|].
    eapply only_bind; [by apply layers_inode_of | intros i]. by apply only_ret.
  - destruct e; first [apply only_fail | by apply only_ret].
Qed.

Lemma layers_make dir d n :
  layers (fun w => sb_of d up w /\ has_dir dir w /\ has_node n w) (make tu dir d n) whatever.
Proof.
  unfold make. past; intros called. step layers_insert; intros [].
  step (layers_inode_of up tu n home_up); intros i.
  apply only_pre with (P' := fun w => sb_of d up w /\ answers_for at_home up i w).
  { by intros w _ [[[? _] _] [? _]]. }
  eapply only_whatever, (layers_add _ d i up); [|done].
  apply enduring_and; [lasting | apply (enduring_answers (K := K))].
Qed.

(** *** Its tables *)
Definition of_up (d : did) (n : TmpfsInode) w : Prop := sb_of d up w /\ inode_of_tree tu n w.
Lemma enduring_of_up d n : enduring (of_up d n).
Proof. apply enduring_and; lasting. Qed.
#[local] Hint Resolve enduring_of_up : lasts.

(** What the upper's inodes answer, the upper's Tmpfs does. *)
Lemma up_at_home o x : at_home up o x -> exists n, o = OnTmpfs n /\ inode_in x.1 tu n.
Proof.
  destruct o as [n|v]; simpl.
  - intros (t & Ht & Hn). rewrite home_up in Ht. injection Ht as <-. by exists n.
  - intros [E _]. rewrite <- E, home_up in home_view. done.
Qed.
Lemma layers_of_up {A} (op : TmpfsInode -> M (T := T) A) d o Q :
  (forall n, layers (of_up d n) (op n) Q) ->
  layers (fun w => sb_of d up w /\ at_home up o (w_fs w)) (op (as_tmpfs o)) Q.
Proof.
  intros Hop w r w' Hs [Hd Ho]. destruct (up_at_home o _ Ho) as (n & -> & Hn).
  by apply (Hop n w r w' Hs).
Qed.

Lemma layers_tmpfs_setattr dir a : layers (has_dir dir) (tmpfs_setattr dir a) whatever.
Proof.
  unfold tmpfs_setattr. step (layers_state_of tu dir); intros s. past; intros t.
  eapply layers_last; [eapply only_whatever, (layers_on_state (has_dir dir)); [lasting | done | done] | told].
Qed.
Lemma layers_tm_setattr n d a : layers (of_up d n) (tm_setattr n d a) whatever.
Proof.
  destruct n as [t dir|f|]; simpl.
  - eapply layers_last; [apply layers_tmpfs_setattr|]. by intros w [_ [_ ?]].
  - apply only_pre with (P' := has_file f); [by intros w _ []|]. unfold regular_setattr.
    eapply layers_then with (P := has_file f) (G := whatever); [lasting | | done | intros []].
    + case_match; [|by apply only_ret]. case_match; [apply layers_resize | apply only_fail].
    + ends layers_regular_times.
  - unfold default_setattr. case_match; apply only_fail.
Qed.

Lemma layers_tm_create n d : layers (of_up d n) (tm_create n d) whatever.
Proof.
  destruct n as [t dir|f|]; simpl; try apply only_fail.
  apply only_pre with (P' := fun w => t = tu /\ sb_of d up w /\ has_dir dir w); [by intros w _ [? [? ?]]|].
  apply only_pure. intros ->. unfold tmpfs_create.
  step layers_content_create; intros f. ends layers_make.
Qed.
Lemma layers_tm_mkdir n d : layers (of_up d n) (tm_mkdir n d) whatever.
Proof.
  destruct n as [t dir|f|]; simpl; try apply only_fail.
  apply only_pre with (P' := fun w => t = tu /\ sb_of d up w /\ has_dir dir w); [by intros w _ [? [? ?]]|].
  apply only_pure. intros ->. unfold tmpfs_mkdir.
  step layers_take_inode; intros []. step layers_new_directory; intros made. ends layers_make.
Qed.
Lemma gentle_holds_any d : gentle (holds_any d).
Proof. unfold holds_any, state_of, dir_at. gently. Qed.
#[local] Hint Resolve gentle_holds_any : gentle.
Lemma layers_tm_rmdir n d : layers (of_up d n) (tm_rmdir n d) whatever.
Proof.
  destruct n as [t dir|f|]; simpl; try apply only_fail.
  apply only_pre with (P' := has_dir dir); [by intros w _ [_ [_ ?]]|]. unfold tmpfs_rmdir.
  past; intros called. step (layers_state_of tu dir); intros s.
  apply layers_gently; [lasting | unfold unless_held; gently | intros [|]]; [apply only_fail|].
  ends layers_remove_entry.
Qed.
Lemma layers_tm_unlink n d : layers (of_up d n) (tm_unlink n d) whatever.
Proof.
  destruct n as [t dir|f|]; simpl; try apply only_fail.
  apply only_pre with (P' := has_dir dir); [by intros w _ [_ [_ ?]]|]. unfold tmpfs_unlink.
  past; intros called. apply layers_remove_entry.
Qed.

Lemma layers_rename_at from_dir from to_dir to flag :
  layers (fun w => has_dir from_dir w /\ has_dir to_dir w) (rename_at tu from_dir from to_dir to flag) whatever.
Proof.
  unfold rename_at. step (layers_dir_get tu from_dir from); intros moving.
  tries (layers_dir_get tu to_dir to); intros replaced.
  assert (Hr : enduring (fun w => ((has_dir from_dir w /\ has_dir to_dir w) /\ has_node moving w)
    /\ forall a, replaced = Ok a -> has_node a w)).
  { apply enduring_and; [lasting|]. apply enduring_all. intros a. apply enduring_imp. lasting. }
  case_match.
  - destruct replaced as [node|e]; [|apply only_fail].
    apply only_pre with (P' := fun w => has_dir from_dir w /\ has_dir to_dir w /\ has_node moving w /\ has_node node w).
    { intros w _ [[[? ?] ?] Hn]. auto. }
    step layers_exchange_node; intros []. ends layers_exchange_node.
  - apply layers_gently; [done | gently | intros [|]]; [apply only_fail|].
    apply only_pre with (P' := fun w => has_dir from_dir w /\ has_dir to_dir w /\ has_node moving w); [told|].
    eapply layers_then with (P := has_dir from_dir) (G := whatever); [lasting | | told | intros []].
    + destruct flag as [[]|]; try apply layers_take_entry.
      step layers_new_whiteout; intros made. ends layers_exchange_node.
    + ends layers_insert.
Qed.

Lemma layers_tm_rename n d o' d' flag :
  layers (fun w => of_up d n w /\ sb_of d' up w /\ at_home up o' (w_fs w)) (tm_rename n d o' d' flag) whatever.
Proof.
  destruct n as [t dir|f|]; simpl; try apply only_fail. unfold tmpfs_rename.
  destruct (tm_downcast o') as [[t' target| |]|] eqn:E; try apply only_fail.
  apply only_pre with (P' := fun w => t = tu /\ has_dir dir w /\ has_dir target w).
  { intros w _ [[_ [-> Hd]] [_ Ho]]. destruct (up_at_home o' _ Ho) as (m & -> & Hm).
    simpl in E. injection E as ->. by destruct Hm. }
  apply only_pure. intros ->. past; intros from. past; intros to. apply layers_rename_at.
Qed.

(** Files of the upper's open. *)
Definition writes_up (f : @FileOps T) (x : @FsState T) : Prop :=
  match f with
  | FTmpfs (TmpfsFile f) => file_in x.1 tu f
  | FTmpfs _ => True
  | FView _ => False
  end.
Definition files_up (f : fileid) (x : @FsState T) : Prop := file_in x.1 tu f.

Lemma layers_tm_open n d how :
  layers (of_up d n) (tm_open n d how) (fun f w => writes_up (FTmpfs f) (w_fs w)).
Proof.
  destruct n as [t dir|f|]; simpl; [|by apply only_ret; intros w _ []|by apply only_ret].
  unfold tmpfs_open. eapply layers_ends with (P := fun _ => True) (G := fun f _ => exists d dev, f = TmpfsDir d dev);
    [| done | by intros g w (? & ? & ->)].
  eapply only_bind; [apply layers_gentle; unfold tree_dev, tree_at; gently | intros dev].
  apply only_ret. eauto.
Qed.

Lemma layers_file_write f buf start : layers (has_file f) (file_write f buf start) whatever.
Proof.
  unfold file_write. case_match; [by apply only_ret|]. case_match; [|apply only_fail].
  step (layers_file_at f); intros c.
  eapply layers_then with (P := has_file f) (G := whatever); [lasting | | told | intros []].
  { case_match; [apply layers_resize | by apply only_ret]. }
  step layers_file_put; [done | intros []]. past; intros t. step layers_file_put; [done | intros []].
  by apply only_ret.
Qed.
Lemma layers_file_write_iter f iocb buf : layers (has_file f) (file_write_iter f iocb buf) whatever.
Proof.
  unfold file_write_iter. step (layers_file_at f); intros c. step layers_file_write; intros written.
  apply layers_gently; [lasting | unfold generic_write_sync, tmpfs_fsync; gently | intros n].
  by apply only_ret.
Qed.

Lemma layers_fallocate f offset n : layers (has_file f) (file_fallocate f offset n) whatever.
Proof.
  unfold file_fallocate. step (layers_file_at f); intros c.
  eapply layers_then with (P := has_file f) (G := whatever); [lasting | | told | intros []].
  { case_match; [apply layers_resize | by apply only_ret]. }
  past; intros t. ends layers_file_put. done.
Qed.

(** A Tmpfs's directory that answers for the upper. *)
Lemma up_directory o t dir x :
  tm_downcast o = Some (TmpfsDirectory t dir) -> at_home up o x -> t = tu /\ dir_in x.1 tu dir.
Proof.
  intros E Ho. destruct (up_at_home o x Ho) as (n & -> & Hn). simpl in E. by injection E as ->.
Qed.
Lemma layers_at_directory {A} P o t dir (m : M (T := T) A) Q :
  tm_downcast o = Some (TmpfsDirectory t dir) ->
  (t = tu -> layers (fun w => P w /\ has_dir dir w) m Q) ->
  layers (fun w => P w /\ at_home up o (w_fs w)) m Q.
Proof.
  intros E Hm w r w' Hs [Hp Ho]. destruct (up_directory o t dir _ E Ho) as [Et Hd]. by apply (Hm Et).
Qed.

#[export] Instance upper_changes :
  UpperChanges (T := T) (V := layer_tables) (F := layer_files) at_home K R up files_up writes_up.
Proof.
  assert (Hat : forall A o t dir (m : M (T := T) A) Q, tm_downcast o = Some (TmpfsDirectory t dir) ->
    (t = tu -> layers (has_dir dir) m Q) -> layers (fun w => at_home up o (w_fs w)) m Q).
  { intros A o t dir m Q E Hm. apply only_pre with (P' := fun w => True /\ at_home up o (w_fs w)); [done|].
    apply (layers_at_directory _ o t dir); [done|]. intros Et. eapply layers_last; [by apply Hm | told]. }
  split.
  - intros f x x' [Hb _]. apply Hb.
  - intros [[]|] x x' [Hb _]; simpl; [done | apply Hb | done..].
  - intros o d a. apply (layers_of_up (fun n => tm_setattr n d a)). intros n. apply layers_tm_setattr.
  - intros o d. apply (layers_of_up (fun n => tm_create n d)). intros n. apply layers_tm_create.
  - intros o d. apply (layers_of_up (fun n => tm_mkdir n d)). intros n. apply layers_tm_mkdir.
  - intros o d. apply (layers_of_up (fun n => tm_rmdir n d)). intros n. apply layers_tm_rmdir.
  - intros o d. apply (layers_of_up (fun n => tm_unlink n d)). intros n. apply layers_tm_unlink.
  - intros o d o' d' flag w r w' Hs [[Hd Ho] Ho']. destruct (up_at_home o _ Ho) as (n & -> & Hn).
    by apply (layers_tm_rename n d o' d' flag w r w' Hs).
  - intros o d how. simpl.
    apply (layers_of_up (fun n => let! f := tm_open n d how in ret (FTmpfs f : @FileOps T))). intros n.
    eapply only_bind; [apply layers_tm_open | intros f]. by apply only_ret.
  - intros o t dir n E. apply (Hat _ o t dir _ _ E). intros ->. unfold whiteout.
    step layers_new_whiteout; intros made. ends layers_insert.
  - intros o t dir n v E. apply (Hat _ o t dir _ _ E). intros _. unfold setxattr.
    by eapply only_whatever, (layers_on_state (has_dir dir)); [lasting | |].
  - intros o t dir E. apply (Hat _ o t dir _ _ E). intros ->. ends layers_content_create.
  - intros o t dir f n E. unfold tmpfile_link.
    apply only_pre with (P' := fun w => files_up f (w_fs w) /\ at_home up o (w_fs w)); [told|].
    apply (layers_at_directory _ o t dir); [done|]. intros _. eapply layers_last; [apply layers_insert|].
    by intros w [].
  - intros o t dir d E. apply (layers_at_directory _ o t dir); [done|]. intros ->.
    eapply layers_last; [by apply (layers_lookup up tu) | told].
  - intros f iocb buf. apply layers_file_write_iter.
  - intros f a. apply layers_regular_times.
  - intros f iocb buf. simpl. destruct f as [[]|]; simpl; [apply only_fail | apply layers_file_write_iter | apply only_fail..].
  - intros f offset n. simpl. destruct f as [[]|]; simpl; [apply only_fail | apply layers_fallocate | apply only_fail..].
Qed.

Lemma gentle_readdir turns dir dev c : gentle (readdir_turns turns dir dev c).
Proof.
  revert c. induction turns as [|turns IH]; intros c; simpl; [gently|].
  apply gentle_bind; [unfold state_of, dir_at; gently | intros s]. case_match; [|gently].
  destruct p as [[offset n] node]. apply gentle_bind; [|intros e].
  - unfold node_dir_entry, file_at, dir_at. gently.
  - case_match; [gently | apply IH].
Qed.
#[local] Hint Resolve gentle_readdir : gentle.

#[export] Instance layer_reads :
  LayerReads (T := T) at_home K R (V := layer_tables) (F := layer_files).
Proof.
  split.
  - intros o d m. by apply only_ret.
  - intros o d. apply layers_gentle. simpl. unfold tm_getattr, tmpfs_getattr, content_getattr, tree_dev,
      dir_getattr, tree_at, dir_at, file_at. gently.
  - intros o d. apply only_fail.
  - intros ops o d. apply layers_gentle. simpl.
    unfold tmpfs_dentry_revalidate, dir_get, state_of, dir_at. gently.
  - intros o d how _ _. apply layers_gentle. simpl. unfold tm_open, tmpfs_open, tree_dev, tree_at. gently.
  - intros [n|v] d s; simpl; [|apply only_fail].
    destruct n as [t dir|f|]; simpl; try apply only_fail.
    intros w r w' Hs [Hd (t' & Ht & -> & Hdir)]. by apply (layers_lookup s t' dir d Ht w r w' Hs).
  - intros f d c. apply layers_gentle. simpl. unfold tm_iterate_shared, dir_iterate_shared,
      default_iterate_shared, dir_emit_dots, identity_at, state_of, dir_at. destruct (as_open f); gently.
  - intros f iocb buf. apply layers_gentle. simpl.
    unfold tm_read_iter, file_read_iter, default_read_iter, file_at. destruct (as_open f); gently.
  - intros f b. apply layers_gentle. simpl. unfold tm_fsync, default_fsync, tmpfs_fsync. destruct (as_open f); gently.
  - intros f. by apply only_ret.
Qed.

(** *** Any run of a view *)
Abbreviation shown_step turns :=
  (view_step (House := at_home) (V := layer_tables) (F := layer_files) fs view writes_up turns).

(** C17: whatever a view's tables and open files are asked, in any order and
    however each call ends, the files beneath it are what they were: the tree of
    every lower Layer holds the directories, files, whiteouts and space it held,
    the upper's tree alone changes, and each name of the view goes on standing
    for what it stood for.  A file opened to change is one of the upper's, copied
    there first where a lower Layer held it. *)
Theorem lower_trees_stand turns w w' :
  sound at_home K w -> rtc (shown_step turns) w w' ->
  (forall t, t <> tu -> tree_of t (w_fs w').1 = tree_of t (w_fs w).1)
  /\ sound at_home K w' /\ (forall d i, names_inode d i w -> names_inode d i w')
  /\ (forall v d how f w'', ov_fs v = fs -> sb_of d view w' ->
        how_write how || how_truncate how = true ->
        op_open (VfsTables := stacked_tables turns layer_tables layer_files)
          (OnView (OverlayRegular v)) d how w' = Some (Ok f, w'') ->
        writes_up f (w_fs w'')).
Proof.
  intros Hs Hr.
  destruct (view_keeps fs view up view_at_home files_up writes_up turns w w' Hr Hs) as [Hs' [[Ho _] Hm]].
  split_and!; [by intros t; apply Ho | done | intros d i; apply Hm |].
  intros v d how f w'' Hv Hd Hw Hopen.
  destruct (layers_asked_open fs view up view_at_home files_up writes_up turns
    (OnView (OverlayRegular v)) v d how eq_refl Hv w' _ w'' Hs' Hd Hopen) as (_ & _ & Hf).
  by apply (Hf f).
Qed.

(** *** A world checked *)
Definition stands_ok (w : @world T) (s : sbid) (d : did) : bool :=
  match w_dentries w !! d with Some x => (d_sb x =? s)%nat | None => false end.
Definition node_ok (s : Store) (t : treeid) (n : Node) : bool :=
  match n with
  | NFile f => match files s !! f with Some c => (c_tree c =? t)%nat | None => false end
  | NDirectory d => match dirs s !! d with Some x => (dir_tree x =? t)%nat | None => false end
  | NWhiteout _ => true
  end.
Definition inode_ok (s : Store) (t : treeid) (o : TmpfsInode) : bool :=
  match o with
  | TmpfsDirectory t' d => (t' =? t)%nat && node_ok s t (NDirectory d)
  | TmpfsRegular f => node_ok s t (NFile f)
  | TmpfsWhiteout => true
  end.
#[local] Instance OverlayPath_eq_dec : EqDecision OverlayPath.
Proof. solve_decision. Defined.
#[local] Instance OverlayFs_eq_dec : EqDecision OverlayFs.
Proof. solve_decision. Defined.

Definition home_ok (w : @world T) (s : sbid) (o : StackInode) : bool :=
  match o with
  | OnView v => (s =? view)%nat && bool_decide (ov_fs (view_overlay v) = fs)
  | OnTmpfs n => match home s with Some t => inode_ok (w_fs w).1 t n | None => false end
  end.
Definition path_ok (w : @world T) (p : OverlayPath) : bool := stands_ok w (lay_sb p) (lay_dentry p).
Definition upper_ok (w : @world T) (p : OverlayPath) : bool := (lay_sb p =? up)%nat && path_ok w p.
Definition kept_ok (w : @world T) (k : Private) : bool :=
  match k with
  | FileKept real _ => path_ok w real
  | DirKept [] _ => true
  | DirKept (top :: rest) _ =>
    match top with Some p => upper_ok w p | None => true end
    && forallb (path_ok w) (shown rest)
  end.

Definition is_base (w : @world T) : bool :=
  every (w_dentries w) (fun d _ => d <? w_next w)%nat
  && every (w_inodes w) (fun d _ => d <? w_next w)%nat
  && every (w_sbs w) (fun d _ => d <? w_next w)%nat
  && every (w_sbs w) (fun s sb =>
       every_name (Hashtable.entries (s_hashtable sb)) (fun _ d => stands_ok w s d)
       && every_name (Hashtable.entries (s_in_lookup sb)) (fun _ d => stands_ok w s d))
  && every (w_dentries w) (fun _ x =>
       match d_inode x with
       | Some i => match w_inodes w !! i with Some n => home_ok w (d_sb x) (i_ops n) | None => false end
       | None => true
       end
       && match d_parent x with Some p => stands_ok w (d_sb x) p | None => true end)
  && every (w_inodes w) (fun i n =>
       match i_dentry n with
       | Some a => match w_dentries w !! a with
                   | Some x => bool_decide (d_inode x = Some i)
                   | None => false
                   end
       | None => true
       end).
Definition is_kept_apart (s : Store) : bool :=
  every (trees s) (fun d _ => d <? next_object s)%nat
  && every (dirs s) (fun d _ => d <? next_object s)%nat
  && every (files s) (fun d _ => d <? next_object s)%nat
  && every (whiteouts s) (fun d _ => d <? next_object s)%nat
  && every (dirs s) (fun _ x =>
       forallb (fun e => node_ok s (dir_tree x) e.2) (map_to_list (State.entries (dir_state x)))).
Definition is_known (w : @world T) : bool :=
  is_kept_apart (w_fs w).1
  && every (privates (w_fs w).2) (fun i k =>
       bool_decide (is_Some (w_inodes w !! i)) && kept_ok w k)
  && match ofs_work fs with Some work => upper_ok w work | None => true end.

Lemma stands_ok_sb w s d : stands_ok w s d = true -> sb_of d s w.
Proof.
  unfold stands_ok. destruct (w_dentries w !! d) as [x|] eqn:E; [|done].
  intros Hs%Nat.eqb_eq. by exists x.
Qed.
Lemma node_ok_in s t n : node_ok s t n = true -> node_in s t n.
Proof.
  destruct n as [f|d|x]; simpl; [| |done].
  - destruct (files s !! f) as [c|] eqn:E; [|done]. intros Hs%Nat.eqb_eq. by exists c.
  - destruct (dirs s !! d) as [c|] eqn:E; [|done]. intros Hs%Nat.eqb_eq. by exists c.
Qed.
Lemma home_ok_at w s o : home_ok w s o = true -> at_home s o (w_fs w).
Proof.
  destruct o as [n|v]; simpl.
  - destruct (home s) as [t|]; [|done]. intros Hn. exists t. split; [done|].
    destruct n as [t' d|f|]; simpl in *; [|by apply (node_ok_in _ t (NFile f))|done].
    apply andb_true_iff in Hn as [Ht%Nat.eqb_eq Hd]. split; [done|].
    by apply (node_ok_in _ t (NDirectory d)).
  - intros [Hs%Nat.eqb_eq Hf]%andb_true_iff. by apply bool_decide_eq_true in Hf.
Qed.
Lemma path_ok_stands w p : path_ok w p = true -> stands p w.
Proof. apply stands_ok_sb. Qed.
Lemma upper_ok_stands w p : upper_ok w p = true -> stands_in up p w.
Proof. intros [Hs%Nat.eqb_eq Hp]%andb_true_iff. split; [done | by apply path_ok_stands]. Qed.
Lemma kept_ok_stands w k : kept_ok w k = true -> kept_stands up k w.
Proof.
  destruct k as [[|top rest] lock|real lock]; simpl.
  - intros _ i p Hi. unfold Level in *. by rewrite lookup_nil in Hi.
  - intros [Ht Hr]%andb_true_iff i p Hi. destruct i as [|i]; simpl in Hi.
    + injection Hi as ->. apply upper_ok_stands in Ht as [? ?]. done.
    + split; [done|]. rewrite forallb_forall in Hr. apply path_ok_stands, Hr.
      apply list_elem_of_In. unfold shown. apply list_elem_of_omap. exists (Some p).
      split; [by eapply list_elem_of_lookup_2 | done].
  - apply path_ok_stands.
Qed.

Lemma is_base_base w : is_base w = true -> base at_home w.
Proof.
  unfold is_base. rewrite !andb_true_iff. intros [[[[[Hd Hi] Hs] Hn] Hx] Ha]. split.
  - intros n Hle. split_and!; by eapply every_fresh.
  - intros s sb d Hsb (k & Hk). apply (every_ok _ _ _ _ Hn) in Hsb.
    apply andb_true_iff in Hsb as [Hh Hl]. apply stands_ok_sb.
    destruct Hk as [Hk|Hk]; [by apply (every_name_ok _ _ _ _ Hh Hk) | by apply (every_name_ok _ _ _ _ Hl Hk)].
  - intros d x i Hdx Ei. apply (every_ok _ _ _ _ Hx) in Hdx. rewrite Ei in Hdx.
    apply andb_true_iff in Hdx as [Ho _]. destruct (w_inodes w !! i) as [n|] eqn:En; [|done].
    exists n. split; [done | by apply home_ok_at].
  - intros d x p Hdx Ep. apply (every_ok _ _ _ _ Hx) in Hdx. rewrite Ep in Hdx.
    apply andb_true_iff in Hdx as [_ Ho]. by apply stands_ok_sb.
  - intros i n a Hin Ea. apply (every_ok _ _ _ _ Ha) in Hin. rewrite Ea in Hin.
    destruct (w_dentries w !! a) as [x|] eqn:Ex; [|done]. apply bool_decide_eq_true in Hin. by exists x.
Qed.
Lemma is_kept_apart_kept s : is_kept_apart s = true -> kept_apart s.
Proof.
  unfold is_kept_apart. rewrite !andb_true_iff. intros [[[[Ht Hd] Hf] Hw] He]. split.
  - intros d x n node Hx Hn. apply (every_ok _ _ _ _ He) in Hx. rewrite forallb_forall in Hx.
    apply node_ok_in, (Hx (n, node)), list_elem_of_In, elem_of_map_to_list, Hn.
  - intros n Hle. split_and!; by eapply every_fresh.
Qed.
Lemma is_sound w : is_base w && is_known w = true -> sound at_home K w.
Proof.
  intros [Hb Hk]%andb_true_iff. split; [by apply is_base_base|].
  unfold is_known in Hk. rewrite !andb_true_iff in Hk. destruct Hk as [[Hf Hp] Hw]. split.
  - by apply is_kept_apart_kept.
  - intros i k Hik. apply (every_ok _ _ _ _ Hp) in Hik. apply andb_true_iff in Hik as [Hn Hk].
    apply bool_decide_eq_true in Hn as [n Hn]. exists n. split; [done|]. intros _. by apply kept_ok_stands.
  - intros work Ew. rewrite Ew in Hw. by apply upper_ok_stands.
Qed.
End Trees.

(** ** A file copied up, one taken away *)
Module LowerSample.
Definition read_first : option (result FilesystemError Places * @world stack_types) :=
  (let! p := placed in
   let! _ := read_at (p_view p) (lit "dir/file") in
   let! _ := read_at (p_view p) (lit "kept") in ret p) blank.
Definition shown_world : @world stack_types :=
  match read_first with Some (_, w) => w | None => blank end.
Definition at_place (which : Places -> Path) : sbid :=
  match read_first with Some (Ok p, _) => mnt_sb (p_mnt (which p)) | _ => 0%nat end.
Definition VIEW : sbid := Eval vm_compute in at_place p_view.
Definition LOWER : sbid := Eval vm_compute in at_place p_low.
Definition UP : sbid := Eval vm_compute in at_place p_up.

(** A name of an instance, and what answers for what it names. *)
Definition named_at (s : sbid) (n : list byte) (w : @world stack_types) : did :=
  match List.find (fun e => (d_sb e.2 =? s)%nat && str_eq (d_name e.2) n) (map_to_list (w_dentries w)) with
  | Some e => e.1
  | None => 0%nat
  end.
Definition ops_at (d : did) (w : @world stack_types) : StackInode :=
  match x ← w_dentries w !! d; i ← d_inode x; w_inodes w !! i with
  | Some n => i_ops n
  | None => OnTmpfs TmpfsWhiteout
  end.
Definition root_at (s : sbid) (w : @world stack_types) : did :=
  match w_sbs w !! s ≫= s_root with Some d => d | None => 0%nat end.
(** Each Layer's tree. *)
Definition home (s : sbid) : option treeid :=
  match ops_at (root_at s shown_world) shown_world with
  | OnTmpfs (TmpfsDirectory t _) => Some t
  | _ => None
  end.
Definition UP_TREE : treeid := Eval vm_compute in default 0%nat (home UP).
Definition LOWER_TREE : treeid := Eval vm_compute in default 0%nat (home LOWER).
Definition the_fs : OverlayFs :=
  match ops_at (root_at VIEW shown_world) shown_world with
  | OnView v => ov_fs (view_overlay v)
  | OnTmpfs _ => MkOverlayFs [] None 0
  end.
Definition FILE : did := Eval vm_compute in named_at VIEW (lit "file") shown_world.
Definition KEPT : did := Eval vm_compute in named_at VIEW (lit "kept") shown_world.

(** Steps of a view run one after another, each asked where it may be. *)
Inductive Step := Asks (d c : did) (call : @ViewCall stack_types) | Writes (f : fileid) (bytes : list byte).
Definition world_after {A} (x : option (result FilesystemError A * @world stack_types)) : @world stack_types :=
  match x with Some (_, w) => w | None => blank end.
Definition runs {A} (x : option (result FilesystemError A * @world stack_types)) : bool :=
  match x with Some _ => true | None => false end.

(** What the directory or file [d] names is asked of the name [c]. *)
Definition asks (d c : did) (call : ViewCall) (w : @world stack_types) :=
  asked (V := layer_tables) (F := layer_files) TURNS (ops_at d w) c call w.
Definition writes (f : fileid) (bytes : list byte) (w : @world stack_types) :=
  fo_write_iter (FileTables := stacked_files layer_tables layer_files)
    (FTmpfs (TmpfsFile f)) (kiocb_at 0) bytes w.
Definition after (s : Step) (w : @world stack_types) : @world stack_types :=
  match s with
  | Asks d c call => world_after (asks d c call w)
  | Writes f bytes => world_after (writes f bytes w)
  end.
Definition may_run (s : Step) (w : @world stack_types) : bool :=
  match s with
  | Asks d c call => home_ok home the_fs VIEW w VIEW (ops_at d w) && stands_ok w VIEW c
      && runs (asks d c call w)
  | Writes f bytes => node_ok (w_fs w).1 UP_TREE (NFile f) && runs (writes f bytes w)
  end.
Fixpoint after_all (l : list Step) (w : @world stack_types) : @world stack_types :=
  match l with [] => w | s :: l => after_all l (after s w) end.
Fixpoint may_run_all (l : list Step) (w : @world stack_types) : bool :=
  match l with [] => true | s :: l => may_run s w && may_run_all l (after s w) end.

Abbreviation step := (view_step (House := at_home home the_fs VIEW) (V := layer_tables)
  (F := layer_files) the_fs VIEW (writes_up UP_TREE) TURNS).
Lemma it_ran {A} (x : option (result FilesystemError A * @world stack_types)) :
  runs x = true -> exists r, x = Some (r, world_after x).
Proof. destruct x as [[r w]|]; [by exists r | done]. Qed.
Lemma step_after s w : home VIEW = None -> may_run s w = true -> step w (after s w).
Proof.
  intros Hv. destruct s as [d c call|f bytes]; simpl; intros H; rewrite ?andb_true_iff in H.
  - destruct H as [[Ho Hc] Hr]. destruct (it_ran _ Hr) as [r E].
    eapply asks_a_name; [| by apply stands_ok_sb | exact E].
    apply (view_at_home home the_fs VIEW Hv _ (w_fs w)). by eapply home_ok_at.
  - destruct H as [Hf Hr]. destruct (it_ran _ Hr) as [r E].
    eapply asks_to_write; [|exact E]. by apply (node_ok_in _ _ (NFile f)).
Qed.
Lemma run_after l w : home VIEW = None -> may_run_all l w = true -> rtc step w (after_all l w).
Proof.
  intros Hv. revert w. induction l as [|s l IH]; intros w H; simpl in *; [reflexivity|].
  apply andb_true_iff in H as [Hs Hl]. eapply rtc_l; [by apply step_after | by apply IH].
Qed.

(** The file is opened to write, the copy the upper made written to, and [kept]
    unlinked. *)
Definition to_write : Step := Asks FILE FILE (AOpen (how_to true)).
Definition COPY : fileid := Eval vm_compute in
  fold_right Nat.max 0%nat (map fst (map_to_list (files (w_fs (after to_write shown_world)).1))).
Definition STEPS : list Step :=
  [to_write; Writes COPY (lit "new");
   Asks (root_at VIEW shown_world) KEPT AUnlink].

(** The files and whiteouts a tree holds, and its files' bytes. *)
Definition holds (t : treeid) (w : @world stack_types) : nat * list (list byte) :=
  let s := (w_fs w).1 in
  (length (map_to_list (held_by id t (whiteouts s))),
   map (fun e => c_bytes e.2) (map_to_list (held_by c_tree t (files s)))).
Example upper_changes_alone :
  holds UP_TREE shown_world = (0%nat, [])
  /\ holds UP_TREE (after_all STEPS shown_world) = (1%nat, [lit "new"])
  /\ holds LOWER_TREE (after_all STEPS shown_world) = (0%nat, [lit "k"; lit "lower"]).
Proof. vm_compute. done. Qed.

Lemma lower_trees_stand_witness :
  holds UP_TREE shown_world <> holds UP_TREE (after_all STEPS shown_world)
  /\ tree_of LOWER_TREE (w_fs (after_all STEPS shown_world)).1 = tree_of LOWER_TREE (w_fs shown_world).1.
Proof.
  assert (Hv : home VIEW = None) by (vm_compute; reflexivity).
  assert (Hu : home UP = Some UP_TREE) by (vm_compute; reflexivity).
  assert (Hs : is_base home the_fs VIEW shown_world && is_known the_fs UP shown_world = true)
    by (vm_compute; reflexivity).
  assert (Hr : may_run_all STEPS shown_world = true) by (vm_compute; reflexivity).
  split; [vm_compute; discriminate|].
  apply (lower_trees_stand home the_fs VIEW UP UP_TREE Hu Hv TURNS shown_world
    (after_all STEPS shown_world) (is_sound _ _ _ _ _ Hs) (run_after _ _ Hv Hr)). discriminate.
Defined.
End LowerSample.
