(* ===== verification/Witx.v ===== *)
(** What kobako-wasmtime's [witx/] defines of preview1, and what a call answers
    when it does not succeed ([preview1/errno.rs]).

    A flag set is its bits, an enum's case an inductive's, a record a record.
    [GuestError] is what wiggle's reads and writes of a guest's memory refuse
    with; its payloads reach only a trap's text, which is not kept. *)
From stdpp Require Import list.
From S2P Require Import Prelude Text VfsTypes.

(** ** [typenames.witx] *)
Module Errno.
Inductive t :=
| Success | E2big | Acces | Addrinuse | Addrnotavail | Afnosupport | Again | Already | Badf
| Badmsg | Busy | Canceled | Child | Connaborted | Connrefused | Connreset | Deadlk
| Destaddrreq | Dom | Dquot | Exist | Fault | Fbig | Hostunreach | Idrm | Ilseq | Inprogress
| Intr | Inval | Io | Isconn | Isdir | Loop | Mfile | Mlink | Msgsize | Multihop | Nametoolong
| Netdown | Netreset | Netunreach | Nfile | Nobufs | Nodev | Noent | Noexec | Nolck | Nolink
| Nomem | Nomsg | Noprotoopt | Nospc | Nosys | Notconn | Notdir | Notempty | Notrecoverable
| Notsock | Notsup | Notty | Nxio | Overflow | Ownerdead | Perm | Pipe | Proto | Protonosupport
| Prototype | Range | Rofs | Spipe | Srch | Stale | Timedout | Txtbsy | Xdev | Notcapable.

(** The cases in the order the witx lists them, which is the code each takes. *)
Definition cases : list t := [
  Success; E2big; Acces; Addrinuse; Addrnotavail; Afnosupport; Again; Already; Badf;
  Badmsg; Busy; Canceled; Child; Connaborted; Connrefused; Connreset; Deadlk;
  Destaddrreq; Dom; Dquot; Exist; Fault; Fbig; Hostunreach; Idrm; Ilseq; Inprogress;
  Intr; Inval; Io; Isconn; Isdir; Loop; Mfile; Mlink; Msgsize; Multihop; Nametoolong;
  Netdown; Netreset; Netunreach; Nfile; Nobufs; Nodev; Noent; Noexec; Nolck; Nolink;
  Nomem; Nomsg; Noprotoopt; Nospc; Nosys; Notconn; Notdir; Notempty; Notrecoverable;
  Notsock; Notsup; Notty; Nxio; Overflow; Ownerdead; Perm; Pipe; Proto; Protonosupport;
  Prototype; Range; Rofs; Spipe; Srch; Stale; Timedout; Txtbsy; Xdev; Notcapable].
End Errno.

#[export] Instance errno_eq_dec : EqDecision Errno.t.
Proof. solve_decision. Defined.

(** [u16::from]. *)
Definition errno_code (e : Errno.t) : Z :=
  default 0 ((fun p => Z.of_nat p.1) <$> list_find (fun c => c = e) Errno.cases).

Module Rights.
Definition FD_DATASYNC : Z := Z.shiftl 1 0.
Definition FD_READ : Z := Z.shiftl 1 1.
Definition FD_SEEK : Z := Z.shiftl 1 2.
Definition FD_FDSTAT_SET_FLAGS : Z := Z.shiftl 1 3.
Definition FD_SYNC : Z := Z.shiftl 1 4.
Definition FD_TELL : Z := Z.shiftl 1 5.
Definition FD_WRITE : Z := Z.shiftl 1 6.
Definition FD_ADVISE : Z := Z.shiftl 1 7.
Definition FD_ALLOCATE : Z := Z.shiftl 1 8.
Definition PATH_CREATE_DIRECTORY : Z := Z.shiftl 1 9.
Definition PATH_CREATE_FILE : Z := Z.shiftl 1 10.
Definition PATH_LINK_SOURCE : Z := Z.shiftl 1 11.
Definition PATH_LINK_TARGET : Z := Z.shiftl 1 12.
Definition PATH_OPEN : Z := Z.shiftl 1 13.
Definition FD_READDIR : Z := Z.shiftl 1 14.
Definition PATH_READLINK : Z := Z.shiftl 1 15.
Definition PATH_RENAME_SOURCE : Z := Z.shiftl 1 16.
Definition PATH_RENAME_TARGET : Z := Z.shiftl 1 17.
Definition PATH_FILESTAT_GET : Z := Z.shiftl 1 18.
Definition PATH_FILESTAT_SET_SIZE : Z := Z.shiftl 1 19.
Definition PATH_FILESTAT_SET_TIMES : Z := Z.shiftl 1 20.
Definition FD_FILESTAT_GET : Z := Z.shiftl 1 21.
Definition FD_FILESTAT_SET_SIZE : Z := Z.shiftl 1 22.
Definition FD_FILESTAT_SET_TIMES : Z := Z.shiftl 1 23.
Definition PATH_SYMLINK : Z := Z.shiftl 1 24.
Definition PATH_REMOVE_DIRECTORY : Z := Z.shiftl 1 25.
Definition PATH_UNLINK_FILE : Z := Z.shiftl 1 26.
Definition POLL_FD_READWRITE : Z := Z.shiftl 1 27.
Definition SOCK_SHUTDOWN : Z := Z.shiftl 1 28.
Definition SOCK_ACCEPT : Z := Z.shiftl 1 29.
Definition empty : Z := 0.
Definition all : Z := Z.ones 30.
End Rights.

(** [contains], [intersects], [set] and [-] of a flag set. *)
Definition flags_contain (flags other : Z) : bool := Z.land flags other =? other.
Definition flags_intersect (flags other : Z) : bool := negb (Z.land flags other =? 0).
Definition flags_set (flags other : Z) (on : bool) : Z :=
  if on then Z.lor flags other else Z.ldiff flags other.
Definition flags_minus (flags other : Z) : Z := Z.ldiff flags other.
Definition flags_of (l : list Z) : Z := fold_left Z.lor l 0.

Module Fdflags.
Definition APPEND : Z := Z.shiftl 1 0.
Definition DSYNC : Z := Z.shiftl 1 1.
Definition NONBLOCK : Z := Z.shiftl 1 2.
Definition RSYNC : Z := Z.shiftl 1 3.
Definition SYNC : Z := Z.shiftl 1 4.
End Fdflags.

Module Fstflags.
Definition ATIM : Z := Z.shiftl 1 0.
Definition ATIM_NOW : Z := Z.shiftl 1 1.
Definition MTIM : Z := Z.shiftl 1 2.
Definition MTIM_NOW : Z := Z.shiftl 1 3.
End Fstflags.

Module Lookupflags.
Definition SYMLINK_FOLLOW : Z := Z.shiftl 1 0.
End Lookupflags.

Module Oflags.
Definition CREAT : Z := Z.shiftl 1 0.
Definition DIRECTORY : Z := Z.shiftl 1 1.
Definition EXCL : Z := Z.shiftl 1 2.
Definition TRUNC : Z := Z.shiftl 1 3.
End Oflags.

Module Subclockflags.
Definition SUBSCRIPTION_CLOCK_ABSTIME : Z := Z.shiftl 1 0.
End Subclockflags.

Module Filetype.
Inductive t :=
| Unknown | BlockDevice | CharacterDevice | Directory | RegularFile | SocketDgram
| SocketStream | SymbolicLink.
End Filetype.

Inductive Clockid := Realtime | Monotonic | ProcessCputimeId | ThreadCputimeId.
Inductive Eventtype := EvClock | EvFdRead | EvFdWrite.

Record Dirent := MkDirent { d_next : Z; d_ino : Z; d_namlen : Z; d_type : Filetype.t }.

Record Fdstat := MkFdstat {
  fs_filetype : Filetype.t;
  fs_flags : Z;
  fs_rights_base : Z;
  fs_rights_inheriting : Z;
}.

Record Filestat := MkFilestat {
  fst_dev : Z; fst_ino : Z; fst_filetype : Filetype.t; fst_nlink : Z; fst_size : Z; fst_atim : Z;
  fst_mtim : Z; fst_ctim : Z;
}.

Record SubscriptionClock := MkSubscriptionClock {
  clock_id : Clockid;
  clock_timeout : Z;
  clock_precision : Z;
  clock_flags : Z;
}.

Inductive SubscriptionU :=
| SubClock (clock : SubscriptionClock)
| SubFdRead (fd : Z)
| SubFdWrite (fd : Z).

Record WitxSubscription := MkWitxSubscription { sub_userdata : Z; sub_u : SubscriptionU }.

Record WitxEvent := MkWitxEvent {
  ev_userdata : Z;
  ev_error : Errno.t;
  ev_type : Eventtype;
  ev_nbytes : Z;
  ev_flags : Z;
}.

(** What [guest_size] answers of the records a call copies: the layout the witx
    gives them. *)
Definition dirent_size : Z := 24.
Definition iovec_size : Z := 8.
Definition subscription_size : Z := 48.
Definition event_size : Z := 32.

(** ** [preview1/errno.rs] *)
Inductive GuestError :=
| InvalidFlagValue
| InvalidEnumValue
| PtrOverflow
| PtrOutOfBounds
| PtrNotAligned
| InvalidUtf8
| TryFromIntError
| SliceLengthsDiffer
| InFunc (err : GuestError).

(** What ends an invocation from within a call. *)
Inductive TrapKind := OfGuestError (e : GuestError) | SharedMemory | TimeoutTrap | Abandoned.

(** [types::Error]. *)
Inductive Error := Code (e : Errno.t) | Trap (t : TrapKind).

Definition ERRNO_NAMES : list (list byte * Errno.t) := [
  (lit "EAGAIN", Errno.Again);
  (lit "ENOENT", Errno.Noent);
  (lit "EEXIST", Errno.Exist);
  (lit "ENOTDIR", Errno.Notdir);
  (lit "EISDIR", Errno.Isdir);
  (lit "ENOTEMPTY", Errno.Notempty);
  (lit "EACCES", Errno.Acces);
  (lit "EROFS", Errno.Rofs);
  (lit "EINVAL", Errno.Inval);
  (lit "ENOTSUP", Errno.Notsup);
  (lit "ENOSPC", Errno.Nospc);
  (lit "EFBIG", Errno.Fbig);
  (lit "EXDEV", Errno.Xdev);
  (lit "EDEADLK", Errno.Deadlk);
  (lit "ELOOP", Errno.Loop);
  (lit "EPERM", Errno.Perm);
  (lit "EBADF", Errno.Badf);
  (lit "EBUSY", Errno.Busy);
  (lit "EILSEQ", Errno.Ilseq);
  (lit "EINTR", Errno.Intr);
  (lit "EMFILE", Errno.Mfile);
  (lit "ENAMETOOLONG", Errno.Nametoolong);
  (lit "ENOMEM", Errno.Nomem);
  (lit "ENOTSOCK", Errno.Notsock);
  (lit "EOVERFLOW", Errno.Overflow);
  (lit "ESPIPE", Errno.Spipe);
  (lit "ENODEV", Errno.Nodev);
  (lit "ESTALE", Errno.Stale)
].

(** [errno.rs]'s [from_posix_name]. *)
Definition errno_of_name (name : list byte) : option Errno.t :=
  snd <$> List.find (fun entry => str_eq entry.1 name) ERRNO_NAMES.

(** [From<GuestError>]. *)
Fixpoint from_guest_error (e : GuestError) : Error :=
  match e with
  | InvalidFlagValue | InvalidEnumValue => Code Errno.Inval
  | PtrOverflow | PtrOutOfBounds | PtrNotAligned => Trap (OfGuestError e)
  | InvalidUtf8 => Code Errno.Ilseq
  | TryFromIntError => Code Errno.Overflow
  | SliceLengthsDiffer => Code Errno.Fault
  | InFunc err => from_guest_error err
  end.

(** [From<FilesystemError>]. *)
Definition from_fs (e : FilesystemError) : Error :=
  Code (match e with
        | Escape => Errno.Notcapable
        | e => default Errno.Io (name ← posix_name e; errno_of_name name)
        end).

(** [fd.rs]'s [to_filetype]. *)
Definition to_filetype (k : FileType) : Filetype.t :=
  match k with
  | Dir => Filetype.Directory
  | Symlink => Filetype.SymbolicLink
  | RegFile => Filetype.RegularFile
  | Sock => Filetype.SocketStream
  | Blkdev => Filetype.BlockDevice
  | Chrdev => Filetype.CharacterDevice
  | _ => Filetype.Unknown
  end.
