(* ===== verification/Descriptors.v ===== *)
(** The guest's descriptor table (kobako-wasmtime's [descriptors.rs]) and what a
    posture shows of an entry (kobako-runtime's [profile.rs]).

    A [BTreeMap] over [u32] is a finite map over integers whose least and
    greatest keys are found by a fold; the hash [guest_ino] answers under the
    process's key is a parameter, as the standard library's [RandomState] draws
    it. *)
From stdpp Require Import gmap.
From S2P Require Import Prelude Text Runtime Locking VfsTypes World Dcache Cred OpenFile Namei Security.
Local Open Scope vfs_scope.

(** ** What a posture shows *)

(** [RandomState::hash_one] under the key the process drew. *)
Class Hashing := { hash_one : Identity -> Z }.

Section Masking.
Context `{!Hashing}.

Definition guest_ino (p : Profile) (i : option Identity) : Z :=
  match p, i with
  | Hermetic, _ | _, None => 0
  | Permissive, Some i => hash_one i
  end.

Definition guest_kstat (p : Profile) (st : Kstat) : Kstat :=
  let ino := guest_ino p (identity_of st) in
  let masked :=
    match p with
    | Permissive => st
    | Hermetic =>
      let epoch (time : option SystemTime) := (fun _ => UNIX_EPOCH) <$> time in
      with_times (epoch (st_atime st)) (epoch (st_mtime st)) (epoch (st_ctime st)) st
    end in
  with_size (match file_type masked with Symlink => 0 | _ => st_size masked end)
    (with_identity 0 ino masked).
End Masking.

(** ** Ordered keys *)

(** [BTreeSet::first]. *)
Definition first_key (s : gset Z) : option Z :=
  match elements s with
  | [] => None
  | fd :: fds => Some (fold_left Z.min fds fd)
  end.

(** The key [BTreeMap::last_key_value] answers. *)
Definition last_key {A} (m : gmap Z A) : option Z :=
  match elements (dom m) with
  | [] => None
  | fd :: fds => Some (fold_left Z.max fds fd)
  end.

(** ** The table *)
Section Descriptors.
Context {T : FsTypes} `{!VfsTables T} `{!LruCache} `{!FileTables T}.

Record Descriptor := MkDescriptor {
  descr_file : File;
  preopen_path : option (list byte);
}.

Definition for_file (f : File) : Descriptor := MkDescriptor f None.

Record Descriptors := MkDescriptors {
  used : gmap Z Descriptor;
  free : gset Z;
  limit : option Z;
  table_cred : Cred;
  table_guard : list VfsMount;
  table_profile : Profile;
}.

Definition set_used (u : gmap Z Descriptor) (t : Descriptors) : Descriptors :=
  MkDescriptors u (free t) (limit t) (table_cred t) (table_guard t) (table_profile t).
Definition set_free (s : gset Z) (t : Descriptors) : Descriptors :=
  MkDescriptors (used t) s (limit t) (table_cred t) (table_guard t) (table_profile t).

(** Each Mount's root, from [fd] on. *)
Fixpoint open_roots (opener : Cred) (fd : Z) (mounts : list Mounted) (u : gmap Z Descriptor)
  : M (gmap Z Descriptor) :=
  match mounts with
  | [] => ret u
  | m :: mounts =>
    let! root := file_root (m_mnt m) opener in
    open_roots opener (fd + 1) mounts (<[fd := MkDescriptor root (Some (m_at m))]> u)
  end.

Definition descriptors_new (stdin stdout stderr : File) (mounts : list Mounted)
    (limit : option Z) (opener : Cred) (profile : Profile) : M Descriptors :=
  let u := <[0 := for_file stdin]> (<[1 := for_file stdout]> (<[2 := for_file stderr]> ∅)) in
  let! u := open_roots opener 3 mounts u in
  ret (MkDescriptors u ∅ limit (restrict_self opener mounts) (walk_guard mounts) profile).

Definition get (fd : Z) (t : Descriptors) : option Descriptor := used t !! fd.

(** What a call that changed an open file leaves at its number, as [get_mut]
    hands it out. *)
Definition update_file (fd : Z) (f : File) (t : Descriptors) : Descriptors :=
  set_used (alter (fun d => MkDescriptor f (preopen_path d)) fd (used t)) t.

Definition remove (fd : Z) (t : Descriptors) : option (Descriptor * Descriptors) :=
  d ← used t !! fd;
  Some (d, set_free ({[fd]} ∪ free t) (set_used (delete fd (used t)) t)).

Definition place (fd : Z) (d : Descriptor) (t : Descriptors) : Descriptors :=
  set_used (<[fd := d]> (used t)) (set_free (free t ∖ {[fd]}) t).

(** [u32::checked_add]. *)
Definition checked_add_u32 (a b : Z) : option Z := if a + b <=? U32_MAX then Some (a + b) else None.

Definition lowest_unused (t : Descriptors) : option Z :=
  if (match limit t with Some limit => limit <=? Z.of_nat (size (used t)) | None => false end)
  then None
  else
    match first_key (free t) with
    | Some fd => Some fd
    | None =>
      match last_key (used t) with
      | Some last => checked_add_u32 last 1
      | None => Some 0
      end
    end.
End Descriptors.
