(* ===== verification/Session.v ===== *)
(** What one preview1 call runs against: kobako-wasmtime's [preview1/memory.rs],
    the clocks of [ambient.rs], and [Invocation]'s part in a call.

    wiggle is a parameter ([Wiggle]): a memory is whatever it reads and writes,
    each address checked by it.  A host clock answers a sequence of instants,
    one per asking, and a sleep is recorded with how many were asked before it
    ([s_sleeps]).  The Host App runs on threads of its own, so what its handler
    answers about the invocation is a sequence as well. *)
From stdpp Require Import gmap.
From S2P Require Import Prelude Text Messages Runtime Endpoint Locking VfsTypes World Dcache Cred OpenFile Namei Security Witx Descriptors.
Local Open Scope vfs_scope.

(** A pointer to an array: where it starts and how many elements it has. *)
Abbreviation gslice := (Z * Z)%type (only parsing).

Class Wiggle := {
  Mem : Type;
  (** [as_slice] and [as_slice_mut]: the bytes, or [None] of a shared memory. *)
  as_slice : gslice -> Mem -> result GuestError (option (list byte));
  as_slice_mut : gslice -> Mem -> result GuestError (option (list byte));
  (** The memory once a slice [as_slice_mut] handed out holds other bytes. *)
  fill_slice : gslice -> list byte -> Mem -> Mem;
  copy_from_slice : list byte -> gslice -> Mem -> result GuestError Mem;
  as_cow : gslice -> Mem -> result GuestError (list byte);
  (** [GuestPtr::add] of one byte's pointer, and of an event's. *)
  ptr_add : Z -> Z -> result GuestError Z;
  event_add : Z -> Z -> result GuestError Z;
  (** [GuestPtr::iter] over elements of a size. *)
  ptr_iter : Z -> gslice -> list (result GuestError Z);
  read_iovec : Z -> Mem -> result GuestError gslice;
  read_ciovec : Z -> Mem -> result GuestError gslice;
  read_subscription_at : Z -> Mem -> result GuestError WitxSubscription;
  write_event : Z -> WitxEvent -> Mem -> result GuestError Mem;
  dirent_bytes : Dirent -> result GuestError (list byte);
}.

(** ** Clocks ([ambient.rs]) *)

(** The instant a live monotonic clock counts from, in nanoseconds. *)
Inductive Clocks := Frozen | Live (origin : Z).

Definition advances (c : Clocks) : bool := match c with Live _ => true | Frozen => false end.

(** [Clocks] as [Wasi::new] wires a profile's, a live one counting from [now]. *)
Definition clocks_of (p : Profile) (now : Z) : Clocks :=
  match p with Hermetic => Frozen | Permissive => Live now end.

Section Session.
Context {T : FsTypes} {H F : Type} `{!VfsTables T} `{!LruCache} `{!FileTables T} `{!Wiggle}.

(** [Invocation] as its host calls reach it, with the call's own memory and the
    world beneath. *)
Record Session := MkSession {
  s_table : Descriptors;
  s_memory : Mem;
  s_hostcall_fuel : Z;
  s_fuel : Z;
  s_clocks : Clocks;
  s_deadline : option Z;
  s_calls : Calls H F;
  s_app : nat -> H;
  s_ended : nat;
  s_instants : nat -> Z;
  s_asked : nat;
  s_sleeps : list (nat * Z);
  s_world : world;
}.

Definition with_table (t : Descriptors) (s : Session) : Session :=
  MkSession t (s_memory s) (s_hostcall_fuel s) (s_fuel s) (s_clocks s) (s_deadline s) (s_calls s)
    (s_app s) (s_ended s) (s_instants s) (s_asked s) (s_sleeps s) (s_world s).
Definition with_memory (m : Mem) (s : Session) : Session :=
  MkSession (s_table s) m (s_hostcall_fuel s) (s_fuel s) (s_clocks s) (s_deadline s) (s_calls s)
    (s_app s) (s_ended s) (s_instants s) (s_asked s) (s_sleeps s) (s_world s).
Definition with_fuel (n : Z) (s : Session) : Session :=
  MkSession (s_table s) (s_memory s) (s_hostcall_fuel s) n (s_clocks s) (s_deadline s) (s_calls s)
    (s_app s) (s_ended s) (s_instants s) (s_asked s) (s_sleeps s) (s_world s).
Definition with_world (w : world) (s : Session) : Session :=
  MkSession (s_table s) (s_memory s) (s_hostcall_fuel s) (s_fuel s) (s_clocks s) (s_deadline s)
    (s_calls s) (s_app s) (s_ended s) (s_instants s) (s_asked s) (s_sleeps s) w.
Definition asking (s : Session) : Session :=
  MkSession (s_table s) (s_memory s) (s_hostcall_fuel s) (s_fuel s) (s_clocks s) (s_deadline s)
    (s_calls s) (s_app s) (s_ended s) (s_instants s) (S (s_asked s)) (s_sleeps s) (s_world s).
Definition ending (s : Session) : Session :=
  MkSession (s_table s) (s_memory s) (s_hostcall_fuel s) (s_fuel s) (s_clocks s) (s_deadline s)
    (s_calls s) (s_app s) (S (s_ended s)) (s_instants s) (s_asked s) (s_sleeps s) (s_world s).
Definition slept (nanos : Z) (s : Session) : Session :=
  MkSession (s_table s) (s_memory s) (s_hostcall_fuel s) (s_fuel s) (s_clocks s) (s_deadline s)
    (s_calls s) (s_app s) (s_ended s) (s_instants s) (s_asked s) ((s_asked s, nanos) :: s_sleeps s)
    (s_world s).

(** ** The monad: what a failing call did stays done, and [None] is a call that
    panics or never returns. *)
Definition C (A : Type) : Type := Session -> option (result Error A * Session).

Definition cret {A} (a : A) : C A := fun s => Some (Ok a, s).
Definition cerr {A} (e : Error) : C A := fun s => Some (Err e, s).
Definition errno {A} (e : Errno.t) : C A := cerr (Code e).
Definition cpanic {A} : C A := fun _ => None.
Definition cbind {A B} (c : C A) (k : A -> C B) : C B :=
  fun s => match c s with
           | Some (Ok a, s') => k a s'
           | Some (Err e, s') => Some (Err e, s')
           | None => None
           end.
(** A result as [match] takes one. *)
Definition ctry {A} (c : C A) : C (result Error A) :=
  fun s => match c s with Some (r, s') => Some (Ok r, s') | None => None end.
Definition cget {A} (f : Session -> A) : C A := fun s => Some (Ok (f s), s).
Definition cput (f : Session -> Session) : C unit := fun s => Some (Ok tt, f s).

(** A call of the VFS, its failure as [?] turns it into an answer. *)
Definition vfs {A} (m : M A) : C A :=
  fun s => match m (s_world s) with
           | Some (Ok a, w) => Some (Ok a, with_world w s)
           | Some (Err e, w) => Some (Err (from_fs e), with_world w s)
           | None => None
           end.

(** A read or write wiggle checks, its refusal as [?] turns it into an answer. *)
Definition wiggle {A} (f : Mem -> result GuestError A) : C A :=
  fun s => match f (s_memory s) with
           | Ok a => Some (Ok a, s)
           | Err e => Some (Err (from_guest_error e), s)
           end.
End Session.

Arguments Session {T} H F {_}.
Arguments C {T H F _} A.

Declare Scope call_scope.
Delimit Scope call_scope with call.
Notation "'let&' x := m 'in' k" := (cbind m (fun x => k))
  (at level 10, x pattern, m at level 100, k at level 200) : call_scope.
Notation "m ;;& k" := (cbind m (fun _ => k)) (at level 100, k at level 200) : call_scope.
Local Open Scope call_scope.

(** ** [preview1/memory.rs] *)
Section Memory.
Context {T : FsTypes} {H F : Type} `{!VfsTables T} `{!LruCache} `{!FileTables T} `{!Wiggle}.
Abbreviation call := (C (H := H) (F := F)).

(** [GuestMemory::new]. *)
Definition memory_new : call unit := cput (fun s => with_fuel (s_hostcall_fuel s) s).

Definition consume (count sz : Z) : call unit :=
  let& fuel := cget s_fuel in
  match checked_sub fuel (count * sz) with
  | Some spare => cput (with_fuel spare)
  | None => errno Errno.Nomem
  end.

Definition require_unshared {A} (slice : option A) : call A :=
  match slice with Some a => cret a | None => cerr (Trap SharedMemory) end.

Definition bytes (p : gslice) : call (list byte) :=
  let& slice := wiggle (as_slice p) in require_unshared slice.
Definition bytes_mut (p : gslice) : call (list byte) :=
  let& slice := wiggle (as_slice_mut p) in require_unshared slice.
(** What a call that took [bytes_mut] of [p] left there. *)
Definition set_bytes (p : gslice) (bs : list byte) : call unit :=
  cput (fun s => with_memory (fill_slice p bs (s_memory s)) s).

Definition write_bytes (ptr : Z) (bs : list byte) : call unit :=
  let& m := wiggle (copy_from_slice bs (ptr, as_u32 (len bs))) in cput (with_memory m).

(** The same of the memory alone, as a listing's actor holds it. *)
Definition write_bytes_in (ptr : Z) (bs : list byte) (m : Mem) : result Error Mem :=
  map_err from_guest_error (copy_from_slice bs (ptr, as_u32 (len bs)) m).

(** [GuestMemory::path]. *)
Definition guest_str (p : gslice) : call (list byte) :=
  consume p.2 1 ;;&
  let& bs := wiggle (as_cow p) in
  if utf8_valid bs then cret bs else errno Errno.Ilseq.

Fixpoint first_of (read : Z -> Mem -> result GuestError gslice) (entries : list (result GuestError Z))
  : call gslice :=
  match entries with
  | [] => cret (0, 0)
  | entry :: entries =>
    let& at_ := wiggle (fun _ => entry) in
    let& buf := wiggle (read at_) in
    if negb (buf.2 =? 0) then consume buf.2 1 ;;& cret buf else first_of read entries
  end.

Definition first_non_empty (read : Z -> Mem -> result GuestError gslice) (array : gslice)
  : call gslice :=
  consume array.2 iovec_size ;;& first_of read (ptr_iter iovec_size array).

Definition first_non_empty_iovec : gslice -> call gslice := first_non_empty read_iovec.
Definition first_non_empty_ciovec : gslice -> call gslice := first_non_empty read_ciovec.

(** ** [Invocation] and its clocks *)

(** [Instant::now]. *)
Definition instant_now : call Z := fun s => Some (Ok (s_instants s (s_asked s)), asking s).

(** [thread::sleep]. *)
Definition sleep (nanos : Z) : call unit := cput (slept nanos).

(** [Invocation::abandonment], asked as a call ends. *)
Definition abandonment : call bool :=
  fun s => Some (Ok (calls_abandoned (World tt (s_calls s) (s_app s (s_ended s)))), ending s).

(** [u64::try_from(..).unwrap_or(u64::MAX)] of a count of nanoseconds. *)
Definition clamp_u64 (n : Z) : Z := Z.min n U64_MAX.

(** [Clocks::monotonic_now] and [wall_now]. *)
Definition monotonic_now : call Z :=
  let& clocks := cget s_clocks in
  match clocks with
  | Frozen => cret 0
  | Live origin => let& now := instant_now in cret (clamp_u64 (Z.max 0 (now - origin)))
  end.

Definition wall_now : call Z :=
  let& clocks := cget s_clocks in
  match clocks with
  | Frozen => cret 0
  | Live _ => let& now := vfs now in cret (clamp_u64 (Z.max 0 now))
  end.

(** [Invocation::answer]. *)
Definition answer {A} (c : call A) : call A :=
  memory_new ;;&
  let& r := ctry c in
  let& gone := abandonment in
  if gone : bool then cerr (Trap Abandoned)
  else match r with Ok a => cret a | Err e => cerr e end.
End Memory.
