(* ===== verification/FdCalls.v ===== *)
(** The 21 [fd_*] calls and the 4 [sock_*] ones: kobako-wasmtime's
    [preview1/fd.rs] and [preview1/sock.rs] over the descriptor table.

    A call that changes an open file puts what it left back at the number. *)
From stdpp Require Import gmap.
From S2P Require Import Prelude Text Messages Runtime Endpoint Locking VfsTypes World Dcache Cred OpenFile Namei Security Witx Descriptors Session.
Local Open Scope vfs_scope.
Local Open Scope call_scope.

(** ** Rights *)

Definition preopen_rights : Z := flags_of [
  Rights.PATH_CREATE_DIRECTORY; Rights.PATH_CREATE_FILE; Rights.PATH_LINK_SOURCE;
  Rights.PATH_LINK_TARGET; Rights.PATH_OPEN; Rights.FD_READDIR; Rights.PATH_READLINK;
  Rights.PATH_RENAME_SOURCE; Rights.PATH_RENAME_TARGET; Rights.PATH_FILESTAT_GET;
  Rights.PATH_FILESTAT_SET_TIMES; Rights.FD_FILESTAT_GET; Rights.FD_FILESTAT_SET_TIMES;
  Rights.PATH_SYMLINK; Rights.PATH_REMOVE_DIRECTORY; Rights.PATH_UNLINK_FILE].

Definition directory_rights_inheriting : Z := flags_of [
  preopen_rights; Rights.FD_DATASYNC; Rights.FD_READ; Rights.FD_SEEK;
  Rights.FD_FDSTAT_SET_FLAGS; Rights.FD_SYNC; Rights.FD_TELL; Rights.FD_WRITE;
  Rights.FD_ADVISE; Rights.FD_ALLOCATE; Rights.FD_FILESTAT_SET_SIZE; Rights.POLL_FD_READWRITE].

(** ** Times *)

(** [time] counts from the epoch. *)
Definition to_timestamp (time : option SystemTime) : Z :=
  match time with
  | Some t => if t <? UNIX_EPOCH then 0 else clamp_u64 t
  | None => 0
  end.

(** [u64::to_le_bytes], of [n] bytes. *)
Fixpoint le_bytes (n : nat) (z : Z) : list byte :=
  match n with O => [] | S n => byte_of_Z z :: le_bytes n (z / 256) end.

Section FdCalls.
Context {T : FsTypes} {H F : Type} `{!VfsTables T} `{!LruCache} `{!FileTables T} `{!Wiggle}
  `{!Hashing}.
Abbreviation call := (C (H := H) (F := F)).

Definition to_filestat (t : Descriptors) (st : Kstat) : Filestat :=
  let st := guest_kstat (table_profile t) st in
  MkFilestat (st_dev st) (st_ino st) (to_filetype (file_type st)) (st_nlink st) (st_size st)
    (to_timestamp (st_atime st)) (to_timestamp (st_mtime st)) (to_timestamp (st_ctime st)).

(** One of the two times [to_iattr] reads. *)
Definition time_set (flags at_ set now : Z) : result Error (option SetTime) :=
  match flags_contain flags set, flags_contain flags now with
  | true, true => Err (Code Errno.Inval)
  | true, false => Ok (Some (At (UNIX_EPOCH + at_)))
  | false, true => Ok (Some Now)
  | false, false => Ok None
  end.

Definition to_iattr (atim mtim flags : Z) : result Error (option (Iattr FileOps)) :=
  let? atime := time_set flags atim Fstflags.ATIM Fstflags.ATIM_NOW in
  let? mtime := time_set flags mtim Fstflags.MTIM Fstflags.MTIM_NOW in
  Ok (if bool_decide (is_Some atime) || bool_decide (is_Some mtime)
      then Some (iattr_times atime mtime) else None).

(** A result as [?] takes it. *)
Definition clift {A} (r : result Error A) : call A :=
  match r with Ok a => cret a | Err e => cerr e end.

Definition utimensat (atim mtim flags : Z) (set : Iattr FileOps -> call unit) : call unit :=
  let& times := clift (to_iattr atim mtim flags) in
  match times with Some times => set times | None => cret tt end.

(** ** What a number stands for *)

Definition descriptor (fd : Z) : call Descriptor :=
  let& t := cget s_table in
  match get fd t with Some d => cret d | None => errno Errno.Badf end.

(** [file], [file_mut]. *)
Definition file_of (t : Descriptors) (fd : Z) : option File :=
  d ← get fd t; if is_path (descr_file d) then None else Some (descr_file d).

Definition file (fd : Z) : call File :=
  let& t := cget s_table in
  match file_of t fd with Some f => cret f | None => errno Errno.Badf end.

(** What a call through [file_mut] leaves of the file. *)
Definition put_file (fd : Z) (f : File) : call unit :=
  cput (fun s => with_table (update_file fd f (s_table s)) s).

Definition seekable_file (fd : Z) : call File :=
  let& f := file fd in
  let& dir := vfs (is_directory f) in
  if dir : bool then errno Errno.Badf else cret f.

Definition refuse_stream (fd : Z) : call unit :=
  let& d := descriptor fd in
  if is_stream (descr_file d) then errno Errno.Badf else cret tt.

(** ** The calls *)

Definition advise (fd offset n : Z) : call unit :=
  let& f := file fd in vfs (fadvise f offset n).

Definition allocate (fd offset n : Z) : call unit :=
  let& f := file fd in vfs (fallocate f offset n).

Definition fd_close (fd : Z) : call unit :=
  let& t := cget s_table in
  match remove fd t with
  | Some (d, t) => cput (with_table t) ;;& vfs (close (descr_file d))
  | None => errno Errno.Badf
  end.

Definition fd_sync (fd : Z) (datasync : bool) : call unit :=
  let& f := file fd in vfs (fsync f datasync).

Definition rights_of (d : Descriptor) (dir : bool) : Z * Z :=
  let f := descr_file d in
  if is_stream f then
    let rights := flags_set Rights.empty Rights.FD_READ (readable f) in
    let rights := flags_set rights Rights.FD_WRITE (writable f) in
    (rights, rights)
  else if bool_decide (is_Some (preopen_path d)) then
    (preopen_rights, directory_rights_inheriting)
  else if dir then
    let rights := flags_minus (flags_minus (flags_minus (flags_minus Rights.all
      Rights.FD_WRITE) Rights.FD_SEEK) Rights.FD_FILESTAT_SET_SIZE) Rights.PATH_FILESTAT_SET_SIZE in
    let rights := if readable f then rights
                  else flags_minus rights (Z.lor Rights.FD_READ Rights.FD_READDIR) in
    (rights, directory_rights_inheriting)
  else
    let rights := Rights.all in
    let rights := if readable f then rights
                  else flags_minus rights (Z.lor Rights.FD_READ Rights.FD_READDIR) in
    let rights := if writable f then rights else flags_minus rights Rights.FD_WRITE in
    (rights, rights).

Definition fdstat_get (fd : Z) : call Fdstat :=
  let& d := descriptor fd in
  let f := descr_file d in
  let flags := flags_set 0 Fdflags.APPEND (f_append f) in
  let flags := flags_set flags Fdflags.NONBLOCK (f_nonblock f) in
  let flags := flags_set flags Fdflags.DSYNC (f_dsync f) in
  let flags := flags_set flags Fdflags.SYNC (f_sync f) in
  let& kind := vfs (file_kind f) in
  let '(base, inheriting) := rights_of d (bool_decide (kind = Dir)) in
  cret (MkFdstat (to_filetype kind) flags base inheriting).

Definition fdstat_set_flags (fd flags : Z) : call unit :=
  let& f := file fd in
  put_file fd (setfl (flags_contain flags Fdflags.APPEND) (flags_contain flags Fdflags.NONBLOCK) f).

Definition fdstat_set_rights (fd : Z) : call unit :=
  refuse_stream fd ;;& errno Errno.Notsup.

Definition fd_filestat_get (fd : Z) : call Filestat :=
  let& d := descriptor fd in
  let& st := vfs (file_getattr (descr_file d)) in
  let& t := cget s_table in cret (to_filestat t st).

Definition filestat_set_size (fd n : Z) : call unit :=
  if I64_MAX <? n then errno Errno.Inval
  else let& f := file fd in vfs (truncate f n).

(** [path.rs]'s [retry_eagain]: a call made again, [more] times at most. *)
Fixpoint call_again {A} (more : nat) (m : M A) : M A :=
  match more with
  | O => m
  | S more => fun w => match m w with
                       | Some (Err WouldBlock, w) => call_again more m w
                       | r => r
                       end
  end.
Definition MAX_ATTEMPTS : nat := 4.
Definition retry_eagain {A} (m : M A) : M A := call_again (Nat.pred MAX_ATTEMPTS) m.

Definition fd_filestat_set_times (fd : Z) (times : Iattr FileOps) : call unit :=
  let& f := file fd in
  let& t := cget s_table in
  vfs (retry_eagain (
    bind (walk_guard_check (table_guard t) (f_path f)) (fun _ =>
      do_utimes_fd (table_cred t) (f_path f) times))).

Definition fd_pread (fd : Z) (iovs : gslice) (offset : Z) : call Z :=
  let& buf := first_non_empty_iovec iovs in
  let& f := file fd in
  vfs (may_pread f offset) ;;&
  let& room := bytes_mut buf in
  let& (n, filled) := vfs (pread f room offset) in
  set_bytes buf filled ;;& cret (as_u32 n).

Definition prestat_get (fd : Z) : call Z :=
  let& d := descriptor fd in
  match preopen_path d with
  | Some at_ => cret (as_u32 (len at_))
  | None => errno Errno.Badf
  end.

Definition prestat_dir_name (fd ptr path_len : Z) : call unit :=
  let& d := descriptor fd in
  match preopen_path d with
  | Some at_ =>
    if path_len <? len at_ then errno Errno.Nametoolong else write_bytes ptr at_
  | None => errno Errno.Notdir
  end.

Definition fd_pwrite (fd : Z) (ciovs : gslice) (offset : Z) : call Z :=
  let& buf := first_non_empty_ciovec ciovs in
  let& f := file fd in
  vfs (may_pwrite f offset) ;;&
  let& bs := bytes buf in
  let& n := vfs (pwrite f bs offset) in cret (as_u32 n).

Definition fd_read (fd : Z) (iovs : gslice) : call Z :=
  let& buf := first_non_empty_iovec iovs in
  let& f := file fd in
  vfs (may_read f) ;;&
  let& room := bytes_mut buf in
  let& (n, filled, f) := vfs (read f room) in
  set_bytes buf filled ;;& put_file fd f ;;& cret (as_u32 n).

Definition fd_write (fd : Z) (ciovs : gslice) : call Z :=
  let& buf := first_non_empty_ciovec ciovs in
  let& f := file fd in
  vfs (may_write f) ;;&
  let& bs := bytes buf in
  let& (n, f) := vfs (write f bs) in
  put_file fd f ;;& cret (as_u32 n).
End FdCalls.
