(* ===== verification/FdDir.v ===== *)
(** [fd_readdir] and the calls that move a position or a number:
    kobako-wasmtime's [preview1/fd.rs], its listing and what follows it, with
    [preview1/sock.rs].

    The listing's actor writes the caller's memory as it is handed entries.  An
    actor here answers from the entries it took before, so what it did is
    replayed over them ([listed]), and the memory is what the replay leaves. *)
From stdpp Require Import gmap.
From S2P Require Import Prelude Text Messages Runtime Endpoint Locking VfsTypes World Dcache Cred OpenFile Namei Security Witx Descriptors Session FdCalls.
Local Open Scope vfs_scope.
Local Open Scope call_scope.

Section FdDir.
Context {T : FsTypes} {H F : Type} `{!VfsTables T} `{!LruCache} `{!FileTables T} `{!Wiggle}
  `{!Hashing}.
Abbreviation call := (C (H := H) (F := F)).

(** ** The listing *)

(** What the actor keeps between entries. *)
Record Listing := MkListing {
  l_memory : Mem;
  l_used : Z;
  l_failed : option Error;
  l_last_whole : option Z;
}.

Definition l_with_memory (m : Mem) (l : Listing) : Listing :=
  MkListing m (l_used l) (l_failed l) (l_last_whole l).
Definition l_with_used (n : Z) (l : Listing) : Listing :=
  MkListing (l_memory l) n (l_failed l) (l_last_whole l).
Definition l_with_failed (e : option Error) (l : Listing) : Listing :=
  MkListing (l_memory l) (l_used l) e (l_last_whole l).
Definition l_with_last (at_ : option Z) (l : Listing) : Listing :=
  MkListing (l_memory l) (l_used l) (l_failed l) at_.

Abbreviation acting := (eff Listing Error).

Definition act_write (start at_ : Z) (bs : list byte) : acting unit :=
  let* l := eget in
  let* ptr := elift (map_err from_guest_error (ptr_add start at_)) in
  let* m := elift (write_bytes_in ptr bs (l_memory l)) in
  emodify (l_with_memory m).

Definition to_dirent_header (e : DirEmit) (ino : Z) : result Error (list byte) :=
  map_err from_guest_error
    (dirent_bytes (MkDirent 0 ino (as_u32 (len (emit_name e))) (to_filetype (emit_type e)))).

(** The parts of an entry in turn, each as far as the buffer goes. *)
Fixpoint write_parts (start capacity : Z) (parts : list (list byte)) (whole : bool) : acting bool :=
  match parts with
  | [] => eret whole
  | part :: parts =>
    let* l := eget in
    let n := Z.min (len part) (capacity - l_used l) in
    let* _ := if 0 <? n then act_write start (l_used l) (take (Z.to_nat n) part) else eret tt in
    let* _ := emodify (fun l => l_with_used (l_used l + n) l) in
    write_parts start capacity parts (whole && (n =? len part))
  end.

Definition write_dirent (start capacity : Z) (p : Profile) (e : DirEmit) : acting (option Z) :=
  let* l := eget in
  let* header := elift (to_dirent_header e (guest_ino p (emit_identity e))) in
  let* whole := write_parts start capacity [header; emit_name e] true in
  eret (if whole : bool then Some (l_used l) else None).

Definition write_d_next (start at_ d_next : Z) : acting unit :=
  act_write start at_ (le_bytes 8 d_next).

(** One entry handed to the actor: whether to go on, and what it keeps. *)
Definition act (start capacity : Z) (p : Profile) (e : DirEmit) (l : Listing) : bool * Listing :=
  let written : acting (option Z) :=
    let* _ := elift (map_err from_fs (verify_dirent_name (emit_name e))) in
    let* l := eget in
    let* _ := emodify (l_with_last None) in
    let* _ := match l_last_whole l with
              | Some at_ => write_d_next start at_ (emit_offset e)
              | None => eret tt
              end in
    write_dirent start capacity p e in
  match written l with
  | (Ok whole, l) => (bool_decide (is_Some whole), l_with_last whole l)
  | (Err e, l) => (false, l_with_failed (Some e) l)
  end.

Definition listed (start capacity : Z) (p : Profile) (l : Listing) (taken : list DirEmit) : Listing :=
  fold_left (fun l e => snd (act start capacity p e l)) taken l.

Definition listing_of (m : Mem) : Listing := MkListing m 0 None None.

Definition actor (start capacity : Z) (p : Profile) (m : Mem) (taken : list DirEmit) (e : DirEmit)
  : bool :=
  fst (act start capacity p e (listed start capacity p (listing_of m) taken)).

(** [iterate_dir] as its caller holds the answer: the entries taken and the file
    it left, whatever it answered. *)
Definition iterate (f : File) (c : DirContext)
  : M (result FilesystemError unit * list DirEmit * File) :=
  let! r := attempt (iterate_dir f c) in
  ret (match r with
       | Ok (r, c, f) => (r, ctx_taken c, f)
       | Err e => (Err e, [], f)
       end).

(** [Option::or]. *)
Definition option_or {A} (a b : option A) : option A :=
  match a with Some a => Some a | None => b end.

Definition failure {A} (r : result FilesystemError A) : option Error :=
  match r with Ok _ => None | Err e => Some (from_fs e) end.

Definition fd_readdir (fd start capacity cookie : Z) : call Z :=
  let& t := cget s_table in
  let p := table_profile t in
  let& dir := file fd in
  let& dir :=
    if cookie =? f_pos dir then cret dir
    else if I64_MAX <? cookie then cerr (from_fs InvalidInput)
    else
      let& (_, dir) := vfs (llseek dir cookie Set_) in
      put_file fd dir ;;& cret dir in
  let& m := cget s_memory in
  let& (answer, taken, dir) := vfs (iterate dir (ctx_new 0 (actor start capacity p m))) in
  put_file fd dir ;;&
  let l := listed start capacity p (listing_of m) taken in
  let '(closed, l) :=
    match l_last_whole l with
    | Some at_ => write_d_next start at_ (f_pos dir) l
    | None => (Ok tt, l)
    end in
  cput (with_memory (l_memory l)) ;;&
  clift closed ;;&
  match option_or (failure answer) (l_failed l) with
  | Some e => if l_used l =? 0 then cerr e else cret (l_used l)
  | None => cret (l_used l)
  end.

(** ** Numbers and positions *)

Definition renumber (from to : Z) : call unit :=
  let& t := cget s_table in
  match get from t, get to t with
  | Some _, Some _ =>
    if from =? to then cret tt
    else
      match remove from t with
      | None => cpanic
      | Some (moved, t) =>
        match remove to t with
        | None => cpanic
        | Some (replaced, t) =>
          cput (with_table (place to moved t)) ;;&
          ctry (vfs (close (descr_file replaced))) ;;&
          cret tt
        end
      end
  | _, _ => errno Errno.Badf
  end.

Definition fd_seek (fd offset : Z) (whence : Whence) : call Z :=
  let& f := seekable_file fd in
  let& (pos, f) := vfs (llseek f offset whence) in
  put_file fd f ;;& cret pos.

Definition fd_tell (fd : Z) : call Z :=
  let& f := seekable_file fd in
  let& (pos, f) := vfs (llseek f 0 Cur) in
  put_file fd f ;;& cret pos.

(** ** [preview1/sock.rs] *)
Definition socket {A} (fd : Z) : call A :=
  file fd ;;& errno Errno.Notsock.
End FdDir.
