(* ===== verification/PathCalls.v ===== *)
(** The 10 [path_*] calls: kobako-wasmtime's [preview1/path.rs] over the VFS's
    own calls.

    [poll_oneoff], the guest's wait: kobako-wasmtime's [preview1/poll.rs]. *)
From stdpp Require Import gmap.
From S2P Require Import Prelude Text Messages Runtime Endpoint Locking VfsTypes World Dcache Cred OpenFile Namei Security Witx Descriptors Session FdCalls.
Local Open Scope vfs_scope.
Local Open Scope call_scope.

Record PathOpen := MkPathOpen {
  dirflags : Z;
  oflags : Z;
  rights_base : Z;
  fdflags : Z;
}.

(** The [OpenHow] an open asks for. *)
Definition how_of (c : PathOpen) : OpenHow :=
  let create := flags_contain (oflags c) Oflags.CREAT in
  let truncate := flags_contain (oflags c) Oflags.TRUNC in
  let write := flags_contain (rights_base c) Rights.FD_WRITE in
  MkOpenHow
    (flags_intersect (rights_base c) (Z.lor Rights.FD_READ Rights.FD_READDIR)
     || (negb write && (create || truncate)))
    write
    create
    (flags_contain (oflags c) Oflags.EXCL)
    truncate
    (flags_contain (oflags c) Oflags.DIRECTORY)
    (flags_contain (dirflags c) Lookupflags.SYMLINK_FOLLOW)
    (flags_contain (fdflags c) Fdflags.APPEND)
    (flags_contain (fdflags c) Fdflags.NONBLOCK)
    (flags_contain (fdflags c) Fdflags.DSYNC)
    (flags_intersect (fdflags c) (Z.lor Fdflags.RSYNC Fdflags.SYNC)).

Section PathCalls.
Context {T : FsTypes} {H F : Type} `{!VfsTables T} `{!LruCache} `{!FileTables T} `{!Wiggle}
  `{!Hashing}.
Abbreviation call := (C (H := H) (F := F)).

Definition start_of (t : Descriptors) (fd : Z) : Start :=
  match get fd t with
  | None => fail BadDescriptor
  | Some d =>
    let f := descr_file d in
    let! dir := is_directory f in
    (if dir : bool then walk_guard_check (table_guard t) (f_path f) else ret tt) ;;!
    ret (f_path f)
  end.

Definition create_directory (fd : Z) (path : gslice) : call unit :=
  let& path := guest_str path in
  let& t := cget s_table in
  vfs (retry_eagain (filename_mkdirat (table_cred t) (start_of t fd) path)).

Definition follows (flags : Z) : bool := flags_contain flags Lookupflags.SYMLINK_FOLLOW.

Definition path_filestat_get (fd flags : Z) (path : gslice) : call Filestat :=
  let& path := guest_str path in
  let& t := cget s_table in
  let& st := vfs (retry_eagain (vfs_fstatat (table_cred t) (start_of t fd) path (follows flags))) in
  cret (to_filestat t st).

Definition path_filestat_set_times (fd flags : Z) (path : gslice) (times : Iattr FileOps)
  : call unit :=
  let& path := guest_str path in
  let& t := cget s_table in
  vfs (retry_eagain (do_utimes_path (table_cred t) (start_of t fd) path (follows flags) times)).

Definition path_link (old_fd : Z) (old_path : gslice) (new_fd : Z) (new_path : gslice) (flags : Z)
  : call unit :=
  let& old_path := guest_str old_path in
  let& new_path := guest_str new_path in
  let& t := cget s_table in
  vfs (retry_eagain (filename_linkat (table_cred t) (start_of t old_fd) old_path
    (start_of t new_fd) new_path (follows flags))).

Definition path_open (fd : Z) (path : gslice) (c : PathOpen) : call Z :=
  let& op := vfs (lift (build_open_flags (how_of c))) in
  let& t := cget s_table in
  match lowest_unused t with
  | None => errno Errno.Mfile
  | Some new =>
    let& path := guest_str path in
    let& f := vfs (retry_eagain (do_file_open (table_cred t) (start_of t fd) path op)) in
    cput (fun s => with_table (place new (for_file f) (s_table s)) s) ;;&
    cret new
  end.

Definition write_link (target : list byte) (buf buf_len : Z) : call Z :=
  let n := Z.min (len target) buf_len in
  write_bytes buf (take (Z.to_nat n) target) ;;& cret (as_u32 n).

Definition path_readlink (fd : Z) (path : gslice) (buf buf_len : Z) : call Z :=
  if buf_len =? 0 then errno Errno.Inval
  else
    let& path := guest_str path in
    let& t := cget s_table in
    let& target := vfs (retry_eagain (do_readlinkat (table_cred t) (start_of t fd) path)) in
    write_link target buf buf_len.

Definition remove_directory (fd : Z) (path : gslice) : call unit :=
  let& path := guest_str path in
  let& t := cget s_table in
  vfs (retry_eagain (filename_rmdir (table_cred t) (start_of t fd) path)).

Definition path_rename (old_fd : Z) (old_path : gslice) (new_fd : Z) (new_path : gslice)
  : call unit :=
  let& from_path := guest_str old_path in
  let& to_path := guest_str new_path in
  let& t := cget s_table in
  vfs (retry_eagain (filename_renameat2 (table_cred t) (start_of t old_fd) from_path
    (start_of t new_fd) to_path)).

(** Where a link is made, refused once the start is found. *)
Definition symlink_start (t : Descriptors) (target : list byte) (fd : Z) : Start :=
  let! start := start_of t fd in
  if starts_with [slash] target then fail NotPermitted else ret start.

Definition path_symlink (old_path : gslice) (fd : Z) (new_path : gslice) : call unit :=
  let& target := guest_str old_path in
  let& path := guest_str new_path in
  let& t := cget s_table in
  vfs (retry_eagain (filename_symlinkat (table_cred t) target (symlink_start t target fd) path)).

Definition unlink_file (fd : Z) (path : gslice) : call unit :=
  let& path := guest_str path in
  let& t := cget s_table in
  vfs (retry_eagain (filename_unlinkat (table_cred t) (start_of t fd) path)).
End PathCalls.

(** What a subscription waits for; a clock, as the nanoseconds left. *)
Inductive Kind := KClock (left_ : Z) | KFdRead | KFdWrite.

Record Subscription := MkSubscription {
  userdata : Z;
  kind_ : Kind;
  error_ : Errno.t;
}.

Section Poll.
Context {T : FsTypes} {H F : Type} `{!VfsTables T} `{!LruCache} `{!FileTables T} `{!Wiggle}.
Abbreviation call := (C (H := H) (F := F)).

Definition poll_descriptor (fd event : Z) : call Errno.t :=
  let& t := cget s_table in
  match file_of t fd with
  | None => cret Errno.Badf
  | Some f =>
    let& ready := vfs (poll f) in
    if PollMask.contains ready event then cret Errno.Success else errno Errno.Badf
  end.

Definition read_clock (c : SubscriptionClock) : call Kind :=
  let absolute := flags_contain (clock_flags c) Subclockflags.SUBSCRIPTION_CLOCK_ABSTIME in
  let& now :=
    match clock_id c, absolute with
    | (Realtime | Monotonic), false => cret 0
    | Monotonic, true => monotonic_now
    | Realtime, true => wall_now
    | _, _ => errno Errno.Inval
    end in
  cret (KClock (saturating_sub (clock_timeout c) now)).

Definition read_subscription (at_ : Z) : call Subscription :=
  let& sub := wiggle (read_subscription_at at_) in
  let& (kind, error) :=
    match sub_u sub with
    | SubClock clock => let& k := read_clock clock in cret (k, Errno.Success)
    | SubFdRead fd => let& e := poll_descriptor fd PollMask.IN in cret (KFdRead, e)
    | SubFdWrite fd => let& e := poll_descriptor fd PollMask.OUT in cret (KFdWrite, e)
    end in
  cret (MkSubscription (sub_userdata sub) kind error).

Fixpoint read_subscriptions (entries : list (result GuestError Z)) : call (list Subscription) :=
  match entries with
  | [] => cret []
  | entry :: entries =>
    let& at_ := wiggle (fun _ => entry) in
    let& sub := read_subscription at_ in
    let& subs := read_subscriptions entries in
    cret (sub :: subs)
  end.

Definition wait (nanos : Z) : call unit :=
  let& clocks := cget s_clocks in
  if (nanos =? 0) || negb (advances clocks) then cret tt
  else
    let& deadline := cget s_deadline in
    match deadline with
    | Some deadline =>
      let& now := instant_now in
      let spare := saturating_sub deadline now in
      if spare <=? nanos then sleep spare ;;& cerr (Trap TimeoutTrap)
      else sleep nanos
    | None => sleep nanos
    end.

Definition to_event (sub : Subscription) (nbytes : Z) : WitxEvent :=
  MkWitxEvent (userdata sub) (error_ sub)
    (match kind_ sub with KClock _ => EvClock | KFdRead => EvFdRead | KFdWrite => EvFdWrite end)
    nbytes 0.

Definition clock_left (sub : Subscription) : option Z :=
  match kind_ sub with KClock n => Some n | _ => None end.

(** [Iterator::min]. *)
Definition soonest (clocks : list Z) : option Z :=
  match clocks with [] => None | n :: clocks => Some (fold_left Z.min clocks n) end.

(** Whether a subscription's event fires after a wait, and its byte count. *)
Definition readiness (waited : Z) (sub : Subscription) : bool * Z :=
  match kind_ sub with
  | KClock n => (n <=? waited, 0)
  | KFdRead | KFdWrite =>
    (true, if bool_decide (error_ sub = Errno.Success) then 1 else 0)
  end.

Fixpoint write_events (events waited : Z) (subs : list Subscription) (written : Z) : call Z :=
  match subs with
  | [] => cret written
  | sub :: subs =>
    let (ready, nbytes) := readiness waited sub in
    if ready then
      let& ptr := wiggle (fun _ => event_add events written) in
      let& m := wiggle (write_event ptr (to_event sub nbytes)) in
      cput (with_memory m) ;;&
      write_events events waited subs (written + 1)
    else write_events events waited subs written
  end.

Definition poll_oneoff (subs events count : Z) : call Z :=
  if count =? 0 then errno Errno.Inval
  else
    consume count subscription_size ;;&
    consume count event_size ;;&
    let& subscriptions := read_subscriptions (ptr_iter subscription_size (subs, count)) in
    let clocks := omap clock_left subscriptions in
    let& waited :=
      if (length clocks =? length subscriptions)%nat then
        let soonest := default 0 (soonest clocks) in
        wait soonest ;;& cret soonest
      else cret 0 in
    write_events events waited subscriptions 0.
End Poll.
