(* ===== verification/Preview1.v ===== *)
(** The 36 calls a guest makes of kobako's own preview1: kobako-wasmtime's
    [preview1.rs], each call run by [Invocation::answer] against the calling
    instance's memory. *)
From stdpp Require Import gmap.
From S2P Require Import Prelude Text Messages Runtime Endpoint Locking VfsTypes World Dcache Cred OpenFile Namei Security Witx Descriptors Session FdCalls FdDir PathCalls.
Local Open Scope vfs_scope.
Local Open Scope call_scope.

(** A call as wiggle's glue hands it over; arguments no call reads are left out. *)
Inductive Preview1Call :=
| FdAdvise (fd offset n : Z)
| FdAllocate (fd offset n : Z)
| FdClose (fd : Z)
| FdDatasync (fd : Z)
| FdFdstatGet (fd : Z)
| FdFdstatSetFlags (fd flags : Z)
| FdFdstatSetRights (fd : Z)
| FdFilestatGet (fd : Z)
| FdFilestatSetSize (fd n : Z)
| FdFilestatSetTimes (fd atim mtim fst_flags : Z)
| FdPread (fd : Z) (iovs : gslice) (offset : Z)
| FdPrestatGet (fd : Z)
| FdPrestatDirName (fd path path_max_len : Z)
| FdPwrite (fd : Z) (ciovs : gslice) (offset : Z)
| FdRead (fd : Z) (iovs : gslice)
| FdReaddir (fd buf buf_len cookie : Z)
| FdRenumber (from to : Z)
| FdSeek (fd offset : Z) (whence : Whence)
| FdSync (fd : Z)
| FdTell (fd : Z)
| FdWrite (fd : Z) (ciovs : gslice)
| PathCreateDirectory (fd : Z) (path : gslice)
| PathFilestatGet (fd flags : Z) (path : gslice)
| PathFilestatSetTimes (fd flags : Z) (path : gslice) (atim mtim fst_flags : Z)
| PathLink (old_fd old_flags : Z) (old_path : gslice) (new_fd : Z) (new_path : gslice)
| PathOpenAt (fd : Z) (path : gslice) (how : PathOpen)
| PathReadlink (fd : Z) (path : gslice) (buf buf_len : Z)
| PathRemoveDirectory (fd : Z) (path : gslice)
| PathRename (old_fd : Z) (old_path : gslice) (new_fd : Z) (new_path : gslice)
| PathSymlink (old_path : gslice) (fd : Z) (new_path : gslice)
| PathUnlinkFile (fd : Z) (path : gslice)
| PollOneoff (subs events count : Z)
| SockAccept (fd : Z)
| SockRecv (fd : Z)
| SockSend (fd : Z)
| SockShutdown (fd : Z).

(** What a call answers with, for the glue to write where the guest asked. *)
Inductive Reply_ :=
| RUnit
| RNumber (n : Z)
| RFdstat (st : Fdstat)
| RFilestat (st : Filestat).

Section Preview1.
Context {T : FsTypes} {H F : Type} `{!VfsTables T} `{!LruCache} `{!FileTables T} `{!Wiggle}
  `{!Hashing}.
Abbreviation call := (C (H := H) (F := F)).

Definition unit_reply (c : call unit) : call Reply_ := c ;;& cret RUnit.
Definition number_reply (c : call Z) : call Reply_ := let& n := c in cret (RNumber n).
Definition fdstat_reply (c : call Fdstat) : call Reply_ := let& st := c in cret (RFdstat st).
Definition filestat_reply (c : call Filestat) : call Reply_ := let& st := c in cret (RFilestat st).

Definition perform (c : Preview1Call) : call Reply_ :=
  match c with
  | FdAdvise fd offset n => unit_reply (advise fd offset n)
  | FdAllocate fd offset n => unit_reply (allocate fd offset n)
  | FdClose fd => unit_reply (fd_close fd)
  | FdDatasync fd => unit_reply (fd_sync fd true)
  | FdFdstatGet fd => fdstat_reply (fdstat_get fd)
  | FdFdstatSetFlags fd flags => unit_reply (fdstat_set_flags fd flags)
  | FdFdstatSetRights fd => unit_reply (fdstat_set_rights fd)
  | FdFilestatGet fd => filestat_reply (fd_filestat_get fd)
  | FdFilestatSetSize fd n => unit_reply (filestat_set_size fd n)
  | FdFilestatSetTimes fd atim mtim flags =>
    unit_reply (utimensat atim mtim flags (fd_filestat_set_times fd))
  | FdPread fd iovs offset => number_reply (fd_pread fd iovs offset)
  | FdPrestatGet fd => number_reply (prestat_get fd)
  | FdPrestatDirName fd path n => unit_reply (prestat_dir_name fd path n)
  | FdPwrite fd ciovs offset => number_reply (fd_pwrite fd ciovs offset)
  | FdRead fd iovs => number_reply (fd_read fd iovs)
  | FdReaddir fd buf n cookie => number_reply (fd_readdir fd buf n cookie)
  | FdRenumber from to => unit_reply (renumber from to)
  | FdSeek fd offset whence => number_reply (fd_seek fd offset whence)
  | FdSync fd => unit_reply (fd_sync fd false)
  | FdTell fd => number_reply (fd_tell fd)
  | FdWrite fd ciovs => number_reply (fd_write fd ciovs)
  | PathCreateDirectory fd path => unit_reply (create_directory fd path)
  | PathFilestatGet fd flags path => filestat_reply (path_filestat_get fd flags path)
  | PathFilestatSetTimes fd flags path atim mtim fst_flags =>
    unit_reply (utimensat atim mtim fst_flags (path_filestat_set_times fd flags path))
  | PathLink old_fd flags old_path new_fd new_path =>
    unit_reply (path_link old_fd old_path new_fd new_path flags)
  | PathOpenAt fd path how => number_reply (path_open fd path how)
  | PathReadlink fd path buf n => number_reply (path_readlink fd path buf n)
  | PathRemoveDirectory fd path => unit_reply (remove_directory fd path)
  | PathRename old_fd old_path new_fd new_path =>
    unit_reply (path_rename old_fd old_path new_fd new_path)
  | PathSymlink old_path fd new_path => unit_reply (path_symlink old_path fd new_path)
  | PathUnlinkFile fd path => unit_reply (unlink_file fd path)
  | PollOneoff subs events count => number_reply (poll_oneoff subs events count)
  | SockAccept fd | SockSend fd => number_reply (socket fd)
  | SockRecv fd | SockShutdown fd => unit_reply (socket fd)
  end.

(** One call as a guest makes it. *)
Definition guest_call (c : Preview1Call) : call Reply_ := answer (perform c).

(** What a guest does with its memory and its fuel between two calls. *)
Definition between (m : Mem) (fuel : Z) (s : Session (T := T) H F) : Session H F :=
  MkSession (s_table s) m fuel (s_fuel s) (s_clocks s) (s_deadline s) (s_calls s) (s_app s)
    (s_ended s) (s_instants s) (s_asked s) (s_sleeps s) (s_world s).

Definition traps (r : result Error Reply_) : bool :=
  match r with Err (Trap _) => true | _ => false end.

(** A guest's calls in turn, none after one that traps. *)
Inductive runs : Session H F -> list (Preview1Call * result Error Reply_) -> Session H F -> Prop :=
| runs_none s : runs s [] s
| runs_trapped s m fuel c r s' :
    guest_call c (between m fuel s) = Some (r, s') -> traps r = true -> runs s [(c, r)] s'
| runs_call s m fuel c r s' l s'' :
    guest_call c (between m fuel s) = Some (r, s') -> traps r = false ->
    runs s' l s'' -> runs s ((c, r) :: l) s''.
End Preview1.
