(* ===== verification/CallLogic.v ===== *)
(** A program logic over a guest's calls: what one does to the descriptor table
    and to the world beneath, whatever it does to the caller's memory, its fuel
    and its clocks.

    [I] holds of the two between every two steps and [R] of them before and
    after, whichever way the call ends. *)
From stdpp Require Import gmap.
From S2P Require Import Prelude Text Messages Runtime Endpoint Locking VfsTypes World Dcache Cred OpenFile Namei Security Witx Descriptors Session FdCalls FdDir PathCalls Preview1.
Local Open Scope vfs_scope.
Local Open Scope call_scope.

Create HintDb calls.

(** ** Steps that reach neither the table nor the world *)
Section Aside.
Context {T : FsTypes} {H F : Type} `{!VfsTables T} `{LC : !LruCache} `{!FileTables T} `{!Wiggle}.
Abbreviation call := (C (H := H) (F := F)).

Definition aside {A} (c : call A) : Prop :=
  forall s r s', c s = Some (r, s') -> s_table s' = s_table s /\ s_world s' = s_world s.

Lemma aside_ret {A} (a : A) : aside (cret a).
Proof. by intros s r s' [= <- <-]. Qed.
Lemma aside_err {A} e : aside (cerr (A := A) e).
Proof. by intros s r s' [= <- <-]. Qed.
Lemma aside_errno {A} e : aside (errno (A := A) e).
Proof. apply aside_err. Qed.
Lemma aside_get {A} (f : Session H F -> A) : aside (cget f).
Proof. by intros s r s' [= <- <-]. Qed.
Lemma aside_put f :
  (forall s, s_table (f s) = s_table s /\ s_world (f s) = s_world s) -> aside (cput f).
Proof. intros Hf s r s' [= <- <-]. apply Hf. Qed.
Lemma aside_wiggle {A} (f : Mem -> result GuestError A) : aside (wiggle f).
Proof. intros s r s'. unfold wiggle. by destruct (f (s_memory s)); intros [= <- <-]. Qed.
Lemma aside_bind {A B} (c : call A) (k : A -> call B) :
  aside c -> (forall a, aside (k a)) -> aside (cbind c k).
Proof.
  intros Hc Hk s r s'. unfold cbind. destruct (c s) as [[[a|e] s1]|] eqn:E; [|intros [= <- <-]|done].
  - intros Hr. destruct (Hc _ _ _ E), (Hk _ _ _ _ Hr). split; congruence.
  - by apply (Hc _ _ _ E).
Qed.
End Aside.

#[export] Hint Resolve aside_ret aside_err aside_errno aside_get aside_wiggle aside_bind : calls.
#[export] Hint Extern 2 (aside (cput _)) => (apply aside_put; intros; split; reflexivity) : calls.

Ltac asides :=
  intros; repeat first
    [ progress (intros; cbv zeta)
    | solve [auto with calls]
    | apply aside_bind
    | match goal with
      | |- aside (match ?x with _ => _ end) => destruct x
      | |- aside (if ?x then _ else _) => destruct x
      end ].

Section Memory.
Context {T : FsTypes} {H F : Type} `{!VfsTables T} `{LC : !LruCache} `{!FileTables T} `{!Wiggle}.
Abbreviation call := (C (H := H) (F := F)).

Lemma aside_consume n sz : aside (consume n sz : call unit).
Proof. unfold consume. asides. Qed.
Lemma aside_unshared {A} (x : option A) : aside (require_unshared x : call A).
Proof. unfold require_unshared. asides. Qed.
#[local] Hint Resolve aside_consume aside_unshared : calls.
Lemma aside_bytes p : aside (bytes p : call _).
Proof. unfold bytes. asides. Qed.
Lemma aside_bytes_mut p : aside (bytes_mut p : call _).
Proof. unfold bytes_mut. asides. Qed.
Lemma aside_set_bytes p bs : aside (set_bytes p bs : call _).
Proof. unfold set_bytes. asides. Qed.
Lemma aside_write_bytes p bs : aside (write_bytes p bs : call _).
Proof. unfold write_bytes. asides. Qed.
Lemma aside_guest_str p : aside (guest_str p : call _).
Proof. unfold guest_str. asides. Qed.
Lemma aside_first_of read entries : aside (first_of read entries : call _).
Proof. induction entries; simpl; asides. Qed.
#[local] Hint Resolve aside_first_of : calls.
Lemma aside_iovec p : aside (first_non_empty_iovec p : call _).
Proof. unfold first_non_empty_iovec, first_non_empty. asides. Qed.
Lemma aside_ciovec p : aside (first_non_empty_ciovec p : call _).
Proof. unfold first_non_empty_ciovec, first_non_empty. asides. Qed.
Lemma aside_instant_now : aside (instant_now : call _).
Proof. by intros s r s' [= <- <-]. Qed.
Lemma aside_sleep n : aside (sleep n : call _).
Proof. unfold sleep. asides. Qed.
Lemma aside_abandonment : aside (abandonment : call _).
Proof. by intros s r s' [= <- <-]. Qed.
Lemma aside_clift {A} (x : result Error A) : aside (clift x : call A).
Proof. unfold clift. asides. Qed.
End Memory.
#[export] Hint Resolve aside_consume aside_unshared aside_bytes aside_bytes_mut aside_set_bytes
  aside_write_bytes aside_guest_str aside_iovec aside_ciovec aside_instant_now aside_sleep
  aside_abandonment aside_clift : calls.

(** ** Triples *)
Section Does.
Context {T : FsTypes} {H F : Type} `{!VfsTables T} `{LC : !LruCache} `{!FileTables T} `{!Wiggle}.
Abbreviation call := (C (H := H) (F := F)).
Implicit Types (t : Descriptors) (w : world).
Context (I : Descriptors -> world -> Prop) (R : Descriptors * world -> Descriptors * world -> Prop).
Context `{!PreOrder R}.

Definition does {A} (P : Descriptors -> world -> Prop) (c : call A)
    (Q : A -> Descriptors -> world -> Prop) : Prop :=
  forall s r s', I (s_table s) (s_world s) -> P (s_table s) (s_world s) -> c s = Some (r, s') ->
    I (s_table s') (s_world s')
    /\ R (s_table s, s_world s) (s_table s', s_world s')
    /\ (forall a, r = Ok a -> Q a (s_table s') (s_world s')).

Definition anything {A} (_ : A) (_ : Descriptors) (_ : world) : Prop := True.

Lemma does_pre {A} (P P' : Descriptors -> world -> Prop) (c : call A) Q :
  (forall t w, I t w -> P t w -> P' t w) -> does P' c Q -> does P c Q.
Proof. intros HP Hc s r s' Hi Hp. apply Hc; auto. Qed.

Lemma does_post {A} P (c : call A) (Q Q' : A -> Descriptors -> world -> Prop) :
  does P c Q' -> (forall a t w, I t w -> Q' a t w -> Q a t w) -> does P c Q.
Proof.
  intros Hc HQ s r s' Hi Hp E. destruct (Hc s r s' Hi Hp E) as (Hi' & Hr & Hq). eauto 6.
Qed.

(** A fact about neither. *)
Lemma does_pure {A} (Fact : Prop) P (c : call A) Q :
  (Fact -> does P c Q) -> does (fun t w => Fact /\ P t w) c Q.
Proof. intros Hc s r s' Hi [Hf Hp]. by apply Hc. Qed.

Lemma does_anything {A} P (c : call A) Q : does P c Q -> does P c anything.
Proof. intros Hc. by eapply does_post. Qed.

Lemma does_aside {A} P (c : call A) : aside c -> does P c (fun _ => P).
Proof.
  intros Hc s r s' Hi Hp E. destruct (Hc s r s' E) as [-> ->]. split_and!; [done | reflexivity | done].
Qed.

Lemma does_ret {A} P (a : A) Q : (forall t w, I t w -> P t w -> Q a t w) -> does P (cret a) Q.
Proof.
  intros HQ s r s' Hi Hp [= <- <-]. split_and!; [done | reflexivity | by intros b [= <-]; auto].
Qed.
Lemma does_err {A} P e Q : does P (cerr (A := A) e) Q.
Proof. intros s r s' Hi Hp [= <- <-]. by split_and!; [| reflexivity |]. Qed.
Lemma does_errno {A} P e Q : does P (errno (A := A) e) Q.
Proof. apply does_err. Qed.
Lemma does_panic {A} P Q : does P (cpanic (A := A)) Q.
Proof. by intros s r s' Hi Hp ?. Qed.

Lemma does_bind {A B} P (c : call A) (k : A -> call B) Q S :
  does P c Q -> (forall a, does (Q a) (k a) S) -> does P (cbind c k) S.
Proof.
  intros Hc Hk s r s' Hi Hp E. unfold cbind in E.
  destruct (c s) as [[[a|e] s1]|] eqn:Ec; simplify_eq.
  - destruct (Hc _ _ _ Hi Hp Ec) as (Hi1 & R1 & Hq).
    destruct (Hk a _ _ _ Hi1 (Hq a eq_refl) E) as (Hi2 & R2 & Hs).
    split_and!; [done | by etransitivity | done].
  - destruct (Hc _ _ _ Hi Hp Ec) as (Hi1 & R1 & _). done.
Qed.

(** A step aside leaves what is known as it was. *)
Lemma does_past {A B} P (c : call A) (k : A -> call B) Q :
  aside c -> (forall a, does P (k a) Q) -> does P (cbind c k) Q.
Proof. intros Hc Hk. eapply does_bind; [by apply does_aside | done]. Qed.

Lemma does_table {B} P (k : Descriptors -> call B) Q :
  (forall t, does (fun t' w => t' = t /\ P t w) (k t) Q) -> does P (cbind (cget s_table) k) Q.
Proof.
  intros Hk s r s' Hi Hp E. unfold cbind, cget in E. by apply (Hk (s_table s) s r s').
Qed.

Lemma does_put_table P (f : Descriptors -> Descriptors) Q :
  (forall t w, I t w -> P t w -> I (f t) w /\ R (t, w) (f t, w) /\ Q tt (f t) w) ->
  does P (cput (fun s => with_table (f (s_table s)) s)) Q.
Proof.
  intros Hf s r s' Hi Hp [= <- <-]. destruct (Hf _ _ Hi Hp) as (? & ? & ?). simpl.
  split_and!; [done..|]. by intros [] _.
Qed.

Lemma does_try {A} P (c : call A) Q :
  does P c Q -> does P (ctry c) (fun r t w => forall a, r = Ok a -> Q a t w).
Proof.
  intros Hc s r s' Hi Hp E. unfold ctry in E. destruct (c s) as [[x s1]|] eqn:Ec; simplify_eq.
  destruct (Hc _ _ _ Hi Hp Ec) as (Hi1 & HR & Hq). split_and!; [done..|]. by intros r' [= <-].
Qed.

(** A call of the VFS leaves the table. *)
Lemma does_vfs {A} P (m : M A) (Q : A -> Descriptors -> world -> Prop) :
  (forall t w r w', I t w -> P t w -> m w = Some (r, w') ->
     I t w' /\ R (t, w) (t, w') /\ (forall a, r = Ok a -> Q a t w')) ->
  does P (vfs m) Q.
Proof.
  intros Hm s r s' Hi Hp E. unfold vfs in E.
  destruct (m (s_world s)) as [[[a|e] w]|] eqn:Em; simplify_eq; simpl;
    destruct (Hm _ _ _ _ Hi Hp Em) as (? & ? & Hq); (split_and!; [done..|]).
  - intros b [= <-]. by apply Hq.
  - done.
Qed.

(** [Invocation::answer] adds nothing to what the call did. *)
Lemma does_answer {A} P (c : call A) Q : does P c Q -> does P (answer c) Q.
Proof.
  intros Hc. unfold answer.
  apply does_past; [unfold memory_new; auto with calls | intros []].
  eapply does_bind; [by apply does_try | intros r].
  apply does_past; [auto with calls | intros [|]]; [apply does_err|].
  destruct r as [a|e]; [|apply does_err]. apply does_ret. eauto.
Qed.
End Does.
