(* ===== verification/DescriptorFacts.v ===== *)
(** The numbers of the guest's descriptor table: which one the next descriptor
    takes, and what every call keeps of them.

    What the guest's descriptor table promises whatever a guest calls: its
    numbers are those Linux's [alloc_fd] would give. *)
From stdpp Require Import gmap.
From S2P Require Import Prelude Text Messages Runtime Endpoint Locking VfsTypes World Dcache Cred OpenFile Namei Security Witx Descriptors Session FdCalls FdDir PathCalls Preview1 CallLogic.
Local Open Scope vfs_scope.
Local Open Scope call_scope.

(** ** Least and greatest keys *)

Lemma fold_min_spec l x :
  (fold_left Z.min l x = x \/ In (fold_left Z.min l x) l)
  /\ fold_left Z.min l x <= x /\ (forall y, In y l -> fold_left Z.min l x <= y).
Proof.
  revert x. induction l as [|a l IH]; intros x; simpl; [split_and!; [by left | lia | done]|].
  destruct (IH (Z.min x a)) as (H1 & H2 & H3). split_and!.
  - destruct H1 as [->|H1]; [|by right; right].
    destruct (Z.min_spec x a) as [[_ ->]|[_ ->]]; [by left | by right; left].
  - lia.
  - intros y [<-|Hy]; [lia | by apply H3].
Qed.

Lemma fold_max_spec l x :
  (fold_left Z.max l x = x \/ In (fold_left Z.max l x) l)
  /\ x <= fold_left Z.max l x /\ (forall y, In y l -> y <= fold_left Z.max l x).
Proof.
  revert x. induction l as [|a l IH]; intros x; simpl; [split_and!; [by left | lia | done]|].
  destruct (IH (Z.max x a)) as (H1 & H2 & H3). split_and!.
  - destruct H1 as [->|H1]; [|by right; right].
    destruct (Z.max_spec x a) as [[_ ->]|[_ ->]]; [by right; left | by left].
  - lia.
  - intros y [<-|Hy]; [lia | by apply H3].
Qed.

Lemma first_key_some s fd :
  first_key s = Some fd -> fd ∈ s /\ forall k, k ∈ s -> fd <= k.
Proof.
  unfold first_key. destruct (elements s) as [|a l] eqn:E; [done|]. intros [= <-].
  destruct (fold_min_spec l a) as (H1 & H2 & H3).
  assert (Hs : forall k, k ∈ s <-> k = a \/ In k l).
  { intros k. rewrite <- elem_of_elements, E, list.elem_of_cons. by rewrite list_elem_of_In. }
  split; [apply Hs; tauto|]. intros k [->|Hk]%Hs; [done | by apply H3].
Qed.

Lemma first_key_none s : first_key s = None -> s = ∅.
Proof.
  unfold first_key. destruct (elements s) eqn:E; [|done]. intros _.
  by apply leibniz_equiv, elements_empty_inv.
Qed.

Lemma last_key_some {A} (m : gmap Z A) fd :
  last_key m = Some fd -> is_Some (m !! fd) /\ forall k, is_Some (m !! k) -> k <= fd.
Proof.
  unfold last_key. destruct (elements (dom m)) as [|a l] eqn:E; [done|]. intros [= <-].
  destruct (fold_max_spec l a) as (H1 & H2 & H3).
  assert (Hs : forall k, is_Some (m !! k) <-> k = a \/ In k l).
  { intros k. rewrite <- elem_of_dom, <- elem_of_elements, E, list.elem_of_cons.
    by rewrite list_elem_of_In. }
  split; [apply Hs; tauto|]. intros k [->|Hk]%Hs; [done | by apply H3].
Qed.

Lemma last_key_none {A} (m : gmap Z A) : last_key m = None -> m = ∅.
Proof.
  unfold last_key. destruct (elements (dom m)) eqn:E; [|done]. intros _.
  apply dom_empty_inv_L. by apply leibniz_equiv, elements_empty_inv.
Qed.

(** ** Numbering *)
Section Numbering.
Context {T : FsTypes}.
Implicit Types t : Descriptors.

(** Every number below the highest ever given out is open or free to give
    again, and none is both. *)
Definition numbered t : Prop :=
  exists n, 0 <= n <= 2 ^ 32
    /\ (forall fd, is_Some (used t !! fd) \/ fd ∈ free t <-> 0 <= fd < n)
    /\ (forall fd, is_Some (used t !! fd) -> fd ∉ free t).

(** It holds no more than its limit, or than the [k] it started with. *)
Definition within_limit (k : Z) t : Prop :=
  forall l, limit t = Some l -> Z.of_nat (size (used t)) <= Z.max l k.

(** The lowest closed number, while the table may hold one more. *)
Lemma lowest_unused_spec t fd :
  numbered t -> lowest_unused t = Some fd ->
  get fd t = None /\ 0 <= fd <= U32_MAX /\ (forall k, 0 <= k < fd -> is_Some (get k t))
  /\ (forall l, limit t = Some l -> Z.of_nat (size (used t)) < l).
Proof.
  intros (n & Hn & Hall & Hno) Hl. unfold lowest_unused in Hl.
  destruct (match limit t with Some _ => _ | None => _ end) eqn:Elim; [done|].
  assert (Hlim : forall l, limit t = Some l -> Z.of_nat (size (used t)) < l).
  { intros l E. rewrite E in Elim. by apply Z.leb_gt in Elim. }
  unfold get, U32_MAX. destruct (first_key (free t)) as [k|] eqn:Ef.
  - injection Hl as ->. apply first_key_some in Ef as [Hin Hmin].
    assert (Hr : 0 <= fd < n) by (apply Hall; by right).
    split_and!; [| lia..| | done].
    + apply eq_None_not_Some. intros Hs. by apply (Hno fd Hs).
    + intros k Hk. destruct (proj2 (Hall k) ltac:(lia)) as [|Hkf]; [done|].
      specialize (Hmin k Hkf). lia.
  - apply first_key_none in Ef.
    assert (Hu : forall k, is_Some (used t !! k) <-> 0 <= k < n).
    { intros k. rewrite <- Hall, Ef, elem_of_empty. tauto. }
    destruct (last_key (used t)) as [last|] eqn:Elast.
    + apply last_key_some in Elast as [Hs Hmax]. unfold checked_add_u32 in Hl.
      destruct (last + 1 <=? U32_MAX) eqn:Eb; [|done]. injection Hl as <-.
      apply Z.leb_le in Eb. unfold U32_MAX in Eb. apply Hu in Hs.
      assert (n = last + 1) as ->.
      { destruct (decide (n = last + 1)) as [|Hne]; [done|].
        specialize (Hmax (last + 1) ltac:(apply Hu; lia)). lia. }
      split_and!; [| lia..| intros k Hk; apply Hu; lia | done].
      apply eq_None_not_Some. intros Hs'%Hu. lia.
    + apply last_key_none in Elast. injection Hl as <-.
      split_and!; [by rewrite Elast, lookup_empty | lia.. | done].
Qed.

Lemma numbered_place t fd d :
  numbered t -> lowest_unused t = Some fd -> numbered (place fd d t).
Proof.
  intros Ht Hl. destruct (lowest_unused_spec t fd Ht Hl) as (Hc & Hr & Hbelow & _).
  destruct Ht as (n & Hn & Hall & Hno). unfold get, U32_MAX in *.
  assert (Hfn : fd <= n).
  { destruct (decide (fd <= n)); [done|].
    pose proof (proj1 (Hall n) (or_introl (Hbelow n ltac:(lia)))). lia. }
  exists (Z.max n (fd + 1)). unfold place. simpl. split_and!; [lia.. | |].
  - intros k. destruct (decide (k = fd)) as [->|Hne].
    + rewrite lookup_insert_eq. split; [lia | eauto].
    + rewrite lookup_insert_ne by done. rewrite elem_of_difference, elem_of_singleton.
      specialize (Hall k). split.
      * intros [Hs|[Hf _]]; [assert (0 <= k < n) by tauto | assert (0 <= k < n) by tauto]; lia.
      * intros Hk. destruct (decide (k < n)); [|lia]. destruct (proj2 Hall ltac:(lia)); auto.
  - intros k Hs. rewrite elem_of_difference, elem_of_singleton. intros [Hf Hne].
    rewrite lookup_insert_ne in Hs by done. by apply (Hno k).
Qed.

Lemma limited_place k t fd d :
  numbered t -> lowest_unused t = Some fd -> within_limit k t -> within_limit k (place fd d t).
Proof.
  intros Ht Hl Hk l El. destruct (lowest_unused_spec t fd Ht Hl) as (Hc & _ & _ & Hlim).
  specialize (Hlim l El). unfold place. simpl. unfold get in Hc.
  rewrite map_size_insert_None by done. lia.
Qed.

Lemma remove_some fd t d t' :
  remove fd t = Some (d, t') ->
  get fd t = Some d /\ t' = set_free ({[fd]} ∪ free t) (set_used (delete fd (used t)) t).
Proof. unfold remove, get. destruct (used t !! fd); simpl; [|done]. by intros [= <- <-]. Qed.

Lemma numbered_remove fd t d t' : numbered t -> remove fd t = Some (d, t') -> numbered t'.
Proof.
  intros (n & Hn & Hall & Hno) [Hd ->]%remove_some. exists n. simpl. unfold get in Hd.
  split_and!; [lia.. | |].
  - intros k. rewrite elem_of_union, elem_of_singleton. destruct (decide (k = fd)) as [->|Hne].
    + rewrite <- Hall. split; [intros _; left; eauto | auto].
    + rewrite lookup_delete_ne by done. rewrite <- Hall. split; [|tauto].
      intros [|[|]]; [tauto | done | tauto].
  - intros k Hs. destruct (decide (k = fd)) as [->|Hne].
    + rewrite lookup_delete_eq in Hs. by destruct Hs.
    + rewrite lookup_delete_ne in Hs by done. specialize (Hno k Hs). rewrite elem_of_union, elem_of_singleton. tauto.
Qed.

Lemma size_remove fd t d t' :
  remove fd t = Some (d, t') -> size (used t) = S (size (used t')) /\ limit t' = limit t.
Proof.
  intros [Hd ->]%remove_some. split; [|done]. simpl. unfold get in Hd.
  rewrite <- (insert_delete_id (used t) fd d) at 1 by done.
  apply map_size_insert_None, lookup_delete_eq.
Qed.

Lemma limited_remove k fd t d t' :
  within_limit k t -> remove fd t = Some (d, t') -> within_limit k t'.
Proof.
  intros Hk [Hs El]%size_remove l E. rewrite El in E. specialize (Hk l E). lia.
Qed.

(** A number just freed is open again. *)
Lemma numbered_place_freed t fd d : numbered t -> fd ∈ free t -> numbered (place fd d t).
Proof.
  intros (n & Hn & Hall & Hno) Hf. exists n. unfold place. simpl. split_and!; [lia.. | |].
  - intros k. rewrite elem_of_difference, elem_of_singleton. destruct (decide (k = fd)) as [->|Hne].
    + rewrite lookup_insert_eq, <- Hall. split; [auto | eauto].
    + rewrite lookup_insert_ne by done. rewrite <- Hall. tauto.
  - intros k Hs. rewrite elem_of_difference, elem_of_singleton. intros [Hk Hne].
    rewrite lookup_insert_ne in Hs by done. by apply (Hno k).
Qed.

Lemma numbered_update fd f t : numbered t -> numbered (update_file fd f t).
Proof.
  intros (n & Hn & Hall & Hno). exists n. unfold update_file. simpl.
  assert (Hs : forall k, is_Some (alter (fun d => MkDescriptor f (preopen_path d)) fd (used t) !! k)
    <-> is_Some (used t !! k)).
  { intros k. rewrite <- !elem_of_dom, dom_alter_L. done. }
  setoid_rewrite Hs. done.
Qed.

Lemma limited_update k fd f t : within_limit k t -> within_limit k (update_file fd f t).
Proof.
  intros Hk l El. specialize (Hk l El). unfold update_file. simpl.
  by rewrite <- size_dom, dom_alter_L, size_dom.
Qed.
End Numbering.

(** ** What every call keeps of them *)
Section Keeping.
Context {T : FsTypes} {H F : Type} `{!VfsTables T} `{LC : !LruCache} `{!FileTables T} `{!Wiggle}
  `{!Hashing}.
Abbreviation call := (C (H := H) (F := F)).
Context (k : Z).

Definition orderly (t : Descriptors) (_ : world) : Prop := numbered t /\ within_limit k t.
Definition anyway (_ _ : Descriptors * world) : Prop := True.

#[export] Instance anyway_pre : PreOrder anyway.
Proof. by split. Qed.

Abbreviation orders := (does (H := H) (F := F) orderly anyway).
Definition keeping {A} (c : call A) : Prop := orders (fun _ _ => True) c anything.

Lemma keeping_aside {A} (c : call A) : aside c -> keeping c.
Proof. intros Hc. by eapply does_anything, does_aside. Qed.
Lemma keeping_bind {A B} (c : call A) (f : A -> call B) :
  keeping c -> (forall a, keeping (f a)) -> keeping (cbind c f).
Proof.
  intros Hc Hf. eapply does_bind; [apply _ | exact Hc | intros a].
  eapply does_pre; [|apply Hf]. done.
Qed.
Lemma orders_vfs {A} (P : Descriptors -> Prop) (m : M A) :
  orders (fun t _ => P t) (vfs m) (fun _ t _ => P t).
Proof. apply does_vfs. by intros t w r w' Hi Hp _. Qed.
Lemma keeping_vfs {A} (m : M A) : keeping (vfs m).
Proof. eapply does_anything, (orders_vfs (fun _ => True)). Qed.
Lemma keeping_put_file fd f : keeping (put_file fd f).
Proof.
  apply (does_put_table _ _ _ (update_file fd f)). intros t w [Hn Hl] _. split_and!; [|done..].
  split; [by apply numbered_update | by apply limited_update].
Qed.
Lemma keeping_try {A} (c : call A) : keeping c -> keeping (ctry c).
Proof. intros Hc. by eapply does_anything, does_try. Qed.

#[local] Hint Resolve keeping_vfs keeping_put_file : calls.
#[local] Hint Extern 1 (keeping _) => (apply keeping_aside; solve [auto with calls]) : calls.

Ltac keeps_calls :=
  intros; repeat first
    [ progress (intros; cbv zeta)
    | solve [auto with calls]
    | apply keeping_bind
    | match goal with
      | |- keeping (match ?x with _ => _ end) => destruct x
      | |- keeping (if ?x then _ else _) => destruct x
      end ].

Lemma keeping_file fd : keeping (file fd).
Proof. unfold file. keeps_calls. Qed.
Lemma keeping_descriptor fd : keeping (descriptor fd).
Proof. unfold descriptor. keeps_calls. Qed.
#[local] Hint Resolve keeping_file keeping_descriptor : calls.
Lemma keeping_seekable fd : keeping (seekable_file fd).
Proof. unfold seekable_file. keeps_calls. Qed.
#[local] Hint Resolve keeping_seekable : calls.

Lemma orders_put t t' :
  (numbered t -> within_limit k t -> numbered t' /\ within_limit k t') ->
  orders (fun t1 _ => t1 = t) (cput (with_table t')) anything.
Proof.
  intros Ht s r s' Hi Hp [= <- <-]. simpl. unfold orderly in *. rewrite Hp in Hi.
  destruct Hi. destruct (Ht ltac:(done) ltac:(done)). by split_and!.
Qed.

Lemma keeping_close fd : keeping (fd_close fd).
Proof.
  unfold fd_close. apply does_table. intros t.
  destruct (remove fd t) as [[d t']|] eqn:E; [|apply does_errno; apply _].
  eapply does_bind; [apply _ | |intros []; eapply does_pre; [|apply keeping_vfs]; done].
  eapply does_pre; [|apply (orders_put t)].
  - by intros t1 w _ [-> _].
  - intros Hn Hl. split; [by eapply numbered_remove | by eapply limited_remove].
Qed.

Lemma keeping_renumber from to : keeping (renumber from to).
Proof.
  unfold renumber. apply does_table. intros t.
  destruct (get from t) as [x|], (get to t) as [y|]; try (apply does_errno; apply _).
  case_match; [by apply does_ret; [apply _|]|].
  destruct (remove from t) as [[moved t1]|] eqn:E1; [|apply does_panic].
  destruct (remove to t1) as [[replaced t2]|] eqn:E2; [|apply does_panic].
  eapply does_bind; [apply _ | |intros []; eapply does_pre;
    [|apply keeping_bind; [apply keeping_try, keeping_vfs | keeps_calls]]; done].
  eapply does_pre; [|apply (orders_put t)].
  - by intros t' w _ [-> _].
  - intros Hn Hl. assert (Hn2 : numbered t2) by eauto using numbered_remove.
    pose proof (remove_some _ _ _ _ E2) as [_ Ht2].
    split; [apply numbered_place_freed; [done|]|].
    { rewrite Ht2. simpl. set_solver. }
    intros l El. unfold place in El |- *. simpl in El |- *.
    destruct (size_remove _ _ _ _ E1) as [S1 L1], (size_remove _ _ _ _ E2) as [S2 L2].
    rewrite L2, L1 in El. specialize (Hl l El).
    rewrite map_size_insert. destruct (used t2 !! to); simpl; lia.
Qed.
(** An open places what it opened at the number found before the name was
    looked at. *)
Lemma orders_path_open t fd path c :
  orders (fun t1 _ => t1 = t) (path_open fd path c)
    (fun new t1 _ => lowest_unused t = Some new /\ exists f, t1 = place new (for_file f) t).
Proof.
  unfold path_open. eapply does_bind; [apply _ | apply orders_vfs | intros op].
  apply does_table. intros t0.
  destruct (lowest_unused t0) as [new|] eqn:El; [|apply does_errno; apply _].
  apply does_past; [apply _ | auto with calls | intros p].
  eapply does_bind; [apply _ | | intros f].
  { eapply does_pre; [|apply (orders_vfs (fun t1 => t1 = t0 /\ t1 = t))]. by intros t1 w _ [-> ->]. }
  eapply does_bind with (Q := fun _ t1 _ => t0 = t /\ t1 = place new (for_file f) t); [apply _ | |].
  - apply (does_put_table _ _ _ (place new (for_file f))).
    intros t1 w [Hn Hl] [-> <-]. split; [|done].
    split; [by apply numbered_place | by apply limited_place].
  - intros []. apply does_ret; [apply _|]. intros t1 w _ [<- ->]. eauto.
Qed.

Lemma keeping_path_open fd path c : keeping (path_open fd path c).
Proof.
  intros s r s' Hi _ E. destruct (orders_path_open (s_table s) fd path c s r s' Hi eq_refl E).
  by split_and!.
Qed.

Lemma keeping_readdir fd start capacity cookie : keeping (fd_readdir fd start capacity cookie).
Proof. unfold fd_readdir. keeps_calls. Qed.

Lemma keeping_subscriptions entries : keeping (read_subscriptions entries).
Proof.
  induction entries as [|e entries IH]; simpl; [keeps_calls|].
  unfold read_subscription, poll_descriptor, read_clock, monotonic_now, wall_now. keeps_calls.
Qed.

Lemma keeping_events events waited subs n : keeping (write_events events waited subs n).
Proof. revert n. induction subs as [|sub subs IH]; intros n; simpl; keeps_calls. Qed.

#[local] Hint Resolve keeping_close keeping_renumber keeping_path_open keeping_readdir
  keeping_subscriptions keeping_events : calls.

Lemma keeping_perform c : keeping (perform c).
Proof.
  destruct c; simpl; unfold unit_reply, number_reply, fdstat_reply, filestat_reply, utimensat,
    advise, allocate, fd_sync, fdstat_get, fdstat_set_flags, fdstat_set_rights, refuse_stream,
    fd_filestat_get, filestat_set_size, fd_filestat_set_times, fd_pread, prestat_get,
    prestat_dir_name, fd_pwrite, fd_read, fd_seek, fd_tell, fd_write, create_directory,
    path_filestat_get, path_filestat_set_times, path_link, path_readlink, write_link,
    remove_directory, path_rename, path_symlink, unlink_file, poll_oneoff, wait, socket; keeps_calls.
Qed.

Lemma keeping_guest_call c : keeping (guest_call c).
Proof. apply does_answer; [apply _ | apply keeping_perform]. Qed.
End Keeping.

Section Runs.
Context {T : FsTypes} {H F : Type} `{!VfsTables T} `{LC : !LruCache} `{!FileTables T} `{!Wiggle}
  `{!Hashing}.

(** Numbers [0] up to [n], each open, none free. *)
Definition filled (n : Z) (u : gmap Z Descriptor) : Prop :=
  (forall fd, is_Some (u !! fd) <-> 0 <= fd < n) /\ Z.of_nat (size u) = n.

Lemma filled_insert n u d : 0 <= n -> filled n u -> filled (n + 1) (<[n := d]> u).
Proof.
  intros Hn [Hu Hs].
  assert (Hf : u !! n = None) by (apply eq_None_not_Some; intros Hk%Hu; lia).
  split.
  - intros fd. destruct (decide (fd = n)) as [->|Hne].
    + rewrite lookup_insert_eq. split; [lia | eauto].
    + rewrite lookup_insert_ne by done. rewrite Hu. lia.
  - rewrite map_size_insert_None by done. lia.
Qed.

Lemma open_roots_filled opener n mounts u w u' w' :
  0 <= n -> filled n u -> open_roots opener n mounts u w = Some (Ok u', w') ->
  filled (n + len mounts) u'.
Proof.
  revert n u w. induction mounts as [|m mounts IH]; intros n u w Hn Hu E; simpl in E.
  - injection E as <- <-. by rewrite Z.add_0_r.
  - unfold bind in E. destruct (file_root _ _ _) as [[[root|e] w1]|]; try done.
    replace (n + len (m :: mounts)) with (n + 1 + len mounts) by len_lia.
    eapply IH; [lia | by apply filled_insert | exact E].
Qed.

Lemma new_orderly stdin stdout stderr mounts lim opener p w t w' :
  3 + len mounts <= 2 ^ 32 ->
  descriptors_new stdin stdout stderr mounts lim opener p w = Some (Ok t, w') ->
  orderly (3 + len mounts) t w'.
Proof.
  intros Hn E. unfold descriptors_new, bind in E.
  destruct (open_roots _ _ _ _ _) as [[[u|e] w1]|] eqn:Er; [|done..]. injection E as <- <-.
  apply open_roots_filled in Er as [Hu Hs]; [|done|].
  - split; [|intros l _; simpl; lia]. exists (3 + len mounts). simpl. split_and!; [len_lia..| |].
    + intros fd. rewrite Hu. split; [intros [|Hf]; [done | set_solver] | auto].
    + set_solver.
  - assert (He : filled 0 (∅ : gmap Z Descriptor)).
    { split; [|done]. intros fd. rewrite lookup_empty. split; [by intros [] | lia]. }
    apply (filled_insert 0 _ (for_file stdin)) in He; [|done].
    apply (filled_insert 1 _ (for_file stdout)) in He; [|done].
    apply (filled_insert 2 _ (for_file stderr)) in He; [|done].
    replace (<[0:=for_file stdin]> _) with (<[2:=for_file stderr]> (<[1:=for_file stdout]>
      (<[0:=for_file stdin]> (∅ : gmap Z Descriptor)))); [exact He|].
    apply map_eq. intros i. rewrite !lookup_insert. repeat case_decide; congruence.
Qed.

Lemma runs_orderly k (s s' : Session H F) l :
  orderly k (s_table s) (s_world s) -> runs s l s' -> orderly k (s_table s') (s_world s').
Proof.
  intros Hs Hr. induction Hr as [s|s m fuel c r s' E _|s m fuel c r s' l s'' E _ _ IH]; [done| |].
  - by apply (keeping_guest_call k c _ _ _ (Hs : orderly k (s_table (between m fuel s)) _) Logic.I E).
  - apply IH.
    by apply (keeping_guest_call k c _ _ _ (Hs : orderly k (s_table (between m fuel s)) _) Logic.I E).
Qed.
End Runs.

Module Numbers.
Section Numbers.
Context {T : FsTypes} {H F : Type} `{!VfsTables T} `{LC : !LruCache} `{!FileTables T} `{!Wiggle}
  `{!Hashing}.

(** C23: whatever a guest calls, closing and renumbering as it will, its table
    holds no more than its limit (or than it started with), every number below
    the highest ever given out is open or will be given again, and an open
    answers the lowest number that is closed, placing its file there and
    touching no other descriptor. *)
Theorem opens_take_the_lowest_number stdin stdout stderr mounts lim opener p w w0
    (s s1 : Session H F) l :
  3 + len mounts <= 2 ^ 32 ->
  descriptors_new stdin stdout stderr mounts lim opener p w = Some (Ok (s_table s), w0) ->
  runs s l s1 ->
  numbered (s_table s1) /\ within_limit (3 + len mounts) (s_table s1)
  /\ forall fd path how m fuel new s2,
       guest_call (PathOpenAt fd path how) (between m fuel s1) = Some (Ok (RNumber new), s2) ->
       get new (s_table s1) = None
       /\ (forall k, 0 <= k < new -> is_Some (get k (s_table s1)))
       /\ is_Some (get new (s_table s2))
       /\ (forall k, k <> new -> get k (s_table s2) = get k (s_table s1)).
Proof.
  intros Hn Hnew Hr. apply new_orderly in Hnew; [|done].
  assert (Hs1 := runs_orderly _ _ _ _ (Hnew : orderly _ (s_table s) (s_world s)) Hr).
  destruct Hs1 as [Hnum Hlim]. split_and!; [done..|]. intros fd path how m fuel new s2 E.
  assert (Hd : does (orderly (3 + len mounts)) anyway (fun t1 _ => t1 = s_table s1)
    (guest_call (H := H) (F := F) (PathOpenAt fd path how))
    (fun r t1 _ => forall n, r = RNumber n -> lowest_unused (s_table s1) = Some n
       /\ exists f, t1 = place n (for_file f) (s_table s1))).
  { apply does_answer; [apply _|]. simpl. unfold number_reply.
    eapply does_bind; [apply _ | apply orders_path_open | intros n].
    apply does_ret; [apply _|]. by intros t1 w1 _ ? n' [= <-]. }
  destruct (Hd _ _ _ (conj Hnum Hlim : orderly _ (s_table (between m fuel s1)) (s_world s1))
    eq_refl E) as (_ & _ & Hq).
  destruct (Hq _ eq_refl _ eq_refl) as (Hl & f & Ht).
  destruct (lowest_unused_spec _ _ Hnum Hl) as (Hc & _ & Hb & _).
  rewrite Ht. unfold get, place in *. simpl. split_and!; [done..| |].
  - rewrite lookup_insert_eq. eauto.
  - intros k Hk. by rewrite lookup_insert_ne.
Qed.
End Numbers.
End Numbers.
