(* ===== verification/FileFacts.v ===== *)
(** What a call through an open file leaves of the world, and what a walk does
    that starts nowhere.

    [KeepsFiles] is what a Filesystem's open files promise, as [Keeps] is of its
    other operations.

    A Tmpfs's open files meet what a guest's calls ask of one ([KeepsFiles]):
    reading, writing and listing move no dentry and hand its operations nothing
    to judge. *)
From stdpp Require Import gmap.
From S2P Require Import Prelude Text Catalog Runtime Locking VfsTypes World Dcache Cred OpenFile Namei Security VfsFacts NameiFacts VfsLogic Mediation Witx Descriptors Session FdCalls FdDir PathCalls.
Local Open Scope vfs_scope.

Class KeepsFiles {T : FsTypes} (R : world -> world -> Prop) (V : FileTables T) := {
  keeps_llseek f d p o s : framed R (fo_llseek f d p o s);
  keeps_read_iter f i b : framed R (fo_read_iter f i b);
  keeps_write_iter f i b : framed R (fo_write_iter f i b);
  keeps_iterate f d c : framed R (fo_iterate_shared f d c);
  keeps_fallocate f o n : framed R (fo_fallocate f o n);
  keeps_fsync f b : framed R (fo_fsync f b);
  keeps_flush f : framed R (fo_flush f);
}.
#[export] Hint Resolve keeps_llseek keeps_read_iter keeps_write_iter keeps_iterate
  keeps_fallocate keeps_fsync keeps_flush : vfs.

(** ** Calls through an open file *)
Section Files.
Context {T : FsTypes} `{!VfsTables T} `{LC : !LruCache} `{!FileTables T} `{!Lawful _}
  `{!KeepsFiles quietly _}.
Implicit Types f : File.

Lemma quiet_file_kind f : quiet (file_kind f).
Proof. unfold file_kind. frames. Qed.
#[local] Hint Resolve quiet_file_kind : vfs.
Lemma quiet_is_directory f : quiet (is_directory f).
Proof. unfold is_directory. frames. Qed.
Lemma quiet_llseek f o s : quiet (llseek f o s).
Proof. unfold llseek. frames. Qed.
Lemma quiet_fadvise f o n : quiet (fadvise f o n).
Proof. unfold fadvise. frames. Qed.
Lemma quiet_may_read f : quiet (may_read f).
Proof. unfold may_read. frames. Qed.
Lemma quiet_may_write f : quiet (may_write f).
Proof. unfold may_write. frames. Qed.
Lemma quiet_may_at f p m : quiet (may_at f p m).
Proof. unfold may_at. frames. Qed.
#[local] Hint Resolve quiet_may_read quiet_may_write quiet_may_at : vfs.
Lemma quiet_may_pread f p : quiet (may_pread f p).
Proof. unfold may_pread. frames. Qed.
Lemma quiet_may_pwrite f p : quiet (may_pwrite f p).
Proof. unfold may_pwrite. frames. Qed.
Lemma quiet_fallocate f o n : quiet (fallocate f o n).
Proof. unfold fallocate. frames. Qed.
Lemma quiet_rw_verify p n : quiet (rw_verify_area p n).
Proof. unfold rw_verify_area. frames. Qed.
#[local] Hint Resolve quiet_may_pread quiet_may_pwrite quiet_rw_verify : vfs.
Lemma quiet_read f b : quiet (read f b).
Proof. unfold read. frames. Qed.
Lemma quiet_pread f b p : quiet (pread f b p).
Proof. unfold pread. frames. Qed.
Lemma quiet_write f b : quiet (write f b).
Proof. unfold write. frames. Qed.
Lemma quiet_pwrite f b p : quiet (pwrite f b p).
Proof. unfold pwrite. frames. Qed.
Lemma quiet_fsync f b : quiet (fsync f b).
Proof. unfold fsync. auto with vfs. Qed.
Lemma quiet_file_getattr f : quiet (file_getattr f).
Proof. unfold file_getattr. auto with vfs. Qed.
Lemma quiet_iterate_dir f c : quiet (iterate_dir f c).
Proof. unfold iterate_dir. frames. Qed.
#[local] Hint Resolve quiet_iterate_dir : vfs.
Lemma quiet_iterate f c : quiet (iterate f c).
Proof. unfold iterate. frames. Qed.
Lemma quiet_close f : quiet (close f).
Proof. unfold close. auto with vfs. Qed.
Lemma quiet_poll f : quiet (poll f).
Proof. unfold poll. auto with vfs. Qed.

Lemma quiet_revalidate_pairs s l : quiet (revalidate_pairs s l).
Proof. induction l as [|[d above] l IH]; simpl; frames. Qed.
#[local] Hint Resolve quiet_revalidate_pairs : vfs.
Lemma quiet_walk_guard_check g p : quiet (walk_guard_check g p).
Proof. unfold walk_guard_check, revalidate_path, unlinked. frames. Qed.
End Files.
#[export] Hint Resolve quiet_file_kind quiet_is_directory quiet_llseek quiet_fadvise quiet_may_read
  quiet_may_write quiet_may_pread quiet_may_pwrite quiet_fallocate quiet_read quiet_pread
  quiet_write quiet_pwrite quiet_fsync quiet_file_getattr quiet_iterate quiet_close quiet_poll
  quiet_walk_guard_check : vfs.

(** ** A file moved only in its position and its flags *)
Section Similar.
Context {T : FsTypes} `{!VfsTables T} `{LC : !LruCache} `{!FileTables T}.
Implicit Types f : File.

Definition similar f f' : Prop :=
  f_path f' = f_path f /\ f_inode f' = f_inode f /\ f_mode f' = f_mode f.

Lemma returns_llseek f o s : returns (fun x => similar f x.2) (llseek f o s).
Proof.
  unfold llseek. case_match; [apply returns_fail|].
  eapply returns_bind; [apply returns_any | intros pos _]. by apply returns_ret.
Qed.
Lemma returns_read f b : returns (fun x => similar f x.2) (read f b).
Proof.
  unfold read. do 2 (eapply returns_bind; [apply returns_any | intros ? _]).
  eapply returns_bind; [apply returns_any | intros [[iocb n] filled] _].
  apply returns_ret. simpl. by destruct (file_ppos f).
Qed.
Lemma returns_write f b : returns (fun x => similar f x.2) (write f b).
Proof.
  unfold write. do 2 (eapply returns_bind; [apply returns_any | intros ? _]).
  eapply returns_bind; [apply returns_any | intros [iocb n] _].
  apply returns_ret. simpl. by case_match.
Qed.
Lemma returns_iterate f c : returns (fun x => similar f x.2) (iterate f c).
Proof.
  unfold iterate. eapply returns_bind.
  - apply returns_attempt with (F := fun x => similar f x.2). unfold iterate_dir.
    eapply returns_bind; [apply returns_any | intros held _]. apply returns_holding.
    eapply returns_bind; [apply returns_any | intros [|] _]; [apply returns_fail|].
    eapply returns_bind; [apply returns_any | intros [r c'] _]. by apply returns_ret.
  - intros [[[r c'] f']|e] Hr; apply returns_ret; simpl; [by apply (Hr _ eq_refl) | done].
Qed.
End Similar.

(** ** A truncate hands its Filesystem one change *)
Section Truncate.
Context {T : FsTypes} `{!VfsTables T} `{LC : !LruCache} `{!FileTables T} `{!Lawful _}.

(** A change of the entry [d] stands for, at the path it stood at. *)
Definition restats d w (e : Event) : Prop :=
  exists p, e = ESetattr p /\ forall q, path_raw d w = Some q -> p = Some q.

(** No dentry moved, and only [d]'s entry was handed over. *)
Definition restating d w w' : Prop :=
  kept w w' /\ (fresh_ok w -> keeps same_place (w_dentries w) (w_dentries w')
    /\ exists new, w_trace w' = new ++ w_trace w /\ Forall (restats d w) new).

Lemma restats_earlier d w w' e :
  keeps same_place (w_dentries w) (w_dentries w') -> restats d w' e -> restats d w e.
Proof. intros Hk (p & -> & Hp). exists p. split; [done|]. intros q Hq. by apply Hp, (path_raw_kept w). Qed.

#[export] Instance restating_pre d : PreOrder (restating d).
Proof.
  split.
  - intros w. split; [done|]. intros _. split; [apply keeps_refl; intros; reflexivity | by exists []].
  - intros w1 w2 w3 [K1 H1] [K2 H2]. split; [by transitivity w2|]. intros Hf.
    destruct (H1 Hf) as (P1 & n1 & E1 & F1), (H2 (proj1 (K1 Hf))) as (P2 & n2 & E2 & F2).
    split; [eapply keeps_trans; [intros x y z; apply transitivity | exact P1 | exact P2]|].
    exists (n2 ++ n1). rewrite E2, E1, app_assoc. split; [done|]. apply Forall_app. split; [|done].
    eapply list.Forall_impl; [exact F2|]. intros e. by apply restats_earlier.
Qed.

Lemma restating_quiet {A} d (m : M A) : quiet m -> framed (restating d) m.
Proof.
  apply framed_weaken. intros w w' [[Hk Ht] Hp]. split; [done|]. intros Hf.
  split; [auto|]. by exists []; rewrite Ht.
Qed.

Lemma restating_notify_change d a : framed (restating d) (notify_change d a).
Proof.
  unfold notify_change.
  apply framed_bind; [apply _ | apply restating_quiet; auto with vfs | intros [i|]].
  2: by intros w r w' ?.
  apply framed_bind; [apply _ | apply restating_quiet; auto with vfs | intros t].
  apply framed_bind; [apply _ | apply restating_quiet; auto with vfs | intros x].
  apply framed_bind; [apply _ | | intros []; apply restating_quiet; auto with vfs].
  intros w r w' [= <- <-]. split; [exact (reflexivity (R := kept) w)|]. intros _.
  split; [simpl; apply keeps_refl; intros; reflexivity|].
  exists [ESetattr (path_raw d w)]. repeat constructor. by exists (path_raw d w).
Qed.

Lemma restating_truncate f n : framed (restating (p_dentry (f_path f))) (truncate f n).
Proof.
  unfold truncate.
  apply framed_bind; [apply _ | apply restating_quiet; auto with vfs | intros k].
  case_match; [apply restating_quiet; auto with vfs|].
  apply framed_bind; [apply _ | apply restating_quiet; unfold security_file_truncate; auto with vfs | intros []].
  apply framed_bind; [apply _ | apply restating_quiet; auto with vfs | intros held].
  apply framed_holding; [apply _ | apply restating_quiet; auto with vfs | apply restating_notify_change].
Qed.

(** A truncate that hands anything is of a regular file opened to write. *)
Lemma truncate_open f n w r w' :
  truncate f n w = Some (r, w') ->
  w' = w \/ (exists x, w_inodes w !! f_inode f = Some x /\ i_kind x = RegFile)
            /\ FMode.contains (f_mode f) FMode.WRITE = true.
Proof.
  unfold truncate, file_kind, inode_at, asks, bind, fail. intros E.
  destruct (w_inodes w !! f_inode f) as [x|] eqn:Ex; simpl in E; [|done].
  destruct (bool_decide (i_kind x = RegFile)) eqn:Ek; simpl in E; [|left; by simplify_eq].
  apply bool_decide_eq_true in Ek. unfold writable in E.
  destruct (FMode.contains (f_mode f) FMode.WRITE) eqn:Ew; [eauto|]. left. by simplify_eq/=.
Qed.
End Truncate.

(** ** Calls made again *)
Section Again.
Context {T : FsTypes}.
Context (I : world -> Prop) (R : world -> world -> Prop).

Lemma only_again {A} (m : M A) Q :
  only I R (fun _ => True) m Q -> only I R (fun _ => True) (retry_eagain m) Q.
Proof.
  unfold retry_eagain. generalize (Nat.pred MAX_ATTEMPTS) as n. intros n Hm.
  induction n as [|n IH]; simpl; [done|]. intros w r w' Hi _ E.
  destruct (m w) as [[x w1]|] eqn:Em; [|done].
  destruct (Hm _ _ _ Hi Logic.I Em) as (Hi1 & R1 & Hq).
  assert (Hdone : Some (x, w1) = Some (r, w') ->
    I w' /\ rtc R w w' /\ (forall a, r = Ok a -> Q a w')) by (intros [= <- <-]; done).
  destruct x as [a|[]]; try by apply Hdone.
  destruct (IH _ _ _ Hi1 Logic.I E) as (Hi2 & R2 & Hq2).
  split_and!; [done | by etransitivity | done].
Qed.

Lemma framed_again {A} (m : M A) : PreOrder R -> framed R m -> framed R (retry_eagain m).
Proof.
  unfold retry_eagain. generalize (Nat.pred MAX_ATTEMPTS) as n. intros n HR Hm.
  induction n as [|n IH]; simpl; [done|]. intros w r w' E.
  destruct (m w) as [[x w1]|] eqn:Em; [|done]. specialize (Hm _ _ _ Em) as H1.
  destruct x as [a|[]]; simplify_eq; try done. transitivity w1; [done | by eapply IH].
Qed.

Lemma returns_again {A} (F : A -> Prop) (m : M A) : returns F m -> returns F (retry_eagain m).
Proof.
  unfold retry_eagain. generalize (Nat.pred MAX_ATTEMPTS) as n. intros n Hm.
  induction n as [|n IH]; simpl; [done|]. intros w a w' E.
  destruct (m w) as [[[b|[]] w1]|] eqn:Em; simplify_eq; eauto.
Qed.
End Again.

(** ** Calls that start nowhere *)
Section Nowhere.
Context {T : FsTypes} `{!VfsTables T} `{LC : !LruCache} `{!FileTables T} `{!Lawful _}.

Definition never {A} (_ : A) : Prop := False.

(** A start that is not found. *)
Definition nowhere (start : Start) : Prop := silent start /\ returns never start.

Lemma nowhere_fail e : nowhere (fail e).
Proof. split; [apply silent_of_quiet; auto with vfs | apply returns_fail]. Qed.

Lemma returns_reval {A} (F : A -> Prop) (m : M A) : returns F m -> returns F (walk_with_reval m).
Proof.
  intros Hm w a w' E. unfold walk_with_reval, attempt, bind, lift in E.
  destruct (m w) as [[[b|[]] w1]|] eqn:Em; simplify_eq; eauto.
Qed.

Lemma never_bind {A B} (m : M A) (k : A -> M B) : returns never m -> returns never (bind m k).
Proof. intros Hm. eapply returns_bind; [exact Hm | by intros a []]. Qed.

Lemma never_after {A B} (m : M A) (k : A -> M B) :
  (forall a, returns never (k a)) -> returns never (bind m k).
Proof. intros Hk. eapply returns_bind; [apply returns_any | auto]. Qed.

Lemma silent_never {A B} (m : M A) (k : A -> M B) :
  silent m -> returns never m -> silent (bind m k).
Proof.
  intros Hs Hn w r w' E. unfold bind in E. destruct (m w) as [[[a|e] w1]|] eqn:Em; simplify_eq.
  - destruct (Hn _ _ _ Em).
  - by eapply Hs.
Qed.

Lemma silent_retry {W A} (walk : M W) (act : W -> M A) :
  silent walk -> returns never walk -> silent (retry_estale walk act).
Proof. apply silent_never. Qed.

Lemma never_set_nameidata cred start p : nowhere start -> returns never (set_nameidata cred start p).
Proof.
  intros [_ Hn]. unfold set_nameidata. apply never_after. intros _.
  case_match; [apply returns_fail | by apply never_bind].
Qed.

Lemma never_parentat cred start p : nowhere start -> returns never (filename_parentat cred start p).
Proof.
  intros Hs. unfold filename_parentat, counting_links. apply never_after. intros _.
  by apply returns_reval, never_bind, never_set_nameidata.
Qed.

Lemma never_lookup cred start p follow :
  nowhere start -> returns never (filename_lookup cred start p follow).
Proof.
  intros Hs. unfold filename_lookup, counting_links. apply never_after. intros _.
  by apply returns_reval, never_bind, never_set_nameidata.
Qed.

Lemma silent_nowhere_open cred start p op : nowhere start -> silent (do_file_open cred start p op).
Proof.
  intros Hs. unfold do_file_open. apply silent_counting_links, silent_walk_with_reval.
  apply silent_never; [destruct Hs; auto with vfs | by apply never_set_nameidata].
Qed.

(** How a call that starts nowhere is taken apart: its walk never answers. *)
Ltac nowhere_call :=
  intros Hs; apply silent_retry;
  [ pose proof (proj1 Hs); frames
  | repeat first [ by apply never_parentat | by apply never_lookup
                 | apply never_bind; first [by apply never_parentat | by apply never_lookup]
                 | apply never_after; intros ? ] ].

Lemma silent_nowhere_mkdir cred start p : nowhere start -> silent (filename_mkdirat cred start p).
Proof. nowhere_call. Qed.
Lemma silent_nowhere_rmdir cred start p : nowhere start -> silent (filename_rmdir cred start p).
Proof. nowhere_call. Qed.
Lemma silent_nowhere_unlink cred start p : nowhere start -> silent (filename_unlinkat cred start p).
Proof. nowhere_call. Qed.
Lemma silent_nowhere_utimes cred start p follow times :
  nowhere start -> silent (do_utimes_path cred start p follow times).
Proof. nowhere_call. Qed.
Lemma silent_nowhere_symlink cred target start p :
  nowhere start -> silent (filename_symlinkat cred target start p).
Proof.
  intros Hs. unfold filename_symlinkat. apply framed_bind; [apply _ | auto with vfs | intros _].
  revert Hs. nowhere_call.
Qed.
Lemma silent_nowhere_rename cred start p to q :
  nowhere start -> silent to -> silent (filename_renameat2 cred start p to q).
Proof. intros Hs Ht. revert Hs. nowhere_call. Qed.
Lemma silent_nowhere_link cred old p start q follow :
  nowhere start -> silent old -> silent (filename_linkat cred old p start q follow).
Proof. intros Hs Ho. revert Hs. nowhere_call. Qed.

(** What only reads hands nothing wherever it starts. *)
Lemma silent_vfs_fstatat cred start p follow : silent start -> silent (vfs_fstatat cred start p follow).
Proof.
  intros Hs. unfold vfs_fstatat, retry_estale, nd_getattr. frames.
Qed.
Lemma silent_do_readlinkat cred start p : silent start -> silent (do_readlinkat cred start p).
Proof.
  intros Hs. unfold do_readlinkat, retry_estale, security_inode_readlink. frames.
Qed.
End Nowhere.

From S2P Require Import Tmpfs TmpfsFacts.

Section Hosted.
Context (R : world -> world -> Prop) `{!Hosted R, !Frame R}.

#[local] Hint Extern 1 (framed _ _) => solve [first
  [ apply (in_dentry_at R) | apply (in_inode_at R) | apply (in_now R) | apply (in_name R)
  | apply (in_inode R) | apply (in_tree_at R) | apply (in_dir_at R) | apply (in_file_at R) | apply (in_state_of R)
  | apply (in_content_getattr R) | apply (in_dir_getattr R) | apply (in_getattr R)
  | apply (of_resize R) | apply (of_on_store R) ]] : vfs.

Lemma in_identity d : framed R (identity_at d).
Proof. unfold identity_at. frames. Qed.
Lemma in_getattr_at d : framed R (getattr d).
Proof. unfold getattr, inode_ops, named_inode. frames. Qed.
#[local] Hint Resolve in_identity in_getattr_at : vfs.

Lemma in_generic_llseek d p o s : framed R (generic_file_llseek d p o s).
Proof. unfold generic_file_llseek. frames. Qed.
Lemma in_read_iter f i b : framed R (file_read_iter f i b).
Proof. unfold file_read_iter. frames. Qed.
Lemma in_write_iter f i b : framed R (file_write_iter f i b).
Proof. unfold file_write_iter, file_write, generic_write_sync, tmpfs_fsync. frames. Qed.
Lemma in_emit_dots d c : framed R (dir_emit_dots d c).
Proof. unfold dir_emit_dots. frames. Qed.
#[local] Hint Resolve in_emit_dots : vfs.
Lemma in_turns n dir dev c : framed R (readdir_turns n dir dev c).
Proof.
  revert c. induction n as [|n IH]; intros c; simpl; [by intros w r w' ?|].
  unfold node_dir_entry. frames.
Qed.
#[local] Hint Resolve in_turns : vfs.
Lemma in_iterate dir dev d c : framed R (dir_iterate_shared dir dev d c).
Proof. unfold dir_iterate_shared. frames. Qed.
Lemma in_fallocate f o n : framed R (file_fallocate f o n).
Proof. unfold file_fallocate. frames. Qed.
#[local] Hint Resolve in_generic_llseek in_read_iter in_write_iter in_iterate in_fallocate : vfs.

#[export] Instance tmpfs_keeps_files : KeepsFiles R tmpfs_files.
Proof.
  split; intros; simpl; try destruct f; simpl;
    unfold default_llseek, default_read_iter, default_write_iter, default_iterate_shared,
      default_fallocate, default_fsync, default_flush, tmpfs_fsync; frames.
Qed.
End Hosted.
