(* ===== verification/GuestPolicy.v ===== *)
(** What stands between a guest's calls and its Mounts' Filesystems: every
    descriptor stands on a mount the invocation was given, an open one writes
    only where its open was granted it, and so each call hands a Filesystem only
    what the mount and its Policies admit. *)
From stdpp Require Import gmap.
From S2P Require Import Prelude Text Catalog Messages Runtime Endpoint Locking VfsTypes World Dcache Cred OpenFile Namei Security VfsFacts NameiFacts VfsLogic Mediation Witx Descriptors Session FdCalls FdDir PathCalls Preview1 CallLogic FileFacts.
Local Open Scope vfs_scope.
Local Open Scope call_scope.

Section Policy.
Context {T : FsTypes} {H F : Type} `{!VfsTables T} `{LC : !LruCache} `{!FileTables T} `{!Wiggle}
  `{!Hashing} `{!Lawful _} `{!KeepsFiles quietly _}.
Implicit Types (t : Descriptors) (w : world) (f : File).

(** The mounts descriptors may stand on, whether each is read-only, who the
    guest's calls are made for, and what was on record before the first. *)
Context (reachable : list VfsMount) (ro : VfsMount -> bool) (cred : Cred) (base : list Event).
Context (kobako_first : In kobako_security (security cred)).
Context (told_apart : forall a b, In a reachable -> In b reachable -> same_mount a b = true -> b = a).

Abbreviation writable_on mnt := (negb (ro mnt)).

(** What a call through a mount may hand its Filesystem. *)
Abbreviation admits mnt := (admitted mnt (writable_on mnt) cred).

(** A resize of the very file a number stands for, whose open to write its mount
    and Policies granted. *)
Definition resizable w f (e : Event) : Prop :=
  restats (p_dentry (f_path f)) w e /\ ro (p_mnt (f_path f)) = false
  /\ licence (p_mnt (f_path f)) (writable_on (p_mnt (f_path f))) cred base (p_dentry (f_path f)) w.

Definition file_stands w f : Prop :=
  In (p_mnt (f_path f)) reachable
  /\ (licensed (p_mnt (f_path f)) (writable_on (p_mnt (f_path f))) cred base
         (p_dentry (f_path f)) (f_mode f) w
      \/ exists x, w_inodes w !! f_inode f = Some x /\ i_kind x <> RegFile).

Definition standing t w : Prop :=
  fresh_ok w /\ since base w /\ table_cred t = cred
  /\ (forall mnt, In mnt reachable -> is_readonly mnt w = Some (Ok (ro mnt)))
  /\ (forall fd d, get fd t = Some d -> file_stands w (descr_file d)).

Lemma standing_mount t w mnt : standing t w -> In mnt reachable -> stands mnt (writable_on mnt) base w.
Proof.
  intros (Hf & Hs & _ & Hr & _) Hm. split_and!; [done | | done].
  rewrite negb_involutive. by apply Hr.
Qed.

Lemma file_stands_kept w w' f :
  fresh_ok w -> kept w w' -> recorded w w' -> file_stands w f -> file_stands w' f.
Proof.
  intros Hf Hk Hrec [Hm Hl]. split; [done|].
  destruct Hl as [Hl|(x & Hx & Hr)]; [left; by eapply licensed_recorded|]. right.
  destruct (Hk Hf) as (_ & Hi & _). destruct (Hi _ x Hx) as (x' & Hx' & Ek & _).
  exists x'. by rewrite Ek.
Qed.

Lemma standing_kept t w w' : kept w w' -> recorded w w' -> standing t w -> standing t w'.
Proof.
  intros Hk Hrec (Hf & Hs & Hc & Hr & Hd). split_and!; [by apply (Hk Hf) | | done | |].
  - by eapply since_recorded.
  - intros mnt Hm. eapply readonly_kept; eauto.
  - intros fd d Hg. eapply file_stands_kept; eauto.
Qed.

Lemma standing_handed J t w w' : handed J w w' -> standing t w -> standing t w'.
Proof. intros Hh. apply standing_kept; [apply Hh | by eapply handed_recorded]. Qed.

(** ** The logic of a call: what it hands is within [J] *)
Section Call.
Context (J : Event -> Prop).

Definition hands_within (p p' : Descriptors * world) : Prop := handed J p.2 p'.2.

#[export] Instance hands_within_pre : PreOrder hands_within.
Proof.
  split; unfold hands_within; [intros p; reflexivity|].
  intros p1 p2 p3. apply transitivity.
Qed.

Abbreviation judges := (does (H := H) (F := F) standing hands_within).
Definition judged_call {A} (c : C (H := H) (F := F) A) : Prop := judges (fun _ _ => True) c anything.

Lemma within_silently t w t' w' : silently w w' -> hands_within (t, w) (t', w').
Proof. intros [Hk Ht]. split; [done|]. exists []. split; [exact Ht | constructor]. Qed.

(** The table is as it was, and the answer is known. *)
Lemma judges_silent {A} (P : Descriptors -> Prop) (G : A -> Prop) (m : M A) :
  silent m -> returns G m -> judges (fun t _ => P t) (vfs m) (fun a t _ => P t /\ G a).
Proof.
  intros Hm HG. apply does_vfs. intros t w r w' Hi Hp E. assert (Hs := Hm _ _ _ E).
  split_and!; [| by apply within_silently |].
  { by apply (standing_handed J _ _ _ (within_silently t w t w' Hs)). }
  intros a ->. split; [done | by eapply HG].
Qed.

Lemma judged_silent {A} (m : M A) : silent m -> judged_call (vfs m).
Proof.
  intros Hm. eapply does_anything, (judges_silent (fun _ => True) (fun _ => True)); [done|].
  apply returns_any.
Qed.
Lemma judged_quiet {A} (m : M A) : quiet m -> judged_call (vfs m).
Proof. intros Hm. by apply judged_silent, silent_of_quiet. Qed.

(** A call made on a mount a descriptor stands on. *)
Lemma judges_hands {A} mnt t0 (m : M A) Q :
  In mnt reachable -> (forall e, admits mnt e -> J e) ->
  only (stands mnt (writable_on mnt) base) (handed (admits mnt)) (fun _ => True) m Q ->
  judges (fun t _ => t = t0) (vfs m) (fun a t w => t = t0 /\ Q a w).
Proof.
  intros Hm HJ Ho. apply does_vfs. intros t w r w' Hi -> E.
  assert (Hs : stands mnt (writable_on mnt) base w) by (by eapply standing_mount).
  destruct (only_end _ _ _ _ _ _ _ _ (handed_pre _) Ho Hs Logic.I E) as (_ & Hh & Hq).
  split_and!; [by eapply standing_handed | | by intros a ->; split; [|apply Hq]].
  destruct Hh as (Hk & new & Et & Hnew). split; [done|]. exists new. split; [done|].
  eapply list.Forall_impl; [exact Hnew|]. intros e. apply HJ.
Qed.

Lemma judged_aside {A} (c : C (H := H) (F := F) A) : aside c -> judged_call c.
Proof. intros Hc. by eapply does_anything, does_aside; [apply _|]. Qed.
Lemma judged_bind {A B} (c : C (H := H) (F := F) A) (k : A -> C B) :
  judged_call c -> (forall a, judged_call (k a)) -> judged_call (cbind c k).
Proof.
  intros Hc Hk. eapply does_bind; [apply _ | exact Hc | intros a].
  eapply does_pre; [|apply Hk]. done.
Qed.
Lemma judged_try {A} (c : C (H := H) (F := F) A) : judged_call c -> judged_call (ctry c).
Proof. intros Hc. by eapply does_anything, does_try. Qed.

(** *** Open files *)

(** The number still stands for a file of which this one is another moment. *)
Definition holds (fd : Z) (f : File) t : Prop :=
  exists d, get fd t = Some d /\ similar (descr_file d) f.

Lemma holds_similar fd f f' t : holds fd f t -> similar f f' -> holds fd f' t.
Proof. intros (d & Hg & ? & ? & ?) (? & ? & ?). exists d. split; [done|]. split_and!; congruence. Qed.

Lemma judges_file P fd :
  judges P (file fd) (fun f t w => P t w /\ exists d, get fd t = Some d /\ descr_file d = f).
Proof.
  unfold file. apply does_table. intros t0. unfold file_of.
  destruct (get fd t0) as [d|] eqn:Ed; [|apply does_errno; apply _]. simpl.
  destruct (is_path _); [apply does_errno; apply _|]. apply does_ret; [apply _|].
  intros t w _ [-> Hp]. eauto.
Qed.

Lemma judges_file_holds fd :
  judges (fun _ _ => True) (file fd) (fun f t _ => holds fd f t).
Proof.
  eapply does_post; [apply judges_file|]. intros f t w _ [_ (d & Hg & <-)]. by exists d.
Qed.

Lemma judges_put_file fd f : judges (fun t _ => holds fd f t) (put_file fd f) anything.
Proof.
  apply (does_put_table _ _ _ (update_file fd f)).
  intros t w (Hf & Hb & Hc & Hr & Hd) (d & Hg & Hs). split_and!; [|unfold hands_within; reflexivity | done].
  split_and!; [done..|]. intros fd' d' Hg'. unfold get, update_file in *. simpl in Hg'.
  destruct (decide (fd' = fd)) as [->|Hne].
  - rewrite lookup_alter_eq, Hg in Hg'. injection Hg' as <-. simpl.
    destruct (Hd fd d Hg) as [Hm Hl]. destruct Hs as (Ep & Ei & Em).
    unfold file_stands. by rewrite Ep, Ei, Em.
  - rewrite lookup_alter_ne in Hg' by done. by apply (Hd fd').
Qed.

(** *** Where a call starts *)

Definition all_reachable t : Prop :=
  forall fd d, get fd t = Some d -> In (p_mnt (f_path (descr_file d))) reachable.

Lemma judges_reachable {A} t0 (c : C (H := H) (F := F) A) Q :
  (all_reachable t0 -> judges (fun t _ => t = t0) c Q) -> judges (fun t _ => t = t0) c Q.
Proof.
  intros Hc. eapply does_pre; [|apply (does_pure _ _ (all_reachable t0)); exact Hc].
  intros t w (_ & _ & _ & _ & Hd) ->. split; [|done]. intros fd d Hg. by apply (Hd fd d).
Qed.

Lemma silent_start_of t fd : silent (start_of t fd).
Proof.
  apply silent_of_quiet. unfold start_of. destruct (get fd t) as [d|]; [|auto with vfs]. frames.
Qed.

Lemma start_of_on t fd d :
  get fd t = Some d -> starts (p_mnt (f_path (descr_file d))) (start_of t fd).
Proof.
  intros Hg. split; [apply silent_start_of|]. unfold start_of. rewrite Hg.
  do 2 (eapply returns_bind; [apply returns_any | intros ? _]). by apply returns_ret.
Qed.

Lemma start_of_nowhere t fd : get fd t = None -> nowhere (start_of t fd).
Proof. intros Hg. unfold start_of. rewrite Hg. apply nowhere_fail. Qed.

Lemma start_of_beside mnt t fd :
  all_reachable t -> In mnt reachable -> starts_beside mnt (start_of t fd).
Proof.
  intros Ht Hm. split; [apply silent_start_of|]. destruct (get fd t) as [d|] eqn:Hg.
  - intros w p w' E Hs. rewrite (proj2 (start_of_on t fd d Hg) _ _ _ E) in Hs |- *.
    apply told_apart; [done | by eapply Ht | done].
  - intros w a w' E. destruct (proj2 (start_of_nowhere t fd Hg) _ _ _ E).
Qed.

(** A call by path from a number, on the mount it stands for. *)
Lemma judges_path {A} t0 fd (m : Start -> M A) (Q : VfsMount -> A -> world -> Prop) start :
  (forall d, get fd t0 = Some d -> starts (p_mnt (f_path (descr_file d))) start) ->
  (get fd t0 = None -> nowhere start) ->
  (forall d e, get fd t0 = Some d -> admits (p_mnt (f_path (descr_file d))) e -> J e) ->
  (forall mnt, In mnt reachable -> starts mnt start ->
    only (stands mnt (writable_on mnt) base) (handed (admits mnt))
      (fun _ => True) (m start) (Q mnt)) ->
  (nowhere start -> silent (m start) /\ returns never (m start)) ->
  judges (fun t _ => t = t0) (vfs (retry_eagain (m start)))
    (fun a t w => t = t0 /\ exists mnt, In mnt reachable /\ Q mnt a w).
Proof.
  intros Hs Hn HJ Hm Hno. apply judges_reachable. intros Hr.
  destruct (get fd t0) as [d|] eqn:Hg.
  - eapply does_post; [eapply judges_hands with (mnt := p_mnt (f_path (descr_file d)))|].
    + by eapply Hr.
    + intros e. by apply HJ.
    + apply only_again, Hm; [by eapply Hr | by apply Hs].
    + intros a t w _ [-> Hq]. split; [done|]. eexists. split; [by eapply Hr | done].
  - destruct (Hno (Hn eq_refl)) as [Hsil Hnev].
    eapply does_post; [apply (judges_silent (fun t => t = t0) never)|].
    + apply framed_again; [apply _ | done].
    + by apply returns_again.
    + by intros a t w _ [_ []].
Qed.
End Call.
End Policy.
