(* ===== verification/PolicyCalls.v ===== *)
(** Each of preview1's calls against what the mounts of the numbers it names
    admit. *)
From stdpp Require Import gmap.
From S2P Require Import Prelude Text Catalog Messages Runtime Endpoint Locking VfsTypes World Dcache Cred OpenFile Namei Security VfsFacts NameiFacts VfsLogic Mediation Witx Descriptors Session FdCalls FdDir PathCalls Preview1 CallLogic FileFacts GuestPolicy.
Local Open Scope vfs_scope.
Local Open Scope call_scope.

(** The number whose mount a call may change something through. *)
Definition acts_on (c : Preview1Call) : option Z :=
  match c with
  | FdFilestatSetSize fd _ | FdFilestatSetTimes fd _ _ _ | PathCreateDirectory fd _
  | PathFilestatSetTimes fd _ _ _ _ _ | PathLink _ _ _ fd _ | PathOpenAt fd _ _
  | PathRemoveDirectory fd _ | PathRename fd _ _ _ | PathSymlink _ fd _ | PathUnlinkFile fd _ =>
    Some fd
  | _ => None
  end.

Section Calls.
Context {T : FsTypes} {H F : Type} `{!VfsTables T} `{LC : !LruCache} `{!FileTables T} `{!Wiggle}
  `{!Hashing} `{!Lawful _} `{!KeepsFiles quietly _}.
Implicit Types (t : Descriptors) (w : world) (f : File).
Context (reachable : list VfsMount) (ro : VfsMount -> bool) (cred : Cred) (base : list Event).
Context (kobako_first : In kobako_security (security cred)).
Context (told_apart : forall a b, In a reachable -> In b reachable -> same_mount a b = true -> b = a).
Context (J : Event -> Prop).

Abbreviation standing := (standing reachable ro cred base).
Abbreviation judges := (does (H := H) (F := F) standing (hands_within J)).
Abbreviation judged := (judged_call (H := H) (F := F) reachable ro cred base J).
Abbreviation admits mnt := (admitted mnt (negb (ro mnt)) cred).
Abbreviation resizable := (resizable ro cred base).

#[local] Hint Resolve judged_silent judged_quiet judged_try : calls.
#[local] Hint Extern 1 (judged _) => (apply judged_aside; solve [auto with calls]) : calls.

Ltac judges_calls :=
  intros; repeat first
    [ progress (intros; cbv zeta)
    | solve [auto with calls vfs]
    | apply judged_bind
    | match goal with
      | |- judged_call _ _ _ _ _ (match ?x with _ => _ end) => destruct x
      | |- judged_call _ _ _ _ _ (if ?x then _ else _) => destruct x
      end ].

(** ** Numbers a call only looks at *)

Lemma judged_file fd : judged (file fd).
Proof. unfold file. judges_calls. Qed.
Lemma judged_descriptor fd : judged (descriptor fd).
Proof. unfold descriptor. judges_calls. Qed.
#[local] Hint Resolve judged_file judged_descriptor : calls.

Lemma judged_subscriptions entries : judged (read_subscriptions entries).
Proof.
  induction entries as [|e entries IH]; simpl; [judges_calls|].
  unfold read_subscription, poll_descriptor, read_clock, monotonic_now, wall_now. judges_calls.
Qed.
Lemma judged_events events waited subs n : judged (write_events events waited subs n).
Proof. revert n. induction subs as [|sub subs IH]; intros n; simpl; judges_calls. Qed.
#[local] Hint Resolve judged_subscriptions judged_events : calls.

Lemma judged_poll subs events count : judged (poll_oneoff subs events count).
Proof. unfold poll_oneoff, wait. judges_calls. Qed.

(** ** Files a call moves in *)

Lemma judges_file_then {B} fd (k : File -> C (H := H) (F := F) B) Q :
  (forall f, judges (fun t _ => holds fd f t) (k f) Q) ->
  judges (fun _ _ => True) (cbind (file fd) k) Q.
Proof. intros Hk. eapply does_bind; [apply _ | by apply judges_file_holds | exact Hk]. Qed.

Lemma judges_silently {A B} fd f (m : M A) (k : A -> C (H := H) (F := F) B) Q :
  silent m -> (forall a, judges (fun t _ => holds fd f t) (k a) Q) ->
  judges (fun t _ => holds fd f t) (cbind (vfs m) k) Q.
Proof.
  intros Hm Hk. eapply does_bind; [apply _| |].
  - apply (judges_silent _ _ _ _ _ (fun t => holds fd f t) (fun _ => True)); [done | apply returns_any].
  - intros a. eapply does_pre; [|apply Hk]. by intros t w _ [Ht _].
Qed.

(** A call of the VFS that leaves another moment of the file. *)
Lemma judges_moving {A B} fd f (m : M A) (g : A -> File) (k : A -> C (H := H) (F := F) B) Q :
  silent m -> returns (fun a => similar f (g a)) m ->
  (forall a, judges (fun t _ => holds fd (g a) t) (k a) Q) ->
  judges (fun t _ => holds fd f t) (cbind (vfs m) k) Q.
Proof.
  intros Hm Hg Hk. eapply does_bind; [apply _| |].
  - by apply (judges_silent _ _ _ _ _ (fun t => holds fd f t)).
  - intros a. eapply does_pre; [|apply Hk]. intros t w _ [Ht Hs]. by eapply holds_similar.
Qed.

Lemma judges_puts {B} fd f (c : C (H := H) (F := F) B) :
  judged c -> judges (fun t _ => holds fd f t) (put_file fd f ;;& c) anything.
Proof.
  intros Hc. eapply does_bind; [apply _ | apply judges_put_file | intros []].
  eapply does_pre; [|exact Hc]. done.
Qed.

Lemma judges_of {A} P (c : C (H := H) (F := F) A) : judged c -> judges P c anything.
Proof. intros Hc. eapply does_pre; [|exact Hc]. done. Qed.

#[local] Hint Resolve silent_of_quiet returns_llseek returns_read returns_write returns_iterate : vfs.

Lemma judged_set_flags fd flags : judged (fdstat_set_flags fd flags).
Proof.
  unfold fdstat_set_flags. apply judges_file_then. intros f.
  eapply does_pre; [|by apply judges_put_file]. intros t w _ Hh.
  eapply holds_similar; [exact Hh | done].
Qed.

Lemma judged_read fd iovs : judged (fd_read fd iovs).
Proof.
  unfold fd_read. apply judged_bind; [judges_calls | intros buf]. apply judges_file_then. intros f.
  apply judges_silently; [auto with vfs | intros []].
  apply does_past; [apply _ | auto with calls | intros room].
  apply judges_moving with (g := fun x => x.2); [auto with vfs.. | intros [[n filled] f']].
  apply does_past; [apply _ | auto with calls | intros []].
  apply judges_puts. judges_calls.
Qed.

Lemma judged_write fd ciovs : judged (fd_write fd ciovs).
Proof.
  unfold fd_write. apply judged_bind; [judges_calls | intros buf]. apply judges_file_then. intros f.
  apply judges_silently; [auto with vfs | intros []].
  apply does_past; [apply _ | auto with calls | intros bs].
  apply judges_moving with (g := fun x => x.2); [auto with vfs.. | intros [n f']].
  apply judges_puts. judges_calls.
Qed.

Lemma judges_seekable_then {B} fd (k : File -> C (H := H) (F := F) B) Q :
  (forall f, judges (fun t _ => holds fd f t) (k f) Q) ->
  judges (fun _ _ => True) (cbind (seekable_file fd) k) Q.
Proof.
  intros Hk. eapply does_bind; [apply _| |exact Hk].
  unfold seekable_file. apply judges_file_then. intros f.
  apply judges_silently; [auto with vfs | intros []]; [apply does_errno; apply _|].
  by apply does_ret; [apply _|].
Qed.

Lemma judged_seek fd offset whence : judged (fd_seek fd offset whence).
Proof.
  unfold fd_seek. apply judges_seekable_then. intros f.
  apply judges_moving with (g := fun x => x.2); [auto with vfs.. | intros [pos f']].
  apply judges_puts. judges_calls.
Qed.
Lemma judged_tell fd : judged (fd_tell fd).
Proof.
  unfold fd_tell. apply judges_seekable_then. intros f.
  apply judges_moving with (g := fun x => x.2); [auto with vfs.. | intros [pos f']].
  apply judges_puts. judges_calls.
Qed.

Lemma judges_put_then {B} fd f P (c : C (H := H) (F := F) B) Q :
  (forall t, holds fd f t -> P (update_file fd f t)) ->
  judges (fun t _ => P t) c Q ->
  judges (fun t _ => holds fd f t) (put_file fd f ;;& c) Q.
Proof.
  intros HP Hc. eapply does_bind with (Q := fun _ t _ => P t); [apply _| |intros []; exact Hc].
  intros s r s' Hi Hp E.
  destruct (judges_put_file reachable ro cred base J fd f s r s' Hi Hp E) as (Hi' & HR & _).
  split_and!; [done..|]. intros [] _. unfold put_file, cput in E. injection E as _ <-. by apply HP.
Qed.

Lemma holds_put fd f t : holds fd f t -> holds fd f (update_file fd f t).
Proof.
  intros (d & Hg & _). exists (MkDescriptor f (preopen_path d)). split; [|by split_and!].
  unfold get, update_file in *. simpl. by rewrite lookup_alter_eq, Hg.
Qed.

Lemma judged_readdir fd start capacity cookie : judged (fd_readdir fd start capacity cookie).
Proof.
  unfold fd_readdir. apply judged_bind; [judges_calls | intros t]. cbv zeta.
  apply judges_file_then. intros f.
  eapply does_bind with (Q := fun f t _ => holds fd f t); [apply _| |intros dir].
  - case_match; [by apply does_ret; [apply _|]|].
    case_match; [apply does_err; apply _|].
    apply judges_moving with (g := fun x => x.2); [auto with vfs.. | intros [pos dir]].
    apply judges_put_then with (P := holds fd dir); [by apply holds_put|].
    by apply does_ret; [apply _|].
  - apply does_past; [apply _ | auto with calls | intros m].
    apply judges_moving with (g := fun x => x.2); [auto with vfs.. | intros [[r taken] dir']].
    apply judges_puts. case_match; judges_calls.
Qed.

(** ** Calls that change a file by its number *)

(** What the mount of a number admits is what the call may hand. *)
Definition names t fd : Prop :=
  forall d e, get fd t = Some d -> admits (p_mnt (f_path (descr_file d))) e -> J e.

Lemma judges_truncate t0 w0 fd f n :
  (forall d e, get fd t0 = Some d -> resizable w0 (descr_file d) e -> J e) ->
  judges (fun t w => (t = t0 /\ w = w0) /\ exists d, get fd t = Some d /\ descr_file d = f)
    (vfs (truncate f n)) anything.
Proof.
  intros HJ. apply does_vfs. intros t w r w' Hi [[-> ->] (d & Hg & <-)] E.
  destruct (restating_truncate (descr_file d) n w0 r w' E) as [Hk Hh].
  destruct Hi as (Hf & Hi). destruct (Hh Hf) as (_ & new & Et & Hnew).
  split_and!; [by apply (standing_kept _ _ _ _ _ _ _ Hk); [by exists new | split] | | done].
  split; [done|]. exists new. split; [done|]. destruct Hi as (_ & _ & _ & Hd).
  destruct (Hd fd d Hg) as [_ Hl].
  destruct (truncate_open _ _ _ _ _ E) as [->|[(x & Hx & Hr) Hw]].
  - assert (new = []) as -> by (apply (f_equal length) in Et; rewrite length_app in Et;
      destruct new; simpl in Et; [done | lia]). constructor.
  - destruct Hl as [Hl|(x' & Hx' & Hr')]; [|simplify_eq].
    assert (Hlic := Hl Hw). eapply list.Forall_impl; [exact Hnew|]. intros e He.
    apply (HJ d e Hg). split_and!; [done | | done].
    destruct Hlic as (p & k & m & tr & _ & _ & _ & Hwr & Ho).
    apply negb_true_iff, Hwr, Ho, kobako_first.
Qed.

Lemma judges_set_size t0 w0 fd n :
  (forall d e, get fd t0 = Some d -> resizable w0 (descr_file d) e -> J e) ->
  judges (fun t w => t = t0 /\ w = w0) (filestat_set_size fd n) anything.
Proof.
  intros HJ. unfold filestat_set_size. case_match; [apply does_errno; apply _|].
  eapply does_bind; [apply _ | apply (judges_file _ _ _ _ _ (fun t w => t = t0 /\ w = w0)) | intros f].
  by apply judges_truncate.
Qed.

(** A call that asks the table who it is made for. *)
Lemma judges_table {B} t0 (k : Descriptors -> C (H := H) (F := F) B) Q :
  (table_cred t0 = cred -> judges (fun t _ => t = t0) (k t0) Q) ->
  judges (fun t _ => t = t0) (cbind (cget s_table) k) Q.
Proof.
  intros Hk s r s' Hi Hp E. unfold cbind, cget in E. rewrite Hp in E.
  apply Hk; [|done..]. rewrite <- Hp. apply Hi.
Qed.

Lemma judges_utimes_fd t0 fd times :
  names t0 fd -> judges (fun t _ => t = t0) (fd_filestat_set_times fd times) anything.
Proof.
  intros HJ. apply judges_reachable. intros Hr. unfold fd_filestat_set_times.
  eapply does_bind with (Q := fun f t _ =>
    (exists d, get fd t0 = Some d /\ descr_file d = f) /\ t = t0); [apply _| |intros f].
  { eapply does_post; [apply judges_file|]. by intros f t w _ [-> ?]. }
  apply does_pure. intros (d & Hg & <-). apply judges_table. intros ->.
  eapply does_anything, judges_hands with (Q := whatever).
  - by eapply Hr.
  - intros e. by apply (HJ d).
  - apply only_again. eapply only_bind; [apply hands_silent; auto with vfs | intros []].
    eapply only_pre with (P' := fun _ => True); [done|]. by apply hands_vfs_utimes.
Qed.

(** ** Calls by path *)

Abbreviation makes mnt := (only (stands mnt (negb (ro mnt)) base) (handed (admits mnt))
  (fun _ => True)).

Lemma judges_named {A} t0 fd start (m : Start -> M A) :
  names t0 fd ->
  (forall d, get fd t0 = Some d -> starts (p_mnt (f_path (descr_file d))) start) ->
  (get fd t0 = None -> nowhere start) ->
  (forall mnt, all_reachable reachable t0 -> In mnt reachable -> starts mnt start ->
    makes mnt (m start) whatever) ->
  (nowhere start -> silent (m start)) ->
  judges (fun t _ => t = t0) (vfs (retry_eagain (m start))) anything.
Proof.
  intros HJ Hs Hn Hm Hno. apply judges_reachable. intros Hr.
  destruct (get fd t0) as [d|] eqn:Hg.
  - eapply does_anything, (judges_hands _ _ _ _ _ (p_mnt (f_path (descr_file d)))) with (Q := whatever).
    + by eapply Hr.
    + intros e. by apply HJ.
    + apply only_again, Hm; [done | by eapply Hr | by apply Hs].
  - eapply does_pre with (P' := fun _ _ => True); [done|]. apply judged_silent.
    apply framed_again; [apply _|]. by apply Hno, Hn.
Qed.

Lemma judges_at {A} t0 fd (m : Start -> M A) :
  names t0 fd ->
  (forall mnt, all_reachable reachable t0 -> In mnt reachable -> starts mnt (start_of t0 fd) ->
    makes mnt (m (start_of t0 fd)) whatever) ->
  (nowhere (start_of t0 fd) -> silent (m (start_of t0 fd))) ->
  judges (fun t _ => t = t0) (vfs (retry_eagain (m (start_of t0 fd)))) anything.
Proof.
  intros HJ. apply (judges_named t0 fd); [done | intros d; by apply start_of_on | by apply start_of_nowhere].
Qed.

(** The text of a path, then the table, then the call from where [fd] stands. *)
Ltac by_path t0 fd :=
  repeat first [ apply judges_table; intros ->
               | apply does_past; [apply _ | solve [auto with calls] | intros ?] ];
  match goal with
  | |- context [retry_eagain ?m] =>
    let m := eval pattern (start_of t0 fd) in m in
    match m with ?g _ => apply (judges_at t0 fd g); cbv beta; [done | |] end
  end.

#[local] Hint Resolve silent_nowhere_mkdir silent_nowhere_rmdir silent_nowhere_unlink
  silent_nowhere_utimes silent_nowhere_link silent_nowhere_rename silent_start_of : vfs.

Lemma judges_mkdir t0 fd path :
  names t0 fd -> judges (fun t _ => t = t0) (create_directory fd path) anything.
Proof.
  intros HJ. unfold create_directory. by_path t0 fd; [|auto with vfs].
  intros mnt _ _ Hs. by apply hands_filename_mkdirat.
Qed.

Lemma judges_utimes t0 fd flags path times :
  names t0 fd -> judges (fun t _ => t = t0) (path_filestat_set_times fd flags path times) anything.
Proof.
  intros HJ. unfold path_filestat_set_times. by_path t0 fd; [|auto with vfs].
  intros mnt _ _ Hs. by apply hands_do_utimes_path.
Qed.

Lemma judges_rmdir t0 fd path :
  names t0 fd -> judges (fun t _ => t = t0) (remove_directory fd path) anything.
Proof.
  intros HJ. unfold remove_directory. by_path t0 fd; [|auto with vfs].
  intros mnt _ _ Hs. by apply hands_filename_rmdir.
Qed.

Lemma judges_unlink t0 fd path :
  names t0 fd -> judges (fun t _ => t = t0) (unlink_file fd path) anything.
Proof.
  intros HJ. unfold unlink_file. by_path t0 fd; [|auto with vfs].
  intros mnt _ _ Hs. by apply hands_filename_unlinkat.
Qed.

Lemma judges_link t0 old_fd old_path new_fd new_path flags :
  names t0 new_fd ->
  judges (fun t _ => t = t0) (path_link old_fd old_path new_fd new_path flags) anything.
Proof.
  intros HJ. unfold path_link.
  repeat first [ apply judges_table; intros ->
               | apply does_past; [apply _ | solve [auto with calls] | intros ?] ].
  apply (judges_at t0 new_fd (fun s => filename_linkat _ _ _ s _ _)); [done | |auto with vfs].
  intros mnt Hr Hm Hs. apply hands_filename_linkat; [by eapply start_of_beside | done].
Qed.

Lemma judges_rename t0 old_fd old_path new_fd new_path :
  names t0 old_fd ->
  judges (fun t _ => t = t0) (path_rename old_fd old_path new_fd new_path) anything.
Proof.
  intros HJ. unfold path_rename.
  repeat first [ apply judges_table; intros ->
               | apply does_past; [apply _ | solve [auto with calls] | intros ?] ].
  apply (judges_at t0 old_fd (fun s => filename_renameat2 _ s _ _ _)); [done | |auto with vfs].
  intros mnt Hr Hm Hs. apply hands_filename_renameat2; [done | by eapply start_of_beside].
Qed.

Lemma symlink_start_on t target fd d :
  get fd t = Some d -> starts (p_mnt (f_path (descr_file d))) (symlink_start t target fd).
Proof.
  intros Hg. destruct (start_of_on t fd d Hg) as [Hs Hr]. unfold symlink_start. split; [frames|].
  eapply returns_bind; [exact Hr | intros p Hp]. case_match; [apply returns_fail | by apply returns_ret].
Qed.

Lemma symlink_start_nowhere t target fd : get fd t = None -> nowhere (symlink_start t target fd).
Proof.
  intros Hg. destruct (start_of_nowhere t fd Hg) as [Hs Hr]. unfold symlink_start.
  split; [frames | by apply never_bind].
Qed.

Lemma judges_symlink t0 old_path fd new_path :
  names t0 fd -> judges (fun t _ => t = t0) (path_symlink old_path fd new_path) anything.
Proof.
  intros HJ. unfold path_symlink. apply does_past; [apply _ | auto with calls | intros target].
  apply does_past; [apply _ | auto with calls | intros path]. apply judges_table. intros ->.
  apply (judges_named t0 fd (symlink_start t0 target fd) (fun s => filename_symlinkat _ target s path));
    [done | intros d; apply symlink_start_on | apply symlink_start_nowhere | |].
  - intros mnt _ _ Hs. by apply hands_filename_symlinkat.
  - apply silent_nowhere_symlink.
Qed.

Lemma judged_again {A} (m : M A) : silent m -> judged (vfs (retry_eagain m)).
Proof. intros Hm. apply judged_silent, framed_again; [apply _ | done]. Qed.

#[local] Hint Resolve judged_again silent_vfs_fstatat silent_do_readlinkat : calls.

Lemma judged_stat fd flags path : judged (path_filestat_get fd flags path).
Proof. unfold path_filestat_get. judges_calls. Qed.
Lemma judged_readlink fd path buf n : judged (path_readlink fd path buf n).
Proof. unfold path_readlink, write_link. judges_calls. Qed.

(** ** Numbers given out, closed and moved *)

Lemma standing_subset t t' w :
  table_cred t' = table_cred t ->
  (forall fd d, get fd t' = Some d -> exists fd', get fd' t = Some d) ->
  standing t w -> standing t' w.
Proof.
  intros Ec Hs (Hf & Hb & Hc & Hr & Hd). split_and!; [done | done | congruence | done |].
  intros fd d (fd' & Hg)%Hs. by eapply Hd.
Qed.

Lemma judges_put_table t t' :
  (forall w, standing t w -> standing t' w) ->
  judges (fun t1 _ => t1 = t) (cput (with_table t')) anything.
Proof.
  intros Ht s r s' Hi Hp [= <- <-]. simpl in *. rewrite Hp in Hi. split_and!; [by apply Ht | | done].
  unfold hands_within. reflexivity.
Qed.

Lemma standing_removed fd t d t' w : remove fd t = Some (d, t') -> standing t w -> standing t' w.
Proof.
  unfold remove. destruct (used t !! fd); simpl; [|done]. intros [= <- <-].
  apply standing_subset; [done|]. intros fd' d'. unfold get. simpl. intros Hg%lookup_delete_Some.
  exists fd'. apply Hg.
Qed.

Lemma standing_placed fd d t w :
  file_stands reachable ro cred base w (descr_file d) -> standing t w ->
  standing (place fd d t) w.
Proof.
  intros Hd (Hf & Hb & Hc & Hr & Ht). split_and!; [done..|]. intros fd' d'. unfold get, place. simpl.
  intros [[<- <-]|[_ Hg]]%lookup_insert_Some; [done | by eapply Ht].
Qed.

Lemma judged_close fd : judged (fd_close fd).
Proof.
  unfold fd_close. apply does_table. intros t.
  destruct (remove fd t) as [[d t']|] eqn:E; [|apply does_errno; apply _].
  eapply does_bind; [apply _ | | intros []; apply judges_of, judged_quiet; auto with vfs].
  eapply does_pre; [|apply (judges_put_table t)]; [by intros t1 w _ [-> _]|].
  intros w. by eapply standing_removed.
Qed.

Lemma judged_renumber from to : judged (renumber from to).
Proof.
  unfold renumber. apply does_table. intros t.
  destruct (get from t) as [x|] eqn:Ef, (get to t) as [y|]; try (apply does_errno; apply _).
  case_match; [by apply does_ret; [apply _|]|].
  destruct (remove from t) as [[moved t1]|] eqn:E1; [|apply does_panic].
  destruct (remove to t1) as [[replaced t2]|] eqn:E2; [|apply does_panic].
  eapply does_bind; [apply _ | |intros []; apply judges_of; judges_calls].
  eapply does_pre; [|apply (judges_put_table t)]; [by intros t' w _ [-> _]|].
  intros w Hs. apply standing_placed.
  - unfold remove in E1. unfold get in Ef. rewrite Ef in E1. simpl in E1. injection E1 as <- _.
    by apply Hs in Ef.
  - by eapply standing_removed, standing_removed.
Qed.

Lemma judges_open t0 fd path how :
  names t0 fd -> judges (fun t _ => t = t0) (path_open fd path how) anything.
Proof.
  intros HJ. unfold path_open. eapply does_bind with (Q := fun _ t _ => t = t0); [apply _| |intros op].
  { eapply does_post; [apply (judges_silent _ _ _ _ _ (fun t => t = t0) (fun _ => True))|].
    - apply silent_of_quiet. auto with vfs.
    - apply returns_any.
    - by intros a t w _ [? _]. }
  apply judges_table. intros Hc. destruct (lowest_unused t0) as [new|]; [|apply does_errno; apply _].
  apply does_past; [apply _ | auto with calls | intros p]. rewrite Hc.
  eapply does_bind; [apply _| |intros f].
  - apply (judges_path _ _ _ _ _ t0 fd (fun s => do_file_open cred s p op)
      (fun mnt => opened mnt (negb (ro mnt)) cred base) (start_of t0 fd));
      [intros d; apply start_of_on | apply start_of_nowhere | done | |].
    + intros mnt _ Hs. by apply hands_do_file_open.
    + intros Hn. split; [by apply silent_nowhere_open|].
      unfold do_file_open, counting_links. apply never_after. intros _.
      by apply returns_reval, never_bind, never_set_nameidata.
  - eapply does_bind with (Q := anything); [apply _| |intros []; by apply does_ret; [apply _|]].
    apply (does_put_table _ _ _ (place new (for_file f))).
    intros t w Hi (-> & mnt & Hm & (Em & Ec & Hl)).
    split_and!; [|unfold hands_within; reflexivity|done].
    apply standing_placed; [|done]. simpl. split; rewrite Em; auto.
Qed.

(** ** Every call *)

Lemma judges_reply {A B} P (c : C (H := H) (F := F) A) (g : A -> B) :
  judges P c anything -> judges P (let& a := c in cret (g a)) anything.
Proof. intros Hc. eapply does_bind; [apply _ | exact Hc | intros a; by apply does_ret; [apply _|]]. Qed.

Lemma judges_utimensat P atim mtim flags (set : Iattr FileOps -> C (H := H) (F := F) unit) :
  (forall times, judges P (set times) anything) -> judges P (utimensat atim mtim flags set) anything.
Proof.
  intros Hs. unfold utimensat. apply does_past; [apply _ | auto with calls | intros [times|]]; [done|].
  by apply does_ret; [apply _|].
Qed.

(** A call that only reads, moves a position or a number, or writes what an open
    granted, hands its Filesystem nothing to judge. *)
#[local] Hint Resolve judged_poll judged_set_flags judged_read judged_write judged_seek judged_tell
  judged_readdir judged_close judged_renumber judged_stat judged_readlink : calls.

Lemma judged_steady c : acts_on c = None -> judged (perform c).
Proof.
  destruct c; intros [=]; simpl; unfold unit_reply, number_reply,
    fdstat_reply, filestat_reply, advise, allocate, fd_sync, fdstat_get,
    fdstat_set_rights, refuse_stream, fd_filestat_get, fd_pread, prestat_get, prestat_dir_name,
    fd_pwrite, socket; judges_calls.
Qed.
End Calls.

Section Perform.
Context {T : FsTypes} {H F : Type} `{!VfsTables T} `{LC : !LruCache} `{!FileTables T} `{!Wiggle}
  `{!Hashing} `{!Lawful _} `{!KeepsFiles quietly _}.
Context (reachable : list VfsMount) (ro : VfsMount -> bool) (cred : Cred) (base : list Event).
Context (kobako_first : In kobako_security (security cred)).
Context (told_apart : forall a b, In a reachable -> In b reachable -> same_mount a b = true -> b = a).

(** What a call may hand a Filesystem: what the mount of the number it acts on
    admits, and, for a resize by number, that number's own file resized. *)
Definition admitted_at (t : Descriptors) (w : world) (c : Preview1Call) (e : Event) : Prop :=
  exists fd d, acts_on c = Some fd /\ get fd t = Some d
    /\ (admitted (p_mnt (f_path (descr_file d))) (negb (ro (p_mnt (f_path (descr_file d))))) cred e
        \/ (exists n, c = FdFilestatSetSize fd n) /\ resizable ro cred base w (descr_file d) e).

Lemma judges_changing (t0 : Descriptors) w0 c fd :
  acts_on c = Some fd ->
  does (H := H) (F := F) (standing reachable ro cred base) (hands_within (admitted_at t0 w0 c))
    (fun t w => t = t0 /\ w = w0) (perform c) anything.
Proof.
  intros Ha.
  assert (HJ : names ro cred (admitted_at t0 w0 c) t0 fd) by (intros d e Hg He; exists fd, d; auto).
  assert (HS : forall n, c = FdFilestatSetSize fd n -> forall d e, get fd t0 = Some d ->
    resizable ro cred base w0 (descr_file d) e -> admitted_at t0 w0 c e)
    by (intros n -> d e Hg He; exists fd, d; eauto 6).
  assert (Hpre : forall A (m : C (H := H) (F := F) A), does (standing reachable ro cred base)
    (hands_within (admitted_at t0 w0 c)) (fun t _ => t = t0) m anything ->
    does (standing reachable ro cred base) (hands_within (admitted_at t0 w0 c))
      (fun t w => t = t0 /\ w = w0) m anything).
  { intros A m. apply does_pre. by intros t w _ []. }
  revert Ha HJ HS Hpre. generalize (admitted_at t0 w0 c) as J.
  destruct c; intros J [= <-] HJ HS Hpre; simpl; apply judges_reply;
    try (eapply judges_set_size; [done | by eapply HS]); apply Hpre;
    try (apply judges_utimensat; intros times);
    eauto using judges_utimes_fd, judges_mkdir, judges_utimes, judges_link,
      judges_open, judges_rmdir, judges_rename, judges_symlink, judges_unlink.
Qed.

Lemma judges_perform (t0 : Descriptors) w0 c :
  does (H := H) (F := F) (standing reachable ro cred base) (hands_within (admitted_at t0 w0 c))
    (fun t w => t = t0 /\ w = w0) (perform c) anything.
Proof.
  destruct (acts_on c) as [fd|] eqn:E; [by eapply judges_changing|].
  eapply does_pre; [|by apply judged_steady]. done.
Qed.

Lemma judges_guest_call (t0 : Descriptors) w0 c :
  does (H := H) (F := F) (standing reachable ro cred base) (hands_within (admitted_at t0 w0 c))
    (fun t w => t = t0 /\ w = w0) (guest_call c) anything.
Proof. apply does_answer; [apply _ | apply judges_perform]. Qed.
End Perform.
