(* ===== verification/PolicyPromises.v ===== *)
(** What a guest's Mounts and their Policies hold it to, whatever it calls of
    preview1 and in whatever order. *)
From stdpp Require Import gmap.
From S2P Require Import Prelude Text Catalog Messages Runtime Endpoint Locking VfsTypes World Dcache Cred OpenFile Namei Security VfsFacts NameiFacts VfsLogic Mediation VfsPromises Witx Descriptors Session FdCalls FdDir PathCalls Preview1 CallLogic FileFacts GuestPolicy PolicyCalls.
Local Open Scope vfs_scope.
Local Open Scope call_scope.

Section Launch.
Context {T : FsTypes} {H F : Type} `{!VfsTables T} `{LC : !LruCache} `{!FileTables T} `{!Wiggle}
  `{!Hashing} `{!Lawful _} `{!KeepsFiles quietly _}.
Implicit Types (t : Descriptors) (w : world) (f : File).

(** An open file of no regular file, as a stream is. *)
Definition stream w f : Prop :=
  exists x, w_inodes w !! f_inode f = Some x /\ i_kind x <> RegFile.

(** The mounts the numbers of a new table stand on. *)
Definition stood_on (stdio : list File) (mounts : list Mounted) : list VfsMount :=
  map (fun f => p_mnt (f_path f)) stdio ++ map m_mnt mounts.

(** An invocation's table as it is first held: three streams and a root for each
    Mount, on instances that are there, each mount told by its address. *)
Definition launched (stdin stdout stderr : File) (mounts : list Mounted) (lim : option Z)
    (opener : Cred) (p : Profile) t w : Prop :=
  exists w0, fresh_ok w0 /\ Forall (stream w0) [stdin; stdout; stderr]
    /\ (forall mnt, In mnt (stood_on [stdin; stdout; stderr] mounts) ->
          is_Some (w_sbs w0 !! mnt_sb mnt))
    /\ (forall a b, In a (stood_on [stdin; stdout; stderr] mounts) ->
          In b (stood_on [stdin; stdout; stderr] mounts) -> same_mount a b = true -> b = a)
    /\ descriptors_new stdin stdout stderr mounts lim opener p w0 = Some (Ok t, w).

Definition read_only_in w (mnt : VfsMount) : bool :=
  match is_readonly mnt w with Some (Ok b) => b | _ => false end.

Lemma read_only_there w mnt :
  is_Some (w_sbs w !! mnt_sb mnt) -> is_readonly mnt w = Some (Ok (read_only_in w mnt)).
Proof. intros [sb E]. unfold read_only_in, is_readonly. by rewrite E. Qed.

(** ** A Mount's root is opened to read *)
Lemma returns_file_root mnt opener :
  returns (fun f => p_mnt (f_path f) = mnt /\ FMode.contains (f_mode f) FMode.WRITE = false)
    (file_root mnt opener).
Proof.
  unfold file_root, dentry_open. eapply returns_bind; [apply returns_any | intros k _].
  eapply returns_bind; [apply returns_any | intros [ops sec] _]. unfold file_new.
  eapply returns_bind; [apply returns_any | intros [i|] _].
  - apply returns_ret. split; [done|]. cbn [f_mode]. case_match; [rewrite stream_open_write|];
      by vm_compute.
  - by intros w a w' ?.
Qed.

Lemma kept_file_root mnt opener b w r w' :
  fresh_ok w -> is_readonly mnt w = Some (Ok b) -> file_root mnt opener w = Some (r, w') ->
  kept w w' /\ recorded w w'.
Proof.
  intros Hf Hr E. assert (Hs : stands mnt (negb b) (w_trace w) w)
    by (apply stands_here; [done..|]; by rewrite negb_involutive).
  assert (Ho := Calls.hands_reopen mnt (negb b) opener (w_trace w) (path_root mnt)
    (MkOpenHow true false false false false false false false false false false) eq_refl).
  destruct (only_end _ _ _ _ _ _ _ _ (handed_pre _) Ho Hs Logic.I E) as (_ & Hh & _).
  split; [apply Hh | by eapply handed_recorded].
Qed.

Section Roots.
Context (reachable : list VfsMount) (ro : VfsMount -> bool) (cred : Cred) (base : list Event).

Definition roots_stand w (u : gmap Z Descriptor) : Prop :=
  forall fd d, u !! fd = Some d -> file_stands reachable ro cred base w (descr_file d).

Lemma roots_kept w w' u :
  fresh_ok w -> kept w w' -> recorded w w' -> roots_stand w u -> roots_stand w' u.
Proof. intros Hf Hk Hr Hu fd d Hd. eapply file_stands_kept; eauto. Qed.

Lemma roots_insert w u fd d :
  file_stands reachable ro cred base w (descr_file d) -> roots_stand w u ->
  roots_stand w (<[fd := d]> u).
Proof. intros Hd Hu fd' d' [[<- <-]|[_ Hg]]%lookup_insert_Some; [done | by eapply Hu]. Qed.

Lemma open_roots_stand opener n mounts u w u' w' :
  fresh_ok w -> (forall mnt, In mnt reachable -> is_readonly mnt w = Some (Ok (ro mnt))) ->
  incl (map m_mnt mounts) reachable ->
  roots_stand w u -> open_roots opener n mounts u w = Some (Ok u', w') ->
  kept w w' /\ roots_stand w' u'.
Proof.
  revert n u w. induction mounts as [|m mounts IH]; intros n u w Hf Hro Hin Hu E; simpl in E.
  - by injection E as <- <-.
  - unfold bind in E. destruct (file_root _ _ w) as [[[root|e] w1]|] eqn:Er; [|done..].
    assert (Hk : kept w w1 /\ recorded w w1)
      by (eapply kept_file_root; [done | apply Hro, Hin; by left | exact Er]).
    destruct Hk as [Hk Hrec].
    destruct (returns_file_root _ _ _ _ _ Er) as [Em Ew].
    destruct (IH (n + 1) (<[n:=MkDescriptor root (Some (m_at m))]> u) w1) as [Hk' Hu']; [| | | |exact E|].
    + by apply Hk.
    + intros mnt Hm. eapply readonly_kept; eauto.
    + intros mnt Hm. apply Hin. by right.
    + apply roots_insert; [|by eapply roots_kept]. simpl. split.
      * rewrite Em. apply Hin. by left.
      * left. intros E'. congruence.
    + split; [by etransitivity | done].
Qed.
End Roots.

Lemma launched_standing stdin stdout stderr mounts lim opener p t w :
  launched stdin stdout stderr mounts lim opener p t w ->
  exists ro, standing (stood_on [stdin; stdout; stderr] mounts) ro (restrict_self opener mounts)
    (w_trace w) t w.
Proof.
  intros (w0 & Hf & Hs & Hsb & _ & E). exists (read_only_in w0).
  set (reachable := stood_on _ _) in *. unfold descriptors_new, bind in E.
  destruct (open_roots _ _ _ _ _) as [[[u|e] w1]|] eqn:Er; [|done..]. injection E as <- <-.
  assert (Hro : forall mnt, In mnt reachable -> is_readonly mnt w0 = Some (Ok (read_only_in w0 mnt)))
    by (intros mnt Hm; by apply read_only_there, Hsb).
  apply (open_roots_stand reachable (read_only_in w0) (restrict_self opener mounts) (w_trace w1)) in Er
    as [Hk Hu]; [|done|done| |].
  - split_and!; [by apply Hk | by exists [] | done | |done]. intros mnt Hm. eapply readonly_kept; eauto.
  - intros mnt Hm. apply in_or_app. by right.
  - inversion Hs as [|? ? Hi Hs']. inversion Hs' as [|? ? Ho Hs'']. inversion Hs'' as [|? ? He _]. subst.
    repeat apply roots_insert; [..|by intros fd d ?%lookup_empty_Some];
      (split; [|by right]); apply in_or_app; left; simpl; tauto.
Qed.

(** ** It stands however it is called *)
Lemma runs_standing reachable ro cred base (s s' : Session H F) l :
  In kobako_security (security cred) ->
  (forall a b, In a reachable -> In b reachable -> same_mount a b = true -> b = a) ->
  standing reachable ro cred base (s_table s) (s_world s) -> runs s l s' ->
  standing reachable ro cred base (s_table s') (s_world s').
Proof.
  intros Hk Ha Hs Hr. induction Hr as [s|s m fuel c r s' E _|s m fuel c r s' l s'' E _ _ IH]; [done| |].
  - by apply (judges_guest_call reachable ro cred base Hk Ha (s_table s) (s_world s) c
      (between m fuel s) _ _ Hs (conj eq_refl eq_refl) E).
  - apply IH. by apply (judges_guest_call reachable ro cred base Hk Ha (s_table s) (s_world s) c
      (between m fuel s) _ _ Hs (conj eq_refl eq_refl) E).
Qed.
End Launch.

(** ** What each promises *)
Module Bound.
Section Bound.
Context {T : FsTypes} {H F : Type} `{!VfsTables T} `{LC : !LruCache} `{!FileTables T} `{!Wiggle}
  `{!Hashing} `{!Lawful _} `{!KeepsFiles quietly _}.

(** The Policies of the mount [mnt] is. *)
Definition governs (mounts : list Mounted) (mnt : VfsMount) (m : MountPolicy) : Prop :=
  exists x, In x mounts /\ m_policy x = Some (mp_policy m) /\ m_at x = mp_at m
    /\ m_mnt x = mp_mnt m /\ guards m mnt = true.

(** An open to write of a number's own dentry, on record since [base], at a path
    every Policy of its mount permits a write. *)
Definition open_granted (mounts : list Mounted) (base : list Event) (w : world) (f : File) : Prop :=
  exists path k mode trunc,
    opened_since base (p_dentry (f_path f)) path k mode trunc w
    /\ FMode.contains mode FMode.WRITE = true
    /\ forall m, governs mounts (p_mnt (f_path f)) m -> Judged.permits m ReadWrite path.


Lemma governs_cred mounts mnt m opener :
  governs mounts mnt m -> In (policy_security m) (security (restrict_self opener mounts)).
Proof.
  intros (x & Hx & Hp & Ha & Hm & _). unfold restrict_self, with_modules. simpl.
  apply in_or_app. right. unfold policies_of. apply list_elem_of_In, list.list_elem_of_omap.
  exists x. split; [by apply list_elem_of_In|]. rewrite Hp. simpl. destruct m; simpl in *. congruence.
Qed.

Lemma kobako_opener modules committed mounts :
  In kobako_security (security (restrict_self (prepare_creds_within modules committed) mounts)).
Proof. apply in_or_app. left. by left. Qed.

Lemma licence_granted opener mounts base w f wr :
  licence (p_mnt (f_path f)) wr (restrict_self opener mounts) base (p_dentry (f_path f)) w ->
  open_granted mounts base w f.
Proof.
  intros (path & k & mode & trunc & Ho & Hw & Hp & _). exists path, k, mode, trunc.
  split_and!; [done..|]. intros m Hg. apply (Hp m).
  split; [by eapply governs_cred | by destruct Hg as (x & _ & _ & _ & _ & Hg)].
Qed.



(** C16: no number ever stands for a regular file open to write on a read-only
    mount, and the file was opened to write, since the launch and by the very
    dentry the number stands for, at a path every Policy governing its mount
    permits a write: whatever a guest calls, renames and links of what it opened
    included. *)
Theorem numbers_write_only_what_was_granted stdin stdout stderr mounts lim modules committed p
    (s s1 : Session H F) l fd d x :
  launched stdin stdout stderr mounts lim (prepare_creds_within modules committed) p
    (s_table s) (s_world s) ->
  runs s l s1 ->
  get fd (s_table s1) = Some d -> writable (descr_file d) = true ->
  w_inodes (s_world s1) !! f_inode (descr_file d) = Some x -> i_kind x = RegFile ->
  is_readonly (p_mnt (f_path (descr_file d))) (s_world s1) = Some (Ok false)
  /\ open_granted mounts (w_trace (s_world s)) (s_world s1) (descr_file d).
Proof.
  intros Hl Hr Hg Hw Hx Hk'. destruct (launched_standing _ _ _ _ _ _ _ _ _ Hl) as [ro Hs].
  destruct Hl as (_ & _ & _ & _ & Ha & _).
  assert (Hk := kobako_opener modules committed mounts).
  destruct (runs_standing _ _ _ _ _ _ _ Hk Ha Hs Hr) as (_ & _ & _ & Hro & Hd).
  destruct (Hd fd d Hg) as [Hm [Hlic|(x' & Hx' & Hr')]]; [|simplify_eq].
  specialize (Hlic Hw). rewrite (Hro _ Hm). split; [|by eapply licence_granted].
  destruct Hlic as (path & k & mode & trunc & _ & _ & _ & Hwr & Ho).
  by rewrite <- (negb_involutive (ro _)), (Hwr (Ho Hk)).
Qed.
End Bound.
End Bound.
