(* ===== verification/GuestSample.v ===== *)
(** A guest at a Tmpfs mounted at [/data] under a Policy, and what the promises of
    its calls say of it: the witnesses of [DescriptorPromises] and
    [PolicyPromises]. *)
From stdpp Require Import gmap.
From S2P Require Import Prelude Text Catalog Messages Runtime Endpoint Locking VfsTypes World Dcache Cred OpenFile Namei Security VfsFacts NameiFacts VfsLogic Mediation Tmpfs TmpfsFacts VfsPromises Witx Descriptors Session FdCalls FdDir PathCalls Preview1 CallLogic DescriptorFacts FileFacts GuestPolicy PolicyCalls PolicyPromises.
Local Open Scope vfs_scope.
Local Open Scope call_scope.

(** A guest's memory as its bytes; nothing it is asked here is of another shape. *)
Definition within_memory (p : gslice) (m : list byte) : result GuestError (list byte) :=
  if p.1 + p.2 <=? len m then Ok (firstn (Z.to_nat p.2) (skipn (Z.to_nat p.1) m))
  else Err PtrOutOfBounds.

Definition overlaid (at_ : Z) (bs m : list byte) : list byte :=
  firstn (Z.to_nat at_) m ++ bs ++ skipn (Z.to_nat (at_ + len bs)) m.

Definition le_value (bs : list byte) : Z :=
  List.fold_right (fun b n => Z.of_N (Byte.to_N b) + 256 * n) 0 bs.

Definition pair_at (p : Z) (m : list byte) : result GuestError gslice :=
  match within_memory (p, 8) m with
  | Ok bs => Ok (le_value (firstn 4 bs), le_value (skipn 4 bs))
  | Err e => Err e
  end.

#[export] Instance flat : Wiggle := {|
  Mem := list byte;
  as_slice p m := match within_memory p m with Ok bs => Ok (Some bs) | Err e => Err e end;
  as_slice_mut p m := match within_memory p m with Ok bs => Ok (Some bs) | Err e => Err e end;
  fill_slice p bs m := overlaid p.1 bs m;
  copy_from_slice bs p m :=
    match within_memory p m with Ok _ => Ok (overlaid p.1 bs m) | Err e => Err e end;
  as_cow := within_memory;
  ptr_add p n := Ok (p + n);
  event_add p n := Ok (p + 32 * n);
  ptr_iter sz p := map (fun i => Ok (p.1 + sz * Z.of_nat i)) (seq 0 (Z.to_nat p.2));
  read_iovec := pair_at;
  read_ciovec := pair_at;
  read_subscription_at p m := Err InvalidEnumValue;
  write_event p e m := Err PtrOutOfBounds;
  dirent_bytes d := Ok [];
|}.

#[export] Instance plain_hash : Hashing := {| hash_one _ := 1 |}.

#[local] Existing Instance Sample.listed_lru.

Module Guest.
Definition opener : Cred := prepare_creds_within [] None.
Definition mnt : VfsMount := (Sample.mounted false).1.
Definition data : Mounted :=
  MkMounted (lit "/data") (Some (mp_policy Sample.beneath_dir)) mnt.

Definition stdio_of {A} (d : A) (m : M A) (w : world) : A :=
  match m w with Some (Ok a, _) => a | _ => d end.

(** A stream's place is taken by a directory opened to read. *)
Definition no_file : File :=
  MkFile (path_root mnt) 0%nat EmptyFops 0 false false false false 0 opener [].
Definition console : File := stdio_of no_file (file_root mnt opener) (Sample.mounted false).2.
Definition before : world :=
  match file_root mnt opener (Sample.mounted false).2 with Some (_, w) => w | None => Sample.blank end.

Definition table : M Descriptors :=
  descriptors_new console console console [data] (Some 5) opener Hermetic.
Definition empty_table : Descriptors := MkDescriptors ∅ ∅ None opener [] Hermetic.
Definition held : Descriptors := stdio_of empty_table table before.
Definition after_launch : world := match table before with Some (_, w) => w | None => Sample.blank end.

Definition session_of (t : Descriptors) (w : world) : Session unit unit :=
  MkSession t (lit "dir/new") 1000 0 Frozen None calls_default (fun _ => tt) 0%nat (fun _ => 0) 0%nat
    [] w.
Definition session : Session unit unit := session_of held after_launch.

Definition open_new : Preview1Call :=
  PathOpenAt 3 (0, 7) (MkPathOpen 0 Oflags.CREAT (Z.lor Rights.FD_READ Rights.FD_WRITE) 0).

Definition memory : list byte := lit "dir/new".
Definition answered (c : Preview1Call) (s : Session unit unit) : option (result Error Reply_) :=
  fst <$> guest_call c (between (memory : Mem) 1000 s).
Definition left_by (c : Preview1Call) (s : Session unit unit) : Session unit unit :=
  match guest_call c (between (memory : Mem) 1000 s) with Some (_, s') => s' | None => s end.

Definition opened_new : Session unit unit := left_by open_new session.
End Guest.
Import Guest.

#[local] Strategy expand [held after_launch table session].

Lemma session_table t w : s_table (session_of t w) = t.
Proof. reflexivity. Qed.
Lemma session_world t w : s_world (session_of t w) = w.
Proof. reflexivity. Qed.

Lemma made_by {A} (d : A) (m : M A) (w w' : world) :
  match m w with Some (Ok _, _) => true | _ => false end = true ->
  m w = Some (Ok (stdio_of d m w), match m w with Some (_, w) => w | None => w' end).
Proof. unfold stdio_of. by destruct (m w) as [[[a|e] w1]|]. Qed.

Lemma table_made :
  descriptors_new console console console [data] (Some 5) opener Hermetic before
  = Some (Ok (s_table session), s_world session).
Proof.
  unfold session. rewrite session_table, session_world.
  unfold held, after_launch, table. apply made_by. vm_compute. reflexivity.
Qed.

Lemma answered_left c s r :
  answered c s = Some r -> guest_call c (between (memory : Mem) 1000 s) = Some (r, left_by c s).
Proof.
  unfold answered, left_by. destruct (guest_call c _) as [[x s']|]; simpl; [|done].
  by intros [= ->].
Qed.

Lemma opened_runs : runs session [(open_new, Ok (RNumber 4))] opened_new.
Proof.
  assert (Ha : answered open_new session = Some (Ok (RNumber 4))) by (vm_compute; reflexivity).
  exact (runs_call session memory 1000 open_new (Ok (RNumber 4)) opened_new [] opened_new
    (answered_left open_new session _ Ha) eq_refl (runs_none opened_new)).
Qed.

Lemma session_launched :
  launched console console console [data] (Some 5) opener Hermetic (s_table session) (s_world session).
Proof.
  exists before. split_and!.
  - apply Sample.fresh_ok_by_size; vm_compute; reflexivity.
  - assert (Hs : stream before console).
    { destruct (w_inodes before !! f_inode console) as [x|] eqn:Ex; [|by vm_compute in Ex].
      exists x. split; [done|]. assert (Hk : i_kind <$> w_inodes before !! f_inode console = Some Dir)
        by (vm_compute; reflexivity).
      rewrite Ex in Hk. by injection Hk as ->. }
    by repeat constructor.
  - assert (Hm : is_Some (w_sbs before !! mnt_sb mnt)).
    { apply (bool_decide_unpack _). vm_compute. exact Logic.I. }
    intros m Hin. assert (m = mnt) as -> by (vm_compute in Hin |- *; intuition congruence). exact Hm.
  - intros a b Ha Hb _.
    assert (a = mnt) as -> by (vm_compute in Ha |- *; intuition congruence).
    vm_compute in Hb |- *. intuition congruence.
  - exact table_made.
Qed.

(** After an open that made [/data/dir/new], the next is the lowest closed
    number; a resize through it is what the Policy permits. *)
Lemma opens_take_the_lowest_number_witness :
  numbered (s_table opened_new) /\ within_limit (3 + len [data]) (s_table opened_new)
  /\ get 4 (s_table opened_new) <> None.
Proof.
  split; [|split].
  - apply (Numbers.opens_take_the_lowest_number console console console [data] (Some 5) opener
      Hermetic before (s_world session) session opened_new [(open_new, Ok (RNumber 4))]);
      [by vm_compute | exact table_made | exact opened_runs].
  - apply (Numbers.opens_take_the_lowest_number console console console [data] (Some 5) opener
      Hermetic before (s_world session) session opened_new [(open_new, Ok (RNumber 4))]);
      [by vm_compute | exact table_made | exact opened_runs].
  - intros E. assert (Hg : bool_decide (is_Some (get 4 (s_table opened_new))) = true)
      by (vm_compute; reflexivity).
    rewrite E in Hg. by vm_compute in Hg.
Defined.


Definition new_number : Descriptor := default (for_file no_file) (get 4 (s_table opened_new)).

Lemma numbers_write_only_what_was_granted_witness :
  is_readonly (p_mnt (f_path (descr_file new_number))) (s_world opened_new) = Some (Ok false)
  /\ Bound.open_granted [data] (w_trace (s_world session)) (s_world opened_new)
       (descr_file new_number).
Proof.
  destruct (w_inodes (s_world opened_new) !! f_inode (descr_file new_number)) as [x|] eqn:Ex.
  - apply (Bound.numbers_write_only_what_was_granted console console console [data] (Some 5) [] None
      Hermetic session opened_new [(open_new, Ok (RNumber 4))] 4 new_number x).
    + exact session_launched.
    + exact opened_runs.
    + assert (Hg : bool_decide (is_Some (get 4 (s_table opened_new))) = true)
        by (vm_compute; reflexivity).
      unfold new_number. by destruct (get 4 (s_table opened_new)).
    + vm_compute. reflexivity.
    + exact Ex.
    + assert (Hk : i_kind <$> w_inodes (s_world opened_new) !! f_inode (descr_file new_number)
        = Some RegFile) by (vm_compute; reflexivity).
      rewrite Ex in Hk. by injection Hk.
  - by vm_compute in Ex.
Defined.
