(* ===== verification/RxText.v ===== *)
(** A pattern's text as kobako-regexp reads and writes it: Rust's [&str] and
    [String] as their characters, with the [str] and [char] methods its
    translation uses.

    Every offset the sources slice at is a character's, so a text is sliced by
    characters; the one slice that may fall inside a character is said where it
    is ([Panicked]).  What the standard library reads of Unicode's tables is a
    parameter ([Unicode]), with whether the crate is built with them. *)
From Stdlib Require Import String.
From S2P Require Import Prelude Text.

Abbreviation Str := (list Z).

(** ASCII text, one character, and whether a character is that one. *)
Definition cs (s : String.string) : Str := map byte_to_Z (lit s).
Definition chr (s : String.string) : Z := default 0 (head (cs s)).
Definition eqc (s : String.string) (c : Z) : bool := c =? chr s.
Definition one_of (s : String.string) (c : Z) : bool := existsb (Z.eqb c) (cs s).
Definition text_is (s : String.string) (x : Str) : bool := bool_decide (x = cs s).
Arguments cs s%_string_scope.
Arguments chr s%_string_scope.
Arguments eqc s%_string_scope c.
Arguments one_of s%_string_scope c.
Arguments text_is s%_string_scope x.

Class Unicode := {
  alphanumeric : Z -> bool;
  lowercase : Z -> bool;
  uppercase : Z -> bool;
  (** [char::is_control]. *)
  control_char : Z -> bool;
  (** [cfg!(feature = "unicode")]. *)
  unicode_build : bool;
}.

(** ** A step that may be refused, or panic *)
Inductive tried (A : Type) : Type :=
| Done (a : A)
| Refuse (reason : Str)
| Panicked.
Arguments Done {A} a.
Arguments Refuse {A} reason.
Arguments Panicked {A}.

Definition tbind {A B} (m : tried A) (k : A -> tried B) : tried B :=
  match m with Done a => k a | Refuse r => Refuse r | Panicked => Panicked end.

Declare Scope rx_scope.
Delimit Scope rx_scope with rx.
Notation "'let?' x := m 'in' k" := (tbind m (fun x => k))
  (at level 10, x pattern, m at level 100, k at level 200) : rx_scope.

(** ** [str] *)

(** [strip_prefix], [starts_with]. *)
Fixpoint strip (p s : Str) : option Str :=
  match p, s with
  | [], _ => Some s
  | a :: p, b :: s => if a =? b then strip p s else None
  | _ :: _, [] => None
  end.
Definition begins (p : String.string) (s : Str) : bool :=
  match strip (cs p) s with Some _ => true | None => false end.

(** [find] of a character and of a text, and [rfind]. *)
Fixpoint find_char (p : Z -> bool) (s : Str) : option nat :=
  match s with
  | [] => None
  | c :: s => if p c then Some O else S <$> find_char p s
  end.
Fixpoint find_str (p s : Str) : option nat :=
  match strip p s with
  | Some _ => Some O
  | None => match s with [] => None | _ :: s => S <$> find_str p s end
  end.
Definition rfind_char (p : Z -> bool) (s : Str) : option nat :=
  (fun i => length s - 1 - i)%nat <$> find_char p (rev s).

(** [&s[from..to]]. *)
Definition slice (from to : nat) (s : Str) : Str := firstn (to - from) (skipn from s).

(** [split_once] of a character. *)
Definition split_once (sep : Z) (s : Str) : option (Str * Str) :=
  (fun at_ => (firstn at_ s, skipn (S at_) s)) <$> find_char (Z.eqb sep) s.

(** [len]: a text's bytes. *)
Definition char_len (c : Z) : Z :=
  if c <? 0x80 then 1 else if c <? 0x800 then 2 else if c <? 0x10000 then 3 else 4.
Definition byte_len (s : Str) : Z := List.fold_right (fun c n => char_len c + n) 0 s.

(** [char::is_whitespace], [is_ascii_whitespace], [is_ascii_alphabetic]. *)
Definition is_whitespace (c : Z) : bool :=
  ((9 <=? c) && (c <=? 13)) || existsb (Z.eqb c) [0x20; 0x85; 0xA0; 0x1680; 0x2028; 0x2029; 0x202F; 0x205F; 0x3000]
  || ((0x2000 <=? c) && (c <=? 0x200A)).
Definition is_ascii_whitespace (c : Z) : bool := existsb (Z.eqb c) [9; 10; 12; 13; 32].
Definition is_ascii_char (c : Z) : bool := c <? 0x80.
Definition is_ascii_alphabetic (c : Z) : bool := is_ascii_uppercase c || is_ascii_lowercase c.
Definition to_ascii_lowercase (c : Z) : Z := if is_ascii_uppercase c then c + 32 else c.

(** [trim] and [split_whitespace]. *)
Fixpoint trim_start (s : Str) : Str :=
  match s with
  | c :: s' => if is_whitespace c then trim_start s' else s
  | [] => []
  end.
Definition trim (s : Str) : Str := rev (trim_start (rev (trim_start s))).

Fixpoint split_whitespace (s : Str) : list Str :=
  match s with
  | [] => []
  | c :: s =>
    if is_whitespace c then split_whitespace s
    else
      let words := split_whitespace s in
      match s, words with
      | d :: _, w :: ws => if is_whitespace d then [c] :: words else (c :: w) :: ws
      | _, _ => [c] :: words
      end
  end.

(** ** Numbers *)

(** [parse] of decimal digits alone, [None] past [max]. *)
Definition dec_value (s : Str) : Z := List.fold_left (fun n c => n * 10 + (c - 48)) s 0.
Definition parse_digits (max : Z) (s : Str) : option Z :=
  if dec_value s <=? max then Some (dec_value s) else None.

Definition hex_digit (c : Z) : option Z :=
  if is_ascii_digit c then Some (c - 48)
  else if (97 <=? c) && (c <=? 102) then Some (c - 87)
  else if (65 <=? c) && (c <=? 70) then Some (c - 55)
  else None.
Fixpoint hex_value (n : Z) (s : Str) : option Z :=
  match s with
  | [] => Some n
  | c :: s => d ← hex_digit c; if n * 16 + d <=? U32_MAX then hex_value (n * 16 + d) s else None
  end.
(** [u32::from_str_radix(s, 16)], which takes a sign. *)
Definition from_hex (s : Str) : option Z :=
  let s := match s with c :: s' => if eqc "+" c then s' else s | [] => s end in
  match s with [] => None | _ => hex_value 0 s end.

(** [{n}] and [{n:X}]. *)
Definition dec (n : Z) : Str := map byte_to_Z (display_uint n).
Fixpoint hex_digits (turns : nat) (n : Z) (out : Str) : Str :=
  match turns with
  | O => out
  | S turns =>
    let d := n mod 16 in
    let out := (if d <? 10 then d + 48 else d + 55) :: out in
    if n / 16 =? 0 then out else hex_digits turns (n / 16) out
  end.
(** A [u32] has eight hexadecimal digits at most. *)
Definition hex (n : Z) : Str := hex_digits 8 n [].

(** [join]. *)
Fixpoint join (sep : Str) (parts : list Str) : Str :=
  match parts with
  | [] => []
  | [p] => p
  | p :: parts => p ++ sep ++ join sep parts
  end.
