(* ===== verification/RxRepeat.v ===== *)
(** How MRI reads quantifiers stacked on one unit: kobako-regexp's
    [translate/repeat.rs].

    What folding a stack of quantifiers keeps: the numbers of times the unit may
    be repeated, as the nested quantifiers MRI reads allow them. *)
From Stdlib Require Import String Morphisms DecimalN DecimalString.
From S2P Require Import Prelude Text RxText.

(** [upper] is [None] without a bound. *)
Record Quantity := MkQuantity {
  q_lower : Z;
  q_upper : option Z;
  q_greedy : bool;
  q_possessive : bool;
}.

Module Quantity.
Definition greedy (lower : Z) (upper : option Z) : Quantity := MkQuantity lower upper true false.
Definition lazy (lower : Z) (upper : option Z) : Quantity := MkQuantity lower upper false false.

Definition popular (q : Quantity) : option nat :=
  let base :=
    match q_lower q, q_upper q with
    | 0, Some 1 => Some 0%nat
    | 0, None => Some 1%nat
    | 1, None => Some 2%nat
    | _, _ => None
    end in
  match base with
  | Some base => Some (if q_greedy q then base else base + 3)%nat
  | None => None
  end.

Definition written (q : Quantity) : Str :=
  match q_lower q, q_upper q with
  | 0, Some 1 => cs "?"
  | 0, None => cs "*"
  | 1, None => cs "+"
  | lower, None => cs "{" ++ dec lower ++ cs ",}"
  | lower, Some upper =>
    if lower =? upper then cs "{" ++ dec lower ++ cs "}"
    else cs "{" ++ dec lower ++ cs "," ++ dec upper ++ cs "}"
  end ++ (if q_greedy q then [] else cs "?").
End Quantity.

Inductive Fold := AsIs | Inner | Star | LazyStar | LazyOptional | LazyOptionalPlus.

Definition FOLDS : list (list Fold) := [
  [Inner; Star; Star; LazyOptional; LazyStar; AsIs];
  [Inner; Inner; Inner; LazyOptionalPlus; LazyOptionalPlus; Inner];
  [Star; Star; Inner; AsIs; LazyOptionalPlus; Inner];
  [Inner; LazyStar; LazyStar; Inner; LazyStar; LazyStar];
  [Inner; Inner; Inner; Inner; Inner; Inner];
  [AsIs; AsIs; AsIs; LazyStar; LazyStar; Inner]
].

Definition bound_by_inner_star (inner outer : Quantity) : Quantity :=
  let inner_star := match Quantity.popular inner with Some 1%nat | Some 2%nat => true | _ => false end in
  match q_upper outer with
  | Some upper =>
    if inner_star && q_greedy outer && (1 <? upper)
    then MkQuantity (q_lower outer) (Some (Z.max (q_lower outer) 1)) (q_greedy outer)
           (q_possessive outer)
    else outer
  | None => outer
  end.

Definition fold_of (inner outer : Quantity) : Fold :=
  match Quantity.popular inner, Quantity.popular outer with
  | Some row, Some column => nth column (nth row FOLDS []) AsIs
  | _, _ => AsIs
  end.

(** [fold]: the text and the quantity it answers. *)
Definition fold (text : Str) (inner outer : Quantity) : Str * Quantity :=
  let outer := bound_by_inner_star inner outer in
  match fold_of inner outer with
  | Inner => (text, inner)
  | Star => (text, Quantity.greedy 0 None)
  | LazyStar => (text, Quantity.lazy 0 None)
  | LazyOptional => (text, Quantity.lazy 0 (Some 1))
  | LazyOptionalPlus => (cs "(?:" ++ text ++ cs "+)", Quantity.lazy 0 (Some 1))
  | AsIs => (cs "(?:" ++ text ++ Quantity.written inner ++ cs ")", outer)
  end.

Definition write_step (s : Str * option Quantity) (quantity : Quantity) : Str * option Quantity :=
  let '(text, current) := s in
  let outer := MkQuantity (q_lower quantity) (q_upper quantity) (q_greedy quantity) false in
  let '(text, folded) :=
    match current with None => (text, outer) | Some inner => fold text inner outer end in
  if q_possessive quantity
  then (cs "(?>" ++ text ++ Quantity.written folded ++ cs ")", None)
  else (text, Some folded).

Definition write (unit : Str) (quantities : list Quantity) : Str :=
  let '(text, current) := fold_left write_step quantities (unit, None) in
  match current with Some quantity => text ++ Quantity.written quantity | None => text end.

(** What the sources' own tests say. *)
Definition STAR : Quantity := Quantity.greedy 0 None.
Definition OPTIONAL : Quantity := Quantity.greedy 0 (Some 1).
Definition LAZY_PLUS : Quantity := Quantity.lazy 1 None.

Example write_tests :
  map (fun '(u, q) => write (cs u) q)
    [("a", [STAR; STAR]); ("a", [LAZY_PLUS; OPTIONAL]); ("a", [LAZY_PLUS; OPTIONAL; STAR]);
     ("a", [LAZY_PLUS; STAR]); ("a", [STAR; Quantity.lazy 0 None]);
     ("a", [STAR; MkQuantity 1 None true true]); ("a", [MkQuantity 1 None true true; STAR]);
     ("a", [STAR; Quantity.greedy 2 (Some 3)]); ("a", [STAR; Quantity.greedy 0 (Some 3)])]%string
  = map cs ["a*"; "(?:a+?)?"; "(?:a+?)*"; "(?:a+?)*"; "(?:a+)??"; "(?>a*)"; "(?>a+)*";
            "(?:a*){2}"; "a*"]%string.
Proof. vm_compute. reflexivity. Qed.

(** * Facts *)

(** ** Sets of repetition counts *)
Abbreviation Counts := (Z -> Prop).

Definition same_counts : relation Counts := pointwise_relation Z iff.
Infix "≃" := same_counts (at level 70).
#[export] Instance same_counts_equiv : Equivalence same_counts.
Proof. unfold same_counts. apply _. Qed.

Definition sum (l : list Z) : Z := List.fold_right Z.add 0 l.

(** The counts a quantity allows, and those of some counts a unit takes, one
    after the other, as many times as the others allow. *)
Definition allowed (q : Quantity) : Counts := fun n =>
  q_lower q <= n /\ match q_upper q with Some upper => n <= upper | None => True end.
Definition repeated (unit times : Counts) : Counts := fun n =>
  exists l, Forall unit l /\ times (len l) /\ sum l = n.

(** What MRI reads of quantifiers stacked on one unit: each repeats all that
    comes before it. *)
Definition nested (qs : list Quantity) : Counts :=
  fold_left (fun counts q => repeated counts (allowed q)) qs (eq 1).

(** A quantity as the pattern can hold one. *)
Definition proper_quantity (q : Quantity) : Prop :=
  0 <= q_lower q /\ match q_upper q with Some upper => q_lower q <= upper | None => True end.

(** The decimal numerals. *)
Inductive Numeral : Str -> Z -> Prop :=
| Numeral_digit d : 0 <= d <= 9 -> Numeral [48 + d] d
| Numeral_more text n d : Numeral text n -> 0 <= d <= 9 -> Numeral (text ++ [48 + d]) (10 * n + d).

(** The quantifiers of the engine's grammar, and what each of them asks: how
    often it repeats, the most it can first unless a [?] makes it lazy. *)
Inductive Interval : Str -> Z -> option Z -> Prop :=
| Interval_optional : Interval (cs "?") 0 (Some 1)
| Interval_star : Interval (cs "*") 0 None
| Interval_plus : Interval (cs "+") 1 None
| Interval_exactly text n : Numeral text n -> Interval (cs "{" ++ text ++ cs "}") n (Some n)
| Interval_least text n : Numeral text n -> Interval (cs "{" ++ text ++ cs ",}") n None
| Interval_between lower l upper u : Numeral lower l -> Numeral upper u ->
    Interval (cs "{" ++ lower ++ cs "," ++ upper ++ cs "}") l (Some u).

Inductive Quantifies : Str -> Z -> option Z -> bool -> Prop :=
| Quantifies_greedy text lower upper : Interval text lower upper -> Quantifies text lower upper true
| Quantifies_lazy text lower upper : Interval text lower upper -> Quantifies (text ++ cs "?") lower upper false.

Definition between (lower : Z) (upper : option Z) : Counts := fun n =>
  lower <= n /\ match upper with Some upper => n <= upper | None => True end.

(** How a text of the engine's grammar reads: the unit, a group, or a quantifier
    on either. *)
Inductive Reads (unit : Str) : bool -> Str -> Counts -> Prop :=
| Reads_unit : Reads unit true unit (eq 1)
| Reads_group text counts :
    Reads unit false text counts -> Reads unit true (cs "(?:" ++ text ++ cs ")") counts
| Reads_quantified text counts token lower upper greedy :
    Reads unit true text counts -> Quantifies token lower upper greedy ->
    Reads unit false (text ++ token) (repeated counts (between lower upper))
| Reads_atom text counts : Reads unit true text counts -> Reads unit false text counts.

(** ** Quantifiers as they are written *)
Fixpoint read_on (d : Decimal.uint) (n : Z) : Z :=
  match d with
  | Decimal.Nil => n
  | Decimal.D0 d => read_on d (10 * n) | Decimal.D1 d => read_on d (10 * n + 1)
  | Decimal.D2 d => read_on d (10 * n + 2) | Decimal.D3 d => read_on d (10 * n + 3)
  | Decimal.D4 d => read_on d (10 * n + 4) | Decimal.D5 d => read_on d (10 * n + 5)
  | Decimal.D6 d => read_on d (10 * n + 6) | Decimal.D7 d => read_on d (10 * n + 7)
  | Decimal.D8 d => read_on d (10 * n + 8) | Decimal.D9 d => read_on d (10 * n + 9)
  end.

Lemma read_on_acc d : forall p, read_on d (Z.pos p) = Z.pos (Pos.of_uint_acc d p).
Proof.
  induction d; intros p; cbn [read_on Pos.of_uint_acc]; [reflexivity | ..]; rewrite <- IHd; f_equal; lia.
Qed.

Lemma read_on_of d : read_on d 0 = Z.of_N (N.of_uint d).
Proof.
  unfold N.of_uint. induction d; cbn [read_on Pos.of_uint]; [reflexivity | exact IHd | ..];
    exact (read_on_acc d _).
Qed.

Lemma read_on_numeral d : forall text n, Numeral text n ->
  Numeral (text ++ cs (NilEmpty.string_of_uint d)) (read_on d n).
Proof.
  induction d; intros text n N; cbn [read_on]; [now rewrite app_nil_r |
    rewrite <- (Z.add_0_r (10 * n)) | ..];
    (match goal with |- Numeral (_ ++ cs ?s) _ =>
       let r := eval cbn in s in
       lazymatch r with String ?a _ =>
         let c := eval vm_compute in (byte_to_Z (Ascii.byte_of_ascii a) - 48) in
         change (cs s) with ([48 + c] ++ cs (NilEmpty.string_of_uint d))
       end
     end; rewrite app_assoc; apply IHd; now apply Numeral_more).
Qed.

Lemma dec_numeral n : 0 <= n -> Numeral (dec n) n.
Proof.
  intros Hn. unfold dec, display_uint. change (map byte_to_Z (lit ?s)) with (cs s).
  assert (V : read_on (N.to_uint (Z.to_N n)) 0 = n)
    by (rewrite read_on_of, DecimalN.Unsigned.of_to; lia).
  revert V. generalize (N.to_uint (Z.to_N n)). intros d <-.
  destruct d; [now apply (Numeral_digit 0) | ..];
    (match goal with |- Numeral (cs (NilZero.string_of_uint (?D d))) _ =>
       change (NilZero.string_of_uint (D d)) with (NilEmpty.string_of_uint (D d));
       let s := eval cbn in (NilEmpty.string_of_uint (D d)) in
       lazymatch s with String ?a _ =>
         let c := eval vm_compute in (byte_to_Z (Ascii.byte_of_ascii a) - 48) in
         change (cs (NilEmpty.string_of_uint (D d))) with ([48 + c] ++ cs (NilEmpty.string_of_uint d));
         apply (read_on_numeral d [48 + c] c), Numeral_digit; lia
       end
     end).
Qed.

Lemma digits_numeral text : text <> [] -> forallb is_ascii_digit text = true -> Numeral text (dec_value text).
Proof.
  induction text as [|c text IH] using rev_ind; [congruence |]. intros _ D.
  rewrite forallb_app in D. apply andb_true_iff in D as [D Dc]. cbn in Dc. rewrite andb_true_r in Dc.
  unfold is_ascii_digit in Dc. apply andb_true_iff in Dc as [C1 C2]. apply Z.leb_le in C1, C2.
  unfold dec_value. rewrite fold_left_app. fold (dec_value text). cbn [fold_left].
  replace c with (48 + (c - 48)) at 1 by lia. replace (dec_value text * 10) with (10 * dec_value text) by lia.
  destruct text as [|b text].
  - apply (Numeral_digit (c - 48)). lia.
  - apply Numeral_more; [now apply IH | lia].
Qed.

Lemma greedy_interval lower upper : proper_quantity (Quantity.greedy lower upper) ->
  Interval (Quantity.written (Quantity.greedy lower upper)) lower upper.
Proof.
  intros [Hl Hu]. unfold Quantity.written. cbn -[Z.eqb dec cs] in *. rewrite app_nil_r.
  assert (B : forall u, lower <= u -> Interval (if lower =? u then cs "{" ++ dec lower ++ cs "}"
    else cs "{" ++ dec lower ++ cs "," ++ dec u ++ cs "}") lower (Some u)).
  { intros u L. destruct (Z.eqb_spec lower u) as [<- |]; constructor; apply dec_numeral; lia. }
  pose proof (dec_numeral lower Hl) as N.
  destruct upper as [u|]; destruct lower as [|[l|l|]|]; try lia; try exact (B u Hu); try (constructor; exact N);
    try exact Interval_star; try exact Interval_plus.
  destruct u as [|[| |]|]; try exact (B _ Hu). exact Interval_optional.
Qed.

Lemma written_quantifies q : proper_quantity q ->
  Quantifies (Quantity.written q) (q_lower q) (q_upper q) (q_greedy q).
Proof.
  intros P. pose proof (greedy_interval (q_lower q) (q_upper q) P) as W.
  destruct q as [lower upper [|] possessive]; [exact (Quantifies_greedy _ _ _ W) |].
  unfold Quantity.written in *. cbn in *. rewrite app_nil_r in W. exact (Quantifies_lazy _ _ _ W).
Qed.

(** ** Sums *)
Lemma sum_cons x l : sum (x :: l) = x + sum l.
Proof. reflexivity. Qed.

Lemma sum_app l k : sum (l ++ k) = sum l + sum k.
Proof. induction l as [|x l IH]; [reflexivity |]. cbn [app]. rewrite !sum_cons, IH. lia. Qed.

Lemma sum_ones l : Forall (eq 1) l -> sum l = len l.
Proof. induction 1 as [|x l <- F IH]; [reflexivity |]. rewrite sum_cons, len_cons, IH. lia. Qed.

#[export] Instance repeated_proper :
  Proper (same_counts ==> same_counts ==> same_counts) repeated.
Proof.
  intros S S' HS T T' HT n. unfold repeated. split; intros (l & F & K & E); exists l;
    (repeat split; [eapply Forall_impl; [intros x; apply HS | exact F] | now apply HT | exact E]).
Qed.

Lemma nested_snoc qs q : nested (qs ++ [q]) = repeated (nested qs) (allowed q).
Proof. unfold nested. now rewrite fold_left_app. Qed.

Lemma repeated_one (T : Counts) : (forall n, T n -> 0 <= n) -> repeated (eq 1) T ≃ T.
Proof.
  intros Hpos n. split.
  - intros (l & F & K & <-). now rewrite (sum_ones l F).
  - intros K. exists (List.repeat 1 (Z.to_nat n)).
    assert (F : Forall (eq 1) (List.repeat 1 (Z.to_nat n)))
      by (induction (Z.to_nat n); cbn; auto).
    specialize (Hpos n K).
    rewrite (sum_ones _ F). unfold len. rewrite repeat_length, Z2Nat.id by lia. auto.
Qed.

(** A list cut into pieces of given lengths. *)
Lemma cut_by (S : Counts) ks : forall l, Forall S l -> Forall (fun k => 0 <= k) ks -> sum ks = len l ->
  exists parts, concat parts = l /\ map len parts = ks /\ Forall (Forall S) parts.
Proof.
  induction ks as [|k ks IH]; intros l F P E.
  - exists []. destruct l; [auto | rewrite len_cons in E; cbn in E; len_lia].
  - rewrite sum_cons in E. inversion P as [|? ? Hk Pks]; subst.
    assert (Hsum : 0 <= sum ks) by (clear -Pks; induction Pks; rewrite ?sum_cons; [easy | lia]).
    destruct (IH (skipn (Z.to_nat k) l)) as (parts & C & M & A).
    + now apply Forall_drop.
    + assumption.
    + unfold len in *. rewrite length_skipn. lia.
    + exists (firstn (Z.to_nat k) l :: parts). cbn. rewrite C, M, firstn_skipn. repeat split.
      * f_equal. unfold len in *. rewrite length_firstn. lia.
      * constructor; [now apply Forall_take | assumption].
Qed.

Lemma repeated_assoc (S T K : Counts) : (forall n, T n -> 0 <= n) ->
  repeated (repeated S T) K ≃ repeated S (repeated T K).
Proof.
  intros Hpos n. split.
  - intros (l & F & HK & <-).
    assert (H : exists parts, Forall (Forall S) parts /\ Forall T (map len parts)
              /\ map sum parts = l).
    { clear HK. induction F as [|x l (p & Fp & Tp & <-) F (parts & A & B & <-)]; [now exists [] |].
      exists (p :: parts). cbn. auto. }
    destruct H as (parts & A & B & <-). exists (concat parts). repeat split.
    + now apply Forall_concat.
    + exists (map len parts). rewrite len_map in *. repeat split; auto.
      clear. induction parts; [reflexivity |]. cbn. rewrite len_app. fold (sum (map len parts)). lia.
    + clear. induction parts; [reflexivity |]. cbn [concat map]. rewrite sum_app, !sum_cons. lia.
  - intros (l & F & (ks & B & HK & E) & <-).
    destruct (cut_by S ks l F) as (parts & <- & <- & A); [| assumption |].
    + eapply Forall_impl; [exact Hpos | exact B].
    + exists (map sum parts). rewrite len_map in *. repeat split; auto.
      * clear -A B. induction parts as [|p parts IH]; cbn in *; constructor; inversion A; inversion B; subst; auto.
        exists p. auto.
      * clear. induction parts; [reflexivity |]. cbn [concat map]. rewrite sum_app, !sum_cons. lia.
Qed.

(** ** Quantities one on the other *)
Definition upto (upper : option Z) (n : Z) : Prop := match upper with Some u => n <= u | None => True end.

Lemma allowed_times q k n : proper_quantity q -> 0 <= k ->
  (exists l, Forall (allowed q) l /\ len l = k /\ sum l = n)
  <-> k * q_lower q <= n /\ (k = 0 -> n = 0) /\ upto ((fun u => k * u) <$> q_upper q) n.
Proof.
  intros [P Q] Hk. revert n. pattern k. revert k Hk. apply natlike_ind.
  - intros n. split.
    + intros (l & _ & E & <-). apply len_0 in E as ->. cbn. destruct (q_upper q); cbn; lia.
    + intros (_ & E & _). exists []. rewrite E by lia. auto.
  - intros k Hk IH n. split.
    + intros (l & F & E & <-). destruct l as [|x l]; [rewrite len_nil in E; lia |].
      inversion F as [|? ? [Hx1 Hx2] F']; subst. rewrite len_cons in E.
      destruct (proj1 (IH (sum l))) as (A & B & C); [exists l; repeat split; auto; lia |].
      rewrite sum_cons. destruct (q_upper q); simpl in *; rewrite ?Z.mul_succ_l in *; repeat split; lia.
    + intros (A & B & C).
      (* The first takes what leaves the others in range. *)
      set (x := match q_upper q with Some u => Z.min u (n - k * q_lower q) | None => if k =? 0 then n else n - k * q_lower q end).
      destruct (proj2 (IH (n - x))) as (l & F & E & S).
      * unfold x. destruct (q_upper q) as [u|]; simpl in *; [| destruct (k =? 0) eqn:?];
          rewrite ?Z.mul_succ_l in *; repeat split; nia.
      * exists (x :: l). rewrite sum_cons, len_cons, S, E. repeat split; try lia. constructor; auto.
        unfold x, allowed. destruct (q_upper q) as [u|]; simpl in *; [| destruct (k =? 0) eqn:?];
          rewrite ?Z.mul_succ_l in *; split; auto; nia.
Qed.

Lemma repeated_allowed q p n : proper_quantity q -> proper_quantity p ->
  repeated (allowed q) (allowed p) n <->
  exists k, allowed p k /\ k * q_lower q <= n /\ (k = 0 -> n = 0) /\ upto ((fun u => k * u) <$> q_upper q) n.
Proof.
  intros Hq Hp. split.
  - intros (l & F & K & E). exists (len l). split; [assumption |].
    apply allowed_times; [assumption | len_lia | eauto].
  - intros (k & K & R). destruct Hp as [Hp _]. pose proof (proj1 K) as K1.
    apply (proj2 (allowed_times q k n Hq ltac:(lia))) in R as (l & F & <- & E). exists l. auto.
Qed.

(** ** MRI's table *)

(** Its popular quantifiers as the greedy ones: up to one, any number, one or
    more. *)
Definition base (b : nat) : Quantity :=
  match b with
  | 0%nat => Quantity.greedy 0 (Some 1)
  | 1%nat => Quantity.greedy 0 None
  | _ => Quantity.greedy 1 None
  end.

Lemma popular_base q i : Quantity.popular q = Some i ->
  (i < 6)%nat /\ proper_quantity q /\ allowed q ≃ allowed (base (i mod 3)).
Proof.
  destruct q as [l u g p]. unfold Quantity.popular, proper_quantity, allowed.
  intros E.
  assert (C : (l = 0 /\ u = Some 1 /\ i = (if g then 0 else 3)%nat)
    \/ (l = 0 /\ u = None /\ i = (if g then 1 else 4)%nat)
    \/ (l = 1 /\ u = None /\ i = (if g then 2 else 5)%nat)).
  { cbn in E. destruct l as [|[]|], u as [[|[]|]|]; try discriminate; destruct g; injection E as <-; tauto. }
  destruct C as [(-> & -> & ->) | [(-> & -> & ->) | (-> & -> & ->)]]; destruct g;
    (split; [lia | split; [cbn; lia | intros n; cbn; lia]]).
Qed.

(** What one of them on another allows. *)
Definition base_on (inner outer : nat) : nat :=
  if (inner =? outer)%nat then inner else 1%nat.

Lemma base_repeated i o : (i < 3)%nat -> (o < 3)%nat ->
  repeated (allowed (base i)) (allowed (base o)) ≃ allowed (base (base_on i o)).
Proof.
  assert (P : forall b, proper_quantity (base b)) by (intros [|[|]]; unfold proper_quantity; cbn; lia).
  intros Hi Ho n. rewrite repeated_allowed by apply P. split.
  - intros (k & K & A & B & C).
    destruct i as [|[|[|]]], o as [|[|[|]]]; try lia; unfold allowed in *; cbn -[Z.mul] in *; lia.
  - intros A.
    assert (W : exists k, (k = 0 \/ k = 1 \/ k = n) /\ allowed (base o) k
      /\ k * q_lower (base i) <= n /\ (k = 0 -> n = 0) /\ upto ((fun u => k * u) <$> q_upper (base i)) n).
    { destruct i as [|[|[|]]], o as [|[|[|]]]; try lia; unfold allowed in *; cbn -[Z.mul] in *;
        destruct (decide (n = 0)); first [exists 0; lia | exists 1; lia | exists n; lia]. }
    destruct W as (k & _ & W). now exists k.
Qed.

(** What each entry of the table leaves, as one of them. *)
Definition entry_base (i : nat) (f : Fold) : option nat :=
  match f with
  | AsIs => None
  | Inner => Some (i mod 3)%nat
  | Star | LazyStar => Some 1%nat
  | LazyOptional => Some 0%nat
  | LazyOptionalPlus => Some (base_on 2 0)
  end.

Definition entry_ok (i o : nat) : bool :=
  match entry_base i (nth o (nth i FOLDS []) AsIs) with
  | Some b => (b =? base_on (i mod 3) (o mod 3))%nat
  | None => true
  end.

Lemma table_ok i o : (i < 6)%nat -> (o < 6)%nat -> entry_ok i o = true.
Proof.
  intros Hi Ho.
  assert (T : forallb (fun i => forallb (entry_ok i) (seq 0 6)) (seq 0 6) = true) by (vm_compute; reflexivity).
  rewrite forallb_forall in T. specialize (T i ltac:(apply in_seq; lia)). cbv beta in T.
  rewrite forallb_forall in T. apply T, in_seq. lia.
Qed.

Lemma allowed_nonneg q n : proper_quantity q -> allowed q n -> 0 <= n.
Proof. unfold proper_quantity, allowed. lia. Qed.

Lemma repeated_twice S p q : proper_quantity p ->
  repeated (repeated S (allowed p)) (allowed q) ≃ repeated S (repeated (allowed p) (allowed q)).
Proof. intros Hp. apply repeated_assoc. intros n. now apply allowed_nonneg. Qed.

(** An inner repeat of any number takes what an outer one could. *)
Lemma bound_keeps inner outer : proper_quantity inner -> proper_quantity outer ->
  proper_quantity (bound_by_inner_star inner outer)
  /\ repeated (allowed inner) (allowed (bound_by_inner_star inner outer))
     ≃ repeated (allowed inner) (allowed outer).
Proof.
  intros Hi Ho. unfold bound_by_inner_star.
  destruct (q_upper outer) as [u|] eqn:U; [| now split]. cbv zeta.
  match goal with |- context [if ?b then _ else _] => destruct b eqn:G end; [| now split].
  apply andb_true_iff in G as [G G3]. apply andb_true_iff in G as [G _]. apply Z.ltb_lt in G3.
  assert (B : exists b, (b = 1 \/ b = 2)%nat /\ allowed inner ≃ allowed (base b)).
  { destruct (Quantity.popular inner) as [i|] eqn:P; [| discriminate].
    destruct (popular_base _ _ P) as (_ & _ & B).
    destruct i as [|[|[|]]]; try discriminate; [exists 1%nat | exists 2%nat]; tauto. }
  destruct B as (b & Hb & B). unfold proper_quantity in Ho. rewrite U in Ho.
  set (o := MkQuantity _ _ _ _).
  assert (Po : proper_quantity o) by (unfold o, proper_quantity; cbn; lia).
  split; [assumption |]. rewrite B. intros n.
  rewrite !repeated_allowed
    by (try assumption; unfold proper_quantity; rewrite ?U; destruct Hb as [-> | ->]; cbn; lia).
  unfold allowed. rewrite U. cbn [q_lower q_upper o].
  destruct Hb as [-> | ->]; cbn -[Z.mul Z.max]; split; intros (k & K & R);
    first [exists k; lia | exists (Z.min k (Z.max (q_lower outer) 1)); lia].
Qed.

Lemma fold_of_base inner outer : fold_of inner outer <> AsIs ->
  exists i b, allowed inner ≃ allowed (base (i mod 3))
    /\ entry_base i (fold_of inner outer) = Some b
    /\ repeated (allowed inner) (allowed outer) ≃ allowed (base b).
Proof.
  unfold fold_of. destruct (Quantity.popular inner) as [i|] eqn:P; [| congruence].
  destruct (Quantity.popular outer) as [j|] eqn:Q; [| congruence]. intros E.
  destruct (popular_base _ _ P) as (I1 & _ & I3), (popular_base _ _ Q) as (J1 & _ & J3).
  pose proof (table_ok i j I1 J1) as T. unfold entry_ok in T.
  destruct (entry_base i _) as [b|] eqn:F.
  - apply Nat.eqb_eq in T as ->. exists i, (base_on (i mod 3) (j mod 3)).
    split; [exact I3 | split; [exact F |]].
    rewrite I3, J3. apply base_repeated; apply Nat.mod_upper_bound; lia.
  - destruct (nth j (nth i FOLDS []) AsIs); try discriminate. congruence.
Qed.

Lemma reads_written unit text counts q : proper_quantity q -> Reads unit true text counts ->
  Reads unit false (text ++ Quantity.written q) (repeated counts (allowed q)).
Proof. intros P R. exact (Reads_quantified _ _ _ _ _ _ _ R (written_quantifies q P)). Qed.

Lemma fold_keeps unit text counts inner outer text' q :
  proper_quantity inner -> proper_quantity outer -> Reads unit true text counts ->
  fold text inner outer = (text', q) ->
  exists counts', Reads unit true text' counts' /\ proper_quantity q
    /\ repeated counts' (allowed q) ≃ repeated (repeated counts (allowed inner)) (allowed outer).
Proof.
  intros Hi Ho R. unfold fold. cbv zeta.
  destruct (bound_keeps inner outer Hi Ho) as [Hb B].
  setoid_rewrite repeated_twice; [| assumption]. setoid_rewrite <- B. revert Hb. clear B.
  generalize (bound_by_inner_star inner outer). intros o Hb E.
  assert (D : fold_of inner o = AsIs \/ fold_of inner o <> AsIs) by (destruct (fold_of inner o); auto; now right).
  destruct D as [D | D].
  - rewrite D in E. injection E as <- <-. exists (repeated counts (allowed inner)). split.
    + rewrite (app_assoc text). now apply Reads_group, reads_written.
    + split; [assumption |]. now apply repeated_twice.
  - destruct (fold_of_base inner o D) as (i & b & I & Eb & Rb).
    assert (Same : forall r, q = r -> text' = text -> allowed r ≃ allowed (base b) -> proper_quantity r ->
      exists counts', Reads unit true text' counts' /\ proper_quantity q
        /\ repeated counts' (allowed q) ≃ repeated counts (repeated (allowed inner) (allowed o))).
    { intros r -> -> A Pr. exists counts. split; [assumption | split; [assumption |]]. now rewrite A, Rb. }
    destruct (fold_of inner o); [congruence | ..]; injection E as <- <-; injection Eb as <-;
      try (eapply Same; [reflexivity | reflexivity | reflexivity | unfold proper_quantity; cbn; lia]).
    + eapply Same; auto.
    + exists (repeated counts (allowed (base 2))). split; [| split; [unfold proper_quantity; cbn; lia |]].
      * change (cs "+)"%string) with (Quantity.written (base 2) ++ cs ")").
        rewrite (app_assoc text). apply Reads_group, reads_written; [unfold proper_quantity; cbn; lia | exact R].
      * rewrite repeated_twice by (unfold proper_quantity; cbn; lia). rewrite Rb.
        change (allowed (Quantity.lazy 0 (Some 1))) with (allowed (base 0)). now rewrite base_repeated by lia.
Qed.

Lemma write_step_keeps unit text counts q text' q' inner : proper_quantity q -> q_possessive q = false ->
  match inner with
  | Some i => proper_quantity i /\ Reads unit true text counts
  | None => text = unit /\ counts ≃ eq 1
  end ->
  write_step (text, inner) q = (text', Some q') ->
  exists counts', Reads unit true text' counts' /\ proper_quantity q'
    /\ repeated counts' (allowed q')
       ≃ repeated (match inner with Some i => repeated counts (allowed i) | None => counts end) (allowed q).
Proof.
  intros Hq Np H. unfold write_step. rewrite Np.
  destruct inner as [i|]; [destruct H as [Hi R] | destruct H as [-> H]].
  - destruct (fold text i _) as [t f] eqn:F. intros E. injection E as <- <-.
    now apply (fold_keeps unit text counts i _ t f Hi) in F.
  - intros E. injection E as <- <-. exists (eq 1). split; [constructor | split; [assumption |]]. now rewrite H.
Qed.

Lemma write_step_some s q : q_possessive q = false -> exists t q', write_step s q = (t, Some q').
Proof.
  intros Np. destruct s as [text [i|]]; unfold write_step; rewrite Np; [destruct fold |]; eauto.
Qed.

(** A stack of quantifiers none of which is possessive. *)
Definition stackable (q : Quantity) : Prop := proper_quantity q /\ q_possessive q = false.

Lemma write_steps unit qs : Forall stackable qs ->
  match fold_left write_step qs (unit, None) with
  | (text, None) => text = unit /\ nested qs ≃ eq 1
  | (text, Some q) => exists counts, Reads unit true text counts /\ proper_quantity q
      /\ repeated counts (allowed q) ≃ nested qs
  end.
Proof.
  induction qs as [|q qs IH] using rev_ind; [now intros _ |]. intros F.
  apply Forall_app in F as [F Fq]. inversion Fq as [|? ? [Hq Np] _]; subst. specialize (IH F).
  rewrite fold_left_app, nested_snoc. cbn [fold_left].
  destruct (fold_left write_step qs (unit, None)) as [text [i|]].
  - destruct IH as (counts & R & Hi & E). destruct (write_step_some (text, Some i) q Np) as (t & q' & W). rewrite W.
    destruct (write_step_keeps unit text counts q t q' (Some i) Hq Np (conj Hi R) W) as (c & A & B & C).
    exists c. split; [assumption | split; [assumption |]]. now rewrite C, E.
  - destruct IH as [-> E]. destruct (write_step_some (unit, None) q Np) as (t & q' & W). rewrite W.
    destruct (write_step_keeps unit unit (nested qs) q t q' None Hq Np (conj eq_refl E) W) as (c & A & B & C).
    exists c. auto.
Qed.

Lemma write_reads unit qs : Forall stackable qs ->
  exists counts, Reads unit false (write unit qs) counts /\ counts ≃ nested qs.
Proof.
  intros F. pose proof (write_steps unit qs F) as W. unfold write.
  destruct (fold_left write_step qs (unit, None)) as [text [q|]].
  - destruct W as (counts & R & Pq & E). exists (repeated counts (allowed q)). split; [now apply reads_written | assumption].
  - destruct W as [-> E]. exists (eq 1). split; [repeat constructor | now symmetry].
Qed.

(** A possessive quantifier closes what it stands on into a unit of its own. *)
Lemma write_possessive unit before q after : q_possessive q = true ->
  write unit (before ++ q :: after)
  = write (cs "(?>" ++ write unit (before ++ [MkQuantity (q_lower q) (q_upper q) (q_greedy q) false]) ++ cs ")") after.
Proof.
  intros P. unfold write. rewrite !fold_left_app. cbn [fold_left].
  destruct (fold_left write_step before (unit, None)) as [text inner].
  unfold write_step at 2 4. cbn [q_lower q_upper q_greedy q_possessive]. rewrite P.
  destruct inner as [i|]; [destruct (fold text i _) as [t f] |]; rewrite <- ?app_assoc; reflexivity.
Qed.
