(* ===== verification/RxFold.v ===== *)
(** Case-insensitive matching across a multi-character fold: kobako-regexp's
    [translate/fold.rs].

    What a case-insensitive run is respelled as: the texts MRI folds alike with
    it, character for character or through a multi-character fold. *)
From Stdlib Require Import String.
From S2P Require Import Prelude Text RxText.
Local Open Scope rx_scope.

Definition MULTI : list (Z * Str) := [
  (0xDF, [0x73; 0x73]); (0x130, [0x69; 0x307]); (0x149, [0x2BC; 0x6E]);
  (0x1F0, [0x6A; 0x30C]); (0x390, [0x3B9; 0x308; 0x301]); (0x3B0, [0x3C5; 0x308; 0x301]);
  (0x587, [0x565; 0x582]); (0x1E96, [0x68; 0x331]); (0x1E97, [0x74; 0x308]);
  (0x1E98, [0x77; 0x30A]); (0x1E99, [0x79; 0x30A]); (0x1E9A, [0x61; 0x2BE]);
  (0x1E9E, [0x73; 0x73]); (0x1F50, [0x3C5; 0x313]); (0x1F52, [0x3C5; 0x313; 0x300]);
  (0x1F54, [0x3C5; 0x313; 0x301]); (0x1F56, [0x3C5; 0x313; 0x342]); (0x1F80, [0x1F00; 0x3B9]);
  (0x1F81, [0x1F01; 0x3B9]); (0x1F82, [0x1F02; 0x3B9]); (0x1F83, [0x1F03; 0x3B9]);
  (0x1F84, [0x1F04; 0x3B9]); (0x1F85, [0x1F05; 0x3B9]); (0x1F86, [0x1F06; 0x3B9]);
  (0x1F87, [0x1F07; 0x3B9]); (0x1F88, [0x1F00; 0x3B9]); (0x1F89, [0x1F01; 0x3B9]);
  (0x1F8A, [0x1F02; 0x3B9]); (0x1F8B, [0x1F03; 0x3B9]); (0x1F8C, [0x1F04; 0x3B9]);
  (0x1F8D, [0x1F05; 0x3B9]); (0x1F8E, [0x1F06; 0x3B9]); (0x1F8F, [0x1F07; 0x3B9]);
  (0x1F90, [0x1F20; 0x3B9]); (0x1F91, [0x1F21; 0x3B9]); (0x1F92, [0x1F22; 0x3B9]);
  (0x1F93, [0x1F23; 0x3B9]); (0x1F94, [0x1F24; 0x3B9]); (0x1F95, [0x1F25; 0x3B9]);
  (0x1F96, [0x1F26; 0x3B9]); (0x1F97, [0x1F27; 0x3B9]); (0x1F98, [0x1F20; 0x3B9]);
  (0x1F99, [0x1F21; 0x3B9]); (0x1F9A, [0x1F22; 0x3B9]); (0x1F9B, [0x1F23; 0x3B9]);
  (0x1F9C, [0x1F24; 0x3B9]); (0x1F9D, [0x1F25; 0x3B9]); (0x1F9E, [0x1F26; 0x3B9]);
  (0x1F9F, [0x1F27; 0x3B9]); (0x1FA0, [0x1F60; 0x3B9]); (0x1FA1, [0x1F61; 0x3B9]);
  (0x1FA2, [0x1F62; 0x3B9]); (0x1FA3, [0x1F63; 0x3B9]); (0x1FA4, [0x1F64; 0x3B9]);
  (0x1FA5, [0x1F65; 0x3B9]); (0x1FA6, [0x1F66; 0x3B9]); (0x1FA7, [0x1F67; 0x3B9]);
  (0x1FA8, [0x1F60; 0x3B9]); (0x1FA9, [0x1F61; 0x3B9]); (0x1FAA, [0x1F62; 0x3B9]);
  (0x1FAB, [0x1F63; 0x3B9]); (0x1FAC, [0x1F64; 0x3B9]); (0x1FAD, [0x1F65; 0x3B9]);
  (0x1FAE, [0x1F66; 0x3B9]); (0x1FAF, [0x1F67; 0x3B9]); (0x1FB2, [0x1F70; 0x3B9]);
  (0x1FB3, [0x3B1; 0x3B9]); (0x1FB4, [0x3AC; 0x3B9]); (0x1FB6, [0x3B1; 0x342]);
  (0x1FB7, [0x3B1; 0x342; 0x3B9]); (0x1FBC, [0x3B1; 0x3B9]); (0x1FC2, [0x1F74; 0x3B9]);
  (0x1FC3, [0x3B7; 0x3B9]); (0x1FC4, [0x3AE; 0x3B9]); (0x1FC6, [0x3B7; 0x342]);
  (0x1FC7, [0x3B7; 0x342; 0x3B9]); (0x1FCC, [0x3B7; 0x3B9]); (0x1FD2, [0x3B9; 0x308; 0x300]);
  (0x1FD3, [0x3B9; 0x308; 0x301]); (0x1FD6, [0x3B9; 0x342]); (0x1FD7, [0x3B9; 0x308; 0x342]);
  (0x1FE2, [0x3C5; 0x308; 0x300]); (0x1FE3, [0x3C5; 0x308; 0x301]); (0x1FE4, [0x3C1; 0x313]);
  (0x1FE6, [0x3C5; 0x342]); (0x1FE7, [0x3C5; 0x308; 0x342]); (0x1FF2, [0x1F7C; 0x3B9]);
  (0x1FF3, [0x3C9; 0x3B9]); (0x1FF4, [0x3CE; 0x3B9]); (0x1FF6, [0x3C9; 0x342]);
  (0x1FF7, [0x3C9; 0x342; 0x3B9]); (0x1FFC, [0x3C9; 0x3B9]); (0xFB00, [0x66; 0x66]);
  (0xFB01, [0x66; 0x69]); (0xFB02, [0x66; 0x6C]); (0xFB03, [0x66; 0x66; 0x69]);
  (0xFB04, [0x66; 0x66; 0x6C]); (0xFB05, [0x73; 0x74]); (0xFB06, [0x73; 0x74]);
  (0xFB13, [0x574; 0x576]); (0xFB14, [0x574; 0x565]); (0xFB15, [0x574; 0x56B]);
  (0xFB16, [0x57E; 0x576]); (0xFB17, [0x574; 0x56D])
].

Definition SIMPLE : list (Z * Z) := [
  (0x41, 0x61); (0x46, 0x66); (0x48, 0x68); (0x49, 0x69); (0x4A, 0x6A); (0x4C, 0x6C);
  (0x4E, 0x6E); (0x53, 0x73); (0x54, 0x74); (0x57, 0x77); (0x59, 0x79); (0x17F, 0x73);
  (0x345, 0x3B9); (0x386, 0x3AC); (0x389, 0x3AE); (0x38F, 0x3CE); (0x391, 0x3B1); (0x397, 0x3B7);
  (0x399, 0x3B9); (0x3A1, 0x3C1); (0x3A5, 0x3C5); (0x3A9, 0x3C9); (0x3F1, 0x3C1); (0x535, 0x565);
  (0x53B, 0x56B); (0x53D, 0x56D); (0x544, 0x574); (0x546, 0x576); (0x54E, 0x57E); (0x552, 0x582);
  (0x1F08, 0x1F00); (0x1F09, 0x1F01); (0x1F0A, 0x1F02); (0x1F0B, 0x1F03); (0x1F0C, 0x1F04); (0x1F0D, 0x1F05);
  (0x1F0E, 0x1F06); (0x1F0F, 0x1F07); (0x1F28, 0x1F20); (0x1F29, 0x1F21); (0x1F2A, 0x1F22); (0x1F2B, 0x1F23);
  (0x1F2C, 0x1F24); (0x1F2D, 0x1F25); (0x1F2E, 0x1F26); (0x1F2F, 0x1F27); (0x1F68, 0x1F60); (0x1F69, 0x1F61);
  (0x1F6A, 0x1F62); (0x1F6B, 0x1F63); (0x1F6C, 0x1F64); (0x1F6D, 0x1F65); (0x1F6E, 0x1F66); (0x1F6F, 0x1F67);
  (0x1FBA, 0x1F70); (0x1FBE, 0x3B9); (0x1FCA, 0x1F74); (0x1FFA, 0x1F7C); (0x2126, 0x3C9)
].

Definition MAX_SPELLINGS_LEN : Z := 4096.

(** The first pair a character begins. *)
Fixpoint lookup_char {A} (c : Z) (table : list (Z * A)) : option A :=
  match table with
  | [] => None
  | (source, a) :: table => if source =? c then Some a else lookup_char c table
  end.

Definition multi_fold (c : Z) : option Str := lookup_char c MULTI.
Definition simple_fold (c : Z) : Z := default c (lookup_char c SIMPLE).

(** [chars] folded one by one is [target]. *)
Definition spells_target (rest target : Str) : bool :=
  (length target <=? length rest)%nat
  && bool_decide (map simple_fold (firstn (length target) rest) = target).

(** [joined_folds] at the start of [rest], as many characters at a time as the
    fold each joins to has. *)
Definition joined_folds (rest : Str) : list (nat * Str) :=
  fold_left (fun joined '(_, target) =>
    if spells_target rest target && negb (existsb (fun j => bool_decide (snd j = target)) joined)
    then joined ++ [(length target, target)] else joined) MULTI [].

Section Unicode.
Context `{Unicode}.

Definition literal (c : Z) : Str :=
  if alphanumeric c then [c] else cs "\x{" ++ hex c ++ cs "}".
Definition folded_text (folded : Str) : Str := concat (map literal folded).

Definition sources_of (folded : Str) : Str :=
  cs "[" ++ concat (map (fun '(source, target) =>
    if bool_decide (target = folded) then literal source else []) MULTI) ++ cs "]".

Definition alone (c : Z) : Str :=
  match multi_fold c with
  | Some folded => cs "(?:" ++ literal c ++ cs "|" ++ folded_text folded ++ cs ")"
  | None => literal c
  end.

(** Each call goes on at least one character further, so as many turns as the
    run has characters, and one more, reach its end. *)
Fixpoint write_spellings (turns : nat) (rest out : Str) : tried Str :=
  match turns with
  | O => Panicked
  | S turns =>
    if MAX_SPELLINGS_LEN <? byte_len out then Refuse (cs "too many case-insensitive spellings")
    else
      match rest with
      | [] => Done out
      | c :: rest' =>
        match joined_folds rest with
        | [] => write_spellings turns rest' (out ++ alone c)
        | joined =>
          let? out := write_spellings turns rest' (out ++ cs "(?:" ++ alone c) in
          let? out := fold_left (fun written '(n, folded) =>
            let? out := written in
            write_spellings turns (skipn n rest) (out ++ cs "|" ++ sources_of folded))
            joined (Done out) in
          Done (out ++ cs ")")
        end
      end
  end.

Fixpoint reaches_fold (rest : Str) : bool :=
  match rest with
  | [] => false
  | c :: rest' =>
    match multi_fold c with Some _ => true | None => false end
    || negb (match joined_folds rest with [] => true | _ => false end)
    || reaches_fold rest'
  end.

Definition expand_run (run : Str) : tried (option Str) :=
  if negb (reaches_fold run) then Done None
  else let? out := write_spellings (S (length run)) run [] in Done (Some out).

Definition class_folds (named : Str) : list Str :=
  fold_left (fun folds c =>
    match multi_fold c with
    | Some folded =>
      let text := folded_text folded in
      if existsb (fun f => bool_decide (f = text)) folds then folds else folds ++ [text]
    | None => folds
    end) named [].
End Unicode.

(** What the sources' own tests say. *)
Definition latin : Unicode := {|
  alphanumeric c := is_ascii_alphanumeric c || existsb (Z.eqb c) [0xDF; 0x1E9E];
  lowercase c := is_ascii_lowercase c;
  uppercase c := is_ascii_uppercase c;
  control_char c := (c <? 32) || (c =? 127);
  unicode_build := true;
|}.

Example fold_tests :
  map (expand_run (H := latin)) [cs "ss"; [0xDF]; cs "Ss"; cs "s" ++ [0xDF]; cs "abc"]
  = [Done (Some (cs "(?:ss|[" ++ [0xDF; 0x1E9E] ++ cs "])")); Done (Some (cs "(?:" ++ [0xDF] ++ cs "|ss)"));
     Done (Some (cs "(?:Ss|[" ++ [0xDF; 0x1E9E] ++ cs "])"));
     Done (Some (cs "s(?:" ++ [0xDF] ++ cs "|ss)")); Done None]
  /\ class_folds (H := latin) ([120; 0xDF; 0x1E9E]) = [cs "ss"].
Proof. vm_compute. split; reflexivity. Qed.

Example too_many_spellings :
  expand_run (H := latin) (repeat 115 40) = Refuse (cs "too many case-insensitive spellings").
Proof. vm_compute. reflexivity. Qed.

(** * Facts *)

Definition is_char (c : Z) : Prop := 0 <= c < 0x110000.

(** ** A run's spellings, as a reference definition *)
Inductive Spelled : Str -> Str -> Prop :=
| Spelled_nil : Spelled [] []
| Spelled_char c run s : Spelled run s -> Spelled (c :: run) (c :: s)
| Spelled_fold c folded run s :
    multi_fold c = Some folded -> Spelled run s -> Spelled (c :: run) (folded ++ s)
| Spelled_joined part source run s :
    (source, map simple_fold part) ∈ MULTI -> Spelled run s -> Spelled (part ++ run) (source :: s).

(** The full case folding of a text. *)
Definition full_fold (s : Str) : Str :=
  concat (map (fun c => default [simple_fold c] (multi_fold c)) s).

(** ** What a written pattern matches, before the engine's own case folding *)
Abbreviation Texts := (Str -> Prop).
Definition one_after (L K : Texts) : Texts := fun s => exists a b, s = a ++ b /\ L a /\ K b.

Section Unicode.
Context `{Unicode}.

(** A character itself, or its [\x{…}] escape. *)
Inductive Char_text : Str -> Z -> Prop :=
| Char_itself c : alphanumeric c = true -> Char_text [c] c
| Char_code digits c : from_hex digits = Some c -> Char_text (cs "\x{" ++ digits ++ cs "}") c.

#[warnings="-register-all"]
Inductive Denotes : Str -> Texts -> Prop :=
| Denotes_nil : Denotes [] (eq [])
| Denotes_char t c : Char_text t c -> Denotes t (eq [c])
| Denotes_app t L u K : Denotes t L -> Denotes u K -> Denotes (t ++ u) (one_after L K)
| Denotes_class ts chars : Forall2 Char_text ts chars ->
    Denotes (cs "[" ++ concat ts ++ cs "]") (fun s => exists c, c ∈ chars /\ s = [c])
| Denotes_group ts Ls : Forall2 Denotes ts Ls ->
    Denotes (cs "(?:" ++ join (cs "|") ts ++ cs ")") (fun s => Exists (fun L => L s) Ls).

(** ** Numbers as they are written *)
Lemma hex_digits_value turns : forall n out, 0 <= n < 16 ^ Z.of_nat turns -> n <= U32_MAX ->
  hex_value 0 (hex_digits turns n out) = hex_value n out /\ hex_digits turns n out <> []
  \/ turns = O.
Proof.
  induction turns as [|turns IH]; intros n out Hn Hm; [now right | left]. cbn [hex_digits]. cbv zeta.
  set (d := n mod 16). assert (Hd : 0 <= d < 16) by (apply Z.mod_pos_bound; lia).
  assert (Hq : 0 <= n / 16 <= U32_MAX) by (split; [apply Z.div_pos; lia |]; apply Z.div_le_upper_bound; unfold U32_MAX in *; lia).
  pose proof (Z.div_mod n 16 ltac:(lia)) as DM. fold d in DM. clearbody d.
  assert (E : forall m, 0 <= m -> m * 16 + d <= U32_MAX ->
    hex_value m ((if d <? 10 then d + 48 else d + 55) :: out) = hex_value (m * 16 + d) out).
  { intros m Hm0 Hm1. cbn [hex_value].
    assert (D : hex_digit (if d <? 10 then d + 48 else d + 55) = Some d).
    { clear -Hd. assert (C : d = 0 \/ d = 1 \/ d = 2 \/ d = 3 \/ d = 4 \/ d = 5 \/ d = 6 \/ d = 7 \/ d = 8 \/ d = 9
        \/ d = 10 \/ d = 11 \/ d = 12 \/ d = 13 \/ d = 14 \/ d = 15) by lia.
      repeat (destruct C as [-> | C]; [reflexivity |]). now subst. }
    rewrite D. cbn [mbind option_bind]. rewrite (proj2 (Z.leb_le _ _)) by assumption. reflexivity. }
  destruct (n / 16 =? 0) eqn:Z0.
  - apply Z.eqb_eq in Z0. rewrite E by (unfold U32_MAX in *; lia). split; [f_equal; lia | discriminate].
  - apply Z.eqb_neq in Z0.
    destruct (IH (n / 16) ((if d <? 10 then d + 48 else d + 55) :: out)) as [[A B] | ->].
    + rewrite Nat2Z.inj_succ, Z.pow_succ_r in Hn by lia. split; [lia |]. apply Z.div_lt_upper_bound; lia.
    + lia.
    + rewrite A, E by lia. split; [f_equal; lia | exact B].
    + cbn in Hn. assert (n / 16 = 0) by (apply Z.div_small; lia). lia.
Qed.

Lemma from_hex_hex c : is_char c -> from_hex (hex c) = Some c.
Proof.
  unfold is_char, hex. intros Hc.
  destruct (hex_digits_value 8 c []) as [[E N] | ?]; [lia | unfold U32_MAX; lia | | discriminate].
  unfold from_hex. destruct (hex_digits 8 c []) as [|x l] eqn:X; [congruence |].
  destruct (eqc "+" x) eqn:P; [| exact E].
  apply Z.eqb_eq in P. change (chr "+") with 43 in P. subst x. discriminate E.
Qed.

Lemma literal_text c : is_char c -> Char_text (literal c) c.
Proof.
  intros Hc. unfold literal. destruct (alphanumeric c) eqn:A; [now constructor |].
  apply Char_code, from_hex_hex, Hc.
Qed.

(** ** The tables *)

(** A fold's characters are all folded, and each source is looked up as itself. *)
Definition multi_row_ok (row : Z * Str) : bool :=
  let '(source, target) := row in
  bool_decide (multi_fold source = Some target) && (2 <=? length target)%nat
  && (0 <=? source) && (source <? 0x110000)
  && forallb (fun t => (simple_fold t =? t) && bool_decide (multi_fold t = None) && (0 <=? t) && (t <? 0x110000)) target.

Lemma MULTI_ok source target : (source, target) ∈ MULTI ->
  multi_fold source = Some target /\ (2 <= length target)%nat /\ is_char source
  /\ forall t, t ∈ target -> simple_fold t = t /\ multi_fold t = None /\ is_char t.
Proof.
  assert (T : forallb multi_row_ok MULTI = true) by (vm_compute; reflexivity).
  rewrite forallb_forall in T. intros Hin. apply list_elem_of_In, T in Hin. unfold multi_row_ok in Hin.
  rewrite !andb_true_iff, bool_decide_eq_true, Nat.leb_le, Z.leb_le, Z.ltb_lt, forallb_forall in Hin.
  destruct Hin as ((((A & B) & C) & D) & F). unfold is_char. repeat split; auto.
  all: apply list_elem_of_In, F in H0; rewrite !andb_true_iff, bool_decide_eq_true, Z.eqb_eq, Z.leb_le, Z.ltb_lt in H0; tauto.
Qed.

Lemma lookup_char_in {A} c (table : list (Z * A)) a : lookup_char c table = Some a -> (c, a) ∈ table.
Proof.
  induction table as [|[s b] table IH]; [discriminate |]. cbn. destruct (s =? c) eqn:E.
  - apply Z.eqb_eq in E as ->. intros [= ->]. now left.
  - intros E'. right. auto.
Qed.

Lemma multi_fold_in c folded : multi_fold c = Some folded -> (c, folded) ∈ MULTI.
Proof. apply lookup_char_in. Qed.

Lemma simple_fold_alone c : multi_fold (simple_fold c) = None -> multi_fold c = None.
Proof.
  unfold simple_fold. destruct (lookup_char c SIMPLE) as [d|] eqn:E; [| auto]. intros _.
  assert (T : forallb (fun row => bool_decide (multi_fold (fst row) = None)) SIMPLE = true) by (vm_compute; reflexivity).
  rewrite forallb_forall in T. apply lookup_char_in, list_elem_of_In, T in E. now apply bool_decide_eq_true in E.
Qed.

(** ** What joins at the start of a text *)
Definition join_step (rest : Str) (joined : list (nat * Str)) (row : Z * Str) : list (nat * Str) :=
  let '(_, target) := row in
  if spells_target rest target && negb (existsb (fun j => bool_decide (snd j = target)) joined)
  then joined ++ [(length target, target)] else joined.

Lemma join_step_spec rest rows : forall joined n target,
  (n, target) ∈ fold_left (join_step rest) rows joined <->
  (n, target) ∈ joined \/
  (n = length target /\ spells_target rest target = true /\ (exists source, (source, target) ∈ rows)
   /\ forall m, (m, target) ∉ joined).
Proof.
  induction rows as [|[source t] rows IH]; intros joined n target; cbn [fold_left].
  { split; [auto | intros [? | (_ & _ & [? H0] & _)]; [auto | now apply not_elem_of_nil in H0]]. }
  rewrite IH. unfold join_step.
  destruct (spells_target rest t) eqn:Sp; cbn [andb]; [destruct (existsb _ joined) eqn:X; cbn [negb] |].
  - apply existsb_exists in X as ([m t'] & Hin & E). apply bool_decide_eq_true in E. cbn in E. subst t'.
    apply list_elem_of_In in Hin.
    split; (intros [? | (A & B & [s0 C] & D)]; [now left | right; repeat split; auto]).
    + exists s0. now right.
    + apply elem_of_cons in C as [[= -> ->] | C]; [exfalso; eapply D; eauto | eauto].
  - rewrite elem_of_app, list_elem_of_singleton. split.
    + intros [[? | [= -> ->]] | (A & B & [s0 C] & D)]; [now left | right | right].
      * repeat split; auto; [exists source; left |]. intros m Hm.
        assert (existsb (fun j => bool_decide (snd j = t)) joined = true); [| congruence].
        apply existsb_exists. exists (m, t). split; [now apply list_elem_of_In | now apply bool_decide_eq_true].
      * repeat split; auto; [exists s0; now right |]. intros m Hm. apply (D m), elem_of_app. now left.
    + intros [? | (-> & B & [s0 C] & D)]; [now left; left |].
      destruct (decide (target = t)) as [-> | N]; [left; now right | right]. repeat split; auto.
      * apply elem_of_cons in C as [[= -> ->] | C]; [congruence | eauto].
      * intros m Hm. apply elem_of_app in Hm as [Hm | Hm]; [now apply (D m) |].
        apply list_elem_of_singleton in Hm. congruence.
  - split; (intros [? | (A & B & [s0 C] & D)]; [now left | right; repeat split; auto]).
    + exists s0. now right.
    + apply elem_of_cons in C as [[= -> ->] | C]; [congruence | eauto].
Qed.

Lemma joined_folds_spec rest n target :
  (n, target) ∈ joined_folds rest <->
  n = length target /\ (exists source, (source, target) ∈ MULTI)
  /\ exists part rest', rest = part ++ rest' /\ map simple_fold part = target.
Proof.
  change (joined_folds rest) with (fold_left (join_step rest) MULTI []). rewrite join_step_spec.
  assert (Sp : spells_target rest target = true <->
    exists part rest', rest = part ++ rest' /\ map simple_fold part = target).
  { unfold spells_target. rewrite andb_true_iff, bool_decide_eq_true, Nat.leb_le. split.
    - intros [_ E]. exists (firstn (length target) rest), (skipn (length target) rest).
      now rewrite firstn_skipn.
    - intros (part & rest' & -> & <-). rewrite length_app, length_map. split; [lia |].
      now rewrite firstn_app, firstn_all, Nat.sub_diag, app_nil_r. }
  rewrite Sp. split.
  - intros [F | ?]; [now apply not_elem_of_nil in F | tauto].
  - intros ?. right. repeat split; try tauto. intros m. apply not_elem_of_nil.
Qed.

(** A run spelt at its first character. *)
Lemma spelled_first c run s : Spelled (c :: run) s <->
  (exists s', s = c :: s' /\ Spelled run s')
  \/ (exists folded s', multi_fold c = Some folded /\ s = folded ++ s' /\ Spelled run s')
  \/ (exists n target source s', (n, target) ∈ joined_folds (c :: run) /\ (source, target) ∈ MULTI
        /\ s = source :: s' /\ Spelled (skipn n (c :: run)) s').
Proof.
  split.
  - intros X. remember (c :: run) as whole eqn:E. destruct X as [|c' run' s' X|c' folded run' s' M X|part source run' s' M X];
      [discriminate | injection E as -> -> .. |].
    + left. eauto.
    + right; left. eauto.
    + right; right. exists (length part), (map simple_fold part), source, s'. repeat split; auto.
      * apply joined_folds_spec. rewrite length_map. repeat split; eauto.
      * rewrite skipn_app, skipn_all, Nat.sub_diag. exact X.
  - intros [(s' & -> & X) | [(folded & s' & M & -> & X) | (n & target & source & s' & J & M & -> & X)]].
    + now constructor.
    + now constructor.
    + apply joined_folds_spec in J as (-> & _ & part & rest' & E & <-).
      rewrite length_map, E, skipn_app, skipn_all, Nat.sub_diag in X. rewrite E.
      now apply Spelled_joined.
Qed.

Lemma spelled_nil s : Spelled [] s <-> s = [].
Proof.
  split; [| intros ->; constructor]. intros X. remember [] as whole eqn:E. destruct X as [| | |part source run s M X];
    try discriminate; [reflexivity |].
  apply app_eq_nil in E as [-> ->]. apply MULTI_ok in M as (_ & L & _). cbn in L. lia.
Qed.

(** ** What is written *)
Definition Means (t : Str) (P : Texts) : Prop := exists L, Denotes t L /\ forall s, L s <-> P s.

Lemma means_ext t P Q : Means t P -> (forall s, P s <-> Q s) -> Means t Q.
Proof. intros (L & D & E) F. exists L. split; [assumption |]. intros s. rewrite E. apply F. Qed.

Lemma means_app t P u Q : Means t P -> Means u Q -> Means (t ++ u) (one_after P Q).
Proof.
  intros (L & D & E) (K & D' & E'). exists (one_after L K). split; [now constructor |].
  intros s. unfold one_after. setoid_rewrite E. setoid_rewrite E'. reflexivity.
Qed.

Lemma means_group ts Ps : Forall2 Means ts Ps ->
  Means (cs "(?:" ++ join (cs "|") ts ++ cs ")") (fun s => Exists (fun P => P s) Ps).
Proof.
  intros F. assert (G : exists Ls, Forall2 Denotes ts Ls /\ Forall2 (fun L P => forall s : Str, L s <-> P s) Ls Ps).
  { induction F as [|t P ts Ps (L & D & E) F (Ls & A & B)]; [exists []; auto |]. exists (L :: Ls). auto. }
  destruct G as (Ls & A & B). eexists. split; [exact (Denotes_group _ _ A) |]. intros s.
  clear A F. induction B as [|L P Ls Ps E B IH]; [rewrite !Exists_nil; reflexivity |].
  now rewrite !Exists_cons, IH, E.
Qed.

Lemma means_literal c : is_char c -> Means (literal c) (eq [c]).
Proof. intros Hc. eexists. split; [apply Denotes_char, literal_text, Hc | reflexivity]. Qed.

Lemma means_text folded : (forall c, c ∈ folded -> is_char c) -> Means (folded_text folded) (eq folded).
Proof.
  induction folded as [|c folded IH]; intros Hc.
  - exists (eq []). split; [constructor | reflexivity].
  - eapply means_ext; [apply means_app; [apply means_literal, Hc; now left | apply IH; intros d Hd; apply Hc; now right] |].
    intros s. split; [intros (a & b & -> & <- & <-); reflexivity | intros <-; exists [c], folded; auto].
Qed.

Lemma literal_texts chars : (forall c, c ∈ chars -> is_char c) -> Forall2 Char_text (map literal chars) chars.
Proof.
  induction chars as [|c chars IH]; intros Hc; constructor; [apply literal_text, Hc; now left |].
  apply IH. intros d Hd. apply Hc. now right.
Qed.

Lemma means_sources folded :
  Means (sources_of folded) (fun s => exists c, (c, folded) ∈ MULTI /\ s = [c]).
Proof.
  set (sources := omap (fun '(c, t) => if bool_decide (t = folded) then Some c else None) MULTI).
  assert (In : forall c, c ∈ sources <-> (c, folded) ∈ MULTI).
  { intros c. unfold sources. rewrite list.list_elem_of_omap. split.
    - intros ([c' t] & M & E). case_bool_decide; [| discriminate]. injection E as ->. now subst.
    - intros M. exists (c, folded). rewrite bool_decide_eq_true_2 by reflexivity. auto. }
  assert (E : sources_of folded = cs "[" ++ concat (map literal sources) ++ cs "]").
  { unfold sources_of, sources. f_equal. f_equal. clear.
    induction MULTI as [|[c t] rows IH]; [reflexivity |]. cbn [map concat omap list_omap].
    destruct (bool_decide (t = folded)); cbn [map concat]; now rewrite IH. }
  rewrite E. eexists. split; [apply Denotes_class with (chars := sources) |].
  - apply literal_texts. intros c Hc. apply In, MULTI_ok in Hc. tauto.
  - intros s. now setoid_rewrite In.
Qed.

Lemma means_alone c : is_char c -> Means (alone c) (fun s => s = [c] \/ multi_fold c = Some s).
Proof.
  intros Hc. unfold alone. destruct (multi_fold c) as [folded|] eqn:M.
  - pose proof (multi_fold_in _ _ M) as Hin. apply MULTI_ok in Hin as (_ & _ & _ & F).
    replace (cs "(?:" ++ _) with (cs "(?:" ++ join (cs "|") [literal c; folded_text folded] ++ cs ")")
      by (cbn [join]; now rewrite <- !app_assoc).
    eapply means_ext; [apply (means_group [literal c; folded_text folded] [eq [c]; eq folded]) |].
    + repeat constructor; [now apply means_literal | apply means_text; apply F].
    + intros s. rewrite !Exists_cons, Exists_nil. split; [intros [<- | [<- | []]]; auto |].
      intros [-> | [= ->]]; auto.
  - eapply means_ext; [now apply means_literal |]. intros s. split; [now left | intros [-> | ?]; congruence].
Qed.

(** ** The whole run *)

(** One alternative a joined fold adds. *)
Definition joined_step (turns : nat) (rest : Str) (written : tried Str) (j : nat * Str) : tried Str :=
  let '(n, folded) := j in
  let? out := written in write_spellings turns (skipn n rest) (out ++ cs "|" ++ sources_of folded).

Lemma joined_steps_refuse turns rest l r : fold_left (joined_step turns rest) l (Refuse r) = Refuse r.
Proof. induction l as [|[n f] l IH]; [reflexivity | apply IH]. Qed.

Lemma joined_steps_panic turns rest l : fold_left (joined_step turns rest) l Panicked = Panicked.
Proof. induction l as [|[n f] l IH]; [reflexivity | apply IH]. Qed.

Lemma write_spellings_joined turns c rest' out j joined :
  joined_folds (c :: rest') = j :: joined ->
  write_spellings (S turns) (c :: rest') out =
  if MAX_SPELLINGS_LEN <? byte_len out then Refuse (cs "too many case-insensitive spellings")
  else
    let? out := fold_left (joined_step turns (c :: rest')) (j :: joined)
      (write_spellings turns rest' (out ++ cs "(?:" ++ alone c)) in
    Done (out ++ cs ")").
Proof.
  intros J. cbn [write_spellings]. rewrite J. destruct (_ <? _); [reflexivity |].
  destruct (write_spellings turns rest' _) as [o | r |]; cbn [tbind].
  - reflexivity.
  - now rewrite joined_steps_refuse.
  - now rewrite joined_steps_panic.
Qed.

Lemma write_spellings_apart turns c rest' out : joined_folds (c :: rest') = [] ->
  write_spellings (S turns) (c :: rest') out =
  if MAX_SPELLINGS_LEN <? byte_len out then Refuse (cs "too many case-insensitive spellings")
  else write_spellings turns rest' (out ++ alone c).
Proof. intros J. cbn [write_spellings]. now rewrite J. Qed.

Definition spells (turns : nat) : Prop := forall rest out out', Forall is_char rest ->
  write_spellings turns rest out = Done out' ->
  exists t, out' = out ++ t /\ Means t (Spelled rest).

Definition joined_texts (rest : Str) (j : nat * Str) : Texts :=
  one_after (fun s => exists c, (c, snd j) ∈ MULTI /\ s = [c]) (Spelled (skipn (fst j) rest)).

Lemma joined_steps_spell turns rest : spells turns -> Forall is_char rest -> forall joined out out',
  fold_left (joined_step turns rest) joined (Done out) = Done out' ->
  exists ts, out' = out ++ concat (map (fun t => cs "|" ++ t) ts)
    /\ Forall2 Means ts (map (joined_texts rest) joined).
Proof.
  intros IH Hc. induction joined as [|[n folded] joined IHj]; intros out out' E.
  - injection E as <-. exists []. rewrite app_nil_r. auto.
  - cbn [fold_left joined_step tbind] in E.
    destruct (write_spellings turns (skipn n rest) _) as [o | r |] eqn:W.
    + destruct (IH _ _ _ (list.Forall_drop _ n _ Hc) W) as (t & -> & M).
      destruct (IHj _ _ E) as (ts & -> & F).
      exists ((sources_of folded ++ t) :: ts). split; [cbn [map concat]; now rewrite <- !app_assoc |].
      constructor; [| exact F]. apply means_app; [apply means_sources | exact M].
    + now rewrite joined_steps_refuse in E.
    + now rewrite joined_steps_panic in E.
Qed.

Lemma join_bars t ts : join (cs "|") (t :: ts) = t ++ concat (map (fun t => cs "|" ++ t) ts).
Proof.
  revert t. induction ts as [|u ts IH]; intros t; [cbn; now rewrite app_nil_r |].
  change (join (cs "|") (t :: u :: ts)) with (t ++ cs "|" ++ join (cs "|") (u :: ts)).
  rewrite IH. cbn [map concat]. now rewrite <- app_assoc.
Qed.

Lemma write_spellings_spell turns : spells turns.
Proof.
  induction turns as [|turns IH]; intros rest out out' Hc E; [discriminate |].
  destruct rest as [|c rest'].
  - cbn [write_spellings] in E. destruct (_ <? _); [discriminate |]. injection E as <-. exists [].
    rewrite app_nil_r. split; [reflexivity |]. exists (eq []). split; [constructor |].
    intros s. rewrite spelled_nil. easy.
  - inversion Hc as [|? ? Hc1 Hc']; subst. destruct (joined_folds (c :: rest')) as [|j joined] eqn:J.
    + rewrite write_spellings_apart in E by assumption. destruct (_ <? _); [discriminate |].
      destruct (IH _ _ _ Hc' E) as (t & -> & M). exists (alone c ++ t). split; [now rewrite app_assoc |].
      eapply means_ext; [apply means_app; [now apply means_alone | exact M] |].
      intros s. rewrite spelled_first, J. split.
      * intros (a & b & -> & [-> | F] & X); [left; eauto | right; left; eauto].
      * intros [(s' & -> & X) | [(f & s' & F & -> & X) | (n & t' & src & s' & Hin & _)]].
        -- exists [c], s'. auto.
        -- exists f, s'. auto.
        -- now apply not_elem_of_nil in Hin.
    + rewrite (write_spellings_joined _ _ _ _ _ _ J) in E. destruct (_ <? _); [discriminate |].
      destruct (write_spellings turns rest' _) as [o | r |] eqn:W.
      2: now rewrite joined_steps_refuse in E.
      2: now rewrite joined_steps_panic in E.
      destruct (IH _ _ _ Hc' W) as (t & -> & M).
      destruct (fold_left _ (j :: joined) _) as [o | |] eqn:F; try discriminate. injection E as <-.
      destruct (joined_steps_spell turns (c :: rest') IH Hc _ _ _ F) as (ts & -> & Fs).
      exists (cs "(?:" ++ join (cs "|") ((alone c ++ t) :: ts) ++ cs ")").
      split; [rewrite join_bars, <- !app_assoc; reflexivity |].
      eapply means_ext; [apply means_group; constructor;
        [apply means_app; [now apply means_alone | exact M] | exact Fs] |].
      intros s. rewrite Exists_cons, Exists_exists, spelled_first. rewrite J. split.
      * intros [(a & b & -> & [-> | Ff] & X) | (P & Hin & X)]; [left; eauto | right; left; eauto | right; right].
        apply in_map_iff in Hin as ([n tgt] & <- & Hin). apply list_elem_of_In in Hin.
        destruct X as (a & b & -> & (src & Hs & ->) & X). exists n, tgt, src, b. auto.
      * intros [(s' & -> & X) | [(f & s' & Ff & -> & X) | (n & tgt & src & s' & Hin & Hs & -> & X)]].
        -- left. exists [c], s'. auto.
        -- left. exists f, s'. auto.
        -- right. exists (joined_texts (c :: rest') (n, tgt)). split; [now apply in_map, list_elem_of_In |].
           exists [src], s'. eauto 6.
Qed.

(** ** Every run ends, in a pattern or a refusal *)
Lemma joined_goes_on rest n target : (n, target) ∈ joined_folds rest -> (2 <= n <= length rest)%nat.
Proof.
  intros J. apply joined_folds_spec in J as (-> & (source & M) & part & rest' & -> & <-).
  apply MULTI_ok in M as (_ & L & _). rewrite length_map, length_app in *. lia.
Qed.

Lemma write_spellings_ends turns : forall rest out, (length rest < turns)%nat ->
  write_spellings turns rest out <> Panicked.
Proof.
  induction turns as [|turns IH]; intros rest out L; [lia |]. destruct rest as [|c rest'].
  - cbn [write_spellings]. destruct (_ <? _); discriminate.
  - cbn [length] in L. destruct (joined_folds (c :: rest')) as [|j joined] eqn:J.
    + rewrite write_spellings_apart by assumption. destruct (_ <? _); [discriminate |]. apply IH. lia.
    + rewrite (write_spellings_joined _ _ _ _ _ _ J). destruct (_ <? _); [discriminate |].
      assert (G : forall l m, (forall n t, (n, t) ∈ l -> (1 <= n)%nat) -> m <> Panicked ->
        fold_left (joined_step turns (c :: rest')) l m <> Panicked).
      { induction l as [|[n f] l IHl]; intros m P Hm; [assumption |]. cbn [fold_left]. apply IHl.
        - intros n' t Hin. apply (P n' t). now right.
        - destruct m as [o | r |]; [| discriminate | congruence]. cbn [joined_step tbind]. apply IH.
          specialize (P n f ltac:(now left)). rewrite length_skipn. cbn [length]. lia. }
      specialize (G (j :: joined) (write_spellings turns rest' (out ++ cs "(?:" ++ alone c))).
      destruct (fold_left _ _ _); [discriminate | discriminate | exfalso; apply G; [| | reflexivity]].
      * intros n t Hin. rewrite <- J in Hin. apply joined_goes_on in Hin. lia.
      * apply IH. lia.
Qed.

(** ** A run no fold reaches is spelt one way *)
Lemma reaches_fold_false run : reaches_fold run = false -> forall s, Spelled run s <-> s = run.
Proof.
  induction run as [|c run IH]; intros R s; [apply spelled_nil |].
  cbn [reaches_fold] in R. rewrite !orb_false_iff in R. destruct R as [[M J] R].
  destruct (multi_fold c) as [|] eqn:F; [discriminate |].
  destruct (joined_folds (c :: run)) as [|] eqn:J'; [| discriminate].
  rewrite spelled_first, J', F. split.
  - intros [(s' & -> & X) | [(f & s' & ? & _) | (n & t & src & s' & Hin & _)]];
      [apply IH in X; [congruence | assumption] | discriminate | now apply not_elem_of_nil in Hin].
  - intros ->. left. exists run. split; [reflexivity | now apply IH].
Qed.

Lemma spelled_itself run : Spelled run run.
Proof. induction run; now constructor. Qed.

(** ** What is spelt folds as the run does *)
Lemma full_fold_app a b : full_fold (a ++ b) = full_fold a ++ full_fold b.
Proof. unfold full_fold. now rewrite map_app, concat_app. Qed.

Lemma full_fold_one c : full_fold [c] = default [simple_fold c] (multi_fold c).
Proof. unfold full_fold. cbn [map concat]. apply app_nil_r. Qed.

Lemma full_fold_folded folded : (forall t, t ∈ folded -> simple_fold t = t /\ multi_fold t = None) ->
  full_fold folded = folded.
Proof.
  induction folded as [|c folded IH]; intros F; [reflexivity |].
  destruct (F c ltac:(now left)) as [S M]. change (c :: folded) with ([c] ++ folded) at 1. rewrite full_fold_app, IH
    by (intros t Ht; apply F; now right).
  rewrite full_fold_one, M. cbn [default from_option app]. now rewrite S.
Qed.

Lemma full_fold_multi c folded : multi_fold c = Some folded -> full_fold [c] = folded.
Proof. intros M. now rewrite full_fold_one, M. Qed.

Lemma full_fold_part part : (forall t, t ∈ map simple_fold part -> multi_fold t = None) ->
  full_fold part = map simple_fold part.
Proof.
  induction part as [|c part IH]; intros F; [reflexivity |].
  change (c :: part) with ([c] ++ part). rewrite full_fold_app, IH by (intros t Ht; apply F; now right).
  rewrite full_fold_one, (simple_fold_alone c) by (apply F; now left). reflexivity.
Qed.

Lemma spelled_folds_alike run s : Spelled run s -> full_fold s = full_fold run.
Proof.
  induction 1 as [|c run s X IH|c folded run s M X IH|part source run s M X IH]; [reflexivity | ..].
  - change (c :: s) with ([c] ++ s). change (c :: run) with ([c] ++ run). now rewrite !full_fold_app, IH.
  - change (c :: run) with ([c] ++ run). rewrite !full_fold_app, IH, (full_fold_multi _ _ M). f_equal.
    apply multi_fold_in, MULTI_ok in M as (_ & _ & _ & F). apply full_fold_folded. intros t Ht. apply F in Ht. tauto.
  - change (source :: s) with ([source] ++ s). rewrite !full_fold_app, IH. f_equal.
    apply MULTI_ok in M as (M & _ & _ & F). rewrite (full_fold_multi _ _ M).
    symmetry. apply full_fold_part. intros t Ht. apply F in Ht. tauto.
Qed.
End Unicode.
