(* ===== verification/RxClasses.v ===== *)
(** What MRI's shorthand classes, word boundaries and POSIX brackets reach under
    each character set option: kobako-regexp's [translate/classes.rs], with the
    [Charset] of [translate/pieces.rs]. *)
From Stdlib Require Import String.
From S2P Require Import Prelude Text RxText RxFold.
Local Open Scope rx_scope.

Inductive Charset := Default | Ascii | UnicodeSet.
#[export] Instance charset_eq_dec : EqDecision Charset.
Proof. solve_decision. Defined.

Definition ASCII_ONLY : Str := cs "the Unicode build is needed for this class".
Definition ASCII_WORD : Str := cs "0-9A-Za-z_".
Definition ASCII_DIGIT : Str := cs "0-9".
Definition ASCII_SPACE : Str := cs "\x20\t\n\x0b\x0c\r".
Definition UNICODE_WORD : Str := cs "\p{Alphabetic}\p{M}\p{Nd}\p{Pc}\p{Join_Control}".
Definition UNICODE_WORD_LATIN1 : Str :=
  cs "\p{Alphabetic}\p{M}\p{Nd}\p{Pc}\p{Join_Control}\x{B2}\x{B3}\x{B9}\x{BC}-\x{BE}".
Definition UNICODE_DIGIT : Str := cs "\p{Nd}".
Definition ASCII_HEX_DIGIT : Str := cs "0-9A-Fa-f".
Definition GRAPH_EXCLUDED : Str := cs "\p{Zs}\p{Zl}\p{Zp}\p{Cc}\p{Cn}\p{Cs}".
Definition PRINT_EXCLUDED : Str := cs "\p{Zl}\p{Zp}\p{Cc}\p{Cn}\p{Cs}".
Definition PUNCT : Str := cs "\p{P}$+<=>\^`|~".
Definition UNICODE_SPACE : Str := cs "\t\n\x0b\x0c\r\x{85}\p{Zs}\p{Zl}\p{Zp}".
Definition DOTLESS_I : Str := cs "\x{131}".

(** [Set]: one set's items, and whether they are its complement. *)
Record Items := MkItems { items : Str; complement : bool }.
Definition set_of (items : Str) : Items := MkItems items false.
Definition all_but (items : Str) : Items := MkItems items true.
Definition class (s : Items) (negated : bool) : Str :=
  cs "[" ++ (if negb (Bool.eqb (complement s) negated) then cs "^" else []) ++ items s ++ cs "]".

Section Classes.
Context `{Unicode}.

Definition shorthand (letter : Z) (in_class : bool) (charset : Charset) : tried (option Str) :=
  let unicode := bool_decide (charset = UnicodeSet) in
  let lower := to_ascii_lowercase letter in
  let found : tried (option Str) :=
    if eqc "w" lower && negb unicode then Done (Some ASCII_WORD)
    else if eqc "d" lower && negb unicode then Done (Some ASCII_DIGIT)
    else if eqc "s" lower && negb unicode then Done (Some ASCII_SPACE)
    else if unicode && negb unicode_build && one_of "wdsWDS" letter then Refuse ASCII_ONLY
    else if eqc "w" lower && unicode then
      Done (Some (if in_class then UNICODE_WORD else UNICODE_WORD_LATIN1))
    else if eqc "d" lower && unicode then Done (Some UNICODE_DIGIT)
    else if eqc "s" lower && unicode then Done (Some UNICODE_SPACE)
    else Done None in
  let? found := found in
  let negated := is_ascii_uppercase letter in
  Done (items ← found;
        Some (if in_class && negb negated then items else class (set_of items) negated)).

Definition is_negated_case_bracket (name : Str) (negated ignore_case : bool) : bool :=
  ignore_case && negated && (text_is "lower" name || text_is "upper" name).

Definition is_ascii_posix_bracket (name : Str) (charset : Charset) : bool :=
  bool_decide (charset = Ascii) || text_is "ascii" name || text_is "xdigit" name.

Definition is_unfolded_posix_bracket (name : Str) (negated : bool) (charset : Charset)
    (ignore_case : bool) : bool :=
  is_ascii_posix_bracket name charset || is_negated_case_bracket name negated ignore_case.

Definition unshared_folds (chosen partner : Z -> bool) : Str :=
  concat (map (fun '(source, folded) =>
    let shared := existsb (fun '(other, other_folded) =>
      partner other && bool_decide (other_folded = folded)) MULTI in
    if chosen source && negb shared then cs "\x{" ++ hex source ++ cs "}" else []) MULTI).

Definition negated_case_folded (lower : bool) : Str :=
  let case_ c := if lower then lowercase c else uppercase c in
  let '(class, exceptions) :=
    if lower then
      (cs "[^\p{Lowercase}&&\P{Changes_When_Uppercased}]",
       unshared_folds case_ (fun c => negb (case_ c)) ++ DOTLESS_I)
    else
      (cs "[^\p{Uppercase}&&\P{Changes_When_Lowercased}]",
       unshared_folds case_ (fun c => negb (case_ c))) in
  cs "[" ++ class ++ cs "&&[^" ++ exceptions ++ cs "]]".

Definition is_ascii_shorthand (letter : Z) (charset : Charset) : bool :=
  negb (bool_decide (charset = UnicodeSet)) && one_of "wdsWDS" letter.

Definition word_boundary (letter : Z) (charset : Charset) : tried Str :=
  if bool_decide (charset = Ascii) then
    let word := cs "[" ++ ASCII_WORD ++ cs "]" in
    Done (if eqc "b" letter then
            cs "(?:(?<=" ++ word ++ cs ")(?!" ++ word ++ cs ")|(?<!" ++ word ++ cs ")(?=" ++ word ++ cs "))"
          else
            cs "(?:(?<=" ++ word ++ cs ")(?=" ++ word ++ cs ")|(?<!" ++ word ++ cs ")(?!" ++ word ++ cs "))")
  else if negb unicode_build then Refuse (cs "a word boundary needs the Unicode build")
  else Done (cs "\" ++ [letter]).

Definition property (name : Str) (negated : bool) : option Str :=
  let name := map to_ascii_lowercase (List.filter (fun c => negb (one_of "_ -" c)) name) in
  let set :=
    if text_is "ascii" name then Some (set_of (cs "\x00-\x7F"))
    else if text_is "xdigit" name then Some (set_of ASCII_HEX_DIGIT)
    else if negb unicode_build then None
    else if text_is "graph" name then Some (all_but GRAPH_EXCLUDED)
    else if text_is "print" name then Some (all_but PRINT_EXCLUDED)
    else if text_is "xposixpunct" name then Some (set_of PUNCT)
    else if text_is "unknown" name || text_is "zzzz" name then Some (set_of (cs "\p{Cn}\p{Co}"))
    else None in
  (fun s => class s negated) <$> set.

Definition posix_bracket (name : Str) (negated : bool) (charset : Charset) (ignore_case : bool)
  : tried Str :=
  if is_ascii_posix_bracket name charset then
    let one_case := text_is "lower" name || text_is "upper" name in
    Done (match ignore_case && one_case, negated with
          | true, true => cs "[\x{0}-\x{10FFFF}]"
          | true, false => cs "[[:alpha:]]"
          | false, true => cs "[[:^" ++ name ++ cs ":]]"
          | false, false => cs "[[:" ++ name ++ cs ":]]"
          end)
  else if negb unicode_build then Refuse ASCII_ONLY
  else if is_negated_case_bracket name negated ignore_case then
    Done (negated_case_folded (text_is "lower" name))
  else
    let set :=
      if text_is "alnum" name then set_of (cs "\p{Alphabetic}\p{Nd}")
      else if text_is "alpha" name then set_of (cs "\p{Alphabetic}")
      else if text_is "blank" name then set_of (cs "\p{Zs}\t")
      else if text_is "cntrl" name then set_of (cs "\p{Cc}")
      else if text_is "digit" name then set_of UNICODE_DIGIT
      else if text_is "graph" name then all_but GRAPH_EXCLUDED
      else if text_is "lower" name then set_of (cs "\p{Lowercase}")
      else if text_is "print" name then all_but PRINT_EXCLUDED
      else if text_is "punct" name then set_of PUNCT
      else if text_is "space" name then set_of UNICODE_SPACE
      else if text_is "upper" name then set_of (cs "\p{Uppercase}")
      else set_of UNICODE_WORD in
    Done (class set negated).
End Classes.
