(* ===== verification/RxPieces.v ===== *)
(** A pattern's source read the way MRI does: kobako-regexp's
    [translate/pieces.rs].

    Its frames are held with the innermost apart from the ones around it, as the
    outermost is never closed.

    How kobako-regexp's reader goes through a source: each piece is past one
    character or more, stands where its kind can stand, and leaves the frames its
    group's settings are held in as its kind says. *)
From Stdlib Require Import String.
From S2P Require Import Prelude Text RxText RxFold RxClasses.

Inductive Piece :=
| PText (text : Str)
| PComment (text : Str)
| POpen (text : Str)
| PClose
| PClassOpen (text : Str)
| PClassText (text : Str)
| PClassClose
| PQuantifier (text : Str)
| PInterval (lower : Str) (upper : option Str)
| PLiteralBrace
| POptions (letters : Str) (scoped : bool)
| PEscape (letter : Z) (in_class : bool) (charset : Charset)
| PChar (value : Z) (in_class : bool)
| PCodePoints (body : Str) (in_class : bool)
| PProperty (text name : Str) (negated in_class : bool)
| PPosixBracket (name : Str) (negated : bool) (charset : Charset)
| PPlainGroup (in_negative_look_behind : bool)
| PNamedGroup (text name : Str)
| PNumberedReference (text : Str)
| PNamedReference (text : Str) (kind : Z) (name : Str)
| PNumberedCondition (text : Str)
| PNamedCondition (text name : Str)
| PRefused (reason : Str).

Definition p_literal (text : Str) (in_class : bool) : Piece :=
  if in_class then PClassText text else PText text.

Inductive LookBehind := Outside | Positive | Negative.
#[export] Instance look_behind_eq_dec : EqDecision LookBehind.
Proof. solve_decision. Defined.

Definition LOOK_BEHIND_REFUSAL : Str := cs "invalid pattern in look-behind".
Definition UNDEFINED_OPTION : Str := cs "undefined group option".

Record Frame := MkFrame {
  extended : bool;
  ignore_case : bool;
  charset : Charset;
  look_behind : LookBehind;
}.

Record Pieces := MkPieces {
  rest : Str;
  class_depth : nat;
  frame : Frame;
  outer_frames : list Frame;
  capture_count : Z;
}.

Definition pieces_new (source : Str) (extended : bool) (capture_count : Z) : Pieces :=
  MkPieces source 0 (MkFrame extended false Default Outside) [] capture_count.

Definition with_frame (f : Frame) (p : Pieces) : Pieces :=
  MkPieces (rest p) (class_depth p) f (outer_frames p) (capture_count p).
Definition with_class_depth (n : nat) (p : Pieces) : Pieces :=
  MkPieces (rest p) n (frame p) (outer_frames p) (capture_count p).
Definition set_ignore_case (b : bool) (f : Frame) : Frame :=
  MkFrame (extended f) b (charset f) (look_behind f).
Definition set_extended (b : bool) (f : Frame) : Frame :=
  MkFrame b (ignore_case f) (charset f) (look_behind f).
Definition set_charset (c : Charset) (f : Frame) : Frame :=
  MkFrame (extended f) (ignore_case f) c (look_behind f).
Definition set_look_behind (l : LookBehind) (f : Frame) : Frame :=
  MkFrame (extended f) (ignore_case f) (charset f) l.

Definition ignoring_case (b : bool) (p : Pieces) : Pieces :=
  with_frame (set_ignore_case b (frame p)) p.
Definition ignores_case (p : Pieces) : bool := ignore_case (frame p).

(** [take]: what is read, and the reader past it. *)
Definition taken (n : nat) (p : Pieces) : Str := firstn n (rest p).
Definition past (n : nat) (p : Pieces) : Pieces :=
  MkPieces (skipn n (rest p)) (class_depth p) (frame p) (outer_frames p) (capture_count p).

Definition open_frame (p : Pieces) : Pieces :=
  MkPieces (rest p) (class_depth p) (frame p) (frame p :: outer_frames p) (capture_count p).
Definition close_frame (p : Pieces) : Pieces :=
  match outer_frames p with
  | f :: fs => MkPieces (rest p) (class_depth p) f fs (capture_count p)
  | [] => p
  end.

(** ** What stands at the start of a text *)

(** The name in [<name>] or ['name'], with the length the delimiters span. *)
Definition read_delimited (text : Str) : option (Str * nat) :=
  match text with
  | [] => None
  | c :: inner =>
    close ← (if eqc "<" c then Some (chr ">") else if eqc "'" c then Some (chr "'") else None);
    n ← find_char (Z.eqb close) inner;
    Some (firstn n inner, (n + 2)%nat)
  end.

Definition escape_has_meaning (letter : Z) (in_class : bool) (follow : Str) : bool :=
  if one_of "kg" letter then
    negb in_class && match read_delimited follow with Some _ => true | None => false end
  else if one_of "pP" letter then begins "{" follow
  else if in_class then one_of "abdefhnrstuvwxDHSW" letter
  else one_of "abdefhnrstuvwxzABDGHKRSWXZ" letter.

Definition simple_escape (letter : Z) : option Z :=
  if eqc "\" letter then Some 92
  else if eqc "n" letter then Some 10
  else if eqc "t" letter then Some 9
  else if eqc "r" letter then Some 13
  else if eqc "f" letter then Some 0x0c
  else if eqc "v" letter then Some 0x0b
  else if eqc "a" letter then Some 0x07
  else if eqc "e" letter then Some 0x1b
  else None.

Definition POSIX_BRACKETS : list Str := map cs [
  "alnum"; "alpha"; "ascii"; "blank"; "cntrl"; "digit"; "graph"; "lower"; "print"; "punct";
  "space"; "upper"; "word"; "xdigit"]%string.

(** [strip_prefix('^')], and whether there was one. *)
Definition strip_caret (body : Str) : bool * Str :=
  match strip (cs "^") body with Some name => (true, name) | None => (false, body) end.

Definition read_posix_bracket (text : Str) : option (Str * nat) :=
  rest ← strip (cs "[:") text;
  close ← find_str (cs ":]") rest;
  let body := firstn close rest in
  if forallb is_ascii_alphabetic (snd (strip_caret body)) then Some (body, (close + 4)%nat) else None.

Definition are_known_options (letters : Str) : bool :=
  let '(on, off) := default (letters, []) (split_once (chr "-") letters) in
  forallb (one_of "imxdau") on && forallb (one_of "imx-") off.

Definition read_interval (text : Str) : option (Str * option Str * nat) :=
  close ← find_char (eqc "}") text;
  let body := slice 1 close text in
  let '(lower, upper) :=
    match split_once (chr ",") body with
    | Some (lower, upper) => (lower, Some upper)
    | None => (body, None)
    end in
  let digits := forallb is_ascii_digit in
  let bounded := negb (bool_decide (lower = []))
    || match upper with Some upper => negb (bool_decide (upper = [])) | None => false end in
  if bounded && digits lower && match upper with Some upper => digits upper | None => true end
  then Some (lower, upper, S close) else None.

Definition read_option_letters (option_ : Str) : option Str :=
  n ← find_char (fun c => negb (is_ascii_alphanumeric c) && negb (eqc "-" c)) option_;
  close ← nth_error option_ n;
  if eqc ":" close || (eqc ")" close && (0 <? n)%nat) then Some (firstn n option_) else None.

Fixpoint comment_len (escaped : bool) (text : Str) : nat :=
  match text with
  | [] => 0
  | c :: text =>
    S (if eqc "\" c then comment_len (negb escaped) text
       else if eqc ")" c && negb escaped then 0%nat
       else comment_len false text)
  end.

(** ** Escapes *)
Section Pieces.
Implicit Types p : Pieces.

(** [\cX], [\C-X] or [\M-…], the backslash unread. *)
Definition control p (letter : Z) (in_class : bool) : Piece * Pieces :=
  let prefix : nat + Str :=
    if eqc "c" letter then inl 2%nat
    else if eqc "C" letter then
      if begins "-" (skipn 2 (rest p)) then inl 3%nat else inr (cs "too short control escape")
    else inr (cs "too short meta escape") in
  match prefix with
  | inr reason => (PRefused reason, past 2 p)
  | inl prefix =>
    let named : option (Z * nat) :=
      match skipn prefix (rest p) with
      | c :: escaped :: _ =>
        if eqc "\" c then (fun b => (b, 2%nat)) <$> simple_escape escaped
        else if is_ascii_char c then Some (c, 1%nat) else None
      | [c] => if is_ascii_char c then Some (c, 1%nat) else None
      | [] => None
      end in
    match named with
    | Some (b, n) => (PChar (Z.land b 0x1f) in_class, past (prefix + n) p)
    | None => (PRefused (cs "too short control escape"), past prefix p)
    end
  end.

Definition octal_value (s : Str) : Z := List.fold_left (fun n c => n * 8 + (c - 48)) s 0.

(** [None] leaves a backreference. *)
Definition octal p (in_class : bool) : option (Piece * Pieces) :=
  let after := skipn 1 (rest p) in
  let decimal_len := default (length after) (find_char (fun c => negb (is_ascii_digit c)) after) in
  let number := default U32_MAX (parse_digits U32_MAX (firstn decimal_len after)) in
  let is_reference :=
    negb in_class && negb (begins "0" after) && ((number <=? 9) || (number <=? capture_count p)) in
  if is_reference then None
  else
    let first := firstn (Nat.min decimal_len 3) after in
    let octal_len := default (length first) (find_char (fun c => negb ((48 <=? c) && (c <=? 55))) first) in
    if (octal_len =? 0)%nat then
      Some (p_literal (slice 1 2 (rest p)) in_class, past 2 p)
    else
      let value := octal_value (firstn octal_len after) in
      Some (if value <=? 0x7f then PChar value in_class
            else if value <=? 0xff then PRefused (cs "invalid multibyte escape")
            else PRefused (cs "invalid escape code"),
            past (1 + octal_len) p).

(** [\p{…}]; [None] where it names none. *)
Definition escape_property p (letter : Z) (in_class : bool) : option (Piece * Pieces) :=
  let after := skipn 1 (rest p) in
  if one_of "pP" letter && begins "{" (skipn 1 after) then
    close ← find_char (eqc "}") after;
    let text := taken (close + 2) p in
    let '(caret, name) := strip_caret (slice 3 (length text - 1) text) in
    Some (PProperty text name (negb (Bool.eqb caret (eqc "P" letter))) in_class, past (close + 2) p)
  else None.

(** [\u{…}], its brace opening no interval. *)
Definition escape_code_points p (letter : Z) (in_class : bool) : option (Piece * Pieces) :=
  let after := skipn 1 (rest p) in
  if eqc "u" letter && begins "{" (skipn 1 after) then
    close ← find_char (eqc "}") after;
    let text := taken (close + 2) p in
    let body := trim (slice 3 (length text - 1) text) in
    Some (if existsb is_whitespace body then PCodePoints body in_class else p_literal text in_class,
          past (close + 2) p)
  else None.

Definition digits_len (after : Str) : nat :=
  default (length after) (find_char (fun c => negb (is_ascii_digit c)) after).

(** [\k<…>], [\g<…>] and a numbered reference, outside a class. *)
Definition escape_reference p (letter : Z) : option (Piece * Pieces) :=
  let after := skipn 1 (rest p) in
  let in_look_behind := negb (bool_decide (look_behind (frame p) = Outside)) in
  let named : option (Piece * Pieces) :=
    if one_of "kg" letter then
      '(name, n) ← read_delimited (skipn 1 after);
      Some (if eqc "k" letter && in_look_behind then PRefused LOOK_BEHIND_REFUSAL
            else PNamedReference (taken (2 + n) p) letter name, past (2 + n) p)
    else None in
  match named with
  | Some read => Some read
  | None =>
    if is_ascii_digit letter then
      let n := (1 + digits_len after)%nat in
      Some (if in_look_behind then PRefused LOOK_BEHIND_REFUSAL else PNumberedReference (taken n p),
            past n p)
    else None
  end.

(** A digit that is no reference, or a letter that means itself. *)
Definition escape_itself p (letter : Z) (in_class : bool) : option (Piece * Pieces) :=
  if is_ascii_digit letter then octal p in_class
  else if negb (is_ascii_char letter)
          || (is_ascii_alphabetic letter
              && negb (escape_has_meaning letter in_class (skipn 2 (rest p))))
  then Some (p_literal [letter] in_class, past 2 p)
  else None.

Definition escape p : Piece * Pieces :=
  match skipn 1 (rest p) with
  | [] => (PText (taken 1 p), past 1 p)
  | letter :: follow =>
    let in_class := (0 <? class_depth p)%nat in
    if eqc "x" letter && begins "{" follow then (PRefused (cs "invalid hex escape"), past 2 p)
    else
      match escape_property p letter in_class with
      | Some read => read
      | None =>
        match escape_code_points p letter in_class with
        | Some read => read
        | None =>
          if one_of "cCM" letter then control p letter in_class
          else
            match escape_itself p letter in_class with
            | Some read => read
            | None =>
              match (if in_class then None else escape_reference p letter) with
              | Some read => read
              | None => (PEscape letter in_class (charset (frame p)), past 2 p)
              end
            end
        end
      end
  end.

(** ** Groups *)
Definition option_step (s : bool * Frame) (letter : Z) : bool * Frame :=
  let '(setting, f) := s in
  if eqc "-" letter then (false, f)
  else if eqc "x" letter then (setting, set_extended setting f)
  else if eqc "i" letter then (setting, set_ignore_case setting f)
  else if eqc "d" letter then (setting, set_charset Default f)
  else if eqc "a" letter then (setting, set_charset Ascii f)
  else if eqc "u" letter then (setting, set_charset UnicodeSet f)
  else (setting, f).

Definition apply_options p (letters : Str) : Piece * Pieces :=
  let scoped := match nth_error (rest p) (2 + length letters) with Some c => eqc ":" c | None => false end in
  let p := if scoped then open_frame p else p in
  if negb (are_known_options letters) then
    (PRefused UNDEFINED_OPTION, past (3 + length letters) p)
  else
    let '(_, f) := fold_left option_step letters (true, frame p) in
    (POptions letters scoped, past (3 + length letters) (with_frame f p)).

(** A look-around, an atomic group, or any other opening. *)
Definition group_open p (option_ : Str) : Piece * Pieces :=
  let outer := look_behind (frame p) in
  let p := open_frame p in
  let opener : Str :=
    default [] (List.find (fun o => match strip o option_ with Some _ => true | None => false end)
      (map cs ["<="; "<!"; "="; "!"; ">"]%string)) in
  let n := (2 + length opener)%nat in
  if text_is "<=" opener && bool_decide (outer = Outside) then
    (POpen (taken n p), past n (with_frame (set_look_behind Positive (frame p)) p))
  else if text_is "<!" opener then
    (POpen (taken n p), past n (with_frame (set_look_behind Negative (frame p)) p))
  else if (text_is "=" opener || text_is "!" opener || text_is ">" opener)
          && negb (bool_decide (outer = Outside)) then
    (PRefused LOOK_BEHIND_REFUSAL, past n p)
  else (POpen (taken n p), past n p).

Definition group_condition p (option_ : Str) : option (Piece * Pieces) :=
  match strip (cs "(") option_ with
  | None => None
  | Some inner =>
    if match inner with c :: _ => is_ascii_digit c | [] => false end then
      let n := match find_char (eqc ")") option_ with
               | Some close => (close + 3)%nat
               | None => length (rest p)
               end in
      let p := open_frame p in
      Some (PNumberedCondition (taken n p), past n p)
    else
      '(name, n) ← read_delimited inner;
      if begins ")" (skipn n inner) then
        let p := open_frame p in
        Some (PNamedCondition (taken (4 + n) p) name, past (4 + n) p)
      else None
  end.

Definition group_named p (option_ : Str) : option (Piece * Pieces) :=
  if begins "<=" option_ || begins "<!" option_ then None
  else
    '(name, n) ← read_delimited option_;
    let text := taken (2 + n) p in
    let in_negative := bool_decide (look_behind (frame p) = Negative) in
    let p := open_frame (past (2 + n) p) in
    Some (if in_negative then PRefused LOOK_BEHIND_REFUSAL
          else if match name with c :: _ => is_ascii_digit c | [] => false end
          then PRefused (cs "invalid group name")
          else PNamedGroup text name, p).

Definition group p : Piece * Pieces :=
  match strip (cs "?") (skipn 1 (rest p)) with
  | None =>
    let p := open_frame (past 1 p) in
    (PPlainGroup (bool_decide (look_behind (frame p) = Negative)), p)
  | Some option_ =>
    if begins "#" option_ then
      let n := comment_len false (rest p) in (PComment (taken n p), past n p)
    else if begins "P" option_ then (PRefused UNDEFINED_OPTION, past 1 p)
    else if begins "~" option_ then
      (PRefused (cs "the absence operator is not supported"), past 1 p)
    else
      match group_condition p option_ with
      | Some read => read
      | None =>
        match group_named p option_ with
        | Some read => read
        | None =>
          match read_option_letters option_ with
          | Some letters => apply_options p letters
          | None => group_open p option_
          end
        end
      end
  end.

(** ** [Iterator::next] *)
Definition brace p : Piece * Pieces :=
  match read_interval (rest p) with
  | Some (lower, upper, n) => (PInterval lower upper, past n p)
  | None => (PLiteralBrace, past 1 p)
  end.

Definition class_piece p (first : Z) : Piece * Pieces :=
  match read_posix_bracket (rest p) with
  | Some (body, n) =>
    let '(negated, name) := strip_caret body in
    (if existsb (fun b => bool_decide (b = name)) POSIX_BRACKETS
     then PPosixBracket name negated (charset (frame p))
     else PRefused (cs "invalid POSIX bracket type"), past n p)
  | None =>
    let depth := if eqc "[" first then S (class_depth p)
                 else if eqc "]" first then Nat.pred (class_depth p) else class_depth p in
    let p := with_class_depth depth p in
    if (depth =? 0)%nat then (PClassClose, past 1 p) else (PClassText (taken 1 p), past 1 p)
  end.

Definition next p : option (Piece * Pieces) :=
  match rest p with
  | [] => None
  | first :: _ =>
    Some (
      if eqc "\" first then escape p
      else if (0 <? class_depth p)%nat then class_piece p first
      else if eqc "[" first then (PClassOpen (taken 1 p), past 1 (with_class_depth 1 p))
      else if eqc "(" first then group p
      else if eqc ")" first then (PClose, past 1 (close_frame p))
      else if eqc "{" first then brace p
      else if one_of "?*+" first then (PQuantifier (taken 1 p), past 1 p)
      else if eqc "#" first && extended (frame p) then
        let n := default (length (rest p)) (S <$> find_char (Z.eqb 10) (rest p)) in
        (PComment (taken n p), past n p)
      else if extended (frame p) && is_ascii_whitespace first then (PComment (taken 1 p), past 1 p)
      else (PText (taken 1 p), past 1 p))
  end.

(** The pieces in turn, each past one character or more of the source. *)
Fixpoint read_all (turns : nat) p : list Piece :=
  match turns with
  | O => []
  | S turns => match next p with
               | Some (piece, p) => piece :: read_all turns p
               | None => []
               end
  end.
Definition pieces p : list Piece := read_all (length (rest p)) p.
End Pieces.

(** * Facts *)

(** ** What one piece leaves *)
Definition goes_on (p p' : Pieces) : Prop := exists n, (1 <= n)%nat /\ rest p' = skipn n (rest p).

Definition same_frames (p p' : Pieces) : Prop :=
  frame p' = frame p /\ outer_frames p' = outer_frames p.
Definition same_place (p p' : Pieces) : Prop := class_depth p' = class_depth p /\ same_frames p p'.

(** A group's settings, its look-behind apart. *)
Definition settings (f : Frame) : bool * bool * Charset := (extended f, ignore_case f, charset f).

Definition opened (p p' : Pieces) : Prop :=
  class_depth p = O /\ class_depth p' = O /\ outer_frames p' = frame p :: outer_frames p.

Definition leaves (p : Pieces) (piece : Piece) (p' : Pieces) : Prop :=
  match piece with
  | PRefused _ => True
  | PClassOpen text => class_depth p = O /\ class_depth p' = 1%nat /\ same_frames p p' /\ length text = 1%nat
  | PClassText _ => (0 < class_depth p)%nat /\ (0 < class_depth p')%nat /\ same_frames p p'
  | PClassClose => (0 < class_depth p)%nat /\ class_depth p' = O /\ same_frames p p'
  | PPosixBracket _ _ _ => (0 < class_depth p)%nat /\ same_place p p'
  | PEscape _ in_class _ | PChar _ in_class | PCodePoints _ in_class | PProperty _ _ _ in_class =>
    in_class = (0 <? class_depth p)%nat /\ same_place p p'
  | PText _ => (class_depth p = O \/ rest p' = []) /\ same_place p p'
  | POptions _ true => opened p p'
  | POpen _ | PPlainGroup _ | PNamedGroup _ _ | PNumberedCondition _ | PNamedCondition _ _ =>
    opened p p' /\ settings (frame p') = settings (frame p)
  | POptions _ false => class_depth p = O /\ class_depth p' = O /\ outer_frames p' = outer_frames p
  | PClose =>
    class_depth p = O /\ class_depth p' = O /\
    match outer_frames p with
    | f :: fs => frame p' = f /\ outer_frames p' = fs
    | [] => same_frames p p'
    end
  | PComment _ | PQuantifier _ | PInterval _ _ | PLiteralBrace | PNumberedReference _
  | PNamedReference _ _ _ => class_depth p = O /\ same_place p p'
  end.

Definition steps p (read : Piece * Pieces) : Prop := goes_on p (snd read) /\ leaves p (fst read) (snd read).

Lemma past_goes_on n p q : rest q = rest p -> (1 <= n)%nat -> goes_on p (past n q).
Proof. intros E N. exists n. cbn. now rewrite E. Qed.

Lemma past_place n p : same_place p (past n p).
Proof. repeat split. Qed.

(** A reading that only goes on, of a piece that leaves the place as it is. *)
Ltac step_past :=
  split; [apply past_goes_on; [reflexivity | lia] | cbn; repeat split; auto].

Lemma refused_steps p q reason n : rest q = rest p -> (1 <= n)%nat -> steps p (PRefused reason, past n q).
Proof. intros E N. split; [now apply past_goes_on | exact I]. Qed.

Ltac refused := apply refused_steps; [reflexivity | lia].

Section In.
Variable p : Pieces.
Let in_class := (0 <? class_depth p)%nat.

(** Text inside a class is the class's. *)
Lemma literal_steps text n : (1 <= n)%nat -> steps p (p_literal text in_class, past n p).
Proof.
  intros N. unfold p_literal, in_class. destruct (0 <? class_depth p)%nat eqn:E; step_past.
  1,2: now apply Nat.ltb_lt.
  left. apply Nat.ltb_ge in E. lia.
Qed.

Lemma control_steps letter : steps p (control p letter in_class).
Proof.
  unfold control. destruct (if eqc "c" letter then _ else _) as [prefix | reason] eqn:P; [| refused].
  assert (N : (1 <= prefix)%nat) by (repeat case_match; simplify_eq; lia). clear P.
  match goal with |- steps p (match ?named with _ => _ end) => destruct named as [[b n]|] end.
  - step_past.
  - refused.
Qed.

Lemma octal_steps read : octal p in_class = Some read -> steps p read.
Proof.
  unfold octal. cbv zeta. destruct (negb in_class && _ && _); [discriminate |].
  destruct (_ =? 0)%nat; intros [= <-]; [now apply literal_steps; lia |].
  destruct (_ <=? 0x7f); [step_past |]. destruct (_ <=? 0xff); refused.
Qed.

Lemma escape_property_steps letter read : escape_property p letter in_class = Some read -> steps p read.
Proof.
  unfold escape_property. cbv zeta. destruct (_ && _); [| discriminate].
  destruct (find_char _ _) as [close|]; cbn [mbind option_bind]; [| discriminate].
  destruct (strip_caret _) as [caret name]. intros [= <-]. step_past.
Qed.

Lemma escape_code_points_steps letter read : escape_code_points p letter in_class = Some read -> steps p read.
Proof.
  unfold escape_code_points. cbv zeta. destruct (_ && _); [| discriminate].
  destruct (find_char _ _) as [close|]; cbn [mbind option_bind]; [| discriminate].
  intros [= <-]. destruct (existsb _ _); [step_past | apply literal_steps; lia].
Qed.

Lemma escape_itself_steps letter read : escape_itself p letter in_class = Some read -> steps p read.
Proof.
  unfold escape_itself. destruct (is_ascii_digit letter); [apply octal_steps |].
  destruct (_ || _); [| discriminate]. intros [= <-]. apply literal_steps. lia.
Qed.

Lemma escape_reference_steps letter read : class_depth p = O ->
  escape_reference p letter = Some read -> steps p read.
Proof.
  intros Z. unfold escape_reference. cbv zeta.
  match goal with |- match ?named with _ => _ end = _ -> _ => destruct named as [r|] eqn:N end.
  - intros [= <-]. destruct (one_of "kg" letter); [| discriminate].
    destruct (read_delimited _) as [[name n]|]; [| discriminate]. cbn in N. injection N as <-.
    destruct (_ && _); [refused | step_past].
  - destruct (is_ascii_digit letter); [| discriminate]. intros [= <-].
    destruct (negb _); [refused | step_past].
Qed.
End In.

Lemma escape_steps p c text : rest p = c :: text -> steps p (escape p).
Proof.
  intros R. unfold escape. rewrite R. change (skipn 1 (c :: text)) with text. destruct text as [|letter follow].
  - split; [apply past_goes_on; [reflexivity | lia] |]. cbn. rewrite R. split; [now right | repeat split].
  - cbv zeta. destruct (eqc "x" letter && _); [refused |].
    destruct (escape_property p letter _) as [read|] eqn:E1; [eapply escape_property_steps, E1 |].
    destruct (escape_code_points p letter _) as [read|] eqn:E2; [eapply escape_code_points_steps, E2 |].
    destruct (one_of "cCM" letter); [apply control_steps |].
    destruct (escape_itself p letter _) as [read|] eqn:E3; [eapply escape_itself_steps, E3 |].
    destruct (0 <? class_depth p)%nat eqn:D; [step_past; now rewrite D |].
    destruct (escape_reference p letter) eqn:E4.
    + eapply escape_reference_steps; [| exact E4]. apply Nat.ltb_ge in D. lia.
    + step_past.
Qed.

(** ** Groups *)
Lemma group_open_steps p option_ : class_depth p = O -> steps p (group_open p option_).
Proof.
  intros Z. unfold group_open. cbv zeta.
  destruct (_ && bool_decide (look_behind (frame p) = Outside));
    [| destruct (text_is "<!" _); [| destruct (_ && _); [refused |]]].
  all: split; [apply past_goes_on; [reflexivity | lia] |]; cbn; repeat split; auto.
Qed.

Lemma apply_options_steps p letters : class_depth p = O -> steps p (apply_options p letters).
Proof.
  intros Z. unfold apply_options. cbv zeta.
  set (scoped := match nth_error _ _ with Some c => _ | None => false end).
  destruct (negb (are_known_options letters)); [split; [apply past_goes_on; [destruct scoped; reflexivity | lia] | exact I] |].
  destruct (fold_left _ _ _) as [setting f].
  split; [apply past_goes_on; [destruct scoped; reflexivity | lia] |].
  destruct scoped; cbn; repeat split; auto.
Qed.

Lemma group_condition_steps p option_ read : class_depth p = O -> rest p <> [] ->
  group_condition p option_ = Some read -> steps p read.
Proof.
  intros Z R. unfold group_condition. destruct (strip _ _) as [inner|]; [| discriminate].
  destruct (match inner with [] => false | c :: _ => is_ascii_digit c end).
  - intros [= <-]. split; [| cbn; repeat split; auto].
    apply past_goes_on; [reflexivity |]. destruct (find_char _ _); [lia |].
    destruct (rest p); [congruence | cbn; lia].
  - destruct (read_delimited inner) as [[name n]|]; [| discriminate]. cbn [mbind option_bind].
    destruct (begins _ _); [| discriminate]. intros [= <-].
    split; [apply past_goes_on; [reflexivity | lia] | cbn; repeat split; auto].
Qed.

Lemma group_named_steps p option_ read : class_depth p = O ->
  group_named p option_ = Some read -> steps p read.
Proof.
  intros Z. unfold group_named. destruct (_ || _); [discriminate |].
  destruct (read_delimited option_) as [[name n]|]; [| discriminate]. cbn [mbind option_bind].
  intros [= <-]. split; [exists (2 + n)%nat; split; [lia | reflexivity] |].
  destruct (bool_decide _); [exact I |]. destruct (match name with [] => _ | _ => _ end); [exact I |].
  cbn. repeat split; auto.
Qed.

Lemma comment_len_pos escaped text : text <> [] -> (1 <= comment_len escaped text)%nat.
Proof. destruct text; [congruence | cbn; lia]. Qed.

Lemma group_steps p c text : rest p = c :: text -> class_depth p = O -> steps p (group p).
Proof.
  intros R Z. assert (N : rest p <> []) by (rewrite R; discriminate).
  unfold group. destruct (strip _ _) as [option_|].
  - destruct (begins "#" option_).
    { split; [apply past_goes_on; [reflexivity | now apply comment_len_pos] | cbn; repeat split; auto]. }
    destruct (begins "P" option_); [refused |].
    destruct (begins "~" option_); [refused |].
    destruct (group_condition p option_) as [read|] eqn:E1; [now apply (group_condition_steps p option_) |].
    destruct (group_named p option_) as [read|] eqn:E2; [now apply (group_named_steps p option_) |].
    destruct (read_option_letters option_); [now apply apply_options_steps | now apply group_open_steps].
  - cbv zeta. split; [exists 1%nat; split; [lia | reflexivity] |]. cbn. repeat split; auto.
Qed.

(** ** Every piece *)
Lemma class_piece_steps p c : (0 < class_depth p)%nat -> steps p (class_piece p c).
Proof.
  intros D. unfold class_piece. destruct (read_posix_bracket (rest p)) as [[body n]|] eqn:B.
  - assert (N : (1 <= n)%nat).
    { unfold read_posix_bracket in B. destruct (strip _ _) as [inner|]; [| discriminate].
      cbn [mbind option_bind] in B. destruct (find_str _ inner) as [close|]; [| discriminate].
      cbn [mbind option_bind] in B. destruct (forallb _ _); [| discriminate]. injection B as _ <-. lia. }
    destruct (strip_caret body) as [negated name].
    destruct (existsb _ _); [step_past | refused].
  - cbv zeta. set (depth := if eqc "[" c then _ else _).
    destruct (depth =? 0)%nat eqn:Z; (split; [now apply past_goes_on |]); cbn; repeat split; auto.
    + now apply Nat.eqb_eq.
    + apply Nat.eqb_neq in Z. lia.
Qed.

Lemma brace_steps p : class_depth p = O -> steps p (brace p).
Proof.
  intros Z. unfold brace. destruct (read_interval (rest p)) as [[[lower upper] n]|] eqn:B; [| step_past].
  assert (N : (1 <= n)%nat).
  { unfold read_interval in B. destruct (find_char _ _) as [close|]; [| discriminate].
    cbn [mbind option_bind] in B. cbv zeta in B. destruct (split_once _ _) as [[? ?]|];
      destruct (_ && _ && _); try discriminate; injection B as _ _ <-; lia. }
  step_past.
Qed.

Lemma next_steps p read : next p = Some read -> steps p read.
Proof.
  unfold next. destruct (rest p) as [|c text] eqn:R; [discriminate |]. intros [= <-].
  destruct (eqc "\" c); [eapply escape_steps, R |].
  destruct (0 <? class_depth p)%nat eqn:D.
  { apply class_piece_steps. now apply Nat.ltb_lt. }
  apply Nat.ltb_ge in D. assert (Z : class_depth p = O) by lia. clear D.
  destruct (eqc "[" c).
  { split; [apply past_goes_on; [reflexivity | lia] |]. cbn. unfold taken. rewrite R. repeat split; auto. }
  destruct (eqc "(" c); [now apply (group_steps p c text) |].
  destruct (eqc ")" c).
  { split; [apply past_goes_on; [unfold close_frame; destruct (outer_frames p); reflexivity | lia] |].
    cbn. unfold close_frame. destruct (outer_frames p); cbn; repeat split; auto. }
  destruct (eqc "{" c).
  { now apply brace_steps. }
  destruct (one_of "?*+" c); [step_past |].
  destruct (_ && _).
  { cbv zeta. split; [apply past_goes_on; [reflexivity |] | cbn; repeat split; auto].
    match goal with |- context [S <$> ?found] => destruct found end; cbn; lia. }
  destruct (_ && _); step_past.
Qed.

(** ** The whole source *)
Inductive Steps : Pieces -> list Piece -> Pieces -> Prop :=
| Steps_none p : Steps p [] p
| Steps_next p piece p' ps q : next p = Some (piece, p') -> Steps p' ps q -> Steps p (piece :: ps) q.

Lemma goes_on_shorter p p' : rest p <> [] -> goes_on p p' -> (length (rest p') < length (rest p))%nat.
Proof. intros N (n & L & E). rewrite E, length_skipn. destruct (rest p); [congruence | cbn; lia]. Qed.

Lemma next_rest p read : next p = Some read -> rest p <> [].
Proof. unfold next. destruct (rest p); discriminate. Qed.

Lemma next_none p : next p = None <-> rest p = [].
Proof. unfold next. destruct (rest p); split; discriminate || auto. Qed.

Lemma next_shorter p piece p' : next p = Some (piece, p') -> (length (rest p') < length (rest p))%nat.
Proof. intros N. apply goes_on_shorter; [eapply next_rest, N | apply (next_steps p _ N)]. Qed.

Lemma read_all_steps turns : forall p, (length (rest p) <= turns)%nat ->
  exists q, Steps p (read_all turns p) q /\ rest q = [].
Proof.
  induction turns as [|turns IH]; intros p L.
  - exists p. split; [constructor | apply length_zero_iff_nil; lia].
  - cbn [read_all]. destruct (next p) as [[piece p']|] eqn:N.
    + apply next_shorter in N as L'. destruct (IH p' ltac:(lia)) as (q & S & E).
      exists q. split; [now apply Steps_next with p' | assumption].
    + exists p. split; [constructor | now apply next_none].
Qed.

Lemma pieces_steps p : exists q, Steps p (pieces p) q /\ rest q = [].
Proof. apply read_all_steps. reflexivity. Qed.

Lemma read_all_enough turns : forall p, (length (rest p) <= turns)%nat -> read_all turns p = pieces p.
Proof.
  unfold pieces. enough (G : forall n p, (length (rest p) <= n)%nat -> forall m, (length (rest p) <= m)%nat ->
    read_all n p = read_all m p) by (intros p L; now apply G).
  clear turns. induction n as [|n IH]; intros p L m L'.
  - assert (R : next p = None) by (apply next_none, length_zero_iff_nil; lia).
    destruct m; [reflexivity |]. cbn. now rewrite R.
  - destruct m as [|m].
    + assert (R : next p = None) by (apply next_none, length_zero_iff_nil; lia). cbn. now rewrite R.
    + cbn [read_all]. destruct (next p) as [[piece p']|] eqn:N; [| reflexivity].
      apply next_shorter in N. f_equal. apply IH; lia.
Qed.

(** ** Groups and their settings *)
Definition opens_group (piece : Piece) : bool :=
  match piece with
  | POpen _ | PPlainGroup _ | PNamedGroup _ _ | PNumberedCondition _ | PNamedCondition _ _ | POptions _ true => true
  | _ => false
  end.

(** Pieces that close what they open and no more, [depth] groups being open. *)
Fixpoint balanced (depth : nat) (ps : list Piece) : bool :=
  match ps with
  | [] => (depth =? 0)%nat
  | piece :: ps =>
    match piece with
    | PRefused _ => false
    | PClose => match depth with O => false | S depth => balanced depth ps end
    | _ => balanced (if opens_group piece then S depth else depth) ps
    end
  end.

Lemma next_frames p piece p' : next p = Some (piece, p') ->
  match piece with
  | PRefused _ => True
  | PClose => match outer_frames p with
              | f :: fs => frame p' = f /\ outer_frames p' = fs
              | [] => same_frames p p'
              end
  | _ => outer_frames p' = if opens_group piece then frame p :: outer_frames p else outer_frames p
  end.
Proof.
  intros N. apply next_steps in N as [_ L]. cbn [fst snd] in L.
  destruct piece as [| | | | | | | | | |letters []| | | | | | | | | | | |];
    unfold leaves, opened, same_place, same_frames in L; cbn [opens_group]; tauto.
Qed.

Lemma steps_balanced p ps q : Steps p ps q -> forall above fs,
  outer_frames p = above ++ fs -> balanced (length above) ps = true -> outer_frames q = fs.
Proof.
  induction 1 as [p|p piece p' ps q N S IH]; intros above fs E B.
  - cbn in B. apply Nat.eqb_eq, length_zero_iff_nil in B. now subst.
  - apply next_frames in N. cbn [balanced] in B.
    assert (K : (exists above', outer_frames p' = above' ++ fs /\ balanced (length above') ps = true) -> outer_frames q = fs)
      by (intros (above' & E' & B'); eauto).
    apply K. clear K IH.
    destruct piece as [| | | | | | | | | |letters []| | | | | | | | | | | |]; try discriminate; cbn [opens_group] in *;
      try (exists above; split; [congruence | assumption]);
      try (exists (frame p :: above); split; [rewrite N, E; reflexivity | assumption]).
    destruct above as [|f above]; [discriminate |]. rewrite E in N. destruct N as [_ N].
    exists above. auto.
Qed.
