(* ===== verification/RxTranslate.v ===== *)
(** Ruby's regexp syntax rewritten to the engine's: kobako-regexp's
    [translate.rs].

    What is written so far is [out], and every place in it is counted in
    characters.  [split_level] slices its reference a byte in, which panics where
    it is empty or begins with a character of several bytes. *)
From Stdlib Require Import String.
From S2P Require Import Prelude Text RxText RxRepeat RxFold RxClasses RxPieces.
Local Open Scope rx_scope.

Definition IGNORECASE : Z := 1.
Definition EXTENDED : Z := 2.
Definition MULTILINE : Z := 4.

(** [options & bit != 0]. *)
Definition has_option (options bit : Z) : bool := negb (Z.land options bit =? 0).

Definition parse_flag_string (flags : Str) : option Z :=
  fold_left (fun options letter =>
    options ← options;
    if eqc "i" letter then Some (Z.lor options IGNORECASE)
    else if eqc "m" letter then Some (Z.lor options MULTILINE)
    else if eqc "x" letter then Some (Z.lor options EXTENDED)
    else None) flags (Some 0).

(** Each capture name with its group numbers. *)
Abbreviation Names := (list (Str * list Z)).

Fixpoint name_number (names : Names) (name : Str) (number : Z) : Names :=
  match names with
  | [] => [(name, [number])]
  | (existing, numbers) :: names =>
    if bool_decide (existing = name) then (existing, numbers ++ [number]) :: names
    else (existing, numbers) :: name_number names name number
  end.

Definition names_of (pieces : list Piece) : Names :=
  fst (fold_left (fun '(names, number) piece =>
    match piece with
    | PNamedGroup _ name => (name_number names name (number + 1), number + 1)
    | _ => (names, number)
    end) pieces ([], 0)).

Definition collect_names (source : Str) (extended : bool) : Names :=
  names_of (pieces (pieces_new source extended 0)).

Fixpoint find_name (names : Names) (name : Str) : option (list Z) :=
  match names with
  | [] => None
  | (existing, numbers) :: names => if bool_decide (existing = name) then Some numbers else find_name names name
  end.

Record OpenGroup := MkOpenGroup {
  start : nat;
  owed_closes : nat;
  look_around : bool;
}.

Inductive Role := RInert | RRepeat | RBoundary | RUnit | ROpening (look_around : bool) | RClosing.

Definition of_text (in_class : bool) : Role := if in_class then RInert else RUnit.

Inductive Repeat := NoRepeat | Greedy | Interval (exact : bool) | Settled.

Record FoldedClass := MkFoldedClass {
  class_start : nat;
  class_written : Str;
  unfolded_classes : list (nat * nat);
}.

(** The innermost group comes first. *)
Record Rewriter := MkRewriter {
  names : Names;
  has_calls : bool;
  out : Str;
  groups : list OpenGroup;
  unit_start : option nat;
  unit_is_look_around : bool;
  optional_look_around : option Str;
  quantified_unit : Str;
  quantities : list Quantity;
  repeat_ : Repeat;
  literal_run : Str;
  literal_run_start : nat;
  literal_run_last : nat;
  folded_class : option FoldedClass;
  folding : bool;
}.

Definition rewriter_new (names : Names) (has_calls : bool) (out : Str) : Rewriter :=
  MkRewriter names has_calls out [MkOpenGroup 0 0 false] None false None [] [] NoRepeat [] 0 0 None false.

(** *** One field set *)
Section Set_.
Implicit Types r : Rewriter.
Definition set_out (x : Str) r : Rewriter :=
  MkRewriter (names r) (has_calls r) x (groups r) (unit_start r) (unit_is_look_around r)
    (optional_look_around r) (quantified_unit r) (quantities r) (repeat_ r) (literal_run r)
    (literal_run_start r) (literal_run_last r) (folded_class r) (folding r).
Definition set_groups (x : list OpenGroup) r : Rewriter :=
  MkRewriter (names r) (has_calls r) (out r) x (unit_start r) (unit_is_look_around r)
    (optional_look_around r) (quantified_unit r) (quantities r) (repeat_ r) (literal_run r)
    (literal_run_start r) (literal_run_last r) (folded_class r) (folding r).
Definition set_unit_start (x : option nat) r : Rewriter :=
  MkRewriter (names r) (has_calls r) (out r) (groups r) x (unit_is_look_around r)
    (optional_look_around r) (quantified_unit r) (quantities r) (repeat_ r) (literal_run r)
    (literal_run_start r) (literal_run_last r) (folded_class r) (folding r).
Definition set_unit_is_look_around (x : bool) r : Rewriter :=
  MkRewriter (names r) (has_calls r) (out r) (groups r) (unit_start r) x
    (optional_look_around r) (quantified_unit r) (quantities r) (repeat_ r) (literal_run r)
    (literal_run_start r) (literal_run_last r) (folded_class r) (folding r).
Definition set_optional_look_around (x : option Str) r : Rewriter :=
  MkRewriter (names r) (has_calls r) (out r) (groups r) (unit_start r) (unit_is_look_around r)
    x (quantified_unit r) (quantities r) (repeat_ r) (literal_run r)
    (literal_run_start r) (literal_run_last r) (folded_class r) (folding r).
Definition set_quantified (unit : Str) (q : list Quantity) r : Rewriter :=
  MkRewriter (names r) (has_calls r) (out r) (groups r) (unit_start r) (unit_is_look_around r)
    (optional_look_around r) unit q (repeat_ r) (literal_run r)
    (literal_run_start r) (literal_run_last r) (folded_class r) (folding r).
Definition set_repeat (x : Repeat) r : Rewriter :=
  MkRewriter (names r) (has_calls r) (out r) (groups r) (unit_start r) (unit_is_look_around r)
    (optional_look_around r) (quantified_unit r) (quantities r) x (literal_run r)
    (literal_run_start r) (literal_run_last r) (folded_class r) (folding r).
Definition set_literal_run (run : Str) (start last : nat) r : Rewriter :=
  MkRewriter (names r) (has_calls r) (out r) (groups r) (unit_start r) (unit_is_look_around r)
    (optional_look_around r) (quantified_unit r) (quantities r) (repeat_ r) run start last
    (folded_class r) (folding r).
Definition set_folded_class (x : option FoldedClass) r : Rewriter :=
  MkRewriter (names r) (has_calls r) (out r) (groups r) (unit_start r) (unit_is_look_around r)
    (optional_look_around r) (quantified_unit r) (quantities r) (repeat_ r) (literal_run r)
    (literal_run_start r) (literal_run_last r) x (folding r).
Definition set_folding (x : bool) r : Rewriter :=
  MkRewriter (names r) (has_calls r) (out r) (groups r) (unit_start r) (unit_is_look_around r)
    (optional_look_around r) (quantified_unit r) (quantities r) (repeat_ r) (literal_run r)
    (literal_run_start r) (literal_run_last r) (folded_class r) x.
End Set_.

(** [push_str], [truncate]. *)
Definition push (s : Str) (r : Rewriter) : Rewriter := set_out (out r ++ s) r.
Definition truncate_out (n : nat) (r : Rewriter) : Rewriter := set_out (firstn n (out r)) r.

(** ** What a reference or an interval names *)
Definition is_literal_char (text : Str) : bool :=
  match text with [c] => negb (one_of "|.^$" c) | _ => false end.

Definition MAX_REPEAT : Z := 100000.

Definition TOO_BIG : Str := cs "too big number for repeat range".
Definition interval_bound (text : Str) : tried Z :=
  match text, parse_digits U64_MAX text with
  | _ :: _, Some number => if number <=? MAX_REPEAT then Done number else Refuse TOO_BIG
  | _, _ => Refuse TOO_BIG
  end.

Definition read_quantity (lower : Str) (upper : option Str) : tried Quantity :=
  let? lower_bound := match lower with [] => Done 0 | _ => interval_bound lower end in
  let? upper_bound :=
    match upper with
    | None => Done (Some lower_bound)
    | Some [] => Done None
    | Some upper => let? n := interval_bound upper in Done (Some n)
    end in
  if match upper_bound with Some upper => upper <? lower_bound | None => false end
  then Refuse (cs "upper is smaller than lower in repeat range")
  else Done (Quantity.greedy lower_bound upper_bound).

Definition NUMBERED_REFERENCE : Str := cs "numbered backref/call is not allowed. (use name)".

Definition engine_letters (letters : Str) : Str :=
  map (fun c => if eqc "m" c then chr "s" else c)
    (List.filter (fun c => negb (one_of "-dau" c)) letters).

Definition options_text (letters : Str) : Str :=
  let '(on, off) := default (letters, []) (split_once (chr "-") letters) in
  let off := engine_letters off in
  cs "(?" ++ engine_letters on ++ (match off with [] => [] | _ => cs "-" ++ off end) ++ cs ":".

Definition find_shared_numbers (names : Names) (name : Str) : option (list Z) :=
  match List.find (fun '(existing, numbers) =>
    bool_decide (existing = name) && (1 <? length numbers)%nat) names with
  | Some (_, numbers) => Some numbers
  | None => None
  end.

Definition each_group (numbers : list Z) : Str :=
  cs "(?>" ++ join (cs "|") (map (fun n => cs "\" ++ dec n) (rev numbers)) ++ cs ")".

Definition is_group_number (name : Str) : bool :=
  let digits := default name (strip (cs "-") name) in
  negb (bool_decide (digits = [])) && forallb is_ascii_digit digits.

Definition split_level (reference : Str) : tried (option (Str * Z)) :=
  match reference with
  | [] => Panicked
  | c :: after =>
    if negb (is_ascii_char c) then Panicked
    else
      Done (
        sign ← rfind_char (fun c => one_of "+-" c) after;
        let sign := S sign in
        let name := firstn sign reference in
        let level := skipn sign reference in
        let digits := skipn 1 level in
        if bool_decide (digits = []) || negb (forallb is_ascii_digit digits) then None
        else
          magnitude ← parse_digits I64_MAX digits;
          Some (name, if begins "-" level then - magnitude else magnitude))
  end.

(** ** Writing *)
Section Rewriting.
Context `{Unicode}.
Implicit Types r : Rewriter.

Definition keep_unfolded (start : nat) (in_class : bool) r : Rewriter :=
  if negb (folding r) then r
  else if negb in_class then
    set_out (firstn start (out r) ++ cs "(?-i:" ++ skipn start (out r) ++ cs ")") r
  else
    match folded_class r with
    | Some class =>
      set_folded_class (Some (MkFoldedClass (class_start class) (class_written class)
        (unfolded_classes class ++ [(start, length (out r))]))) r
    | None => r
    end.

Definition push_escape (letter : Z) (in_class : bool) (charset : Charset) r : tried Rewriter :=
  let start := length (out r) in
  let? replacement := shorthand letter in_class charset in
  let r := push (default (cs "\" ++ [letter]) replacement) r in
  Done (if is_ascii_shorthand letter charset then keep_unfolded start in_class r else r).

Definition code_point (value : Z) : Str := cs "\x{" ++ hex value ++ cs "}".
Definition push_code_point (value : Z) r : Rewriter := push (code_point value) r.

Fixpoint push_code_points (words : list Str) r : tried Rewriter :=
  match words with
  | [] => Done r
  | word :: words =>
    match from_hex word with
    | Some value => push_code_points words (push_code_point value r)
    | None => Refuse (cs "invalid Unicode escape")
    end
  end.

Definition write_quantified_unit (start : nat) r : Rewriter :=
  push (write (quantified_unit r) (quantities r)) (truncate_out start r).

Definition repeat_unit (quantity : Quantity) r : Rewriter :=
  let r := set_optional_look_around None r in
  match unit_start r with
  | None => push (write [] [quantity]) r
  | Some start =>
    if unit_is_look_around r then
      if q_lower quantity =? 0 then
        let look_around := skipn start (out r) in
        let r := push (cs "(?:" ++ look_around ++ cs "|)") (truncate_out start r) in
        set_unit_is_look_around false (set_optional_look_around (Some look_around) r)
      else r
    else
      let unit := match quantities r with [] => skipn start (out r) | _ => quantified_unit r end in
      write_quantified_unit start (set_quantified unit (quantities r ++ [quantity]) r)
  end.

(** [quantities.last_mut()] made lazy or possessive. *)
Definition modify_last (modifier : Str) (quantities : list Quantity) : list Quantity :=
  match rev quantities with
  | [] => []
  | q :: qs =>
    rev ((if text_is "?" modifier then MkQuantity (q_lower q) (q_upper q) false (q_possessive q)
          else MkQuantity (q_lower q) (q_upper q) (q_greedy q) true) :: qs)
  end.

Definition modify_repeat (modifier : Str) r : Rewriter :=
  let r := set_repeat Settled r in
  if unit_is_look_around r then r
  else
    match unit_start r with
    | None => push modifier r
    | Some start =>
      match optional_look_around r with
      | Some look_around =>
        let r := truncate_out start (set_optional_look_around None r) in
        push (if text_is "?" modifier then cs "(?:|" ++ look_around ++ cs ")"
              else cs "(?>" ++ look_around ++ cs "|)") r
      | None =>
        match quantities r with
        | [] => r
        | _ => write_quantified_unit start
                 (set_quantified (quantified_unit r) (modify_last modifier (quantities r)) r)
        end
      end
    end.

Definition close_literal_run (split_last : bool) r : tried Rewriter :=
  match literal_run r with
  | [] => Done r
  | run =>
    let r := set_literal_run [] (literal_run_start r) (literal_run_last r) r in
    let '(head, last) :=
      if split_last then (firstn (length run - 1) run, skipn (length run - 1) run) else (run, []) in
    let? head_spelled := expand_run head in
    let? last_spelled := expand_run last in
    match head_spelled, last_spelled with
    | None, None => Done r
    | _, _ =>
      let r := truncate_out (literal_run_start r) r in
      let r := push (default head head_spelled) r in
      let last_start := length (out r) in
      let r := push (default last last_spelled) r in
      Done (set_unit_start (Some (if split_last then last_start else literal_run_start r)) r)
    end
  end.

(** A class's text apart from the classes inside it the engine must not fold,
    and those. *)
Fixpoint set_apart (written : Str) (from : nat) (at_ : nat) (unfolded : list (nat * nat))
  : Str * Str :=
  match unfolded with
  | [] => (skipn (at_ - from) written, [])
  | (a, b) :: unfolded =>
    let '(rest, ascii) := set_apart written from b unfolded in
    (slice (at_ - from) (a - from) written ++ rest, slice (a - from) (b - from) written ++ ascii)
  end.

(** [&rest[1..rest.len() - 1]]. *)
Definition class_body (rest : Str) : tried Str :=
  if (2 <=? length rest)%nat then Done (slice 1 (length rest - 1) rest) else Panicked.

Definition close_folded_class r : tried Rewriter :=
  match folded_class r with
  | None => Done r
  | Some class =>
    let r := set_folded_class None r in
    let negated := begins "^" (class_written class) in
    let folds := if negated then [] else class_folds (class_written class) in
    match folds, unfolded_classes class with
    | [], [] => Done r
    | _, unfolded =>
      let written := skipn (class_start class) (out r) in
      let r := truncate_out (class_start class) r in
      let? alternatives :=
        match unfolded with
        | [] => Done [written]
        | _ =>
          let '(rest, ascii) := set_apart written (class_start class) (class_start class) unfolded in
          let? body := class_body rest in
          let body := snd (strip_caret body) in
          Done ((match body with [] => [] | _ => [cs "[" ++ body ++ cs "]"] end)
                ++ [cs "(?-i:" ++ (cs "[" ++ ascii ++ cs "]") ++ cs ")"])
        end in
      let positive := cs "(?:" ++ join (cs "|") (alternatives ++ folds) ++ cs ")" in
      Done (push (match negated, unfolded with
                  | true, _ :: _ => cs "(?:(?!" ++ positive ++ cs ")(?s:.))"
                  | _, _ => positive
                  end) r)
    end
  end.

Definition push_leveled_reference (name : Str) (level : Z) r : tried Rewriter :=
  if has_calls r || bool_decide (is_Some (find_shared_numbers (names r) name)) then
    Refuse (cs "a backreference with a level is not supported here")
  else if negb (bool_decide (names r = [])) && is_group_number name then Refuse NUMBERED_REFERENCE
  else if level =? 0 then Done (push (cs "\k<" ++ name ++ cs ">") r)
  else Done (push (cs "(?!)") r).

Definition push_named_reference (text : Str) (kind : Z) (name : Str) r : tried Rewriter :=
  if negb (bool_decide (names r = [])) && is_group_number name then Refuse NUMBERED_REFERENCE
  else
    match find_shared_numbers (names r) name with
    | Some numbers =>
      if eqc "g" kind then Refuse (cs "multiplex definition name <" ++ name ++ cs "> call")
      else Done (push (each_group numbers) r)
    | None => Done (push text r)
    end.

Definition starts_look_around (text : Str) : bool :=
  begins "(?=" text || begins "(?!" text || begins "(?<=" text || begins "(?<!" text.

Definition is_nonempty {A} (l : list A) : bool := match l with [] => false | _ => true end.

(** [groups.last_mut()] owing one more close. *)
Definition owe_close (groups : list OpenGroup) : list OpenGroup :=
  match groups with
  | g :: gs => MkOpenGroup (start g) (S (owed_closes g)) (look_around g) :: gs
  | [] => []
  end.

Definition push_quantifier (text : Str) r : Rewriter :=
  let modifies := match repeat_ r with
                  | Greedy => text_is "?" text || text_is "+" text
                  | Interval false => text_is "?" text
                  | _ => false
                  end in
  if modifies then modify_repeat text r
  else
    set_repeat Greedy (repeat_unit
      (if text_is "?" text then Quantity.greedy 0 (Some 1)
       else if text_is "*" text then Quantity.greedy 0 None
       else Quantity.greedy 1 None) r).

Definition push_piece (piece : Piece) r : tried (Role * Rewriter) :=
  let named := is_nonempty (names r) in
  match piece with
  | PComment text =>
    let r := push text r in
    Done (RInert, if begins "#" text && negb (List.last text 0 =? 10)
                  then push [10] r else r)
  | PClassText text => Done (RInert, push text r)
  | PClassClose => Done (RInert, push (cs "]") r)
  | PEscape letter true charset =>
    let? r := push_escape letter true charset r in Done (RInert, r)
  | PChar value in_class => Done (of_text in_class, push_code_point value r)
  | PCodePoints body in_class =>
    let? r := push_code_points (split_whitespace body) r in Done (of_text in_class, r)
  | PProperty text name negated in_class =>
    Done (of_text in_class, push (default text (property name negated)) r)
  | PPosixBracket name negated charset =>
    let start := length (out r) in
    let? text := posix_bracket name negated charset (folding r) in
    let r := push text r in
    Done (RInert, if is_unfolded_posix_bracket name negated charset (folding r)
                  then keep_unfolded start true r else r)
  | PQuantifier text => Done (RRepeat, push_quantifier text r)
  | PInterval lower upper =>
    let? quantity := read_quantity lower upper in
    Done (RRepeat, set_repeat (Interval (match upper with None => true | Some _ => false end))
                     (repeat_unit quantity r))
  | PClose => Done (RClosing, r)
  | POptions letters false =>
    let r := push (options_text letters) r in
    Done (RBoundary, set_groups (owe_close (groups r)) r)
  | POptions letters true => Done (ROpening false, push (options_text letters) r)
  | POpen text => Done (ROpening (starts_look_around text), push text r)
  | PNamedGroup text _ => Done (ROpening false, push text r)
  | PPlainGroup in_negative_look_behind =>
    if in_negative_look_behind && negb named then Refuse LOOK_BEHIND_REFUSAL
    else Done (ROpening false, push (if named then cs "(?:" else cs "(") r)
  | PNumberedCondition text =>
    if named then Refuse NUMBERED_REFERENCE else Done (ROpening false, push text r)
  | PNamedCondition text name =>
    match find_name (names r) name with
    | Some (number :: _) => Done (ROpening false, push (cs "(?(" ++ dec number ++ cs ")") r)
    | Some [] => Panicked
    | None => Done (ROpening false, push text r)
    end
  | PText text => if text_is "|" text then Done (RBoundary, push (cs "|") r) else Done (RUnit, push text r)
  | PClassOpen text => Done (RUnit, push text r)
  | PLiteralBrace => Done (RUnit, push (cs "\{") r)
  | PEscape letter false charset =>
    if eqc "b" letter || eqc "B" letter then
      let start := length (out r) in
      let? text := word_boundary letter charset in
      let r := push text r in
      Done (RUnit, if bool_decide (charset = Ascii) then keep_unfolded start false r else r)
    else let? r := push_escape letter false charset r in Done (RUnit, r)
  | PNumberedReference text =>
    if named then Refuse NUMBERED_REFERENCE else Done (RUnit, push text r)
  | PNamedReference text kind name =>
    let? level := if eqc "k" kind then split_level name else Done None in
    let? r := match level with
              | Some (name, level) => push_leveled_reference name level r
              | None => push_named_reference text kind name r
              end in
    Done (RUnit, r)
  | PRefused reason => Refuse reason
  end.

Definition take_grouped_repeat r : option (Str * list Quantity) * Rewriter :=
  match groups r with
  | group :: _ :: _ =>
    let holds_one_unit :=
      (owed_closes group =? 0)%nat && begins "(?:" (skipn (start group) (out r))
      && bool_decide (unit_start r = Some (start group + 3)%nat) in
    if negb holds_one_unit || negb (is_nonempty (quantities r)) then (None, r)
    else (Some (quantified_unit r, quantities r), set_quantified [] [] r)
  | _ => (None, r)
  end.

Definition closes (n : nat) : Str := List.repeat (chr ")") n.

Definition close_group (grouped_repeat : option (Str * list Quantity)) r : Rewriter :=
  let '(group, outer) := match groups r with
                         | g :: (_ :: _) as gs => (Some g, gs)
                         | gs => (None, gs)
                         end in
  let r := set_groups outer r in
  let owed := match group with Some g => owed_closes g | None => 0%nat end in
  let r := push (closes (owed + 1)) r in
  let r := set_unit_is_look_around (match group with Some g => look_around g | None => false end) r in
  let r := set_unit_start (start <$> group) r in
  match grouped_repeat with
  | Some (unit, quantities) => set_repeat Settled (set_quantified unit quantities r)
  | None => r
  end.

(** What a piece's text leaves to repeat. *)
Definition forget_repeat r : Rewriter :=
  set_quantified (quantified_unit r) []
    (set_optional_look_around None (set_unit_is_look_around false (set_repeat NoRepeat r))).

Definition settle (role : Role) (start : nat) (grouped_repeat : option (Str * list Quantity)) r
  : Rewriter :=
  match role with
  | RInert | RRepeat => r
  | RBoundary => set_unit_start None (forget_repeat r)
  | RUnit => set_unit_start (Some start) (forget_repeat r)
  | ROpening look_around =>
    let r := forget_repeat r in
    set_unit_start None (set_groups (MkOpenGroup start 0 look_around :: groups r) r)
  | RClosing => close_group grouped_repeat (forget_repeat r)
  end.

(** What comes before a piece is written: the run it goes on with or closes. *)
Definition before_piece (piece : Piece) (folding : bool) r : tried Rewriter :=
  match piece with
  | PText text =>
    if folding && is_literal_char text then
      Done (set_literal_run (literal_run r ++ text)
              (match literal_run r with [] => length (out r) | _ => literal_run_start r end)
              (length (out r)) r)
    else close_literal_run false r
  | PQuantifier _ | PInterval _ _ => close_literal_run true r
  | _ => close_literal_run false r
  end.

Definition enter_class (piece : Piece) (folding : bool) r : Rewriter :=
  match piece with
  | PClassOpen _ =>
    if folding then set_folded_class (Some (MkFoldedClass (length (out r)) [] [])) r else r
  | PClassText text =>
    match folded_class r with
    | Some class => set_folded_class (Some (MkFoldedClass (class_start class)
                      (class_written class ++ text) (unfolded_classes class))) r
    | None => r
    end
  | _ => r
  end.

Definition rewrite (piece : Piece) (folding : bool) r : tried Rewriter :=
  let? r := before_piece piece folding r in
  let r := enter_class piece folding (set_folding folding r) in
  let start := length (out r) in
  let? (role, r) := push_piece piece r in
  let? r := match piece with PClassClose => close_folded_class r | _ => Done r end in
  let '(grouped_repeat, r) :=
    match role with RClosing => take_grouped_repeat r | _ => (None, r) end in
  Done (settle role start grouped_repeat r).

Definition finish r : tried Str :=
  let? r := close_literal_run false r in
  Done (out r ++ closes (list_sum (map owed_closes (groups r)))).

(** [build_pattern]'s loop over the pieces. *)
Fixpoint rewrite_all (turns : nat) (p : Pieces) r : tried Rewriter :=
  match turns with
  | O => Done r
  | S turns =>
    match next p with
    | None => Done r
    | Some (piece, p) =>
      let? r := rewrite piece (unicode_build && ignores_case p) r in
      rewrite_all turns p r
    end
  end.

Definition header (options : Z) : Str :=
  cs "(?m" ++ (if has_option options IGNORECASE then cs "i" else [])
  ++ (if has_option options EXTENDED then cs "x" else [])
  ++ (if has_option options MULTILINE then cs "s" else []) ++ cs ")".

Definition is_plain_group (piece : Piece) : bool :=
  match piece with PPlainGroup _ => true | _ => false end.
Definition is_call (piece : Piece) : bool :=
  match piece with PNamedReference _ kind _ => eqc "g" kind | _ => false end.

Definition captures_of (source : Str) (extended : bool) (names : Names) : Z :=
  match names with
  | [] => len (List.filter is_plain_group (pieces (pieces_new source extended 0)))
  | _ => List.fold_right (fun '(_, numbers) n => len numbers + n) 0 names
  end.

Definition build_pattern (source : Str) (options : Z) : tried Str :=
  let extended := has_option options EXTENDED in
  let names := collect_names source extended in
  let captures := captures_of source extended names in
  let has_calls := existsb is_call (pieces (pieces_new source extended captures)) in
  let p := ignoring_case (has_option options IGNORECASE) (pieces_new source extended captures) in
  let? r := rewrite_all (length source) p (rewriter_new names has_calls (header options)) in
  finish r.
End Rewriting.

(** What the sources' own tests say. *)
Example translate_tests :
  map (fun '(s, o) => build_pattern (H := latin) (cs s) o)
    [("abc", 0); ("abc", 1); ("abc", 7); ("\d+", 0); ("\s", 0); ("[a\dz]", 0); ("[^\d]", 0);
     ("[a\W]", 0); ("(?a:\w)\w", 0); ("(?ia)a", 0); ("[[:^ascii:]x]", 0); ("(?a)[[:alpha:]]", 0);
     ("[:alpha:]", 0); ("(?u)[\d]", 0); ("[[:^alpha:]]", 0); ("[x\P{x_digit}]", 0);
     ("\p{Unknown}", 0); ("\P{Alpha}", 0); ("\\d", 0); ("\Aword\z", 0); ("[\b]", 0);
     ("(?<n>a)(b)(?<m>c)(?<n>d)\k<n>\k'n'\k<m>", 0); ("(?:(?:a+?)?)*", 0); ("(?:a*)*", 0);
     ("(?:ab*)*", 0); ("(?<n>a)\k<n+0>", 0); ("(a)\k<-1+0>\k<1-1>", 0)]%string
  = map (fun s => Done (cs s))
    ["(?m)abc"; "(?mi)abc"; "(?mixs)abc"; "(?m)[0-9]+"; "(?m)[\x20\t\n\x0b\x0c\r]"; "(?m)[a0-9z]";
     "(?m)[^0-9]"; "(?m)[a[^0-9A-Za-z_]]"; "(?m)(?:[0-9A-Za-z_])[0-9A-Za-z_]"; "(?m)(?i:a)";
     "(?m)[[[:^ascii:]]x]"; "(?m)(?:[[[:alpha:]]])"; "(?m)[:alpha:]"; "(?m)(?:[\p{Nd}])";
     "(?m)[[^\p{Alphabetic}]]"; "(?m)[x[^0-9A-Fa-f]]"; "(?m)[\p{Cn}\p{Co}]"; "(?m)\P{Alpha}";
     "(?m)\\d"; "(?m)\Aword\z"; "(?m)[\b]";
     "(?m)(?<n>a)(?:b)(?<m>c)(?<n>d)(?>\3|\1)(?>\3|\1)\k<m>"; "(?m)(?:a+?)*"; "(?m)a*";
     "(?m)(?:ab*)*"; "(?m)(?<n>a)\k<n>"; "(?m)(a)\k<-1>(?!)"]%string.
Proof. vm_compute. reflexivity. Qed.

Example names_tests :
  map (fun '(s, x) => collect_names (cs s) x)
    [("(?<n>a)(?#(?<m>b))", false); ("(?<n>a)[(?<m>b)]", false); ("(?<n>a)\(?<m>b", false);
     ("(?<=a)(?<!b)(?<n>a)", false); ("(?x)(?<n>a)(?-x)#(?<m>b)", false)]%string
  = [[(cs "n", [1])]; [(cs "n", [1])]; [(cs "n", [1])]; [(cs "n", [1])];
     [(cs "n", [1]); (cs "m", [2])]].
Proof. vm_compute. reflexivity. Qed.
