(* ===== verification/RxRender.v ===== *)
(** The text a Regexp is shown and escaped as: kobako-regexp's
    [regexp/render.rs], with what [Regexp#inspect] and [#to_s] make of it.

    The sources walk a pattern's bytes; a byte of a character past ASCII is none
    of those they look for, so the walk is by character here.

    What a Regexp's text keeps: an escaped text is a pattern of its own
    characters, and the text [Regexp#to_s] shows is the one its reading shows. *)
From Stdlib Require Import String.
From S2P Require Import Prelude Text RxText RxFold RxTranslate RxClasses RxPieces.
Local Open Scope rx_scope.

(** MRI's [m], [i], [x] order. *)
Definition FLAG_LETTERS : list (Z * Z) :=
  [(MULTILINE, chr "m"); (IGNORECASE, chr "i"); (EXTENDED, chr "x")].

Definition enabled_flags (options : Z) : Str :=
  fold_left (fun flags '(bit, letter) =>
    if has_option options bit then flags ++ [letter] else flags) FLAG_LETTERS [].

Definition on_off_flags (options : Z) : Str * Str :=
  fold_left (fun '(on, off) '(bit, letter) =>
    if has_option options bit then (on ++ [letter], off) else (on, off ++ [letter]))
    FLAG_LETTERS ([], []).

(** The flags from [i] on: what they enable and disable, and where the body
    starts. *)
Fixpoint read_flags (text : Str) (i : nat) (enabled disabled : Z) (in_disable : bool)
  : option (Z * Z * nat) :=
  match text with
  | [] => None
  | c :: text =>
    if eqc ":" c then Some (enabled, disabled, S i)
    else if eqc "-" c && negb in_disable then read_flags text (S i) enabled disabled true
    else if one_of "imx" c then
      let bit := if eqc "i" c then IGNORECASE else if eqc "m" c then MULTILINE else EXTENDED in
      if in_disable then read_flags text (S i) enabled (Z.lor disabled bit) in_disable
      else read_flags text (S i) (Z.lor enabled bit) disabled in_disable
    else None
  end.

(** Where the group open [depth] deep closes, from [i] on. *)
Fixpoint close_at (text : Str) (i depth : nat) (in_class : bool) : option nat :=
  match text with
  | [] => None
  | c :: text =>
    if eqc "\" c then match text with [] => None | _ :: text => close_at text (2 + i) depth in_class end
    else if eqc "[" c && negb in_class then close_at text (S i) depth true
    else if eqc "]" c && in_class then close_at text (S i) depth false
    else if eqc "(" c && negb in_class then close_at text (S i) (S depth) in_class
    else if eqc ")" c && negb in_class then
      if (depth =? 1)%nat then Some i else close_at text (S i) (Nat.pred depth) in_class
    else close_at text (S i) depth in_class
  end.

Definition lift_inline_group (source : Str) : option (Z * Z * Str) :=
  if begins "(?" source then
    '(enabled, disabled, body_start) ← read_flags (skipn 2 source) 2 0 0 false;
    i ← close_at (skipn body_start source) body_start 1 false;
    if (i =? length source - 1)%nat then Some (enabled, disabled, slice body_start i source) else None
  else None.

(** [{:02X}]. *)
Definition hex2 (n : Z) : Str := let h := hex n in List.repeat 48 (2 - length h) ++ h.

Section Inspect.
Context `{Unicode}.

Definition inspect_source (source : Str) : Str :=
  concat (map (fun c =>
    if eqc "/" c then cs "\/"
    else if existsb (Z.eqb c) [9; 10; 0x0b; 0x0c; 13] then [c]
    else if control_char c then cs "\x" ++ hex2 c
    else [c]) source).

(** [rx_inspect] of a Regexp's source and options. *)
Definition rx_inspect (source : Str) (options : Z) : Str :=
  cs "/" ++ inspect_source source ++ cs "/" ++ enabled_flags options.
End Inspect.

Definition escape_char (c : Z) : Str :=
  if one_of ".\+*?()[]{}^$|-# " c then chr "\" :: [c]
  else if c =? 10 then cs "\n"
  else if c =? 13 then cs "\r"
  else if c =? 9 then cs "\t"
  else if c =? 0x0c then cs "\f"
  else if c =? 0x0b then cs "\v"
  else [c].
Definition escape_str (source : Str) : Str := concat (map escape_char source).

(** [rx_to_s]. *)
Definition rx_to_s (source : Str) (options : Z) : Str :=
  let '(options, body) :=
    match lift_inline_group source with
    | Some (enabled, disabled, inner) => (Z.land (Z.lor options enabled) (Z.lnot disabled), inner)
    | None => (options, source)
    end in
  let '(on, off) := on_off_flags options in
  match off with
  | [] => cs "(?" ++ on ++ cs ":" ++ body ++ cs ")"
  | _ => cs "(?" ++ on ++ cs "-" ++ off ++ cs ":" ++ body ++ cs ")"
  end.

Example render_samples :
  map (fun '(s, o) => rx_to_s (cs s) o)
    [("ab", 0); ("ab", 7); ("(?i:ab)", 0); ("(?-i:ab)c", 1); ("(?mx-i:a[)]b)", 1); ("(?<n>a)", 4)]%string
  = map cs ["(?-mix:ab)"; "(?mix:ab)"; "(?i-mx:ab)"; "(?i-mx:(?-i:ab)c)"; "(?mx-i:a[)]b)";
            "(?m-ix:(?<n>a))"]%string
  /\ escape_str (cs "a.b" ++ [10]) = cs "a\.b\n"
  /\ rx_inspect (H := latin) (cs "a/b" ++ [1; 9]) 5 = cs "/a\/b\x01" ++ [9] ++ cs "/mi".
Proof. vm_compute. repeat split; reflexivity. Qed.

(** * Facts *)

(** Named characters as numbers. *)
Ltac chars :=
  unfold eqc, one_of in *;
  repeat match goal with
  | |- context [chr ?s] => let v := eval vm_compute in (chr s) in change (chr s) with v
  | |- context [existsb _ (cs ?s)] => let v := eval vm_compute in (cs s) in change (cs s) with v
  | H : context [chr ?s] |- _ => let v := eval vm_compute in (chr s) in change (chr s) with v in H
  | H : context [existsb _ (cs ?s)] |- _ => let v := eval vm_compute in (cs s) in change (cs s) with v in H
  end.

(** ** An escaped text read *)

(** A letter whose escape is no property, control, digit or reference. *)
Definition plain_escape (letter : Z) : bool :=
  negb (one_of "xpPucCMkg" letter) && negb (is_ascii_digit letter) && is_ascii_char letter
  && (negb (is_ascii_alphabetic letter) || one_of "abdefhnrstuvwxzABDGHKRSWXZ" letter).

Lemma plain_escape_reads p c letter t : plain_escape letter = true -> rest p = c :: letter :: t ->
  class_depth p = O -> escape p = (PEscape letter false (charset (frame p)), past 2 p).
Proof.
  intros P R D. unfold escape. rewrite R. change (skipn 1 (c :: letter :: t)) with (letter :: t). cbv zeta iota.
  rewrite D. change (0 <? 0)%nat with false.
  unfold plain_escape in P. rewrite !andb_true_iff, !negb_true_iff in P. destruct P as [[[X N] A] M].
  assert (Y : (letter =? 120) = false /\ (letter =? 112) = false /\ (letter =? 80) = false /\ (letter =? 117) = false
    /\ (letter =? 99) = false /\ (letter =? 67) = false /\ (letter =? 77) = false /\ (letter =? 107) = false
    /\ (letter =? 103) = false).
  { chars. cbn [existsb] in X. rewrite !orb_false_iff in X. tauto. }
  destruct Y as (Y1 & Y2 & Y3 & Y4 & Y5 & Y6 & Y7 & Y8 & Y9).
  assert (E : escape_has_meaning letter false (skipn 2 (rest p)) = one_of "abdefhnrstuvwxzABDGHKRSWXZ" letter).
  { unfold escape_has_meaning. chars. cbn [existsb]. now rewrite Y2, Y3, Y8, Y9. }
  unfold escape_property, escape_code_points, escape_itself, escape_reference. rewrite N, A, E. cbn [negb orb].
  assert (Alph : is_ascii_alphabetic letter && negb (one_of "abdefhnrstuvwxzABDGHKRSWXZ" letter) = false)
    by (destruct (is_ascii_alphabetic letter); [cbn in *; now rewrite M | reflexivity]).
  rewrite Alph. chars. cbn [existsb]. now rewrite Y1, Y2, Y3, Y4, Y5, Y6, Y7, Y8, Y9.
Qed.

Definition escaped_piece (p : Pieces) (c : Z) : Piece :=
  match escape_char c with
  | [_; letter] => PEscape letter false (charset (frame p))
  | text => PText text
  end.

(** How a character is escaped. *)
Lemma escape_char_cases c :
  (exists letter, escape_char c = [92; letter] /\ plain_escape letter = true
     /\ one_of "wdsWDSbB" letter = false)
  \/ (escape_char c = [c] /\ one_of ".\+*?()[]{}^$|-# " c = false
      /\ existsb (Z.eqb c) [9; 10; 11; 12; 13] = false).
Proof.
  unfold escape_char. destruct (one_of ".\+*?()[]{}^$|-# " c) eqn:S.
  - left. exists c. split; [reflexivity |].
    assert (T : forallb (fun c => plain_escape c && negb (one_of "wdsWDSbB" c)) (cs ".\+*?()[]{}^$|-# ") = true)
      by (vm_compute; reflexivity).
    apply existsb_exists in S as (d & Hin & E). apply Z.eqb_eq in E. subst d.
    rewrite forallb_forall in T. apply T in Hin. rewrite andb_true_iff, negb_true_iff in Hin. exact Hin.
  - cbn [existsb].
    destruct (c =? 10) eqn:E1; [left; exists (chr "n"); repeat split; vm_compute; reflexivity |].
    destruct (c =? 13) eqn:E2; [left; exists (chr "r"); repeat split; vm_compute; reflexivity |].
    destruct (c =? 9) eqn:E3; [left; exists (chr "t"); repeat split; vm_compute; reflexivity |].
    destruct (c =? 0x0c) eqn:E4; [left; exists (chr "f"); repeat split; vm_compute; reflexivity |].
    destruct (c =? 0x0b) eqn:E5; [left; exists (chr "v"); repeat split; vm_compute; reflexivity |].
    right. auto.
Qed.

Lemma next_escaped p c t : rest p = escape_char c ++ t -> class_depth p = O ->
  next p = Some (escaped_piece p c, past (length (escape_char c)) p).
Proof.
  intros R D. unfold escaped_piece. destruct (escape_char_cases c) as [(letter & E & P & _) | (E & S & W)]; rewrite E in *.
  - unfold next. rewrite R. cbn [app]. change (eqc "\" 92) with true. cbv iota.
    now rewrite (plain_escape_reads p 92 letter t P R D).
  - unfold next. rewrite R. cbn [app]. rewrite D. change (0 <? 0)%nat with false. cbv iota.
    unfold taken, brace. rewrite R. chars. unfold is_ascii_whitespace. cbn [existsb] in *.
    rewrite !orb_false_iff in *. destruct_and?.
    repeat match goal with H : (c =? _) = false |- _ => rewrite H; clear H end.
    now rewrite !andb_false_r.
Qed.

Lemma escape_str_cons c s : escape_str (c :: s) = escape_char c ++ escape_str s.
Proof. reflexivity. Qed.

Lemma past_escaped p c t : rest p = escape_char c ++ t ->
  rest (past (length (escape_char c)) p) = t.
Proof. intros R. cbn. rewrite R, skipn_app, skipn_all, Nat.sub_diag. reflexivity. Qed.

Lemma escape_char_nonempty c : (1 <= length (escape_char c))%nat.
Proof. destruct (escape_char_cases c) as [(? & -> & _) | (-> & _)]; cbn; lia. Qed.

Lemma length_escape_str s : (length s <= length (escape_str s))%nat.
Proof.
  induction s as [|c s IH]; [reflexivity |]. rewrite escape_str_cons, length_app. cbn [length].
  pose proof (escape_char_nonempty c). lia.
Qed.

(** Its pieces are its characters, each by itself. *)
Lemma pieces_escaped s : forall p turns, rest p = escape_str s -> class_depth p = O ->
  (length s <= turns)%nat -> read_all turns p = map (escaped_piece p) s.
Proof.
  induction s as [|c s IH]; intros p turns R D L.
  - destruct turns; [reflexivity |]. cbn. now rewrite (proj2 (next_none p) R).
  - destruct turns as [|turns]; [cbn in L; lia |]. cbn [read_all map].
    rewrite escape_str_cons in R. rewrite (next_escaped p c _ R D). f_equal.
    change (escaped_piece p) with (escaped_piece (past (length (escape_char c)) p)).
    apply IH; [now apply past_escaped | exact D | cbn in L; lia].
Qed.

Lemma names_of_none ps : (forall text name, PNamedGroup text name ∉ ps) -> names_of ps = [].
Proof.
  unfold names_of. generalize 0. induction ps as [|piece ps IH]; intros n N; [reflexivity |]. cbn [fold_left].
  assert (N' : forall text name, PNamedGroup text name ∉ ps) by (intros t m Hin; apply (N t m); now right).
  destruct piece; try now apply IH. destruct (N text name). now left.
Qed.

Lemma collect_names_escaped s extended : collect_names (escape_str s) extended = [].
Proof.
  unfold collect_names, pieces. rewrite (pieces_escaped s); [| reflexivity | reflexivity | apply length_escape_str].
  apply names_of_none. intros text name Hin. apply list_elem_of_In, in_map_iff in Hin as (c & E & _).
  unfold escaped_piece in E. destruct (escape_char c) as [|? [|? [|]]]; discriminate.
Qed.

Section Rewriting.
Context `{Unicode}.

(** A rewriter with no run to close and no close owed. *)
Definition idle (r : Rewriter) : Prop := literal_run r = [] /\ Forall (fun g => owed_closes g = O) (groups r).

Lemma rewrite_escaped p c r : charset (frame p) = Default -> idle r ->
  exists r', rewrite (escaped_piece p c) false r = Done r' /\ idle r' /\ out r' = out r ++ escape_char c.
Proof.
  intros C [R O]. unfold escaped_piece.
  destruct (escape_char_cases c) as [(letter & E & _ & W) | (E & S & _)]; rewrite E.
  - assert (Y : one_of "wdsWDS" letter = false /\ eqc "b" letter = false /\ eqc "B" letter = false).
    { chars. cbn [existsb] in *. rewrite !orb_false_iff in *. tauto. }
    destruct Y as (Y1 & Y2 & Y3).
    assert (Sh : shorthand letter false Default = Done None).
    { unfold shorthand. rewrite (bool_decide_eq_false_2 (Default = UnicodeSet)) by discriminate. cbn [andb negb].
      assert (L : eqc "w" (to_ascii_lowercase letter) = false /\ eqc "d" (to_ascii_lowercase letter) = false
        /\ eqc "s" (to_ascii_lowercase letter) = false).
      { clear -Y1. unfold to_ascii_lowercase, is_ascii_uppercase. chars. cbn [existsb] in Y1.
        rewrite !orb_false_iff, !Z.eqb_neq in *. destruct ((65 <=? letter) && (letter <=? 90)); lia. }
      destruct L as (L1 & L2 & L3). now rewrite L1, L2, L3. }
    unfold rewrite, before_piece, close_literal_run. rewrite R. cbn [tbind enter_class push_piece].
    rewrite C, Y2, Y3. cbn [orb]. unfold push_escape. rewrite Sh. cbn [tbind default from_option].
    unfold is_ascii_shorthand. rewrite Y1, andb_false_r. cbn [tbind]. eexists. split; [reflexivity |].
    split; [split; [exact R | exact O] | reflexivity].
  - assert (B : text_is "|" [c] = false).
    { unfold text_is. apply bool_decide_eq_false_2. intros [= ->]. discriminate S. }
    unfold rewrite, before_piece, close_literal_run. cbn [andb]. rewrite R. cbn [tbind enter_class push_piece].
    rewrite B. cbn [tbind]. eexists. split; [reflexivity |].
    split; [split; [exact R | exact O] | reflexivity].
Qed.

Lemma rewrite_all_escaped s : forall p r turns, rest p = escape_str s -> class_depth p = O ->
  charset (frame p) = Default -> ignores_case p = false -> idle r -> (length s <= turns)%nat ->
  exists r', rewrite_all turns p r = Done r' /\ idle r' /\ out r' = out r ++ escape_str s.
Proof.
  induction s as [|c s IH]; intros p r turns R D C I Id L.
  - exists r. rewrite app_nil_r. destruct turns; [auto |]. cbn. now rewrite (proj2 (next_none p) R).
  - destruct turns as [|turns]; [cbn in L; lia |]. rewrite escape_str_cons in R. cbn [rewrite_all].
    rewrite (next_escaped p c _ R D).
    change (ignores_case (past (length (escape_char c)) p)) with (ignores_case p). rewrite I, andb_false_r.
    destruct (rewrite_escaped p c r C Id) as (r1 & -> & Id1 & O1). cbn [tbind].
    destruct (IH (past (length (escape_char c)) p) r1 turns) as (r' & -> & Id' & O'); auto.
    + now apply past_escaped.
    + cbn in L. lia.
    + exists r'. split; [reflexivity | split; [assumption |]].
      now rewrite O', O1, <- app_assoc, escape_str_cons.
Qed.

Lemma escape_str_translated s options : has_option options IGNORECASE = false ->
  build_pattern (escape_str s) options = Done (header options ++ escape_str s).
Proof.
  intros I. unfold build_pattern. cbv zeta.
  set (names := collect_names _ _). set (captures := captures_of _ _ _). set (calls := existsb _ _).
  set (p := ignoring_case _ _).
  destruct (rewrite_all_escaped s p (rewriter_new names calls (header options)) (length (escape_str s)))
    as (r' & -> & [R O] & E); try reflexivity.
  - exact I.
  - repeat constructor.
  - apply length_escape_str.
  - cbn [tbind]. unfold finish, close_literal_run. rewrite R. cbn [tbind]. rewrite E.
    replace (list_sum (map owed_closes (groups r'))) with 0%nat; [cbn; now rewrite app_nil_r |].
    clear -O. induction O as [|g gs Z O IH]; [reflexivity |]. cbn. now rewrite Z.
Qed.
End Rewriting.

(** ** Flags *)
Definition option_bits (options : Z) : Z :=
  (if has_option options MULTILINE then MULTILINE else 0) + (if has_option options IGNORECASE then IGNORECASE else 0)
  + (if has_option options EXTENDED then EXTENDED else 0).

Lemma flags_parse options : parse_flag_string (enabled_flags options) = Some (option_bits options).
Proof.
  unfold enabled_flags, option_bits. cbn [FLAG_LETTERS fold_left].
  destruct (has_option options MULTILINE), (has_option options IGNORECASE), (has_option options EXTENDED); reflexivity.
Qed.

(** ** [to_s] *)

(** A source whose groups and classes close in it. *)
Definition closed (source : Str) : Prop := close_at (source ++ [chr ")"]) 0 1 false = Some (length source).

Lemma close_at_shift text : forall i k depth in_class,
  close_at text (k + i) depth in_class = (Nat.add k) <$> close_at text i depth in_class.
Proof.
  enough (G : forall n text i k depth in_class, (length text <= n)%nat ->
    close_at text (k + i) depth in_class = (Nat.add k) <$> close_at text i depth in_class) by (intros; now apply (G (length text))).
  clear text. induction n as [|n IH]; intros text i k depth in_class L.
  { destruct text; [reflexivity | cbn in L; lia]. }
  destruct text as [|c text]; [reflexivity |]. cbn [length] in L. cbn [close_at].
  assert (S1 : S (k + i) = (k + S i)%nat) by lia.
  assert (S2 : (2 + (k + i) = k + (2 + i))%nat) by lia.
  rewrite S1, S2.
  destruct (eqc "\" c); [destruct text; [reflexivity | apply IH; cbn in L; lia] |].
  destruct (_ && _); [apply IH; lia |]. destruct (_ && _); [apply IH; lia |]. destruct (_ && _); [apply IH; lia |].
  destruct (_ && _); [destruct (depth =? 1)%nat; [reflexivity | apply IH; lia] | apply IH; lia].
Qed.

Lemma close_at_from text i : close_at text i 1 false = (Nat.add i) <$> close_at text 0 1 false.
Proof. rewrite <- close_at_shift. f_equal. lia. Qed.

(** The flag letters and the rest of what [to_s] shows. *)
Definition flag_group (options : Z) (body : Str) : Str :=
  let '(on, off) := on_off_flags options in
  match off with
  | [] => cs "(?" ++ on ++ cs ":" ++ body ++ cs ")"
  | _ => cs "(?" ++ on ++ cs "-" ++ off ++ cs ":" ++ body ++ cs ")"
  end.

Lemma on_off_bits options : on_off_flags options = on_off_flags (option_bits options)
  /\ option_bits options ∈ [0; 1; 2; 3; 4; 5; 6; 7].
Proof.
  unfold option_bits, on_off_flags. cbn [FLAG_LETTERS fold_left].
  destruct (has_option options MULTILINE), (has_option options IGNORECASE), (has_option options EXTENDED);
    (split; [reflexivity | repeat (first [now left | right])]).
Qed.

(** Its letters, and the group they stand in. *)
Definition flag_head (options : Z) : Str :=
  let '(on, off) := on_off_flags options in
  match off with [] => on | _ => on ++ cs "-" ++ off end.
Definition in_group (head body : Str) : Str := cs "(?" ++ head ++ chr ":" :: body ++ [chr ")"].

Lemma flag_group_text options body : flag_group options body = in_group (flag_head options) body.
Proof.
  unfold flag_group, flag_head, in_group. destruct (on_off_flags options) as [on [|c off]]; [reflexivity |].
  now rewrite <- !app_assoc.
Qed.

Lemma read_flag_head bits t : bits ∈ [0; 1; 2; 3; 4; 5; 6; 7] ->
  read_flags (flag_head bits ++ chr ":" :: t) 2 0 0 false = Some (bits, 7 - bits, (3 + length (flag_head bits))%nat).
Proof.
  intros Hin. repeat (apply elem_of_cons in Hin as [-> | Hin]; [vm_compute; reflexivity |]).
  now apply not_elem_of_nil in Hin.
Qed.

(** A closed body in its group is lifted out of it. *)
Lemma lift_in_group head body en dis : closed body ->
  read_flags (head ++ chr ":" :: body ++ [chr ")"]) 2 0 0 false = Some (en, dis, (3 + length head)%nat) ->
  lift_inline_group (in_group head body) = Some (en, dis, body).
Proof.
  intros C Rf. unfold lift_inline_group.
  change (begins "(?" (in_group head body)) with true. cbv iota.
  change (skipn 2 (in_group head body)) with (head ++ chr ":" :: body ++ [chr ")"]).
  rewrite Rf. cbn [mbind option_bind].
  assert (Sk : skipn (3 + length head) (in_group head body) = body ++ [chr ")"]).
  { change (in_group head body) with ((cs "(?" ++ head) ++ [chr ":"] ++ body ++ [chr ")"]).
    rewrite app_assoc, skipn_app, skipn_all2, app_nil_l by (rewrite !length_app; cbn; lia).
    replace (_ - _)%nat with 0%nat by (rewrite !length_app; cbn; lia). reflexivity. }
  rewrite Sk, close_at_from, C. cbn [fmap option_fmap option_map mbind option_bind].
  rewrite (proj2 (Nat.eqb_eq _ _))
    by (unfold in_group; rewrite !length_app; cbn [length]; rewrite length_app; cbn; lia).
  unfold slice. rewrite Sk. f_equal. f_equal.
  replace (_ - _)%nat with (length body) by lia. rewrite firstn_app, firstn_all, Nat.sub_diag. apply app_nil_r.
Qed.

Lemma to_s_of_group options body : closed body -> rx_to_s (flag_group options body) 0 = flag_group options body.
Proof.
  intros C. destruct (on_off_bits options) as [E Hin].
  assert (G : flag_group options body = flag_group (option_bits options) body) by (unfold flag_group; now rewrite E).
  rewrite G. clear G E. generalize dependent (option_bits options). intros bits Hin.
  assert (Bits : Z.land (Z.lor 0 bits) (Z.lnot (7 - bits)) = bits).
  { repeat (apply elem_of_cons in Hin as [-> | Hin]; [reflexivity |]). now apply not_elem_of_nil in Hin. }
  unfold rx_to_s. rewrite flag_group_text, (lift_in_group _ body bits (7 - bits) C (read_flag_head bits _ Hin)), Bits.
  exact (flag_group_text bits body).
Qed.

(** What lifts is closed. *)
Lemma close_at_char text : forall i depth in_class n, close_at text i depth in_class = Some n ->
  exists j, n = (i + j)%nat /\ nth_error text j = Some (chr ")").
Proof.
  enough (G : forall m text i depth in_class n, (length text <= m)%nat -> close_at text i depth in_class = Some n ->
    exists j, n = (i + j)%nat /\ nth_error text j = Some (chr ")")) by (intros i d k n; now apply (G (length text))).
  clear text. induction m as [|m IH]; intros text i depth in_class n L E.
  { destruct text; [discriminate | cbn in L; lia]. }
  destruct text as [|c text]; [discriminate |]. cbn [length] in L. cbn [close_at] in E.
  assert (K : forall d k, close_at text (S i) d k = Some n ->
    exists j, n = (i + j)%nat /\ nth_error (c :: text) j = Some (chr ")")).
  { intros d k E'. apply IH in E' as (j & -> & N); [| lia]. exists (S j). split; [lia | exact N]. }
  destruct (eqc "\" c).
  { destruct text as [|c' text]; [discriminate |]. apply IH in E as (j & -> & N); [| cbn in L; lia].
    exists (S (S j)). split; [lia | exact N]. }
  destruct (_ && _); [eauto |]. destruct (_ && _); [eauto |]. destruct (_ && _); [eauto |].
  destruct (eqc ")" c && _) eqn:P; [| eauto]. destruct (depth =? 1)%nat; [| eauto]. injection E as <-.
  exists 0%nat. split; [lia |]. apply andb_true_iff in P as [P _]. apply Z.eqb_eq in P. cbn. now rewrite P.
Qed.

Lemma lift_closed source en dis body : lift_inline_group source = Some (en, dis, body) -> closed body.
Proof.
  unfold lift_inline_group. destruct (begins "(?" source); [| discriminate].
  destruct (read_flags _ _ _ _ _) as [[[en' dis'] n]|]; [| discriminate]. cbn [mbind option_bind].
  rewrite close_at_from. destruct (close_at (skipn n source) 0 1 false) as [i|] eqn:Cl; [| discriminate].
  cbn [fmap option_fmap option_map mbind option_bind]. destruct (_ =? _)%nat eqn:L; [| discriminate].
  intros [= <- <- <-]. apply Nat.eqb_eq in L. apply close_at_char in Cl as Ch. destruct Ch as (j & -> & N).
  cbn [Nat.add] in *. unfold slice. replace (n + j - n)%nat with j by lia.
  assert (T : skipn n source = firstn j (skipn n source) ++ [chr ")"]).
  { apply nth_error_split in N as (a & b & E & <-). rewrite E, firstn_app, firstn_all, Nat.sub_diag, app_nil_r.
    assert (length b = 0)%nat; [| destruct b; [reflexivity | discriminate]].
    apply (f_equal length) in E. rewrite length_skipn, length_app in E. cbn in E. lia. }
  assert (B : (j < length (skipn n source))%nat) by (apply nth_error_Some; congruence).
  unfold closed. rewrite <- T, Cl, length_firstn. f_equal. lia.
Qed.

Lemma rx_to_s_group source options :
  exists options' body, rx_to_s source options = flag_group options' body
    /\ match lift_inline_group source with Some (_, _, inner) => body = inner | None => body = source end.
Proof.
  unfold rx_to_s. destruct (lift_inline_group source) as [[[en dis] inner]|]; eexists _, _; (split; [| reflexivity]); reflexivity.
Qed.

Lemma to_s_again source options : closed source -> rx_to_s (rx_to_s source options) 0 = rx_to_s source options.
Proof.
  intros C. destruct (rx_to_s_group source options) as (o & body & -> & B). apply to_s_of_group.
  destruct (lift_inline_group source) as [[[en dis] inner]|] eqn:L; subst body; [| exact C].
  now apply lift_closed in L.
Qed.
