(* ===== verification/RxMatch.v ===== *)
(** What the guest's [Regexp], [MatchData] and [String] methods make of the
    engine's matches: kobako-regexp's [regexp.rs], [regexp/replace.rs],
    [regexp/globals.rs], [matchdata.rs] and [string_ext.rs].

    The engine (fancy-regex) and the cache of what it built (the lru crate) are
    parameters; so is the rest of the interpreter, which a block may change. A
    subject is its UTF-8 bytes, as every offset is one of theirs.

    What the matches found in a subject are, whatever engine finds them, and what
    the texts made of them keep of it. *)
From Stdlib Require Import String.
From S2P Require Import Prelude Text RxText RxTranslate RxRender RxFold.
Local Open Scope rx_scope.

Abbreviation Bytes := (list byte).

(** A group's place, and each group of one match: the whole match comes first. *)
Abbreviation Span := (nat * nat)%type.
Abbreviation Groups := (list (option Span)).

Class RegexEngine := {
  Compiled : Type;
  (** [RegexBuilder::new(..).backtrack_limit(..).build()]. *)
  build : Str -> Z -> result Str Compiled;
  captures_len : Compiled -> nat;
  capture_names : Compiled -> list (option Str);
  captures_from_pos : Compiled -> Bytes -> nat -> result Str (option Groups);
  (** [LruCache<(String, i64), Arc<Regex>>]. *)
  CompileCache : Type;
  lru_get : Str * Z -> CompileCache -> option Compiled * CompileCache;
  lru_put : Str * Z -> Compiled -> CompileCache -> CompileCache;
}.

Inductive RxError :=
| RegexpErr (source detail : Str)
| ReplaceExpression (replacement : Bytes)
| IndexErr (message : Bytes)
| Raised (exception : Z).

Inductive res (A : Type) := Val (a : A) | Raise (e : RxError) | Panic.
Arguments Val {A} a.
Arguments Raise {A} e.
Arguments Panic {A}.

Definition res_bind {A B} (m : res A) (k : A -> res B) : res B :=
  match m with Val a => k a | Raise e => Raise e | Panic => Panic end.
Notation "'let!' x := m 'in' k" := (res_bind m (fun x => k))
  (at level 10, x pattern, m at level 100, k at level 200) : rx_scope.
Local Open Scope rx_scope.

(** [&s[from..to]], of places in order in the subject. *)
Definition sub_str (s : Bytes) (at_ : Span) : Bytes := firstn (snd at_ - fst at_) (skipn (fst at_) s).

(** [char::len_utf8] of the character at a place, which its first byte tells. *)
Definition len_utf8_at (s : Bytes) (i : nat) : nat :=
  match nth_error s i with
  | None => 1%nat
  | Some b => let z := byte_to_Z b in
              if z <? 0x80 then 1%nat else if z <? 0xE0 then 2%nat else if z <? 0xF0 then 3%nat else 4%nat
  end.

Definition is_char_boundary (s : Bytes) (i : nat) : bool :=
  match nth_error s i with
  | None => (i =? length s)%nat
  | Some b => negb (is_cont b)
  end.

Definition group_at_index (groups : Groups) (i : nat) : option Span :=
  match nth_error groups i with Some g => g | None => None end.

(** [group_of_name]. *)
Definition group_of_name (indexes : list nat) (took_part : nat -> bool) : option nat :=
  match List.find took_part (rev indexes) with
  | Some i => Some i
  | None => head (rev indexes)
  end.

(** [resolve_pos], with its walk down to a character's first byte. *)
Fixpoint snap_down (s : Bytes) (p : nat) : nat :=
  match p with
  | O => O
  | S q => if is_char_boundary s p then p else snap_down s q
  end.
Definition resolve_pos (subject : Bytes) (pos : Z) : option nat :=
  let pos := if pos <? 0 then pos + len subject else pos in
  if (pos <? 0) || (len subject <? pos) then None else Some (snap_down subject (Z.to_nat pos)).

Section Matching.
Context `{RegexEngine}.

Record RegexpState := MkRegexpState {
  regex : Compiled;
  source : Str;
  options : Z;
}.

Record MatchState := MkMatchState {
  subject : Bytes;
  groups : Groups;
  names : list (Str * list nat);
}.

(** ** Compiling *)
Definition BACKTRACK_LIMIT : Z := 1000000.

Context `{Unicode}.

Definition compile (source : Str) (options : Z) (cache : CompileCache) : res RegexpState * CompileCache :=
  match lru_get (source, options) cache with
  | (Some regex, cache) => (Val (MkRegexpState regex source options), cache)
  | (None, cache) =>
    match build_pattern source options with
    | Panicked => (Panic, cache)
    | Refuse reason => (Raise (RegexpErr source reason), cache)
    | Done pattern =>
      match build pattern BACKTRACK_LIMIT with
      | Ok regex => (Val (MkRegexpState regex source options), lru_put (source, options) regex cache)
      | Err error => (Raise (RegexpErr source error), cache)
      end
    end
  end.

(** A [String] pattern, read as its characters or as the pattern it spells. *)
Definition literal_regexp (text : Str) := compile (escape_str text) 0.
Definition spelled_regexp (text : Str) := compile text 0.

Definition named_groups (state : RegexpState) : list (Str * list nat) :=
  snd (fold_left (fun '(index, groups) name =>
    (S index,
     match name with
     | None => groups
     | Some name =>
       (fix push (gs : list (Str * list nat)) : list (Str * list nat) :=
          match gs with
          | [] => [(name, [index])]
          | (existing, indexes) :: gs =>
            if bool_decide (existing = name) then (existing, indexes ++ [index]) :: gs
            else (existing, indexes) :: push gs
          end) groups
     end)) (capture_names (regex state)) (0%nat, [])).

(** ** [regexp/replace.rs] *)
Record MatchSpan := MkMatchSpan {
  whole : Span;
  span_groups : Groups;
}.

Definition next_pos (s : Bytes) (whole : Span) : nat :=
  if (fst whole <? snd whole)%nat then snd whole else (snd whole + len_utf8_at s (snd whole))%nat.

(** A match starts at the place sought from or past it, so as many turns as the
    subject has bytes, and two, go past its end. *)
Fixpoint spans_from (turns : nat) (state : RegexpState) (s : Bytes) (pos : nat) : res (list MatchSpan) :=
  match turns with
  | O => Panic
  | S turns =>
    if (pos <=? length s)%nat then
      match captures_from_pos (regex state) s pos with
      | Ok (Some captures) =>
        match group_at_index captures 0 with
        | None => Val []
        | Some whole =>
          let groups := map (group_at_index captures) (seq 1 (captures_len (regex state) - 1)) in
          let! spans := spans_from turns state s (next_pos s whole) in
          Val (MkMatchSpan whole groups :: spans)
        end
      | Ok None => Val []
      | Err error => Raise (RegexpErr (source state) error)
      end
    else Val []
  end.
Definition match_spans (state : RegexpState) (s : Bytes) : res (list MatchSpan) :=
  spans_from (length s + 2) state s 0.

Definition span_at (span : MatchSpan) (index : nat) : option Span :=
  match index with O => Some (whole span) | S i => group_at_index (span_groups span) i end.

(** [push_group]'s text. *)
Definition group_text (s : Bytes) (span : MatchSpan) (index : nat) : Bytes :=
  match span_at span index with Some at_ => sub_str s at_ | None => [] end.

Definition name_to_index (state : RegexpState) (span : MatchSpan) (name : Str) : option nat :=
  '(_, indexes) ← List.find (fun '(existing, _) => bool_decide (existing = name)) (named_groups state);
  group_of_name indexes (fun index => match group_at_index (span_groups span) (index - 1) with
                                      | Some _ => true | None => false end).

(** [read_group_name]: the name, and what follows. *)
Definition read_group_name (rest : Bytes) : option (Bytes * Bytes) :=
  match rest with
  | c :: rest =>
    if Byte.eqb c x3c then
      (fix read (rest name : Bytes) : option (Bytes * Bytes) :=
         match rest with
         | [] => None
         | c :: rest => if Byte.eqb c x3e then Some (name, rest) else read rest (name ++ [c])
         end) rest []
    else None
  | [] => None
  end.

(** The walk is by byte: a byte of a character past ASCII is none it looks for. *)
Fixpoint expand_from (turns : nat) (state : RegexpState) (s : Bytes) (span : MatchSpan)
    (replacement rest out : Bytes) : res Bytes :=
  match turns with
  | O => Val out
  | S turns =>
    match rest with
    | [] => Val out
    | c :: rest =>
      if negb (Byte.eqb c x5c) then expand_from turns state s span replacement rest (out ++ [c])
      else
        match rest with
        | [] => Val (out ++ [x5c])
        | d :: rest =>
          if Byte.eqb d x5c then expand_from turns state s span replacement rest (out ++ [x5c])
          else if Byte.eqb d x6b then
            match read_group_name rest with
            | None => Raise (ReplaceExpression replacement)
            | Some (name, rest) =>
              match name_to_index state span (chars name) with
              | None => Raise (IndexErr (lit "undefined group name reference: " ++ name))
              | Some index => expand_from turns state s span replacement rest (out ++ group_text s span index)
              end
            end
          else if is_ascii_digit (byte_to_Z d) then
            expand_from turns state s span replacement rest
              (out ++ group_text s span (Z.to_nat (byte_to_Z d - 48)))
          else expand_from turns state s span replacement rest (out ++ [x5c; d])
        end
    end
  end.
Definition expand_replacement (state : RegexpState) (s : Bytes) (span : MatchSpan) (replacement : Bytes)
  : res Bytes :=
  expand_from (length replacement) state s span replacement replacement [].

(** ** [regexp/globals.rs] *)

(** The globals that are views of [$~]. *)
Record Derived := MkDerived {
  matched : option Bytes;
  pre : option Bytes;
  post : option Bytes;
  last_group : option Bytes;
  numbered : list (option Bytes);
}.

Definition derived_of (s : Bytes) (groups : Groups) : Derived :=
  let whole := group_at_index groups 0 in
  MkDerived
    (sub_str s <$> whole)
    ((fun at_ => firstn (fst at_) s) <$> whole)
    ((fun at_ => skipn (snd at_) s) <$> whole)
    (sub_str s <$> head (omap id (rev (skipn 1 groups))))
    (map (fun i => sub_str s <$> group_at_index groups (S i)) (seq 0 9)).

Definition clear_derived : Derived := MkDerived None None None None (List.repeat None 9).

Context {G : Type}.

(** The interpreter: [$~] and its views, and all the rest. *)
Record Interp := MkInterp {
  last_match : option MatchState;
  derived : Derived;
  others : G;
}.

(** [finalize], and what a match leaves where there is none. *)
Definition finalize (state : MatchState) (w : Interp) : Interp :=
  MkInterp (Some state) (derived_of (subject state) (groups state)) (others w).
Definition clear_globals (w : Interp) : Interp := MkInterp None clear_derived (others w).

Definition set_last_match (value : option MatchState) (w : Interp) : Interp :=
  MkInterp value
    (match value with Some state => derived_of (subject state) (groups state) | None => clear_derived end)
    (others w).

Definition set_span_globals (re : RegexpState) (s : Bytes) (span : MatchSpan) (w : Interp) : Interp :=
  finalize (MkMatchState s (Some (whole span) :: span_groups span) (named_groups re)) w.
Definition settle_span_globals (re : RegexpState) (s : Bytes) (span : option MatchSpan) (w : Interp) : Interp :=
  match span with Some span => set_span_globals re s span w | None => clear_globals w end.

(** [do_match]. *)
Definition do_match (re : RegexpState) (s : Bytes) (pos : nat) (w : Interp) : res (option MatchState) * Interp :=
  match captures_from_pos (regex re) s pos with
  | Ok (Some captures) =>
    let groups := map (group_at_index captures) (seq 0 (captures_len (regex re))) in
    let state := MkMatchState s groups (named_groups re) in
    (Val (Some state), finalize state w)
  | Ok None => (Val None, clear_globals w)
  | Err error => (Raise (RegexpErr (source re) error), w)
  end.

(** [rx_match] of text, past its block: a place out of range matches nothing and
    leaves [$~] as it is. *)
Definition rx_match (re : RegexpState) (s : Bytes) (pos : Z) (w : Interp) : res (option MatchState) * Interp :=
  match resolve_pos s pos with Some pos => do_match re s pos w | None => (Val None, w) end.

(** ** [string_ext.rs] *)

(** Guest code given a match's text, whose answer is read as text: a block, or a
    Hash looked up. *)
Definition Guest_code : Type := Bytes -> Interp -> res Bytes * Interp.

Inductive Replacement := Text_given (text : Bytes) | Hash_given (lookup : Guest_code).

Definition replace_span (re : RegexpState) (s : Bytes) (span : MatchSpan) (block : option Guest_code)
    (replacement : option Replacement) (w : Interp) : res Bytes * Interp :=
  match replacement, block with
  | Some (Hash_given lookup), _ => lookup (sub_str s (whole span)) w
  | Some (Text_given text), _ => (expand_replacement re s span text, w)
  | None, Some block => block (sub_str s (whole span)) w
  | None, None => (Val [], w)
  end.

(** [gsub]'s loop, from [last] on. *)
Fixpoint gsub_from (re : RegexpState) (s : Bytes) (block : option Guest_code) (replacement : option Replacement)
    (spans : list MatchSpan) (last : nat) (out : Bytes) (w : Interp) : res (Bytes * nat) * Interp :=
  match spans with
  | [] => (Val (out, last), w)
  | span :: spans =>
    let out := out ++ sub_str s (last, fst (whole span)) in
    let w := match block with Some _ => set_span_globals re s span w | None => w end in
    match replace_span re s span block replacement w with
    | (Val text, w) => gsub_from re s block replacement spans (snd (whole span)) (out ++ text) w
    | (Raise e, w) => (Raise e, w)
    | (Panic, w) => (Panic, w)
    end
  end.

(** [str_gsub] with a block or a replacement. *)
Definition str_gsub (re : RegexpState) (s : Bytes) (block : option Guest_code) (replacement : option Replacement)
    (w : Interp) : res Bytes * Interp :=
  match match_spans re s with
  | Val spans =>
    match gsub_from re s block replacement spans 0 [] w with
    | (Val (out, last), w) =>
      (Val (out ++ skipn last s), settle_span_globals re s (List.last (map Some spans) None) w)
    | (Raise e, w) => (Raise e, w)
    | (Panic, w) => (Panic, w)
    end
  | Raise e => (Raise e, w)
  | Panic => (Panic, w)
  end.

Definition str_sub (re : RegexpState) (s : Bytes) (block : option Guest_code) (replacement : option Replacement)
    (w : Interp) : res Bytes * Interp :=
  match match_spans re s with
  | Val spans =>
    let w := settle_span_globals re s (head spans) w in
    match spans with
    | [] => (Val s, w)
    | span :: _ =>
      let '(text, w) := replace_span re s span block replacement w in
      (let! text := text in
       Val (firstn (fst (whole span)) s ++ text ++ skipn (snd (whole span)) s), w)
    end
  | Raise e => (Raise e, w)
  | Panic => (Panic, w)
  end.

(** What [scan] finds: each match, or each one's groups. *)
Definition scan_item (s : Bytes) (span : MatchSpan) : list (option Bytes) :=
  match span_groups span with
  | [] => [Some (sub_str s (whole span))]
  | groups => map (fmap (sub_str s)) groups
  end.

Definition str_scan (re : RegexpState) (s : Bytes) (w : Interp) : res (list (list (option Bytes))) * Interp :=
  match match_spans re s with
  | Val spans => (Val (map (scan_item s) spans), settle_span_globals re s (List.last (map Some spans) None) w)
  | Raise e => (Raise e, w)
  | Panic => (Panic, w)
  end.

(** [str_split]'s loop: the fields, from [last] on, [splits] made so far. *)
Fixpoint split_fields (s : Bytes) (limit : Z) (spans : list MatchSpan) (last : nat) (splits : Z) : list Span :=
  match spans with
  | [] => [(last, length s)]
  | span :: spans =>
    let '(start, stop) := whole span in
    if (start =? stop)%nat && (start =? last)%nat then split_fields s limit spans last splits
    else if (0 <? limit) && (limit - 1 <=? splits) then [(last, length s)]
    else (last, start) :: omap id (span_groups span) ++ split_fields s limit spans stop (splits + 1)
  end.

(** [while matches!(fields.last(), …) { fields.pop(); }]. *)
Definition drop_empty_last (fields : list Span) : list Span :=
  rev ((fix drop (fs : list Span) : list Span :=
          match fs with
          | (start, stop) :: fs' => if (start =? stop)%nat then drop fs' else fs
          | [] => []
          end) (rev fields)).

Definition split_of (s : Bytes) (limit : Z) (spans : list MatchSpan) : list Span :=
  let fields := split_fields s limit spans 0 0 in
  if limit =? 0 then drop_empty_last fields else fields.

Definition str_split (re : RegexpState) (s : Bytes) (limit : Z) : res (list Bytes) :=
  let! spans := match_spans re s in
  Val (map (sub_str s) (split_of s limit spans)).

(** [str_index]: a match in what is past the place, by the [=~] that leaves [$~]. *)
Definition str_index (re : RegexpState) (s : Bytes) (pos : Z) (w : Interp) : res (option Z) * Interp :=
  match resolve_pos s pos with
  | None => (Val None, w)
  | Some start =>
    let '(found, w) := do_match re (skipn start s) 0 w in
    (let! found := found in
     Val (state ← found;
          at_ ← group_at_index (groups state) 0;
          Some (as_i32 (Z.of_nat (fst at_) + Z.of_nat start))), w)
  end.

(** ** [matchdata.rs] *)
Inductive GroupRef := By_index (index : Z) | By_name (name : Str).

Definition group_of (state : MatchState) (indexes : list nat) : option nat :=
  group_of_name indexes (fun index => match group_at_index (groups state) index with
                                      | Some _ => true | None => false end).

(** [numeric_index] of an index or a name. *)
Definition numeric_index (state : MatchState) (ref : GroupRef) : res Z :=
  match ref with
  | By_index n => Val n
  | By_name name =>
    match ('(_, indexes) ← List.find (fun '(n, _) => bool_decide (n = name)) (names state);
           group_of state indexes) with
    | Some index => Val (Z.of_nat index)
    | None => Raise (IndexErr (lit "undefined group name reference: " ++ concat (map char_utf8 name)))
    end
  end.

(** [group_at], which [begin], [end] and [offset] read. *)
Definition group_at (state : MatchState) (ref : GroupRef) : res (option Span) :=
  let! index := numeric_index state ref in
  if (index <? 0) || (len (groups state) <=? index) then
    Raise (IndexErr (lit "index " ++ (if index <? 0 then [x2d] else []) ++ display_uint (Z.abs index)
                     ++ lit " out of matches"))
  else Val (group_at_index (groups state) (Z.to_nat index)).

Definition group_str (state : MatchState) (index : nat) : option Bytes :=
  sub_str (subject state) <$> group_at_index (groups state) index.
Definition md_to_a (state : MatchState) : list (option Bytes) :=
  map (group_str state) (seq 0 (length (groups state))).
Definition md_captures (state : MatchState) : list (option Bytes) :=
  map (group_str state) (seq 1 (length (groups state) - 1)).
Definition md_named_captures (state : MatchState) : list (Str * option Bytes) :=
  map (fun '(name, indexes) =>
    (name, match group_of state indexes with Some index => group_str state index | None => None end))
    (names state).
Definition md_pre_match (state : MatchState) : Bytes :=
  match group_at_index (groups state) 0 with Some at_ => firstn (fst at_) (subject state) | None => [] end.
Definition md_post_match (state : MatchState) : Bytes :=
  match group_at_index (groups state) 0 with Some at_ => skipn (snd at_) (subject state) | None => [] end.
End Matching.

(** * Facts *)

(** ** Characters of a text *)

Lemma decoded {A B} (m : option A) (f : A -> B) :
  match (a ← m; Some (f a)) with Some _ => true | None => false end = true ->
  match m with Some _ => true | None => false end = true.
Proof. now destruct m. Qed.

(** A text's first character, and the rest, which is text. *)
Lemma utf8_first s b r : s = b :: r -> utf8_valid s = true ->
  is_cont b = false /\ exists n, len_utf8_at s 0 = S n /\ (n <= length r)%nat
    /\ utf8_valid (skipn n r) = true
    /\ forall i, (i < n)%nat -> exists c, nth_error r i = Some c /\ is_cont c = true.
Proof.
  intros -> V. unfold utf8_valid in V. cbn [utf8_decode] in V. unfold len_utf8_at. cbn [nth_error]. cbv zeta in *.
  unfold is_cont at 1. cbv zeta. set (z := byte_to_Z b) in *.
  assert (C : forall b1, second_ok z (byte_to_Z b1) = true -> is_cont b1 = true).
  { intros b1. unfold second_ok, is_cont. cbv zeta. rewrite !andb_true_iff, !Z.leb_le, !Z.ltb_lt.
    repeat case_match; rewrite ?andb_true_iff, ?Z.leb_le, ?Z.ltb_lt; lia. }
  destruct (z <? 0x80) eqn:E1.
  { apply Z.ltb_lt in E1. split; [rewrite andb_false_iff; left; apply Z.leb_gt; lia |].
    exists 0%nat. repeat split; [lia | | lia]. exact (decoded _ _ V). }
  destruct ((0xC2 <=? z) && (z <=? 0xDF)) eqn:E2.
  { apply andb_true_iff in E2 as [A B]. apply Z.leb_le in A, B.
    split; [rewrite andb_false_iff; right; apply Z.ltb_ge; lia |].
    rewrite (proj2 (Z.ltb_lt _ _)) by lia. destruct r as [|b1 r1]; [discriminate |].
    destruct (is_cont b1) eqn:C1; [| discriminate]. exists 1%nat. cbn [length skipn]. repeat split; [lia | |].
    - exact (decoded _ _ V).
    - intros [|i] Hi; [exists b1; auto | lia]. }
  destruct ((0xE0 <=? z) && (z <=? 0xEF)) eqn:E3.
  { apply andb_true_iff in E3 as [A B]. apply Z.leb_le in A, B.
    split; [rewrite andb_false_iff; right; apply Z.ltb_ge; lia |].
    rewrite (proj2 (Z.ltb_ge z 0xE0)), (proj2 (Z.ltb_lt z 0xF0)) by lia.
    destruct r as [|b1 [|b2 r2]]; try discriminate.
    destruct (second_ok z (byte_to_Z b1) && is_cont b2) eqn:C1; [| discriminate].
    apply andb_true_iff in C1 as [C1 C2]. apply C in C1. exists 2%nat. cbn [length skipn]. repeat split; [lia | |].
    - exact (decoded _ _ V).
    - intros [|[|i]] Hi; [exists b1 | exists b2 | lia]; auto. }
  destruct ((0xF0 <=? z) && (z <=? 0xF4)) eqn:E4; [| discriminate].
  apply andb_true_iff in E4 as [A B]. apply Z.leb_le in A, B.
  split; [rewrite andb_false_iff; right; apply Z.ltb_ge; lia |].
  rewrite (proj2 (Z.ltb_ge z 0xE0)), (proj2 (Z.ltb_ge z 0xF0)) by lia.
  destruct r as [|b1 [|b2 [|b3 r3]]]; try discriminate.
  destruct (second_ok z (byte_to_Z b1) && is_cont b2 && is_cont b3) eqn:C1; [| discriminate].
  apply andb_true_iff in C1 as [C1 C3]. apply andb_true_iff in C1 as [C1 C2]. apply C in C1.
  exists 3%nat. cbn [length skipn]. repeat split; [lia | |].
  - exact (decoded _ _ V).
  - intros [|[|[|i]]] Hi; [exists b1 | exists b2 | exists b3 | lia]; auto.
Qed.

Lemma boundary_skipn s k i : (k <= length s)%nat -> is_char_boundary (skipn k s) i = is_char_boundary s (k + i).
Proof.
  intros L. unfold is_char_boundary. rewrite nth_error_skipn, length_skipn.
  destruct (nth_error s (k + i)); [reflexivity |]. apply eq_iff_eq_true. rewrite !Nat.eqb_eq. lia.
Qed.

Lemma len_utf8_skipn s k i : len_utf8_at (skipn k s) i = len_utf8_at s (k + i).
Proof. unfold len_utf8_at. now rewrite nth_error_skipn. Qed.

Lemma boundary_start s : utf8_valid s = true -> is_char_boundary s 0 = true.
Proof.
  intros V. destruct s as [|b r]; [reflexivity |]. unfold is_char_boundary. cbn.
  destruct (utf8_first (b :: r) b r eq_refl V) as [-> _]. reflexivity.
Qed.

Lemma boundary_end s : is_char_boundary s (length s) = true.
Proof.
  unfold is_char_boundary. rewrite (proj2 (nth_error_None s (length s)) (Nat.le_refl _)). apply Nat.eqb_refl.
Qed.

(** A boundary's character ends at the next one, the first past it. *)
Definition ends_character (s : Bytes) (e n : nat) : Prop :=
  is_char_boundary s (e + n) = true /\ (e + n <= length s)%nat
  /\ forall i, (0 < i < n)%nat -> is_char_boundary s (e + i) = false.

Lemma ends_character_skipn k s e n : (k <= length s)%nat ->
  ends_character (skipn k s) e n -> ends_character s (k + e) n.
Proof.
  intros L (A & B & C). rewrite length_skipn in B. unfold ends_character.
  rewrite boundary_skipn, Nat.add_assoc in A by exact L. split; [exact A | split; [lia |]].
  intros i Hi. specialize (C i Hi). now rewrite boundary_skipn, Nat.add_assoc in C by exact L.
Qed.

Lemma boundary_next s e : utf8_valid s = true -> is_char_boundary s e = true -> (e < length s)%nat ->
  ends_character s e (len_utf8_at s e).
Proof.
  enough (G : forall m s e, (length s <= m)%nat -> utf8_valid s = true -> is_char_boundary s e = true ->
    (e < length s)%nat -> ends_character s e (len_utf8_at s e))
    by (now apply (G (length s))).
  clear s e. induction m as [|m IH]; intros s e L V B E; [lia |].
  destruct s as [|b r]; [cbn in E; lia |].
  destruct (utf8_first (b :: r) b r eq_refl V) as (_ & n & N1 & N2 & N3 & N4). cbn [length] in *.
  change (skipn n r) with (skipn (S n) (b :: r)) in N3.
  destruct e as [|e].
  - rewrite N1. repeat split; [| cbn; lia |].
    + cbn [Nat.add]. rewrite <- (Nat.add_0_r (S n)), <- boundary_skipn by (cbn; lia). now apply boundary_start.
    + intros [|i] Hi; [lia |]. destruct (N4 i ltac:(lia)) as (c & Nc & Cc).
      unfold is_char_boundary. cbn. now rewrite Nc, Cc.
  - destruct (Nat.lt_ge_cases e n) as [En | En].
    { destruct (N4 e En) as (c & Nc & Cc). unfold is_char_boundary in B. cbn in B. rewrite Nc, Cc in B. discriminate. }
    assert (P : S e = (S n + (e - n))%nat) by lia. rewrite P in *.
    rewrite <- len_utf8_skipn. apply ends_character_skipn; [cbn; lia |].
    rewrite <- boundary_skipn in B by (cbn; lia).
    apply IH; auto; rewrite ?length_skipn; cbn [length] in *; lia.
Qed.

(** ** The engine's matches *)

(** What fancy-regex documents of a match: it starts at the place sought from or
    past it, and each group's place is one of the subject's text. *)
Class EngineLaws `{RegexEngine} : Prop := {
  engine_whole re s pos captures : utf8_valid s = true -> (pos <= length s)%nat -> is_char_boundary s pos = true ->
    captures_from_pos re s pos = Ok (Some captures) ->
    exists at_, group_at_index captures 0 = Some at_ /\ (pos <= fst at_)%nat;
  engine_group re s pos captures i at_ : utf8_valid s = true -> (pos <= length s)%nat -> is_char_boundary s pos = true ->
    captures_from_pos re s pos = Ok (Some captures) -> group_at_index captures i = Some at_ ->
    (fst at_ <= snd at_ <= length s)%nat
    /\ is_char_boundary s (fst at_) = true /\ is_char_boundary s (snd at_) = true;
}.

Definition in_text (s : Bytes) (at_ : Span) : Prop :=
  (fst at_ <= snd at_ <= length s)%nat
  /\ is_char_boundary s (fst at_) = true /\ is_char_boundary s (snd at_) = true.

Section Matching.
Context `{RegexEngine} `{Unicode}.

(** Matches one after the other, each past the one before it. *)
Fixpoint in_order (s : Bytes) (pos : nat) (spans : list MatchSpan) : Prop :=
  match spans with
  | [] => True
  | span :: spans =>
    (pos <= fst (whole span))%nat /\ in_text s (whole span)
    /\ Forall (fun g => match g with Some at_ => in_text s at_ | None => True end) (span_groups span)
    /\ in_order s (Nat.max (snd (whole span)) (S (fst (whole span)))) spans
  end.

(** Where the next match is sought: at the first character that is past the
    start of this one and not in it, or past the end of the subject. *)
Definition past_match (s : Bytes) (at_ : Span) (p : nat) : Prop :=
  (snd at_ <= p)%nat /\ (fst at_ < p)%nat /\ (is_char_boundary s p = true \/ (length s < p)%nat).
Definition sought_next (s : Bytes) (at_ : Span) (p : nat) : Prop :=
  past_match s at_ p /\ forall q, past_match s at_ q -> (p <= q)%nat.

(** The matches of a subject, sought one after the other to its end. *)
Inductive Finds (state : RegexpState) (s : Bytes) : nat -> list MatchSpan -> Prop :=
| Finds_past pos : (length s < pos)%nat -> Finds state s pos []
| Finds_none pos : (pos <= length s)%nat -> captures_from_pos (regex state) s pos = Ok None -> Finds state s pos []
| Finds_match pos captures at_ next spans : (pos <= length s)%nat ->
    captures_from_pos (regex state) s pos = Ok (Some captures) -> group_at_index captures 0 = Some at_ ->
    sought_next s at_ next -> Finds state s next spans ->
    Finds state s pos (MkMatchSpan at_ (map (group_at_index captures) (seq 1 (captures_len (regex state) - 1))) :: spans).

Context `{!EngineLaws}.

Lemma next_pos_on s at_ : utf8_valid s = true -> in_text s at_ ->
  (fst at_ < next_pos s at_ /\ snd at_ <= next_pos s at_)%nat
  /\ ((next_pos s at_ <= length s)%nat -> is_char_boundary s (next_pos s at_) = true)
  /\ forall q, past_match s at_ q -> (next_pos s at_ <= q)%nat.
Proof.
  intros V ([A B] & C & D). unfold next_pos. destruct (fst at_ <? snd at_)%nat eqn:E.
  - apply Nat.ltb_lt in E. unfold past_match. repeat split; auto with lia.
  - apply Nat.ltb_ge in E.
    assert (L : (1 <= len_utf8_at s (snd at_))%nat) by (unfold len_utf8_at; repeat case_match; lia).
    split; [lia |].
    destruct (Nat.lt_ge_cases (snd at_) (length s)) as [Lt | Ge].
    + destruct (boundary_next s (snd at_) V D Lt) as (B1 & B2 & B3). split; [auto |].
      intros q (Q1 & Q2 & [Q3 | Q3]); [| lia]. apply Nat.nlt_ge. intros Q.
      specialize (B3 (q - snd at_)%nat ltac:(lia)). replace (snd at_ + (q - snd at_))%nat with q in B3 by lia.
      congruence.
    + assert (N : nth_error s (snd at_) = None) by (apply nth_error_None; lia).
      unfold len_utf8_at. rewrite N. split; [lia |]. intros q (_ & Q & _). lia.
Qed.

Lemma next_pos_sought s at_ : utf8_valid s = true -> in_text s at_ -> sought_next s at_ (next_pos s at_).
Proof.
  intros V In. destruct (next_pos_on s at_ V In) as ([A B] & C & D). split; [| exact D].
  repeat split; [exact B | exact A |]. destruct (Nat.le_gt_cases (next_pos s at_) (length s)); auto.
Qed.

Lemma in_order_from s spans : forall pos pos', (pos' <= pos)%nat -> in_order s pos spans -> in_order s pos' spans.
Proof. destruct spans as [|span spans]; [auto |]. intros pos pos' L (A & B). split; [lia | exact B]. Qed.


Lemma spans_from_spec turns state s : utf8_valid s = true -> forall pos,
  ((pos <= length s)%nat -> is_char_boundary s pos = true) -> (length s + 2 <= turns + pos)%nat -> (1 <= turns)%nat ->
  match spans_from turns state s pos with
  | Val spans => Finds state s pos spans /\ in_order s pos spans
  | Raise e => exists detail, e = RegexpErr (source state) detail
  | Panic => False
  end.
Proof.
  intros V. induction turns as [|turns IH]; intros pos B T T1; [lia |]. cbn [spans_from].
  destruct (pos <=? length s)%nat eqn:P.
  2: { apply Nat.leb_gt in P. split; [now constructor | exact I]. }
  apply Nat.leb_le in P. specialize (B P).
  destruct (captures_from_pos (regex state) s pos) as [[captures|] | error] eqn:E; [| now split; [constructor |] | eauto].
  destruct (engine_whole _ _ _ _ V P B E) as (at_ & W & F). rewrite W.
  pose proof (engine_group _ _ _ _ 0 at_ V P B E W) as In.
  destruct (next_pos_on s at_ V In) as ([N1 N2] & N3 & _).
  specialize (IH (next_pos s at_) N3).
  destruct (Nat.le_gt_cases turns 0) as [Z | Z].
  { lia. }
  specialize (IH ltac:(lia) ltac:(lia)).
  destruct (spans_from turns state s (next_pos s at_)) as [spans | e |]; cbn [res_bind]; [| exact IH | contradiction].
  destruct IH as [IH1 IH2]. split; [eapply Finds_match; eauto using next_pos_sought |]. cbn [in_order whole span_groups].
  repeat split; try assumption; try apply In; [| eapply in_order_from; [| exact IH2]; lia]. apply Forall_map, Forall_forall. intros i Hi.
  destruct (group_at_index captures i) as [g|] eqn:Gi; [| exact I]. eapply engine_group; eauto.
Qed.

Lemma match_spans_spec state s : utf8_valid s = true ->
  match match_spans state s with
  | Val spans => Finds state s 0 spans /\ in_order s 0 spans
  | Raise e => exists detail, e = RegexpErr (source state) detail
  | Panic => False
  end.
Proof. intros V. apply spans_from_spec; [assumption | intros _; now apply boundary_start | lia | lia]. Qed.
End Matching.

(** ** Texts cut and joined *)
Lemma sub_str_join s a b c : (a <= b <= c)%nat -> (c <= length s)%nat ->
  sub_str s (a, b) ++ sub_str s (b, c) = sub_str s (a, c).
Proof.
  intros A C. unfold sub_str. cbn [fst snd].
  replace (c - a)%nat with ((b - a) + (c - b))%nat by lia.
  rewrite <- (firstn_skipn (b - a) (firstn (b - a + (c - b)) (skipn a s))).
  rewrite firstn_firstn, skipn_firstn_comm, skipn_skipn. f_equal; f_equal; try lia. f_equal. lia.
Qed.

Lemma sub_str_tail s a : (a <= length s)%nat -> skipn a s = sub_str s (a, length s).
Proof. intros A. unfold sub_str. cbn. rewrite firstn_all2; [reflexivity |]. rewrite length_skipn. lia. Qed.

Lemma sub_str_all s : sub_str s (0, length s)%nat = s.
Proof. unfold sub_str. cbn. rewrite Nat.sub_0_r. apply firstn_all. Qed.

Lemma sub_str_nil s a : sub_str s (a, a) = [].
Proof. unfold sub_str. cbn. now rewrite Nat.sub_diag. Qed.

Section Making.
Context `{RegexEngine} `{Unicode} {G : Type}.
Implicit Types w : Interp (G := G).

(** The subject with each match's text replaced. *)
Fixpoint woven (s : Bytes) (spans : list MatchSpan) (texts : list Bytes) (last : nat) : Bytes :=
  match spans, texts with
  | span :: spans, text :: texts =>
    sub_str s (last, fst (whole span)) ++ text ++ woven s spans texts (snd (whole span))
  | _, _ => skipn last s
  end.

Lemma in_order_after s span spans pos : in_order s pos (span :: spans) ->
  in_order s (snd (whole span)) spans.
Proof.
  intros (_ & _ & _ & O). eapply in_order_from; [| exact O]. lia.
Qed.

Lemma woven_itself s spans : forall last, (last <= length s)%nat -> in_order s last spans ->
  woven s spans (map (fun span => sub_str s (whole span)) spans) last = skipn last s.
Proof.
  induction spans as [|span spans IH]; intros last L O; [reflexivity |]. cbn [woven map].
  pose proof (in_order_after _ _ _ _ O) as O'. destruct O as (A & ([B1 B2] & _) & _ & _).
  rewrite IH by (assumption || lia). destruct (whole span) as [a b]. cbn [fst snd] in *.
  rewrite !(sub_str_tail s) by lia. rewrite (sub_str_join s a b) by lia. apply sub_str_join; lia.
Qed.

(** The text of a group of a match: the whole of it first, nothing where the
    group took no part or there is none. *)
Definition text_of_group (s : Bytes) (span : MatchSpan) (index : nat) : Bytes :=
  match nth_error (Some (whole span) :: span_groups span) index with
  | Some (Some at_) => sub_str s at_
  | _ => []
  end.

(** The groups of a name, and the one it stands for in a match: the last that
    took part, or the last of all where none did. *)
Definition indexes_named (re : RegexpState) (name : Str) : list nat :=
  List.filter (fun i => bool_decide (nth_error (capture_names (regex re)) i = Some (Some name)))
    (seq 0 (length (capture_names (regex re)))).

Definition took_part (span : MatchSpan) (index : nat) : Prop :=
  exists at_, nth_error (span_groups span) (index - 1) = Some (Some at_).

Definition stands_for (re : RegexpState) (span : MatchSpan) (name : Str) (index : nat) : Prop :=
  (exists before after, indexes_named re name = before ++ index :: after
     /\ took_part span index /\ Forall (fun i => ~ took_part span i) after)
  \/ (Forall (fun i => ~ took_part span i) (indexes_named re name)
      /\ exists before, indexes_named re name = before ++ [index]).

(** What a replacement's text makes of a match, by the references in it. *)
Inductive Expands (re : RegexpState) (s : Bytes) (span : MatchSpan) : Bytes -> Bytes -> Prop :=
| Expands_end : Expands re s span [] []
| Expands_plain c rest out : c <> x5c -> Expands re s span rest out -> Expands re s span (c :: rest) (c :: out)
| Expands_trailing : Expands re s span [x5c] [x5c]
| Expands_backslash rest out : Expands re s span rest out ->
    Expands re s span (x5c :: x5c :: rest) (x5c :: out)
| Expands_number d rest out : 48 <= byte_to_Z d <= 57 -> Expands re s span rest out ->
    Expands re s span (x5c :: d :: rest) (text_of_group s span (Z.to_nat (byte_to_Z d - 48)) ++ out)
| Expands_name name index rest out : ~ In x3e name -> stands_for re span (chars name) index ->
    Expands re s span rest out ->
    Expands re s span (x5c :: x6b :: x3c :: name ++ x3e :: rest) (text_of_group s span index ++ out)
| Expands_other d rest out : d <> x5c -> d <> x6b -> ~ 48 <= byte_to_Z d <= 57 ->
    Expands re s span rest out -> Expands re s span (x5c :: d :: rest) (x5c :: d :: out).

Lemma indexes_named_snoc (names : list (option Str)) (name : Str) (x : option Str) :
  let indexed (names : list (option Str)) := List.filter (fun i => bool_decide (nth_error names i = Some (Some name))) (seq 0 (length names)) in
  indexed (names ++ [x]) = indexed names ++ (if bool_decide (x = Some name) then [length names] else []).
Proof.
  cbv beta zeta. rewrite length_app, seq_app, List.filter_app. f_equal.
  - apply filter_ext_in. intros i Hi. apply in_seq in Hi. now rewrite nth_error_app1 by lia.
  - cbn. rewrite nth_error_app2, Nat.sub_diag by lia. cbn.
    repeat case_bool_decide; congruence.
Qed.

(** The named groups, each name with its groups in order. *)
Lemma named_groups_find re name :
  snd <$> List.find (fun '(existing, _) => bool_decide (existing = name)) (named_groups re)
  = match indexes_named re name with [] => None | indexes => Some indexes end.
Proof.
  unfold named_groups, indexes_named. match goal with |- context [fold_left ?f _ _] => set (push := f) end.
  enough (G0 : forall ns : list (option Str), fst (fold_left push ns (0%nat, [])) = length ns
    /\ snd <$> List.find (fun '(existing, _) => bool_decide (existing = name)) (snd (fold_left push ns (0%nat, [])))
       = match List.filter (fun i => bool_decide (nth_error ns i = Some (Some name))) (seq 0 (length ns)) with
         | [] => None | indexes => Some indexes end) by apply G0.
  induction ns as [|x ns [IH1 IH2]] using rev_ind; [now split |].
  rewrite fold_left_app. destruct (fold_left push ns (0%nat, [])) as [index groups]. cbn [fst snd fold_left] in *.
  subst index. rewrite length_app. split; [unfold push; cbn; lia |]. unfold push at 1. cbn [fst snd].
  pose proof (indexes_named_snoc ns name x) as F. cbv beta zeta in F. rewrite length_app in F. rewrite F. clear F.
  revert IH2. generalize (List.filter (fun i => bool_decide (nth_error ns i = Some (Some name))) (seq 0 (length ns))).
  intros before IH. destruct x as [other|]; cycle 1.
  { case_bool_decide; [discriminate | rewrite app_nil_r; exact IH]. }
  revert before IH. induction groups as [|[existing indexes] groups IHg]; intros before IH; cbn [List.find] in *.
  - destruct before; [| discriminate]. repeat case_bool_decide; cbn; congruence.
  - destruct (decide (existing = other)) as [-> | N].
    + rewrite bool_decide_true by reflexivity. cbn [List.find].
      destruct (decide (other = name)) as [-> | N']; [rewrite !bool_decide_true in * by reflexivity |
        rewrite !bool_decide_false in * by congruence; rewrite app_nil_r; exact IH].
      cbn in *. destruct before; [discriminate |]. injection IH as ->. reflexivity.
    + rewrite bool_decide_false by exact N. cbn [List.find]. destruct (bool_decide (existing = name)) eqn:B.
      * apply bool_decide_eq_true in B as ->. rewrite bool_decide_false by congruence. rewrite app_nil_r. exact IH.
      * apply IHg, IH.
Qed.

Lemma group_of_name_stands re span name index : name_to_index re span name = Some index ->
  stands_for re span name index.
Proof.
  unfold name_to_index. pose proof (named_groups_find re name) as F.
  destruct (List.find _ (named_groups re)) as [[n indexes]|]; [| discriminate]. cbn in F.
  assert (E : indexes_named re name = indexes) by (destruct (indexes_named re name); congruence). clear F.
  cbn. unfold group_of_name.
  assert (T : forall i, match group_at_index (span_groups span) (i - 1) with Some _ => true | None => false end = true
      <-> took_part span i).
  { intros i. unfold group_at_index, took_part.
    destruct (nth_error _ _) as [[at_|]|]; split; try discriminate; eauto; intros [? ?]; congruence. }
  unfold stands_for. rewrite E. clear E.
  assert (Fd : forall l, match List.find (fun i => match group_at_index (span_groups span) (i - 1) with Some _ => true | None => false end) l with
    | Some i => exists a b, l = a ++ i :: b /\ took_part span i /\ Forall (fun i => ~ took_part span i) a
    | None => Forall (fun i => ~ took_part span i) l end).
  { induction l as [|i l IH]; cbn; [constructor |].
    destruct (match group_at_index _ _ with Some _ => true | None => false end) eqn:K.
    - exists [], l. split; [reflexivity |]. split; [now apply T | constructor].
    - assert (K' : ~ took_part span i) by (rewrite <- T; congruence).
      destruct (List.find _ l); [| now constructor].
      destruct IH as (a & b & -> & P & Q). exists (i :: a), b. auto. }
  specialize (Fd (rev indexes)). destruct (List.find _ (rev indexes)) as [i|].
  - intros [= <-]. destruct Fd as (a & b & R & P & Q). left. exists (rev b), (rev a).
    apply (f_equal (@rev nat)) in R. rewrite rev_involutive in R. rewrite R, rev_app_distr. cbn. rewrite <- app_assoc.
    split; [reflexivity |]. split; [exact P | now apply List.Forall_rev].
  - intros R. right. apply List.Forall_rev in Fd. rewrite rev_involutive in Fd. split; [exact Fd |].
    destruct (rev indexes) as [|j l] eqn:Q; [discriminate |]. injection R as ->. exists (rev l).
    apply (f_equal (@rev nat)) in Q. now rewrite rev_involutive in Q.
Qed.

Lemma group_text_of s span index : group_text s span index = text_of_group s span index.
Proof.
  unfold group_text, text_of_group, span_at, group_at_index. destruct index; [reflexivity |]. cbn.
  now destruct (nth_error (span_groups span) index) as [[at_|]|].
Qed.

Lemma read_group_name_reads rest name after : read_group_name rest = Some (name, after) ->
  rest = x3c :: name ++ x3e :: after /\ ~ In x3e name.
Proof.
  unfold read_group_name. destruct rest as [|c rest]; [discriminate |].
  destruct (Byte.eqb c x3c) eqn:C; [| discriminate]. apply byte_eqb_true in C as ->.
  set (read := fix read (rest name : Bytes) := _).
  enough (R : forall rest acc, ~ In x3e acc -> read rest acc = Some (name, after) ->
    acc ++ rest = name ++ x3e :: after /\ ~ In x3e name).
  { intros E. apply (R rest []) in E as [<- N]; [split; [reflexivity | exact N] | auto]. }
  clear rest. induction rest as [|c rest IH]; intros acc N E; cbn in E; [discriminate |].
  destruct (Byte.eqb c x3e) eqn:C.
  - apply byte_eqb_true in C as ->. injection E as <- <-. auto.
  - apply IH in E; [now rewrite <- app_assoc in E |]. rewrite in_app_iff. intros [? | [-> | []]]; [contradiction |].
    discriminate.
Qed.

(** The whole of a replacement's text is read, as the references say. *)
Lemma expand_from_expands re s span text turns : forall rest out r, (length rest <= turns)%nat ->
  expand_from turns re s span text rest out = Val r -> exists t, Expands re s span rest t /\ r = out ++ t.
Proof.
  assert (St : forall out (a : Bytes) t, (out ++ a) ++ t = out ++ a ++ t) by (intros; now rewrite <- app_assoc).
  induction turns as [|turns IH]; intros rest out r L E.
  { destruct rest; [| cbn in L; lia]. injection E as <-. exists []. rewrite app_nil_r. split; [constructor | reflexivity]. }
  destruct rest as [|c rest]; cbn [expand_from] in E.
  { injection E as <-. exists []. rewrite app_nil_r. split; [constructor | reflexivity]. }
  cbn [length] in L. destruct (Byte.eqb c x5c) eqn:C; cbn [negb] in E.
  2: { apply IH in E as (t & X & ->); [| lia]. exists (c :: t). split; [| apply St]. constructor; [| exact X].
       intros ->. discriminate. }
  apply byte_eqb_true in C as ->. destruct rest as [|d rest].
  { injection E as <-. exists [x5c]. split; [apply Expands_trailing | reflexivity]. }
  cbn [length] in L. destruct (Byte.eqb d x5c) eqn:D.
  { apply byte_eqb_true in D as ->. apply IH in E as (t & X & ->); [| lia]. exists (x5c :: t).
    split; [now apply Expands_backslash | apply St]. }
  destruct (Byte.eqb d x6b) eqn:K.
  { apply byte_eqb_true in K as ->. destruct (read_group_name rest) as [[name after]|] eqn:N; [| discriminate].
    apply read_group_name_reads in N as [-> N].
    destruct (name_to_index re span (chars name)) as [index|] eqn:Ix; [| discriminate].
    apply group_of_name_stands in Ix. apply IH in E as (t & X & ->); [| cbn in L; rewrite length_app in L; cbn in L; lia].
    eexists. split; [apply Expands_name; eauto |]. rewrite group_text_of. apply St. }
  destruct (is_ascii_digit (byte_to_Z d)) eqn:Dg; apply IH in E as (t & X & ->); try lia.
  - unfold is_ascii_digit in Dg. apply andb_true_iff in Dg as [G1 G2]. apply Z.leb_le in G1, G2.
    eexists. split; [apply Expands_number; [lia | exact X] |]. rewrite group_text_of. apply St.
  - exists (x5c :: d :: t). split; [| apply St].
    apply Expands_other; [intros -> | intros -> | intros [G1 G2] | exact X]; try discriminate.
    unfold is_ascii_digit in Dg. rewrite (proj2 (Z.leb_le _ _)), (proj2 (Z.leb_le _ _)) in Dg by lia. discriminate.
Qed.

(** What [$~] and its views show of a match, or of none. *)
Definition views_show (s : Bytes) (span : MatchSpan) (views : Derived) : Prop :=
  matched views = Some (sub_str s (whole span))
  /\ pre views = Some (firstn (fst (whole span)) s)
  /\ post views = Some (skipn (snd (whole span)) s)
  /\ match last_group views with
     | Some text => exists before at_ after, span_groups span = before ++ Some at_ :: after
         /\ Forall (eq None) after /\ text = sub_str s at_
     | None => Forall (eq None) (span_groups span)
     end
  /\ length (numbered views) = 9%nat
  /\ forall i, (i < 9)%nat -> nth_error (numbered views) i
       = Some match nth_error (span_groups span) i with Some (Some at_) => Some (sub_str s at_) | _ => None end.

Definition globals_show (re : RegexpState) (s : Bytes) (found : option MatchSpan) w : Prop :=
  match found with
  | Some span => last_match w = Some (MkMatchState s (Some (whole span) :: span_groups span) (named_groups re))
      /\ views_show s span (derived w)
  | None => last_match w = None /\ derived w = MkDerived None None None None (List.repeat None 9)
  end.

Lemma last_group_shown (s : Bytes) (groups : Groups) :
  match sub_str s <$> head (omap id (rev groups)) with
  | Some text => exists before at_ after, groups = before ++ Some at_ :: after
      /\ Forall (eq None) after /\ text = sub_str s at_
  | None => Forall (eq None) groups
  end.
Proof.
  induction groups as [|g groups IH] using rev_ind; [constructor |]. rewrite rev_app_distr. cbn.
  destruct g as [at_|].
  - cbn. exists groups, at_, []. auto.
  - cbn. destruct (sub_str s <$> _); [| apply Forall_app; auto].
    destruct IH as (before & at_ & after & -> & F & ->). exists before, at_, (after ++ [None]).
    rewrite <- app_assoc. split; [reflexivity | split; [apply Forall_app; auto | reflexivity]].
Qed.

Lemma set_span_globals_show re s span w :
  globals_show re s (Some span) (set_span_globals re s span w) /\ others (set_span_globals re s span w) = others w.
Proof.
  split; [| reflexivity]. split; [reflexivity |]. unfold views_show, set_span_globals, finalize, derived_of.
  cbn [derived subject groups matched pre post last_group numbered group_at_index nth_error fmap option_fmap option_map skipn].
  do 3 (split; [reflexivity |]). split; [apply last_group_shown |].
  split; [now rewrite length_map, length_seq |]. intros i Hi.
  rewrite nth_error_map, nth_error_nth' with (d := 0%nat) by (now rewrite length_seq).
  rewrite seq_nth by exact Hi. cbn. unfold group_at_index. cbn.
  now destruct (nth_error (span_groups span) i) as [[at_|]|].
Qed.

Lemma settle_span_globals_show re s found w :
  globals_show re s found (settle_span_globals re s found w) /\ others (settle_span_globals re s found w) = others w.
Proof. destruct found; [apply set_span_globals_show | repeat split]. Qed.

(** The text put for a match: what the Hash or the block given answers of its
    text, or what the text given makes of it. *)
Definition Replaced (re : RegexpState) (s : Bytes) (span : MatchSpan) (block : option Guest_code)
    (replacement : option Replacement) w (text : Bytes) w' : Prop :=
  match replacement, block with
  | Some (Hash_given lookup), _ => lookup (sub_str s (whole span)) w = (Val text, w')
  | Some (Text_given given), _ => Expands re s span given text /\ w' = w
  | None, Some block => block (sub_str s (whole span)) w = (Val text, w')
  | None, None => text = [] /\ w' = w
  end.

Lemma replace_span_replaced re s span block replacement w text w' :
  replace_span re s span block replacement w = (Val text, w') -> Replaced re s span block replacement w text w'.
Proof.
  unfold replace_span, Replaced. destruct replacement as [[given | lookup]|]; [| auto | destruct block; [auto | now intros [= <- <-]]].
  intros [= E <-]. apply expand_from_expands in E as (t & X & ->); [| lia]. split; [exact X | reflexivity].
Qed.

(** The texts a replacement makes of the matches, the interpreter threaded
    through: a block finds the globals at the match it is given. *)
Inductive Made (re : RegexpState) (s : Bytes) (block : option Guest_code) (replacement : option Replacement)
  : list MatchSpan -> Interp -> list Bytes -> Interp -> Prop :=
| Made_none w : Made re s block replacement [] w [] w
| Made_next span spans w w0 text w1 texts w2 :
    match block with Some _ => globals_show re s (Some span) w0 /\ others w0 = others w | None => w0 = w end ->
    Replaced re s span block replacement w0 text w1 ->
    Made re s block replacement spans w1 texts w2 ->
    Made re s block replacement (span :: spans) w (text :: texts) w2.

Lemma gsub_from_made re s block replacement spans : forall last out w r w',
  gsub_from re s block replacement spans last out w = (Val r, w') ->
  exists texts, Made re s block replacement spans w texts w'
    /\ fst r ++ skipn (snd r) s = out ++ woven s spans texts last.
Proof.
  induction spans as [|span spans IH]; intros last out w r w' E; cbn [gsub_from] in E.
  - injection E as <- <-. exists []. split; [constructor | reflexivity].
  - destruct (replace_span re s span block replacement _) as [[text | |] w1] eqn:R; try discriminate.
    apply IH in E as (texts & M & E). exists (text :: texts). split.
    + econstructor; [| apply replace_span_replaced; exact R | exact M].
      destruct block; [apply set_span_globals_show | reflexivity].
    + rewrite E. cbn [woven]. now rewrite <- !app_assoc.
Qed.

(** What ends [gsub] without an answer: what a replacement raised, or a block. *)
Lemma gsub_from_fails re s block replacement spans : forall last out w,
  match gsub_from re s block replacement spans last out w with
  | (Val _, _) => True
  | (Raise e, w') => exists span w0, In span spans /\ replace_span re s span block replacement w0 = (Raise e, w')
  | (Panic, w') => exists span w0, In span spans /\ replace_span re s span block replacement w0 = (Panic, w')
  end.
Proof.
  induction spans as [|span spans IH]; intros last out w; cbn [gsub_from]; [exact I |].
  destruct (replace_span re s span block replacement _) as [[text | e |] w1] eqn:R.
  - specialize (IH (snd (whole span)) ((out ++ sub_str s (last, fst (whole span))) ++ text) w1).
    destruct (gsub_from _ _ _ _ _ _ _ _) as [[r | e |] w2]; [exact I | ..];
      destruct IH as (sp & w0 & Hin & E); exists sp, w0; (split; [now right | exact E]).
  - eexists span, _. split; [now left | exact R].
  - eexists span, _. split; [now left | exact R].
Qed.

Lemma gsub_woven re s block replacement w out w' : str_gsub re s block replacement w = (Val out, w') ->
  exists spans texts w1, match_spans re s = Val spans /\ Made re s block replacement spans w texts w1
    /\ out = woven s spans texts 0 /\ w' = settle_span_globals re s (List.last (map Some spans) None) w1.
Proof.
  unfold str_gsub. destruct (match_spans re s) as [spans | |]; try discriminate.
  destruct (gsub_from re s block replacement spans 0 [] w) as [[[o l] | |] w1] eqn:E; try discriminate.
  intros [= <- <-]. apply gsub_from_made in E as (texts & M & E). exists spans, texts, w1. auto.
Qed.

(** A replacement with no backslash is put as it is, and [\0] is the match. *)
Lemma expand_plain re s span text : Forall (fun c => Byte.eqb c x5c = false) text ->
  expand_replacement re s span text = Val text.
Proof.
  unfold expand_replacement. intros F. generalize text at 2. intros whole_text.
  enough (G0 : forall out, expand_from (length text) re s span whole_text text out = Val (out ++ text)) by apply G0.
  induction F as [|c text C F IH]; intros out; cbn [length expand_from]; [now rewrite app_nil_r |].
  rewrite C. cbn [negb]. rewrite IH, <- app_assoc. reflexivity.
Qed.

Lemma expands_match re s span text : Expands re s span (lit "\0") text -> text = sub_str s (whole span).
Proof.
  change (lit "\0") with [x5c; x30]. intros X.
  inversion X as [| c r o N | | | d r o D R | |d r o _ _ N]; subst; [now destruct N | | destruct N; vm_compute; split; discriminate].
  inversion R; subst. apply app_nil_r.
Qed.

(** A replacement that answers each match with itself. *)
Definition echoes (re : RegexpState) (s : Bytes) (block : option Guest_code) (replacement : option Replacement) : Prop :=
  forall span w text w', Replaced re s span block replacement w text w' -> text = sub_str s (whole span).

Lemma made_echoed re s block replacement spans w texts w' : echoes re s block replacement ->
  Made re s block replacement spans w texts w' -> texts = map (fun span => sub_str s (whole span)) spans.
Proof.
  intros Ec. induction 1 as [w|span spans w w0 text w1 texts w2 B R M IH]; [reflexivity |].
  cbn [map]. rewrite IH. f_equal. eapply Ec, R.
Qed.

Lemma woven_echoed re s block replacement spans w texts w' : echoes re s block replacement ->
  in_order s 0 spans -> Made re s block replacement spans w texts w' -> woven s spans texts 0 = s.
Proof.
  intros Ec O M. apply made_echoed in M as ->; [| exact Ec]. now rewrite woven_itself by (lia || assumption).
Qed.

(** [sub] replaces the first match alone. *)
Lemma sub_woven re s block replacement w out w' : str_sub re s block replacement w = (Val out, w') ->
  exists spans, match_spans re s = Val spans /\
    match spans with
    | [] => out = s /\ w' = clear_globals w
    | span :: _ => exists text, replace_span re s span block replacement (set_span_globals re s span w) = (Val text, w')
        /\ out = woven s [span] [text] 0
    end.
Proof.
  unfold str_sub. destruct (match_spans re s) as [spans | |]; try discriminate.
  intros E. exists spans. split; [reflexivity |]. destruct spans as [|span spans]; [now injection E as <- <- |].
  cbn [head settle_span_globals] in E.
  destruct (replace_span re s span block replacement _) as [[text | |] w1] eqn:R; try discriminate.
  injection E as <- <-. exists text. split; [reflexivity |]. cbn [woven]. f_equal.
  unfold sub_str. cbn. now rewrite Nat.sub_0_r.
Qed.

(** ** Fields *)

(** Fields with what stood between them. *)
Fixpoint rejoined (fields : list Bytes) (between : list Bytes) : Bytes :=
  match fields, between with
  | f :: fields, b :: between => f ++ b ++ rejoined fields between
  | f :: _, [] => f
  | [], _ => []
  end.

Lemma split_fields_rejoin s limit spans : forall last splits, (last <= length s)%nat -> in_order s last spans ->
  Forall (fun span => omap id (span_groups span) = []) spans ->
  exists separators, rejoined (map (sub_str s) (split_fields s limit spans last splits)) separators = skipn last s
    /\ length (split_fields s limit spans last splits) = S (length separators)
    /\ Forall (fun t => exists span, span ∈ spans /\ t = sub_str s (whole span)) separators.
Proof.
  induction spans as [|span spans IH]; intros last splits L O F.
  { exists []. split; [symmetry; now apply sub_str_tail | auto]. }
  pose proof (in_order_after _ _ _ _ O) as O'. destruct O as (A & ([B1 B2] & _) & _ & On).
  inversion F as [|? ? F1 F2]; subst. cbn [split_fields].
  destruct (whole span) as [a b] eqn:Wh. cbn [fst snd] in *.
  destruct ((a =? b)%nat && (a =? last)%nat) eqn:Z.
  { apply andb_true_iff in Z as [Z1 Z2]. apply Nat.eqb_eq in Z1, Z2. subst.
    destruct (IH last splits L O' F2) as (seps & R & Ln & Fs). exists seps. repeat split; auto.
    eapply Forall_impl; [| exact Fs]. intros t (sp & Hin & ->). exists sp. split; [now right | reflexivity]. }
  destruct ((0 <? limit) && (limit - 1 <=? splits)).
  { exists []. split; [symmetry; now apply sub_str_tail | auto]. }
  rewrite F1. cbn [app map length rejoined].
  destruct (IH b (splits + 1) ltac:(lia) O' F2) as (seps & R & Ln & Fs).
  exists (sub_str s (a, b) :: seps). cbn [rejoined length]. rewrite R, Ln. split; [| split; [reflexivity |]].
  - rewrite !(sub_str_tail s) by lia. rewrite (sub_str_join s a b) by lia. apply sub_str_join; lia.
  - constructor; [exists span; split; [now left | now rewrite Wh] |].
    eapply Forall_impl; [| exact Fs]. intros t (sp & Hin & ->). exists sp. split; [now right | reflexivity].
Qed.

Lemma split_fields_count s limit spans : 0 < limit -> Forall (fun span => omap id (span_groups span) = []) spans ->
  forall last splits, 0 <= splits < limit -> splits + len (split_fields s limit spans last splits) <= limit.
Proof.
  intros L. induction 1 as [|span spans F1 F IH]; intros last splits S.
  - cbn. unfold len. cbn. lia.
  - cbn [split_fields]. destruct (whole span) as [a b]. destruct (_ && _); [auto |].
    rewrite (proj2 (Z.ltb_lt 0 limit) L). cbn [andb]. destruct (limit - 1 <=? splits) eqn:E.
    + unfold len. cbn. lia.
    + apply Z.leb_gt in E. rewrite F1. cbn [app]. rewrite len_cons. specialize (IH b (splits + 1) ltac:(lia)). lia.
Qed.

(** ** [$~] and its views *)
Definition synced w : Prop :=
  derived w = match last_match w with Some state => derived_of (subject state) (groups state) | None => clear_derived end.

Lemma settle_synced re s span w : synced (settle_span_globals re s span w).
Proof. destruct span; reflexivity. Qed.

Lemma finds_synced re s pos w found w' : do_match re s pos w = (Val found, w') -> synced w' /\ last_match w' = found.
Proof.
  unfold do_match. destruct (captures_from_pos _ _ _) as [[captures|] | error]; try discriminate;
    intros [= <- <-]; split; reflexivity.
Qed.

(** The views are what the match itself answers. *)
Lemma views_answer state : let views := derived_of (subject state) (groups state) in
  matched views = group_str state 0
  /\ numbered views = map (group_str state) (seq 1 9)
  /\ (forall at_, group_at_index (groups state) 0 = Some at_ -> (fst at_ <= snd at_ <= length (subject state))%nat ->
      pre views = Some (md_pre_match state) /\ post views = Some (md_post_match state)
      /\ md_pre_match state ++ default [] (matched views) ++ md_post_match state = subject state).
Proof.
  cbv zeta. split; [reflexivity | split].
  - unfold derived_of, numbered. rewrite <- seq_shift, map_map. reflexivity.
  - intros at_ E L. unfold derived_of, md_pre_match, md_post_match. cbn [pre post matched]. rewrite E.
    split; [reflexivity | split; [reflexivity |]].
    change (default [] (sub_str (subject state) <$> Some at_)) with (sub_str (subject state) at_).
    rewrite (sub_str_tail _ (snd at_)) by lia. destruct at_ as [a b]. cbn [fst snd] in *.
    rewrite sub_str_join by lia. rewrite <- sub_str_tail by lia. apply firstn_skipn.
Qed.
End Making.

(** ** The compile cache *)
Class CacheLaws `{RegexEngine} : Prop := {
  get_keeps key cache other regex cache' : lru_get key cache = (regex, cache') ->
    forall found, fst (lru_get other cache') = Some found -> fst (lru_get other cache) = Some found;
  put_adds key regex cache other found : fst (lru_get other (lru_put key regex cache)) = Some found ->
    (other = key /\ found = regex) \/ fst (lru_get other cache) = Some found;
}.

Section Compiling.
Context `{RegexEngine} `{!CacheLaws} `{Unicode}.

(** A pattern compiled afresh. *)
Definition compiled (source : Str) (options : Z) : res RegexpState :=
  match build_pattern source options with
  | Panicked => Panic
  | Refuse reason => Raise (RegexpErr source reason)
  | Done pattern =>
    match build pattern BACKTRACK_LIMIT with
    | Ok regex => Val (MkRegexpState regex source options)
    | Err error => Raise (RegexpErr source error)
    end
  end.

(** Whatever the cache has is what compiling makes. *)
Definition sound (cache : CompileCache) : Prop := forall source options regex,
  fst (lru_get (source, options) cache) = Some regex ->
  compiled source options = Val (MkRegexpState regex source options).

Lemma compile_sound source options cache : sound cache ->
  fst (compile source options cache) = compiled source options /\ sound (snd (compile source options cache)).
Proof.
  intros S. unfold compile. destruct (lru_get (source, options) cache) as [found cache'] eqn:G.
  assert (S' : sound cache') by (intros s o r E; apply S; eapply get_keeps; eauto).
  destruct found as [regex|].
  - split; [| exact S']. symmetry. apply S. now rewrite G.
  - unfold compiled. destruct (build_pattern source options) as [pattern | |] eqn:B; cbn; auto.
    destruct (build pattern BACKTRACK_LIMIT) as [regex |] eqn:Bd; cbn; auto. split; [reflexivity |].
    intros s o r E. apply put_adds in E as [[[= -> ->] ->] | E]; [| now apply S'].
    unfold compiled. now rewrite B, Bd.
Qed.
End Compiling.

(** ** A place asked for *)
Lemma snap_down_spec s p : utf8_valid s = true ->
  (snap_down s p <= p)%nat /\ is_char_boundary s (snap_down s p) = true
  /\ forall q, (q <= p)%nat -> is_char_boundary s q = true -> (q <= snap_down s p)%nat.
Proof.
  intros V. induction p as [|p (A & B & C)]; cbn [snap_down].
  - split; [lia | split; [now apply boundary_start | lia]].
  - destruct (is_char_boundary s (S p)) eqn:E; [auto with lia |]. split; [lia | split; [exact B |]].
    intros q Hq Bq. destruct (decide (q = S p)) as [-> | N]; [congruence | apply C; [lia | exact Bq]].
Qed.

(** ** A sample engine: one ASCII character sought *)
Definition seek (c : byte) (s : Bytes) : nat -> nat -> option nat :=
  fix seek (turns pos : nat) : option nat :=
    match turns with
    | O => None
    | S turns => match nth_error s pos with
                 | Some b => if Byte.eqb b c then Some pos else seek turns (S pos)
                 | None => None
                 end
    end.

#[export] Instance char_engine : RegexEngine := {|
  Compiled := byte;
  build p _ := match rev p with c :: _ => Ok (byte_of_Z c) | [] => Err [] end;
  captures_len _ := 1%nat;
  capture_names _ := [None];
  captures_from_pos c s pos :=
    Ok (match (if is_ascii c then seek c s (S (length s)) pos else None) with
        | Some i => Some [Some (i, S i)]
        | None => None
        end);
  CompileCache := list (Str * Z * byte);
  lru_get key cache :=
    (snd <$> List.find (fun '(source, options, _) => bool_decide ((source, options) = key)) cache, cache);
  lru_put key regex cache := (fst key, snd key, regex) :: cache;
|}.

Lemma seek_spec c s turns : forall pos i, seek c s turns pos = Some i ->
  (pos <= i)%nat /\ nth_error s i = Some c.
Proof.
  induction turns as [|turns IH]; intros pos i; [discriminate |]. cbn [seek].
  destruct (nth_error s pos) as [b|] eqn:E; [| discriminate]. destruct (Byte.eqb b c) eqn:B.
  - intros [= <-]. apply byte_eqb_true in B as ->. auto.
  - intros F. apply IH in F as [L N]. split; [lia | exact N].
Qed.

#[export] Instance char_engine_laws : EngineLaws.
Proof.
  assert (K : forall c s pos captures, captures_from_pos c s pos = Ok (Some captures) ->
    exists i, captures = [Some (i, S i)] /\ (pos <= i)%nat /\ nth_error s i = Some c /\ is_ascii c = true).
  { intros c s pos captures. cbn -[seek]. destruct (is_ascii c) eqn:A; [| discriminate].
    destruct (seek c s _ pos) as [i|] eqn:F; [| discriminate]. intros [= <-].
    apply seek_spec in F as [L N]. eauto. }
  split.
  - intros re s pos captures _ _ _ E. apply K in E as (i & -> & L & _). exists (i, S i). auto.
  - intros re s pos captures i at_ V _ _ E G. apply K in E as (j & -> & L & N & A).
    destruct i as [|i]; [injection G as <- | destruct i; discriminate].
    assert (J : (j < length s)%nat) by (apply nth_error_Some; congruence).
    unfold is_ascii in A. apply Z.ltb_lt in A.
    assert (B : is_char_boundary s j = true).
    { unfold is_char_boundary. rewrite N. unfold is_cont. cbv zeta. rewrite (proj2 (Z.leb_gt _ _)) by lia. reflexivity. }
    destruct (boundary_next s j V B J) as [B1 _]. unfold len_utf8_at in B1. rewrite N in B1. cbv zeta in B1.
    rewrite (proj2 (Z.ltb_lt _ _)) in B1 by lia. rewrite Nat.add_1_r in B1. cbn [fst snd]. auto with lia.
Qed.

#[export] Instance char_cache_laws : CacheLaws.
Proof.
  split.
  - intros key cache other regex cache' [= _ <-] found E. exact E.
  - intros [s o] regex cache [s' o'] found. cbn. case_bool_decide as E; [| now right].
    intros [= ->]. left. split; [congruence | reflexivity].
Qed.
