(* ===== verification/RxRewriteFacts.v ===== *)
(** Where kobako-regexp's translation stands while it writes: every place it cuts
    its text at lies in the text, the groups it has open are the reader's, and
    nothing it does panics but a level's reference with no first ASCII character. *)
From Stdlib Require Import String.
From S2P Require Import Prelude Text RxText RxRepeat RxFold RxClasses RxPieces RxTranslate.
Local Open Scope rx_scope.

(** ** Places in the text written *)

(** Open groups start one after the other, the innermost by [bound]. *)
Fixpoint nested_starts (bound : nat) (gs : list OpenGroup) : Prop :=
  match gs with
  | [] => True
  | g :: gs => (start g <= bound)%nat /\ nested_starts (start g) gs
  end.

Lemma nested_starts_le m n gs : (m <= n)%nat -> nested_starts m gs -> nested_starts n gs.
Proof. destruct gs; [auto |]. cbn. intros L [? ?]. split; [lia | assumption]. Qed.

Lemma nested_starts_owe n gs : nested_starts n (owe_close gs) <-> nested_starts n gs.
Proof. destruct gs; reflexivity. Qed.

(** A place past every open group's start, in the text. *)
Definition inside (n : nat) (r : Rewriter) : Prop := nested_starts n (groups r) /\ (n <= length (out r))%nat.

Definition placed (r : Rewriter) : Prop :=
  nested_starts (length (out r)) (groups r)
  /\ match unit_start r with Some s => inside s r | None => True end
  /\ (literal_run r <> [] -> inside (literal_run_start r) r).

(** Ranges one after the other between two places. *)
Fixpoint ordered (from : nat) (ranges : list (nat * nat)) (to : nat) : Prop :=
  match ranges with
  | [] => (from <= to)%nat
  | (a, b) :: ranges => (from <= a <= b)%nat /\ ordered b ranges to
  end.

Lemma ordered_le from ranges : forall m n, (m <= n)%nat -> ordered from ranges m -> ordered from ranges n.
Proof.
  revert from. induction ranges as [|[a b] ranges IH]; intros from m n L; cbn; [lia |].
  intros [? ?]. split; [assumption |]. eauto.
Qed.

Lemma ordered_snoc from ranges a b : ordered from ranges a -> (a <= b)%nat -> ordered from (ranges ++ [(a, b)]) b.
Proof.
  revert from. induction ranges as [|[c d] ranges IH]; intros from; cbn; [lia |].
  intros [? ?] ?. split; [assumption | auto].
Qed.

(** A class being written: nothing is written but in it. *)
Definition class_placed (p : Pieces) (r : Rewriter) : Prop :=
  match folded_class r with
  | None => True
  | Some class =>
    (0 < class_depth p)%nat /\ literal_run r = []
    /\ match unit_start r with Some s => (s <= class_start class)%nat | None => True end
    /\ nested_starts (class_start class) (groups r)
    /\ ordered (S (class_start class)) (unfolded_classes class) (length (out r))
  end.

(** Each name has a group. *)
Definition names_numbered (names : Names) : Prop := Forall (fun n => snd n <> []) names.

Lemma ordered_bounds from ranges to : ordered from ranges to -> (from <= to)%nat.
Proof.
  revert from. induction ranges as [|[a b] ranges IH]; intros from; cbn; [auto |].
  intros [? O]. apply IH in O. lia.
Qed.

Lemma set_apart_length written from unfolded : forall at_ to, ordered at_ unfolded to -> (from <= at_)%nat ->
  (to <= from + length written)%nat ->
  (from + length written <= to + length (fst (set_apart written from at_ unfolded)))%nat.
Proof.
  induction unfolded as [|[a b] unfolded IH]; intros at_ to O F T; cbn [set_apart].
  - cbn in *. rewrite length_skipn. lia.
  - destruct O as [? O]. specialize (IH b to O ltac:(lia) T).
    destruct (set_apart written from b unfolded) as [rest ascii]. cbn [fst] in *. rewrite length_app. lia.
Qed.

Lemma set_apart_body written from a b unfolded to : ordered (S from) ((a, b) :: unfolded) to ->
  (to < from + length written)%nat ->
  (2 <= length (fst (set_apart written from from ((a, b) :: unfolded))))%nat.
Proof.
  intros [A O] T. cbn [set_apart].
  pose proof (set_apart_length written from unfolded b to O ltac:(lia) ltac:(lia)) as L.
  pose proof (ordered_bounds _ _ _ O).
  destruct (set_apart written from b unfolded) as [rest ascii]. cbn [fst] in *.
  rewrite length_app. unfold slice. rewrite length_firstn, length_skipn. lia.
Qed.

(** ** Each operation *)
Section Rewriting.
Context `{Unicode}.
Implicit Types r : Rewriter.

(** What writing leaves alone. *)
Definition same_rest (r r' : Rewriter) : Prop :=
  names r' = names r /\ literal_run r' = literal_run r /\ literal_run_start r' = literal_run_start r
  /\ folding r' = folding r.

Lemma inside_grows n r r' : groups r' = groups r -> (length (out r) <= length (out r'))%nat ->
  inside n r -> inside n r'.
Proof. intros E L [A B]. unfold inside. rewrite E. split; [assumption | lia]. Qed.

(** More text, nothing else changed. *)
Lemma placed_grows r r' : groups r' = groups r -> unit_start r' = unit_start r ->
  literal_run r' = literal_run r -> literal_run_start r' = literal_run_start r ->
  (length (out r) <= length (out r'))%nat -> placed r -> placed r'.
Proof.
  intros E1 E2 E3 E4 L (A & B & C). unfold placed. rewrite E1, E2, E3, E4. split; [| split].
  - eapply nested_starts_le; eauto.
  - destruct (unit_start r); [eapply inside_grows; eauto | exact I].
  - intros N. eapply inside_grows; eauto.
Qed.

Lemma push_grows s r : (length (out r) <= length (out (push s r)))%nat.
Proof. cbn. rewrite length_app. lia. Qed.

Lemma placed_push s r : placed r -> placed (push s r).
Proof. intros P. apply (placed_grows r); try reflexivity; [apply push_grows | assumption]. Qed.

(** Cut at a place inside, with no run, and more written after. *)
Lemma placed_cut n s r : literal_run r = [] -> inside n r ->
  match unit_start r with Some u => inside u r /\ (u <= n)%nat | None => True end ->
  placed (push s (truncate_out n r)).
Proof.
  intros R [A B] U. assert (L : (n <= length (out (push s (truncate_out n r))))%nat)
    by (cbn; rewrite length_app, length_firstn; lia).
  split; [| split].
  - eapply nested_starts_le; [exact L | exact A].
  - cbn [unit_start push set_out truncate_out]. destruct (unit_start r) as [u|]; [| exact I].
    destruct U as [[U1 U2] U3]. split; [exact U1 | lia].
  - cbn. congruence.
Qed.

Lemma tbind_done {A B} (m : tried A) (k : A -> tried B) b : tbind m k = Done b -> exists a, m = Done a /\ k a = Done b.
Proof. destruct m; [eauto | discriminate | discriminate]. Qed.

Lemma tbind_panicked {A B} (m : tried A) (k : A -> tried B) : tbind m k = Panicked ->
  m = Panicked \/ exists a, m = Done a /\ k a = Panicked.
Proof. destruct m; [eauto | discriminate | auto]. Qed.

Lemma expand_run_ends run : expand_run run <> Panicked.
Proof.
  unfold expand_run. destruct (negb _); [discriminate |]. intros E.
  apply tbind_panicked in E as [E | (out & _ & E)]; [| discriminate].
  now apply write_spellings_ends in E; [| lia].
Qed.

(** The run closed: rewritten from its start on, or left. *)
Lemma close_literal_run_ends b r : close_literal_run b r <> Panicked.
Proof.
  unfold close_literal_run. destruct (literal_run r) as [|c run]; [discriminate |]. cbv zeta.
  destruct (if b then _ else _) as [hd last]. intros E.
  apply tbind_panicked in E as [E | (h & _ & E)]; [now apply expand_run_ends in E |].
  apply tbind_panicked in E as [E | (l & _ & E)]; [now apply expand_run_ends in E |].
  destruct h, l; discriminate.
Qed.

Lemma close_literal_run_placed b r r' : placed r -> close_literal_run b r = Done r' ->
  placed r' /\ literal_run r' = [] /\ groups r' = groups r /\ folded_class r' = folded_class r
  /\ names r' = names r /\ (literal_run r = [] -> r' = r).
Proof.
  intros P. unfold close_literal_run. destruct (literal_run r) as [|c run] eqn:R.
  { intros [= <-]. split; [assumption | auto 10]. }
  destruct P as (P1 & P2 & P3). rewrite R in P3. specialize (P3 ltac:(discriminate)). destruct P3 as [P3 P4]. cbv zeta.
  destruct (if b then _ else _) as [hd last]. intros E.
  apply tbind_done in E as (h & _ & E). apply tbind_done in E as (l & _ & E).
  assert (C : r' = set_literal_run [] (literal_run_start r) (literal_run_last r) r \/
    exists x y, r' = set_unit_start (Some (if b then length (firstn (literal_run_start r) (out r) ++ x) else literal_run_start r))
      (set_literal_run [] (literal_run_start r) (literal_run_last r)
        (set_out ((firstn (literal_run_start r) (out r) ++ x) ++ y) r))).
  { destruct h, l; injection E as <-; [right; eauto .. | now left]. }
  clear E. destruct C as [-> | (x & y & ->)].
  { split; [| repeat split; discriminate]. split; [exact P1 | split; [exact P2 |]]. cbn. congruence. }
  set (n := literal_run_start r) in *.
  assert (N : (n <= length (firstn n (out r) ++ x))%nat) by (rewrite length_app, length_firstn; lia).
  assert (M : (length (firstn n (out r) ++ x) <= length ((firstn n (out r) ++ x) ++ y))%nat)
    by (rewrite (length_app (_ ++ x)); lia).
  split; [| repeat split; discriminate].
  split; [| split].
  - eapply nested_starts_le; [| exact P3]. cbn [out set_unit_start set_literal_run set_out]. lia.
  - unfold inside. cbn [out groups unit_start set_unit_start set_literal_run set_out].
    destruct b; (split; [eapply nested_starts_le; [| exact P3]; lia | lia]).
  - cbn. congruence.
Qed.

(** Outside a class nothing is set aside. *)
Lemma keep_unfolded_out start r : (start <= length (out r))%nat ->
  exists x, keep_unfolded start false r = set_out x r /\ (length (out r) <= length x)%nat
  \/ keep_unfolded start false r = r.
Proof.
  intros L. unfold keep_unfolded. destruct (negb (folding r)); [exists []; now right |]. cbn [negb].
  eexists. left. split; [reflexivity |]. rewrite !length_app, length_firstn, length_skipn. lia.
Qed.

Lemma repeat_unit_placed q r : placed r -> literal_run r = [] -> placed (repeat_unit q r).
Proof.
  intros P R. unfold repeat_unit. cbv zeta.
  assert (P' : placed (set_optional_look_around None r)) by exact P. revert P'.
  assert (R' : literal_run (set_optional_look_around None r) = []) by exact R. revert R'.
  generalize (set_optional_look_around None r). clear P R r. intros r R P.
  destruct (unit_start r) as [u|] eqn:U; [| now apply placed_push].
  assert (I : inside u r) by (destruct P as (_ & P & _); now rewrite U in P).
  assert (W : match unit_start r with Some v => inside v r /\ (v <= u)%nat | None => True end)
    by (rewrite U; auto).
  destruct (unit_is_look_around r).
  - destruct (_ =? 0); [| assumption]. now apply (placed_cut u _ r).
  - now apply (placed_cut u _ (set_quantified _ _ r)).
Qed.

Lemma modify_repeat_placed text r : placed r -> literal_run r = [] -> placed (modify_repeat text r).
Proof.
  intros P R. unfold modify_repeat. cbv zeta. cbn [unit_is_look_around set_repeat].
  destruct (unit_is_look_around r); [exact P |]. cbn [unit_start set_repeat].
  destruct (unit_start r) as [u|] eqn:U; [| now apply placed_push].
  assert (I : inside u r) by (destruct P as (_ & P & _); now rewrite U in P).
  assert (W : match unit_start r with Some v => inside v r /\ (v <= u)%nat | None => True end)
    by (rewrite U; auto).
  cbn [optional_look_around quantities set_repeat].
  destruct (optional_look_around r); [now apply (placed_cut u _ (set_optional_look_around None (set_repeat Settled r))) |].
  destruct (quantities r); [exact P |]. now apply (placed_cut u _ (set_quantified _ _ (set_repeat Settled r))).
Qed.

(** ** What a piece writes *)

(** A class gains at most one range kept apart, what was just written. *)
Definition class_wrote r r' : Prop :=
  match folded_class r with
  | None => folded_class r' = None
  | Some class => exists class', folded_class r' = Some class' /\ class_start class' = class_start class
      /\ (unfolded_classes class' = unfolded_classes class
          \/ unfolded_classes class' = unfolded_classes class ++ [(length (out r), length (out r'))])
  end.

Definition wrote r r' : Prop :=
  groups r' = groups r /\ unit_start r' = unit_start r /\ literal_run r' = literal_run r
  /\ literal_run_start r' = literal_run_start r /\ names r' = names r
  /\ (length (out r) <= length (out r'))%nat /\ class_wrote r r'.

Lemma class_wrote_same r r' : folded_class r' = folded_class r -> class_wrote r r'.
Proof. unfold class_wrote. intros ->. destruct (folded_class r); eauto. Qed.

Lemma wrote_push s r : wrote r (push s r).
Proof. repeat split; [apply push_grows | now apply class_wrote_same]. Qed.

Lemma wrote_grows r r' : wrote r r' -> placed r -> placed r'.
Proof. intros (E1 & E2 & E3 & E4 & _ & L & _). now apply placed_grows. Qed.

Lemma wrote_pushes s t r : wrote r (push t (push s r)).
Proof.
  repeat split; [| now apply class_wrote_same].
  transitivity (length (out (push s r))); apply push_grows.
Qed.

Lemma wrote_kept start in_class text r : start = length (out r) ->
  wrote r (keep_unfolded start in_class (push text r)).
Proof.
  intros ->. unfold keep_unfolded. destruct (negb (folding (push text r))); [apply wrote_push |].
  destruct (negb in_class).
  - repeat split; [| now apply class_wrote_same].
    cbn [out set_out push]. rewrite !length_app, length_firstn, length_skipn, length_app. lia.
  - unfold wrote, class_wrote. destruct (folded_class (push text r)) as [class|] eqn:F; cbn in F; rewrite F.
    + repeat split; try apply push_grows. eexists. split; [reflexivity |]. split; [reflexivity | now right].
    + repeat split; try apply push_grows. exact F.
Qed.

Lemma wrote_escape letter in_class charset r r' : push_escape letter in_class charset r = Done r' -> wrote r r'.
Proof.
  unfold push_escape. cbv zeta. intros E. apply tbind_done in E as (text & _ & [= <-]).
  destruct (is_ascii_shorthand letter charset); [now apply wrote_kept | apply wrote_push].
Qed.

Lemma shorthand_ends letter in_class charset : shorthand letter in_class charset <> Panicked.
Proof.
  unfold shorthand. cbv zeta. intros E. apply tbind_panicked in E as [E | (? & _ & E)]; [| discriminate].
  repeat (case_match; try discriminate).
Qed.

Lemma push_escape_ends letter in_class charset r : push_escape letter in_class charset r <> Panicked.
Proof.
  unfold push_escape. intros E. apply tbind_panicked in E as [E | (? & _ & E)]; [| discriminate].
  now apply shorthand_ends in E.
Qed.

Lemma wrote_trans_text r r' r'' : wrote r r' -> folded_class r' = folded_class r ->
  wrote r' r'' -> folded_class r'' = folded_class r' -> wrote r r''.
Proof.
  intros (A1 & A2 & A3 & A4 & A5 & A6 & _) F (B1 & B2 & B3 & B4 & B5 & B6 & _) G.
  repeat split; try congruence; [lia |]. apply class_wrote_same. congruence.
Qed.

Lemma push_code_points_wrote words : forall r r', push_code_points words r = Done r' ->
  wrote r r' /\ folded_class r' = folded_class r.
Proof.
  induction words as [|word words IH]; intros r r'; cbn [push_code_points].
  - intros [= <-]. split; [| reflexivity]. repeat split; [lia | now apply class_wrote_same].
  - destruct (from_hex word) as [value|]; [| discriminate]. intros E. apply IH in E as [W F].
    split; [| exact F]. eapply wrote_trans_text; [apply wrote_push | reflexivity | exact W | exact F].
Qed.

Lemma push_code_points_ends words : forall r, push_code_points words r <> Panicked.
Proof.
  induction words as [|word words IH]; intros r; cbn [push_code_points]; [discriminate |].
  destruct (from_hex word); [apply IH | discriminate].
Qed.

(** ** A piece's part in its groups *)
Definition role_opens (role : Role) : bool := match role with ROpening _ => true | _ => false end.
Definition role_closes (role : Role) : bool := match role with RClosing => true | _ => false end.
Definition is_repeat (piece : Piece) : bool :=
  match piece with PQuantifier _ | PInterval _ _ => true | _ => false end.
Definition is_inert (piece : Piece) : bool :=
  match piece with
  | PClassText _ | PClassClose | PPosixBracket _ _ _ => true
  | PEscape _ in_class _ | PChar _ in_class | PCodePoints _ in_class | PProperty _ _ _ in_class => in_class
  | _ => false
  end.

(** The pieces that panic: a level's reference with no first ASCII character. *)
Definition panics (piece : Piece) : bool :=
  match piece with
  | PNamedReference _ kind name =>
    eqc "k" kind && match name with [] => true | c :: _ => negb (is_ascii_char c) end
  | _ => false
  end.

Lemma split_level_panics name : split_level name = Panicked ->
  match name with [] => true | c :: _ => negb (is_ascii_char c) end = true.
Proof. destruct name as [|c name]; [reflexivity |]. cbn. destruct (negb _); [reflexivity | discriminate]. Qed.

Lemma find_name_numbered names name numbers : names_numbered names ->
  find_name names name = Some numbers -> numbers <> [].
Proof.
  induction 1 as [|[existing ns] names N F IH]; [discriminate |]. cbn.
  case_bool_decide; [now intros [= <-] | exact IH].
Qed.

Lemma posix_bracket_ends name negated charset ic : posix_bracket name negated charset ic <> Panicked.
Proof. unfold posix_bracket. repeat (case_match; try discriminate). Qed.

Lemma word_boundary_ends letter charset : word_boundary letter charset <> Panicked.
Proof. unfold word_boundary. repeat (case_match; try discriminate). Qed.

Lemma read_quantity_ends lower upper : read_quantity lower upper <> Panicked.
Proof.
  assert (B : forall text, interval_bound text <> Panicked) by (intros text; unfold interval_bound; repeat (case_match; try discriminate)).
  unfold read_quantity. intros E. apply tbind_panicked in E as [E | (lo & _ & E)].
  { destruct lower; [discriminate | now apply B in E]. }
  apply tbind_panicked in E as [E | (up & _ & E)].
  { destruct upper as [[|c upper]|]; try discriminate. apply tbind_panicked in E as [E | (? & _ & E)]; [now apply B in E | discriminate]. }
  destruct (match up with Some _ => _ | None => _ end); discriminate.
Qed.

Lemma push_leveled_reference_wrote name level r r' :
  push_leveled_reference name level r = Done r' -> wrote r r'.
Proof.
  unfold push_leveled_reference. destruct (_ || _); [discriminate |]. destruct (_ && _); [discriminate |].
  destruct (_ =? 0); intros [= <-]; apply wrote_push.
Qed.

Lemma push_named_reference_wrote text kind name r r' :
  push_named_reference text kind name r = Done r' -> wrote r r'.
Proof.
  unfold push_named_reference. destruct (_ && _); [discriminate |].
  destruct (find_shared_numbers _ _); [destruct (eqc "g" kind); [discriminate |] |]; intros [= <-]; apply wrote_push.
Qed.

Lemma reference_ends name level text kind r :
  push_leveled_reference name level r <> Panicked /\ push_named_reference text kind name r <> Panicked.
Proof.
  unfold push_leveled_reference, push_named_reference. split; repeat (case_match; try discriminate).
Qed.

Lemma push_piece_ends piece r : names_numbered (names r) -> push_piece piece r = Panicked -> panics piece = true.
Proof.
  intros N. destruct piece; cbn [push_piece panics]; cbv zeta; intros E;
    repeat match type of E with
    | tbind _ _ = Panicked => apply tbind_panicked in E as [E | (? & _ & E)]
    | (if ?b then _ else _) = Panicked => destruct b
    | (match ?o with Some _ => _ | None => _ end) = Panicked => destruct o as [?|] eqn:?
    end; try discriminate;
    try (exfalso; first [now apply push_escape_ends in E | now apply push_code_points_ends in E
      | now apply posix_bracket_ends in E | now apply word_boundary_ends in E | now apply read_quantity_ends in E]).
  all: try (destruct scoped; discriminate).
  - now apply split_level_panics.
  - destruct p as [lname level]. now apply (reference_ends _ _ text kind) in E.
  - now apply (reference_ends name 0) in E.
  - apply find_name_numbered in Heqo; [| assumption]. destruct l; [congruence | discriminate].
Qed.

Lemma split_level_none name : match name with [] => true | c :: _ => negb (is_ascii_char c) end = true ->
  split_level name = Panicked.
Proof. destruct name as [|c name]; [reflexivity |]. cbn. now intros ->. Qed.

(** Such a reference is never written. *)
Lemma panics_written piece f r r' : panics piece = true -> rewrite piece f r <> Done r'.
Proof.
  intros P E. unfold rewrite in E. apply tbind_done in E as (r1 & _ & E). cbv zeta in E.
  apply tbind_done in E as (rr & E & _). destruct piece; try discriminate P. cbn [panics push_piece] in *.
  apply andb_true_iff in P as [K N]. rewrite K, (split_level_none _ N) in E. discriminate E.
Qed.

(** The role a piece has, and what it writes where it repeats nothing. *)
Lemma push_piece_role piece role r r' : push_piece piece r = Done (role, r') ->
  role_opens role = opens_group piece
  /\ role_closes role = match piece with PClose => true | _ => false end
  /\ (is_inert piece = true -> role = RInert) /\ (is_repeat piece = true -> role = RRepeat).
Proof.
  destruct piece; cbn [push_piece opens_group is_inert is_repeat of_text]; cbv zeta; intros E;
    repeat match type of E with
    | tbind _ _ = Done _ => apply tbind_done in E as (? & _ & E)
    | (if ?b then _ else _) = Done _ => destruct b
    | (match ?o with _ => _ end) = Done _ => destruct o
    end; try discriminate; injection E as <- <-;
    repeat split; try discriminate; try reflexivity; try (now destruct in_class).
Qed.

Lemma push_piece_wrote piece role r r' :
  is_repeat piece = false -> (match piece with POptions _ false => False | _ => True end) ->
  push_piece piece r = Done (role, r') -> wrote r r'.
Proof.
  intros Nr No. destruct piece; try discriminate Nr; cbn [push_piece]; cbv zeta; intros E;
    repeat match type of E with
    | tbind _ _ = Done _ => apply tbind_done in E as (? & ? & E)
    | (if ?b then _ else _) = Done _ => destruct b
    | (match ?o with _ => _ end) = Done _ => destruct o
    end; try discriminate; try contradiction; injection E as <- <-;
    try apply wrote_push; try (now apply wrote_kept); try (eapply wrote_escape; eassumption);
    try (eapply push_leveled_reference_wrote; eassumption); try (eapply push_named_reference_wrote; eassumption);
    try (eapply push_code_points_wrote; eassumption);
    repeat (case_match; try apply wrote_push; try apply wrote_pushes; try (now apply wrote_kept)).
  2-5: first [eapply push_leveled_reference_wrote; eassumption | eapply push_named_reference_wrote; eassumption].
  repeat split; [lia | now apply class_wrote_same].
Qed.

(** A repeat is written over its unit; an option setting owes its group a close. *)
Lemma push_quantifier_placed text r : placed r -> literal_run r = [] -> placed (push_quantifier text r).
Proof.
  intros P R. unfold push_quantifier. cbv zeta.
  destruct (match repeat_ r with Greedy => _ | Interval false => _ | _ => _ end).
  - now apply modify_repeat_placed.
  - apply (repeat_unit_placed _ r P R).
Qed.

(** What a repeat leaves besides where it is written. *)
Definition repeats r r' : Prop :=
  groups r' = groups r /\ literal_run r' = literal_run r /\ names r' = names r
  /\ folded_class r' = folded_class r.

Lemma repeat_unit_repeats q r : repeats r (repeat_unit q r).
Proof. unfold repeat_unit. cbv zeta. repeat case_match; repeat split. Qed.

Lemma modify_repeat_repeats text r : repeats r (modify_repeat text r).
Proof. unfold modify_repeat. cbv zeta. repeat case_match; repeat split. Qed.

Lemma push_repeat_placed piece role r r' : is_repeat piece = true -> placed r -> literal_run r = [] ->
  push_piece piece r = Done (role, r') -> placed r' /\ repeats r r'.
Proof.
  intros Nr P R. destruct piece; try discriminate Nr; cbn [push_piece]; intros E.
  - injection E as _ <-. split; [now apply push_quantifier_placed |].
    unfold push_quantifier. cbv zeta.
    destruct (match repeat_ r with Greedy => _ | Interval false => _ | _ => _ end);
      [apply modify_repeat_repeats | apply (repeat_unit_repeats _ r)].
  - apply tbind_done in E as (q & _ & [= _ <-]).
    split; [apply (repeat_unit_placed _ r P R) | apply (repeat_unit_repeats _ r)].
Qed.

Lemma push_options_placed letters role r r' : placed r ->
  push_piece (POptions letters false) r = Done (role, r') ->
  placed r' /\ groups r' = owe_close (groups r) /\ unit_start r' = unit_start r
  /\ literal_run r' = literal_run r /\ names r' = names r
  /\ folded_class r' = folded_class r /\ (length (out r) <= length (out r'))%nat.
Proof.
  intros P [= _ <-]. cbv zeta. set (r1 := push (options_text letters) r).
  assert (P1 : placed r1) by now apply placed_push.
  repeat split; try apply push_grows.
  - cbn [groups set_groups]. apply nested_starts_owe, P1.
  - destruct P1 as (_ & P1 & _). cbn [unit_start set_groups]. destruct (unit_start r1) as [u|]; [| exact I].
    destruct P1 as [A B]. split; [apply nested_starts_owe, A | exact B].
  - destruct P1 as (_ & _ & P1). cbn in *. apply nested_starts_owe, P1. assumption.
  - destruct P1 as (_ & _ & P1). now apply P1.
Qed.

(** ** Groups opened and closed *)
Lemma forget_repeat_placed r : placed r -> placed (forget_repeat r).
Proof. exact id. Qed.

Definition groups_closed (gs : list OpenGroup) : list OpenGroup :=
  match gs with _ :: (_ :: _) as outer => outer | outer => outer end.

Lemma nested_starts_closed n gs : nested_starts n gs -> nested_starts n (groups_closed gs).
Proof.
  destruct gs as [|g [|g' gs]]; try easy. cbn. intros (A & B & C). split; [lia | assumption].
Qed.

Lemma close_group_placed gr r : placed r -> placed (close_group gr r).
Proof.
  intros (A & B & C). set (r' := close_group gr r).
  assert (G : groups r' = groups_closed (groups r))
    by (unfold r', close_group; destruct (groups r) as [|g [|g' gs]], gr as [[? ?]|]; reflexivity).
  assert (R : literal_run r' = literal_run r /\ literal_run_start r' = literal_run_start r)
    by (unfold r', close_group; destruct (groups r) as [|g [|g' gs]], gr as [[? ?]|]; split; reflexivity).
  assert (L : (length (out r) <= length (out r'))%nat)
    by (unfold r', close_group; destruct (groups r) as [|g [|g' gs]], gr as [[? ?]|]; cbv zeta;
        cbn -[length closes app]; rewrite length_app; lia).
  assert (U : match unit_start r' with
              | Some u => match groups r with g :: _ :: _ => u = start g | _ => False end
              | None => True
              end)
    by (unfold r', close_group; destruct (groups r) as [|g [|g' gs]], gr as [[? ?]|]; cbn; auto).
  clearbody r'. destruct R as [R1 R2]. unfold placed, inside. rewrite G, R1, R2. split; [| split].
  - apply nested_starts_closed. eapply nested_starts_le; eauto.
  - destruct (unit_start r') as [u|]; [| exact I]. destruct (groups r) as [|g [|g' gs]]; try contradiction.
    subst u. cbn in *. split; [tauto | lia].
  - intros N. destruct (C N) as [C1 C2]. split; [now apply nested_starts_closed | lia].
Qed.

Lemma close_group_rest gr r :
  groups (close_group gr r) = groups_closed (groups r) /\ literal_run (close_group gr r) = literal_run r
  /\ names (close_group gr r) = names r /\ folded_class (close_group gr r) = folded_class r.
Proof.
  unfold close_group. destruct (groups r) as [|g [|g' gs]], gr as [[? ?]|]; repeat split.
Qed.

Lemma take_grouped_repeat_rest r :
  let r' := snd (take_grouped_repeat r) in
  out r' = out r /\ groups r' = groups r /\ unit_start r' = unit_start r /\ literal_run r' = literal_run r
  /\ literal_run_start r' = literal_run_start r /\ names r' = names r /\ folded_class r' = folded_class r.
Proof.
  unfold take_grouped_repeat. destruct (groups r) as [|g [|g' gs]] eqn:G; cbv zeta; try (repeat split; auto; fail).
  destruct (_ || _); repeat split; auto.
Qed.

Definition settled_groups (role : Role) (start : nat) (gs : list OpenGroup) : list OpenGroup :=
  match role with
  | ROpening look_around => MkOpenGroup start 0 look_around :: gs
  | RClosing => groups_closed gs
  | _ => gs
  end.

Lemma settle_rest role start gr r :
  let r' := settle role start gr r in
  groups r' = settled_groups role start (groups r) /\ literal_run r' = literal_run r
  /\ names r' = names r /\ folded_class r' = folded_class r.
Proof.
  destruct role; try (repeat split; fail). cbn [settle settled_groups]. apply (close_group_rest gr (forget_repeat r)).
Qed.

Lemma settle_placed role start gr r : placed r -> (role <> RInert -> role <> RRepeat -> inside start r) ->
  (role_opens role = true -> literal_run r = []) -> placed (settle role start gr r).
Proof.
  intros P I R. destruct role; cbn [settle]; try exact P; specialize (I ltac:(discriminate) ltac:(discriminate)).
  - destruct P as (A & _ & C). repeat split; [exact A | apply C | apply C]; assumption.
  - destruct P as (A & _ & C). destruct I. repeat split; try assumption; now apply C.
  - destruct I as [I1 I2]. specialize (R eq_refl). split; [split; [exact I2 | exact I1] | split; [exact Logic.I |]].
    cbn. congruence.
  - now apply close_group_placed.
Qed.

(** ** What comes before a piece *)
Lemma before_piece_ends piece f r : before_piece piece f r <> Panicked.
Proof.
  destruct piece; cbn [before_piece]; try apply close_literal_run_ends.
  destruct (_ && _); [discriminate | apply close_literal_run_ends].
Qed.

Lemma before_piece_placed piece f r r' : placed r -> before_piece piece f r = Done r' ->
  placed r' /\ groups r' = groups r /\ folded_class r' = folded_class r /\ names r' = names r
  /\ match piece with PText _ => True | _ => literal_run r' = [] /\ (literal_run r = [] -> r' = r) end.
Proof.
  intros P. assert (K : forall b, close_literal_run b r = Done r' ->
    placed r' /\ groups r' = groups r /\ folded_class r' = folded_class r /\ names r' = names r
    /\ literal_run r' = [] /\ (literal_run r = [] -> r' = r)).
  { intros b E. destruct (close_literal_run_placed b r r' P E) as (? & ? & ? & ? & ? & ?). auto 10. }
  destruct piece; cbn [before_piece]; try (apply K).
  destruct (f && is_literal_char text); [| intros E; apply K in E; tauto].
  intros [= <-]. destruct P as (A & B & C). repeat split; auto.
  - cbn [literal_run_start set_literal_run groups]. destruct (literal_run r); [exact A | apply C; discriminate].
  - cbn [literal_run_start set_literal_run out]. destruct (literal_run r); [lia | apply C; discriminate].
Qed.

(** ** A class closed *)
Lemma close_folded_class_ends r c m : folded_class r = Some c ->
  ordered (S (class_start c)) (unfolded_classes c) m -> (m < length (out r))%nat ->
  close_folded_class r <> Panicked.
Proof.
  intros F O L. unfold close_folded_class. rewrite F. cbv zeta.
  set (folds := if begins "^" (class_written c) then _ else _).
  assert (G : (let? alternatives :=
        match unfolded_classes c with
        | [] => Done [skipn (class_start c) (out (set_folded_class None r))]
        | _ =>
          let '(rest, ascii) := set_apart (skipn (class_start c) (out (set_folded_class None r))) (class_start c) (class_start c) (unfolded_classes c) in
          let? body := class_body rest in
          let body := snd (strip_caret body) in
          Done ((match body with [] => [] | _ => [cs "[" ++ body ++ cs "]"] end)
                ++ [cs "(?-i:" ++ (cs "[" ++ ascii ++ cs "]") ++ cs ")"])
        end in Done alternatives) <> Panicked).
  { destruct (unfolded_classes c) as [|[a b] unfolded]; [discriminate |].
    pose proof (set_apart_body (skipn (class_start c) (out r)) (class_start c) a b unfolded m O) as B.
    cbn [out set_folded_class]. pose proof (ordered_bounds _ _ _ O).
    rewrite length_skipn in B. specialize (B ltac:(lia)).
    destruct (set_apart _ _ _ _) as [rest ascii]. cbn [fst] in B. unfold class_body.
    rewrite (proj2 (Nat.leb_le _ _) B). discriminate. }
  destruct folds as [|f folds], (unfolded_classes c) as [|u unfolded]; try discriminate;
    intros E; apply G; clear G; apply tbind_panicked in E as [E | (? & _ & E)]; try discriminate;
    exact (f_equal (fun m => tbind m Done) E).
Qed.

Lemma close_folded_class_placed r c r' : placed r -> folded_class r = Some c -> literal_run r = [] ->
  inside (class_start c) r -> match unit_start r with Some s => (s <= class_start c)%nat | None => True end ->
  close_folded_class r = Done r' ->
  placed r' /\ groups r' = groups r /\ names r' = names r /\ literal_run r' = [] /\ folded_class r' = None.
Proof.
  intros P F R I U. unfold close_folded_class. rewrite F. cbv zeta.
  set (folds := if begins "^" (class_written c) then _ else _). intros E.
  assert (C : r' = set_folded_class None r \/ exists s, r' = push s (truncate_out (class_start c) (set_folded_class None r))).
  { destruct folds, (unfolded_classes c); [now left; injection E | ..];
      apply tbind_done in E as (? & _ & E); injection E as <-; right; eauto. }
  clear E. destruct C as [-> | [s ->]]; [repeat split; try apply P; assumption |].
  split; [| repeat split; assumption].
  apply (placed_cut (class_start c) s (set_folded_class None r)); [exact R | exact I |].
  cbn [unit_start set_folded_class]. destruct P as (_ & P & _). destruct (unit_start r); [| exact Logic.I]. auto.
Qed.

(** ** One piece rewritten *)
Definition entered (piece : Piece) (f : bool) r : Rewriter := enter_class piece f (set_folding f r).
Definition class_closed (piece : Piece) r : tried Rewriter :=
  match piece with PClassClose => close_folded_class r | _ => Done r end.

Lemma rewrite_done piece f r r' : rewrite piece f r = Done r' ->
  exists r1 role r3 r4 gr r5, before_piece piece f r = Done r1
    /\ push_piece piece (entered piece f r1) = Done (role, r3) /\ class_closed piece r3 = Done r4
    /\ r5 = (if role_closes role then snd (take_grouped_repeat r4) else r4)
    /\ r' = settle role (length (out (entered piece f r1))) gr r5.
Proof.
  unfold rewrite. intros E. apply tbind_done in E as (r1 & E1 & E). cbv zeta in E.
  apply tbind_done in E as ([role r3] & E2 & E). apply tbind_done in E as (r4 & E3 & E).
  exists r1, role, r3, r4.
  destruct (match role with RClosing => take_grouped_repeat r4 | _ => (None, r4) end) as [gr r5] eqn:G.
  exists gr, r5. injection E as <-. repeat split; try assumption.
  destruct role; try (now injection G as _ <-). cbn. now rewrite G.
Qed.

Lemma rewrite_panicked piece f r : rewrite piece f r = Panicked ->
  exists r1, before_piece piece f r = Done r1
    /\ (push_piece piece (entered piece f r1) = Panicked
        \/ exists role r3, push_piece piece (entered piece f r1) = Done (role, r3) /\ class_closed piece r3 = Panicked).
Proof.
  unfold rewrite. intros E. apply tbind_panicked in E as [E | (r1 & E1 & E)]; [now apply before_piece_ends in E |].
  exists r1. split; [assumption |]. cbv zeta in E.
  apply tbind_panicked in E as [E | ([role r3] & E2 & E)]; [now left | right].
  exists role, r3. split; [assumption |].
  apply tbind_panicked in E as [E | (r4 & E3 & E)]; [assumption |].
  destruct (match role with RClosing => _ | _ => _ end); discriminate.
Qed.

Lemma entered_rest piece f r :
  out (entered piece f r) = out r /\ groups (entered piece f r) = groups r
  /\ unit_start (entered piece f r) = unit_start r /\ literal_run (entered piece f r) = literal_run r
  /\ literal_run_start (entered piece f r) = literal_run_start r /\ names (entered piece f r) = names r.
Proof. unfold entered, enter_class. destruct piece; repeat split; repeat case_match; reflexivity. Qed.

Lemma rewriter_placed_same r r' : out r' = out r -> groups r' = groups r -> unit_start r' = unit_start r ->
  literal_run r' = literal_run r -> literal_run_start r' = literal_run_start r -> placed r -> placed r'.
Proof. intros E ? ? ? ?. apply placed_grows; auto. rewrite E. reflexivity. Qed.

Lemma entered_placed piece f r : placed r -> placed (entered piece f r).
Proof. destruct (entered_rest piece f r) as (? & ? & ? & ? & ? & ?). now apply rewriter_placed_same. Qed.

Lemma take_placed r r' : r' = r \/ r' = snd (take_grouped_repeat r) -> placed r ->
  placed r' /\ groups r' = groups r /\ literal_run r' = literal_run r /\ names r' = names r
  /\ folded_class r' = folded_class r /\ out r' = out r /\ unit_start r' = unit_start r.
Proof.
  intros [-> | ->] P; [auto 10 |]. destruct (take_grouped_repeat_rest r) as (? & ? & ? & ? & ? & ? & ?).
  split; [now apply (rewriter_placed_same r) | auto 10].
Qed.

(** The frames of the reader and the groups of the rewriter in step. *)
Definition in_step (p : Pieces) r : Prop :=
  placed r /\ names_numbered (names r) /\ length (groups r) = S (length (outer_frames p))
  /\ (rest p <> [] -> class_placed p r).

(** What a piece pushed leaves, by its kind. *)
Lemma push_piece_placed piece role r r' : placed r -> (match piece with PText _ => True | _ => literal_run r = [] end) ->
  push_piece piece r = Done (role, r') ->
  placed r' /\ length (groups r') = length (groups r) /\ names r' = names r /\ literal_run r' = literal_run r
  /\ (role <> RInert -> role <> RRepeat -> inside (length (out r)) r')
  /\ (folded_class r = None -> folded_class r' = None).
Proof.
  intros P R E. destruct (is_repeat piece) eqn:Rep.
  - destruct (push_piece_role _ _ _ _ E) as (_ & _ & _ & Q). specialize (Q Rep). subst role.
    assert (R' : literal_run r = []) by (destruct piece; auto; discriminate).
    destruct (push_repeat_placed _ _ _ _ Rep P R' E) as (P' & A & B & C & D).
    split; [assumption |]. repeat split; try congruence; tauto.
  - assert (D : (exists letters, piece = POptions letters false) \/ match piece with POptions _ false => False | _ => True end)
      by (destruct piece as [| | | | | | | | | |letters []| | | | | | | | | | | |]; eauto).
    destruct D as [[letters ->] | D].
    + destruct (push_options_placed _ _ _ _ P E) as (P' & A & B & C & F & G & L).
      split; [assumption |]. rewrite A. repeat split; try congruence.
      * destruct (groups r); reflexivity.
      * rewrite A. apply nested_starts_owe, P.
    + pose proof (push_piece_wrote _ _ _ _ Rep D E) as W. pose proof (wrote_grows _ _ W P) as P'.
      destruct W as (A & B & C & D' & F & L & K). split; [assumption |]. repeat split; try congruence.
      * rewrite A. apply P.
      * unfold class_wrote in K. intros N. now rewrite N in K.
Qed.

Lemma class_closed_placed piece r r' : placed r ->
  (piece = PClassClose -> forall c, folded_class r = Some c ->
    literal_run r = [] /\ inside (class_start c) r
    /\ match unit_start r with Some s => (s <= class_start c)%nat | None => True end) ->
  class_closed piece r = Done r' ->
  placed r' /\ groups r' = groups r /\ names r' = names r /\ literal_run r' = literal_run r
  /\ (folded_class r = None \/ piece = PClassClose -> folded_class r' = None)
  /\ (piece <> PClassClose -> r' = r).
Proof.
  intros P K E. assert (D : piece = PClassClose \/ (piece <> PClassClose /\ r' = r)).
  { destruct piece; try (right; split; [discriminate | now injection E]). now left. }
  destruct D as [-> | [N ->]]; [| repeat split; try apply P; tauto]. cbn [class_closed] in E.
  destruct (folded_class r) as [c|] eqn:F.
  - destruct (K eq_refl c eq_refl) as (R & I & U).
    destruct (close_folded_class_placed r c r' P F R I U E) as (A & B & C & D & G).
    split; [assumption |]. repeat split; congruence.
  - unfold close_folded_class in E. rewrite F in E. injection E as <-.
    split; [assumption |]. repeat split; congruence.
Qed.

(** What a class being written asks of the piece that goes on in it. *)
Lemma class_pieces p piece p' : leaves p piece p' -> (0 < class_depth p)%nat ->
  is_inert piece = true \/ (exists text, piece = PText text /\ rest p' = []) \/ (exists reason, piece = PRefused reason).
Proof.
  intros L D. destruct piece as [| | | | | | | | | |letters []| | | | | | | | | | | |];
    unfold leaves, opened in L; cbn [is_inert]; try lia; try tauto; eauto.
  - right; left. eexists. split; [reflexivity |]. destruct L as [[?|?] _]; [lia | assumption].
  - left. destruct L as [-> _]. now apply Nat.ltb_lt.
  - left. destruct L as [-> _]. now apply Nat.ltb_lt.
  - left. destruct L as [-> _]. now apply Nat.ltb_lt.
  - left. destruct L as [-> _]. now apply Nat.ltb_lt.
Qed.

(** An inert piece is written in its class, which goes on or is closed. *)
Lemma inert_entered piece f r c : is_inert piece = true -> folded_class r = Some c ->
  exists c', folded_class (entered piece f r) = Some c' /\ class_start c' = class_start c
    /\ unfolded_classes c' = unfolded_classes c.
Proof.
  intros I F. destruct piece; try discriminate I; unfold entered, enter_class; cbn [folded_class set_folding];
    rewrite F; eexists; repeat split.
Qed.

Lemma inert_step p piece f r r1 role r3 : is_inert piece = true ->
  class_placed p r -> folded_class r <> None -> placed r -> before_piece piece f r = Done r1 ->
  push_piece piece (entered piece f r1) = Done (role, r3) ->
  exists c, folded_class r3 = Some c /\ literal_run r3 = [] /\ inside (class_start c) r3
    /\ match unit_start r3 with Some s => (s <= class_start c)%nat | None => True end
    /\ ordered (S (class_start c)) (unfolded_classes c) (length (out r3)).
Proof.
  intros I K N P B E. unfold class_placed in K. destruct (folded_class r) as [c|] eqn:F; [| congruence].
  destruct K as (_ & R & U & G & O).
  destruct (before_piece_placed piece f r r1 P B) as (_ & _ & _ & _ & Q).
  assert (r1 = r) as -> by (destruct piece; try discriminate I; tauto).
  destruct (inert_entered piece f r c I F) as (c' & F' & S' & U').
  destruct (entered_rest piece f r) as (E1 & E2 & E3 & E4 & _ & _).
  assert (W : wrote (entered piece f r) r3)
    by (eapply push_piece_wrote; [| | exact E]; destruct piece; try discriminate I; reflexivity || exact Logic.I).
  destruct W as (A1 & A2 & A3 & _ & _ & A6 & A7). unfold class_wrote in A7. rewrite F' in A7.
  destruct A7 as (c3 & F3 & S3 & D). exists c3. rewrite E1 in *.
  pose proof (ordered_bounds _ _ _ O).
  assert (S3c : class_start c3 = class_start c) by congruence. unfold inside.
  rewrite F3, A1, A2, A3, E2, E3, E4, S3c. split; [reflexivity | split; [assumption | split; [split; [assumption | lia] | split; [assumption |]]]].
  destruct D as [-> | ->]; rewrite U'.
  - eapply ordered_le; [exact A6 | exact O].
  - apply ordered_snoc; assumption.
Qed.

Lemma folded_class_out p piece p' r : class_placed p r -> leaves p piece p' -> is_inert piece = false ->
  rest p' <> [] -> (forall reason, piece <> PRefused reason) -> folded_class r = None.
Proof.
  intros K L I N Nr. unfold class_placed in K. destruct (folded_class r) as [c|]; [| reflexivity].
  destruct K as [D _]. exfalso.
  destruct (class_pieces p piece p' L D) as [E | [(? & _ & E) | (reason & E)]]; [congruence | contradiction | now apply Nr in E].
Qed.

(** What the pieces written leave of the class they stand in. *)
Lemma entered_class_none piece f r : folded_class r = None -> (forall text, piece <> PClassOpen text) ->
  folded_class (entered piece f r) = None.
Proof.
  intros F N. destruct piece; unfold entered, enter_class; cbn [folded_class set_folding]; try rewrite F; auto.
  now destruct (N text).
Qed.

Lemma class_open_step p piece p' text f r r1 r3 role : piece = PClassOpen text -> leaves p piece p' ->
  placed r -> before_piece piece f r = Done r1 -> folded_class r = None ->
  push_piece piece (entered piece f r1) = Done (role, r3) ->
  class_placed p' (settle role (length (out (entered piece f r1))) None r3).
Proof.
  intros -> L P B F E. destruct (before_piece_placed _ f r r1 P B) as (P1 & _ & F1 & _ & R & _).
  rewrite F in F1. cbn [push_piece] in E. injection E as <- <-.
  destruct L as (_ & D & _ & T). unfold class_placed, entered, enter_class.
  destruct f; cbn [folded_class settle set_unit_start forget_repeat set_quantified set_optional_look_around
    set_unit_is_look_around set_repeat push set_out set_folded_class set_folding]; [| now rewrite F1].
  cbn [class_start unfolded_classes]. split; [lia | split; [exact R | split; [exact (Nat.le_refl _) | split; [apply P1 |]]]].
  cbn [ordered out set_unit_start forget_repeat set_quantified set_optional_look_around set_unit_is_look_around
    set_repeat push set_out set_folded_class set_folding]. rewrite length_app, T. lia.
Qed.

Lemma rewrite_class p piece p' f r r' : leaves p piece p' -> in_step p r -> rest p <> [] ->
  rewrite piece f r = Done r' -> rest p' <> [] -> class_placed p' r'.
Proof.
  intros L (P & N & G & K) Rp E Rp'. specialize (K Rp).
  destruct (rewrite_done _ _ _ _ E) as (r1 & role & r3 & r4 & gr & r5 & E1 & E2 & E3 & E4 & ->).
  assert (Nr : forall reason, piece <> PRefused reason) by (intros reason ->; discriminate E2).
  destruct (before_piece_placed piece f r r1 P E1) as (P1 & G1 & F1 & N1 & R1).
  pose proof (push_piece_role _ _ _ _ E2) as (_ & _ & Inert & _).
  assert (P2 : placed (entered piece f r1)) by now apply entered_placed.
  destruct (entered_rest piece f r1) as (EO & EG & EU & ER & _ & _).
  assert (R2 : match piece with PText _ => True | _ => literal_run (entered piece f r1) = [] end)
    by (destruct piece; rewrite ?ER; tauto).
  destruct (push_piece_placed _ _ _ _ P2 R2 E2) as (P3 & _ & _ & _ & _ & F3).
  assert (Closed : forall r, class_placed p' r \/ folded_class r = None -> class_placed p' r)
    by (intros x [? | Fx]; [assumption | unfold class_placed; now rewrite Fx]).
  assert (F5 : folded_class r5 = folded_class r4)
    by (rewrite E4; destruct (role_closes role); [apply (take_grouped_repeat_rest r4) | reflexivity]).
  destruct (settle_rest role (length (out (entered piece f r1))) gr r5) as (_ & _ & _ & F6).
  destruct (is_inert piece) eqn:I.
  - specialize (Inert eq_refl). subst role. cbn [role_closes] in E4. subst r5. cbn [settle] in *.
    destruct (folded_class r) as [c|] eqn:F.
    + assert (Fc : folded_class r <> None) by congruence.
      destruct (inert_step p piece f r r1 RInert r3 I K Fc P E1 E2) as (c3 & A1 & A2 & A3 & A4 & A5).
      destruct (class_closed_placed piece r3 r4 P3) as (_ & _ & _ & _ & C & D); [| exact E3 |].
      { intros _ d Fd. assert (d = c3) as -> by congruence. auto. }
      destruct piece; try discriminate I; [| apply Closed; right; auto | | | | |];
        rewrite (D ltac:(discriminate)); unfold class_placed; rewrite A1;
        (split; [| split; [exact A2 | split; [exact A4 | split; [apply A3 | exact A5]]]]);
        unfold leaves, same_place in L; unfold class_placed in K; rewrite F in K; intuition congruence.
    + apply Closed. right.
      destruct (class_closed_placed piece r3 r4 P3) as (_ & _ & _ & _ & C & D); [| exact E3 |].
      { intros _ d Fd. rewrite F3 in Fd; [discriminate |]. apply entered_class_none; [congruence |].
        intros t ->. discriminate I. }
      apply C. left. apply F3, entered_class_none; [congruence |]. intros t ->. discriminate I.
  - assert (F : folded_class r = None) by now apply (folded_class_out p piece p').
    destruct (class_closed_placed piece r3 r4 P3) as (_ & _ & _ & _ & C & D); [| exact E3 |].
    { intros ->. discriminate I. }
    assert (r4 = r3) as -> by (apply D; intros ->; discriminate I).
    assert (Open : (exists text, piece = PClassOpen text) \/ forall text, piece <> PClassOpen text)
      by (destruct piece; eauto; right; discriminate).
    destruct Open as [[text ->] | No].
    + replace (settle role _ gr r5) with (settle role (length (out (entered (PClassOpen text) f r1))) None r3);
        [now apply (class_open_step p (PClassOpen text) p' text f r r1 r3 role) |].
      cbn [push_piece] in E2. injection E2 as <- <-. now subst r5.
    + apply Closed. right. rewrite F6, F5. apply F3, entered_class_none; [congruence | assumption].
Qed.

(** A class that closes is placed as [close_folded_class] wants it. *)
Lemma class_close_ready p f r r1 role r3 : in_step p r -> rest p <> [] ->
  before_piece PClassClose f r = Done r1 -> push_piece PClassClose (entered PClassClose f r1) = Done (role, r3) ->
  forall c, folded_class r3 = Some c ->
    literal_run r3 = [] /\ inside (class_start c) r3
    /\ match unit_start r3 with Some s => (s <= class_start c)%nat | None => True end
    /\ exists m, ordered (S (class_start c)) (unfolded_classes c) m /\ (m < length (out r3))%nat.
Proof.
  intros (P & N & G & K) Rp B E c F. specialize (K Rp).
  destruct (before_piece_placed _ f r r1 P B) as (_ & _ & F1 & _ & R & Same).
  assert (F3 : folded_class r = Some c) by (cbn [push_piece] in E; injection E as _ <-; cbn in F; congruence).
  pose proof K as K'. unfold class_placed in K'. rewrite F3 in K'. destruct K' as (_ & Rr & _ & _ & O).
  specialize (Same Rr). subst r1.
  destruct (inert_step p PClassClose f r r role r3 eq_refl K ltac:(congruence) P B E)
    as (c3 & A1 & A2 & A3 & A4 & _).
  assert (c3 = c) as -> by congruence. repeat split; try apply A3; try assumption.
  exists (length (out r)). split; [assumption |]. cbn [push_piece] in E. injection E as _ <-.
  cbn [out push set_out entered enter_class set_folding]. rewrite length_app. change (length (cs "]")) with 1%nat. lia.
Qed.

Lemma rewrite_ends p piece p' f r : leaves p piece p' -> in_step p r -> rest p <> [] ->
  rewrite piece f r = Panicked -> panics piece = true.
Proof.
  intros L J Rp E. destruct (rewrite_panicked _ _ _ E) as (r1 & E1 & [E2 | (role & r3 & E2 & E3)]).
  - destruct J as (P & N & _). apply push_piece_ends in E2; [assumption |].
    destruct (entered_rest piece f r1) as (_ & _ & _ & _ & _ & ->).
    destruct (before_piece_placed piece f r r1 P E1) as (_ & _ & _ & -> & _). exact N.
  - exfalso. destruct piece; try discriminate E3. cbn [class_closed] in E3.
    destruct (folded_class r3) as [c|] eqn:F; [| unfold close_folded_class in E3; now rewrite F in E3].
    destruct (class_close_ready p f r r1 role r3 J Rp E1 E2 c F) as (_ & _ & _ & m & O & M).
    now apply (close_folded_class_ends r3 c m F O M).
Qed.

Lemma rewrite_placed p piece p' f r r' : leaves p piece p' -> in_step p r -> rest p <> [] ->
  rewrite piece f r = Done r' -> placed r' /\ names r' = names r /\ length (groups r') =
    (if opens_group piece then S (length (groups r))
     else match piece with PClose => length (groups_closed (groups r)) | _ => length (groups r) end).
Proof.
  intros L J Rp E. pose proof J as (P & _).
  destruct (rewrite_done _ _ _ _ E) as (r1 & role & r3 & r4 & gr & r5 & E1 & E2 & E3 & E4 & ->).
  destruct (before_piece_placed piece f r r1 P E1) as (P1 & G1 & F1 & N1 & R1).
  destruct (push_piece_role _ _ _ _ E2) as (Op & Cl & Inert & _).
  destruct (entered_rest piece f r1) as (EO & EG & EU & ER & _ & EN).
  assert (R2 : match piece with PText _ => True | _ => literal_run (entered piece f r1) = [] end)
    by (destruct piece; rewrite ?ER; tauto).
  destruct (push_piece_placed _ _ _ _ (entered_placed _ f _ P1) R2 E2) as (P3 & G3 & N3 & R3 & I3 & _).
  destruct (class_closed_placed piece r3 r4 P3) as (P4 & G4 & N4 & R4 & _ & Same); [| exact E3 |].
  { intros -> c F. destruct (class_close_ready p f r r1 role r3 J Rp E1 E2 c F) as (? & ? & ? & _). auto. }
  destruct (take_placed r4 r5) as (P5 & G5 & R5 & N5 & _ & O5 & U5);
    [rewrite E4; destruct (role_closes role); auto | exact P4 |].
  destruct (settle_rest role (length (out (entered piece f r1))) gr r5) as (G6 & _ & N6 & _).
  split; [| split; [congruence |]].
  - apply settle_placed; [exact P5 | |].
    + intros Ni Nr. assert (r4 = r3) as -> by (apply Same; intros ->; apply Ni, Inert; reflexivity).
      specialize (I3 Ni Nr). unfold inside in *. rewrite G5, O5. exact I3.
    + rewrite Op. intros O. rewrite R5, R4, R3. destruct piece; try discriminate O; exact R2.
  - rewrite G6. assert (GL : length (groups r5) = length (groups r)) by (rewrite G5, G4, G3, EG, G1; reflexivity).
    assert (CL : forall a b : list OpenGroup, length a = length b -> length (groups_closed a) = length (groups_closed b))
      by (intros [|? [|? a]] [|? [|? b]] H0; cbn in *; lia).
    destruct role; cbn [role_opens role_closes settled_groups length] in *; rewrite <- Op; try congruence;
      destruct piece; try discriminate; auto.
Qed.

(** One piece read and rewritten keeps them in step. *)
Lemma rewrite_in_step p piece p' f r r' : next p = Some (piece, p') -> in_step p r ->
  rewrite piece f r = Done r' -> in_step p' r'.
Proof.
  intros Nx J E. assert (Rp : rest p <> []) by (eapply next_rest, Nx).
  pose proof (next_steps p _ Nx) as [_ L]. cbn [fst snd] in L.
  destruct (rewrite_placed p piece p' f r r' L J Rp E) as (P' & N' & G').
  pose proof J as (P & N & G & _). split; [assumption | split; [now rewrite N' | split]].
  - assert (Nr : forall reason, piece <> PRefused reason).
    { intros reason ->. apply rewrite_done in E as (? & ? & ? & ? & ? & ? & _ & E & _). discriminate E. }
    apply next_frames in Nx. rewrite G'.
    destruct piece as [| | |  | | | | | | |letters []| | | | | | | | | | | |]; cbn [opens_group] in *;
      try (now rewrite Nx, G); try (rewrite Nx; exact G); try (now destruct (Nr reason)).
    destruct (groups r) as [|g [|g' gs]], (outer_frames p) as [|f0 fs] eqn:OF; cbn in *; try discriminate; try lia.
    + destruct Nx as [_ ->]. now rewrite OF.
    + destruct Nx as [_ ->]. lia.
  - intros Rp'. now apply (rewrite_class p piece p' f r r').
Qed.

(** ** The whole source, piece after piece with no bound on how many *)
Definition folds (p : Pieces) : bool := unicode_build && ignores_case p.

Inductive Rewrites : Pieces -> Rewriter -> tried Rewriter -> Prop :=
| Rewrites_end p r : next p = None -> Rewrites p r (Done r)
| Rewrites_refuse p r piece p' reason : next p = Some (piece, p') ->
    rewrite piece (folds p') r = Refuse reason -> Rewrites p r (Refuse reason)
| Rewrites_panic p r piece p' : next p = Some (piece, p') ->
    rewrite piece (folds p') r = Panicked -> Rewrites p r Panicked
| Rewrites_next p r piece p' r' m : next p = Some (piece, p') ->
    rewrite piece (folds p') r = Done r' -> Rewrites p' r' m -> Rewrites p r m.

Lemma rewrite_all_rewrites turns : forall p r, (length (rest p) <= turns)%nat ->
  Rewrites p r (rewrite_all turns p r).
Proof.
  induction turns as [|turns IH]; intros p r L; cbn [rewrite_all].
  - apply Rewrites_end, next_none, length_zero_iff_nil. lia.
  - destruct (next p) as [[piece p']|] eqn:N; [| now constructor].
    apply next_shorter in N as L'. fold (folds p').
    destruct (rewrite piece (folds p') r) as [r' | reason |] eqn:R; cbn [tbind].
    + eapply Rewrites_next; eauto. apply IH. lia.
    + eapply Rewrites_refuse; eauto.
    + eapply Rewrites_panic; eauto.
Qed.

Lemma rewrites_in_step p r m : Rewrites p r m -> in_step p r ->
  match m with
  | Done r' => exists ps q, Steps p ps q /\ rest q = [] /\ in_step q r'
  | Refuse _ => True
  | Panicked => exists ps q piece, Steps p (ps ++ [piece]) q /\ panics piece = true
  end.
Proof.
  induction 1 as [p r N|p r piece p' reason N R|p r piece p' N R|p r piece p' r' m N R W IH]; intros J.
  - exists [], p. split; [constructor | split; [now apply next_none | assumption]].
  - exact I.
  - exists [], p', piece. split; [repeat econstructor; eassumption |].
    pose proof (next_steps p _ N) as [_ L]. eapply rewrite_ends; eauto. eapply next_rest, N.
  - specialize (IH (rewrite_in_step _ _ _ _ _ _ N J R)). destruct m; [| exact I |].
    + destruct IH as (ps & q & S & E & J'). exists (piece :: ps), q. split; [now apply Steps_next with p' | auto].
    + destruct IH as (ps & q & x & S & E). exists (piece :: ps), q, x. split; [now apply Steps_next with p' | auto].
Qed.

Lemma finish_ends r : finish r <> Panicked.
Proof.
  unfold finish. intros E. apply tbind_panicked in E as [E | (? & _ & E)]; [| discriminate].
  now apply close_literal_run_ends in E.
Qed.

(** ** The names collected *)
Lemma name_number_numbered names name number : names_numbered names -> names_numbered (name_number names name number).
Proof.
  induction 1 as [|[existing ns] names N F IH]; [repeat constructor; discriminate |]. cbn.
  case_bool_decide; constructor; cbn in *; auto. destruct ns; discriminate.
Qed.

Lemma names_of_numbered ps : names_numbered (names_of ps).
Proof.
  unfold names_of. enough (G : forall s, names_numbered (fst s) -> names_numbered (fst (fold_left (fun '(names, number) piece =>
    match piece with
    | PNamedGroup _ name => (name_number names name (number + 1), number + 1)
    | _ => (names, number)
    end) ps s))) by (apply G; constructor).
  induction ps as [|piece ps IH]; intros [names number] N; [assumption |]. apply IH.
  destruct piece; try exact N. now apply name_number_numbered.
Qed.

(** What [build_pattern] starts from. *)
Definition reader_of (source : Str) (options : Z) : Pieces :=
  let extended := has_option options EXTENDED in
  ignoring_case (has_option options IGNORECASE)
    (pieces_new source extended (captures_of source extended (collect_names source extended))).
Definition writer_of (source : Str) (options : Z) : Rewriter :=
  let extended := has_option options EXTENDED in
  let names := collect_names source extended in
  rewriter_new names (existsb is_call (pieces (pieces_new source extended (captures_of source extended names))))
    (header options).

Lemma build_pattern_eq source options : build_pattern source options =
  let? r := rewrite_all (length source) (reader_of source options) (writer_of source options) in finish r.
Proof. reflexivity. Qed.

Lemma start_in_step source options : in_step (reader_of source options) (writer_of source options).
Proof.
  split; [split; [| split; [exact I |]] | split; [| split; [reflexivity | now intros _]]].
  - cbn [groups writer_of rewriter_new nested_starts start]. lia.
  - intros N. now destruct N.
  - apply names_of_numbered.
Qed.
End Rewriting.

(** ** Every state the translation passes through *)
Section Reaching.
Context `{Unicode}.

Inductive Reached (source : Str) (options : Z) : Pieces -> Rewriter -> Prop :=
| Reached_start : Reached source options (reader_of source options) (writer_of source options)
| Reached_next p r piece p' r' : Reached source options p r -> next p = Some (piece, p') ->
    rewrite piece (folds p') r = Done r' -> Reached source options p' r'.

Lemma reached_in_step source options p r : Reached source options p r -> in_step p r.
Proof.
  induction 1 as [|p r piece p' r' _ J N E]; [apply start_in_step | exact (rewrite_in_step p piece p' (folds p') r r' N J E)].
Qed.

Lemma build_pattern_ends source options : build_pattern source options = Panicked ->
  exists ps q piece, Steps (reader_of source options) (ps ++ [piece]) q /\ panics piece = true.
Proof.
  rewrite build_pattern_eq. intros E. apply tbind_panicked in E as [E | (r & _ & E)]; [| now apply finish_ends in E].
  pose proof (rewrite_all_rewrites (length source) (reader_of source options) (writer_of source options)
    (Nat.le_refl _)) as W.
  rewrite E in W. apply (rewrites_in_step _ _ _ W), start_in_step.
Qed.
End Reaching.

(** ** Bounds read *)
Lemma dec_value_nonneg s : forallb is_ascii_digit s = true -> 0 <= dec_value s.
Proof.
  unfold dec_value. enough (G : forall n, 0 <= n -> forallb is_ascii_digit s = true ->
    0 <= List.fold_left (fun n c => n * 10 + (c - 48)) s n) by (intros; now apply G).
  induction s as [|c s IH]; intros n N D; [assumption |]. cbn in D. apply andb_true_iff in D as [D1 D2].
  unfold is_ascii_digit in D1. apply andb_true_iff in D1 as [D1 _]. apply Z.leb_le in D1. apply IH; [lia | assumption].
Qed.

Lemma interval_bound_range text n : forallb is_ascii_digit text = true -> interval_bound text = Done n ->
  0 <= n <= MAX_REPEAT.
Proof.
  intros D. unfold interval_bound, parse_digits. destruct text as [|c text]; [discriminate |].
  destruct (dec_value (c :: text) <=? U64_MAX); [| discriminate].
  destruct (_ <=? MAX_REPEAT) eqn:M; [| discriminate]. intros [= <-].
  apply Z.leb_le in M. split; [now apply dec_value_nonneg | exact M].
Qed.

(** An interval's texts name its bounds: no lower bound is zero, no upper one
    after a comma no bound, and one number alone both. *)
Definition names_bounds (lower : Str) (upper : option Str) (q : Quantity) : Prop :=
  match lower with [] => q_lower q = 0 | _ => Numeral lower (q_lower q) end
  /\ match upper with
     | None => q_upper q = Some (q_lower q)
     | Some [] => q_upper q = None
     | Some upper => exists u, q_upper q = Some u /\ Numeral upper u
     end.

Lemma interval_bound_named text n : forallb is_ascii_digit text = true -> interval_bound text = Done n ->
  text <> [] /\ Numeral text n.
Proof.
  intros D. unfold interval_bound, parse_digits. destruct text as [|c text]; [discriminate |].
  destruct (dec_value (c :: text) <=? U64_MAX); [| discriminate].
  destruct (_ <=? MAX_REPEAT); [| discriminate]. intros [= <-].
  split; [discriminate | now apply digits_numeral].
Qed.

Lemma read_quantity_named lower upper q : forallb is_ascii_digit lower = true ->
  match upper with Some upper => forallb is_ascii_digit upper = true | None => True end ->
  read_quantity lower upper = Done q -> names_bounds lower upper q.
Proof.
  intros D Du E. unfold read_quantity in E. apply tbind_done in E as (lo & El & E). apply tbind_done in E as (up & Eu & E).
  assert (Q : q = Quantity.greedy lo up)
    by (destruct up as [u|]; [destruct (u <? lo); [discriminate |] |]; now injection E).
  subst q. split; cbn [Quantity.greedy q_lower q_upper].
  - destruct lower; [now injection El | now apply interval_bound_named in El].
  - destruct upper as [[|c u]|]; [now injection Eu | | now injection Eu].
    apply tbind_done in Eu as (n & En & [= <-]). exists n. split; [reflexivity |]. now apply interval_bound_named in En.
Qed.

Lemma read_quantity_bounds lower upper q : forallb is_ascii_digit lower = true ->
  match upper with Some upper => forallb is_ascii_digit upper = true | None => True end ->
  read_quantity lower upper = Done q ->
  0 <= q_lower q <= MAX_REPEAT /\ q_possessive q = false
  /\ match q_upper q with Some u => q_lower q <= u <= MAX_REPEAT | None => True end.
Proof.
  intros D Du E. unfold read_quantity in E. apply tbind_done in E as (lo & El & E). apply tbind_done in E as (up & Eu & E).
  assert (L : 0 <= lo <= MAX_REPEAT).
  { destruct lower; [injection El as <-; vm_compute; split; discriminate | eapply interval_bound_range; eauto]. }
  assert (U : match up with Some u => 0 <= u <= MAX_REPEAT | None => True end).
  { destruct upper as [[|c u]|]; [now injection Eu as <- | | now injection Eu as <-].
    apply tbind_done in Eu as (n & En & [= <-]). eapply interval_bound_range; eauto. }
  destruct up as [u|]; [destruct (u <? lo) eqn:C; [discriminate |]; apply Z.ltb_ge in C |];
    injection E as <-; cbn; repeat split; try lia.
Qed.
