(* ===== verification/RegexpPromises.v ===== *)
(** What the guest's Regexp promises: a pattern in Ruby's syntax is read to its
    end, rewritten with its groups and places in order, and means what Ruby's
    does where the engine's syntax differs; and what is made of the matches keeps
    the text around them. *)
From Stdlib Require Import String.
From S2P Require Import Prelude Text RxText RxRepeat RxFold RxClasses RxPieces RxTranslate RxRender RxMatch RxRewriteFacts.
Local Open Scope rx_scope.

(** ** Translation *)

(** C4: Every state [build_pattern] passes through is well formed: the
    rewriter's open groups are the reader's and start one inside the other, the
    unit to repeat, the literal run and the class being written all start in the
    text written, and the next piece is past one character or more. Its loop of
    as many turns as the source has characters is the whole loop, and it panics
    nowhere but at a reference whose level is looked for past no first ASCII
    character, which it never writes. *)
Theorem translation_stays_in_step `{Unicode} (source : Str) (options : Z) (p : Pieces) (r : Rewriter) :
  Reached source options p r ->
  in_step p r
  /\ (forall piece p', next p = Some (piece, p') ->
        (length (rest p') < length (rest p))%nat
        /\ (rewrite piece (folds p') r = Panicked -> panics piece = true)
        /\ (panics piece = true -> forall r', rewrite piece (folds p') r <> Done r'))
  /\ Rewrites (reader_of source options) (writer_of source options)
       (rewrite_all (length source) (reader_of source options) (writer_of source options))
  /\ (build_pattern source options = Panicked ->
        exists ps q piece, Steps (reader_of source options) (ps ++ [piece]) q /\ panics piece = true).
Proof.
  intros R. pose proof (reached_in_step _ _ _ _ R) as J. split; [exact J | split; [| split]].
  - intros piece p' N. split; [now apply next_shorter in N | split; [| intros Pa r'; now apply panics_written]]. intros E.
    pose proof (next_steps p _ N) as [_ L]. eapply rewrite_ends; eauto. eapply next_rest, N.
  - now apply rewrite_all_rewrites.
  - apply build_pattern_ends.
Qed.

(** The first piece of [(a)] opens a group in the reader and the rewriter alike. *)
Lemma translation_stays_in_step_witness : exists p r,
  length (outer_frames p) = 1%nat /\ length (RxTranslate.groups r) = 2%nat /\ in_step p r.
Proof.
  assert (N : exists x, next (reader_of (cs "(a)") 0) = Some x) by (eexists; vm_compute; reflexivity).
  destruct N as [[piece p] N].
  assert (E : exists r, rewrite (H := latin) piece (folds (H := latin) p) (writer_of (cs "(a)") 0) = Done r)
    by (vm_compute in N; injection N as <- <-; eexists; vm_compute; reflexivity).
  destruct E as [r E]. exists p, r.
  assert (R : Reached (H := latin) (cs "(a)") 0 p r) by (eapply Reached_next; [apply Reached_start | exact N | exact E]).
  split; [vm_compute in N; injection N as _ <-; reflexivity | split; [| exact (proj1 (translation_stays_in_step (H := latin) _ _ _ _ R))]].
  vm_compute in N. injection N as <- <-. vm_compute in E. injection E as <-. reflexivity.
Defined.

(** C10: A stack of quantifiers is rewritten to one that allows the unit as many
    times: what [write] makes of it reads, by the engine's grammar of
    quantifiers, as the numbers of repetitions MRI's nesting of the quantifiers
    allows. A possessive quantifier closes what it stands on into a unit of its
    own, and an interval as the reader takes it is one such quantifier, its
    bounds the numbers its text names, in order and within MRI's ceiling. *)
Theorem stacked_quantifiers_keep_their_counts (unit : Str) (qs : list Quantity) (lower : Str) (upper : option Str)
    (q : Quantity) :
  Forall stackable qs -> forallb is_ascii_digit lower = true ->
  match upper with Some upper => forallb is_ascii_digit upper = true | None => True end ->
  read_quantity lower upper = Done q ->
  (exists counts, Reads unit false (write unit qs) counts /\ forall n, counts n <-> nested qs n)
  /\ (forall before p after, q_possessive p = true ->
        write unit (before ++ p :: after)
        = write (cs "(?>" ++ write unit (before ++ [MkQuantity (q_lower p) (q_upper p) (q_greedy p) false]) ++ cs ")") after)
  /\ names_bounds lower upper q /\ stackable q /\ q_lower q <= MAX_REPEAT /\ match q_upper q with Some u => u <= MAX_REPEAT | None => True end.
Proof.
  intros F L U E. split; [| split].
  - destruct (write_reads unit qs F) as (counts & R & S). exists counts. split; [exact R | exact S].
  - intros before p after. apply write_possessive.
  - split; [now apply read_quantity_named |].
    destruct (read_quantity_bounds lower upper q L U E) as (A & B & C). unfold stackable, proper_quantity.
    destruct (q_upper q); repeat split; try lia; assumption.
Qed.

(** [a+?] once or not at all, any number of times, is any number of times. *)
Lemma stacked_quantifiers_keep_their_counts_witness :
  write (cs "a") [Quantity.lazy 1 None; Quantity.greedy 0 (Some 1); Quantity.greedy 0 None] = cs "(?:a+?)*"
  /\ exists counts, Reads (cs "a") false (cs "(?:a+?)*") counts
       /\ forall n, counts n <-> nested [Quantity.lazy 1 None; Quantity.greedy 0 (Some 1); Quantity.greedy 0 None] n.
Proof.
  split; [vm_compute; reflexivity |].
  assert (F : Forall stackable [Quantity.lazy 1 None; Quantity.greedy 0 (Some 1); Quantity.greedy 0 None])
    by (repeat constructor; cbn; lia).
  exact (proj1 (stacked_quantifiers_keep_their_counts (cs "a") _ (cs "2") None (Quantity.greedy 2 (Some 2)) F
    eq_refl I eq_refl)).
Defined.

(** C15: A run of characters matched case-insensitively is respelt as exactly the
    texts MRI folds with it: each character by itself or by the characters it
    folds to, or several by one character that folds to them. Each such text has
    the run's own full case folding, the run is one of them, a run no fold
    reaches is left as it is, and any run is respelt or refused. *)
Theorem respelt_runs_fold_alike `{Unicode} (run : Str) : Forall is_char run ->
  match expand_run run with
  | Done None => forall s, Spelled run s <-> s = run
  | Done (Some text) => exists L, Denotes text L /\ forall s, L s <-> Spelled run s
  | Refuse _ => True
  | Panicked => False
  end
  /\ (forall s, Spelled run s -> full_fold s = full_fold run) /\ Spelled run run.
Proof.
  intros C. split; [| split; [apply spelled_folds_alike | apply spelled_itself]].
  unfold expand_run. destruct (negb (reaches_fold run)) eqn:R.
  - now apply reaches_fold_false, negb_true_iff.
  - pose proof (write_spellings_ends (S (length run)) run [] ltac:(lia)) as N.
    destruct (write_spellings (S (length run)) run []) as [out | reason |] eqn:W; cbn [tbind]; [| exact I | congruence].
    destruct (write_spellings_spell _ _ _ _ C W) as (t & -> & M). exact M.
Qed.

Lemma respelt_runs_fold_alike_witness :
  expand_run (H := latin) (cs "ss") = Done (Some (cs "(?:ss|[" ++ [0xDF; 0x1E9E] ++ cs "])"))
  /\ exists L, Denotes (H := latin) (cs "(?:ss|[" ++ [0xDF; 0x1E9E] ++ cs "])") L /\ L [0xDF].
Proof.
  assert (E : expand_run (H := latin) (cs "ss") = Done (Some (cs "(?:ss|[" ++ [0xDF; 0x1E9E] ++ cs "])")))
    by (vm_compute; reflexivity).
  split; [exact E |].
  assert (C : Forall is_char (cs "ss")) by (change (cs "ss") with [115; 115]; unfold is_char; constructor; [lia | constructor; [lia | constructor]]).
  pose proof (proj1 (respelt_runs_fold_alike (H := latin) (cs "ss") C)) as T.
  destruct T as (L & D & S). exists L. split; [exact D |]. apply S.
  apply (Spelled_joined (cs "ss") 0xDF [] []); [left; reflexivity | constructor].
Defined.

(** A group's settings end with it: whatever its pieces set, the reader past
    the parenthesis that closes a group has the case, extended and character set
    settings, and the look-behind, it had where the group opened. *)
Theorem settings_end_with_their_group (p : Pieces) (opener : Piece) (p1 : Pieces) (ps : list Piece) (q p2 : Pieces) :
  next p = Some (opener, p1) -> opens_group opener = true -> Steps p1 ps q -> balanced 0 ps = true ->
  next q = Some (PClose, p2) -> frame p2 = frame p /\ outer_frames p2 = outer_frames p.
Proof.
  intros N O S B C. apply next_frames in N, C.
  assert (E : outer_frames p1 = frame p :: outer_frames p) by (destruct opener; try discriminate; now rewrite O in N).
  pose proof (steps_balanced p1 ps q S [] _ E B) as Q. rewrite Q in C. exact C.
Qed.

(** [(?i)] and [(?x)] in a group, inner groups closed, and the group closed. *)
Lemma settings_end_with_their_group_witness : exists p1 ps q p2,
  Steps p1 ps q /\ ignores_case q = true /\ extended (frame q) = true
  /\ frame p2 = frame (pieces_new (cs "(?:(?i)a(?x)(b))") false 0).
Proof.
  set (p := pieces_new (cs "(?:(?i)a(?x)(b))") false 0).
  assert (N : exists opener p1, next p = Some (opener, p1) /\ opens_group opener = true
    /\ exists ps q, Steps p1 ps q /\ balanced 0 ps = true /\ ignores_case q = true /\ extended (frame q) = true
    /\ exists p2, next q = Some (PClose, p2)).
  { eexists _, _. split; [vm_compute; reflexivity | split; [reflexivity |]]. eexists _, _.
    split; [do 6 (eapply Steps_next; [vm_compute; reflexivity |]); apply Steps_none |].
    repeat split. eexists. vm_compute. reflexivity. }
  destruct N as (opener & p1 & N & O & ps & q & S & B & Ic & Ex & p2 & C).
  exists p1, ps, q, p2. split; [exact S | split; [exact Ic | split; [exact Ex |]]].
  exact (proj1 (settings_end_with_their_group p opener p1 ps q p2 N O S B C)).
Defined.

(** ** Text *)

(** An escaped text is a pattern of its own characters: under any options
    that do not ask for case-insensitivity, extended ones included, its
    translation is the text itself after the options' header, and it names no
    group. *)
Theorem escaped_text_is_its_pattern `{Unicode} (s : Str) (options : Z) : has_option options IGNORECASE = false ->
  build_pattern (escape_str s) options = Done (header options ++ escape_str s)
  /\ collect_names (escape_str s) (has_option options EXTENDED) = [].
Proof. intros I. split; [now apply escape_str_translated | apply collect_names_escaped]. Qed.

Lemma escaped_text_is_its_pattern_witness :
  build_pattern (H := latin) (cs "\(\?<n>a\#\ b\)\n\{") 6 = Done (cs "(?mxs)\(\?<n>a\#\ b\)\n\{")
  /\ escape_str (cs "(?<n>a# b)" ++ [10; 123]) = cs "\(\?<n>a\#\ b\)\n\{".
Proof.
  split; [| vm_compute; reflexivity].
  exact (proj1 (escaped_text_is_its_pattern (H := latin) (cs "(?<n>a# b)" ++ [10; 123]) 6 eq_refl)).
Defined.

(** C27: Whatever engine finds the matches, its places in the subject's text,
    [gsub] seeks them one past the other to the end of the subject, each at the
    first character past the one before, and answers the subject with the text of
    each match replaced, by what a block or a Hash answers of it or by what the
    references of a text make of it, and nothing else touched: a replacement that
    echoes each match leaves the subject as it was. A block finds [$~] and its
    views at the match it is given, and they are left at the last match, or
    cleared where there is none. What raises is the engine's own failure, before
    anything is replaced, or a replacement's, and nothing else ends it. *)
Theorem gsub_replaces_matches_alone `{RegexEngine} `{!EngineLaws} {G : Type} (re : RegexpState) (s : Bytes)
    (block : option (Guest_code (G := G))) (replacement : option Replacement) (w : Interp) :
  utf8_valid s = true ->
  match str_gsub re s block replacement w with
  | (Val out, w') =>
    exists spans texts w1, Finds re s 0 spans /\ in_order s 0 spans
      /\ Made re s block replacement spans w texts w1 /\ out = woven s spans texts 0
      /\ globals_show re s (List.last (map Some spans) None) w' /\ others w' = others w1
      /\ (echoes re s block replacement -> out = s)
  | (Raise e, w') => (w' = w /\ exists detail, e = RegexpErr (RxMatch.source re) detail)
      \/ exists span w0, replace_span re s span block replacement w0 = (Raise e, w')
  | (Panic, w') => exists span w0, replace_span re s span block replacement w0 = (Panic, w')
  end.
Proof.
  intros V. pose proof (match_spans_spec re s V) as Sp. unfold str_gsub.
  destruct (match_spans re s) as [spans | e |]; [| left; auto | contradiction]. destruct Sp as [F I].
  pose proof (gsub_from_fails re s block replacement spans 0 [] w) as Fl.
  destruct (gsub_from re s block replacement spans 0 [] w) as [[[o l] | e |] w1] eqn:E.
  - apply gsub_from_made in E as (texts & M & E). cbn [fst snd app] in E. exists spans, texts, w1.
    repeat (split; [assumption |]). split; [apply settle_span_globals_show |].
    split; [apply settle_span_globals_show |]. intros Ec. rewrite E. eapply woven_echoed; eauto.
  - right. destruct Fl as (span & w0 & _ & Fl). eauto.
  - destruct Fl as (span & w0 & _ & Fl). eauto.
Qed.

(** [b+b] put for each [-] of [a-é-], and each [-] put for itself. *)
Lemma gsub_replaces_matches_alone_witness :
  let re := MkRegexpState (H := char_engine) x2d (cs "-") 0 in
  let s := [x61; x2d; xc3; xa9; x2d] in
  let w := MkInterp None clear_derived tt in
  (exists w', str_gsub re s None (Some (Text_given (lit "b+b"))) w
     = (Val ([x61] ++ lit "b+b" ++ [xc3; xa9] ++ lit "b+b"), w') /\ post (derived w') = Some [])
  /\ exists out w', str_gsub re s None (Some (Text_given (lit "\0"))) w = (Val out, w') /\ out = s
       /\ exists spans, Finds re s 0 spans /\ globals_show re s (List.last (map Some spans) None) w'.
Proof.
  cbv zeta. split; [eexists; split; vm_compute; reflexivity |].
  set (re := MkRegexpState (H := char_engine) x2d (cs "-") 0). set (s := [x61; x2d; xc3; xa9; x2d]).
  set (w := MkInterp None clear_derived tt).
  pose proof (gsub_replaces_matches_alone re s None (Some (Text_given (lit "\0"))) w eq_refl) as T.
  assert (E : exists x, str_gsub re s None (Some (Text_given (lit "\0"))) w = (Val (fst x), snd x))
    by (exists (s, settle_span_globals re s (Some (MkMatchSpan (4, 5)%nat [])) w); vm_compute; reflexivity).
  destruct E as [[out w'] E]. rewrite E in T.
  destruct T as (spans & texts & w1 & F & _ & _ & _ & G & _ & Ec).
  exists out, w'. split; [exact E |]. split; [| exists spans; auto].
  apply Ec. intros span w0 text w0' [X _]. exact (expands_match re s span text X).
Defined.

(** The text [to_s] shows of a pattern is a pattern whose [to_s] is that
    text, whichever of its options are set and wherever its source is itself one
    group of flags, which is lifted out: both show the same flags around the same
    body. The letters [inspect] appends name the options they stand for. *)
Theorem shown_patterns_read_back (source : Str) (options : Z) : closed source ->
  rx_to_s (rx_to_s source options) 0 = rx_to_s source options
  /\ (exists on body, rx_to_s source options = in_group (flag_head on) body /\ closed body
       /\ lift_inline_group (rx_to_s source options) = Some (option_bits on, 7 - option_bits on, body))
  /\ parse_flag_string (enabled_flags options) = Some (option_bits options).
Proof.
  intros C. split; [now apply to_s_again | split; [| apply flags_parse]].
  destruct (rx_to_s_group source options) as (on & body & -> & B).
  assert (Cb : closed body).
  { destruct (lift_inline_group source) as [[[en dis] inner]|] eqn:L; subst body; [now apply lift_closed in L | exact C]. }
  exists on, body. rewrite flag_group_text. split; [reflexivity | split; [exact Cb |]].
  destruct (on_off_bits on) as [E Hin].
  assert (Fh : flag_head on = flag_head (option_bits on)) by (unfold flag_head; now rewrite E).
  rewrite Fh. apply lift_in_group; [exact Cb | now apply read_flag_head].
Qed.

Lemma shown_patterns_read_back_witness :
  rx_to_s (cs "(?m-i:a[)]\))") 1 = cs "(?m-ix:a[)]\))"
  /\ rx_to_s (cs "(?m-ix:a[)]\))") 0 = cs "(?m-ix:a[)]\))".
Proof.
  assert (E : rx_to_s (cs "(?m-i:a[)]\))") 1 = cs "(?m-ix:a[)]\))") by (vm_compute; reflexivity).
  split; [exact E |]. rewrite <- E.
  exact (proj1 (shown_patterns_read_back (cs "(?m-i:a[)]\))") 1 eq_refl)).
Defined.

(** ** What the guest sees besides *)

(** A pattern comes out of the compile cache as it is compiled, whatever the
    cache evicts. *)
Theorem cached_patterns_are_compiled `{RegexEngine} `{!CacheLaws} `{Unicode} source options cache :
  sound cache ->
  fst (compile source options cache) = compiled source options /\ sound (snd (compile source options cache)).
Proof. apply compile_sound. Qed.

(** [$~], [$&], [$`], [$'] and [$1] to [$9] are what the match itself answers. *)
Theorem match_globals_are_the_match `{RegexEngine} (state : MatchState) at_ :
  group_at_index (groups state) 0 = Some at_ -> (fst at_ <= snd at_ <= length (subject state))%nat ->
  let views := derived_of (subject state) (groups state) in
  matched views = group_str state 0 /\ numbered views = map (group_str state) (seq 1 9)
  /\ pre views = Some (md_pre_match state) /\ post views = Some (md_post_match state)
  /\ md_pre_match state ++ default [] (matched views) ++ md_post_match state = subject state.
Proof.
  intros E L. destruct (views_answer state) as (A & B & C). destruct (C at_ E L) as (D & F & K). auto.
Qed.

(** A split without captures is the subject cut at its matches: put back
    between its fields, they make the subject, and a positive limit bounds the
    fields. *)
Theorem split_cuts_the_subject `{RegexEngine} `{!EngineLaws} re s limit spans fields :
  utf8_valid s = true -> captures_len (regex re) = 1%nat -> limit <> 0 ->
  match_spans re s = Val spans -> str_split re s limit = Val fields ->
  (exists separators, rejoined fields separators = s /\ length fields = S (length separators)
     /\ Forall (fun t => exists span, span ∈ spans /\ t = sub_str s (whole span)) separators)
  /\ (0 < limit -> len fields <= limit).
Proof.
  intros V C L Ms. unfold str_split. rewrite Ms. cbn [res_bind]. intros [= <-].
  pose proof (match_spans_spec re s V) as Sp. rewrite Ms in Sp. destruct Sp as [F O].
  assert (N : Forall (fun span => omap id (span_groups span) = []) spans).
  { clear -F C. revert F. generalize 0%nat. intros from F. induction F as [| |pos captures at_ spans P E W F IH]; constructor; auto.
    cbn [span_groups]. rewrite C. reflexivity. }
  unfold split_of. rewrite (proj2 (Z.eqb_neq limit 0) L). split.
  - destruct (split_fields_rejoin s limit spans 0 0 ltac:(lia) O N) as (seps & R & Ln & Fs).
    exists seps. rewrite length_map. auto.
  - intros P. rewrite len_map. pose proof (split_fields_count s limit spans P N 0 0 ltac:(lia)). lia.
Qed.

(** A place asked of a match is the nearest character's start at or before it. *)
Theorem positions_snap_to_characters s pos : utf8_valid s = true ->
  match resolve_pos s pos with
  | None => pos < - len s \/ len s < pos
  | Some p => let asked := Z.to_nat (if pos <? 0 then pos + len s else pos) in
              (p <= asked)%nat /\ (asked <= length s)%nat /\ is_char_boundary s p = true
              /\ forall q, (q <= asked)%nat -> is_char_boundary s q = true -> (q <= p)%nat
  end.
Proof.
  intros V. unfold resolve_pos. cbv zeta. destruct (_ || _) eqn:R.
  - apply orb_true_iff in R as [R | R]; apply Z.ltb_lt in R; destruct (pos <? 0) eqn:P;
      rewrite ?Z.ltb_lt, ?Z.ltb_ge in P; pose proof (len_nonneg s); lia.
  - apply orb_false_iff in R as [R1 R2]. rewrite Z.ltb_ge in R1, R2.
    destruct (snap_down_spec s (Z.to_nat (if pos <? 0 then pos + len s else pos)) V) as (A & B & C).
    split; [exact A | split; [| split; [exact B | exact C]]]. unfold len in *. lia.
Qed.

(** A name of no character, and one that begins past ASCII, panic where they are
    read for a level. *)
Example levels_of_no_character_panic :
  build_pattern (H := latin) (cs "\k<>") 0 = Panicked
  /\ build_pattern (H := latin) (cs "(?<" ++ [0xE9] ++ cs ">a)\k<" ++ [0xE9] ++ cs ">") 0 = Panicked.
Proof. split; vm_compute; reflexivity. Qed.
