(* ===== verification/GuestIo.v ===== *)
(** The guest's I/O library: what it runs on, its errors, the descriptors it may
    reach, and the write half of [::IO] ([wasm/kobako-io]: [errno.rs],
    [descriptors.rs], [io.rs], [kernel_ext.rs]).

    A method is a program over the interpreter's memory and the host's, ending
    with a value, an exception, or a trap of the guest: a panic, or a recursion
    past its stack.  wasi-libc and what [std] asks the host are a parameter
    ([Libc]), and so are mruby and the script ([Ruby]): a call back into Ruby
    does anything at all to the memory. *)
From stdpp Require Import gmap.
From S2P Require Import Prelude Text.

(** ** What a method sees *)

Inductive ExnClass :=
| ArgumentError | TypeError | RangeError | IOError | EOFError | NotImplementedError
| SystemCallError
| ErrnoClass (name : list byte)
| ScriptClass (id : N).
#[export] Instance exn_class_eq_dec : EqDecision ExnClass.
Proof. solve_decision. Defined.

(** A raised exception, and how a method stops short of answering. *)
Record Exn := MkExn { e_class : ExnClass; e_message : list byte }.
Inductive Stop := Raise (e : Exn) | Trap.

Inductive Value :=
| Nil
| Bool (b : bool)
| Int (z : Z)
| Symbol (name : list byte)
| ClassValue (c : ExnClass)
| Ref (id : N).
#[export] Instance value_eq_dec : EqDecision Value.
Proof. solve_decision. Defined.

(** [State] of a [Stream]: what an [IO] stands for. *)
Record State := MkState { fd : option Z; path : option (list byte); sync : bool }.

(** [Stat]: what an entry reported. *)
Record Stat := MkStat { ino : Z; nlink : Z; size : Z; mode : Z }.

(** [OpenEntries] and [Listing]: an opened [Dir]. *)
Record OpenEntries := MkOpenEntries { entries : list (list byte); next : nat }.
Record Listing := MkListing { l_path : list byte; opened : option OpenEntries }.

(** What an object holds.  An array refers to its elements, so it may hold
    itself. *)
Inductive Obj :=
| OString (bytes : list byte)
| OArray (elems : list Value)
| OStream (class : list byte) (state : State)
| OListing (listing : Listing)
| OStat (stat : Stat)
| OException (class : ExnClass) (text : list byte) (errno : option Z)
| OOther.

(** ** What the library calls *)

(** [std::io::ErrorKind], as far as [from_io] reads it. *)
Inductive ErrorKind :=
| NotFound | PermissionDenied | AlreadyExists | IsADirectory | NotADirectory
| DirectoryNotEmpty | ReadOnlyFilesystem | InvalidInput | Unsupported | Interrupted
| WriteZero | OtherKind.
#[export] Instance error_kind_eq_dec : EqDecision ErrorKind.
Proof. solve_decision. Defined.

(** [std::io::Error]: the number it came from, its kind, its [Display]. *)
Record IoError := MkIoError { raw_os_error : option Z; kind : ErrorKind; shown : list byte }.

(** [std::io::SeekFrom], [std::fs::Metadata]. *)
Inductive SeekFrom := Start (n : Z) | Current (n : Z) | End_ (n : Z).
Record Metadata := MkMetadata { is_dir : bool; is_file : bool; length_of : Z }.

(** How [std::fs] opens a path: to read it, or created anew to write it. *)
Inductive FsOpen := ToRead | ToCreate.

(** wasi-libc and [std]'s reach to the host, over the host's own state.  A libc
    call answers, or fails with the [errno] it set. *)
Class Libc (H : Type) := {
  c_write : Z -> list byte -> H -> result Z Z * H;
  c_pread : Z -> Z -> Z -> H -> result Z (list byte) * H;
  c_pwrite : Z -> list byte -> Z -> H -> result Z Z * H;
  c_posix_fadvise : Z -> Z -> Z -> Z -> H -> Z * H;
  c_close : Z -> H -> result Z unit * H;
  c_getfl : Z -> H -> result Z Z * H;
  c_open : list byte -> Z -> H -> result Z Z * H;
  c_ftruncate : Z -> Z -> H -> result Z unit * H;
  c_truncate : list byte -> Z -> H -> result Z unit * H;
  c_stat : list byte -> H -> result Z Stat * H;
  c_lstat : list byte -> H -> result Z Stat * H;
  c_fstat : Z -> H -> result Z Stat * H;
  (** [fd_prestat_get(3)] answering 0. *)
  prestat_get : H -> bool * H;
  (** [std::fs::File] over a descriptor. *)
  f_read : Z -> Z -> H -> result IoError (list byte) * H;
  f_write : Z -> list byte -> H -> result IoError Z * H;
  f_seek : Z -> SeekFrom -> H -> result IoError Z * H;
  f_metadata : Z -> H -> result IoError Metadata * H;
  f_sync_all : Z -> H -> result IoError unit * H;
  f_sync_data : Z -> H -> result IoError unit * H;
  f_open : FsOpen -> list byte -> H -> result IoError Z * H;
  f_drop : Z -> H -> H;
  fs_metadata : list byte -> H -> result IoError Metadata * H;
  fs_remove_file : list byte -> H -> result IoError unit * H;
  fs_rename : list byte -> list byte -> H -> result IoError unit * H;
  fs_read_dir : list byte -> H -> result IoError (list (result IoError (list byte))) * H;
  fs_create_dir : list byte -> H -> result IoError unit * H;
  fs_remove_dir : list byte -> H -> result IoError unit * H;
  (** The target's [decode_error_kind] and [strerror]. *)
  decode_error_kind : Z -> ErrorKind;
  error_string : Z -> list byte;
  (** The room [read_to_end] makes for its next read, by how much it holds. *)
  room : Z -> Z;
}.

(** [io::Error::from_raw_os_error]. *)
Definition from_raw_os_error {H} `{!Libc H} (n : Z) : IoError :=
  MkIoError (Some n) (decode_error_kind n) (error_string n).

(** The interpreter's memory: its objects, the descriptors this guest opened,
    [$stdout] and [$stderr], and the host beside it. *)
Record Vm (H : Type) := MkVm {
  v_heap : gmap N Obj;
  v_opened : gset Z;
  v_stdout : Value;
  v_stderr : Value;
  v_host : H;
}.
Arguments MkVm {H}.
Arguments v_heap {H}.
Arguments v_opened {H}.
Arguments v_stdout {H}.
Arguments v_stderr {H}.
Arguments v_host {H}.

Definition with_heap {H} (m : gmap N Obj) (s : Vm H) : Vm H :=
  MkVm m (v_opened s) (v_stdout s) (v_stderr s) (v_host s).
Definition with_opened {H} (o : gset Z) (s : Vm H) : Vm H :=
  MkVm (v_heap s) o (v_stdout s) (v_stderr s) (v_host s).
Definition with_stdout {H} (v : Value) (s : Vm H) : Vm H :=
  MkVm (v_heap s) (v_opened s) v (v_stderr s) (v_host s).
Definition with_stderr {H} (v : Value) (s : Vm H) : Vm H :=
  MkVm (v_heap s) (v_opened s) (v_stdout s) v (v_host s).
Definition with_host {H} (h : H) (s : Vm H) : Vm H :=
  MkVm (v_heap s) (v_opened s) (v_stdout s) (v_stderr s) h.

(** A method's body. *)
Definition G (H A : Type) : Type := eff (Vm H) Stop A.

(** mruby, [beni] and the script: calls back into Ruby, and what [beni] reads of
    a value. *)
Class Ruby (H : Type) := {
  to_r_string : Value -> G H Value;
  funcall : Value -> list byte -> list Value -> G H Value;
  call_block : Value -> list Value -> G H Value;
  classname : Value -> Vm H -> list byte;
  range_error : Exn;
  (** What [try_convert] raises of a receiver carrying no payload. *)
  not_carrying : Exn;
  class_errno : ExnClass -> option Value;
  string_from_value : list byte -> option (list byte);
}.

Definition raise {H A} (class : ExnClass) (message : list byte) : G H A :=
  efail (Raise (MkExn class message)).
Definition throw {H A} (e : Exn) : G H A := efail (Raise e).
Definition trap {H A} : G H A := efail Trap.

(** A call of the host. *)
Definition host {H A} (call : H -> A * H) : G H A :=
  fun s => let '(a, h) := call (v_host s) in (Ok a, with_host h s).

(** [for x in list { body(x)?; }]. *)
Fixpoint for_each {H A} (body : A -> G H unit) (l : list A) : G H unit :=
  match l with
  | [] => eret tt
  | x :: l' => let* _ := body x in for_each body l'
  end.

(** Values read out of memory. *)
Definition object {H} (s : Vm H) (v : Value) : option Obj :=
  match v with Ref id => v_heap s !! id | _ => None end.
(** [Vec::<u8>::from_value], [RString::from_value]. *)
Definition str_of {H} (s : Vm H) (v : Value) : option (list byte) :=
  match object s v with Some (OString bytes) => Some bytes | _ => None end.
(** [RArray::from_value] and the slots [entries] walks. *)
Definition array_of {H} (s : Vm H) (v : Value) : option (list Value) :=
  match object s v with Some (OArray elems) => Some elems | _ => None end.
Definition bytes_of {H} (s : Vm H) (v : Value) : list byte := default [] (str_of s v).

(** An object nothing refers to yet. *)
Definition alloc {H} (o : Obj) : G H Value :=
  fun s => let id := fresh (dom (v_heap s)) in
           (Ok (Ref id), with_heap (<[id := o]> (v_heap s)) s).
(** [Mrb::str_new]. *)
Definition str_new {H} (bytes : list byte) : G H Value := alloc (OString bytes).

(** [Value::to_bool]. *)
Definition to_bool (v : Value) : bool :=
  match v with Nil | Bool false => false | _ => true end.
Definition is_nil (v : Value) : bool := match v with Nil => true | _ => false end.

Definition I32_MAX : Z := 2 ^ 31 - 1.
Definition fits_i32 (z : Z) : bool := (- 2 ^ 31 <=? z) && (z <=? I32_MAX).
Definition fits_i64 (z : Z) : bool := (- 2 ^ 63 <=? z) && (z <=? I64_MAX).
(** [i64::try_from(n).unwrap_or(i64::MAX)] of an unsigned number. *)
Definition to_i64_or_max (n : Z) : Z := Z.min I64_MAX n.

(** [String::from_utf8_lossy]: each longest start of no character is U+FFFD. *)
Definition REPLACEMENT : list byte := [xef; xbf; xbd].
Fixpoint from_utf8_lossy (bs : list byte) : list byte :=
  match bs with
  | [] => []
  | b0 :: r0 =>
    let z0 := byte_to_Z b0 in
    if z0 <? 0x80 then b0 :: from_utf8_lossy r0
    else if (0xC2 <=? z0) && (z0 <=? 0xDF) then
      match r0 with
      | b1 :: r1 => if is_cont b1 then b0 :: b1 :: from_utf8_lossy r1
                    else REPLACEMENT ++ from_utf8_lossy r0
      | [] => REPLACEMENT
      end
    else if (0xE0 <=? z0) && (z0 <=? 0xEF) then
      match r0 with
      | b1 :: r1 =>
        if second_ok z0 (byte_to_Z b1) then
          match r1 with
          | b2 :: r2 => if is_cont b2 then b0 :: b1 :: b2 :: from_utf8_lossy r2
                        else REPLACEMENT ++ from_utf8_lossy r1
          | [] => REPLACEMENT
          end
        else REPLACEMENT ++ from_utf8_lossy r0
      | [] => REPLACEMENT
      end
    else if (0xF0 <=? z0) && (z0 <=? 0xF4) then
      match r0 with
      | b1 :: r1 =>
        if second_ok z0 (byte_to_Z b1) then
          match r1 with
          | b2 :: r2 =>
            if is_cont b2 then
              match r2 with
              | b3 :: r3 => if is_cont b3 then b0 :: b1 :: b2 :: b3 :: from_utf8_lossy r3
                            else REPLACEMENT ++ from_utf8_lossy r2
              | [] => REPLACEMENT
              end
            else REPLACEMENT ++ from_utf8_lossy r1
          | [] => REPLACEMENT
          end
        else REPLACEMENT ++ from_utf8_lossy r0
      | [] => REPLACEMENT
      end
    else REPLACEMENT ++ from_utf8_lossy r0
  end.

(** ** Errors ([errno.rs]) *)

(** One [Errno] class: its name, the WASI number, Linux's, its message. *)
Record ErrnoCode := MkCode { c_name : list byte; c_wasi : Z; c_linux : Z; c_message : list byte }.
Definition code (name : String.string) (wasi linux : Z) (message : String.string) : ErrnoCode :=
  MkCode (lit name) wasi linux (lit message).
Arguments code name%_string_scope wasi linux message%_string_scope.

Definition CODES : list ErrnoCode := [
  code "EACCES" 2 13 "Permission denied";
  code "EAGAIN" 6 11 "Resource temporarily unavailable";
  code "EBADF" 8 9 "Bad file descriptor";
  code "EBUSY" 10 16 "Device or resource busy";
  code "EDEADLK" 16 35 "Resource deadlock avoided";
  code "EEXIST" 20 17 "File exists";
  code "EFBIG" 22 27 "File too large";
  code "EILSEQ" 25 84 "Invalid or incomplete multibyte or wide character";
  code "EINTR" 27 4 "Interrupted system call";
  code "EINVAL" 28 22 "Invalid argument";
  code "EIO" 29 5 "Input/output error";
  code "EISDIR" 31 21 "Is a directory";
  code "ELOOP" 32 40 "Too many levels of symbolic links";
  code "EMFILE" 33 24 "Too many open files";
  code "ENAMETOOLONG" 37 36 "File name too long";
  code "ENODEV" 43 19 "No such device";
  code "ENOENT" 44 2 "No such file or directory";
  code "ENOMEM" 48 12 "Cannot allocate memory";
  code "ENOSPC" 51 28 "No space left on device";
  code "ENOTDIR" 54 20 "Not a directory";
  code "ENOTEMPTY" 55 39 "Directory not empty";
  code "ENOTSOCK" 57 88 "Socket operation on non-socket";
  code "ENOTSUP" 58 95 "Operation not supported";
  code "EOVERFLOW" 61 75 "Value too large for defined data type";
  code "EPERM" 63 1 "Operation not permitted";
  code "EROFS" 69 30 "Read-only file system";
  code "ESPIPE" 70 29 "Illegal seek";
  code "EXDEV" 75 18 "Invalid cross-device link"].

Definition WASI_NOTCAPABLE : Z := 76.
Definition WASI_BADF : Z := 8.

Definition code_named (name : list byte) : option ErrnoCode :=
  find (fun code => str_eq (c_name code) name) CODES.

(** [error_by_name], [io_error]. *)
Definition error_by_name (name path : list byte) : Exn :=
  MkExn (ErrnoClass name)
    (match code_named name with Some code => c_message code | None => lit "unknown error" end
     ++ lit " - " ++ path).
Definition io_error (message : list byte) : Exn := MkExn IOError message.
Definition argument_error (message : list byte) : Exn := MkExn ArgumentError message.
Definition not_implemented (message : list byte) : Exn := MkExn NotImplementedError message.

(** The class a kind names where no number does. *)
Definition kind_name (k : ErrorKind) : option (list byte) :=
  match k with
  | NotFound => Some (lit "ENOENT")
  | PermissionDenied => Some (lit "EACCES")
  | AlreadyExists => Some (lit "EEXIST")
  | IsADirectory => Some (lit "EISDIR")
  | NotADirectory => Some (lit "ENOTDIR")
  | DirectoryNotEmpty => Some (lit "ENOTEMPTY")
  | ReadOnlyFilesystem => Some (lit "EROFS")
  | InvalidInput => Some (lit "EINVAL")
  | Unsupported => Some (lit "ENOTSUP")
  | _ => None
  end.

Definition from_io (err : IoError) (path : list byte) : Exn :=
  let raw := (fun raw => if raw =? WASI_NOTCAPABLE then 2 else raw) <$> raw_os_error err in
  let code :=
    match find (fun code => bool_decide (Some (c_wasi code) = raw)) CODES with
    | Some code => Some code
    | None => name ← kind_name (kind err); code_named name
    end in
  match code with
  | Some code => error_by_name (c_name code) path
  | None => io_error (shown err ++ lit " - " ++ path)
  end.

Definition from_transfer (err : IoError) (path purpose : list byte) : Exn :=
  if bool_decide (raw_os_error err = Some WASI_BADF)
  then io_error (lit "not opened for " ++ purpose)
  else from_io err path.

(** ** Descriptors ([descriptors.rs]) *)

Definition is_channel (fd : Z) : bool := (fd =? 1) || (fd =? 2).
Definition is_reachable {H} (s : Vm H) (fd : Z) : bool :=
  is_channel fd || bool_decide (fd ∈ v_opened s).
Definition remember {H} (fd : Z) : G H unit :=
  emodify (fun s => with_opened ({[fd]} ∪ v_opened s) s).
Definition forget {H} (fd : Z) : G H bool :=
  fun s => (Ok (bool_decide (fd ∈ v_opened s)), with_opened (v_opened s ∖ {[fd]}) s).

(** ** A stream's payload ([io.rs]) *)

Definition stream_state {H} (s : Vm H) (v : Value) : option State :=
  match object s v with Some (OStream _ state) => Some state | _ => None end.

Definition stream_update {H} (v : Value) (change : State -> State) : G H unit :=
  emodify (fun s =>
    match v with
    | Ref id => match v_heap s !! id with
                | Some (OStream class state) =>
                  with_heap (<[id := OStream class (change state)]> (v_heap s)) s
                | _ => s
                end
    | _ => s
    end).

Definition point_at {H} (self : Value) (n : Z) (where_ : option (list byte)) : G H unit :=
  stream_update self (fun state =>
    MkState (Some n) (match where_ with Some p => Some p | None => path state end) (sync state)).

Definition release {H} (self : Value) : G H unit :=
  stream_update self (fun state => MkState None (path state) (sync state)).

Definition read_fd {H} (s : Vm H) (self : Value) : Z :=
  default 0 (state ← stream_state s self; fd state).

Definition is_closed {H} (s : Vm H) (self : Value) : bool :=
  match stream_state s self with
  | Some state => match fd state with None => true | Some _ => false end
  | None => true
  end.

Definition checked_fd {H} (self : Value) (refusal : list byte) : G H Z :=
  let* s := eget in
  if is_closed s self then throw (io_error (lit "closed stream"))
  else if is_reachable s (read_fd s self) then eret (read_fd s self)
  else throw (argument_error refusal).

(** [stream::label]. *)
Definition label {H} (s : Vm H) (self : Value) : list byte :=
  default (lit "IO") (state ← stream_state s self; path state).

(** [RefCell<State>] of a stream as [new] wraps it. *)
Definition unset : State := MkState None None true.

(** ** Open modes ([file/mode.rs]) *)

Definition RDONLY : Z := 0.
Definition WRONLY : Z := 1.
Definition RDWR : Z := 2.
Definition CREAT : Z := 0x40.
Definition EXCL : Z := 0x80.
Definition TRUNC : Z := 0x200.
Definition APPEND : Z := 0x400.
Definition O_RDONLY : Z := 0x04000000.
Definition O_WRONLY : Z := 0x10000000.
Definition O_RDWR : Z := Z.lor O_RDONLY O_WRONLY.

(** Each flag's name, CRuby's number, and wasi-libc's. *)
Definition FLAGS : list (list byte * Z * Z) := [
  (lit "RDONLY", RDONLY, O_RDONLY);
  (lit "WRONLY", WRONLY, O_WRONLY);
  (lit "RDWR", RDWR, O_RDWR);
  (lit "CREAT", CREAT, Z.shiftl 1 12);
  (lit "EXCL", EXCL, Z.shiftl 4 12);
  (lit "TRUNC", TRUNC, Z.shiftl 8 12);
  (lit "APPEND", APPEND, 1)].

Definition exceeds (flags held : Z) : bool :=
  negb (Z.land (Z.land flags O_RDWR) (Z.lnot held) =? 0).
Definition writes (held : Z) : bool := negb (Z.land held O_WRONLY =? 0).

(** One turn of [to_libc]'s loop: the bits left, and libc's so far. *)
Definition take_flag (acc : Z * Z) (entry : list byte * Z * Z) : Z * Z :=
  let '(rest, libc) := acc in
  let '(_, flag, o_flag) := entry in
  if negb (Z.land rest flag =? 0) then (Z.land rest (Z.lnot flag), Z.lor libc o_flag)
  else (rest, libc).

Definition to_libc (flags : Z) : option Z :=
  let access := take 3 FLAGS in
  let others := drop 3 FLAGS in
  entry ← find (fun entry => entry.1.2 =? Z.land flags (Z.lor WRONLY RDWR)) access;
  let '(rest, libc) :=
    fold_left take_flag others (Z.land flags (Z.lnot (Z.lor WRONLY RDWR)), entry.2) in
  if rest =? 0 then Some libc else None.

(** What [from_string] has read of the characters past the access. *)
Record ModeMarks := MkMarks { plus : bool; binary : bool; text : bool; exclusive : bool }.

Fixpoint read_marks (access : Z) (cs : list Z) (m : ModeMarks) : option ModeMarks :=
  match cs with
  | [] => Some m
  | c :: cs' =>
    if c =? 43 then read_marks access cs' (MkMarks true (binary m) (text m) (exclusive m))
    else if c =? 98 then read_marks access cs' (MkMarks (plus m) true (text m) (exclusive m))
    else if c =? 116 then read_marks access cs' (MkMarks (plus m) (binary m) true (exclusive m))
    else if (c =? 120) && (access =? 119)
    then read_marks access cs' (MkMarks (plus m) (binary m) (text m) true)
    else None
  end.

Definition mode_flags (access : Z) (m : ModeMarks) : Z :=
  let write := if plus m then RDWR else WRONLY in
  if access =? 114 then if plus m then RDWR else RDONLY
  else if access =? 119 then
    if exclusive m then Z.lor (Z.lor (Z.lor write CREAT) TRUNC) EXCL
    else Z.lor (Z.lor write CREAT) TRUNC
  else Z.lor (Z.lor write CREAT) APPEND.

Definition from_string (mode : list byte) : result Exn Z :=
  let invalid := Err (argument_error (lit "invalid access mode " ++ mode)) in
  match chars mode with
  | [] => invalid
  | access :: rest =>
    if (access =? 114) || (access =? 119) || (access =? 97) then
      match read_marks access rest (MkMarks false false false false) with
      | None => invalid
      | Some m => if binary m && text m then invalid else Ok (mode_flags access m)
      end
    else invalid
  end.

Section Methods.
Context {H : Type} `{!Libc H} `{!Ruby H}.

Definition type_error (s : Vm H) (v : Value) : Exn :=
  MkExn TypeError (lit "no implicit conversion of " ++ classname v s ++ lit " into String").

Definition open_flags (mode : option Value) (path : list byte) : G H Z :=
  let* s := eget in
  let* flags :=
    match mode with
    | None | Some Nil => eret RDONLY
    | Some (Int flags) => if fits_i64 flags then eret flags else throw range_error
    | Some v =>
      match str_of s v with
      | Some mode => elift (map_err Raise (from_string (from_utf8_lossy mode)))
      | None => throw (type_error s v)
      end
    end in
  match to_libc flags with
  | Some libc => eret libc
  | None => throw (error_by_name (lit "EINVAL") path)
  end.

(** ** [SystemCallError] *)

(** [to_number]. *)
Definition to_number (class : ExnClass) : option Z :=
  match class_errno class with
  | Some (Int n) => if fits_i32 n then Some n else None
  | _ => None
  end.

Definition errno_number (number : Value) : result Exn (option Z) :=
  match number with
  | Int n => if fits_i32 n then Ok (Some n) else Err range_error
  | _ => Ok None
  end.

(** The message and the number [sce_s_new] was handed. *)
Definition sce_arguments (own : option Z) (args : list Value) :
    result Exn (option Value * option Z) :=
  match own, args with
  | Some own, message :: _ => Ok (Some message, Some own)
  | Some own, [] => Ok (None, Some own)
  | None, [] => Ok (None, None)
  | None, [message] =>
    match message with
    | Int n => if fits_i32 n then Ok (None, Some n) else Ok (Some message, None)
    | _ => Ok (Some message, None)
    end
  | None, message :: number :: _ =>
    let? number := errno_number number in Ok (Some message, number)
  end.

Definition display_int (n : Z) : list byte :=
  if n <? 0 then lit "-" ++ display_uint (- n) else display_uint n.

Definition sce_s_new (self : ExnClass) (args : list Value) : G H Value :=
  let own := to_number self in
  let* (message, number) := elift (map_err Raise (sce_arguments own args)) in
  let message := match message with Some Nil => None | _ => message end in
  let known := n ← number; find (fun code => c_linux code =? n) CODES in
  let class := match own, known with
               | None, Some code => ErrnoClass (c_name code)
               | _, _ => self
               end in
  let text := match known, number with
              | Some code, _ => c_message code
              | None, Some n => lit "Unknown error: " ++ display_int n
              | None, None => lit "unknown error"
              end in
  let* s := eget in
  let* text :=
    match message with
    | None => eret text
    | Some v =>
      match (bytes ← str_of s v; string_from_value bytes) with
      | Some message => eret (text ++ lit " - " ++ message)
      | None => throw (type_error s v)
      end
    end in
  alloc (OException class text (match known with None => number | Some _ => None end)).

(** [self]'s class is what [class] answers, a script's to override. *)
Definition sce_errno (self : Value) : G H Value :=
  let* class := funcall self (lit "class") [] in
  let number := match class with ClassValue c => to_number c | _ => None end in
  match number with
  | Some n => eret (Int n)
  | None =>
    let* s := eget in
    match object s self with
    | Some (OException _ _ (Some n)) => eret (Int n)
    | _ => eret Nil
    end
  end.

(** ** [IO] ([io.rs]) *)

(** [IO.new] and [File.new]. *)
Definition io_new (class : list byte) (args : list Value) : G H Value :=
  let* stream := alloc (OStream class unset) in
  let* _ := funcall stream (lit "initialize") args in
  eret stream.

Definition CONSTRUCT_REFUSAL : list byte :=
  lit "kobako IO only supports fd 1 (stdout), fd 2 (stderr), or a file this guest opened".
Definition WRITE_REFUSAL : list byte :=
  lit "kobako IO writes only to fd 1 (stdout), fd 2 (stderr), or a file this guest opened".

Definition io_initialize (self : Value) (n : Z) (mode : option Value) : G H unit :=
  let* s := eget in
  if negb (is_reachable s n) then throw (argument_error CONSTRUCT_REFUSAL)
  else
    match mode with
    | None | Some Nil => point_at self n None
    | Some mode =>
      let* _ :=
        if is_channel n then
          match str_of s mode with
          | None => throw (type_error s mode)
          | Some bytes =>
            if str_eq bytes (lit "w") then eret tt
            else throw (argument_error (lit "kobako IO only supports mode " ++ [x22] ++ lit "w" ++ [x22]))
          end
        else
          let name := lit "fd " ++ display_int n in
          let* flags := open_flags (Some mode) name in
          let* held := host (c_getfl n) in
          match held with
          | Ok held => if exceeds flags held then throw (error_by_name (lit "EINVAL") name)
                       else eret tt
          | Err _ => throw (error_by_name (lit "EINVAL") name)
          end in
      point_at self n None
    end.

(** [dup] and [clone], over the copy mruby made. *)
Definition io_initialize_copy (self orig : Value) : G H Value :=
  let* s := eget in
  match stream_state s orig with
  | None => eret self
  | Some state => let* _ := stream_update self (fun _ => state) in eret self
  end.

(** [write(2)] over and over, [total] the bytes taken so far: each turn takes one
    byte at least, so as many turns as bytes are enough. *)
Fixpoint write_rest (turns : nat) (self : Value) (n : Z) (rest : list byte) (total : Z) : G H Z :=
  match rest, turns with
  | [], _ => eret total
  | _, O => trap
  | _, S turns' =>
    let* wrote := host (c_write n rest) in
    match wrote with
    | Err number =>
      if is_channel n then eret total
      else let* s := eget in
           throw (from_transfer (from_raw_os_error number) (label s self) (lit "writing"))
    | Ok took =>
      if took <=? 0 then eret total
      else
        let total := Z.min I64_MAX (total + took) in
        if is_channel n then eret total
        else if len rest <? took then trap
        else write_rest turns' self n (drop (Z.to_nat took) rest) total
    end
  end.

Fixpoint write_all_args (self : Value) (n : Z) (args : list Value) (total : Z) : G H Z :=
  match args with
  | [] => eret total
  | v :: args' =>
    let* str := to_r_string v in
    let* s := eget in
    let* total := write_rest (length (bytes_of s str)) self n (bytes_of s str) total in
    write_all_args self n args' total
  end.

Definition io_write (self : Value) (args : list Value) : G H Value :=
  let* n := checked_fd self WRITE_REFUSAL in
  let* total := write_all_args self n args 0 in
  eret (Int total).

Definition opened_to_write (n : Z) : G H bool :=
  let* held := host (c_getfl n) in
  eret (match held with Ok held => writes held | Err _ => false end).

Definition io_fileno (self : Value) : G H Value :=
  let* s := eget in eret (Int (read_fd s self)).

Definition write_one (self v : Value) : G H unit :=
  let* _ := funcall self (lit "write") [v] in eret tt.
Definition write_newline (self : Value) : G H unit :=
  let* nl := str_new [x0a] in write_one self nl.

Definition io_print (self : Value) (args : list Value) : G H unit :=
  for_each (fun v => let* str := to_r_string v in write_one self str) args.

(** [depth] is how deep the guest's stack lets arrays nest. *)
Fixpoint puts_one (depth : nat) (self v : Value) : G H unit :=
  match depth with
  | O => trap
  | S depth' =>
    let* s := eget in
    match array_of s v with
    | Some elems => for_each (puts_one depth' self) elems
    | None =>
      let* str := to_r_string v in
      let* s := eget in
      let ends_nl := match rev (bytes_of s str) with b :: _ => Byte.eqb b x0a | [] => false end in
      let* _ := write_one self str in
      if ends_nl then eret tt else write_newline self
    end
  end.

Definition io_puts (depth : nat) (self : Value) (args : list Value) : G H unit :=
  match args with
  | [] => write_newline self
  | _ => for_each (puts_one depth self) args
  end.

Definition io_printf (self : Value) (args : list Value) : G H unit :=
  let* formatted := funcall self (lit "sprintf") args in write_one self formatted.

Definition io_putc (self obj : Value) : G H Value :=
  match obj with
  | Int n =>
    if fits_i64 n then
      let* str := str_new [byte_of_Z (Z.land n 0xff)] in
      let* _ := write_one self str in eret obj
    else throw range_error
  | _ =>
    let* str := to_r_string obj in
    let* s := eget in
    match bytes_of s str with
    | byte :: _ => let* one := str_new [byte] in let* _ := write_one self one in eret obj
    | [] => eret obj
    end
  end.

Definition io_p (self : Value) (args : list Value) : G H Value :=
  let* _ := for_each (fun v =>
    let* insp := funcall v (lit "inspect") [] in
    let* nl := str_new [x0a] in
    let* _ := funcall self (lit "write") [insp; nl] in eret tt) args in
  match args with
  | [] => eret Nil
  | [only] => eret only
  | _ => alloc (OArray args)
  end.

Definition io_lshift (self obj : Value) : G H Value :=
  let* _ := write_one self obj in eret self.
Definition io_tty_p (_ : Value) : bool := false.
Definition io_sync (s : Vm H) (self : Value) : bool :=
  match stream_state s self with Some state => sync state | None => true end.
Definition io_sync_set (self v : Value) : G H Value :=
  let* _ := stream_update self (fun state => MkState (fd state) (path state) (to_bool v)) in
  eret v.
Definition io_flush (self : Value) : G H Value := eret self.

(** [io::init], past the definitions of methods. *)
Definition io_init : G H unit :=
  let* mode_out := str_new (lit "w") in
  let* stdout := io_new (lit "IO") [Int 1; mode_out] in
  let* stderr := io_new (lit "IO") [Int 2; mode_out] in
  emodify (fun s => with_stderr stderr (with_stdout stdout s)).

(** ** [Kernel]'s delegators ([kernel_ext.rs]) *)

Definition kernel_print (args : list Value) : G H Value :=
  let* s := eget in funcall (v_stdout s) (lit "print") args.
Definition kernel_puts (args : list Value) : G H Value :=
  let* s := eget in funcall (v_stdout s) (lit "puts") args.
Definition kernel_printf (args : list Value) : G H Value :=
  let* s := eget in funcall (v_stdout s) (lit "printf") args.
Definition kernel_p (args : list Value) : G H Value :=
  let* s := eget in funcall (v_stdout s) (lit "p") args.
Definition kernel_warn (args : list Value) : G H Value :=
  let* s := eget in funcall (v_stderr s) (lit "puts") args.
Definition kernel_putc (obj : Value) : G H unit :=
  let* s := eget in let* _ := funcall (v_stdout s) (lit "putc") [obj] in eret tt.
End Methods.
