(* ===== verification/GuestFile.v ===== *)
(** The rest of the guest's I/O library ([wasm/kobako-io]): reading, seeking and
    closing a stream ([stream.rs]), [File] and its paths ([file.rs]),
    [File::Stat] ([file/stat.rs]) and [Dir] ([dir.rs]).

    A loop that ends only because the host says so takes its number of turns as
    an argument, [turns]; out of them it is a trap. *)
From stdpp Require Import gmap.
From S2P Require Import Prelude Text GuestIo.

(** ** Reading ([stream.rs]) *)

Definition READ_REFUSAL : list byte := lit "kobako IO reads only from a file this guest opened".
Definition REACH_REFUSAL : list byte :=
  lit "kobako IO reaches only fd 1 (stdout), fd 2 (stderr), or a file this guest opened".
Definition FILE_REACH_REFUSAL : list byte :=
  lit "kobako File reaches only a file this guest opened".
Definition ADVICES : list (list byte) :=
  [lit "normal"; lit "sequential"; lit "random"; lit "willneed"; lit "dontneed"; lit "noreuse"].
Definition CHUNK : Z := 4096.
Definition newline : byte := x0a.

(** [iter().position(p)]. *)
Fixpoint position {A} (p : A -> bool) (l : list A) : option nat :=
  match l with
  | [] => None
  | a :: l' => if p a then Some O else S <$> position p l'
  end.

(** [usize] on the guest's target is 32 bits: [as usize] and [try_from]. *)
Definition as_usize (n : Z) : Z := as_u32 n.
Definition usize_try_from (n : Z) : option Z :=
  if (0 <=? n) && (n <=? U32_MAX) then Some n else None.

Section Stream.
Context {H : Type} `{!Libc H} `{!Ruby H}.

(** A reach to the host that answers an [io::Result]. *)
Abbreviation io A := (G H (result IoError A)).

Definition io_bind {A B} (m : io A) (k : A -> io B) : io B :=
  let* r := m in match r with Ok a => k a | Err e => eret (Err e) end.

(** [Read::read_to_end] of at most [limit] bytes: it makes room, reads into it,
    and goes on where a call was interrupted. *)
Fixpoint read_to_end (turns : nat) (n : Z) (limit : option Z) (held : list byte) : io (list byte) :=
  match turns with
  | O => trap
  | S turns' =>
    let ask := match limit with
               | Some limit => Z.min (room (len held)) (limit - len held)
               | None => room (len held)
               end in
    if ask <=? 0 then eret (Ok held)
    else
      let* r := host (f_read n ask) in
      match r with
      | Ok [] => eret (Ok held)
      | Ok got => read_to_end turns' n limit (held ++ got)
      | Err e => if bool_decide (kind e = Interrupted) then read_to_end turns' n limit held
                 else eret (Err e)
      end
  end.

(** [Write::write_all]. *)
Definition write_zero : IoError := MkIoError None WriteZero (lit "failed to write whole buffer").
Fixpoint write_all (turns : nat) (n : Z) (rest : list byte) : io unit :=
  match rest, turns with
  | [], _ => eret (Ok tt)
  | _, O => trap
  | _, S turns' =>
    let* r := host (f_write n rest) in
    match r with
    | Ok took => if took =? 0 then eret (Err write_zero)
                 else if len rest <? took then trap
                 else write_all turns' n (drop (Z.to_nat took) rest)
    | Err e => if bool_decide (kind e = Interrupted) then write_all turns' n rest
               else eret (Err e)
    end
  end.

(** [Seek::stream_position], [Seek::rewind]. *)
Definition stream_position (n : Z) : io Z := host (f_seek n (Current 0)).
Definition f_rewind (n : Z) : io Z := host (f_seek n (Start 0)).

Definition readable (self : Value) : G H Z :=
  let* n := checked_fd self READ_REFUSAL in
  if is_channel n then throw (io_error (lit "not opened for reading")) else eret n.

(** [fail], and [map_err(|err| fail(..))?]. *)
Definition fail {A} (self : Value) (err : IoError) : G H A :=
  let* s := eget in
  let path := label s self in
  let* directory :=
    if negb (is_closed s self) && is_reachable s (read_fd s self) then
      let* r := host (f_metadata (read_fd s self)) in
      eret (match r with Ok meta => is_dir meta | Err _ => false end)
    else eret false in
  if (directory : bool) then throw (error_by_name (lit "EISDIR") path)
  else throw (from_transfer err path (lit "reading")).

Definition or_fail {A} (self : Value) (m : io A) : G H A :=
  let* r := m in match r with Ok a => eret a | Err e => fail self e end.

(** The length [read] was asked for. *)
Definition read_length (length : option Value) : result Exn (option Z) :=
  match length with
  | None | Some Nil => Ok None
  | Some (Int n) =>
    if fits_i64 n then
      if 0 <=? n then Ok (Some (as_usize n))
      else Err (argument_error (lit "negative length given"))
    else Err range_error
  | Some _ => Err (argument_error (lit "negative length given"))
  end.

Definition io_read (turns : nat) (self : Value) (length : option Value) : G H Value :=
  let* n := readable self in
  let* length := elift (map_err Raise (read_length length)) in
  let* bytes := or_fail self (read_to_end turns n length []) in
  match bytes, length with
  | [], Some length => if 0 <? length then eret Nil else str_new bytes
  | _, _ => str_new bytes
  end.

(** One line from descriptor [n], [line] what was read of it before. *)
Fixpoint read_line (turns : nat) (n : Z) (line : list byte) : io (option (list byte)) :=
  match turns with
  | O => trap
  | S turns' =>
    let* r := host (f_read n CHUNK) in
    match r with
    | Err e => eret (Err e)
    | Ok [] => eret (Ok (match line with [] => None | _ => Some line end))
    | Ok buf =>
      match position (Byte.eqb newline) buf with
      | Some at_ =>
        let* sought := host (f_seek n (Current (- as_i64 (len buf - Z.of_nat at_ - 1)))) in
        match sought with
        | Ok _ => eret (Ok (Some (line ++ take (S at_) buf)))
        | Err e => eret (Err e)
        end
      | None => read_line turns' n (line ++ buf)
      end
    end
  end.

Definition io_gets (turns : nat) (self : Value) : G H Value :=
  let* n := readable self in
  let* line := or_fail self (read_line turns n []) in
  match line with Some line => str_new line | None => eret Nil end.

(** [while let Some(line) = read_line(fd)? { body(line)?; }]. *)
Fixpoint while_line (turns lines : nat) (self : Value) (n : Z) (body : list byte -> G H unit) :
    G H unit :=
  match lines with
  | O => trap
  | S lines' =>
    let* line := or_fail self (read_line turns n []) in
    match line with
    | Some line => let* _ := body line in while_line turns lines' self n body
    | None => eret tt
    end
  end.

Definition io_each_line (turns lines : nat) (self : Value) (block : option Value) : G H Value :=
  match block with
  | None => throw (argument_error (lit "each_line needs a block"))
  | Some block =>
    let* n := readable self in
    let* _ := while_line turns lines self n (fun line =>
      let* str := str_new line in let* _ := call_block block [str] in eret tt) in
    eret self
  end.

(** [RArray::push]. *)
Definition push (ary v : Value) : G H unit :=
  emodify (fun s =>
    match ary with
    | Ref id => match v_heap s !! id with
                | Some (OArray elems) => with_heap (<[id := OArray (elems ++ [v])]> (v_heap s)) s
                | _ => s
                end
    | _ => s
    end).

Definition io_readlines (turns lines : nat) (self : Value) : G H Value :=
  let* n := readable self in
  let* ary := alloc (OArray []) in
  let* _ := while_line turns lines self n (fun line =>
    let* str := str_new line in push ary str) in
  eret ary.

Definition io_eof_p (self : Value) : G H bool :=
  let* n := readable self in
  or_fail self (io_bind (stream_position n) (fun pos =>
    io_bind (host (f_metadata n)) (fun meta => eret (Ok (length_of meta <=? pos))))).

Definition seek (self : Value) (offset whence : Z) : G H unit :=
  let* n := readable self in
  let* s := eget in
  let invalid := error_by_name (lit "EINVAL") (label s self) in
  let* to :=
    if whence =? 0 then if 0 <=? offset then eret (Start offset) else throw invalid
    else if whence =? 1 then eret (Current offset)
    else if whence =? 2 then eret (End_ offset)
    else throw invalid in
  let* _ := or_fail self (host (f_seek n to)) in
  eret tt.

Definition io_seek (self : Value) (offset : Z) (whence : option Z) : G H Value :=
  let* _ := seek self offset (default 0 whence) in eret (Int 0).
Definition io_set_pos (self : Value) (offset : Z) : G H Value :=
  let* _ := seek self offset 0 in eret (Int offset).
Definition io_rewind (self : Value) : G H Value :=
  let* n := readable self in
  let* _ := or_fail self (f_rewind n) in eret (Int 0).
Definition io_pos (self : Value) : G H Value :=
  let* n := readable self in
  let* pos := or_fail self (stream_position n) in eret (Int (to_i64_or_max pos)).

(** The chunks [io_pread] asks for, [bytes] what it holds. *)
Fixpoint pread_chunks (turns : nat) (self : Value) (n length offset : Z) (bytes : list byte) :
    G H (list byte) :=
  if length <=? len bytes then eret bytes
  else
    match turns with
    | O => trap
    | S turns' =>
      let want := Z.min (length - len bytes) CHUNK in
      let* r := host (c_pread n want (as_i64 (offset + len bytes))) in
      match r with
      | Err number => fail self (from_raw_os_error number)
      | Ok [] => eret bytes
      | Ok got => if CHUNK <? len got then trap
                  else pread_chunks turns' self n length offset (bytes ++ got)
      end
    end.

(** [RString::resize] and [cat], replacing what a String held. *)
Definition replace_bytes (v : Value) (bytes : list byte) : G H unit :=
  emodify (fun s =>
    match v with Ref id => with_heap (<[id := OString bytes]> (v_heap s)) s | _ => s end).

Definition io_pread (turns : nat) (self : Value) (length offset : Z) (outbuf : option Value) :
    G H Value :=
  let* s := eget in
  let* outbuf :=
    match outbuf with
    | None | Some Nil => eret None
    | Some v => match str_of s v with Some _ => eret (Some v) | None => throw (type_error s v) end
    end in
  let* n := readable self in
  match usize_try_from length with
  | None => throw (argument_error (lit "negative string size (or size too big)"))
  | Some length =>
    let* bytes := pread_chunks turns self n length offset [] in
    match bytes with
    | [] =>
      if 0 <? length then raise EOFError (lit "end of file reached")
      else match outbuf with
           | None => str_new bytes
           | Some v => let* _ := replace_bytes v bytes in eret v
           end
    | _ =>
      match outbuf with
      | None => str_new bytes
      | Some v => let* _ := replace_bytes v bytes in eret v
      end
    end
  end.

Definition io_pwrite (self data : Value) (offset : Z) : G H Value :=
  let* n := checked_fd self REACH_REFUSAL in
  let* str := to_r_string data in
  let* s := eget in
  let* wrote := host (c_pwrite n (bytes_of s str) offset) in
  match wrote with
  | Err number => throw (from_transfer (from_raw_os_error number) (label s self) (lit "writing"))
  | Ok took => eret (Int took)
  end.

(** [sync], as [fsync] and [fdatasync] call it. *)
Definition sync_stream (self : Value) (data_only : bool) : G H Value :=
  let* n := checked_fd self REACH_REFUSAL in
  let* r := host ((if data_only then f_sync_data else f_sync_all) n) in
  let* s := eget in
  match r with
  | Ok _ => eret (Int 0)
  | Err e => throw (from_io e (label s self))
  end.
Definition io_fsync (self : Value) : G H Value := sync_stream self false.
Definition io_fdatasync (self : Value) : G H Value := sync_stream self true.

Definition io_advise (self advice : Value) (offset length : option Z) : G H Value :=
  match advice with
  | Symbol name =>
    match position (str_eq name) ADVICES with
    | None => throw (not_implemented (lit "Unsupported advice: :" ++ name))
    | Some advice =>
      let* n := checked_fd self REACH_REFUSAL in
      let* refused := host (c_posix_fadvise n (default 0 offset) (default 0 length) (Z.of_nat advice)) in
      let* s := eget in
      if refused =? 0 then eret Nil
      else throw (from_io (from_raw_os_error refused) (label s self))
    end
  | _ => raise TypeError (lit "advice must be a Symbol")
  end.

Definition io_close (self : Value) : G H Value :=
  let* s := eget in
  if is_closed s self then eret Nil
  else
    let* n := checked_fd self READ_REFUSAL in
    if is_channel n then throw (io_error (lit "kobako IO cannot close a captured stream"))
    else
      let* refusal :=
        (let* known := forget n in
         if (known : bool) then
           let* r := host (c_close n) in
           eret (match r with Ok _ => None | Err number => Some (from_raw_os_error number) end)
         else eret None) in
      let* _ := release self in
      match refusal with Some err => fail self err | None => eret Nil end.

Definition io_closed_p (s : Vm H) (self : Value) : bool := is_closed s self.

(** ** [File] ([file.rs]) *)

Definition require_mount (call : list byte) : G H unit :=
  let* mounted := host prestat_get in
  if (mounted : bool) then eret tt
  else throw (not_implemented
                (call ++ lit " is unimplemented: this Sandbox mounts no filesystem")).

Definition path_arg (v : Value) : G H (list byte) :=
  let* s := eget in
  match str_of s v with
  | None => throw (type_error s v)
  | Some bytes =>
    if bool_decide (x00 ∈ bytes) then throw (argument_error (lit "string contains null byte"))
    else if utf8_valid bytes then eret bytes
    else throw (error_by_name (lit "EILSEQ") (from_utf8_lossy bytes))
  end.

(** [r.map_err(|err| from_io(mrb, &err, &path))?]. *)
Definition or_errno {A} (path : list byte) (m : io A) : G H A :=
  let* r := m in match r with Ok a => eret a | Err e => throw (from_io e path) end.
(** The same of a libc call. *)
Definition or_last_errno {A} (path : list byte) (m : G H (result Z A)) : G H A :=
  let* r := m in
  match r with Ok a => eret a | Err number => throw (from_io (from_raw_os_error number) path) end.

Definition file_initialize (self path : Value) (mode : option Value) : G H unit :=
  let* _ := require_mount (lit "File.open") in
  let* path := path_arg path in
  let* flags := open_flags mode path in
  let* n := or_last_errno path (host (c_open path flags)) in
  let* _ := remember n in
  point_at self n (Some path).

Definition file_path (self : Value) : G H Value :=
  let* s := eget in
  match (state ← stream_state s self; path state) with
  | Some path => str_new path
  | None => eret Nil
  end.

Definition file_size (self : Value) : G H Value :=
  let* n := checked_fd self FILE_REACH_REFUSAL in
  let* s := eget in
  let* meta := or_errno (label s self) (host (f_metadata n)) in
  eret (Int (to_i64_or_max (length_of meta))).

Definition file_truncate (self : Value) (length : Z) : G H Value :=
  let* n := checked_fd self FILE_REACH_REFUSAL in
  let* writing := opened_to_write n in
  if negb writing then throw (io_error (lit "not opened for writing"))
  else
    let* r := host (c_ftruncate n length) in
    let* s := eget in
    match r with
    | Ok _ => eret (Int 0)
    | Err number => throw (from_transfer (from_raw_os_error number) (label s self) (lit "writing"))
    end.

Definition file_s_truncate (path : Value) (length : Z) : G H Value :=
  let* _ := require_mount (lit "File.truncate") in
  let* path := path_arg path in
  let* _ := or_last_errno path (host (c_truncate path length)) in
  eret (Int 0).

(** A block's answer, or its exception, kept until the file it was given is
    closed; a trap ends the guest before. *)
Definition kept {A} (m : G H A) : G H (result Exn A) :=
  fun s => match m s with
           | (Ok a, s') => (Ok (Ok a), s')
           | (Err (Raise e), s') => (Ok (Err e), s')
           | (Err Trap, s') => (Err Trap, s')
           end.

Definition file_s_open (class : list byte) (args : list Value) (block : option Value) : G H Value :=
  let* file := io_new class args in
  match block with
  | None => eret file
  | Some block =>
    let* answer := kept (call_block block [file]) in
    let* _ := funcall file (lit "close") [] in
    elift (map_err Raise answer)
  end.

(** [fs::read]: opened, read to the end, and closed however that ended. *)
Definition fs_read (turns : nat) (path : list byte) : io (list byte) :=
  io_bind (host (f_open ToRead path)) (fun n =>
    let* r := read_to_end turns n None [] in
    let* _ := host (fun h => (tt, f_drop n h)) in
    eret r).

Definition file_s_read (turns : nat) (path : Value) : G H Value :=
  let* _ := require_mount (lit "File.read") in
  let* path := path_arg path in
  let* bytes := or_errno path (fs_read turns path) in
  str_new bytes.

Definition file_s_write (turns : nat) (path data : Value) : G H Value :=
  let* _ := require_mount (lit "File.write") in
  let* path := path_arg path in
  let* str := to_r_string data in
  let* s := eget in
  let bytes := bytes_of s str in
  let* _ := or_errno path (io_bind (host (f_open ToCreate path)) (fun n =>
    let* r := write_all turns n bytes in
    let* _ := host (fun h => (tt, f_drop n h)) in
    eret r)) in
  eret (Int (to_i64_or_max (len bytes))).

(** [metadata]: a path nothing answers for is [None]. *)
Definition metadata (call : list byte) (path : Value) : G H (option Metadata) :=
  let* _ := require_mount call in
  let* path := path_arg path in
  let* r := host (fs_metadata path) in
  eret (match r with Ok meta => Some meta | Err _ => None end).

Definition file_s_exist_p (path : Value) : G H bool :=
  let* found := metadata (lit "File.exist?") path in
  eret (match found with Some _ => true | None => false end).
Definition file_s_file_p (path : Value) : G H bool :=
  let* found := metadata (lit "File.file?") path in
  eret (match found with Some meta => is_file meta | None => false end).
Definition file_s_directory_p (path : Value) : G H bool :=
  let* found := metadata (lit "File.directory?") path in
  eret (match found with Some meta => is_dir meta | None => false end).

Definition file_s_size (path : Value) : G H Value :=
  let* _ := require_mount (lit "File.size") in
  let* path := path_arg path in
  let* meta := or_errno path (host (fs_metadata path)) in
  eret (Int (to_i64_or_max (length_of meta))).

Definition file_s_delete (args : list Value) : G H Value :=
  let* _ := require_mount (lit "File.delete") in
  let* _ := for_each (fun path =>
    let* path := path_arg path in or_errno path (host (fs_remove_file path))) args in
  eret (Int (to_i64_or_max (len args))).

Definition file_s_rename (from to : Value) : G H Value :=
  let* _ := require_mount (lit "File.rename") in
  let* from := path_arg from in
  let* to := path_arg to in
  let* _ := or_errno (lit "(" ++ from ++ lit ", " ++ to ++ lit ")") (host (fs_rename from to)) in
  eret (Int 0).
End Stream.

(** *** Paths, which touch nothing *)

Definition slash : byte := x2f.
Definition dot : byte := x2e.

(** [rsplit_once]'s place, [rfind] of a byte. *)
Fixpoint rfind (b : byte) (s : list byte) : option nat :=
  match s with
  | [] => None
  | c :: s' => match rfind b s' with
               | Some at_ => Some (S at_)
               | None => if Byte.eqb b c then Some O else None
               end
  end.

(** [trim_end_matches('/')], [ends_with]. *)
Fixpoint drop_slashes (rev_path : list byte) : list byte :=
  match rev_path with
  | b :: rest => if Byte.eqb b slash then drop_slashes rest else rev_path
  | [] => []
  end.
Definition trim_end_slashes (path : list byte) : list byte := rev (drop_slashes (rev path)).
Definition ends_with (suffix s : list byte) : bool := starts_with (rev suffix) (rev s).

(** One turn of [file_s_join]'s loop past the first. *)
Definition join_one (joined part : list byte) : list byte :=
  match ends_with [slash] joined, starts_with [slash] part with
  | true, true => joined ++ drop 1 part
  | false, false => joined ++ [slash] ++ part
  | _, _ => joined ++ part
  end.

Definition join (parts : list (list byte)) : list byte :=
  match parts with [] => [] | part :: parts' => fold_left join_one parts' part end.

(** The text past the last separator, [rsplit('/').next()]. *)
Definition past_last_slash (s : list byte) : list byte :=
  match rfind slash s with Some at_ => drop (S at_) s | None => s end.

Definition last_component (path : list byte) : list byte :=
  match trim_end_slashes path with
  | [] => match path with [] => [] | _ => [slash] end
  | trimmed => past_last_slash trimmed
  end.

(** [file_s_basename] past its arguments. *)
Definition basename (path : list byte) (suffix : option (list byte)) : list byte :=
  let base := last_component path in
  match suffix with
  | None => base
  | Some suffix =>
    if str_eq suffix (lit ".*") then
      match rfind dot base with
      | Some (S at_) => take (S at_) base
      | _ => base
      end
    else if (len suffix <? len base) && ends_with suffix base
         then take (length base - length suffix) base
    else base
  end.

Definition dirname (path : list byte) : list byte :=
  let trimmed := trim_end_slashes path in
  let dir :=
    match rfind slash trimmed with
    | Some O => [slash]
    | Some at_ => trim_end_slashes (take at_ trimmed)
    | None => if starts_with [slash] path then [slash] else [dot]
    end in
  match dir with [] => [slash] | _ => dir end.

Definition extname (path : list byte) : list byte :=
  let base := last_component path in
  match rfind dot base with
  | Some (S at_) => if (S (S at_) <? length base)%nat then drop (S at_) base else []
  | _ => []
  end.

Section Stat.
Context {H : Type} `{!Libc H} `{!Ruby H}.

(** The arguments of a path method, in order. *)
Fixpoint path_args (args : list Value) : G H (list (list byte)) :=
  match args with
  | [] => eret []
  | v :: args' =>
    let* path := path_arg v in let* paths := path_args args' in eret (path :: paths)
  end.

Definition file_s_join (args : list Value) : G H Value :=
  let* parts := path_args args in str_new (join parts).

Definition file_s_basename (path : Value) (suffix : option Value) : G H Value :=
  let* path := path_arg path in
  let* suffix := match suffix with
                 | None => eret None
                 | Some v => let* suffix := path_arg v in eret (Some suffix)
                 end in
  str_new (basename path suffix).

Definition file_s_dirname (path : Value) : G H Value :=
  let* path := path_arg path in str_new (dirname path).
Definition file_s_extname (path : Value) : G H Value :=
  let* path := path_arg path in str_new (extname path).

(** ** [File::Stat] ([file/stat.rs]) *)

Definition S_IFMT : Z := 0xf000.
Definition S_IFCHR : Z := 0x2000.
Definition S_IFDIR : Z := 0x4000.
Definition S_IFREG : Z := 0x8000.
Definition S_IFLNK : Z := 0xa000.
Definition S_IFSOCK : Z := 0xc000.

Definition stat_is (stat : Stat) (kind : Z) : bool := Z.land (mode stat) S_IFMT =? kind.

Definition ftype (stat : Stat) : list byte :=
  let kind := Z.land (mode stat) S_IFMT in
  if kind =? S_IFREG then lit "file"
  else if kind =? S_IFDIR then lit "directory"
  else if kind =? S_IFLNK then lit "link"
  else if kind =? S_IFCHR then lit "characterSpecial"
  else if kind =? S_IFSOCK then lit "socket"
  else lit "unknown".

Definition nonzero_size (stat : Stat) : Value :=
  if size stat =? 0 then Nil else Int (size stat).

(** [ask_host], [report_at]. *)
Definition ask_host (call : list byte) (path : Value)
    (ask : list byte -> H -> result Z Stat * H) : G H (list byte * result Z Stat) :=
  let* _ := require_mount call in
  let* path := path_arg path in
  let* found := host (ask path) in
  eret (path, found).

Definition report_at (call : list byte) (path : Value)
    (ask : list byte -> H -> result Z Stat * H) : G H Stat :=
  let* (path, found) := ask_host call path ask in
  or_last_errno path (eret found).

Definition report_value (stat : Stat) : G H Value := alloc (OStat stat).

Definition stat_s_new (path : Value) : G H Value :=
  let* stat := report_at (lit "File::Stat.new") path c_stat in report_value stat.

(** [Stat::of]. *)
Definition stat_of (self : Value) : G H Stat :=
  let* s := eget in
  match object s self with Some (OStat stat) => eret stat | _ => throw not_carrying end.

(** [dup] and [clone], over the copy mruby made: one already holding a report
    keeps it. *)
Definition stat_copy (self orig : Value) : G H Value :=
  let* stat := stat_of orig in
  let* s := eget in
  match self, object s self with
  | Ref _, Some (OStat _) => eret self
  | Ref id, Some _ =>
    let* _ := emodify (fun s => with_heap (<[id := OStat stat]> (v_heap s)) s) in eret self
  | _, _ => eret self
  end.

Definition stat_ino (self : Value) : G H Value :=
  let* stat := stat_of self in eret (Int (ino stat)).
Definition stat_nlink (self : Value) : G H Value :=
  let* stat := stat_of self in eret (Int (nlink stat)).
Definition stat_size (self : Value) : G H Value :=
  let* stat := stat_of self in eret (Int (size stat)).
Definition stat_size_p (self : Value) : G H Value :=
  let* stat := stat_of self in eret (nonzero_size stat).
Definition stat_zero_p (self : Value) : G H bool :=
  let* stat := stat_of self in eret (size stat =? 0).
Definition stat_ftype (self : Value) : G H Value :=
  let* stat := stat_of self in str_new (ftype stat).
(** [stat_file_p] and its like, each of one kind. *)
Definition stat_is_p (self : Value) (kind : Z) : G H bool :=
  let* stat := stat_of self in eret (stat_is stat kind).

Definition file_stat (self : Value) : G H Value :=
  let* n := checked_fd self FILE_REACH_REFUSAL in
  let* s := eget in
  let* stat := or_last_errno (label s self) (host (c_fstat n)) in
  report_value stat.

Definition file_lstat (self : Value) : G H Value :=
  let* _ := checked_fd self FILE_REACH_REFUSAL in
  let* s := eget in
  let* path := str_new (label s self) in
  let* stat := report_at (lit "File#lstat") path c_lstat in
  report_value stat.

Definition file_s_stat (path : Value) : G H Value :=
  let* stat := report_at (lit "File.stat") path c_stat in report_value stat.
Definition file_s_lstat (path : Value) : G H Value :=
  let* stat := report_at (lit "File.lstat") path c_lstat in report_value stat.
Definition file_s_ftype (path : Value) : G H Value :=
  let* stat := report_at (lit "File.ftype") path c_lstat in str_new (ftype stat).
Definition file_s_symlink_p (path : Value) : G H bool :=
  let* (_, found) := ask_host (lit "File.symlink?") path c_lstat in
  eret (match found with Ok stat => stat_is stat S_IFLNK | Err _ => false end).
Definition file_s_size_p (path : Value) : G H Value :=
  let* (_, found) := ask_host (lit "File.size?") path c_stat in
  eret (match found with Ok stat => nonzero_size stat | Err _ => Nil end).
Definition file_s_zero_p (path : Value) : G H bool :=
  let* (_, found) := ask_host (lit "File.zero?") path c_stat in
  eret (match found with Ok stat => size stat =? 0 | Err _ => false end).
End Stat.

(** ** [Dir] ([dir.rs]) *)

Definition DOTS : list (list byte) := [[dot]; [dot; dot]].

(** [collect::<io::Result<Vec<_>>>] of a listing. *)
Fixpoint collect_names (names : list (result IoError (list byte))) :
    result IoError (list (list byte)) :=
  match names with
  | [] => Ok []
  | name :: names' => let? name := name in let? names := collect_names names' in Ok (name :: names)
  end.

Section Dir.
Context {H : Type} `{!Libc H} `{!Ruby H}.
Abbreviation io A := (G H (result IoError A)).

Definition dir_path_arg (call : list byte) (v : Value) : G H (list byte) :=
  let* _ := require_mount call in path_arg v.

Definition children (path : list byte) : io (list (list byte)) :=
  let* r := host (fs_read_dir path) in eret (let? names := r in collect_names names).
Definition entries_of (path : list byte) : io (list (list byte)) :=
  let* r := children path in eret (let? names := r in Ok (DOTS ++ names)).

Definition list_path (call : list byte) (v : Value)
    (list_ : list byte -> io (list (list byte))) : G H (list (list byte)) :=
  let* path := dir_path_arg call v in or_errno path (list_ path).

Definition names_value (names : list (list byte)) : G H Value :=
  let* ary := alloc (OArray []) in
  let* _ := for_each (fun name => let* str := str_new name in push ary str) names in
  eret ary.

Definition yield_each (block : Value) (names : list (list byte)) : G H unit :=
  for_each (fun name =>
    let* str := str_new name in let* _ := call_block block [str] in eret tt) names.

Definition open_listing (call : list byte) (v : Value) : G H Value :=
  let* path := dir_path_arg call v in
  let* entries := or_errno path (entries_of path) in
  alloc (OListing (MkListing path (Some (MkOpenEntries entries 0)))).

Definition dir_s_new (path : Value) : G H Value := open_listing (lit "Dir.new") path.

(** [Listing::of]. *)
Definition listing_in (s : Vm H) (self : Value) : option Listing :=
  match object s self with Some (OListing listing) => Some listing | _ => None end.
Definition listing_of (self : Value) : G H Listing :=
  let* s := eget in
  match listing_in s self with Some listing => eret listing | None => throw not_carrying end.

(** What the [RefCell] of a listing holds, replaced. *)
Definition set_opened (self : Value) (o : option OpenEntries) : G H unit :=
  emodify (fun s =>
    match self, listing_in s self with
    | Ref id, Some listing =>
      with_heap (<[id := OListing (MkListing (l_path listing) o)]> (v_heap s)) s
    | _, _ => s
    end).

Definition dir_close (self : Value) : G H Value :=
  let* _ := listing_of self in
  let* _ := set_opened self None in eret Nil.

Definition dir_s_open (path : Value) (block : option Value) : G H Value :=
  let* dir := open_listing (lit "Dir.open") path in
  match block with
  | None => eret dir
  | Some block =>
    let* answer := kept (call_block block [dir]) in
    let* _ := dir_close dir in
    elift (map_err Raise answer)
  end.

Definition dir_s_children (path : Value) : G H Value :=
  let* names := list_path (lit "Dir.children") path children in names_value names.
Definition dir_s_entries (path : Value) : G H Value :=
  let* names := list_path (lit "Dir.entries") path entries_of in names_value names.

Definition dir_s_each_child (path : Value) (block : option Value) : G H Value :=
  match block with
  | None => throw (argument_error (lit "Dir.each_child needs a block"))
  | Some block =>
    let* names := list_path (lit "Dir.each_child") path children in
    let* _ := yield_each block names in eret Nil
  end.

Definition dir_s_exist_p (path : Value) : G H bool :=
  let* found := metadata (lit "Dir.exist?") path in
  eret (match found with Some meta => is_dir meta | None => false end).

(** Only the first name is asked for, an entry that fails standing for one. *)
Definition dir_s_empty_p (path : Value) : G H bool :=
  let* path := dir_path_arg (lit "Dir.empty?") path in
  let* r := host (fs_read_dir path) in
  match r with
  | Ok names => eret (match names with [] => true | _ => false end)
  | Err e => if bool_decide (kind e = NotADirectory) then eret false else throw (from_io e path)
  end.

Definition dir_s_mkdir (path : Value) : G H Value :=
  let* path := dir_path_arg (lit "Dir.mkdir") path in
  let* _ := or_errno path (host (fs_create_dir path)) in eret (Int 0).
Definition dir_s_rmdir (path : Value) : G H Value :=
  let* path := dir_path_arg (lit "Dir.rmdir") path in
  let* _ := or_errno path (host (fs_remove_dir path)) in eret (Int 0).

(** [with_opened], answering what the listing held and leaving what [body] makes
    of it. *)
Definition with_opened_dir {A} (self : Value) (body : OpenEntries -> A * OpenEntries) : G H A :=
  let* listing := listing_of self in
  match opened listing with
  | None => throw (io_error (lit "closed directory"))
  | Some held => let '(a, held') := body held in let* _ := set_opened self (Some held') in eret a
  end.

Definition relist (self : Value) : G H (list (list byte)) :=
  let* listing := listing_of self in
  let path := l_path listing in
  let* _ := with_opened_dir self (fun held => (tt, held)) in
  let* names := or_errno path (entries_of path) in
  let* _ := with_opened_dir self (fun _ => (tt, MkOpenEntries names (length names))) in
  eret names.

Definition dir_path (self : Value) : G H Value :=
  let* listing := listing_of self in str_new (l_path listing).
Definition dir_inspect (self : Value) : G H Value :=
  let* listing := listing_of self in
  str_new (lit "#<Dir:" ++ l_path listing ++ lit ">").

Definition dir_read (self : Value) : G H Value :=
  let* name := with_opened_dir self (fun held =>
    let name := entries held !! next held in
    (name, MkOpenEntries (entries held)
             (match name with Some _ => S (next held) | None => next held end))) in
  match name with Some name => str_new name | None => eret Nil end.

Definition dir_each (self : Value) (block : option Value) : G H Value :=
  match block with
  | None => throw (argument_error (lit "Dir#each needs a block"))
  | Some block =>
    let* names := relist self in let* _ := yield_each block names in eret self
  end.

Definition dir_children (self : Value) : G H Value :=
  let* names := relist self in names_value (drop (length DOTS) names).

Definition dir_each_child (self : Value) (block : option Value) : G H Value :=
  match block with
  | None => throw (argument_error (lit "Dir#each_child needs a block"))
  | Some block =>
    let* names := relist self in
    let* _ := yield_each block (drop (length DOTS) names) in eret self
  end.

Definition dir_rewind (self : Value) : G H Value :=
  let* _ := relist self in
  let* _ := with_opened_dir self (fun held => (tt, MkOpenEntries (entries held) 0)) in
  eret self.
End Dir.
