(* ===== verification/GuestScript.v ===== *)
(** A script against the guest's I/O library: every method the library defines
    ([init] of each file of [wasm/kobako-io]), scripts that call them and are
    called back by them, and which descriptors all of it hands the host.

    A script is a program over its own objects and the library's methods; what a
    method calls back ([to_s], a block, an overridden method) is a script again,
    run with what is left of [depth]. *)
From stdpp Require Import gmap.
From S2P Require Import Prelude Text GuestIo GuestFile.

(** ** The methods *)

(** Each method as a script calls it, past [scan_args]: its receiver first. *)
Inductive Method :=
(* [io::init] *)
| IoNew (class : list byte) (args : list Value)
| IoInitialize (self : Value) (n : Z) (mode : option Value)
| IoInitializeCopy (self orig : Value)
| IoWrite (self : Value) (args : list Value)
| IoFileno (self : Value)
| IoPrint (self : Value) (args : list Value)
| IoPuts (self : Value) (args : list Value)
| IoPrintf (self : Value) (args : list Value)
| IoPutc (self obj : Value)
| IoP (self : Value) (args : list Value)
| IoLshift (self obj : Value)
| IoTty (self : Value)
| IoSync (self : Value)
| IoSyncSet (self v : Value)
| IoFlush (self : Value)
(* [stream::init] *)
| IoRead (self : Value) (length : option Value)
| IoGets (self : Value)
| IoEachLine (self : Value) (block : option Value)
| IoReadlines (self : Value)
| IoEof (self : Value)
| IoSeek (self : Value) (offset : Z) (whence : option Z)
| IoRewind (self : Value)
| IoPos (self : Value)
| IoSetPos (self : Value) (offset : Z)
| IoPread (self : Value) (length offset : Z) (outbuf : option Value)
| IoPwrite (self data : Value) (offset : Z)
| IoFsync (self : Value)
| IoFdatasync (self : Value)
| IoAdvise (self advice : Value) (offset length : option Z)
| IoClose (self : Value)
| IoClosed (self : Value)
(* [file::init] *)
| FileInitialize (self path : Value) (mode : option Value)
| FilePath (self : Value)
| FileSize (self : Value)
| FileTruncate (self : Value) (length : Z)
| FileSTruncate (path : Value) (length : Z)
| FileSOpen (class : list byte) (args : list Value) (block : option Value)
| FileSRead (path : Value)
| FileSWrite (path data : Value)
| FileSExist (path : Value)
| FileSFile (path : Value)
| FileSDirectory (path : Value)
| FileSSize (path : Value)
| FileSDelete (args : list Value)
| FileSRename (from to : Value)
| FileSJoin (args : list Value)
| FileSBasename (path : Value) (suffix : option Value)
| FileSDirname (path : Value)
| FileSExtname (path : Value)
(* [stat::init] *)
| StatSNew (path : Value)
| StatCopy (self orig : Value)
| StatIno (self : Value)
| StatNlink (self : Value)
| StatSize (self : Value)
| StatSizeP (self : Value)
| StatZero (self : Value)
| StatFtype (self : Value)
| StatIs (self : Value) (kind : Z)
| FileStat (self : Value)
| FileLstat (self : Value)
| FileSStat (path : Value)
| FileSLstat (path : Value)
| FileSFtype (path : Value)
| FileSSymlink (path : Value)
| FileSSizeP (path : Value)
| FileSZero (path : Value)
(* [dir::init] *)
| DirSNew (path : Value)
| DirSOpen (path : Value) (block : option Value)
| DirSChildren (path : Value)
| DirSEntries (path : Value)
| DirSEachChild (path : Value) (block : option Value)
| DirSExist (path : Value)
| DirSEmpty (path : Value)
| DirSMkdir (path : Value)
| DirSRmdir (path : Value)
| DirPath (self : Value)
| DirInspect (self : Value)
| DirRead (self : Value)
| DirEach (self : Value) (block : option Value)
| DirChildren (self : Value)
| DirEachChild (self : Value) (block : option Value)
| DirRewind (self : Value)
| DirClose (self : Value)
(* [kernel_ext::init] and [errno::init] *)
| KernelPrint (args : list Value)
| KernelPuts (args : list Value)
| KernelPrintf (args : list Value)
| KernelP (args : list Value)
| KernelPutc (obj : Value)
| KernelWarn (args : list Value)
| SceNew (class : ExnClass) (args : list Value)
| SceErrno (self : Value).

Section Perform.
Context {H : Type} `{!Libc H} `{!Ruby H}.
Variable turns : nat.

Definition as_value {A} (f : A -> Value) (m : G H A) : G H Value := let* a := m in eret (f a).
Definition unit_value (_ : ()) : Value := Nil.

(** What a method runs. *)
Definition perform (m : Method) : G H Value :=
  match m with
  | IoNew class args => io_new class args
  | IoInitialize self n mode => as_value unit_value (io_initialize self n mode)
  | IoInitializeCopy self orig => io_initialize_copy self orig
  | IoWrite self args => io_write self args
  | IoFileno self => io_fileno self
  | IoPrint self args => as_value unit_value (io_print self args)
  | IoPuts self args => as_value unit_value (io_puts turns self args)
  | IoPrintf self args => as_value unit_value (io_printf self args)
  | IoPutc self obj => io_putc self obj
  | IoP self args => io_p self args
  | IoLshift self obj => io_lshift self obj
  | IoTty self => eret (Bool (io_tty_p self))
  | IoSync self => let* s := eget in eret (Bool (io_sync s self))
  | IoSyncSet self v => io_sync_set self v
  | IoFlush self => io_flush self
  | IoRead self length => io_read turns self length
  | IoGets self => io_gets turns self
  | IoEachLine self block => io_each_line turns turns self block
  | IoReadlines self => io_readlines turns turns self
  | IoEof self => as_value Bool (io_eof_p self)
  | IoSeek self offset whence => io_seek self offset whence
  | IoRewind self => io_rewind self
  | IoPos self => io_pos self
  | IoSetPos self offset => io_set_pos self offset
  | IoPread self length offset outbuf => io_pread turns self length offset outbuf
  | IoPwrite self data offset => io_pwrite self data offset
  | IoFsync self => io_fsync self
  | IoFdatasync self => io_fdatasync self
  | IoAdvise self advice offset length => io_advise self advice offset length
  | IoClose self => io_close self
  | IoClosed self => let* s := eget in eret (Bool (io_closed_p s self))
  | FileInitialize self path mode => as_value unit_value (file_initialize self path mode)
  | FilePath self => file_path self
  | FileSize self => file_size self
  | FileTruncate self length => file_truncate self length
  | FileSTruncate path length => file_s_truncate path length
  | FileSOpen class args block => file_s_open class args block
  | FileSRead path => file_s_read turns path
  | FileSWrite path data => file_s_write turns path data
  | FileSExist path => as_value Bool (file_s_exist_p path)
  | FileSFile path => as_value Bool (file_s_file_p path)
  | FileSDirectory path => as_value Bool (file_s_directory_p path)
  | FileSSize path => file_s_size path
  | FileSDelete args => file_s_delete args
  | FileSRename from to => file_s_rename from to
  | FileSJoin args => file_s_join args
  | FileSBasename path suffix => file_s_basename path suffix
  | FileSDirname path => file_s_dirname path
  | FileSExtname path => file_s_extname path
  | StatSNew path => stat_s_new path
  | StatCopy self orig => stat_copy self orig
  | StatIno self => stat_ino self
  | StatNlink self => stat_nlink self
  | StatSize self => stat_size self
  | StatSizeP self => stat_size_p self
  | StatZero self => as_value Bool (stat_zero_p self)
  | StatFtype self => stat_ftype self
  | StatIs self kind => as_value Bool (stat_is_p self kind)
  | FileStat self => file_stat self
  | FileLstat self => file_lstat self
  | FileSStat path => file_s_stat path
  | FileSLstat path => file_s_lstat path
  | FileSFtype path => file_s_ftype path
  | FileSSymlink path => as_value Bool (file_s_symlink_p path)
  | FileSSizeP path => file_s_size_p path
  | FileSZero path => as_value Bool (file_s_zero_p path)
  | DirSNew path => dir_s_new path
  | DirSOpen path block => dir_s_open path block
  | DirSChildren path => dir_s_children path
  | DirSEntries path => dir_s_entries path
  | DirSEachChild path block => dir_s_each_child path block
  | DirSExist path => as_value Bool (dir_s_exist_p path)
  | DirSEmpty path => as_value Bool (dir_s_empty_p path)
  | DirSMkdir path => dir_s_mkdir path
  | DirSRmdir path => dir_s_rmdir path
  | DirPath self => dir_path self
  | DirInspect self => dir_inspect self
  | DirRead self => dir_read self
  | DirEach self block => dir_each self block
  | DirChildren self => dir_children self
  | DirEachChild self block => dir_each_child self block
  | DirRewind self => dir_rewind self
  | DirClose self => dir_close self
  | KernelPrint args => kernel_print args
  | KernelPuts args => kernel_puts args
  | KernelPrintf args => kernel_printf args
  | KernelP args => kernel_p args
  | KernelPutc obj => as_value unit_value (kernel_putc obj)
  | KernelWarn args => kernel_warn args
  | SceNew class args => sce_s_new class args
  | SceErrno self => sce_errno self
  end.
End Perform.

(** ** Scripts *)

(** A script: what it answers or raises, the objects it reads and changes, the
    globals it sets, and the methods it calls, rescuing what they raise. *)
Inductive Script :=
| Return (v : Value)
| Throw (e : Exn)
| Memory (change : gmap N Obj -> gmap N Obj) (k : gmap N Obj -> Script)
| SetGlobals (stdout stderr : Value) (k : Script)
| CallMethod (m : Method) (k : result Exn Value -> Script).

(** What answers a call back, the methods a script overrides among them, and what
    [beni] reads of values. *)
Record Scripts := MkScripts {
  to_s_script : Value -> gmap N Obj -> Script;
  call_script : Value -> list byte -> list Value -> gmap N Obj -> Script;
  block_script : Value -> list Value -> gmap N Obj -> Script;
  sc_classname : Value -> gmap N Obj -> list byte;
  sc_range_error : Exn;
  sc_not_carrying : Exn;
  sc_class_errno : ExnClass -> option Value;
  sc_string_from : list byte -> option (list byte);
}.

Section Run.
Context {H : Type} `{!Libc H}.
Variables (turns : nat) (scripts : Scripts).

Fixpoint run_script (ruby : Ruby H) (p : Script) : G H Value :=
  match p with
  | Return v => eret v
  | Throw e => throw e
  | Memory change k =>
    let* _ := emodify (fun s => with_heap (change (v_heap s)) s) in
    let* s := eget in run_script ruby (k (v_heap s))
  | SetGlobals stdout stderr k =>
    let* _ := emodify (fun s => with_stderr stderr (with_stdout stdout s)) in
    run_script ruby k
  | CallMethod m k => let* r := kept (perform turns m) in run_script ruby (k r)
  end.

(** Ruby whose calls back nest [depth] deep at most. *)
Fixpoint ruby_at (depth : nat) : Ruby H :=
  let call script := match depth with
                     | O => trap
                     | S depth' => let* s := eget in run_script (ruby_at depth') (script (v_heap s))
                     end in
  {| to_r_string v := call (to_s_script scripts v);
     funcall v name args := call (call_script scripts v name args);
     call_block v args := call (block_script scripts v args);
     classname v s := sc_classname scripts v (v_heap s);
     range_error := sc_range_error scripts;
     not_carrying := sc_not_carrying scripts;
     class_errno := sc_class_errno scripts;
     string_from_value := sc_string_from scripts |}.

(** A Guest Binary's memory before its first script. *)
Definition fresh_vm (h : H) : Vm H := MkVm ∅ ∅ Nil Nil h.

(** A gem's [init], then a script. *)
Definition run_guest (depth : nat) (p : Script) : G H Value :=
  let ruby := ruby_at depth in
  let* _ := io_init in run_script ruby p.
End Run.
