(* ===== verification/GuestReach.v ===== *)
(** Which descriptors a script hands the host: whatever it calls, and whatever
    its methods call back, only the two captured streams and what its own opens
    answered; and it closes only what is open.

    [watched] is any wasi-libc, noting beside it what its opens answered and
    whether a call was handed anything else. *)
From stdpp Require Import gmap.
From S2P Require Import Prelude Text GuestIo GuestFile GuestScript.

(** What was opened and not closed since, what was ever opened, and whether every
    call was handed one of those. *)
Record Reach := MkReach { r_open : gset Z; r_ever : gset Z; r_ok : bool }.

Definition own (ever : gset Z) (n : Z) : Prop := is_channel n = true \/ n ∈ ever.
#[export] Instance own_decision ever n : Decision (own ever n).
Proof. unfold own. apply _. Defined.

(** A call handed [n]; an open that answered [n]; a close of [n]. *)
Definition touch (n : Z) (g : Reach) : Reach :=
  MkReach (r_open g) (r_ever g) (r_ok g && bool_decide (own (r_ever g) n)).
Definition open_noted (n : Z) (g : Reach) : Reach :=
  MkReach ({[n]} ∪ r_open g) ({[n]} ∪ r_ever g) (r_ok g).
Definition lent (n : Z) (g : Reach) : Reach :=
  MkReach (r_open g) ({[n]} ∪ r_ever g) (r_ok g).
Definition close_noted (n : Z) (g : Reach) : Reach :=
  MkReach (r_open g ∖ {[n]}) (r_ever g) (r_ok g && bool_decide (n ∈ r_open g)).

Section Watched.
Context {H : Type} `{!Libc H}.

Definition on_note {A} (note : A -> Reach -> Reach) (call : H -> A * H) :
    H * Reach -> A * (H * Reach) :=
  fun hg => let '(a, h') := call (fst hg) in (a, (h', note a (snd hg))).
Definition on_fd {A} (n : Z) (call : H -> A * H) := on_note (fun _ => touch n) call.
Definition on_path {A} (call : H -> A * H) := on_note (fun _ g => g) call.
Definition noting {E} (note : Z -> Reach -> Reach) (r : result E Z) (g : Reach) : Reach :=
  match r with Ok n => note n g | Err _ => g end.

#[export] Instance watched : Libc (H * Reach) := {|
  c_write n bytes := on_fd n (c_write n bytes);
  c_pread n want at_ := on_fd n (c_pread n want at_);
  c_pwrite n bytes at_ := on_fd n (c_pwrite n bytes at_);
  c_posix_fadvise n offset length advice := on_fd n (c_posix_fadvise n offset length advice);
  c_close n := on_note (fun _ => close_noted n) (c_close n);
  c_getfl n := on_fd n (c_getfl n);
  c_open path flags := on_note (noting open_noted) (c_open path flags);
  c_ftruncate n length := on_fd n (c_ftruncate n length);
  c_truncate path length := on_path (c_truncate path length);
  c_stat path := on_path (c_stat path);
  c_lstat path := on_path (c_lstat path);
  c_fstat n := on_fd n (c_fstat n);
  prestat_get := on_path prestat_get;
  f_read n ask := on_fd n (f_read n ask);
  f_write n bytes := on_fd n (f_write n bytes);
  f_seek n to := on_fd n (f_seek n to);
  f_metadata n := on_fd n (f_metadata n);
  f_sync_all n := on_fd n (f_sync_all n);
  f_sync_data n := on_fd n (f_sync_data n);
  f_open how path := on_note (noting lent) (f_open how path);
  f_drop n hg := snd (on_fd n (fun h => (tt, f_drop n h)) hg);
  fs_metadata path := on_path (fs_metadata path);
  fs_remove_file path := on_path (fs_remove_file path);
  fs_rename from to := on_path (fs_rename from to);
  fs_read_dir path := on_path (fs_read_dir path);
  fs_create_dir path := on_path (fs_create_dir path);
  fs_remove_dir path := on_path (fs_remove_dir path);
  decode_error_kind := decode_error_kind;
  error_string := error_string;
  room := room;
|}.

Abbreviation HH := (H * Reach)%type.
Abbreviation M A := (G HH A).

Definition reach (s : Vm HH) : Reach := snd (v_host s).
Definition sound (s : Vm HH) : Prop :=
  r_ok (reach s) = true /\ v_opened s ⊆ r_open (reach s) /\ r_open (reach s) ⊆ r_ever (reach s).

(** From a sound state that has opened [E], a program leaves a sound one, that
    has forgotten nothing it ever opened, and answers what [Q] says. *)
Definition keeps {A} (E : gset Z) (m : M A) (Q : gset Z -> A -> Prop) : Prop :=
  forall s, sound s -> E ⊆ r_ever (reach s) ->
    let '(r, s') := m s in
    sound s' /\ E ⊆ r_ever (reach s')
    /\ match r with Ok a => Q (r_ever (reach s')) a | Err _ => True end.
Definition any {A} (_ : gset Z) (_ : A) : Prop := True.

(** ** The rules *)

Lemma own_mono E E' n : own E n -> E ⊆ E' -> own E' n.
Proof. unfold own. set_solver. Qed.

Lemma keeps_ret {A} E (a : A) (Q : gset Z -> A -> Prop) :
  (forall E', E ⊆ E' -> Q E' a) -> keeps E (eret a) Q.
Proof. intros HQ s Hs HE. cbn. auto. Qed.
Lemma keeps_ret_any {A} E (a : A) : keeps E (eret a) any.
Proof. by apply keeps_ret. Qed.
Lemma keeps_throw {A} E e (Q : gset Z -> A -> Prop) : keeps E (throw e) Q.
Proof. intros s Hs HE. cbn. auto. Qed.
Lemma keeps_trap {A} E (Q : gset Z -> A -> Prop) : keeps E trap Q.
Proof. intros s Hs HE. cbn. auto. Qed.
Lemma keeps_lift {A} E (r : result Stop A) : keeps E (elift r) any.
Proof. intros s Hs HE. cbn. destruct r; unfold any; auto. Qed.
Lemma keeps_get E : keeps E eget any.
Proof. intros s Hs HE. cbn. unfold any. auto. Qed.

Lemma keeps_bind {A B} E (m : M A) (k : A -> M B) Q R :
  keeps E m Q -> (forall E' a, E ⊆ E' -> Q E' a -> keeps E' (k a) R) -> keeps E (ebind m k) R.
Proof.
  intros Hm Hk s Hs HE. unfold ebind. specialize (Hm s Hs HE).
  destruct (m s) as [[a|e] s1]; destruct Hm as (Hs1 & HE1 & HQ); [|auto].
  specialize (Hk _ a HE1 HQ s1 Hs1 (reflexivity _)).
  destruct (k a s1) as [r s2]. destruct Hk as (? & ? & ?). split_and!; try done. set_solver.
Qed.

Lemma keeps_any {A} E (m : M A) Q : keeps E m Q -> keeps E m any.
Proof.
  intros Hm s Hs HE. specialize (Hm s Hs HE). destruct (m s) as [r s'].
  destruct Hm as (? & ? & _). split_and!; try done. by destruct r.
Qed.

Lemma keeps_modify E (f : Vm HH -> Vm HH) :
  (forall s, v_opened (f s) = v_opened s /\ v_host (f s) = v_host s) -> keeps E (emodify f) any.
Proof.
  intros Hf s Hs HE. cbn. unfold sound, reach in *. destruct (Hf s) as [-> ->].
  unfold any. auto.
Qed.

Lemma keeps_note {A} E (note : A -> Reach -> Reach) (call : H -> A * H) Q :
  (forall a g, r_ok g = true -> r_open g ⊆ r_ever g -> E ⊆ r_ever g ->
     r_ok (note a g) = true /\ r_open g ⊆ r_open (note a g)
     /\ r_open (note a g) ⊆ r_ever (note a g) /\ r_ever g ⊆ r_ever (note a g)
     /\ Q (r_ever (note a g)) a) ->
  keeps E (host (on_note note call)) Q.
Proof.
  intros Hn s (Hok & Ho & He) HE. unfold host, on_note, reach in *.
  destruct (v_host s) as [h g]. cbn [fst snd] in *.
  destruct (call h) as [a h']. destruct (Hn a g Hok He HE) as (H1 & H2 & H3 & H4 & H5).
  cbn. unfold sound, reach. cbn. split_and!; try done; set_solver.
Qed.

Lemma keeps_on_fd {A} E n (call : H -> A * H) : own E n -> keeps E (host (on_fd n call)) any.
Proof.
  intros Hn. apply keeps_note. intros a g Hok Ho HE. cbn.
  rewrite Hok, bool_decide_true by (by eapply own_mono). unfold any. auto.
Qed.

Lemma keeps_on_path {A} E (call : H -> A * H) : keeps E (host (on_path call)) any.
Proof. apply keeps_note. intros a g Hok Ho HE. unfold any. auto. Qed.

Lemma keeps_f_open E how path :
  keeps E (host (f_open how path)) (fun E' r => match r with Ok n => own E' n | Err _ => True end).
Proof.
  apply (keeps_note E (noting lent) (f_open how path)). intros [n|e] g Hok Ho HE; cbn;
    unfold own; split_and!; try done; set_solver.
Qed.

Lemma keeps_f_drop E n : own E n -> keeps E (host (fun h => (tt, f_drop n h))) any.
Proof. intros Hn. exact (keeps_on_fd E n (fun h => (tt, f_drop n h)) Hn). Qed.

Lemma keeps_kept {A} E (m : M A) Q : keeps E m Q -> keeps E (kept m) any.
Proof.
  intros Hm s Hs HE. unfold kept. specialize (Hm s Hs HE).
  destruct (m s) as [[a|[e|]] s1]; destruct Hm as (? & ? & _); unfold any; auto.
Qed.

Lemma keeps_for_each {A} E (body : A -> M unit) l :
  (forall E' a, E ⊆ E' -> keeps E' (body a) any) -> keeps E (for_each body l) any.
Proof.
  revert E. induction l as [|a l IH]; intros E Hb; cbn; [apply keeps_ret_any|].
  eapply keeps_bind; [apply Hb; reflexivity|]. intros E' _ HE _. apply IH.
  intros E2 b HE2. apply Hb. set_solver.
Qed.

Lemma keeps_alloc E o : keeps E (alloc o) any.
Proof. intros s Hs HE. cbn. unfold any. auto. Qed.

Lemma keeps_stream_update E v change : keeps E (stream_update v change) any.
Proof.
  apply keeps_modify. intros s. destruct v; auto.
  destruct (v_heap s !! id) as [[]|]; auto.
Qed.

(** ** What gives a descriptor *)

Lemma reachable_own s n : sound s -> is_reachable s n = true -> own (r_ever (reach s)) n.
Proof.
  intros (_ & Ho & He) Er. unfold is_reachable in Er. unfold own.
  apply orb_true_iff in Er as [?|Er]; [by left|]. apply bool_decide_eq_true in Er. set_solver.
Qed.

(** Reading the state, kept beside what it says. *)
Lemma keeps_get_at {A} E (k : Vm HH -> M A) Q :
  (forall s, sound s -> E ⊆ r_ever (reach s) -> keeps (r_ever (reach s)) (k s) Q) ->
  keeps E (ebind eget k) Q.
Proof.
  intros Hk s Hs HE. specialize (Hk s Hs HE s Hs (reflexivity _)). unfold ebind, eget.
  destruct (k s s) as [r s']. destruct Hk as (? & ? & ?). split_and!; [done|set_solver|done].
Qed.

Lemma keeps_checked_fd E self refusal : keeps E (checked_fd self refusal) own.
Proof.
  apply keeps_get_at. intros s Hs HE.
  destruct (is_closed s self); [apply keeps_throw|].
  destruct (is_reachable s (read_fd s self)) eqn:Er; [|apply keeps_throw].
  apply keeps_ret. intros E' HE'. eapply own_mono; [by apply reachable_own|done].
Qed.

Lemma keeps_close {A} E n (f : result Z unit -> A) (a : A) :
  keeps E (let* known := forget n in
           if (known : bool) then let* r := host (c_close n) in eret (f r) else eret a) any.
Proof.
  intros s (Hok & Ho & He) HE. unfold ebind, forget, host.
  destruct (bool_decide (n ∈ v_opened s)) eqn:Ek; cbn; unfold sound, reach, any in *; cbn.
  - unfold on_note. destruct (v_host s) as [h g]. cbn [fst snd] in *.
    destruct (c_close n h) as [r h'] eqn:Ec. cbn. apply bool_decide_eq_true in Ek.
    rewrite Hok, bool_decide_true by set_solver. split_and!; try done; set_solver.
  - split_and!; try done; set_solver.
Qed.

Lemma keeps_open {A} E path flags (k : Z -> M A) :
  (forall E' n, E ⊆ E' -> keeps E' (k n) any) ->
  keeps E (let* n := or_last_errno path (host (c_open path flags)) in
           let* _ := remember n in k n) any.
Proof.
  intros Hk s (Hok & Ho & He) HE. unfold ebind at 1 2, or_last_errno, ebind, host.
  cbn. unfold on_note, reach in *. destruct (v_host s) as [h g] eqn:Eh. cbn [fst snd] in *.
  destruct (c_open path flags h) as [[n|number] h'] eqn:Ec; cbn.
  - pose (s' := with_opened ({[n]} ∪ v_opened s) (with_host (h', open_noted n g) s)).
    assert (sound s') as Hs'.
    { unfold sound, reach, s'. cbn. split_and!; try done; set_solver. }
    assert (E ⊆ r_ever (reach s')) as HE'. { unfold reach, s'. cbn. set_solver. }
    exact (Hk E n (reflexivity _) s' Hs' HE').
  - unfold sound, reach, any. cbn. auto.
Qed.
End Watched.

(** ** What a call back must keep *)

(** Ruby that reaches the host as the library lets it. *)
Class Behaved {H} `{!Libc H} (ruby : Ruby (H * Reach)) : Prop := {
  keeps_to_r_string E v : keeps E (to_r_string v) any;
  keeps_funcall E v name args : keeps E (funcall v name args) any;
  keeps_call_block E v args : keeps E (call_block v args) any;
}.

Create HintDb reach.
#[export] Hint Resolve keeps_ret_any keeps_throw keeps_trap keeps_lift keeps_get keeps_alloc
  keeps_stream_update keeps_checked_fd keeps_to_r_string keeps_funcall keeps_call_block
  keeps_on_path keeps_f_open : reach.
#[export] Hint Extern 1 (keeps _ (host _) _) => apply keeps_on_fd : reach.
#[export] Hint Extern 1 (keeps _ (host _) _) => apply keeps_on_path : reach.
#[export] Hint Extern 1 (keeps _ (host _) _) => apply keeps_f_drop : reach.
#[export] Hint Extern 2 (keeps _ (emodify _) _) =>
  (apply keeps_modify; intros ?; repeat case_match; done) : reach.

(** Descriptors proved owned before a step are owned after it. *)
Ltac lift_own HE :=
  repeat match goal with
  | Ho : own ?E ?n |- _ =>
    lazymatch type of HE with E ⊆ ?E' =>
      let Hn := fresh "Hown" in pose proof (own_mono E E' n Ho HE) as Hn; clear Ho end
  end.

(** One step of a program: a hint answers the first call of a bind, or it is a
    program of its own. *)
Ltac keeps_step :=
  lazymatch goal with
  | |- keeps _ (ebind _ _) _ =>
    first [ eapply keeps_bind; [ solve [eauto 3 with reach] | ]
          | apply keeps_bind with (Q := any); [ | ] ];
    lazymatch goal with
    | |- forall _ _, _ => let HE := fresh "HE" in intros ? ? HE ?; lift_own HE
    | _ => idtac
    end
  | |- forall _ _, _ ⊆ _ -> _ => let HE := fresh "HE" in intros ? ? HE; try intros _; lift_own HE
  | |- keeps _ (for_each _ _) _ => apply keeps_for_each
  | |- keeps _ (kept _) _ => eapply keeps_kept
  | |- keeps _ (match ?x with _ => _ end) _ => destruct x
  | |- keeps _ (let '(_, _) := ?x in _) _ => destruct x
  | |- keeps _ _ _ => solve [eauto 3 with reach | eapply keeps_any; eauto 3 with reach]
  end.
Ltac keeps_all := repeat (cbv beta zeta; keeps_step).

Section Methods.
Context {H : Type} `{!Libc H} `{RB : !Ruby (H * Reach)} `{!Behaved RB}.
Implicit Types (E : gset Z) (self v : Value).

(** ** [io.rs] and [errno.rs] *)

Lemma keeps_write_rest E turns self n rest total :
  own E n -> keeps E (write_rest turns self n rest total) any.
Proof.
  revert E rest total. induction turns as [|turns IH]; intros E rest total Hn;
    destruct rest; cbn [write_rest]; keeps_all.
Qed.
#[local] Hint Resolve keeps_write_rest : reach.

Lemma keeps_write_all_args E self n args total :
  own E n -> keeps E (write_all_args self n args total) any.
Proof.
  revert E total. induction args as [|v args IH]; intros E total Hn; cbn [write_all_args]; keeps_all.
Qed.
#[local] Hint Resolve keeps_write_all_args : reach.

Lemma keeps_io_write E self args : keeps (H:=H) E (io_write self args) any.
Proof. unfold io_write. keeps_all. Qed.
Lemma keeps_open_flags E mode path : keeps (H:=H) E (open_flags mode path) any.
Proof. unfold open_flags. keeps_all. Qed.
#[local] Hint Resolve keeps_io_write keeps_open_flags : reach.
Lemma keeps_point_at E self n path : keeps (H:=H) E (point_at self n path) any.
Proof. unfold point_at. keeps_all. Qed.
#[local] Hint Resolve keeps_point_at : reach.
Lemma keeps_release E self : keeps (H:=H) E (release self) any.
Proof. unfold release. keeps_all. Qed.
#[local] Hint Resolve keeps_release : reach.
Lemma keeps_io_new E class args : keeps (H:=H) E (io_new class args) any.
Proof. unfold io_new. keeps_all. Qed.
#[local] Hint Resolve keeps_io_new : reach.
Lemma keeps_write_one E self v : keeps (H:=H) E (write_one self v) any.
Proof. unfold write_one. keeps_all. Qed.
#[local] Hint Resolve keeps_write_one : reach.
Lemma keeps_write_newline E self : keeps (H:=H) E (write_newline self) any.
Proof. unfold write_newline, str_new. keeps_all. Qed.
#[local] Hint Resolve keeps_write_newline : reach.


Lemma keeps_io_initialize E self n mode : keeps (H:=H) E (io_initialize self n mode) any.
Proof.
  apply keeps_get_at. intros s Hs HE. destruct (is_reachable s n) eqn:Er; cbn [negb]; [|keeps_all].
  pose proof (reachable_own s n Hs Er). clear Er Hs HE. keeps_all.
Qed.
#[local] Hint Resolve keeps_io_initialize : reach.

Lemma keeps_io_initialize_copy E self orig : keeps (H:=H) E (io_initialize_copy self orig) any.
Proof. unfold io_initialize_copy. keeps_all. Qed.
#[local] Hint Resolve keeps_io_initialize_copy : reach.
Lemma keeps_io_fileno E self : keeps (H:=H) E (io_fileno self) any.
Proof. unfold io_fileno. keeps_all. Qed.
#[local] Hint Resolve keeps_io_fileno : reach.
Lemma keeps_io_print E self args : keeps (H:=H) E (io_print self args) any.
Proof. unfold io_print. keeps_all. Qed.
#[local] Hint Resolve keeps_io_print : reach.
Lemma keeps_io_printf E self args : keeps (H:=H) E (io_printf self args) any.
Proof. unfold io_printf. keeps_all. Qed.
#[local] Hint Resolve keeps_io_printf : reach.
Lemma keeps_io_p E self args : keeps (H:=H) E (io_p self args) any.
Proof. unfold io_p. keeps_all. Qed.
#[local] Hint Resolve keeps_io_p : reach.
Lemma keeps_io_lshift E self v : keeps (H:=H) E (io_lshift self v) any.
Proof. unfold io_lshift. keeps_all. Qed.
#[local] Hint Resolve keeps_io_lshift : reach.
Lemma keeps_io_sync_set E self v : keeps (H:=H) E (io_sync_set self v) any.
Proof. unfold io_sync_set. keeps_all. Qed.
#[local] Hint Resolve keeps_io_sync_set : reach.
Lemma keeps_io_flush E self : keeps (H:=H) E (io_flush self) any.
Proof. unfold io_flush. keeps_all. Qed.
#[local] Hint Resolve keeps_io_flush : reach.
Lemma keeps_sce_errno E self : keeps (H:=H) E (sce_errno self) any.
Proof. unfold sce_errno. keeps_all. Qed.
#[local] Hint Resolve keeps_sce_errno : reach.
Lemma keeps_kernel_print E args : keeps (H:=H) E (kernel_print args) any.
Proof. unfold kernel_print. keeps_all. Qed.
#[local] Hint Resolve keeps_kernel_print : reach.
Lemma keeps_kernel_puts E args : keeps (H:=H) E (kernel_puts args) any.
Proof. unfold kernel_puts. keeps_all. Qed.
#[local] Hint Resolve keeps_kernel_puts : reach.
Lemma keeps_kernel_printf E args : keeps (H:=H) E (kernel_printf args) any.
Proof. unfold kernel_printf. keeps_all. Qed.
#[local] Hint Resolve keeps_kernel_printf : reach.
Lemma keeps_kernel_p E args : keeps (H:=H) E (kernel_p args) any.
Proof. unfold kernel_p. keeps_all. Qed.
#[local] Hint Resolve keeps_kernel_p : reach.
Lemma keeps_kernel_warn E args : keeps (H:=H) E (kernel_warn args) any.
Proof. unfold kernel_warn. keeps_all. Qed.
#[local] Hint Resolve keeps_kernel_warn : reach.
Lemma keeps_kernel_putc E v : keeps (H:=H) E (kernel_putc v) any.
Proof. unfold kernel_putc. keeps_all. Qed.
#[local] Hint Resolve keeps_kernel_putc : reach.
Lemma keeps_io_putc E self v : keeps (H:=H) E (io_putc self v) any.
Proof. unfold io_putc, str_new. keeps_all. Qed.
#[local] Hint Resolve keeps_io_putc : reach.
Lemma keeps_sce_s_new E class args : keeps (H:=H) E (sce_s_new class args) any.
Proof. unfold sce_s_new. keeps_all. Qed.
#[local] Hint Resolve keeps_sce_s_new : reach.
Lemma keeps_io_init E  : keeps (H:=H) E (io_init ) any.
Proof. unfold io_init, str_new. keeps_all. Qed.
#[local] Hint Resolve keeps_io_init : reach.
Lemma keeps_opened_to_write E n : own E n -> keeps (H:=H) E (opened_to_write n) any.
Proof. intros Hn. unfold opened_to_write. keeps_all. Qed.
#[local] Hint Resolve keeps_opened_to_write : reach.

Lemma keeps_puts_one E depth self v : keeps (H:=H) E (puts_one depth self v) any.
Proof.
  revert E v. induction depth as [|depth IH]; intros E v; cbn [puts_one]; keeps_all.
Qed.
#[local] Hint Resolve keeps_puts_one : reach.
Lemma keeps_io_puts E depth self args : keeps (H:=H) E (io_puts depth self args) any.
Proof. unfold io_puts. keeps_all. Qed.
#[local] Hint Resolve keeps_io_puts : reach.

(** ** [stream.rs] *)

Lemma keeps_read_to_end E turns n limit held :
  own E n -> keeps (H:=H) E (read_to_end turns n limit held) any.
Proof.
  revert E held. induction turns as [|turns IH]; intros E held Hn; cbn [read_to_end]; keeps_all.
Qed.
Lemma keeps_write_all E turns n rest :
  own E n -> keeps (H:=H) E (write_all turns n rest) any.
Proof.
  revert E rest. induction turns as [|turns IH]; intros E rest Hn; destruct rest;
    cbn [write_all]; keeps_all.
Qed.
Lemma keeps_read_line E turns n line : own E n -> keeps (H:=H) E (read_line turns n line) any.
Proof.
  revert E line. induction turns as [|turns IH]; intros E line Hn; cbn [read_line]; keeps_all.
Qed.
#[local] Hint Resolve keeps_read_to_end keeps_write_all keeps_read_line : reach.
#[local] Hint Extern 1 (keeps _ (stream_position _) _) => apply keeps_on_fd : reach.
#[local] Hint Extern 1 (keeps _ (f_rewind _) _) => apply keeps_on_fd : reach.

Lemma keeps_readable E self : keeps (H:=H) E (readable self) own.
Proof.
  unfold readable. eapply keeps_bind; [apply keeps_checked_fd|]. intros E' n HE Hn.
  destruct (is_channel n); [apply keeps_throw|]. apply keeps_ret. intros E2 HE2. by eapply own_mono.
Qed.
#[local] Hint Resolve keeps_readable : reach.

Lemma keeps_fail {A} E self err : keeps (H:=H) E (fail (A:=A) self err) any.
Proof.
  apply keeps_get_at. intros s Hs HE.
  destruct (negb (is_closed s self)); cbn [andb]; [|keeps_all].
  destruct (is_reachable s (read_fd s self)) eqn:Er; [|keeps_all].
  pose proof (reachable_own s _ Hs Er). clear Er Hs HE. keeps_all.
Qed.
#[local] Hint Resolve keeps_fail : reach.

Lemma keeps_or_fail {A} E self (m : G (H * Reach) (result IoError A)) :
  keeps E m any -> keeps (H:=H) E (or_fail self m) any.
Proof. intros Hm. unfold or_fail. keeps_all. Qed.
Lemma keeps_io_bind {A B} E (m : G (H * Reach) (result IoError A)) (k : A -> G (H * Reach) (result IoError B)) :
  keeps E m any -> (forall E' a, E ⊆ E' -> keeps E' (k a) any) -> keeps (H:=H) E (io_bind m k) any.
Proof.
  intros Hm Hk. unfold io_bind. eapply keeps_bind; [exact Hm|]. intros E' r HE _. destruct r; [by apply Hk|].
  apply keeps_ret_any.
Qed.
#[local] Hint Extern 1 (keeps _ (or_fail _ _) _) => apply keeps_or_fail : reach.

Lemma keeps_while_line E turns lines self n body :
  own E n -> (forall E' line, E ⊆ E' -> keeps E' (body line) any) ->
  keeps (H:=H) E (while_line turns lines self n body) any.
Proof.
  revert E. induction lines as [|lines IH]; intros E Hn Hb; cbn [while_line]; [keeps_all|].
  eapply keeps_bind; [by eauto with reach|]. intros E1 line HE1 _.
  destruct line as [line|]; [|keeps_all]. eapply keeps_bind; [by apply Hb|].
  intros E2 _ HE2 _. apply IH; [eapply own_mono; [done|set_solver]|].
  intros E3 l HE3. apply Hb. set_solver.
Qed.
Lemma keeps_push E ary v : keeps (H:=H) E (push ary v) any.
Proof. unfold push. keeps_all. Qed.
Lemma keeps_replace_bytes E v bytes : keeps (H:=H) E (replace_bytes v bytes) any.
Proof. unfold replace_bytes. keeps_all. Qed.
#[local] Hint Resolve keeps_push keeps_replace_bytes : reach.
Lemma keeps_pread_chunks E turns self n length offset bytes :
  own E n -> keeps (H:=H) E (pread_chunks turns self n length offset bytes) any.
Proof.
  revert E bytes. induction turns as [|turns IH]; intros E bytes Hn; cbn [pread_chunks]; keeps_all.
Qed.
#[local] Hint Resolve keeps_pread_chunks : reach.

Ltac keeps_line :=
  match goal with |- keeps _ (while_line _ _ _ _ _) _ => apply keeps_while_line; [done|] end.

Lemma keeps_io_read E turns self len_ : keeps (H:=H) E (io_read turns self len_) any.
Proof. unfold io_read, str_new. keeps_all. Qed.
#[local] Hint Resolve keeps_io_read : reach.
Lemma keeps_io_gets E turns self : keeps (H:=H) E (io_gets turns self) any.
Proof. unfold io_gets, str_new. keeps_all. Qed.
#[local] Hint Resolve keeps_io_gets : reach.
Lemma keeps_io_each_line E turns lines self block : keeps (H:=H) E (io_each_line turns lines self block) any.
Proof. unfold io_each_line, str_new. repeat (first [keeps_line | keeps_step]). Qed.
#[local] Hint Resolve keeps_io_each_line : reach.
Lemma keeps_io_readlines E turns lines self : keeps (H:=H) E (io_readlines turns lines self) any.
Proof. unfold io_readlines, str_new. repeat (first [keeps_line | keeps_step]). Qed.
#[local] Hint Resolve keeps_io_readlines : reach.
Lemma keeps_io_eof_p E self : keeps (H:=H) E (io_eof_p self) any.
Proof.
  unfold io_eof_p. keeps_step. apply keeps_or_fail, keeps_io_bind; [eauto with reach|].
  intros E1 pos HE1. lift_own HE1. apply keeps_io_bind; [eauto with reach|]. keeps_all.
Qed.
#[local] Hint Resolve keeps_io_eof_p : reach.
Lemma keeps_seek E self offset whence : keeps (H:=H) E (seek self offset whence) any.
Proof. unfold seek. keeps_all. Qed.
#[local] Hint Resolve keeps_seek : reach.
Lemma keeps_io_seek E self offset whence : keeps (H:=H) E (io_seek self offset whence) any.
Proof. unfold io_seek. keeps_all. Qed.
#[local] Hint Resolve keeps_io_seek : reach.
Lemma keeps_io_set_pos E self offset : keeps (H:=H) E (io_set_pos self offset) any.
Proof. unfold io_set_pos. keeps_all. Qed.
#[local] Hint Resolve keeps_io_set_pos : reach.
Lemma keeps_io_rewind E self : keeps (H:=H) E (io_rewind self) any.
Proof. unfold io_rewind. keeps_all. Qed.
#[local] Hint Resolve keeps_io_rewind : reach.
Lemma keeps_io_pos E self : keeps (H:=H) E (io_pos self) any.
Proof. unfold io_pos. keeps_all. Qed.
#[local] Hint Resolve keeps_io_pos : reach.
Lemma keeps_io_pread E turns self len_ offset outbuf : keeps (H:=H) E (io_pread turns self len_ offset outbuf) any.
Proof. unfold io_pread, str_new, raise, throw. keeps_all. Qed.
#[local] Hint Resolve keeps_io_pread : reach.
Lemma keeps_io_pwrite E self data offset : keeps (H:=H) E (io_pwrite self data offset) any.
Proof. unfold io_pwrite. keeps_all. Qed.
#[local] Hint Resolve keeps_io_pwrite : reach.
Lemma keeps_sync_stream E self data_only : keeps (H:=H) E (sync_stream self data_only) any.
Proof. unfold sync_stream; destruct data_only; keeps_all. Qed.
#[local] Hint Resolve keeps_sync_stream : reach.
Lemma keeps_io_fsync E self : keeps (H:=H) E (io_fsync self) any.
Proof. unfold io_fsync. keeps_all. Qed.
#[local] Hint Resolve keeps_io_fsync : reach.
Lemma keeps_io_fdatasync E self : keeps (H:=H) E (io_fdatasync self) any.
Proof. unfold io_fdatasync. keeps_all. Qed.
#[local] Hint Resolve keeps_io_fdatasync : reach.
Lemma keeps_io_advise E self advice offset len_ : keeps (H:=H) E (io_advise self advice offset len_) any.
Proof. unfold io_advise. keeps_all. Qed.
#[local] Hint Resolve keeps_io_advise : reach.
Lemma keeps_io_close E self : keeps (H:=H) E (io_close self) any.
Proof.
  unfold io_close. do 3 keeps_step. keeps_step; [keeps_all|].
  eapply keeps_bind; [apply keeps_close|]. keeps_all.
Qed.
#[local] Hint Resolve keeps_io_close : reach.

(** ** [file.rs] and [file/stat.rs] *)

Lemma keeps_require_mount E call : keeps (H:=H) E (require_mount call) any.
Proof. unfold require_mount. keeps_all. Qed.
#[local] Hint Resolve keeps_require_mount : reach.
Lemma keeps_path_arg E v : keeps (H:=H) E (path_arg v) any.
Proof. unfold path_arg. keeps_all. Qed.
#[local] Hint Resolve keeps_path_arg : reach.
Lemma keeps_or_errno {A} E path (m : G (H * Reach) (result IoError A)) :
  keeps E m any -> keeps (H:=H) E (or_errno path m) any.
Proof. intros Hm. unfold or_errno. keeps_all. Qed.
Lemma keeps_or_last_errno {A} E path (m : G (H * Reach) (result Z A)) :
  keeps E m any -> keeps (H:=H) E (or_last_errno path m) any.
Proof. intros Hm. unfold or_last_errno. keeps_all. Qed.
#[local] Hint Extern 1 (keeps _ (or_errno _ _) _) => apply keeps_or_errno : reach.
#[local] Hint Extern 1 (keeps _ (or_last_errno _ _) _) => apply keeps_or_last_errno : reach.

Lemma keeps_file_initialize E self path mode :
  keeps (H:=H) E (file_initialize self path mode) any.
Proof. unfold file_initialize. do 3 keeps_step. apply keeps_open. keeps_all. Qed.
#[local] Hint Resolve keeps_file_initialize : reach.
Lemma keeps_file_path E self : keeps (H:=H) E (file_path self) any.
Proof. unfold file_path, str_new. keeps_all. Qed.
#[local] Hint Resolve keeps_file_path : reach.
Lemma keeps_file_size E self : keeps (H:=H) E (file_size self) any.
Proof. unfold file_size. keeps_all. Qed.
#[local] Hint Resolve keeps_file_size : reach.
Lemma keeps_file_truncate E self len_ : keeps (H:=H) E (file_truncate self len_) any.
Proof. unfold file_truncate. keeps_all. Qed.
#[local] Hint Resolve keeps_file_truncate : reach.
Lemma keeps_file_s_truncate E path len_ : keeps (H:=H) E (file_s_truncate path len_) any.
Proof. unfold file_s_truncate. keeps_all. Qed.
#[local] Hint Resolve keeps_file_s_truncate : reach.
Lemma keeps_file_s_open E class args block : keeps (H:=H) E (file_s_open class args block) any.
Proof. unfold file_s_open. keeps_all. Qed.
#[local] Hint Resolve keeps_file_s_open : reach.

(** [std]'s own open of a path, used, and closed. *)
Lemma keeps_std_open {A} E how path (use : Z -> G (H * Reach) (result IoError A)) :
  (forall E' n, E ⊆ E' -> own E' n -> keeps E' (use n) any) ->
  keeps (H:=H) E (io_bind (host (f_open how path)) (fun n =>
    let* r := use n in let* _ := host (fun h => (tt, f_drop n h)) in eret r)) any.
Proof.
  intros Hu. unfold io_bind. eapply keeps_bind; [apply keeps_f_open|]. intros E' [n|e] HE Hn; [|keeps_all].
  eapply keeps_bind; [by apply Hu|]. intros E2 r HE2 _. lift_own HE2. keeps_all.
Qed.
Lemma keeps_fs_read E turns path : keeps (H:=H) E (fs_read turns path) any.
Proof. apply keeps_std_open. eauto with reach. Qed.
#[local] Hint Resolve keeps_fs_read : reach.
Lemma keeps_file_s_read E turns path : keeps (H:=H) E (file_s_read turns path) any.
Proof. unfold file_s_read, str_new. keeps_all. Qed.
#[local] Hint Resolve keeps_file_s_read : reach.
Lemma keeps_file_s_write E turns path data : keeps (H:=H) E (file_s_write turns path data) any.
Proof.
  unfold file_s_write. do 4 keeps_step. eapply keeps_bind; [|keeps_all].
  apply keeps_or_errno, keeps_std_open. eauto with reach.
Qed.
#[local] Hint Resolve keeps_file_s_write : reach.
Lemma keeps_metadata E call path : keeps (H:=H) E (metadata call path) any.
Proof. unfold metadata. keeps_all. Qed.
#[local] Hint Resolve keeps_metadata : reach.
Lemma keeps_file_s_exist_p E path : keeps (H:=H) E (file_s_exist_p path) any.
Proof. unfold file_s_exist_p. keeps_all. Qed.
#[local] Hint Resolve keeps_file_s_exist_p : reach.
Lemma keeps_file_s_file_p E path : keeps (H:=H) E (file_s_file_p path) any.
Proof. unfold file_s_file_p. keeps_all. Qed.
#[local] Hint Resolve keeps_file_s_file_p : reach.
Lemma keeps_file_s_directory_p E path : keeps (H:=H) E (file_s_directory_p path) any.
Proof. unfold file_s_directory_p. keeps_all. Qed.
#[local] Hint Resolve keeps_file_s_directory_p : reach.
Lemma keeps_file_s_size E path : keeps (H:=H) E (file_s_size path) any.
Proof. unfold file_s_size. keeps_all. Qed.
#[local] Hint Resolve keeps_file_s_size : reach.
Lemma keeps_file_s_delete E args : keeps (H:=H) E (file_s_delete args) any.
Proof. unfold file_s_delete. keeps_all. Qed.
#[local] Hint Resolve keeps_file_s_delete : reach.
Lemma keeps_file_s_rename E from to : keeps (H:=H) E (file_s_rename from to) any.
Proof. unfold file_s_rename. keeps_all. Qed.
#[local] Hint Resolve keeps_file_s_rename : reach.
Lemma keeps_path_args E args : keeps (H:=H) E (path_args args) any.
Proof. revert E. induction args as [|v args IH]; intros E; cbn [path_args]; keeps_all. Qed.
#[local] Hint Resolve keeps_path_args : reach.
Lemma keeps_file_s_join E args : keeps (H:=H) E (file_s_join args) any.
Proof. unfold file_s_join, str_new. keeps_all. Qed.
#[local] Hint Resolve keeps_file_s_join : reach.
Lemma keeps_file_s_basename E path suffix : keeps (H:=H) E (file_s_basename path suffix) any.
Proof. unfold file_s_basename, str_new. keeps_all. Qed.
#[local] Hint Resolve keeps_file_s_basename : reach.
Lemma keeps_file_s_dirname E path : keeps (H:=H) E (file_s_dirname path) any.
Proof. unfold file_s_dirname, str_new. keeps_all. Qed.
#[local] Hint Resolve keeps_file_s_dirname : reach.
Lemma keeps_file_s_extname E path : keeps (H:=H) E (file_s_extname path) any.
Proof. unfold file_s_extname, str_new. keeps_all. Qed.
#[local] Hint Resolve keeps_file_s_extname : reach.

Lemma keeps_ask_host E call path ask :
  (forall p E', keeps E' (host (ask p)) any) -> keeps (H:=H) E (ask_host call path ask) any.
Proof. intros Ha. unfold ask_host. keeps_all. Qed.
Lemma keeps_report_at E call path ask :
  (forall p E', keeps E' (host (ask p)) any) -> keeps (H:=H) E (report_at call path ask) any.
Proof.
  intros Ha. unfold report_at. eapply keeps_bind; [by apply keeps_ask_host|].
  intros E' [p found] HE _. keeps_all.
Qed.
#[local] Hint Extern 1 (keeps _ (ask_host _ _ _) _) =>
  (apply keeps_ask_host; intros; apply keeps_on_path) : reach.
#[local] Hint Extern 1 (keeps _ (report_at _ _ _) _) =>
  (apply keeps_report_at; intros; apply keeps_on_path) : reach.
Lemma keeps_stat_of E self : keeps (H:=H) E (stat_of self) any.
Proof. unfold stat_of. keeps_all. Qed.
#[local] Hint Resolve keeps_stat_of : reach.
Lemma keeps_stat_s_new E path : keeps (H:=H) E (stat_s_new path) any.
Proof. unfold stat_s_new, report_value, str_new. keeps_all. Qed.
#[local] Hint Resolve keeps_stat_s_new : reach.
Lemma keeps_stat_copy E self orig : keeps (H:=H) E (stat_copy self orig) any.
Proof. unfold stat_copy. keeps_all. Qed.
#[local] Hint Resolve keeps_stat_copy : reach.
Lemma keeps_stat_ino E self : keeps (H:=H) E (stat_ino self) any.
Proof. unfold stat_ino. keeps_all. Qed.
#[local] Hint Resolve keeps_stat_ino : reach.
Lemma keeps_stat_nlink E self : keeps (H:=H) E (stat_nlink self) any.
Proof. unfold stat_nlink. keeps_all. Qed.
#[local] Hint Resolve keeps_stat_nlink : reach.
Lemma keeps_stat_size E self : keeps (H:=H) E (stat_size self) any.
Proof. unfold stat_size. keeps_all. Qed.
#[local] Hint Resolve keeps_stat_size : reach.
Lemma keeps_stat_size_p E self : keeps (H:=H) E (stat_size_p self) any.
Proof. unfold stat_size_p. keeps_all. Qed.
#[local] Hint Resolve keeps_stat_size_p : reach.
Lemma keeps_stat_zero_p E self : keeps (H:=H) E (stat_zero_p self) any.
Proof. unfold stat_zero_p. keeps_all. Qed.
#[local] Hint Resolve keeps_stat_zero_p : reach.
Lemma keeps_stat_ftype E self : keeps (H:=H) E (stat_ftype self) any.
Proof. unfold stat_ftype, report_value, str_new. keeps_all. Qed.
#[local] Hint Resolve keeps_stat_ftype : reach.
Lemma keeps_stat_is_p E self kind : keeps (H:=H) E (stat_is_p self kind) any.
Proof. unfold stat_is_p. keeps_all. Qed.
#[local] Hint Resolve keeps_stat_is_p : reach.
Lemma keeps_file_stat E self : keeps (H:=H) E (file_stat self) any.
Proof. unfold file_stat, report_value, str_new. keeps_all. Qed.
#[local] Hint Resolve keeps_file_stat : reach.
Lemma keeps_file_lstat E self : keeps (H:=H) E (file_lstat self) any.
Proof. unfold file_lstat, report_value, str_new. keeps_all. Qed.
#[local] Hint Resolve keeps_file_lstat : reach.
Lemma keeps_file_s_stat E path : keeps (H:=H) E (file_s_stat path) any.
Proof. unfold file_s_stat, report_value, str_new. keeps_all. Qed.
#[local] Hint Resolve keeps_file_s_stat : reach.
Lemma keeps_file_s_lstat E path : keeps (H:=H) E (file_s_lstat path) any.
Proof. unfold file_s_lstat, report_value, str_new. keeps_all. Qed.
#[local] Hint Resolve keeps_file_s_lstat : reach.
Lemma keeps_file_s_ftype E path : keeps (H:=H) E (file_s_ftype path) any.
Proof. unfold file_s_ftype, report_value, str_new. keeps_all. Qed.
#[local] Hint Resolve keeps_file_s_ftype : reach.
Lemma keeps_file_s_symlink_p E path : keeps (H:=H) E (file_s_symlink_p path) any.
Proof. unfold file_s_symlink_p. keeps_all. Qed.
#[local] Hint Resolve keeps_file_s_symlink_p : reach.
Lemma keeps_file_s_size_p E path : keeps (H:=H) E (file_s_size_p path) any.
Proof. unfold file_s_size_p. keeps_all. Qed.
#[local] Hint Resolve keeps_file_s_size_p : reach.
Lemma keeps_file_s_zero_p E path : keeps (H:=H) E (file_s_zero_p path) any.
Proof. unfold file_s_zero_p. keeps_all. Qed.
#[local] Hint Resolve keeps_file_s_zero_p : reach.

(** ** [dir.rs] *)

Lemma keeps_dir_path_arg E call v : keeps (H:=H) E (dir_path_arg call v) any.
Proof. unfold dir_path_arg. keeps_all. Qed.
#[local] Hint Resolve keeps_dir_path_arg : reach.
Lemma keeps_children E path : keeps (H:=H) E (children path) any.
Proof. unfold children. keeps_all. Qed.
#[local] Hint Resolve keeps_children : reach.
Lemma keeps_entries_of E path : keeps (H:=H) E (entries_of path) any.
Proof. unfold entries_of. keeps_all. Qed.
#[local] Hint Resolve keeps_entries_of : reach.
Lemma keeps_list_path E call v list_ :
  (forall p E', keeps E' (list_ p) any) -> keeps (H:=H) E (list_path call v list_) any.
Proof. intros Hl. unfold list_path. keeps_all. Qed.
#[local] Hint Extern 1 (keeps _ (list_path _ _ _) _) => (apply keeps_list_path; intros) : reach.
Lemma keeps_names_value E names : keeps (H:=H) E (names_value names) any.
Proof. unfold names_value, str_new. keeps_all. Qed.
#[local] Hint Resolve keeps_names_value : reach.
Lemma keeps_yield_each E block names : keeps (H:=H) E (yield_each block names) any.
Proof. unfold yield_each, str_new. keeps_all. Qed.
#[local] Hint Resolve keeps_yield_each : reach.
Lemma keeps_open_listing E call v : keeps (H:=H) E (open_listing call v) any.
Proof. unfold open_listing. keeps_all. Qed.
#[local] Hint Resolve keeps_open_listing : reach.
Lemma keeps_set_opened E self o : keeps (H:=H) E (set_opened self o) any.
Proof. unfold set_opened. keeps_all. Qed.
#[local] Hint Resolve keeps_set_opened : reach.
Lemma keeps_listing_of E self : keeps (H:=H) E (listing_of self) any.
Proof. unfold listing_of. keeps_all. Qed.
#[local] Hint Resolve keeps_listing_of : reach.
Lemma keeps_dir_close E self : keeps (H:=H) E (dir_close self) any.
Proof. unfold dir_close. keeps_all. Qed.
#[local] Hint Resolve keeps_dir_close : reach.
Lemma keeps_dir_s_new E path : keeps (H:=H) E (dir_s_new path) any.
Proof. unfold dir_s_new. keeps_all. Qed.
#[local] Hint Resolve keeps_dir_s_new : reach.
Lemma keeps_dir_s_open E path block : keeps (H:=H) E (dir_s_open path block) any.
Proof. unfold dir_s_open. keeps_all. Qed.
#[local] Hint Resolve keeps_dir_s_open : reach.
Lemma keeps_dir_s_children E path : keeps (H:=H) E (dir_s_children path) any.
Proof. unfold dir_s_children. keeps_all. Qed.
#[local] Hint Resolve keeps_dir_s_children : reach.
Lemma keeps_dir_s_entries E path : keeps (H:=H) E (dir_s_entries path) any.
Proof. unfold dir_s_entries. keeps_all. Qed.
#[local] Hint Resolve keeps_dir_s_entries : reach.
Lemma keeps_dir_s_each_child E path block : keeps (H:=H) E (dir_s_each_child path block) any.
Proof. unfold dir_s_each_child. keeps_all. Qed.
#[local] Hint Resolve keeps_dir_s_each_child : reach.
Lemma keeps_dir_s_exist_p E path : keeps (H:=H) E (dir_s_exist_p path) any.
Proof. unfold dir_s_exist_p. keeps_all. Qed.
#[local] Hint Resolve keeps_dir_s_exist_p : reach.
Lemma keeps_dir_s_empty_p E path : keeps (H:=H) E (dir_s_empty_p path) any.
Proof. unfold dir_s_empty_p. keeps_all. Qed.
#[local] Hint Resolve keeps_dir_s_empty_p : reach.
Lemma keeps_dir_s_mkdir E path : keeps (H:=H) E (dir_s_mkdir path) any.
Proof. unfold dir_s_mkdir. keeps_all. Qed.
#[local] Hint Resolve keeps_dir_s_mkdir : reach.
Lemma keeps_dir_s_rmdir E path : keeps (H:=H) E (dir_s_rmdir path) any.
Proof. unfold dir_s_rmdir. keeps_all. Qed.
#[local] Hint Resolve keeps_dir_s_rmdir : reach.
Lemma keeps_with_opened_dir {A} E self (body : OpenEntries -> A * OpenEntries) :
  keeps (H:=H) E (with_opened_dir self body) any.
Proof. unfold with_opened_dir. keeps_all. Qed.
#[local] Hint Resolve keeps_with_opened_dir : reach.
Lemma keeps_relist E self : keeps (H:=H) E (relist self) any.
Proof. unfold relist. keeps_all. Qed.
#[local] Hint Resolve keeps_relist : reach.
Lemma keeps_dir_path E self : keeps (H:=H) E (dir_path self) any.
Proof. unfold dir_path, str_new. keeps_all. Qed.
#[local] Hint Resolve keeps_dir_path : reach.
Lemma keeps_dir_inspect E self : keeps (H:=H) E (dir_inspect self) any.
Proof. unfold dir_inspect, str_new. keeps_all. Qed.
#[local] Hint Resolve keeps_dir_inspect : reach.
Lemma keeps_dir_read E self : keeps (H:=H) E (dir_read self) any.
Proof. unfold dir_read, str_new. keeps_all. Qed.
#[local] Hint Resolve keeps_dir_read : reach.
Lemma keeps_dir_each E self block : keeps (H:=H) E (dir_each self block) any.
Proof. unfold dir_each. keeps_all. Qed.
#[local] Hint Resolve keeps_dir_each : reach.
Lemma keeps_dir_children E self : keeps (H:=H) E (dir_children self) any.
Proof. unfold dir_children. keeps_all. Qed.
#[local] Hint Resolve keeps_dir_children : reach.
Lemma keeps_dir_each_child E self block : keeps (H:=H) E (dir_each_child self block) any.
Proof. unfold dir_each_child. keeps_all. Qed.
#[local] Hint Resolve keeps_dir_each_child : reach.
Lemma keeps_dir_rewind E self : keeps (H:=H) E (dir_rewind self) any.
Proof. unfold dir_rewind. keeps_all. Qed.
#[local] Hint Resolve keeps_dir_rewind : reach.

(** Every method keeps to its own. *)
Lemma keeps_perform E turns m : keeps (H:=H) E (perform turns m) any.
Proof. destruct m; cbn [perform]; unfold as_value; keeps_all. Qed.
End Methods.

(** ** Scripts *)

Section Scripts.
Context {H : Type} `{!Libc H}.
Variables (turns : nat) (scripts : Scripts).

Lemma keeps_run_script (ruby : Ruby (H * Reach)) E p :
  Behaved ruby -> keeps E (run_script turns ruby p) any.
Proof.
  intros Hb. revert E. induction p as [v|e|change k IH|out err p IH|m k IH]; intros E; cbn [run_script].
  1-4: keeps_all.
  eapply keeps_bind; [eapply keeps_kept, keeps_perform|]. intros E' r HE _. apply IH.
Qed.

Lemma ruby_at_behaved depth : Behaved (ruby_at (H:=H * Reach) turns scripts depth).
Proof.
  induction depth as [|depth IH].
  - split; intros; cbn; apply keeps_trap.
  - split; intros; cbn; (apply keeps_bind with (Q := any); [apply keeps_get|]);
      intros E' s HE _; by apply keeps_run_script.
Qed.

(** C3: whatever a script calls, and whatever its methods call back to any depth,
    the host is handed only the captured streams and descriptors an open
    answered, and is told to close only one that is open. *)
Theorem scripts_reach_their_own_descriptors depth p (h : H) :
  r_ok (reach (snd (run_guest turns scripts depth p (fresh_vm (h, MkReach ∅ ∅ true))))) = true.
Proof.
  pose proof (ruby_at_behaved depth) as Hb.
  assert (keeps (H:=H) ∅ (run_guest turns scripts depth p) any) as Hk.
  { unfold run_guest. eapply keeps_bind; [apply keeps_io_init|].
    intros E' _ _ _. by apply keeps_run_script. }
  assert (sound (fresh_vm (h, MkReach ∅ ∅ true))) as Hs.
  { unfold sound, fresh_vm, reach. cbn. split_and!; set_solver. }
  specialize (Hk _ Hs ltac:(set_solver)).
  destruct (run_guest turns scripts depth p _) as [r s']. by destruct Hk as ((? & _) & _).
Qed.
End Scripts.
