(* ===== verification/GuestIoPromises.v ===== *)
(** What the guest's I/O library promises of a regular file, whatever host holds
    it ([FileLaws]): lines are the file's, a write takes every byte, a positioned
    read moves nothing, and a mode opens what it names.

    A host may read and write less than it is asked: the laws let it, short of
    nothing while something is left. *)
From stdpp Require Import gmap.
From S2P Require Import Prelude Text GuestIo GuestFile GuestScript GuestReach.

(** ** What a file is *)

(** A descriptor open on a regular file: the file's bytes, and the position. *)
Class FileView (H : Type) := view : H -> Z -> option (list byte * nat).

(** [bs] written over [c] at [p], a gap past its end read as zeros. *)
Definition put (p : nat) (bs c : list byte) : list byte :=
  take p c ++ replicate (p - length c) x00 ++ bs ++ drop (p + length bs) c.

(** Some of [all], and not none of it while there is any. *)
Definition part (m : nat) (most : nat) (all : list byte) : Prop :=
  (m <= most /\ m <= length all /\ (all <> [] -> 0 < m))%nat.

Class FileLaws {H} `{!Libc H} (V : FileView H) : Prop := {
  law_read n ask h c p :
    view h n = Some (c, p) -> 0 < ask ->
    exists m h', f_read n ask h = (Ok (take m (drop p c)), h')
      /\ part m (Z.to_nat ask) (drop p c) /\ view h' n = Some (c, p + m)%nat;
  law_seek n back h c p :
    view h n = Some (c, p) -> (back <= p)%nat ->
    exists h', f_seek n (Current (- Z.of_nat back)) h = (Ok (Z.of_nat (p - back)), h')
      /\ view h' n = Some (c, p - back)%nat;
  law_write n bs h c p :
    view h n = Some (c, p) -> bs <> [] ->
    exists m h', c_write n bs h = (Ok (Z.of_nat m), h')
      /\ part m (length bs) bs /\ view h' n = Some (put p (take m bs) c, p + m)%nat;
  law_pread n ask at_ h c p :
    view h n = Some (c, p) -> 0 < ask -> 0 <= at_ ->
    exists m h', c_pread n ask at_ h = (Ok (take m (drop (Z.to_nat at_) c)), h')
      /\ part m (Z.to_nat ask) (drop (Z.to_nat at_) c) /\ view h' n = Some (c, p);
}.

(** mruby answers a String for itself where one is asked for. *)
Class StringLaws {H} (RB : Ruby H) : Prop :=
  string_is_itself s v bytes : str_of s v = Some bytes -> to_r_string v s = (Ok v, s).

(** ** Reference definitions *)

(** A text cut after each newline. *)
Fixpoint cut_lines (text : list byte) : list (list byte) :=
  match text with
  | [] => []
  | b :: rest =>
    if Byte.eqb newline b then [b] :: cut_lines rest
    else match cut_lines rest with
         | [] => [[b]]
         | line :: lines => (b :: line) :: lines
         end
  end.

Definition first_line (text : list byte) : list byte :=
  match position (Byte.eqb newline) text with
  | Some at_ => take (S at_) text
  | None => text
  end.

(** What a mode's letters ask for. *)
Definition mode_written (cs : list Z) : bool :=
  match cs with
  | access :: marks =>
    existsb (Z.eqb access) [114; 119; 97]
    && forallb (fun c => existsb (Z.eqb c) [43; 98; 116] || ((c =? 120) && (access =? 119))) marks
    && negb (existsb (Z.eqb 98) marks && existsb (Z.eqb 116) marks)
  | [] => false
  end.

Definition has (flag libc : Z) : bool := negb (Z.land libc flag =? 0).

(** libc's flags as what they ask: to read, to write, to create, exclusively, to
    empty, and to write at the end. *)
Definition asks (libc : Z) : bool * bool * bool * bool * bool * bool :=
  (has O_RDONLY libc, has O_WRONLY libc, has (Z.shiftl 1 12) libc, has (Z.shiftl 4 12) libc,
   has (Z.shiftl 8 12) libc, has 1 libc).

Definition mode_asks (cs : list Z) : bool * bool * bool * bool * bool * bool :=
  match cs with
  | access :: marks =>
    let plus := existsb (Z.eqb 43) marks in
    ((access =? 114) || plus, negb (access =? 114) || plus, negb (access =? 114),
     existsb (Z.eqb 120) marks, access =? 119, access =? 97)
  | [] => (false, false, false, false, false, false)
  end.

(** A stream standing for an open file, [n] its descriptor. *)
Definition stands_for {H} (s : Vm H) (self : Value) (n : Z) : Prop :=
  (exists state, stream_state s self = Some state /\ fd state = Some n)
  /\ n ∈ v_opened s /\ is_channel n = false.

(** ** Lists *)

Lemma position_app {A} (p : A -> bool) a b :
  position p (a ++ b) = match position p a with
                        | Some i => Some i
                        | None => (fun i => length a + i)%nat <$> position p b
                        end.
Proof.
  induction a as [|x a IH]; cbn; [by destruct (position p b)|].
  destruct (p x); [done|]. rewrite IH. destruct (position p a); [done|]. by destruct (position p b).
Qed.

Lemma position_lt {A} (p : A -> bool) a i : position p a = Some i -> (i < length a)%nat.
Proof.
  revert i. induction a as [|x a IH]; intros i; cbn; [done|].
  destruct (p x); [intros [= <-]; lia|]. destruct (position p a) as [j|]; [|done].
  intros [= <-]. specialize (IH j eq_refl). lia.
Qed.

Lemma first_line_here text m i :
  position (Byte.eqb newline) (take m text) = Some i -> first_line text = take (S i) (take m text).
Proof.
  intros Hp. assert (position (Byte.eqb newline) text = Some i) as E.
  { rewrite <- (take_drop m text), position_app, Hp. done. }
  unfold first_line. rewrite E. pose proof (position_lt _ _ _ Hp) as Hi.
  rewrite length_take in Hi. rewrite take_take. f_equal. lia.
Qed.

Lemma first_line_past text m :
  position (Byte.eqb newline) (take m text) = None ->
  first_line text = take m text ++ first_line (drop m text).
Proof.
  intros Hp.
  assert (position (Byte.eqb newline) text =
    (fun i => length (take m text) + i)%nat <$> position (Byte.eqb newline) (drop m text)) as E.
  { by rewrite <- (take_drop m text) at 1; rewrite position_app, Hp. }
  unfold first_line. rewrite E. destruct (position _ (drop m text)) as [i|]; cbn.
  - rewrite <- Nat.add_succ_r. rewrite <- (take_drop m text) at 2. apply take_app_add.
  - symmetry. apply take_drop.
Qed.

Lemma first_line_nil text : first_line text = [] -> text = [].
Proof.
  unfold first_line. destruct (position _ text) eqn:E; [|done]. by destruct text.
Qed.

Lemma cut_lines_first text :
  text <> [] -> cut_lines text = first_line text :: cut_lines (drop (length (first_line text)) text).
Proof.
  induction text as [|b text IH]; [done|]. intros _. cbn [cut_lines]. unfold first_line. cbn [position].
  destruct (Byte.eqb newline b); cbn; [by rewrite drop_0|].
  destruct text as [|b' text]; [done|]. rewrite IH by done. unfold first_line.
  destruct (position (Byte.eqb newline) (b' :: text)) eqn:E; cbn; [done|]. by rewrite !drop_all.
Qed.

Lemma concat_cut_lines text : concat (cut_lines text) = text.
Proof.
  induction text as [|b text IH]; [done|]. cbn [cut_lines].
  destruct (Byte.eqb newline b); cbn; [by rewrite IH|].
  destruct (cut_lines text) as [|line lines]; cbn in *; by rewrite <- IH.
Qed.

Lemma length_put p bs c : length (put p bs c) = Nat.max (length c) (p + length bs).
Proof. unfold put. rewrite !length_app, length_replicate, length_take, length_drop. lia. Qed.

Lemma put_nil p c : (p <= length c)%nat -> put p [] c = c.
Proof.
  intros Hp. unfold put. replace (p - length c)%nat with 0%nat by lia. cbn.
  rewrite Nat.add_0_r. apply take_drop.
Qed.

Lemma put_put p a b c : put (p + length a) b (put p a c) = put p (a ++ b) c.
Proof.
  unfold put at 1. rewrite length_put, (proj2 (Nat.sub_0_le _ _)) by lia. cbn [replicate app].
  unfold put. set (z := replicate (p - length c) x00).
  assert (p + length a = length ((take p c ++ z) ++ a))%nat as Hl.
  { unfold z. rewrite !length_app, length_take, length_replicate. lia. }
  replace (take p c ++ z ++ a ++ drop (p + length a) c)
    with (((take p c ++ z) ++ a) ++ drop (p + length a) c) by by rewrite <- !app_assoc.
  rewrite (length_app a b), Nat.add_assoc, !Hl, take_app_length, drop_app_add, drop_drop.
  by rewrite <- !app_assoc.
Qed.

(** ** Reading *)

Section Files.
Context {H : Type} `{!Libc H} `{RB : !Ruby H} `{!FileView H} `{!FileLaws view}.
Implicit Types (s : Vm H) (self : Value).

Lemma host_step {A} (call : H -> A * H) a h' s :
  call (v_host s) = (a, h') -> host call s = (Ok a, with_host h' s).
Proof. intros E. unfold host. by rewrite E. Qed.

(** A stream standing for [n] is readable, writable and reachable as [n]. *)
Lemma stands_checked s self n refusal :
  stands_for s self n -> checked_fd self refusal s = (Ok n, s).
Proof.
  intros ((state & Es & Ef) & Ho & Hc). unfold checked_fd, ebind, eget, is_closed, read_fd.
  rewrite Es. cbn. rewrite Ef. cbn. unfold is_reachable. rewrite Hc, bool_decide_true by done. done.
Qed.

Lemma stands_readable s self n : stands_for s self n -> readable self s = (Ok n, s).
Proof.
  intros Hs. unfold readable, ebind. rewrite (stands_checked s self n) by done.
  destruct Hs as (_ & _ & ->). done.
Qed.

Lemma as_i64_small z : 0 <= z <= CHUNK -> as_i64 z = z.
Proof.
  intros Hz. unfold as_i64, as_signed, CHUNK in *. rewrite Z.mod_small by lia. lia.
Qed.

Lemma read_line_spec turns n line s c p :
  view (v_host s) n = Some (c, p) -> (length (drop p c) < turns)%nat ->
  exists h', read_line turns n line s
    = (Ok (Ok (match line ++ first_line (drop p c) with [] => None | l => Some l end)), with_host h' s)
    /\ view h' n = Some (c, p + length (first_line (drop p c)))%nat.
Proof.
  revert line s p. induction turns as [|turns IH]; intros line s p Hv Ht; [lia|].
  destruct (law_read n CHUNK (v_host s) c p Hv eq_refl) as (m & h1 & Er & (Hm & Hl & Hp) & Hv1).
  cbn [read_line]. unfold ebind at 1. rewrite (host_step _ _ _ _ Er).
  destruct (drop p c) as [|b rest] eqn:Ed.
  { rewrite take_nil. cbn. rewrite app_nil_r. exists h1. split; [by destruct line|].
    rewrite Nat.add_0_r. cbn in Hl. by replace m with 0%nat in Hv1 by lia; rewrite Nat.add_0_r in Hv1. }
  specialize (Hp ltac:(done)). rewrite <- Ed in *.
  assert (length (take m (drop p c)) = m) as Hlm by (rewrite length_take; lia).
  destruct (take m (drop p c)) as [|b0 got] eqn:Et; [cbn in Hlm; lia|]. rewrite <- Et in *.
  destruct (position _ (take m (drop p c))) as [i|] eqn:Ep.
  - pose proof (position_lt _ _ _ Ep) as Hi. rewrite Hlm in Hi.
    rewrite as_i64_small by (unfold len, CHUNK in *; lia).
    destruct (law_seek n (m - S i) h1 c (p + m) Hv1 ltac:(lia)) as (h2 & Es & Hv2).
    unfold ebind at 1. erewrite (host_step _ _ h2);
      [|cbn; rewrite <- Es; f_equal; f_equal; unfold len; lia].
    rewrite (first_line_here _ m i Ep). exists h2. cbn. split.
    + rewrite Et. cbn. by destruct line.
    + rewrite Hv2. do 2 f_equal. rewrite length_take, Hlm. lia.
  - destruct (IH (line ++ take m (drop p c)) (with_host h1 s) (p + m)%nat Hv1) as (h2 & -> & Hv2).
    { rewrite <- drop_drop, length_drop. lia. }
    exists h2. rewrite (first_line_past _ m Ep), <- drop_drop in *. rewrite <- app_assoc. split; [done|].
    rewrite Hv2. rewrite length_app, Hlm, drop_drop. do 2 f_equal. lia.
Qed.

Lemma or_fail_ok {A} self (m : G H (result IoError A)) s a s' :
  m s = (Ok (Ok a), s') -> or_fail self m s = (Ok a, s').
Proof. intros E. unfold or_fail, ebind. by rewrite E. Qed.

(** An array of Strings, their bytes. *)
Definition holds s (ary : Value) (lines : list (list byte)) : Prop :=
  exists refs, array_of s ary = Some refs /\ Forall2 (fun r l => str_of s r = Some l) refs lines.

Lemma push_line s ary lines line :
  holds s ary lines ->
  exists s', (let* str := str_new line in push ary str) s = (Ok tt, s')
    /\ holds s' ary (lines ++ [line]) /\ v_host s' = v_host s.
Proof.
  intros (refs & Ha & Hr). unfold array_of, object in Ha. destruct ary as [| | | | |id]; try done.
  destruct (v_heap s !! id) as [[]|] eqn:Eid; simplify_eq.
  set (new := fresh (dom (v_heap s))).
  assert (v_heap s !! new = None) as Hnew by (apply not_elem_of_dom, is_fresh).
  unfold ebind, str_new, alloc, push, emodify. cbn. fold new.
  rewrite lookup_insert_ne by congruence. rewrite Eid. eexists. split; [reflexivity|]. split; [|done].
  exists (refs ++ [Ref new]). split.
  - unfold array_of, object. cbn. by rewrite lookup_insert_eq.
  - apply Forall2_app.
    + eapply Forall2_impl; [|exact Hr]. intros r l. unfold str_of, object. destruct r; try done. cbn.
      destruct (v_heap s !! id0) as [[]|] eqn:E; try done. intros [= <-].
      rewrite !lookup_insert_ne by congruence. by rewrite E.
    + constructor; [|constructor]. unfold str_of, object. cbn.
      rewrite lookup_insert_ne by congruence. by rewrite lookup_insert_eq.
Qed.

Lemma length_cut_lines text : (length (cut_lines text) <= length text)%nat.
Proof.
  induction text as [|b text IH]; cbn [cut_lines]; [done|].
  destruct (Byte.eqb newline b); [cbn [length]; lia|]. destruct (cut_lines text); cbn [length] in *; lia.
Qed.

Lemma while_lines_spec turns lines self n ary s c p acc :
  view (v_host s) n = Some (c, p) ->
  (length (drop p c) < turns)%nat -> (length (cut_lines (drop p c)) < lines)%nat ->
  holds s ary acc ->
  exists s', while_line turns lines self n (fun line => let* str := str_new line in push ary str) s
      = (Ok tt, s')
    /\ holds s' ary (acc ++ cut_lines (drop p c))
    /\ view (v_host s') n = Some (c, p + length (drop p c))%nat.
Proof.
  revert s p acc. induction lines as [|lines IH]; intros s p acc Hv Ht Hl Ha; [lia|].
  cbn [while_line]. unfold ebind at 1.
  destruct (read_line_spec turns n [] s c p Hv Ht) as (h1 & El & Hv1). cbn [app] in El.
  rewrite (or_fail_ok _ _ _ _ _ El).
  destruct (first_line (drop p c)) as [|b line] eqn:Ef.
  { apply first_line_nil in Ef. rewrite Ef in *. exists (with_host h1 s). cbn. rewrite app_nil_r.
    split_and!; done. }
  rewrite <- Ef in *. assert (drop p c <> []) as Hne by (intros E0; rewrite E0 in Ef; done).
  rewrite (cut_lines_first _ Hne) in Hl |- *. cbn in Hl.
  destruct (push_line (with_host h1 s) ary acc (first_line (drop p c)) Ha) as (s2 & E2 & Ha2 & Hh2).
  replace (match first_line (drop p c) with [] => None | _ :: _ => Some (first_line (drop p c)) end)
    with (Some (first_line (drop p c))) by by rewrite Ef.
  unfold ebind at 1. rewrite E2. rewrite drop_drop in *.
  edestruct (IH s2 (p + length (first_line (drop p c)))%nat (acc ++ [first_line (drop p c)]))
    as (s3 & E3 & Ha3 & Hv3); [by rewrite Hh2| |lia|done|].
  { rewrite length_drop in *. lia. }
  exists s3. rewrite E3. split; [done|]. rewrite <- app_assoc in Ha3. split; [done|].
  rewrite Hv3. do 2 f_equal. rewrite <- drop_drop, !length_drop.
  assert (length (first_line (drop p c)) <= length (drop p c))%nat.
  { unfold first_line. destruct (position _ _); [rewrite length_take|]; lia. }
  rewrite length_drop in *. lia.
Qed.

(** C33: of any file, [gets] answers the first line left and moves past it, or
    [nil] at the end, and [readlines] answers every line left, cut after each
    newline, and stops at the end; both take at most one turn more than there are
    bytes left, however little each read of the host gives. *)
Theorem lines_are_the_files turns s self n c p :
  stands_for s self n -> view (v_host s) n = Some (c, p) -> (length (drop p c) < turns)%nat ->
  (exists v s', io_gets turns self s = (Ok v, s')
     /\ match cut_lines (drop p c) with
        | [] => v = Nil /\ view (v_host s') n = Some (c, p)
        | line :: _ => str_of s' v = Some line
                       /\ view (v_host s') n = Some (c, p + length line)%nat
        end)
  /\ (exists ary s', io_readlines turns turns self s = (Ok ary, s')
     /\ holds s' ary (cut_lines (drop p c)) /\ concat (cut_lines (drop p c)) = drop p c
     /\ view (v_host s') n = Some (c, p + length (drop p c))%nat).
Proof.
  intros Hs Hv Ht. split.
  - destruct (read_line_spec turns n [] s c p Hv Ht) as (h1 & El & Hv1). cbn [app] in El.
    unfold io_gets, ebind at 1. rewrite (stands_readable s self n Hs).
    unfold ebind. rewrite (or_fail_ok _ _ _ _ _ El).
    destruct (first_line (drop p c)) as [|b line] eqn:Ef.
    + apply first_line_nil in Ef. rewrite Ef. cbn. do 2 eexists. split; [done|]. split; [done|].
      cbn in *. by rewrite Nat.add_0_r in Hv1.
    + rewrite cut_lines_first, Ef by (intros E0; by rewrite E0 in Ef).
      do 2 eexists. split; [reflexivity|]. split; [|done].
      unfold str_of, object. cbn. by rewrite lookup_insert_eq.
  - unfold io_readlines, ebind at 1. rewrite (stands_readable s self n Hs).
    destruct (alloc (OArray []) s) as [[ary|] s1] eqn:Ea; [|done].
    assert (holds s1 ary [] /\ v_host s1 = v_host s) as [Ha Hh].
    { injection Ea as <- <-. split; [|done]. exists []. split; [|constructor].
      unfold array_of, object. cbn. by rewrite lookup_insert_eq. }
    destruct (while_lines_spec turns turns self n ary s1 c p []) as (s2 & E2 & Ha2 & Hv2).
    + by rewrite Hh.
    + done.
    + pose proof (length_cut_lines (drop p c)). lia.
    + done.
    + unfold ebind at 1. rewrite Ea. unfold ebind at 1. rewrite E2. do 2 eexists. split; [done|]. split; [exact Ha2|].
      split; [apply concat_cut_lines|exact Hv2].
Qed.

(** ** Writing *)

(** A write of nothing changes nothing, past the end too. *)
Definition written (p : nat) (bs c : list byte) : list byte :=
  match bs with [] => c | _ => put p bs c end.

Lemma written_app p a b c : written (p + length a) b (written p a c) = written p (a ++ b) c.
Proof.
  destruct a as [|x a]; [by rewrite Nat.add_0_r|]. destruct b as [|y b]; [by rewrite app_nil_r|].
  apply put_put.
Qed.

Lemma write_rest_spec turns self n rest total s c p :
  view (v_host s) n = Some (c, p) -> (length rest <= turns)%nat -> is_channel n = false ->
  total + len rest <= I64_MAX ->
  exists h', write_rest turns self n rest total s = (Ok (total + len rest), with_host h' s)
    /\ view h' n = Some (written p rest c, p + length rest)%nat.
Proof.
  revert rest total s c p. induction turns as [|turns IH]; intros rest total s c p Hv Ht Hc Hm.
  all: destruct rest as [|b rest]; cbn in Ht; try lia.
  1-2: exists (v_host s); cbn; rewrite Z.add_0_r, Nat.add_0_r; by destruct s.
  destruct (law_write n (b :: rest) (v_host s) c p Hv ltac:(done)) as (m & h1 & Ew & (_ & Hl & Hp) & Hv1).
  specialize (Hp ltac:(done)). cbn [write_rest]. unfold ebind at 1. rewrite (host_step _ _ _ _ Ew).
  rewrite Hc, (proj2 (Z.leb_gt _ _)) by lia.
  rewrite (proj2 (Z.ltb_ge _ _)) by (unfold len; lia). rewrite Nat2Z.id.
  set (rest' := drop m (b :: rest)).
  assert (len (b :: rest) = Z.of_nat m + len rest') as Hlen.
  { unfold rest', len. rewrite length_drop. lia. }
  rewrite Z.min_r by (pose proof (len_nonneg rest'); lia).
  destruct (IH rest' (total + Z.of_nat m) (with_host h1 s) _ _ Hv1) as (h2 & E2 & Hv2); [|done|lia|].
  { unfold rest'. rewrite length_drop. cbn. lia. }
  exists h2. rewrite E2. split; [by rewrite Hlen, Z.add_assoc|]. rewrite Hv2.
  assert (length (take m (b :: rest)) = m) as Hlm by (rewrite length_take; lia).
  rewrite <- (take_drop m (b :: rest)) at 2 3. fold rest'.
  rewrite <- written_app, Hlm, length_app, Hlm, Nat.add_assoc.
  destruct (take m (b :: rest)) as [|x l]; [cbn in Hlm; lia|done].
Qed.

Lemma write_all_args_spec `{!StringLaws RB} self n args texts total s c p :
  view (v_host s) n = Some (c, p) -> is_channel n = false ->
  Forall2 (fun v text => str_of s v = Some text) args texts ->
  total + len (concat texts) <= I64_MAX ->
  exists h', write_all_args self n args total s = (Ok (total + len (concat texts)), with_host h' s)
    /\ view h' n = Some (written p (concat texts) c, p + length (concat texts))%nat.
Proof.
  intros Hv Hc Ha. revert total s c p Hv Ha. induction args as [|v args IH] in texts |- *;
    intros total s c p Hv Ha Hm; inversion Ha as [|? text ? texts' Hvt Ha']; subst.
  { exists (v_host s). cbn. rewrite Z.add_0_r, Nat.add_0_r. by destruct s. }
  cbn [concat] in *. rewrite len_app in *. pose proof (len_nonneg (concat texts')).
  cbn [write_all_args]. unfold ebind at 1. rewrite (string_is_itself s v text Hvt).
  unfold ebind at 1, eget. unfold bytes_of. rewrite Hvt. cbn [default from_option].
  destruct (write_rest_spec (length text) self n text total s c p Hv ltac:(lia) Hc ltac:(lia))
    as (h1 & E1 & Hv1).
  unfold ebind at 1. unfold default, id, from_option. rewrite E1.
  destruct (IH texts' (total + len text) (with_host h1 s) _ _ Hv1 Ha' ltac:(lia)) as (h2 & E2 & Hv2).
  exists h2. rewrite E2. split; [by rewrite Z.add_assoc|].
  by rewrite Hv2, written_app, length_app, Nat.add_assoc.
Qed.

(** What each argument in turn tells as a String, [to_s] run where it is none:
    whatever that does, it leaves the file as the write before it did. *)
Inductive Told (n : Z) : Vm H -> list byte -> nat -> list Value -> list (list byte) -> Prop :=
| Told_none s c p : Told n s c p [] []
| Told_next s c p v str text s1 args texts :
    to_r_string v s = (Ok str, s1) -> str_of s1 str = Some text -> view (v_host s1) n = Some (c, p) ->
    (forall h', view h' n = Some (written p text c, p + length text)%nat ->
       Told n (with_host h' s1) (written p text c) (p + length text) args texts) ->
    Told n s c p (v :: args) (text :: texts).

(** Strings tell themselves. *)
Lemma strings_told `{!StringLaws RB} n args texts s c p :
  view (v_host s) n = Some (c, p) -> Forall2 (fun v text => str_of s v = Some text) args texts ->
  Told n s c p args texts.
Proof.
  intros Hv Ha. revert s c p Hv Ha. induction args as [|v args IH] in texts |- *; intros s c p Hv Ha;
    inversion Ha as [|? text ? texts' Hvt Ha']; subst; [constructor|].
  apply (Told_next n s c p v v text s); [by eapply string_is_itself|done|done|].
  intros h' Hv'. by apply IH.
Qed.

Lemma write_all_args_told self n args texts total s c p :
  is_channel n = false -> Told n s c p args texts -> view (v_host s) n = Some (c, p) ->
  total + len (concat texts) <= I64_MAX ->
  exists s', write_all_args self n args total s = (Ok (total + len (concat texts)), s')
    /\ view (v_host s') n = Some (written p (concat texts) c, p + length (concat texts))%nat.
Proof.
  intros Hc Ht. revert total. induction Ht as [s c p|s c p v str text s1 args texts Er Hs Hv1 _ IH];
    intros total Hv Hm.
  { exists s. cbn. by rewrite Z.add_0_r, Nat.add_0_r. }
  cbn [concat] in *. rewrite len_app in *. pose proof (len_nonneg (concat texts)).
  cbn [write_all_args]. unfold ebind at 1. rewrite Er. unfold ebind at 1, eget. unfold bytes_of. rewrite Hs.
  destruct (write_rest_spec (length text) self n text total s1 c p Hv1 ltac:(lia) Hc ltac:(lia))
    as (h1 & E1 & Hv2).
  unfold ebind at 1. unfold default, id, from_option. rewrite E1.
  destruct (IH h1 Hv2 (total + len text) Hv2 ltac:(lia)) as (s2 & E2 & Hv3).
  exists s2. rewrite E2. split; [by rewrite Z.add_assoc|].
  by rewrite Hv3, written_app, length_app, Nat.add_assoc.
Qed.

(** C34: a file takes every byte of what every argument tells as a String, in
    order, over what stood at its position, however little each write of the host
    takes; [write] answers their number and moves past them. Arguments that are
    Strings change nothing else; of any other it is so as long as its [to_s]
    leaves the file where it stands. *)
Theorem writes_take_every_byte `{!StringLaws RB} s self n c p args texts :
  stands_for s self n -> view (v_host s) n = Some (c, p) ->
  (Told n s c p args texts \/ Forall2 (fun v text => str_of s v = Some text) args texts) ->
  len (concat texts) <= I64_MAX ->
  exists s', io_write self args s = (Ok (Int (len (concat texts))), s')
    /\ view (v_host s') n = Some (written p (concat texts) c, p + length (concat texts))%nat
    /\ (Forall2 (fun v text => str_of s v = Some text) args texts -> exists h', s' = with_host h' s).
Proof.
  intros Hs Hv Ha Hm. unfold io_write, ebind at 1. rewrite (stands_checked s self n _ Hs).
  destruct Hs as (_ & _ & Hc).
  assert (Told n s c p args texts) as Ht by (destruct Ha; [done | by apply strings_told]).
  destruct (write_all_args_told self n args texts 0 s c p Hc Ht Hv Hm) as (s1 & E1 & Hv1).
  exists s1. unfold ebind. rewrite E1. split_and!; [done..|]. intros Hf.
  destruct (write_all_args_spec self n args texts 0 s c p Hv Hc Hf Hm) as (h1 & E2 & _).
  exists h1. congruence.
Qed.

(** ** Positioned reads *)

Lemma pread_chunks_spec turns self n length_ offset bytes s c p :
  view (v_host s) n = Some (c, p) -> 0 <= offset -> offset + length_ <= I64_MAX ->
  len bytes <= length_ ->
  (length (take (Z.to_nat (length_ - len bytes)) (drop (Z.to_nat (offset + len bytes)) c)) < turns)%nat ->
  exists h', pread_chunks turns self n length_ offset bytes s
      = (Ok (bytes ++ take (Z.to_nat (length_ - len bytes)) (drop (Z.to_nat (offset + len bytes)) c)),
         with_host h' s)
    /\ view h' n = Some (c, p).
Proof.
  intros Hv Ho Hb. revert bytes s Hv. induction turns as [|turns IH]; intros bytes s Hv Hl Ht; [lia|].
  pose proof (len_nonneg bytes). cbn [pread_chunks]. destruct (length_ <=? len bytes) eqn:Ele.
  { apply Z.leb_le in Ele. replace (length_ - len bytes) with 0 by lia. cbn.
    rewrite app_nil_r. exists (v_host s). by destruct s. }
  apply Z.leb_gt in Ele. set (want := Z.min (length_ - len bytes) CHUNK).
  assert (0 < want <= CHUNK) as Hw by (unfold want, CHUNK; lia).
  replace (as_i64 (offset + len bytes)) with (offset + len bytes).
  2:{ unfold as_i64, as_signed, I64_MAX in *. rewrite Z.mod_small by lia. lia. }
  destruct (law_pread n want (offset + len bytes) (v_host s) c p Hv ltac:(lia) ltac:(lia))
    as (m & h1 & Er & (Hm & Hlm & Hp) & Hv1).
  unfold ebind at 1. rewrite (host_step _ _ _ _ Er). set (rest := drop (Z.to_nat (offset + len bytes)) c) in *.
  assert (length (take m rest) = m) as Em by (rewrite length_take; lia).
  destruct (take m rest) as [|b got] eqn:Et.
  - cbn in Em. destruct rest as [|x rest]; [|specialize (Hp ltac:(done)); lia].
    rewrite take_nil, app_nil_r. by exists h1.
  - assert (0 < m)%nat by (cbn in Em; lia).
    rewrite <- Et in *. rewrite (proj2 (Z.ltb_ge _ _)) by (unfold len; lia).
    assert (len (bytes ++ take m rest) = len bytes + Z.of_nat m) as El by (rewrite len_app; unfold len; lia).
    assert (drop (Z.to_nat (offset + len (bytes ++ take m rest))) c = drop m rest) as Ed.
    { rewrite El. unfold rest. rewrite drop_drop. f_equal. lia. }
    assert (take (Z.to_nat (length_ - len bytes)) rest
            = take m rest ++ take (Z.to_nat (length_ - len (bytes ++ take m rest))) (drop m rest)) as Es.
    { rewrite El, <- (take_drop m rest) at 1.
      replace (Z.to_nat (length_ - len bytes)) with (length (take m rest) + Z.to_nat (length_ - (len bytes + Z.of_nat m)))%nat
        by (unfold want in *; lia).
      apply take_app_add. }
    destruct (IH (bytes ++ take m rest) (with_host h1 s) Hv1) as (h2 & E2 & Hv2).
    + unfold want in *. lia.
    + rewrite Ed. rewrite Es, length_app in Ht. lia.
    + exists h2. rewrite Ed in E2. rewrite Es, app_assoc. by split.
Qed.

(** A positioned read answers exactly the bytes there, [EOFError] where there are
    none, and leaves the position where it was. *)
Theorem pread_leaves_the_position turns s self n c p length_ offset :
  stands_for s self n -> view (v_host s) n = Some (c, p) ->
  0 <= length_ <= U32_MAX -> 0 <= offset -> offset + length_ <= I64_MAX ->
  let found := take (Z.to_nat length_) (drop (Z.to_nat offset) c) in
  (length found < turns)%nat ->
  exists r s', io_pread turns self length_ offset None s = (r, s')
    /\ view (v_host s') n = Some (c, p)
    /\ (if (0 <? length_) && bool_decide (found = [])
        then r = Err (Raise (MkExn EOFError (lit "end of file reached")))
        else exists v, r = Ok v /\ str_of s' v = Some found).
Proof.
  intros Hs Hv Hl Ho Hm found Ht. unfold io_pread, ebind at 1, eget. unfold ebind at 1. cbn [eret].
  unfold eret. unfold ebind at 1. rewrite (stands_readable s self n Hs).
  unfold usize_try_from. rewrite (proj2 (Z.leb_le 0 _)), (proj2 (Z.leb_le length_ _)) by lia. cbn [andb].
  edestruct (pread_chunks_spec turns self n length_ offset [] s c p Hv Ho Hm) as (h1 & E1 & Hv1).
  { rewrite len_nil. lia. }
  { rewrite len_nil, Z.sub_0_r, Z.add_0_r. exact Ht. }
  rewrite len_nil, Z.sub_0_r, Z.add_0_r in E1. cbn [app] in E1. fold found in E1.
  unfold ebind at 1. rewrite E1. destruct found as [|b rest] eqn:Ef.
  - rewrite bool_decide_true, andb_true_r by done. destruct (0 <? length_); cbn.
    + do 2 eexists. split; [reflexivity|]. by split.
    + do 2 eexists. split; [reflexivity|]. split; [done|]. eexists. split; [done|].
      unfold str_of, object. cbn. by rewrite lookup_insert_eq.
  - rewrite bool_decide_false, andb_false_r by done. do 2 eexists. split; [reflexivity|].
    split; [done|]. eexists. split; [done|]. unfold str_of, object. cbn. by rewrite lookup_insert_eq.
Qed.
End Files.

(** ** Modes *)

(** The flags [File::Constants] names, and what an Integer of them asks. *)
Definition KNOWN : Z := Z.lor (Z.lor WRONLY RDWR) (Z.lor (Z.lor CREAT EXCL) (Z.lor TRUNC APPEND)).

Definition refused (flags : Z) : bool :=
  (Z.land flags (Z.lor WRONLY RDWR) =? 3) || negb (Z.land flags (Z.lnot KNOWN) =? 0).

Definition flags_ask (flags : Z) : bool * bool * bool * bool * bool * bool :=
  let access := Z.land flags (Z.lor WRONLY RDWR) in
  ((access =? RDONLY) || (access =? RDWR), (access =? WRONLY) || (access =? RDWR),
   has CREAT flags, has EXCL flags, has TRUNC flags, has APPEND flags).

Definition mark_ok (access c : Z) : bool :=
  existsb (Z.eqb c) [43; 98; 116] || ((c =? 120) && (access =? 119)).

Lemma read_marks_spec access cs m :
  read_marks access cs m
  = if forallb (mark_ok access) cs
    then Some (MkMarks (plus m || existsb (Z.eqb 43) cs) (binary m || existsb (Z.eqb 98) cs)
                 (text m || existsb (Z.eqb 116) cs) (exclusive m || existsb (Z.eqb 120) cs))
    else None.
Proof.
  revert m. induction cs as [|c cs IH]; intros m; cbn [read_marks forallb existsb].
  { rewrite !orb_false_r. by destruct m. }
  unfold mark_ok at 1. cbn [existsb]. rewrite !orb_false_r, !(Z.eqb_sym _ c).
  destruct (Z.eqb_spec c 43) as [->|]; [rewrite IH; cbn; by rewrite orb_true_r|].
  destruct (Z.eqb_spec c 98) as [->|]; [rewrite IH; cbn; by rewrite orb_true_r|].
  destruct (Z.eqb_spec c 116) as [->|]; [rewrite IH; cbn; by rewrite orb_true_r|].
  destruct (Z.eqb_spec c 120) as [->|]; cbn [andb orb]; [|done].
  destruct (access =? 119); cbn [andb]; [|done]. rewrite IH. cbn. by rewrite orb_true_r.
Qed.

Lemma exclusive_creates access cs :
  forallb (mark_ok access) cs = true -> access <> 119 -> existsb (Z.eqb 120) cs = false.
Proof.
  intros Hf Ha. induction cs as [|c cs IH]; [done|]. cbn [forallb existsb] in *. apply andb_true_iff in Hf as [Hc Hf].
  rewrite IH, orb_false_r by done. unfold mark_ok in Hc. rewrite (proj2 (Z.eqb_neq access 119)) in Hc by done.
  destruct (Z.eqb_spec 120 c) as [<-|]; [by vm_compute in Hc|done].
Qed.

Lemma take_flag_rest rest libc entry :
  (take_flag (rest, libc) entry).1 = Z.land rest (Z.lnot entry.1.2).
Proof.
  destruct entry as [[name flag] o_flag]. cbn. destruct (Z.land rest flag =? 0) eqn:E; cbn; [|done].
  apply Z.eqb_eq in E. apply Z.bits_inj'. intros i Hi.
  rewrite Z.land_spec, Z.lnot_spec by done.
  pose proof (f_equal (fun z => Z.testbit z i) E) as Eb. cbn in Eb.
  rewrite Z.land_spec, Z.bits_0 in Eb. by destruct (Z.testbit rest i), (Z.testbit flag i).
Qed.

Lemma take_flags_rest acc entries :
  (fold_left take_flag entries acc).1
  = fold_left (fun rest entry => Z.land rest (Z.lnot entry.1.2)) entries acc.1.
Proof.
  revert acc. induction entries as [|entry entries IH]; intros [rest libc]; [done|].
  cbn [fold_left]. by rewrite IH, take_flag_rest.
Qed.

Lemma to_libc_rest flags :
  Z.land flags (Z.lnot KNOWN) <> 0 -> to_libc flags = None.
Proof.
  intros Hr. unfold to_libc. destruct (find _ _) as [entry|]; [|done].
  cbn [mbind option_bind].
  destruct (fold_left take_flag (drop 3 FLAGS) _) as [rest libc] eqn:Ef. apply (f_equal fst) in Ef.
  rewrite take_flags_rest in Ef. cbn in Ef. rewrite <- !Z.land_assoc in Ef.
  change (Z.land (Z.lnot (Z.lor WRONLY RDWR)) _) with (Z.lnot KNOWN) in Ef.
  destruct (Z.eqb_spec rest 0) as [->|]; [|done]. by rewrite Ef in Hr.
Qed.

Lemma to_libc_named flags :
  0 <= flags < 2048 -> refused flags = false ->
  match to_libc flags with
  | Some libc => bool_decide (asks libc = flags_ask flags)
  | None => false
  end = true.
Proof.
  intros Hf Hr.
  assert (forallb (fun n => let flags := Z.of_nat n in
    refused flags || match to_libc flags with
                     | Some libc => bool_decide (asks libc = flags_ask flags)
                     | None => false
                     end) (seq 0 (Z.to_nat 2048)) = true) as Hall by by vm_compute.
  rewrite forallb_forall in Hall. specialize (Hall (Z.to_nat flags)). cbv beta zeta in Hall.
  rewrite Z2Nat.id, Hr in Hall by lia. apply Hall, in_seq. rewrite Nat.add_0_l. lia.
Qed.

Lemma to_libc_exact flags :
  if refused flags then to_libc flags = None
  else exists libc, to_libc flags = Some libc /\ asks libc = flags_ask flags.
Proof.
  destruct (Z.eq_dec (Z.land flags (Z.lnot KNOWN)) 0) as [Hk|Hk].
  - assert (flags = Z.land flags KNOWN) as Ek.
    { apply Z.bits_inj'. intros i Hi. rewrite Z.land_spec.
      pose proof (f_equal (fun z => Z.testbit z i) Hk) as Eb. cbn beta in Eb.
      rewrite Z.land_spec, Z.lnot_spec, Z.bits_0 in Eb by done.
      by destruct (Z.testbit flags i), (Z.testbit KNOWN i). }
    assert (0 <= flags < 2048) as Hf.
    { rewrite Ek. change KNOWN with (Z.land KNOWN (Z.ones 11)).
      rewrite Z.land_assoc, <- Ek, Z.land_ones by done. apply Z.mod_pos_bound. done. }
    destruct (refused flags) eqn:Er.
    + unfold refused in Er. rewrite Hk in Er. cbn in Er. rewrite orb_false_r in Er.
      apply Z.eqb_eq in Er. unfold to_libc. cbn in Er |- *. by rewrite Er.
    + pose proof (to_libc_named flags Hf Er) as Hn. destruct (to_libc flags) as [libc|]; [|done].
      apply bool_decide_eq_true in Hn. by exists libc.
  - unfold refused. rewrite (proj2 (Z.eqb_neq _ _) Hk), orb_true_r. by apply to_libc_rest.
Qed.

Lemma mode_flags_ask access m :
  access = 114 \/ access = 119 \/ access = 97 -> access = 119 \/ exclusive m = false ->
  exists libc, to_libc (mode_flags access m) = Some libc
    /\ asks libc = ((access =? 114) || plus m, negb (access =? 114) || plus m, negb (access =? 114),
                    exclusive m, access =? 119, access =? 97).
Proof.
  destruct m as [p b t x]. cbn [exclusive plus].
  intros [-> | [-> | ->]]; (intros [Hx|Hx]; [try done|]); try rewrite Hx;
    destruct p; try destruct x; (eexists; split; [reflexivity|]; reflexivity).
Qed.

(** An access mode is taken exactly where it is spelled as CRuby spells one,
    and what it opens with asks to read, write, create, exclusively, to empty and
    to append exactly as its letters say; an Integer is taken exactly where its
    bits are flags of one access, and asks what they name. *)
Theorem modes_open_what_they_name mode flags :
  (if mode_written (chars mode)
   then exists flags libc, from_string mode = Ok flags /\ to_libc flags = Some libc
          /\ asks libc = mode_asks (chars mode)
   else from_string mode = Err (argument_error (lit "invalid access mode " ++ mode)))
  /\ (if refused flags then to_libc flags = None
      else exists libc, to_libc flags = Some libc /\ asks libc = flags_ask flags).
Proof.
  split; [|apply to_libc_exact]. unfold from_string, mode_written, mode_asks.
  destruct (chars mode) as [|access marks]; [done|].
  rewrite read_marks_spec. fold (mark_ok access). cbn [existsb plus binary text exclusive orb].
  rewrite orb_false_r. change (fun c => _ || _) with (mark_ok access).
  destruct ((access =? 114) || ((access =? 119) || (access =? 97))) eqn:Ea.
  2:{ rewrite orb_assoc in Ea. by rewrite Ea. }
  assert ((access =? 114) || (access =? 119) || (access =? 97) = true) as -> by by rewrite <- orb_assoc.
  destruct (forallb (mark_ok access) marks) eqn:Ef; cbn [andb binary text]; [|done].
  destruct (existsb (Z.eqb 98) marks && existsb (Z.eqb 116) marks); cbn [negb]; [done|].
  pose proof (exclusive_creates access marks Ef) as Hx.
  set (m := MkMarks _ _ _ _).
  destruct (mode_flags_ask access m) as (libc & El & Ek).
  - rewrite !orb_true_iff, !Z.eqb_eq in Ea. done.
  - destruct (Z.eq_dec access 119); [by left|right; by apply Hx].
  - exists (mode_flags access m), libc. by split_and!.
Qed.

(** ** Where the library falls short *)

Section Short.
Context {H : Type} `{!Libc H} `{RB : !Ruby H}.

(** An array that opens with itself is put until the guest's stack is spent,
    however deep that is. *)
Theorem puts_of_itself_never_ends depth self (s : Vm H) id elems :
  array_of s (Ref id) = Some (Ref id :: elems) -> puts_one depth self (Ref id) s = (Err Trap, s).
Proof.
  intros Ha. induction depth as [|depth IH]; [done|].
  cbn [puts_one]. unfold ebind at 1, eget. rewrite Ha. cbn [for_each]. unfold ebind at 1. by rewrite IH.
Qed.

(** A length is taken modulo 2^32, so reading 4 GiB of a file reads none of it. *)
Theorem read_of_4_GiB_reads_nothing turns (s : Vm H) self n :
  stands_for s self n ->
  exists v s', io_read (S turns) self (Some (Int (2 ^ 32))) s = (Ok v, s')
    /\ str_of s' v = Some [] /\ v_host s' = v_host s.
Proof.
  intros Hs. unfold io_read, ebind at 1. rewrite (stands_readable s self n Hs).
  unfold ebind at 1. change (read_length (Some (Int (2 ^ 32)))) with (@Ok Exn _ (Some 0)). cbn [map_err elift].
  unfold ebind at 1. rewrite (or_fail_ok self _ s [] s).
  2:{ cbn [read_to_end]. rewrite (proj2 (Z.leb_le _ _)); [done|]. unfold len. cbn. lia. }
  do 2 eexists. split; [reflexivity|]. split; [|done]. unfold str_of, object. cbn. by rewrite lookup_insert_eq.
Qed.
End Short.

(** ** A host of files in memory, which reads and writes a little at a time *)

Module Shelf.
Abbreviation shelf := (gmap Z (list byte * nat)).

Definition EBADF : IoError := MkIoError (Some 8) OtherKind [].
Definition refuse {A} (h : shelf) : result IoError A * shelf := (Err EBADF, h).
Definition refuse_c {A} (h : shelf) : result Z A * shelf := (Err 8, h).

(** Three bytes of a file at most, two written. *)
Definition some_of (most : nat) (ask : nat) (all : list byte) : list byte :=
  take (Nat.min most ask) all.

#[export] Instance shelf_libc : Libc shelf := {|
  c_write n bytes h :=
    match h !! n with
    | Some (c, p) =>
      let m := length (some_of 2 (length bytes) bytes) in
      (Ok (Z.of_nat m), <[n := (put p (some_of 2 (length bytes) bytes) c, p + m)%nat]> h)
    | None => refuse_c h
    end;
  c_pread n ask at_ h :=
    match h !! n with
    | Some (c, p) => (Ok (some_of 3 (Z.to_nat ask) (drop (Z.to_nat at_) c)), h)
    | None => refuse_c h
    end;
  c_pwrite n bytes at_ h := refuse_c h;
  c_posix_fadvise n offset length_ advice h := (0, h);
  c_close n h := match h !! n with Some _ => (Ok tt, delete n h) | None => refuse_c h end;
  c_getfl n h := (Ok O_RDWR, h);
  c_open path flags h :=
    let n := 5 + Z.of_nat (base.size h) in (Ok n, <[n := ([], 0%nat)]> h);
  c_ftruncate n length_ h := refuse_c h;
  c_truncate path length_ h := refuse_c h;
  c_stat path h := refuse_c h;
  c_lstat path h := refuse_c h;
  c_fstat n h := refuse_c h;
  prestat_get h := (true, h);
  f_read n ask h :=
    match h !! n with
    | Some (c, p) =>
      let got := some_of 3 (Z.to_nat ask) (drop p c) in
      (Ok got, <[n := (c, p + length got)%nat]> h)
    | None => refuse h
    end;
  f_write n bytes h := refuse h;
  f_seek n to h :=
    match h !! n with
    | Some (c, p) =>
      let at_ := match to with
                 | Start k => k
                 | Current k => Z.of_nat p + k
                 | End_ k => len c + k
                 end in
      (Ok at_, <[n := (c, Z.to_nat at_)]> h)
    | None => refuse h
    end;
  f_metadata n h :=
    match h !! n with
    | Some (c, _) => (Ok (MkMetadata false true (len c)), h)
    | None => refuse h
    end;
  f_sync_all n h := (Ok tt, h);
  f_sync_data n h := (Ok tt, h);
  f_open how path h := refuse h;
  f_drop n h := h;
  fs_metadata path h := refuse h;
  fs_remove_file path h := refuse h;
  fs_rename from to h := refuse h;
  fs_read_dir path h := refuse h;
  fs_create_dir path h := refuse h;
  fs_remove_dir path h := refuse h;
  decode_error_kind _ := OtherKind;
  error_string _ := [];
  room _ := 32;
|}.

#[export] Instance shelf_view : FileView shelf := fun h n => h !! n.

Lemma some_of_part most ask all :
  (0 < most)%nat -> (0 < ask)%nat ->
  exists m, some_of most ask all = take m all /\ part m ask all /\ length (some_of most ask all) = m.
Proof.
  intros Hm Ha. exists (Nat.min (Nat.min most ask) (length all)). unfold some_of, part.
  rewrite length_take. split.
  - destruct (Nat.le_gt_cases (Nat.min most ask) (length all)) as [Hl|Hl].
    + by rewrite (Nat.min_l _ (length all)).
    + by rewrite !take_ge by lia.
  - split; [|done]. split_and!; [lia|lia|]. destruct all; [done|]. cbn [length]. lia.
Qed.

#[export] Instance shelf_laws : FileLaws shelf_view.
Proof.
  split; unfold view, shelf_view.
  - intros n ask h c p Hv Ha. destruct (some_of_part 3 (Z.to_nat ask) (drop p c)) as (m & Es & Hp & El); [lia|lia|].
    exists m. eexists. cbn -[some_of]. rewrite Hv, El, Es. split; [reflexivity|]. by rewrite lookup_insert_eq.
  - intros n back h c p Hv Hb. eexists. cbn -[some_of]. rewrite Hv.
    replace (Z.of_nat p + - Z.of_nat back) with (Z.of_nat (p - back)) by lia.
    split; [reflexivity|]. by rewrite lookup_insert_eq, Nat2Z.id.
  - intros n bs h c p Hv Hb. destruct (some_of_part 2 (length bs) bs) as (m & Es & Hp & El);
      [lia|destruct bs; cbn; [done|lia]|].
    exists m. eexists. cbn -[some_of]. rewrite Hv, El, Es. split; [reflexivity|]. by rewrite lookup_insert_eq.
  - intros n ask at_ h c p Hv Ha Ho.
    destruct (some_of_part 3 (Z.to_nat ask) (drop (Z.to_nat at_) c)) as (m & Es & Hp & El); [lia|lia|].
    exists m. eexists. cbn -[some_of]. rewrite Hv, Es. by split.
Qed.

(** Scripts that answer a String for itself, run [File.new]'s [initialize], give
    an Integer the String at [Ref 3] for its [to_s], and give [:swap] a [to_s] that closes the file at [Ref 1], opens another, and
    answers the String at [Ref 2]. *)
Definition shelf_scripts : Scripts := {|
  to_s_script v _ :=
    match v with
    | Symbol _ =>
      CallMethod (IoClose (Ref 1)) (fun _ =>
        CallMethod (FileSOpen (lit "File") [Ref 2; Nil] None) (fun _ => Return (Ref 2)))
    | Int _ => Return (Ref 3)
    | _ => Return v
    end;
  call_script self _ args _ :=
    match args with
    | path :: _ => CallMethod (FileInitialize self path None) (fun _ => Return Nil)
    | [] => Return Nil
    end;
  block_script _ _ _ := Return Nil;
  sc_classname _ _ := [];
  sc_range_error := MkExn RangeError [];
  sc_not_carrying := MkExn TypeError [];
  sc_class_errno _ := None;
  sc_string_from bytes := Some bytes;
|}.
End Shelf.

Section Witnesses.
Import Shelf.

(** Calls back nest three deep. *)
#[local] Instance shelf_ruby : Ruby shelf := ruby_at 10 shelf_scripts 3.

#[local] Instance shelf_strings : StringLaws shelf_ruby.
Proof. intros s v bytes Hv. by destruct v. Qed.

(** A file at descriptor 5, its bytes [ab<newline>cde], read up to its second;
    [Ref 1] is its stream and [Ref 2], [Ref 3] are Strings. *)
Definition sample_vm : Vm shelf :=
  MkVm {[ 1%N := OStream (lit "File") (MkState (Some 5) (Some (lit "f")) true);
          2%N := OString (lit "xyz"); 3%N := OString (lit "w") ]}
    {[ 5 ]} Nil Nil {[ 5 := (lit "ab" ++ [newline] ++ lit "cde", 1%nat) ]}.

Lemma sample_stands : stands_for sample_vm (Ref 1) 5.
Proof. split; [by eexists|]. split; [|done]. apply elem_of_singleton_2. done. Qed.

Theorem lines_are_the_files_witness :
  (exists v s', io_gets 10 (Ref 1) sample_vm = (Ok v, s') /\ str_of s' v = Some (lit "b" ++ [newline])
     /\ view (v_host s') 5 = Some (lit "ab" ++ [newline] ++ lit "cde", 3%nat))
  /\ (exists ary s', io_readlines 10 10 (Ref 1) sample_vm = (Ok ary, s')
     /\ holds s' ary [lit "b" ++ [newline]; lit "cde"]).
Proof.
  destruct (lines_are_the_files 10 sample_vm (Ref 1) 5 (lit "ab" ++ [newline] ++ lit "cde") 1
              sample_stands eq_refl ltac:(vm_compute; lia))
    as [(v & s1 & E1 & Hs & Hv) (ary & s2 & E2 & Ha & _)].
  split.
  - exists v, s1. split; [exact E1|]. split; [exact Hs|exact Hv].
  - exists ary, s2. split; [exact E2|exact Ha].
Defined.

(** A String, and an Integer whose [to_s] answers another. *)
Theorem writes_take_every_byte_witness :
  exists s', io_write (Ref 1) [Ref 2; Int 7] sample_vm = (Ok (Int 4), s')
    /\ view (v_host s') 5 = Some (lit "axyzwe", 5%nat).
Proof.
  assert (Told 5 sample_vm (lit "ab" ++ [newline] ++ lit "cde") 1 [Ref 2; Int 7] [lit "xyz"; lit "w"]) as Ht.
  { eapply Told_next; [reflexivity..|]. intros h' Hv'.
    eapply Told_next; [reflexivity | reflexivity | exact Hv' |]. intros. constructor. }
  destruct (writes_take_every_byte sample_vm (Ref 1) 5 (lit "ab" ++ [newline] ++ lit "cde") 1
           [Ref 2; Int 7] [lit "xyz"; lit "w"] sample_stands eq_refl
           (or_introl Ht) ltac:(vm_compute; done)) as (s' & E & Hv & _).
  exists s'. by split.
Defined.

(** A [to_s] that closes the stream written and opens another file has the write
    land in the other: the descriptor was checked before it ran. *)
Example a_write_lands_where_its_number_went :
  let '(r, s) := perform 10 (IoWrite (Ref 1) [Symbol (lit "swap")]) sample_vm in
  r = Ok (Int 3) /\ is_closed s (Ref 1) = true /\ label s (Ref 4) = lit "xyz"
  /\ read_fd s (Ref 4) = 5 /\ view (v_host s) 5 = Some (lit "xyz", 3%nat).
Proof. vm_compute. by split_and!. Qed.

(** Every open of that run is the watched host's own. *)
Example a_watched_run :
  reach (snd (run_guest (H:=shelf * Reach) 10 shelf_scripts 3
    (Memory (fun m => <[9%N := OString (lit "f")]> m) (fun _ =>
      CallMethod (FileSOpen (lit "File") [Ref 9] None) (fun r =>
        match r with
        | Ok file => CallMethod (IoClose file) (fun _ => CallMethod (IoFsync (Ref 1)) (fun _ => Return Nil))
        | Err e => Throw e
        end)))
    (fresh_vm (∅, MkReach ∅ ∅ true)))) = MkReach ∅ {[ 5 ]} true.
Proof. vm_compute. reflexivity. Qed.
End Witnesses.
